(* ===== verification/_CoqProject ===== *)
-Q . S2P
Prelude.v
Bytes.v
Text.v
Utf8.v
Events.v
MsgCodec.v
Hash256.v
TerminalMsgs.v
ScreenMsgs.v
EventMessages.v
IpcMessage.v
MessageRegistry.v
Channel.v
ChannelProps.v
FramedIo.v
Directory.v
Transports.v
Trie.v
TurnAddress.v
TurnTree.v
TurnTreeInvariant.v
TurnTreeRuns.v
TurnTreeRebuild.v
TurnTreeHash.v
TurnTreeProps.v
DependencyGraph.v
Readiness.v
ExecutionPlan.v
PlanRuns.v
PlanProps.v
ExecutionGraph.v
GraphRuns.v
GraphProps.v
GraphJobs.v
JobQueue.v
QueueRuns.v
QueueProps.v
AppState.v
Tui.v
ZBuffer.v
Canvas.v
LongDouble.v
StringMap.v
PresentationTree.v
PresentationStore.v
PresentationProps.v
Charconv.v
DoubleText.v
Config.v
Views.v
Properties.v
PropertiesIndex.v
PropertiesRuns.v
PropertiesScalars.v
PropertiesProps.v
Commands.v
CommandProps.v
Layout.v
LayoutSolve.v
LayoutProps.v
LayoutMinimum.v
Renderer.v
RenderRuns.v
RenderProps.v
Selection.v
TextEditor.v
EditorRows.v
EditorText.v
EditorMotion.v
EditorInvariant.v
EditorPaste.v
EditorProps.v
Clipboard.v
KeyProtocol.v
InputMap.v
Decoder.v
DecoderInvariant.v
DecoderText.v
DecoderChunks.v
DecoderProps.v
