(* ===== verification/Prelude.v ===== *)
(** * Verification of the puc agentic harness (development root)

    puc is a terminal application framework: subsystems with a lifecycle, a
    terminal user interface (decoder, editor, layout, renderer), a canvas of
    conversation turns, and typed messages between processes. This library
    models the parts of it that decide something, one file per component, as
    total functions over the code's own data, and proves what makes each part
    correct. Paths below are under src/.

    ** Parts and files

    Foundations. Prelude.v (this file): machine widths, the [result] type of
    fallible code with its [check]/[do] notation, the [foreach] loop with early
    exit, list lemmas and tactics. Bytes.v: byte order and cursor reads.
    Text.v: decimal and hexadecimal text.

    Messages. Utf8.v: the UTF-8 validator (utils/utf8/utf8.cpp) and the
    replacing, chunked codec of the editor. Events.v: the terminal event
    variant (puc-cli/tui/terminal/event.hpp). MsgCodec.v: the payload codec
    interface as a class with laws (msgs/codec.hpp). TerminalMsgs.v,
    ScreenMsgs.v: the five payload codecs (msgs/). EventMessages.v: conversion
    of events to messages and back. Hash256.v: digests (utils/hash/sha256.cpp).
    IpcMessage.v: the versioned envelope (utils/ipc/msg.cpp).
    MessageRegistry.v: the codec collection and envelope dispatch
    (msgs/codec.cpp), proved against the interfaces of MsgCodec.v and
    IpcMessage.v.

    Channels (utils/ipc). Channel.v: names, subscriptions and the bounded
    asynchronous queue (channel.cpp), with the pool jobs and callbacks in progress
    as a world. ChannelProps.v: its invariant and the theorems.
    FramedIo.v: length-prefixed messages over partial reads and
    writes (framed_io.cpp); what poll, read and write answer is an argument.
    Directory.v: the registry of channels (directory.cpp).
    Transports.v: relative paths, in-process channels and the
    fan-out (channel_path.cpp, smem_channel.cpp, metachannel.cpp).

    Containers. Trie.v: the flat trie (utils/containers/trie.hpp). TurnAddress.v:
    alternating turn addresses (canvas/turn/address.cpp). DependencyGraph.v: the
    dependency graph with cached layers (utils/execution_graph).

    Conversations. TurnTree.v: the tree of turns, every operation
    (canvas/turn/turn_tree.cpp). TurnTreeInvariant.v: paths, how the edits
    change them, and well-formedness. TurnTreeRuns.v: committing, the store as
    a finite map, and histories of operations, among them archiving and
    reopening. TurnTreeRebuild.v: rebuilding from stored records.
    TurnTreeHash.v: hashes, dirty nodes and the root. TurnTreeProps.v: the
    theorems. PresentationTree.v: the order-maintaining treap of rendered
    items (canvas/presentation). PresentationStore.v: ranks and shape by
    priority, the stored nodes and their links. PresentationProps.v: the
    theorems.

    Concurrency. Readiness.v: countdowns over a dependency graph (which node is
    released by which completion), shared by plans and graphs. ExecutionPlan.v,
    ExecutionGraph.v: compiled plans and mutable graphs (utils/execution_graph),
    whose runs are step relations: a world holds the run, the tasks of the worker
    threads and a log of the calls to the jobs, and a choice picks the next
    critical section, job or submission. PlanRuns.v, GraphRuns.v: the invariants
    of a run under every interleaving. PlanProps.v, GraphProps.v: the theorems.
    JobQueue.v: the priority queue with its clock, handles, worker loop and
    condition variable: sleeping threads, notifications on their way to one or
    to all of them, deadlines and spurious wake-ups are steps of their own
    (utils/multithreading/job_queue.cpp). QueueRuns.v, QueueProps.v: its
    invariant and theorems.

    Lifecycle. AppState.v: registration and the four lifecycle transitions with
    rollback (state/state.cpp), a client of the lemmas of DependencyGraph.v.
    Hooks are arbitrary functions of the whole application, so they may fail,
    throw and call back in; the model records each call in a trace.

    Configuration. StringMap.v: std::map with string keys. Charconv.v,
    DoubleText.v: std::from_chars and printing of integers and doubles, with
    the proof that seventeen digits determine a double. Config.v: views of
    parsed TOML documents and the two-root loader (utils/config/config.cpp);
    the parser, its merge and the file system are arguments. Views.v,
    Properties.v: the property service (properties/properties.cpp), each locked
    section of a load a definition of its own. PropertiesIndex.v: the directory
    that build_index makes, the effect of an assignment and of a reload.
    PropertiesRuns.v: runs with interleaved loads and their invariant.
    PropertiesScalars.v: collected scalars against resolved paths, integer
    literals. PropertiesProps.v: the theorems.

    Commands. Commands.v: the registry of spellings, notifications, the built-in
    commands (commands/command.cpp, config.cpp, quit.cpp), and the command-mode
    controller (commands/command_mode_subsystem.cpp) over a class of input
    frames. CommandProps.v: the theorems.

    Terminal interface. Tui.v: shared statuses and selection events. ZBuffer.v:
    frame stacking (rendering/zbuf.cpp). Canvas.v: the double-buffered surface
    and its transaction (rendering/canvas.cpp), with writes as explicit cell
    stores. LongDouble.v: rounding of rationals to a binary significand.
    Layout.v: layout descriptions and the solver (rendering/layout.cpp), every
    rejection included. LayoutSolve.v: lemmas on measures and on
    the memoised resolver against a direct recursive definition. LayoutProps.v,
    LayoutMinimum.v: the theorems. Renderer.v: batches of concurrent frame jobs
    (rendering/renderer.cpp) over the graph, the layout and the canvas, with
    Layout::draw as the sequential definition; a frame is a tree of canvas
    writes that depends on their statuses. GraphJobs.v: what the jobs of a graph
    may rely on. RenderRuns.v: the invariant of a batch. RenderProps.v: the
    theorems. Selection.v: the screen-owned selection
    machine (rendering/selection.cpp) over a store of shared frames and a class
    of frame laws. TextEditor.v: every member function of the text editor
    (text_input/text_editor_utils.cpp). EditorRows.v: its wrapped rows.
    EditorText.v: the abstract view of the buffer as one flat text with a caret
    offset; deletion and insertion as splices of it. EditorMotion.v: motions,
    words and selected text as offsets. EditorInvariant.v: the operations as
    steps, well-formedness, scroll bounds and caret visibility. EditorPaste.v:
    pastes. EditorProps.v: the theorems, and the editor as an instance of the
    frame interface of Selection.v.

    Terminal input. Clipboard.v: OSC 52 framing and Base64
    (terminal/clipboard.cpp). KeyProtocol.v: the pure parsers of decoder.cpp
    (strict UTF-8, numeric fields, Kitty, xterm and SGR mouse reports).
    InputMap.v: the trie of mapped sequences and its conflict checks
    (terminal/input.cpp), a client of Trie.v. Decoder.v: the decoder itself
    (terminal/decoder.cpp), every handler as a function of the decoder and the
    events emitted so far. DecoderInvariant.v: the representation invariant, the
    measure on which the loop of [process] ends, and histories of calls.
    DecoderText.v: paste events as a two-state automaton, and text events.
    DecoderChunks.v: states that differ only in how their
    input was cut, and their agreement. DecoderProps.v: the theorems.

    ** What the theorems show

    Round trips and canonicity of every codec and of the envelope, including
    truncation; the trie refines a finite map; address printing and parsing;
    the turn tree refines a finite map from addresses to turns whose addresses
    are never given out twice and whose root hash names exactly the stored
    turns; the presentation tree keeps the order of its insertions, and its root
    depends only on its contents;
    layers are the earliest topological layering and cycles are reported;
    every hook call of every reachable history is one the lifecycle allows (a
    termination hook is repeated only after it failed), a start that succeeds
    called every start hook once in dependency order, and a start that fails is
    rolled back; frame order and single selection owner;
    the editor keeps all positions inside the buffer in every run that reads no
    row out of range (the viewport resized inside a cancelled paste can make it
    do so), its deletions are exactly splices of the flat text, inserted text is
    cut exactly where its words do not fit the width and tabs reach the next
    multiple of theirs, its motions reach exactly their offsets, chunked
    pastes equal one insertion and cancelled pastes restore the state, rows
    tile the lines and the caret stays in view. The decoder returns from every
    call under every mapping, retains a bounded number of bytes, emits bracketed
    pastes and valid text whatever it is fed, and gives the same events however
    its input is cut, provided mapped sequences start with control bytes.

    Under every interleaving of the worker threads a run of a plan or a graph
    calls each job at most once and only after the jobs it depends on have
    succeeded, calls none after the first failure, reports the first failure,
    completes exactly once, and always does complete. The job queue hands out
    jobs in priority and insertion order, spaces the runs of periodic jobs by
    their interval, never leaves its workers asleep over work that is due, and
    drains on shutdown. A canvas shows exactly the picture
    of the last finished frame. A resolved layout stays within the terminal,
    equals a direct recursive reading of the constraints, does not depend on its
    caches, orders exactly the overlapping frames, and from the minimum size it
    computes on leaves every frame the characters it declares. A batch of the parallel renderer leaves the image
    of sequential drawing under every interleaving, shows no part of it before,
    and completes.

    A channel keeps the newest messages in order, calls back in order, drains,
    and once detached makes no calls but those a delivery in progress had left,
    of which a detach that waited leaves none; framed messages are read as they were written,
    and a stream that breaks inside one is reported, but not behind a length; the
    channel directory refines a map from names to channels, status by status,
    with 32-bit identifiers.

    The command dispatcher refines a map from spellings to commands; command mode
    shows the completions and the usage of what is typed, replaces it by the
    selected completion, and runs each entered line once.

    The directory of properties is exactly the index of the registered sources
    in every run, however loads interleave; properties keep their type, user
    changes survive reloads, which are transactions; the directory agrees with
    the documents; integers are parsed exactly, and every shown value, doubles
    included, can be set back.

    ** Integers, fuel and bounds

    Sizes and indexes are [nat]; where the code can wrap, values are [Z] with
    [wrap] written out. Loops with a measure run on fuel: one unit per input
    byte (Utf8.v, Text.v, the captures of Decoder.v), two per pending byte
    (process), one per node (Trie.v, DependencyGraph.v), per character of a
    line (TextEditor.v), one per frame and one more for the constraint
    resolver, one for the adjustment loop of percentage minima (Layout.v), one
    per byte of a dotted path (Config.v), one per token (Commands.v), one per
    answered round (FramedIo.v), one per byte of a channel name (Channel.v),
    one per binary digit for decimal exponents (DoubleText.v); each file
    proves that more fuel changes nothing or that the loop's result is
    complete. Allocation failure and sizes above [size_t] are not modelled.

    ** Parameters and hypotheses

    Mbed TLS's SHA-256 is a function on bytes that may fail; hypotheses on it
    say only that it returns 32 bytes, and, where hashes name contents, that
    the digests at hand do not collide. The protobuf serialisation that is
    hashed and the records a datastore loads are arguments. Lifecycle hooks,
    jobs and the clock are parameters, and so are the file system, the TOML
    parser and its merge, with no hypotheses. Layout arithmetic in long double
    is exact rational arithmetic followed by rounding to nearest-even at a
    precision that is a parameter, at least 64 bits where a theorem needs it.
    Runs and tickets are counted by 64-bit integers; theorems on histories
    assume fewer than 2^64 of them.

    ** Not modelled

    Locks (each critical section is one atomic step), condition variables other
    than the job queue's (a waiter may go on whenever its condition holds), the
    order [std::sort] gives to turns of equal addresses (the stable one is
    taken), logging, and the parts
    that are only descriptors, threads or third-party engines: sockets, shared
    memory, PTYs, termios, SQLite, TOML and JSON parsing. Reading input mappings
    out of documents and terminfo, the screen and the frames on it are not
    modelled. *)

From Stdlib Require Export ZArith Lia Bool.
From stdpp Require Export base tactics numbers list strings gmap.

#[export] Set Default Goal Selector "!".

Declare Scope puc_scope.
Delimit Scope puc_scope with puc.

(** ** Machine integers

    Bytes and fixed-width unsigned integers are integers [Z]; [wrap w] is the
    value a [w]-bit unsigned conversion keeps. *)

Abbreviation bytes := (list Z).

Definition in_width (w z : Z) : Prop := (0 <= z < 2 ^ w)%Z.
Definition wrap (w z : Z) : Z := (z `mod` 2 ^ w)%Z.

Abbreviation is_byte := (in_width 8).
Abbreviation is_u16 := (in_width 16).
Abbreviation is_u32 := (in_width 32).
Abbreviation is_u64 := (in_width 64).

(** Largest value of [std::size_t] on the supported 64-bit targets. *)
Definition size_max : Z := (2 ^ 64 - 1)%Z.

#[export] Instance in_width_dec w z : Decision (in_width w z).
Proof. unfold in_width. apply _. Defined.

Create HintDb puc.

Lemma in_width_nonneg w z : in_width w z -> (0 <= z)%Z.
Proof. unfold in_width. lia. Qed.

Lemma wrap_small w z : in_width w z -> wrap w z = z.
Proof. intros H. unfold wrap. apply Z.mod_small. exact H. Qed.

Lemma wrap_in_width w z : (0 <= w)%Z -> in_width w (wrap w z).
Proof. intros H. apply Z.mod_pos_bound. lia. Qed.

Lemma is_byte_bounds b : is_byte b <-> (0 <= b < 256)%Z.
Proof. reflexivity. Qed.

Lemma is_u32_bounds b : is_u32 b <-> (0 <= b < 4294967296)%Z.
Proof. reflexivity. Qed.

#[export] Hint Resolve in_width_nonneg wrap_in_width : puc.

(** A field packed below [a] shifted left by [n] bits adds without carry. *)
Lemma lor_shiftl_add a b n :
  (0 <= n)%Z -> (0 <= b < 2 ^ n)%Z -> Z.lor (Z.shiftl a n) b = (a * 2 ^ n + b)%Z.
Proof.
  intros Hn Hb. rewrite <- Z.shiftl_mul_pow2 by done.
  symmetry. apply Z.add_nocarry_lor, Z.bits_inj'. intros i Hi.
  rewrite Z.land_spec, Z.bits_0. destruct (decide (i < n)%Z).
  - by rewrite Z.shiftl_spec_low.
  - rewrite <- (Z.mod_small b (2 ^ n)), Z.mod_pow2_bits_high by lia.
    apply andb_false_r.
Qed.

Lemma land_63 a : Z.land a 0x3f = (a `mod` 64)%Z.
Proof. apply (Z.land_ones a 6). lia. Qed.

(** [lia] that knows the ranges of machine integers. *)
Ltac width_lia := unfold in_width in *; lia.

(** ** Exhaustive checks over small integer ranges *)

Fixpoint all_below (n : nat) (P : Z -> bool) : bool :=
  match n with
  | O => true
  | S n' => P (Z.of_nat n') && all_below n' P
  end.

Lemma all_below_spec n P :
  all_below n P = true -> forall z, (0 <= z < Z.of_nat n)%Z -> P z = true.
Proof.
  induction n as [|n IH]; intros H z Hz; [lia|].
  simpl in H. apply andb_true_iff in H as [H1 H2].
  destruct (decide (z = Z.of_nat n)) as [->|]; [done|]. apply IH; [done|lia].
Qed.

Lemma forall_byte (P : Z -> bool) :
  all_below 256 P = true -> forall b, is_byte b -> P b = true.
Proof. intros H b Hb. apply (all_below_spec 256); [done|]. unfold in_width in Hb. lia. Qed.

(** ** Fallible operations

    An operation that reports a status returns [Ok] with its outputs or [Err]
    with the status; on [Err] the C++ outputs are reset. *)

Inductive result (E A : Type) : Type :=
| Ok (value : A)
| Err (status : E).
Arguments Ok {E A} value.
Arguments Err {E A} status.

Lemma Ok_inj {E A} (x y : A) : @Ok E A x = Ok y -> x = y.
Proof. by intros [= ->]. Qed.

Definition result_bind {E A B} (r : result E A) (k : A -> result E B) : result E B :=
  match r with
  | Ok a => k a
  | Err e => Err e
  end.

(** [check guard status k]: fail with [status] unless [guard] holds. *)
Definition check {E B} (guard : bool) (status : E) (k : result E B) : result E B :=
  if guard then k else Err status.

Notation "'do' x <- r ; k" := (result_bind r (fun x => k))
  (at level 10, x pattern, r at level 100, k at level 200) : puc_scope.
#[export] Hint Unfold result_bind check : puc.
#[global] Open Scope puc_scope.

Definition is_ok_result {E A} (r : result E A) : bool :=
  match r with Ok _ => true | Err _ => false end.

#[export] Instance result_eq_dec `{EqDecision E, EqDecision A} : EqDecision (result E A).
Proof. solve_decision. Defined.

Lemma check_ok {E B} (guard : bool) (status : E) (k : result E B) b :
  check guard status k = Ok b -> guard = true /\ k = Ok b.
Proof. by destruct guard. Qed.

Lemma bind_ok {E A B} (r : result E A) (k : A -> result E B) b :
  result_bind r k = Ok b -> exists a, r = Ok a /\ k a = Ok b.
Proof. destruct r as [a|]; [by exists a|done]. Qed.

(** ** Shared tactics *)

(** Split a hypothesis about a chain of checks and binds that ended in [Ok]. *)
Ltac result_inv H :=
  repeat match type of H with
  | Ok _ = Ok _ => apply Ok_inj in H
  | Err _ = Ok _ => discriminate H
  | check _ _ _ = Ok _ =>
      let E := fresh "G" in apply check_ok in H as [E H]
  | result_bind _ _ = Ok _ =>
      let E := fresh "E" in let v := fresh "value" in
      apply bind_ok in H as (v & E & H); cbn beta in H
  end.

(** The same, also splitting the pairs the steps return. *)
Ltac result_inv_pairs H :=
  result_inv H;
  repeat (match type of H with
          | match ?p with _ => _ end = Ok _ =>
              is_var p; lazymatch type of p with prod _ _ => destruct p end
          end; result_inv H).


(** Turn the boolean tests of the modelled code into propositions. *)
Ltac bool_to_prop :=
  repeat match goal with
  | H : _ && _ = true |- _ => apply andb_true_iff in H as [? ?]
  | H : _ || _ = false |- _ => apply orb_false_iff in H as [? ?]
  | H : negb _ = true |- _ => apply negb_true_iff in H
  | H : negb _ = false |- _ => apply negb_false_iff in H
  | H : (_ <=? _)%Z = true |- _ => apply Z.leb_le in H
  | H : (_ <=? _)%Z = false |- _ => apply Z.leb_gt in H
  | H : (_ <? _)%Z = true |- _ => apply Z.ltb_lt in H
  | H : (_ <? _)%Z = false |- _ => apply Z.ltb_ge in H
  | H : (_ =? _)%Z = true |- _ => apply Z.eqb_eq in H
  | H : (_ =? _)%Z = false |- _ => apply Z.eqb_neq in H
  | H : (_ <=? _)%nat = true |- _ => apply Nat.leb_le in H
  | H : (_ <=? _)%nat = false |- _ => apply Nat.leb_gt in H
  | H : (_ <? _)%nat = true |- _ => apply Nat.ltb_lt in H
  | H : (_ <? _)%nat = false |- _ => apply Nat.ltb_ge in H
  | H : (_ =? _)%nat = true |- _ => apply Nat.eqb_eq in H
  | H : (_ =? _)%nat = false |- _ => apply Nat.eqb_neq in H
  end.

(** Case on the first guard of a modelled function found in the goal. *)
Ltac guard_goal :=
  match goal with
  | |- context [if ?b then _ else _] =>
      lazymatch type of b with
      | bool => let E := fresh "G" in destruct b eqn:E
      | sumbool _ _ => let E := fresh "G" in destruct b as [E|E]
      end
  end.

(** Case on the first guard found in hypothesis [H], dropping impossible
    branches. *)
Ltac guard_in H :=
  match type of H with
  | context [if ?b then _ else _] =>
      lazymatch type of b with
      | bool => let E := fresh "G" in destruct b eqn:E
      | sumbool _ _ => let E := fresh "G" in destruct b as [E|E]
      end
  end; try discriminate H.

(** ** Loops with early exit

    [foreach body l s] is a range-based [for] over [l] with loop state [s]:
    [body] either continues with a new state ([inr]) or leaves the loop with a
    final value ([inl], a [return] or a [break]). *)

Fixpoint foreach {X S R} (body : X -> S -> R + S) (l : list X) (s : S) : R + S :=
  match l with
  | [] => inr s
  | x :: l =>
      match body x s with
      | inl r => inl r
      | inr s => foreach body l s
      end
  end.

(** The loop rule: [P done s] holds after the iterations [done], and [Q] when
    the loop is left early. *)
Lemma foreach_inv {X S R} (body : X -> S -> R + S) (P : list X -> S -> Prop) (Q : R -> Prop) l s :
  P [] s ->
  (forall pre x post s, l = pre ++ x :: post -> P pre s ->
     match body x s with inl r => Q r | inr s' => P (pre ++ [x]) s' end) ->
  match foreach body l s with inl r => Q r | inr s' => P l s' end.
Proof.
  intros H0 Hstep.
  enough (G : forall pre post s, l = pre ++ post -> P pre s ->
    (forall pre x post s, l = pre ++ x :: post -> P pre s ->
       match body x s with inl r => Q r | inr s' => P (pre ++ [x]) s' end) ->
    match foreach body post s with inl r => Q r | inr s' => P (pre ++ post) s' end) by exact (G [] l s eq_refl H0 Hstep).
  clear s H0 Hstep. intros pre post. revert pre. induction post as [|x post IH]; intros pre s Hl Hp Hstep.
  - by rewrite app_nil_r.
  - cbn [foreach]. specialize (Hstep pre x post s Hl Hp) as Hx.
    destruct (body x s) as [r|s']; [done|]. specialize (IH (pre ++ [x]) s').
    rewrite <- app_assoc in IH. by apply IH.
Qed.

(** A loop over layers that runs the body on each element of each layer. *)
Lemma foreach_concat {X S R} (body : X -> S -> R + S) layers s :
  foreach (foreach body) layers s = foreach body (concat layers) s.
Proof.
  revert s. induction layers as [|layer layers IH]; intros s; [done|]. cbn [foreach concat].
  revert s. induction layer as [|x layer IHl]; intros s; cbn [foreach app]; [apply IH|].
  destruct (body x s); [done|]. apply IHl.
Qed.

(** ** Lists *)

Lemma take_drop_app_exact {A} (l k : list A) : take (length l) (l ++ k) = l.
Proof. by rewrite take_app_length. Qed.

Lemma list_snoc_inv {A} (l : list A) : l = [] \/ exists l' x, l = l' ++ [x].
Proof.
  destruct (rev l) as [|x l'] eqn:E.
  - left. by rewrite <- (rev_involutive l), E.
  - right. exists (rev l'), x. by rewrite <- (rev_involutive l), E.
Qed.

Lemma elem_of_flat_map {A B} (f : A -> list B) l y :
  y ∈ flat_map f l <-> exists x, x ∈ l /\ y ∈ f x.
Proof.
  rewrite list_elem_of_In, in_flat_map. by setoid_rewrite <- list_elem_of_In.
Qed.

(** Elements of a list of layers. *)
Lemma elem_of_concat_take {A} (layers : list (list A)) k j :
  j ∈ concat (take k layers) <-> exists m layer, (m < k)%nat /\ layers !! m = Some layer /\ j ∈ layer.
Proof.
  rewrite list_elem_of_In, in_concat. split.
  - intros (layer & Hl & Hj). apply list_elem_of_In, list_elem_of_lookup in Hl as [m Hm].
    apply lookup_take_Some in Hm as [Hm Hk]. exists m, layer. by rewrite list_elem_of_In.
  - intros (m & layer & Hm & Hl & Hj). exists layer. rewrite <- !list_elem_of_In. split; [|done].
    apply (list_elem_of_lookup_2 _ m). by apply lookup_take_Some.
Qed.

Lemma elem_of_layers {A} (layers : list (list A)) j :
  j ∈ concat layers <-> exists m layer, layers !! m = Some layer /\ j ∈ layer.
Proof.
  rewrite <- (take_ge layers (length layers)) at 1 by done. rewrite elem_of_concat_take.
  split; [intros (m & layer & _ & H')|intros (m & layer & H' & Hj)].
  - by exists m, layer.
  - exists m, layer. split; [by eapply lookup_lt_Some|done].
Qed.

(** Where a position of the flattened list lies in the layers. *)
Lemma concat_split {A} (layers : list (list A)) pre x post :
  concat layers = pre ++ x :: post ->
  exists a p q, layers !! a = Some (p ++ x :: q) /\ pre = concat (take a layers) ++ p.
Proof.
  revert pre. induction layers as [|layer layers IH]; intros pre E; [by destruct pre|].
  cbn [concat] in E. apply app_eq_inv in E as [(k & E1 & E2)|(k & E1 & E2)].
  - destruct k as [|y k].
    + rewrite app_nil_r in E1. subst. cbn in E2.
      destruct (IH [] (eq_sym E2)) as (a & p & q & Hl & Hp). exists (S a), p, q. split; [done|].
      cbn [take concat]. by rewrite <- app_assoc, <- Hp, app_nil_r.
    + injection E2 as <- ->. subst layer. by exists 0%nat, pre, k.
  - subst pre. destruct (IH k E2) as (a & p & q & Hl & Hp).
    exists (S a), p, q. split; [done|]. cbn [take concat]. by rewrite <- app_assoc, <- Hp.
Qed.

(** A list without duplicates splits around an element in one way. *)
Lemma nodup_split {A} (p p' q q' : list A) x :
  NoDup (p ++ x :: q) -> p ++ x :: q = p' ++ x :: q' -> p = p' /\ q = q'.
Proof.
  revert p'. induction p as [|y p IH]; intros [|y' p'] Hn E; cbn in *; simplify_eq.
  - done.
  - apply NoDup_cons in Hn as [Hn _]. destruct Hn. apply elem_of_app. right. apply list_elem_of_here.
  - apply NoDup_cons in Hn as [Hn _]. destruct Hn. apply elem_of_app. right. apply list_elem_of_here.
  - apply NoDup_cons in Hn as [_ Hn]. destruct (IH p') as [-> ->]; done.
Qed.

(** Filters that keep or drop everything. *)
Lemma list_filter_all {A} (P : A -> Prop) `{forall x, Decision (P x)} (l : list A) :
  (forall x, x ∈ l -> P x) -> filter P l = l.
Proof.
  induction l as [|x l IH]; intros Hl; [done|].
  rewrite filter_cons_True by (apply Hl, list_elem_of_here). f_equal. apply IH.
  intros y Hy. by apply Hl, list_elem_of_further.
Qed.

Lemma list_filter_none {A} (P : A -> Prop) `{forall x, Decision (P x)} (l : list A) :
  (forall x, x ∈ l -> ~ P x) -> filter P l = [].
Proof.
  induction l as [|x l IH]; intros Hl; [done|].
  rewrite filter_cons_False by (apply Hl, list_elem_of_here). apply IH.
  intros y Hy. by apply Hl, list_elem_of_further.
Qed.
