(* ===== verification/Bytes.v ===== *)
(** * Network-byte-order integers

    [append_integer]/[read_integer] of utils/ipc/msg.cpp and the fixed-width
    [append_u16], [append_u32], [read_u16], [read_u32], [append_string] and
    [read_string] the message codecs of msgs/ share. *)
From S2P Require Import Prelude.
Open Scope Z_scope.

(** [data[i]]; every modelled read is behind a size check. *)
Definition byte_at (data : bytes) (i : nat) : Z := default 0 (data !! i).

(** [data.subspan(offset, count)] *)
Definition subspan (data : bytes) (offset count : nat) : bytes :=
  take count (drop offset data).

(** ** Generic width: utils/ipc/msg.cpp *)

(** The bytes [append_integer] pushes for an [n]-byte integer. *)
Fixpoint be_bytes (n : nat) (value : Z) : bytes :=
  match n with
  | O => []
  | S n' => wrap 8 (Z.shiftr value (Z.of_nat n' * 8)) :: be_bytes n' value
  end.

Definition append_integer (n : nat) (output : bytes) (value : Z) : bytes :=
  output ++ be_bytes n value.

(** [read_integer] of an [n]-byte integer at [offset]. *)
Definition read_integer (n : nat) (data : bytes) (offset : nat) : Z :=
  fold_left
    (fun value index =>
       wrap (8 * Z.of_nat n) (Z.lor (Z.shiftl value 8) (byte_at data (offset + index))))
    (seq 0 n) 0.

(** ** Fixed widths: msgs/terminal_msgs.cpp, msgs/screen_msgs.cpp *)

Definition append_u16 (output : bytes) (value : Z) : bytes :=
  output ++ [wrap 8 (Z.shiftr value 8); wrap 8 value].

Definition append_u32 (output : bytes) (value : Z) : bytes :=
  output ++ [wrap 8 (Z.shiftr value 24); wrap 8 (Z.shiftr value 16);
             wrap 8 (Z.shiftr value 8); wrap 8 value].

Definition read_u16 (input : bytes) : Z :=
  Z.lor (Z.shiftl (byte_at input 0) 8) (byte_at input 1).

Definition read_u32 (input : bytes) : Z :=
  Z.lor (Z.lor (Z.lor (Z.shiftl (byte_at input 0) 24) (Z.shiftl (byte_at input 1) 16))
               (Z.shiftl (byte_at input 2) 8))
        (byte_at input 3).

(** [append_string]: a length prefix that must fit 32 bits. *)
Definition append_string (output value : bytes) : option bytes :=
  if 2 ^ 32 - 1 <? Z.of_nat (length value) then None
  else Some (append_u32 output (Z.of_nat (length value)) ++ value).

(** [read_string] at [offset]: the string and the advanced offset. *)
Definition read_string (payload : bytes) (offset : nat) : option (bytes * nat) :=
  if (length payload - offset <? 4)%nat then None
  else
    let size := read_u32 (subspan payload offset 4) in
    let offset := (offset + 4)%nat in
    if Z.of_nat (length payload - offset) <? size then None
    else Some (subspan payload offset (Z.to_nat size), (offset + Z.to_nat size)%nat).

(** ** Lemmas *)

Lemma length_be_bytes n value : length (be_bytes n value) = n.
Proof. induction n; simpl; congruence. Qed.

Lemma be_bytes_are_bytes n value : Forall is_byte (be_bytes n value).
Proof. induction n; simpl; constructor; [apply wrap_in_width; lia|done]. Qed.

(** Value of a big-endian byte list. *)
Definition be_value (l : bytes) : Z := fold_left (fun v b => v * 256 + b) l 0.

Lemma be_value_app l k : be_value (l ++ k) = be_value l * 256 ^ Z.of_nat (length k) + be_value k.
Proof.
  unfold be_value. rewrite fold_left_app. generalize (fold_left (fun v b => v * 256 + b) l 0) as a.
  induction k as [|b k IH]; intros a; [simpl; lia|].
  cbn [fold_left length]. rewrite (IH (a * 256 + b)), (IH (0 * 256 + b)).
  rewrite Nat2Z.inj_succ, Z.pow_succ_r by lia. lia.
Qed.

Lemma be_value_cons b l : be_value (b :: l) = b * 256 ^ Z.of_nat (length l) + be_value l.
Proof. change (b :: l) with ([b] ++ l). rewrite be_value_app. unfold be_value at 1. simpl. lia. Qed.

Lemma be_value_bound l :
  Forall is_byte l -> in_width (8 * Z.of_nat (length l)) (be_value l).
Proof.
  induction 1 as [|b l Hb Hl IH]; [done|].
  rewrite be_value_cons. unfold in_width in *. cbn [length].
  rewrite Nat2Z.inj_succ, Z.mul_succ_r, Z.pow_add_r by lia.
  rewrite (Z.pow_mul_r 2 8) in * by lia. change (2 ^ 8) with 256 in *. nia.
Qed.

Lemma be_value_be_bytes n value :
  in_width (8 * Z.of_nat n) value -> be_value (be_bytes n value) = value.
Proof.
  intros Hv. enough (H : be_value (be_bytes n value) = value mod 2 ^ (8 * Z.of_nat n))
    by (rewrite H; by apply Z.mod_small).
  clear Hv. induction n as [|n IH]; [simpl; symmetry; apply Z.mod_1_r|].
  cbn [be_bytes]. rewrite be_value_cons, IH, length_be_bytes.
  unfold wrap. rewrite Z.shiftr_div_pow2 by lia.
  replace (8 * Z.of_nat (S n)) with (8 * Z.of_nat n + 8) by lia.
  rewrite Z.pow_add_r by lia.
  replace (256 ^ Z.of_nat n) with (2 ^ (8 * Z.of_nat n)) by (by rewrite Z.pow_mul_r by lia).
  rewrite (Z.mul_comm (Z.of_nat n) 8), Z.rem_mul_r by lia. lia.
Qed.

Lemma be_bytes_be_value l :
  Forall is_byte l -> be_bytes (length l) (be_value l) = l.
Proof.
  intros Hl.
  enough (H : forall l k, Forall is_byte l -> Forall is_byte k ->
    be_bytes (length k) (be_value (l ++ k)) = k) by exact (H [] l (Forall_nil_2 _) Hl).
  clear. intros l k Hl Hk. revert l Hl. induction Hk as [|b k Hb Hk IH]; intros l Hl; [done|].
  cbn [length be_bytes]. f_equal.
  - unfold wrap. rewrite Z.shiftr_div_pow2 by lia.
    replace (l ++ b :: k) with ((l ++ [b]) ++ k) by (by rewrite <- app_assoc).
    rewrite be_value_app, (Z.mul_comm (Z.of_nat _) 8), (Z.pow_mul_r 2 8) by lia.
    pose proof (be_value_bound k Hk) as Hv. unfold in_width in Hv.
    rewrite Z.pow_mul_r in Hv by lia. change (2 ^ 8) with 256 in *.
    rewrite Z.div_add_l, (Z.div_small (be_value k)), Z.add_0_r by lia.
    rewrite be_value_app. unfold be_value at 2. simpl. unfold in_width in Hb.
    rewrite Z.add_comm, Z.mod_add, Z.mod_small by lia. done.
  - replace (l ++ b :: k) with ((l ++ [b]) ++ k) by (by rewrite <- app_assoc).
    apply IH. apply Forall_app_2; [done|by constructor].
Qed.

Lemma subspan_app pre l post :
  subspan (pre ++ l ++ post) (length pre) (length l) = l.
Proof. unfold subspan. by rewrite drop_app_length, take_app_length. Qed.

Lemma subspan_app_n pre l post n :
  length l = n -> subspan (pre ++ l ++ post) (length pre) n = l.
Proof. intros <-. apply subspan_app. Qed.

Lemma read_integer_spec n pre l post :
  Forall is_byte l -> length l = n ->
  read_integer n (pre ++ l ++ post) (length pre) = be_value l.
Proof.
  intros Hl <-. unfold read_integer, be_value.
  set (w := 8 * Z.of_nat (length l)).
  enough (H : forall done todo, l = done ++ todo ->
     fold_left (fun value index => wrap w (Z.lor (Z.shiftl value 8)
        (byte_at (pre ++ l ++ post) (length pre + index))))
        (seq (length done) (length todo)) (be_value done)
     = fold_left (fun v b => v * 256 + b) todo (be_value done)).
  { exact (H [] l eq_refl). }
  intros dn todo. revert dn. induction todo as [|b todo IH]; intros dn E; [done|].
  cbn [length seq fold_left].
  assert (Hb : byte_at (pre ++ l ++ post) (length pre + length dn) = b).
  { unfold byte_at. rewrite lookup_app_r by lia.
    replace (_ - _)%nat with (length dn) by lia.
    rewrite E, <- app_assoc. cbn [app]. by rewrite list_lookup_middle. }
  rewrite Hb.
  assert (Hall : Forall is_byte (dn ++ b :: todo)) by (by rewrite <- E).
  apply Forall_app in Hall as [Hdn Hb']. inversion Hb' as [|? ? Hbb Htodo]; subst.
  rewrite lor_shiftl_add by (unfold in_width in Hbb; lia).
  assert (Hv : be_value dn * 2 ^ 8 + b = be_value (dn ++ [b])).
  { rewrite be_value_app. unfold be_value at 3. simpl. lia. }
  change (be_value dn * 256 + b) with (be_value dn * 2 ^ 8 + b).
  rewrite Hv, wrap_small.
  - rewrite <- (IH (dn ++ [b])) by (by rewrite <- app_assoc).
    rewrite length_app. simpl. by rewrite Nat.add_1_r.
  - pose proof (be_value_bound (dn ++ [b])) as Hw.
    unfold in_width in *. rewrite length_app in Hw. simpl in Hw.
    destruct Hw as [H0 H1]; [by apply Forall_app_2; [|constructor]|].
    split; [done|]. eapply Z.lt_le_trans; [exact H1|].
    apply Z.pow_le_mono_r; [lia|]. unfold w. rewrite length_app. simpl. lia.
Qed.

(** The fixed-width helpers are the generic ones at two and four bytes. *)
Lemma append_u16_spec output value : append_u16 output value = output ++ be_bytes 2 value.
Proof. unfold append_u16. simpl. by rewrite Z.shiftr_0_r. Qed.

Lemma append_u32_spec output value : append_u32 output value = output ++ be_bytes 4 value.
Proof. unfold append_u32. simpl. by rewrite Z.shiftr_0_r. Qed.

Lemma read_u16_spec l : Forall is_byte l -> length l = 2%nat -> read_u16 l = be_value l.
Proof.
  intros Hl Hn. destruct l as [|a [|b [|]]]; try discriminate.
  rewrite !Forall_cons in Hl. destruct Hl as (Ha & Hb & _). unfold in_width in *.
  unfold read_u16, byte_at. simpl. rewrite lor_shiftl_add by lia.
  unfold be_value. simpl. lia.
Qed.

Lemma read_u32_spec l : Forall is_byte l -> length l = 4%nat -> read_u32 l = be_value l.
Proof.
  intros Hl Hn. destruct l as [|a [|b [|c [|d [|]]]]]; try discriminate.
  rewrite !Forall_cons in Hl. destruct Hl as (Ha & Hb & Hc & Hd & _). unfold in_width in *.
  unfold read_u32. change (byte_at [a; b; c; d] 0) with a.
  change (byte_at [a; b; c; d] 1) with b. change (byte_at [a; b; c; d] 2) with c.
  change (byte_at [a; b; c; d] 3) with d. rewrite <- !Z.lor_assoc.
  assert (H1 : Z.lor (Z.shiftl c 8) d = c * 256 + d) by (apply lor_shiftl_add; lia).
  assert (H2 : Z.lor (Z.shiftl b 16) (c * 256 + d) = b * 65536 + (c * 256 + d))
    by (apply lor_shiftl_add; lia).
  rewrite H1, H2, lor_shiftl_add by lia. unfold be_value. simpl. lia.
Qed.

Lemma subspan_length data offset count :
  (offset + count <= length data)%nat -> length (subspan data offset count) = count.
Proof. intros H. unfold subspan. rewrite length_take, length_drop. lia. Qed.

Lemma subspan_bytes data offset count :
  Forall is_byte data -> Forall is_byte (subspan data offset count).
Proof. intros H. by apply Forall_take, Forall_drop. Qed.

Lemma subspan_all data offset count :
  (length data - offset <= count)%nat -> subspan data offset count = drop offset data.
Proof. intros H. apply take_ge. rewrite length_drop. lia. Qed.

(** A field read at its offset, and the rest of the input split there. *)
Lemma drop_subspan data offset count :
  drop offset data = subspan data offset count ++ drop (offset + count) data.
Proof. unfold subspan. by rewrite <- drop_drop, take_drop. Qed.

Lemma subspan_here (l post : bytes) : subspan (l ++ post) 0 (length l) = l.
Proof. exact (subspan_app [] l post). Qed.

Lemma subspan_shift (pre l : bytes) offset count :
  (length pre <= offset)%nat ->
  subspan (pre ++ l) offset count = subspan l (offset - length pre) count.
Proof.
  intros H. unfold subspan. rewrite drop_app, drop_ge by done. done.
Qed.

(** Reading a field written by [append_u16]/[append_u32]. *)
Lemma read_u16_be value : is_u16 value -> read_u16 (be_bytes 2 value) = value.
Proof.
  intros H. rewrite read_u16_spec by (done || apply be_bytes_are_bytes).
  by apply be_value_be_bytes.
Qed.

Lemma read_u32_be value : is_u32 value -> read_u32 (be_bytes 4 value) = value.
Proof.
  intros H. rewrite read_u32_spec by (done || apply be_bytes_are_bytes).
  by apply be_value_be_bytes.
Qed.

Lemma read_u16_range l : Forall is_byte l -> length l = 2%nat -> is_u16 (read_u16 l).
Proof.
  intros H Hn. rewrite read_u16_spec by done.
  pose proof (be_value_bound l H) as Hb. by rewrite Hn in Hb.
Qed.

Lemma read_u32_range l : Forall is_byte l -> length l = 4%nat -> is_u32 (read_u32 l).
Proof.
  intros H Hn. rewrite read_u32_spec by done.
  pose proof (be_value_bound l H) as Hb. by rewrite Hn in Hb.
Qed.

Lemma be_bytes_read_u16 l :
  Forall is_byte l -> length l = 2%nat -> be_bytes 2 (read_u16 l) = l.
Proof. intros H Hn. rewrite read_u16_spec, <- Hn by done. by apply be_bytes_be_value. Qed.

Lemma be_bytes_read_u32 l :
  Forall is_byte l -> length l = 4%nat -> be_bytes 4 (read_u32 l) = l.
Proof. intros H Hn. rewrite read_u32_spec, <- Hn by done. by apply be_bytes_be_value. Qed.

#[export] Hint Resolve be_bytes_are_bytes subspan_bytes subspan_length
  read_u16_range read_u32_range : puc.

(** A length-prefixed string at the end of a message reads back. *)
Lemma append_string_some output value out :
  append_string output value = Some out ->
  (Z.of_nat (length value) < 2 ^ 32) /\
  out = output ++ be_bytes 4 (Z.of_nat (length value)) ++ value.
Proof.
  unfold append_string. guard_goal; [done|]. bool_to_prop. intros [= <-].
  split; [lia|]. by rewrite append_u32_spec, <- app_assoc.
Qed.

Lemma append_string_fits output value :
  Z.of_nat (length value) < 2 ^ 32 ->
  append_string output value =
    Some (output ++ be_bytes 4 (Z.of_nat (length value)) ++ value).
Proof.
  intros H. unfold append_string. rewrite (proj2 (Z.ltb_ge _ _)) by lia.
  by rewrite append_u32_spec, <- app_assoc.
Qed.

Lemma read_string_written pre value :
  Z.of_nat (length value) < 2 ^ 32 ->
  read_string (pre ++ be_bytes 4 (Z.of_nat (length value)) ++ value) (length pre) =
  Some (value, (length pre + 4 + length value)%nat).
Proof.
  intros H. unfold read_string. rewrite !length_app, length_be_bytes.
  rewrite (proj2 (Nat.ltb_ge _ _)) by lia.
  rewrite subspan_app_n by (apply length_be_bytes).
  rewrite read_u32_be by (unfold in_width; lia).
  rewrite (proj2 (Z.ltb_ge _ _)) by lia. rewrite Nat2Z.id.
  do 2 f_equal. rewrite app_assoc.
  replace (length pre + 4)%nat
    with (length (pre ++ be_bytes 4 (Z.of_nat (length value))))
    by (by rewrite length_app, length_be_bytes).
  rewrite <- (app_nil_r value) at 2. apply subspan_app.
Qed.

Lemma read_string_some payload offset value next :
  Forall is_byte payload -> (offset <= length payload)%nat ->
  read_string payload offset = Some (value, next) ->
  next = (offset + 4 + length value)%nat /\ (next <= length payload)%nat /\
  Z.of_nat (length value) < 2 ^ 32 /\ Forall is_byte value /\
  drop offset payload =
    be_bytes 4 (Z.of_nat (length value)) ++ value ++ drop next payload.
Proof.
  intros Hb Ho. unfold read_string. repeat (guard_goal; [done|]).
  intros [= <- <-]. bool_to_prop.
  set (size := read_u32 (subspan payload offset 4)) in *.
  assert (Hs : is_u32 size) by (apply read_u32_range; auto with puc; apply subspan_length; lia).
  unfold in_width in Hs.
  assert (Hlen : length (subspan payload (offset + 4) (Z.to_nat size)) = Z.to_nat size)
    by (apply subspan_length; lia).
  rewrite Hlen. split_and!; [lia|lia|lia|by apply subspan_bytes|].
  rewrite Z2Nat.id by lia. unfold size.
  rewrite be_bytes_read_u32 by (auto with puc; apply subspan_length; lia).
  by rewrite <- drop_subspan, <- drop_subspan.
Qed.

(** The same facts on the explicit byte lists the codecs build and read. *)
Lemma read_u16_appended v : is_u16 v -> read_u16 [wrap 8 (Z.shiftr v 8); wrap 8 v] = v.
Proof. intros H. pose proof (read_u16_be v H) as E. cbn in E. by rewrite Z.shiftr_0_r in E. Qed.

Lemma read_u32_appended v :
  is_u32 v ->
  read_u32 [wrap 8 (Z.shiftr v 24); wrap 8 (Z.shiftr v 16); wrap 8 (Z.shiftr v 8); wrap 8 v] = v.
Proof. intros H. pose proof (read_u32_be v H) as E. cbn in E. by rewrite Z.shiftr_0_r in E. Qed.

Lemma append_u16_read output a b :
  Forall is_byte [a; b] -> append_u16 output (read_u16 [a; b]) = output ++ [a; b].
Proof. intros H. by rewrite append_u16_spec, be_bytes_read_u16. Qed.

Lemma append_u32_read output a b c d :
  Forall is_byte [a; b; c; d] ->
  append_u32 output (read_u32 [a; b; c; d]) = output ++ [a; b; c; d].
Proof. intros H. by rewrite append_u32_spec, be_bytes_read_u32. Qed.

Lemma append_u16_bytes output v :
  Forall is_byte output -> Forall is_byte (append_u16 output v).
Proof. intros H. rewrite append_u16_spec. apply Forall_app_2; auto with puc. Qed.

Lemma append_u32_bytes output v :
  Forall is_byte output -> Forall is_byte (append_u32 output v).
Proof. intros H. rewrite append_u32_spec. apply Forall_app_2; auto with puc. Qed.

#[export] Hint Resolve append_u16_bytes append_u32_bytes : puc.

Lemma bool_byte (b : bool) : is_byte (if b then 1 else 0).
Proof. by destruct b. Qed.

(** Prove that an encoder's output consists of bytes. *)
Ltac solve_bytes :=
  repeat first
    [ assumption | reflexivity | apply bool_byte | apply append_u16_bytes | apply append_u32_bytes
    | apply be_bytes_are_bytes | apply Forall_app_2 | apply Forall_cons_2
    | apply Forall_nil_2 | (apply wrap_in_width; lia)
    | (split; [by vm_compute | by vm_compute]) | (unfold in_width in *; lia) ].

(** Discharge the range guards of a decoder. *)
Ltac range_guards :=
  unfold check;
  repeat match goal with
  | H : ?b = true |- context [?b] => rewrite H
  | |- context [?a <? ?b] => rewrite (proj2 (Z.ltb_ge a b)) by width_lia
  | |- context [?a <=? ?b] => rewrite (proj2 (Z.leb_le a b)) by width_lia
  end; cbn [negb orb andb]; rewrite ?negb_involutive.

(** An integer field is the value of the bytes of its span. *)
Lemma read_integer_split n data offset :
  (offset + n <= length data)%nat ->
  read_integer n data offset =
    read_integer n (take offset data ++ subspan data offset n ++ drop (offset + n) data)
      (length (take offset data)).
Proof.
  intros H. f_equal; [|by rewrite length_take; lia].
  by rewrite <- drop_subspan, take_drop.
Qed.

Lemma read_integer_subspan n data offset :
  Forall is_byte data -> (offset + n <= length data)%nat ->
  read_integer n data offset = be_value (subspan data offset n).
Proof.
  intros Hb Hl. rewrite read_integer_split by done.
  apply read_integer_spec; [by apply subspan_bytes|by apply subspan_length].
Qed.

Lemma read_integer_range n data offset :
  Forall is_byte data -> (offset + n <= length data)%nat ->
  in_width (8 * Z.of_nat n) (read_integer n data offset).
Proof.
  intros Hb Hl. rewrite read_integer_subspan by done.
  rewrite <- (subspan_length data offset n) at 1 by done.
  by apply be_value_bound, subspan_bytes.
Qed.

Lemma be_bytes_read_integer n data offset :
  Forall is_byte data -> (offset + n <= length data)%nat ->
  be_bytes n (read_integer n data offset) = subspan data offset n.
Proof.
  intros Hb Hl. rewrite read_integer_subspan by done.
  rewrite <- (subspan_length data offset n) at 1 by done.
  by apply be_bytes_be_value, subspan_bytes.
Qed.

Lemma read_integer_written n data offset value :
  in_width (8 * Z.of_nat n) value -> (offset + n <= length data)%nat ->
  subspan data offset n = be_bytes n value -> read_integer n data offset = value.
Proof.
  intros Hv Hl E.
  rewrite read_integer_split, E by done.
  rewrite read_integer_spec by (apply be_bytes_are_bytes || apply length_be_bytes).
  by apply be_value_be_bytes.
Qed.

(** Reads below the end of the input do not see what follows it. *)
Lemma byte_at_app data more i : (i < length data)%nat -> byte_at (data ++ more) i = byte_at data i.
Proof. intros H. unfold byte_at. by rewrite lookup_app_l. Qed.

Lemma subspan_app_l data more offset count :
  (offset + count <= length data)%nat ->
  subspan (data ++ more) offset count = subspan data offset count.
Proof.
  intros H. unfold subspan. rewrite drop_app_le by lia.
  apply take_app_le. rewrite length_drop. lia.
Qed.

Lemma read_integer_app n data more offset :
  (offset + n <= length data)%nat ->
  read_integer n (data ++ more) offset = read_integer n data offset.
Proof.
  intros H. unfold read_integer. generalize 0 as acc.
  assert (Hs : Forall (fun i => offset + i < length data)%nat (seq 0 n)).
  { apply Forall_forall. intros i Hi. apply elem_of_seq in Hi. lia. }
  induction Hs as [|i l Hi Hl IH]; intros acc; [done|].
  cbn [fold_left]. rewrite byte_at_app by done. apply IH.
Qed.

Lemma byte_at_cons_drop data i :
  (i < length data)%nat -> drop i data = byte_at data i :: drop (S i) data.
Proof.
  intros H. unfold byte_at. destruct (lookup_lt_is_Some_2 data i H) as [b Hb].
  rewrite Hb. by apply drop_S.
Qed.

Lemma byte_at_byte data i : Forall is_byte data -> is_byte (byte_at data i).
Proof.
  intros H. unfold byte_at. destruct (data !! i) eqn:E; [by eapply Forall_lookup_1|].
  by vm_compute.
Qed.

(** Split off the first [n] elements of a list known to be that long. *)
Ltac list_cases l n :=
  match n with
  | O => idtac
  | S ?n' =>
      destruct l as [|? l]; [simpl in *; try discriminate; lia|]; list_cases l n'
  end.

