(* ===== verification/Text.v ===== *)
(** * Text helpers of the C++ runtime the sources use

    String literals as bytes, the hexadecimal rendering shared by the digest
    type and the JSON formatters, and decimal rendering ([std::to_string],
    [std::format]) and parsing ([std::from_chars]) of unsigned 64-bit integers. *)
From S2P Require Import Prelude.
From Stdlib Require Import Ascii.
Open Scope Z_scope.

(** ** Literals *)

Fixpoint str (s : string) : bytes :=
  match s with
  | EmptyString => []
  | String c rest => Z.of_nat (nat_of_ascii c) :: str rest
  end.

(** A JSON literal, written with apostrophes for its quotation marks. *)
Definition json (s : string) : bytes :=
  map (fun b => if b =? 39 then 34 else b) (str s).

(** ** Hexadecimal *)

(** [kHexDigits[value]] for a nibble. *)
Definition hex_digit (value : Z) : Z :=
  if value <? 10 then value + 48 else value - 10 + 97.

(** Two lowercase digits per byte, high nibble first. *)
Definition hex_text (data : bytes) : bytes :=
  flat_map (fun byte => [hex_digit (Z.shiftr byte 4); hex_digit (Z.land byte 0x0f)]) data.

(** [hex_value] of sha256.cpp: the nibble of a digit, or -1. *)
Definition hex_value (value : Z) : Z :=
  if (48 <=? value) && (value <=? 57) then value - 48
  else if (97 <=? value) && (value <=? 102) then value - 97 + 10
  else if (65 <=? value) && (value <=? 70) then value - 65 + 10
  else -1.

(** ** Decimal *)

(** Digits of a positive number, most significant first, [fuel] at most. *)
Fixpoint decimal_digits (fuel : nat) (value : Z) (acc : bytes) : bytes :=
  match fuel with
  | O => acc
  | S fuel' =>
      if value =? 0 then acc
      else decimal_digits fuel' (value / 10) (48 + value mod 10 :: acc)
  end.

(** [std::to_string] of an unsigned 64-bit value: at most 20 digits. *)
Definition decimal (value : Z) : bytes :=
  if value =? 0 then [48] else decimal_digits 20 value [].

Definition is_digit (b : Z) : bool := (48 <=? b) && (b <=? 57).

(** The value of the longest digit prefix and the rest of the input. *)
Fixpoint scan_digits (text : bytes) (value : Z) : Z * bytes :=
  match text with
  | b :: rest => if is_digit b then scan_digits rest (value * 10 + (b - 48)) else (value, text)
  | [] => (value, [])
  end.

(** [std::from_chars] into a [std::uint64_t]: [None] for [ec != errc{}] (no
    digits, or a value that does not fit), else the value and the unread
    suffix at [ptr]. *)
Definition from_chars_u64 (text : bytes) : option (Z * bytes) :=
  match text with
  | b :: _ =>
      if is_digit b then
        let '(value, rest) := scan_digits text 0 in
        if value <? 2 ^ 64 then Some (value, rest) else None
      else None
  | [] => None
  end.

(** ** Lemmas *)

Lemma hex_digit_byte v : 0 <= v < 16 -> is_byte (hex_digit v).
Proof. intros H. unfold hex_digit. guard_goal; bool_to_prop; width_lia. Qed.

Lemma hex_value_digit v : 0 <= v < 16 -> hex_value (hex_digit v) = v.
Proof.
  intros H.
  pose proof (all_below_spec 16 (fun v => hex_value (hex_digit v) =? v) eq_refl v) as Hv.
  apply Z.eqb_eq, Hv. lia.
Qed.

Lemma hex_value_range c : -1 <= hex_value c < 16.
Proof. unfold hex_value. repeat guard_goal; bool_to_prop; lia. Qed.

Lemma byte_nibbles b : is_byte b ->
  0 <= Z.shiftr b 4 < 16 /\ 0 <= Z.land b 15 < 16 /\
  Z.lor (Z.shiftl (Z.shiftr b 4) 4) (Z.land b 15) = b.
Proof.
  intros Hb. unfold in_width in Hb.
  rewrite Z.shiftr_div_pow2 by lia. change 15 with (Z.ones 4). rewrite Z.land_ones by lia.
  rewrite lor_shiftl_add by (try apply Z.mod_pos_bound; lia).
  change (2 ^ 4) with 16. Z.div_mod_to_equations. lia.
Qed.

Lemma nibbles_byte high low :
  0 <= high < 16 -> 0 <= low < 16 ->
  is_byte (Z.lor (Z.shiftl high 4) low) /\
  Z.shiftr (Z.lor (Z.shiftl high 4) low) 4 = high /\
  Z.land (Z.lor (Z.shiftl high 4) low) 15 = low.
Proof.
  intros Hh Hl. rewrite lor_shiftl_add by lia.
  rewrite Z.shiftr_div_pow2 by lia. change 15 with (Z.ones 4). rewrite Z.land_ones by lia.
  unfold in_width. change (2 ^ 4) with 16. change (2 ^ 8) with 256.
  Z.div_mod_to_equations. lia.
Qed.

Lemma hex_text_cons b data :
  hex_text (b :: data) =
  hex_digit (Z.shiftr b 4) :: hex_digit (Z.land b 0x0f) :: hex_text data.
Proof. done. Qed.

Lemma length_hex_text data : length (hex_text data) = (length data * 2)%nat.
Proof. induction data; simpl; lia. Qed.

Lemma hex_text_inj x y :
  Forall is_byte x -> Forall is_byte y -> hex_text x = hex_text y -> x = y.
Proof.
  intros Hx. revert y. induction Hx as [|a x Ha Hx IH]; intros [|b y] Hy H; try done.
  inversion_clear Hy as [|? ? Hb Hy']. simpl in H. injection H as E1 E2 E3.
  apply (f_equal hex_value) in E1, E2.
  destruct (byte_nibbles a Ha) as (Ra1 & Ra2 & Ea), (byte_nibbles b Hb) as (Rb1 & Rb2 & Eb).
  rewrite !hex_value_digit in E1, E2 by done.
  f_equal; [|by apply IH]. rewrite <- Ea, <- Eb. congruence.
Qed.

(** *** Decimal round trip *)

Lemma decimal_digits_app fuel value acc :
  decimal_digits fuel value acc = decimal_digits fuel value [] ++ acc.
Proof.
  revert value acc. induction fuel as [|fuel IH]; intros value acc; [done|].
  simpl. guard_goal; [done|]. rewrite IH, (IH _ [_]), <- app_assoc. done.
Qed.

Lemma is_digit_digit d : 0 <= d < 10 -> is_digit (48 + d) = true.
Proof. intros H. unfold is_digit. rewrite andb_true_iff, !Z.leb_le. lia. Qed.

Lemma scan_digits_decimal fuel value acc rest :
  0 <= value < 10 ^ Z.of_nat fuel -> 0 <= acc ->
  exists k, 0 <= k /\
  scan_digits (decimal_digits fuel value [] ++ rest) acc =
  scan_digits rest (acc * 10 ^ k + value) /\ (value <> 0 -> value < 10 ^ k).
Proof.
  revert value acc rest. induction fuel as [|fuel IH]; intros value acc rest Hv Ha.
  { exists 0. simpl in *. rewrite Z.mul_1_r. replace value with 0 by lia. by rewrite Z.add_0_r. }
  cbn [decimal_digits]. guard_goal; bool_to_prop.
  { subst. exists 0. simpl. rewrite Z.mul_1_r, Z.add_0_r. done. }
  rewrite decimal_digits_app, <- app_assoc.
  rewrite Nat2Z.inj_succ, Z.pow_succ_r in Hv by lia.
  destruct (IH (value / 10) acc ([48 + value mod 10] ++ rest)) as (k & Hk & Es & Hlt);
    [Z.div_mod_to_equations; lia|done|].
  exists (Z.succ k). split; [lia|].
  rewrite Es. cbn [app scan_digits].
  rewrite is_digit_digit by (apply Z.mod_pos_bound; lia).
  rewrite Z.pow_succ_r by lia. split.
  - f_equal. Z.div_mod_to_equations. nia.
  - intros _. destruct (decide (value / 10 = 0)) as [E0|E0].
    + assert (1 <= 10 ^ k) by (apply (Z.pow_le_mono_r 10 0 k); lia).
      Z.div_mod_to_equations. lia.
    + specialize (Hlt E0). Z.div_mod_to_equations. lia.
Qed.

Lemma decimal_digits_head n value rest :
  0 < value ->
  exists d r, decimal_digits (S n) value [] ++ rest = d :: r /\ is_digit d = true.
Proof.
  revert value rest. induction n as [|n IH]; intros value rest Hv.
  - cbn [decimal_digits]. rewrite (proj2 (Z.eqb_neq _ _)) by lia. cbn [app].
    do 2 eexists. split; [done|]. apply is_digit_digit, Z.mod_pos_bound. lia.
  - remember (S n) as m. cbn [decimal_digits]. rewrite (proj2 (Z.eqb_neq _ _)) by lia.
    rewrite decimal_digits_app, <- app_assoc. subst m.
    destruct (decide (value / 10 = 0)) as [E0|E0].
    + rewrite E0. simpl. do 2 eexists. split; [done|].
      apply is_digit_digit, Z.mod_pos_bound. lia.
    + apply IH. assert (0 <= value / 10) by (apply Z.div_pos; lia). lia.
Qed.

(** What is printed reads back, whatever non-digit follows. *)
Lemma from_chars_decimal value rest :
  is_u64 value ->
  match rest with [] => True | b :: _ => is_digit b = false end ->
  from_chars_u64 (decimal value ++ rest) = Some (value, rest).
Proof.
  intros Hv Hrest. unfold in_width in Hv.
  assert (Hstop : forall v, scan_digits rest v = (v, rest)).
  { intros v. destruct rest as [|b r]; [done|]. simpl. by rewrite Hrest. }
  unfold decimal. guard_goal; bool_to_prop.
  { subst. cbn [app from_chars_u64]. replace (is_digit 48) with true by done.
    cbn [scan_digits]. replace (is_digit 48) with true by done. by rewrite Hstop. }
  destruct (scan_digits_decimal 20 value 0 rest) as (k & _ & Es & _); [lia|lia|].
  destruct (decimal_digits_head 19 value rest) as (d & r & Ed & Hd); [lia|].
  rewrite Ed in Es |- *. cbn [from_chars_u64].
  rewrite Hd, Es, Hstop. cbn [Z.mul]. rewrite Z.add_0_l.
  by rewrite (proj2 (Z.ltb_lt _ _)) by lia.
Qed.
