(* ===== verification/Utf8.v ===== *)
(** * UTF-8 (utils/utf8/utf8.cpp and the codec of text_editor_utils.cpp)

    [is_valid] is the strict validator every message codec relies on;
    [consume_utf8], [append_utf8], [encode_utf8] and [decode_utf8] are the text
    editor's replacing codec, whose [finish = false] mode decodes a paste
    chunk by chunk. Text is a list of bytes; code points are integers. *)
From S2P Require Import Prelude.
Open Scope Z_scope.

(** ** Reference notions *)

(** A Unicode scalar value. *)
Definition scalar (c : Z) : Prop :=
  0 <= c <= 0x10ffff /\ ~ (0xd800 <= c <= 0xdfff).

#[export] Instance scalar_dec c : Decision (scalar c).
Proof. unfold scalar. apply _. Defined.

(** ** The validator *)

(** Length, initial code-point bits and least code point of a multi-byte
    sequence starting with [first]. *)
Definition lead_byte (first : Z) : option (nat * Z * Z) :=
  if (0xc2 <=? first) && (first <=? 0xdf) then
    Some (2%nat, Z.land first 0x1f, 0x80)
  else if (0xe0 <=? first) && (first <=? 0xef) then
    Some (3%nat, Z.land first 0x0f, 0x800)
  else if (0xf0 <=? first) && (first <=? 0xf4) then
    Some (4%nat, Z.land first 0x07, 0x10000)
  else None.

Definition is_continuation (byte : Z) : bool := Z.land byte 0xc0 =? 0x80.

(** The loop over the [n] continuation bytes of one sequence. *)
Fixpoint read_continuations (n : nat) (codepoint : Z) (rest : bytes) : option Z :=
  match n with
  | O => Some codepoint
  | S n' =>
      match rest with
      | [] => None
      | continuation :: rest' =>
          if is_continuation continuation then
            read_continuations n'
              (Z.lor (Z.shiftl codepoint 6) (Z.land continuation 0x3f)) rest'
          else None
      end
  end.

(** The rejection test applied to a complete sequence. *)
Definition bad_codepoint (codepoint minimum : Z) : bool :=
  (codepoint <? minimum) || (0x10ffff <? codepoint)
  || ((0xd800 <=? codepoint) && (codepoint <=? 0xdfff)).

(** [is_valid] from the current offset on; [fuel] bounds the iterations. *)
Fixpoint is_valid_loop (fuel : nat) (text : bytes) : bool :=
  match fuel with
  | O => true
  | S fuel' =>
      match text with
      | [] => true
      | first :: rest =>
          if first <=? 0x7f then is_valid_loop fuel' rest
          else
            match lead_byte first with
            | None => false
            | Some (len, codepoint0, minimum) =>
                if (length text <? len)%nat then false
                else
                  match read_continuations (len - 1) codepoint0 rest with
                  | None => false
                  | Some codepoint =>
                      if bad_codepoint codepoint minimum then false
                      else is_valid_loop fuel' (drop len text)
                  end
            end
      end
  end.

Definition is_valid (text : bytes) : bool := is_valid_loop (length text) text.

(** ** The editor's replacing codec *)

Definition replacement : Z := 0xfffd.

(** [consume_utf8] from the current offset on: the decoded scalars and the
    bytes left in the buffer. A truncated sequence is kept unless [finish]. *)
Fixpoint consume_loop (fuel : nat) (finish : bool) (text : bytes)
  : list Z * bytes :=
  match fuel with
  | O => ([], text)
  | S fuel' =>
      match text with
      | [] => ([], [])
      | first :: rest =>
          let push (c : Z) (remaining : bytes) :=
            let '(output, pending) := consume_loop fuel' finish remaining in
            (c :: output, pending) in
          if first <=? 0x7f then push first rest
          else
            match lead_byte first with
            | None => push replacement rest
            | Some (len, codepoint0, minimum) =>
                if (length text <? len)%nat then
                  if negb finish then ([], text) else push replacement rest
                else
                  match read_continuations (len - 1) codepoint0 rest with
                  | None => push replacement rest
                  | Some codepoint =>
                      if bad_codepoint codepoint minimum
                      then push replacement rest
                      else push codepoint (drop len text)
                  end
            end
      end
  end.

Definition consume_utf8 (text : bytes) (finish : bool) : list Z * bytes :=
  consume_loop (length text) finish text.

Definition append_utf8 (character : Z) (output : bytes) : bytes :=
  let codepoint :=
    if (0x10ffff <? character)
       || ((0xd800 <=? character) && (character <=? 0xdfff))
    then 0xfffd else character in
  output ++
    (if codepoint <=? 0x7f then [codepoint]
     else if codepoint <=? 0x7ff then
       [Z.lor 0xc0 (Z.shiftr codepoint 6);
        Z.lor 0x80 (Z.land codepoint 0x3f)]
     else if codepoint <=? 0xffff then
       [Z.lor 0xe0 (Z.shiftr codepoint 12);
        Z.lor 0x80 (Z.land (Z.shiftr codepoint 6) 0x3f);
        Z.lor 0x80 (Z.land codepoint 0x3f)]
     else
       [Z.lor 0xf0 (Z.shiftr codepoint 18);
        Z.lor 0x80 (Z.land (Z.shiftr codepoint 12) 0x3f);
        Z.lor 0x80 (Z.land (Z.shiftr codepoint 6) 0x3f);
        Z.lor 0x80 (Z.land codepoint 0x3f)]).

Definition decode_utf8 (text : bytes) : list Z := fst (consume_utf8 text true).

Definition encode_utf8 (text : list Z) : bytes :=
  fold_left (fun output character => append_utf8 character output) text [].

(** ** Concrete behaviour *)

Example decode_euro : decode_utf8 [0xe2; 0x82; 0xac; 0x41] = [0x20ac; 0x41].
Proof. reflexivity. Qed.
Example decode_truncated : consume_utf8 [0x41; 0xe2; 0x82] false = ([0x41], [0xe2; 0x82]).
Proof. reflexivity. Qed.
Example reject_overlong : is_valid [0xe0; 0x80; 0x80] = false.
Proof. reflexivity. Qed.
Example reject_surrogate : is_valid [0xed; 0xa0; 0x80] = false.
Proof. reflexivity. Qed.

(** ** One decoding step

    Both loops make the same decision at an offset; [step] names it so that
    the lemmas below follow it once. *)

Inductive step_result :=
| Scalar (codepoint : Z) (len : nat)
| Truncated
| Malformed.

#[export] Instance step_result_eq_dec : EqDecision step_result.
Proof. solve_decision. Defined.

Definition step (first : Z) (rest : bytes) : step_result :=
  if first <=? 0x7f then Scalar first 1
  else match lead_byte first with
  | None => Malformed
  | Some (len, codepoint0, minimum) =>
      if (length (first :: rest) <? len)%nat then Truncated
      else match read_continuations (len - 1) codepoint0 rest with
      | None => Malformed
      | Some codepoint =>
          if bad_codepoint codepoint minimum then Malformed
          else Scalar codepoint len
      end
  end.

Lemma lead_byte_len first len cp m :
  lead_byte first = Some (len, cp, m) -> (2 <= len <= 4)%nat.
Proof.
  unfold lead_byte. repeat guard_goal; intros [= <- <- <-]; lia.
Qed.

Lemma is_valid_step fuel first rest :
  is_valid_loop (S fuel) (first :: rest) =
  match step first rest with
  | Scalar _ len => is_valid_loop fuel (drop len (first :: rest))
  | _ => false
  end.
Proof.
  cbn [is_valid_loop]. unfold step. guard_goal; [done|].
  destruct (lead_byte first) as [[[len cp] m]|]; [|done].
  guard_goal; [done|]. destruct (read_continuations _ _ _); [|done].
  by guard_goal.
Qed.

Lemma consume_step fuel finish first rest :
  consume_loop (S fuel) finish (first :: rest) =
  match step first rest with
  | Scalar c len =>
      let '(output, pending) := consume_loop fuel finish (drop len (first :: rest)) in
      (c :: output, pending)
  | Truncated =>
      if negb finish then ([], first :: rest)
      else let '(output, pending) := consume_loop fuel finish rest in
           (replacement :: output, pending)
  | Malformed =>
      let '(output, pending) := consume_loop fuel finish rest in
      (replacement :: output, pending)
  end.
Proof.
  cbn [consume_loop]. unfold step. guard_goal; [done|].
  destruct (lead_byte first) as [[[len cp] m]|]; [|done].
  guard_goal; [done|]. destruct (read_continuations _ _ _); [|done].
  by guard_goal.
Qed.

Lemma step_scalar_len first rest c len :
  step first rest = Scalar c len -> (1 <= len <= length (first :: rest))%nat.
Proof.
  unfold step. guard_goal; [intros [= <- <-]; simpl; lia|].
  destruct (lead_byte first) as [[[len' cp] m]|] eqn:E; [|done].
  apply lead_byte_len in E. guard_goal; [done|]. bool_to_prop.
  destruct (read_continuations _ _ _); [|done].
  guard_goal; [done|]. intros [= <- <-]. lia.
Qed.

(** Enough fuel: any bound at or above the text's length gives the same run. *)
Lemma consume_loop_fuel fuel finish text :
  (length text <= fuel)%nat ->
  consume_loop fuel finish text = consume_utf8 text finish.
Proof.
  unfold consume_utf8.
  enough (H : forall f1 f2 t, (length t <= f1)%nat -> (length t <= f2)%nat ->
    consume_loop f1 finish t = consume_loop f2 finish t) by (intros; apply H; lia).
  clear. induction f1 as [|f1 IH]; intros [|f2] [|first rest] H1 H2;
    try (simpl in *; lia); try done.
  rewrite !consume_step. destruct (step first rest) eqn:E.
  - apply step_scalar_len in E. rewrite (IH f2); [done| |];
      rewrite length_drop; simpl in *; lia.
  - guard_goal; [done|]. rewrite (IH f2); [done| |]; simpl in *; lia.
  - rewrite (IH f2); [done| |]; simpl in *; lia.
Qed.

Lemma is_valid_loop_fuel fuel text :
  (length text <= fuel)%nat -> is_valid_loop fuel text = is_valid text.
Proof.
  unfold is_valid.
  enough (H : forall f1 f2 t, (length t <= f1)%nat -> (length t <= f2)%nat ->
    is_valid_loop f1 t = is_valid_loop f2 t) by (intros; apply H; lia).
  clear. induction f1 as [|f1 IH]; intros [|f2] [|first rest] H1 H2;
    try (simpl in *; lia); try done.
  rewrite !is_valid_step. destruct (step first rest) eqn:E; [|done..].
  apply step_scalar_len in E. apply IH; rewrite length_drop; simpl in *; lia.
Qed.

(** Fuel-free equations of the two loops. *)
Lemma consume_nil finish : consume_utf8 [] finish = ([], []).
Proof. done. Qed.

Lemma consume_cons finish first rest :
  consume_utf8 (first :: rest) finish =
  match step first rest with
  | Scalar c len =>
      let '(output, pending) := consume_utf8 (drop len (first :: rest)) finish in
      (c :: output, pending)
  | Truncated =>
      if negb finish then ([], first :: rest)
      else let '(output, pending) := consume_utf8 rest finish in
           (replacement :: output, pending)
  | Malformed =>
      let '(output, pending) := consume_utf8 rest finish in
      (replacement :: output, pending)
  end.
Proof.
  unfold consume_utf8 at 1. cbn [length]. rewrite consume_step.
  destruct (step first rest) eqn:E; [|done..].
  apply step_scalar_len in E. rewrite consume_loop_fuel; [done|].
  rewrite length_drop. simpl in *. lia.
Qed.

Lemma is_valid_cons first rest :
  is_valid (first :: rest) =
  match step first rest with
  | Scalar _ len => is_valid (drop len (first :: rest))
  | _ => false
  end.
Proof.
  unfold is_valid at 1. cbn [length]. rewrite is_valid_step.
  destruct (step first rest) eqn:E; [|done..].
  apply step_scalar_len in E. apply is_valid_loop_fuel.
  rewrite length_drop. simpl in *. lia.
Qed.

(** Induction that follows the offsets the loops visit. *)
Lemma text_ind (P : bytes -> Prop) :
  P [] ->
  (forall first rest,
    (forall len, (1 <= len)%nat -> P (drop len (first :: rest))) ->
    P (first :: rest)) ->
  forall text, P text.
Proof.
  intros Hnil Hcons text.
  remember (length text) as n eqn:Hn. assert (Hle : (length text <= n)%nat) by lia.
  clear Hn. revert text Hle. induction n as [|n IH]; intros [|first rest] Hle;
    [done|simpl in Hle; lia|done|].
  apply Hcons. intros len Hlen. apply IH. rewrite length_drop. simpl in *. lia.
Qed.

(** ** Arithmetic of one sequence *)

Lemma lor_0x80 r : 0 <= r < 64 -> Z.lor 0x80 r = 128 + r.
Proof. intros H. exact (lor_shiftl_add 2 r 6 ltac:(lia) H). Qed.
Lemma lor_0xc0 r : 0 <= r < 64 -> Z.lor 0xc0 r = 192 + r.
Proof. intros H. exact (lor_shiftl_add 3 r 6 ltac:(lia) H). Qed.
Lemma lor_0xe0 r : 0 <= r < 32 -> Z.lor 0xe0 r = 224 + r.
Proof. intros H. exact (lor_shiftl_add 7 r 5 ltac:(lia) H). Qed.
Lemma lor_0xf0 r : 0 <= r < 16 -> Z.lor 0xf0 r = 240 + r.
Proof. intros H. exact (lor_shiftl_add 15 r 4 ltac:(lia) H). Qed.

Lemma is_continuation_spec b : is_byte b -> is_continuation b = true <-> 128 <= b < 192.
Proof.
  intros Hb.
  apply (forall_byte (fun b => eqb (is_continuation b) ((128 <=? b) && (b <? 192))))
    in Hb; [|by vm_compute].
  apply eqb_prop in Hb. rewrite Hb. rewrite andb_true_iff. lia.
Qed.

(** The lead-byte masks as arithmetic. *)
Lemma lead_byte_spec b : is_byte b ->
  lead_byte b =
  if decide (0xc2 <= b <= 0xdf) then Some (2%nat, b - 0xc0, 0x80)
  else if decide (0xe0 <= b <= 0xef) then Some (3%nat, b - 0xe0, 0x800)
  else if decide (0xf0 <= b <= 0xf4) then Some (4%nat, b - 0xf0, 0x10000)
  else None.
Proof.
  intros Hb.
  apply (forall_byte (fun b => bool_decide (lead_byte b =
    if decide (0xc2 <= b <= 0xdf) then Some (2%nat, b - 0xc0, 0x80)
    else if decide (0xe0 <= b <= 0xef) then Some (3%nat, b - 0xe0, 0x800)
    else if decide (0xf0 <= b <= 0xf4) then Some (4%nat, b - 0xf0, 0x10000)
    else None))) in Hb; [|by vm_compute].
  by apply bool_decide_eq_true in Hb.
Qed.

Lemma read_continuations_cons n cp b rest :
  128 <= b < 192 ->
  read_continuations (S n) cp (b :: rest) =
  read_continuations n (cp * 64 + (b - 128)) rest.
Proof.
  intros Hb. cbn [read_continuations].
  rewrite (proj2 (is_continuation_spec b ltac:(unfold in_width; lia)) Hb).
  rewrite land_63, lor_shiftl_add by (try apply Z.mod_pos_bound; lia).
  do 2 f_equal. symmetry. apply Zmod_unique with 2; lia.
Qed.

Lemma read_continuations_inv n cp b rest c :
  is_byte b ->
  read_continuations (S n) cp (b :: rest) = Some c ->
  128 <= b < 192 /\
  read_continuations n (cp * 64 + (b - 128)) rest = Some c.
Proof.
  intros Hb H. destruct (is_continuation b) eqn:E.
  - apply is_continuation_spec in E; [|done].
    by rewrite read_continuations_cons in H.
  - cbn [read_continuations] in H. by rewrite E in H.
Qed.

Lemma bad_codepoint_false c m :
  bad_codepoint c m = false <-> m <= c /\ c <= 0x10ffff /\ ~ (0xd800 <= c <= 0xdfff).
Proof. unfold bad_codepoint. rewrite !orb_false_iff, andb_false_iff. lia. Qed.

(** The bytes of one scalar, as arithmetic on the code point. *)
Definition scalar_bytes (c : Z) : bytes :=
  if c <=? 0x7f then [c]
  else if c <=? 0x7ff then [192 + c / 64; 128 + c mod 64]
  else if c <=? 0xffff then [224 + c / 4096; 128 + c / 64 mod 64; 128 + c mod 64]
  else [240 + c / 262144; 128 + c / 4096 mod 64; 128 + c / 64 mod 64; 128 + c mod 64].

Lemma append_utf8_scalar c output :
  scalar c -> append_utf8 c output = output ++ scalar_bytes c.
Proof.
  intros [Hr Hs]. unfold append_utf8, scalar_bytes.
  replace ((0x10ffff <? c) || ((0xd800 <=? c) && (c <=? 0xdfff))) with false
    by (symmetry; apply orb_false_iff; rewrite andb_false_iff; lia).
  f_equal. rewrite !land_63, !Z.shiftr_div_pow2 by lia.
  repeat guard_goal; bool_to_prop; [done|..];
    rewrite ?lor_0x80, ?lor_0xc0, ?lor_0xe0, ?lor_0xf0
      by (Z.div_mod_to_equations; lia);
    done.
Qed.

Lemma scalar_bytes_length c : (1 <= length (scalar_bytes c) <= 4)%nat.
Proof. unfold scalar_bytes. repeat guard_goal; simpl; lia. Qed.

Lemma scalar_bytes_are_bytes c : scalar c -> Forall is_byte (scalar_bytes c).
Proof.
  intros [Hr _]. unfold scalar_bytes.
  repeat guard_goal; bool_to_prop; repeat constructor; unfold in_width;
    Z.div_mod_to_equations; lia.
Qed.

(** ** A step reads exactly one encoded scalar *)

Lemma step_scalar_bytes c rest :
  scalar c ->
  exists first tail, scalar_bytes c = first :: tail /\
    step first (tail ++ rest) = Scalar c (length (scalar_bytes c)).
Proof.
  intros [Hr Hs]. unfold scalar_bytes, step.
  repeat (guard_goal; bool_to_prop); do 2 eexists; (split; [done|]);
    repeat (guard_goal; bool_to_prop); try (Z.div_mod_to_equations; lia); try done;
    rewrite lead_byte_spec by (unfold in_width; Z.div_mod_to_equations; lia);
    repeat (case_decide; try (exfalso; Z.div_mod_to_equations; lia));
    cbn [length app Nat.sub];
    rewrite (proj2 (Nat.ltb_ge _ _)) by lia;
    rewrite !read_continuations_cons by (Z.div_mod_to_equations; lia);
    cbn [read_continuations];
    match goal with |- context [bad_codepoint ?x _] =>
      replace x with c by (Z.div_mod_to_equations; lia) end;
    by rewrite (proj2 (bad_codepoint_false _ _)) by lia.
Qed.

Lemma step_inv first rest c len :
  Forall is_byte (first :: rest) ->
  step first rest = Scalar c len ->
  scalar c /\ take len (first :: rest) = scalar_bytes c.
Proof.
  intros Hb. inversion_clear Hb as [|? ? Hf Hrest]. unfold step.
  guard_goal; bool_to_prop.
  { intros [= <- <-]. unfold in_width in Hf. split; [split; lia|].
    unfold scalar_bytes. by rewrite (proj2 (Z.leb_le _ _)) by lia. }
  rewrite lead_byte_spec by done.
  repeat case_decide; [..|done];
    (guard_goal; bool_to_prop; [done|]); cbn [Nat.sub];
    (destruct (read_continuations _ _ _) as [cp|] eqn:E; [|done]);
    (guard_goal; [done|]); intros [= <- <-];
    apply bad_codepoint_false in G1;
    repeat match type of E with
    | read_continuations (S _) _ ?l = _ =>
        destruct l as [|? ?]; [simpl in *; lia|];
        inversion_clear Hrest as [|? ? ? Hrest'];
        apply read_continuations_inv in E as [? E]; [|done];
        rename Hrest' into Hrest
    end;
    cbn [read_continuations] in E; injection E as <-;
    (split; [split; lia|]); unfold scalar_bytes;
    repeat (guard_goal; bool_to_prop); try lia;
    cbn [take]; repeat (f_equal; try (Z.div_mod_to_equations; lia)).
Qed.

Lemma drop_scalar_bytes c rest :
  drop (length (scalar_bytes c)) (scalar_bytes c ++ rest) = rest.
Proof. by rewrite drop_app_length. Qed.

Lemma consume_scalar_bytes c rest finish :
  scalar c ->
  consume_utf8 (scalar_bytes c ++ rest) finish =
  let '(output, pending) := consume_utf8 rest finish in (c :: output, pending).
Proof.
  intros Hc. destruct (step_scalar_bytes c rest Hc) as (first & tail & Heq & Hs).
  pose proof (drop_scalar_bytes c rest) as Hd.
  rewrite Heq in *. cbn [app] in *. by rewrite consume_cons, Hs, Hd.
Qed.

Lemma is_valid_scalar_bytes c rest :
  scalar c -> is_valid (scalar_bytes c ++ rest) = is_valid rest.
Proof.
  intros Hc. destruct (step_scalar_bytes c rest Hc) as (first & tail & Heq & Hs).
  pose proof (drop_scalar_bytes c rest) as Hd.
  rewrite Heq in *. cbn [app] in *. by rewrite is_valid_cons, Hs, Hd.
Qed.

(** ** The encoder as a concatenation *)

Definition replace_scalar (c : Z) : Z := if decide (scalar c) then c else replacement.

Lemma replace_scalar_scalar c : scalar (replace_scalar c).
Proof.
  unfold replace_scalar. case_decide; [done|]. unfold scalar, replacement. lia.
Qed.

Lemma append_utf8_replace c output :
  0 <= c -> append_utf8 c output = append_utf8 (replace_scalar c) output.
Proof.
  intros Hc. unfold replace_scalar. case_decide as Hs; [done|].
  unfold append_utf8.
  replace ((0x10ffff <? c) || ((0xd800 <=? c) && (c <=? 0xdfff))) with true; [done|].
  symmetry. apply orb_true_iff. rewrite andb_true_iff. unfold scalar in Hs. lia.
Qed.

Lemma append_utf8_spec c output :
  0 <= c -> append_utf8 c output = output ++ scalar_bytes (replace_scalar c).
Proof.
  intros Hc. rewrite append_utf8_replace, append_utf8_scalar; auto using replace_scalar_scalar.
Qed.

Lemma encode_utf8_spec text :
  Forall (fun c => 0 <= c) text ->
  encode_utf8 text = concat (map (fun c => scalar_bytes (replace_scalar c)) text).
Proof.
  unfold encode_utf8. intros H. rewrite <- (app_nil_l (concat _)).
  generalize (@nil Z) as output.
  induction H as [|c text Hc _ IH]; intros output; simpl; [by rewrite app_nil_r|].
  by rewrite IH, append_utf8_spec, app_assoc.
Qed.

Lemma encode_utf8_scalars text :
  Forall scalar text -> encode_utf8 text = concat (map scalar_bytes text).
Proof.
  intros H. rewrite encode_utf8_spec by (eapply Forall_impl; [exact H|]; unfold scalar; lia).
  f_equal. apply map_ext_Forall. eapply Forall_impl; [exact H|].
  intros c Hc. unfold replace_scalar. by rewrite decide_True.
Qed.

Lemma encode_utf8_cons c text :
  Forall scalar (c :: text) -> encode_utf8 (c :: text) = scalar_bytes c ++ encode_utf8 text.
Proof.
  intros H. rewrite !encode_utf8_scalars; [done| |done]. by inversion H.
Qed.

Lemma append_utf8_output c output : append_utf8 c output = output ++ append_utf8 c [].
Proof. done. Qed.

Lemma encode_utf8_app text more : encode_utf8 (text ++ more) = encode_utf8 text ++ encode_utf8 more.
Proof.
  unfold encode_utf8. rewrite fold_left_app. generalize (fold_left (fun o c => append_utf8 c o) text []) as out.
  assert (H : forall l out, fold_left (fun o c => append_utf8 c o) l out = out ++ fold_left (fun o c => append_utf8 c o) l []).
  { induction l as [|c l IH]; intros out; cbn [fold_left]; [by rewrite app_nil_r|].
    rewrite IH, (IH (append_utf8 c [])), append_utf8_output. by rewrite <- app_assoc. }
  intros out. apply H.
Qed.

(** ** Appending input *)

Lemma read_continuations_app n cp rest more :
  (n <= length rest)%nat ->
  read_continuations n cp (rest ++ more) = read_continuations n cp rest.
Proof.
  revert cp rest. induction n as [|n IH]; intros cp [|b rest] H; simpl in *; try lia; [done..|].
  guard_goal; [|done]. apply IH. lia.
Qed.

Lemma step_app first rest more :
  step first rest <> Truncated -> step first (rest ++ more) = step first rest.
Proof.
  unfold step. guard_goal; [done|].
  destruct (lead_byte first) as [[[len cp] m]|] eqn:El; [|done].
  apply lead_byte_len in El. guard_goal; [done|]. intros _. bool_to_prop.
  cbn [length] in *. rewrite length_app.
  rewrite (proj2 (Nat.ltb_ge _ _)) by lia.
  by rewrite read_continuations_app by lia.
Qed.

(** Everything [consume_utf8] emits is a scalar value. *)
Lemma consume_scalars text finish :
  Forall is_byte text -> Forall scalar (fst (consume_utf8 text finish)).
Proof.
  induction text as [|first rest IH] using text_ind; intros Hb; [by constructor|].
  rewrite consume_cons.
  assert (Hlen : forall len, Forall is_byte (drop len (first :: rest))) by
    (intros; by apply Forall_drop).
  destruct (step first rest) as [c len| |] eqn:E.
  - pose proof (step_scalar_len _ _ _ _ E) as Hl.
    specialize (IH len ltac:(lia) (Hlen len)).
    apply step_inv in E as [Hc _]; [|done].
    destruct (consume_utf8 _ _) as [o p]. by constructor.
  - guard_goal; [by constructor|].
    specialize (IH 1%nat ltac:(lia) (Hlen 1%nat)). cbn [drop] in IH. rewrite drop_0 in IH.
    destruct (consume_utf8 _ _) as [o p].
    constructor; [|done]. unfold scalar, replacement. lia.
  - specialize (IH 1%nat ltac:(lia) (Hlen 1%nat)). cbn [drop] in IH. rewrite drop_0 in IH.
    destruct (consume_utf8 _ _) as [o p].
    constructor; [|done]. unfold scalar, replacement. lia.
Qed.

(** A finishing run leaves nothing behind. *)
Lemma consume_finish_pending text : snd (consume_utf8 text true) = [].
Proof.
  induction text as [|first rest IH] using text_ind; [done|].
  rewrite consume_cons. pose proof (IH 1%nat ltac:(lia)) as IH1.
  cbn [drop] in IH1. rewrite drop_0 in IH1.
  destruct (step first rest) as [c len| |] eqn:E; cbn [negb];
    [|by destruct (consume_utf8 rest true)..].
  pose proof (step_scalar_len _ _ _ _ E) as Hl. specialize (IH len ltac:(lia)).
  by destruct (consume_utf8 _ _).
Qed.

(** A non-finishing run keeps at most three bytes: an incomplete sequence. *)
Lemma consume_pending_short text :
  (length (snd (consume_utf8 text false)) <= 3)%nat.
Proof.
  induction text as [|first rest IH] using text_ind; [simpl; lia|].
  rewrite consume_cons. pose proof (IH 1%nat ltac:(lia)) as IH1.
  cbn [drop] in IH1. rewrite drop_0 in IH1.
  destruct (step first rest) as [c len| |] eqn:E; cbn [negb].
  - pose proof (step_scalar_len _ _ _ _ E) as Hl. specialize (IH len ltac:(lia)).
    by destruct (consume_utf8 _ _).
  - revert E. unfold step. guard_goal; [done|].
    destruct (lead_byte first) as [[[len cp] m]|] eqn:El; [|done].
    apply lead_byte_len in El. guard_goal; bool_to_prop; [intros _; simpl in *; lia|].
    destruct (read_continuations _ _ _); [|done]. by guard_goal.
  - by destruct (consume_utf8 rest false).
Qed.

Lemma encode_utf8_valid text :
  Forall scalar text -> is_valid (encode_utf8 text) = true.
Proof.
  intros H. rewrite encode_utf8_scalars by done.
  induction H as [|c text Hc _ IH]; [done|]. simpl. by rewrite is_valid_scalar_bytes.
Qed.

Lemma encode_utf8_bytes text :
  Forall scalar text -> Forall is_byte (encode_utf8 text).
Proof.
  intros H. rewrite encode_utf8_scalars by done.
  induction H as [|c text Hc _ IH]; [constructor|].
  simpl. apply Forall_app_2; [by apply scalar_bytes_are_bytes|done].
Qed.

Lemma valid_decode_encode text :
  Forall is_byte text -> is_valid text = true ->
  encode_utf8 (decode_utf8 text) = text.
Proof.
  unfold decode_utf8.
  induction text as [|first rest IH] using text_ind; intros Hb Hv; [done|].
  rewrite is_valid_cons in Hv. rewrite consume_cons.
  destruct (step first rest) as [c len| |] eqn:E; [|done..].
  pose proof (step_scalar_len _ _ _ _ E) as Hl.
  apply step_inv in E as [Hc Ht]; [|done].
  pose proof (Forall_drop is_byte len _ Hb) as Hd.
  specialize (IH len ltac:(lia) Hd Hv).
  pose proof (consume_scalars _ true Hd) as Hs.
  destruct (consume_utf8 (drop len (first :: rest)) true) as [o p]. simpl in IH, Hs |- *.
  rewrite encode_utf8_cons, IH, <- Ht by (by constructor). apply take_drop.
Qed.

(** ** Properties *)

(** C34. The validator accepts exactly the byte strings that are the
    encoding of a sequence of Unicode scalar values: no truncated, overlong,
    surrogate or out-of-range sequence, and every scalar including U+0000. *)
Theorem is_valid_iff_encoding text :
  Forall is_byte text ->
  is_valid text = true <->
  exists scalars, Forall scalar scalars /\ text = encode_utf8 scalars.
Proof.
  intros Hb. split.
  - intros Hv. exists (decode_utf8 text). split.
    + by apply consume_scalars.
    + symmetry. by apply valid_decode_encode.
  - intros (scalars & Hs & ->). by apply encode_utf8_valid.
Qed.

(** Decoding what the encoder wrote gives back the scalars, and an
    encoding followed by other input decodes to the scalars followed by the
    decoding of that input. *)
Theorem utf8_decode_encode scalars rest :
  Forall scalar scalars ->
  decode_utf8 (encode_utf8 scalars ++ rest) = scalars ++ decode_utf8 rest.
Proof.
  intros H. unfold decode_utf8. rewrite encode_utf8_scalars by done.
  induction H as [|c text Hc _ IH]; [done|].
  simpl. rewrite <- app_assoc, consume_scalar_bytes by done.
  destruct (consume_utf8 _ _) as [o p]. simpl in *. by rewrite IH.
Qed.

(** Decoding a paste chunk by chunk, carrying the undecoded suffix to
    the next chunk, gives the same scalars and the same suffix as decoding the
    concatenation at once, wherever the chunk boundary falls. *)
Theorem consume_utf8_chunks chunk1 chunk2 finish :
  consume_utf8 (chunk1 ++ chunk2) finish =
  (fst (consume_utf8 chunk1 false)
     ++ fst (consume_utf8 (snd (consume_utf8 chunk1 false) ++ chunk2) finish),
   snd (consume_utf8 (snd (consume_utf8 chunk1 false) ++ chunk2) finish)).
Proof.
  induction chunk1 as [|first rest IH] using text_ind.
  { simpl. by destruct (consume_utf8 chunk2 finish). }
  rewrite (consume_cons false). cbn [app]. rewrite consume_cons.
  pose proof (IH 1%nat ltac:(lia)) as IH1. cbn [drop] in IH1. rewrite !drop_0 in IH1.
  destruct (decide (step first rest = Truncated)) as [E|E].
  { rewrite E. cbn [negb fst snd app]. rewrite consume_cons.
    by destruct (match step first (rest ++ chunk2) with Scalar _ _ => _ | _ => _ end). }
  rewrite step_app by done.
  destruct (step first rest) as [c len| |] eqn:Es; [|done|].
  - pose proof (step_scalar_len _ _ _ _ Es) as Hl. specialize (IH len ltac:(lia)).
    change (first :: rest ++ chunk2) with ((first :: rest) ++ chunk2).
    rewrite drop_app_le by lia. rewrite IH.
    by destruct (consume_utf8 (drop len (first :: rest)) false).
  - rewrite IH1. by destruct (consume_utf8 rest false).
Qed.

Lemma is_valid_iff_encoding_witness : is_valid [0x24; 0xe2; 0x82; 0xac] = true.
Proof.
  refine (proj2 (is_valid_iff_encoding [0x24; 0xe2; 0x82; 0xac] _) _).
  - by repeat constructor.
  - exists [0x24; 0x20ac]. split; [|by vm_compute].
    repeat constructor; vm_compute; intuition congruence.
Defined.

Lemma utf8_decode_encode_witness :
  decode_utf8 (encode_utf8 [0x20ac; 0x1f600] ++ [0x41]) = [0x20ac; 0x1f600; 0x41].
Proof.
  rewrite (utf8_decode_encode [0x20ac; 0x1f600] [0x41]); [by vm_compute|].
  repeat constructor; vm_compute; intuition congruence.
Defined.
