(* ===== verification/Events.v ===== *)
(** * Terminal events (puc-cli/tui/terminal/event.hpp)

    The normalized events the terminal decoder emits and the editor, the screen
    and the message layer consume. C++ enumerations are inductive types with
    their declaration-order ordinals ([CEnum]). *)
From S2P Require Import Prelude.
Open Scope Z_scope.

(** ** Enumerations with declaration-order ordinals *)

(** An [enum class] whose enumerators are numbered 0, 1, 2, ... *)
Class CEnum (A : Type) := {
  enumerators : list A;
  index : A -> nat;
  enumerators_index : forall x, enumerators !! index x = Some x;
  index_enumerators : map index enumerators = seq 0 (length enumerators);
}.

(** Equality of enumerators is equality of their ordinals. *)
#[export] Instance cenum_eq_dec `{CEnum A} : EqDecision A.
Proof.
  intros x y. destruct (decide (index x = index y)) as [E|E]; [left|right; congruence].
  apply (inj Some). by rewrite <- !enumerators_index, E.
Defined.

Section CEnum.
Context `{CEnum A}.

(** [static_cast] of an enumerator to its underlying type. *)
Definition ordinal (x : A) : Z := Z.of_nat (index x).

(** The enumerator with a given ordinal. *)
Definition of_ordinal (value : Z) : option A :=
  if value <? 0 then None else enumerators !! Z.to_nat value.

(** [valid_ordinal(value, maximum)] for the last enumerator. *)
Definition valid_ordinal (value : Z) : bool :=
  (0 <=? value) && (value <=? Z.of_nat (length enumerators) - 1).

Lemma ordinal_lookup x : enumerators !! Z.to_nat (ordinal x) = Some x.
Proof. unfold ordinal. rewrite Nat2Z.id. apply enumerators_index. Qed.

Lemma ordinal_nonneg x : 0 <= ordinal x.
Proof. unfold ordinal. lia. Qed.

Lemma of_ordinal_ordinal x : of_ordinal (ordinal x) = Some x.
Proof.
  unfold of_ordinal. pose proof (ordinal_nonneg x).
  rewrite (proj2 (Z.ltb_ge _ _)) by lia. apply ordinal_lookup.
Qed.

Lemma valid_ordinal_ordinal x : valid_ordinal (ordinal x) = true.
Proof.
  pose proof (ordinal_nonneg x). pose proof (lookup_lt_Some _ _ _ (ordinal_lookup x)).
  unfold valid_ordinal. rewrite andb_true_iff. lia.
Qed.

Lemma ordinal_of_ordinal value x : of_ordinal value = Some x -> ordinal x = value.
Proof.
  unfold of_ordinal. guard_goal; [done|]. bool_to_prop. intros Hx.
  assert (Hi : map index enumerators !! Z.to_nat value = Some (index x))
    by (by rewrite list_lookup_fmap, Hx).
  rewrite index_enumerators in Hi. apply lookup_seq in Hi. unfold ordinal. lia.
Qed.

Lemma valid_ordinal_some value :
  valid_ordinal value = true -> exists x, of_ordinal value = Some x.
Proof.
  unfold valid_ordinal, of_ordinal. rewrite andb_true_iff. intros [H1 H2].
  bool_to_prop. rewrite (proj2 (Z.ltb_ge _ _)) by lia.
  destruct (enumerators !! Z.to_nat value) as [x|] eqn:E; [by exists x|].
  apply lookup_ge_None in E. lia.
Qed.
End CEnum.

#[export] Hint Resolve ordinal_nonneg of_ordinal_ordinal valid_ordinal_ordinal : puc.

(** Named functional keys. *)
Module NamedKeys.
Inductive NamedKey :=
| ESCAPE
| ENTER
| TAB
| BACKSPACE
| INSERT
| DELETE_KEY
| LEFT
| RIGHT
| UP
| DOWN
| PAGE_UP
| PAGE_DOWN
| HOME
| END
| CAPS_LOCK
| SCROLL_LOCK
| NUM_LOCK
| PRINT_SCREEN
| PAUSE
| MENU
| F1
| F2
| F3
| F4
| F5
| F6
| F7
| F8
| F9
| F10
| F11
| F12
| F13
| F14
| F15
| F16
| F17
| F18
| F19
| F20
| F21
| F22
| F23
| F24
| F25
| F26
| F27
| F28
| F29
| F30
| F31
| F32
| F33
| F34
| F35
| KEYPAD_0
| KEYPAD_1
| KEYPAD_2
| KEYPAD_3
| KEYPAD_4
| KEYPAD_5
| KEYPAD_6
| KEYPAD_7
| KEYPAD_8
| KEYPAD_9
| KEYPAD_DECIMAL
| KEYPAD_DIVIDE
| KEYPAD_MULTIPLY
| KEYPAD_SUBTRACT
| KEYPAD_ADD
| KEYPAD_ENTER
| KEYPAD_EQUAL
| KEYPAD_SEPARATOR
| KEYPAD_LEFT
| KEYPAD_RIGHT
| KEYPAD_UP
| KEYPAD_DOWN
| KEYPAD_PAGE_UP
| KEYPAD_PAGE_DOWN
| KEYPAD_HOME
| KEYPAD_END
| KEYPAD_INSERT
| KEYPAD_DELETE
| KEYPAD_BEGIN
| MEDIA_PLAY
| MEDIA_PAUSE
| MEDIA_PLAY_PAUSE
| MEDIA_REVERSE
| MEDIA_STOP
| MEDIA_FAST_FORWARD
| MEDIA_REWIND
| MEDIA_TRACK_NEXT
| MEDIA_TRACK_PREVIOUS
| MEDIA_RECORD
| VOLUME_DOWN
| VOLUME_UP
| VOLUME_MUTE
| LEFT_SHIFT
| LEFT_CONTROL
| LEFT_ALT
| LEFT_SUPER
| LEFT_HYPER
| LEFT_META
| RIGHT_SHIFT
| RIGHT_CONTROL
| RIGHT_ALT
| RIGHT_SUPER
| RIGHT_HYPER
| RIGHT_META
| ISO_LEVEL3_SHIFT
| ISO_LEVEL5_SHIFT.

Definition NamedKey_enumerators : list NamedKey :=
 [ESCAPE; ENTER; TAB; BACKSPACE; INSERT;
  DELETE_KEY; LEFT; RIGHT; UP; DOWN;
  PAGE_UP; PAGE_DOWN; HOME; END; CAPS_LOCK;
  SCROLL_LOCK; NUM_LOCK; PRINT_SCREEN; PAUSE; MENU;
  F1; F2; F3; F4; F5;
  F6; F7; F8; F9; F10;
  F11; F12; F13; F14; F15;
  F16; F17; F18; F19; F20;
  F21; F22; F23; F24; F25;
  F26; F27; F28; F29; F30;
  F31; F32; F33; F34; F35;
  KEYPAD_0; KEYPAD_1; KEYPAD_2; KEYPAD_3; KEYPAD_4;
  KEYPAD_5; KEYPAD_6; KEYPAD_7; KEYPAD_8; KEYPAD_9;
  KEYPAD_DECIMAL; KEYPAD_DIVIDE; KEYPAD_MULTIPLY; KEYPAD_SUBTRACT; KEYPAD_ADD;
  KEYPAD_ENTER; KEYPAD_EQUAL; KEYPAD_SEPARATOR; KEYPAD_LEFT; KEYPAD_RIGHT;
  KEYPAD_UP; KEYPAD_DOWN; KEYPAD_PAGE_UP; KEYPAD_PAGE_DOWN; KEYPAD_HOME;
  KEYPAD_END; KEYPAD_INSERT; KEYPAD_DELETE; KEYPAD_BEGIN; MEDIA_PLAY;
  MEDIA_PAUSE; MEDIA_PLAY_PAUSE; MEDIA_REVERSE; MEDIA_STOP; MEDIA_FAST_FORWARD;
  MEDIA_REWIND; MEDIA_TRACK_NEXT; MEDIA_TRACK_PREVIOUS; MEDIA_RECORD; VOLUME_DOWN;
  VOLUME_UP; VOLUME_MUTE; LEFT_SHIFT; LEFT_CONTROL; LEFT_ALT;
  LEFT_SUPER; LEFT_HYPER; LEFT_META; RIGHT_SHIFT; RIGHT_CONTROL;
  RIGHT_ALT; RIGHT_SUPER; RIGHT_HYPER; RIGHT_META; ISO_LEVEL3_SHIFT;
  ISO_LEVEL5_SHIFT].

Definition NamedKey_index (x : NamedKey) : nat :=
  match x with
  | ESCAPE => 0 | ENTER => 1 | TAB => 2 | BACKSPACE => 3
  | INSERT => 4 | DELETE_KEY => 5 | LEFT => 6 | RIGHT => 7
  | UP => 8 | DOWN => 9 | PAGE_UP => 10 | PAGE_DOWN => 11
  | HOME => 12 | END => 13 | CAPS_LOCK => 14 | SCROLL_LOCK => 15
  | NUM_LOCK => 16 | PRINT_SCREEN => 17 | PAUSE => 18 | MENU => 19
  | F1 => 20 | F2 => 21 | F3 => 22 | F4 => 23
  | F5 => 24 | F6 => 25 | F7 => 26 | F8 => 27
  | F9 => 28 | F10 => 29 | F11 => 30 | F12 => 31
  | F13 => 32 | F14 => 33 | F15 => 34 | F16 => 35
  | F17 => 36 | F18 => 37 | F19 => 38 | F20 => 39
  | F21 => 40 | F22 => 41 | F23 => 42 | F24 => 43
  | F25 => 44 | F26 => 45 | F27 => 46 | F28 => 47
  | F29 => 48 | F30 => 49 | F31 => 50 | F32 => 51
  | F33 => 52 | F34 => 53 | F35 => 54 | KEYPAD_0 => 55
  | KEYPAD_1 => 56 | KEYPAD_2 => 57 | KEYPAD_3 => 58 | KEYPAD_4 => 59
  | KEYPAD_5 => 60 | KEYPAD_6 => 61 | KEYPAD_7 => 62 | KEYPAD_8 => 63
  | KEYPAD_9 => 64 | KEYPAD_DECIMAL => 65 | KEYPAD_DIVIDE => 66 | KEYPAD_MULTIPLY => 67
  | KEYPAD_SUBTRACT => 68 | KEYPAD_ADD => 69 | KEYPAD_ENTER => 70 | KEYPAD_EQUAL => 71
  | KEYPAD_SEPARATOR => 72 | KEYPAD_LEFT => 73 | KEYPAD_RIGHT => 74 | KEYPAD_UP => 75
  | KEYPAD_DOWN => 76 | KEYPAD_PAGE_UP => 77 | KEYPAD_PAGE_DOWN => 78 | KEYPAD_HOME => 79
  | KEYPAD_END => 80 | KEYPAD_INSERT => 81 | KEYPAD_DELETE => 82 | KEYPAD_BEGIN => 83
  | MEDIA_PLAY => 84 | MEDIA_PAUSE => 85 | MEDIA_PLAY_PAUSE => 86 | MEDIA_REVERSE => 87
  | MEDIA_STOP => 88 | MEDIA_FAST_FORWARD => 89 | MEDIA_REWIND => 90 | MEDIA_TRACK_NEXT => 91
  | MEDIA_TRACK_PREVIOUS => 92 | MEDIA_RECORD => 93 | VOLUME_DOWN => 94 | VOLUME_UP => 95
  | VOLUME_MUTE => 96 | LEFT_SHIFT => 97 | LEFT_CONTROL => 98 | LEFT_ALT => 99
  | LEFT_SUPER => 100 | LEFT_HYPER => 101 | LEFT_META => 102 | RIGHT_SHIFT => 103
  | RIGHT_CONTROL => 104 | RIGHT_ALT => 105 | RIGHT_SUPER => 106 | RIGHT_HYPER => 107
  | RIGHT_META => 108 | ISO_LEVEL3_SHIFT => 109 | ISO_LEVEL5_SHIFT => 110
  end.

#[global] Instance NamedKey_enum : CEnum NamedKey.
Proof. by refine {| enumerators := NamedKey_enumerators; index := NamedKey_index |}; [intros []|]. Defined.

End NamedKeys.
Export NamedKeys(NamedKey, NamedKey_enum).

(** Action of a key event. *)
Module KeyActions.
Inductive KeyAction :=
| PRESS
| REPEAT
| RELEASE.

Definition KeyAction_enumerators : list KeyAction :=
 [PRESS; REPEAT; RELEASE].

Definition KeyAction_index (x : KeyAction) : nat :=
  match x with
  | PRESS => 0 | REPEAT => 1 | RELEASE => 2
  end.

#[global] Instance KeyAction_enum : CEnum KeyAction.
Proof. by refine {| enumerators := KeyAction_enumerators; index := KeyAction_index |}; [intros []|]. Defined.

End KeyActions.
Export KeyActions(KeyAction, KeyAction_enum).

(** Mouse buttons of SGR mouse reports. *)
Module MouseButtons.
Inductive MouseButton :=
| NONE
| LEFT
| MIDDLE
| RIGHT
| AUXILIARY_1
| AUXILIARY_2
| AUXILIARY_3
| AUXILIARY_4.

Definition MouseButton_enumerators : list MouseButton :=
 [NONE; LEFT; MIDDLE; RIGHT; AUXILIARY_1;
  AUXILIARY_2; AUXILIARY_3; AUXILIARY_4].

Definition MouseButton_index (x : MouseButton) : nat :=
  match x with
  | NONE => 0 | LEFT => 1 | MIDDLE => 2 | RIGHT => 3
  | AUXILIARY_1 => 4 | AUXILIARY_2 => 5 | AUXILIARY_3 => 6 | AUXILIARY_4 => 7
  end.

#[global] Instance MouseButton_enum : CEnum MouseButton.
Proof. by refine {| enumerators := MouseButton_enumerators; index := MouseButton_index |}; [intros []|]. Defined.

End MouseButtons.
Export MouseButtons(MouseButton, MouseButton_enum).

(** Mouse actions. *)
Module MouseActions.
Inductive MouseAction :=
| PRESS
| RELEASE
| MOVE
| DRAG.

Definition MouseAction_enumerators : list MouseAction :=
 [PRESS; RELEASE; MOVE; DRAG].

Definition MouseAction_index (x : MouseAction) : nat :=
  match x with
  | PRESS => 0 | RELEASE => 1 | MOVE => 2 | DRAG => 3
  end.

#[global] Instance MouseAction_enum : CEnum MouseAction.
Proof. by refine {| enumerators := MouseAction_enumerators; index := MouseAction_index |}; [intros []|]. Defined.

End MouseActions.
Export MouseActions(MouseAction, MouseAction_enum).

(** Stage of a bracketed paste. *)
Module PastePhases.
Inductive PastePhase :=
| BEGIN
| DATA
| END
| CANCEL.

Definition PastePhase_enumerators : list PastePhase :=
 [BEGIN; DATA; END; CANCEL].

Definition PastePhase_index (x : PastePhase) : nat :=
  match x with
  | BEGIN => 0 | DATA => 1 | END => 2 | CANCEL => 3
  end.

#[global] Instance PastePhase_enum : CEnum PastePhase.
Proof. by refine {| enumerators := PastePhase_enumerators; index := PastePhase_index |}; [intros []|]. Defined.

End PastePhases.
Export PastePhases(PastePhase, PastePhase_enum).

(** OSC 52 clipboard selections. *)
Module ClipboardSelections.
Inductive ClipboardSelection :=
| CLIPBOARD
| PRIMARY.

Definition ClipboardSelection_enumerators : list ClipboardSelection :=
 [CLIPBOARD; PRIMARY].

Definition ClipboardSelection_index (x : ClipboardSelection) : nat :=
  match x with
  | CLIPBOARD => 0 | PRIMARY => 1
  end.

#[global] Instance ClipboardSelection_enum : CEnum ClipboardSelection.
Proof. by refine {| enumerators := ClipboardSelection_enumerators; index := ClipboardSelection_index |}; [intros []|]. Defined.

End ClipboardSelections.
Export ClipboardSelections(ClipboardSelection, ClipboardSelection_enum).

(** Commands selected by configured input sequences. *)
Module Commands.
Inductive Command :=
| COPY
| SELECT_ALL
| ENTER_COMMAND_MODE
| ENTER_TERMINAL_MODE
| MOVE_WORD_LEFT
| MOVE_WORD_RIGHT
| MOVE_ROW_START
| MOVE_ROW_END
| MOVE_BUFFER_START
| MOVE_BUFFER_END
| MOVE_PAGE_UP
| MOVE_PAGE_DOWN.

Definition Command_enumerators : list Command :=
 [COPY; SELECT_ALL; ENTER_COMMAND_MODE; ENTER_TERMINAL_MODE; MOVE_WORD_LEFT;
  MOVE_WORD_RIGHT; MOVE_ROW_START; MOVE_ROW_END; MOVE_BUFFER_START; MOVE_BUFFER_END;
  MOVE_PAGE_UP; MOVE_PAGE_DOWN].

Definition Command_index (x : Command) : nat :=
  match x with
  | COPY => 0 | SELECT_ALL => 1 | ENTER_COMMAND_MODE => 2 | ENTER_TERMINAL_MODE => 3
  | MOVE_WORD_LEFT => 4 | MOVE_WORD_RIGHT => 5 | MOVE_ROW_START => 6 | MOVE_ROW_END => 7
  | MOVE_BUFFER_START => 8 | MOVE_BUFFER_END => 9 | MOVE_PAGE_UP => 10 | MOVE_PAGE_DOWN => 11
  end.

#[global] Instance Command_enum : CEnum Command.
Proof. by refine {| enumerators := Command_enumerators; index := Command_index |}; [intros []|]. Defined.

End Commands.
Export Commands(Command, Command_enum).

(** Kinds of terminal protocol replies. *)
Module ResponseKinds.
Inductive TerminalResponseKind :=
| KITTY_KEYBOARD_FLAGS
| CURSOR_POSITION
| DEVICE_ATTRIBUTES
| MODE_REPORT
| OPERATING_SYSTEM_COMMAND
| DEVICE_CONTROL_STRING.

Definition TerminalResponseKind_enumerators : list TerminalResponseKind :=
 [KITTY_KEYBOARD_FLAGS; CURSOR_POSITION; DEVICE_ATTRIBUTES; MODE_REPORT; OPERATING_SYSTEM_COMMAND;
  DEVICE_CONTROL_STRING].

Definition TerminalResponseKind_index (x : TerminalResponseKind) : nat :=
  match x with
  | KITTY_KEYBOARD_FLAGS => 0 | CURSOR_POSITION => 1 | DEVICE_ATTRIBUTES => 2 | MODE_REPORT => 3
  | OPERATING_SYSTEM_COMMAND => 4 | DEVICE_CONTROL_STRING => 5
  end.

#[global] Instance TerminalResponseKind_enum : CEnum TerminalResponseKind.
Proof. by refine {| enumerators := TerminalResponseKind_enumerators; index := TerminalResponseKind_index |}; [intros []|]. Defined.

End ResponseKinds.
Export ResponseKinds(TerminalResponseKind, TerminalResponseKind_enum).

(** Why bytes could not be normalized. *)
Module UnknownReasons.
Inductive UnknownInputReason :=
| UNSUPPORTED_SEQUENCE
| MALFORMED_SEQUENCE
| INVALID_UTF8
| INCOMPLETE_SEQUENCE
| LIMIT_EXCEEDED.

Definition UnknownInputReason_enumerators : list UnknownInputReason :=
 [UNSUPPORTED_SEQUENCE; MALFORMED_SEQUENCE; INVALID_UTF8; INCOMPLETE_SEQUENCE; LIMIT_EXCEEDED].

Definition UnknownInputReason_index (x : UnknownInputReason) : nat :=
  match x with
  | UNSUPPORTED_SEQUENCE => 0 | MALFORMED_SEQUENCE => 1 | INVALID_UTF8 => 2 | INCOMPLETE_SEQUENCE => 3
  | LIMIT_EXCEEDED => 4
  end.

#[global] Instance UnknownInputReason_enum : CEnum UnknownInputReason.
Proof. by refine {| enumerators := UnknownInputReason_enumerators; index := UnknownInputReason_index |}; [intros []|]. Defined.

End UnknownReasons.
Export UnknownReasons(UnknownInputReason, UnknownInputReason_enum).

(** A logical key: a named key or a Unicode scalar. *)
Inductive KeyCode :=
| NamedCode (key : NamedKey)
| CharCode (codepoint : Z).

(** Modifier bits of the keyboard protocols. *)
Module ModifierBits.
Definition SHIFT : Z := Z.shiftl 1 0.
Definition ALT : Z := Z.shiftl 1 1.
Definition CONTROL : Z := Z.shiftl 1 2.
Definition SUPER : Z := Z.shiftl 1 3.
Definition HYPER : Z := Z.shiftl 1 4.
Definition META : Z := Z.shiftl 1 5.
Definition CAPS_LOCK : Z := Z.shiftl 1 6.
Definition NUM_LOCK : Z := Z.shiftl 1 7.
End ModifierBits.

(** [Modifiers] is its 16-bit field. *)
Abbreviation Modifiers := Z.

Definition contains (bits : Modifiers) (modifier : Z) : bool :=
  negb (Z.land bits modifier =? 0).

Definition add (bits : Modifiers) (modifier : Z) : Modifiers := Z.lor bits modifier.

Record KeyEvent := {
  key : KeyCode;
  key_modifiers : Modifiers;
  key_action : KeyAction;
  shifted_key : option Z;
  base_layout_key : option Z;
  key_text : bytes;
}.

Record TextEvent := { utf8 : bytes }.

(** [position] is a zero-based cell; coordinates are [std::size_t]. *)
Record MouseEvent := {
  mouse_x : Z;
  mouse_y : Z;
  mouse_button : MouseButton;
  mouse_action : MouseAction;
  mouse_modifiers : Modifiers;
}.

Record ScrollEvent := {
  scroll_x : Z;
  scroll_y : Z;
  delta_x : Z;
  delta_y : Z;
  scroll_modifiers : Modifiers;
}.

Record PasteEvent := { paste_phase : PastePhase; paste_data : bytes }.

Record FocusEvent := { focused : bool }.

Record ClipboardEvent := {
  clipboard_selection : ClipboardSelection;
  clipboard_data : bytes;
}.

Record CommandEvent := { command : Command }.

Record TerminalResponseEvent := {
  response_kind : TerminalResponseKind;
  response_value : Z;
  response_bytes : bytes;
}.

Record UnknownEvent := {
  unknown_reason : UnknownInputReason;
  unknown_bytes : bytes;
}.

(** [std::variant] of every semantic event the decoder emits. *)
Inductive Event :=
| EKey (event : KeyEvent)
| EText (event : TextEvent)
| EMouse (event : MouseEvent)
| EScroll (event : ScrollEvent)
| EPaste (event : PasteEvent)
| EFocus (event : FocusEvent)
| EClipboard (event : ClipboardEvent)
| ECommand (event : CommandEvent)
| EResponse (event : TerminalResponseEvent)
| EUnknown (event : UnknownEvent).

(** [is_modifier_key] of text_editor_utils.cpp: keys that only change
    modifier state. *)
Definition is_modifier_key (k : NamedKey) : bool :=
  match k with
  | NamedKeys.LEFT_SHIFT | NamedKeys.LEFT_CONTROL | NamedKeys.LEFT_ALT
  | NamedKeys.LEFT_SUPER | NamedKeys.LEFT_HYPER | NamedKeys.LEFT_META
  | NamedKeys.RIGHT_SHIFT | NamedKeys.RIGHT_CONTROL | NamedKeys.RIGHT_ALT
  | NamedKeys.RIGHT_SUPER | NamedKeys.RIGHT_HYPER | NamedKeys.RIGHT_META
  | NamedKeys.ISO_LEVEL3_SHIFT | NamedKeys.ISO_LEVEL5_SHIFT => true
  | _ => false
  end.

Example modifier_key_ordinals :
  ordinal NamedKeys.ISO_LEVEL5_SHIFT = 110 /\ contains 3 ModifierBits.ALT = true.
Proof. done. Qed.
