(* ===== verification/MsgCodec.v ===== *)
(** * Typed payload codecs (msgs/status.hpp, msgs/codec.hpp)

    The status type, the [Codec] facade over a payload codec's two virtual
    functions, and the contract ([PayloadCodecLaws]) every concrete codec of
    msgs/ is proved to satisfy. *)
From S2P Require Import Prelude.
Open Scope Z_scope.

Inductive Status :=
| OK
| INVALID_ARGUMENT
| DUPLICATE_MESSAGE_ID
| MESSAGE_ID_NOT_FOUND
| CODEC_TYPE_MISMATCH
| PAYLOAD_ENCODING_FAILED
| MALFORMED_PAYLOAD
| INCOMPLETE_IPC_MESSAGE
| INVALID_IPC_MESSAGE.

#[export] Instance Status_eq_dec : EqDecision Status.
Proof. solve_decision. Defined.

(** The virtual functions and the formatter a concrete codec supplies;
    [default_value] is the value-initialized [T{}]. *)
Class PayloadCodec (T : Type) := {
  message_id : Z;
  default_value : T;
  encode_payload : T -> result Status bytes;
  decode_payload : bytes -> result Status T;
  format_json : T -> bytes;
}.

(** What a payload codec promises: it encodes exactly the values of its schema,
    a payload it wrote decodes to the value, and every payload it accepts is
    the encoding of the value it returns (so trailing or non-canonical bytes
    are rejected). *)
Class PayloadCodecLaws (T : Type) `{PayloadCodec T} (schema : T -> Prop) := {
  encode_total : forall object, schema object ->
    exists payload, encode_payload object = Ok payload;
  encode_are_bytes : forall object payload,
    schema object -> encode_payload object = Ok payload -> Forall is_byte payload;
  decode_encode : forall object payload,
    schema object -> encode_payload object = Ok payload ->
    decode_payload payload = Ok object;
  encode_decode : forall object payload,
    Forall is_byte payload -> decode_payload payload = Ok object ->
    schema object /\ encode_payload object = Ok payload;
}.

Section Facade.
Context {T : Type} `{PayloadCodec T}.

(** [Codec::serialize]: the status and the output vector. *)
Definition serialize (object : T) : Status * bytes :=
  match encode_payload object with
  | Err status => (status, [])
  | Ok encoded => (OK, encoded)
  end.

(** [Codec::deserialize]: the status and the output value. *)
Definition deserialize (payload : bytes) : Status * T :=
  match decode_payload payload with
  | Err status => (status, default_value)
  | Ok decoded => (OK, decoded)
  end.

Definition to_json (object : T) : bytes := format_json object.

(** [Codec::decode_to_json] *)
Definition decode_to_json (payload : bytes) : Status * bytes :=
  match deserialize payload with
  | (OK, decoded) => (OK, to_json decoded)
  | (status, _) => (status, [])
  end.

(** The facade never reports OK through a failing branch. *)
Definition statuses_honest : Prop :=
  (forall object, encode_payload object <> Err OK) /\
  (forall payload, decode_payload payload <> Err OK).

Context {schema : T -> Prop} `{!PayloadCodecLaws T schema}.

Lemma serialize_deserialize object :
  schema object ->
  exists payload,
    serialize object = (OK, payload) /\ deserialize payload = (OK, object) /\
    decode_to_json payload = (OK, to_json object).
Proof.
  intros Hs. destruct (encode_total object Hs) as [payload He].
  exists payload. unfold serialize, decode_to_json, deserialize.
  by rewrite He, (decode_encode object payload).
Qed.

Lemma deserialize_serialize payload object :
  statuses_honest -> Forall is_byte payload ->
  deserialize payload = (OK, object) -> serialize object = (OK, payload).
Proof.
  intros [_ Hd] Hb. unfold deserialize, serialize.
  destruct (decode_payload payload) as [decoded|status] eqn:E.
  - intros [= <-]. by destruct (encode_decode decoded payload Hb E) as [_ ->].
  - intros [= -> _]. by destruct (Hd payload).
Qed.

(** Distinct schema values have distinct payloads. *)
Lemma encode_payload_inj x y payload :
  schema x -> schema y ->
  encode_payload x = Ok payload -> encode_payload y = Ok payload -> x = y.
Proof.
  intros Hx Hy Ex Ey. apply (decode_encode x) in Ex; [|done].
  apply (decode_encode y) in Ey; [|done]. congruence.
Qed.
End Facade.
