(* ===== verification/Hash256.v ===== *)
(** * SHA-256 digests (utils/hash/sha256.hpp, utils/hash/sha256.cpp)

    The value type, its hexadecimal conversion and the provider's failure
    fallback. The provider itself, [mbedtls_sha256], is an argument. *)
From S2P Require Import Prelude Bytes Text.
Open Scope Z_scope.

Definition kSha256Bytes : nat := 32.

(** [Hash256::bytes]: a 32-byte array. *)
Abbreviation Hash256 := (list Z).

Definition hash256 (h : Hash256) : Prop := length h = kSha256Bytes /\ Forall is_byte h.

(** [Hash256{}] *)
Definition zero_hash : Hash256 := replicate kSha256Bytes 0.

Definition empty (h : Hash256) : bool := forallb (fun byte => byte =? 0) h.

Definition hex (h : Hash256) : bytes := hex_text h.

(** The loop of [from_hex]: [None] at the first invalid digit. *)
Fixpoint parse_pairs (count : nat) (text : bytes) : option bytes :=
  match count with
  | O => Some []
  | S count' =>
      let high := hex_value (byte_at text 0) in
      let low := hex_value (byte_at text 1) in
      if (high <? 0) || (low <? 0) then None
      else
        match parse_pairs count' (drop 2 text) with
        | Some rest => Some (wrap 8 (Z.lor (Z.shiftl high 4) low) :: rest)
        | None => None
        end
  end.

(** The result and the output parameter. *)
Definition from_hex (text : bytes) : bool * Hash256 :=
  if negb (length text =? kSha256Bytes * 2)%nat then (false, zero_hash)
  else
    match parse_pairs kSha256Bytes text with
    | Some h => (true, h)
    | None => (false, zero_hash)
    end.

Section Provider.
(** [mbedtls_sha256]: [None] for a nonzero return code. *)
Variable mbedtls_sha256 : bytes -> option bytes.

Definition sha256 (data : bytes) : Hash256 :=
  match mbedtls_sha256 data with
  | Some digest => digest
  | None => zero_hash
  end.

(** The documented output of the provider: 32 bytes. *)
Definition provider_ok : Prop :=
  forall data digest, mbedtls_sha256 data = Some digest -> hash256 digest.

Lemma zero_hash_ok : hash256 zero_hash.
Proof. split; [done|]. by apply Forall_replicate. Qed.

Lemma sha256_ok data : provider_ok -> hash256 (sha256 data).
Proof.
  intros H. unfold sha256. destruct (mbedtls_sha256 data) as [d|] eqn:E; [by eapply H|].
  apply zero_hash_ok.
Qed.
End Provider.

(** Lowercase form of a hexadecimal digit. *)
Definition lower_hex (c : Z) : Z := if (65 <=? c) && (c <=? 70) then c + 32 else c.

Lemma hex_digit_value c : 0 <= hex_value c -> hex_digit (hex_value c) = lower_hex c.
Proof.
  unfold hex_value, hex_digit, lower_hex.
  repeat guard_goal; bool_to_prop; try lia; rewrite andb_false_iff in *;
    rewrite ?Z.leb_gt in *; lia.
Qed.

Lemma parse_pairs_hex h rest :
  Forall is_byte h -> parse_pairs (length h) (hex_text h ++ rest) = Some h.
Proof.
  induction 1 as [|b h Hb Hh IH]; [done|].
  destruct (byte_nibbles b Hb) as (Rh & Rl & E).
  rewrite hex_text_cons. cbn [length parse_pairs app].
  change (byte_at (?x :: _) 0) with x. change (byte_at (_ :: ?y :: _) 1) with y.
  rewrite !hex_value_digit by done.
  rewrite (proj2 (Z.ltb_ge _ _)), (proj2 (Z.ltb_ge _ _)) by lia. cbn [orb drop]. rewrite drop_0.
  rewrite IH, E. by rewrite wrap_small.
Qed.

Lemma parse_pairs_some count text h :
  length text = (count * 2)%nat -> parse_pairs count text = Some h ->
  length h = count /\ Forall is_byte h /\ hex_text h = map lower_hex text.
Proof.
  revert text h. induction count as [|count IH]; intros text h Hl H.
  { destruct text; [|done]. injection H as <-. done. }
  destruct text as [|a [|b text]]; try (simpl in Hl; lia).
  cbn [parse_pairs] in H. change (byte_at (a :: _) 0) with a in H.
  change (byte_at (_ :: b :: _) 1) with b in H. guard_in H. bool_to_prop.
  cbn [drop] in H. rewrite drop_0 in H. destruct (parse_pairs count text) as [h'|] eqn:E; [|done].
  injection H as <-. apply IH in E as (Hlen & Hb & Eh); [|simpl in Hl; lia].
  pose proof (hex_value_range a). pose proof (hex_value_range b).
  destruct (nibbles_byte (hex_value a) (hex_value b)) as (Rb & Eh' & El); [lia|lia|].
  rewrite wrap_small by done. split_and!; [simpl; lia|by constructor|].
  rewrite hex_text_cons. cbn [map].
  by rewrite Eh', El, Eh, !hex_digit_value by lia.
Qed.

(** ** Properties *)

(** Rendering a digest gives 64 digits that parse back to it, and
    parsing accepts exactly 64 hexadecimal digits, whose rendering is the
    parsed text in lowercase. *)
Theorem from_hex_hex :
  (forall h, hash256 h -> length (hex h) = 64%nat /\ from_hex (hex h) = (true, h)) /\
  (forall text h, from_hex text = (true, h) ->
     hash256 h /\ length text = 64%nat /\ hex h = map lower_hex text).
Proof.
  split.
  - intros h [Hl Hb]. unfold from_hex, hex. rewrite length_hex_text, Hl. split; [done|].
    cbn [negb Nat.eqb Nat.mul Nat.add kSha256Bytes].
    pose proof (parse_pairs_hex h [] Hb) as E. rewrite app_nil_r, Hl in E.
    unfold kSha256Bytes in *. by rewrite E.
  - intros text h H. unfold from_hex in H. guard_in H. bool_to_prop.
    destruct (parse_pairs kSha256Bytes text) as [h'|] eqn:E; [|done].
    injection H as <-. apply parse_pairs_some in E as (Hl & Hb & Eh); [|done].
    done.
Qed.

(** The all-zero digest is the only empty one. *)
Lemma empty_iff h : hash256 h -> empty h = true <-> h = zero_hash.
Proof.
  intros [Hl _]. unfold empty, zero_hash. rewrite forallb_forall. split.
  - intros H. rewrite <- Hl. clear Hl. induction h as [|b h IH]; [done|].
    simpl. rewrite <- IH; [|intros x Hx; apply H; by right].
    f_equal. apply Z.eqb_eq, H. by left.
  - intros -> x Hx. apply list_elem_of_In in Hx. apply elem_of_replicate in Hx as [-> _]. done.
Qed.
