(* ===== verification/TerminalMsgs.v ===== *)
(** * Terminal-input messages (msgs/terminal_msgs.hpp, msgs/terminal_msgs.cpp)

    The portable [TerminalInputEvent] and its byte codec: every alternative's
    encoder and decoder with its guards. *)
From S2P Require Import Prelude Bytes Text Utf8 MsgCodec.
Open Scope Z_scope.

Record TerminalKeyEvent := {
  named : bool;
  key : Z;
  key_modifiers : Z;
  key_action : Z;
  shifted_key : option Z;
  base_layout_key : option Z;
  text : bytes;
}.

Record TerminalTextEvent := { utf8 : bytes }.

Record TerminalMouseEvent := {
  mouse_x : Z; mouse_y : Z; button : Z; mouse_action : Z; mouse_modifiers : Z;
}.

Record TerminalScrollEvent := {
  scroll_x : Z; scroll_y : Z; delta_x : Z; delta_y : Z; scroll_modifiers : Z;
}.

Record TerminalPasteEvent := { phase : Z; paste_data : bytes }.

Record TerminalFocusEvent := { focused : bool }.

Record TerminalClipboardEvent := { selection : Z; clipboard_data : bytes }.

Record TerminalCommandEvent := { command : Z }.

Record TerminalResponseEvent := { kind : Z; value : Z; response_bytes : bytes }.

Record TerminalUnknownEvent := { reason : Z; unknown_bytes : bytes }.

(** [TerminalInputEvent::Data] *)
Inductive TerminalInputEvent :=
| MKey (event : TerminalKeyEvent)
| MText (event : TerminalTextEvent)
| MMouse (event : TerminalMouseEvent)
| MScroll (event : TerminalScrollEvent)
| MPaste (event : TerminalPasteEvent)
| MFocus (event : TerminalFocusEvent)
| MClipboard (event : TerminalClipboardEvent)
| MCommand (event : TerminalCommandEvent)
| MResponse (event : TerminalResponseEvent)
| MUnknown (event : TerminalUnknownEvent).

(** [WireEvent] discriminators. *)
Module WireEvent.
Definition KEY : Z := 1.
Definition TEXT : Z := 2.
Definition MOUSE : Z := 3.
Definition SCROLL : Z := 4.
Definition PASTE : Z := 5.
Definition FOCUS : Z := 6.
Definition CLIPBOARD : Z := 7.
Definition COMMAND : Z := 8.
Definition RESPONSE : Z := 9.
Definition UNKNOWN : Z := 10.
End WireEvent.

Definition kKnownModifierBits : Z := 0x00ff.
Definition kMaximumUnicodeScalar : Z := 0x10ffff.

Definition valid_scalar (value : Z) : bool :=
  (value <=? kMaximumUnicodeScalar)
  && negb ((0xd800 <=? value) && (value <=? 0xdfff)).

(** [(modifiers & ~kKnownModifierBits) == 0U] *)
Definition known_modifiers (modifiers : Z) : bool :=
  Z.land modifiers (Z.lnot kKnownModifierBits) =? 0.

Definition valid_key (event : TerminalKeyEvent) : bool :=
  (named event || valid_scalar (key event))
  && (key_action event <=? 2)
  && known_modifiers (key_modifiers event)
  && match shifted_key event with Some k => valid_scalar k | None => true end
  && match base_layout_key event with Some k => valid_scalar k | None => true end
  && is_valid (text event).

(** [append_string(output, value) ? OK : PAYLOAD_ENCODING_FAILED] *)
Definition finish_string (output value : bytes) : result Status bytes :=
  match append_string output value with
  | Some encoded => Ok encoded
  | None => Err PAYLOAD_ENCODING_FAILED
  end.

(** The key alternative's option flags. *)
Definition option_bits (event : TerminalKeyEvent) : Z :=
  Z.lor (if shifted_key event is Some _ then 1 else 0)
        (if base_layout_key event is Some _ then 2 else 0).

Definition append_optional (output : bytes) (value : option Z) : bytes :=
  match value with
  | Some v => append_u32 output v
  | None => output
  end.

(** [static_cast<std::uint32_t>] of a signed 32-bit delta, and back. *)
Definition u32_of_i32 (v : Z) : Z := wrap 32 v.
Definition i32_of_u32 (v : Z) : Z := if v <? 2 ^ 31 then v else v - 2 ^ 32.

Definition encode_event (event : TerminalInputEvent) : result Status bytes :=
  match event with
  | MKey v =>
      check (valid_key v) PAYLOAD_ENCODING_FAILED
        (let output := [WireEvent.KEY; if named v then 1 else 0] in
         let output := append_u32 output (key v) in
         let output := append_u16 output (key_modifiers v) in
         let output := output ++ [key_action v] in
         let output := output ++ [option_bits v] in
         let output := append_optional output (shifted_key v) in
         let output := append_optional output (base_layout_key v) in
         finish_string output (text v))
  | MText v =>
      check (is_valid (utf8 v)) PAYLOAD_ENCODING_FAILED
        (finish_string [WireEvent.TEXT] (utf8 v))
  | MMouse v =>
      check (negb ((7 <? button v) || (3 <? mouse_action v)
                   || negb (known_modifiers (mouse_modifiers v))))
        PAYLOAD_ENCODING_FAILED
        (let output := append_u32 [WireEvent.MOUSE] (mouse_x v) in
         let output := append_u32 output (mouse_y v) in
         let output := output ++ [button v] in
         let output := output ++ [mouse_action v] in
         Ok (append_u16 output (mouse_modifiers v)))
  | MScroll v =>
      check (known_modifiers (scroll_modifiers v)) PAYLOAD_ENCODING_FAILED
        (let output := append_u32 [WireEvent.SCROLL] (scroll_x v) in
         let output := append_u32 output (scroll_y v) in
         let output := append_u32 output (u32_of_i32 (delta_x v)) in
         let output := append_u32 output (u32_of_i32 (delta_y v)) in
         Ok (append_u16 output (scroll_modifiers v)))
  | MPaste v =>
      check (phase v <=? 3) PAYLOAD_ENCODING_FAILED
        (finish_string [WireEvent.PASTE; phase v] (paste_data v))
  | MFocus v => Ok [WireEvent.FOCUS; if focused v then 1 else 0]
  | MClipboard v =>
      check (selection v <=? 1) PAYLOAD_ENCODING_FAILED
        (finish_string [WireEvent.CLIPBOARD; selection v] (clipboard_data v))
  | MCommand v =>
      check (command v <=? 11) PAYLOAD_ENCODING_FAILED
        (Ok (append_u16 [WireEvent.COMMAND] (command v)))
  | MResponse v =>
      check (kind v <=? 5) PAYLOAD_ENCODING_FAILED
        (finish_string (append_u32 [WireEvent.RESPONSE; kind v] (value v))
           (response_bytes v))
  | MUnknown v =>
      check (reason v <=? 4) PAYLOAD_ENCODING_FAILED
        (finish_string [WireEvent.UNKNOWN; reason v] (unknown_bytes v))
  end.

(** [read_string(...) && offset == payload.size()] *)
Definition read_final_string (payload : bytes) (offset : nat) : result Status bytes :=
  match read_string payload offset with
  | Some (s, offset) => check (offset =? length payload)%nat MALFORMED_PAYLOAD (Ok s)
  | None => Err MALFORMED_PAYLOAD
  end.

(** An optional 32-bit field present when [present]; advances the offset. *)
Definition read_optional (payload : bytes) (offset : nat) (present : bool)
  : result Status (option Z * nat) :=
  if present then
    check (negb (length payload - offset <? 4)%nat) MALFORMED_PAYLOAD
      (Ok (Some (read_u32 (subspan payload offset 4)), (offset + 4)%nat))
  else Ok (None, offset).

Definition decode_key (payload : bytes) : result Status TerminalInputEvent :=
  check (negb ((length payload <? 10)%nat || (1 <? byte_at payload 1)
               || (3 <? byte_at payload 9))) MALFORMED_PAYLOAD
    (do (shifted, offset) <- read_optional payload 10
          (negb (Z.land (byte_at payload 9) 1 =? 0));
     do (base, offset) <- read_optional payload offset
          (negb (Z.land (byte_at payload 9) 2 =? 0));
     do s <- read_final_string payload offset;
     let event := {| named := negb (byte_at payload 1 =? 0);
                     key := read_u32 (subspan payload 2 4);
                     key_modifiers := read_u16 (subspan payload 6 2);
                     key_action := byte_at payload 8;
                     shifted_key := shifted;
                     base_layout_key := base;
                     text := s |} in
     check (valid_key event) MALFORMED_PAYLOAD (Ok (MKey event))).

Definition decode_mouse (payload : bytes) : result Status TerminalInputEvent :=
  check (length payload =? 13)%nat MALFORMED_PAYLOAD
    (let event := {| mouse_x := read_u32 (subspan payload 1 4);
                     mouse_y := read_u32 (subspan payload 5 4);
                     button := byte_at payload 9;
                     mouse_action := byte_at payload 10;
                     mouse_modifiers := read_u16 (subspan payload 11 2) |} in
     check (negb ((7 <? button event) || (3 <? mouse_action event)
                  || negb (known_modifiers (mouse_modifiers event))))
       MALFORMED_PAYLOAD (Ok (MMouse event))).

Definition decode_scroll (payload : bytes) : result Status TerminalInputEvent :=
  check (length payload =? 19)%nat MALFORMED_PAYLOAD
    (let event := {| scroll_x := read_u32 (subspan payload 1 4);
                     scroll_y := read_u32 (subspan payload 5 4);
                     delta_x := i32_of_u32 (read_u32 (subspan payload 9 4));
                     delta_y := i32_of_u32 (read_u32 (subspan payload 13 4));
                     scroll_modifiers := read_u16 (subspan payload 17 2) |} in
     check (known_modifiers (scroll_modifiers event)) MALFORMED_PAYLOAD
       (Ok (MScroll event))).

Definition decode_event (payload : bytes) : result Status TerminalInputEvent :=
  match payload with
  | [] => Err MALFORMED_PAYLOAD
  | front :: _ =>
      if front =? WireEvent.KEY then decode_key payload
      else if front =? WireEvent.TEXT then
        do s <- read_final_string payload 1;
        check (is_valid s) MALFORMED_PAYLOAD (Ok (MText {| utf8 := s |}))
      else if front =? WireEvent.MOUSE then decode_mouse payload
      else if front =? WireEvent.SCROLL then decode_scroll payload
      else if front =? WireEvent.PASTE then
        check (negb ((length payload <? 6)%nat || (3 <? byte_at payload 1)))
          MALFORMED_PAYLOAD
          (do s <- read_final_string payload 2;
           Ok (MPaste {| phase := byte_at payload 1; paste_data := s |}))
      else if front =? WireEvent.FOCUS then
        check (negb (negb (length payload =? 2)%nat || (1 <? byte_at payload 1)))
          MALFORMED_PAYLOAD
          (Ok (MFocus {| focused := negb (byte_at payload 1 =? 0) |}))
      else if front =? WireEvent.CLIPBOARD then
        check (negb ((length payload <? 6)%nat || (1 <? byte_at payload 1)))
          MALFORMED_PAYLOAD
          (do s <- read_final_string payload 2;
           Ok (MClipboard {| selection := byte_at payload 1; clipboard_data := s |}))
      else if front =? WireEvent.COMMAND then
        check (length payload =? 3)%nat MALFORMED_PAYLOAD
          (let command := read_u16 (subspan payload 1 2) in
           check (command <=? 11) MALFORMED_PAYLOAD
             (Ok (MCommand {| command := command |})))
      else if front =? WireEvent.RESPONSE then
        check (negb ((length payload <? 10)%nat || (5 <? byte_at payload 1)))
          MALFORMED_PAYLOAD
          (do s <- read_final_string payload 6;
           Ok (MResponse {| kind := byte_at payload 1;
                            value := read_u32 (subspan payload 2 4);
                            response_bytes := s |}))
      else if front =? WireEvent.UNKNOWN then
        check (negb ((length payload <? 6)%nat || (4 <? byte_at payload 1)))
          MALFORMED_PAYLOAD
          (do s <- read_final_string payload 2;
           Ok (MUnknown {| reason := byte_at payload 1; unknown_bytes := s |}))
      else Err MALFORMED_PAYLOAD
  end.

Definition terminal_input_event_name (event : TerminalInputEvent) : string :=
  match event with
  | MKey _ => "key"
  | MText _ => "text"
  | MMouse _ => "mouse"
  | MScroll _ => "scroll"
  | MPaste _ => "paste"
  | MFocus _ => "focus"
  | MClipboard _ => "clipboard"
  | MCommand _ => "command"
  | MResponse _ => "response"
  | MUnknown _ => "unknown"
  end.

(** [std::formatter<TerminalInputEvent>] *)
Definition format_event (event : TerminalInputEvent) : bytes :=
  json "{'type':'" ++ str (terminal_input_event_name event) ++ json "'}".

Example decode_encode_key :
  let event := MKey {| named := false; key := 0x41; key_modifiers := 1; key_action := 0;
                       shifted_key := Some 0x61; base_layout_key := None; text := [0x41] |} in
  (do payload <- encode_event event; decode_event payload) = Ok event.
Proof. vm_compute. reflexivity. Qed.

(** ** The schema *)

(** A string whose C++ [size()] fits the 32-bit length prefix. *)
Definition wire_string (s : bytes) : Prop :=
  Forall is_byte s /\ Z.of_nat (length s) < 2 ^ 32.

Definition optional_u32 (v : option Z) : Prop :=
  match v with Some k => is_u32 k | None => True end.

(** Values of the C++ field types that satisfy the wire schema's limits. *)
Definition event_schema (event : TerminalInputEvent) : Prop :=
  match event with
  | MKey v => is_u32 (key v) /\ is_u16 (key_modifiers v) /\ is_byte (key_action v) /\
      optional_u32 (shifted_key v) /\ optional_u32 (base_layout_key v) /\
      wire_string (text v) /\ valid_key v = true
  | MText v => wire_string (utf8 v) /\ is_valid (utf8 v) = true
  | MMouse v => is_u32 (mouse_x v) /\ is_u32 (mouse_y v) /\ 0 <= button v <= 7 /\
      0 <= mouse_action v <= 3 /\ is_u16 (mouse_modifiers v) /\
      known_modifiers (mouse_modifiers v) = true
  | MScroll v => is_u32 (scroll_x v) /\ is_u32 (scroll_y v) /\
      - 2 ^ 31 <= delta_x v < 2 ^ 31 /\ - 2 ^ 31 <= delta_y v < 2 ^ 31 /\
      is_u16 (scroll_modifiers v) /\ known_modifiers (scroll_modifiers v) = true
  | MPaste v => 0 <= phase v <= 3 /\ wire_string (paste_data v)
  | MFocus _ => True
  | MClipboard v => 0 <= selection v <= 1 /\ wire_string (clipboard_data v)
  | MCommand v => 0 <= command v <= 11
  | MResponse v => 0 <= kind v <= 5 /\ is_u32 (value v) /\ wire_string (response_bytes v)
  | MUnknown v => 0 <= reason v <= 4 /\ wire_string (unknown_bytes v)
  end.

(** ** Lemmas *)

Lemma finish_string_fits output s :
  wire_string s ->
  finish_string output s = Ok (output ++ be_bytes 4 (Z.of_nat (length s)) ++ s).
Proof. intros [_ H]. unfold finish_string. by rewrite append_string_fits. Qed.

Lemma read_final_string_written pre s :
  wire_string s ->
  read_final_string (pre ++ be_bytes 4 (Z.of_nat (length s)) ++ s) (length pre) = Ok s.
Proof.
  intros [_ H]. unfold read_final_string, check. rewrite read_string_written by done.
  rewrite !length_app, length_be_bytes. by rewrite (proj2 (Nat.eqb_eq _ _)) by lia.
Qed.

Lemma read_final_string_ok payload offset s :
  Forall is_byte payload -> (offset <= length payload)%nat ->
  read_final_string payload offset = Ok s ->
  wire_string s /\
  drop offset payload = be_bytes 4 (Z.of_nat (length s)) ++ s.
Proof.
  intros Hb Ho. unfold read_final_string.
  destruct (read_string payload offset) as [[s' next]|] eqn:E; [|done].
  intros H. result_inv H. subst s'. bool_to_prop.
  apply read_string_some in E as (-> & _ & Hl & Hs & Hd); [|done..].
  rewrite G, drop_all, app_nil_r in Hd. by split.
Qed.

Lemma i32_of_u32_of_i32 v : - 2 ^ 31 <= v < 2 ^ 31 -> i32_of_u32 (u32_of_i32 v) = v.
Proof.
  intros H. unfold i32_of_u32, u32_of_i32, wrap.
  guard_goal; bool_to_prop; Z.div_mod_to_equations; lia.
Qed.

Lemma u32_of_i32_of_u32 v : is_u32 v ->
  u32_of_i32 (i32_of_u32 v) = v /\ - 2 ^ 31 <= i32_of_u32 v < 2 ^ 31.
Proof.
  unfold in_width, i32_of_u32, u32_of_i32, wrap. intros H.
  guard_goal; bool_to_prop; Z.div_mod_to_equations; lia.
Qed.

Lemma wire_string_bytes output s :
  wire_string s -> Forall is_byte output ->
  Forall is_byte (output ++ be_bytes 4 (Z.of_nat (length s)) ++ s).
Proof. intros [H _] Ho. repeat apply Forall_app_2; auto with puc. Qed.

#[export] Hint Resolve wire_string_bytes : puc.

Ltac codec_simpl :=
  cbn -[Z.shiftr Z.shiftl Z.lor wrap be_bytes read_u32 read_u16 read_final_string
        valid_key known_modifiers is_valid i32_of_u32 u32_of_i32 Z.leb Z.ltb].

Lemma encode_event_total event :
  event_schema event -> exists payload, encode_event event = Ok payload.
Proof.
  destruct event as [v|v|v|v|v|v|v|v|v|v]; simpl; intros H; destruct_and?; unfold check;
    repeat match goal with
    | H : ?b = true |- context [?b] => rewrite H
    | |- context [?a <? ?b] => rewrite (proj2 (Z.ltb_ge a b)) by lia
    | |- context [?a <=? ?b] => rewrite (proj2 (Z.leb_le a b)) by lia
    end; simpl;
    try (rewrite finish_string_fits by done); eauto.
Qed.

Lemma option_bits_cases event :
  option_bits event =
  (if shifted_key event is Some _ then 1 else 0)
    + (if base_layout_key event is Some _ then 2 else 0).
Proof. unfold option_bits. by destruct (shifted_key event), (base_layout_key event). Qed.

Lemma encode_event_bytes event payload :
  event_schema event -> encode_event event = Ok payload -> Forall is_byte payload.
Proof.
  intros Hs He.
  destruct event as [v|v|v|v|v|v|v|v|v|v]; simpl in Hs, He; destruct_and?;
    result_inv He; try (rewrite finish_string_fits in He by done); result_inv He; subst payload;
    repeat match goal with H : wire_string _ |- _ => destruct H end;
    try rewrite option_bits_cases;
    try (unfold append_optional; destruct (shifted_key v), (base_layout_key v));
    solve_bytes.
Qed.

Lemma read_final_string_cons pre s payload :
  wire_string s ->
  payload = pre ++ be_bytes 4 (Z.of_nat (length s)) ++ s ->
  read_final_string payload (length pre) = Ok s.
Proof. intros H ->. by apply read_final_string_written. Qed.

Ltac dispatch :=
  lazy beta iota zeta delta
    [decode_event Z.eqb Pos.eqb WireEvent.KEY WireEvent.TEXT WireEvent.MOUSE
     WireEvent.SCROLL WireEvent.PASTE WireEvent.FOCUS WireEvent.CLIPBOARD
     WireEvent.COMMAND WireEvent.RESPONSE WireEvent.UNKNOWN].

(** Rewrite the final string of a decoder whose fixed part is [pre]. *)
Ltac final_string pre :=
  match goal with H : wire_string ?s |- context [read_final_string ?p ?o] =>
    rewrite (read_final_string_cons pre s p H eq_refl : read_final_string p o = Ok s)
  end.

(** *** The key alternative *)

Definition optional_bytes (value : option Z) : bytes :=
  match value with Some v => be_bytes 4 v | None => [] end.

Lemma append_optional_spec output v : append_optional output v = output ++ optional_bytes v.
Proof. destruct v; simpl; [apply append_u32_spec|by rewrite app_nil_r]. Qed.

Lemma length_optional_bytes v :
  length (optional_bytes v) = if v is Some _ then 4%nat else 0%nat.
Proof. by destruct v. Qed.

Lemma read_optional_written pre v rest :
  optional_u32 v ->
  read_optional (pre ++ optional_bytes v ++ rest) (length pre) (if v is Some _ then true else false)
  = Ok (v, (length pre + length (optional_bytes v))%nat).
Proof.
  intros H. unfold read_optional, check. rewrite length_optional_bytes.
  destruct v as [k|]; [|by rewrite Nat.add_0_r].
  cbn [optional_bytes]. rewrite !length_app, length_be_bytes, (proj2 (Nat.ltb_ge _ _)) by lia.
  cbn [negb]. rewrite subspan_app_n by apply length_be_bytes.
  by rewrite read_u32_be.
Qed.

(** The ten fixed bytes of a key payload, read field by field. *)
Lemma decode_key_fixed a0 a1 a2 a3 a4 a5 a6 a7 a8 a9 rest :
  let payload := [a0; a1; a2; a3; a4; a5; a6; a7; a8; a9] ++ rest in
  decode_key payload =
  check (negb ((1 <? a1) || (3 <? a9))) MALFORMED_PAYLOAD
    (do (shifted, offset) <- read_optional payload 10 (negb (Z.land a9 1 =? 0));
     do (base, offset) <- read_optional payload offset (negb (Z.land a9 2 =? 0));
     do s <- read_final_string payload offset;
     let event := {| named := negb (a1 =? 0); key := read_u32 [a2; a3; a4; a5];
                     key_modifiers := read_u16 [a6; a7]; key_action := a8;
                     shifted_key := shifted; base_layout_key := base; text := s |} in
     check (valid_key event) MALFORMED_PAYLOAD (Ok (MKey event))).
Proof. done. Qed.

(** The encoder's key payload in the same form. *)
Lemma encode_key_layout v :
  wire_string (text v) -> valid_key v = true ->
  encode_event (MKey v) =
  Ok ([WireEvent.KEY; if named v then 1 else 0;
       wrap 8 (Z.shiftr (key v) 24); wrap 8 (Z.shiftr (key v) 16);
       wrap 8 (Z.shiftr (key v) 8); wrap 8 (key v);
       wrap 8 (Z.shiftr (key_modifiers v) 8); wrap 8 (key_modifiers v);
       key_action v; option_bits v]
      ++ optional_bytes (shifted_key v) ++ optional_bytes (base_layout_key v)
      ++ be_bytes 4 (Z.of_nat (length (text v))) ++ text v).
Proof.
  intros Ht Hv. unfold encode_event, check. rewrite Hv, !append_optional_spec.
  rewrite finish_string_fits by done. unfold append_u32, append_u16.
  f_equal. by rewrite <- !app_assoc.
Qed.

Lemma option_bits_flags v :
  negb (Z.land (option_bits v) 1 =? 0) = (if shifted_key v is Some _ then true else false) /\
  negb (Z.land (option_bits v) 2 =? 0) = (if base_layout_key v is Some _ then true else false) /\
  (3 <? option_bits v) = false.
Proof. unfold option_bits. by destruct (shifted_key v), (base_layout_key v). Qed.

Lemma negb_bool_byte (b : bool) : negb ((if b then 1 else 0) =? 0) = b /\ (1 <? (if b then 1 else 0)) = false.
Proof. by destruct b. Qed.

Lemma decode_encode_key_event v payload :
  event_schema (MKey v) -> encode_event (MKey v) = Ok payload ->
  decode_event payload = Ok (MKey v).
Proof.
  intros (Hk & Hm & Ha & Hs & Hb & Ht & Hv) He.
  rewrite encode_key_layout in He by done. apply Ok_inj in He as <-.
  match goal with |- decode_event (?p ++ ?q) = _ =>
    change (decode_event (p ++ q)) with (decode_key (p ++ q)); set (pre := p) end.
  unfold pre at 1. rewrite decode_key_fixed. fold pre.
  destruct (option_bits_flags v) as (-> & -> & ->), (negb_bool_byte (named v)) as [-> ->].
  rewrite read_u32_appended, read_u16_appended by done. unfold check at 1. cbn [negb orb].
  change 10%nat with (length pre).
  rewrite read_optional_written by done. cbn [result_bind].
  rewrite <- length_app, app_assoc, read_optional_written by done. cbn [result_bind].
  rewrite <- length_app, app_assoc, read_final_string_written by done. cbn [result_bind].
  destruct v. unfold check. simpl. cbn in Hv. by rewrite Hv.
Qed.

Lemma decode_encode_event event payload :
  event_schema event -> encode_event event = Ok payload -> decode_event payload = Ok event.
Proof.
  intros Hs He.
  destruct event as [v|v|v|v|v|v|v|v|v|v]; [by apply decode_encode_key_event|..];
    destruct v; simpl in Hs, He; destruct_and?;
    result_inv He; try (rewrite finish_string_fits in He by done); result_inv He; subst payload.
  - dispatch. final_string [WireEvent.TEXT]. cbn. by rewrite G.
  - dispatch. unfold decode_mouse, append_u32, append_u16. codec_simpl. cbn in G.
    rewrite !read_u32_appended, read_u16_appended by done. by range_guards.
  - dispatch. unfold decode_scroll, append_u32, append_u16. codec_simpl. cbn in G.
    rewrite !read_u32_appended, read_u16_appended by (done || by apply wrap_in_width).
    rewrite !i32_of_u32_of_i32 by done. by range_guards.
  - dispatch. final_string [WireEvent.PASTE; phase0]. cbn. by range_guards.
  - dispatch. cbn. by destruct focused0.
  - dispatch. final_string [WireEvent.CLIPBOARD; selection0]. cbn. by range_guards.
  - dispatch. unfold append_u16. codec_simpl.
    rewrite read_u16_appended by (unfold in_width; lia). by range_guards.
  - dispatch. unfold append_u32.
    final_string [WireEvent.RESPONSE; kind0; wrap 8 (Z.shiftr value0 24);
      wrap 8 (Z.shiftr value0 16); wrap 8 (Z.shiftr value0 8); wrap 8 value0].
    codec_simpl. rewrite read_u32_appended by done. by range_guards.
  - dispatch. final_string [WireEvent.UNKNOWN; reason0]. cbn. by range_guards.
Qed.

(** *** The accepted payloads *)

Lemma read_optional_ok payload offset present v next :
  Forall is_byte payload ->
  read_optional payload offset present = Ok (v, next) ->
  optional_u32 v /\ (if v is Some _ then true else false) = present /\
  next = (offset + length (optional_bytes v))%nat /\
  ((offset <= length payload)%nat -> (next <= length payload)%nat) /\
  drop offset payload = optional_bytes v ++ drop next payload.
Proof.
  intros Hb. unfold read_optional. destruct present; intros H; result_inv H.
  - injection H as <- <-. bool_to_prop.
    assert (Hn : length (subspan payload offset 4) = 4%nat) by (apply subspan_length; lia).
    cbn [optional_u32 optional_bytes]. rewrite be_bytes_read_u32, Hn by auto with puc.
    split_and!; [apply read_u32_range; auto with puc|done|done|lia|apply drop_subspan].
  - injection H as <- <-. rewrite Nat.add_0_r. done.
Qed.

Lemma land_flags_option_bits b :
  is_byte b -> (3 <? b) = false ->
  b = (if negb (Z.land b 1 =? 0) then 1 else 0) + (if negb (Z.land b 2 =? 0) then 2 else 0).
Proof.
  unfold in_width. intros Hb H. bool_to_prop.
  assert (b = 0 \/ b = 1 \/ b = 2 \/ b = 3) as [->|[->|[->| ->]]] by lia; done.
Qed.

Lemma bool_byte_back b : is_byte b -> (1 <? b) = false ->
  (if negb (b =? 0) then 1 else 0) = b.
Proof.
  unfold in_width. intros Hb H. bool_to_prop.
  assert (b = 0 \/ b = 1) as [->| ->] by lia; done.
Qed.

Lemma valid_key_action v : valid_key v = true -> key_action v <= 2.
Proof. unfold valid_key. rewrite !andb_true_iff. intros H. destruct_and?. lia. Qed.

Lemma drop_prefix {A} (n : nat) (l r : list A) :
  drop n l = r -> l = take n l ++ r.
Proof. intros <-. by rewrite take_drop. Qed.

Lemma decode_key_inv a0 a1 a2 a3 a4 a5 a6 a7 a8 a9 rest event :
  let payload := [a0; a1; a2; a3; a4; a5; a6; a7; a8; a9] ++ rest in
  Forall is_byte payload -> a0 = WireEvent.KEY ->
  decode_key payload = Ok event ->
  event_schema event /\ encode_event event = Ok payload.
Proof.
  intros payload Hb H0 H. unfold payload in H. rewrite decode_key_fixed in H.
  cbv zeta in H. fold payload in H. result_inv H.
  destruct value0 as [shifted o1]. result_inv H. destruct value0 as [base o2].
  result_inv H. subst event.
  apply read_optional_ok in E as (Hs & Es & -> & Ho1 & Hd1); [|done].
  apply read_optional_ok in E0 as (Hk & Eb & -> & Ho2 & Hd2); [|done].
  assert (Hlen : (10 <= length payload)%nat) by (unfold payload; simpl; lia).
  apply read_final_string_ok in E1 as [Ht Hd3]; [|done|lia].
  assert (Hrest : rest = optional_bytes shifted ++ optional_bytes base
    ++ be_bytes 4 (Z.of_nat (length value0)) ++ value0).
  { change rest with (drop 10 payload). by rewrite Hd1, Hd2, Hd3. }
  assert (Hf : Forall is_byte [a0; a1; a2; a3; a4; a5; a6; a7; a8; a9])
    by (apply Forall_app in Hb as [? _]; done).
  rewrite !Forall_cons in Hf. destruct Hf as (Ha0 & Ha1 & Ha2 & Ha3 & Ha4 & Ha5 & Ha6 & Ha7 & Ha8 & Ha9 & _).
  apply negb_true_iff, orb_false_iff in G as [G1 G9].
  split.
  - split_and!; simpl; try done; [by apply read_u32_range; solve_bytes|].
    by apply read_u16_range; solve_bytes.
  - rewrite encode_key_layout by done. cbn [named key key_modifiers key_action text
      shifted_key base_layout_key]. unfold payload. rewrite Hrest, H0.
    f_equal. f_equal.
    pose proof (append_u32_read [] a2 a3 a4 a5 ltac:(solve_bytes)) as Eu.
    pose proof (append_u16_read [] a6 a7 ltac:(solve_bytes)) as Ev.
    unfold append_u32 in Eu. unfold append_u16 in Ev. cbn [app] in Eu, Ev.
    injection Eu as -> -> -> ->. injection Ev as -> ->.
    pose proof (land_flags_option_bits a9 Ha9 G9) as E9. rewrite <- Es, <- Eb in E9.
    rewrite (bool_byte_back a1), option_bits_cases, E9 by done.
    by destruct shifted, base.
Qed.

(** A payload whose last part is a string: the decoder's result determines it. *)
Lemma final_string_payload payload offset s :
  Forall is_byte payload -> (offset <= length payload)%nat ->
  read_final_string payload offset = Ok s ->
  wire_string s /\ finish_string (take offset payload) s = Ok payload.
Proof.
  intros Hb Ho H. apply read_final_string_ok in H as [Hs Hd]; [|done..].
  split; [done|]. rewrite finish_string_fits by done. by rewrite <- Hd, take_drop.
Qed.

(** Split a fixed-size payload into bytes and evaluate the reads. *)
Ltac fixed_payload Hb :=
  rewrite !Forall_cons in Hb; destruct_and?;
  cbn -[Z.shiftr Z.shiftl Z.lor Z.add wrap append_u32 append_u16 read_u32 read_u16
        known_modifiers i32_of_u32 u32_of_i32 Z.leb Z.ltb Z.land Z.eqb in_width] in *.

Ltac append_reads :=
  rewrite ?append_u32_read, ?append_u16_read by solve_bytes; done.

(** Alternatives made of a tag byte, one small byte and a string. *)
Ltac tagged_string Hb H :=
  result_inv H; subst; bool_to_prop;
  match type of Hb with Forall _ (_ :: ?rest) => list_cases rest 1%nat end;
  match goal with E : read_final_string _ _ = _ |- _ =>
    apply final_string_payload in E as [? ?]; [|done|simpl; lia]
  end;
  fixed_payload Hb; range_guards; split_and!; [width_lia|width_lia|done|assumption].

Lemma encode_decode_event event payload :
  Forall is_byte payload -> decode_event payload = Ok event ->
  event_schema event /\ encode_event event = Ok payload.
Proof.
  intros Hb H. unfold decode_event in H. destruct payload as [|front rest]; [done|].
  repeat (guard_in H; bool_to_prop; [subst front|]).
  - destruct (decide (length rest < 9)%nat) as [Hl|Hl].
    { unfold decode_key, check in H. by rewrite (proj2 (Nat.ltb_lt _ _)) in H by (simpl; lia). }
    list_cases rest 9%nat. by apply decode_key_inv in H.
  - result_inv H. subst event. apply final_string_payload in E as [Hs Hf]; [|done|simpl; lia].
    split; [done|]. unfold encode_event. cbn [utf8]. by range_guards.
  - unfold decode_mouse in H. result_inv H. bool_to_prop. list_cases rest 12%nat.
    destruct rest; [|discriminate]. subst event.
    fixed_payload Hb. range_guards. split.
    + split_and!; (width_lia || (apply read_u32_range; solve_bytes)
                   || (apply read_u16_range; solve_bytes) || done).
    + append_reads.
  - unfold decode_scroll in H. result_inv H. bool_to_prop. list_cases rest 18%nat.
    destruct rest; [|discriminate]. subst event.
    fixed_payload Hb.
    pose proof (u32_of_i32_of_u32 (read_u32 [z7; z8; z9; z10])
      ltac:(apply read_u32_range; solve_bytes)) as [E1 R1].
    pose proof (u32_of_i32_of_u32 (read_u32 [z11; z12; z13; z14])
      ltac:(apply read_u32_range; solve_bytes)) as [E2 R2].
    range_guards. split.
    + split_and!; (width_lia || (apply read_u32_range; solve_bytes)
                   || (apply read_u16_range; solve_bytes) || done).
    + rewrite E1, E2. append_reads.
  - tagged_string Hb H.
  - result_inv H. bool_to_prop. list_cases rest 1%nat. destruct rest; [|discriminate].
    subst event. fixed_payload Hb. split; [done|]. by rewrite bool_byte_back by (done || lia).
  - tagged_string Hb H.
  - result_inv H. bool_to_prop. list_cases rest 2%nat. destruct rest; [|discriminate].
    subst event. fixed_payload Hb.
    pose proof (read_u16_range [z; z0] ltac:(solve_bytes) eq_refl) as R.
    range_guards. split; [width_lia|]. append_reads.
  - result_inv H. subst event. bool_to_prop. list_cases rest 5%nat.
    apply final_string_payload in E as [Hs Hf]; [|done|simpl; lia].
    fixed_payload Hb. range_guards.
    split_and!; [width_lia|width_lia|apply read_u32_range; solve_bytes|done|].
    rewrite append_u32_read by solve_bytes. exact Hf.
  - guard_in H. bool_to_prop. subst front. tagged_string Hb H.
Qed.

(** ** The codec *)

#[global] Instance TerminalInputEventCodec : PayloadCodec TerminalInputEvent := {
  message_id := 4;
  default_value := MKey {| named := true; key := 0; key_modifiers := 0; key_action := 0;
    shifted_key := None; base_layout_key := None; text := [] |};
  encode_payload := encode_event;
  decode_payload := decode_event;
  format_json := format_event;
}.

#[global] Instance TerminalInputEventCodec_laws :
  PayloadCodecLaws TerminalInputEvent event_schema.
Proof.
  split; eauto using encode_event_total, encode_event_bytes, decode_encode_event,
    encode_decode_event.
Qed.
