(* ===== verification/ScreenMsgs.v ===== *)
(** * Screen, command-frame and null messages

    msgs/screen_msgs.{hpp,cpp}, msgs/cmdframe_msgs.{hpp,cpp} and
    msgs/null_message.hpp: values, byte codecs, JSON formatters and the proof
    that each satisfies the payload-codec contract. *)
From S2P Require Import Prelude Bytes Text Utf8 MsgCodec.
Open Scope Z_scope.

(** ** Screen commands *)

Record ScreenTakeCommand := { initial_bytes : bytes; final_bytes : bytes }.
Record ScreenPresentCommand := { present_bytes : bytes }.

(** [ScreenClipboardSelection] is an enumeration over [std::uint8_t]; a value
    cast from a wire byte need not be an enumerator, so it is kept as the byte. *)
Module ScreenClipboardSelection.
Definition PRIMARY : Z := 0.
Definition CLIPBOARD : Z := 1.
End ScreenClipboardSelection.

Record ScreenSetClipboardCommand := { selection : Z; clipboard_text : bytes }.

(** [ScreenCommand::Data] *)
Inductive ScreenCommand :=
| Take (command : ScreenTakeCommand)
| Release
| Present (command : ScreenPresentCommand)
| SetClipboard (command : ScreenSetClipboardCommand).

Module WireCommand.
Definition TAKE : Z := 1.
Definition RELEASE : Z := 2.
Definition PRESENT : Z := 3.
Definition SET_CLIPBOARD : Z := 4.
End WireCommand.

Definition valid_clipboard_selection (s : Z) : bool :=
  (s =? ScreenClipboardSelection.PRIMARY) || (s =? ScreenClipboardSelection.CLIPBOARD).

(** [value.size() > std::numeric_limits<std::uint32_t>::max()] *)
Definition too_long (value : bytes) : bool := 2 ^ 32 - 1 <? Z.of_nat (length value).

Definition size_u32 (value : bytes) : Z := Z.of_nat (length value).

Definition encode_screen_command (command : ScreenCommand) : result Status bytes :=
  match command with
  | Take take =>
      check (negb (too_long (initial_bytes take) || too_long (final_bytes take)))
        PAYLOAD_ENCODING_FAILED
        (let output := [WireCommand.TAKE] in
         let output := append_u32 output (size_u32 (initial_bytes take)) in
         let output := output ++ initial_bytes take in
         let output := append_u32 output (size_u32 (final_bytes take)) in
         Ok (output ++ final_bytes take))
  | Release => Ok [WireCommand.RELEASE]
  | SetClipboard clipboard =>
      check (negb (negb (valid_clipboard_selection (selection clipboard))
                   || too_long (clipboard_text clipboard)))
        PAYLOAD_ENCODING_FAILED
        (let output := [WireCommand.SET_CLIPBOARD; selection clipboard] in
         let output := append_u32 output (size_u32 (clipboard_text clipboard)) in
         Ok (output ++ clipboard_text clipboard))
  | Present present =>
      check (negb (too_long (present_bytes present))) PAYLOAD_ENCODING_FAILED
        (let output := append_u32 [WireCommand.PRESENT] (size_u32 (present_bytes present)) in
         Ok (output ++ present_bytes present))
  end.

Definition decode_take (payload : bytes) : result Status ScreenCommand :=
  check (negb (length payload <? 9)%nat) MALFORMED_PAYLOAD
    (let size := read_u32 (subspan payload 1 4) in
     check (negb (Z.of_nat (length payload - 9) <? size)) MALFORMED_PAYLOAD
       (let final_size_offset := (5 + Z.to_nat size)%nat in
        let final_size := read_u32 (subspan payload final_size_offset 4) in
        check (Z.of_nat (length payload - final_size_offset - 4) =? final_size)
          MALFORMED_PAYLOAD
          (Ok (Take {| initial_bytes := subspan payload 5 (Z.to_nat size);
                       final_bytes := subspan payload (final_size_offset + 4)
                                        (Z.to_nat final_size) |})))).

Definition decode_present (payload : bytes) : result Status ScreenCommand :=
  check (negb (length payload <? 5)%nat) MALFORMED_PAYLOAD
    (let size := read_u32 (subspan payload 1 4) in
     check (Z.of_nat (length payload - 5) =? size) MALFORMED_PAYLOAD
       (Ok (Present {| present_bytes := subspan payload 5 (Z.to_nat size) |}))).

Definition decode_set_clipboard (payload : bytes) : result Status ScreenCommand :=
  check (negb (length payload <? 6)%nat) MALFORMED_PAYLOAD
    (let s := byte_at payload 1 in
     let size := read_u32 (subspan payload 2 4) in
     check (negb (negb (valid_clipboard_selection s)
                  || negb (Z.of_nat (length payload - 6) =? size)))
       MALFORMED_PAYLOAD
       (Ok (SetClipboard {| selection := s;
                            clipboard_text := subspan payload 6 (Z.to_nat size) |}))).

Definition decode_screen_command (payload : bytes) : result Status ScreenCommand :=
  match payload with
  | [] => Err MALFORMED_PAYLOAD
  | front :: _ =>
      if front =? WireCommand.TAKE then decode_take payload
      else if front =? WireCommand.RELEASE then
        check (length payload =? 1)%nat MALFORMED_PAYLOAD (Ok Release)
      else if front =? WireCommand.PRESENT then decode_present payload
      else if front =? WireCommand.SET_CLIPBOARD then decode_set_clipboard payload
      else Err MALFORMED_PAYLOAD
  end.

(** [std::formatter<ScreenCommand>] *)
Definition format_screen_command (command : ScreenCommand) : bytes :=
  match command with
  | Take take =>
      json "{'type':'take','initial_bytes_hex':'" ++ hex_text (initial_bytes take)
        ++ json "','final_bytes_hex':'" ++ hex_text (final_bytes take) ++ json "'}"
  | Release => json "{'type':'release'}"
  | SetClipboard clipboard =>
      json "{'type':'set_clipboard','selection':'"
        ++ str (if selection clipboard =? ScreenClipboardSelection.PRIMARY
                then "primary" else "clipboard")
        ++ json "','text_hex':'" ++ hex_text (clipboard_text clipboard) ++ json "'}"
  | Present present =>
      json "{'type':'present','bytes_hex':'" ++ hex_text (present_bytes present) ++ json "'}"
  end.

(** ** Geometry events *)

Record ScreenResizeEvent := {
  width : Z; height : Z; pixel_width : Z; pixel_height : Z;
}.

Definition encode_resize (event : ScreenResizeEvent) : result Status bytes :=
  check (negb ((width event =? 0) || (height event =? 0))) PAYLOAD_ENCODING_FAILED
    (let output := append_u32 [] (width event) in
     let output := append_u32 output (height event) in
     let output := append_u32 output (pixel_width event) in
     Ok (append_u32 output (pixel_height event))).

Definition decode_resize (payload : bytes) : result Status ScreenResizeEvent :=
  check (length payload =? 16)%nat MALFORMED_PAYLOAD
    (let output := {| width := read_u32 (subspan payload 0 4);
                      height := read_u32 (subspan payload 4 4);
                      pixel_width := read_u32 (subspan payload 8 4);
                      pixel_height := read_u32 (subspan payload 12 4) |} in
     check (negb ((width output =? 0) || (height output =? 0))) MALFORMED_PAYLOAD
       (Ok output)).

Definition format_resize (event : ScreenResizeEvent) : bytes :=
  json "{'width':" ++ decimal (width event) ++ json ",'height':" ++ decimal (height event)
    ++ json ",'pixel_width':" ++ decimal (pixel_width event)
    ++ json ",'pixel_height':" ++ decimal (pixel_height event) ++ json "}".

(** ** Command notifications and the null message *)

Record CmdFrameNotification := { notification_text : bytes }.

Definition encode_notification (n : CmdFrameNotification) : result Status bytes :=
  check (is_valid (notification_text n)) PAYLOAD_ENCODING_FAILED (Ok (notification_text n)).

Definition decode_notification (payload : bytes) : result Status CmdFrameNotification :=
  match payload with
  | [] => Ok {| notification_text := [] |}
  | _ => check (is_valid payload) MALFORMED_PAYLOAD (Ok {| notification_text := payload |})
  end.

Definition format_notification (n : CmdFrameNotification) : bytes :=
  json "{'text_hex':'" ++ hex_text (notification_text n) ++ json "'}".

Record NullMessage := null_message {}.

Definition encode_null (object : NullMessage) : result Status bytes := Ok [].

Definition decode_null (payload : bytes) : result Status NullMessage :=
  match payload with
  | [] => Ok null_message
  | _ => Err MALFORMED_PAYLOAD
  end.

Definition format_null (object : NullMessage) : bytes := json "{}".

(** ** The codecs *)

#[export] Instance ScreenCommandCodec : PayloadCodec ScreenCommand := {
  message_id := 1;
  default_value := Take {| initial_bytes := []; final_bytes := [] |};
  encode_payload := encode_screen_command;
  decode_payload := decode_screen_command;
  format_json := format_screen_command;
}.

#[export] Instance ScreenResizeEventCodec : PayloadCodec ScreenResizeEvent := {
  message_id := 2;
  default_value := {| width := 0; height := 0; pixel_width := 0; pixel_height := 0 |};
  encode_payload := encode_resize;
  decode_payload := decode_resize;
  format_json := format_resize;
}.

#[export] Instance CmdFrameNotificationCodec : PayloadCodec CmdFrameNotification := {
  message_id := 3;
  default_value := {| notification_text := [] |};
  encode_payload := encode_notification;
  decode_payload := decode_notification;
  format_json := format_notification;
}.

#[export] Instance NullMessageCodec : PayloadCodec NullMessage := {
  message_id := 0;
  default_value := null_message;
  encode_payload := encode_null;
  decode_payload := decode_null;
  format_json := format_null;
}.

Example resize_json :
  format_resize {| width := 80; height := 24; pixel_width := 0; pixel_height := 0 |}
  = json "{'width':80,'height':24,'pixel_width':0,'pixel_height':0}".
Proof. reflexivity. Qed.

(** ** Schemas *)

Definition sized (s : bytes) : Prop := Forall is_byte s /\ Z.of_nat (length s) < 2 ^ 32.

Definition screen_command_schema (command : ScreenCommand) : Prop :=
  match command with
  | Take take => sized (initial_bytes take) /\ sized (final_bytes take)
  | Release => True
  | Present present => sized (present_bytes present)
  | SetClipboard clipboard =>
      0 <= selection clipboard <= 1 /\ sized (clipboard_text clipboard)
  end.

Definition resize_schema (event : ScreenResizeEvent) : Prop :=
  is_u32 (width event) /\ is_u32 (height event) /\ is_u32 (pixel_width event) /\
  is_u32 (pixel_height event) /\ width event <> 0 /\ height event <> 0.

Definition notification_schema (n : CmdFrameNotification) : Prop :=
  Forall is_byte (notification_text n) /\ is_valid (notification_text n) = true.

Definition null_schema (object : NullMessage) : Prop := True.

(** ** Lemmas *)

Lemma too_long_false s : sized s -> too_long s = false.
Proof. intros [_ H]. apply Z.ltb_ge. lia. Qed.

Lemma valid_clipboard_selection_spec s :
  valid_clipboard_selection s = true <-> 0 <= s <= 1.
Proof. unfold valid_clipboard_selection. rewrite orb_true_iff, !Z.eqb_eq. cbv [ScreenClipboardSelection.PRIMARY ScreenClipboardSelection.CLIPBOARD]. lia. Qed.

(** A size-prefixed block after [pre]: the size reads back and selects it. *)
Lemma read_sized pre s post :
  sized s ->
  read_u32 (subspan (pre ++ be_bytes 4 (size_u32 s) ++ s ++ post) (length pre) 4) = size_u32 s.
Proof.
  intros [_ H]. rewrite subspan_app_n by apply length_be_bytes.
  apply read_u32_be. unfold size_u32. width_lia.
Qed.

Lemma subspan_sized pre s post :
  subspan (pre ++ be_bytes 4 (size_u32 s) ++ s ++ post) (length pre + 4) (Z.to_nat (size_u32 s)) = s.
Proof.
  unfold size_u32. rewrite Nat2Z.id, app_assoc.
  replace (length pre + 4)%nat with (length (pre ++ be_bytes 4 (Z.of_nat (length s))))
    by (by rewrite length_app, length_be_bytes).
  apply subspan_app.
Qed.

Lemma encode_screen_total command :
  screen_command_schema command -> exists payload, encode_screen_command command = Ok payload.
Proof.
  destruct command as [t| |p|c]; simpl; intros H; destruct_and?; unfold check;
    rewrite ?too_long_false by done; rewrite ?(proj2 (valid_clipboard_selection_spec _)) by done;
    simpl; eauto.
Qed.

Lemma encode_screen_bytes command payload :
  screen_command_schema command -> encode_screen_command command = Ok payload ->
  Forall is_byte payload.
Proof.
  destruct command as [t| |p|c]; simpl; intros Hs He; destruct_and?; result_inv He; subst payload;
    repeat match goal with H : sized _ |- _ => destruct H end; solve_bytes.
Qed.

(** The layout of the two size-prefixed strings of a take command. *)
Lemma decode_take_written si sf :
  sized si -> sized sf ->
  decode_take ([WireCommand.TAKE] ++ be_bytes 4 (size_u32 si) ++ si
                 ++ be_bytes 4 (size_u32 sf) ++ sf) =
  Ok (Take {| initial_bytes := si; final_bytes := sf |}).
Proof.
  intros Hi Hf. set (tail := be_bytes 4 (size_u32 sf) ++ sf).
  pose proof (read_sized [WireCommand.TAKE] si tail Hi) as E1.
  pose proof (subspan_sized [WireCommand.TAKE] si tail) as E2.
  set (pre := [WireCommand.TAKE] ++ be_bytes 4 (size_u32 si) ++ si) in *.
  assert (Hpre : length pre = (5 + length si)%nat)
    by (unfold pre; rewrite !length_app, length_be_bytes; simpl; lia).
  pose proof (read_sized pre sf [] Hf) as E3. pose proof (subspan_sized pre sf []) as E4.
  rewrite app_nil_r in E3, E4. fold tail in E3, E4.
  replace (pre ++ tail) with ([WireCommand.TAKE] ++ be_bytes 4 (size_u32 si) ++ si ++ tail)
    in E3, E4 by (unfold pre; by rewrite <- !app_assoc).
  set (payload := [WireCommand.TAKE] ++ be_bytes 4 (size_u32 si) ++ si ++ tail) in *.
  assert (Hl : length payload = (9 + length si + length sf)%nat)
    by (unfold payload, tail; rewrite !length_app, !length_be_bytes; simpl; lia).
  unfold decode_take. cbv zeta. simpl length in E1, E2. simpl Nat.add in E2.
  rewrite E1, Hl. unfold size_u32 in *. rewrite Hpre in *.
  rewrite Nat2Z.id in *. rewrite E2, E3. rewrite Nat2Z.id in *. rewrite E4.
  unfold check.
  rewrite (proj2 (Nat.ltb_ge _ _)), (proj2 (Z.ltb_ge _ _)), (proj2 (Z.eqb_eq _ _)) by lia.
  done.
Qed.

Lemma decode_encode_screen command payload :
  screen_command_schema command -> encode_screen_command command = Ok payload ->
  decode_screen_command payload = Ok command.
Proof.
  destruct command as [t| |p|c]; intros Hs He; unfold encode_screen_command in He;
    simpl in Hs; destruct_and?; result_inv He; subst payload; [|done|..];
    rewrite ?append_u32_spec, <- ?app_assoc.
  - destruct t as [si sf]. by apply decode_take_written.
  - destruct p as [s]. cbn [present_bytes] in *.
    pose proof (read_sized [WireCommand.PRESENT] s [] ltac:(done)) as E1.
    pose proof (subspan_sized [WireCommand.PRESENT] s []) as E2. rewrite app_nil_r in E1, E2.
    set (payload := [WireCommand.PRESENT] ++ _) in *.
    change (decode_screen_command payload) with (decode_present payload).
    unfold decode_present. simpl length in E1, E2. simpl Nat.add in E2. rewrite E1, E2.
    assert (Hl : length payload = (5 + length s)%nat)
      by (unfold payload; rewrite !length_app, !length_be_bytes; simpl; lia).
    unfold check, size_u32. rewrite Hl.
    by rewrite (proj2 (Nat.ltb_ge _ _)), (proj2 (Z.eqb_eq _ _)) by lia.
  - destruct c as [sel s]. cbn [selection clipboard_text] in *.
    pose proof (read_sized [WireCommand.SET_CLIPBOARD; sel] s [] ltac:(done)) as E1.
    pose proof (subspan_sized [WireCommand.SET_CLIPBOARD; sel] s []) as E2.
    rewrite app_nil_r in E1, E2.
    set (payload := [WireCommand.SET_CLIPBOARD; sel] ++ _) in *.
    change (decode_screen_command payload) with (decode_set_clipboard payload).
    unfold decode_set_clipboard. simpl length in E1, E2. simpl Nat.add in E2.
    rewrite E1, E2.
    assert (Hl : length payload = (6 + length s)%nat)
      by (unfold payload; rewrite !length_app, !length_be_bytes; simpl; lia).
    unfold check, size_u32. rewrite Hl. change (byte_at payload 1) with sel.
    rewrite (proj2 (valid_clipboard_selection_spec sel)) by done.
    by rewrite (proj2 (Nat.ltb_ge _ _)), (proj2 (Z.eqb_eq _ _)) by lia.
Qed.

(** A block whose declared size is exactly what remains. *)
Lemma sized_suffix payload offset :
  Forall is_byte payload -> (offset + 4 <= length payload)%nat ->
  Z.of_nat (length payload - offset - 4) = read_u32 (subspan payload offset 4) ->
  let s := subspan payload (offset + 4) (Z.to_nat (read_u32 (subspan payload offset 4))) in
  sized s /\ drop offset payload = be_bytes 4 (size_u32 s) ++ s.
Proof.
  intros Hb Hl He s.
  assert (Hw : is_u32 (read_u32 (subspan payload offset 4)))
    by (apply read_u32_range; auto with puc; apply subspan_length; lia).
  assert (Hs : Z.of_nat (length s) = read_u32 (subspan payload offset 4)).
  { unfold s. rewrite subspan_length by lia. lia. }
  split.
  - split; [by apply subspan_bytes|]. rewrite Hs. width_lia.
  - unfold size_u32. rewrite Hs, be_bytes_read_u32 by (auto with puc; apply subspan_length; lia).
    rewrite (drop_subspan payload offset 4). f_equal.
    unfold s. rewrite subspan_all; [done|lia].
Qed.

Lemma decode_take_inv payload command :
  Forall is_byte payload -> byte_at payload 0 = WireCommand.TAKE ->
  decode_take payload = Ok command ->
  screen_command_schema command /\ encode_screen_command command = Ok payload.
Proof.
  intros Hb H0 H. unfold decode_take in H. result_inv H. subst command. bool_to_prop.
  set (size := read_u32 (subspan payload 1 4)) in *.
  assert (Hw : is_u32 size)
    by (apply read_u32_range; auto with puc; apply subspan_length; lia).
  destruct (sized_suffix payload (5 + Z.to_nat size)) as [Hf Ef]; [done|width_lia|lia|].
  set (sf := subspan payload (5 + Z.to_nat size + 4) _) in *.
  set (si := subspan payload 5 (Z.to_nat size)).
  assert (Hsi : Z.of_nat (length si) = size)
    by (unfold si; rewrite subspan_length by width_lia; width_lia).
  assert (Hi : sized si) by (split; [by apply subspan_bytes|width_lia]).
  cbn [screen_command_schema encode_screen_command initial_bytes final_bytes].
  split; [done|]. rewrite !too_long_false by done. unfold check. cbn [negb orb]. f_equal.
  rewrite !append_u32_spec, <- !app_assoc, <- Ef. unfold size_u32. rewrite Hsi.
  unfold size at 1. rewrite be_bytes_read_u32 by (auto with puc; apply subspan_length; lia).
  unfold si. rewrite <- drop_subspan, <- drop_subspan.
  destruct payload as [|f rest]; [simpl in *; lia|]. cbn in H0. by subst f.
Qed.

Lemma encode_decode_screen command payload :
  Forall is_byte payload -> decode_screen_command payload = Ok command ->
  screen_command_schema command /\ encode_screen_command command = Ok payload.
Proof.
  intros Hb H. unfold decode_screen_command in H. destruct payload as [|front rest] eqn:Ep; [done|].
  rewrite <- Ep in *. guard_in H; bool_to_prop.
  { subst front. apply decode_take_inv; [done|by rewrite Ep|done]. }
  guard_in H; bool_to_prop.
  { result_inv H. subst. destruct rest; [done|discriminate]. }
  guard_in H; bool_to_prop; [|guard_in H; bool_to_prop].
  - unfold decode_present in H. result_inv H. subst command. bool_to_prop.
    destruct (sized_suffix payload 1) as [Hs Es]; [done|lia|lia|].
    cbn [Nat.add] in Hs, Es. set (s := subspan payload 5 _) in *.
    split; [done|]. unfold encode_screen_command, check. cbn [present_bytes].
    rewrite too_long_false by done. cbn [negb]. rewrite append_u32_spec, <- app_assoc, <- Es.
    subst front. by subst payload.
  - unfold decode_set_clipboard in H. result_inv H. subst command. bool_to_prop.
    destruct (sized_suffix payload 2) as [Hs Es]; [done|lia|lia|].
    cbn [Nat.add] in Hs, Es. set (s := subspan payload 6 _) in *.
    match goal with H : valid_clipboard_selection _ = true |- _ =>
      pose proof H as Hv; apply valid_clipboard_selection_spec in Hv; rename H into Hsel end.
    split; [done|]. unfold encode_screen_command, check. cbn [selection clipboard_text].
    rewrite Hsel, too_long_false by done. cbn [negb orb].
    rewrite append_u32_spec, <- app_assoc, <- Es.
    subst front. destruct rest as [|b rest]; [subst payload; simpl in *; lia|]. by subst payload.
Qed.

#[export] Instance ScreenCommandCodec_laws : PayloadCodecLaws ScreenCommand screen_command_schema.
Proof.
  split; eauto using encode_screen_total, encode_screen_bytes, decode_encode_screen,
    encode_decode_screen.
Qed.

Lemma resize_nonzero event :
  width event <> 0 -> height event <> 0 ->
  (width event =? 0) || (height event =? 0) = false.
Proof. rewrite orb_false_iff, !Z.eqb_neq. done. Qed.

#[export] Instance ScreenResizeEventCodec_laws : PayloadCodecLaws ScreenResizeEvent resize_schema.
Proof.
  split.
  - intros e (_ & _ & _ & _ & Hw & Hh). cbn. unfold encode_resize, check.
    rewrite resize_nonzero by done. cbn [negb]. eauto.
  - intros e payload _ He. cbn in He. unfold encode_resize in He. result_inv He. subst payload.
    solve_bytes.
  - intros [w h pw ph] payload (Hw & Hh & Hpw & Hph & Hnw & Hnh) He.
    cbn in He |- *. unfold encode_resize in He. result_inv He. subst payload.
    unfold decode_resize, append_u32. cbn -[Z.shiftr wrap read_u32 Z.eqb in_width].
    cbn [width height pixel_width pixel_height] in *.
    rewrite !read_u32_appended by done. by rewrite G.
  - intros e payload Hb He. cbn in He |- *. unfold decode_resize in He. result_inv He.
    subst e. bool_to_prop. rename G into Hn. list_cases payload 16%nat.
    destruct payload; [|discriminate Hn].
    rewrite !Forall_cons in Hb. destruct_and?.
    cbn -[read_u32 append_u32 Z.eqb in_width] in *.
    unfold encode_resize, check. cbn [width height pixel_width pixel_height].
    rewrite !(proj2 (Z.eqb_neq _ _)) by done. cbn [negb orb]. split.
    + split_and!; cbn [width height pixel_width pixel_height];
        (done || (apply read_u32_range; solve_bytes)).
    + by rewrite !append_u32_read by solve_bytes.
Qed.

#[export] Instance CmdFrameNotificationCodec_laws :
  PayloadCodecLaws CmdFrameNotification notification_schema.
Proof.
  split.
  - intros n [_ Hv]. cbn. unfold encode_notification, check. rewrite Hv. eauto.
  - intros n payload [Hb _] He. cbn in He. unfold encode_notification in He. result_inv He.
    by subst payload.
  - intros [t] payload [_ Hv] He. cbn in He |- *. unfold encode_notification in He.
    result_inv He. subst payload. cbn [notification_text] in *.
    unfold decode_notification, check. destruct t; [done|]. by rewrite G.
  - intros n payload Hb He. cbn in He |- *. unfold decode_notification in He.
    destruct payload as [|b rest]; [apply Ok_inj in He; by subst n|].
    result_inv He. subst n. unfold encode_notification, check. cbn [notification_text].
    by rewrite G.
Qed.

#[export] Instance NullMessageCodec_laws : PayloadCodecLaws NullMessage null_schema.
Proof.
  split.
  - intros n _. cbn. eauto.
  - intros n payload _ [= <-]. constructor.
  - intros [] payload _ [= <-]. done.
  - intros [] payload _ He. destruct payload; [done|discriminate].
Qed.
