(* ===== verification/EventMessages.v ===== *)
(** * Events to messages and back (puc-cli/tui/terminal/event_messages.cpp)

    [to_message] and [from_message] convert between the decoder's [Event] and
    the portable [TerminalInputEvent]; composed with the byte codec they carry
    an event over the //terminal/input_events channel. *)
From S2P Require Import Prelude Bytes Utf8 Events MsgCodec.
From S2P Require TerminalMsgs.
Module M := TerminalMsgs.
Open Scope Z_scope.

(** [value <= std::numeric_limits<std::uint32_t>::max()] *)
Definition fits_u32 (value : Z) : bool := value <=? 2 ^ 32 - 1.
Definition fits_i32 (value : Z) : bool := (- 2 ^ 31 <=? value) && (value <=? 2 ^ 31 - 1).

(** [valid_ordinal] followed by the [static_cast] it guards. *)
Definition enum_of {A} `{CEnum A} (value : Z) : result Status A :=
  check (valid_ordinal value) MALFORMED_PAYLOAD
    (match of_ordinal value with
     | Some x => Ok x
     | None => Err MALFORMED_PAYLOAD
     end).

Definition to_message (event : Event) : result Status M.TerminalInputEvent :=
  match event with
  | EKey value =>
      let '(named, key) :=
        match key value with
        | NamedCode k => (true, ordinal k)
        | CharCode c => (false, c)
        end in
      Ok (M.MKey {| M.named := named; M.key := key;
                    M.key_modifiers := key_modifiers value;
                    M.key_action := ordinal (key_action value);
                    M.shifted_key := shifted_key value;
                    M.base_layout_key := base_layout_key value;
                    M.text := key_text value |})
  | EText value => Ok (M.MText {| M.utf8 := utf8 value |})
  | EMouse value =>
      check (fits_u32 (mouse_x value) && fits_u32 (mouse_y value)) PAYLOAD_ENCODING_FAILED
        (Ok (M.MMouse {| M.mouse_x := wrap 32 (mouse_x value);
                         M.mouse_y := wrap 32 (mouse_y value);
                         M.button := ordinal (mouse_button value);
                         M.mouse_action := ordinal (mouse_action value);
                         M.mouse_modifiers := mouse_modifiers value |}))
  | EScroll value =>
      check (fits_u32 (scroll_x value) && fits_u32 (scroll_y value)
             && fits_i32 (delta_x value) && fits_i32 (delta_y value))
        PAYLOAD_ENCODING_FAILED
        (Ok (M.MScroll {| M.scroll_x := wrap 32 (scroll_x value);
                          M.scroll_y := wrap 32 (scroll_y value);
                          M.delta_x := delta_x value;
                          M.delta_y := delta_y value;
                          M.scroll_modifiers := scroll_modifiers value |}))
  | EPaste value =>
      Ok (M.MPaste {| M.phase := ordinal (paste_phase value);
                      M.paste_data := paste_data value |})
  | EFocus value => Ok (M.MFocus {| M.focused := focused value |})
  | EClipboard value =>
      Ok (M.MClipboard {| M.selection := ordinal (clipboard_selection value);
                          M.clipboard_data := clipboard_data value |})
  | ECommand value => Ok (M.MCommand {| M.command := ordinal (command value) |})
  | EResponse value =>
      Ok (M.MResponse {| M.kind := ordinal (response_kind value);
                         M.value := response_value value;
                         M.response_bytes := response_bytes value |})
  | EUnknown value =>
      Ok (M.MUnknown {| M.reason := ordinal (unknown_reason value);
                        M.unknown_bytes := unknown_bytes value |})
  end.

Definition from_message (message : M.TerminalInputEvent) : result Status Event :=
  match message with
  | M.MKey value =>
      check (negb ((ordinal KeyActions.RELEASE <? M.key_action value)
                   || (M.named value && negb (valid_ordinal (A := NamedKey) (M.key value)))))
        MALFORMED_PAYLOAD
        (do action <- enum_of (M.key_action value);
         do code <- (if M.named value
                     then (do k <- enum_of (M.key value); Ok (NamedCode k))
                     else Ok (CharCode (M.key value)));
         Ok (EKey {| key := code; key_modifiers := M.key_modifiers value;
                     key_action := action; shifted_key := M.shifted_key value;
                     base_layout_key := M.base_layout_key value;
                     key_text := M.text value |}))
  | M.MText value => Ok (EText {| utf8 := M.utf8 value |})
  | M.MMouse value =>
      do button <- enum_of (M.button value);
      do action <- enum_of (M.mouse_action value);
      Ok (EMouse {| mouse_x := M.mouse_x value; mouse_y := M.mouse_y value;
                    mouse_button := button; mouse_action := action;
                    mouse_modifiers := M.mouse_modifiers value |})
  | M.MScroll value =>
      Ok (EScroll {| scroll_x := M.scroll_x value; scroll_y := M.scroll_y value;
                     delta_x := M.delta_x value; delta_y := M.delta_y value;
                     scroll_modifiers := M.scroll_modifiers value |})
  | M.MPaste value =>
      do phase <- enum_of (M.phase value);
      Ok (EPaste {| paste_phase := phase; paste_data := M.paste_data value |})
  | M.MFocus value => Ok (EFocus {| focused := M.focused value |})
  | M.MClipboard value =>
      do selection <- enum_of (M.selection value);
      Ok (EClipboard {| clipboard_selection := selection;
                        clipboard_data := M.clipboard_data value |})
  | M.MCommand value =>
      do command <- enum_of (M.command value); Ok (ECommand {| command := command |})
  | M.MResponse value =>
      do kind <- enum_of (M.kind value);
      Ok (EResponse {| response_kind := kind; response_value := M.value value;
                       response_bytes := M.response_bytes value |})
  | M.MUnknown value =>
      do reason <- enum_of (M.reason value);
      Ok (EUnknown {| unknown_reason := reason; unknown_bytes := M.unknown_bytes value |})
  end.

(** An event published on the channel and read back by the subscriber. *)
Definition publish (event : Event) : result Status bytes :=
  do message <- to_message event; encode_payload message.

Definition receive (payload : bytes) : result Status Event :=
  do message <- decode_payload payload; from_message message.

(** ** What the decoder produces *)

(** Values of the C++ field types of an event. *)
Definition typed_event (event : Event) : Prop :=
  match event with
  | EKey v => match key v with NamedCode _ => True | CharCode c => is_u32 c end /\
      is_u16 (key_modifiers v) /\ M.optional_u32 (shifted_key v) /\
      M.optional_u32 (base_layout_key v) /\ Forall is_byte (key_text v)
  | EText v => Forall is_byte (utf8 v)
  | EMouse v => is_u64 (mouse_x v) /\ is_u64 (mouse_y v) /\ is_u16 (mouse_modifiers v)
  | EScroll v => is_u64 (scroll_x v) /\ is_u64 (scroll_y v) /\
      - 2 ^ 31 <= delta_x v < 2 ^ 31 /\ - 2 ^ 31 <= delta_y v < 2 ^ 31 /\
      is_u16 (scroll_modifiers v)
  | EPaste v => Forall is_byte (paste_data v)
  | EFocus _ | ECommand _ => True
  | EClipboard v => Forall is_byte (clipboard_data v)
  | EResponse v => is_u32 (response_value v) /\ Forall is_byte (response_bytes v)
  | EUnknown v => Forall is_byte (unknown_bytes v)
  end.

Example publish_receive_scroll :
  let event := EScroll {| scroll_x := 3; scroll_y := 4; delta_x := 0; delta_y := -1;
                          scroll_modifiers := 4 |} in
  (do payload <- publish event; receive payload) = Ok event.
Proof. vm_compute. reflexivity. Qed.

(** ** Lemmas *)

Lemma enum_of_ordinal {A} `{CEnum A} (x : A) : enum_of (ordinal x) = Ok x.
Proof. unfold enum_of, check. by rewrite valid_ordinal_ordinal, of_ordinal_ordinal. Qed.

Lemma enum_of_ok {A} `{CEnum A} value (x : A) : enum_of value = Ok x -> ordinal x = value.
Proof.
  unfold enum_of. intros Hx. result_inv Hx.
  destruct (of_ordinal value) as [y|] eqn:E; [|done]. apply Ok_inj in Hx as ->.
  by apply ordinal_of_ordinal.
Qed.

(** Ordinals stay within the wire schema's limits. *)
Lemma ordinal_bound {A} `{CEnum A} (x : A) (n : Z) :
  Z.of_nat (length (enumerators (A := A))) = n + 1 -> 0 <= ordinal x <= n.
Proof.
  intros Hn. pose proof (valid_ordinal_ordinal x) as Hv. unfold valid_ordinal in Hv.
  bool_to_prop. lia.
Qed.

Lemma fits_u32_range v : is_u64 v -> fits_u32 v = true -> is_u32 v.
Proof. unfold fits_u32. intros Hv Hf. bool_to_prop. width_lia. Qed.

Lemma wrap_fits v : is_u64 v -> fits_u32 v = true -> wrap 32 v = v.
Proof. intros Hv Hf. by apply wrap_small, fits_u32_range. Qed.

Lemma u32_fits v : is_u32 v -> fits_u32 v = true /\ wrap 32 v = v /\ is_u64 v.
Proof.
  intros Hv. split; [apply Z.leb_le; width_lia|].
  split; [by apply wrap_small|width_lia].
Qed.

Lemma to_from_message event message :
  typed_event event -> to_message event = Ok message -> from_message message = Ok event.
Proof.
  intros Ht Hm. destruct event as [v|v|v|v|v|v|v|v|v|v]; destruct v; simpl in Ht, Hm;
    destruct_and?.
  - assert (Ha : (ordinal KeyActions.RELEASE <? ordinal key_action) = false).
    { apply Z.ltb_ge. change (ordinal KeyActions.RELEASE) with 2.
      apply ordinal_bound. done. }
    destruct key as [k|c]; apply Ok_inj in Hm; subst message; simpl; unfold check; rewrite Ha; simpl.
    + rewrite valid_ordinal_ordinal, !enum_of_ordinal. done.
    + by rewrite enum_of_ordinal.
  - apply Ok_inj in Hm. by subst.
  - result_inv Hm. subst message. bool_to_prop. simpl. rewrite !enum_of_ordinal. simpl.
    by rewrite !wrap_fits by done.
  - result_inv Hm. subst message. bool_to_prop. simpl.
    by rewrite !wrap_fits by done.
  - apply Ok_inj in Hm. subst message. simpl. by rewrite enum_of_ordinal.
  - apply Ok_inj in Hm. by subst.
  - apply Ok_inj in Hm. subst message. simpl. by rewrite enum_of_ordinal.
  - apply Ok_inj in Hm. subst message. simpl. by rewrite enum_of_ordinal.
  - apply Ok_inj in Hm. subst message. simpl. by rewrite enum_of_ordinal.
  - apply Ok_inj in Hm. subst message. simpl. by rewrite enum_of_ordinal.
Qed.

Lemma from_to_message message event :
  M.event_schema message -> from_message message = Ok event ->
  typed_event event /\ to_message event = Ok message.
Proof.
  intros Hs Hm. destruct message as [v|v|v|v|v|v|v|v|v|v]; destruct v; simpl in Hs, Hm;
    destruct_and?; repeat match goal with H : M.wire_string _ |- _ => destruct H end;
    result_inv Hm; subst event;
    repeat match goal with H : enum_of _ = Ok _ |- _ => apply enum_of_ok in H end; subst;
    try done.
  - bool_to_prop. destruct named.
    + destruct (enum_of key) as [k|] eqn:Ek; [|done]. apply Ok_inj in E0. subst value0.
      apply enum_of_ok in Ek. simpl. by rewrite Ek.
    + apply Ok_inj in E0. by subst value0.
  - destruct (u32_fits mouse_x ltac:(done)) as (Fx & Wx & Rx).
    destruct (u32_fits mouse_y ltac:(done)) as (Fy & Wy & Ry).
    simpl. unfold check. by rewrite Fx, Fy, Wx, Wy.
  - destruct (u32_fits scroll_x ltac:(done)) as (Fx & Wx & Rx).
    destruct (u32_fits scroll_y ltac:(done)) as (Fy & Wy & Ry).
    simpl. unfold check, fits_i32. rewrite Fx, Fy, Wx, Wy. cbn [andb].
    by rewrite !(proj2 (Z.leb_le _ _)) by lia.
Qed.

(** A converted event the codec accepts is a value of the wire schema. *)
Lemma encoded_schema event message payload :
  typed_event event -> to_message event = Ok message ->
  encode_payload message = Ok payload -> M.event_schema message.
Proof.
  assert (Hstr : forall output s p, Forall is_byte s -> M.finish_string output s = Ok p ->
    M.wire_string s).
  { intros output s p Hs Hf. unfold M.finish_string in Hf.
    destruct (append_string output s) eqn:E; [|done].
    apply append_string_some in E as [H _]. by split. }
  intros Ht Hm He. cbn in He.
  destruct event as [v|v|v|v|v|v|v|v|v|v]; destruct v; simpl in Ht, Hm; destruct_and?.
  - destruct key as [k|c]; apply Ok_inj in Hm; subst message; unfold M.encode_event in He;
      result_inv He; cbn in *; split_and!; eauto.
    1: { pose proof (ordinal_bound k 110 eq_refl). width_lia. }
    all: pose proof (ordinal_bound key_action 2 eq_refl); width_lia.
  - apply Ok_inj in Hm. subst message. unfold M.encode_event in He. result_inv He.
    split; [by eapply Hstr|done].
  - result_inv Hm. subst message. bool_to_prop. unfold M.encode_event in He.
    result_inv He. bool_to_prop. cbn [M.mouse_x M.mouse_y M.button M.mouse_action
      M.mouse_modifiers M.event_schema] in *.
    rewrite !wrap_fits by done. split_and!; try by apply fits_u32_range.
    all: try apply ordinal_nonneg; try done.
  - result_inv Hm. subst message. bool_to_prop. unfold M.encode_event in He.
    result_inv He. cbn in *. rewrite !wrap_fits by done.
    split_and!; try done; by apply fits_u32_range.
  - apply Ok_inj in Hm. subst message. unfold M.encode_event in He. result_inv He.
    bool_to_prop. cbn in *. split_and!; [apply ordinal_nonneg|done|by eapply Hstr].
  - apply Ok_inj in Hm. by subst message.
  - apply Ok_inj in Hm. subst message. unfold M.encode_event in He. result_inv He.
    bool_to_prop. cbn in *. split_and!; [apply ordinal_nonneg|done|by eapply Hstr].
  - apply Ok_inj in Hm. subst message. by apply ordinal_bound.
  - apply Ok_inj in Hm. subst message. unfold M.encode_event in He. result_inv He.
    bool_to_prop. cbn in *. split_and!; [apply ordinal_nonneg|done|done|by eapply Hstr].
  - apply Ok_inj in Hm. subst message. unfold M.encode_event in He. result_inv He.
    bool_to_prop. cbn in *. split_and!; [apply ordinal_nonneg|done|by eapply Hstr].
Qed.

(** ** Properties *)

(** An event published on //terminal/input_events is received unchanged:
    converting to the portable message, encoding, decoding and converting back
    is the identity on every event whose publication succeeds. *)
Theorem publish_receive event payload :
  typed_event event -> publish event = Ok payload -> receive payload = Ok event.
Proof.
  intros Ht H. unfold publish in H. result_inv H. pose proof (encoded_schema _ _ _ Ht E H) as Hs.
  unfold receive. rewrite (decode_encode value payload Hs H). by eapply to_from_message.
Qed.

(** Every accepted payload is the publication of the event it yields:
    the subscriber rejects every byte string a publisher cannot write. *)
Theorem receive_publish payload event :
  Forall is_byte payload -> receive payload = Ok event ->
  typed_event event /\ publish event = Ok payload.
Proof.
  intros Hb H. unfold receive in H. result_inv H.
  destruct (encode_decode value payload Hb E) as [Hs He].
  destruct (from_to_message value event Hs H) as [Ht Hm].
  split; [done|]. unfold publish. by rewrite Hm.
Qed.

Definition sample_event : Event :=
  EMouse {| mouse_button := MouseButtons.RIGHT; mouse_action := MouseActions.PRESS;
            mouse_x := 3; mouse_y := 4; mouse_modifiers := 5 |}.

Definition sample_payload : bytes :=
  Eval vm_compute in match publish sample_event with Ok payload => payload | Err _ => [] end.

Lemma publish_receive_witness : receive sample_payload = Ok sample_event.
Proof.
  apply (publish_receive sample_event); [|vm_compute; reflexivity].
  cbn. vm_compute. intuition congruence.
Defined.

Lemma receive_publish_witness : publish sample_event = Ok sample_payload.
Proof.
  apply (receive_publish sample_payload sample_event); [by repeat constructor|].
  vm_compute. reflexivity.
Defined.
