(* ===== verification/IpcMessage.v ===== *)
(** * IPC wire messages (utils/ipc/msg.hpp, utils/ipc/msg.cpp)

    The version-zero envelope: [serialize_message] and [deserialize_message]
    with every optional section, limit and error status. *)
From S2P Require Import Prelude Bytes Hash256.
Open Scope Z_scope.

Inductive Status :=
| OK
| INVALID_ARGUMENT
| INVALID_CHANNEL_NAME
| INVALID_TRANSPORT_PATH
| DUPLICATE_CHANNEL
| CHANNEL_NOT_FOUND
| CHANNEL_UNAVAILABLE
| NOT_CONNECTED
| MESSAGE_TOO_LARGE
| PARTIAL_TRANSFER
| IO_ERROR
| END_OF_STREAM
| MALFORMED_MESSAGE
| TRUNCATED_MESSAGE
| UNSUPPORTED_VERSION
| CHECKSUM_MISMATCH
| IDENTIFIER_EXHAUSTED.

#[global] Instance Status_eq_dec : EqDecision Status.
Proof. solve_decision. Defined.

Definition kWireVersion : Z := 0.
Definition kMaximumSessionIdBytes : nat := 16.
Definition kChecksumBytes : nat := 32.
Definition kMagic : bytes := [80; 85; 67; 73].
Definition kBaseHeaderBytes : nat := 24.
Definition kSessionFlag : Z := Z.shiftl 1 0.
Definition kTimestampFlag : Z := Z.shiftl 1 1.
Definition kMultipartFlag : Z := Z.shiftl 1 2.
Definition kChecksumFlag : Z := Z.shiftl 1 3.
Definition kExtensionFlag : Z := Z.shiftl 1 4.
Definition kKnownFlags : Z :=
  Z.lor (Z.lor (Z.lor (Z.lor kSessionFlag kTimestampFlag) kMultipartFlag) kChecksumFlag)
    kExtensionFlag.

(** ** Data *)

Record WireHeader := {
  version : Z;
  header_bytes : Z;
  has_session_id : bool;
  has_timestamp : bool;
  is_multipart : bool;
  has_checksum : bool;
  has_extension : bool;
}.

(** [data] is the 16-byte array of which [session_length] bytes count. *)
Record SessionId := { session_length : Z; session_data : bytes }.

(** [SessionId::operator==]: unused storage is ignored. *)
Definition session_eqb (a b : SessionId) : bool :=
  if negb (session_length a =? session_length b) then false
  else
    let stored_bytes :=
      if session_length a <? Z.of_nat kMaximumSessionIdBytes
      then Z.to_nat (session_length a) else kMaximumSessionIdBytes in
    forallb (fun index => byte_at (session_data a) index =? byte_at (session_data b) index)
      (seq 0 stored_bytes).

Record MultipartHeader := { total_parts : Z; part_index : Z }.

Record MessageHeader := { channel_id : Z; message_id : Z; payload_length : Z }.

Record Message := {
  header : MessageHeader;
  session_id : option SessionId;
  timestamp : option Z;
  multipart : option MultipartHeader;
  extension : bytes;
  payload : bytes;
  include_checksum : bool;
}.

Record DecodedMessage := {
  d_wire_header : WireHeader;
  d_header : MessageHeader;
  d_session_id : option SessionId;
  d_timestamp : option Z;
  d_multipart : option MultipartHeader;
  d_extension : bytes;
  d_payload : bytes;
  d_checksum : option bytes;
}.

#[export] Instance WireHeader_eq_dec : EqDecision WireHeader.
Proof. solve_decision. Defined.
#[export] Instance SessionId_eq_dec : EqDecision SessionId.
Proof. solve_decision. Defined.
#[export] Instance MultipartHeader_eq_dec : EqDecision MultipartHeader.
Proof. solve_decision. Defined.
#[export] Instance MessageHeader_eq_dec : EqDecision MessageHeader.
Proof. solve_decision. Defined.
#[global] Instance DecodedMessage_eq_dec : EqDecision DecodedMessage.
Proof. solve_decision. Defined.

(** [checksum_matches]: accumulate the differing bits of every byte. *)
Definition checksum_matches (expected actual : bytes) : bool :=
  fold_left
    (fun difference index =>
       Z.lor difference (Z.lxor (byte_at expected index) (byte_at actual index)))
    (seq 0 (length expected)) 0 =? 0.

Definition session_ok (s : option SessionId) : bool :=
  match s with
  | Some s => negb ((session_length s =? 0)
                    || (Z.of_nat kMaximumSessionIdBytes <? session_length s))
  | None => true
  end.

Definition multipart_ok (m : option MultipartHeader) : bool :=
  match m with
  | Some m => negb ((total_parts m =? 0) || (total_parts m <=? part_index m))
  | None => true
  end.

(** Preamble plus optional sections, before the extension. *)
Definition fixed_header_bytes (message : Message) : Z :=
  Z.of_nat kBaseHeaderBytes
  + match session_id message with Some s => 1 + session_length s | None => 0 end
  + match timestamp message with Some _ => 8 | None => 0 end
  + match multipart message with Some _ => 2 * 4 | None => 0 end.

Definition flags_of (message : Message) : Z :=
  let flags := 0 in
  let flags := Z.lor flags (if session_id message is Some _ then kSessionFlag else 0) in
  let flags := Z.lor flags (if timestamp message is Some _ then kTimestampFlag else 0) in
  let flags := Z.lor flags (if multipart message is Some _ then kMultipartFlag else 0) in
  let flags := Z.lor flags (if include_checksum message then kChecksumFlag else 0) in
  Z.lor flags (match extension message with [] => 0 | _ => kExtensionFlag end).

Definition append_session (output : bytes) (s : option SessionId) : bytes :=
  match s with
  | Some s => (output ++ [session_length s])
                ++ take (Z.to_nat (session_length s)) (session_data s)
  | None => output
  end.

Definition append_timestamp (output : bytes) (t : option Z) : bytes :=
  match t with
  | Some unix_time_ns => append_integer 8 output unix_time_ns
  | None => output
  end.

Definition append_multipart (output : bytes) (m : option MultipartHeader) : bytes :=
  match m with
  | Some m => append_integer 4 (append_integer 4 output (total_parts m)) (part_index m)
  | None => output
  end.

(** ** Parsing helpers: one optional section each, at the cursor *)

Definition parse_session (data : bytes) (header_bytes cursor : nat) (present : bool)
  : result Status (option SessionId * nat) :=
  if present then
    check (negb (header_bytes <=? cursor)%nat) MALFORMED_MESSAGE
      (let len := byte_at data cursor in
       let cursor := S cursor in
       check (negb ((len =? 0) || (Z.of_nat kMaximumSessionIdBytes <? len)
                    || (Z.of_nat (header_bytes - cursor) <? len))) MALFORMED_MESSAGE
         (let n := Z.to_nat len in
          Ok (Some {| session_length := len;
                      session_data := subspan data cursor n
                        ++ replicate (kMaximumSessionIdBytes - n) 0 |},
              (cursor + n)%nat)))
  else Ok (None, cursor).

Definition parse_timestamp (data : bytes) (header_bytes cursor : nat) (present : bool)
  : result Status (option Z * nat) :=
  if present then
    check (negb (header_bytes - cursor <? 8)%nat) MALFORMED_MESSAGE
      (Ok (Some (read_integer 8 data cursor), (cursor + 8)%nat))
  else Ok (None, cursor).

Definition parse_multipart (data : bytes) (header_bytes cursor : nat) (present : bool)
  : result Status (option MultipartHeader * nat) :=
  if present then
    check (negb (header_bytes - cursor <? 8)%nat) MALFORMED_MESSAGE
      (let m := {| total_parts := read_integer 4 data cursor;
                   part_index := read_integer 4 data (cursor + 4) |} in
       check (negb ((total_parts m =? 0) || (total_parts m <=? part_index m)))
         MALFORMED_MESSAGE (Ok (Some m, (cursor + 8)%nat)))
  else Ok (None, cursor).

Definition parse_extension (data : bytes) (header_bytes cursor : nat) (present : bool)
  : result Status bytes :=
  if present then
    check (negb (cursor =? header_bytes)%nat) MALFORMED_MESSAGE
      (Ok (subspan data cursor (header_bytes - cursor)))
  else check (cursor =? header_bytes)%nat MALFORMED_MESSAGE (Ok []).

Definition flag_set (flags flag : Z) : bool := negb (Z.land flags flag =? 0).

Section Wire.
Variable mbedtls_sha256 : bytes -> option bytes.

Definition serialize_message (message : Message) (maximum_payload_bytes : Z)
  : result Status bytes :=
  check (negb ((channel_id (header message) =? 0) || (maximum_payload_bytes =? 0)))
    INVALID_ARGUMENT
  (check (negb (maximum_payload_bytes <? Z.of_nat (length (payload message))))
    MESSAGE_TOO_LARGE
  (check (session_ok (session_id message)) INVALID_ARGUMENT
  (check (multipart_ok (multipart message)) INVALID_ARGUMENT
  (check (negb (2 ^ 16 - 1 - fixed_header_bytes message
                <? Z.of_nat (length (extension message)))) MESSAGE_TOO_LARGE
    (let header_bytes := fixed_header_bytes message + Z.of_nat (length (extension message)) in
     let output := kMagic in
     let output := output ++ [kWireVersion] in
     let output := output ++ [flags_of message] in
     let output := append_integer 2 output (wrap 16 header_bytes) in
     let output := append_integer 4 output (channel_id (header message)) in
     let output := append_integer 4 output (message_id (header message)) in
     let output := append_integer 8 output (Z.of_nat (length (payload message))) in
     let output := append_session output (session_id message) in
     let output := append_timestamp output (timestamp message) in
     let output := append_multipart output (multipart message) in
     let output := output ++ extension message in
     let output := output ++ payload message in
     Ok (if include_checksum message
         then output ++ sha256 mbedtls_sha256 output else output)))))).

(** The checksum section: [total_bytes] ends the message. *)
Definition parse_checksum (data : bytes) (total_bytes : nat) (present : bool)
  : result Status (option bytes) :=
  if present then
    let expected := sha256 mbedtls_sha256 (take (total_bytes - kChecksumBytes) data) in
    let encoded := subspan data (total_bytes - kChecksumBytes) kChecksumBytes in
    check (checksum_matches expected encoded) CHECKSUM_MISMATCH (Ok (Some encoded))
  else Ok None.

(** The output message and [consumed_bytes]; on [Err] both are reset. *)
Definition deserialize_message (data : bytes) (maximum_payload_bytes : Z)
  : result Status (DecodedMessage * nat) :=
  check (negb (maximum_payload_bytes =? 0)) INVALID_ARGUMENT
  (check (negb (length data <? kBaseHeaderBytes)%nat) TRUNCATED_MESSAGE
  (check (bool_decide (kMagic = take 4 data)) MALFORMED_MESSAGE
  (let version := byte_at data 4 in
   check (version =? kWireVersion) UNSUPPORTED_VERSION
  (let flags := byte_at data 5 in
   check (Z.land flags (wrap 8 (Z.lnot kKnownFlags)) =? 0) MALFORMED_MESSAGE
  (let header_bytes := Z.to_nat (read_integer 2 data 6) in
   check (negb (header_bytes <? kBaseHeaderBytes)%nat) MALFORMED_MESSAGE
  (check (negb (length data <? header_bytes)%nat) TRUNCATED_MESSAGE
  (let has_session_id := flag_set flags kSessionFlag in
   let has_timestamp := flag_set flags kTimestampFlag in
   let is_multipart := flag_set flags kMultipartFlag in
   let has_checksum := flag_set flags kChecksumFlag in
   let has_extension := flag_set flags kExtensionFlag in
   let channel_id := read_integer 4 data 8 in
   let message_id := read_integer 4 data 12 in
   let payload_length := read_integer 8 data 16 in
   check (negb (channel_id =? 0)) MALFORMED_MESSAGE
  (check (negb (maximum_payload_bytes <? payload_length)) MESSAGE_TOO_LARGE
  (do (session, cursor) <- parse_session data header_bytes kBaseHeaderBytes has_session_id;
   do (time, cursor) <- parse_timestamp data header_bytes cursor has_timestamp;
   do (parts, cursor) <- parse_multipart data header_bytes cursor is_multipart;
   do ext <- parse_extension data header_bytes cursor has_extension;
   let checksum_bytes := if has_checksum then kChecksumBytes else 0%nat in
   check (negb (size_max - Z.of_nat header_bytes - Z.of_nat checksum_bytes <? payload_length))
     MESSAGE_TOO_LARGE
  (let total_bytes := Z.of_nat header_bytes + payload_length + Z.of_nat checksum_bytes in
   check (negb (Z.of_nat (length data) <? total_bytes)) TRUNCATED_MESSAGE
  (do checksum <- parse_checksum data (Z.to_nat total_bytes) has_checksum;
   Ok ({| d_wire_header :=
            {| version := version; header_bytes := Z.of_nat header_bytes;
               has_session_id := has_session_id; has_timestamp := has_timestamp;
               is_multipart := is_multipart; has_checksum := has_checksum;
               has_extension := has_extension |};
          d_header :=
            {| channel_id := channel_id; message_id := message_id;
               payload_length := payload_length |};
          d_session_id := session; d_timestamp := time; d_multipart := parts;
          d_extension := ext;
          d_payload := subspan data header_bytes (Z.to_nat payload_length);
          d_checksum := checksum |},
       Z.to_nat total_bytes)))))))))))).
End Wire.

Definition typed_session (s : option SessionId) : Prop :=
  match s with
  | Some s => is_byte (session_length s) /\ Forall is_byte (session_data s) /\
      length (session_data s) = kMaximumSessionIdBytes
  | None => True
  end.

(** A message whose fields are values of their C++ types. *)
Definition typed_message (m : Message) : Prop :=
  is_u32 (channel_id (header m)) /\ is_u32 (message_id (header m)) /\
  typed_session (session_id m) /\
  match timestamp m with Some t => is_u64 t | None => True end /\
  match multipart m with
  | Some p => is_u32 (total_parts p) /\ is_u32 (part_index p)
  | None => True
  end /\
  Forall is_byte (extension m) /\ Forall is_byte (payload m).

(** ** Layout of the sections *)

Definition session_bytes (s : option SessionId) : bytes := append_session [] s.
Definition timestamp_bytes (t : option Z) : bytes := append_timestamp [] t.
Definition multipart_bytes (m : option MultipartHeader) : bytes := append_multipart [] m.

Lemma append_session_layout output s : append_session output s = output ++ session_bytes s.
Proof. destruct s; simpl; by rewrite <- ?app_assoc, ?app_nil_r. Qed.

Lemma append_timestamp_layout output t : append_timestamp output t = output ++ timestamp_bytes t.
Proof. destruct t; [done|]. simpl. by rewrite app_nil_r. Qed.

Lemma append_multipart_layout output m : append_multipart output m = output ++ multipart_bytes m.
Proof.
  destruct m; [|by rewrite app_nil_r].
  unfold multipart_bytes, append_multipart, append_integer. by rewrite <- app_assoc.
Qed.

(** The 24 bytes every message starts with. *)
Definition preamble (flags hb channel id size : Z) : bytes :=
  kMagic ++ [kWireVersion] ++ [flags] ++ be_bytes 2 hb ++ be_bytes 4 channel ++ be_bytes 4 id
    ++ be_bytes 8 size.

Definition header_size (m : Message) : Z :=
  fixed_header_bytes m + Z.of_nat (length (extension m)).

(** The hashed part of a message. *)
Definition body (m : Message) : bytes :=
  preamble (flags_of m) (header_size m) (channel_id (header m)) (message_id (header m))
    (Z.of_nat (length (payload m)))
  ++ session_bytes (session_id m) ++ timestamp_bytes (timestamp m)
  ++ multipart_bytes (multipart m) ++ extension m ++ payload m.

(** What [serialize_message] requires of its input. *)
Definition admissible (m : Message) (maximum : Z) : Prop :=
  channel_id (header m) <> 0 /\ maximum <> 0 /\
  Z.of_nat (length (payload m)) <= maximum /\
  session_ok (session_id m) = true /\ multipart_ok (multipart m) = true /\
  header_size m <= 65535.

Lemma header_size_bounds m maximum :
  typed_message m -> admissible m maximum -> 24 <= header_size m <= 65535.
Proof.
  intros (_ & _ & Hs & _) (_ & _ & _ & _ & _ & H). split; [|done].
  unfold header_size, fixed_header_bytes, kBaseHeaderBytes.
  destruct (session_id m) as [s|], (timestamp m), (multipart m); try lia;
    destruct Hs as [Hs _]; width_lia.
Qed.

Section Layout.
Context (mbedtls_sha256 : bytes -> option bytes).

(** The bytes of an admissible message. *)
Definition wire (m : Message) : bytes :=
  body m ++ (if include_checksum m then sha256 mbedtls_sha256 (body m) else []).

Lemma serialize_layout m maximum bs :
  typed_message m ->
  serialize_message mbedtls_sha256 m maximum = Ok bs <-> admissible m maximum /\ bs = wire m.
Proof.
  intros Ht.
  assert (Hout : forall x, header_size m <= 65535 -> admissible m maximum ->
    x = (if include_checksum m then body m ++ sha256 mbedtls_sha256 (body m) else body m) ->
    x = wire m).
  { intros x _ _ ->. unfold wire. destruct (include_checksum m); [done|]. by rewrite app_nil_r. }
  assert (Hbody : admissible m maximum ->
    append_multipart (append_timestamp (append_session
      (append_integer 8 (append_integer 4 (append_integer 4 (append_integer 2
        ((kMagic ++ [kWireVersion]) ++ [flags_of m]) (wrap 16 (header_size m)))
         (channel_id (header m))) (message_id (header m))) (Z.of_nat (length (payload m))))
      (session_id m)) (timestamp m)) (multipart m) ++ extension m ++ payload m = body m).
  { intros Ha. pose proof (header_size_bounds m maximum Ht Ha).
    rewrite append_multipart_layout, append_timestamp_layout, append_session_layout.
    unfold append_integer, body, preamble. rewrite wrap_small by width_lia.
    by rewrite <- !app_assoc. }
  unfold serialize_message. split.
  - intros H. result_inv H. bool_to_prop.
    assert (Ha : admissible m maximum) by (unfold admissible, header_size; split_and!; done || lia).
    split; [done|]. apply Hout; [by apply Ha|done|]. rewrite <- H.
    fold (header_size m). rewrite <- (Hbody Ha), <- !app_assoc. done.
  - intros [Ha ->]. pose proof Ha as (H1 & H2 & H3 & H4 & H5 & H6).
    unfold header_size in H6. unfold check. rewrite H4, H5.
    rewrite (proj2 (Z.eqb_neq _ _) H1), (proj2 (Z.eqb_neq _ _) H2).
    rewrite (proj2 (Z.ltb_ge _ _)) by lia. rewrite (proj2 (Z.ltb_ge _ _)) by lia.
    cbn [negb orb]. f_equal. apply Hout; [by apply Ha|done|].
    fold (header_size m). rewrite <- (Hbody Ha), <- !app_assoc. done.
Qed.
End Layout.

(** ** One optional section, forwards

    Each parser is specified at a cursor: [drop cursor data] starts with the
    section and goes on with [rest]. *)

(** The session a receiver holds: bytes past the length are zero. *)
Definition received_session (s : SessionId) : SessionId :=
  let n := Z.to_nat (session_length s) in
  {| session_length := session_length s;
     session_data := take n (session_data s) ++ replicate (kMaximumSessionIdBytes - n) 0 |}.

Lemma drop_head data cursor b rest :
  drop cursor data = b :: rest -> byte_at data cursor = b /\ drop (S cursor) data = rest.
Proof.
  intros H. assert (Hl : (cursor < length data)%nat).
  { assert (length (drop cursor data) = S (length rest)) by (by rewrite H).
    rewrite length_drop in *. lia. }
  rewrite byte_at_cons_drop in H by done. by injection H.
Qed.

Lemma drop_written data cursor (l rest : bytes) n :
  drop cursor data = l ++ rest -> length l = n ->
  subspan data cursor n = l /\ drop (cursor + n) data = rest.
Proof.
  intros H <-. unfold subspan. rewrite H, take_app_length. split; [done|].
  by rewrite <- drop_drop, H, drop_app_length.
Qed.

Lemma drop_integer data cursor n v rest :
  drop cursor data = be_bytes n v ++ rest -> in_width (8 * Z.of_nat n) v ->
  read_integer n data cursor = v /\ drop (cursor + n) data = rest.
Proof.
  intros H Hv. destruct (drop_written data cursor _ rest n H (length_be_bytes n v)) as [E D].
  split; [|done]. destruct n as [|n].
  { unfold in_width in Hv. unfold read_integer. simpl in *. lia. }
  apply read_integer_written; [done| |done].
  assert (Hl : length (drop cursor data) = (S n + length rest)%nat)
    by (by rewrite H, length_app, length_be_bytes).
  rewrite length_drop in Hl. lia.
Qed.

Lemma session_bytes_length s :
  typed_session s -> session_ok s = true ->
  length (session_bytes s) = match s with Some s => S (Z.to_nat (session_length s)) | None => 0%nat end.
Proof.
  destruct s as [s|]; [|done]. intros (Hl & _ & Hd) Hok. simpl in Hok. bool_to_prop.
  unfold session_bytes. cbn [append_session app length]. rewrite length_take, Hd.
  unfold kMaximumSessionIdBytes in *. lia.
Qed.

Lemma parse_session_written data hb cursor s rest :
  typed_session s -> session_ok s = true ->
  drop cursor data = session_bytes s ++ rest ->
  (cursor + length (session_bytes s) <= hb)%nat ->
  parse_session data hb cursor (bool_decide (is_Some s)) =
    Ok (received_session <$> s, (cursor + length (session_bytes s))%nat) /\
  drop (cursor + length (session_bytes s)) data = rest.
Proof.
  intros Ht Hok Hd Hc. rewrite session_bytes_length in * by done.
  destruct s as [s|]; cbn [bool_decide is_Some_dec]; [|by rewrite Nat.add_0_r].
  destruct Ht as (Hl & Hb & Hlen). simpl in Hok. bool_to_prop.
  unfold session_bytes in Hd. cbn [append_session app] in Hd.
  apply drop_head in Hd as [E1 D1].
  apply drop_written with (n := Z.to_nat (session_length s)) in D1 as [E2 D2];
    [|rewrite length_take, Hlen; width_lia].
  unfold parse_session, check. rewrite E1, (proj2 (Nat.leb_gt _ _)) by lia.
  rewrite (proj2 (Z.eqb_neq _ _)) by done.
  rewrite !(proj2 (Z.ltb_ge _ _)) by width_lia. cbn [negb orb].
  rewrite E2. replace (cursor + S (Z.to_nat (session_length s)))%nat
    with (S cursor + Z.to_nat (session_length s))%nat by lia.
  by split.
Qed.

Lemma parse_timestamp_written data hb cursor t rest :
  match t with Some t => is_u64 t | None => True end ->
  drop cursor data = timestamp_bytes t ++ rest ->
  (cursor + length (timestamp_bytes t) <= hb)%nat ->
  parse_timestamp data hb cursor (bool_decide (is_Some t)) =
    Ok (t, (cursor + length (timestamp_bytes t))%nat) /\
  drop (cursor + length (timestamp_bytes t)) data = rest.
Proof.
  intros Ht Hd Hc. destruct t as [t|]; [|by rewrite Nat.add_0_r].
  apply (drop_integer _ _ 8) in Hd as [E D]; [|done].
  unfold timestamp_bytes, append_timestamp, append_integer in *. cbn [app] in *.
  rewrite length_be_bytes in *. split; [|done].
  unfold parse_timestamp, check. cbn [bool_decide is_Some_dec].
  by rewrite (proj2 (Nat.ltb_ge _ _)), E by lia.
Qed.

Lemma parse_multipart_written data hb cursor m rest :
  match m with Some p => is_u32 (total_parts p) /\ is_u32 (part_index p) | None => True end ->
  multipart_ok m = true ->
  drop cursor data = multipart_bytes m ++ rest ->
  (cursor + length (multipart_bytes m) <= hb)%nat ->
  parse_multipart data hb cursor (bool_decide (is_Some m)) =
    Ok (m, (cursor + length (multipart_bytes m))%nat) /\
  drop (cursor + length (multipart_bytes m)) data = rest.
Proof.
  intros Ht Hok Hd Hc. destruct m as [[total index]|]; [|by rewrite Nat.add_0_r].
  destruct Ht as [Ht Hi]. cbn [total_parts part_index] in *.
  unfold multipart_bytes, append_multipart, append_integer in *. cbn [app total_parts part_index] in *.
  rewrite length_app, !length_be_bytes in *. rewrite <- app_assoc in Hd.
  apply (drop_integer _ _ 4) in Hd as [E1 D1]; [|done].
  apply (drop_integer _ _ 4) in D1 as [E2 D2]; [|done].
  rewrite <- Nat.add_assoc in D2. split; [|done].
  unfold parse_multipart, check. cbn [bool_decide is_Some_dec].
  rewrite (proj2 (Nat.ltb_ge _ _)) by lia. cbn [negb]. rewrite E1, E2.
  simpl in Hok. cbn [total_parts part_index]. by rewrite Hok.
Qed.

Lemma parse_extension_written data hb cursor ext rest :
  drop cursor data = ext ++ rest -> hb = (cursor + length ext)%nat ->
  parse_extension data hb cursor (match ext with [] => false | _ => true end) = Ok ext.
Proof.
  intros Hd ->. destruct (drop_written data cursor ext rest _ Hd eq_refl) as [E _].
  unfold parse_extension, check. destruct ext as [|b ext].
  - by rewrite (proj2 (Nat.eqb_eq _ _)) by (simpl; lia).
  - rewrite (proj2 (Nat.eqb_neq _ _)) by (simpl; lia).
    replace (cursor + length (b :: ext) - cursor)%nat with (length (b :: ext)) by lia.
    by rewrite E.
Qed.

(** ** The whole message, forwards *)

(** The value a receiver of [m] obtains, given the checksum it carries. *)
Definition received (m : Message) (checksum : option bytes) : DecodedMessage :=
  {| d_wire_header :=
       {| version := kWireVersion; header_bytes := header_size m;
          has_session_id := bool_decide (is_Some (session_id m));
          has_timestamp := bool_decide (is_Some (timestamp m));
          is_multipart := bool_decide (is_Some (multipart m));
          has_checksum := include_checksum m;
          has_extension := match extension m with [] => false | _ => true end |};
     d_header :=
       {| channel_id := channel_id (header m); message_id := message_id (header m);
          payload_length := Z.of_nat (length (payload m)) |};
     d_session_id := received_session <$> session_id m; d_timestamp := timestamp m;
     d_multipart := multipart m; d_extension := extension m; d_payload := payload m;
     d_checksum := checksum |}.

Lemma flags_of_bits m :
  Z.land (flags_of m) (wrap 8 (Z.lnot kKnownFlags)) = 0 /\ is_byte (flags_of m) /\
  flag_set (flags_of m) kSessionFlag = bool_decide (is_Some (session_id m)) /\
  flag_set (flags_of m) kTimestampFlag = bool_decide (is_Some (timestamp m)) /\
  flag_set (flags_of m) kMultipartFlag = bool_decide (is_Some (multipart m)) /\
  flag_set (flags_of m) kChecksumFlag = include_checksum m /\
  flag_set (flags_of m) kExtensionFlag = match extension m with [] => false | _ => true end.
Proof.
  unfold flags_of.
  destruct (session_id m), (timestamp m), (multipart m), (include_checksum m), (extension m);
    by vm_compute.
Qed.

Lemma preamble_fields data flags hb channel id size rest :
  is_u16 hb -> is_u32 channel -> is_u32 id -> is_u64 size ->
  data = preamble flags hb channel id size ++ rest ->
  take 4 data = kMagic /\ byte_at data 4 = kWireVersion /\ byte_at data 5 = flags /\
  read_integer 2 data 6 = hb /\ read_integer 4 data 8 = channel /\
  read_integer 4 data 12 = id /\ read_integer 8 data 16 = size /\
  drop kBaseHeaderBytes data = rest.
Proof.
  intros Hh Hc Hi Hs ->.
  assert (D : drop 6 (preamble flags hb channel id size ++ rest) =
    be_bytes 2 hb ++ be_bytes 4 channel ++ be_bytes 4 id ++ be_bytes 8 size ++ rest).
  { unfold preamble. rewrite <- !app_assoc. reflexivity. }
  apply (drop_integer _ _ 2) in D as [E1 D]; [|done].
  apply (drop_integer _ _ 4) in D as [E2 D]; [|done].
  apply (drop_integer _ _ 4) in D as [E3 D]; [|done].
  apply (drop_integer _ _ 8) in D as [E4 D]; [|done].
  by split_and!.
Qed.

Lemma preamble_length flags hb channel id size : length (preamble flags hb channel id size) = 24%nat.
Proof. done. Qed.

Lemma checksum_matches_iff expected actual :
  length actual = length expected -> Forall is_byte expected -> Forall is_byte actual ->
  checksum_matches expected actual = true <-> actual = expected.
Proof.
  intros Hl He Ha. unfold checksum_matches. rewrite Z.eqb_eq.
  assert (H : forall indices acc, 0 <= acc ->
    fold_left (fun difference index =>
       Z.lor difference (Z.lxor (byte_at expected index) (byte_at actual index))) indices acc = 0
    <-> acc = 0 /\ Forall (fun i => byte_at expected i = byte_at actual i) indices).
  { induction indices as [|i l IH]; intros acc Hacc; cbn [fold_left].
    - split; [by intros ->|by intros [-> _]].
    - pose proof (in_width_nonneg _ _ (byte_at_byte expected i He)).
      pose proof (in_width_nonneg _ _ (byte_at_byte actual i Ha)).
      rewrite IH by (apply Z.lor_nonneg; split; [done|by apply Z.lxor_nonneg]).
      rewrite Forall_cons, Z.lor_eq_0_iff, Z.lxor_eq_0_iff. tauto. }
  rewrite H by done. split; [|intros ->; split; [done|by apply Forall_forall]].
  intros [_ E]. apply (list_eq_same_length _ _ (length expected)); [lia|done|].
  intros i x y Hi Hx Hy. rewrite Forall_forall in E.
  specialize (E i). unfold byte_at in E. rewrite Hx, Hy in E. symmetry. apply E.
  apply elem_of_seq. lia.
Qed.

Lemma header_size_read m hb :
  typed_session (session_id m) -> session_ok (session_id m) = true ->
  hb = (24 + length (session_bytes (session_id m)) + length (timestamp_bytes (timestamp m))
        + length (multipart_bytes (multipart m)) + length (extension m))%nat ->
  header_size m = Z.of_nat hb.
Proof.
  intros Ht Hs ->. rewrite session_bytes_length by done.
  unfold header_size, fixed_header_bytes, kBaseHeaderBytes.
  destruct (session_id m) as [s|], (timestamp m), (multipart m); try destruct Ht as (Ht & _ & _);
    cbn [timestamp_bytes multipart_bytes append_timestamp append_multipart append_integer];
    unfold append_integer; rewrite ?length_app, ?length_be_bytes; cbn [length];
    unfold in_width in *; lia.
Qed.

Section RoundTrip.
Context (mbedtls_sha256 : bytes -> option bytes).
Context (Hprovider : provider_ok mbedtls_sha256).

Definition wire_checksum (m : Message) : option bytes :=
  if include_checksum m then Some (sha256 mbedtls_sha256 (body m)) else None.

Lemma session_header_size m maximum :
  typed_message m -> admissible m maximum ->
  Z.to_nat (header_size m) =
    (24 + length (session_bytes (session_id m)) + length (timestamp_bytes (timestamp m))
     + length (multipart_bytes (multipart m)) + length (extension m))%nat.
Proof.
  intros (_ & _ & Ht & _) (_ & _ & _ & Hs & _).
  rewrite (header_size_read m _ Ht Hs eq_refl). lia.
Qed.

Lemma body_length m maximum :
  typed_message m -> admissible m maximum ->
  length (body m) = (Z.to_nat (header_size m) + length (payload m))%nat.
Proof.
  intros Ht Ha. rewrite (session_header_size m maximum) by done. unfold body.
  rewrite !length_app, preamble_length. lia.
Qed.

Lemma body_bytes m maximum :
  typed_message m -> admissible m maximum -> Forall is_byte (body m).
Proof.
  intros Ht Ha. pose proof (header_size_bounds m maximum Ht Ha).
  destruct Ht as (_ & _ & Hs & _ & _ & He & Hp). unfold body, preamble.
  destruct (flags_of_bits m) as (_ & Hf & _).
  assert (Forall is_byte (session_bytes (session_id m))).
  { destruct (session_id m) as [s|]; [|constructor]. destruct Hs as (Hl & Hd & _).
    constructor; [done|]. by apply Forall_take. }
  assert (Forall is_byte (timestamp_bytes (timestamp m))).
  { destruct (timestamp m); [|constructor]. apply be_bytes_are_bytes. }
  assert (Forall is_byte (multipart_bytes (multipart m))).
  { destruct (multipart m); [|constructor]. unfold multipart_bytes. simpl append_multipart.
    unfold append_integer. apply Forall_app_2; apply be_bytes_are_bytes. }
  repeat first [apply Forall_app_2 | apply be_bytes_are_bytes | assumption].
  - by repeat constructor.
  - by repeat constructor.
  - by constructor.
Qed.

Definition checksum_section (m : Message) : bytes :=
  if include_checksum m then sha256 mbedtls_sha256 (body m) else [].

Lemma checksum_section_length m :
  length (checksum_section m) = if include_checksum m then kChecksumBytes else 0%nat.
Proof.
  unfold checksum_section. destruct (include_checksum m); [|done].
  by destruct (sha256_ok mbedtls_sha256 (body m) Hprovider).
Qed.

Lemma wire_length m maximum :
  typed_message m -> admissible m maximum ->
  length (wire mbedtls_sha256 m) =
    (Z.to_nat (header_size m) + length (payload m) + length (checksum_section m))%nat.
Proof.
  intros Ht Ha. unfold wire. by rewrite length_app, (body_length m maximum).
Qed.

Lemma parse_checksum_written m rest :
  Forall is_byte (body m) ->
  parse_checksum mbedtls_sha256 (wire mbedtls_sha256 m ++ rest)
    (length (wire mbedtls_sha256 m)) (include_checksum m) = Ok (wire_checksum m).
Proof.
  intros Hb. unfold parse_checksum, wire_checksum, wire.
  destruct (include_checksum m) eqn:E; [|done].
  destruct (sha256_ok mbedtls_sha256 (body m) Hprovider) as [Hl Hd].
  rewrite length_app, Hl. replace (_ + _ - _)%nat with (length (body m)) by (unfold kChecksumBytes, kSha256Bytes; lia).
  rewrite <- app_assoc, take_app_length, subspan_app_n by done.
  unfold check. by rewrite (proj2 (checksum_matches_iff _ _ eq_refl Hd Hd)).
Qed.

Lemma parse_sections_written m maximum data rest :
  typed_message m -> admissible m maximum ->
  drop kBaseHeaderBytes data = session_bytes (session_id m) ++ timestamp_bytes (timestamp m) ++
    multipart_bytes (multipart m) ++ extension m ++ rest ->
  let hb := Z.to_nat (header_size m) in
  exists c1 c2 c3,
    parse_session data hb kBaseHeaderBytes (bool_decide (is_Some (session_id m)))
      = Ok (received_session <$> session_id m, c1) /\
    parse_timestamp data hb c1 (bool_decide (is_Some (timestamp m))) = Ok (timestamp m, c2) /\
    parse_multipart data hb c2 (bool_decide (is_Some (multipart m))) = Ok (multipart m, c3) /\
    parse_extension data hb c3 (match extension m with [] => false | _ => true end)
      = Ok (extension m) /\
    subspan data hb (length rest) = rest.
Proof.
  intros Ht Ha D0 hb. pose proof (session_header_size m maximum Ht Ha) as Hhs.
  destruct Ht as (_ & _ & Ts & Tt & Tm & _). destruct Ha as (_ & _ & _ & A4 & A5 & _).
  unfold kBaseHeaderBytes in *.
  destruct (parse_session_written data hb _ _ _ Ts A4 D0) as [P1 D1]; [lia|].
  destruct (parse_timestamp_written data hb _ _ _ Tt D1) as [P2 D2]; [lia|].
  destruct (parse_multipart_written data hb _ _ _ Tm A5 D2) as [P3 D3]; [lia|].
  do 3 eexists. split_and!; [exact P1|exact P2|exact P3| |].
  - eapply parse_extension_written; [exact D3|lia].
  - apply drop_written with (n := length (extension m)) in D3 as [_ D4]; [|done].
    rewrite <- (app_nil_r rest) in D4.
    replace hb with (24 + length (session_bytes (session_id m)) +
      length (timestamp_bytes (timestamp m)) + length (multipart_bytes (multipart m)) +
      length (extension m))%nat by lia.
    by apply drop_written with (n := length rest) in D4 as [E _].
Qed.

Lemma deserialize_wire m maximum rest :
  typed_message m -> admissible m maximum ->
  Z.of_nat (length (wire mbedtls_sha256 m)) <= size_max ->
  deserialize_message mbedtls_sha256 (wire mbedtls_sha256 m ++ rest) maximum =
    Ok (received m (wire_checksum m), length (wire mbedtls_sha256 m)).
Proof.
  intros Ht Ha Hsize. pose proof (header_size_bounds m maximum Ht Ha) as Hh.
  pose proof (wire_length m maximum Ht Ha) as Hwl.
  pose proof (checksum_section_length m) as Hcl.
  pose proof (parse_checksum_written m rest (body_bytes m maximum Ht Ha)) as P5.
  set (data := wire mbedtls_sha256 m ++ rest) in *.
  assert (Hdl : (length (wire mbedtls_sha256 m) <= length data)%nat)
    by (unfold data; rewrite length_app; lia).
  assert (Hpre : data = preamble (flags_of m) (header_size m) (channel_id (header m))
    (message_id (header m)) (Z.of_nat (length (payload m))) ++
    session_bytes (session_id m) ++ timestamp_bytes (timestamp m) ++
    multipart_bytes (multipart m) ++ extension m ++ payload m ++ checksum_section m ++ rest).
  { unfold data, wire, body. by rewrite <- !app_assoc. }
  assert (R1 : is_u16 (header_size m)) by width_lia.
  assert (R2 : is_u64 (Z.of_nat (length (payload m)))) by (unfold size_max in *; width_lia).
  destruct (preamble_fields data _ _ _ _ _ _ R1 (proj1 Ht) (proj1 (proj2 Ht)) R2 Hpre)
    as (F1 & F2 & F3 & F4 & F5 & F6 & F7 & D0).
  destruct (flags_of_bits m) as (B0 & _ & B1 & B2 & B3 & B4 & B5).
  destruct (parse_sections_written m maximum data _ Ht Ha D0)
    as (c1 & c2 & c3 & P1 & P2 & P3 & P4 & P6).
  assert (P7 : subspan data (Z.to_nat (header_size m)) (length (payload m)) = payload m).
  { apply (f_equal (take (length (payload m)))) in P6. rewrite take_app_length in P6.
    unfold subspan in P6 |- *. by rewrite take_take, length_app, Nat.min_l in P6 by lia. }
  destruct Ha as (A1 & A2 & A3 & _).
  unfold deserialize_message. cbn zeta. rewrite F1, F2, F3, F4, F5, F6, F7, B0, B1, B2, B3, B4, B5.
  cbn [channel_id payload_length has_session_id has_timestamp is_multipart has_checksum
       has_extension]. rewrite P1. cbn [result_bind]. rewrite P2. cbn [result_bind].
  rewrite P3. cbn [result_bind]. rewrite P4. cbn [result_bind].
  replace (Z.to_nat (_ + _ + _)) with (length (wire mbedtls_sha256 m))
    by (destruct (include_checksum m); lia).
  rewrite P5. cbn [result_bind].
  rewrite <- Hcl, Z2Nat.id, Nat2Z.id, P7 by lia.
  unfold check, kBaseHeaderBytes.
  rewrite (bool_decide_true (kMagic = kMagic)) by done.
  rewrite (proj2 (Z.eqb_neq _ _) A1), (proj2 (Z.eqb_neq _ _) A2).
  rewrite !(proj2 (Nat.ltb_ge _ _)) by lia. rewrite !(proj2 (Z.ltb_ge _ _)) by lia.
  done.
Qed.
End RoundTrip.

(** ** Backwards: what an accepted message says of its bytes *)

Lemma drop_to_section data cursor n l :
  subspan data cursor n = l -> drop cursor data = l ++ drop (cursor + n) data.
Proof. intros <-. apply drop_subspan. Qed.

Lemma parse_session_some data hb cursor present s cursor' :
  Forall is_byte data -> (hb <= length data)%nat -> (cursor <= hb)%nat ->
  parse_session data hb cursor present = Ok (s, cursor') ->
  present = bool_decide (is_Some s) /\
  (typed_session s /\ received_session <$> s = s) /\ session_ok s = true /\
  (cursor' <= hb)%nat /\ cursor' = (cursor + length (session_bytes s))%nat /\
  drop cursor data = session_bytes s ++ drop cursor' data.
Proof.
  intros Hb Hl Hc. unfold parse_session. destruct present.
  2: { intros [= <- <-]. split_and!; try done; simpl; lia. }
  intros H. cbn zeta in H. result_inv H. injection H as <- <-.
  apply negb_true_iff, Nat.leb_gt in G. pose proof G0 as Hok. bool_to_prop.
  set (len := byte_at data cursor) in *.
  assert (Hlen : is_byte len) by (by apply byte_at_byte).
  assert (E : length (subspan data (S cursor) (Z.to_nat len)) = Z.to_nat len)
    by (apply subspan_length; unfold in_width in Hlen; lia).
  assert (Es : session_bytes (Some {| session_length := len;
     session_data := subspan data (S cursor) (Z.to_nat len)
       ++ replicate (kMaximumSessionIdBytes - Z.to_nat len) 0 |})
     = len :: subspan data (S cursor) (Z.to_nat len)).
  { unfold session_bytes. cbn [append_session app session_length session_data].
    f_equal. rewrite take_app_le by lia. by apply take_ge; lia. }
  rewrite Es. split_and!; [done| | | | | |].
  - cbn [typed_session session_length session_data]. split_and!; [done| |].
    + apply Forall_app_2; [by apply subspan_bytes|]. by apply Forall_replicate.
    + rewrite length_app, E, length_replicate. unfold kMaximumSessionIdBytes in *. lia.
  - cbn [fmap option_fmap option_map]. do 2 f_equal. unfold received_session.
    cbn [session_length session_data]. f_equal. by rewrite <- E at 1; rewrite take_app_length.
  - cbn [session_ok session_length]. by rewrite (proj2 (Z.eqb_neq _ _)), (proj2 (Z.ltb_ge _ _)).
  - unfold in_width in Hlen. lia.
  - simpl. rewrite E. lia.
  - rewrite byte_at_cons_drop by lia. exact (f_equal (cons len) (drop_subspan data (S cursor) _)).
Qed.

Lemma parse_timestamp_some data hb cursor present t cursor' :
  Forall is_byte data -> (hb <= length data)%nat -> (cursor <= hb)%nat ->
  parse_timestamp data hb cursor present = Ok (t, cursor') ->
  present = bool_decide (is_Some t) /\ match t with Some t => is_u64 t | None => True end /\
  (cursor' <= hb)%nat /\ cursor' = (cursor + length (timestamp_bytes t))%nat /\
  drop cursor data = timestamp_bytes t ++ drop cursor' data.
Proof.
  intros Hb Hl Hc. unfold parse_timestamp. destruct present.
  2: { intros [= <- <-]. split_and!; try done; simpl; lia. }
  intros H. result_inv H. injection H as <- <-. bool_to_prop.
  unfold timestamp_bytes, append_timestamp, append_integer. cbn [app].
  rewrite length_be_bytes. split_and!; [done| |lia|lia|].
  - apply (read_integer_range 8); [done|lia].
  - rewrite be_bytes_read_integer by (done || lia). by apply drop_to_section.
Qed.

Lemma parse_multipart_some data hb cursor present m cursor' :
  Forall is_byte data -> (hb <= length data)%nat -> (cursor <= hb)%nat ->
  parse_multipart data hb cursor present = Ok (m, cursor') ->
  present = bool_decide (is_Some m) /\
  match m with Some p => is_u32 (total_parts p) /\ is_u32 (part_index p) | None => True end /\
  multipart_ok m = true /\
  (cursor' <= hb)%nat /\ cursor' = (cursor + length (multipart_bytes m))%nat /\
  drop cursor data = multipart_bytes m ++ drop cursor' data.
Proof.
  intros Hb Hl Hc. unfold parse_multipart. destruct present.
  2: { intros [= <- <-]. split_and!; try done; simpl; lia. }
  intros H. cbn zeta in H. result_inv H. injection H as <- <-. apply negb_true_iff, Nat.ltb_ge in G.
  unfold multipart_bytes, append_multipart, append_integer. cbn [app total_parts part_index] in *.
  rewrite length_app, !length_be_bytes. split_and!; [done| | |done|lia|lia|].
  - apply (read_integer_range 4); [done|lia].
  - apply (read_integer_range 4); [done|lia].
  - rewrite !be_bytes_read_integer by (done || lia).
    rewrite <- app_assoc. replace (cursor + 8)%nat with (cursor + 4 + 4)%nat by lia.
    by rewrite <- !drop_subspan.
Qed.

Lemma parse_extension_some data hb cursor present ext :
  (hb <= length data)%nat -> (cursor <= hb)%nat ->
  parse_extension data hb cursor present = Ok ext ->
  present = (match ext with [] => false | _ => true end) /\
  hb = (cursor + length ext)%nat /\ drop cursor data = ext ++ drop hb data.
Proof.
  intros Hl Hc. unfold parse_extension. intros H. destruct present; result_inv H; bool_to_prop.
  - assert (E : length ext = (hb - cursor)%nat) by (rewrite <- H; apply subspan_length; lia).
    split_and!; [destruct ext; simpl in *; [lia|done]|lia|].
    replace hb with (cursor + (hb - cursor))%nat at 1 by lia. by apply drop_to_section.
  - subst. split_and!; [done|simpl; lia|done].
Qed.

Lemma preamble_read data :
  Forall is_byte data -> (kBaseHeaderBytes <= length data)%nat ->
  take 4 data = kMagic -> byte_at data 4 = kWireVersion ->
  data = preamble (byte_at data 5) (read_integer 2 data 6) (read_integer 4 data 8)
           (read_integer 4 data 12) (read_integer 8 data 16) ++ drop kBaseHeaderBytes data.
Proof.
  unfold kBaseHeaderBytes. intros Hb Hl Hm Hv. unfold preamble. rewrite <- Hm, <- Hv.
  rewrite !be_bytes_read_integer by (done || lia). rewrite <- !app_assoc.
  pose proof (drop_subspan data 16 8) as E1. pose proof (drop_subspan data 12 4) as E2.
  pose proof (drop_subspan data 8 4) as E3. pose proof (drop_subspan data 6 2) as E4.
  cbn [Nat.add] in E1, E2, E3, E4. rewrite <- E1, <- E2, <- E3, <- E4.
  cbn [app]. rewrite <- (byte_at_cons_drop data 5), <- (byte_at_cons_drop data 4) by lia.
  by rewrite take_drop.
Qed.

(** A flags byte without unknown bits is determined by its five flags. *)
Lemma flags_determined flags :
  is_byte flags -> Z.land flags (wrap 8 (Z.lnot kKnownFlags)) = 0 ->
  flags = Z.lor (Z.lor (Z.lor (Z.lor
    (if flag_set flags kSessionFlag then kSessionFlag else 0)
    (if flag_set flags kTimestampFlag then kTimestampFlag else 0))
    (if flag_set flags kMultipartFlag then kMultipartFlag else 0))
    (if flag_set flags kChecksumFlag then kChecksumFlag else 0))
    (if flag_set flags kExtensionFlag then kExtensionFlag else 0).
Proof.
  intros Hb H. apply Z.eqb_eq in H. apply Z.eqb_eq.
  revert H. apply implb_true_iff. revert flags Hb. apply forall_byte. by vm_compute.
Qed.

(** The message a decoded value stands for. *)
Definition message_of (d : DecodedMessage) : Message :=
  {| header := d_header d; session_id := d_session_id d; timestamp := d_timestamp d;
     multipart := d_multipart d; extension := d_extension d; payload := d_payload d;
     include_checksum := has_checksum (d_wire_header d) |}.

Section Canonical.
Context (mbedtls_sha256 : bytes -> option bytes).
Context (Hprovider : provider_ok mbedtls_sha256).

Lemma parse_checksum_some data total (present : bool) checksum :
  Forall is_byte data -> (total <= length data)%nat ->
  ((if present then kChecksumBytes else 0%nat) <= total)%nat ->
  parse_checksum mbedtls_sha256 data total present = Ok checksum ->
  let hashed := take (total - (if present then kChecksumBytes else 0%nat)) data in
  checksum = (if present then Some (sha256 mbedtls_sha256 hashed) else None) /\
  take total data = hashed ++ (if present then sha256 mbedtls_sha256 hashed else []).
Proof.
  intros Hb Hl Ht H. destruct present; cbn zeta.
  - unfold parse_checksum in H. result_inv H. subst checksum.
    set (hashed := take (total - kChecksumBytes) data) in *.
    destruct (sha256_ok mbedtls_sha256 hashed Hprovider) as [Hsl Hsb].
    assert (Hel : length (subspan data (total - kChecksumBytes) kChecksumBytes) = kChecksumBytes)
      by (apply subspan_length; lia).
    apply checksum_matches_iff in G; [|by rewrite Hel|done|by apply subspan_bytes].
    split; [by rewrite G|]. rewrite <- G. unfold hashed, subspan. rewrite take_take_drop.
    f_equal. lia.
  - injection H as <-. rewrite Nat.sub_0_r, app_nil_r. done.
Qed.

Lemma sections_read data hb f1 f2 f3 f5 s t p ext c1 c2 c3 :
  Forall is_byte data -> (hb <= length data)%nat -> (kBaseHeaderBytes <= hb)%nat ->
  parse_session data hb kBaseHeaderBytes f1 = Ok (s, c1) ->
  parse_timestamp data hb c1 f2 = Ok (t, c2) ->
  parse_multipart data hb c2 f3 = Ok (p, c3) ->
  parse_extension data hb c3 f5 = Ok ext ->
  (f1 = bool_decide (is_Some s) /\ f2 = bool_decide (is_Some t) /\
   f3 = bool_decide (is_Some p) /\ f5 = (match ext with [] => false | _ => true end)) /\
  (typed_session s /\ received_session <$> s = s /\
   match t with Some t => is_u64 t | None => True end /\
   match p with Some p => is_u32 (total_parts p) /\ is_u32 (part_index p) | None => True end /\
   Forall is_byte ext) /\
  session_ok s = true /\ multipart_ok p = true /\
  hb = (24 + length (session_bytes s) + length (timestamp_bytes t)
        + length (multipart_bytes p) + length ext)%nat /\
  drop kBaseHeaderBytes data =
    session_bytes s ++ timestamp_bytes t ++ multipart_bytes p ++ ext ++ drop hb data.
Proof.
  intros Hb Hl H24 P1 P2 P3 P4.
  apply parse_session_some in P1 as (-> & [Ts Tr] & A4 & L1 & E1 & D1); [|done|done|done].
  apply parse_timestamp_some in P2 as (-> & Tt & L2 & E2 & D2); [|done|done|done].
  apply parse_multipart_some in P3 as (-> & Tm & A5 & L3 & E3 & D3); [|done|done|done].
  apply parse_extension_some in P4 as (-> & E4 & D4); [|done|done].
  unfold kBaseHeaderBytes in E1. split_and!; try done.
  - apply (Forall_drop _ c3) in Hb. rewrite D4 in Hb. by apply Forall_app in Hb as [? _].
  - rewrite E4, E3, E2, E1. lia.
  - by rewrite D1, D2, D3, D4.
Qed.

Lemma flags_of_read flags m :
  is_byte flags -> Z.land flags (wrap 8 (Z.lnot kKnownFlags)) = 0 ->
  flag_set flags kSessionFlag = bool_decide (is_Some (session_id m)) ->
  flag_set flags kTimestampFlag = bool_decide (is_Some (timestamp m)) ->
  flag_set flags kMultipartFlag = bool_decide (is_Some (multipart m)) ->
  flag_set flags kChecksumFlag = include_checksum m ->
  flag_set flags kExtensionFlag = match extension m with [] => false | _ => true end ->
  flags_of m = flags.
Proof.
  intros Hb H E1 E2 E3 E4 E5. rewrite (flags_determined flags Hb H), E1, E2, E3, E4, E5.
  unfold flags_of. destruct (session_id m), (timestamp m), (multipart m), (extension m); done.
Qed.

Lemma body_read data m k :
  Forall is_byte data -> Z.of_nat (length data) <= size_max -> (k <= length data)%nat ->
  let hb := Z.to_nat (read_integer 2 data 6) in
  take 4 data = kMagic -> byte_at data 4 = kWireVersion -> flags_of m = byte_at data 5 ->
  header m = {| channel_id := read_integer 4 data 8; message_id := read_integer 4 data 12;
                payload_length := read_integer 8 data 16 |} ->
  payload m = subspan data hb (Z.to_nat (read_integer 8 data 16)) ->
  (kBaseHeaderBytes <= hb)%nat -> k = (hb + Z.to_nat (read_integer 8 data 16))%nat ->
  header_size m = Z.of_nat hb ->
  drop kBaseHeaderBytes data = session_bytes (session_id m) ++ timestamp_bytes (timestamp m) ++
    multipart_bytes (multipart m) ++ extension m ++ drop hb data ->
  take k data = body m.
Proof.
  intros Hb Hsz Hk hb Hm Hv Hf Hh Hp H24 Ek Es Hd. unfold kBaseHeaderBytes in *.
  assert (Hlp : length (payload m) = Z.to_nat (read_integer 8 data 16))
    by (rewrite Hp; apply subspan_length; lia).
  pose proof (read_integer_range 2 data 6 Hb ltac:(lia)) as R1.
  pose proof (read_integer_range 8 data 16 Hb ltac:(lia)) as R2.
  assert (E : data = body m ++ drop k data).
  { rewrite (preamble_read data) at 1 by (done || unfold kBaseHeaderBytes; lia).
    unfold kBaseHeaderBytes. rewrite Hd. rewrite (drop_subspan data hb (Z.to_nat (read_integer 8 data 16))).
    rewrite <- Ek, <- Hp. unfold body. rewrite Hf, Hh, Es, Hlp. cbn [channel_id message_id].
    unfold hb. rewrite !Z2Nat.id by (unfold in_width in *; lia). by rewrite <- !app_assoc. }
  assert (El : length (body m) = k).
  { apply (f_equal length) in E. rewrite length_app, length_drop in E. lia. }
  rewrite E, <- El. apply take_app_length.
Qed.

Lemma deserialize_canonical data maximum d n :
  Forall is_byte data -> Z.of_nat (length data) <= size_max ->
  deserialize_message mbedtls_sha256 data maximum = Ok (d, n) ->
  (n <= length data)%nat /\ typed_message (message_of d) /\ admissible (message_of d) maximum /\
  take n data = wire mbedtls_sha256 (message_of d) /\
  d = received (message_of d) (wire_checksum mbedtls_sha256 (message_of d)).
Proof.
  intros Hb Hsz H. unfold deserialize_message in H. result_inv_pairs H.
  injection H as Hd Hn. apply bool_decide_eq_true in G1. bool_to_prop.
  unfold kBaseHeaderBytes in G0, G4.
  pose proof (read_integer_range 2 data 6 Hb ltac:(lia)) as R1.
  pose proof (read_integer_range 4 data 8 Hb ltac:(lia)) as R2.
  pose proof (read_integer_range 4 data 12 Hb ltac:(lia)) as R3.
  pose proof (read_integer_range 8 data 16 Hb ltac:(lia)) as R4.
  destruct (sections_read _ _ _ _ _ _ _ _ _ _ _ _ _ Hb G5 G4 E E0 E1 E2)
    as ((F1 & F2 & F3 & F5) & (Ts & Tr & Tt & Tp & Te) & A4 & A5 & Ehb & D0).
  set (hb := Z.to_nat (read_integer 2 data 6)) in *.
  set (size := read_integer 8 data 16) in *.
  set (cb := if flag_set (byte_at data 5) kChecksumFlag then kChecksumBytes else 0%nat) in *.
  set (m := message_of d).
  assert (Em : m = {| header :=
      {| channel_id := read_integer 4 data 8; message_id := read_integer 4 data 12;
         payload_length := size |}; session_id := o; timestamp := o0; multipart := o1;
    extension := value; payload := subspan data hb (Z.to_nat size);
    include_checksum := flag_set (byte_at data 5) kChecksumFlag |})
    by (unfold m; rewrite <- Hd; reflexivity).
  assert (Ef : flags_of m = byte_at data 5)
    by (apply flags_of_read; [by apply byte_at_byte|done|..]; by rewrite Em).
  assert (Es : header_size m = Z.of_nat hb) by (apply header_size_read; by rewrite Em).
  assert (Ebody : take (hb + Z.to_nat size) data = body m).
  { apply body_read; try done; [unfold in_width in R4; lia|by rewrite Em|by rewrite Em|by rewrite Em]. }
  assert (Elen : length (payload m) = Z.to_nat size)
    by (rewrite Em; apply subspan_length; unfold in_width in R4; lia).
  assert (Ecb : (n - cb)%nat = (hb + Z.to_nat size)%nat) by (unfold in_width in R4; lia).
  rewrite Hn in E3. apply parse_checksum_some in E3 as [Ec Ew]; [|done|lia|fold cb; lia].
  fold cb in Ec, Ew. rewrite Ecb, Ebody in Ec, Ew.
  split_and!.
  - unfold in_width in R4. lia.
  - unfold typed_message. rewrite Em. cbn. split_and!; try done. by apply subspan_bytes.
  - unfold admissible. rewrite Es, Elen, Em. cbn [header channel_id session_id multipart].
    unfold in_width in R1, R4. split_and!; try done; lia.
  - rewrite Ew. unfold wire. by rewrite Em.
  - unfold received, wire_checksum. fold m. rewrite Es, Elen. rewrite <- Hd at 1. rewrite Ec, Em.
    rewrite Z2Nat.id by (unfold in_width in R4; lia).
    cbn [header session_id timestamp multipart extension payload include_checksum
         channel_id message_id].
    rewrite G2, F1, F2, F3, F5. rewrite Tr. reflexivity.
Qed.
End Canonical.

(** ** Streaming: bytes after an accepted or rejected message do not matter *)

Lemma parse_session_app data more hb cursor present :
  (hb <= length data)%nat ->
  parse_session (data ++ more) hb cursor present = parse_session data hb cursor present.
Proof.
  intros Hl. unfold parse_session, check. destruct present; [|done].
  destruct (Nat.leb_spec hb cursor) as [|Hc]; [done|]. cbn [negb].
  rewrite byte_at_app by lia. cbn zeta. guard_goal; [|done]. bool_to_prop.
  by rewrite subspan_app_l by lia.
Qed.

Lemma parse_timestamp_app data more hb cursor present :
  (hb <= length data)%nat ->
  parse_timestamp (data ++ more) hb cursor present = parse_timestamp data hb cursor present.
Proof.
  intros Hl. unfold parse_timestamp, check. destruct present; [|done].
  guard_goal; [|done]. bool_to_prop. by rewrite read_integer_app by lia.
Qed.

Lemma parse_multipart_app data more hb cursor present :
  (hb <= length data)%nat ->
  parse_multipart (data ++ more) hb cursor present = parse_multipart data hb cursor present.
Proof.
  intros Hl. unfold parse_multipart, check. destruct present; [|done].
  guard_goal; [|done]. bool_to_prop. by rewrite !read_integer_app by lia.
Qed.

Lemma parse_extension_app data more hb cursor present :
  (hb <= length data)%nat -> (cursor <= hb)%nat ->
  parse_extension (data ++ more) hb cursor present = parse_extension data hb cursor present.
Proof.
  intros Hl Hc. unfold parse_extension. destruct present; [|done].
  by rewrite subspan_app_l by lia.
Qed.

Lemma sections_cursor data hb c0 f1 f2 f3 s t p c1 c2 c3 :
  (c0 <= hb)%nat ->
  parse_session data hb c0 f1 = Ok (s, c1) ->
  parse_timestamp data hb c1 f2 = Ok (t, c2) ->
  parse_multipart data hb c2 f3 = Ok (p, c3) -> (c3 <= hb)%nat.
Proof.
  intros H24 P1 P2 P3.
  assert (c1 <= hb)%nat.
  { unfold parse_session in P1. destruct f1; [|by injection P1 as _ <-].
    cbn zeta in P1. result_inv P1. injection P1 as _ <-.
    apply negb_true_iff, Nat.leb_gt in G. bool_to_prop. lia. }
  assert (c2 <= hb)%nat.
  { unfold parse_timestamp in P2. destruct f2; [|by injection P2 as _ <-].
    result_inv P2. injection P2 as _ <-. bool_to_prop. lia. }
  unfold parse_multipart in P3. destruct f3; [|by injection P3 as _ <-].
  cbn zeta in P3. result_inv P3. injection P3 as _ <-.
  apply negb_true_iff, Nat.ltb_ge in G. lia.
Qed.

Section Streaming.
Context (mbedtls_sha256 : bytes -> option bytes).

Lemma parse_checksum_app data more total present :
  (total <= length data)%nat -> (kChecksumBytes <= total)%nat \/ present = false ->
  parse_checksum mbedtls_sha256 (data ++ more) total present =
  parse_checksum mbedtls_sha256 data total present.
Proof.
  unfold kChecksumBytes. intros Hl Hc. unfold parse_checksum, kChecksumBytes. destruct present; [|done].
  destruct Hc as [Hc|]; [|done].
  by rewrite take_app_le, subspan_app_l by lia.
Qed.

Lemma deserialize_stable data more maximum :
  Forall is_byte data ->
  deserialize_message mbedtls_sha256 data maximum <> Err TRUNCATED_MESSAGE ->
  deserialize_message mbedtls_sha256 (data ++ more) maximum =
  deserialize_message mbedtls_sha256 data maximum.
Proof.
  intros Hb. unfold deserialize_message, check. cbn zeta.
  destruct (negb (maximum =? 0)); [|done].
  destruct (Nat.ltb_spec (length data) kBaseHeaderBytes) as [|H24]; [done|].
  rewrite (proj2 (Nat.ltb_ge (length (data ++ more)) _)) by (rewrite length_app; lia).
  unfold kBaseHeaderBytes in H24. cbn [negb].
  rewrite take_app_le, !byte_at_app, !read_integer_app by lia.
  repeat (guard_goal; [|done]). bool_to_prop. unfold kBaseHeaderBytes in G2.
  pose proof (in_width_nonneg _ _ (read_integer_range 8 data 16 Hb ltac:(lia))) as Hsz.
  set (hb := Z.to_nat (read_integer 2 data 6)) in *.
  set (size := read_integer 8 data 16) in *.
  rewrite (proj2 (Nat.ltb_ge (length (data ++ more)) _)) by (rewrite length_app; lia).
  cbn [negb]. repeat (guard_goal; [|done]).
  rewrite parse_session_app by lia.
  destruct (parse_session data hb _ _) as [[s c1]|] eqn:P1; [|done]. cbn [result_bind].
  rewrite parse_timestamp_app by lia.
  destruct (parse_timestamp data hb _ _) as [[t c2]|] eqn:P2; [|done]. cbn [result_bind].
  rewrite parse_multipart_app by lia.
  destruct (parse_multipart data hb _ _) as [[p c3]|] eqn:P3; [|done]. cbn [result_bind].
  rewrite parse_extension_app by (eauto using sections_cursor || lia).
  destruct (parse_extension data hb _ _) as [ext|] eqn:P4; [|done]. cbn [result_bind].
  guard_goal; [|done]. set (cb := if flag_set (byte_at data 5) kChecksumFlag then _ else _) in *.
  destruct (Z.ltb_spec (Z.of_nat (length data)) (Z.of_nat hb + size + Z.of_nat cb)); [done|].
  rewrite (proj2 (Z.ltb_ge (Z.of_nat (length (data ++ more))) _)) by (rewrite length_app; lia).
  cbn [negb]. intros _. rewrite parse_checksum_app, subspan_app_l; [done|lia|lia|].
  subst cb. destruct (flag_set _ kChecksumFlag); [left; lia|by right].
Qed.
End Streaming.

Lemma received_session_eq s :
  typed_session (Some s) -> session_ok (Some s) = true -> session_eqb (received_session s) s = true.
Proof.
  intros (Hl & _ & Hd) Hok. simpl in Hok. bool_to_prop.
  unfold session_eqb, received_session. cbn [session_length session_data].
  rewrite Z.eqb_refl. cbn [negb]. apply forallb_forall. intros i Hi.
  apply list_elem_of_In, elem_of_seq in Hi. apply Z.eqb_eq.
  unfold byte_at. rewrite lookup_app_l by (rewrite length_take; guard_in Hi; bool_to_prop; lia).
  rewrite lookup_take. rewrite decide_True by (guard_in Hi; bool_to_prop; lia). done.
Qed.

Lemma deserialize_prefix mbedtls_sha256 m maximum k :
  provider_ok mbedtls_sha256 -> typed_message m -> admissible m maximum ->
  Z.of_nat (length (wire mbedtls_sha256 m)) <= size_max ->
  (k < length (wire mbedtls_sha256 m))%nat ->
  deserialize_message mbedtls_sha256 (take k (wire mbedtls_sha256 m)) maximum
    = Err TRUNCATED_MESSAGE.
Proof.
  intros Hp Ht Ha Hl Hk. set (bs := wire mbedtls_sha256 m) in *.
  assert (Hb : Forall is_byte (take k bs)).
  { apply Forall_take, Forall_app_2; [by eapply body_bytes|].
    destruct (include_checksum m); [by apply sha256_ok|done]. }
  destruct (decide (deserialize_message mbedtls_sha256 (take k bs) maximum
    = Err TRUNCATED_MESSAGE)) as [|Hne]; [done|exfalso].
  pose proof (deserialize_stable mbedtls_sha256 _ (drop k bs) maximum Hb Hne) as E.
  rewrite take_drop in E.
  pose proof (deserialize_wire mbedtls_sha256 Hp m maximum [] Ht Ha Hl) as W.
  rewrite app_nil_r in W. fold bs in W. rewrite W in E. symmetry in E.
  apply deserialize_canonical in E as (Hn & _); [|done|done|].
  - rewrite length_take in Hn. lia.
  - rewrite length_take. lia.
Qed.

(** ** Properties *)

(** C33. A message is serialised exactly when it is admissible (nonzero
    channel and limit, payload within the limit, valid session and multipart
    headers, header within 65535 bytes). The bytes parse back, whatever
    follows them, to the message sent, with its checksum, and consume exactly
    the bytes written; the session received compares equal to the one sent. *)
Theorem message_round_trip (mbedtls_sha256 : bytes -> option bytes) m maximum :
  provider_ok mbedtls_sha256 -> typed_message m ->
  ((exists bs, serialize_message mbedtls_sha256 m maximum = Ok bs) <-> admissible m maximum) /\
  forall bs rest,
    serialize_message mbedtls_sha256 m maximum = Ok bs -> Z.of_nat (length bs) <= size_max ->
    deserialize_message mbedtls_sha256 (bs ++ rest) maximum =
      Ok (received m (wire_checksum mbedtls_sha256 m), length bs) /\
    match session_id m with
    | Some s => session_eqb (received_session s) s = true
    | None => True
    end.
Proof.
  intros Hp Ht. split.
  - split; [intros [bs H]; by apply serialize_layout in H as [? _]|].
    intros Ha. exists (wire mbedtls_sha256 m). by apply serialize_layout.
  - intros bs rest H Hl. apply serialize_layout in H as [Ha ->]; [|done].
    split; [by apply deserialize_wire|].
    destruct Ht as (_ & _ & Ts & _), Ha as (_ & _ & _ & Hs & _).
    destruct (session_id m); [by apply received_session_eq|done].
Qed.

(** Every accepted input starts with the canonical encoding of the
    message decoded from it: serialising the decoded message again yields
    exactly the consumed bytes, so no two byte strings of the same length
    decode to one message and every field of the wire is validated. *)
Theorem decoded_message_canonical (mbedtls_sha256 : bytes -> option bytes) data maximum d n :
  provider_ok mbedtls_sha256 -> Forall is_byte data -> Z.of_nat (length data) <= size_max ->
  deserialize_message mbedtls_sha256 data maximum = Ok (d, n) ->
  (n <= length data)%nat /\
  serialize_message mbedtls_sha256 (message_of d) maximum = Ok (take n data) /\
  d = received (message_of d) (wire_checksum mbedtls_sha256 (message_of d)).
Proof.
  intros Hp Hb Hl H.
  destruct (deserialize_canonical _ Hp _ _ _ _ Hb Hl H) as (Hn & Ht & Ha & Ew & Ed).
  split_and!; [done| |done]. by apply serialize_layout.
Qed.

(** Truncation is reported exactly: a verdict other than
    [TRUNCATED_MESSAGE] does not change when more bytes arrive, and every
    strict prefix of a serialised message is reported truncated. *)
Theorem truncation_exact (mbedtls_sha256 : bytes -> option bytes) maximum :
  provider_ok mbedtls_sha256 ->
  (forall data more, Forall is_byte data ->
     deserialize_message mbedtls_sha256 data maximum <> Err TRUNCATED_MESSAGE ->
     deserialize_message mbedtls_sha256 (data ++ more) maximum =
     deserialize_message mbedtls_sha256 data maximum) /\
  (forall m bs k, typed_message m -> serialize_message mbedtls_sha256 m maximum = Ok bs ->
     Z.of_nat (length bs) <= size_max -> (k < length bs)%nat ->
     deserialize_message mbedtls_sha256 (take k bs) maximum = Err TRUNCATED_MESSAGE).
Proof.
  intros Hp. split; [intros; by apply deserialize_stable|].
  intros m bs k Ht H Hl Hk. apply serialize_layout in H as [Ha ->]; [|done].
  by apply deserialize_prefix.
Qed.

(** ** Witnesses, at a toy digest that depends on the length of its input *)

Definition toy_sha256 (data : bytes) : option bytes :=
  Some (replicate 32 (wrap 8 (Z.of_nat (length data)))).

Definition sample_message : Message :=
  {| header := {| channel_id := 7; message_id := 9; payload_length := 3 |};
     session_id := Some {| session_length := 2; session_data := [1; 2] ++ replicate 14 0 |};
     timestamp := Some 5; multipart := Some {| total_parts := 3; part_index := 2 |};
     extension := [9]; payload := [1; 2; 3]; include_checksum := true |}.

Definition sample_bytes : bytes :=
  Eval vm_compute in
    match serialize_message toy_sha256 sample_message 100 with Ok bs => bs | Err _ => [] end.

Lemma toy_provider_ok : provider_ok toy_sha256.
Proof.
  intros data d H. injection H as <-. split; [done|].
  apply (Forall_replicate is_byte 32 (wrap 8 (Z.of_nat (length data)))).
  apply wrap_in_width. lia.
Qed.

Lemma sample_typed : typed_message sample_message.
Proof. unfold typed_message. cbn. split_and!; (vm_compute; intuition congruence) || (repeat constructor; done). Qed.

Lemma message_round_trip_witness :
  deserialize_message toy_sha256 (sample_bytes ++ [77]) 100 =
    Ok (received sample_message (wire_checksum toy_sha256 sample_message), length sample_bytes) /\
  True.
Proof.
  destruct (message_round_trip toy_sha256 sample_message 100 toy_provider_ok sample_typed) as [_ H].
  split; [|done]. apply (H sample_bytes [77]); [vm_compute; reflexivity|vm_compute; discriminate].
Defined.

Lemma decoded_message_canonical_witness :
  exists d, deserialize_message toy_sha256 (sample_bytes ++ [77]) 100 = Ok (d, length sample_bytes) /\
    serialize_message toy_sha256 (message_of d) 100 = Ok sample_bytes.
Proof.
  eexists. split; [vm_compute; reflexivity|].
  refine (proj1 (proj2 (decoded_message_canonical toy_sha256 (sample_bytes ++ [77]) 100 _
    (length sample_bytes) toy_provider_ok _ _ _))).
  - by repeat constructor.
  - by vm_compute.
  - vm_compute. reflexivity.
Defined.

Lemma truncation_exact_witness :
  deserialize_message toy_sha256 (take 50 sample_bytes) 100 = Err TRUNCATED_MESSAGE.
Proof.
  destruct (truncation_exact toy_sha256 100 toy_provider_ok) as [_ H].
  apply (H sample_message sample_bytes 50%nat sample_typed);
    [vm_compute; reflexivity|vm_compute; discriminate|vm_compute; lia].
Defined.
