(* ===== verification/MessageRegistry.v ===== *)
(** * Codec registration and dispatch (msgs/codec.hpp, msgs/codec.cpp)

    [MessageCodecCollection]: a registry from message ids to type-erased
    codecs, typed access through a checked down-cast, and the decoding of one
    IPC envelope from a stream. The value types of the program are a universe
    [U] of type tags with decidable equality ([typeid]) and their
    interpretation [denote]; the five message types of msgs/ instantiate it. *)
From S2P Require Import Prelude Bytes Hash256 MsgCodec TerminalMsgs ScreenMsgs.
From S2P Require IpcMessage.
Open Scope Z_scope.

Section Collection.
Context {U : Type} `{EqDecision U} (denote : U -> Type).

(** A [Codec<T>] behind a [CodecBase] pointer. *)
Record CodecBase := {
  value_type : U;
  typed_codec : PayloadCodec (denote value_type);
}.

Definition codec_message_id (c : CodecBase) : Z := @message_id _ (typed_codec c).

Definition erased_decode_to_json (c : CodecBase) (payload : bytes) : Status * bytes :=
  @decode_to_json _ (typed_codec c) payload.

Record MessageCodecCollection := {
  maximum_payload_bytes : Z;
  codecs : gmap Z CodecBase;
}.

(** The constructor: only the codec of the empty message, [null_codec]. *)
Definition new_collection (null_codec : CodecBase) (maximum : Z) : MessageCodecCollection :=
  {| maximum_payload_bytes := maximum;
     codecs := {[ codec_message_id null_codec := null_codec ]} |}.

(** [None] stands for a null pointer. *)
Definition register_codec (codec : option CodecBase) (collection : MessageCodecCollection)
  : Status * MessageCodecCollection :=
  match codec with
  | None => (INVALID_ARGUMENT, collection)
  | Some codec =>
      let id := codec_message_id codec in
      if bool_decide (is_Some (codecs collection !! id)) then (DUPLICATE_MESSAGE_ID, collection)
      else (OK, {| maximum_payload_bytes := maximum_payload_bytes collection;
                   codecs := <[id := codec]> (codecs collection) |})
  end.

Definition collection_size (collection : MessageCodecCollection) : nat :=
  size (codecs collection).

Definition find_codec (collection : MessageCodecCollection) (id : Z) : option CodecBase :=
  codecs collection !! id.

(** [dynamic_cast<const Codec<T>*>] *)
Definition dynamic_codec_cast (T : U) (erased : CodecBase) : option (PayloadCodec (denote T)) :=
  match decide (value_type erased = T) with
  | left e => Some (eq_rect _ (fun T => PayloadCodec (denote T)) (typed_codec erased) _ e)
  | right _ => None
  end.

Definition get_codec (T : U) (collection : MessageCodecCollection) (id : Z)
  : result Status (PayloadCodec (denote T)) :=
  match find_codec collection id with
  | None => Err MESSAGE_ID_NOT_FOUND
  | Some erased =>
      match dynamic_codec_cast T erased with
      | None => Err CODEC_TYPE_MISMATCH
      | Some codec => Ok codec
      end
  end.

(** [serialize<T>]: the status and the output bytes. *)
Definition serialize_by_id (T : U) (collection : MessageCodecCollection) (id : Z)
    (object : denote T) : Status * bytes :=
  match get_codec T collection id with
  | Ok codec => @serialize _ codec object
  | Err status => (status, [])
  end.

(** [deserialize<T>]; [initial] is [T{}]. *)
Definition deserialize_by_id (T : U) (initial : denote T) (collection : MessageCodecCollection)
    (id : Z) (payload : bytes) : Status * denote T :=
  match get_codec T collection id with
  | Ok codec => @deserialize _ codec payload
  | Err status => (status, initial)
  end.

Definition decode_payload_to_json (collection : MessageCodecCollection) (id : Z)
    (payload : bytes) : Status * bytes :=
  match find_codec collection id with
  | None => (MESSAGE_ID_NOT_FOUND, [])
  | Some codec =>
      let (status, output) := erased_decode_to_json codec payload in
      if bool_decide (status = OK) then (status, output) else (status, [])
  end.

Section Envelope.
Variable mbedtls_sha256 : bytes -> option bytes.

(** [decode_to_json]: the status, the advanced [data] and the output. *)
Definition decode_envelope (collection : MessageCodecCollection) (data : bytes)
  : Status * bytes * bytes :=
  match IpcMessage.deserialize_message mbedtls_sha256 data
          (maximum_payload_bytes collection) with
  | Err wire_status =>
      if bool_decide (wire_status = IpcMessage.TRUNCATED_MESSAGE)
      then (INCOMPLETE_IPC_MESSAGE, data, [])
      else (INVALID_IPC_MESSAGE, data, [])
  | Ok (message, consumed_bytes) =>
      let (status, output) :=
        decode_payload_to_json collection
          (IpcMessage.message_id (IpcMessage.d_header message))
          (IpcMessage.d_payload message) in
      if bool_decide (status = OK) then (OK, drop consumed_bytes data, output)
      else (status, data, output)
  end.
End Envelope.

(** ** Invariant *)

(** Every codec is filed under its own id. *)
Definition collection_wf (collection : MessageCodecCollection) : Prop :=
  forall id c, codecs collection !! id = Some c -> codec_message_id c = id.

(** Collections that construction and registrations can produce. *)
Inductive reachable (null_codec : CodecBase) (maximum : Z) : MessageCodecCollection -> Prop :=
| reachable_new : reachable null_codec maximum (new_collection null_codec maximum)
| reachable_register collection codec :
    reachable null_codec maximum collection ->
    reachable null_codec maximum (snd (register_codec codec collection)).

Lemma register_codec_lookup codec collection id :
  codecs (snd (register_codec codec collection)) !! id =
  match codecs collection !! id with
  | Some c => Some c
  | None =>
      match codec with
      | Some c => if decide (codec_message_id c = id) then Some c else None
      | None => None
      end
  end.
Proof.
  unfold register_codec. destruct codec as [c|]; [|simpl; by destruct (codecs collection !! id)].
  case_bool_decide as Hd; cbn [snd codecs].
  - destruct (codecs collection !! id) eqn:E; [done|]. rewrite decide_False; [done|].
    intros <-. rewrite E in Hd. by apply is_Some_None in Hd.
  - apply eq_None_not_Some in Hd. destruct (decide (codec_message_id c = id)) as [<-|Hne].
    + by rewrite lookup_insert_eq, Hd.
    + rewrite lookup_insert_ne by done. by destruct (codecs collection !! id).
Qed.

Lemma reachable_wf null_codec maximum collection :
  reachable null_codec maximum collection -> collection_wf collection.
Proof.
  induction 1 as [|collection codec H IH]; intros id c.
  - unfold new_collection. cbn [codecs]. intros [<- <-]%lookup_singleton_Some. done.
  - rewrite register_codec_lookup.
    destruct (codecs collection !! id) as [c'|] eqn:E.
    + intros [= <-]. by apply IH.
    + destruct codec as [c'|]; [|done]. case_decide; [|done]. by intros [= <-].
Qed.

Lemma dynamic_codec_cast_same (T : U) (codec : PayloadCodec (denote T)) :
  dynamic_codec_cast T {| value_type := T; typed_codec := codec |} = Some codec.
Proof.
  unfold dynamic_codec_cast. cbn [value_type typed_codec].
  destruct (decide (T = T)) as [e|]; [|done]. f_equal.
  rewrite (Eqdep_dec.UIP_dec (fun x y => decide (x = y)) e eq_refl). done.
Qed.
End Collection.
Arguments CodecBase {U} denote.
Arguments MessageCodecCollection {U} denote.

(** ** The message types of msgs/ *)

(** The five value types the codecs of msgs/ own. *)
Inductive ValueType :=
| NullMessageType
| ScreenCommandType
| ScreenResizeEventType
| CmdFrameNotificationType
| TerminalInputEventType.

#[global] Instance ValueType_eq_dec : EqDecision ValueType.
Proof. solve_decision. Defined.

Definition denote_value (t : ValueType) : Type :=
  match t with
  | NullMessageType => NullMessage
  | ScreenCommandType => ScreenCommand
  | ScreenResizeEventType => ScreenResizeEvent
  | CmdFrameNotificationType => CmdFrameNotification
  | TerminalInputEventType => TerminalInputEvent
  end.

Abbreviation Codecs := (MessageCodecCollection denote_value).

Definition null_codec : CodecBase denote_value :=
  {| value_type := NullMessageType; typed_codec := NullMessageCodec |}.
Definition screen_command_codec : CodecBase denote_value :=
  {| value_type := ScreenCommandType; typed_codec := ScreenCommandCodec |}.
Definition screen_resize_codec : CodecBase denote_value :=
  {| value_type := ScreenResizeEventType; typed_codec := ScreenResizeEventCodec |}.
Definition notification_codec : CodecBase denote_value :=
  {| value_type := CmdFrameNotificationType; typed_codec := CmdFrameNotificationCodec |}.
Definition terminal_codec : CodecBase denote_value :=
  {| value_type := TerminalInputEventType; typed_codec := TerminalInputEventCodec |}.

(** [register_terminal_codecs] *)
Definition register_terminal_codecs (codecs : Codecs) : Status * Codecs :=
  register_codec denote_value (Some terminal_codec) codecs.

(** [register_screen_codecs]: the second codec only after the first. *)
Definition register_screen_codecs (codecs : Codecs) : Status * Codecs :=
  let (status, codecs) := register_codec denote_value (Some screen_command_codec) codecs in
  if negb (bool_decide (status = OK)) then (status, codecs)
  else register_codec denote_value (Some screen_resize_codec) codecs.

(** [register_cmdframe_codecs] *)
Definition register_cmdframe_codecs (codecs : Codecs) : Status * Codecs :=
  register_codec denote_value (Some notification_codec) codecs.

(** ** Properties *)

(** The schema of each message type: the values its codec encodes. *)
Definition value_schema (t : ValueType) : denote_value t -> Prop :=
  match t with
  | NullMessageType => null_schema
  | ScreenCommandType => screen_command_schema
  | ScreenResizeEventType => resize_schema
  | CmdFrameNotificationType => notification_schema
  | TerminalInputEventType => event_schema
  end.

Definition value_codec (t : ValueType) : PayloadCodec (denote_value t) :=
  match t with
  | NullMessageType => NullMessageCodec
  | ScreenCommandType => ScreenCommandCodec
  | ScreenResizeEventType => ScreenResizeEventCodec
  | CmdFrameNotificationType => CmdFrameNotificationCodec
  | TerminalInputEventType => TerminalInputEventCodec
  end.

Lemma value_codec_laws t : @PayloadCodecLaws _ (value_codec t) (value_schema t).
Proof. destruct t; apply _. Qed.

(** Each of the five payload codecs is a bijection between its schema and the
    payloads it accepts: every schema value encodes to bytes that decode back
    to it, and every accepted byte string is the encoding of the value it
    decodes to, so trailing, truncated and non-canonical payloads are rejected. *)
Theorem message_codecs_lawful (t : ValueType) :
  (forall object, value_schema t object ->
     exists payload, @encode_payload _ (value_codec t) object = Ok payload /\
       Forall is_byte payload /\ @decode_payload _ (value_codec t) payload = Ok object) /\
  (forall payload object, Forall is_byte payload ->
     @decode_payload _ (value_codec t) payload = Ok object ->
     value_schema t object /\ @encode_payload _ (value_codec t) object = Ok payload).
Proof.
  pose proof (value_codec_laws t) as Hlaws. split.
  - intros object Hs. destruct (@encode_total _ _ _ Hlaws object Hs) as [payload He].
    exists payload. split_and!; [done|exact (@encode_are_bytes _ _ _ Hlaws _ _ Hs He)|].
    exact (@decode_encode _ _ _ Hlaws _ _ Hs He).
  - intros payload object. exact (@encode_decode _ _ _ Hlaws object payload).
Qed.

(** In every collection that construction and registrations produce, each
    codec is stored under its own message id; registering never replaces or
    removes a codec, adds exactly one when it reports success, and rejects null
    and duplicate codecs without changing the collection. *)
Theorem registration_is_monotone {U : Type} `{EqDecision U} (denote : U -> Type)
    (null_codec : CodecBase denote) maximum (collection : MessageCodecCollection denote) codec :
  reachable denote null_codec maximum collection ->
  collection_wf denote collection /\
  find_codec denote collection (codec_message_id denote null_codec) = Some null_codec /\
  match register_codec denote codec collection with
  | (status, after) =>
      (forall id c, find_codec denote collection id = Some c -> find_codec denote after id = Some c) /\
      match codec with
      | None => status = INVALID_ARGUMENT /\ after = collection
      | Some c =>
          match find_codec denote collection (codec_message_id denote c) with
          | Some _ => status = DUPLICATE_MESSAGE_ID /\ after = collection
          | None =>
              status = OK /\ find_codec denote after (codec_message_id denote c) = Some c /\
              collection_size denote after = S (collection_size denote collection)
          end
      end
  end.
Proof.
  intros Hr. split; [by eapply reachable_wf|]. split.
  { unfold find_codec. induction Hr as [|collection c Hr IH].
    - apply lookup_singleton_eq.
    - by rewrite register_codec_lookup, IH. }
  destruct (register_codec denote codec collection) as [status after] eqn:E.
  assert (Ea : after = snd (register_codec denote codec collection)) by (by rewrite E).
  split.
  { intros id c Hc. unfold find_codec in *. by rewrite Ea, register_codec_lookup, Hc. }
  unfold register_codec in E. destruct codec as [c|]; [|by injection E as <- <-].
  unfold find_codec. case_bool_decide as Hd.
  - injection E as <- <-. by destruct Hd as [c' ->].
  - injection E as <- <-. apply eq_None_not_Some in Hd. rewrite Hd. cbn [codecs].
    split_and!; [done|apply lookup_insert_eq|]. unfold collection_size. cbn [codecs].
    by rewrite map_size_insert_None.
Qed.

(** Typed dispatch through the registry: a schema value serialised under a
    registered id reads back equal through the same id, and its JSON dispatch
    formats that value; asking for another type reports [CODEC_TYPE_MISMATCH]
    and an unknown id [MESSAGE_ID_NOT_FOUND], both with an empty output. *)
Theorem typed_dispatch_round_trip {U : Type} `{EqDecision U} (denote : U -> Type)
    (collection : MessageCodecCollection denote) id (T : U)
    (codec : PayloadCodec (denote T)) (schema : denote T -> Prop) (object : denote T) :
  PayloadCodecLaws (denote T) schema -> schema object ->
  find_codec denote collection id = Some {| value_type := T; typed_codec := codec |} ->
  (exists payload,
    serialize_by_id denote T collection id object = (OK, payload) /\
    (forall initial, deserialize_by_id denote T initial collection id payload = (OK, object)) /\
    decode_payload_to_json denote collection id payload = (OK, format_json object)) /\
  (forall (T' : U) (other : denote T') payload, T' <> T ->
    serialize_by_id denote T' collection id other = (CODEC_TYPE_MISMATCH, []) /\
    deserialize_by_id denote T' other collection id payload = (CODEC_TYPE_MISMATCH, other)) /\
  (forall id' payload, find_codec denote collection id' = None ->
    serialize_by_id denote T collection id' object = (MESSAGE_ID_NOT_FOUND, []) /\
    deserialize_by_id denote T object collection id' payload = (MESSAGE_ID_NOT_FOUND, object) /\
    decode_payload_to_json denote collection id' payload = (MESSAGE_ID_NOT_FOUND, [])).
Proof.
  intros Hlaws Hs Hf. split_and!.
  - destruct (serialize_deserialize object Hs) as (payload & E1 & E2 & E3).
    exists payload. unfold serialize_by_id, deserialize_by_id, get_codec, decode_payload_to_json,
      erased_decode_to_json. rewrite Hf, dynamic_codec_cast_same.
    split_and!; [done|done|]. cbn [typed_codec value_type]. by rewrite E3.
  - intros T' other payload Hne.
    unfold serialize_by_id, deserialize_by_id, get_codec, dynamic_codec_cast. rewrite Hf.
    cbn [value_type]. destruct (decide (T = T')); [congruence|done].
  - intros id' payload Hn.
    unfold serialize_by_id, deserialize_by_id, get_codec, decode_payload_to_json. by rewrite Hn.
Qed.

(** Reading a stream of envelopes. A typed value sent in an envelope is
    decoded to its JSON and [data] advances by exactly that envelope, whatever
    follows; every failure leaves [data] unchanged and the output empty; a
    strict prefix of an envelope reports [INCOMPLETE_IPC_MESSAGE]. *)
Theorem envelope_dispatch {U : Type} `{EqDecision U} (denote : U -> Type)
    (mbedtls_sha256 : bytes -> option bytes) (collection : MessageCodecCollection denote) :
  provider_ok mbedtls_sha256 ->
  (forall data status data' output,
     decode_envelope denote mbedtls_sha256 collection data = (status, data', output) ->
     if decide (status = OK)
     then exists message consumed,
       IpcMessage.deserialize_message mbedtls_sha256 data (maximum_payload_bytes denote collection)
         = Ok (message, consumed) /\ data' = drop consumed data
     else data' = data /\ output = []) /\
  (forall (T : U) (codec : PayloadCodec (denote T)) (schema : denote T -> Prop) object m env rest,
     PayloadCodecLaws (denote T) schema -> schema object ->
     find_codec denote collection (IpcMessage.message_id (IpcMessage.header m))
       = Some {| value_type := T; typed_codec := codec |} ->
     encode_payload object = Ok (IpcMessage.payload m) -> IpcMessage.typed_message m ->
     IpcMessage.serialize_message mbedtls_sha256 m (maximum_payload_bytes denote collection)
       = Ok env -> Z.of_nat (length env) <= size_max ->
     decode_envelope denote mbedtls_sha256 collection (env ++ rest)
       = (OK, rest, format_json object) /\
     forall k, (k < length env)%nat ->
       decode_envelope denote mbedtls_sha256 collection (take k env)
         = (INCOMPLETE_IPC_MESSAGE, take k env, [])).
Proof.
  intros Hp. split.
  - intros data status data' output. unfold decode_envelope.
    destruct (IpcMessage.deserialize_message _ _ _) as [[message consumed]|wire_status].
    + destruct (decode_payload_to_json _ _ _ _) as [s o] eqn:E.
      case_bool_decide as Hs.
      * intros [= <- <- <-]. rewrite decide_True by done. by do 2 eexists.
      * intros [= <- <- <-]. rewrite decide_False by done. split; [done|].
        unfold decode_payload_to_json in E. destruct (find_codec _ _ _) as [c|]; [|by injection E as _ <-].
        destruct (erased_decode_to_json _ _ _) as [s' o']. case_bool_decide; by injection E as <- <-.
    + case_bool_decide; intros [= <- <- <-]; by rewrite decide_False.
  - intros T codec schema object m env rest Hlaws Hs Hf He Ht Hser Hl.
    apply IpcMessage.serialize_layout in Hser as [Ha ->]; [|done]. split.
    + unfold decode_envelope. rewrite IpcMessage.deserialize_wire by done.
      cbn [IpcMessage.received IpcMessage.d_header IpcMessage.d_payload IpcMessage.message_id].
      unfold decode_payload_to_json, erased_decode_to_json. rewrite Hf. cbn [typed_codec value_type].
      unfold decode_to_json, deserialize.
      rewrite (decode_encode object (IpcMessage.payload m) Hs He). cbn.
      by rewrite drop_app_length.
    + intros k Hk. unfold decode_envelope. rewrite IpcMessage.deserialize_prefix by done. done.
Qed.

(** ** Witnesses, in the collection the program builds at start-up *)

Definition all_codecs : Codecs :=
  snd (register_terminal_codecs (snd (register_cmdframe_codecs (snd (register_screen_codecs
    (new_collection denote_value null_codec 4096)))))).

Definition sample_resize : ScreenResizeEvent :=
  {| width := 80; height := 24; pixel_width := 0; pixel_height := 0 |}.

Example all_codecs_registered :
  collection_size denote_value all_codecs = 5%nat /\
  fst (register_screen_codecs all_codecs) = DUPLICATE_MESSAGE_ID.
Proof. by vm_compute. Qed.

Lemma registration_is_monotone_witness :
  collection_size denote_value
    (snd (register_codec denote_value (Some terminal_codec) (new_collection denote_value null_codec 9)))
  = 2%nat.
Proof.
  exact (proj2 (proj2 (proj2 (proj2 (proj2 (registration_is_monotone denote_value null_codec 9
    (new_collection denote_value null_codec 9) (Some terminal_codec)
    (reachable_new denote_value null_codec 9))))))).
Defined.

Lemma typed_dispatch_round_trip_witness :
  exists payload,
    serialize_by_id denote_value ScreenResizeEventType all_codecs 2 sample_resize = (OK, payload).
Proof.
  destruct (typed_dispatch_round_trip denote_value all_codecs 2 ScreenResizeEventType
    ScreenResizeEventCodec resize_schema sample_resize ScreenResizeEventCodec_laws) as [H _].
  - vm_compute. intuition congruence.
  - reflexivity.
  - destruct H as (payload & H & _). exists payload. exact H.
Defined.

Definition resize_envelope_message : IpcMessage.Message :=
  {| IpcMessage.header :=
       {| IpcMessage.channel_id := 1; IpcMessage.message_id := 2; IpcMessage.payload_length := 0 |};
     IpcMessage.session_id := None; IpcMessage.timestamp := None; IpcMessage.multipart := None;
     IpcMessage.extension := [];
     IpcMessage.payload :=
       match encode_resize sample_resize with Ok p => p | Err _ => [] end;
     IpcMessage.include_checksum := false |}.

Definition resize_envelope : bytes :=
  Eval vm_compute in
    match IpcMessage.serialize_message IpcMessage.toy_sha256 resize_envelope_message 4096 with
    | Ok bs => bs
    | Err _ => []
    end.

Lemma envelope_dispatch_witness :
  decode_envelope denote_value IpcMessage.toy_sha256 all_codecs (resize_envelope ++ [1; 2])
    = (OK, [1; 2], format_json sample_resize).
Proof.
  refine (proj1 (proj2 (envelope_dispatch denote_value IpcMessage.toy_sha256 all_codecs
    IpcMessage.toy_provider_ok) ScreenResizeEventType ScreenResizeEventCodec resize_schema
    sample_resize resize_envelope_message resize_envelope [1; 2] ScreenResizeEventCodec_laws
    _ _ _ _ _ _)).
  - vm_compute. intuition congruence.
  - reflexivity.
  - vm_compute. reflexivity.
  - unfold IpcMessage.typed_message. cbn. split_and!; try done; by repeat constructor.
  - vm_compute. reflexivity.
  - vm_compute. discriminate.
Defined.
