(* ===== verification/Channel.v ===== *)
(** * Channels (utils/ipc/channel.hpp, utils/ipc/channel.cpp)

    Channel names, subscriptions with immutable snapshots, and the bounded
    asynchronous delivery queue.  Each locked section is a function of the
    channel; a world adds the delivery jobs of the worker pool, the callbacks in
    progress and the log, and a choice picks the next section or callback.
    Concrete transports only call [deliver]. *)
From S2P Require Import Prelude Bytes Text IpcMessage.
Open Scope Z_scope.

(** ** Names *)

Definition kMaximumChannelNameBytes : nat := 255.

Definition valid_segment_byte (byte : Z) : bool :=
  ((97 <=? byte) && (byte <=? 122)) || ((65 <=? byte) && (byte <=? 90)) || ((48 <=? byte) && (byte <=? 57))
  || (byte =? 95) || (byte =? 45) || (byte =? 46).

(** [name.find('/', segment_start)]: the segment and what follows its separator. *)
Fixpoint next_segment (name : bytes) : bytes * option bytes :=
  match name with
  | [] => ([], None)
  | byte :: rest =>
      if byte =? 47 then ([], Some rest)
      else let '(segment, following) := next_segment rest in (byte :: segment, following)
  end.

(** The loop over the segments; [fuel] bounds their number. *)
Fixpoint valid_segments (fuel : nat) (name : bytes) : bool :=
  match fuel with
  | O => false
  | S fuel =>
      match name with
      | [] => false
      | _ =>
          let '(segment, following) := next_segment name in
          if bool_decide (segment = []) || bool_decide (segment = [46]) || bool_decide (segment = [46; 46]) then false
          else if negb (forallb valid_segment_byte segment) then false
          else match following with None => true | Some rest => valid_segments fuel rest end
      end
  end.

Definition valid_channel_name (name : bytes) : bool :=
  if (length name <=? 2)%nat || (kMaximumChannelNameBytes <? length name)%nat
     || negb (bool_decide (take 2 name = [47; 47])) || bool_decide (last name = Some 47)
  then false
  else valid_segments (length name) (drop 2 name).

(** ** Channels *)

(** [SubscriptionState] without its callback, which its identifier names; the
    states are shared between snapshots and the subscription handles. *)
Record ChannelImpl := {
  channel_name : bytes;
  maximum_depth : option nat;
  channel_status : Status;
  active_states : gmap Z bool;
  subscribers : list Z;
  next_subscription_id : Z;
  pending : list bytes;
  delivery_workers : bool;
  delivery_attached : bool;
  delivery_scheduled : bool;
  destroying : bool;
  dropped_count : Z;
}.

Definition with_delivery (c : ChannelImpl) (pending : list bytes) (workers attached scheduled destroying : bool) (dropped : Z) : ChannelImpl :=
  {| channel_name := channel_name c; maximum_depth := maximum_depth c; channel_status := channel_status c;
     active_states := active_states c; subscribers := subscribers c; next_subscription_id := next_subscription_id c;
     pending := pending; delivery_workers := workers; delivery_attached := attached;
     delivery_scheduled := scheduled; destroying := destroying; dropped_count := dropped |}.

Definition with_subscribers (c : ChannelImpl) (states : gmap Z bool) (snapshot : list Z) (next : Z) : ChannelImpl :=
  {| channel_name := channel_name c; maximum_depth := maximum_depth c; channel_status := channel_status c;
     active_states := states; subscribers := snapshot; next_subscription_id := next;
     pending := pending c; delivery_workers := delivery_workers c; delivery_attached := delivery_attached c;
     delivery_scheduled := delivery_scheduled c; destroying := destroying c; dropped_count := dropped_count c |}.

(** The constructor. *)
Definition new_channel (name : bytes) (depth : option nat) : ChannelImpl :=
  {| channel_name := name; maximum_depth := depth;
     channel_status :=
       if negb (valid_channel_name name) then INVALID_CHANNEL_NAME
       else if bool_decide (depth = Some 0%nat) then INVALID_ARGUMENT
       else OK;
     active_states := ∅; subscribers := []; next_subscription_id := 1;
     pending := []; delivery_workers := false; delivery_attached := false; delivery_scheduled := false;
     destroying := false; dropped_count := 0 |}.

(** Whether delivery may invoke a subscriber. *)
Definition is_active (c : ChannelImpl) (subscriber : Z) : bool := default false (active_states c !! subscriber).

Definition subscribe (c : ChannelImpl) (has_callback : bool) : ChannelImpl * result Status Z :=
  if negb (bool_decide (channel_status c = OK)) then (c, Err (channel_status c))
  else if negb has_callback then (c, Err INVALID_ARGUMENT)
  else if next_subscription_id c =? 0 then (c, Err IDENTIFIER_EXHAUSTED)
  else
    let id := next_subscription_id c in
    (with_subscribers c (<[id := true]> (active_states c)) (List.filter (is_active c) (subscribers c) ++ [id]) (wrap 64 (id + 1)),
     Ok id).

(** [Subscription::reset] of the handle of a subscriber. *)
Definition reset_subscription (c : ChannelImpl) (subscriber : Z) : ChannelImpl :=
  with_subscribers c (<[subscriber := false]> (active_states c)) (subscribers c) (next_subscription_id c).

(** A successful subscription replaces, and so resets, the one of its handle. *)
Definition subscribe_handle (c : ChannelImpl) (has_callback : bool) (handle : option Z) : ChannelImpl * result Status Z :=
  match subscribe c has_callback with
  | (c, Ok id) => (match handle with Some previous => reset_subscription c previous | None => c end, Ok id)
  | other => other
  end.

Definition set_status (c : ChannelImpl) (status : Status) : ChannelImpl :=
  {| channel_name := channel_name c; maximum_depth := maximum_depth c; channel_status := status;
     active_states := active_states c; subscribers := subscribers c; next_subscription_id := next_subscription_id c;
     pending := pending c; delivery_workers := delivery_workers c; delivery_attached := delivery_attached c;
     delivery_scheduled := delivery_scheduled c; destroying := destroying c; dropped_count := dropped_count c |}.

Definition subscriber_count (c : ChannelImpl) : nat := length (List.filter (is_active c) (subscribers c)).

Definition pending_messages (c : ChannelImpl) : nat := length (pending c).

(** ** The sections of bounded delivery *)

(** [attach_delivery]; the argument is [workers.active()]. *)
Definition attach_delivery (c : ChannelImpl) (pool_active : bool) : ChannelImpl * Status :=
  match maximum_depth c with
  | None => (c, OK)
  | Some _ =>
      if negb pool_active then (c, INVALID_ARGUMENT)
      else if destroying c || delivery_attached c then (c, INVALID_ARGUMENT)
      else (with_delivery c (pending c) true true (delivery_scheduled c) (destroying c) (dropped_count c), OK)
  end.

(** The locked section of [enqueue]: the call fails after clearing some messages,
    returns, or goes on to schedule a job. *)
Inductive Enqueued := Refused (cleared : list bytes) | Retained | MustSchedule.

(** The channel, the outcome and the message evicted. *)
Definition enqueue_locked (c : ChannelImpl) (data : bytes) : ChannelImpl * Enqueued * option bytes :=
  if destroying c || negb (delivery_attached c) then (c, Refused [], None)
  else
    let full := bool_decide (Some (length (pending c)) = maximum_depth c) in
    let evicted := if full then head (pending c) else None in
    let kept := if full then tail (pending c) else pending c in
    let dropped := if full then wrap 64 (dropped_count c + 1) else dropped_count c in
    if delivery_scheduled c then
      (with_delivery c (kept ++ [data]) (delivery_workers c) true true (destroying c) dropped, Retained, evicted)
    else if delivery_workers c then
      (with_delivery c (kept ++ [data]) true true true (destroying c) dropped, MustSchedule, evicted)
    else (with_delivery c [] false true false (destroying c) dropped, Refused kept, evicted).

(** The first section of [deliver_one]: the message taken, if any. *)
Definition take_message (c : ChannelImpl) : ChannelImpl * option bytes :=
  match pending c with
  | message :: rest =>
      if destroying c || negb (delivery_attached c) then
        (with_delivery c (pending c) (delivery_workers c) (delivery_attached c) false (destroying c) (dropped_count c), None)
      else
        (with_delivery c rest (delivery_workers c) (delivery_attached c) (delivery_scheduled c) (destroying c) (dropped_count c),
         Some message)
  | [] => (with_delivery c [] (delivery_workers c) (delivery_attached c) false (destroying c) (dropped_count c), None)
  end.

(** The second section of [deliver_one]: whether a successor job is needed. *)
Definition finish_message (c : ChannelImpl) : ChannelImpl * bool :=
  if destroying c || negb (delivery_attached c) || bool_decide (pending c = []) then
    (with_delivery c (pending c) (delivery_workers c) (delivery_attached c) false (destroying c) (dropped_count c), false)
  else if negb (delivery_workers c) then
    (with_delivery c [] false (delivery_attached c) false (destroying c) (dropped_count c), false)
  else (c, true).

(** The part of [detach_delivery] and [stop_delivery] before their wait. *)
Definition detach_locked (c : ChannelImpl) (stop : bool) : ChannelImpl :=
  with_delivery c [] false false (delivery_scheduled c) (stop || destroying c) (dropped_count c).

Definition fail_scheduled_delivery (c : ChannelImpl) : ChannelImpl :=
  with_delivery c [] (delivery_workers c) (delivery_attached c) false (destroying c) (dropped_count c).

(** ** Worlds *)

(** A delivery job or the thread about to queue one: calling [add_urgent],
    rejected by the pool, queued in it, or delivering a message to the remaining
    subscribers of the snapshot. *)
Inductive Phase := Adding | Rejected | Queued | Delivering (message : bytes) (remaining : list Z).

Inductive Event :=
| Accepted (message : bytes)
| Evicted (message : bytes)
| Taken (message : bytes)
| Invoked (subscriber : Z) (message : bytes)
| Discarded (messages : list bytes)
| Detached.

(** A job copies the snapshot of the subscribers in the step that takes its
    message: the subscriptions and the queue have locks of their own and do not
    read each other, so a subscription in between could as well come first.
    [lost] records that the pool dropped a queued job when it shut down, and
    [waiting] counts the threads that wait in detach or stop; synchronous
    deliveries run in [callers]. *)
Record World := {
  channel : ChannelImpl;
  phases : list Phase;
  callers : list (bytes * list Z);
  waiting : nat;
  lost : bool;
  log : list Event;
}.

Definition new_world (name : bytes) (depth : option nat) : World :=
  {| channel := new_channel name depth; phases := []; callers := []; waiting := 0; lost := false; log := [] |}.

Inductive Choice :=
| Deliver (data : bytes)
| PoolAccepts (job : nat)
| PoolRejects (job : nat)
| FailScheduled (job : nat)
| PoolDiscards (job : nat)
| Take (job : nat)
| Invoke (job : nat)
| Finish (job : nat)
| CallNext (caller : nat)
| CallDone (caller : nat)
| Attach (pool_active : bool)
| Detach (stop reentrant : bool)
| WaitOver
| Subscribe (has_callback : bool) (handle : option Z)
| SetStatus (status : Status)
| Reset (subscriber : Z).

Definition update (w : World) (c : ChannelImpl) (p : list Phase) (events : list Event) : World :=
  {| channel := c; phases := p; callers := callers w; waiting := waiting w; lost := lost w; log := log w ++ events |}.

Definition without {A} (i : nat) (l : list A) : list A := take i l ++ drop (S i) l.

Definition evictions (evicted : option bytes) : list Event :=
  match evicted with Some message => [Evicted message] | None => [] end.

Definition discards (messages : list bytes) : list Event :=
  match messages with [] => [] | _ => [Discarded messages] end.

(** A call of one subscriber, skipped when it was reset. *)
Definition invocation (c : ChannelImpl) (subscriber : Z) (message : bytes) : list Event :=
  if is_active c subscriber then [Invoked subscriber message] else [].

(** [deliver]: a synchronous call, or the locked section of [enqueue]. *)
Definition deliver (w : World) (data : bytes) : World :=
  let c := channel w in
  match maximum_depth c with
  | None =>
      {| channel := c; phases := phases w; callers := callers w ++ [(data, subscribers c)]; waiting := waiting w;
         lost := lost w; log := log w |}
  | Some _ =>
      let '(c', outcome, evicted) := enqueue_locked c data in
      match outcome with
      | Refused cleared => update w c' (phases w) (evictions evicted ++ discards cleared)
      | Retained => update w c' (phases w) (evictions evicted ++ [Accepted data])
      | MustSchedule => update w c' (phases w ++ [Adding]) (evictions evicted ++ [Accepted data])
      end
  end.

Definition world_step (w : World) (choice : Choice) : option World :=
  let c := channel w in
  match choice with
  | Deliver data => Some (deliver w data)
  | PoolAccepts i =>
      match phases w !! i with
      | Some Adding => Some (update w c (<[i := Queued]> (phases w)) [])
      | _ => None
      end
  | PoolRejects i =>
      match phases w !! i with
      | Some Adding => Some (update w c (<[i := Rejected]> (phases w)) [])
      | _ => None
      end
  | FailScheduled i =>
      match phases w !! i with
      | Some Rejected => Some (update w (fail_scheduled_delivery c) (without i (phases w)) (discards (pending c)))
      | _ => None
      end
  | PoolDiscards i =>
      match phases w !! i with
      | Some Queued =>
          Some {| channel := c; phases := without i (phases w); callers := callers w; waiting := waiting w;
                  lost := true; log := log w |}
      | _ => None
      end
  | Take i =>
      match phases w !! i with
      | Some Queued =>
          match take_message c with
          | (c, Some message) => Some (update w c (<[i := Delivering message (subscribers c)]> (phases w)) [Taken message])
          | (c, None) => Some (update w c (without i (phases w)) [])
          end
      | _ => None
      end
  | Invoke i =>
      match phases w !! i with
      | Some (Delivering message (subscriber :: remaining)) =>
          Some (update w c (<[i := Delivering message remaining]> (phases w)) (invocation c subscriber message))
      | _ => None
      end
  | Finish i =>
      match phases w !! i with
      | Some (Delivering _ []) =>
          match finish_message c with
          | (c', true) => Some (update w c' (<[i := Adding]> (phases w)) [])
          | (c', false) =>
              Some (update w c' (without i (phases w))
                (discards (if destroying c || negb (delivery_attached c) then [] else pending c)))
          end
      | _ => None
      end
  | CallNext i =>
      match callers w !! i with
      | Some (message, subscriber :: remaining) =>
          Some {| channel := c; phases := phases w; callers := <[i := (message, remaining)]> (callers w);
                  waiting := waiting w; lost := lost w; log := log w ++ invocation c subscriber message |}
      | _ => None
      end
  | CallDone i =>
      match callers w !! i with
      | Some (_, []) =>
          Some {| channel := c; phases := phases w; callers := without i (callers w);
                  waiting := waiting w; lost := lost w; log := log w |}
      | _ => None
      end
  | Attach pool_active =>
      if bool_decide (channel_status c = OK) then Some (update w (fst (attach_delivery c pool_active)) (phases w) []) else None
  | Detach stop reentrant =>
      match maximum_depth c with
      | None => Some w
      | Some _ =>
          if reentrant && negb (existsb (fun p => match p with Delivering _ _ => true | _ => false end) (phases w)) then None
          else
            Some {| channel := detach_locked c stop; phases := phases w; callers := callers w;
                    waiting := (if reentrant then waiting w else S (waiting w)); lost := lost w;
                    log := log w ++ discards (pending c) |}
      end
  | WaitOver =>
      match waiting w with
      | S n =>
          if delivery_scheduled c then None
          else Some {| channel := c; phases := phases w; callers := callers w; waiting := n; lost := lost w;
                       log := log w ++ [Detached] |}
      | O => None
      end
  | Subscribe has_callback handle => Some (update w (fst (subscribe_handle c has_callback handle)) (phases w) [])
  | SetStatus status => Some (update w (set_status c status) (phases w) [])
  | Reset subscriber => Some (update w (reset_subscription c subscriber) (phases w) [])
  end.

(** A directory attaches only channels whose status is OK.  Choices that are
    not enabled are skipped. *)
Definition run_world (w : World) (choices : list Choice) : World :=
  fold_left (fun w choice => default w (world_step w choice)) choices w.
