(* ===== verification/ChannelProps.v ===== *)
(** * Runs of a channel

    The invariant of bounded delivery under every interleaving: one delivery job
    at most, a bounded queue, and an account of every accepted message. *)
From S2P Require Import Prelude Bytes Text IpcMessage Channel.
From Stdlib Require Import Sorted.
Open Scope Z_scope.

(** ** The account of the messages *)

Inductive Fate := WasDelivered | WasEvicted | WasDiscarded.

#[export] Instance Fate_eq_dec : EqDecision Fate.
Proof. solve_decision. Defined.

Definition accepted (log : list Event) : list bytes :=
  flat_map (fun e => match e with Accepted m => [m] | _ => [] end) log.

Definition fated (fate : Fate) (log : list Event) : list bytes :=
  flat_map (fun e =>
    match e, fate with
    | Taken m, WasDelivered => [m]
    | Evicted m, WasEvicted => [m]
    | Discarded ms, WasDiscarded => ms
    | _, _ => []
    end) log.

(** The messages of an account with a fate, in order. *)
Definition settled_as (fate : Fate) (settled : list (bytes * Fate)) : list bytes :=
  map fst (List.filter (fun entry => bool_decide (entry.2 = fate)) settled).

Lemma settled_as_app fate l l' : settled_as fate (l ++ l') = settled_as fate l ++ settled_as fate l'.
Proof. unfold settled_as. by rewrite List.filter_app, map_app. Qed.

Lemma settled_as_all fate fate' ms :
  settled_as fate (map (fun m => (m, fate')) ms) = if decide (fate' = fate) then ms else [].
Proof.
  unfold settled_as. induction ms as [|m ms IH]; [by case_decide|]. cbn [map List.filter snd]. case_decide as Hd.
  - rewrite bool_decide_eq_true_2 by done. cbn [map fst]. by rewrite IH.
  - by rewrite bool_decide_eq_false_2.
Qed.

(** ** The order of the callbacks *)

(** The message being delivered and the last subscriber it reached. *)
Definition call_order (state : option (option (bytes * Z))) (e : Event) : option (option (bytes * Z)) :=
  match state, e with
  | None, _ => None
  | Some _, Taken m => Some (Some (m, 0))
  | Some (Some (m, last)), Invoked s m' => if bool_decide (m = m') && (last <? s) then Some (Some (m, s)) else None
  | Some None, Invoked _ _ => None
  | Some state, _ => Some state
  end.

Definition calls_in_order (log : list Event) : option (option (bytes * Z)) := fold_left call_order log (Some None).

Lemma calls_app l l' : calls_in_order (l ++ l') = fold_left call_order l' (calls_in_order l).
Proof. apply fold_left_app. Qed.

Definition is_delivering (p : Phase) : bool := match p with Delivering _ _ => true | _ => false end.

(** ** The invariant *)

Record channel_ok (depth : nat) (w : World) : Prop := {
  ok_depth : maximum_depth (channel w) = Some depth;
  ok_phases : length (phases w) = if delivery_scheduled (channel w) && negb (lost w) then 1%nat else 0%nat;
  ok_lost : lost w = true -> delivery_scheduled (channel w) = true;
  ok_callers : callers w = [];
  ok_workers : delivery_attached (channel w) = true -> delivery_workers (channel w) = true;
  ok_detached : delivery_attached (channel w) = false -> pending (channel w) = [];
  ok_destroying : destroying (channel w) = true -> delivery_attached (channel w) = false;
  ok_idle : delivery_scheduled (channel w) = false -> pending (channel w) = [];
  ok_bound : (length (pending (channel w)) <= depth)%nat;
  ok_account : exists settled,
    accepted (log w) = map fst settled ++ pending (channel w) /\
    forall fate, fated fate (log w) = settled_as fate settled;
  ok_dropped : dropped_count (channel w) = wrap 64 (Z.of_nat (length (fated WasEvicted (log w))));
  ok_ids : StronglySorted Z.lt (subscribers (channel w)) /\ 0 <= next_subscription_id (channel w) < 2 ^ 64 /\
    Forall (fun s => 0 < s /\ (next_subscription_id (channel w) = 0 \/ s < next_subscription_id (channel w))) (subscribers (channel w));
  ok_calls : match phases w with
    | [Delivering m remaining] => exists last, calls_in_order (log w) = Some (Some (m, last)) /\
        StronglySorted Z.lt remaining /\ Forall (fun s => last < s) remaining
    | _ => is_Some (calls_in_order (log w))
    end;
}.

Lemma new_channel_ok name depth : channel_ok depth (new_world name (Some depth)).
Proof.
  split; cbn; try done.
  - lia.
  - by exists [].
  - split_and!; [constructor|lia|lia|constructor].
Qed.

(** ** Preservation *)

Definition account (log : list Event) (pending : list bytes) : Prop :=
  exists settled, accepted log = map fst settled ++ pending /\ forall fate, fated fate log = settled_as fate settled.

Lemma accepted_app l l' : accepted (l ++ l') = accepted l ++ accepted l'.
Proof. apply flat_map_app. Qed.

Lemma fated_app fate l l' : fated fate (l ++ l') = fated fate l ++ fated fate l'.
Proof. apply flat_map_app. Qed.

Lemma account_quiet log pending events :
  account log pending -> accepted events = [] -> (forall fate, fated fate events = []) -> account (log ++ events) pending.
Proof.
  intros (settled & Ha & Hf) Hn Hq. exists settled. split; [by rewrite accepted_app, Hn, app_nil_r|].
  intros fate. by rewrite fated_app, Hq, app_nil_r.
Qed.

Lemma account_accept log pending m : account log pending -> account (log ++ [Accepted m]) (pending ++ [m]).
Proof.
  intros (settled & Ha & Hf). exists settled. rewrite accepted_app, Ha. split; [by rewrite <- app_assoc|].
  intros fate. rewrite fated_app, Hf. by rewrite app_nil_r.
Qed.

Lemma account_settle fate e gone log pending :
  account log (gone ++ pending) -> accepted [e] = [] ->
  (forall fate', fated fate' [e] = if decide (fate = fate') then gone else []) -> account (log ++ [e]) pending.
Proof.
  intros (settled & Ha & Hf) He Hfate. exists (settled ++ map (fun m => (m, fate)) gone).
  rewrite accepted_app, Ha, He, map_app, map_map, map_id, app_nil_r, <- app_assoc. split; [done|].
  intros fate'. by rewrite fated_app, Hf, Hfate, settled_as_app, settled_as_all.
Qed.

Lemma account_discards log pending : account log pending -> account (log ++ discards pending) [].
Proof.
  intros H. destruct pending as [|m ms]; [by rewrite app_nil_r|].
  apply (account_settle WasDiscarded _ (m :: ms)); [by rewrite app_nil_r|done|].
  intros []; cbn; rewrite ?app_nil_r; done.
Qed.

Lemma account_evictions log m pending : account log (m :: pending) -> account (log ++ [Evicted m]) pending.
Proof. intros H. apply (account_settle WasEvicted _ [m]); [done|done|]. by intros []. Qed.

Lemma account_taken log m pending : account log (m :: pending) -> account (log ++ [Taken m]) pending.
Proof. intros H. apply (account_settle WasDelivered _ [m]); [done|done|]. by intros []. Qed.

Lemma account_invocation log pending c s m : account log pending -> account (log ++ invocation c s m) pending.
Proof. intros H. apply account_quiet; [done| |]; unfold invocation; by destruct (is_active c s). Qed.

Definition silent (e : Event) : bool := match e with Taken _ | Invoked _ _ => false | _ => true end.

Lemma calls_silent events state : forallb silent events = true -> fold_left call_order events state = state.
Proof.
  revert state. induction events as [|e events IH]; intros state He; [done|]. cbn [forallb] in He.
  apply andb_prop in He as [Hs He]. cbn [fold_left]. rewrite IH by done. by destruct e, state as [[[]|]|].
Qed.

Lemma silent_discards ms : forallb silent (discards ms) = true.
Proof. by destruct ms. Qed.

Lemma silent_evictions evicted : forallb silent (evictions evicted) = true.
Proof. by destruct evicted. Qed.

Definition calls_state (phases : list Phase) (log : list Event) : Prop :=
  match phases with
  | [Delivering m remaining] => exists last, calls_in_order log = Some (Some (m, last)) /\
      StronglySorted Z.lt remaining /\ Forall (fun s => last < s) remaining
  | _ => is_Some (calls_in_order log)
  end.

Lemma calls_state_some phases log : calls_state phases log -> is_Some (calls_in_order log).
Proof.
  destruct phases as [|[] []]; cbn; try done. intros (last & -> & _). by eexists.
Qed.

Lemma calls_state_silent phases log events : calls_state phases log -> forallb silent events = true -> calls_state phases (log ++ events).
Proof. intros H He. unfold calls_state. by rewrite calls_app, calls_silent. Qed.

Lemma calls_state_idle phases phases' log events :
  calls_state phases log -> forallb silent events = true -> forallb (fun p => negb (is_delivering p)) phases' = true ->
  calls_state phases' (log ++ events).
Proof.
  intros H He Hp. apply calls_state_some in H. unfold calls_state. rewrite calls_app, calls_silent by done.
  by destruct phases' as [|[] []].
Qed.

Lemma only_phase depth w i p :
  channel_ok depth w -> phases w !! i = Some p ->
  i = 0%nat /\ phases w = [p] /\ delivery_scheduled (channel w) = true /\ lost w = false.
Proof.
  intros Hok Hi. pose proof (ok_phases _ _ Hok) as Hp.
  destruct (phases w) as [|p' [|]]; [done| |]; cbn in Hp; destruct (delivery_scheduled (channel w)), (lost w); cbn in Hp; try done.
  apply list_lookup_singleton_Some in Hi as [-> ->]. done.
Qed.

(** The parts of the invariant that the subscriptions own. *)
Definition ids_ok (snapshot : list Z) (next : Z) : Prop :=
  StronglySorted Z.lt snapshot /\ 0 <= next < 2 ^ 64 /\ Forall (fun s => 0 < s /\ (next = 0 \/ s < next)) snapshot.

Lemma StronglySorted_filter {A} (R : A -> A -> Prop) f l : StronglySorted R l -> StronglySorted R (List.filter f l).
Proof.
  induction 1 as [|a l Hl IH Ha]; [constructor|]. cbn. destruct (f a); [|done].
  constructor; [done|]. apply List.Forall_forall. intros b [Hb _]%filter_In. by apply (proj1 (List.Forall_forall _ _) Ha).
Qed.

Lemma StronglySorted_snoc (l : list Z) b : StronglySorted Z.lt l -> Forall (fun a => a < b) l -> StronglySorted Z.lt (l ++ [b]).
Proof.
  induction 1 as [|a l Hl IH Ha]; intros Hb; cbn; [by repeat constructor|].
  apply Forall_cons in Hb as [Hab Hb]. constructor; [by apply IH|]. apply Forall_app. by split; [|constructor].
Qed.

Lemma ids_ok_filter f snapshot next : ids_ok snapshot next -> ids_ok (List.filter f snapshot) next.
Proof.
  intros (Hs & Hn & Hf). split; [by apply StronglySorted_filter|]. split; [done|].
  apply List.Forall_forall. intros s [Hin _]%filter_In. by apply (proj1 (List.Forall_forall _ _) Hf).
Qed.

(** The next identifier, which wraps to zero when there is none left. *)
Lemma ids_ok_snoc snapshot next : ids_ok snapshot next -> next <> 0 -> ids_ok (snapshot ++ [next]) (wrap 64 (next + 1)).
Proof.
  intros (Hs & Hn & Hf) Hz.
  assert (Hf' : Forall (fun s => 0 < s /\ s < next) snapshot) by (eapply Forall_impl; [done|]; intros s [? [?|?]]; lia).
  assert (Hw : wrap 64 (next + 1) = 0 \/ wrap 64 (next + 1) = next + 1).
  { destruct (decide (next + 1 = 2 ^ 64)) as [->|]; [by left|right; apply wrap_small; unfold in_width; lia]. }
  split; [|split].
  - apply StronglySorted_snoc; [done|]. eapply Forall_impl; [done|]. by intros s [_ ?].
  - apply (wrap_in_width 64 (next + 1)). lia.
  - apply Forall_app. split.
    + eapply Forall_impl; [done|]. intros s [? ?]. split; [done|]. destruct Hw as [->| ->]; [by left|right; lia].
    + constructor; [|constructor]. split; [lia|]. destruct Hw as [->| ->]; [by left|right; lia].
Qed.

Lemma subscribe_handle_delivery c has_callback handle c' outcome :
  subscribe_handle c has_callback handle = (c', outcome) ->
  ids_ok (subscribers c) (next_subscription_id c) ->
  with_subscribers c' (active_states c) (subscribers c) (next_subscription_id c) = c /\
  ids_ok (subscribers c') (next_subscription_id c').
Proof.
  unfold subscribe_handle, subscribe. intros E Hids.
  destruct (bool_decide _) in E; cbn in E; [|by injection E as <- <-; destruct c].
  destruct has_callback; cbn in E; [|by injection E as <- <-; destruct c].
  destruct (next_subscription_id c =? 0) eqn:Ez; [by injection E as <- <-; destruct c|]. apply Z.eqb_neq in Ez.
  injection E as <- <-. split; [by destruct handle, c|].
  pose proof (ids_ok_snoc _ _ (ids_ok_filter (is_active c) _ _ Hids) Ez). by destruct handle.
Qed.

Ltac channel_fields Hok :=
  pose proof (ok_depth _ _ Hok); pose proof (ok_phases _ _ Hok); pose proof (ok_lost _ _ Hok);
  pose proof (ok_callers _ _ Hok); pose proof (ok_workers _ _ Hok); pose proof (ok_detached _ _ Hok);
  pose proof (ok_destroying _ _ Hok); pose proof (ok_idle _ _ Hok); pose proof (ok_bound _ _ Hok);
  pose proof (ok_account _ _ Hok : account _ _); pose proof (ok_dropped _ _ Hok);
  pose proof (ok_ids _ _ Hok); pose proof (ok_calls _ _ Hok : calls_state _ _).

#[local] Arguments fated : simpl never.
#[local] Arguments accepted : simpl never.
#[local] Arguments calls_in_order : simpl never.

Lemma update_same w : update w (channel w) (phases w) [] = w.
Proof. destruct w. unfold update. cbn. by rewrite app_nil_r. Qed.

Lemma update_update w c p e c' p' e' : update (update w c p e) c' p' e' = update w c' p' (e ++ e').
Proof. unfold update. cbn. by rewrite <- app_assoc. Qed.

(** The world after the eviction in [enqueue]. *)
Definition evict (w : World) : World :=
  let c := channel w in
  let full := bool_decide (Some (length (pending c)) = maximum_depth c) in
  update w (with_delivery c (if full then tail (pending c) else pending c) (delivery_workers c) (delivery_attached c)
              (delivery_scheduled c) (destroying c) (if full then wrap 64 (dropped_count c + 1) else dropped_count c))
    (phases w) (evictions (if full then head (pending c) else None)).

Lemma evict_ok depth w :
  (0 < depth)%nat -> delivery_attached (channel w) = true -> channel_ok depth w ->
  channel_ok depth (evict w) /\ (length (pending (channel (evict w))) < depth)%nat.
Proof.
  intros Hd Ha Hok. channel_fields Hok. unfold evict. case_bool_decide as Hf.
  - destruct (pending (channel w)) as [|m rest] eqn:Ep; [rewrite H in Hf; injection Hf; cbn; lia|].
    cbn [head tail evictions]. split; [|cbn in *; lia].
    split; cbn; try done; try congruence.
    + intros Hs. by specialize (H6 Hs).
    + cbn in *. lia.
    + by apply account_evictions.
    + rewrite fated_app, length_app, H9, Nat2Z.inj_add. unfold wrap. by rewrite Zplus_mod_idemp_l.
    + by apply (calls_state_silent (phases w)).
  - split.
    + destruct w as [[] ? ? ? ? ?]. cbn. unfold update. cbn. by rewrite app_nil_r.
    + cbn. rewrite H in Hf. assert (length (pending (channel w)) <> depth) by congruence. lia.
Qed.

Lemma append_message_ok depth w data :
  channel_ok depth w -> delivery_attached (channel w) = true -> (length (pending (channel w)) < depth)%nat ->
  channel_ok depth
    (update w (with_delivery (channel w) (pending (channel w) ++ [data]) true true true (destroying (channel w))
                 (dropped_count (channel w)))
       (if delivery_scheduled (channel w) then phases w else phases w ++ [Adding]) [Accepted data]).
Proof.
  intros Hok Ha Hl. channel_fields Hok. split; cbn; try done; try congruence.
  - destruct (delivery_scheduled (channel w)) eqn:Es; [done|]. destruct (lost w) eqn:El; [by specialize (H1 eq_refl)|].
    by rewrite length_app, H0.
  - intros Hdes. apply H5 in Hdes. congruence.
  - rewrite length_app. cbn. lia.
  - by apply account_accept.
  - by rewrite fated_app, app_nil_r.
  - destruct (delivery_scheduled (channel w)); [by apply (calls_state_silent (phases w))|].
    cbn in H0. destruct (phases w); [|done]. by apply (calls_state_idle []).
Qed.

Lemma deliver_ok depth w data : (0 < depth)%nat -> channel_ok depth w -> channel_ok depth (deliver w data).
Proof.
  intros Hd Hok. unfold deliver. rewrite (ok_depth _ _ Hok). unfold enqueue_locked.
  destruct (destroying (channel w) || negb (delivery_attached (channel w))) eqn:Eg; [by rewrite update_same|].
  apply orb_false_iff in Eg as [Edes Eatt%negb_false_iff].
  destruct (evict_ok depth w Hd Eatt Hok) as [Hev Hlt].
  pose proof (append_message_ok depth _ data Hev Eatt Hlt) as Happ. unfold evict in Happ. rewrite update_update in Happ.
  assert (Hw : delivery_workers (channel w) = true) by (by apply (ok_workers _ _ Hok)).
  unfold with_delivery in *. cbn in Happ. rewrite Hw.
  destruct (delivery_scheduled (channel w)); exact Happ.
Qed.

(** Changes of the subscriptions and the status leave delivery alone. *)
Lemma subscribers_ok depth w states snapshot next status :
  channel_ok depth w -> ids_ok snapshot next ->
  channel_ok depth (update w (set_status (with_subscribers (channel w) states snapshot next) status) (phases w) []).
Proof.
  intros Hok Hids. channel_fields Hok. split; cbn; rewrite ?app_nil_r; done.
Qed.

(** Queueing moves the only job, which is not delivering. *)
Lemma move_ok depth w i p p' :
  channel_ok depth w -> phases w !! i = Some p -> is_delivering p' = false ->
  channel_ok depth (update w (channel w) (<[i := p']> (phases w)) []).
Proof.
  intros Hok Hi Hp'. destruct (only_phase _ _ _ _ Hok Hi) as (-> & Hp & Hs & Hl).
  channel_fields Hok. split; cbn; rewrite ?app_nil_r, ?Hp; try done.
  - by rewrite Hs, Hl.
  - apply calls_state_some in H11. by destruct p'.
Qed.

(** Without its job, nothing is scheduled and nothing pending. *)
Lemma unscheduled_ok depth w i p :
  channel_ok depth w -> phases w !! i = Some p ->
  channel_ok depth
    (update w (with_delivery (channel w) [] (delivery_workers (channel w)) (delivery_attached (channel w)) false
                 (destroying (channel w)) (dropped_count (channel w)))
       (without i (phases w)) (discards (pending (channel w)))).
Proof.
  intros Hok Hi. destruct (only_phase _ _ _ _ Hok Hi) as (-> & Hp & Hs & Hl).
  channel_fields Hok. rewrite Hp in *. split; cbn; try done.
  - congruence.
  - lia.
  - by apply account_discards.
  - rewrite fated_app. by destruct (pending (channel w)); rewrite app_nil_r.
  - by apply (calls_state_idle [p] [] (log w) _ H11 (silent_discards _)).
Qed.

Lemma take_ok depth w i m rest :
  channel_ok depth w -> phases w !! i = Some Queued -> pending (channel w) = m :: rest ->
  channel_ok depth
    (update w (with_delivery (channel w) rest (delivery_workers (channel w)) (delivery_attached (channel w))
                 (delivery_scheduled (channel w)) (destroying (channel w)) (dropped_count (channel w)))
       (<[i := Delivering m (subscribers (channel w))]> (phases w)) [Taken m]).
Proof.
  intros Hok Hi Ep. destruct (only_phase _ _ _ _ Hok Hi) as (-> & Hp & Hs & Hl).
  channel_fields Hok. rewrite Hp, Ep in *. split; cbn; try done.
  - intros Ha. by specialize (H4 Ha).
  - congruence.
  - cbn in *. lia.
  - by apply account_taken.
  - by rewrite fated_app, app_nil_r.
  - destruct H10 as (Hss & _ & Hf). exists 0. split; [|split; [done|]].
    + rewrite calls_app. destruct H11 as [state ->]. by destruct state as [[]|].
    + eapply Forall_impl; [done|]. by intros s [? _].
Qed.

Lemma invoke_ok depth w i m s remaining :
  channel_ok depth w -> phases w !! i = Some (Delivering m (s :: remaining)) ->
  channel_ok depth
    (update w (channel w) (<[i := Delivering m remaining]> (phases w)) (invocation (channel w) s m)).
Proof.
  intros Hok Hi. destruct (only_phase _ _ _ _ Hok Hi) as (-> & Hp & Hs & Hl).
  channel_fields Hok. rewrite Hp in *. destruct H11 as (last & Hc & Hss & Hf).
  apply StronglySorted_inv in Hss as [Hss Hsr]. apply Forall_cons in Hf as [Hls Hf].
  split; cbn; try done.
  - by apply account_invocation.
  - unfold invocation. rewrite fated_app. by destruct (is_active _ _); rewrite app_nil_r.
  - unfold invocation. destruct (is_active (channel w) s); rewrite calls_app, Hc; cbn.
    + rewrite bool_decide_eq_true_2 by done. exists s. by rewrite (proj2 (Z.ltb_lt _ _) Hls).
    + by exists last.
Qed.

Lemma detach_ok depth w (stop reentrant : bool) :
  channel_ok depth w ->
  channel_ok depth
    {| channel := detach_locked (channel w) stop; phases := phases w; callers := callers w;
       waiting := (if reentrant then waiting w else S (waiting w)); lost := lost w;
       log := log w ++ discards (pending (channel w)) |}.
Proof.
  intros Hok. channel_fields Hok. split; cbn; try done.
  - lia.
  - by apply account_discards.
  - rewrite fated_app. by destruct (pending (channel w)); rewrite app_nil_r.
  - apply (calls_state_silent (phases w)); [done|]. apply silent_discards.
Qed.

Lemma attach_ok depth w pool_active :
  channel_ok depth w -> channel_ok depth (update w (fst (attach_delivery (channel w) pool_active)) (phases w) []).
Proof.
  intros Hok. unfold attach_delivery. rewrite (ok_depth _ _ Hok).
  destruct pool_active; cbn; [|by rewrite update_same].
  destruct (destroying (channel w) || delivery_attached (channel w)) eqn:Eg; [by cbn; rewrite update_same|].
  apply orb_false_iff in Eg as [Ed Ea]. channel_fields Hok.
  split; cbn; rewrite ?app_nil_r; try done. congruence.
Qed.

Lemma take_none depth w i c' :
  channel_ok depth w -> phases w !! i = Some Queued -> take_message (channel w) = (c', None) ->
  channel_ok depth (update w c' (without i (phases w)) []).
Proof.
  intros Hok Hi Ht. pose proof (unscheduled_ok depth w i _ Hok Hi) as Hu.
  unfold take_message in Ht. destruct (pending (channel w)) as [|m rest] eqn:Ep; [by injection Ht as <-|].
  destruct (destroying (channel w) || negb (delivery_attached (channel w))) eqn:Eg; [|done].
  assert (Ha : delivery_attached (channel w) = false).
  { destruct (destroying (channel w)) eqn:Ed; [by apply (ok_destroying _ _ Hok)|by apply negb_true_iff]. }
  by rewrite (ok_detached _ _ Hok Ha) in Ep.
Qed.

Lemma finish_message_ok depth w i m c' :
  channel_ok depth w -> phases w !! i = Some (Delivering m []) -> finish_message (channel w) = (c', false) ->
  channel_ok depth
    (update w c' (without i (phases w))
       (discards (if destroying (channel w) || negb (delivery_attached (channel w)) then [] else pending (channel w)))).
Proof.
  intros Hok Hi Hf. pose proof (unscheduled_ok depth w i _ Hok Hi) as Hu. unfold finish_message in Hf.
  destruct (destroying (channel w) || negb (delivery_attached (channel w))) eqn:Eg; cbn in Hf.
  - assert (Ha : delivery_attached (channel w) = false).
    { destruct (destroying (channel w)) eqn:Ed; [by apply (ok_destroying _ _ Hok)|by apply negb_true_iff]. }
    injection Hf as <-. by rewrite (ok_detached _ _ Hok Ha) in *.
  - case_bool_decide as Ep; cbn in Hf; [injection Hf as <-; by rewrite Ep in *|].
    destruct (delivery_workers (channel w)) eqn:Ew; [done|]. by injection Hf as <-.
Qed.

Lemma world_step_ok depth w choice w' :
  (0 < depth)%nat -> channel_ok depth w -> world_step w choice = Some w' -> channel_ok depth w'.
Proof.
  intros Hd Hok. pose proof (ok_callers _ _ Hok) as Hcallers.
  destruct choice as [data|i|i|i|i|i|i|i|i|i|active|stop reentrant| |has handle|status|s]; cbn.
  - intros [= <-]. by apply deliver_ok.
  - destruct (phases w !! i) as [[]|] eqn:Hi; try done. intros [= <-]. by apply (move_ok _ _ _ Adding).
  - destruct (phases w !! i) as [[]|] eqn:Hi; try done. intros [= <-]. by apply (move_ok _ _ _ Adding).
  - destruct (phases w !! i) as [[]|] eqn:Hi; try done. intros [= <-]. by apply (unscheduled_ok _ _ _ Rejected).
  - destruct (phases w !! i) as [[]|] eqn:Hi; try done. intros [= <-].
    destruct (only_phase _ _ _ _ Hok Hi) as (-> & Hp & Hs & Hl). channel_fields Hok. rewrite Hp in *.
    split; cbn; try done. by rewrite Hs.
  - destruct (phases w !! i) as [[]|] eqn:Hi; try done. destruct (take_message (channel w)) as [c' [m|]] eqn:Ht; intros [= <-].
    + unfold take_message in Ht. destruct (pending (channel w)) as [|m' rest] eqn:Ep; [done|].
      destruct (_ || _) in Ht; [done|]. injection Ht as <- <-. by apply take_ok.
    + by apply take_none.
  - destruct (phases w !! i) as [[| | |m [|s remaining]]|] eqn:Hi; try done. intros [= <-]. by apply invoke_ok.
  - destruct (phases w !! i) as [[| | |m [|]]|] eqn:Hi; try done.
    destruct (finish_message (channel w)) as [c' []] eqn:Hf; intros [= <-]; [|by apply (finish_message_ok _ _ _ m)].
    assert (c' = channel w) as ->; [|by apply (move_ok _ _ _ (Delivering m []))].
    unfold finish_message in Hf. destruct (_ || _) in Hf; [done|]. destruct (negb _) in Hf; [done|]. by injection Hf.
  - by rewrite Hcallers.
  - by rewrite Hcallers.
  - destruct (bool_decide _); [|done]. intros [= <-]. by apply attach_ok.
  - rewrite (ok_depth _ _ Hok). destruct (_ && _); [done|]. intros [= <-]. by apply detach_ok.
  - destruct (waiting w); [done|]. destruct (delivery_scheduled (channel w)) eqn:Es; [done|]. intros [= <-].
    channel_fields Hok. split; cbn; try done.
    + by apply account_quiet.
    + by rewrite fated_app, app_nil_r.
    + by apply (calls_state_silent (phases w)).
  - intros [= <-]. destruct (subscribe_handle _ _ _) as [c' outcome] eqn:Hs.
    destruct (subscribe_handle_delivery _ _ _ _ _ Hs (ok_ids _ _ Hok)) as [Hc Hids].
    pose proof (subscribers_ok depth w (active_states c') _ _ (channel_status c') Hok Hids) as H.
    rewrite <- Hc in H. by destruct c'.
  - intros [= <-]. pose proof (subscribers_ok depth w (active_states (channel w)) _ _ status Hok (ok_ids _ _ Hok)) as H.
    by destruct w as [[] ? ? ? ? ?].
  - intros [= <-].
    pose proof (subscribers_ok depth w (<[s := false]> (active_states (channel w))) _ _ (channel_status (channel w)) Hok (ok_ids _ _ Hok)) as H.
    by destruct w as [[] ? ? ? ? ?].
Qed.

Theorem run_world_ok depth w choices : (0 < depth)%nat -> channel_ok depth w -> channel_ok depth (run_world w choices).
Proof.
  intros Hd. unfold run_world. revert w. induction choices as [|choice choices IH]; intros w Hok; [done|]. cbn.
  apply IH. destruct (world_step w choice) as [w'|] eqn:Hs; [|done]. by apply (world_step_ok _ w choice).
Qed.

(** ** What channels promise

    Bounded delivery keeps the newest messages in order, calls back in order,
    one message at a time, drains, and winds down once detached. *)

(** ** The worker *)

(** The next choice of a pool that takes every job. *)
Definition worker_choice (p : Phase) : Choice :=
  match p with
  | Adding => PoolAccepts 0
  | Rejected => FailScheduled 0
  | Queued => Take 0
  | Delivering _ [] => Finish 0
  | Delivering _ (_ :: _) => Invoke 0
  end.

Fixpoint worker_run (fuel : nat) (w : World) : World :=
  match fuel, phases w with
  | S fuel, p :: _ => worker_run fuel (default w (world_step w (worker_choice p)))
  | _, _ => w
  end.

Definition calls (c : ChannelImpl) (message : bytes) (remaining : list Z) : list Event :=
  flat_map (fun s => invocation c s message) remaining.

(** A whole delivery of a message. *)
Definition delivery (c : ChannelImpl) (message : bytes) : list Event := Taken message :: calls c message (subscribers c).

Definition worker_rest (w : World) : list Event :=
  match phases w with
  | [Delivering message remaining] => calls (channel w) message remaining
  | _ => []
  end.

(** Steps that finish the current job and every pending message. *)
Definition work_left (w : World) : nat :=
  match phases w with
  | [Delivering _ remaining] => S (length remaining)
  | _ => 2
  end + length (pending (channel w)) * (3 + length (subscribers (channel w))).

Lemma worker_run_idle fuel w : phases w = [] -> worker_run fuel w = w.
Proof. destruct fuel; cbn; [done|]. by intros ->. Qed.

Lemma worker_run_add n k w : worker_run (n + k) w = worker_run k (worker_run n w).
Proof.
  revert w. induction n as [|n IH]; intros w; [done|]. cbn [worker_run Nat.add].
  destruct (phases w) eqn:Hp; [by rewrite worker_run_idle|]. apply IH.
Qed.

Lemma worker_calls remaining : forall w m,
  phases w = [Delivering m remaining] ->
  worker_run (length remaining) w = update w (channel w) [Delivering m []] (calls (channel w) m remaining).
Proof.
  induction remaining as [|s remaining IH]; intros w m Hp.
  - cbn. rewrite <- Hp. by rewrite update_same.
  - cbn [length worker_run]. rewrite Hp. cbn. rewrite Hp. cbn. rewrite (IH _ m) by done. by rewrite update_update.
Qed.

Definition drained (c : ChannelImpl) : ChannelImpl :=
  with_delivery c [] (delivery_workers c) (delivery_attached c) false (destroying c) (dropped_count c).

Lemma worker_deliveries ms : forall w m remaining,
  phases w = [Delivering m remaining] -> pending (channel w) = ms ->
  delivery_attached (channel w) = true -> destroying (channel w) = false -> delivery_workers (channel w) = true ->
  delivery_scheduled (channel w) = true ->
  worker_run (S (length remaining) + length ms * (3 + length (subscribers (channel w)))) w =
  update w (drained (channel w)) [] (calls (channel w) m remaining ++ flat_map (delivery (channel w)) ms).
Proof.
  induction ms as [|m' ms IH]; intros w m remaining Hp Hpend Ha Hd Hw Hs.
  - rewrite <- (Nat.add_1_r (length remaining)), <- Nat.add_assoc, worker_run_add, (worker_calls _ _ _ Hp).
    cbn. unfold finish_message. rewrite Ha, Hd, Hpend. cbn. unfold drained, update. cbn. by rewrite Ha, Hd, !app_nil_r.
  - replace (S (length remaining) + length (m' :: ms) * (3 + length (subscribers (channel w))))%nat
      with (length remaining + (3 + (S (length (subscribers (channel w))) + length ms * (3 + length (subscribers (channel w))))))%nat
      by (cbn; lia).
    rewrite worker_run_add, (worker_calls _ _ _ Hp), worker_run_add.
    set (c := channel w) in *.
    assert (E : worker_run 3 (update w c [Delivering m []] (calls c m remaining)) =
      update w (with_delivery c ms true true true false (dropped_count c)) [Delivering m' (subscribers c)]
        (calls c m remaining ++ [Taken m'])).
    { cbn. unfold finish_message. rewrite Ha, Hd, Hpend. cbn. rewrite Hw. cbn. unfold take_message.
      rewrite Hpend, Hd, Ha, Hw, Hs. cbn. unfold update. cbn. by rewrite !app_nil_r, <- !app_assoc. }
    rewrite E. set (w1 := update w _ _ _). 
    etransitivity; [exact (IH w1 m' (subscribers c) eq_refl eq_refl eq_refl eq_refl eq_refl eq_refl)|].
    unfold w1. rewrite update_update. unfold drained. cbn. rewrite Ha, Hd, Hw. f_equal.
    by rewrite <- !app_assoc.
Qed.

Lemma worker_run_more n k w : phases (worker_run n w) = [] -> (n <= k)%nat -> worker_run k w = worker_run n w.
Proof.
  intros Hn Hk. replace k with (n + (k - n))%nat by lia. by rewrite worker_run_add, worker_run_idle.
Qed.

Lemma worker_queued k w :
  phases w = [Queued] ->
  delivery_attached (channel w) = true -> destroying (channel w) = false -> delivery_workers (channel w) = true ->
  delivery_scheduled (channel w) = true ->
  (1 + length (pending (channel w)) * (3 + length (subscribers (channel w))) <= k)%nat ->
  worker_run k w = update w (drained (channel w)) [] (flat_map (delivery (channel w)) (pending (channel w))).
Proof.
  intros Hp Ha Hd Hw Hs Hk. destruct k as [|k]; [lia|]. cbn [worker_run]. rewrite Hp. cbn. rewrite Hp. cbn.
  unfold take_message. rewrite Ha, Hd, Hw, Hs. destruct (pending (channel w)) as [|m ms] eqn:Epend; cbn.
  - rewrite worker_run_idle by done. unfold drained. by rewrite Ha, Hd, Hw.
  - set (c := channel w) in *. set (w1 := update w _ _ _).
    pose proof (worker_deliveries ms w1 m (subscribers c) eq_refl eq_refl eq_refl eq_refl eq_refl eq_refl) as E.
    rewrite (worker_run_more (S (length (subscribers c)) + length ms * (3 + length (subscribers c)))).
    + etransitivity; [exact E|]. unfold w1. rewrite update_update. unfold drained. cbn. by rewrite Ha, Hd, Hw.
    + transitivity (phases (update w1 (drained (channel w1)) [] (calls (channel w1) m (subscribers c) ++ flat_map (delivery (channel w1)) ms)));
        [by apply f_equal, E|done].
    + cbn in Hk. lia.
Qed.

(** ** After a detach *)

Record detached_world (w : World) : Prop := {
  detached_bounded : is_Some (maximum_depth (channel w));
  detached_off : delivery_attached (channel w) = false;
  detached_pending : pending (channel w) = [];
  detached_phases : (length (phases w) <= 1)%nat;
  detached_callers : callers w = [];
}.

(** The calls a delivery in progress may still make, and what a piece of the
    log holds besides the returns of detaches. *)
Definition calls_left (p : Phase) : list Event :=
  match p with Delivering message remaining => map (fun s => Invoked s message) remaining | _ => [] end.

Definition in_progress (w : World) : list Event := flat_map calls_left (phases w).

Definition activity (events : list Event) : list Event :=
  List.filter (fun e => match e with Detached => false | _ => true end) events.

(** From [w] to [w'] nothing happens but calls that were in progress. *)
Definition winds_down (w w' : World) : Prop :=
  exists events, log w' = log w ++ events /\ activity events ++ in_progress w' `sublist_of` in_progress w.

Lemma winds_down_refl w : winds_down w w.
Proof. exists []. by rewrite app_nil_r. Qed.

Lemma winds_down_trans w1 w2 w3 : winds_down w1 w2 -> winds_down w2 w3 -> winds_down w1 w3.
Proof.
  intros (e1 & L1 & S1) (e2 & L2 & S2). exists (e1 ++ e2). rewrite L2, L1, app_assoc. split; [done|].
  unfold activity in *. rewrite List.filter_app, <- app_assoc. etransitivity; [|exact S1]. by apply sublist_app.
Qed.

(** A step that changes the phases only, or logs only a returning detach. *)
Lemma winds_down_by (w w' : World) events :
  log w' = log w ++ events -> activity events ++ in_progress w' `sublist_of` in_progress w -> winds_down w w'.
Proof. intros L S. by exists events. Qed.

Lemma subscribe_handle_keeps c has handle c' outcome :
  subscribe_handle c has handle = (c', outcome) ->
  maximum_depth c' = maximum_depth c /\ delivery_attached c' = delivery_attached c /\ pending c' = pending c.
Proof.
  unfold subscribe_handle, subscribe. destruct (negb _); [by intros [= <- _]|]. destruct (negb _); [by intros [= <- _]|].
  destruct (_ =? 0); [by intros [= <- _]|]. intros [= <- _]. by destruct handle.
Qed.

Definition stays_detached (c c' : ChannelImpl) : Prop :=
  maximum_depth c' = maximum_depth c /\ delivery_attached c' = false /\ pending c' = [].

Lemma detached_update w c' ps events :
  detached_world w -> stays_detached (channel w) c' -> (length ps <= 1)%nat ->
  activity events ++ flat_map calls_left ps `sublist_of` in_progress w ->
  detached_world (update w c' ps events) /\ winds_down w (update w c' ps events).
Proof.
  intros [Hb Ha Hp Hph Hc] (Hb' & Ha' & Hp') Hps Hs. split; [|by exists events].
  split; cbn; try done. by rewrite Hb'.
Qed.

(** The phase a step works on is the only one. *)
Lemma detached_phase w i p :
  detached_world w -> phases w !! i = Some p -> i = 0%nat /\ phases w = [p].
Proof.
  intros [_ _ _ Hph _]. destruct (phases w) as [|q [|]]; [done| |cbn in Hph; lia].
  destruct i; [|done]. by intros [= ->].
Qed.

Lemma detached_step w choice w' :
  detached_world w -> (forall active, choice <> Attach active) -> world_step w choice = Some w' ->
  detached_world w' /\ winds_down w w'.
Proof.
  intros Hw Hne. pose proof Hw as [[depth Hb] Ha Hp Hph Hc].
  assert (Hkeep : stays_detached (channel w) (channel w)) by (split; [done|split; done]).
  assert (Hphases : forall c' events, stays_detached (channel w) c' -> activity events = [] ->
    detached_world (update w c' (phases w) events) /\ winds_down w (update w c' (phases w) events)).
  { intros c' events Hc' He. apply detached_update; try done. by rewrite He. }
  destruct choice as [data|i|i|i|i|i|i|i|i|i|active|stop reentrant| |has handle|status|s];
    cbn [world_step]; rewrite ?Hc; try done; try (by specialize (Hne active)).
  - intros [= <-]. unfold deliver, enqueue_locked. rewrite Hb, Ha, orb_true_r. cbn [evictions discards app]. by apply Hphases.
  - destruct (phases w !! i) as [[]|] eqn:E; try done. apply (detached_phase _ _ _ Hw) in E as [-> E]. intros [= <-].
    apply detached_update; rewrite ?E; try done; cbn; try lia; apply sublist_nil_l.
  - destruct (phases w !! i) as [[]|] eqn:E; try done. apply (detached_phase _ _ _ Hw) in E as [-> E]. intros [= <-].
    apply detached_update; rewrite ?E; try done; cbn; try lia; apply sublist_nil_l.
  - destruct (phases w !! i) as [[]|] eqn:E; try done. apply (detached_phase _ _ _ Hw) in E as [-> E]. intros [= <-].
    rewrite Hp. apply detached_update; rewrite ?E; try done; cbn; try lia; apply sublist_nil_l.
  - destruct (phases w !! i) as [[]|] eqn:E; try done. apply (detached_phase _ _ _ Hw) in E as [-> E]. intros [= <-].
    rewrite E. split; [split; cbn; rewrite ?Hb; try done; lia|]. exists []. rewrite app_nil_r. split; [done|apply sublist_nil_l].
  - destruct (phases w !! i) as [[]|] eqn:E; try done. apply (detached_phase _ _ _ Hw) in E as [-> E].
    unfold take_message. rewrite Hp. intros [= <-].
    apply detached_update; rewrite ?E; try done; cbn; try lia; apply sublist_nil_l.
  - destruct (phases w !! i) as [[| | |m [|s remaining]]|] eqn:E; try done. apply (detached_phase _ _ _ Hw) in E as [-> E].
    intros [= <-]. apply detached_update; rewrite ?E; try done.
    unfold in_progress. rewrite ?E. cbn. rewrite !app_nil_r. unfold invocation.
    destruct (is_active _ _); cbn; [done|]. by apply sublist_cons.
  - destruct (phases w !! i) as [[| | |m [|s remaining]]|] eqn:E; try done. apply (detached_phase _ _ _ Hw) in E as [-> E].
    unfold finish_message. rewrite Ha, orb_true_r. cbn [negb orb]. intros [= <-].
    apply detached_update; rewrite ?E; try done; cbn; try lia; apply sublist_nil_l.
  - rewrite Hb. destruct (_ && _); [done|]. intros [= <-].
    split; [split; cbn; rewrite ?Hb; done|]. exists []. rewrite Hp. cbn. by rewrite app_nil_r.
  - destruct (waiting w); [done|]. destruct (delivery_scheduled _); [done|]. intros [= <-].
    split; [split; cbn; rewrite ?Hb; done|]. by exists [Detached].
  - intros [= <-]. destruct (subscribe_handle _ _ _) as [c' outcome] eqn:Hs.
    apply subscribe_handle_keeps in Hs as (E1 & E2 & E3). apply Hphases; [|done]. unfold stays_detached; cbn; by rewrite E1, E2, E3.
  - intros [= <-]. by apply Hphases.
  - intros [= <-]. by apply Hphases.
Qed.

Lemma detached_run w choices :
  detached_world w -> Forall (fun choice => forall active, choice <> Attach active) choices ->
  detached_world (run_world w choices) /\ winds_down w (run_world w choices).
Proof.
  unfold run_world. revert w. induction choices as [|choice choices IH]; intros w Hw Hc.
  - split; [done|apply winds_down_refl].
  - apply Forall_cons in Hc as [Hne Hc]. cbn. destruct (world_step w choice) as [w'|] eqn:Hs; cbn; [|by apply IH].
    destruct (detached_step _ _ _ Hw Hne Hs) as [Hw' Hd]. destruct (IH w' Hw' Hc) as [Hok Hd'].
    split; [done|]. by apply (winds_down_trans _ w').
Qed.

(** ** The theorems *)

(** What became of the messages that are no longer pending. *)
Definition ledger (w : World) (settled : list (bytes * Fate)) : Prop :=
  accepted (log w) = map fst settled ++ pending (channel w) /\
  fated WasDelivered (log w) = settled_as WasDelivered settled /\
  fated WasEvicted (log w) = settled_as WasEvicted settled /\
  fated WasDiscarded (log w) = settled_as WasDiscarded settled.

(** C25. Under every interleaving of publishers, pool jobs, attaching, detaching and
    subscription changes, a bounded channel holds at most [depth] messages; the
    accepted messages are, in order, those settled (delivered, evicted or
    discarded) and those pending, the evictions are counted, and callbacks get
    the message taken last, each subscriber at most once and in subscription
    order.  A further message is appended, and exactly the newest [depth] are kept. *)
Theorem channel_keeps_newest name depth choices :
  (0 < depth)%nat ->
  let w := run_world (new_world name (Some depth)) choices in
  (length (pending (channel w)) <= depth)%nat /\
  (exists settled, ledger w settled) /\
  dropped_count (channel w) = wrap 64 (Z.of_nat (length (fated WasEvicted (log w)))) /\
  is_Some (calls_in_order (log w)) /\
  (delivery_attached (channel w) = true -> forall data,
    pending (channel (deliver w data)) = drop (S (length (pending (channel w))) - depth) (pending (channel w) ++ [data])).
Proof.
  intros Hd w. assert (Hok : channel_ok depth w) by (apply run_world_ok, new_channel_ok; done).
  split; [apply Hok|]. split; [|split; [apply Hok|split]].
  - destruct (ok_account _ _ Hok) as (settled & Ha & Hf). by exists settled.
  - apply (calls_state_some (phases w)), (ok_calls _ _ Hok).
  - intros Ha data. destruct (evict_ok depth w Hd Ha Hok) as [_ Hlt].
    assert (Hdes : destroying (channel w) = false).
    { destruct (destroying (channel w)) eqn:E; [|done]. apply (ok_destroying _ _ Hok) in E. congruence. }
    pose proof (ok_bound _ _ Hok) as Hb.
    unfold deliver, enqueue_locked. rewrite (ok_depth _ _ Hok), Hdes, Ha, (ok_workers _ _ Hok Ha). cbn.
    transitivity ((if bool_decide (Some (length (pending (channel w))) = Some depth)
                   then tail (pending (channel w)) else pending (channel w)) ++ [data]); [by destruct (delivery_scheduled _)|].
    case_bool_decide as Hf.
    + destruct (pending (channel w)) as [|m rest]; [cbn in *; simplify_eq; lia|]. injection Hf as <-.
      by replace (S (length (m :: rest)) - _)%nat with 1%nat by (cbn; lia).
    + assert (length (pending (channel w)) <> depth) by congruence.
      by replace (S (length (pending (channel w))) - depth)%nat with 0%nat by lia.
Qed.

(** C26. A pool that takes its jobs drains an attached channel: the steps of
    [work_left] finish the current delivery and give every pending message, in
    order, to the active subscribers, leave nothing pending or scheduled, and so
    let every waiting detach return. *)
Theorem channel_drains name depth choices :
  (0 < depth)%nat ->
  let w := run_world (new_world name (Some depth)) choices in
  delivery_attached (channel w) = true -> lost w = false -> head (phases w) <> Some Rejected ->
  let w' := worker_run (work_left w) w in
  phases w' = [] /\ pending (channel w') = [] /\ delivery_scheduled (channel w') = false /\
  log w' = log w ++ worker_rest w ++ flat_map (delivery (channel w)) (pending (channel w)).
Proof.
  intros Hd w Ha Hl Hrej. assert (Hok : channel_ok depth w) by (apply run_world_ok, new_channel_ok; done).
  clearbody w. cbv zeta.
  assert (Hdes : destroying (channel w) = false).
  { destruct (destroying (channel w)) eqn:E; [|done]. apply (ok_destroying _ _ Hok) in E. congruence. }
  pose proof (ok_workers _ _ Hok Ha) as Hw. pose proof (ok_phases _ _ Hok) as Hph. rewrite Hl in Hph.
  destruct (delivery_scheduled (channel w)) eqn:Hs; cbn in Hph.
  2: { apply nil_length_inv in Hph. rewrite (worker_run_idle _ _ Hph).
       rewrite Hph, (ok_idle _ _ Hok Hs). split; [done|]. split; [done|]. split; [done|].
       unfold worker_rest. by rewrite Hph, !app_nil_r. }
  destruct (phases w) as [|p [|]] eqn:Ep; try done. clear Hph.
  enough (worker_run (work_left w) w =
    update w (drained (channel w)) [] (worker_rest w ++ flat_map (delivery (channel w)) (pending (channel w)))) as ->.
  { done. }
  unfold work_left, worker_rest. rewrite Ep. destruct p as [| | |m remaining]; [|done| |].
  - cbn [worker_run Nat.add]. rewrite Ep. cbn [worker_choice world_step]. rewrite Ep. cbn [default].
    etransitivity; [exact (worker_queued (1 + length (pending (channel w)) * (3 + length (subscribers (channel w))))
      (update w (channel w) [Queued] []) eq_refl Ha Hdes Hw Hs (le_n _))|].
    unfold update. cbn. by rewrite app_nil_r.
  - apply worker_queued; try done. lia.
  - apply (worker_deliveries _ w m remaining); done.
Qed.

(** C27. A detach, waiting or called from inside a callback, leaves the channel
    detached without touching a delivery in progress.  From any reachable
    detached state on, and until the channel is attached again, nothing stays
    pending, no message is accepted, taken or delivered, and the only calls are
    those the delivery in progress had left, in their order.  When a detach that
    waited returns there is no delivery in progress, so that no subscriber is
    called at all. *)
Theorem detach_quiesces name depth choices :
  (0 < depth)%nat ->
  let w := run_world (new_world name (Some depth)) choices in
  (forall stop reentrant w', world_step w (Detach stop reentrant) = Some w' ->
    delivery_attached (channel w') = false /\ in_progress w' = in_progress w) /\
  (forall w', world_step w WaitOver = Some w' -> phases w' = [] /\ in_progress w' = []) /\
  (delivery_attached (channel w) = false ->
    forall later, Forall (fun choice => forall active, choice <> Attach active) later ->
    pending (channel (run_world w later)) = [] /\
    exists events, log (run_world w later) = log w ++ events /\
      activity events ++ in_progress (run_world w later) `sublist_of` in_progress w).
Proof.
  intros Hd w. assert (Hok : channel_ok depth w) by (by apply run_world_ok, new_channel_ok). clearbody w.
  split; [|split].
  - intros stop reentrant w'. cbn [world_step]. rewrite (ok_depth _ _ Hok). destruct (_ && _); [done|]. by intros [= <-].
  - intros w'. cbn [world_step]. destruct (waiting w); [done|]. destruct (delivery_scheduled (channel w)) eqn:Hs; [done|].
    intros [= <-]. pose proof (ok_phases _ _ Hok) as Hp. rewrite Hs in Hp. apply nil_length_inv in Hp.
    unfold in_progress. cbn. by rewrite Hp.
  - intros Ha later Hlater. destruct (detached_run w later) as [Hdet Hlog]; [|done|by split; [apply (detached_pending _ Hdet)|]].
    split; [by rewrite (ok_depth _ _ Hok)|done|by apply (ok_detached _ _ Hok)| |by apply (ok_callers _ _ Hok)].
    pose proof (ok_phases _ _ Hok) as Hp. destruct (delivery_scheduled _), (lost w); cbn in Hp; lia.
Qed.

(** ** A concrete channel *)

Definition sample_name : bytes := [47; 47; 97; 47; 98].

(** Two subscribers, three messages for two places, the second one partly
    delivered after the first subscriber was reset. *)
Definition sample_choices : list Choice :=
  [Attach true; Subscribe true None; Subscribe true None; Deliver [1]; Deliver [2]; Deliver [3]; PoolAccepts 0;
   Reset 1; Take 0; Invoke 0; Deliver [4]].

Definition sample_world : World := run_world (new_world sample_name (Some 2%nat)) sample_choices.

Example sample_log : log sample_world = [Accepted [1]; Accepted [2]; Evicted [1]; Accepted [3]; Taken [2]; Accepted [4]].
Proof. vm_compute. reflexivity. Qed.

Lemma channel_keeps_newest_witness :
  pending (channel (deliver sample_world [5])) = [[4]; [5]].
Proof.
  destruct (channel_keeps_newest sample_name 2 sample_choices ltac:(lia)) as (_ & _ & _ & _ & H).
  etransitivity; [apply H; vm_compute; reflexivity|]. vm_compute. reflexivity.
Defined.

Lemma channel_drains_witness :
  log (worker_run (work_left sample_world) sample_world) =
    log sample_world ++ [Invoked 2 [2]; Taken [3]; Invoked 2 [3]; Taken [4]; Invoked 2 [4]].
Proof.
  destruct (channel_drains sample_name 2 sample_choices) as (_ & _ & _ & H); [lia|vm_compute; reflexivity..|vm_compute; done|].
  etransitivity; [apply H|]. vm_compute. reflexivity.
Defined.

(** The detach that waits for the job, with a message that arrives too late. *)
Definition sample_detach : list Choice :=
  sample_choices ++ [Detach false false; Deliver [6]; Invoke 0; Finish 0].

Definition sample_detached : World :=
  default sample_world (world_step (run_world (new_world sample_name (Some 2%nat)) sample_detach) WaitOver).

(** A callback that detaches: the second subscriber is still called. *)
Definition sample_reentrant : list Choice :=
  [Attach true; Subscribe true None; Subscribe true None; Deliver [1]; Deliver [2]; PoolAccepts 0; Take 0; Invoke 0;
   Detach false true].

Example reentrant_detach_finishes_delivery :
  log (run_world (new_world sample_name (Some 2%nat)) (sample_reentrant ++ [Deliver [3]; Invoke 0; Finish 0])) =
    [Accepted [1]; Accepted [2]; Taken [1]; Invoked 1 [1]; Discarded [[2]]; Invoked 2 [1]].
Proof. vm_compute. reflexivity. Qed.

Lemma detach_quiesces_witness :
  pending (channel (run_world (run_world (new_world sample_name (Some 2%nat)) sample_reentrant) [Deliver [3]; Invoke 0; Take 0])) = [] /\
  phases sample_detached = [].
Proof.
  split.
  - destruct (detach_quiesces sample_name 2 sample_reentrant ltac:(lia)) as (_ & _ & H).
    apply H; [vm_compute; reflexivity|by repeat constructor].
  - destruct (detach_quiesces sample_name 2 sample_detach ltac:(lia)) as (_ & H & _).
    apply (H sample_detached). vm_compute. reflexivity.
Defined.
