(* ===== verification/FramedIo.v ===== *)
(** * Framed streams (utils/ipc/framed_io.cpp)

    Messages on a byte stream behind a 32-bit length.  The descriptor is the
    environment: each round of a loop asks for the stop flag, polls, and, when
    ready, transfers some bytes or fails; the rounds are an argument.  The two
    kinds of descriptor differ only in the system call. *)
From S2P Require Import Prelude Bytes IpcMessage.
Open Scope Z_scope.

(** What [read_some] or [write_some] does: transfer up to [S n] bytes, return
    zero, or fail with [EINTR] or [EAGAIN], with [EPIPE], [ECONNRESET] or
    [ENOTCONN], or with another error. *)
Inductive IoAnswer := Transfers (n : nat) | ReturnsZero | Interrupted | Disconnected | Fails.

(** The stop flag is set, or [poll_descriptor] answers. *)
Inductive Round := Stopping | TimedOut | Closed | PollFails | Ready (answer : IoAnswer).

(** [None]: still waiting when the rounds run out. *)
Fixpoint wait_until_ready (rounds : list Round) : option (result Status IoAnswer * list Round) :=
  match rounds with
  | [] => None
  | Stopping :: rounds => Some (Err CHANNEL_UNAVAILABLE, rounds)
  | TimedOut :: rounds => wait_until_ready rounds
  | Closed :: rounds => Some (Err END_OF_STREAM, rounds)
  | PollFails :: rounds => Some (Err IO_ERROR, rounds)
  | Ready answer :: rounds => Some (Ok answer, rounds)
  end.

(** The loop of [read_exactly], with the bytes read so far and those the stream
    still holds.  A read from an exhausted stream returns zero; [fuel] bounds
    the rounds. *)
Fixpoint read_loop (fuel wanted : nat) (buffer stream : bytes) (rounds : list Round)
  : option (Status * bytes * bytes * list Round) :=
  if (wanted <=? length buffer)%nat then Some (OK, buffer, stream, rounds)
  else
    match fuel with
    | O => None
    | S fuel =>
        let ended := if bool_decide (buffer = []) then END_OF_STREAM else TRUNCATED_MESSAGE in
        match wait_until_ready rounds with
        | None => None
        | Some (Err ready, rounds) =>
            Some (if bool_decide (ready = END_OF_STREAM) then ended else ready, buffer, stream, rounds)
        | Some (Ok (Transfers n), rounds) =>
            let piece := take (Nat.min (S n) (wanted - length buffer)) stream in
            if bool_decide (piece = []) then Some (ended, buffer, stream, rounds)
            else read_loop fuel wanted (buffer ++ piece) (drop (length piece) stream) rounds
        | Some (Ok ReturnsZero, rounds) => Some (ended, buffer, stream, rounds)
        | Some (Ok Interrupted, rounds) => read_loop fuel wanted buffer stream rounds
        | Some (Ok (Disconnected | Fails), rounds) => Some (IO_ERROR, buffer, stream, rounds)
        end
    end.

Definition read_exactly (wanted : nat) (stream : bytes) (rounds : list Round) : option (Status * bytes * bytes * list Round) :=
  read_loop (S (length rounds)) wanted [] stream rounds.

(** The loop of [write_all]: the bytes left to write and those written to the stream. *)
Fixpoint write_loop (fuel : nat) (data stream : bytes) (rounds : list Round) : option (Status * bytes * list Round) :=
  match data with
  | [] => Some (OK, stream, rounds)
  | _ =>
      match fuel with
      | O => None
      | S fuel =>
          match wait_until_ready rounds with
          | None => None
          | Some (Err ready, rounds) => Some (ready, stream, rounds)
          | Some (Ok (Transfers n), rounds) => write_loop fuel (drop (S n) data) (stream ++ take (S n) data) rounds
          | Some (Ok ReturnsZero, rounds) => Some (IO_ERROR, stream, rounds)
          | Some (Ok Interrupted, rounds) => write_loop fuel data stream rounds
          | Some (Ok Disconnected, rounds) => Some (NOT_CONNECTED, stream, rounds)
          | Some (Ok Fails, rounds) => Some (IO_ERROR, stream, rounds)
          end
      end
  end.

Definition write_all (data stream : bytes) (rounds : list Round) : option (Status * bytes * list Round) :=
  write_loop (S (length rounds)) data stream rounds.

(** The status and [TransferResult::bytes]. *)
Definition TransferResult : Type := Status * nat.

Definition write_frame (descriptor : Z) (payload : bytes) (maximum_message_bytes : nat) (stream : bytes) (rounds : list Round)
  : option (TransferResult * bytes * list Round) :=
  if descriptor <? 0 then Some ((NOT_CONNECTED, 0%nat), stream, rounds)
  else if (maximum_message_bytes <? length payload)%nat || (2 ^ 32 - 1 <? Z.of_nat (length payload))
  then Some ((MESSAGE_TOO_LARGE, 0%nat), stream, rounds)
  else
    match write_all (append_u32 [] (Z.of_nat (length payload))) stream rounds with
    | None => None
    | Some (OK, stream, rounds) =>
        match write_all payload stream rounds with
        | None => None
        | Some (OK, stream, rounds) => Some ((OK, length payload), stream, rounds)
        | Some (status, stream, rounds) => Some ((status, 0%nat), stream, rounds)
        end
    | Some (status, stream, rounds) => Some ((status, 0%nat), stream, rounds)
    end.

(** The output of a failed read keeps the zeros behind what was read. *)
Definition read_frame (descriptor : Z) (maximum_message_bytes : nat) (stream : bytes) (rounds : list Round)
  : option (Status * bytes * bytes * list Round) :=
  if descriptor <? 0 then Some (NOT_CONNECTED, [], stream, rounds)
  else
    match read_exactly 4 stream rounds with
    | None => None
    | Some (OK, prefix, stream, rounds) =>
        let size := Z.to_nat (read_u32 prefix) in
        if (maximum_message_bytes <? size)%nat then Some (MESSAGE_TOO_LARGE, [], stream, rounds)
        else
          match read_exactly size stream rounds with
          | None => None
          | Some (status, buffer, stream, rounds) =>
              Some (status, buffer ++ replicate (size - length buffer) 0, stream, rounds)
          end
    | Some (status, _, stream, rounds) => Some (status, [], stream, rounds)
    end.

(** ** Conversations *)

(** A writer that sends the payloads one after the other, while it succeeds. *)
Fixpoint write_frames (maximum : nat) (payloads : list bytes) (stream : bytes) (rounds : list Round)
  : option (TransferResult * bytes * list Round) :=
  match payloads with
  | [] => Some ((OK, 0%nat), stream, rounds)
  | payload :: payloads =>
      match write_frame 0 payload maximum stream rounds with
      | Some ((OK, _), stream, rounds) => write_frames maximum payloads stream rounds
      | other => other
      end
  end.

(** A reader that reads [count] messages, while it succeeds. *)
Fixpoint read_frames (count maximum : nat) (stream : bytes) (rounds : list Round)
  : option (Status * list bytes * bytes * list Round) :=
  match count with
  | O => Some (OK, [], stream, rounds)
  | S count =>
      match read_frame 0 maximum stream rounds with
      | Some (OK, payload, stream, rounds) =>
          match read_frames count maximum stream rounds with
          | Some (status, payloads, stream, rounds) => Some (status, payload :: payloads, stream, rounds)
          | None => None
          end
      | Some (status, _, stream, rounds) => Some (status, [], stream, rounds)
      | None => None
      end
  end.

(** ** What framing promises

    Whatever pieces the descriptors transfer, the messages written are the
    messages read; a stream that ends inside a message is not taken for one
    that ended before it, except right behind a length. *)

(** ** Rounds *)

(** Rounds that only delay and transfer. *)
Definition benign (round : Round) : bool :=
  match round with TimedOut | Ready (Transfers _ | Interrupted) => true | _ => false end.

Definition transfers (rounds : list Round) : nat :=
  length (List.filter (fun round => match round with Ready (Transfers _) => true | _ => false end) rounds).

Lemma wait_shortens rounds outcome rest : wait_until_ready rounds = Some (outcome, rest) -> (length rest < length rounds)%nat.
Proof.
  induction rounds as [|[] rounds IH]; cbn; try done; try (intros [= _ <-]; lia).
  intros H%IH. lia.
Qed.

Lemma wait_benign rounds :
  forallb benign rounds = true -> (0 < transfers rounds)%nat ->
  exists answer rest, wait_until_ready rounds = Some (Ok answer, rest) /\ forallb benign rest = true /\
    (length rest < length rounds)%nat /\
    (answer = Interrupted /\ transfers rest = transfers rounds \/ exists n, answer = Transfers n /\ transfers rounds = S (transfers rest)).
Proof.
  induction rounds as [|round rounds IH]; cbn; intros Hb Ht; [unfold transfers in Ht; cbn in Ht; lia|].
  apply andb_prop in Hb as [Hr Hb]. destruct round as [| | | |[n| | | |]]; try done.
  - destruct (IH Hb Ht) as (answer & rest & Hw & Hrest & Hl & Hcase). exists answer, rest. split_and!; try done; lia.
  - exists (Transfers n), rounds. split_and!; try done; [lia|]. right. by exists n.
  - exists Interrupted, rounds. split_and!; try done; [lia|]. by left.
Qed.

(** ** Reading *)

Lemma piece_split n (stream : bytes) : take n stream ++ drop (length (take n stream)) stream = stream.
Proof.
  rewrite length_take. destruct (Nat.le_gt_cases n (length stream)).
  - rewrite Nat.min_l by done. apply take_drop.
  - rewrite Nat.min_r, take_ge, drop_all by lia. apply app_nil_r.
Qed.

(** Enough transfers are to come, one per byte at worst. *)
Lemma read_loop_whole wanted : forall fuel buffer stream rounds,
  forallb benign rounds = true -> (length rounds < fuel)%nat ->
  (wanted - length buffer <= length stream)%nat -> (wanted - length buffer <= transfers rounds)%nat ->
  exists rest, read_loop fuel wanted buffer stream rounds =
    Some (OK, buffer ++ take (wanted - length buffer) stream, drop (wanted - length buffer) stream, rest) /\
    forallb benign rest = true /\ (transfers rounds <= transfers rest + (wanted - length buffer))%nat.
Proof.
  induction fuel as [|fuel IH]; intros buffer stream rounds Hb Hf Hs Ht; [lia|]. cbn [read_loop].
  destruct (Nat.leb_spec wanted (length buffer)) as [Hle|Hlt].
  { replace (wanted - length buffer)%nat with 0%nat by lia. exists rounds. rewrite app_nil_r. split_and!; [done..|lia]. }
  destruct (wait_benign rounds Hb ltac:(lia)) as (answer & rest & -> & Hrest & Hl & [[-> Htr]|[n [-> Htr]]]).
  - rewrite <- Htr in *. apply IH; [done|lia|done|done].
  - set (piece := take (Nat.min (S n) (wanted - length buffer)) stream).
    assert (Hp : (1 <= length piece <= wanted - length buffer)%nat) by (unfold piece; rewrite length_take; lia).
    rewrite bool_decide_eq_false_2 by (by intros E; rewrite E in Hp; cbn in Hp; lia).
    pose proof (piece_split (Nat.min (S n) (wanted - length buffer)) stream) as Hpiece. fold piece in Hpiece.
    destruct (IH (buffer ++ piece) (drop (length piece) stream) rest) as (rest' & -> & Hb' & Ht').
    + done.
    + lia.
    + rewrite length_app, length_drop. lia.
    + rewrite length_app. lia.
    + exists rest'. rewrite length_app in *. split_and!; [|done|lia].
      replace (wanted - length buffer)%nat with (length piece + (wanted - (length buffer + length piece)))%nat by lia.
      rewrite <- Hpiece at 3 4. by rewrite take_app_add, drop_app_add, <- app_assoc.
Qed.

(** A stream that ends too early. *)
Lemma read_loop_short wanted : forall fuel buffer stream rounds,
  forallb benign rounds = true -> (length rounds < fuel)%nat ->
  (length stream < wanted - length buffer)%nat -> (length stream < transfers rounds)%nat ->
  exists rest, read_loop fuel wanted buffer stream rounds =
    Some (if bool_decide (buffer ++ stream = []) then END_OF_STREAM else TRUNCATED_MESSAGE, buffer ++ stream, [], rest).
Proof.
  induction fuel as [|fuel IH]; intros buffer stream rounds Hb Hf Hs Ht; [lia|]. cbn [read_loop].
  destruct (Nat.leb_spec wanted (length buffer)) as [Hle|Hlt]; [lia|].
  destruct (wait_benign rounds Hb ltac:(lia)) as (answer & rest & -> & Hrest & Hl & [[-> Htr]|[n [-> Htr]]]).
  - apply IH; [done|lia|done|lia].
  - case_bool_decide as Hp.
    + assert (stream = []) as ->.
      { apply (f_equal length) in Hp. rewrite length_take in Hp. apply nil_length_inv. cbn [length] in Hp. lia. }
      exists rest. by rewrite app_nil_r.
    + set (piece := take _ stream) in *.
      pose proof (piece_split (Nat.min (S n) (wanted - length buffer)) stream) as Hpiece. fold piece in Hpiece.
      assert (Hlen : (1 <= length piece)%nat) by (destruct piece; [done|cbn; lia]).
      assert (Hle : (length piece + length (drop (length piece) stream) = length stream)%nat) by (by rewrite <- length_app, Hpiece).
      destruct (IH (buffer ++ piece) (drop (length piece) stream) rest) as (rest' & ->).
      * done.
      * lia.
      * rewrite length_app. lia.
      * lia.
      * exists rest'. by rewrite <- app_assoc, Hpiece.
Qed.

(** ** Frames *)

Definition frame (payload : bytes) : bytes := append_u32 [] (Z.of_nat (length payload)) ++ payload.

Definition fits (maximum : nat) (payload : bytes) : Prop :=
  (length payload <= maximum)%nat /\ Z.of_nat (length payload) < 2 ^ 32.

Lemma length_frame payload : length (frame payload) = (4 + length payload)%nat.
Proof. by unfold frame; rewrite append_u32_spec, length_app. Qed.

Lemma prefix_size (payload : bytes) : Z.of_nat (length payload) < 2 ^ 32 ->
  Z.to_nat (read_u32 (append_u32 [] (Z.of_nat (length payload)))) = length payload.
Proof.
  intros Hp. rewrite append_u32_spec. cbn [app].
  rewrite read_u32_spec by (apply be_bytes_are_bytes || apply length_be_bytes).
  rewrite be_value_be_bytes; [by rewrite Nat2Z.id|]. unfold in_width. lia.
Qed.

Lemma read_frame_whole maximum payload more rounds :
  fits maximum payload -> forallb benign rounds = true -> (length (frame payload) <= transfers rounds)%nat ->
  exists rest, read_frame 0 maximum (frame payload ++ more) rounds = Some (OK, payload, more, rest) /\
    forallb benign rest = true /\ (transfers rounds <= transfers rest + length (frame payload))%nat.
Proof.
  intros [Hmax Hwidth] Hb Ht. rewrite length_frame in *. unfold read_frame, read_exactly, frame. cbn [Z.ltb Z.compare].
  set (prefix := append_u32 [] (Z.of_nat (length payload))).
  assert (Hl : length prefix = 4%nat) by (by unfold prefix; rewrite append_u32_spec).
  destruct (read_loop_whole 4 (S (length rounds)) [] ((prefix ++ payload) ++ more) rounds) as (rest & -> & Hb' & Ht');
    [done|lia|rewrite !length_app; cbn; lia|cbn; lia|].
  cbn [length Nat.sub app] in *. rewrite <- !app_assoc, take_app_length', drop_app_length' by done.
  unfold prefix. rewrite prefix_size by done. rewrite (proj2 (Nat.ltb_ge _ _) Hmax).
  destruct (read_loop_whole (length payload) (S (length rest)) [] (payload ++ more) rest) as (rest' & -> & Hb'' & Ht'');
    [done|lia|rewrite length_app; cbn; lia|cbn; lia|].
  cbn [length app]. rewrite Nat.sub_0_r in *. rewrite take_app_length, drop_app_length, Nat.sub_diag. cbn [replicate].
  exists rest'. rewrite app_nil_r. split_and!; [done|done|]. cbn in *. lia.
Qed.

(** A stream that ends inside a frame. *)
Lemma read_frame_short maximum payload k rounds :
  fits maximum payload -> forallb benign rounds = true -> (k < length (frame payload))%nat -> (k < transfers rounds)%nat ->
  exists output rest, read_frame 0 maximum (take k (frame payload)) rounds =
    Some (if bool_decide (k = 0%nat \/ k = 4%nat) then END_OF_STREAM else TRUNCATED_MESSAGE, output, [], rest).
Proof.
  intros [Hmax Hwidth] Hb Hk Ht. rewrite length_frame in *. unfold read_frame, read_exactly, frame. cbn [Z.ltb Z.compare].
  set (prefix := append_u32 [] (Z.of_nat (length payload))).
  assert (Hl : length prefix = 4%nat) by (by unfold prefix; rewrite append_u32_spec).
  destruct (Nat.lt_ge_cases k 4) as [Hlt|Hge].
  - destruct (read_loop_short 4 (S (length rounds)) [] (take k (prefix ++ payload)) rounds) as (rest & ->);
      [done|lia|rewrite length_take, length_app; cbn; lia|rewrite length_take; lia|].
    exists [], rest. cbn [app]. destruct k as [|k]; [done|].
    rewrite bool_decide_eq_false_2 by (intros E; apply (f_equal length) in E; rewrite length_take, length_app in E; cbn [length] in E; lia).
    by rewrite bool_decide_eq_false_2 by lia.
  - replace k with (length prefix + (k - 4))%nat by lia. rewrite take_app_add.
    destruct (read_loop_whole 4 (S (length rounds)) [] (prefix ++ take (k - 4) payload) rounds) as (rest & -> & Hb' & Ht');
      [done|lia|rewrite !length_app; cbn; lia|cbn; lia|].
    cbn [length Nat.sub app] in *. rewrite take_app_length', drop_app_length' by done.
    replace (Z.to_nat (read_u32 prefix)) with (length payload) by (symmetry; by apply prefix_size). rewrite (proj2 (Nat.ltb_ge _ _) Hmax).
    destruct (read_loop_short (length payload) (S (length rest)) [] (take (k - 4) payload) rest) as (rest' & ->);
      [done|lia|rewrite length_take; cbn; lia|rewrite length_take; lia|].
    eexists _, rest'. cbn [app]. rewrite Hl. do 5 f_equal.
    destruct (decide (k = 4%nat)) as [->|Hne].
    + done.
    + rewrite bool_decide_eq_false_2 by (intros E; apply (f_equal length) in E; rewrite length_take in E; cbn [length] in E; lia).
      by rewrite bool_decide_eq_false_2 by lia.
Qed.

Definition frames (payloads : list bytes) : bytes := concat (map frame payloads).

Lemma read_frames_whole maximum payloads : forall count more rounds,
  Forall (fits maximum) payloads -> forallb benign rounds = true -> (length (frames payloads) <= transfers rounds)%nat ->
  exists rest, read_frames (length payloads + count) maximum (frames payloads ++ more) rounds =
    (match read_frames count maximum more rest with
     | Some (status, others, stream, rounds) => Some (status, payloads ++ others, stream, rounds)
     | None => None
     end) /\ forallb benign rest = true /\ (transfers rounds <= transfers rest + length (frames payloads))%nat.
Proof.
  induction payloads as [|payload payloads IH]; intros count more rounds Hf Hb Ht.
  - exists rounds. cbn. split_and!; [by destruct (read_frames _ _ _ _) as [[[[] ?] ?]|]|done|lia].
  - apply Forall_cons in Hf as [Hp Hf]. unfold frames in *. cbn [map concat length Nat.add read_frames] in *.
    rewrite length_app in *. rewrite <- app_assoc.
    destruct (read_frame_whole maximum payload (concat (map frame payloads) ++ more) rounds Hp Hb ltac:(lia)) as (rest & -> & Hb' & Ht').
    destruct (IH count more rest Hf Hb' ltac:(lia)) as (rest' & -> & Hb'' & Ht'').
    exists rest'. split_and!; [|done|lia]. by destruct (read_frames _ _ _ _) as [[[[] ?] ?]|].
Qed.

(** ** Writing *)

Lemma wait_error rounds status rest : wait_until_ready rounds = Some (Err status, rest) -> status <> OK.
Proof. induction rounds as [|[] rounds IH]; cbn; try done; by intros [= <- _]. Qed.

(** A write leaves a prefix of its bytes, all of them exactly when it succeeds. *)
Lemma write_loop_prefix : forall fuel data stream rounds status stream' rest,
  write_loop fuel data stream rounds = Some (status, stream', rest) ->
  exists k, (k <= length data)%nat /\ stream' = stream ++ take k data /\ (status = OK <-> k = length data).
Proof.
  assert (Hstop : forall (b : Z) (data stream : bytes) status, status <> OK ->
    exists k, (k <= length (b :: data))%nat /\ stream = stream ++ take k (b :: data) /\ (status = OK <-> k = length (b :: data))).
  { intros b data stream status Hs. exists 0%nat. rewrite app_nil_r. split_and!; [lia|done|]. split; [done|]. by intros ?. }
  induction fuel as [|fuel IH]; intros data stream rounds status stream' rest;
    (destruct data as [|b data]; [by intros [= <- <- _]; exists 0%nat; rewrite app_nil_r|]); [done|].
  cbn [write_loop]. destruct (wait_until_ready rounds) as [[[[n| | | |]|ready] rounds']|] eqn:Hw; [| | | | | |done].
  - intros H%IH. destruct H as (k & Hk & -> & Hiff). rewrite length_drop in *.
    exists (Nat.min (S n) (length (b :: data)) + k)%nat. split; [lia|]. split; [|split; intros Hx; [apply Hiff in Hx|apply Hiff]; lia].
    rewrite <- app_assoc. f_equal. destruct (Nat.le_gt_cases (S n) (length (b :: data))) as [Hle|Hgt].
    + by rewrite Nat.min_l, take_take_drop by done.
    + rewrite Nat.min_r, (take_ge _ (S n)), (drop_ge _ (S n)), take_nil, app_nil_r by lia. rewrite take_ge by lia. done.
  - intros [= <- <- <-]. by apply Hstop.
  - apply IH.
  - intros [= <- <- <-]. by apply Hstop.
  - intros [= <- <- <-]. by apply Hstop.
  - intros [= <- <- <-]. apply Hstop, (wait_error _ _ _ Hw).
Qed.

Lemma write_frame_prefix maximum payload stream rounds status n stream' rest :
  write_frame 0 payload maximum stream rounds = Some ((status, n), stream', rest) ->
  exists k, (k <= length (frame payload))%nat /\ stream' = stream ++ take k (frame payload) /\
    (status = OK <-> k = length (frame payload)) /\ (status = OK -> fits maximum payload).
Proof.
  rewrite length_frame. unfold write_frame, write_all, frame. cbn [Z.ltb Z.compare].
  set (prefix := append_u32 [] (Z.of_nat (length payload))).
  assert (Hl : length prefix = 4%nat) by (by unfold prefix; rewrite append_u32_spec).
  assert (Hnone : forall s (sink : bytes), s <> OK -> exists k, (k <= 4 + length payload)%nat /\
    sink = sink ++ take k (prefix ++ payload) /\ (s = OK <-> k = (4 + length payload)%nat) /\ (s = OK -> fits maximum payload)).
  { intros s sink Hs. exists 0%nat. rewrite app_nil_r. split_and!; [lia|done| |done]. split; [done|lia]. }
  destruct (_ || _) eqn:Elarge; [intros [= <- _ <- _]; by apply Hnone|].
  apply orb_false_iff in Elarge as [Emax%Nat.ltb_ge Ewidth%Z.ltb_ge].
  assert (Hfits : fits maximum payload) by (split; lia).
  destruct (write_loop _ prefix _ _) as [[[s1 sink1] rounds1]|] eqn:E1; [|done].
  destruct (write_loop_prefix _ _ _ _ _ _ _ E1) as (k1 & Hk1 & -> & Hiff1).
  destruct (decide (s1 = OK)) as [->|Hs1].
  - assert (k1 = 4%nat) as -> by (rewrite <- Hl; by apply Hiff1).
    destruct (write_loop _ payload _ _) as [[[s2 sink2] rounds2]|] eqn:E2; [|done].
    destruct (write_loop_prefix _ _ _ _ _ _ _ E2) as (k2 & Hk2 & -> & Hiff2).
    intros H. assert (Hout : s2 = status /\ stream' = (stream ++ take 4 prefix) ++ take k2 payload).
    { destruct s2; cbn in H; by injection H as <- _ <- _. }
    destruct Hout as [-> ->]. exists (length prefix + k2)%nat. rewrite <- app_assoc, take_app_add, (take_ge prefix) by lia.
    split_and!; [lia|done| |done]. rewrite Hiff2. lia.
  - intros H. assert (Hout : s1 = status /\ stream' = stream ++ take k1 prefix) by (destruct s1; cbn in H; done || by injection H as <- _ <- _).
    destruct Hout as [-> ->]. exists k1. assert (Hk : k1 <> 4%nat) by (intros ->; apply Hs1, Hiff1; lia).
    rewrite take_app_le by lia. split_and!; [lia|done| |done]. split; [done|lia].
Qed.

(** A sequence of writes leaves the frames it wrote and a prefix of the next. *)
Lemma write_frames_prefix maximum : forall payloads stream rounds status n stream' rest,
  write_frames maximum payloads stream rounds = Some ((status, n), stream', rest) ->
  (status = OK /\ stream' = stream ++ frames payloads /\ Forall (fits maximum) payloads) \/
  (status <> OK /\ exists done next others k, payloads = done ++ next :: others /\ Forall (fits maximum) done /\
    (k < length (frame next))%nat /\ stream' = stream ++ frames done ++ take k (frame next)).
Proof.
  induction payloads as [|payload payloads IH]; intros stream rounds status n stream' rest; cbn [write_frames].
  { intros [= <- _ <- _]. left. by rewrite app_nil_r. }
  destruct (write_frame _ _ _ _ _) as [[[[s m] sink] rounds']|] eqn:Ew; [|done].
  destruct (write_frame_prefix _ _ _ _ _ _ _ _ Ew) as (k & Hk & -> & Hiff & Hfits).
  destruct (decide (s = OK)) as [->|Hs].
  - assert (k = length (frame payload)) as -> by (by apply Hiff). rewrite take_ge by lia. intros H%IH.
    destruct H as [(-> & -> & Hf)|(Hs & ok & next & others & k & -> & Hf & Hk' & ->)].
    + left. split_and!; [done| |by constructor; [apply Hfits|]]. unfold frames. cbn [map concat]. by rewrite app_assoc.
    + right. split; [done|]. exists (payload :: ok), next, others, k.
      split_and!; [done|by constructor; [apply Hfits|]|done|]. unfold frames. cbn [map concat]. by rewrite !app_assoc.
  - intros H. assert (s = status /\ stream' = stream ++ take k (frame payload)) as [-> ->].
    { destruct s; cbn in H; done || by injection H as <- _ <- _. }
    right. split; [done|]. exists [], payload, payloads, k. split_and!; [done|constructor| |done].
    assert (k <> length (frame payload)) by (intros ->; by apply Hs, Hiff). lia.
Qed.

(** ** The theorems *)

(** C28. Messages cross a byte stream whole and in order.  Whatever pieces the system
    calls transfer on either side, and however often they are interrupted or
    time out, what a successful sequence of writes left in the stream is read
    back as exactly the messages written, and then the end of the stream. *)
Theorem frames_round_trip maximum payloads writes n stream writes' reads :
  write_frames maximum payloads [] writes = Some ((OK, n), stream, writes') ->
  forallb benign reads = true -> (length stream < transfers reads)%nat ->
  exists rest, read_frames (S (length payloads)) maximum stream reads = Some (END_OF_STREAM, payloads, [], rest).
Proof.
  intros Hw Hb Ht. destruct (write_frames_prefix _ _ _ _ _ _ _ _ Hw) as [(_ & -> & Hf)|[Hs _]]; [|done]. cbn [app] in *.
  destruct (read_frames_whole maximum payloads 1 [] reads Hf Hb ltac:(lia)) as (rest & Hr & Hb' & Ht').
  rewrite app_nil_r, Nat.add_1_r in Hr. rewrite Hr. cbn [read_frames]. unfold read_frame, read_exactly. cbn [Z.ltb Z.compare].
  destruct (read_loop_short 4 (S (length rest)) [] [] rest) as (rest' & ->); [done|lia|cbn; lia|cbn; lia|].
  cbn. rewrite app_nil_r. by exists rest'.
Qed.

(** C29. A writer of payloads that fit the maximum and that fails part way leaves
    whole frames and the first [k] bytes of the next.  The reader delivers the
    whole ones and then reports: the end of the stream if nothing of the next
    frame was written ([k = 0]), as it should; a truncated message when the bytes
    end inside the length or inside the payload.  When they end right behind the
    four bytes of the length, the report is again the end of the stream: there
    the code departs from what its statuses say, see [length_without_payload]. *)
Theorem broken_frame_reported maximum payloads writes status n stream writes' reads :
  write_frames maximum payloads [] writes = Some ((status, n), stream, writes') -> status <> OK ->
  Forall (fits maximum) payloads ->
  forallb benign reads = true -> (length stream < transfers reads)%nat ->
  exists done next others k rest,
    payloads = done ++ next :: others /\ stream = frames done ++ take k (frame next) /\ (k < length (frame next))%nat /\
    read_frames (S (length done)) maximum stream reads =
      Some (if bool_decide (k = 0%nat \/ k = 4%nat) then END_OF_STREAM else TRUNCATED_MESSAGE, done, [], rest).
Proof.
  intros Hw Hs Hall Hb Ht. destruct (write_frames_prefix _ _ _ _ _ _ _ _ Hw) as [(? & _)|(_ & ok & next & others & k & Hp & Hf & Hk & ->)]; [done|].
  cbn [app] in *. exists ok, next, others, k. rewrite length_app, length_take in Ht.
  destruct (read_frames_whole maximum ok 1 (take k (frame next)) reads Hf Hb ltac:(lia)) as (rest & Hr & Hb' & Ht').
  rewrite Hp in Hall. apply Forall_app in Hall as [_ [Hnext _]%Forall_cons].
  destruct (read_frame_short maximum next k rest Hnext Hb' Hk ltac:(lia)) as (output & rest' & Hshort).
  rewrite Nat.add_1_r in Hr. rewrite Hr. cbn [read_frames]. rewrite Hshort. exists rest'. split_and!; [done..|].
  case_bool_decide; by rewrite app_nil_r.
Qed.

(** ** Concrete streams *)

(** Three messages, the second one empty, written with interruptions. *)
Definition sample_payloads : list bytes := [[7; 8; 9]; []; [1]].
Definition sample_writes : list Round :=
  [TimedOut; Ready (Transfers 1); Ready Interrupted; Ready (Transfers 9); Ready (Transfers 0); TimedOut; Ready (Transfers 7);
   Ready (Transfers 3); Ready (Transfers 3); Ready (Transfers 0)].
Definition sample_sent : bytes := [0; 0; 0; 3; 7; 8; 9; 0; 0; 0; 0; 0; 0; 0; 1; 1].
Definition sample_reads : list Round :=
  TimedOut :: Ready (Transfers 2) :: Ready Interrupted :: replicate 20 (Ready (Transfers 0)).

Lemma frames_round_trip_witness :
  match read_frames 4 10 sample_sent sample_reads with
  | Some (status, messages, _, _) => status = END_OF_STREAM /\ messages = sample_payloads
  | None => False
  end.
Proof.
  destruct (frames_round_trip 10 sample_payloads sample_writes 0 sample_sent [] sample_reads) as (rest & H);
    [vm_compute; reflexivity|vm_compute; reflexivity|apply Nat.ltb_lt; vm_compute; reflexivity|].
  change (S (length sample_payloads)) with 4%nat in H. rewrite H. exact (conj eq_refl eq_refl).
Defined.

(** The connection breaks after the length of the third message. *)
Definition broken_writes : list Round := take 9 sample_writes ++ [Ready Disconnected].
Definition broken_sent : bytes := [0; 0; 0; 3; 7; 8; 9; 0; 0; 0; 0; 0; 0; 0; 1].

Lemma broken_frame_reported_witness :
  exists done next others k, sample_payloads = done ++ next :: others /\ broken_sent = frames done ++ take k (frame next).
Proof.
  destruct (broken_frame_reported 10 sample_payloads broken_writes NOT_CONNECTED 0 broken_sent [] sample_reads)
    as (ok & next & others & k & rest & Hp & Hs & _);
    [vm_compute; reflexivity|done|repeat (apply Forall_cons; split; [split; cbn; lia|]); apply Forall_nil; exact I|vm_compute; reflexivity|apply Nat.ltb_lt; vm_compute; reflexivity|].
  by exists ok, next, others, k.
Defined.

(** A message whose payload never comes ends like a stream without it. *)
Example length_without_payload :
  match read_frame 0 10 [0; 0; 0; 3] sample_reads, read_frame 0 10 [0; 0; 0; 3; 1] sample_reads with
  | Some (status, _, _, _), Some (status', _, _, _) => status = END_OF_STREAM /\ status' = TRUNCATED_MESSAGE
  | _, _ => False
  end.
Proof. vm_compute. done. Qed.
