(* ===== verification/Directory.v ===== *)
(** * The channel directory (utils/ipc/directory.cpp)

    Names and numeric identifiers of registered channels.  Channels are shared
    objects of a store; a registry holds the directory, the store, and the
    channels whose close has left the lock but not yet detached them. *)
From S2P Require Import Prelude Bytes IpcMessage Channel FramedIo ChannelProps.
From Stdlib Require Import Sorted.
Open Scope Z_scope.

(** An entry is an identifier, of 32 bits, and the handle of a channel. *)
Record DirectoryImpl := {
  entries : gmap bytes (Z * nat);
  channels_by_id : gmap Z nat;
  next_channel_id : Z;
}.

Definition new_directory : DirectoryImpl := {| entries := ∅; channels_by_id := ∅; next_channel_id := 1 |}.

(** [open_channel] of the channel [c] behind [handle]; the pool is the
    directory's.  The identifier is zero on failure. *)
Definition open_channel (d : DirectoryImpl) (handle : nat) (c : ChannelImpl) (pool_active : bool)
  : DirectoryImpl * ChannelImpl * Status * Z :=
  if negb (bool_decide (channel_status c = OK)) then (d, c, channel_status c, 0)
  else if bool_decide (is_Some (entries d !! channel_name c)) then (d, c, DUPLICATE_CHANNEL, 0)
  else if next_channel_id d =? 0 then (d, c, IDENTIFIER_EXHAUSTED, 0)
  else
    let '(c, delivery_status) := attach_delivery c pool_active in
    if negb (bool_decide (delivery_status = OK)) then (d, c, delivery_status, 0)
    else
      let id := next_channel_id d in
      ({| entries := <[channel_name c := (id, handle)]> (entries d);
          channels_by_id := <[id := handle]> (channels_by_id d);
          next_channel_id := wrap 32 (id + 1) |}, c, OK, id).

(** [close_channel] up to the end of its lock: the channel still to detach. *)
Definition close_channel (d : DirectoryImpl) (name : bytes) : DirectoryImpl * Status * option nat :=
  if negb (valid_channel_name name) then (d, INVALID_CHANNEL_NAME, None)
  else
    match entries d !! name with
    | None => (d, CHANNEL_NOT_FOUND, None)
    | Some (id, handle) =>
        ({| entries := delete name (entries d); channels_by_id := delete id (channels_by_id d);
            next_channel_id := next_channel_id d |}, OK, Some handle)
    end.

(** [detach_delivery_queue] of the channel of a handle, up to its wait. *)
Definition detach_channel (channels : gmap nat ChannelImpl) (handle : nat) : gmap nat ChannelImpl :=
  match channels !! handle with
  | Some c => match maximum_depth c with None => channels | Some _ => <[handle := detach_locked c false]> channels end
  | None => channels
  end.

(** The destructor: every channel is detached, then both indexes are cleared. *)
Definition destroy_directory (d : DirectoryImpl) (channels : gmap nat ChannelImpl) : DirectoryImpl * gmap nat ChannelImpl :=
  ({| entries := ∅; channels_by_id := ∅; next_channel_id := next_channel_id d |},
   fold_left detach_channel (map snd (map_to_list (channels_by_id d))) channels).

Definition get_channel (d : DirectoryImpl) (name : bytes) : option nat :=
  if negb (valid_channel_name name) then None else snd <$> entries d !! name.

Definition get_channel_of_id (d : DirectoryImpl) (channel_id : Z) : option nat :=
  if channel_id =? 0 then None else channels_by_id d !! channel_id.

Definition get_channel_id (d : DirectoryImpl) (name : bytes) : Status * Z :=
  if negb (valid_channel_name name) then (INVALID_CHANNEL_NAME, 0)
  else match entries d !! name with None => (CHANNEL_NOT_FOUND, 0) | Some (id, _) => (OK, id) end.

Definition directory_size (d : DirectoryImpl) : nat := size (entries d).

Section Routing.
Context (channel_transmit : nat -> bytes -> TransferResult).

Definition transmit (d : DirectoryImpl) (name data : bytes) : TransferResult :=
  if negb (valid_channel_name name) then (INVALID_CHANNEL_NAME, 0%nat)
  else match get_channel d name with None => (CHANNEL_NOT_FOUND, 0%nat) | Some handle => channel_transmit handle data end.

Definition transmit_to_id (d : DirectoryImpl) (channel_id : Z) (data : bytes) : TransferResult :=
  if channel_id =? 0 then (INVALID_ARGUMENT, 0%nat)
  else
    match get_channel_of_id d channel_id with
    | None => (CHANNEL_NOT_FOUND, 0%nat)
    | Some handle => channel_transmit handle data
    end.
End Routing.

(** The two [subscribe] members choose a channel as [transmit] does. *)
Definition subscribe_by_name (d : DirectoryImpl) (channels : gmap nat ChannelImpl) (name : bytes) (has_callback : bool)
    (handle : option Z) : gmap nat ChannelImpl * result Status Z :=
  if negb (valid_channel_name name) then (channels, Err INVALID_CHANNEL_NAME)
  else
    match get_channel d name ≫= fun i => (fun c => (i, c)) <$> channels !! i with
    | None => (channels, Err CHANNEL_NOT_FOUND)
    | Some (i, c) => let '(c, outcome) := subscribe_handle c has_callback handle in (<[i := c]> channels, outcome)
    end.

Definition subscribe_by_id (d : DirectoryImpl) (channels : gmap nat ChannelImpl) (channel_id : Z) (has_callback : bool)
    (handle : option Z) : gmap nat ChannelImpl * result Status Z :=
  if channel_id =? 0 then (channels, Err INVALID_ARGUMENT)
  else
    match get_channel_of_id d channel_id ≫= fun i => (fun c => (i, c)) <$> channels !! i with
    | None => (channels, Err CHANNEL_NOT_FOUND)
    | Some (i, c) => let '(c, outcome) := subscribe_handle c has_callback handle in (<[i := c]> channels, outcome)
    end.

(** ** Histories *)

(** [assigned]: the identifiers given out, in order. *)
Record Registry := {
  directory : DirectoryImpl;
  channels : gmap nat ChannelImpl;
  closing : list nat;
  assigned : list Z;
}.

Definition new_registry (channels : gmap nat ChannelImpl) : Registry :=
  {| directory := new_directory; channels := channels; closing := []; assigned := [] |}.

(** [ChannelChanges]: the channel takes some steps of its own, of deliveries,
    subscriptions or its status. *)
Inductive RegistryChoice :=
| OpenChannel (handle : option nat) (pool_active : bool)
| CloseChannel (name : bytes)
| DetachClosed (index : nat)
| SubscribeByName (name : bytes) (has_callback : bool) (handle : option Z)
| SubscribeById (channel_id : Z) (has_callback : bool) (handle : option Z)
| ChannelChanges (handle : nat) (changed : ChannelImpl).

(** What a channel keeps between its attaching and its detaching. *)
Definition same_registration (c c' : ChannelImpl) : Prop :=
  channel_name c' = channel_name c /\ maximum_depth c' = maximum_depth c /\
  delivery_attached c' = delivery_attached c /\ destroying c' = destroying c.

#[export] Instance same_registration_dec c c' : Decision (same_registration c c').
Proof. unfold same_registration. apply _. Defined.

Definition with_channels (r : Registry) (channels : gmap nat ChannelImpl) : Registry :=
  {| directory := directory r; channels := channels; closing := closing r; assigned := assigned r |}.

Definition registry_step (r : Registry) (choice : RegistryChoice) : Registry * Status :=
  match choice with
  | OpenChannel handle pool_active =>
      match handle ≫= fun i => (fun c => (i, c)) <$> channels r !! i with
      | None => (r, INVALID_ARGUMENT)
      | Some (i, c) =>
          let '(d, c, status, id) := open_channel (directory r) i c pool_active in
          ({| directory := d; channels := <[i := c]> (channels r); closing := closing r;
              assigned := if bool_decide (status = OK) then assigned r ++ [id] else assigned r |}, status)
      end
  | CloseChannel name =>
      let '(d, status, handle) := close_channel (directory r) name in
      ({| directory := d; channels := channels r; closing := closing r ++ option_list handle; assigned := assigned r |}, status)
  | DetachClosed i =>
      match closing r !! i with
      | None => (r, OK)
      | Some h =>
          ({| directory := directory r; channels := detach_channel (channels r) h; closing := without i (closing r);
              assigned := assigned r |}, OK)
      end
  | SubscribeByName name has_callback handle =>
      let '(channels, outcome) := subscribe_by_name (directory r) (channels r) name has_callback handle in
      (with_channels r channels, match outcome with Ok _ => OK | Err status => status end)
  | SubscribeById channel_id has_callback handle =>
      let '(channels, outcome) := subscribe_by_id (directory r) (channels r) channel_id has_callback handle in
      (with_channels r channels, match outcome with Ok _ => OK | Err status => status end)
  | ChannelChanges i c' =>
      match channels r !! i with
      | Some c => if bool_decide (same_registration c c') then (with_channels r (<[i := c']> (channels r)), OK) else (r, OK)
      | None => (r, OK)
      end
  end.

Definition run_registry (r : Registry) (choices : list RegistryChoice) : Registry :=
  fold_left (fun r choice => fst (registry_step r choice)) choices r.

(** ** What the directory promises

    Names and identifiers stay one consistent index of the registered channels,
    identifiers are never given out twice, and registered channels deliver. *)

(** A synchronous channel, or a bounded one that is attached. *)
Definition delivers (c : ChannelImpl) : Prop := maximum_depth c = None \/ delivery_attached c = true.

(** The identifiers [1], [2] and so on have been given out, and the next one is
    zero when all of 32 bits have. *)
Definition assigned_ok (assigned : list Z) (next : Z) : Prop :=
  assigned = map Z.of_nat (seq 1 (length assigned)) /\ Z.of_nat (length assigned) < 2 ^ 32 /\
  next = wrap 32 (Z.of_nat (length assigned) + 1).

Lemma assigned_in assigned next id : assigned_ok assigned next -> id ∈ assigned -> 0 < id <= Z.of_nat (length assigned).
Proof.
  intros (E & _) Hin. rewrite E in Hin. apply list_elem_of_fmap in Hin as (n & -> & Hn). apply elem_of_seq in Hn. lia.
Qed.

Lemma assigned_next assigned next : assigned_ok assigned next ->
  (next = 0 <-> Z.of_nat (length assigned) = 2 ^ 32 - 1) /\ (next <> 0 -> next = Z.of_nat (length assigned) + 1).
Proof.
  intros (_ & Hlt & ->). destruct (decide (Z.of_nat (length assigned) = 2 ^ 32 - 1)) as [->|Hne].
  - split; [done|by intros []].
  - rewrite wrap_small by (unfold in_width; lia). split; [|done]. split; lia.
Qed.

Lemma assigned_snoc assigned next : assigned_ok assigned next -> next <> 0 ->
  assigned_ok (assigned ++ [next]) (wrap 32 (next + 1)).
Proof.
  intros Hok Hz. destruct (assigned_next _ _ Hok) as [H0 H1]. specialize (H1 Hz). destruct Hok as (E & Hlt & _).
  assert (Hne : Z.of_nat (length assigned) <> 2 ^ 32 - 1) by tauto.
  unfold assigned_ok. rewrite length_app, H1. cbn [length]. split_and!; [|lia|f_equal; lia].
  rewrite seq_app, map_app, <- E. f_equal. cbn. f_equal. lia.
Qed.

Record registry_ok (r : Registry) : Prop := {
  reg_ids : forall name id h, entries (directory r) !! name = Some (id, h) ->
    channels_by_id (directory r) !! id = Some h /\ id ∈ assigned r;
  reg_names : forall id h, channels_by_id (directory r) !! id = Some h ->
    exists name, entries (directory r) !! name = Some (id, h);
  reg_channels : forall name id h, entries (directory r) !! name = Some (id, h) ->
    exists c, channels r !! h = Some c /\ channel_name c = name /\ delivers c;
  reg_assigned : assigned_ok (assigned r) (next_channel_id (directory r));
  reg_closing : forall i h c, closing r !! i = Some h -> channels r !! h = Some c -> is_Some (maximum_depth c) ->
    delivery_attached c = true /\ (forall name id, entries (directory r) !! name <> Some (id, h)) /\
    forall j, closing r !! j = Some h -> j = i;
}.

Lemma new_registry_ok channels : registry_ok (new_registry channels).
Proof.
  split; cbn; try done.
Qed.

(** Steps of a channel that keep its registration. *)
Lemma channel_changes_ok r h c c' :
  registry_ok r -> channels r !! h = Some c -> same_registration c c' ->
  registry_ok (with_channels r (<[h := c']> (channels r))).
Proof.
  intros Hok Hc (Hname & Hdepth & Hatt & Hdes).
  assert (Hlook : forall k x', <[h := c']> (channels r) !! k = Some x' ->
    exists x, channels r !! k = Some x /\ channel_name x' = channel_name x /\ maximum_depth x' = maximum_depth x /\
      delivery_attached x' = delivery_attached x).
  { intros k x' [[<- <-]|[Hne Hx]]%lookup_insert_Some; [by exists c|by exists x']. }
  split; cbn; try apply Hok.
  - intros name id k Hk. destruct (reg_channels _ Hok _ _ _ Hk) as (x & Hx & Hn & Hd).
    destruct (decide (k = h)) as [->|Hne].
    + exists c'. rewrite lookup_insert_eq. assert (x = c) as -> by congruence. unfold delivers in *.
      by rewrite Hname, Hdepth, Hatt.
    + exists x. by rewrite lookup_insert_ne.
  - intros i k x' Hi Hx' Hb. destruct (Hlook _ _ Hx') as (x & Hx & _ & Hd & Ha). rewrite Hd in Hb. rewrite Ha.
    by apply (reg_closing _ Hok i k x).
Qed.

Lemma subscribe_handle_registration c has_callback handle c' outcome :
  subscribe_handle c has_callback handle = (c', outcome) -> same_registration c c'.
Proof.
  unfold subscribe_handle, subscribe. intros E. destruct (negb _) in E; [by injection E as <- _|].
  destruct (negb _) in E; [by injection E as <- _|]. destruct (_ =? 0) in E; [by injection E as <- _|].
  injection E as <- _. by destruct handle.
Qed.

Lemma attach_channel c pool_active c' :
  attach_delivery c pool_active = (c', OK) ->
  channel_name c' = channel_name c /\ maximum_depth c' = maximum_depth c /\ delivers c' /\
  (is_Some (maximum_depth c) -> delivery_attached c = false).
Proof.
  unfold attach_delivery, delivers. destruct (maximum_depth c) as [n|] eqn:Ed.
  - destruct pool_active; [|done]. cbn. destruct (destroying c || delivery_attached c) eqn:Eg; [done|].
    apply orb_false_iff in Eg as [_ Ea]. intros [= <-]. cbn. split_and!; [done|done|by right|done].
  - intros [= <-]. rewrite Ed. split_and!; [done|done|by left|by intros []].
Qed.

Lemma open_ok r h c pool_active d c' status id :
  registry_ok r -> channels r !! h = Some c -> open_channel (directory r) h c pool_active = (d, c', status, id) ->
  registry_ok {| directory := d; channels := <[h := c']> (channels r); closing := closing r;
                 assigned := if bool_decide (status = OK) then assigned r ++ [id] else assigned r |}.
Proof.
  intros Hok Hc.
  assert (Hsame : forall s, s <> OK -> registry_ok {| directory := directory r; channels := <[h := c]> (channels r);
    closing := closing r; assigned := if bool_decide (s = OK) then assigned r ++ [0] else assigned r |}).
  { intros s Hs. rewrite bool_decide_eq_false_2, insert_id by done. by destruct r. }
  unfold open_channel. case_bool_decide as Hst; cbn; [|intros [= <- <- <- <-]; by apply Hsame].
  case_bool_decide as Hdup; [intros [= <- <- <- <-]; by apply Hsame|].
  destruct (next_channel_id (directory r) =? 0) eqn:Ez; [intros [= <- <- <- <-]; by apply Hsame|]. apply Z.eqb_neq in Ez.
  destruct (attach_delivery c pool_active) as [c2 s] eqn:Ea. case_bool_decide as Hs; cbn.
  2: { intros [= <- <- <- <-]. assert (c2 = c) as ->; [|by apply Hsame].
       unfold attach_delivery in Ea. destruct (maximum_depth c); [|by injection Ea as <-].
       destruct (negb _) in Ea; [by injection Ea as <-|]. destruct (_ || _) in Ea; [by injection Ea as <-|]. by injection Ea as <- <-. }
  subst s. destruct (attach_channel _ _ _ Ea) as (Hname & Hdepth & Hdel & Hunatt). intros [= <- <- <- <-].
  apply eq_None_not_Some in Hdup. set (next := next_channel_id (directory r)) in *.
  assert (Hother : forall name id k, entries (directory r) !! name = Some (id, k) -> k <> h /\ name <> channel_name c /\ id <> next).
  { intros name id k Hk. destruct (reg_channels _ Hok _ _ _ Hk) as (x & Hx & Hn & _).
    assert (name <> channel_name c) by congruence. split_and!; [congruence|done|].
    destruct (reg_ids _ Hok _ _ _ Hk) as [_ Hin]. apply (assigned_in _ _ _ (reg_assigned _ Hok)) in Hin.
    destruct (assigned_next _ _ (reg_assigned _ Hok)) as [_ Hnext]. specialize (Hnext Ez). fold next in Hnext. lia. }
  rewrite bool_decide_eq_true_2, Hname by done. split; cbn.
  - intros name id k [[<- [= <- <-]]|[Hne Hk]]%lookup_insert_Some.
    + rewrite lookup_insert_eq. split; [done|]. apply elem_of_app. right. by apply list_elem_of_singleton.
    + destruct (Hother _ _ _ Hk) as (_ & _ & Hid). rewrite lookup_insert_ne by done.
      destruct (reg_ids _ Hok _ _ _ Hk). split; [done|]. apply elem_of_app. by left.
  - intros id k [[<- <-]|[Hne Hk]]%lookup_insert_Some.
    + exists (channel_name c). by rewrite lookup_insert_eq.
    + destruct (reg_names _ Hok _ _ Hk) as [name Hn]. exists name. destruct (Hother _ _ _ Hn) as (_ & Hnn & _).
      by rewrite lookup_insert_ne.
  - intros name id k [[<- [= <- <-]]|[Hne Hk]]%lookup_insert_Some.
    + exists c2. by rewrite lookup_insert_eq.
    + destruct (Hother _ _ _ Hk) as (Hkh & _). rewrite lookup_insert_ne by done. by apply (reg_channels _ Hok _ id).
  - apply assigned_snoc; [apply Hok|done].
  - intros i k x Hi [[<- <-]|[Hne Hx]]%lookup_insert_Some Hb.
    + rewrite Hdepth in Hb. destruct (reg_closing _ Hok i h c Hi Hc Hb) as [Hatt _]. rewrite Hunatt in Hatt by done. done.
    + destruct (reg_closing _ Hok i k x Hi Hx Hb) as (Hatt & Hno & Huniq). split; [done|]. split; [|done].
      intros name id [[_ [= _ <-]]|[_ Hk]]%lookup_insert_Some; [done|by apply (Hno name id)].
Qed.

Lemma close_ok r name d status handle :
  registry_ok r -> close_channel (directory r) name = (d, status, handle) ->
  registry_ok {| directory := d; channels := channels r; closing := closing r ++ option_list handle; assigned := assigned r |}.
Proof.
  intros Hok. assert (Hsame : registry_ok {| directory := directory r; channels := channels r; closing := closing r ++ [];
    assigned := assigned r |}) by (rewrite app_nil_r; by destruct r).
  unfold close_channel. destruct (negb _); [by intros [= <- <- <-]|].
  destruct (entries (directory r) !! name) as [[id h]|] eqn:E; [|by intros [= <- <- <-]]. intros [= <- <- <-]. cbn.
  destruct (reg_channels _ Hok _ _ _ E) as (c & Hc & Hname & Hdel). destruct (reg_ids _ Hok _ _ _ E) as [Hid _].
  split; cbn.
  - intros name' id' k [Hne Hk]%lookup_delete_Some. destruct (reg_ids _ Hok _ _ _ Hk) as [Hk' Hin]. split; [|done].
    rewrite lookup_delete_ne; [done|]. intros ->. assert (k = h) as -> by congruence.
    destruct (reg_channels _ Hok _ _ _ Hk) as (x & Hx & Hn & _). congruence.
  - intros id' k [Hne Hk]%lookup_delete_Some. destruct (reg_names _ Hok _ _ Hk) as [name' Hn]. exists name'.
    rewrite lookup_delete_ne; [done|]. intros ->. congruence.
  - intros name' id' k [Hne Hk]%lookup_delete_Some. by apply (reg_channels _ Hok _ id').
  - apply Hok.
  - intros i k x Hi Hx Hb. apply lookup_app_Some in Hi as [Hi|[Hge Hi]].
    + destruct (reg_closing _ Hok i k x Hi Hx Hb) as (Hatt & Hno & Huniq). split; [done|]. split.
      * intros name' id' [_ Hk]%lookup_delete_Some. by apply (Hno name' id').
      * intros j [Hj|[_ Hj]]%lookup_app_Some; [by apply Huniq|]. apply list_lookup_singleton_Some in Hj as [_ <-].
        by destruct (Hno name id).
    + apply list_lookup_singleton_Some in Hi as [Hi <-]. assert (x = c) as -> by congruence.
      assert (Hno : forall j, closing r !! j <> Some h).
      { intros j Hj. destruct (reg_closing _ Hok j h c Hj Hx Hb) as (_ & Hno & _). by apply (Hno name id). }
      split; [destruct Hdel as [Hn|]; [by rewrite Hn in Hb; destruct Hb|done]|]. split.
      * intros name' id' [Hne Hk]%lookup_delete_Some. destruct (reg_channels _ Hok _ _ _ Hk) as (x & Hx' & Hn & _). congruence.
      * intros j [Hj|[Hjge Hj]]%lookup_app_Some; [by destruct (Hno j)|]. apply list_lookup_singleton_Some in Hj as [Hj _]. lia.
Qed.

Definition skip (i j : nat) : nat := if (j <? i)%nat then j else S j.

Lemma lookup_without {A} (l : list A) i j : (i < length l)%nat -> without i l !! j = l !! skip i j.
Proof.
  intros Hi. unfold without, skip. destruct (Nat.ltb_spec j i).
  - rewrite lookup_app_l by (rewrite length_take; lia). by apply lookup_take_lt.
  - rewrite lookup_app_r, length_take, lookup_drop by (rewrite length_take; lia). f_equal. lia.
Qed.

Lemma skip_injective i j k : skip i j = skip i k -> j = k.
Proof. unfold skip. destruct (Nat.ltb_spec j i), (Nat.ltb_spec k i); lia. Qed.

Lemma skip_other i j : skip i j <> i.
Proof. unfold skip. destruct (Nat.ltb_spec j i); lia. Qed.

Lemma detach_closed_ok r i h :
  registry_ok r -> closing r !! i = Some h ->
  registry_ok {| directory := directory r; channels := detach_channel (channels r) h;
    closing := without i (closing r); assigned := assigned r |}.
Proof.
  intros Hok Hi. assert (Hlen : (i < length (closing r))%nat) by (by apply lookup_lt_Some in Hi).
  assert (Hclosing : forall j k x, without i (closing r) !! j = Some k -> channels r !! k = Some x -> is_Some (maximum_depth x) ->
    k <> h /\ delivery_attached x = true /\
    (forall name id, entries (directory r) !! name <> Some (id, k)) /\ forall l, without i (closing r) !! l = Some k -> l = j).
  { intros j k x Hj Hx Hb. rewrite lookup_without in Hj by done.
    destruct (reg_closing _ Hok _ _ _ Hj Hx Hb) as (Ha & Hn & Hu). split; [|split; [done|split; [done|]]].
    - intros ->. apply (skip_other i j). symmetry; by apply Hu.
    - intros l Hl. rewrite lookup_without in Hl by done. by apply (skip_injective i), Hu. }
  assert (Hkeep : registry_ok {| directory := directory r; channels := channels r; closing := without i (closing r);
    assigned := assigned r |}).
  { split; cbn; try apply Hok. intros j k x Hj Hx Hb. by destruct (Hclosing j k x Hj Hx Hb) as [_ ?]. }
  unfold detach_channel. destruct (channels r !! h) as [c|] eqn:Hc; [|done].
  destruct (maximum_depth c) as [depth|] eqn:Ed; [|done].
  destruct (reg_closing _ Hok i h c Hi Hc) as (Hatt & Hno & _); [by rewrite Ed|]. split; cbn; try apply Hok.
  - intros name id k Hk. destruct (reg_channels _ Hok _ _ _ Hk) as (x & Hx & Hn & Hd). exists x.
    rewrite lookup_insert_ne; [done|]. intros ->. by apply (Hno name id).
  - intros j k x Hj [[<- <-]|[Hne' Hx]]%lookup_insert_Some Hb.
    + destruct (Hclosing j h c Hj Hc) as [Hne _]; [by rewrite Ed|done].
    + by destruct (Hclosing j k x Hj Hx Hb) as [_ ?].
Qed.

(** Destroying a directory detaches every channel it held. *)
Lemma fold_detach handles : forall channels h c,
  channels !! h = Some c -> is_Some (maximum_depth c) -> h ∈ handles \/ delivery_attached c = false ->
  exists c', fold_left detach_channel handles channels !! h = Some c' /\ delivery_attached c' = false.
Proof.
  induction handles as [|k handles IH]; intros channels h c Hc Hb Hd.
  - destruct Hd as [[]%elem_of_nil|Hd]. by exists c.
  - cbn [fold_left]. destruct (decide (k = h)) as [->|Hne].
    + apply (IH _ h (detach_locked c false)); [|done|by right]. unfold detach_channel. rewrite Hc.
      destruct Hb as [depth ->]. by rewrite lookup_insert_eq.
    + apply (IH _ h c); [|done|].
      * unfold detach_channel. destruct (channels !! k) as [x|]; [|done]. destruct (maximum_depth x); [|done].
        by rewrite lookup_insert_ne.
      * destruct Hd as [Hd|?]; [left|by right]. by apply elem_of_cons in Hd as [->|?].
Qed.

Lemma destroy_detaches r name id h c :
  registry_ok r -> entries (directory r) !! name = Some (id, h) -> channels r !! h = Some c -> is_Some (maximum_depth c) ->
  exists c', (destroy_directory (directory r) (channels r)).2 !! h = Some c' /\ delivery_attached c' = false.
Proof.
  intros Hok He Hc Hb. apply (fold_detach _ _ _ c); [done|done|]. left. apply list_elem_of_In, in_map_iff.
  exists (id, h). split; [done|]. apply list_elem_of_In, elem_of_map_to_list. by apply (reg_ids _ Hok name).
Qed.

Lemma registry_step_ok r choice : registry_ok r -> registry_ok (fst (registry_step r choice)).
Proof.
  intros Hok. assert (Hsub : forall h c has_callback handle c' outcome, channels r !! h = Some c ->
    subscribe_handle c has_callback handle = (c', outcome) -> registry_ok (with_channels r (<[h := c']> (channels r)))).
  { intros h c has_callback handle c' outcome Hc Hs. apply (channel_changes_ok _ _ c); [done|done|].
    by apply (subscribe_handle_registration _ _ _ _ _ Hs). }
  assert (Hsame : registry_ok (with_channels r (channels r))) by (by destruct r).
  destruct choice as [handle active|name|i|name has handle|id has handle|h c']; cbn [registry_step].
  - destruct handle as [h|]; [|done]. cbn. destruct (channels r !! h) as [c|] eqn:Hc; [|done]. cbn.
    destruct (open_channel _ _ _ _) as [[[d c'] status] id] eqn:E. by apply (open_ok _ _ _ _ _ _ _ _ Hok Hc E).
  - destruct (close_channel _ _) as [[d status] handle] eqn:E. by apply (close_ok _ _ _ _ _ Hok E).
  - destruct (closing r !! i) as [h|] eqn:Hi; [|done]. by apply detach_closed_ok.
  - unfold subscribe_by_name. destruct (negb _); [done|]. destruct (get_channel _ _) as [h|]; [|done]. cbn.
    destruct (channels r !! h) as [c|] eqn:Hc; [|done]. cbn. destruct (subscribe_handle _ _ _) as [c' outcome] eqn:E.
    by apply (Hsub h c has handle c' outcome).
  - unfold subscribe_by_id. destruct (id =? 0); [done|]. destruct (get_channel_of_id _ _) as [h|]; [|done]. cbn.
    destruct (channels r !! h) as [c|] eqn:Hc; [|done]. cbn. destruct (subscribe_handle _ _ _) as [c' outcome] eqn:E.
    by apply (Hsub h c has handle c' outcome).
  - destruct (channels r !! h) as [c|] eqn:Hc; [|done]. case_bool_decide; [|done]. by apply (channel_changes_ok _ _ c).
Qed.

Lemma run_registry_ok r choices : registry_ok r -> registry_ok (run_registry r choices).
Proof.
  unfold run_registry. revert r. induction choices as [|choice choices IH]; intros r Hok; [done|].
  cbn. apply IH, registry_step_ok, Hok.
Qed.

(** ** The directory as a map *)

(** What is registered: a name's identifier and channel. *)
Definition registered (r : Registry) : gmap bytes (Z * nat) := entries (directory r).

(** The result of opening a channel, in the order of the checks. *)
Definition open_status (r : Registry) (c : ChannelImpl) (pool_active : bool) : Status :=
  if negb (bool_decide (channel_status c = OK)) then channel_status c
  else if bool_decide (is_Some (registered r !! channel_name c)) then DUPLICATE_CHANNEL
  else if Z.of_nat (length (assigned r)) =? 2 ^ 32 - 1 then IDENTIFIER_EXHAUSTED
  else if bool_decide (maximum_depth c = None) || (pool_active && negb (destroying c) && negb (delivery_attached c)) then OK
  else INVALID_ARGUMENT.

(** The result of subscribing to the channel [h], which exists. *)
Definition subscribe_status (r : Registry) (h : nat) (has_callback : bool) : Status :=
  match channels r !! h with
  | None => CHANNEL_NOT_FOUND
  | Some c =>
      if negb (bool_decide (channel_status c = OK)) then channel_status c
      else if negb has_callback then INVALID_ARGUMENT
      else if next_subscription_id c =? 0 then IDENTIFIER_EXHAUSTED
      else OK
  end.

(** The status of a call and what is registered after it. *)
Definition spec_step (r : Registry) (choice : RegistryChoice) : Status * gmap bytes (Z * nat) :=
  match choice with
  | OpenChannel handle pool_active =>
      match handle ≫= fun h => (fun c => (h, c)) <$> channels r !! h with
      | None => (INVALID_ARGUMENT, registered r)
      | Some (h, c) =>
          let status := open_status r c pool_active in
          (status, if bool_decide (status = OK)
                   then <[channel_name c := (Z.of_nat (length (assigned r)) + 1, h)]> (registered r) else registered r)
      end
  | CloseChannel name =>
      if negb (valid_channel_name name) then (INVALID_CHANNEL_NAME, registered r)
      else match registered r !! name with
      | None => (CHANNEL_NOT_FOUND, registered r)
      | Some _ => (OK, delete name (registered r))
      end
  | SubscribeByName name has_callback _ =>
      (if negb (valid_channel_name name) then INVALID_CHANNEL_NAME
       else match registered r !! name with None => CHANNEL_NOT_FOUND | Some (_, h) => subscribe_status r h has_callback end,
       registered r)
  | SubscribeById id has_callback _ =>
      (if id =? 0 then INVALID_ARGUMENT
       else match get_channel_of_id (directory r) id with
       | None => CHANNEL_NOT_FOUND
       | Some h => subscribe_status r h has_callback
       end, registered r)
  | DetachClosed _ | ChannelChanges _ _ => (OK, registered r)
  end.

Lemma attach_status c pool_active :
  (attach_delivery c pool_active).2 =
    (if bool_decide (maximum_depth c = None) || (pool_active && negb (destroying c) && negb (delivery_attached c))
     then OK else INVALID_ARGUMENT).
Proof.
  unfold attach_delivery. destruct (maximum_depth c); [|done]. rewrite bool_decide_eq_false_2 by done. cbn [orb].
  by destruct pool_active, (destroying c), (delivery_attached c).
Qed.

Lemma open_spec r h c pool_active d c' status id :
  registry_ok r -> open_channel (directory r) h c pool_active = (d, c', status, id) ->
  status = open_status r c pool_active /\
  entries d = if bool_decide (status = OK)
              then <[channel_name c := (Z.of_nat (length (assigned r)) + 1, h)]> (registered r) else registered r.
Proof.
  intros Hok. destruct (assigned_next _ _ (reg_assigned _ Hok)) as [H0 H1]. unfold open_channel, open_status, registered.
  case_bool_decide as Hst; cbn [negb]; [|intros [= <- <- <- <-]; by rewrite bool_decide_eq_false_2].
  case_bool_decide as Hdup; [intros [= <- <- <- <-]; by rewrite bool_decide_eq_false_2|].
  destruct (Z.eqb_spec (next_channel_id (directory r)) 0) as [Ez|Ez].
  { intros [= <- <- <- <-]. rewrite (proj1 H0 Ez), Z.eqb_refl. by rewrite bool_decide_eq_false_2. }
  rewrite (proj2 (Z.eqb_neq (Z.of_nat (length (assigned r))) (2 ^ 32 - 1))) by tauto.
  rewrite <- (attach_status c pool_active). destruct (attach_delivery c pool_active) as [c2 s] eqn:Ea. cbn [snd].
  case_bool_decide as Hs; cbn [negb]; intros [= <- <- <- <-]; [|by rewrite bool_decide_eq_false_2]. subst s.
  destruct (attach_channel _ _ _ Ea) as (-> & _). rewrite bool_decide_eq_true_2 by done. split; [done|]. cbn. by rewrite H1.
Qed.

Lemma subscribe_handle_status c has_callback handle :
  match (subscribe_handle c has_callback handle).2 with Ok _ => OK | Err status => status end =
  if negb (bool_decide (channel_status c = OK)) then channel_status c
  else if negb has_callback then INVALID_ARGUMENT else if next_subscription_id c =? 0 then IDENTIFIER_EXHAUSTED else OK.
Proof.
  unfold subscribe_handle, subscribe. destruct (negb (bool_decide _)); [done|]. destruct (negb has_callback); [done|].
  by destruct (_ =? 0).
Qed.

Lemma registry_step_spec r choice : registry_ok r ->
  let '(r', status) := registry_step r choice in (status, registered r') = spec_step r choice.
Proof.
  intros Hok. assert (Hstore : forall h has handle, subscribe_status r h has =
    match (match channels r !! h with Some c => (subscribe_handle c has handle).2 | None => Err CHANNEL_NOT_FOUND end)
    with Ok _ => OK | Err status => status end).
  { intros h has handle. unfold subscribe_status. destruct (channels r !! h) as [c|]; [|done]. by rewrite <- (subscribe_handle_status c has handle). }
  destruct choice as [handle active|name|i|name has handle|id has handle|h c']; cbn [registry_step spec_step].
  - destruct handle as [h|]; [|done]. cbn [mbind option_bind]. destruct (channels r !! h) as [c|] eqn:Hc; [|done]. cbn [fmap option_fmap option_map].
    destruct (open_channel _ _ _ _) as [[[d c'] status] id] eqn:E.
    destruct (open_spec _ _ _ _ _ _ _ _ Hok E) as [<- Hn]. by rewrite <- Hn.
  - unfold close_channel, registered. destruct (negb _); [done|].
    by destruct (entries (directory r) !! name) as [[id h]|].
  - by destruct (closing r !! i).
  - unfold subscribe_by_name, get_channel, registered. destruct (negb _); [done|].
    destruct (entries (directory r) !! name) as [[id h]|]; cbn; [|done]. rewrite (Hstore h has handle).
    destruct (channels r !! h) as [c|]; cbn; [|done]. by destruct (subscribe_handle c has handle).
  - unfold subscribe_by_id. destruct (id =? 0); [done|]. destruct (get_channel_of_id _ _) as [h|]; cbn; [|done].
    rewrite (Hstore h has handle). destruct (channels r !! h) as [c|]; cbn; [|done]. by destruct (subscribe_handle c has handle).
  - destruct (channels r !! h); [|done]. by case_bool_decide.
Qed.

(** C30. The directory refines a map from names to identified channels, in every
    history of openings, closings, detachments, subscriptions and changes of the
    channels.  Every call returns exactly the specified status, subscriptions
    and detachments included, and leaves exactly the specified map.  Lookups by
    name and by identifier agree; the identifiers given out are 1, 2, 3 and so
    on, none of them twice, up to the largest of 32 bits, after which opening
    reports their exhaustion; a registered channel has its name and delivers
    what it is given; and routing by identifier is routing by name. *)
Theorem directory_refines_map initial choices choice :
  let r := run_registry (new_registry initial) choices in
  let d := directory r in
  (let '(r', status) := registry_step r choice in (status, registered r') = spec_step r choice) /\
  (forall id h, get_channel_of_id d id = Some h <-> exists name, registered r !! name = Some (id, h)) /\
  (assigned r = map Z.of_nat (seq 1 (length (assigned r))) /\ Z.of_nat (length (assigned r)) < 2 ^ 32 /\
   forall name id h, registered r !! name = Some (id, h) -> id ∈ assigned r) /\
  (forall name id h, registered r !! name = Some (id, h) ->
     exists c, channels r !! h = Some c /\ channel_name c = name /\ delivers c) /\
  (forall send name id data, get_channel_id d name = (OK, id) -> transmit send d name data = transmit_to_id send d id data).
Proof.
  intros r d. assert (Hok : registry_ok r) by apply run_registry_ok, new_registry_ok.
  assert (Hids : forall name id h, entries d !! name = Some (id, h) -> channels_by_id d !! id = Some h /\ id <> 0).
  { intros name id h He. destruct (reg_ids _ Hok _ _ _ He) as [Hi Hin]. split; [done|].
    apply (assigned_in _ _ _ (reg_assigned _ Hok)) in Hin. lia. }
  split; [by apply registry_step_spec|]. split; [|split; [|split]].
  - intros id h. unfold get_channel_of_id, registered. destruct (Z.eqb_spec id 0) as [->|Hz].
    + split; [done|]. intros [name He]. by destruct (Hids _ _ _ He).
    + split; [apply Hok|]. intros [name He]. by destruct (Hids _ _ _ He).
  - destruct (reg_assigned _ Hok) as (E & Hlt & _). split; [exact E|]. split; [exact Hlt|]. intros name id h He. by apply (reg_ids _ Hok name id h).
  - intros name id h He. by apply (reg_channels _ Hok name id).
  - intros send name id data. unfold get_channel_id, transmit, transmit_to_id, get_channel, get_channel_of_id.
    destruct (negb _); [done|]. destruct (entries d !! name) as [[id' h]|] eqn:E; [|done]. intros [= ->]. cbn.
    destruct (Hids _ _ _ E) as [-> Hz]. by rewrite (proj2 (Z.eqb_neq _ _) Hz).
Qed.

(** ** A concrete directory *)

Definition bounded_name : bytes := [47; 47; 97].
Definition direct_name : bytes := [47; 47; 98].

Definition sample_channels : gmap nat ChannelImpl :=
  {[0%nat := new_channel bounded_name (Some 2%nat); 1%nat := new_channel direct_name None; 2%nat := new_channel bounded_name None]}.

(** A bounded channel cannot be opened again before it is detached. *)
Definition sample_history : list RegistryChoice :=
  [OpenChannel (Some 0%nat) true; OpenChannel (Some 1%nat) true; OpenChannel (Some 2%nat) true; CloseChannel bounded_name;
   OpenChannel (Some 0%nat) true; DetachClosed 0; OpenChannel (Some 0%nat) true].

Example sample_statuses :
  map snd (snd (fold_left (fun '(r, out) choice => (fst (registry_step r choice), out ++ [registry_step r choice]))
    sample_history (new_registry sample_channels, []))) =
  [OK; OK; DUPLICATE_CHANNEL; OK; INVALID_ARGUMENT; OK; OK].
Proof. vm_compute. reflexivity. Qed.

Example sample_assigned : assigned (run_registry (new_registry sample_channels) sample_history) = [1; 2; 3].
Proof. vm_compute. reflexivity. Qed.

Lemma directory_refines_map_witness :
  let d := directory (run_registry (new_registry sample_channels) sample_history) in
  transmit (fun h data => (OK, (h + length data)%nat)) d bounded_name [1; 2] =
  transmit_to_id (fun h data => (OK, (h + length data)%nat)) d 3 [1; 2].
Proof.
  destruct (directory_refines_map sample_channels sample_history (DetachClosed 0)) as (_ & _ & _ & _ & H).
  apply H. vm_compute. reflexivity.
Defined.
