(* ===== verification/Transports.v ===== *)
(** * Channel paths and in-process channels (utils/ipc/channel_path.cpp,
    utils/ipc/smem_channel.cpp, utils/ipc/metachannel.cpp)

    Relative channel names, the shared-memory channel's checks, and the
    metachannel: its relays on the underlying channels and its fan-out. *)
From S2P Require Import Prelude Bytes IpcMessage Channel FramedIo.
Open Scope Z_scope.

(** ** Relative paths *)

Definition parse_path (path : bytes) : option bytes :=
  if bool_decide (path = []) || bool_decide (head path = Some 47) || bool_decide (last path = Some 47) then None
  else if negb (valid_channel_name ([47; 47] ++ path)) then None
  else Some path.

Definition resolve_path (path root : bytes) : option bytes :=
  if negb (valid_channel_name root) then None
  else
    let resolved := root ++ [47] ++ path in
    if negb (valid_channel_name resolved) then None else Some resolved.

(** ** Shared-memory channels *)

Definition new_smem_channel (name : bytes) (maximum_message_bytes : nat) (depth : option nat) : ChannelImpl :=
  let c := new_channel name depth in
  if bool_decide (channel_status c = OK) && (maximum_message_bytes =? 0)%nat then set_status c INVALID_ARGUMENT else c.

(** [delivery_status] is what [Channel::deliver] returns, if it is called. *)
Definition smem_transmit (c : ChannelImpl) (maximum_message_bytes : nat) (delivery_status : Status) (data : bytes) : TransferResult :=
  if negb (bool_decide (channel_status c = OK)) then (channel_status c, 0%nat)
  else if (maximum_message_bytes <? length data)%nat then (MESSAGE_TOO_LARGE, 0%nat)
  else if bool_decide (delivery_status = OK) then (OK, length data) else (delivery_status, 0%nat).

(** ** Metachannels *)

(** The first loop of [start]: null, duplicate and failed channels. *)
Fixpoint check_destinations (channels : gmap nat ChannelImpl) (distinct : list nat) (destinations : list (option nat)) : Status :=
  match destinations with
  | [] => OK
  | destination :: destinations =>
      match destination ≫= fun h => (fun c => (h, c)) <$> channels !! h with
      | None => INVALID_ARGUMENT
      | Some (h, c) =>
          if bool_decide (h ∈ distinct) then INVALID_ARGUMENT
          else if negb (bool_decide (channel_status c = OK)) then channel_status c
          else check_destinations channels (h :: distinct) destinations
      end
  end.

(** Resetting a relay subscription of a channel. *)
Definition reset_relay (channels : gmap nat ChannelImpl) (relay : nat * Z) : gmap nat ChannelImpl :=
  match channels !! relay.1 with
  | Some c => <[relay.1 := reset_subscription c relay.2]> channels
  | None => channels
  end.

(** [stop] clears the relays. *)
Definition meta_stop (channels : gmap nat ChannelImpl) (relays : list (nat * Z)) : gmap nat ChannelImpl :=
  fold_left reset_relay relays channels.

(** The second loop of [start]: the channels, the status and the relays.  The
    channels' statuses may have changed since the first loop. *)
Fixpoint subscribe_relays (channels : gmap nat ChannelImpl) (relays : list (nat * Z)) (destinations : list nat)
  : gmap nat ChannelImpl * Status * list (nat * Z) :=
  match destinations with
  | [] => (channels, OK, relays)
  | h :: destinations =>
      match channels !! h with
      | None => (meta_stop channels relays, INVALID_ARGUMENT, [])
      | Some c =>
          match subscribe c true with
          | (c, Ok id) => subscribe_relays (<[h := c]> channels) (relays ++ [(h, id)]) destinations
          | (_, Err status) => (meta_stop channels relays, status, [])
          end
      end
  end.

Definition meta_start (channels : gmap nat ChannelImpl) (destinations : list (option nat))
  : gmap nat ChannelImpl * Status * list (nat * Z) :=
  match destinations with
  | [] => (channels, INVALID_ARGUMENT, [])
  | _ =>
      match check_destinations channels [] destinations with
      | OK => subscribe_relays channels [] (omap id destinations)
      | status => (channels, status, [])
      end
  end.

(** The loop of [transmit]: each destination is sent the data, in order. *)
Fixpoint fan_out (send : nat -> TransferResult) (size : nat) (destinations : list nat) (successful : nat) (first_failure : Status)
  : nat * Status :=
  match destinations with
  | [] => (successful, first_failure)
  | h :: destinations =>
      let '(status, sent) := send h in
      if bool_decide (status = OK) && (sent =? size)%nat then fan_out send size destinations (S successful) first_failure
      else
        fan_out send size destinations successful
          (if bool_decide (first_failure = OK)
           then (if bool_decide (status = OK) then PARTIAL_TRANSFER else status)
           else first_failure)
  end.

Definition meta_transmit (status : Status) (send : nat -> TransferResult) (size : nat) (destinations : list nat) : TransferResult :=
  if negb (bool_decide (status = OK)) then (status, 0%nat)
  else
    let '(successful, first_failure) := fan_out send size destinations 0 OK in
    if (successful =? length destinations)%nat then (OK, size)
    else if (successful =? 0)%nat then (first_failure, 0%nat)
    else (PARTIAL_TRANSFER, 0%nat).

(** ** What names and fan-outs promise

    Channel names are exactly the joined lists of valid segments, so relative
    paths resolve exactly when the result is short enough; a fan-out reaches
    every destination and summarises their results. *)

(** ** Names as lists of segments *)

Definition valid_segment (segment : bytes) : bool :=
  negb (bool_decide (segment = []) || bool_decide (segment = [46]) || bool_decide (segment = [46; 46]))
  && forallb valid_segment_byte segment.

Fixpoint join (segments : list bytes) : bytes :=
  match segments with
  | [] => []
  | [segment] => segment
  | segment :: segments => segment ++ [47] ++ join segments
  end.

Lemma join_cons segment segments : segments <> [] -> join (segment :: segments) = segment ++ [47] ++ join segments.
Proof. by destruct segments. Qed.

Lemma join_app segments segments' :
  segments <> [] -> segments' <> [] -> join (segments ++ segments') = join segments ++ [47] ++ join segments'.
Proof.
  intros Hs Hs'. induction segments as [|s segments IH]; [done|]. destruct segments as [|s' segments].
  - by apply join_cons.
  - change ((s :: s' :: segments) ++ segments') with (s :: ((s' :: segments) ++ segments')).
    rewrite join_cons, IH, (join_cons s) by done. by rewrite <- !app_assoc.
Qed.

Lemma next_segment_spec name segment following :
  next_segment name = (segment, following) ->
  name = segment ++ match following with None => [] | Some rest => 47 :: rest end.
Proof.
  revert segment following. induction name as [|b name IH]; intros segment following; cbn; [by intros [= <- <-]|].
  destruct (Z.eqb_spec b 47) as [->|]; [by intros [= <- <-]|].
  destruct (next_segment name) as [s f]. intros [= <- <-]. cbn. f_equal. by apply IH.
Qed.

Lemma valid_segment_no_slash segment : valid_segment segment = true -> Forall (fun b => b <> 47) segment.
Proof.
  unfold valid_segment. intros [_ H]%andb_prop. apply Forall_forall. intros b Hb ->.
  rewrite forallb_forall in H. apply list_elem_of_In, H in Hb. done.
Qed.

Lemma next_segment_end segment : Forall (fun b => b <> 47) segment -> next_segment segment = (segment, None).
Proof.
  induction 1 as [|b segment Hb _ IH]; cbn; [done|]. by rewrite (proj2 (Z.eqb_neq _ _) Hb), IH.
Qed.

Lemma next_segment_more segment rest :
  Forall (fun b => b <> 47) segment -> next_segment (segment ++ 47 :: rest) = (segment, Some rest).
Proof.
  induction 1 as [|b segment Hb _ IH]; cbn; [done|]. by rewrite (proj2 (Z.eqb_neq _ _) Hb), IH.
Qed.

Lemma valid_segments_step fuel name : name <> [] ->
  valid_segments (S fuel) name =
    let '(segment, following) := next_segment name in
    valid_segment segment && match following with None => true | Some rest => valid_segments fuel rest end.
Proof.
  intros Hn. cbn [valid_segments]. destruct name; [done|]. destruct (next_segment _) as [segment following].
  unfold valid_segment. destruct (_ || _ || _); cbn; [done|]. by destruct (forallb _ _).
Qed.

Lemma valid_segments_iff fuel name :
  (length name < fuel)%nat ->
  valid_segments fuel name = true <->
  exists segments, segments <> [] /\ name = join segments /\ Forall (fun s => valid_segment s = true) segments.
Proof.
  revert name. induction fuel as [|fuel IH]; intros name Hl; [lia|].
  destruct (decide (name = [])) as [->|Hne].
  { split; [done|]. intros ([|s [|s' segments]] & Hn & Hj & Hv); [done| |].
    - cbn in Hj. subst s. by apply Forall_inv in Hv.
    - cbn in Hj. by destruct s. }
  rewrite valid_segments_step by done. split.
  - destruct (next_segment name) as [segment following] eqn:E. pose proof (next_segment_spec _ _ _ E) as ->.
    intros [Hs Hf]%andb_prop. destruct following as [rest|].
    + apply IH in Hf as (segments & Hn & -> & Hv); [|rewrite length_app in Hl; cbn in Hl; lia].
      exists (segment :: segments). rewrite join_cons by done. split_and!; [done|done|by constructor].
    + exists [segment]. rewrite app_nil_r. split_and!; [done|done|by repeat constructor].
  - intros ([|s segments] & Hn & -> & Hv); [done|]. apply Forall_cons in Hv as [Hs Hv].
    pose proof (valid_segment_no_slash _ Hs) as Hslash. destruct (decide (segments = [])) as [->|Hmore].
    + cbn [join]. by rewrite next_segment_end, Hs.
    + rewrite join_cons in * by done. cbn [app] in *. rewrite next_segment_more, Hs by done. cbn.
      apply IH; [rewrite length_app in Hl; cbn in Hl; lia|]. by exists segments.
Qed.

Lemma last_join segments : Forall (fun s => valid_segment s = true) segments -> segments <> [] ->
  exists b rest, join segments = rest ++ [b] /\ b <> 47.
Proof.
  intros Hv Hn. induction segments as [|s segments IH]; [done|]. apply Forall_cons in Hv as [Hvs Hv].
  destruct (decide (segments = [])) as [->|Hmore].
  - pose proof (valid_segment_no_slash _ Hvs) as Hslash. destruct s as [|b s _] using rev_ind; [done|].
    apply Forall_app in Hslash as [_ Hb%Forall_inv]. by exists b, s.
  - destruct (IH Hv Hmore) as (b & l & Hl & Hb). rewrite join_cons, Hl by done. exists b, (s ++ [47] ++ l).
    by rewrite <- !app_assoc.
Qed.

(** Names of at most 255 bytes, made of two slashes and joined segments. *)
Lemma valid_channel_name_iff name :
  valid_channel_name name = true <->
  (length name <= kMaximumChannelNameBytes)%nat /\
  exists segments, segments <> [] /\ name = [47; 47] ++ join segments /\ Forall (fun s => valid_segment s = true) segments.
Proof.
  unfold valid_channel_name. split.
  - destruct (_ || _ || _ || _) eqn:E; [done|]. rewrite !orb_false_iff in E. destruct E as [[[Hl Hm%Nat.ltb_ge] Ht] _].
    apply negb_false_iff, bool_decide_eq_true in Ht.
    assert (Hn : name = [47; 47] ++ drop 2 name) by (by rewrite <- Ht, take_drop).
    intros H. apply valid_segments_iff in H as (segments & Hs & Hj & Hv).
    + split; [done|]. exists segments. by rewrite <- Hj.
    + apply Nat.leb_gt in Hl. rewrite length_drop. lia.
  - intros (Hm & segments & Hs & -> & Hv).
    assert (Hj : valid_segments (length ([47; 47] ++ join segments)) (join segments) = true).
    { apply valid_segments_iff; [rewrite length_app; cbn; lia|]. by exists segments. }
    destruct (last_join segments Hv Hs) as (b & l & Hl & Hb).
    replace (_ || _ || _ || _) with false; [done|]. symmetry. rewrite !orb_false_iff. split_and!.
    + rewrite Hl, !length_app. apply Nat.leb_gt. cbn. lia.
    + by apply Nat.ltb_ge.
    + done.
    + apply bool_decide_eq_false. rewrite Hl, app_assoc, last_snoc. congruence.
Qed.

(** ** Relative paths *)

Definition path_segments (path : bytes) (segments : list bytes) : Prop :=
  segments <> [] /\ path = join segments /\ Forall (fun s => valid_segment s = true) segments.

Lemma head_join segments : Forall (fun s => valid_segment s = true) segments -> segments <> [] ->
  exists b rest, join segments = b :: rest /\ b <> 47.
Proof.
  intros Hv Hn. destruct segments as [|s segments]; [done|]. apply Forall_cons in Hv as [Hs _].
  pose proof (valid_segment_no_slash _ Hs) as Hslash. destruct s as [|b s]; [done|]. apply Forall_cons in Hslash as [Hb _].
  destruct segments; cbn; [by exists b, s|]. eexists b, _. done.
Qed.

(** A relative path is parsed exactly when it is a list of valid segments joined
    by slashes that is short enough to follow two slashes.  A parsed path
    resolves against every valid root to the root, a slash and the path, exactly
    when that is at most 255 bytes long; the name is then valid. *)
Theorem relative_paths_resolve path root :
  (parse_path path = Some path <->
    (2 + length path <= kMaximumChannelNameBytes)%nat /\ exists segments, path_segments path segments) /\
  (parse_path path = Some path -> valid_channel_name root = true ->
    let resolved := root ++ [47] ++ path in
    resolve_path path root =
      if (length resolved <=? kMaximumChannelNameBytes)%nat then Some resolved else None).
Proof.
  assert (Hparse : parse_path path = Some path <->
    (2 + length path <= kMaximumChannelNameBytes)%nat /\ exists segments, path_segments path segments).
  { unfold parse_path. split.
    - destruct (_ || _ || _); [done|]. destruct (valid_channel_name _) eqn:E; [|done]. intros _.
      apply valid_channel_name_iff in E as (Hl & segments & Hs & Hj & Hv). split; [done|]. exists segments.
      by injection Hj as Hj.
    - intros (Hl & segments & Hs & -> & Hv).
      assert (E : valid_channel_name ([47; 47] ++ join segments) = true).
      { apply valid_channel_name_iff. split; [done|]. by exists segments. }
      rewrite E. destruct (head_join segments Hv Hs) as (b & rest & Hh & Hb), (last_join segments Hv Hs) as (b' & rest' & Hl' & Hb').
      replace (_ || _ || _) with false; [done|]. symmetry. rewrite !orb_false_iff, !bool_decide_eq_false. split_and!.
      + by rewrite Hh.
      + rewrite Hh. cbn. congruence.
      + rewrite Hl', last_snoc. congruence. }
  split; [done|]. intros Hp Hroot resolved. apply Hparse in Hp as (_ & segments & Hs & Hj & Hv).
  unfold resolve_path. rewrite Hroot. cbn [negb]. fold resolved.
  destruct (Nat.leb_spec (length resolved) kMaximumChannelNameBytes) as [Hle|Hgt].
  - replace (valid_channel_name resolved) with true; [done|]. symmetry. apply valid_channel_name_iff. split; [done|].
    apply valid_channel_name_iff in Hroot as (_ & roots & Hrs & Hrj & Hrv). exists (roots ++ segments).
    split_and!; [by destruct roots| |by apply Forall_app]. unfold resolved. by rewrite join_app, Hrj, Hj.
  - destruct (valid_channel_name resolved) eqn:E; [|done]. apply valid_channel_name_iff in E as [Hl _]. lia.
Qed.

(** ** Fan-out *)

Definition accepts (size : nat) (outcome : TransferResult) : bool := bool_decide (outcome.1 = OK) && (outcome.2 =? size)%nat.

(** The status reported for a destination that did not accept the data. *)
Definition failure_of (outcome : TransferResult) : Status := if bool_decide (outcome.1 = OK) then PARTIAL_TRANSFER else outcome.1.

Lemma fan_out_spec send size destinations : forall successful first_failure,
  fan_out send size destinations successful first_failure =
  ((successful + length (List.filter (fun h => accepts size (send h)) destinations))%nat,
   if bool_decide (first_failure = OK)
   then default OK (failure_of <$> head (List.filter (fun o => negb (accepts size o)) (map send destinations)))
   else first_failure).
Proof.
  induction destinations as [|h destinations IH]; intros successful first_failure.
  - cbn. rewrite Nat.add_0_r. case_bool_decide; congruence.
  - cbn [fan_out map List.filter]. destruct (send h) as [status sent] eqn:E.
    change (bool_decide (status = OK) && (sent =? size)%nat) with (accepts size (status, sent)).
    destruct (accepts size (status, sent)) eqn:Ea; rewrite IH; cbn [negb length head].
    + f_equal. lia.
    + f_equal. destruct (decide (first_failure = OK)) as [->|Hf].
      * change (if bool_decide (OK = OK) then _ else OK) with (failure_of (status, sent)).
        rewrite (bool_decide_eq_false_2 (failure_of (status, sent) = OK)); [done|]. unfold failure_of. cbn. by case_bool_decide.
      * by rewrite !(bool_decide_eq_false_2 (first_failure = OK)).
Qed.

(** A fan-out over healthy destinations succeeds with the full size exactly when
    every destination accepted all of the data, reports a partial transfer when
    some but not all did, and otherwise the failure of the first destination. *)
Theorem fan_out_summary send size h destinations :
  let outcome := meta_transmit OK send size (h :: destinations) in
  let accepted := fun k => accepts size (send k) in
  outcome =
    if forallb accepted (h :: destinations) then (OK, size)
    else if existsb accepted (h :: destinations) then (PARTIAL_TRANSFER, 0%nat)
    else (failure_of (send h), 0%nat).
Proof.
  cbv zeta. unfold meta_transmit. cbn [negb bool_decide]. rewrite fan_out_spec. cbn [Nat.add].
  set (f := fun k => accepts size (send k)). set (ds := h :: destinations).
  assert (Hcount : forall l, (length (List.filter f l) <= length l)%nat /\
    (forallb f l = true <-> length (List.filter f l) = length l) /\ (existsb f l = false <-> length (List.filter f l) = 0%nat)).
  { induction l as [|k l (IHl & IHa & IHe)]; [done|]. cbn. destruct (f k); cbn; [|split; [lia|split; [|done]]].
    - split; [lia|]. split; [rewrite IHa; lia|]. split; [done|lia].
    - split; [done|lia]. }
  destruct (Hcount ds) as (Hle & Hall & Hex).
  destruct (forallb f ds) eqn:Ea; [by rewrite (proj2 (Nat.eqb_eq _ _) (proj1 Hall eq_refl))|].
  rewrite (proj2 (Nat.eqb_neq _ _)) by (intros H; by apply Hall in H).
  destruct (existsb f ds) eqn:Ee.
  - rewrite (proj2 (Nat.eqb_neq _ _)) by (intros H; by apply Hex in H). done.
  - rewrite (proj2 (Nat.eqb_eq _ _) (proj1 Hex eq_refl)). subst ds. cbn in Ee. apply orb_false_iff in Ee as [Eh _].
    cbn [map List.filter]. unfold f in Eh. by rewrite Eh.
Qed.

(** ** Concrete names *)

Definition sample_root : bytes := [47; 47; 97; 46; 98].
Definition sample_path : bytes := [99; 47; 68; 95; 49].

Lemma relative_paths_resolve_witness : resolve_path sample_path sample_root = Some [47; 47; 97; 46; 98; 47; 99; 47; 68; 95; 49].
Proof.
  destruct (relative_paths_resolve sample_path sample_root) as [_ H].
  etransitivity; [apply H; vm_compute; reflexivity|]. vm_compute. reflexivity.
Defined.

Example rejected_paths :
  map parse_path [[]; [47; 97]; [97; 47]; [97; 47; 47; 98]; [46; 46; 47; 97]; [97; 32]] = [None; None; None; None; None; None].
Proof. vm_compute. reflexivity. Qed.

(** One destination of three refuses. *)
Lemma fan_out_summary_witness :
  meta_transmit OK (fun h => if (h =? 5)%nat then (NOT_CONNECTED, 0%nat) else (OK, 3%nat)) 3 [4; 5; 6]%nat = (PARTIAL_TRANSFER, 0%nat).
Proof.
  etransitivity; [apply (fan_out_summary (fun h => if (h =? 5)%nat then (NOT_CONNECTED, 0%nat) else (OK, 3%nat)) 3 4 [5; 6]%nat)|].
  vm_compute. reflexivity.
Defined.
