(* ===== verification/Trie.v ===== *)
(** * Contiguous trie (utils/containers/trie.hpp)

    Nodes live in one append-only vector and refer to their children by index.
    Key types promise a strict total order through the class [TrieKey]; the
    container is refined against a partial map from key sequences to values. *)
From S2P Require Import Prelude.
From Stdlib Require Import Sorted.

(** ** Key types: [std::regular] and [std::totally_ordered] *)

Class TrieKey (K : Type) := {
  key_default : K;
  key_eqb : K -> K -> bool;
  key_ltb : K -> K -> bool;
  key_eqb_eq : forall a b, key_eqb a b = true <-> a = b;
  key_ltb_irrefl : forall a, key_ltb a a = false;
  key_ltb_trans : forall a b c, key_ltb a b = true -> key_ltb b c = true -> key_ltb a c = true;
  key_ltb_total : forall a b, key_ltb a b = true \/ a = b \/ key_ltb b a = true;
}.

#[export] Instance trie_key_eq_dec `{TrieKey K} : EqDecision K.
Proof.
  intros a b. destruct (key_eqb a b) eqn:E; [left; by apply key_eqb_eq|right].
  intros ->. rewrite (proj2 (key_eqb_eq b b)) in E; done.
Defined.

Definition key_lt `{TrieKey K} (a b : K) : Prop := key_ltb a b = true.

(** ** [std::lower_bound] by halving *)

Fixpoint lower_bound_loop {A} (less : A -> bool) (fuel : nat) (l : list A) (first len : nat) : nat :=
  match fuel with
  | O => first
  | S fuel =>
      if (len =? 0)%nat then first
      else
        let half := Nat.div2 len in
        let middle := (first + half)%nat in
        if match l !! middle with Some x => less x | None => false end
        then lower_bound_loop less fuel l (S middle) (len - half - 1)
        else lower_bound_loop less fuel l first half
  end.

(** First position whose element is not [less]. *)
Definition lower_bound {A} (less : A -> bool) (l : list A) : nat :=
  lower_bound_loop less (S (length l)) l 0 (length l).

(** ** The binary search finds the partition point *)

Lemma lower_bound_loop_spec {A} (less : A -> bool) (l : list A) :
  (forall i j x y, (i < j)%nat -> l !! i = Some x -> l !! j = Some y ->
     less y = true -> less x = true) ->
  forall fuel first len, (len < fuel)%nat -> (first + len <= length l)%nat ->
  (forall i x, (i < first)%nat -> l !! i = Some x -> less x = true) ->
  (forall i x, (first + len <= i)%nat -> l !! i = Some x -> less x = false) ->
  let p := lower_bound_loop less fuel l first len in
  (p <= length l)%nat /\ forall i x, l !! i = Some x -> less x = true <-> (i < p)%nat.
Proof.
  intros Hmono. induction fuel as [|fuel IH]; intros first len Hf Hlen Hlo Hhi; [lia|].
  cbn [lower_bound_loop]. destruct (Nat.eqb_spec len 0) as [->|Hne].
  { rewrite Nat.add_0_r in *. split; [lia|]. intros i x Hx. split.
    - intros Hl. destruct (decide (i < first)%nat); [done|].
      rewrite (Hhi i x) in Hl; [done|lia|done].
    - intros Hi. by eapply Hlo. }
  pose proof (Nat.div2_decr len (len - 1) ltac:(lia)) as Hhalf.
  set (half := Nat.div2 len) in *. set (middle := (first + half)%nat).
  destruct (lookup_lt_is_Some_2 l middle) as [m Hm]; [unfold middle; lia|]. rewrite Hm.
  destruct (less m) eqn:E; apply IH; try lia.
  - intros i x Hi Hx. destruct (decide (i = middle)) as [->|]; [congruence|].
    apply (Hmono i middle x m); [unfold middle in *; lia|done|done|done].
  - intros i x Hi. apply Hhi. unfold middle in *. lia.
  - intros i x Hi. by apply Hlo.
  - intros i x Hi Hx. destruct (less x) eqn:Ex; [|done].
    destruct (decide (i = middle)) as [->|]; [congruence|].
    rewrite (Hmono middle i m x) in E; [done|unfold middle in *; lia|done|done|done].
Qed.

Lemma lower_bound_spec {A} (less : A -> bool) (l : list A) :
  (forall i j x y, (i < j)%nat -> l !! i = Some x -> l !! j = Some y ->
     less y = true -> less x = true) ->
  (lower_bound less l <= length l)%nat /\
  forall i x, l !! i = Some x -> less x = true <-> (i < lower_bound less l)%nat.
Proof.
  intros Hmono. apply lower_bound_loop_spec; [done|lia|lia|lia|].
  intros i x Hi Hx. apply lookup_lt_Some in Hx. lia.
Qed.

(** Strictly sorted lists and positions. *)
Lemma StronglySorted_lookup {A} (R : A -> A -> Prop) l :
  StronglySorted R l -> forall i j x y, (i < j)%nat -> l !! i = Some x -> l !! j = Some y -> R x y.
Proof.
  induction 1 as [|a l Hs IH Hall]; intros i j x y Hij Hi Hj; [done|].
  destruct j as [|j]; [lia|]. simpl in Hj. destruct i as [|i].
  - injection Hi as <-. rewrite List.Forall_forall in Hall. apply Hall.
    apply list_elem_of_In. by eapply list_elem_of_lookup_2.
  - simpl in Hi. by apply (IH i j x y); [lia|..].
Qed.

Lemma StronglySorted_insert_at {A} (R : A -> A -> Prop) l x p :
  StronglySorted R l -> (forall i y, l !! i = Some y -> (i < p)%nat -> R y x) ->
  (forall i y, l !! i = Some y -> (p <= i)%nat -> R x y) ->
  StronglySorted R (take p l ++ x :: drop p l).
Proof.
  intros Hs. revert p. induction Hs as [|a l Hs IH Hall]; intros p Hlo Hhi.
  { rewrite take_nil, drop_nil. simpl. constructor; constructor. }
  destruct p as [|p].
  - simpl. constructor; [by constructor|]. apply List.Forall_forall. intros y Hy.
    apply list_elem_of_In, list_elem_of_lookup in Hy as [i Hi]. apply (Hhi i); [done|lia].
  - simpl. constructor.
    + apply IH; intros i y Hi Hp; [apply (Hlo (S i))|apply (Hhi (S i))]; done || lia.
    + rewrite List.Forall_forall in *. intros y Hy.
      apply list_elem_of_In, elem_of_app in Hy as [Hy|Hy].
      * apply Hall. by apply list_elem_of_In, (subseteq_take p).
      * apply elem_of_cons in Hy as [->|Hy]; [by apply (Hlo 0%nat); [|lia]|].
        apply Hall, list_elem_of_In. by eapply subseteq_drop.
Qed.

Section Trie.
Context {K V : Type} `{TrieKey K} (value_default : V).

Record TrieNode := {
  key : K;
  children : list nat;
  sequence_end : bool;
  value : V;
}.

(** A value-initialised node; a trie is its node vector. *)
Definition new_node : TrieNode :=
  {| key := key_default; children := []; sequence_end := false; value := value_default |}.

Definition kRootNode : nat := 0.
Definition kLinearSearchMaximumChildren : nat := 8.

(** [nodes_[index]]; every modelled access is in range. *)
Definition node (t : list TrieNode) (index : nat) : TrieNode := default new_node (t !! index).

(** The constructor. *)
Definition new_trie : list TrieNode := [new_node].

(** Order of a child's key against the key sought. *)
Definition child_less (t : list TrieNode) (sought : K) (child : nat) : bool :=
  key_ltb (key (node t child)) sought.

(** [find_child]; [None] is [kInvalidNode]. *)
Definition find_child (t : list TrieNode) (index : nat) (k : K) : option nat :=
  if (length t <=? index)%nat then None
  else
    let l := children (node t index) in
    if (length l <=? kLinearSearchMaximumChildren)%nat
    then List.find (fun child => key_eqb (key (node t child)) k) l
    else
      match l !! lower_bound (child_less t k) l with
      | Some candidate => if key_eqb (key (node t candidate)) k then Some candidate else None
      | None => None
      end.

(** The loop of [find_node] from node [current] on. *)
Fixpoint find_from (t : list TrieNode) (current : nat) (key_sequence : list K) : option nat :=
  match key_sequence with
  | [] => Some current
  | k :: rest =>
      match find_child t current k with
      | None => None
      | Some child => find_from t child rest
      end
  end.

Definition find_node (t : list TrieNode) (key_sequence : list K) : option nat :=
  find_from t kRootNode key_sequence.

Definition find (t : list TrieNode) (key_sequence : list K) : option V :=
  match find_node t key_sequence with
  | None => None
  | Some index => if sequence_end (node t index) then Some (value (node t index)) else None
  end.

Definition contains (t : list TrieNode) (key_sequence : list K) : bool :=
  match find_node t key_sequence with
  | None => false
  | Some index => sequence_end (node t index)
  end.

(** The missing-edge branch of [insert]: append a node, link it in key order. *)
Definition add_child (t : list TrieNode) (current : nat) (k : K) : list TrieNode :=
  let child := length t in
  let t := t ++ [{| key := k; children := []; sequence_end := false; value := value_default |}] in
  let n := node t current in
  let position := lower_bound (child_less t k) (children n) in
  <[current := {| key := key n;
                  children := take position (children n) ++ child :: drop position (children n);
                  sequence_end := sequence_end n; value := value n |}]> t.

(** One iteration of the loop of [insert]. *)
Definition insert_step (state : list TrieNode * nat) (k : K) : list TrieNode * nat :=
  let (t, current) := state in
  match find_child t current k with
  | Some child => (t, child)
  | None => (add_child t current k, length t)
  end.

Definition set_terminal (t : list TrieNode) (index : nat) (terminal : bool) (v : V) : list TrieNode :=
  let n := node t index in
  <[index := {| key := key n; children := children n; sequence_end := terminal; value := v |}]> t.

Definition insert (t : list TrieNode) (key_sequence : list K) (v : V) : list TrieNode * nat :=
  let (t, current) := fold_left insert_step key_sequence (t, kRootNode) in
  (set_terminal t current true v, current).

Definition erase (t : list TrieNode) (key_sequence : list K) : list TrieNode * bool :=
  match find_node t key_sequence with
  | None => (t, false)
  | Some index =>
      if sequence_end (node t index)
      then (set_terminal t index false value_default, true)
      else (t, false)
  end.

(** [collect_completions]; [fuel] bounds the depth of the recursion. *)
Fixpoint collect_completions (fuel : nat) (t : list TrieNode) (index : nat) (current_sequence : list K)
  : list (list K) :=
  match fuel with
  | O => []
  | S fuel =>
      (if sequence_end (node t index) then [current_sequence] else [])
      ++ flat_map
           (fun child =>
              collect_completions fuel t child (current_sequence ++ [key (node t child)]))
           (children (node t index))
  end.

(** A path has at most as many nodes as the trie. *)
Definition completions (t : list TrieNode) (prefix : list K) : list (list K) :=
  match find_node t prefix with
  | None => []
  | Some index => collect_completions (length t) t index prefix
  end.

(** ** Specification *)

(** Child links go forward, each list is strictly sorted by key, and no node
    has two parents. *)
Record trie_wf (t : list TrieNode) : Prop := {
  wf_root : (0 < length t)%nat;
  wf_forward : forall i n c, t !! i = Some n -> c ∈ children n -> (i < c < length t)%nat;
  wf_sorted : forall i n, t !! i = Some n ->
    StronglySorted (fun a b => key_lt (key (node t a)) (key (node t b))) (children n);
  wf_parent : forall i j ni nj c, t !! i = Some ni -> t !! j = Some nj ->
    c ∈ children ni -> c ∈ children nj -> i = j;
}.

(** Lexicographic order on key sequences. *)
Fixpoint lex_lt (a b : list K) : Prop :=
  match a, b with
  | [], _ :: _ => True
  | x :: a, y :: b => key_lt x y \/ (x = y /\ lex_lt a b)
  | _, [] => False
  end.

(** ** Child lookup *)

Lemma node_lookup t i n : t !! i = Some n -> node t i = n.
Proof. intros E. unfold node. by rewrite E. Qed.

Lemma lookup_node t i : (i < length t)%nat -> t !! i = Some (node t i).
Proof.
  intros Hi. destruct (lookup_lt_is_Some_2 t i Hi) as [n Hn]. by rewrite (node_lookup _ _ _ Hn).
Qed.

Lemma key_lt_irrefl (a : K) : ~ key_lt a a.
Proof. unfold key_lt. by rewrite key_ltb_irrefl. Qed.

Lemma key_lt_trans (a b c : K) : key_lt a b -> key_lt b c -> key_lt a c.
Proof. apply key_ltb_trans. Qed.

Lemma key_not_lt (a b : K) : key_ltb a b = false -> a = b \/ key_lt b a.
Proof. intros E. destruct (key_ltb_total a b) as [E'|[?|?]]; [congruence|by left|by right]. Qed.

Lemma children_partitioned t i k :
  trie_wf t -> (i < length t)%nat ->
  forall a b x y, (a < b)%nat -> children (node t i) !! a = Some x ->
    children (node t i) !! b = Some y -> child_less t k y = true -> child_less t k x = true.
Proof.
  intros Hw Hi a b x y Hab Hx Hy E. unfold child_less in *. eapply key_lt_trans; [|exact E].
  exact (StronglySorted_lookup _ _ (wf_sorted t Hw i _ (lookup_node t i Hi)) a b x y Hab Hx Hy).
Qed.

Lemma child_key_inj t i a b :
  trie_wf t -> (i < length t)%nat -> a ∈ children (node t i) -> b ∈ children (node t i) ->
  key (node t a) = key (node t b) -> a = b.
Proof.
  intros Hw Hi Ha Hb E. apply list_elem_of_lookup in Ha as [x Hx], Hb as [y Hy].
  pose proof (StronglySorted_lookup _ _ (wf_sorted t Hw i _ (lookup_node t i Hi))) as Hs.
  destruct (lt_eq_lt_dec x y) as [[Hlt| ->]|Hlt]; [|congruence|].
  - exfalso. apply (key_lt_irrefl (key (node t a))). rewrite E at 2. by apply (Hs x y).
  - exfalso. apply (key_lt_irrefl (key (node t a))). rewrite E at 1. by apply (Hs y x).
Qed.

(** Both search strategies find exactly the child labelled with the key. *)
Lemma find_child_some t i k c :
  trie_wf t ->
  find_child t i k = Some c <->
  (i < length t)%nat /\ c ∈ children (node t i) /\ key (node t c) = k.
Proof.
  intros Hw. unfold find_child.
  destruct (Nat.leb_spec (length t) i) as [Hi|Hi]; [split; [done|lia]|].
  destruct (Nat.leb_spec (length (children (node t i))) kLinearSearchMaximumChildren).
  - split.
    + intros E. apply List.find_some in E as [Hin Hk]. apply key_eqb_eq in Hk.
      by rewrite list_elem_of_In.
    + intros (_ & Hin & Hk).
      destruct (List.find _ _) as [c'|] eqn:E.
      * f_equal. apply List.find_some in E as [Hin' Hk']. apply key_eqb_eq in Hk'.
        apply (child_key_inj t i); try done; [by apply list_elem_of_In|congruence].
      * exfalso. apply list_elem_of_In in Hin. apply (List.find_none _ _ E) in Hin.
        rewrite (proj2 (key_eqb_eq _ _) Hk) in Hin. done.
  - destruct (lower_bound_spec _ _ (children_partitioned t i k Hw Hi)) as [Hp Hless].
    set (p := lower_bound _ _) in *. split.
    + destruct (_ !! p) as [c'|] eqn:Ep; [|done]. destruct (key_eqb _ k) eqn:Ek; [|done].
      intros [= <-]. apply key_eqb_eq in Ek. split_and!; [done| |done].
      by eapply list_elem_of_lookup_2.
    + intros (_ & Hin & Hk). apply list_elem_of_lookup in Hin as [j Hj].
      assert (Hjp : ~ (j < p)%nat).
      { intros Hlt. apply (Hless j c Hj) in Hlt. unfold child_less in Hlt. rewrite Hk in Hlt.
        by rewrite key_ltb_irrefl in Hlt. }
      destruct (decide (j = p)) as [->|Hne].
      { rewrite Hj. by rewrite (proj2 (key_eqb_eq _ _) Hk). }
      destruct (lookup_lt_is_Some_2 (children (node t i)) p) as [c' Hc'].
      { apply lookup_lt_Some in Hj. lia. }
      exfalso. pose proof (StronglySorted_lookup _ _ (wf_sorted t Hw i _ (lookup_node t i Hi))
        p j c' c ltac:(lia) Hc' Hj) as Hlt. cbn in Hlt. rewrite Hk in Hlt.
      apply (proj1 (Hless p c' Hc')) in Hlt. lia.
Qed.

Lemma find_child_none t i k :
  trie_wf t -> (i < length t)%nat ->
  find_child t i k = None -> forall c, c ∈ children (node t i) -> key (node t c) <> k.
Proof.
  intros Hw Hi E c Hc Hk. assert (find_child t i k = Some c) by (by apply find_child_some).
  congruence.
Qed.

Lemma find_child_bound t i k c : trie_wf t -> find_child t i k = Some c -> (i < c < length t)%nat.
Proof.
  intros Hw E. apply find_child_some in E as (Hi & Hc & _); [|done].
  exact (wf_forward t Hw i _ c (lookup_node t i Hi) Hc).
Qed.

(** ** Paths *)

Lemma find_from_app t i p q :
  find_from t i (p ++ q) =
  match find_from t i p with Some j => find_from t j q | None => None end.
Proof.
  revert i. induction p as [|k p IH]; intros i; [done|]. cbn [app find_from].
  by destruct (find_child t i k).
Qed.

Lemma find_from_bound t i p j :
  trie_wf t -> (i < length t)%nat -> find_from t i p = Some j -> (i <= j < length t)%nat.
Proof.
  intros Hw. revert i. induction p as [|k p IH]; intros i Hi; cbn [find_from].
  { intros [= <-]. lia. }
  destruct (find_child t i k) as [c|] eqn:E; [|done]. intros Hj.
  apply find_child_bound in E; [|done]. apply IH in Hj; lia.
Qed.

(** A node is reached from the root by one path only. *)
Lemma find_node_inj t p q c :
  trie_wf t -> find_node t p = Some c -> find_node t q = Some c -> p = q.
Proof.
  intros Hw. unfold find_node. pose proof (wf_root t Hw) as H0.
  revert q c. induction p as [|k p IH] using rev_ind; intros q c Hp Hq.
  - injection Hp as <-. destruct q as [|k q _] using rev_ind; [done|].
    rewrite find_from_app in Hq. destruct (find_from t kRootNode q) as [j|] eqn:E; [|done].
    cbn [find_from] in Hq. destruct (find_child t j k) eqn:Ec; [|done]. injection Hq as ->.
    apply find_child_bound in Ec; [unfold kRootNode in Ec; lia|done].
  - rewrite find_from_app in Hp. destruct (find_from t kRootNode p) as [j|] eqn:E; [|done].
    cbn [find_from] in Hp. destruct (find_child t j k) eqn:Ec; [|done]. injection Hp as ->.
    destruct q as [|k' q _] using rev_ind.
    { injection Hq as <-. apply find_child_bound in Ec; [unfold kRootNode in Ec; lia|done]. }
    rewrite find_from_app in Hq. destruct (find_from t kRootNode q) as [j'|] eqn:E'; [|done].
    cbn [find_from] in Hq. destruct (find_child t j' k') eqn:Ec'; [|done]. injection Hq as ->.
    apply find_child_some in Ec as (Hj & Hc & <-); [|done].
    apply find_child_some in Ec' as (Hj' & Hc' & <-); [|done].
    assert (j = j') as <-
      by exact (wf_parent t Hw j j' _ _ c (lookup_node t j Hj) (lookup_node t j' Hj') Hc Hc').
    f_equal. by eapply IH.
Qed.

(** ** Adding a child *)

Section AddChild.
Context (t : list TrieNode) (current : nat) (k : K).
Hypothesis Hw : trie_wf t.
Hypothesis Hcurrent : (current < length t)%nat.
Hypothesis Hmissing : find_child t current k = None.

Let t' := add_child t current k.
Let position := lower_bound (child_less t k) (children (node t current)).

Lemma add_child_length : length t' = S (length t).
Proof. unfold t', add_child. rewrite length_insert, length_app. simpl. lia. Qed.

(** The comparisons of [lower_bound] read the extended vector. *)
Lemma add_child_position extra :
  lower_bound (child_less (t ++ extra) k) (children (node (t ++ extra) current)) = position.
Proof.
  assert (En : node (t ++ extra) current = node t current)
    by (unfold node; by rewrite lookup_app_l).
  rewrite En. unfold position, lower_bound.
  assert (forall fuel first len, (first + len <= length (children (node t current)))%nat ->
    lower_bound_loop (child_less (t ++ extra) k) fuel (children (node t current)) first len =
    lower_bound_loop (child_less t k) fuel (children (node t current)) first len) as E.
  { induction fuel as [|fuel IH]; intros first len Hl; [done|]. cbn [lower_bound_loop].
    destruct (Nat.eqb_spec len 0); [done|].
    pose proof (Nat.div2_decr len (len - 1) ltac:(lia)).
    destruct (_ !! (first + Nat.div2 len)%nat) as [c|] eqn:Ec; [|apply IH; lia].
    assert (Hc : child_less (t ++ extra) k c = child_less t k c).
    { unfold child_less, node. rewrite lookup_app_l; [done|].
      apply (wf_forward t Hw current _ c (lookup_node t current Hcurrent)).
      by eapply list_elem_of_lookup_2. }
    rewrite Hc. destruct (child_less t k c); apply IH; lia. }
  apply E. lia.
Qed.

Lemma node_add_child i :
  node t' i =
    if decide (i = current)
    then {| key := key (node t current);
            children := take position (children (node t current)) ++
                        length t :: drop position (children (node t current));
            sequence_end := sequence_end (node t current); value := value (node t current) |}
    else if decide (i = length t)
    then {| key := k; children := []; sequence_end := false; value := value_default |}
    else node t i.
Proof.
  unfold t', add_child. rewrite add_child_position.
  assert (En : forall extra, node (t ++ extra) current = node t current)
    by (intros; unfold node; by rewrite lookup_app_l).
  rewrite En. unfold node. destruct (decide (i = current)) as [->|Hne].
  - rewrite list_lookup_insert_eq; [done|]. rewrite length_app. simpl. lia.
  - rewrite list_lookup_insert_ne by done. destruct (decide (i = length t)) as [->|].
    + by rewrite list_lookup_middle.
    + destruct (decide (i < length t)%nat).
      * by rewrite lookup_app_l.
      * rewrite !lookup_ge_None_2; [done|lia|rewrite length_app; simpl; lia].
Qed.

(** The children of every node of the extended trie. *)
Lemma elem_of_add_child i c :
  c ∈ children (node t' i) <-> c ∈ children (node t i) \/ (i = current /\ c = length t).
Proof.
  rewrite node_add_child. repeat case_decide; subst; cbn [children].
  - rewrite elem_of_app, elem_of_cons.
    assert (c ∈ children (node t current) <->
      c ∈ take position (children (node t current)) \/ c ∈ drop position (children (node t current)))
      as Hsplit by (by rewrite <- elem_of_app, take_drop).
    rewrite Hsplit. tauto.
  - rewrite elem_of_nil. split; [done|]. intros [Hc|[Hc _]]; [|congruence].
    unfold node in Hc. rewrite lookup_ge_None_2 in Hc by lia. by apply elem_of_nil in Hc.
  - split; [by left|]. intros [Hc|[Hc _]]; [done|congruence].
Qed.

Lemma old_child_bound i c : c ∈ children (node t i) -> (i < c < length t)%nat.
Proof.
  intros Hc. destruct (decide (i < length t)%nat) as [Hi|Hi].
  - exact (wf_forward t Hw i _ c (lookup_node t i Hi) Hc).
  - unfold node in Hc. rewrite lookup_ge_None_2 in Hc by lia. by apply elem_of_nil in Hc.
Qed.

Lemma key_add_child c : (c < length t)%nat -> key (node t' c) = key (node t c).
Proof. intros Hc. rewrite node_add_child. repeat case_decide; subst; [done|lia|done]. Qed.

Lemma key_new_child : key (node t' (length t)) = k.
Proof. rewrite node_add_child. rewrite decide_False, decide_True by (done || lia). done. Qed.

Lemma add_child_sorted i :
  (i < S (length t))%nat ->
  StronglySorted (fun a b => key_lt (key (node t' a)) (key (node t' b))) (children (node t' i)).
Proof.
  intros Hi.
  assert (Hold : forall i, StronglySorted (fun a b => key_lt (key (node t' a)) (key (node t' b)))
    (children (node t i))).
  { intros j. assert (Hs : StronglySorted (fun a b => key_lt (key (node t a)) (key (node t b)))
      (children (node t j))).
    { destruct (decide (j < length t)%nat) as [Hj|Hj].
      - exact (wf_sorted t Hw j _ (lookup_node t j Hj)).
      - unfold node at 3. rewrite lookup_ge_None_2 by lia. constructor. }
    pose proof (old_child_bound j) as Hb. revert Hs Hb.
    generalize (children (node t j)). intros l Hs Hb.
    induction Hs as [|a l Hs IH Hall]; constructor.
    - apply IH. intros c Hc. apply Hb. by right.
    - rewrite List.Forall_forall in *. intros x Hx. rewrite !key_add_child.
      + by apply Hall.
      + apply (Hb x). right. by apply list_elem_of_In.
      + apply (Hb a). by left. }
  rewrite node_add_child. repeat case_decide; subst; cbn [children]; [|constructor|apply Hold].
  destruct (lower_bound_spec _ _ (children_partitioned t current k Hw Hcurrent)) as [_ Hless].
  fold position in Hless. apply StronglySorted_insert_at; [apply Hold| |].
  - intros j y Hy Hj. apply (Hless j y Hy) in Hj. unfold child_less in Hj.
    rewrite key_new_child, key_add_child; [done|].
    eapply old_child_bound, list_elem_of_lookup_2, Hy.
  - intros j y Hy Hj. assert (Hy' : y ∈ children (node t current)) by (by eapply list_elem_of_lookup_2).
    rewrite key_new_child, key_add_child by (by eapply old_child_bound).
    destruct (child_less t k y) eqn:E; [apply (Hless j y Hy) in E; lia|].
    unfold child_less in E. apply key_not_lt in E as [E|E]; [|done].
    exfalso. by eapply (find_child_none t current k).
Qed.

Lemma add_child_wf : trie_wf t'.
Proof.
  split.
  - rewrite add_child_length. lia.
  - intros i n c Hn Hc. rewrite <- (node_lookup _ _ _ Hn) in Hc. rewrite add_child_length.
    apply elem_of_add_child in Hc as [Hc|[-> ->]]; [apply old_child_bound in Hc; lia|lia].
  - intros i n Hn. rewrite <- (node_lookup _ _ _ Hn). apply add_child_sorted.
    apply lookup_lt_Some in Hn. by rewrite add_child_length in Hn.
  - intros i j ni nj c Hi Hj Hci Hcj.
    rewrite <- (node_lookup _ _ _ Hi) in Hci. rewrite <- (node_lookup _ _ _ Hj) in Hcj.
    apply elem_of_add_child in Hci as [Hci|[-> ->]], Hcj as [Hcj|[-> Hc]]; try done.
    + pose proof (old_child_bound i c Hci). pose proof (old_child_bound j c Hcj).
      apply (wf_parent t Hw i j _ _ c (lookup_node t i ltac:(lia)) (lookup_node t j ltac:(lia)) Hci Hcj).
    + apply old_child_bound in Hci. lia.
    + apply old_child_bound in Hcj. lia.
Qed.

(** Only the missing edge is new. *)
Lemma find_child_add i k' :
  (i <= length t)%nat ->
  find_child t' i k' =
    if decide (i = current /\ k' = k) then Some (length t) else find_child t i k'.
Proof.
  intros Hi. apply option_eq. intros c. rewrite find_child_some by apply add_child_wf.
  rewrite add_child_length, elem_of_add_child. case_decide as Hd.
  - destruct Hd as [-> ->]. split.
    + intros (_ & [Hc|[_ ->]] & Hk); [|done]. rewrite key_add_child in Hk
        by (apply old_child_bound in Hc; lia).
      exfalso. by eapply (find_child_none t current k).
    + intros [= <-]. split_and!; [lia|by right|apply key_new_child].
  - rewrite find_child_some by done. split.
    + intros (_ & [Hc|[-> ->]] & Hk).
      * pose proof (old_child_bound i c Hc). rewrite key_add_child in Hk by lia.
        split_and!; [lia|done|done].
      * rewrite key_new_child in Hk. subst. tauto.
    + intros (Hi' & Hc & Hk). pose proof (old_child_bound i c Hc).
      rewrite key_add_child by lia. split_and!; [lia|by left|done].
Qed.

End AddChild.

(** ** Insertion *)

(** The value stored below node [i] along [q]. *)
Definition lookup_from (t : list TrieNode) (i : nat) (q : list K) : option V :=
  match find_from t i q with
  | Some j => if sequence_end (node t j) then Some (value (node t j)) else None
  | None => None
  end.

Lemma find_lookup t q : find t q = lookup_from t kRootNode q.
Proof. done. Qed.

(** What one iteration of the insertion loop guarantees. *)
Record extends (t t' : list TrieNode) : Prop := {
  ext_length : (length t <= length t')%nat;
  ext_key : forall i, (i < length t)%nat -> key (node t' i) = key (node t i);
  ext_paths : forall i q j, (i < length t)%nat -> find_from t i q = Some j ->
    find_from t' i q = Some j;
  ext_values : forall i q, (i < length t)%nat -> lookup_from t' i q = lookup_from t i q;
}.

Lemma extends_refl t : extends t t.
Proof. by split. Qed.

Lemma extends_trans t1 t2 t3 : extends t1 t2 -> extends t2 t3 -> extends t1 t3.
Proof.
  intros [L1 K1 P1 V1] [L2 K2 P2 V2]. split; [lia|..].
  - intros i Hi. rewrite K2, K1 by lia. done.
  - intros i q j Hi E. apply P2; [lia|]. by apply P1.
  - intros i q Hi. rewrite V2, V1 by lia. done.
Qed.

Lemma add_child_extends t current k :
  trie_wf t -> (current < length t)%nat -> find_child t current k = None ->
  extends t (add_child t current k).
Proof.
  intros Hw Hc Hm.
  assert (Hfind : forall i k', (i <= length t)%nat -> _)
    by exact (find_child_add t current k Hw Hc Hm).
  pose proof (node_add_child t current k Hw Hc) as Hnode.
  assert (Hleaf : forall q, lookup_from (add_child t current k) (length t) q = None).
  { intros [|k' q]; unfold lookup_from; cbn [find_from].
    - rewrite Hnode, decide_False, decide_True by (done || lia). done.
    - rewrite Hfind by lia. rewrite decide_False by lia.
      destruct (find_child t (length t) k') as [c|] eqn:E; [|done].
      apply find_child_bound in E; [lia|done]. }
  split.
  - rewrite add_child_length by done. lia.
  - intros i Hi. by apply key_add_child.
  - intros i q. revert i. induction q as [|k' q IH]; intros i j Hi; cbn [find_from]; [done|].
    rewrite Hfind by lia. destruct (find_child t i k') as [c|] eqn:E; [|done]. intros Hj.
    rewrite decide_False by (intros [-> ->]; congruence).
    apply IH; [|done]. apply find_child_bound in E; [lia|done].
  - intros i q. revert i. induction q as [|k' q IH]; intros i Hi.
    + unfold lookup_from. cbn [find_from]. rewrite Hnode. repeat case_decide; subst; done || lia.
    + unfold lookup_from in *. cbn [find_from]. rewrite Hfind by lia. case_decide as Hd.
      * destruct Hd as [-> ->]. rewrite Hm. apply Hleaf.
      * destruct (find_child t i k') as [c|] eqn:E; [|done].
        apply IH. apply find_child_bound in E; [lia|done].
Qed.

Lemma insert_step_spec t current k t' c :
  trie_wf t -> (current < length t)%nat -> insert_step (t, current) k = (t', c) ->
  trie_wf t' /\ extends t t' /\ (c < length t')%nat /\ find_child t' current k = Some c.
Proof.
  intros Hw Hc. unfold insert_step. destruct (find_child t current k) as [c'|] eqn:E.
  - intros [= <- <-]. split_and!; [done|apply extends_refl| |done].
    apply find_child_bound in E; [lia|done].
  - intros [= <- <-]. split_and!.
    + by apply add_child_wf.
    + by apply add_child_extends.
    + rewrite add_child_length by done. lia.
    + rewrite (find_child_add t current k Hw Hc E) by lia. by rewrite decide_True.
Qed.

Lemma insert_loop_spec q : forall t current t' c,
  trie_wf t -> (current < length t)%nat -> fold_left insert_step q (t, current) = (t', c) ->
  trie_wf t' /\ extends t t' /\ (c < length t')%nat /\ find_from t' current q = Some c.
Proof.
  induction q as [|k q IH]; intros t current t' c Hw Hc E; cbn [fold_left] in E.
  { injection E as <- <-. split_and!; [done|apply extends_refl|done|done]. }
  destruct (insert_step (t, current) k) as [t1 c1] eqn:E1.
  destruct (insert_step_spec _ _ _ _ _ Hw Hc E1) as (W1 & X1 & B1 & F1).
  destruct (IH _ _ _ _ W1 B1 E) as (W2 & X2 & B2 & F2).
  split_and!; [done|by eapply extends_trans|done|]. cbn [find_from].
  assert (Hstep : find_from t' current [k] = Some c1).
  { apply (ext_paths _ _ X2); [pose proof (ext_length _ _ X1); lia|]. simpl. by rewrite F1. }
  simpl in Hstep. destruct (find_child t' current k) as [c'|]; [|done]. by injection Hstep as ->.
Qed.

(** Setting a terminal leaves the shape alone. *)
Lemma node_set_terminal t index terminal v i :
  (index < length t)%nat ->
  node (set_terminal t index terminal v) i =
    if decide (i = index)
    then {| key := key (node t index); children := children (node t index);
            sequence_end := terminal; value := v |}
    else node t i.
Proof.
  intros Hi. unfold node, set_terminal. case_decide as Hd.
  - subst. by rewrite list_lookup_insert_eq.
  - by rewrite list_lookup_insert_ne by congruence.
Qed.

Lemma set_terminal_shape t index terminal v :
  (index < length t)%nat ->
  let t' := set_terminal t index terminal v in
  length t' = length t /\
  (forall i, key (node t' i) = key (node t i) /\ children (node t' i) = children (node t i)).
Proof.
  intros Hi t'. split; [apply length_insert|]. intros i. unfold t'.
  rewrite node_set_terminal by done. case_decide; by subst.
Qed.

Lemma set_terminal_wf t index terminal v :
  trie_wf t -> (index < length t)%nat -> trie_wf (set_terminal t index terminal v).
Proof.
  intros Hw Hi. destruct (set_terminal_shape t index terminal v Hi) as [Hl Hs].
  assert (Hn : forall i n, set_terminal t index terminal v !! i = Some n ->
    exists n', t !! i = Some n' /\ children n = children n').
  { intros i n E. exists (node t i). split.
    - apply lookup_node. apply lookup_lt_Some in E. lia.
    - rewrite <- (node_lookup _ _ _ E). by apply Hs. }
  split.
  - rewrite Hl. by apply wf_root.
  - intros i n c Hin Hc. destruct (Hn i n Hin) as (n' & Hn' & E). rewrite E in Hc. rewrite Hl.
    by eapply wf_forward.
  - intros i n Hin. destruct (Hn i n Hin) as (n' & Hn' & E). rewrite E.
    pose proof (wf_sorted t Hw i n' Hn') as Hsort. clear -Hsort Hs.
    induction Hsort as [|a l _ IH Hall]; constructor; [done|].
    eapply List.Forall_impl; [|exact Hall]. intros b. cbn.
    by rewrite (proj1 (Hs a)), (proj1 (Hs b)).
  - intros i j ni nj c Hni Hnj Hci Hcj.
    destruct (Hn i ni Hni) as (ni' & Hni' & Ei), (Hn j nj Hnj) as (nj' & Hnj' & Ej).
    rewrite Ei in Hci. rewrite Ej in Hcj. by eapply (wf_parent t Hw i j).
Qed.

Lemma find_from_set_terminal t index terminal v i q :
  trie_wf t -> (index < length t)%nat ->
  find_from (set_terminal t index terminal v) i q = find_from t i q.
Proof.
  intros Hw Hi. destruct (set_terminal_shape t index terminal v Hi) as [Hl Hs].
  revert i. induction q as [|k q IH]; intros i; [done|]. cbn [find_from].
  assert (E : find_child (set_terminal t index terminal v) i k = find_child t i k).
  { apply option_eq. intros c. rewrite !find_child_some by auto using set_terminal_wf.
    by rewrite Hl, (proj2 (Hs i)), (proj1 (Hs c)). }
  rewrite E. destruct (find_child t i k); [apply IH|done].
Qed.

Lemma find_set_terminal t index terminal v p q :
  trie_wf t -> find_node t p = Some index ->
  find (set_terminal t index terminal v) q =
    if decide (q = p) then (if terminal then Some v else None) else find t q.
Proof.
  intros Hw Hp. pose proof Hp as Hb. apply find_from_bound in Hb; [|done|by apply wf_root].
  unfold find, find_node. rewrite find_from_set_terminal by (done || lia).
  fold (find_node t q). case_decide as Hd.
  - subst. rewrite Hp, node_set_terminal, decide_True by (done || lia). done.
  - destruct (find_node t q) as [j|] eqn:Eq; [|done].
    rewrite node_set_terminal, decide_False; [done| |lia].
    intros ->. apply Hd. by eapply find_node_inj.
Qed.

(** ** Completions *)

Lemma lex_lt_app_l s a b : lex_lt a b -> lex_lt (s ++ a) (s ++ b).
Proof. induction s as [|k s IH]; [done|]. intros H'. right. auto. Qed.

Lemma lex_lt_extend s a : a <> [] -> lex_lt s (s ++ a).
Proof. intros Ha. induction s as [|k s IH]; [by destruct a|]. right. auto. Qed.

Lemma collect_extends fuel : forall t i s q, q ∈ collect_completions fuel t i s -> exists r, q = s ++ r.
Proof.
  induction fuel as [|fuel IH]; intros t i s q Hq; cbn [collect_completions] in Hq.
  { by apply elem_of_nil in Hq. }
  apply elem_of_app in Hq as [Hq|Hq].
  - destruct (sequence_end (node t i)); [|by apply elem_of_nil in Hq].
    apply list_elem_of_singleton in Hq as ->. exists []. by rewrite app_nil_r.
  - apply elem_of_flat_map in Hq as (c & _ & Hq).
    apply IH in Hq as [r ->]. eexists. by rewrite <- app_assoc.
Qed.

(** The collected sequences are exactly the stored ones below the node. *)
Lemma elem_of_collect t : trie_wf t -> forall fuel i s r,
  (i < length t)%nat -> (length t - i <= fuel)%nat ->
  s ++ r ∈ collect_completions fuel t i s <-> is_Some (lookup_from t i r).
Proof.
  intros Hw. induction fuel as [|fuel IH]; intros i s r Hi Hf; [lia|].
  cbn [collect_completions]. rewrite elem_of_app, elem_of_flat_map.
  destruct r as [|k r].
  - rewrite app_nil_r. unfold lookup_from. cbn [find_from].
    destruct (sequence_end (node t i)); [split; intros _; [by eexists|left; apply list_elem_of_singleton; done]|].
    split; [|by intros [? ?]]. intros [[]%elem_of_nil|(c & Hc & Hs)].
    apply collect_extends in Hs as [r Hr].
    rewrite <- app_assoc in Hr. rewrite <- (app_nil_r s) in Hr at 1.
    by apply app_inv_head in Hr.
  - unfold lookup_from. cbn [find_from].
    assert (Hterm : ~ s ++ k :: r ∈ (if sequence_end (node t i) then [s] else [])).
    { destruct (sequence_end (node t i)); [|by intros []%elem_of_nil].
      intros Hs%list_elem_of_singleton. rewrite <- (app_nil_r s) in Hs at 2.
      by apply app_inv_head in Hs. }
    assert (Hrec : forall c, c ∈ children (node t i) ->
      s ++ k :: r ∈ collect_completions fuel t c (s ++ [key (node t c)]) <->
      key (node t c) = k /\ is_Some (lookup_from t c r)).
    { intros c Hc. pose proof (wf_forward t Hw i _ c (lookup_node t i Hi) Hc). split.
      - intros Hs. pose proof Hs as Hs'. apply collect_extends in Hs as [r' Hr].
        rewrite <- app_assoc in Hr. apply app_inv_head in Hr.
        injection Hr as Hk Hr. subst r'. split; [done|].
        apply (IH c (s ++ [k]) r); [lia|lia|]. rewrite <- Hk in Hs'. by rewrite <- app_assoc.
      - intros [<- Hr]. apply (IH c (s ++ [key (node t c)]) r) in Hr; [|lia|lia].
        by rewrite <- app_assoc in Hr. }
    split.
    + intros [Hs|(c & Hc & Hs)]; [tauto|].
      apply (Hrec c Hc) in Hs as [Hk Hs].
      by rewrite (proj2 (find_child_some t i k c Hw) (conj Hi (conj Hc Hk))).
    + intros Hs. right. destruct (find_child t i k) as [c|] eqn:E; [|by destruct Hs].
      apply find_child_some in E as (_ & Hc & Hk); [|done].
      exists c. split; [done|]. by apply Hrec.
Qed.

Lemma StronglySorted_app' {A} (R : A -> A -> Prop) l1 l2 :
  StronglySorted R l1 -> StronglySorted R l2 -> (forall x y, x ∈ l1 -> y ∈ l2 -> R x y) ->
  StronglySorted R (l1 ++ l2).
Proof.
  induction 1 as [|a l Hs IH Hall]; intros H2 Hx; [done|]. simpl. constructor.
  - apply IH; [done|]. intros x y Hxl. apply Hx. by right.
  - apply List.Forall_app. split; [done|]. apply List.Forall_forall. intros y Hy.
    apply Hx; [by left|by apply list_elem_of_In].
Qed.

Lemma collect_sorted t : trie_wf t -> forall fuel i s,
  (i < length t)%nat -> StronglySorted lex_lt (collect_completions fuel t i s).
Proof.
  intros Hw. induction fuel as [|fuel IH]; intros i s Hi; cbn [collect_completions]; [constructor|].
  apply StronglySorted_app'.
  - destruct (sequence_end (node t i)); repeat constructor.
  - pose proof (wf_sorted t Hw i _ (lookup_node t i Hi)) as Hs.
    assert (Hb : forall c, c ∈ children (node t i) -> (c < length t)%nat)
      by (intros c Hc; apply (wf_forward t Hw i _ c (lookup_node t i Hi) Hc)).
    induction Hs as [|a l Hs IHl Hall]; cbn [flat_map]; [constructor|].
    apply StronglySorted_app'; [apply IH, Hb; by left|apply IHl; intros c Hc; apply Hb; by right|].
    intros x y Hx Hy. apply elem_of_flat_map in Hy as (b & Hbl & Hy).
    rewrite List.Forall_forall in Hall. specialize (Hall b (proj1 (list_elem_of_In _ _) Hbl)).
    apply collect_extends in Hx as [rx ->], Hy as [ry ->].
    rewrite <- !app_assoc. apply lex_lt_app_l. by left.
  - intros x y Hx Hy. destruct (sequence_end (node t i)); [|by apply elem_of_nil in Hx].
    apply list_elem_of_singleton in Hx as ->.
    apply elem_of_flat_map in Hy as (b & _ & Hy).
    apply collect_extends in Hy as [r ->]. rewrite <- app_assoc. by apply lex_lt_extend.
Qed.

Lemma new_trie_wf : trie_wf new_trie.
Proof.
  split.
  - simpl. lia.
  - intros [|i] n c; [|done]. intros [= <-] Hc. by apply elem_of_nil in Hc.
  - intros [|i] n; [|done]. intros [= <-]. constructor.
  - intros [|i] [|j] ni nj c; done.
Qed.
End Trie.
Arguments TrieNode K V : clear implicits.

(** Insertion stores the value at exactly its key sequence: every
    other sequence keeps its result, the returned node is the one the sequence
    reaches, every node found before is found at the same index, and the trie
    stays well formed. *)
Lemma insert_spec {K V : Type} `{TrieKey K} (value_default : V)
    (t : list (TrieNode K V)) p v :
  trie_wf value_default t ->
  let (t', index) := insert value_default t p v in
  trie_wf value_default t' /\
  find_node value_default t' p = Some index /\
  (forall q, find value_default t' q = if decide (q = p) then Some v else find value_default t q) /\
  (forall q i, find_node value_default t q = Some i -> find_node value_default t' q = Some i).
Proof.
  intros Hw. unfold insert.
  destruct (fold_left (insert_step value_default) p (t, kRootNode)) as [t1 c] eqn:E.
  destruct (insert_loop_spec value_default p t kRootNode t1 c Hw (wf_root _ t Hw) E)
    as (W & X & B & F).
  pose proof (wf_root _ t Hw) as H0.
  split_and!.
  - by apply set_terminal_wf.
  - unfold find_node. by rewrite find_from_set_terminal.
  - intros q. rewrite (find_set_terminal _ _ _ _ _ p) by done. case_decide; [done|].
    rewrite !find_lookup. by apply (ext_values _ _ _ X).
  - intros q i Hq. unfold find_node. rewrite find_from_set_terminal by done.
    by apply (ext_paths _ _ _ X).
Qed.

(** Erasing removes exactly the value of its key sequence and reports
    whether there was one; no node moves, so every index stays valid. *)
Lemma erase_spec {K V : Type} `{TrieKey K} (value_default : V)
    (t : list (TrieNode K V)) p :
  trie_wf value_default t ->
  let (t', removed) := erase value_default t p in
  trie_wf value_default t' /\
  removed = contains value_default t p /\
  (forall q, contains value_default t q = bool_decide (is_Some (find value_default t q))) /\
  (forall q, find value_default t' q = if decide (q = p) then None else find value_default t q) /\
  (forall q, find_node value_default t' q = find_node value_default t q).
Proof.
  intros Hw.
  assert (Hcontains : forall q, contains value_default t q
    = bool_decide (is_Some (find value_default t q))).
  { intros q. unfold contains, find. destruct (find_node _ _ _) as [i|]; [|done].
    by destruct (sequence_end _). }
  unfold erase. destruct (find_node value_default t p) as [i|] eqn:Ep.
  - pose proof Ep as Hb. apply find_from_bound in Hb; [|done|by apply (wf_root value_default)].
    destruct (sequence_end (node value_default t i)) eqn:Es.
    + split_and!; [by apply set_terminal_wf; [|lia]| |done| |].
      * unfold contains. by rewrite Ep.
      * intros q. by rewrite (find_set_terminal _ _ _ _ _ p).
      * intros q. unfold find_node. by rewrite find_from_set_terminal by (done || lia).
    + split_and!; [done| |done| |done].
      * unfold contains. by rewrite Ep.
      * intros q. case_decide; [|done]. subst. unfold find. by rewrite Ep, Es.
  - split_and!; [done| |done| |done].
    + unfold contains. by rewrite Ep.
    + intros q. case_decide; [|done]. subst. unfold find. by rewrite Ep.
Qed.

(** The completions of a prefix are exactly the stored sequences that
    start with it, in strictly increasing lexicographic order (so each once),
    independently of the insertion order. *)
Lemma completions_of_wf {K V : Type} `{TrieKey K} (value_default : V)
    (t : list (TrieNode K V)) prefix :
  trie_wf value_default t ->
  StronglySorted lex_lt (completions value_default t prefix) /\
  forall q, q ∈ completions value_default t prefix <->
    (exists suffix, q = prefix ++ suffix) /\ contains value_default t q = true.
Proof.
  intros Hw. unfold completions. destruct (find_node value_default t prefix) as [i|] eqn:E.
  - pose proof E as Hb. apply find_from_bound in Hb; [|done|by apply (wf_root value_default)].
    split; [apply collect_sorted; [done|lia]|].
    assert (Hq : forall r, prefix ++ r ∈ collect_completions value_default (length t) t i prefix <->
      contains value_default t (prefix ++ r) = true).
    { intros r. rewrite (elem_of_collect _ t Hw) by lia. unfold contains, lookup_from, find_node in *.
      rewrite find_from_app, E. destruct (find_from _ t i r) as [j|]; [|by split; [intros []|]].
      destruct (sequence_end _); by split. }
    intros q. split.
    + intros H'. pose proof H' as [r ->]%collect_extends. split; [by exists r|by apply Hq].
    + intros [[r ->] Hc]. by apply Hq.
  - split; [constructor|]. intros q. split; [by intros []%elem_of_nil|].
    intros [[r ->] Hc]. unfold contains, find_node in *. rewrite find_from_app, E in Hc. done.
Qed.

(** ** Histories

    The tries a program can hold are those a sequence of calls builds from the
    constructor; the specification is a partial map. *)

Inductive TrieCall (K V : Type) :=
| CallInsert (key_sequence : list K) (v : V)
| CallErase (key_sequence : list K).
Arguments CallInsert {K V} key_sequence v.
Arguments CallErase {K V} key_sequence.

Section History.
Context {K V : Type} `{TrieKey K} (value_default : V).

Definition trie_call (t : list (TrieNode K V)) (call : TrieCall K V) : list (TrieNode K V) :=
  match call with
  | CallInsert p v => fst (insert value_default t p v)
  | CallErase p => fst (erase value_default t p)
  end.

Definition run (calls : list (TrieCall K V)) : list (TrieNode K V) :=
  fold_left trie_call calls (new_trie value_default).

Definition map_call (m : list K -> option V) (call : TrieCall K V) : list K -> option V :=
  match call with
  | CallInsert p v => fun q => if decide (q = p) then Some v else m q
  | CallErase p => fun q => if decide (q = p) then None else m q
  end.

Definition map_run (calls : list (TrieCall K V)) : list K -> option V :=
  fold_left map_call calls (fun _ => None).

Lemma trie_call_spec t call :
  trie_wf value_default t ->
  trie_wf value_default (trie_call t call) /\
  (forall m, (forall q, find value_default t q = m q) ->
     forall q, find value_default (trie_call t call) q = map_call m call q) /\
  (forall q i, find_node value_default t q = Some i ->
     find_node value_default (trie_call t call) q = Some i).
Proof.
  intros Hw. destruct call as [p v|p]; cbn [trie_call map_call].
  - pose proof (insert_spec value_default t p v Hw) as Hi.
    destruct (insert value_default t p v) as [t' i]. destruct Hi as (W & _ & F & N).
    split_and!; [done| |done]. intros m Hm q. cbn [fst]. rewrite F. case_decide; auto.
  - pose proof (erase_spec value_default t p Hw) as He.
    destruct (erase value_default t p) as [t' r]. destruct He as (W & _ & _ & F & N).
    split_and!; [done| |by intros; cbn [fst]; rewrite N].
    intros m Hm q. cbn [fst]. rewrite F. case_decide; auto.
Qed.

Lemma run_app calls more :
  run (calls ++ more) = fold_left trie_call more (run calls).
Proof. apply fold_left_app. Qed.

Lemma calls_wf calls : forall t,
  trie_wf value_default t -> trie_wf value_default (fold_left trie_call calls t).
Proof.
  induction calls as [|call calls IH]; intros t Hw; [done|]. simpl. apply IH.
  by apply trie_call_spec.
Qed.

Lemma run_wf calls : trie_wf value_default (run calls).
Proof. apply calls_wf, new_trie_wf. Qed.

Lemma find_run calls q : find value_default (run calls) q = map_run calls q.
Proof.
  unfold run, map_run.
  enough (G : forall t m, trie_wf value_default t -> (forall q, find value_default t q = m q) ->
    find value_default (fold_left trie_call calls t) q = fold_left map_call calls m q).
  { apply G; [apply new_trie_wf|]. intros [|? ?]; done. }
  induction calls as [|call calls IH]; intros t m Hw Hm; [apply Hm|]. cbn [fold_left].
  destruct (trie_call_spec t call Hw) as (W & F & _). apply IH; [done|]. by apply F.
Qed.
End History.

(** ** Properties *)

(** After any sequence of insertions and erasures the trie is well formed
    and answers every lookup as the partial map of the same calls does: the
    last insertion of exactly that sequence, unless erased since. *)
Theorem trie_refines_map {K V : Type} `{TrieKey K} (value_default : V)
    (calls : list (TrieCall K V)) :
  trie_wf value_default (run value_default calls) /\
  forall q,
    find value_default (run value_default calls) q = map_run calls q /\
    contains value_default (run value_default calls) q = bool_decide (is_Some (map_run calls q)).
Proof.
  split; [apply run_wf|]. intros q. split; [apply find_run|]. rewrite <- (find_run value_default).
  unfold contains, find. destruct (find_node _ _ _) as [i|]; [|done]. by destruct (sequence_end _).
Qed.

(** The completions of a prefix are exactly the stored sequences that
    start with it, in strictly increasing lexicographic order (so each once),
    whatever the order of the calls that built the trie. *)
Theorem completions_sorted_exact {K V : Type} `{TrieKey K} (value_default : V)
    (calls : list (TrieCall K V)) prefix :
  StronglySorted lex_lt (completions value_default (run value_default calls) prefix) /\
  forall q, q ∈ completions value_default (run value_default calls) prefix <->
    (exists suffix, q = prefix ++ suffix) /\ is_Some (map_run calls q).
Proof.
  destruct (completions_of_wf value_default (run value_default calls) prefix) as [Hs Hq];
    [apply run_wf|].
  split; [done|]. intros q. rewrite Hq, <- (find_run value_default). unfold contains, find.
  destruct (find_node _ _ _) as [i|]; [|by split; [intros [_ ?]|intros [_ [? ?]]]].
  destruct (sequence_end _); split; intros [Hx Hy]; (split; [done|]); (done || by destruct Hy).
Qed.

(** Node indexes are stable: a node found by a key sequence stays at its
    index through any later insertions and erasures, and the index determines
    the sequence, so cursors held across mutations stay meaningful. *)
Theorem node_indexes_stable {K V : Type} `{TrieKey K} (value_default : V)
    (calls more : list (TrieCall K V)) p i :
  find_node value_default (run value_default calls) p = Some i ->
  find_node value_default (run value_default (calls ++ more)) p = Some i /\
  forall q, find_node value_default (run value_default (calls ++ more)) q = Some i -> q = p.
Proof.
  intros Hp. assert (Hp' : find_node value_default (run value_default (calls ++ more)) p = Some i).
  { rewrite run_app. pose proof (run_wf value_default calls) as Hw. revert Hw Hp.
    generalize (run value_default calls). induction more as [|call more IH]; intros t Hw Hp; [done|].
    cbn [fold_left]. destruct (trie_call_spec value_default t call Hw) as (W & _ & N).
    apply IH; [done|]. by apply N. }
  split; [done|]. intros q Hq. by eapply find_node_inj; [apply run_wf|..].
Qed.

(** Both search strategies of [find_child], the linear scan of up to eight
    children and the binary search of longer lists, return exactly the child
    whose edge carries the key. *)
Theorem find_child_exact {K V : Type} `{TrieKey K} (value_default : V)
    (calls : list (TrieCall K V)) i k :
  let t := run value_default calls in
  match find_child value_default t i k with
  | Some c => (i < length t)%nat /\ c ∈ children (node value_default t i) /\
      key (node value_default t c) = k
  | None => (length t <= i)%nat \/
      forall c, c ∈ children (node value_default t i) -> key (node value_default t c) <> k
  end.
Proof.
  intros t. pose proof (run_wf value_default calls) as Hw. fold t in Hw.
  destruct (find_child value_default t i k) as [c|] eqn:E; [by apply find_child_some|].
  destruct (decide (i < length t)%nat); [right|left; lia]. by apply find_child_none.
Qed.

(** ** Bytes as keys: the tries of input sequences and command names *)

#[export] Instance byte_key : TrieKey Z.
Proof.
  refine {| key_default := 0%Z; key_eqb := Z.eqb; key_ltb := Z.ltb |}.
  - apply Z.eqb_eq.
  - apply Z.ltb_irrefl.
  - intros a b c. rewrite !Z.ltb_lt. lia.
  - intros a b. rewrite !Z.ltb_lt. lia.
Defined.

(** Ten children force the binary search. *)
Definition sample_calls : list (TrieCall Z nat) :=
  map (fun k => CallInsert [5%Z; k] (Z.to_nat k)) [9; 3; 7; 1; 8; 2; 6; 4; 10; 5]%Z
  ++ [CallInsert [5%Z] 77; CallErase [5; 3]%Z].

Example sample_completions :
  completions 0 (run 0 sample_calls) [5%Z] =
    [[5]; [5; 1]; [5; 2]; [5; 4]; [5; 5]; [5; 6]; [5; 7]; [5; 8]; [5; 9]; [5; 10]]%Z.
Proof. vm_compute. reflexivity. Qed.

Lemma node_indexes_stable_witness :
  find_node 0 (run 0 (sample_calls ++ [CallInsert [5; 0]%Z 1; CallErase [5; 7]%Z])) [5; 7]%Z = Some 4.
Proof.
  apply (node_indexes_stable 0 sample_calls [CallInsert [5; 0]%Z 1; CallErase [5; 7]%Z] [5; 7]%Z 4).
  vm_compute. reflexivity.
Defined.
