(* ===== verification/TurnAddress.v ===== *)
(** * Hierarchical Turn addresses (canvas/turn/address.hpp, canvas/turn/address.cpp)

    Parsing, rendering and ordering of addresses such as [2.b.1]. *)
From S2P Require Import Prelude Text Trie.
From Stdlib Require Import Sorted.
Open Scope Z_scope.

Inductive Kind := NUMERIC | ALPHABETIC.

#[export] Instance Kind_eq_dec : EqDecision Kind.
Proof. solve_decision. Defined.

Record AddressComponent := { kind : Kind; ordinal : Z }.

#[export] Instance AddressComponent_eq_dec : EqDecision AddressComponent.
Proof. solve_decision. Defined.

(** [AddressComponent::operator<=>] *)
Definition component_compare (a b : AddressComponent) : comparison :=
  match kind a, kind b with
  | NUMERIC, ALPHABETIC => Lt
  | ALPHABETIC, NUMERIC => Gt
  | _, _ => ordinal a ?= ordinal b
  end.

(** The components of an address, from the root to the leaf. *)
Abbreviation TurnAddress := (list AddressComponent).

(** The letters loop of [parse_component]. *)
Fixpoint parse_letters (text : bytes) (value : Z) : option Z :=
  match text with
  | [] => Some value
  | character :: rest =>
      if (character <? 97) || (122 <? character) then None
      else
        let digit := character - 97 + 1 in
        if (2 ^ 64 - 1 - digit) / 26 <? value then None
        else parse_letters rest (value * 26 + digit)
  end.

Definition parse_component (text : bytes) : option AddressComponent :=
  match text with
  | [] => None
  | front :: _ =>
      if (48 <=? front) && (front <=? 57) then
        if front =? 48 then None
        else
          match from_chars_u64 text with
          | Some (value, []) =>
              if value =? 0 then None else Some {| kind := NUMERIC; ordinal := value |}
          | _ => None
          end
      else
        match parse_letters text 0 with
        | Some value => Some {| kind := ALPHABETIC; ordinal := value |}
        | None => None
        end
  end.

(** The loop of [alphabetic]: the digits pushed, least significant first. *)
Fixpoint alphabetic_loop (fuel : nat) (ordinal : Z) : bytes :=
  match fuel with
  | O => []
  | S fuel =>
      if 0 <? ordinal then
        let ordinal := ordinal - 1 in
        (97 + ordinal mod 26) :: alphabetic_loop fuel (ordinal / 26)
      else []
  end.

(** Fourteen base-26 digits hold every 64-bit ordinal. *)
Definition alphabetic (ordinal : Z) : bytes := reverse (alphabetic_loop 14 ordinal).

(** [text.find('.')]: what precedes the first separator and what follows it. *)
Fixpoint split_separator (text : bytes) : bytes * option bytes :=
  match text with
  | [] => ([], None)
  | c :: rest =>
      if c =? 46 then ([], Some rest)
      else let '(head, tail) := split_separator rest in (c :: head, tail)
  end.

(** The loop of [parse] on the text from [begin] on. *)
Fixpoint parse_loop (fuel : nat) (text : bytes) (components : TurnAddress) : option TurnAddress :=
  match fuel with
  | O => None
  | S fuel =>
      match text with
      | [] => Some components
      | _ =>
          let '(part, rest) := split_separator text in
          match parse_component part with
          | None => None
          | Some component =>
              let components := components ++ [component] in
              match rest with
              | None => Some components
              | Some rest => parse_loop fuel rest components
              end
          end
      end
  end.

Definition parse (text : bytes) : option TurnAddress :=
  match text with
  | [] => None
  | _ => parse_loop (S (length text)) text []
  end.

Definition root (ordinal : Z) : TurnAddress := [{| kind := NUMERIC; ordinal := ordinal |}].

Definition numeric_child (address : TurnAddress) (ordinal : Z) : TurnAddress :=
  address ++ [{| kind := NUMERIC; ordinal := ordinal |}].

Definition alphabetic_child (address : TurnAddress) (ordinal : Z) : TurnAddress :=
  address ++ [{| kind := ALPHABETIC; ordinal := ordinal |}].

Definition component_text (component : AddressComponent) : bytes :=
  match kind component with
  | NUMERIC => decimal (ordinal component)
  | ALPHABETIC => alphabetic (ordinal component)
  end.

(** [TurnAddress::string] *)
Definition address_string (address : TurnAddress) : bytes :=
  fold_left
    (fun result component =>
       (match result with [] => [] | _ => result ++ [46] end) ++ component_text component)
    address [].

(** [std::equal] of the shorter address with the start of the longer. *)
Definition is_prefix_of (address other : TurnAddress) : bool :=
  (length address <? length other)%nat
  && bool_decide (address = take (length address) other).

(** [std::lexicographical_compare_three_way] *)
Fixpoint address_compare (a b : TurnAddress) : comparison :=
  match a, b with
  | [], [] => Eq
  | [], _ :: _ => Lt
  | _ :: _, [] => Gt
  | x :: a, y :: b =>
      match component_compare x y with
      | Eq => address_compare a b
      | c => c
      end
  end.

(** Components a parsed or allocated address holds: positive 64-bit ordinals. *)
Definition valid_component (c : AddressComponent) : Prop := 1 <= ordinal c < 2 ^ 64.
Definition valid_address (a : TurnAddress) : Prop := a <> [] /\ Forall valid_component a.

(** A trailing separator is accepted, and no other. *)
Example parse_trailing_dot :
  parse (str "1.") = parse (str "1") /\ parse (str "1..") = None /\ parse (str ".1") = None.
Proof. by vm_compute. Qed.

Example parse_mixed :
  parse (str "2.ab.10") =
    Some [{| kind := NUMERIC; ordinal := 2 |}; {| kind := ALPHABETIC; ordinal := 28 |};
          {| kind := NUMERIC; ordinal := 10 |}].
Proof. by vm_compute. Qed.

(** ** Components *)

(** Value of the letters, least significant first. *)
Fixpoint letters_value (l : bytes) : Z :=
  match l with
  | [] => 0
  | c :: l => (c - 96) + 26 * letters_value l
  end.

Definition is_letter (c : Z) : Prop := 97 <= c <= 122.

Lemma letters_value_bounds l :
  Forall is_letter l -> 26 ^ Z.of_nat (length l) <= 25 * letters_value l + 1.
Proof.
  induction 1 as [|c l Hc Hl IH]; [done|]. unfold is_letter in Hc.
  cbn [letters_value length]. rewrite Nat2Z.inj_succ, Z.pow_succ_r by lia. lia.
Qed.

Lemma letters_value_nonneg l : Forall is_letter l -> 0 <= letters_value l.
Proof. induction 1 as [|c l Hc Hl IH]; [done|]. unfold is_letter in Hc. simpl. lia. Qed.

Lemma alphabetic_loop_letters fuel v : Forall is_letter (alphabetic_loop fuel v).
Proof.
  revert v. induction fuel as [|fuel IH]; intros v; cbn [alphabetic_loop]; [constructor|].
  guard_goal; [|constructor]. constructor; [|apply IH]. unfold is_letter.
  pose proof (Z.mod_pos_bound (v - 1) 26). lia.
Qed.

Lemma alphabetic_loop_value fuel v :
  0 <= v < 26 ^ Z.of_nat fuel -> letters_value (alphabetic_loop fuel v) = v.
Proof.
  revert v. induction fuel as [|fuel IH]; intros v Hv; [simpl in *; lia|].
  rewrite Nat2Z.inj_succ, Z.pow_succ_r in Hv by lia.
  cbn [alphabetic_loop]. destruct (Z.ltb_spec 0 v); [|simpl; lia].
  cbn [letters_value]. rewrite IH by (Z.div_mod_to_equations; lia).
  Z.div_mod_to_equations. lia.
Qed.

Lemma alphabetic_loop_of_value fuel l :
  Forall is_letter l -> (length l <= fuel)%nat -> alphabetic_loop fuel (letters_value l) = l.
Proof.
  intros Hl. revert fuel. induction Hl as [|c l Hc Hl IH]; intros fuel Hf.
  { by destruct fuel. }
  destruct fuel as [|fuel]; [simpl in Hf; lia|]. cbn [alphabetic_loop letters_value].
  pose proof (letters_value_nonneg l Hl) as Hb. unfold is_letter in Hc.
  rewrite (proj2 (Z.ltb_lt _ _)) by lia.
  replace (c - 96 + 26 * letters_value l - 1) with (c - 97 + letters_value l * 26) by lia.
  rewrite Z.div_add, Z.mod_add, Z.div_small, Z.mod_small, Z.add_0_l by lia.
  rewrite IH by (simpl in Hf; lia). f_equal. lia.
Qed.

(** The letters loop computes the value, most significant letter first. *)
Definition letters_fold (l : bytes) (value : Z) : Z :=
  fold_left (fun value c => value * 26 + (c - 96)) l value.

Lemma letters_fold_value l value :
  letters_fold l value = letters_value (reverse l) + value * 26 ^ Z.of_nat (length l).
Proof.
  induction l as [|c l IH] using rev_ind; [simpl; lia|].
  unfold letters_fold in *. rewrite fold_left_app, IH, reverse_app, length_app. cbn [fold_left length].
  change (reverse [c] ++ reverse l) with (c :: reverse l). cbn [letters_value].
  rewrite Nat2Z.inj_add, Z.pow_add_r by lia. change (26 ^ Z.of_nat 1) with 26. lia.
Qed.

Lemma letters_fold_mono l value : Forall is_letter l -> 0 <= value -> value <= letters_fold l value.
Proof.
  intros Hl. revert value. induction Hl as [|c l Hc Hl IH]; intros value Hv; [done|].
  unfold is_letter, letters_fold in *. cbn [fold_left]. etransitivity; [|apply IH; lia]. lia.
Qed.

Lemma parse_letters_spec l : forall value v,
  0 <= value < 2 ^ 64 ->
  parse_letters l value = Some v <->
  Forall is_letter l /\ v = letters_fold l value /\ v < 2 ^ 64.
Proof.
  induction l as [|c l IH]; intros value v Hv; cbn [parse_letters].
  { unfold letters_fold. simpl. split; [intros [= <-]; by split_and!; [constructor|done|lia]|].
    by intros (_ & -> & _). }
  destruct ((c <? 97) || (122 <? c)) eqn:Ec.
  { split; [done|]. intros (Hl & _). apply Forall_cons in Hl as [Hc _]. unfold is_letter in Hc.
    rewrite (proj2 (Z.ltb_ge c 97)), (proj2 (Z.ltb_ge 122 c)) in Ec by lia. done. }
  bool_to_prop. rewrite Forall_cons. unfold is_letter at 1.
  change (letters_fold (c :: l) value) with (letters_fold l (value * 26 + (c - 96))).
  replace (c - 97 + 1) with (c - 96) by lia.
  destruct (Z.ltb_spec ((2 ^ 64 - 1 - (c - 96)) / 26) value) as [Hlt|Hge].
  - split; [done|]. intros ([_ Hl] & -> & Hb). exfalso.
    pose proof (letters_fold_mono l (value * 26 + (c - 96)) Hl ltac:(lia)).
    Z.div_mod_to_equations. lia.
  - rewrite IH by (Z.div_mod_to_equations; lia). tauto.
Qed.

Lemma alphabetic_letters v : Forall is_letter (alphabetic v).
Proof. apply Forall_reverse, alphabetic_loop_letters. Qed.

Lemma parse_letters_alphabetic v :
  0 <= v < 2 ^ 64 -> parse_letters (alphabetic v) 0 = Some v.
Proof.
  intros Hv. apply parse_letters_spec; [done|]. split; [apply alphabetic_letters|].
  rewrite letters_fold_value. unfold alphabetic. rewrite reverse_involutive.
  rewrite alphabetic_loop_value by lia. lia.
Qed.

Lemma alphabetic_parse_letters l v :
  parse_letters l 0 = Some v -> alphabetic v = l /\ v < 2 ^ 64 /\ Forall is_letter l.
Proof.
  intros H. apply parse_letters_spec in H as (Hl & -> & Hv); [|done].
  rewrite letters_fold_value, Z.mul_0_l, Z.add_0_r in *.
  assert (Hr : Forall is_letter (reverse l)) by (by apply Forall_reverse).
  pose proof (letters_value_bounds _ Hr) as Hb. split_and!; [|done|done].
  unfold alphabetic. rewrite alphabetic_loop_of_value; [apply reverse_involutive|done|].
  destruct (decide (length (reverse l) <= 14)%nat) as [|Hlen]; [done|exfalso].
  assert (26 ^ 15 <= 26 ^ Z.of_nat (length (reverse l))) by (apply Z.pow_le_mono_r; lia). lia.
Qed.

(** Decimal components without a leading zero. *)
Lemma decimal_digits_spec n value :
  0 <= value < 10 ^ Z.of_nat n -> Forall (fun d => is_digit d = true) (decimal_digits n value []).
Proof.
  revert value. induction n as [|n IH]; intros value Hv; [constructor|].
  cbn [decimal_digits]. guard_goal; [constructor|]. bool_to_prop.
  rewrite decimal_digits_app. apply Forall_app_2.
  - apply IH. rewrite Nat2Z.inj_succ, Z.pow_succ_r in Hv by lia. Z.div_mod_to_equations. lia.
  - repeat constructor. apply is_digit_digit, Z.mod_pos_bound. lia.
Qed.

Lemma one_le_pow10 e : 0 <= e -> 1 <= 10 ^ e.
Proof. intros He. pose proof (Z.pow_pos_nonneg 10 e). lia. Qed.

Definition digits_fold (l : bytes) (value : Z) : Z :=
  fold_left (fun value c => value * 10 + (c - 48)) l value.

Lemma digits_fold_app l c value : digits_fold (l ++ [c]) value = digits_fold l value * 10 + (c - 48).
Proof. unfold digits_fold. by rewrite fold_left_app. Qed.

Lemma scan_digits_all l : forall value v,
  scan_digits l value = (v, []) ->
  Forall (fun d => is_digit d = true) l /\ v = digits_fold l value.
Proof.
  induction l as [|c l IH]; intros value v; cbn [scan_digits]; [by intros [= <-]|].
  destruct (is_digit c) eqn:E; [|done]. intros [Hl ->]%IH. split; [by constructor|done].
Qed.

Lemma is_digit_range c : is_digit c = true <-> 48 <= c <= 57.
Proof. unfold is_digit. rewrite andb_true_iff, !Z.leb_le. done. Qed.

Lemma digits_fold_lower l :
  Forall (fun d => is_digit d = true) l ->
  match l with [] => False | c :: _ => c <> 48 end ->
  10 ^ (Z.of_nat (length l) - 1) <= digits_fold l 0.
Proof.
  induction l as [|c l IH] using rev_ind; [done|]. intros Hl Hh.
  apply Forall_app in Hl as [Hl Hc]. apply Forall_cons in Hc as [Hc%is_digit_range _].
  rewrite digits_fold_app, length_app. cbn [length]. destruct l as [|d l].
  - simpl in *. lia.
  - specialize (IH Hl Hh). replace (Z.of_nat (length (d :: l) + 1) - 1)
      with (Z.succ (Z.of_nat (length (d :: l)) - 1)) by lia.
    rewrite Z.pow_succ_r by (simpl; lia). lia.
Qed.

Lemma decimal_digits_zero n : decimal_digits n 0 [] = [].
Proof. by destruct n. Qed.

Lemma decimal_digits_fold n l :
  Forall (fun d => is_digit d = true) l ->
  match l with [] => False | c :: _ => c <> 48 end -> (length l <= n)%nat ->
  decimal_digits n (digits_fold l 0) [] = l.
Proof.
  revert n. induction l as [|c l IH] using rev_ind; [done|]. intros n Hl Hh Hn.
  pose proof (digits_fold_lower _ Hl Hh) as Hlow.
  assert (1 <= 10 ^ (Z.of_nat (length (l ++ [c])) - 1)).
  { apply one_le_pow10. rewrite length_app. simpl. lia. }
  rewrite length_app in Hn. cbn [length] in Hn. destruct n as [|n]; [lia|].
  cbn [decimal_digits]. rewrite (proj2 (Z.eqb_neq _ _)) by lia.
  rewrite decimal_digits_app. rewrite digits_fold_app.
  apply Forall_app in Hl as [Hl Hc]. apply Forall_cons in Hc as [Hc%is_digit_range _].
  rewrite Z.div_add_l by lia. rewrite (Z.add_comm (_ * 10)), Z.mod_add, Z.mod_small, Z.div_small, Z.add_0_r by lia.
  f_equal; [|f_equal; lia]. destruct l as [|d l]; [apply decimal_digits_zero|].
  apply IH; [done|done|lia].
Qed.

Lemma decimal_head v : 0 < v < 10 ^ 20 -> exists c l, decimal v = c :: l /\ 49 <= c <= 57.
Proof.
  intros Hv. unfold decimal. rewrite (proj2 (Z.eqb_neq _ _)) by lia.
  enough (G : forall n v, 0 < v < 10 ^ Z.of_nat n ->
    exists c l, decimal_digits n v [] = c :: l /\ 49 <= c <= 57) by (by apply G).
  clear. induction n as [|n IH]; intros v Hv; [simpl in Hv; lia|].
  rewrite Nat2Z.inj_succ, Z.pow_succ_r in Hv by lia.
  cbn [decimal_digits]. rewrite (proj2 (Z.eqb_neq _ _)), decimal_digits_app by lia.
  destruct (decide (v / 10 = 0)) as [E|E].
  - rewrite E, decimal_digits_zero. do 2 eexists. split; [done|]. Z.div_mod_to_equations. lia.
  - destruct (IH (v / 10)) as (c & l & -> & Hc); [Z.div_mod_to_equations; lia|]. by do 2 eexists.
Qed.

Definition no_separator (text : bytes) : Prop := Forall (fun c => c <> 46) text.

Lemma parse_component_text c :
  valid_component c ->
  parse_component (component_text c) = Some c /\ component_text c <> [] /\
  no_separator (component_text c).
Proof.
  destruct c as [[|] v]; unfold valid_component, component_text; cbn [kind ordinal]; intros Hv.
  - destruct (decimal_head v) as (c & l & E & Hc); [lia|].
    pose proof (from_chars_decimal v [] ltac:(width_lia) I) as Hp. rewrite app_nil_r in Hp.
    assert (Hd : Forall (fun d => is_digit d = true) (decimal v)).
    { unfold decimal. rewrite (proj2 (Z.eqb_neq _ _)) by lia. apply decimal_digits_spec. lia. }
    split_and!; [|by rewrite E|].
    + unfold parse_component. rewrite E at 1.
      rewrite (proj2 (Z.leb_le _ _)), (proj2 (Z.leb_le _ _)) by lia. cbn [andb].
      rewrite (proj2 (Z.eqb_neq _ _)) by lia. rewrite Hp.
      by rewrite (proj2 (Z.eqb_neq _ _)) by lia.
    + eapply Forall_impl; [exact Hd|]. cbn. intros x Hx%is_digit_range. lia.
  - pose proof (parse_letters_alphabetic v ltac:(lia)) as Hp.
    pose proof (alphabetic_letters v) as Hl.
    assert (Hne : alphabetic v <> []) by (intros E; rewrite E in Hp; injection Hp; lia).
    split_and!; [|done|].
    + unfold parse_component. destruct (alphabetic v) as [|c l] eqn:E; [done|].
      apply Forall_cons in Hl as [Hc _]. unfold is_letter in Hc.
      rewrite (proj2 (Z.leb_le 48 c)), (proj2 (Z.leb_gt c 57)) by lia. cbn [andb].
      by rewrite Hp.
    + eapply Forall_impl; [exact Hl|]. cbn. unfold is_letter. intros x Hx. lia.
Qed.

Lemma parse_component_some text c :
  parse_component text = Some c -> valid_component c /\ component_text c = text.
Proof.
  unfold parse_component, valid_component, component_text. destruct text as [|b text]; [done|].
  destruct ((48 <=? b) && (b <=? 57)) eqn:Eb.
  - destruct (b =? 48) eqn:Ez; [done|]. bool_to_prop.
    destruct (from_chars_u64 (b :: text)) as [[v [|]]|] eqn:E; [|done|done].
    destruct (v =? 0) eqn:Ev; [done|]. intros [= <-]. cbn [kind ordinal]. bool_to_prop.
    unfold from_chars_u64 in E. destruct (is_digit b) eqn:Ed; [|done].
    destruct (scan_digits (b :: text) 0) as [v' r] eqn:Es. destruct (v' <? 2 ^ 64) eqn:Eb; [|done].
    injection E as -> ->. bool_to_prop. apply scan_digits_all in Es as [Hd ->].
    pose proof (digits_fold_lower (b :: text) Hd Ez) as Hlow.
    assert (1 <= 10 ^ (Z.of_nat (length (b :: text)) - 1))
      by (apply one_le_pow10; simpl; lia).
    split; [lia|]. unfold decimal. rewrite (proj2 (Z.eqb_neq _ _)) by lia.
    apply decimal_digits_fold; [done|done|].
    destruct (decide (length (b :: text) <= 20)%nat) as [|Hlen]; [done|exfalso].
    assert (10 ^ 20 <= 10 ^ (Z.of_nat (length (b :: text)) - 1)) by (apply Z.pow_le_mono_r; lia).
    lia.
  - destruct (parse_letters (b :: text) 0) as [v|] eqn:E; [|done]. intros [= <-].
    cbn [kind ordinal]. apply alphabetic_parse_letters in E as (E & Hv & Hl).
    split; [|done]. split; [|done].
    destruct (decide (1 <= v)) as [|Hn]; [done|]. exfalso.
    unfold alphabetic in E. cbn [alphabetic_loop] in E.
    rewrite (proj2 (Z.ltb_ge _ _)) in E by lia. done.
Qed.

(** ** Addresses *)

(** The components after the first, each behind a separator. *)
Definition separated (cs : TurnAddress) : bytes := flat_map (fun c => 46 :: component_text c) cs.

Lemma address_string_from cs : forall result,
  result <> [] -> Forall valid_component cs ->
  fold_left
    (fun result component =>
       (match result with [] => [] | _ => result ++ [46] end) ++ component_text component)
    cs result = result ++ separated cs.
Proof.
  induction cs as [|c cs IH]; intros result Hr Hv; [by rewrite app_nil_r|].
  apply Forall_cons in Hv as [Hc Hv]. cbn [fold_left separated flat_map].
  rewrite IH; [|by destruct result|done]. destruct result as [|b result]; [done|].
  by rewrite <- !app_assoc.
Qed.

Lemma address_string_layout c cs :
  Forall valid_component (c :: cs) -> address_string (c :: cs) = component_text c ++ separated cs.
Proof.
  intros Hv. apply Forall_cons in Hv as [Hc Hv]. unfold address_string. cbn [fold_left app].
  apply address_string_from; [by apply parse_component_text|done].
Qed.

Lemma split_separator_none text : no_separator text -> split_separator text = (text, None).
Proof.
  induction 1 as [|c text Hc Ht IH]; [done|]. cbn [split_separator].
  by rewrite (proj2 (Z.eqb_neq _ _) Hc), IH.
Qed.

Lemma split_separator_some text rest :
  no_separator text -> split_separator (text ++ 46 :: rest) = (text, Some rest).
Proof.
  induction 1 as [|c text Hc Ht IH]; [done|]. cbn [split_separator app].
  by rewrite (proj2 (Z.eqb_neq _ _) Hc), IH.
Qed.

Lemma split_separator_inv text part rest :
  split_separator text = (part, rest) ->
  no_separator part /\ text = part ++ match rest with Some rest => 46 :: rest | None => [] end.
Proof.
  revert part rest. induction text as [|c text IH]; intros part rest; cbn [split_separator].
  { intros [= <- <-]. split; [constructor|done]. }
  destruct (Z.eqb_spec c 46) as [->|Hc]; [intros [= <- <-]; split; [constructor|done]|].
  destruct (split_separator text) as [p r]. intros [= <- <-].
  destruct (IH _ _ eq_refl) as [Hp E]. split; [by constructor|]. by rewrite E at 1.
Qed.

(** Enough iterations parse a rendered address. *)
Lemma parse_loop_written cs : forall fuel c acc,
  Forall valid_component (c :: cs) -> (length cs < fuel)%nat ->
  parse_loop fuel (component_text c ++ separated cs) acc = Some (acc ++ c :: cs).
Proof.
  induction cs as [|c' cs IH]; intros fuel c acc Hv Hf; (destruct fuel as [|fuel]; [simpl in *; lia|]);
    apply Forall_cons in Hv as [Hc Hv]; destruct (parse_component_text c Hc) as (Hp & Hne & Hs);
    cbn [parse_loop].
  - rewrite app_nil_r, split_separator_none, Hp by done. by destruct (component_text c).
  - change (separated (c' :: cs)) with (46 :: component_text c' ++ separated cs).
    rewrite split_separator_some, Hp by done.
    assert (E : forall (a b : option TurnAddress),
      match component_text c ++ 46 :: component_text c' ++ separated cs with
      | [] => a | _ :: _ => b end = b) by (by destruct (component_text c)).
    rewrite E, IH; [by rewrite <- app_assoc|done|simpl in Hf; lia].
Qed.

Lemma separated_length cs :
  Forall valid_component cs -> (length cs <= length (separated cs))%nat.
Proof.
  induction 1 as [|c cs Hc Hv IH]; [done|]. cbn [separated flat_map length].
  rewrite length_app. simpl. unfold separated in IH. lia.
Qed.

(** What the loop accepts: components behind separators, and possibly one
    separator at the end. *)
Lemma parse_loop_some fuel : forall text acc a,
  parse_loop fuel text acc = Some a -> text <> [] ->
  exists c cs, a = acc ++ c :: cs /\ Forall valid_component (c :: cs) /\
    (text = component_text c ++ separated cs \/
     text = component_text c ++ separated cs ++ [46]).
Proof.
  induction fuel as [|fuel IH]; intros text acc a; [done|]. cbn [parse_loop]. intros H Hne.
  assert (H' : (let '(part, rest) := split_separator text in
     match parse_component part with
     | None => None
     | Some component =>
         match rest with
         | None => Some (acc ++ [component])
         | Some rest => parse_loop fuel rest (acc ++ [component])
         end
     end) = Some a) by (by destruct text).
  clear H. destruct (split_separator text) as [part rest] eqn:Es.
  apply split_separator_inv in Es as [Hp ->].
  destruct (parse_component part) as [c|] eqn:Ec; [|done].
  apply parse_component_some in Ec as [Hc Et].
  destruct rest as [rest|].
  - destruct rest as [|b rest].
    + destruct fuel as [|fuel]; [done|]. injection H' as <-. exists c, [].
      split_and!; [done|by apply Forall_singleton|]. right. by rewrite Et.
    + apply IH in H' as (c' & cs & -> & Hv & Hd); [|done]. exists c, (c' :: cs).
      split_and!; [by rewrite <- app_assoc|by constructor|].
      change (separated (c' :: cs)) with (46 :: component_text c' ++ separated cs).
      rewrite Et. cbn [app]. rewrite <- app_assoc. destruct Hd as [-> | ->]; [by left|by right].
  - injection H' as <-. exists c, []. split_and!; [done|by apply Forall_singleton|]. left.
    by rewrite Et.
Qed.

(** ** Order *)

Lemma component_compare_eq x y : component_compare x y = Eq <-> x = y.
Proof.
  destruct x as [[|] x], y as [[|] y]; unfold component_compare; cbn [kind ordinal];
    rewrite ?Z.compare_eq_iff; split; (done || congruence).
Qed.

Lemma component_compare_antisym x y : component_compare y x = CompOpp (component_compare x y).
Proof.
  destruct x as [[|] x], y as [[|] y]; unfold component_compare; cbn [kind ordinal];
    try done; apply Z.compare_antisym.
Qed.

Lemma component_compare_trans x y z :
  component_compare x y = Lt -> component_compare y z = Lt -> component_compare x z = Lt.
Proof.
  destruct x as [[|] x], y as [[|] y], z as [[|] z]; unfold component_compare;
    cbn [kind ordinal]; rewrite ?Z.compare_lt_iff; (done || lia).
Qed.

Lemma address_compare_eq a b : address_compare a b = Eq <-> a = b.
Proof.
  revert b. induction a as [|x a IH]; intros [|y b]; cbn [address_compare]; try done.
  destruct (component_compare x y) eqn:E; [|split; [done|]..].
  - apply component_compare_eq in E as ->. rewrite IH. split; congruence.
  - intros [= -> _]. by rewrite (proj2 (component_compare_eq y y)) in E.
  - intros [= -> _]. by rewrite (proj2 (component_compare_eq y y)) in E.
Qed.

Lemma address_compare_antisym a b : address_compare b a = CompOpp (address_compare a b).
Proof.
  revert b. induction a as [|x a IH]; intros [|y b]; cbn [address_compare]; try done.
  rewrite component_compare_antisym. destruct (component_compare x y); cbn; [apply IH|done|done].
Qed.

Lemma address_compare_trans a b c :
  address_compare a b = Lt -> address_compare b c = Lt -> address_compare a c = Lt.
Proof.
  revert b c. induction a as [|x a IH]; intros [|y b] [|z c]; cbn [address_compare]; try done.
  destruct (component_compare x y) eqn:Exy; [|intros _|done].
  - apply component_compare_eq in Exy as ->.
    destruct (component_compare y z); [apply IH|done|done].
  - destruct (component_compare y z) eqn:Eyz; [|intros _|done].
    + apply component_compare_eq in Eyz as <-. by rewrite Exy.
    + by rewrite (component_compare_trans x y z).
Qed.

Lemma is_prefix_of_spec a b : is_prefix_of a b = true <-> exists c cs, b = a ++ c :: cs.
Proof.
  unfold is_prefix_of. rewrite andb_true_iff, Nat.ltb_lt, bool_decide_eq_true. split.
  - intros [Hl E]. destruct (drop (length a) b) as [|c cs] eqn:Ed.
    + apply (f_equal length) in Ed. rewrite length_drop in Ed. simpl in Ed. lia.
    + exists c, cs. rewrite E at 1. rewrite <- Ed. by rewrite take_drop.
  - intros (c & cs & ->). rewrite length_app, take_app_length. simpl. split; [lia|done].
Qed.

(** ** Properties *)

(** Rendering a valid address and parsing it back is the identity; every text
    the parser accepts is the rendering of a valid address, except that one
    trailing separator is also accepted. *)
Theorem address_round_trip :
  (forall a, valid_address a -> parse (address_string a) = Some a) /\
  (forall text a, parse text = Some a ->
     valid_address a /\ (text = address_string a \/ text = address_string a ++ [46])).
Proof.
  split.
  - intros [|c cs] [Hne Hv]; [done|]. rewrite address_string_layout by done.
    assert (Hc : component_text c <> []) by (apply parse_component_text; by apply Forall_inv in Hv).
    assert (Hl : (length cs <= length (separated cs))%nat)
      by (apply separated_length; by apply Forall_inv_tail in Hv).
    unfold parse. rewrite parse_loop_written; [by destruct (component_text c)|done|].
    rewrite length_app. lia.
  - intros text a H. assert (Hne : text <> []) by (by destruct text).
    assert (H' : parse_loop (S (length text)) text [] = Some a) by (by destruct text).
    apply parse_loop_some in H' as (c & cs & -> & Hv & Hd); [|done]. cbn [app] in *.
    split; [done|]. rewrite address_string_layout by done.
    rewrite <- app_assoc. exact Hd.
Qed.

(** The comparison is a strict total order compatible with equality in
    which an ancestor precedes its descendants and the descendants of an
    address form an interval: no other address sorts between an address and
    one of its descendants. *)
Theorem address_order_total (a b c : TurnAddress) :
  (address_compare a b = Eq <-> a = b) /\
  address_compare b a = CompOpp (address_compare a b) /\
  (address_compare a b = Lt -> address_compare b c = Lt -> address_compare a c = Lt) /\
  (is_prefix_of a b = true -> address_compare a b = Lt) /\
  (is_prefix_of a c = true -> address_compare a b = Lt -> address_compare b c = Lt ->
     is_prefix_of a b = true).
Proof.
  split_and!; [apply address_compare_eq|apply address_compare_antisym|apply address_compare_trans|..].
  - intros (x & xs & ->)%is_prefix_of_spec. induction a as [|y a IH]; [done|].
    cbn [app address_compare]. by rewrite (proj2 (component_compare_eq y y)).
  - intros (x & xs & ->)%is_prefix_of_spec Hab Hbc. apply is_prefix_of_spec.
    revert b Hab Hbc. induction a as [|y a IH]; intros b Hab Hbc.
    { destruct b as [|z b]; [done|]. by exists z, b. }
    destruct b as [|z b]; [done|]. cbn [app address_compare] in *.
    rewrite component_compare_antisym in Hbc.
    destruct (component_compare y z) eqn:E; cbn in Hbc; [|done|done].
    apply component_compare_eq in E as <-.
    destruct (IH b Hab Hbc) as (w & ws & ->). by exists w, ws.
Qed.

(** A child sorts after its parent and its earlier siblings, numeric
    children before alphabetic ones, and children of the same kind by ordinal. *)
Theorem children_in_order (a : TurnAddress) m n :
  is_prefix_of a (numeric_child a m) = true /\ is_prefix_of a (alphabetic_child a m) = true /\
  address_compare (numeric_child a m) (numeric_child a n) = (m ?= n) /\
  address_compare (alphabetic_child a m) (alphabetic_child a n) = (m ?= n) /\
  address_compare (numeric_child a m) (alphabetic_child a n) = Lt /\
  is_prefix_of a a = false.
Proof.
  assert (Hsame : forall x y, address_compare (a ++ [x]) (a ++ [y]) = component_compare x y).
  { intros x y. induction a as [|z a IH]; cbn [app address_compare].
    - by destruct (component_compare x y).
    - by rewrite (proj2 (component_compare_eq z z)). }
  unfold numeric_child, alphabetic_child. rewrite !Hsame. split_and!; try done.
  - apply is_prefix_of_spec. by do 2 eexists.
  - apply is_prefix_of_spec. by do 2 eexists.
  - unfold is_prefix_of. by rewrite Nat.ltb_irrefl.
Qed.

(** Address components are trie keys, as the turn tree uses them. *)
#[export] Instance address_key : TrieKey AddressComponent.
Proof.
  refine {| key_default := {| kind := NUMERIC; ordinal := 0 |};
            key_eqb := fun x y => bool_decide (x = y);
            key_ltb := fun x y => match component_compare x y with Lt => true | _ => false end |}.
  - intros x y. apply bool_decide_eq_true.
  - intros x. by rewrite (proj2 (component_compare_eq x x)).
  - intros x y z. destruct (component_compare x y) eqn:E1; [done| |done].
    destruct (component_compare y z) eqn:E2; [done| |done].
    by rewrite (component_compare_trans x y z).
  - intros x y. rewrite (component_compare_antisym x y).
    destruct (component_compare x y) eqn:E; [|by left|by right; right].
    right. left. by apply component_compare_eq.
Defined.
