(* ===== verification/TurnTree.v ===== *)
(** * The tree of turns

    canvas/turn/turn_tree.hpp and turn_tree.cpp: committed turns in a trie keyed
    by address components, with a content hash per node and, in each node, the
    next free numeric and alphabetic child.  Protocol buffers are generated
    code: a turn is its identity, its parent and an abstract remainder, and its
    serialisation is an argument, as is the hash provider. *)
From S2P Require Import Prelude Bytes Text Trie TurnAddress Hash256.
From stdpp Require Import sorting.
Open Scope Z_scope.

(** ** The messages *)

(** [proto::TurnId]: optional fields; an absent field reads as empty. *)
Record TurnId := { canvas_uuid_field : option bytes; human_address_field : option bytes }.

#[export] Instance TurnId_eq_dec : EqDecision TurnId.
Proof. solve_decision. Defined.

Definition canvas_uuid (turn_id : TurnId) : bytes := default [] (canvas_uuid_field turn_id).
Definition human_address (turn_id : TurnId) : bytes := default [] (human_address_field turn_id).
Definition has_canvas_uuid (turn_id : TurnId) : bool := bool_decide (is_Some (canvas_uuid_field turn_id)).
Definition has_human_address (turn_id : TurnId) : bool := bool_decide (is_Some (human_address_field turn_id)).

Module TurnStatuses.
Inductive Status := OK | INVALID_TURN | PARENT_NOT_FOUND | ALREADY_EXISTS | ADDRESS_EXHAUSTED.

#[export] Instance TurnStatus_eq_dec : EqDecision Status.
Proof. solve_decision. Defined.
End TurnStatuses.
Export TurnStatuses.

Definition uint32_max : Z := 2 ^ 32 - 1.

Section TurnTree.
(** The fields of a turn other than its identity and its parent. *)
Context {Rest : Type} (no_rest : Rest).

Record Turn := { id : option TurnId; parent : option TurnId; rest : Rest }.

(** A cleared message. *)
Definition no_turn : Turn := {| id := None; parent := None; rest := no_rest |}.

(** [Turn::SerializeToString] and the hash provider. *)
Context (serialize : Turn -> option bytes) (mbedtls_sha256 : bytes -> option bytes).

(** [TurnNode]: a turn and its allocators, zero once exhausted. *)
Record TurnNode := { turn_ : Turn; next_numeric_child : Z; next_alphabetic_child : Z }.

Definition new_turn_node (turn : Turn) : TurnNode :=
  {| turn_ := turn; next_numeric_child := 1; next_alphabetic_child := 1 |}.

Definition empty_turn_node : TurnNode := new_turn_node no_turn.

Definition allocator (n : TurnNode) (kind : Kind) : Z :=
  match kind with NUMERIC => next_numeric_child n | ALPHABETIC => next_alphabetic_child n end.

Definition with_allocator (n : TurnNode) (kind : Kind) (next : Z) : TurnNode :=
  match kind with
  | NUMERIC => {| turn_ := turn_ n; next_numeric_child := next; next_alphabetic_child := next_alphabetic_child n |}
  | ALPHABETIC => {| turn_ := turn_ n; next_numeric_child := next_numeric_child n; next_alphabetic_child := next |}
  end.

Abbreviation TurnTrie := (list (TrieNode AddressComponent TurnNode)).

Record TurnTree := { trie_ : TurnTrie; hashes_ : list Hash256; root_hash_ : Hash256 }.

Definition new_turn_tree : TurnTree :=
  {| trie_ := new_trie empty_turn_node; hashes_ := [zero_hash]; root_hash_ := zero_hash |}.

Abbreviation trie_node t i := (node empty_turn_node t i).

Definition size (tree : TurnTree) : nat := length (trie_ tree) - 1.

(** [trie_.find(address.components())->turn_] *)
Definition find_turn (tree : TurnTree) (address : TurnAddress) : option Turn :=
  turn_ <$> Trie.find empty_turn_node (trie_ tree) address.

(** Store into [trie_.node(index).value]. *)
Definition with_value (t : TurnTrie) (index : nat) (v : TurnNode) : TurnTrie :=
  let n := trie_node t index in
  <[index := {| key := key n; children := children n; sequence_end := sequence_end n; value := v |}]> t.

(** ** Allocation *)

Definition direct_child (parent child : TurnAddress) : bool :=
  if negb (length child =? length parent + 1)%nat then false
  else
    match last child with
    | Some component =>
        bool_decide
          ((match kind component with
            | NUMERIC => numeric_child parent (ordinal component)
            | ALPHABETIC => alphabetic_child parent (ordinal component)
            end) = child)
    | None => false
    end.

(** The value an allocator holds after [ordinal] was taken. *)
Definition successor (ordinal : Z) : Z := if ordinal =? uint32_max then 0 else ordinal + 1.

(** [advance_past]; without contention the exchange succeeds at once. *)
Definition advance_past (next ordinal : Z) : Z :=
  let desired := successor ordinal in
  if negb (next =? 0) && ((desired =? 0) || (next <? desired)) then desired else next.

Definition preserve_watermark (current rebuilt : Z) : Z :=
  if (current =? 0) || (rebuilt =? 0) then 0
  else if rebuilt <? current then current
  else rebuilt.

(** The checks of [allocate_child]: the node of the parent and its address. *)
Definition locate_parent (tree : TurnTree) (uuid : bytes) (parent : option TurnId) (kind : Kind)
    : result Status (nat * option TurnAddress) :=
  if negb (length uuid =? 16)%nat || (bool_decide (kind = ALPHABETIC) && bool_decide (parent = None))
  then Err INVALID_TURN
  else
    match parent with
    | None => Ok (kRootNode, None)
    | Some parent =>
        if negb (has_canvas_uuid parent) || negb (bool_decide (canvas_uuid parent = uuid))
           || negb (has_human_address parent)
        then Err INVALID_TURN
        else
          match TurnAddress.parse (human_address parent) with
          | None => Err INVALID_TURN
          | Some address =>
              match find_node empty_turn_node (trie_ tree) address with
              | None => Err PARENT_NOT_FOUND
              | Some index =>
                  if sequence_end (trie_node (trie_ tree) index) then Ok (index, Some address)
                  else Err PARENT_NOT_FOUND
              end
          end
    end.

Definition child_address (parent_address : option TurnAddress) (kind : Kind) (ordinal : Z) : TurnAddress :=
  match parent_address, kind with
  | None, _ => root ordinal
  | Some address, NUMERIC => numeric_child address ordinal
  | Some address, ALPHABETIC => alphabetic_child address ordinal
  end.

(** The message [allocate_child] fills in. *)
Definition started_turn (uuid : bytes) (parent : option TurnId) (address : TurnAddress) : Turn :=
  {| id := Some {| canvas_uuid_field := Some uuid; human_address_field := Some (address_string address) |};
     parent := parent; rest := no_rest |}.

Definition with_trie (tree : TurnTree) (t : TurnTrie) : TurnTree :=
  {| trie_ := t; hashes_ := hashes_ tree; root_hash_ := root_hash_ tree |}.

Definition allocate_child (tree : TurnTree) (uuid : bytes) (parent : option TurnId) (kind : Kind)
    : TurnTree * result Status Turn :=
  match locate_parent tree uuid parent kind with
  | Err status => (tree, Err status)
  | Ok (index, parent_address) =>
      let n := value (trie_node (trie_ tree) index) in
      let ordinal := allocator n kind in
      if ordinal =? 0 then (tree, Err ADDRESS_EXHAUSTED)
      else
        (with_trie tree (with_value (trie_ tree) index (with_allocator n kind (successor ordinal))),
         Ok (started_turn uuid parent (child_address parent_address kind ordinal)))
  end.

Definition reply_to (tree : TurnTree) (uuid : bytes) (parent : option TurnId) : TurnTree * result Status Turn :=
  allocate_child tree uuid parent NUMERIC.

Definition append_part (tree : TurnTree) (uuid : bytes) (parent : TurnId) : TurnTree * result Status Turn :=
  allocate_child tree uuid (Some parent) ALPHABETIC.

(** ** Hashing *)

Definition kind_byte (kind : Kind) : Z := match kind with NUMERIC => 0 | ALPHABETIC => 1 end.

Definition child_bytes (t : TurnTrie) (hashes : list Hash256) (child : nat) : bytes :=
  [kind_byte (kind (key (trie_node t child)))] ++ be_bytes 8 (ordinal (key (trie_node t child)))
  ++ default zero_hash (hashes !! child).

(** The bytes [hash_node] digests; [None] when the turn does not serialise. *)
Definition encoded_node (t : TurnTrie) (hashes : list Hash256) (index : nat) : option bytes :=
  let n := trie_node t index in
  let header := str "PUC-TURN-TRIE-V1" ++ [if sequence_end n then 1 else 0] in
  let tail := flat_map (child_bytes t hashes) (children n) in
  if sequence_end n then (fun payload => header ++ payload ++ tail) <$> serialize (turn_ (value n))
  else Some (header ++ tail).

Definition hash_node (t : TurnTrie) (hashes : list Hash256) (index : nat) : Hash256 :=
  match encoded_node t hashes index with
  | None => zero_hash
  | Some encoded => sha256 mbedtls_sha256 encoded
  end.

(** The path of [apply]: the nodes below [current] along the components.  A
    missing child cannot occur after the insertion; the path stops there. *)
Fixpoint path_from (t : TurnTrie) (current : nat) (components : TurnAddress) : list nat :=
  match components with
  | [] => []
  | component :: rest =>
      match find_child empty_turn_node t current component with
      | Some child => child :: path_from t child rest
      | None => []
      end
  end.

Definition rehash (t : TurnTrie) (path : list nat) (hashes : list Hash256) : list Hash256 :=
  fold_left (fun hashes index => <[index := hash_node t hashes index]> hashes) (reverse path) hashes.

(** [hashes_.resize(size)], which never shrinks here. *)
Definition resize (hashes : list Hash256) (size : nat) : list Hash256 :=
  take size hashes ++ replicate (size - length hashes) zero_hash.

(** ** Commits *)

(** The checks of [apply]: the address of the turn and the node of its parent. *)
Definition check_turn (tree : TurnTree) (turn : Turn) : result Status (TurnAddress * nat) :=
  match id turn with
  | None => Err INVALID_TURN
  | Some turn_id =>
      if negb (has_human_address turn_id) || negb (has_canvas_uuid turn_id) then Err INVALID_TURN
      else
        match TurnAddress.parse (human_address turn_id) with
        | None => Err INVALID_TURN
        | Some address =>
            if negb (length (canvas_uuid turn_id) =? 16)%nat then Err INVALID_TURN
            else if uint32_max <? ordinal (default {| kind := NUMERIC; ordinal := 0 |} (last address))
            then Err ADDRESS_EXHAUSTED
            else
              match parent turn with
              | Some parent_id =>
                  if negb (has_canvas_uuid parent_id) || negb (has_human_address parent_id)
                     || negb (bool_decide (canvas_uuid parent_id = canvas_uuid turn_id))
                  then Err INVALID_TURN
                  else
                    match TurnAddress.parse (human_address parent_id) with
                    | None => Err INVALID_TURN
                    | Some parent_address =>
                        if negb (direct_child parent_address address) then Err INVALID_TURN
                        else
                          match find_node empty_turn_node (trie_ tree) parent_address with
                          | None => Err PARENT_NOT_FOUND
                          | Some index =>
                              if sequence_end (trie_node (trie_ tree) index) then Ok (address, index)
                              else Err PARENT_NOT_FOUND
                          end
                    end
              | None =>
                  if negb (length address =? 1)%nat
                     || negb (bool_decide (kind (default {| kind := NUMERIC; ordinal := 0 |} (head address)) = NUMERIC))
                  then Err INVALID_TURN
                  else Ok (address, kRootNode)
              end
        end
  end.

(** The insertion, the allocator of the parent and the hashes of the path. *)
Definition commit_turn (tree : TurnTree) (turn : Turn) (address : TurnAddress) (parent_index : nat) : TurnTree :=
  let t := (Trie.insert empty_turn_node (trie_ tree) address (new_turn_node turn)).1 in
  let hashes := resize (hashes_ tree) (length t) in
  let child := default {| kind := NUMERIC; ordinal := 0 |} (last address) in
  let n := value (trie_node t parent_index) in
  let t := with_value t parent_index
             (with_allocator n (kind child) (advance_past (allocator n (kind child)) (ordinal child))) in
  let hashes := rehash t (kRootNode :: path_from t kRootNode address) hashes in
  {| trie_ := t; hashes_ := hashes; root_hash_ := default zero_hash (hashes !! kRootNode) |}.

Definition apply (tree : TurnTree) (turn : Turn) : TurnTree * Status :=
  match check_turn tree turn with
  | Err status => (tree, status)
  | Ok (address, parent_index) =>
      match find_node empty_turn_node (trie_ tree) address with
      | Some existing =>
          if sequence_end (trie_node (trie_ tree) existing) then (tree, ALREADY_EXISTS)
          else (commit_turn tree turn address parent_index, OK)
      | None => (commit_turn tree turn address parent_index, OK)
      end
  end.

(** ** Rebuilding *)

Definition turn_address (turn : Turn) : option TurnAddress :=
  turn_id ← id turn; TurnAddress.parse (human_address turn_id).

(** [candidate.apply] of the turns in order, until one fails. *)
Fixpoint apply_all (tree : TurnTree) (turns : list Turn) : result Status TurnTree :=
  match turns with
  | [] => Ok tree
  | turn :: rest =>
      match apply tree turn with
      | (tree, OK) => apply_all tree rest
      | (_, status) => Err status
      end
  end.

Definition preserve_node (current candidate : TurnNode) : TurnNode :=
  {| turn_ := turn_ candidate;
     next_numeric_child := preserve_watermark (next_numeric_child current) (next_numeric_child candidate);
     next_alphabetic_child := preserve_watermark (next_alphabetic_child current) (next_alphabetic_child candidate) |}.

(** One address of the loop of [preserve_reservations]. *)
Definition preserve_at (current : TurnTrie) (rebuilt : TurnTrie) (address : TurnAddress) : TurnTrie :=
  match find_node empty_turn_node current address, find_node empty_turn_node rebuilt address with
  | Some i, Some j =>
      if negb (sequence_end (trie_node current i)) || negb (sequence_end (trie_node rebuilt j)) then rebuilt
      else with_value rebuilt j (preserve_node (value (trie_node current i)) (value (trie_node rebuilt j)))
  | _, _ => rebuilt
  end.

Definition preserve_reservations (tree rebuilt : TurnTree) : TurnTree :=
  let r := with_value (trie_ rebuilt) kRootNode
             (preserve_node (value (trie_node (trie_ tree) kRootNode)) (value (trie_node (trie_ rebuilt) kRootNode))) in
  with_trie rebuilt
    (fold_left (preserve_at (trie_ tree)) (completions empty_turn_node (trie_ tree) []) r).

(** [rebuild] once its input is sorted; [std::sort] may order turns of equal
    addresses in any way, so the order is an argument. *)
Definition rebuild_sorted (tree : TurnTree) (ordered : list Turn) : TurnTree * Status :=
  match apply_all new_turn_tree ordered with
  | Err status => (tree, status)
  | Ok candidate => (preserve_reservations tree candidate, OK)
  end.

Definition address_le (a b : Turn) : Prop :=
  match turn_address a, turn_address b with
  | Some x, Some y => address_compare x y <> Gt
  | _, _ => True
  end.

#[export] Instance address_le_dec a b : Decision (address_le a b).
Proof. unfold address_le. repeat case_match; apply _. Defined.

(** The stable result, one of those [std::sort] may give. They differ only in the
    order of turns with equal addresses; these are refused in any order, but the
    status may depend on which of them comes first. *)
Definition rebuild (tree : TurnTree) (turns : list Turn) : TurnTree * Status :=
  if forallb (fun turn => bool_decide (is_Some (turn_address turn))) turns
  then rebuild_sorted tree (merge_sort address_le turns)
  else (tree, INVALID_TURN).
End TurnTree.

Arguments Turn Rest : clear implicits.
Arguments TurnNode Rest : clear implicits.
Arguments TurnTree Rest : clear implicits.
