(* ===== verification/TurnTreeInvariant.v ===== *)
(** * The trie and the hashes of the tree of turns

    What storing a node value and inserting a leaf change, the rehashing of a
    path, and the invariant of the tree: every node but the root is a committed
    turn, hashes are those of the contents, allocators are past their children. *)
From S2P Require Import Prelude Bytes Text Trie TurnAddress Hash256 TurnTree.
From stdpp Require Import sorting.
From Stdlib Require Import Sorted.
Open Scope Z_scope.

(** ** Leaves of a trie *)

Section Leaf.
Context {V : Type} (d : V).
Abbreviation TrieOf := (list (TrieNode AddressComponent V)).
Implicit Types (t : TrieOf) (p q : TurnAddress).

Lemma find_node_bound t p i : trie_wf d t -> find_node d t p = Some i -> (i < length t)%nat.
Proof. intros Hw E. apply find_from_bound in E; [lia|done|apply (wf_root d t Hw)]. Qed.

Lemma insert_path t p i : find_node d t p = Some i -> fold_left (insert_step d) p (t, kRootNode) = (t, i).
Proof.
  unfold find_node. generalize kRootNode. induction p as [|k p IH]; intros j E; cbn in *; [by simplify_eq|].
  destruct (find_child d t j k) as [c|]; [|done]. by apply IH.
Qed.

Lemma insert_leaf t p i k v :
  find_node d t p = Some i -> find_child d t i k = None ->
  Trie.insert d t (p ++ [k]) v = (set_terminal d (add_child d t i k) (length t) true v, length t).
Proof.
  intros Hp Hk. unfold Trie.insert. rewrite fold_left_app, (insert_path _ _ _ Hp). cbn [fold_left insert_step].
  by rewrite Hk.
Qed.

Section NewLeaf.
Context (t : TrieOf) (p : TurnAddress) (i : nat) (k : AddressComponent) (v w : V).
Hypothesis Hw : trie_wf d t.
Hypothesis Hp : find_node d t p = Some i.
Hypothesis Hk : find_child d t i k = None.

Definition leafed : TrieOf := set_terminal d (add_child d t i k) (length t) true v.
Definition stored : TrieOf := set_terminal d leafed i (sequence_end (node d leafed i)) w.

Lemma new_leaf_bounds : (i < length t)%nat /\ length (add_child d t i k) = S (length t).
Proof. pose proof (find_node_bound _ _ _ Hw Hp). split; [done|]. by apply add_child_length. Qed.

Lemma leafed_wf : trie_wf d leafed /\ length leafed = S (length t).
Proof.
  destruct new_leaf_bounds as [Hi Hl]. split; [apply set_terminal_wf; [by apply add_child_wf|lia]|].
  unfold leafed. destruct (set_terminal_shape d (add_child d t i k) (length t) true v ltac:(lia)) as [-> _]. done.
Qed.

Lemma stored_wf : trie_wf d stored /\ length stored = S (length t).
Proof.
  destruct leafed_wf as [Hwl Hl], new_leaf_bounds as [Hi _]. split; [apply set_terminal_wf; [done|lia]|].
  unfold stored. destruct (set_terminal_shape d leafed i (sequence_end (node d leafed i)) w ltac:(lia)) as [-> _]. done.
Qed.

(** The nodes after the insertion and the store into the parent. *)
Lemma node_stored j :
  node d stored j =
    if decide (j = i) then
      {| key := key (node d t i); children := children (node d (add_child d t i k) i);
         sequence_end := sequence_end (node d t i); value := w |}
    else if decide (j = length t) then {| key := k; children := []; sequence_end := true; value := v |}
    else node d t j.
Proof.
  destruct leafed_wf as [Hwl Hl], new_leaf_bounds as [Hi Hla]. unfold stored. rewrite node_set_terminal by lia.
  unfold leafed. rewrite !node_set_terminal by lia. pose proof (node_add_child d t i k Hw Hi) as Hn.
  destruct (decide (j = i)) as [->|Hne].
  - rewrite decide_False by lia. by rewrite !(Hn i), !decide_True.
  - destruct (decide (j = length t)) as [->|Hl']; rewrite Hn; rewrite decide_False by done; [by rewrite decide_True|by rewrite decide_False].
Qed.

Lemma children_stored c :
  c ∈ children (node d (add_child d t i k) i) <-> c ∈ children (node d t i) \/ c = length t.
Proof.
  destruct new_leaf_bounds as [Hi _]. rewrite (elem_of_add_child d t i k Hw Hi i c). naive_solver.
Qed.

(** Every path leads where it did, and the new one to the new node. *)
Lemma find_node_add q :
  find_node d (add_child d t i k) q = if decide (q = p ++ [k]) then Some (length t) else find_node d t q.
Proof.
  destruct new_leaf_bounds as [Hi _].
  assert (Hnone : forall r, find_node d t ((p ++ [k]) ++ r) = None).
  { intros r. unfold find_node in *. rewrite find_from_app, find_from_app, Hp. cbn. by rewrite Hk. }
  induction q as [|k' q IH] using rev_ind; [rewrite decide_False; [done|by destruct p]|].
  unfold find_node in *. rewrite find_from_app, IH. destruct (decide (q = p ++ [k])) as [->|Hq].
  - rewrite decide_False by (intros E; apply (f_equal length) in E; rewrite !length_app in E; cbn in E; lia).
    rewrite Hnone. cbn. rewrite (find_child_add d t i k Hw Hi Hk) by lia. rewrite decide_False by lia.
    destruct (find_child d t (length t) k') as [c|] eqn:E; [|done]. apply find_child_some in E as (? & _); [lia|done].
  - rewrite find_from_app. destruct (find_from d t kRootNode q) as [j|] eqn:Ej.
    + assert (j < length t)%nat by (by eapply find_node_bound). cbn. rewrite (find_child_add d t i k Hw Hi Hk) by lia.
      destruct (decide (j = i /\ k' = k)) as [[-> ->]|Hne].
      * assert (q = p) as -> by (by eapply (find_node_inj d t)). by rewrite decide_True.
      * rewrite decide_False; [done|]. intros [-> ->]%app_inj_tail. apply Hne. split; congruence.
    + rewrite decide_False; [done|]. intros [-> _]%app_inj_tail. congruence.
Qed.

Lemma find_node_stored q :
  find_node d stored q = if decide (q = p ++ [k]) then Some (length t) else find_node d t q.
Proof.
  destruct leafed_wf as [Hwl Hl], new_leaf_bounds as [Hi Hla]. rewrite <- find_node_add. unfold find_node.
  transitivity (find_from d leafed kRootNode q); [apply find_from_set_terminal; [done|lia]|].
  apply find_from_set_terminal; [by apply add_child_wf|lia].
Qed.
End NewLeaf.
End Leaf.

(** ** The invariant of the tree of turns

    Every node but the root is a committed turn at its own address, every hash
    is that of the current contents, every allocator is past its children. *)

Section Tree.
Context {Rest : Type} (no_rest : Rest).
Context (serialize : Turn Rest -> option bytes) (mbedtls_sha256 : bytes -> option bytes).

Local Abbreviation E := (empty_turn_node no_rest).
Local Abbreviation hash := (hash_node no_rest serialize mbedtls_sha256).
Local Abbreviation rehashed := (rehash no_rest serialize mbedtls_sha256).
Implicit Types (t : list (TrieNode AddressComponent (TurnNode Rest))) (hs : list Hash256) (p q : TurnAddress).

(** ** Hashes *)

(** A node hash depends on the turn, the keys of the children and their hashes. *)
Lemma hash_ext t t' hs hs' j :
  sequence_end (node E t' j) = sequence_end (node E t j) ->
  turn_ (value (node E t' j)) = turn_ (value (node E t j)) ->
  children (node E t' j) = children (node E t j) ->
  (forall c, c ∈ children (node E t j) -> key (node E t' c) = key (node E t c) /\ hs' !! c = hs !! c) ->
  hash t' hs' j = hash t hs j.
Proof.
  intros He Ht Hc Hk. unfold hash_node, encoded_node. rewrite He, Ht, Hc.
  assert (flat_map (child_bytes no_rest t' hs') (children (node E t j)) =
    flat_map (child_bytes no_rest t hs) (children (node E t j))) as ->; [|done].
  clear He Ht Hc. induction (children (node E t j)) as [|c l IH]; [done|]. cbn [flat_map]. rewrite IH by (intros; apply Hk; by right).
  f_equal. unfold child_bytes. by destruct (Hk c ltac:(by left)) as [-> ->].
Qed.

Lemma rehash_cons t i path hs :
  rehashed t (i :: path) hs = <[i := hash t (rehashed t path hs) i]> (rehashed t path hs).
Proof. unfold rehash. change (i :: path) with ([i] ++ path). by rewrite reverse_app, fold_left_app. Qed.

Lemma rehash_length t path hs : length (rehashed t path hs) = length hs.
Proof. induction path as [|i path IH]; [done|]. by rewrite rehash_cons, length_insert. Qed.

Lemma rehash_outside t path hs j : j ∉ path -> rehashed t path hs !! j = hs !! j.
Proof.
  induction path as [|i path IH]; [done|]. intros [Hne Hj]%not_elem_of_cons.
  rewrite rehash_cons, list_lookup_insert_ne by done. by apply IH.
Qed.

(** Rehashing a descending path from its end makes its hashes consistent. *)
Lemma rehash_consistent t path hs :
  trie_wf E t -> StronglySorted lt path -> (forall j, j ∈ path -> (j < length hs)%nat) ->
  forall j, j ∈ path -> rehashed t path hs !! j = Some (hash t (rehashed t path hs) j).
Proof.
  intros Hw Hs Hb. induction Hs as [|i path Hs IH Hi]; [by intros j ?%elem_of_nil|]. intros j Hj.
  assert (Hle : (i <= j)%nat).
  { apply elem_of_cons in Hj as [->|Hj]; [done|]. rewrite List.Forall_forall in Hi.
    apply Nat.lt_le_incl, Hi. by apply list_elem_of_In. }
  assert (Hsame : hash t (rehashed t (i :: path) hs) j = hash t (rehashed t path hs) j).
  { apply hash_ext; [done..|]. intros c Hc. split; [done|]. rewrite rehash_cons. apply list_lookup_insert_ne.
    destruct (decide (j < length t)%nat) as [Hl|Hl].
    - pose proof (wf_forward E t Hw j _ c (lookup_node E t j Hl) Hc). lia.
    - unfold node in Hc. rewrite lookup_ge_None_2 in Hc by lia. by apply elem_of_nil in Hc. }
  rewrite Hsame. apply elem_of_cons in Hj as [->|Hj].
  - rewrite rehash_cons. apply list_lookup_insert_eq. rewrite rehash_length. apply Hb. by left.
  - destruct (decide (j = i)) as [->|Hne].
    + rewrite rehash_cons. apply list_lookup_insert_eq. rewrite rehash_length. apply Hb. by left.
    + rewrite rehash_cons, list_lookup_insert_ne by done. apply IH; [|done]. intros k Hk. apply Hb. by right.
Qed.

(** ** Paths *)

Lemma path_from_below t i q j c :
  trie_wf E t -> (i < length t)%nat -> find_from E t i q = Some j -> c ∈ path_from no_rest t i q -> (i < c < length t)%nat.
Proof.
  intros Hw. revert i. induction q as [|k q IH]; intros i Hi; cbn; [by intros _ ?%elem_of_nil|].
  destruct (find_child E t i k) as [d|] eqn:Ed; [|done]. apply find_child_bound in Ed; [|done].
  intros Hf [->|Hc]%elem_of_cons; [done|]. apply (IH d) in Hc; [lia|lia|done].
Qed.

Lemma path_from_sorted t i q j :
  trie_wf E t -> (i < length t)%nat -> find_from E t i q = Some j -> StronglySorted lt (i :: path_from no_rest t i q).
Proof.
  intros Hw. revert i. induction q as [|k q IH]; intros i Hi Hf; [by repeat constructor|].
  constructor; [|apply List.Forall_forall; intros c Hc%list_elem_of_In;
    destruct (path_from_below t i (k :: q) j c Hw Hi Hf Hc); lia].
  cbn in *. destruct (find_child E t i k) as [d|] eqn:Ed; [|done]. apply find_child_bound in Ed; [|done].
  apply IH; [lia|done].
Qed.

(** A node of the path hangs below a node of the path; the target is on it. *)
Lemma path_from_linked t i q j :
  trie_wf E t -> find_from E t i q = Some j ->
  j ∈ i :: path_from no_rest t i q /\
  forall c, c ∈ path_from no_rest t i q -> exists b, b ∈ i :: path_from no_rest t i q /\ c ∈ children (node E t b).
Proof.
  intros Hw. revert i. induction q as [|k q IH]; intros i Hf; cbn in *.
  { simplify_eq. split; [by left|]. by intros c ?%elem_of_nil. }
  destruct (find_child E t i k) as [d|] eqn:Ed; [|done]. apply find_child_some in Ed as (_ & Hd & _); [|done].
  destruct (IH d Hf) as [Hj Hl]. split; [by right|].
  intros c [->|Hc]%elem_of_cons; [by exists i; split; [left|]|].
  destruct (Hl c Hc) as (b & Hb & Hcb). exists b. split; [by right|done].
Qed.

(** ** The invariant *)

(** An allocator is past an ordinal: exhausted or above it. *)
Definition passed (next ordinal : Z) : Prop := next = 0 \/ ordinal < next.

Record tree_ok (tree : TurnTree Rest) : Prop := {
  ok_wf : trie_wf E (trie_ tree);
  ok_root : sequence_end (node E (trie_ tree) kRootNode) = false;
  ok_terminal : forall i, (0 < i < length (trie_ tree))%nat -> sequence_end (node E (trie_ tree) i) = true;
  ok_reached : forall i, (i < length (trie_ tree))%nat -> exists q, find_node E (trie_ tree) q = Some i;
  ok_hash_length : length (hashes_ tree) = length (trie_ tree);
  ok_empty : length (trie_ tree) = 1%nat -> hashes_ tree = [zero_hash];
  ok_hashes : (1 < length (trie_ tree))%nat -> forall i, (i < length (trie_ tree))%nat ->
    hashes_ tree !! i = Some (hash (trie_ tree) (hashes_ tree) i);
  ok_root_hash : root_hash_ tree = default zero_hash (hashes_ tree !! kRootNode);
  ok_address : forall q i, find_node E (trie_ tree) q = Some i -> (0 < i)%nat ->
    turn_address (turn_ (value (node E (trie_ tree) i))) = Some q;
  ok_ordinal : forall i, (0 < i < length (trie_ tree))%nat -> ordinal (key (node E (trie_ tree) i)) <= uint32_max;
  ok_passed : forall i c, c ∈ children (node E (trie_ tree) i) ->
    passed (allocator (value (node E (trie_ tree) i)) (kind (key (node E (trie_ tree) c))))
      (ordinal (key (node E (trie_ tree) c)));
  ok_range : forall i k, 0 <= allocator (value (node E (trie_ tree) i)) k <= uint32_max;
}.

Lemma new_turn_tree_ok : tree_ok (new_turn_tree no_rest).
Proof.
  split; cbn [trie_ hashes_ root_hash_ new_turn_tree]; try done; try (cbn; lia).
  - apply new_trie_wf.
  - cbn. intros i Hi. exists []. cbn. f_equal. unfold kRootNode. lia.
  - cbn. intros [|k q] i; [intros [= <-]; unfold kRootNode; lia|]. done.
  - intros [|[|i]] c; cbn; by intros ?%elem_of_nil.
  - intros [|[|i]] []; cbn; unfold uint32_max; lia.
Qed.

(** ** Storing allocators *)

Lemma node_with_value t i v j :
  (i < length t)%nat ->
  node E (with_value no_rest t i v) j =
    if decide (j = i) then
      {| key := key (node E t i); children := children (node E t i); sequence_end := sequence_end (node E t i); value := v |}
    else node E t j.
Proof. apply (node_set_terminal E t i (sequence_end (node E t i)) v). Qed.

Lemma with_value_shape t i v :
  (i < length t)%nat -> trie_wf E t ->
  length (with_value no_rest t i v) = length t /\ trie_wf E (with_value no_rest t i v) /\
  (forall q, find_node E (with_value no_rest t i v) q = find_node E t q) /\
  (forall j, key (node E (with_value no_rest t i v) j) = key (node E t j) /\
     children (node E (with_value no_rest t i v) j) = children (node E t j) /\
     sequence_end (node E (with_value no_rest t i v) j) = sequence_end (node E t j)).
Proof.
  intros Hi Hw. change (with_value no_rest t i v) with (set_terminal E t i (sequence_end (node E t i)) v).
  destruct (set_terminal_shape E t i (sequence_end (node E t i)) v Hi) as [Hl Hs]. split_and!; [done| | |].
  - by apply set_terminal_wf.
  - intros q. by apply find_from_set_terminal.
  - intros j. destruct (Hs j) as [-> ->]. split_and!; [done..|]. rewrite node_set_terminal by done. by case_decide as Hd; [rewrite Hd|].
Qed.

(** Storing a node with the same turn and allocators still past the children
    keeps the invariant. *)
Lemma with_value_ok tree i v :
  tree_ok tree -> (i < length (trie_ tree))%nat -> turn_ v = turn_ (value (node E (trie_ tree) i)) ->
  (forall k, 0 <= allocator v k <= uint32_max) ->
  (forall c, c ∈ children (node E (trie_ tree) i) ->
     passed (allocator v (kind (key (node E (trie_ tree) c)))) (ordinal (key (node E (trie_ tree) c)))) ->
  tree_ok (with_trie tree (with_value no_rest (trie_ tree) i v)).
Proof.
  intros Ht Hi Hv Hr Hp. set (t := trie_ tree) in *.
  destruct (with_value_shape t i v Hi (ok_wf _ Ht)) as (Hl & Hw & Hf & Hs).
  assert (Hturn : forall j, turn_ (value (node E (with_value no_rest t i v) j)) = turn_ (value (node E t j))).
  { intros j. rewrite node_with_value by done. by case_decide as Hd; [rewrite Hd|]. }
  assert (Hh : forall j, hash (with_value no_rest t i v) (hashes_ tree) j = hash t (hashes_ tree) j).
  { intros j. destruct (Hs j) as (? & ? & ?). apply hash_ext; [done..|]. intros c _. by destruct (Hs c). }
  split; cbn [trie_ hashes_ root_hash_ with_trie]; fold t; rewrite ?Hl.
  - done.
  - destruct (Hs kRootNode) as (_ & _ & ->). apply (ok_root _ Ht).
  - intros j Hj. destruct (Hs j) as (_ & _ & ->). by apply (ok_terminal _ Ht).
  - intros j Hj. destruct (ok_reached _ Ht j Hj) as [q Hq]. exists q. by rewrite Hf.
  - apply (ok_hash_length _ Ht).
  - apply (ok_empty _ Ht).
  - intros Hn j Hj. rewrite Hh. by apply (ok_hashes _ Ht).
  - apply (ok_root_hash _ Ht).
  - intros q j. rewrite Hf, Hturn. apply (ok_address _ Ht).
  - intros j. destruct (Hs j) as (-> & _). apply (ok_ordinal _ Ht).
  - intros j c. destruct (Hs j) as (_ & -> & _), (Hs c) as (-> & _). intros Hc. rewrite node_with_value by done.
    case_decide as Hd; [subst j; by apply Hp|]. by apply (ok_passed _ Ht).
  - intros j k. rewrite node_with_value by done. case_decide; [apply Hr|apply (ok_range _ Ht)].
Qed.
End Tree.
