(* ===== verification/TurnTreeRuns.v ===== *)
(** * Commits keep the invariant

    What [apply] stores and rehashes, and the lookups of the tree afterwards. *)
From stdpp Require Import sorting.
From S2P Require Import Prelude Bytes Text Trie TurnAddress Hash256 TurnTree TurnTreeInvariant.
From Stdlib Require Import Sorted.
Open Scope Z_scope.

Section Tree.
Context {Rest : Type} (no_rest : Rest).
Context (serialize : Turn Rest -> option bytes) (mbedtls_sha256 : bytes -> option bytes).

Local Abbreviation E := (empty_turn_node no_rest).
Local Abbreviation hash := (hash_node no_rest serialize mbedtls_sha256).
Local Abbreviation rehashed := (rehash no_rest serialize mbedtls_sha256).
Local Abbreviation tree_ok := (tree_ok no_rest serialize mbedtls_sha256).
Implicit Types (t : list (TrieNode AddressComponent (TurnNode Rest))) (hs : list Hash256) (p q : TurnAddress).

Lemma last_snoc p k : last (p ++ [k]) = Some k.
Proof. by rewrite last_app. Qed.

Lemma advance_past_range next o : 0 <= next <= uint32_max -> 1 <= o <= uint32_max -> 0 <= advance_past next o <= uint32_max.
Proof.
  unfold advance_past, successor. intros Hn Ho. destruct (Z.eqb_spec o uint32_max); repeat guard_goal; lia.
Qed.

(** The advanced allocator is past the new child and everything it was past. *)
Lemma advance_past_passed next o :
  0 <= next -> 1 <= o <= uint32_max -> passed (advance_past next o) o /\ forall x, passed next x -> passed (advance_past next o) x.
Proof.
  unfold advance_past, successor, passed. intros Hn Ho. destruct (Z.eqb_spec o uint32_max) as [->|Hne].
  - rewrite orb_true_l, andb_true_r. destruct (Z.eqb_spec next 0); cbn; (split; [by left|]); [done|]. by left.
  - rewrite (proj2 (Z.eqb_neq (o + 1) 0)) by lia. cbn.
    destruct (Z.eqb_spec next 0), (Z.ltb_spec next (o + 1)); cbn; (split; [lia|intros x [?|?]; lia]).
Qed.

Lemma find_node_root_inv t q : trie_wf E t -> find_node E t q = Some kRootNode -> q = [].
Proof. intros Hw Hq. by apply (find_node_inj E t q [] kRootNode Hw Hq). Qed.

Section Commit.
Context (tree : TurnTree Rest) (turn : Turn Rest) (p : TurnAddress) (i : nat) (k : AddressComponent).
Hypothesis Hok : tree_ok tree.
Hypothesis Hp : find_node E (trie_ tree) p = Some i.
Hypothesis Hfree : find_node E (trie_ tree) (p ++ [k]) = None.
Hypothesis Haddress : turn_address turn = Some (p ++ [k]).
Hypothesis Hk : 1 <= ordinal k <= uint32_max.

Local Abbreviation t := (trie_ tree).

(** The node of the parent with its allocator advanced. *)
Definition parent_node : TurnNode Rest :=
  let n := value (node E t i) in
  with_allocator n (kind k) (advance_past (allocator n (kind k)) (ordinal k)).

Definition new_trie_of : list (TrieNode AddressComponent (TurnNode Rest)) :=
  stored E t i k (new_turn_node turn) parent_node.

Definition committed : TurnTree Rest := commit_turn no_rest serialize mbedtls_sha256 tree turn (p ++ [k]) i.

Definition new_path : list nat := kRootNode :: path_from no_rest new_trie_of kRootNode (p ++ [k]).

Lemma free_child : find_child E t i k = None.
Proof.
  revert Hfree. unfold find_node in *. rewrite find_from_app, Hp. cbn. by destruct (find_child E t i k).
Qed.

Lemma commit_bounds : (i < length t)%nat /\ trie_wf E new_trie_of /\ length new_trie_of = S (length t).
Proof.
  split; [by apply (find_node_bound E t p i (ok_wf _ _ _ _ Hok))|].
  apply (stored_wf E t p); [apply (ok_wf _ _ _ _ Hok)|done|apply free_child].
Qed.

Lemma committed_trie : trie_ committed = new_trie_of.
Proof.
  destruct commit_bounds as (Hi & _). pose proof (ok_wf _ _ _ _ Hok) as Hw.
  destruct (new_leaf_bounds E t p i k Hw Hp) as [_ Hl].
  assert (Hv : value (node E (leafed E t i k (new_turn_node turn)) i) = value (node E t i)).
  { unfold leafed. rewrite node_set_terminal by lia. rewrite decide_False by lia.
    rewrite (node_add_child E t i k Hw Hi). by rewrite decide_True. }
  unfold committed, commit_turn. cbn [trie_]. rewrite (insert_leaf E t p i k _ Hp free_child). cbn [fst].
  fold (leafed E t i k (new_turn_node turn)). rewrite last_snoc, Hv. reflexivity.
Qed.

Lemma committed_hashes :
  hashes_ committed = rehashed new_trie_of new_path (resize (hashes_ tree) (length new_trie_of)).
Proof.
  rewrite <- committed_trie. unfold committed, commit_turn, new_path. cbn [trie_ hashes_].
  rewrite <- committed_trie. unfold committed, commit_turn. cbn [trie_ hashes_]. f_equal. f_equal.
  symmetry. unfold with_value. apply length_insert.
Qed.

Lemma node_committed j :
  node E new_trie_of j =
    if decide (j = i) then
      {| key := key (node E t i); children := children (node E (add_child E t i k) i);
         sequence_end := sequence_end (node E t i); value := parent_node |}
    else if decide (j = length t) then
      {| key := k; children := []; sequence_end := true; value := new_turn_node turn |}
    else node E t j.
Proof. apply (node_stored E t p); [apply (ok_wf _ _ _ _ Hok)|done|apply free_child]. Qed.

Lemma find_node_committed q :
  find_node E new_trie_of q = if decide (q = p ++ [k]) then Some (length t) else find_node E t q.
Proof. apply (find_node_stored E t p); [apply (ok_wf _ _ _ _ Hok)|done|apply free_child]. Qed.

Lemma resized j :
  (j < length t)%nat -> resize (hashes_ tree) (length new_trie_of) !! j = hashes_ tree !! j /\
  length (resize (hashes_ tree) (length new_trie_of)) = S (length t).
Proof.
  intros Hj. destruct commit_bounds as (_ & _ & ->). pose proof (ok_hash_length _ _ _ _ Hok) as Hl.
  unfold resize. rewrite take_ge by lia. rewrite lookup_app_l by lia.
  split; [done|]. rewrite length_app, length_replicate. lia.
Qed.

Lemma new_path_facts :
  StronglySorted lt new_path /\ (length t) ∈ new_path /\ kRootNode ∈ new_path /\
  (forall c, c ∈ new_path -> (c < S (length t))%nat) /\
  forall b c, c ∈ new_path -> (b < S (length t))%nat -> c ∈ children (node E new_trie_of b) -> b ∈ new_path.
Proof.
  destruct commit_bounds as (Hi & Hw & Hl).
  assert (Hf : find_from E new_trie_of kRootNode (p ++ [k]) = Some (length t)).
  { pose proof (find_node_committed (p ++ [k])) as H. by rewrite decide_True in H. }
  pose proof (wf_root E _ Hw) as H0. destruct (path_from_linked no_rest _ _ _ _ Hw Hf) as [Hj Hlink]. unfold new_path.
  split_and!; [by apply (path_from_sorted no_rest _ _ _ _ Hw H0 Hf)|done|by left| |].
  - intros c [->|Hc]%elem_of_cons; [unfold kRootNode; lia|].
    destruct (path_from_below no_rest _ _ _ _ c Hw H0 Hf Hc). lia.
  - intros b c Hc Hb Hbc. rewrite <- Hl in Hb. pose proof (wf_forward E _ Hw b _ c (lookup_node E _ b Hb) Hbc) as Hlt.
    apply elem_of_cons in Hc as [->|Hc]; [unfold kRootNode in Hlt; lia|].
    destruct (Hlink c Hc) as (b' & Hb' & Hc').
    assert (Hb2 : (b' < length new_trie_of)%nat).
    { apply elem_of_cons in Hb' as [->|Hb']; [done|]. by destruct (path_from_below no_rest _ _ _ _ b' Hw H0 Hf Hb'). }
    by rewrite (wf_parent E _ Hw b b' _ _ c (lookup_node E _ b Hb) (lookup_node E _ b' Hb2) Hbc Hc').
Qed.

Lemma resized_length : length (resize (hashes_ tree) (length new_trie_of)) = S (length t).
Proof. destruct commit_bounds as (Hi & _). by apply (resized i). Qed.

(** Nodes off the path keep their children, their keys and their hashes. *)
Lemma committed_hash_outside j :
  (j < S (length t))%nat -> j ∉ new_path -> hash new_trie_of (hashes_ committed) j = hash t (hashes_ tree) j.
Proof.
  intros Hj Hn. destruct commit_bounds as (Hi & Hw & Hl), new_path_facts as (_ & Hleaf & Hroot & Hb & Hup).
  assert (Hji : j <> i).
  { intros ->. apply Hn, (Hup i (length t) Hleaf Hj). rewrite node_committed, decide_True by done. cbn [children].
    apply (children_stored E t p); [apply (ok_wf _ _ _ _ Hok)|done|by right]. }
  assert (Hjl : j <> length t) by (by intros ->).
  assert (Hnode : node E new_trie_of j = node E t j) by (by rewrite node_committed, !decide_False).
  assert (Hjt : (j < length t)%nat) by lia.
  apply hash_ext; rewrite ?Hnode; try done. intros c Hc.
  pose proof (wf_forward E t (ok_wf _ _ _ _ Hok) j _ c (lookup_node E t j Hjt) Hc) as Hcb. split.
  - rewrite node_committed. case_decide as Hd; [by rewrite Hd|]. rewrite decide_False; [done|lia].
  - rewrite committed_hashes, rehash_outside; [apply resized; lia|].
    intros Hcp. apply Hn. apply (Hup j c Hcp); [lia|]. by rewrite Hnode.
Qed.

Lemma parent_node_facts :
  (forall x, 0 <= allocator parent_node x <= uint32_max) /\
  passed (allocator parent_node (kind k)) (ordinal k) /\
  (forall x o, passed (allocator (value (node E t i)) x) o -> passed (allocator parent_node x) o) /\
  turn_ parent_node = turn_ (value (node E t i)).
Proof.
  pose proof (fun x => ok_range _ _ _ _ Hok i x) as Hr.
  destruct (advance_past_passed (allocator (value (node E t i)) (kind k)) (ordinal k)) as [Hnew Hold]; [by apply Hr|done|].
  pose proof (advance_past_range _ _ (Hr (kind k)) Hk) as Hrange.
  assert (Hsame : forall x, allocator parent_node x =
    if decide (x = kind k) then advance_past (allocator (value (node E t i)) (kind k)) (ordinal k)
    else allocator (value (node E t i)) x).
  { intros x. unfold parent_node. by destruct x, (kind k). }
  split_and!.
  - intros x. rewrite Hsame. case_decide; [done|apply Hr].
  - rewrite Hsame. by rewrite decide_True.
  - intros x o Hx. rewrite Hsame. case_decide; [subst; by apply Hold|done].
  - unfold parent_node. by destruct (kind k).
Qed.

Lemma commit_passed j c :
  c ∈ children (node E new_trie_of j) ->
  passed (allocator (value (node E new_trie_of j)) (kind (key (node E new_trie_of c)))) (ordinal (key (node E new_trie_of c))).
Proof.
  destruct commit_bounds as (Hi & Hw & Hl), parent_node_facts as (Hr & Hnew & Hold & Hturn). intros Hc.
  assert (Hkey : key (node E new_trie_of c) = if decide (c = length t) then k else key (node E t c)).
  { rewrite node_committed. case_decide as Hd; [subst c; rewrite decide_False; [done|lia]|]. by case_decide. }
  rewrite Hkey. clear Hkey. rewrite node_committed in Hc |- *. case_decide as Hd.
  - subst j. cbn [children value] in *.
    apply (children_stored E t p i k (ok_wf _ _ _ _ Hok) Hp) in Hc as [Hc| ->]; [|by rewrite decide_True].
    pose proof (wf_forward E t (ok_wf _ _ _ _ Hok) i _ c (lookup_node E t i Hi) Hc).
    rewrite decide_False by lia. by apply Hold, (ok_passed _ _ _ _ Hok).
  - case_decide as Hd'; [by apply elem_of_nil in Hc|].
    assert (Hjt : (j < length t)%nat).
    { destruct (decide (j < length t)%nat); [done|]. unfold node in Hc. rewrite lookup_ge_None_2 in Hc by lia.
      by apply elem_of_nil in Hc. }
    pose proof (wf_forward E t (ok_wf _ _ _ _ Hok) j _ c (lookup_node E t j Hjt) Hc).
    rewrite decide_False by lia. by apply (ok_passed _ _ _ _ Hok).
Qed.

Lemma commit_ok : tree_ok committed.
Proof.
  destruct commit_bounds as (Hi & Hw & Hl), new_path_facts as (Hs & Hleaf & Hroot & Hb & Hup).
  destruct parent_node_facts as (Hr & Hnew & Hold & Hturn).
  pose proof committed_trie as Et. pose proof committed_hashes as Eh.
  split; rewrite ?Et, ?Hl.
  - done.
  - rewrite node_committed. case_decide as Hd; [rewrite <- Hd; apply (ok_root _ _ _ _ Hok)|].
    rewrite decide_False by (unfold kRootNode; lia). apply (ok_root _ _ _ _ Hok).
  - intros j Hj. rewrite node_committed. case_decide as Hd; [subst j; apply (ok_terminal _ _ _ _ Hok); lia|].
    case_decide; [done|]. apply (ok_terminal _ _ _ _ Hok). lia.
  - intros j Hj. destruct (decide (j = length t)) as [->|Hne]; [exists (p ++ [k]); by rewrite find_node_committed, decide_True|].
    destruct (ok_reached _ _ _ _ Hok j ltac:(lia)) as [q Hq]. exists q. rewrite find_node_committed. by rewrite decide_False by congruence.
  - by rewrite Eh, rehash_length, resized_length.
  - lia.
  - intros _ j Hj. destruct (decide (j ∈ new_path)) as [Hin|Hout].
    + rewrite Eh. apply rehash_consistent; [done|done| |done]. intros c Hc. rewrite resized_length. by apply Hb.
    + rewrite committed_hash_outside by done. rewrite Eh, rehash_outside by done.
      assert (Hjl : j <> length t) by (by intros ->). assert (Hjt : (j < length t)%nat) by lia.
      destruct (resized j Hjt) as [-> _]. apply (ok_hashes _ _ _ _ Hok); [|done].
      destruct (decide (length t = 1%nat)); [|lia]. exfalso. apply Hout. by replace j with kRootNode by (unfold kRootNode; lia).
  - done.
  - intros q j. rewrite find_node_committed, node_committed. case_decide as Hq.
    + intros [= <-] _. rewrite decide_False by lia. rewrite decide_True by done. by subst q.
    + intros Hf Hj. pose proof (find_node_bound E t q j (ok_wf _ _ _ _ Hok) Hf).
      case_decide as Hd; [subst j; cbn [value]; rewrite Hturn|rewrite decide_False by lia]; by apply (ok_address _ _ _ _ Hok).
  - intros j Hj. rewrite node_committed. case_decide as Hd; [subst j; apply (ok_ordinal _ _ _ _ Hok); lia|].
    case_decide; [cbn; lia|]. apply (ok_ordinal _ _ _ _ Hok). lia.
  - apply commit_passed.
  - intros j x. rewrite node_committed. case_decide; [apply Hr|].
    case_decide; [destruct x; cbn; unfold uint32_max; lia|apply (ok_range _ _ _ _ Hok)].
Qed.
End Commit.
End Tree.

(** ** Histories of the tree of turns

    Allocations, commits and rebuilds keep the invariant; what each changes. *)

Section Tree.
Context {Rest : Type} (no_rest : Rest).
Context (serialize : Turn Rest -> option bytes) (mbedtls_sha256 : bytes -> option bytes).

Local Abbreviation E := (empty_turn_node no_rest).
Local Abbreviation tree_ok := (tree_ok no_rest serialize mbedtls_sha256).
Local Abbreviation apply := (TurnTree.apply no_rest serialize mbedtls_sha256).
Local Abbreviation find_turn := (find_turn no_rest).
Implicit Types (tree : TurnTree Rest) (turn : Turn Rest) (p q : TurnAddress).

(** ** Nodes and turns *)

Lemma find_node_pos tree q i : tree_ok tree -> find_node E (trie_ tree) q = Some i -> (q = [] /\ i = kRootNode) \/ (q <> [] /\ (0 < i < length (trie_ tree))%nat).
Proof.
  intros Hok Hq. pose proof (find_node_bound E _ _ _ (ok_wf _ _ _ _ Hok) Hq).
  destruct (decide (i = kRootNode)) as [->|Hne].
  - left. split; [|done]. by apply (find_node_root_inv no_rest _ _ (ok_wf _ _ _ _ Hok)).
  - right. split; [|unfold kRootNode in *; lia]. intros ->. cbn in Hq. congruence.
Qed.

(** The committed turns are those of the nodes below the root. *)
Lemma find_turn_node tree q :
  tree_ok tree ->
  find_turn tree q =
    match find_node E (trie_ tree) q with
    | Some (S i) => Some (turn_ (value (node E (trie_ tree) (S i))))
    | _ => None
    end.
Proof.
  intros Hok. unfold TurnTree.find_turn, Trie.find. destruct (find_node E (trie_ tree) q) as [i|] eqn:Eq; [|done].
  destruct (find_node_pos _ _ _ Hok Eq) as [[-> ->]|[_ Hi]].
  - by rewrite (ok_root _ _ _ _ Hok).
  - rewrite (ok_terminal _ _ _ _ Hok) by done. by destruct i as [|i]; [lia|].
Qed.

Lemma find_turn_is_Some tree q :
  tree_ok tree -> is_Some (find_turn tree q) <-> q <> [] /\ is_Some (find_node E (trie_ tree) q).
Proof.
  intros Hok. rewrite find_turn_node by done. destruct (find_node E (trie_ tree) q) as [i|] eqn:Eq.
  - destruct (find_node_pos _ _ _ Hok Eq) as [[-> ->]|[Hq Hi]].
    + split; [by intros [? ?]|]. by intros [? _].
    + destruct i as [|i]; [lia|]. split; by eauto.
  - split; [by intros [? ?]|]. by intros [_ [? ?]].
Qed.

Lemma find_turn_address tree q turn : tree_ok tree -> find_turn tree q = Some turn -> turn_address turn = Some q.
Proof.
  intros Hok. rewrite find_turn_node by done. destruct (find_node E (trie_ tree) q) as [[|i]|] eqn:Eq; [done| |done].
  intros [= <-]. apply (ok_address _ _ _ _ Hok); [done|lia].
Qed.

(** The parent of a committed turn is committed. *)
Lemma find_turn_parent tree p k : tree_ok tree -> p <> [] -> is_Some (find_turn tree (p ++ [k])) -> is_Some (find_turn tree p).
Proof.
  intros Hok Hp. rewrite !find_turn_is_Some by done. intros [_ Hq]. split; [done|].
  unfold find_node in *. rewrite find_from_app in Hq. destruct (find_from E (trie_ tree) kRootNode p); [done|].
  by destruct Hq.
Qed.

Lemma turn_address_valid turn p : turn_address turn = Some p -> valid_address p.
Proof. intros (turn_id & _ & Hp)%bind_Some. by apply address_round_trip in Hp as [? _]. Qed.

(** ** Commits *)

Lemma direct_child_snoc p q : direct_child p q = true -> exists k, q = p ++ [k].
Proof.
  unfold direct_child. guard_goal; [done|]. destruct (last q) as [k|]; [|done].
  intros Hd%bool_decide_eq_true. exists k. rewrite <- Hd. by destruct k as [[] o].
Qed.

Lemma check_turn_spec tree turn q i :
  tree_ok tree -> check_turn no_rest tree turn = Ok (q, i) ->
  turn_address turn = Some q /\
  exists p k, q = p ++ [k] /\ find_node E (trie_ tree) p = Some i /\ 1 <= ordinal k <= uint32_max.
Proof.
  intros Hok. unfold check_turn, turn_address. destruct (id turn) as [turn_id|]; [|done].
  guard_goal; [done|]. destruct (parse (human_address turn_id)) as [a|] eqn:Ea; [|done]. guard_goal; [done|].
  assert (Hv : valid_address a) by (by apply address_round_trip in Ea as [? _]).
  destruct (Z.ltb_spec uint32_max (ordinal (default {| kind := NUMERIC; ordinal := 0 |} (last a)))) as [|Hle]; [done|].
  assert (Hgoal : forall p k, a = p ++ [k] -> find_node E (trie_ tree) p = Some i -> q = a ->
    (Some turn_id ≫= fun turn_id => parse (human_address turn_id)) = Some q /\
    exists p k, q = p ++ [k] /\ find_node E (trie_ tree) p = Some i /\ 1 <= ordinal k <= uint32_max).
  { intros p k -> Hp ->. split; [done|]. exists p, k. split_and!; [done..| |].
    - destruct Hv as [_ Hv]. apply Forall_app in Hv as [_ Hv]. by apply Forall_cons in Hv as [[Hv _] _].
    - by rewrite last_snoc in Hle. }
  destruct (parent turn) as [parent_id|].
  - guard_goal; [done|]. destruct (parse (human_address parent_id)) as [pa|]; [|done].
    destruct (direct_child pa a) eqn:Ed; cbn [negb]; [|done]. apply direct_child_snoc in Ed as [k Ek].
    destruct (find_node E (trie_ tree) pa) as [j|] eqn:Ej; [|done]. guard_goal; [|done].
    intros [= <- <-]. by apply (Hgoal pa k).
  - guard_goal; [done|]. intros [= <- <-]. apply orb_false_iff in G1 as [Hl _].
    apply negb_false_iff, Nat.eqb_eq in Hl. destruct a as [|k [|]]; try (cbn in Hl; lia).
    by apply (Hgoal [] k).
Qed.

Lemma commit_find tree turn p k i :
  tree_ok tree -> find_node E (trie_ tree) p = Some i -> find_node E (trie_ tree) (p ++ [k]) = None ->
  turn_address turn = Some (p ++ [k]) -> 1 <= ordinal k <= uint32_max ->
  let tree' := commit_turn no_rest serialize mbedtls_sha256 tree turn (p ++ [k]) i in
  tree_ok tree' /\ length (trie_ tree') = S (length (trie_ tree)) /\
  (forall r, find_turn tree' r = if decide (r = p ++ [k]) then Some turn else find_turn tree r).
Proof.
  intros Hok Hp Hfree Ha Hk tree'. pose proof (ok_wf _ _ _ _ Hok) as Hw. pose proof (find_node_bound E _ _ _ Hw Hp) as Hi.
  assert (Hok' : tree_ok tree') by (by apply commit_ok).
  assert (Et : trie_ tree' = new_trie_of no_rest tree turn i k) by (by eapply committed_trie).
  destruct (commit_bounds no_rest serialize mbedtls_sha256 tree turn p i k Hok Hp Hfree) as (_ & _ & Hl).
  split_and!; [done|by rewrite Et|]. intros r. rewrite !find_turn_node by done. rewrite Et.
  rewrite (find_node_committed no_rest serialize mbedtls_sha256 tree turn p i k Hok Hp Hfree).
  case_decide as Hr.
  - destruct (length (trie_ tree)) as [|n] eqn:En; [lia|].
    rewrite (node_committed no_rest serialize mbedtls_sha256 tree turn p i k Hok Hp Hfree).
    rewrite decide_False by lia. by rewrite En, decide_True.
  - destruct (find_node E (trie_ tree) r) as [[|j]|] eqn:Ej; [done| |done].
    pose proof (find_node_bound E _ _ _ Hw Ej). rewrite (node_committed no_rest serialize mbedtls_sha256 tree turn p i k Hok Hp Hfree).
    case_decide as Hd; [|by rewrite decide_False by lia].
    destruct (parent_node_facts no_rest serialize mbedtls_sha256 tree i k Hok Hk) as (_ & _ & _ & Ht). cbn [value].
    by rewrite Ht, Hd.
Qed.

Lemma apply_ok tree turn :
  tree_ok tree ->
  let '(tree', status) := apply tree turn in
  match status with
  | OK => tree_ok tree' /\ exists q i, check_turn no_rest tree turn = Ok (q, i) /\ turn_address turn = Some q /\
      find_turn tree q = None /\ length (trie_ tree') = S (length (trie_ tree)) /\
      tree' = commit_turn no_rest serialize mbedtls_sha256 tree turn q i /\
      (forall r, find_turn tree' r = if decide (r = q) then Some turn else find_turn tree r)
  | ALREADY_EXISTS => tree' = tree /\ exists q i, check_turn no_rest tree turn = Ok (q, i) /\ is_Some (find_turn tree q)
  | status => tree' = tree /\ check_turn no_rest tree turn = Err status
  end.
Proof.
  intros Hok. unfold TurnTree.apply. destruct (check_turn no_rest tree turn) as [[q i]|status] eqn:Ec.
  - pose proof Ec as Ec'. apply check_turn_spec in Ec' as (Ha & p & k & -> & Hp & Hk); [|done].
    assert (Hne : p ++ [k] <> []) by (by destruct p).
    pose proof (find_turn_is_Some tree (p ++ [k]) Hok) as Hs.
    destruct (find_node E (trie_ tree) (p ++ [k])) as [j|] eqn:Ej.
    + destruct (find_node_pos _ _ _ Hok Ej) as [[? _]|[_ Hj]]; [done|]. rewrite (ok_terminal _ _ _ _ Hok) by done.
      split; [done|]. exists (p ++ [k]), i. split; [done|]. apply Hs. by eauto.
    + destruct (commit_find tree turn p k i Hok Hp Ej Ha Hk) as (Hok' & Hl & Hf). split; [done|].
      exists (p ++ [k]), i. split_and!; try done. destruct (find_turn tree (p ++ [k])) eqn:Et; [|done].
      exfalso. destruct (proj1 Hs ltac:(done)) as [_ [? ?]]. done.
  - assert (status <> OK /\ status <> ALREADY_EXISTS) as [? ?].
    { revert Ec. unfold check_turn. repeat case_match; by intros [= <-] || by intros [=]. }
    by destruct status.
Qed.

(** ** Reservations *)

(** The allocator of the node at [p] is past the ordinal of [k]. *)
Definition reserved tree p (k : AddressComponent) : Prop :=
  exists i, find_node E (trie_ tree) p = Some i /\ passed (allocator (value (node E (trie_ tree) i)) (kind k)) (ordinal k).

(** A committed child is reserved. *)
Lemma committed_reserved tree p k : tree_ok tree -> is_Some (find_turn tree (p ++ [k])) -> reserved tree p k.
Proof.
  intros Hok Hs. apply find_turn_is_Some in Hs as [_ [c Hc]]; [|done]. unfold find_node in Hc. rewrite find_from_app in Hc.
  destruct (find_from E (trie_ tree) kRootNode p) as [i|] eqn:Ei; [|done]. exists i. split; [done|]. cbn in Hc.
  destruct (find_child E (trie_ tree) i k) as [c'|] eqn:Ec; [|done].
  apply find_child_some in Ec as (_ & Hin & <-); [|apply (ok_wf _ _ _ _ Hok)]. by apply (ok_passed _ _ _ _ Hok).
Qed.

(** Storing a node in place keeps what other nodes and paths say. *)
Lemma reserved_with_value tree i v p k :
  tree_ok tree -> (i < length (trie_ tree))%nat ->
  (forall x o, passed (allocator (value (node E (trie_ tree) i)) x) o -> passed (allocator v x) o) ->
  reserved tree p k -> reserved (with_trie tree (with_value no_rest (trie_ tree) i v)) p k.
Proof.
  intros Hok Hi Hv (j & Hj & Hp). exists j. cbn [trie_ with_trie].
  destruct (with_value_shape no_rest (trie_ tree) i v Hi (ok_wf _ _ _ _ Hok)) as (_ & _ & Hf & _).
  rewrite Hf, node_with_value by done. split; [done|]. case_decide as Hd; [subst j; by apply Hv|done].
Qed.

Lemma find_turn_with_value tree i v q :
  tree_ok tree -> tree_ok (with_trie tree (with_value no_rest (trie_ tree) i v)) -> (i < length (trie_ tree))%nat ->
  turn_ v = turn_ (value (node E (trie_ tree) i)) ->
  find_turn (with_trie tree (with_value no_rest (trie_ tree) i v)) q = find_turn tree q.
Proof.
  intros Hok Hok' Hi Hv. rewrite !find_turn_node by done. cbn [trie_ with_trie].
  destruct (with_value_shape no_rest (trie_ tree) i v Hi (ok_wf _ _ _ _ Hok)) as (_ & _ & Hf & _). rewrite Hf.
  destruct (find_node E (trie_ tree) q) as [[|j]|]; [done| |done]. rewrite node_with_value by done.
  case_decide as Hd; [cbn [value]; by rewrite Hv, Hd|done].
Qed.

Lemma commit_reserved tree turn p k i q x :
  tree_ok tree -> find_node E (trie_ tree) p = Some i -> find_node E (trie_ tree) (p ++ [k]) = None -> 1 <= ordinal k <= uint32_max ->
  reserved tree q x -> reserved (commit_turn no_rest serialize mbedtls_sha256 tree turn (p ++ [k]) i) q x.
Proof.
  intros Hok Hp Hfree Hk (j & Hj & Hx). pose proof (find_node_bound E _ _ _ (ok_wf _ _ _ _ Hok) Hj). exists j.
  fold (committed no_rest serialize mbedtls_sha256 tree turn p i k).
  rewrite (committed_trie no_rest serialize mbedtls_sha256 tree turn p i k Hok Hp Hfree).
  rewrite (find_node_committed no_rest serialize mbedtls_sha256 tree turn p i k Hok Hp Hfree).
  rewrite (node_committed no_rest serialize mbedtls_sha256 tree turn p i k Hok Hp Hfree). split.
  - case_decide as Hd; [|done]. subst q. congruence.
  - case_decide as Hd; [subst j|by rewrite decide_False by lia]. cbn [value].
    by apply (parent_node_facts no_rest serialize mbedtls_sha256 tree i k Hok Hk).
Qed.

(** ** Allocation *)

Lemma locate_parent_spec tree uuid parent x i pa :
  tree_ok tree -> locate_parent no_rest tree uuid parent x = Ok (i, pa) ->
  length uuid = 16%nat /\ find_node E (trie_ tree) (default [] pa) = Some i /\
  match pa with
  | None => parent = None /\ x = NUMERIC
  | Some a => exists parent_id, parent = Some parent_id /\ canvas_uuid parent_id = uuid /\
      parse (human_address parent_id) = Some a /\ is_Some (find_turn tree a) /\
      has_canvas_uuid parent_id = true /\ has_human_address parent_id = true
  end.
Proof.
  intros Hok. unfold locate_parent. guard_goal; [done|]. apply orb_false_iff in G as [Hl%negb_false_iff%Nat.eqb_eq Hx].
  destruct parent as [parent_id|].
  - guard_goal; [done|]. apply orb_false_iff in G as [[Hc%negb_false_iff Hu%negb_false_iff%bool_decide_eq_true]%orb_false_iff Hh%negb_false_iff].
    destruct (parse (human_address parent_id)) as [a|] eqn:Ea; [|done].
    destruct (find_node E (trie_ tree) a) as [j|] eqn:Ej; [|done]. guard_goal; [|done]. intros [= <- <-].
    split_and!; [done..|]. exists parent_id. split_and!; [done..| |done|done]. apply find_turn_is_Some; [done|]. split; [|by eauto].
    apply address_round_trip in Ea as [[? _] _]. done.
  - intros [= <- <-]. split_and!; [done..|]. by destruct x.
Qed.

Lemma child_address_snoc pa x o :
  match pa with None => x = NUMERIC | _ => True end ->
  child_address pa x o = default [] pa ++ [{| kind := x; ordinal := o |}].
Proof. destruct pa, x; done. Qed.

Lemma with_allocator_facts (n : TurnNode Rest) x next :
  turn_ (with_allocator n x next) = turn_ n /\
  forall y, allocator (with_allocator n x next) y = if decide (y = x) then next else allocator n y.
Proof. split; [by destruct x|]. intros y. by destruct x, y. Qed.

(** An allocation changes nothing but the allocator of the parent; it hands out
    the first ordinal the allocator is not past, and is past it then. *)
Lemma allocate_child_ok tree uuid parent x :
  tree_ok tree ->
  let '(tree', r) := allocate_child no_rest tree uuid parent x in
  tree_ok tree' /\ (forall q, find_turn tree' q = find_turn tree q) /\
  root_hash_ tree' = root_hash_ tree /\ length (trie_ tree') = length (trie_ tree) /\
  (forall q k, reserved tree q k -> reserved tree' q k) /\
  match r with
  | Err _ => tree' = tree
  | Ok turn => exists pa o, let k := {| kind := x; ordinal := o |} in let q := default [] pa ++ [k] in
      1 <= o <= uint32_max /\ turn = started_turn no_rest uuid parent q /\
      (exists i, locate_parent no_rest tree uuid parent x = Ok (i, pa)) /\
      match pa with None => parent = None | Some a => is_Some (find_turn tree a) end /\
      ~ reserved tree (default [] pa) k /\ reserved tree' (default [] pa) k
  end.
Proof.
  intros Hok. unfold allocate_child. destruct (locate_parent no_rest tree uuid parent x) as [[i pa]|] eqn:El; [|done].
  pose proof El as El'. apply locate_parent_spec in El' as (Hl & Hi & Hpa); [|done]. set (n := value (node E (trie_ tree) i)).
  destruct (Z.eqb_spec (allocator n x) 0) as [|Hnz]; [done|].
  pose proof (find_node_bound E _ _ _ (ok_wf _ _ _ _ Hok) Hi) as Hb. pose proof (ok_range _ _ _ _ Hok i x) as Hr. fold n in Hr.
  set (o := allocator n x) in *. destruct (with_allocator_facts n x (successor o)) as [Ht Ha].
  assert (Hs : 0 <= successor o <= uint32_max /\ passed (successor o) o /\ forall y, passed o y -> passed (successor o) y).
  { unfold successor, passed. destruct (Z.eqb_spec o uint32_max); (split_and!; try lia). }
  destruct Hs as (Hrange & Hpass & Hmono).
  assert (Hmono' : forall y z, passed (allocator n y) z -> passed (allocator (with_allocator n x (successor o)) y) z).
  { intros y z. rewrite Ha. case_decide; [subst y; apply Hmono|done]. }
  assert (Hok' : tree_ok (with_trie tree (with_value no_rest (trie_ tree) i (with_allocator n x (successor o))))).
  { apply with_value_ok; [done..| |].
    - intros y. rewrite Ha. case_decide; [done|apply (ok_range _ _ _ _ Hok)].
    - intros c Hc. apply Hmono'. by apply (ok_passed _ _ _ _ Hok). }
  split_and!; [done| |done| | |].
  - intros q. by apply find_turn_with_value.
  - by apply (with_value_shape no_rest (trie_ tree) i _ Hb (ok_wf _ _ _ _ Hok)).
  - intros q k. by apply reserved_with_value.
  - exists pa, o. cbv zeta. rewrite child_address_snoc by (by destruct pa; [|destruct Hpa]). split_and!; [lia..|done|by exists i| | |].
    + destruct pa; [by destruct Hpa as (? & _ & _ & _ & ? & _)|by destruct Hpa].
    + intros (j & Hj & Hp). rewrite Hi in Hj. injection Hj as <-. cbn in Hp. fold n o in Hp. unfold passed in Hp. lia.
    + exists i. cbn [trie_ with_trie].
      destruct (with_value_shape no_rest (trie_ tree) i (with_allocator n x (successor o)) Hb (ok_wf _ _ _ _ Hok)) as (_ & _ & Hf & _).
      split; [by rewrite Hf|]. rewrite node_with_value, decide_True by done. cbn [value kind ordinal].
      by rewrite Ha, decide_True.
Qed.
End Tree.
