(* ===== verification/TurnTreeRebuild.v ===== *)
(** * Rebuilds and histories

    What [rebuild] keeps of the reservations, and the runs of a tree. *)
From S2P Require Import Prelude Bytes Text Trie TurnAddress Hash256.
From S2P Require Import TurnTree TurnTreeInvariant TurnTreeRuns.
From Stdlib Require Import Sorted.
From stdpp Require Import sorting.
Open Scope Z_scope.

Section Tree.
Context {Rest : Type} (no_rest : Rest).
Context (serialize : Turn Rest -> option bytes) (mbedtls_sha256 : bytes -> option bytes).

Local Abbreviation E := (empty_turn_node no_rest).
Local Abbreviation tree_ok := (tree_ok no_rest serialize mbedtls_sha256).
Local Abbreviation apply := (TurnTree.apply no_rest serialize mbedtls_sha256).
Local Abbreviation apply_all := (TurnTree.apply_all no_rest serialize mbedtls_sha256).
Local Abbreviation find_turn := (find_turn no_rest).
Local Abbreviation reserved := (reserved no_rest).
Implicit Types (tree : TurnTree Rest) (turn : Turn Rest) (p q : TurnAddress).

(** ** Applying many turns *)

Lemma apply_all_ok turns tree tree' :
  tree_ok tree -> apply_all tree turns = Ok tree' ->
  tree_ok tree' /\ length (trie_ tree') = (length (trie_ tree) + length turns)%nat /\
  (forall q turn, find_turn tree' q = Some turn <->
     find_turn tree q = Some turn \/ (turn ∈ turns /\ turn_address turn = Some q)) /\
  NoDup (map turn_address turns) /\ (forall turn q, turn ∈ turns -> turn_address turn = Some q -> find_turn tree q = None).
Proof.
  revert tree. induction turns as [|turn turns IH]; intros tree Hok; cbn [TurnTree.apply_all].
  { intros [= <-]. split_and!; [done|cbn; lia| |constructor|]; [intros q turn|intros turn q]; rewrite elem_of_nil; naive_solver. }
  pose proof (apply_ok no_rest serialize mbedtls_sha256 tree turn Hok) as Ha.
  destruct (apply tree turn) as [tree1 status]. destruct status; try done.
  destruct Ha as (Hok1 & q0 & i & _ & Hq0 & Hfree & Hl & _ & Hf). intros Hall.
  destruct (IH tree1 Hok1 Hall) as (Hok' & Hl' & Hf' & Hnd & Hnone). split_and!.
  - done.
  - cbn [length]. lia.
  - intros q x. rewrite Hf', Hf, elem_of_cons. case_decide as Hq; [subst q|].
    + split; [intros [[= <-]|[Hx Hax]]; [right; by split; [left|]|right; by split; [right|]]|].
      intros [Hx|[[->|Hx] Hax]]; [congruence|by left|right; done].
    + split; [intros [Hx|[Hx Hax]]; [by left|right; by split; [right|]]|].
      intros [Hx|[[->|Hx] Hax]]; [by left| |by right]. congruence.
  - cbn [map]. constructor; [|done]. intros Hin. apply list_elem_of_In, in_map_iff in Hin as (x & Hax & Hx%list_elem_of_In).
    rewrite Hq0 in Hax. specialize (Hnone x q0 Hx Hax). rewrite Hf, decide_True in Hnone by done. done.
  - intros x q [->|Hx]%elem_of_cons Hax; [congruence|]. specialize (Hnone x q Hx Hax). rewrite Hf in Hnone.
    by case_decide.
Qed.

(** ** Watermarks *)

Lemma preserve_watermark_spec a b :
  0 <= a <= uint32_max -> 0 <= b <= uint32_max ->
  0 <= preserve_watermark a b <= uint32_max /\
  forall o, passed a o \/ passed b o -> passed (preserve_watermark a b) o.
Proof.
  intros Ha Hb. unfold preserve_watermark, passed.
  destruct (Z.eqb_spec a 0), (Z.eqb_spec b 0), (Z.ltb_spec b a); cbn; (split; [lia|intros o; lia]).
Qed.

Lemma preserve_node_allocator (a b : TurnNode Rest) x :
  allocator (preserve_node a b) x = preserve_watermark (allocator a x) (allocator b x).
Proof. by destruct x. Qed.

(** Merging the watermarks of a node of another tree into a node. *)
Lemma preserve_node_ok tree rebuilt i j :
  tree_ok tree -> tree_ok rebuilt -> (j < length (trie_ rebuilt))%nat ->
  let v := preserve_node (value (node E (trie_ tree) i)) (value (node E (trie_ rebuilt) j)) in
  let rebuilt' := with_trie rebuilt (with_value no_rest (trie_ rebuilt) j v) in
  tree_ok rebuilt' /\ (forall q, find_turn rebuilt' q = find_turn rebuilt q) /\
  (forall q, find_node E (trie_ rebuilt') q = find_node E (trie_ rebuilt) q) /\
  length (trie_ rebuilt') = length (trie_ rebuilt) /\
  (forall q k, reserved rebuilt q k -> reserved rebuilt' q k) /\
  (forall x o, passed (allocator (value (node E (trie_ tree) i)) x) o ->
     passed (allocator (value (node E (trie_ rebuilt') j)) x) o) /\
  (forall l, sequence_end (node E (trie_ rebuilt') l) = sequence_end (node E (trie_ rebuilt) l)).
Proof.
  intros Hok Hr Hj v rebuilt'.
  destruct (with_value_shape no_rest (trie_ rebuilt) j v Hj (ok_wf _ _ _ _ Hr)) as (Hl & _ & Hf & Hs).
  assert (Hw : forall x, 0 <= allocator v x <= uint32_max /\ forall o,
    passed (allocator (value (node E (trie_ tree) i)) x) o \/ passed (allocator (value (node E (trie_ rebuilt) j)) x) o ->
    passed (allocator v x) o).
  { intros x. unfold v. rewrite preserve_node_allocator. apply preserve_watermark_spec; [apply (ok_range _ _ _ _ Hok)|apply (ok_range _ _ _ _ Hr)]. }
  assert (Hok' : tree_ok rebuilt').
  { apply with_value_ok; [done..|by apply Hw|]. intros c Hc. apply Hw. right. by apply (ok_passed _ _ _ _ Hr). }
  split_and!; [done| |done|done| | |].
  - intros q. by apply (find_turn_with_value no_rest serialize mbedtls_sha256).
  - intros q k. apply (reserved_with_value no_rest serialize mbedtls_sha256); [done..|]. intros x o Ho. apply Hw. by right.
  - intros x o Ho. unfold rebuilt'. cbn [trie_ with_trie]. rewrite node_with_value, decide_True by done. apply Hw. by left.
  - intros l. apply Hs.
Qed.

(** The node of a committed turn. *)
Lemma found_node tree q :
  tree_ok tree -> is_Some (find_turn tree q) ->
  exists i, find_node E (trie_ tree) q = Some i /\ sequence_end (node E (trie_ tree) i) = true.
Proof.
  intros Hok Hs. rewrite (find_turn_node no_rest serialize mbedtls_sha256) in Hs by done.
  destruct (find_node E (trie_ tree) q) as [[|i]|] eqn:Ei; [by destruct Hs|eexists; split; [done|]|by destruct Hs].
  pose proof (find_node_bound E _ _ _ (ok_wf _ _ _ _ Hok) Ei). apply (ok_terminal _ _ _ _ Hok). lia.
Qed.

(** One tree keeps the turns of another and at least its reservations. *)
Definition at_least rebuilt rebuilt' : Prop :=
  tree_ok rebuilt' /\ (forall q, find_turn rebuilt' q = find_turn rebuilt q) /\
  length (trie_ rebuilt') = length (trie_ rebuilt) /\ forall q k, reserved rebuilt q k -> reserved rebuilt' q k.

Lemma at_least_refl rebuilt : tree_ok rebuilt -> at_least rebuilt rebuilt.
Proof. by intros. Qed.

Lemma at_least_trans a b c : at_least a b -> at_least b c -> at_least a c.
Proof. intros (_ & F1 & L1 & R1) (W2 & F2 & L2 & R2). split_and!; [done|intros q; by rewrite F2|congruence|auto]. Qed.

Lemma preserve_at_ok tree rebuilt a :
  tree_ok tree -> tree_ok rebuilt ->
  let rebuilt' := with_trie rebuilt (preserve_at no_rest (trie_ tree) (trie_ rebuilt) a) in
  at_least rebuilt rebuilt' /\
  forall k, is_Some (find_turn tree a) -> is_Some (find_turn rebuilt a) -> reserved tree a k -> reserved rebuilt' a k.
Proof.
  intros Hok Hr. cbv zeta.
  assert (Hsame : with_trie rebuilt (trie_ rebuilt) = rebuilt) by (by destruct rebuilt).
  pose proof (found_node tree a Hok) as Hs. pose proof (found_node rebuilt a Hr) as Hs'. unfold preserve_at.
  destruct (find_node E (trie_ tree) a) as [i|] eqn:Ei;
    [|rewrite Hsame; split; [by apply at_least_refl|]; intros k H _ _; by destruct (Hs H) as (? & ? & _)].
  destruct (find_node E (trie_ rebuilt) a) as [j|] eqn:Ej;
    [|rewrite Hsame; split; [by apply at_least_refl|]; intros k _ H _; by destruct (Hs' H) as (? & ? & _)].
  destruct (negb (sequence_end (node E (trie_ tree) i)) || negb (sequence_end (node E (trie_ rebuilt) j))) eqn:Ee.
  - rewrite Hsame. split; [by apply at_least_refl|]. intros k H H' _. exfalso.
    destruct (Hs H) as (i' & [= <-] & Ht), (Hs' H') as (j' & [= <-] & Ht'). by rewrite Ht, Ht' in Ee.
  - destruct (preserve_node_ok tree rebuilt i j Hok Hr (find_node_bound E _ _ _ (ok_wf _ _ _ _ Hr) Ej))
      as (H1 & H2 & H3 & H4 & H5 & H6 & _).
    split; [done|]. intros k _ _ (i' & Hi' & Hp). exists j. rewrite Ei in Hi'. injection Hi' as <-.
    split; [by rewrite H3|]. by apply H6.
Qed.

(** The loop over the completions: every address of the list has its watermarks merged. *)
Lemma preserve_fold_ok tree l rebuilt :
  tree_ok tree -> tree_ok rebuilt ->
  let rebuilt' := with_trie rebuilt (fold_left (preserve_at no_rest (trie_ tree)) l (trie_ rebuilt)) in
  at_least rebuilt rebuilt' /\
  forall q k, q ∈ l -> is_Some (find_turn tree q) -> is_Some (find_turn rebuilt q) -> reserved tree q k -> reserved rebuilt' q k.
Proof.
  intros Hok. revert rebuilt. induction l as [|a l IH]; intros rebuilt Hr; cbv zeta; cbn [fold_left].
  { split; [destruct rebuilt; by apply at_least_refl|]. by intros q k ?%elem_of_nil. }
  destruct (preserve_at_ok tree rebuilt a Hok Hr) as [Hle Ha].
  set (r1 := with_trie rebuilt (preserve_at no_rest (trie_ tree) (trie_ rebuilt) a)) in *.
  destruct (IH r1 (proj1 Hle)) as [Hle' Ha'].
  change (with_trie rebuilt (fold_left (preserve_at no_rest (trie_ tree)) l (preserve_at no_rest (trie_ tree) (trie_ rebuilt) a)))
    with (with_trie r1 (fold_left (preserve_at no_rest (trie_ tree)) l (trie_ r1))).
  split; [by eapply at_least_trans|]. destruct Hle as (_ & Hf & _), Hle' as (_ & _ & _ & Hm).
  intros q k [->|Hq]%elem_of_cons Hs Hs' Hres; [by apply Hm, Ha|]. apply Ha'; [done..| |done]. by rewrite Hf.
Qed.

Lemma preserve_reservations_ok tree rebuilt :
  tree_ok tree -> tree_ok rebuilt ->
  let rebuilt' := preserve_reservations no_rest tree rebuilt in
  at_least rebuilt rebuilt' /\
  forall q k, (q = [] \/ is_Some (find_turn tree q) /\ is_Some (find_turn rebuilt q)) -> reserved tree q k -> reserved rebuilt' q k.
Proof.
  intros Hok Hr. cbv zeta.
  destruct (preserve_node_ok tree rebuilt kRootNode kRootNode Hok Hr (wf_root E _ (ok_wf _ _ _ _ Hr))) as (H1 & H2 & H3 & H4 & H5 & H6 & _).
  unfold preserve_reservations.
  set (r1 := with_trie rebuilt (with_value no_rest (trie_ rebuilt) kRootNode _)) in *.
  destruct (preserve_fold_ok tree (completions E (trie_ tree) []) r1 Hok H1) as [Hle Hall].
  change (with_trie rebuilt (fold_left (preserve_at no_rest (trie_ tree)) (completions E (trie_ tree) [])
    (with_value no_rest (trie_ rebuilt) kRootNode _)))
    with (with_trie r1 (fold_left (preserve_at no_rest (trie_ tree)) (completions E (trie_ tree) []) (trie_ r1))).
  split; [by eapply at_least_trans|]. intros q k [->|[Hs Hs']] Hres.
  - apply Hle. destruct Hres as (i & [= <-] & Hp). exists kRootNode. split; [done|]. by apply H6.
  - apply Hall; [|done|by rewrite H2|done]. apply (completions_of_wf E (trie_ tree) [] (ok_wf _ _ _ _ Hok)).
    split; [by exists q|]. unfold contains. by destruct (found_node tree q Hok Hs) as (i & -> & ->).
Qed.

(** ** Rebuilding *)

Lemma rebuild_ok tree turns :
  tree_ok tree ->
  let '(tree', status) := rebuild no_rest serialize mbedtls_sha256 tree turns in
  match status with
  | OK => exists rebuilt, apply_all (new_turn_tree no_rest) (merge_sort address_le turns) = Ok rebuilt /\
      at_least rebuilt tree' /\ root_hash_ tree' = root_hash_ rebuilt /\
      (forall q turn, find_turn tree' q = Some turn <-> turn ∈ turns /\ turn_address turn = Some q) /\
      length (trie_ tree') = S (length turns) /\
      forall q k, (q = [] \/ is_Some (find_turn tree q) /\ is_Some (find_turn tree' q)) -> reserved tree q k -> reserved tree' q k
  | _ => tree' = tree
  end.
Proof.
  intros Hok. unfold rebuild. destruct (forallb _ turns); [|done]. unfold rebuild_sorted.
  destruct (apply_all (new_turn_tree no_rest) (merge_sort address_le turns)) as [rebuilt|status] eqn:Ea.
  - destruct (apply_all_ok _ _ _ (new_turn_tree_ok no_rest serialize mbedtls_sha256) Ea) as (Hr & Hl & Hf & _).
    destruct (preserve_reservations_ok tree rebuilt Hok Hr) as [Hle Hres]. pose proof Hle as (_ & Hf' & Hl' & _).
    pose proof (merge_sort_Permutation address_le turns) as Hp. exists rebuilt. split_and!; try done.
    + intros q turn. rewrite Hf', Hf, Hp. split; [intros [H|H]; [|done]|by right].
      exfalso. revert H. destruct q as [|k q]; by unfold TurnTree.find_turn.
    + rewrite Hl', Hl, Hp. done.
    + intros q k Hq. apply Hres. destruct Hq as [->|[Hs Hs']]; [by left|right]. by rewrite Hf' in Hs'.
  - destruct status; try done. exfalso. clear -Ea. revert Ea. generalize (new_turn_tree no_rest).
    induction (merge_sort address_le turns) as [|turn l IH]; intros t; cbn [TurnTree.apply_all]; [done|].
    destruct (apply t turn) as [t1 []]; try done. apply IH.
Qed.
End Tree.
