(* ===== verification/TurnTreeHash.v ===== *)
(** * What the content hash of a tree says

    Equal turns give equal hashes whatever the history, and without collisions
    equal hashes give equal turns. *)
From S2P Require Import Prelude Bytes Text Trie TurnAddress Hash256.
From S2P Require Import TurnTree TurnTreeInvariant TurnTreeRuns.
From Stdlib Require Import Sorted.
From stdpp Require Import sorting.
Open Scope Z_scope.

(** ** Sorted lists and blocks *)

Lemma key_lt_sorted_unique {K} `{TrieKey K} (l l' : list K) :
  StronglySorted key_lt l -> StronglySorted key_lt l' -> (forall k, k ∈ l <-> k ∈ l') -> l = l'.
Proof.
  intros Hs Hs' Heq.
  assert (Hnd : forall l : list K, StronglySorted key_lt l -> NoDup l).
  { clear. induction 1 as [|k l Hs IH Hk]; constructor; [|done]. intros Hin.
    rewrite List.Forall_forall in Hk. apply (key_lt_irrefl k). by apply Hk, list_elem_of_In. }
  assert (AntiSymm (=) (@key_lt K _)).
  { intros x y Hxy Hyx. exfalso. apply (key_lt_irrefl x). by eapply key_lt_trans. }
  apply (StronglySorted_unique key_lt); [done..|]. apply NoDup_Permutation; auto.
Qed.

Lemma flat_map_blocks {A B} (f : A -> bytes) (g : B -> bytes) n l l' :
  (0 < n)%nat -> (forall c, c ∈ l -> length (f c) = n) -> (forall c, c ∈ l' -> length (g c) = n) ->
  flat_map f l = flat_map g l' -> Forall2 (fun c c' => f c = g c') l l'.
Proof.
  intros Hn. revert l'. induction l as [|c l IH]; intros [|c' l'] Hl Hl' E; cbn [flat_map] in E; [constructor|..].
  - apply (f_equal length) in E. rewrite length_app, (Hl' c') in E by (by left). cbn in E. lia.
  - apply (f_equal length) in E. rewrite length_app, (Hl c) in E by (by left). cbn in E. lia.
  - apply app_inj_1 in E as [E1 E2]; [|by rewrite Hl, Hl' by left].
    constructor; [done|]. apply IH; [intros x Hx; apply Hl; by right|intros x Hx; apply Hl'; by right|done].
Qed.

Section Tree.
Context {Rest : Type} (no_rest : Rest).
Context (serialize : Turn Rest -> option bytes) (mbedtls_sha256 : bytes -> option bytes).

Local Abbreviation E := (empty_turn_node no_rest).
Local Abbreviation hash := (hash_node no_rest serialize mbedtls_sha256).
Local Abbreviation tree_ok := (tree_ok no_rest serialize mbedtls_sha256).
Local Abbreviation find_turn := (find_turn no_rest).
Implicit Types (a b tree : TurnTree Rest) (turn : Turn Rest) (p q : TurnAddress).

(** ** Children and paths *)

Lemma child_path tree p i c :
  tree_ok tree -> find_node E (trie_ tree) p = Some i ->
  c ∈ children (node E (trie_ tree) i) <-> find_node E (trie_ tree) (p ++ [key (node E (trie_ tree) c)]) = Some c.
Proof.
  intros Hok Hp. pose proof (ok_wf _ _ _ _ Hok) as Hw. pose proof (find_node_bound E _ _ _ Hw Hp) as Hi.
  unfold find_node in *. rewrite find_from_app, Hp. cbn.
  destruct (find_child E (trie_ tree) i (key (node E (trie_ tree) c))) as [c'|] eqn:Ec.
  - apply find_child_some in Ec as (_ & Hc' & Hk); [|done]. split; [|by intros [= ->]].
    intros Hc. f_equal. by apply (child_key_inj E (trie_ tree) i).
  - split; [|done]. intros Hc. exfalso. by apply (find_child_none E (trie_ tree) i _ Hw Hi Ec c Hc).
Qed.

Lemma child_keys tree p i :
  tree_ok tree -> find_node E (trie_ tree) p = Some i ->
  StronglySorted key_lt (map (fun c => key (node E (trie_ tree) c)) (children (node E (trie_ tree) i))) /\
  forall k, k ∈ map (fun c => key (node E (trie_ tree) c)) (children (node E (trie_ tree) i)) <->
    is_Some (find_turn tree (p ++ [k])).
Proof.
  intros Hok Hp. pose proof (ok_wf _ _ _ _ Hok) as Hw. pose proof (find_node_bound E _ _ _ Hw Hp) as Hi. split.
  - induction (wf_sorted E _ Hw i _ (lookup_node E _ i Hi)) as [|c l Hs IH Hc]; cbn [map]; constructor; [done|].
    apply List.Forall_map. done.
  - intros k. rewrite (find_turn_is_Some no_rest serialize mbedtls_sha256) by done.
    rewrite list_elem_of_In, in_map_iff. split.
    + intros (c & <- & Hc%list_elem_of_In). apply (child_path tree p i c Hok Hp) in Hc. split; [by destruct p|by eauto].
    + intros [_ [c Hc]]. exists c. assert (Hk : key (node E (trie_ tree) c) = k).
      { unfold find_node in *. rewrite find_from_app, Hp in Hc. cbn in Hc.
        destruct (find_child E (trie_ tree) i k) as [c'|] eqn:Ec; [|done]. injection Hc as <-.
        by apply find_child_some in Ec as (_ & _ & ?). }
      split; [done|]. apply list_elem_of_In, (child_path tree p i c Hok Hp). by rewrite Hk.
Qed.

(** Children of nodes with the same child addresses pair up. *)
Lemma children_match a b p i j :
  tree_ok a -> tree_ok b -> find_node E (trie_ a) p = Some i -> find_node E (trie_ b) p = Some j ->
  (forall k, is_Some (find_turn a (p ++ [k])) <-> is_Some (find_turn b (p ++ [k]))) ->
  Forall2 (fun c c' => exists k, key (node E (trie_ a) c) = k /\ key (node E (trie_ b) c') = k /\
      find_node E (trie_ a) (p ++ [k]) = Some c /\ find_node E (trie_ b) (p ++ [k]) = Some c')
    (children (node E (trie_ a) i)) (children (node E (trie_ b) j)).
Proof.
  intros Ha Hb Hi Hj Hsame. destruct (child_keys a p i Ha Hi) as [Sa Ka], (child_keys b p j Hb Hj) as [Sb Kb].
  assert (Hk : map (fun c => key (node E (trie_ a) c)) (children (node E (trie_ a) i)) =
    map (fun c => key (node E (trie_ b) c)) (children (node E (trie_ b) j))).
  { apply key_lt_sorted_unique; [done..|]. intros k. by rewrite Ka, Kb. }
  assert (Hca : forall c, c ∈ children (node E (trie_ a) i) -> find_node E (trie_ a) (p ++ [key (node E (trie_ a) c)]) = Some c)
    by (intros c; by apply child_path).
  assert (Hcb : forall c, c ∈ children (node E (trie_ b) j) -> find_node E (trie_ b) (p ++ [key (node E (trie_ b) c)]) = Some c)
    by (intros c; by apply child_path).
  clear -Hk Hca Hcb. revert Hk Hca Hcb. generalize (children (node E (trie_ b) j)).
  induction (children (node E (trie_ a) i)) as [|c l IH]; intros [|c' l'] Hk Hca Hcb; try done.
  cbn [map] in Hk. injection Hk as Hk Hks. constructor.
  - exists (key (node E (trie_ a) c)). split_and!; [done|done|apply Hca; by left|]. rewrite Hk. apply Hcb. by left.
  - apply IH; [done|intros x Hx; apply Hca; by right|intros x Hx; apply Hcb; by right].
Qed.

(** ** Equal turns, equal hashes *)

Lemma node_hash tree i :
  tree_ok tree -> (1 < length (trie_ tree))%nat -> (i < length (trie_ tree))%nat ->
  hashes_ tree !! i = Some (hash (trie_ tree) (hashes_ tree) i).
Proof. intros Hok Hl Hi. by apply (ok_hashes _ _ _ _ Hok). Qed.

Lemma terminal_path tree p i :
  tree_ok tree -> find_node E (trie_ tree) p = Some i -> sequence_end (node E (trie_ tree) i) = bool_decide (p <> []).
Proof.
  intros Hok Hp. destruct (find_node_pos no_rest serialize mbedtls_sha256 _ _ _ Hok Hp) as [[-> ->]|[Hne Hi]].
  - by rewrite (ok_root _ _ _ _ Hok).
  - by rewrite (ok_terminal _ _ _ _ Hok), bool_decide_eq_true_2 by done.
Qed.

Lemma same_turns_same_hash a b :
  tree_ok a -> tree_ok b -> (1 < length (trie_ a))%nat -> (1 < length (trie_ b))%nat ->
  (forall q, find_turn a q = find_turn b q) ->
  forall fuel p i j, (length (trie_ a) - i <= fuel)%nat ->
  find_node E (trie_ a) p = Some i -> find_node E (trie_ b) p = Some j -> hashes_ a !! i = hashes_ b !! j.
Proof.
  intros Ha Hb Hla Hlb Hsame. induction fuel as [|fuel IH]; intros p i j Hf Hi Hj;
    pose proof (find_node_bound E _ _ _ (ok_wf _ _ _ _ Ha) Hi) as Hbi; [lia|].
  pose proof (find_node_bound E _ _ _ (ok_wf _ _ _ _ Hb) Hj) as Hbj.
  rewrite !node_hash by done. f_equal. unfold hash_node, encoded_node.
  rewrite (terminal_path a p i Ha Hi), (terminal_path b p j Hb Hj).
  assert (Hc : flat_map (child_bytes no_rest (trie_ a) (hashes_ a)) (children (node E (trie_ a) i)) =
    flat_map (child_bytes no_rest (trie_ b) (hashes_ b)) (children (node E (trie_ b) j))).
  { assert (Hk : forall k, is_Some (find_turn a (p ++ [k])) <-> is_Some (find_turn b (p ++ [k]))) by (intros k; by rewrite Hsame).
    pose proof (children_match a b p i j Ha Hb Hi Hj Hk) as Hm.
    assert (Hbelow : forall c, c ∈ children (node E (trie_ a) i) -> (i < c)%nat)
      by (intros c Hc; apply (wf_forward E _ (ok_wf _ _ _ _ Ha) i _ c (lookup_node E _ i Hbi) Hc)).
    induction Hm as [|c c' l l' (k & Hkc & Hkc' & Hpc & Hpc') Hm IHm]; [done|]. cbn [flat_map].
    rewrite IHm by (intros x Hx; apply Hbelow; by right). f_equal. unfold child_bytes. rewrite Hkc, Hkc'.
    rewrite (IH (p ++ [k]) c c'); [done| |done|done]. specialize (Hbelow c ltac:(by left)). lia. }
  rewrite Hc. case_bool_decide as Hp; [|done].
  pose proof (Hsame p) as Ht. rewrite !(find_turn_node no_rest serialize mbedtls_sha256), Hi, Hj in Ht by done.
  destruct (find_node_pos no_rest serialize mbedtls_sha256 _ _ _ Ha Hi) as [[? _]|[_ ?]]; [done|].
  destruct (find_node_pos no_rest serialize mbedtls_sha256 _ _ _ Hb Hj) as [[? _]|[_ ?]]; [done|].
  destruct i as [|i], j as [|j]; try lia. injection Ht as Ht. by rewrite Ht.
Qed.

(** A tree is empty exactly when no turn is committed. *)
Lemma tree_empty tree : tree_ok tree -> (length (trie_ tree) <= 1)%nat <-> forall q, find_turn tree q = None.
Proof.
  intros Hok. pose proof (wf_root E _ (ok_wf _ _ _ _ Hok)) as H0. split.
  - intros Hl q. destruct (find_turn tree q) eqn:Eq; [|done].
    destruct (proj1 (find_turn_is_Some no_rest serialize mbedtls_sha256 tree q Hok) ltac:(done)) as [Hne [i Hi]].
    destruct (find_node_pos no_rest serialize mbedtls_sha256 _ _ _ Hok Hi) as [[? _]|[_ ?]]; [done|lia].
  - intros Hnone. destruct (decide (length (trie_ tree) <= 1)%nat) as [|Hl]; [done|exfalso].
    destruct (ok_reached _ _ _ _ Hok 1%nat ltac:(lia)) as [q Hq]. specialize (Hnone q).
    by rewrite (find_turn_node no_rest serialize mbedtls_sha256), Hq in Hnone.
Qed.

Lemma empty_root tree : tree_ok tree -> (length (trie_ tree) <= 1)%nat -> root_hash_ tree = zero_hash.
Proof.
  intros Hok Hl. pose proof (wf_root E _ (ok_wf _ _ _ _ Hok)). rewrite (ok_root_hash _ _ _ _ Hok), (ok_empty _ _ _ _ Hok); [done|lia].
Qed.

Lemma same_turns_same_root a b : tree_ok a -> tree_ok b -> (forall q, find_turn a q = find_turn b q) -> root_hash_ a = root_hash_ b.
Proof.
  intros Ha Hb Hsame. pose proof (tree_empty a Ha) as Ea. pose proof (tree_empty b Hb) as Eb.
  assert (Hab : (length (trie_ a) <= 1)%nat <-> (length (trie_ b) <= 1)%nat).
  { rewrite Ea, Eb. split; intros H q; [by rewrite <- Hsame|by rewrite Hsame]. }
  destruct (decide (length (trie_ a) <= 1)%nat) as [Hl|Hl]; [rewrite !empty_root; [done|done|by apply Hab|done..]|].
  rewrite (ok_root_hash _ _ _ _ Ha), (ok_root_hash _ _ _ _ Hb).
  rewrite (same_turns_same_hash a b Ha Hb ltac:(lia) ltac:(lia) Hsame (length (trie_ a)) [] kRootNode kRootNode); [done|lia|done|done].
Qed.

(** ** Equal hashes, equal turns *)

(** What the serialisation of turns guarantees: it determines the turn, and a
    longer one continues with a field tag, never a byte 0 or 1, since field
    number 0 does not exist. *)
Definition serialize_determines : Prop :=
  forall x y s, serialize x = Some s -> serialize y = Some s -> x = y.

Definition serialize_tagged : Prop :=
  forall x y s byte more, serialize x = Some s -> serialize y = Some (s ++ byte :: more) -> 2 <= byte.

(** No two node contents of the trees collide. *)
Definition collision_free a b : Prop :=
  forall i j x y, (i < length (trie_ a))%nat -> (j < length (trie_ b))%nat ->
    encoded_node no_rest serialize (trie_ a) (hashes_ a) i = Some x ->
    encoded_node no_rest serialize (trie_ b) (hashes_ b) j = Some y ->
    sha256 mbedtls_sha256 x = sha256 mbedtls_sha256 y -> x = y.

Definition serialisable tree : Prop := forall q turn, find_turn tree q = Some turn -> is_Some (serialize turn).

(** The bytes of the children begin with a kind, 0 or 1. *)
Lemma children_bytes_head t hs l :
  flat_map (child_bytes no_rest t hs) l = [] \/ exists byte more, flat_map (child_bytes no_rest t hs) l = byte :: more /\ byte <= 1.
Proof.
  destruct l as [|c l]; [by left|]. right. cbn [flat_map child_bytes app]. do 2 eexists. split; [done|].
  by destruct (kind (key (node E t c))).
Qed.

Lemma payload_split x y px py la lb :
  serialize_tagged -> serialize x = Some px -> serialize y = Some py ->
  (la = [] \/ exists byte more, la = byte :: more /\ byte <= 1) -> (lb = [] \/ exists byte more, lb = byte :: more /\ byte <= 1) ->
  px ++ la = py ++ lb -> px = py /\ la = lb.
Proof.
  intros Ht Hx Hy Ha Hb E.
  destruct (le_lt_dec (length px) (length py)) as [Hle|Hlt].
  - destruct (app_eq_inv px la py lb E) as [(k & Hk & Hk')|(k & Hk & Hk')].
    + subst px. destruct k as [|byte k]; [rewrite app_nil_r; by rewrite app_nil_r in *|]. rewrite length_app in Hle. cbn in Hle. lia.
    + subst py. destruct k as [|byte k]; [rewrite app_nil_r; done|]. exfalso.
      pose proof (Ht x y px byte k Hx Hy). destruct Ha as [->|(b0 & m & -> & Hb0)]; [done|]. injection Hk' as -> _. lia.
  - destruct (app_eq_inv px la py lb E) as [(k & Hk & Hk')|(k & Hk & Hk')].
    + subst px. destruct k as [|byte k]; [rewrite app_nil_r; done|]. exfalso.
      pose proof (Ht y x py byte k Hy Hx). destruct Hb as [->|(b0 & m & -> & Hb0)]; [done|]. injection Hk' as -> _. lia.
    + subst py. rewrite length_app in Hlt. lia.
Qed.

Lemma hash_length t hs i : provider_ok mbedtls_sha256 -> length (hash t hs i) = 32%nat.
Proof.
  intros Hp. unfold hash_node. destruct (encoded_node no_rest serialize t hs i); [|done].
  by apply (sha256_ok mbedtls_sha256 _ Hp).
Qed.

(** The hash and the bytes of a child. *)
Lemma child_facts tree p i c :
  provider_ok mbedtls_sha256 -> tree_ok tree -> find_node E (trie_ tree) p = Some i ->
  c ∈ children (node E (trie_ tree) i) ->
  (i < c < length (trie_ tree))%nat /\ 0 <= ordinal (key (node E (trie_ tree) c)) <= uint32_max /\
  length (child_bytes no_rest (trie_ tree) (hashes_ tree) c) = 41%nat /\
  hashes_ tree !! c = Some (default zero_hash (hashes_ tree !! c)).
Proof.
  intros Hp Hok Hi Hc. pose proof (find_node_bound E _ _ _ (ok_wf _ _ _ _ Hok) Hi) as Hb.
  pose proof (wf_forward E _ (ok_wf _ _ _ _ Hok) i _ c (lookup_node E _ i Hb) Hc) as Hlt.
  assert (Hh : hashes_ tree !! c = Some (hash (trie_ tree) (hashes_ tree) c)) by (apply node_hash; [done|lia|lia]).
  split_and!; [lia|lia| | | |].
  - apply (child_path tree p i c Hok Hi) in Hc. pose proof (ok_address _ _ _ _ Hok _ _ Hc ltac:(lia)) as Ha.
    apply turn_address_valid in Ha as [_ Ha]. apply Forall_app in Ha as [_ Ha]. apply Forall_cons in Ha as [[Ha _] _]. lia.
  - apply (ok_ordinal _ _ _ _ Hok). lia.
  - unfold child_bytes. rewrite Hh. cbn [default length app]. rewrite length_app, length_be_bytes. cbn. by rewrite hash_length.
  - by rewrite Hh.
Qed.

Lemma child_bytes_inj a b c c' :
  0 <= ordinal (key (node E (trie_ a) c)) <= uint32_max -> 0 <= ordinal (key (node E (trie_ b) c')) <= uint32_max ->
  child_bytes no_rest (trie_ a) (hashes_ a) c = child_bytes no_rest (trie_ b) (hashes_ b) c' ->
  key (node E (trie_ a) c) = key (node E (trie_ b) c') /\
  default zero_hash (hashes_ a !! c) = default zero_hash (hashes_ b !! c').
Proof.
  intros Ho Ho'. unfold child_bytes. intros Hc. apply app_inj_1 in Hc as [[= Hkind] Hbytes]; [|done].
  apply app_inj_1 in Hbytes as [Hord Hh]; [|by rewrite !length_be_bytes]. split; [|done].
  apply (f_equal be_value) in Hord. unfold uint32_max in *. rewrite !be_value_be_bytes in Hord by width_lia.
  destruct (key (node E (trie_ a) c)) as [[] o], (key (node E (trie_ b) c')) as [[] o']; cbn in *; congruence.
Qed.

(** The turn of a node and the pairs of its children, from equal contents. *)
Lemma same_content a b p i j x :
  provider_ok mbedtls_sha256 -> serialize_determines -> serialize_tagged -> tree_ok a -> tree_ok b ->
  find_node E (trie_ a) p = Some i -> find_node E (trie_ b) p = Some j ->
  encoded_node no_rest serialize (trie_ a) (hashes_ a) i = Some x ->
  encoded_node no_rest serialize (trie_ b) (hashes_ b) j = Some x ->
  find_turn a p = find_turn b p /\
  Forall2 (fun c c' => key (node E (trie_ a) c) = key (node E (trie_ b) c') /\ hashes_ a !! c = hashes_ b !! c')
    (children (node E (trie_ a) i)) (children (node E (trie_ b) j)).
Proof.
  intros Hpr Hdet Htag Ha Hb Hi Hj. unfold encoded_node. rewrite (terminal_path a p i Ha Hi), (terminal_path b p j Hb Hj).
  set (la := flat_map _ _). set (lb := flat_map _ (children (node E (trie_ b) j))). intros Ex Ey.
  assert (Hsplit : find_turn a p = find_turn b p /\ la = lb).
  { rewrite !(find_turn_node no_rest serialize mbedtls_sha256), Hi, Hj by done. case_bool_decide as Hp.
    - destruct (find_node_pos no_rest serialize mbedtls_sha256 _ _ _ Ha Hi) as [[? _]|[_ ?]]; [done|].
      destruct (find_node_pos no_rest serialize mbedtls_sha256 _ _ _ Hb Hj) as [[? _]|[_ ?]]; [done|].
      apply fmap_Some in Ex as (px & Epx & ->), Ey as (py & Epy & Ey). rewrite <- !app_assoc in Ey.
      apply app_inj_1 in Ey as [_ Ey]; [|done]. injection Ey as Ey.
      apply (payload_split _ _ _ _ _ _ Htag Epx Epy (children_bytes_head _ _ _) (children_bytes_head _ _ _)) in Ey as [-> Hl].
      split; [|done]. destruct i as [|i], j as [|j]; try lia. f_equal. by eapply Hdet.
    - destruct p; [|done]. injection Ex as <-. injection Ey as Ey. cbn in Hi, Hj. injection Hi as <-. injection Hj as <-. done. }
  destruct Hsplit as [Hturn Hl]. split; [done|].
  assert (Hca : forall c, c ∈ children (node E (trie_ a) i) -> _) by (intros c; apply (child_facts a p i c Hpr Ha Hi)).
  assert (Hcb : forall c, c ∈ children (node E (trie_ b) j) -> _) by (intros c; apply (child_facts b p j c Hpr Hb Hj)).
  apply (flat_map_blocks _ _ 41) in Hl; [|lia|by intros c (_ & _ & ? & _)%Hca|by intros c (_ & _ & ? & _)%Hcb].
  clear Hdet Htag Ex Ey. subst la lb.
  induction Hl as [|c c' l l' Hc Hl IH]; constructor.
  - destruct (Hca c ltac:(by left)) as (_ & Ho & _ & Hh), (Hcb c' ltac:(by left)) as (_ & Ho' & _ & Hh').
    apply child_bytes_inj in Hc as [Hk He]; [|done..]. split; [done|]. rewrite Hh, Hh'. by f_equal.
  - apply IH; [intros y Hy; apply Hca; by right|intros y Hy; apply Hcb; by right].
Qed.

Lemma encoded_some tree p i :
  tree_ok tree -> serialisable tree -> find_node E (trie_ tree) p = Some i ->
  exists x, encoded_node no_rest serialize (trie_ tree) (hashes_ tree) i = Some x.
Proof.
  intros Hok Hs Hi. unfold encoded_node. rewrite (terminal_path tree p i Hok Hi). case_bool_decide as Hp; [|by eexists].
  destruct (find_node_pos no_rest serialize mbedtls_sha256 _ _ _ Hok Hi) as [[? _]|[_ Hb]]; [done|].
  destruct (Hs p (turn_ (value (node E (trie_ tree) i)))) as [s ->]; [|by eexists].
  rewrite (find_turn_node no_rest serialize mbedtls_sha256), Hi by done. by destruct i; [lia|].
Qed.

Lemma find_turn_below tree p k q : tree_ok tree -> find_turn tree (p ++ [k]) = None -> find_turn tree (p ++ k :: q) = None.
Proof.
  intros Hok Hn. destruct (find_turn tree (p ++ k :: q)) eqn:Eq; [|done]. exfalso.
  destruct (proj1 (find_turn_is_Some no_rest serialize mbedtls_sha256 tree _ Hok) (ex_intro _ _ Eq)) as [_ Hs].
  assert (Hs' : is_Some (find_turn tree (p ++ [k]))); [|rewrite Hn in Hs'; by destruct Hs'].
  apply (find_turn_is_Some no_rest serialize mbedtls_sha256); [done|]. split; [by destruct p|].
  change (k :: q) with ([k] ++ q) in Hs. rewrite app_assoc in Hs. unfold find_node in *. rewrite find_from_app in Hs.
  destruct (find_from E (trie_ tree) kRootNode (p ++ [k])); [done|by destruct Hs].
Qed.

Lemma same_hash_same_turns a b :
  provider_ok mbedtls_sha256 -> serialize_determines -> serialize_tagged -> tree_ok a -> tree_ok b ->
  (1 < length (trie_ a))%nat -> (1 < length (trie_ b))%nat ->
  serialisable a -> serialisable b -> collision_free a b ->
  forall fuel p i j, (length (trie_ a) - i <= fuel)%nat ->
  find_node E (trie_ a) p = Some i -> find_node E (trie_ b) p = Some j -> hashes_ a !! i = hashes_ b !! j ->
  forall q, find_turn a (p ++ q) = find_turn b (p ++ q).
Proof.
  intros Hpr Hdet Htag Ha Hb Hla Hlb Hsa Hsb Hcf. induction fuel as [|fuel IH]; intros p i j Hf Hi Hj Hh;
    pose proof (find_node_bound E _ _ _ (ok_wf _ _ _ _ Ha) Hi) as Hbi; [lia|].
  pose proof (find_node_bound E _ _ _ (ok_wf _ _ _ _ Hb) Hj) as Hbj.
  assert (Hx : exists x, encoded_node no_rest serialize (trie_ a) (hashes_ a) i = Some x) by (by apply (encoded_some a p)).
  assert (Hy : exists y, encoded_node no_rest serialize (trie_ b) (hashes_ b) j = Some y) by (by apply (encoded_some b p)).
  destruct Hx as [x Hx], Hy as [y Hy]. rewrite !node_hash in Hh by done. injection Hh as Hh. unfold hash_node in Hh.
  rewrite Hx, Hy in Hh. pose proof (Hcf i j x y Hbi Hbj Hx Hy Hh) as <-.
  destruct (same_content a b p i j x Hpr Hdet Htag Ha Hb Hi Hj Hx Hy) as [Ht Hm].
  intros [|k q]; [by rewrite app_nil_r|]. destruct (child_keys a p i Ha Hi) as [_ Ka], (child_keys b p j Hb Hj) as [_ Kb].
  assert (Hkeys : map (fun c => key (node E (trie_ a) c)) (children (node E (trie_ a) i)) =
    map (fun c => key (node E (trie_ b) c)) (children (node E (trie_ b) j))).
  { clear -Hm. induction Hm as [|c c' l l' [Hk _] Hm IHm]; [done|]. cbn [map]. by rewrite Hk, IHm. }
  destruct (decide (k ∈ map (fun c => key (node E (trie_ a) c)) (children (node E (trie_ a) i)))) as [Hk|Hk].
  - apply list_elem_of_In, in_map_iff in Hk as (c & <- & Hc%list_elem_of_In). apply list_elem_of_lookup in Hc as [n Hc].
    destruct (Forall2_lookup_l _ _ _ _ _ Hm Hc) as (c' & Hc' & Hkc & Hhc). apply list_elem_of_lookup_2 in Hc, Hc'.
    change (?k :: q) with ([k] ++ q). rewrite !app_assoc. destruct (child_facts a p i c Hpr Ha Hi Hc) as ([Hlt _] & _).
    apply (child_path a p i c Ha Hi) in Hc. apply (child_path b p j c' Hb Hj) in Hc'.
    apply (IH _ c c'); [lia|done| |done]. by rewrite Hkc.
  - rewrite !find_turn_below; [done|done| |done|].
    + destruct (find_turn b (p ++ [k])) eqn:Ek; [|done]. exfalso. apply Hk. rewrite Hkeys. apply Kb. by rewrite Ek.
    + destruct (find_turn a (p ++ [k])) eqn:Ek; [|done]. exfalso. apply Hk, Ka. by rewrite Ek.
Qed.
End Tree.
