(* ===== verification/TurnTreeProps.v ===== *)
(** * Properties of the tree of turns

    Histories of calls, the map they commit to, the addresses they hand out and
    what the content hash identifies. *)
From S2P Require Import Prelude Bytes Text Trie TurnAddress Hash256.
From S2P Require Import TurnTree TurnTreeInvariant TurnTreeRuns TurnTreeRebuild TurnTreeHash.
From stdpp Require Import sorting.
Open Scope Z_scope.

(** The calls that change a tree. *)
Inductive TurnCall (Rest : Type) :=
| CallApply (turn : Turn Rest)
| CallReply (uuid : bytes) (parent : option TurnId)
| CallAppend (uuid : bytes) (parent : TurnId)
| CallRebuild (turns : list (Turn Rest)).
Arguments CallApply {Rest} turn.
Arguments CallReply {Rest} uuid parent.
Arguments CallAppend {Rest} uuid parent.
Arguments CallRebuild {Rest} turns.

Section Histories.
Context {Rest : Type} (no_rest : Rest).
Context (serialize : Turn Rest -> option bytes) (mbedtls_sha256 : bytes -> option bytes).

Local Abbreviation E := (empty_turn_node no_rest).
Local Abbreviation tree_ok := (tree_ok no_rest serialize mbedtls_sha256).
Local Abbreviation apply := (TurnTree.apply no_rest serialize mbedtls_sha256).
Local Abbreviation apply_all := (TurnTree.apply_all no_rest serialize mbedtls_sha256).
Local Abbreviation rebuild := (TurnTree.rebuild no_rest serialize mbedtls_sha256).
Local Abbreviation find_turn := (find_turn no_rest).
Local Abbreviation reserved := (reserved no_rest).
Implicit Types (tree : TurnTree Rest) (turn : Turn Rest) (p q : TurnAddress) (call : TurnCall Rest).

(** A call: the tree, the status of a commit and the turn an allocation starts. *)
Definition turn_call tree call : TurnTree Rest * (option Status * option (Turn Rest)) :=
  match call with
  | CallApply turn => let '(tree, status) := apply tree turn in (tree, (Some status, None))
  | CallRebuild turns => let '(tree, status) := rebuild tree turns in (tree, (Some status, None))
  | CallReply uuid parent =>
      let '(tree, r) := reply_to no_rest tree uuid parent in
      (tree, (None, match r with Ok turn => Some turn | Err _ => None end))
  | CallAppend uuid parent =>
      let '(tree, r) := append_part no_rest tree uuid parent in
      (tree, (None, match r with Ok turn => Some turn | Err _ => None end))
  end.

Definition run_tree (calls : list (TurnCall Rest)) : TurnTree Rest :=
  fold_left (fun tree call => (turn_call tree call).1) calls (new_turn_tree no_rest).

(** ** The specification: a map from addresses to turns *)

Abbreviation TurnMap := (TurnAddress -> option (Turn Rest)).
Implicit Types m : TurnMap.

(** What a turn says of its place: its address and its parent's. *)
Definition topology turn : result Status (TurnAddress * option TurnAddress) :=
  match id turn with
  | None => Err INVALID_TURN
  | Some turn_id =>
      if negb (has_human_address turn_id) || negb (has_canvas_uuid turn_id) then Err INVALID_TURN
      else
        match parse (human_address turn_id) with
        | None => Err INVALID_TURN
        | Some address =>
            if negb (length (canvas_uuid turn_id) =? 16)%nat then Err INVALID_TURN
            else if uint32_max <? ordinal (default {| kind := NUMERIC; ordinal := 0 |} (last address)) then Err ADDRESS_EXHAUSTED
            else
              match parent turn with
              | None =>
                  match address with
                  | [{| kind := NUMERIC |}] => Ok (address, None)
                  | _ => Err INVALID_TURN
                  end
              | Some parent_id =>
                  if negb (has_canvas_uuid parent_id) || negb (has_human_address parent_id)
                     || negb (bool_decide (canvas_uuid parent_id = canvas_uuid turn_id))
                  then Err INVALID_TURN
                  else
                    match parse (human_address parent_id) with
                    | None => Err INVALID_TURN
                    | Some parent_address =>
                        if direct_child parent_address address then Ok (address, Some parent_address) else Err INVALID_TURN
                    end
              end
        end
  end.

Definition spec_apply m turn : TurnMap * Status :=
  match topology turn with
  | Err status => (m, status)
  | Ok (address, parent_address) =>
      if match parent_address with Some p => bool_decide (is_Some (m p)) | None => true end then
        if bool_decide (is_Some (m address)) then (m, ALREADY_EXISTS)
        else ((fun q => if decide (q = address) then Some turn else m q), OK)
      else (m, PARENT_NOT_FOUND)
  end.

Fixpoint spec_apply_all m turns : result Status TurnMap :=
  match turns with
  | [] => Ok m
  | turn :: rest =>
      match spec_apply m turn with
      | (m, OK) => spec_apply_all m rest
      | (_, status) => Err status
      end
  end.

(** A rebuild replaces the map by the turns, in address order, or changes nothing. *)
Definition spec_rebuild m turns : TurnMap * Status :=
  if forallb (fun turn => bool_decide (is_Some (turn_address turn))) turns then
    match spec_apply_all (fun _ => None) (merge_sort address_le turns) with
    | Ok m => (m, OK)
    | Err status => (m, status)
    end
  else (m, INVALID_TURN).

Definition spec_call m call : TurnMap * option Status :=
  match call with
  | CallApply turn => let '(m, status) := spec_apply m turn in (m, Some status)
  | CallRebuild turns => let '(m, status) := spec_rebuild m turns in (m, Some status)
  | CallReply _ _ | CallAppend _ _ => (m, None)
  end.

Definition spec_run (calls : list (TurnCall Rest)) : TurnMap :=
  fold_left (fun m call => (spec_call m call).1) calls (fun _ => None).

(** ** The tree follows the map *)

Lemma check_turn_topology tree turn :
  tree_ok tree ->
  match topology turn with
  | Err status => check_turn no_rest tree turn = Err status
  | Ok (address, pa) =>
      if match pa with Some p => bool_decide (is_Some (find_turn tree p)) | None => true end
      then exists i, check_turn no_rest tree turn = Ok (address, i)
      else check_turn no_rest tree turn = Err PARENT_NOT_FOUND
  end.
Proof.
  intros Hok. unfold topology, check_turn. destruct (id turn) as [turn_id|]; [|done]. guard_goal; [done|].
  destruct (parse (human_address turn_id)) as [a|]; [|done]. guard_goal; [done|]. guard_goal; [done|].
  destruct (parent turn) as [parent_id|].
  - guard_goal; [done|]. destruct (parse (human_address parent_id)) as [p|] eqn:Ep; [|done].
    destruct (direct_child p a); cbn [negb]; [|done].
    assert (Hne : p <> []) by (by apply address_round_trip in Ep as [[? _] _]).
    destruct (bool_decide (is_Some (find_turn tree p))) eqn:Hs; [apply bool_decide_eq_true in Hs|apply bool_decide_eq_false in Hs].
    + destruct (found_node no_rest serialize mbedtls_sha256 tree p Hok Hs) as (i & -> & ->). by eexists.
    + destruct (find_node E (trie_ tree) p) as [i|] eqn:Ei; [|done]. exfalso. apply Hs.
      apply (find_turn_is_Some no_rest serialize mbedtls_sha256); [done|by eauto].
  - destruct a as [|[[] o] [|]]; cbn; try done; by eexists.
Qed.

Lemma spec_apply_ext m m' turn :
  (forall q, m q = m' q) ->
  (forall q, (spec_apply m turn).1 q = (spec_apply m' turn).1 q) /\ (spec_apply m turn).2 = (spec_apply m' turn).2.
Proof.
  intros Hm. unfold spec_apply. destruct (topology turn) as [[a pa]|]; [|done].
  assert (match pa with Some p => bool_decide (is_Some (m p)) | None => true end =
    match pa with Some p => bool_decide (is_Some (m' p)) | None => true end) as ->.
  { destruct pa; [|done]. by rewrite Hm. }
  guard_goal; [|done]. rewrite Hm. guard_goal; [done|]. split; [|done]. intros q. cbn. by rewrite Hm.
Qed.

Lemma apply_refines tree turn :
  tree_ok tree ->
  tree_ok (apply tree turn).1 /\ (apply tree turn).2 = (spec_apply (find_turn tree) turn).2 /\
  forall q, find_turn (apply tree turn).1 q = (spec_apply (find_turn tree) turn).1 q.
Proof.
  intros Hok. pose proof (apply_ok no_rest serialize mbedtls_sha256 tree turn Hok) as Ha.
  pose proof (check_turn_topology tree turn Hok) as Hc. unfold spec_apply.
  assert (Herr : forall status, check_turn no_rest tree turn = Err status ->
    apply tree turn = (tree, status)) by (intros status Hs; unfold TurnTree.apply; by rewrite Hs).
  destruct (topology turn) as [[a pa]|status]; [|by rewrite (Herr _ Hc)].
  destruct (match pa with Some p => bool_decide (is_Some (find_turn tree p)) | None => true end);
    [|by rewrite (Herr _ Hc)].
  destruct Hc as [i Hc]. clear Herr. destruct (apply tree turn) as [tree' status]. cbn [fst snd] in *.
  destruct (bool_decide (is_Some (find_turn tree a))) eqn:Hs; [apply bool_decide_eq_true in Hs|apply bool_decide_eq_false in Hs].
  - destruct status; try (destruct Ha as [_ Ha]; by rewrite Hc in Ha).
    + destruct Ha as (_ & q & j & Hq & _ & Hnone & _). rewrite Hc in Hq. injection Hq as <- <-. rewrite Hnone in Hs. by destruct Hs.
    + destruct Ha as [-> _]. done.
  - destruct status; try (destruct Ha as [_ Ha]; by rewrite Hc in Ha).
    + destruct Ha as (Hok' & q & j & Hq & _ & _ & _ & _ & Hf). rewrite Hc in Hq. injection Hq as <- <-. done.
    + destruct Ha as (_ & q & j & Hq & Hsome). rewrite Hc in Hq. by injection Hq as <- <-.
Qed.

Lemma spec_apply_all_ext turns m m' :
  (forall q, m q = m' q) ->
  match spec_apply_all m turns, spec_apply_all m' turns with
  | Ok r, Ok r' => forall q, r q = r' q
  | Err s, Err s' => s = s'
  | _, _ => False
  end.
Proof.
  revert m m'. induction turns as [|turn turns IH]; intros m m' Hm; cbn [spec_apply_all]; [done|].
  destruct (spec_apply_ext m m' turn Hm) as [H1 H2].
  destruct (spec_apply m turn) as [r s], (spec_apply m' turn) as [r' s']. cbn in H1, H2. subst s'.
  by destruct s; [apply IH|..].
Qed.

Lemma apply_all_refines turns tree :
  tree_ok tree ->
  match apply_all tree turns, spec_apply_all (find_turn tree) turns with
  | Ok tree', Ok m => forall q, find_turn tree' q = m q
  | Err s, Err s' => s = s'
  | _, _ => False
  end.
Proof.
  revert tree. induction turns as [|turn turns IH]; intros tree Hok; cbn [TurnTree.apply_all spec_apply_all]; [done|].
  destruct (apply_refines tree turn Hok) as (Hok' & Hs & Hf).
  destruct (apply tree turn) as [t s], (spec_apply (find_turn tree) turn) as [m s']. cbn in *. subst s'. destruct s; try done.
  pose proof (IH t Hok') as H1. pose proof (spec_apply_all_ext turns _ _ Hf) as H2.
  destruct (apply_all t turns), (spec_apply_all (find_turn t) turns), (spec_apply_all m turns); try done; try congruence.
Qed.

Lemma find_new_tree q : find_turn (new_turn_tree no_rest) q = None.
Proof. by destruct q. Qed.

Lemma rebuild_refines tree turns :
  tree_ok tree ->
  tree_ok (rebuild tree turns).1 /\ (rebuild tree turns).2 = (spec_rebuild (find_turn tree) turns).2 /\
  forall q, find_turn (rebuild tree turns).1 q = (spec_rebuild (find_turn tree) turns).1 q.
Proof.
  intros Hok. pose proof (rebuild_ok no_rest serialize mbedtls_sha256 tree turns Hok) as Hr.
  pose proof (apply_all_refines (merge_sort address_le turns) _ (new_turn_tree_ok no_rest serialize mbedtls_sha256)) as Ha.
  pose proof (spec_apply_all_ext (merge_sort address_le turns) _ _ find_new_tree) as He.
  unfold TurnTree.rebuild, spec_rebuild, rebuild_sorted in *.
  destruct (forallb _ turns); [|done].
  destruct (apply_all (new_turn_tree no_rest) (merge_sort address_le turns)) as [t|s];
    destruct (spec_apply_all (find_turn (new_turn_tree no_rest)) (merge_sort address_le turns)) as [m1|s1];
    destruct (spec_apply_all (fun _ => None) (merge_sort address_le turns)) as [m2|s2]; try done; cbn [fst snd].
  - destruct Hr as (rebuilt & [= <-] & (Hok' & Hf & _) & _). split_and!; [done..|]. intros q. by rewrite Hf, Ha.
  - split_and!; [done|congruence|done].
Qed.

Lemma with_call_ok tree call :
  tree_ok tree -> tree_ok (turn_call tree call).1 /\ (turn_call tree call).2.1 = (spec_call (find_turn tree) call).2 /\
  forall q, find_turn (turn_call tree call).1 q = (spec_call (find_turn tree) call).1 q.
Proof.
  intros Hok. destruct call as [turn|uuid parent|uuid parent|turns]; cbn [turn_call spec_call].
  - generalize (apply_refines tree turn Hok). destruct (apply tree turn), (spec_apply (find_turn tree) turn).
    cbn. by intros (? & -> & ?).
  - generalize (allocate_child_ok no_rest serialize mbedtls_sha256 tree uuid parent NUMERIC Hok). unfold reply_to.
    destruct (allocate_child no_rest tree uuid parent NUMERIC). by intros (? & ? & _).
  - generalize (allocate_child_ok no_rest serialize mbedtls_sha256 tree uuid (Some parent) ALPHABETIC Hok). unfold append_part.
    destruct (allocate_child no_rest tree uuid (Some parent) ALPHABETIC). by intros (? & ? & _).
  - generalize (rebuild_refines tree turns Hok). destruct (rebuild tree turns), (spec_rebuild (find_turn tree) turns).
    cbn. by intros (? & -> & ?).
Qed.

Lemma run_tree_snoc calls call : run_tree (calls ++ [call]) = (turn_call (run_tree calls) call).1.
Proof. unfold run_tree. by rewrite fold_left_app. Qed.

Lemma run_tree_ok calls : tree_ok (run_tree calls).
Proof.
  induction calls as [|call calls IH] using rev_ind; [apply new_turn_tree_ok|]. rewrite run_tree_snoc. by apply with_call_ok.
Qed.

Lemma spec_call_ext m m' call :
  (forall q, m q = m' q) ->
  (forall q, (spec_call m call).1 q = (spec_call m' call).1 q) /\ (spec_call m call).2 = (spec_call m' call).2.
Proof.
  intros Hm. destruct call as [turn|uuid parent|uuid parent|turns]; cbn [spec_call]; [|done|done|].
  - pose proof (spec_apply_ext m m' turn Hm) as [H1 H2]. destruct (spec_apply m turn), (spec_apply m' turn). cbn in *. by subst.
  - unfold spec_rebuild. destruct (forallb _ turns); [|done]. by destruct (spec_apply_all _ _).
Qed.

Lemma run_tree_spec calls q : find_turn (run_tree calls) q = spec_run calls q.
Proof.
  revert q. induction calls as [|call calls IH] using rev_ind; intros q; [apply find_new_tree|].
  rewrite run_tree_snoc. unfold spec_run. rewrite fold_left_app. cbn [fold_left].
  destruct (with_call_ok (run_tree calls) call (run_tree_ok calls)) as (_ & _ & ->). by apply spec_call_ext.
Qed.

(** ** Sizes *)

Lemma size_counts tree l :
  tree_ok tree -> NoDup l -> (forall q, q ∈ l <-> is_Some (find_turn tree q)) -> TurnTree.size tree = length l.
Proof.
  intros Hok Hnd Hl. unfold TurnTree.size. pose proof (ok_wf _ _ _ _ Hok) as Hw.
  assert (Hfound : forall q, q ∈ l -> exists i, find_node E (trie_ tree) q = Some i /\ (0 < i < length (trie_ tree))%nat).
  { intros q Hq. apply Hl, (find_turn_is_Some no_rest serialize mbedtls_sha256) in Hq as [Hne [i Hi]]; [|done]. exists i. split; [done|].
    by destruct (find_node_pos no_rest serialize mbedtls_sha256 _ _ _ Hok Hi) as [[? _]|[_ ?]]. }
  set (index := fun q => default 0%nat (find_node E (trie_ tree) q)).
  assert (Hp : index <$> l ≡ₚ seq 1 (length (trie_ tree) - 1)).
  { apply NoDup_Permutation; [apply (NoDup_fmap_2_strong index); [|done]|apply NoDup_seq|].
    - intros q r Hq Hr E'. destruct (Hfound q Hq) as (i & Hi & _), (Hfound r Hr) as (j & Hj & _).
      unfold index in E'. rewrite Hi, Hj in E'. cbn in E'. subst j. by eapply find_node_inj.
    - intros i. rewrite list_elem_of_fmap, elem_of_seq. split.
      + intros (q & -> & Hq). destruct (Hfound q Hq) as (i & Hi & Hb). unfold index. rewrite Hi. cbn. lia.
      + intros Hi. destruct (ok_reached _ _ _ _ Hok i ltac:(lia)) as [q Hq]. exists q. split; [unfold index; by rewrite Hq|].
        apply Hl, (find_turn_is_Some no_rest serialize mbedtls_sha256); [done|]. split; [|by eauto].
        intros ->. cbn in Hq. injection Hq as <-. unfold kRootNode in Hi. lia. }
  apply Permutation_length in Hp. rewrite length_fmap, length_seq in Hp. lia.
Qed.

(** ** Addresses handed out *)

(** The addresses of the turns that allocations start, in order. *)
Fixpoint handed tree (calls : list (TurnCall Rest)) : list (option TurnAddress) :=
  match calls with
  | [] => []
  | call :: rest =>
      (match (turn_call tree call).2.2 with Some turn => [turn_address turn] | None => [] end)
      ++ handed (turn_call tree call).1 rest
  end.

(** Every committed turn is still committed after each call. *)
Fixpoint keeping tree (calls : list (TurnCall Rest)) : bool :=
  match calls with
  | [] => true
  | call :: rest =>
      let tree' := (turn_call tree call).1 in
      forallb (fun q => bool_decide (is_Some (find_turn tree' q))) (completions E (trie_ tree) []) && keeping tree' rest
  end.

(** An address is spent when its parent is committed and has it reserved. *)
Definition spent tree (a : option TurnAddress) : Prop :=
  exists p k, a = Some (p ++ [k]) /\ (p = [] \/ is_Some (find_turn tree p)) /\ reserved tree p k.

Lemma kept tree tree' q :
  tree_ok tree -> forallb (fun q => bool_decide (is_Some (find_turn tree' q))) (completions E (trie_ tree) []) = true ->
  is_Some (find_turn tree q) -> is_Some (find_turn tree' q).
Proof.
  intros Hok Hall Hs. rewrite forallb_forall in Hall. apply (bool_decide_eq_true (is_Some (find_turn tree' q))), Hall, list_elem_of_In.
  apply (completions_of_wf E (trie_ tree) [] (ok_wf _ _ _ _ Hok)). split; [by exists q|]. unfold contains.
  by destruct (found_node no_rest serialize mbedtls_sha256 tree q Hok Hs) as (i & -> & ->).
Qed.

(** A call that keeps the committed turns keeps the reservations below them. *)
Lemma call_reserved tree call p k :
  tree_ok tree -> (p = [] \/ is_Some (find_turn tree p) /\ is_Some (find_turn (turn_call tree call).1 p)) ->
  reserved tree p k -> reserved (turn_call tree call).1 p k.
Proof.
  intros Hok Hp Hr. destruct call as [turn|uuid parent|uuid parent|turns]; cbn [turn_call] in *.
  - generalize (apply_ok no_rest serialize mbedtls_sha256 tree turn Hok). destruct (apply tree turn) as [tree' []];
      try by intros [-> _]. intros (_ & q & i & Hc & _ & Hn & _ & -> & _). cbn.
    destruct (check_turn_spec no_rest serialize mbedtls_sha256 _ _ _ _ Hok Hc) as (_ & p' & k' & -> & Hi & Hk).
    apply (commit_reserved no_rest serialize mbedtls_sha256); [done..| |done|done].
    destruct (find_node E (trie_ tree) (p' ++ [k'])) as [j|] eqn:Ej; [|done]. exfalso.
    assert (Hs : is_Some (find_turn tree (p' ++ [k']))); [|rewrite Hn in Hs; by destruct Hs].
    apply (find_turn_is_Some no_rest serialize mbedtls_sha256); [done|]. split; [by destruct p'|by eauto].
  - generalize (allocate_child_ok no_rest serialize mbedtls_sha256 tree uuid parent NUMERIC Hok). unfold reply_to.
    destruct (allocate_child no_rest tree uuid parent NUMERIC). intros (_ & _ & _ & _ & Hm & _). by apply Hm.
  - generalize (allocate_child_ok no_rest serialize mbedtls_sha256 tree uuid (Some parent) ALPHABETIC Hok). unfold append_part.
    destruct (allocate_child no_rest tree uuid (Some parent) ALPHABETIC). intros (_ & _ & _ & _ & Hm & _). by apply Hm.
  - revert Hp. generalize (rebuild_ok no_rest serialize mbedtls_sha256 tree turns Hok). destruct (rebuild tree turns) as [tree' []];
      try by intros ->. intros (_ & _ & _ & _ & _ & _ & Hm) Hp. by apply Hm.
Qed.

(** A started turn names its place. *)
Lemma started_topology tree uuid parent_id x i pa o :
  tree_ok tree -> locate_parent no_rest tree uuid parent_id x = Ok (i, pa) -> 1 <= o <= uint32_max ->
  let q := default [] pa ++ [{| kind := x; ordinal := o |}] in
  turn_address (started_turn no_rest uuid parent_id q) = Some q /\ topology (started_turn no_rest uuid parent_id q) = Ok (q, pa).
Proof.
  intros Hok Hl Ho q. apply (locate_parent_spec no_rest serialize mbedtls_sha256) in Hl as (Hu & _ & Hpa); [|done].
  assert (Hv : valid_address q).
  { split; [by destruct (default [] pa) eqn:Ed; unfold q; rewrite ?Ed|]. apply Forall_app. split.
    - destruct pa as [a|]; [|constructor]. destruct Hpa as (pid & _ & _ & Ha & _).
      by apply address_round_trip in Ha as [[_ ?] _].
    - constructor; [|constructor]. unfold valid_component, uint32_max in *. cbn. lia. }
  set (tid := {| canvas_uuid_field := Some uuid; human_address_field := Some (address_string q) |}).
  assert (Hh : has_human_address tid = true) by (by apply bool_decide_eq_true_2).
  assert (Hc : has_canvas_uuid tid = true) by (by apply bool_decide_eq_true_2).
  assert (Hparse : parse (human_address tid) = Some q) by exact (proj1 address_round_trip q Hv).
  assert (Hcu : canvas_uuid tid = uuid) by done.
  assert (Hlast : last q = Some {| kind := x; ordinal := o |}) by apply last_snoc.
  change (started_turn no_rest uuid parent_id q) with {| id := Some tid; parent := parent_id; rest := no_rest |}.
  clearbody tid. unfold turn_address, topology. cbn [id parent mbind option_bind]. split; [done|].
  assert (Hb : (uint32_max <? ordinal (default {| kind := NUMERIC; ordinal := 0 |} (last q))) = false)
    by (rewrite Hlast; apply Z.ltb_ge; cbn; lia).
  rewrite Hh, Hc, Hparse, Hcu, Hu, Hb. cbn [negb orb Nat.eqb]. destruct pa as [a|].
  - destruct Hpa as (pid & -> & Hcp & Ha & _ & Hhc & Hhh). rewrite Hhc, Hhh, Hcp, Ha. cbn [negb orb].
    rewrite bool_decide_eq_true_2 by done. cbn [negb]. unfold direct_child. rewrite Hlast.
    unfold q. cbn [default from_option]. rewrite length_app, Nat.eqb_refl. cbn [negb kind ordinal].
    by destruct x; rewrite bool_decide_eq_true_2.
  - destruct Hpa as [-> ->]. done.
Qed.

(** What an allocation starts: a new address below a committed parent. *)
Lemma allocation_starts tree uuid parent x turn tree' :
  tree_ok tree -> allocate_child no_rest tree uuid parent x = (tree', Ok turn) ->
  exists pa o, let k := {| kind := x; ordinal := o |} in let q := default [] pa ++ [k] in
    turn_address turn = Some q /\ topology turn = Ok (q, pa) /\
    match pa with None => True | Some a => is_Some (find_turn tree a) end /\
    ~ reserved tree (default [] pa) k /\ reserved tree' (default [] pa) k /\ forall r, find_turn tree' r = find_turn tree r.
Proof.
  intros Hok Ha. pose proof (allocate_child_ok no_rest serialize mbedtls_sha256 tree uuid parent x Hok) as H. rewrite Ha in H.
  destruct H as (_ & Hf & _ & _ & _ & pa & o & Ho & -> & [i Hl] & Hpa & Hfree & Hres). exists pa, o. cbv zeta.
  destruct (started_topology tree uuid parent x i pa o Hok Hl Ho) as [H1 H2]. split_and!; try done. by destruct pa.
Qed.

(** The allocation behind a call that starts a turn. *)
Lemma call_starts tree call turn :
  (turn_call tree call).2.2 = Some turn ->
  exists uuid parent x, allocate_child no_rest tree uuid parent x = ((turn_call tree call).1, Ok turn).
Proof.
  destruct call as [t|uuid parent|uuid parent|turns]; cbn [turn_call]; unfold reply_to, append_part.
  - by destruct (apply tree t).
  - destruct (allocate_child no_rest tree uuid parent NUMERIC) as [t [x|]] eqn:Ea; [|done]. intros [= ->]. by eexists _, _, _.
  - destruct (allocate_child no_rest tree uuid (Some parent) ALPHABETIC) as [t [x|]] eqn:Ea; [|done]. intros [= ->]. by eexists _, _, _.
  - by destruct (rebuild tree turns).
Qed.

(** Spent addresses stay spent, and include those handed out. *)
Lemma handed_spent calls tree a :
  tree_ok tree -> keeping tree calls = true ->
  (spent tree a \/ a ∈ handed tree calls) -> spent (fold_left (fun tree call => (turn_call tree call).1) calls tree) a.
Proof.
  revert tree. induction calls as [|call calls IH]; intros tree Hok; cbn [keeping handed fold_left].
  { intros _ [?|?%elem_of_nil]; done. }
  intros [Hall Hk]%andb_true_iff Ha. destruct (with_call_ok tree call Hok) as (Hok' & _ & _).
  apply IH; [done..|]. rewrite elem_of_app in Ha. destruct Ha as [(p & k & -> & Hp & Hr)|[Ha|Ha]]; [left|left|by right].
  - exists p, k. assert (Hp' : p = [] \/ is_Some (find_turn tree p) /\ is_Some (find_turn (turn_call tree call).1 p)).
    { destruct Hp as [->|Hp]; [by left|right]. split; [done|]. by apply (kept tree). }
    split_and!; [done|by destruct Hp' as [?|[_ ?]]; [left|right]|by apply call_reserved].
  - destruct (turn_call tree call).2.2 as [turn|] eqn:Et; [|by apply elem_of_nil in Ha]. apply list_elem_of_singleton in Ha as ->.
    destruct (call_starts tree call turn Et) as (uuid & parent & x & Ec).
    destruct (allocation_starts _ _ _ _ _ _ Hok Ec) as (pa & o & Hta & _ & Hpa & _ & Hres & Hf).
    exists (default [] pa), {| kind := x; ordinal := o |}. split_and!; [done| |done].
    destruct pa as [a|]; [right; cbn; by rewrite Hf|by left].
Qed.

(** ** Properties *)

(** C20. The tree of turns refines a map from addresses to turns: whatever calls
    came before, every commit and every rebuild, in any state, returns the status
    of the map and leaves the turns of the map; a turn is found at its own
    address, below its committed parent, and the size counts the turns. *)
Theorem turn_tree_refines_map (calls : list (TurnCall Rest)) call :
  let tree := run_tree calls in
  (turn_call tree call).2.1 = (spec_call (spec_run calls) call).2 /\
  (forall q, find_turn tree q = spec_run calls q) /\
  (forall q turn, find_turn tree q = Some turn -> turn_address turn = Some q) /\
  (forall p k, p <> [] -> is_Some (find_turn tree (p ++ [k])) -> is_Some (find_turn tree p)) /\
  forall l, NoDup l -> (forall q, q ∈ l <-> is_Some (find_turn tree q)) -> TurnTree.size tree = length l.
Proof.
  intros tree. pose proof (run_tree_ok calls) as Hok. fold tree in Hok.
  assert (Hs : forall q, find_turn tree q = spec_run calls q) by apply run_tree_spec. split_and!; [|done|..].
  - destruct (with_call_ok tree call Hok) as (_ & -> & _). by apply spec_call_ext.
  - intros q turn. by apply (find_turn_address no_rest serialize mbedtls_sha256).
  - intros p k. by apply (find_turn_parent no_rest serialize mbedtls_sha256).
  - intros l. by apply size_counts.
Qed.

(** C21. An address handed out by an allocation is new: no allocation handed it out
    before and no turn was committed at it, even when other turns were committed
    at addresses never allocated, and across rebuilds, as long as no rebuild
    dropped a committed turn.  Its parent is committed, and the started turn can
    be committed as it is. *)
Theorem turn_addresses_never_reused (calls : list (TurnCall Rest)) call turn :
  keeping (new_turn_tree no_rest) calls = true ->
  (turn_call (run_tree calls) call).2.2 = Some turn ->
  exists q, turn_address turn = Some q /\
    find_turn (run_tree calls) q = None /\ Some q ∉ handed (new_turn_tree no_rest) calls /\
    (length q = 1%nat \/ is_Some (find_turn (run_tree calls) (removelast q))) /\
    (apply (turn_call (run_tree calls) call).1 turn).2 = OK.
Proof.
  intros Hkeep Hstart. pose proof (run_tree_ok calls) as Hok. set (tree := run_tree calls) in *.
  destruct (call_starts tree call turn Hstart) as (uuid & parent & x & Ec).
  destruct (with_call_ok tree call Hok) as (Hok' & _).
  destruct (allocation_starts _ _ _ _ _ _ Hok Ec) as (pa & o & Hta & Htop & Hpa & Hfree & _ & Hf).
  set (k := {| kind := x; ordinal := o |}) in *. exists (default [] pa ++ [k]).
  assert (Hnone : find_turn tree (default [] pa ++ [k]) = None).
  { destruct (find_turn tree (default [] pa ++ [k])) eqn:Eq; [exfalso|done]. apply Hfree.
    apply (committed_reserved no_rest serialize mbedtls_sha256); [done|]. by rewrite Eq. }
  split_and!; [done..| | |].
  - intros Hin. destruct (handed_spent calls (new_turn_tree no_rest) _ (new_turn_tree_ok no_rest serialize mbedtls_sha256) Hkeep (or_intror Hin))
      as (p & k' & [= [Hp Hk']%app_inj_tail] & _ & Hr). subst p k'. by apply Hfree.
  - rewrite removelast_last. destruct pa; [by right|by left].
  - destruct (apply_refines _ turn Hok') as (_ & -> & _). unfold spec_apply. rewrite Htop, !Hf, Hnone.
    destruct pa as [a|]; [rewrite Hf, bool_decide_eq_true_2 by done|]; by rewrite bool_decide_eq_false_2 by (by intros [? ?]).
Qed.

(** C22. The root hash identifies the committed turns.  Trees with the same turns have
    the same root hash, whatever commits, allocations and rebuilds made them, so
    rehashing one path is as good as rehashing the whole tree; and two trees with
    turns and equal root hashes hold the same turns at the same addresses, unless
    the digest collides on the contents of their nodes. *)
Theorem turn_root_hash_exact (calls calls' : list (TurnCall Rest)) :
  let a := run_tree calls in
  let b := run_tree calls' in
  ((forall q, find_turn a q = find_turn b q) -> root_hash_ a = root_hash_ b) /\
  (provider_ok mbedtls_sha256 -> serialize_determines serialize -> serialize_tagged serialize ->
   serialisable no_rest serialize a -> serialisable no_rest serialize b -> collision_free no_rest serialize mbedtls_sha256 a b ->
   TurnTree.size a <> 0%nat -> TurnTree.size b <> 0%nat -> root_hash_ a = root_hash_ b ->
   forall q, find_turn a q = find_turn b q).
Proof.
  intros a b. pose proof (run_tree_ok calls : tree_ok a) as Ha. pose proof (run_tree_ok calls' : tree_ok b) as Hb.
  split; [by apply (same_turns_same_root no_rest serialize mbedtls_sha256)|]. unfold TurnTree.size.
  intros Hp Hd Ht Hsa Hsb Hc Hna Hnb Hroot. rewrite (ok_root_hash _ _ _ _ Ha), (ok_root_hash _ _ _ _ Hb) in Hroot.
  apply (same_hash_same_turns no_rest serialize mbedtls_sha256 a b Hp Hd Ht Ha Hb ltac:(lia) ltac:(lia) Hsa Hsb Hc
    (length (trie_ a)) [] kRootNode kRootNode); [lia|done|done|].
  rewrite !(node_hash no_rest serialize mbedtls_sha256) in Hroot |- * by (done || unfold kRootNode; lia). by f_equal.
Qed.
End Histories.

(** ** Concrete trees *)

(** A self-delimiting serialisation of turns without other fields. *)
Definition toy_string (s : bytes) : bytes := flat_map (fun byte => [3; byte]) s ++ [2].

Definition toy_optional {A} (f : A -> bytes) (o : option A) : bytes :=
  match o with None => [2] | Some a => 3 :: f a end.

Definition toy_id (turn_id : TurnId) : bytes :=
  toy_optional toy_string (canvas_uuid_field turn_id) ++ toy_optional toy_string (human_address_field turn_id).

Definition toy_serialize (turn : Turn unit) : option bytes :=
  Some (toy_optional toy_id (id turn) ++ toy_optional toy_id (parent turn)).

(** A 32-byte digest of short contents. *)
Definition toy_digest (data : bytes) : option bytes :=
  Some (be_bytes 32 (fold_left (fun acc byte => acc * 263 + byte + 1) data 7
    * 0x9E3779B97F4A7C15F39CC0605CEDC8341082276BF3A27251F86C6A11D0C18E95)).

Lemma toy_digest_ok : provider_ok toy_digest.
Proof.
  intros data d. unfold toy_digest. set (value := fold_left _ _ _ * _). clearbody value. intros Hd.
  assert (d = be_bytes 32 value) as -> by congruence. split; [apply length_be_bytes|apply be_bytes_are_bytes].
Qed.

Definition prefix_code {A} (f : A -> bytes) : Prop := forall x y r s, f x ++ r = f y ++ s -> x = y /\ r = s.

Lemma toy_string_prefix : prefix_code toy_string.
Proof.
  intros x. unfold toy_string. induction x as [|b x IH]; intros [|c y] r s; cbn; try done.
  - by intros [= ->].
  - intros [= -> H]. by destruct (IH y r s H) as [-> ->].
Qed.

Lemma toy_optional_prefix {A} (f : A -> bytes) : prefix_code f -> prefix_code (toy_optional f).
Proof.
  intros Hf [x|] [y|] r s; cbn; try done; [|by intros [= ->]]. intros [= H]. by destruct (Hf x y r s H) as [-> ->].
Qed.

Lemma toy_id_prefix : prefix_code toy_id.
Proof.
  intros [c h] [c' h'] r s. unfold toy_id. cbn [canvas_uuid_field human_address_field]. rewrite <- !app_assoc.
  pose proof (toy_optional_prefix _ toy_string_prefix) as Hp. intros [-> H]%Hp. by apply Hp in H as [-> ->].
Qed.

Lemma toy_serialize_prefix x y s more : toy_serialize x = Some s -> toy_serialize y = Some (s ++ more) -> x = y /\ more = [].
Proof.
  unfold toy_serialize. destruct x as [i p []], y as [i' p' []]. cbn [id parent]. intros [= <-] [= H].
  rewrite <- app_assoc in H. pose proof (toy_optional_prefix _ toy_id_prefix) as Hp.
  apply Hp in H as [-> H]. rewrite <- (app_nil_r (toy_optional toy_id p')) in H. by apply Hp in H as [-> ->].
Qed.

Definition toy_uuid : bytes := replicate 16 1.
Definition toy_turn_id (address : string) : TurnId :=
  {| canvas_uuid_field := Some toy_uuid; human_address_field := Some (str address) |}.
Definition toy_turn (address : string) (parent : option string) : Turn unit :=
  {| id := Some (toy_turn_id address); parent := toy_turn_id <$> parent; rest := tt |}.

(** Turns 1, 1.a and 5, the last never allocated; a stale commit; a rebuild. *)
Definition toy_calls : list (TurnCall unit) :=
  [CallReply toy_uuid None; CallApply (toy_turn "1" None); CallAppend toy_uuid (toy_turn_id "1");
   CallApply (toy_turn "5" None); CallApply (toy_turn "1.a" (Some "1")); CallApply (toy_turn "7.a" (Some "7"));
   CallReply toy_uuid None; CallRebuild [toy_turn "5" None; toy_turn "1.a" (Some "1"); toy_turn "1" None]].

Definition toy_rebuild : list (TurnCall unit) :=
  [CallRebuild [toy_turn "1.a" (Some "1"); toy_turn "1" None; toy_turn "5" None]].

Local Abbreviation toy_run := (run_tree tt toy_serialize toy_digest).

Example toy_handed :
  handed tt toy_serialize toy_digest (new_turn_tree tt) (toy_calls ++ [CallReply toy_uuid None]) =
    map (fun text => parse (str text)) ["1"; "1.a"; "6"; "7"]%string.
Proof. vm_compute. reflexivity. Qed.

Lemma turn_tree_refines_map_witness : is_Some (find_turn tt (toy_run toy_calls) (root 1)).
Proof.
  destruct (turn_tree_refines_map tt toy_serialize toy_digest toy_calls (CallReply toy_uuid None)) as (_ & _ & _ & Hp & _).
  apply (Hp (root 1) {| kind := ALPHABETIC; ordinal := 1 |}); [done|]. vm_compute. by eexists.
Defined.

Lemma turn_addresses_never_reused_witness :
  exists q, parse (str "7") = Some q /\ find_turn tt (toy_run toy_calls) q = None.
Proof.
  destruct (turn_addresses_never_reused tt toy_serialize toy_digest toy_calls (CallReply toy_uuid None) (toy_turn "7" None))
    as (q & Hq & Hn & _); [vm_compute; reflexivity..|]. by exists q.
Defined.

(** The contents of the nodes of two trees, compared pairwise. *)
Definition no_collision (a b : TurnTree unit) : bool :=
  forallb (fun i => forallb (fun j =>
      match encoded_node tt toy_serialize (trie_ a) (hashes_ a) i, encoded_node tt toy_serialize (trie_ b) (hashes_ b) j with
      | Some x, Some y => negb (bool_decide (sha256 toy_digest x = sha256 toy_digest y)) || bool_decide (x = y)
      | _, _ => true
      end) (seq 0 (length (trie_ b)))) (seq 0 (length (trie_ a))).

Lemma no_collision_free a b : no_collision a b = true -> collision_free tt toy_serialize toy_digest a b.
Proof.
  unfold no_collision. intros Hall i j x y Hi Hj Hx Hy Heq. rewrite forallb_forall in Hall.
  specialize (Hall i ltac:(apply in_seq; lia)). rewrite forallb_forall in Hall. specialize (Hall j ltac:(apply in_seq; lia)).
  rewrite Hx, Hy, Heq in Hall. rewrite bool_decide_eq_true_2 in Hall by done. by apply bool_decide_eq_true in Hall.
Qed.

Lemma turn_root_hash_exact_witness :
  root_hash_ (toy_run toy_calls) = root_hash_ (toy_run toy_rebuild) /\
  find_turn tt (toy_run toy_calls) (root 5) = find_turn tt (toy_run toy_rebuild) (root 5).
Proof.
  split; [vm_compute; reflexivity|].
  destruct (turn_root_hash_exact tt toy_serialize toy_digest toy_calls toy_rebuild) as [_ H]. apply H.
  - apply toy_digest_ok.
  - intros x y s Hx Hy. apply (toy_serialize_prefix x y s []); [done|by rewrite app_nil_r].
  - intros x y s byte more Hx Hy. by destruct (toy_serialize_prefix x y s (byte :: more) Hx Hy).
  - by eexists.
  - by eexists.
  - apply no_collision_free. vm_compute. reflexivity.
  - by vm_compute.
  - by vm_compute.
  - vm_compute. reflexivity.
Defined.
