(* ===== verification/DependencyGraph.v ===== *)
(** * Directed acyclic topology (utils/execution_graph/dependency_graph.hpp)

    Node registration, dependency edges, validation by Kahn's layering and the
    layer cache, forward and reverse layers and snapshots. Each public call is
    one atomic step (the C++ holds [mutex_] throughout). *)
From S2P Require Import Prelude.
From stdpp Require Import sorting fin_sets.
From Stdlib Require Import Sorted.

Inductive Status :=
| OK
| INVALID_ARGUMENT
| DUPLICATE_NODE
| NODE_NOT_FOUND
| DUPLICATE_DEPENDENCY
| DEPENDENCY_CYCLE
| EXECUTION_IN_PROGRESS
| WORKER_SUBMISSION_FAILED.

#[global] Instance Status_eq_dec : EqDecision Status.
Proof. solve_decision. Defined.

Section Graph.
Context {N : Type} `{Countable N}.

Record DependencyGraphSnapshot := {
  snapshot_nodes : list N;
  snapshot_dependents : list (list nat);
  snapshot_dependency_counts : list Z;
}.

Record DependencyGraph := {
  nodes : list N;
  node_indices : gmap N nat;
  dependents : list (list nat);
  dependency_counts : list Z;
  edge_count : nat;
  topology_valid : bool;
  forward_layer_indices : list (list nat);
}.

Definition empty_graph : DependencyGraph :=
  {| nodes := []; node_indices := ∅; dependents := []; dependency_counts := [];
     edge_count := 0; topology_valid := false; forward_layer_indices := [] |}.

Definition add_node (node : N) (g : DependencyGraph) : Status * DependencyGraph :=
  if bool_decide (is_Some (node_indices g !! node)) then (DUPLICATE_NODE, g)
  else
    let index := length (nodes g) in
    (OK, {| nodes := nodes g ++ [node];
            node_indices := <[node := index]> (node_indices g);
            dependents := dependents g ++ [[]];
            dependency_counts := dependency_counts g ++ [0%Z];
            edge_count := edge_count g;
            topology_valid := false;
            forward_layer_indices := forward_layer_indices g |}).

(** [dependents_[index]] and [dependency_counts_[index]]; in range. *)
Definition outgoing (g : DependencyGraph) (index : nat) : list nat :=
  default [] (dependents g !! index).
Definition count_at (counts : list Z) (index : nat) : Z := default 0%Z (counts !! index).

Definition add_dependency (prerequisite dependent : N) (g : DependencyGraph)
  : Status * DependencyGraph :=
  match node_indices g !! prerequisite, node_indices g !! dependent with
  | Some from, Some to =>
      if bool_decide (to ∈ outgoing g from) then (DUPLICATE_DEPENDENCY, g)
      else
        (OK, {| nodes := nodes g; node_indices := node_indices g;
                dependents := <[from := outgoing g from ++ [to]]> (dependents g);
                dependency_counts :=
                  <[to := (count_at (dependency_counts g) to + 1)%Z]> (dependency_counts g);
                edge_count := S (edge_count g);
                topology_valid := false;
                forward_layer_indices := forward_layer_indices g |})
  | _, _ => (NODE_NOT_FOUND, g)
  end.

(** The innermost loop body of validation: one edge leaves the graph. *)
Definition release (state : list Z * list nat) (dependent : nat) : list Z * list nat :=
  let '(remaining, next) := state in
  let left_over := (count_at remaining dependent - 1)%Z in
  (<[dependent := left_over]> remaining,
   if (left_over =? 0)%Z then next ++ [dependent] else next).

(** One iteration of the [while]: release every edge of the ready layer. *)
Definition release_layer (g : DependencyGraph) (ready : list nat) (remaining : list Z)
  : list Z * list nat :=
  fold_left (fun state index => fold_left release (outgoing g index) state) ready (remaining, []).

(** The [while (!ready.empty())] loop; [fuel] bounds the iterations. *)
Fixpoint layer_loop (fuel : nat) (g : DependencyGraph) (ready : list nat) (remaining : list Z)
    (layers : list (list nat)) (visited : nat) : list (list nat) * nat * list nat :=
  match fuel with
  | O => (layers, visited, ready)
  | S fuel =>
      match ready with
      | [] => (layers, visited, ready)
      | _ =>
          let ready := merge_sort le ready in
          let layers := layers ++ [ready] in
          let visited := (visited + length ready)%nat in
          let '(remaining, next) := release_layer g ready remaining in
          layer_loop fuel g next remaining layers visited
      end
  end.

Definition initial_ready (g : DependencyGraph) : list nat :=
  filter (fun index => count_at (dependency_counts g) index = 0%Z) (seq 0 (length (nodes g))).

(** Every iteration visits a new node, so [S (length nodes)] iterations are
    enough. *)
Definition layering (g : DependencyGraph) : list (list nat) * nat * list nat :=
  layer_loop (S (length (nodes g))) g (initial_ready g) (dependency_counts g) [] 0.

Definition with_cache (g : DependencyGraph) (valid : bool) (layers : list (list nat))
  : DependencyGraph :=
  {| nodes := nodes g; node_indices := node_indices g; dependents := dependents g;
     dependency_counts := dependency_counts g; edge_count := edge_count g;
     topology_valid := valid; forward_layer_indices := layers |}.

Definition validate_locked (g : DependencyGraph) : Status * DependencyGraph :=
  if topology_valid g then (OK, g)
  else
    let '(layers, visited, _) := layering g in
    if negb (visited =? length (nodes g))
    then (DEPENDENCY_CYCLE, with_cache g (topology_valid g) [])
    else (OK, with_cache g true layers).

Definition empty_snapshot : DependencyGraphSnapshot :=
  {| snapshot_nodes := []; snapshot_dependents := []; snapshot_dependency_counts := [] |}.

Definition snapshot (g : DependencyGraph) : Status * DependencyGraphSnapshot * DependencyGraph :=
  let '(validation, g) := validate_locked g in
  if bool_decide (validation = OK)
  then (OK, {| snapshot_nodes := nodes g; snapshot_dependents := dependents g;
               snapshot_dependency_counts := dependency_counts g |}, g)
  else (validation, empty_snapshot, g).

(** [nodes_[index]] for every index of a layer. *)
Definition layer_nodes (g : DependencyGraph) (indexes : list nat) : list N :=
  omap (fun index => nodes g !! index) indexes.

Definition forward_layers (g : DependencyGraph) : Status * list (list N) * DependencyGraph :=
  let '(validation, g) := validate_locked g in
  if bool_decide (validation = OK)
  then (OK, map (layer_nodes g) (forward_layer_indices g), g)
  else (validation, [], g).

Definition reverse_layers (g : DependencyGraph) : Status * list (list N) * DependencyGraph :=
  let '(status, forward, g) := forward_layers g in
  if bool_decide (status = OK) then (OK, reverse forward, g) else (status, [], g).

Definition graph_size (g : DependencyGraph) : nat := length (nodes g).
Definition dependency_count (g : DependencyGraph) : nat := edge_count g.

(** ** Specification *)

(** Dense edges, and edges between registered nodes. *)
Definition edge (g : DependencyGraph) (i j : nat) : Prop := j ∈ outgoing g i.
Definition depends (g : DependencyGraph) (x y : N) : Prop :=
  exists i j, nodes g !! i = Some x /\ nodes g !! j = Some y /\ edge g i j.

#[export] Instance edge_dec g i j : Decision (edge g i j).
Proof. unfold edge. apply _. Defined.

(** The prerequisites of a node. *)
Definition preds (g : DependencyGraph) (j : nat) : gset nat :=
  list_to_set (filter (fun i => edge g i j) (seq 0 (length (nodes g)))).

(** The consistency of the representation; the cached layers are those a
    fresh validation computes. *)
Record graph_wf (g : DependencyGraph) : Prop := {
  wf_dependents_length : length (dependents g) = length (nodes g);
  wf_counts_length : length (dependency_counts g) = length (nodes g);
  wf_indices : forall x i, node_indices g !! x = Some i <-> nodes g !! i = Some x;
  wf_targets : forall i j, edge g i j -> (j < length (nodes g))%nat;
  wf_outgoing_nodup : forall i, NoDup (outgoing g i);
  wf_counts : forall j, (j < length (nodes g))%nat ->
    count_at (dependency_counts g) j = Z.of_nat (size (preds g j));
  wf_edges : edge_count g = sum_list_with length (dependents g);
  wf_cache : topology_valid g = true ->
    fst (layering g) = (forward_layer_indices g, length (nodes g));
}.

(** ** Releasing a layer *)

Lemma count_at_insert counts i c j :
  (i < length counts)%nat ->
  count_at (<[i := c]> counts) j = if decide (j = i) then c else count_at counts j.
Proof.
  intros Hi. unfold count_at. case_decide as Hd.
  - subst. by rewrite list_lookup_insert_eq.
  - by rewrite list_lookup_insert_ne by congruence.
Qed.

(** How often a node is released by a list of edge targets. *)
Definition releases (l : list nat) (j : nat) : nat := count_occ Nat.eq_dec l j.

Lemma release_fold_spec n l : forall remaining,
  length remaining = n -> Forall (fun j => (j < n)%nat) l ->
  (forall j, (Z.of_nat (releases l j) <= count_at remaining j)%Z) ->
  let '(remaining', next) := fold_left release l (remaining, []) in
  length remaining' = n /\
  (forall j, count_at remaining' j = (count_at remaining j - Z.of_nat (releases l j))%Z) /\
  NoDup next /\
  (forall j, j ∈ next <-> (0 < releases l j)%nat /\ count_at remaining' j = 0%Z).
Proof.
  unfold releases. induction l as [|d l IH] using rev_ind; intros remaining Hn Hb Hc.
  { simpl. split_and!; [done|intros; lia|constructor|]. intros j. rewrite elem_of_nil. lia. }
  apply Forall_app in Hb as [Hb Hd]. rewrite Forall_singleton in Hd.
  assert (Hocc : forall j, count_occ Nat.eq_dec (l ++ [d]) j =
    (count_occ Nat.eq_dec l j + if decide (j = d) then 1 else 0)%nat).
  { intros j. rewrite count_occ_app. simpl.
    destruct (Nat.eq_dec d j), (decide (j = d)); lia. }
  assert (Hc' : forall j, (Z.of_nat (count_occ Nat.eq_dec l j) <= count_at remaining j)%Z)
    by (intros j; specialize (Hc j); rewrite Hocc in Hc; lia).
  specialize (IH remaining Hn Hb Hc'). rewrite fold_left_app.
  destruct (fold_left release l (remaining, [])) as [r next]. cbn [fold_left release].
  destruct IH as (Hlen & Hr & Hnd & Hnext).
  assert (Hd1 : (count_at r d - 1 = count_at remaining d - Z.of_nat (count_occ Nat.eq_dec (l ++ [d]) d))%Z)
    by (rewrite Hr, Hocc, decide_True by done; lia).
  pose proof (Hc d) as Hcd. rewrite Hocc, decide_True in Hcd by done.
  split_and!.
  - by rewrite length_insert.
  - intros j. rewrite count_at_insert by lia. case_decide; [by subst|].
    rewrite Hr, Hocc, decide_False by done. lia.
  - destruct (Z.eqb_spec (count_at r d - 1) 0); [|done]. apply NoDup_app. split_and!; [done| |].
    + intros j Hj ->%list_elem_of_singleton. apply Hnext in Hj. lia.
    + apply NoDup_singleton.
  - intros j. rewrite count_at_insert, Hocc by lia.
    assert (Hold : j ∈ next -> j <> d).
    { intros Hj ->. apply Hnext in Hj as [_ Hj]. rewrite Hr in Hj. lia. }
    destruct (Z.eqb_spec (count_at r d - 1) 0).
    + rewrite elem_of_app, list_elem_of_singleton, Hnext. case_decide; [subst; intuition lia|].
      intuition lia.
    + rewrite Hnext. case_decide; [subst|intuition lia]. split; [|lia].
      intros Hj. exfalso. apply Hnext in Hj. by apply Hold.
Qed.

Lemma release_layer_flat g ready remaining :
  release_layer g ready remaining
  = fold_left release (flat_map (outgoing g) ready) (remaining, []).
Proof.
  unfold release_layer. generalize (remaining, @nil nat) as state.
  induction ready as [|i ready IH]; intros state; [done|].
  cbn [fold_left flat_map]. by rewrite fold_left_app, IH.
Qed.

Lemma elem_of_preds g i j : i ∈ preds g j <-> (i < length (nodes g))%nat /\ edge g i j.
Proof.
  unfold preds. rewrite elem_of_list_to_set, list_elem_of_filter, elem_of_seq. intuition lia.
Qed.

(** A layer releases a node once per prerequisite in the layer. *)
Lemma releases_layer g ready j :
  graph_wf g -> NoDup ready -> Forall (fun i => (i < length (nodes g))%nat) ready ->
  releases (flat_map (outgoing g) ready) j = size (preds g j ∩ list_to_set ready).
Proof.
  intros Hw Hnd Hb. unfold releases. induction Hnd as [|i ready Hi Hnd IH].
  { simpl. by rewrite intersection_empty_r_L, size_empty. }
  apply Forall_cons in Hb as [Hbi Hb]. cbn [flat_map list_to_set]. rewrite count_occ_app, IH by done.
  assert (Hcount : count_occ Nat.eq_dec (outgoing g i) j = if decide (edge g i j) then 1%nat else 0%nat).
  { pose proof (wf_outgoing_nodup g Hw i) as Hn. unfold edge. case_decide as Hd.
    - apply NoDup_ListNoDup in Hn. apply (NoDup_count_occ' Nat.eq_dec); [done|].
      by apply list_elem_of_In.
    - apply count_occ_not_In. by rewrite <- list_elem_of_In. }
  rewrite Hcount, intersection_union_l_L. case_decide as Hd.
  - rewrite (size_union (preds g j ∩ {[i]})).
    + f_equal. rewrite <- (size_singleton (C := gset nat) i). f_equal. apply set_eq. intros x.
      rewrite elem_of_intersection, elem_of_preds, elem_of_singleton.
      split; [intros ->; done|by intros [_ ->]].
    + intros x. rewrite !elem_of_intersection, elem_of_singleton, elem_of_list_to_set.
      intros [_ ->] [_ Hx]. done.
  - simpl. f_equal. apply set_eq. intros x.
    rewrite elem_of_union, !elem_of_intersection, elem_of_preds, elem_of_singleton.
    split; [by right|]. intros [[[_ Hx] ->]|Hx]; done.
Qed.

(** ** The layering loop *)

(** Each layer holds exactly the nodes not yet placed whose prerequisites all
    are, in ascending order: this determines the layers. *)
Definition layers_spec (g : DependencyGraph) (layers : list (list nat)) : Prop :=
  forall k layer, layers !! k = Some layer ->
    layer <> [] /\ StronglySorted le layer /\
    forall j, j ∈ layer <->
      ((j < length (nodes g))%nat /\ (j ∉ concat (take k layers)) /\
       preds g j ⊆ list_to_set (concat (take k layers))).

Lemma size_zero (X : gset nat) : size X = 0%nat <-> X = ∅.
Proof. by rewrite size_empty_iff, leibniz_equiv_iff. Qed.

Lemma difference_none (X Y : gset nat) : X ∖ Y = ∅ <-> X ⊆ Y.
Proof.
  split; [|intros; set_solver]. intros E x Hx. destruct (decide (x ∈ Y)); [done|].
  exfalso. by apply (not_elem_of_empty (C := gset nat) x); rewrite <- E; apply elem_of_difference.
Qed.

(** Where the loop stands: [placed] are the nodes of the finished layers. *)
Record loop_inv (g : DependencyGraph) (layers : list (list nat)) (ready : list nat)
    (remaining : list Z) : Prop := {
  li_nodup : NoDup (concat layers ++ ready);
  li_bound : Forall (fun j => (j < length (nodes g))%nat) (concat layers ++ ready);
  li_length : length remaining = length (nodes g);
  li_remaining : forall j, (j < length (nodes g))%nat ->
    count_at remaining j = Z.of_nat (size (preds g j ∖ list_to_set (concat layers)));
  li_ready : forall j, (j < length (nodes g))%nat ->
    j ∈ ready <-> ((j ∉ concat layers) /\ preds g j ⊆ list_to_set (concat layers));
  li_placed : forall j, j ∈ concat layers -> preds g j ⊆ list_to_set (concat layers);
  li_layers : layers_spec g layers;
}.

Lemma preds_out_of_range g j : graph_wf g -> (length (nodes g) <= j)%nat -> preds g j = ∅.
Proof.
  intros Hw Hj. apply set_eq. intros i. rewrite elem_of_preds, elem_of_empty. split; [|done].
  intros [_ He]. apply (wf_targets g Hw) in He. lia.
Qed.

Lemma loop_inv_init g : graph_wf g -> loop_inv g [] (initial_ready g) (dependency_counts g).
Proof.
  intros Hw. unfold initial_ready. split; cbn [concat app].
  - apply NoDup_filter, NoDup_seq.
  - apply Forall_forall. intros j [_ Hj]%list_elem_of_filter. apply elem_of_seq in Hj. lia.
  - apply wf_counts_length, Hw.
  - intros j Hj. rewrite (wf_counts g Hw j Hj). do 2 f_equal. set_solver.
  - intros j Hj. rewrite list_elem_of_filter, elem_of_seq, (wf_counts g Hw j Hj).
    assert (Hz : Z.of_nat (size (preds g j)) = 0%Z <-> preds g j ⊆ (∅ : gset nat)).
    { split; intros E.
      - assert (preds g j = ∅) as -> by (apply size_zero; lia). done.
      - assert (preds g j = ∅) as -> by set_solver. by rewrite size_empty. }
    cbn [list_to_set]. rewrite Hz. split; [intros [? _]; split; [set_solver|done]|].
    intros [_ ?]. split; [done|lia].
  - intros j Hj. by apply elem_of_nil in Hj.
  - intros k layer. by rewrite lookup_nil.
Qed.

(** One iteration, from the nodes placed so far and the sorted ready layer. *)
Section Step.
Context (g : DependencyGraph) (placed sorted : list nat) (remaining : list Z).
Hypothesis Hw : graph_wf g.
Hypothesis Hdisj : forall x, x ∈ placed -> x ∉ sorted.
Hypothesis Hnds : NoDup sorted.
Hypothesis Hbs : Forall (fun j => (j < length (nodes g))%nat) sorted.
Hypothesis Hlen : length remaining = length (nodes g).
Hypothesis Hrem : forall j, (j < length (nodes g))%nat ->
  count_at remaining j = Z.of_nat (size (preds g j ∖ list_to_set placed)).
Hypothesis Hready : forall j, (j < length (nodes g))%nat ->
  j ∈ sorted <-> ((j ∉ placed) /\ preds g j ⊆ list_to_set placed).
Hypothesis Hplaced : forall j, j ∈ placed -> preds g j ⊆ list_to_set placed.

Lemma step_disjoint x j :
  x ∈ preds g j ∩ list_to_set sorted -> ~ preds g j ⊆ list_to_set placed.
Proof.
  intros [Hx1 Hx2]%elem_of_intersection Hsub. apply elem_of_list_to_set in Hx2.
  apply Hsub, elem_of_list_to_set in Hx1. by apply (Hdisj x).
Qed.

Lemma step_releases_le j :
  (Z.of_nat (releases (flat_map (outgoing g) sorted) j) <= count_at remaining j)%Z.
Proof.
  rewrite releases_layer by done. destruct (decide (j < length (nodes g))%nat) as [Hj|Hj].
  - rewrite Hrem by done. apply Nat2Z.inj_le, subseteq_size. clear -Hdisj. set_solver.
  - rewrite preds_out_of_range by (done || lia). rewrite intersection_empty_l_L, size_empty.
    unfold count_at. rewrite lookup_ge_None_2 by lia. done.
Qed.

Lemma step_sizes j :
  size (preds g j ∖ list_to_set placed) =
    (size (preds g j ∖ list_to_set (placed ++ sorted)) + size (preds g j ∩ list_to_set sorted))%nat.
Proof.
  rewrite <- size_union by (rewrite list_to_set_app_L; clear; set_solver). f_equal.
  rewrite list_to_set_app_L. apply set_eq. intros x.
  rewrite elem_of_union, elem_of_intersection, !elem_of_difference, elem_of_union,
    !elem_of_list_to_set.
  destruct (decide (x ∈ sorted)); [|tauto]. pose proof (fun H => Hdisj x H). tauto.
Qed.

(** The nodes released to zero are those whose last prerequisites were in
    the layer. *)
Lemma step_next_iff remaining' j :
  (forall j, (j < length (nodes g))%nat -> count_at remaining' j
    = Z.of_nat (size (preds g j ∖ list_to_set (placed ++ sorted)))) ->
  ((0 < releases (flat_map (outgoing g) sorted) j)%nat /\ count_at remaining' j = 0%Z) <->
  ((j < length (nodes g))%nat /\ (j ∉ placed ++ sorted) /\
   preds g j ⊆ list_to_set (placed ++ sorted)).
Proof.
  intros Hsize. rewrite releases_layer by done. split.
  - intros [Hpos Hz]. assert (Hj : (j < length (nodes g))%nat).
    { destruct (decide (j < length (nodes g))%nat); [done|].
      rewrite preds_out_of_range, intersection_empty_l_L, size_empty in Hpos by (done || lia). lia. }
    rewrite Hsize in Hz by done. split_and!; [done| |apply difference_none, size_zero; lia].
    destruct (size_pos_elem_of _ Hpos) as [x Hx]. rewrite elem_of_app. intros [Hjp|Hjs].
    + apply Hplaced in Hjp. by apply (step_disjoint x j).
    + apply Hready in Hjs as [_ Hjs]; [|done]. by apply (step_disjoint x j).
  - intros (Hj & Hnot & Hsub). rewrite Hsize by done. split.
    + destruct (decide (size (preds g j ∩ list_to_set sorted) = 0)%nat) as [E|]; [|lia].
      exfalso. apply Hnot, elem_of_app. right. apply Hready; [done|].
      split; [intros Hjp; apply Hnot, elem_of_app; by left|].
      apply size_zero in E. rewrite list_to_set_app_L in Hsub. clear -E Hsub. set_solver.
    + change 0%Z with (Z.of_nat 0). f_equal. by apply size_zero, difference_none.
Qed.

Lemma step_release :
  let '(remaining', next) := release_layer g sorted remaining in
  length remaining' = length (nodes g) /\ NoDup next /\
  (forall j, (j < length (nodes g))%nat -> count_at remaining' j
    = Z.of_nat (size (preds g j ∖ list_to_set (placed ++ sorted)))) /\
  (forall j, j ∈ next <-> ((j < length (nodes g))%nat /\ (j ∉ placed ++ sorted) /\
    preds g j ⊆ list_to_set (placed ++ sorted))).
Proof.
  rewrite release_layer_flat.
  assert (Htargets : Forall (fun j => (j < length (nodes g))%nat) (flat_map (outgoing g) sorted)).
  { apply Forall_forall. intros j (i & _ & Hj)%elem_of_flat_map. by eapply (wf_targets g Hw). }
  pose proof (release_fold_spec (length (nodes g)) _ remaining Hlen Htargets step_releases_le) as Hspec.
  destruct (fold_left release _ _) as [remaining' next].
  destruct Hspec as (Hlen' & Hrem' & Hndn & Hnext).
  assert (Hsize : forall j, (j < length (nodes g))%nat -> count_at remaining' j
    = Z.of_nat (size (preds g j ∖ list_to_set (placed ++ sorted)))).
  { intros j Hj. rewrite Hrem', Hrem, releases_layer, step_sizes by done. lia. }
  split_and!; [done|done|done|]. intros j. rewrite Hnext. by apply step_next_iff.
Qed.
End Step.

(** Releasing the ready layer computes the next one. *)
Lemma loop_inv_step g layers ready remaining :
  graph_wf g -> ready <> [] -> loop_inv g layers ready remaining ->
  let ready := merge_sort le ready in
  let '(remaining, next) := release_layer g ready remaining in
  loop_inv g (layers ++ [ready]) next remaining.
Proof.
  intros Hw Hne [Hnd Hb Hlen Hrem Hready Hplaced Hlayers].
  set (sorted := merge_sort le ready). cbn zeta.
  assert (Hperm : sorted ≡ₚ ready) by apply merge_sort_Permutation.
  assert (Hin : forall j, j ∈ sorted <-> j ∈ ready) by (intros j; by rewrite Hperm).
  assert (Hsorted : StronglySorted le sorted) by (apply StronglySorted_merge_sort; apply _).
  assert (Hne' : sorted <> []) by (intros E; rewrite E in Hperm; by apply Permutation_nil in Hperm).
  rewrite <- Hperm in Hnd, Hb. setoid_rewrite <- Hin in Hready. clearbody sorted.
  apply NoDup_app in Hnd as (Hndp & Hdisj & Hnds). apply Forall_app in Hb as [Hbp Hbs].
  pose proof (step_release g (concat layers) sorted remaining Hw Hdisj Hnds Hbs Hlen Hrem Hready
    Hplaced) as Hstep.
  destruct (release_layer g sorted remaining) as [remaining' next].
  destruct Hstep as (Hlen' & Hndn & Hsize & Hnext).
  assert (Hconcat : concat (layers ++ [sorted]) = concat layers ++ sorted)
    by (rewrite concat_app; simpl; by rewrite app_nil_r).
  rewrite Forall_forall in Hbs. split; rewrite ?Hconcat; try done.
  - apply NoDup_app. split_and!; [by apply NoDup_app| |done]. intros j Hj Hj'%Hnext. tauto.
  - apply Forall_app. split; [apply Forall_app; split; [done|by apply Forall_forall]|].
    apply Forall_forall. intros j Hj. by apply Hnext in Hj as [? _].
  - intros j Hj. rewrite Hnext. tauto.
  - intros j Hj. transitivity (list_to_set (C := gset nat) (concat layers));
      [|rewrite list_to_set_app_L; apply union_subseteq_l].
    apply elem_of_app in Hj as [Hj|Hj]; [by apply Hplaced|]. by apply Hready; [apply Hbs|].
  - intros k layer Hk. destruct (decide (k < length layers)%nat) as [Hkl|Hkl].
    + rewrite lookup_app_l in Hk by done. rewrite take_app_le by lia. by apply Hlayers.
    + rewrite lookup_app_r in Hk by lia. apply list_lookup_singleton_Some in Hk as [Hk <-].
      replace k with (length layers) by lia. rewrite take_app_length.
      split_and!; [done|done|]. intros j. split.
      * intros Hj. pose proof (Hbs j Hj). split; [done|]. by apply Hready.
      * intros [Hj Hr]. by apply Hready.
Qed.

(** ** The loop ends with every node placed or a rest without a source *)

Lemma layer_loop_spec g fuel : forall layers ready remaining visited,
  graph_wf g -> loop_inv g layers ready remaining -> visited = length (concat layers) ->
  (length (nodes g) < fuel + length (concat layers))%nat ->
  exists layers' remaining',
    layer_loop fuel g ready remaining layers visited
      = (layers', length (concat layers'), []) /\
    loop_inv g layers' [] remaining'.
Proof.
  induction fuel as [|fuel IH]; intros layers ready remaining visited Hw Hinv Hv Hf.
  { exfalso. pose proof (li_nodup _ _ _ _ Hinv) as Hnd. pose proof (li_bound _ _ _ _ Hinv) as Hb.
    apply NoDup_app in Hnd as (Hnd & _ & _). apply Forall_app in Hb as [Hb _].
    assert (length (concat layers) <= length (seq 0 (length (nodes g))))%nat.
    { apply NoDup_incl_length; [by apply NoDup_ListNoDup|]. intros j Hj.
      rewrite List.Forall_forall in Hb. specialize (Hb j Hj). apply in_seq. lia. }
    rewrite length_seq in *. lia. }
  cbn [layer_loop]. destruct ready as [|r ready].
  { exists layers, remaining. by subst. }
  pose proof (loop_inv_step g layers (r :: ready) remaining Hw ltac:(done) Hinv) as Hstep.
  cbn zeta in Hstep. set (sorted := merge_sort le (r :: ready)) in *.
  assert (Hsl : (0 < length sorted)%nat)
    by (unfold sorted; rewrite merge_sort_Permutation; simpl; lia).
  destruct (release_layer g sorted remaining) as [remaining' next].
  assert (Hcl : length (concat (layers ++ [sorted])) = (length (concat layers) + length sorted)%nat)
    by (rewrite concat_app, length_app; simpl; by rewrite app_nil_r).
  apply (IH _ _ remaining'); [done|done|lia|lia].
Qed.

Lemma layering_spec g :
  graph_wf g ->
  exists layers remaining,
    layering g = (layers, length (concat layers), []) /\ loop_inv g layers [] remaining.
Proof.
  intros Hw. apply (layer_loop_spec g _ [] _ (dependency_counts g)); [done| |done|simpl; lia].
  by apply loop_inv_init.
Qed.

(** ** Layers and cycles *)

Lemma edge_source_bound g i j : graph_wf g -> edge g i j -> (i < length (nodes g))%nat.
Proof.
  intros Hw He. unfold edge, outgoing in He. destruct (dependents g !! i) eqn:E.
  - apply lookup_lt_Some in E. by rewrite (wf_dependents_length g Hw) in E.
  - by apply elem_of_nil in He.
Qed.

(** A path into layer [k] starts in an earlier layer. *)
Lemma path_to_layer g layers i j :
  graph_wf g -> layers_spec g layers -> tc (edge g) i j ->
  forall k layer, layers !! k = Some layer -> j ∈ layer -> i ∈ concat (take k layers).
Proof.
  intros Hw Hs. induction 1 as [i j He|i m j He Hp IH]; intros k layer Hk Hj.
  - destruct (Hs k layer Hk) as (_ & _ & Hl). apply Hl in Hj as (_ & _ & Hsub).
    apply (elem_of_list_to_set (C := gset nat)), Hsub, elem_of_preds.
    split; [by eapply edge_source_bound|done].
  - specialize (IH k layer Hk Hj).
    apply elem_of_concat_take in IH as (m' & layer' & Hm & Hlm & Hin).
    destruct (Hs m' layer' Hlm) as (_ & _ & Hl). apply Hl in Hin as (_ & _ & Hsub).
    assert (Hi : i ∈ concat (take m' layers)).
    { apply (elem_of_list_to_set (C := gset nat)), Hsub, elem_of_preds.
      split; [by eapply edge_source_bound|done]. }
    apply elem_of_concat_take in Hi as (m2 & l2 & Hm2 & Hl2 & Hi2).
    apply elem_of_concat_take. exists m2, l2. split; [lia|done].
Qed.

Lemma path_bounds g i j :
  graph_wf g -> tc (edge g) i j -> (i < length (nodes g))%nat /\ (j < length (nodes g))%nat.
Proof.
  intros Hw. induction 1 as [i j He|i m j He _ [_ IH]].
  - split; [by eapply edge_source_bound|by eapply wf_targets].
  - split; [by eapply edge_source_bound|done].
Qed.

Lemma placed_acyclic g layers :
  graph_wf g -> layers_spec g layers ->
  (forall j, (j < length (nodes g))%nat -> j ∈ concat layers) ->
  forall j, ~ tc (edge g) j j.
Proof.
  intros Hw Hs Hall j Hp. destruct (path_bounds g j j Hw Hp) as [Hj _].
  apply Hall, elem_of_layers in Hj as (k & layer & Hk & Hj).
  pose proof (path_to_layer g layers j j Hw Hs Hp k layer Hk Hj) as Hin.
  destruct (Hs k layer Hk) as (_ & _ & Hl). apply Hl in Hj as (_ & Hnot & _). done.
Qed.

(** A list in which some element occurs twice. *)
Lemma not_NoDup_lookup (l : list nat) :
  ~ NoDup l -> exists a b x, (a < b)%nat /\ l !! a = Some x /\ l !! b = Some x.
Proof.
  induction l as [|y l IH]; intros Hn; [by destruct Hn; constructor|].
  destruct (decide (y ∈ l)) as [Hy|Hy].
  - apply list_elem_of_lookup in Hy as [b Hb]. exists 0, (S b), y. split_and!; [lia|done|done].
  - destruct IH as (a & b & x & Hab & Ha & Hb).
    + intros Hnd. apply Hn. by constructor.
    + exists (S a), (S b), x. split_and!; [lia|done|done].
Qed.

(** A finite set in which everyone has a predecessor contains a cycle. *)
Lemma no_source_cycle (R : nat -> nat -> Prop) (n : nat) (P : nat -> Prop) j0 :
  P j0 -> (forall j, P j -> (j < n)%nat) -> (forall j, P j -> exists i, P i /\ R i j) ->
  exists j, tc R j j.
Proof.
  intros H0 Hb Hpred.
  assert (Hpath : forall m, exists l, length l = S m /\ Forall P l /\
    forall a x y, l !! a = Some x -> l !! S a = Some y -> R x y).
  { induction m as [|m (l & Hl & HP & HR)].
    - exists [j0]. split_and!; [done|by apply Forall_singleton|]. intros [|a] x y; [done|].
      simpl. by rewrite lookup_nil.
    - destruct l as [|h l]; [done|]. inversion HP as [|? ? Hh _]; subst.
      destruct (Hpred h Hh) as (i & Hi & Hih). exists (i :: h :: l).
      split_and!; [simpl in *; lia|by constructor|].
      intros [|a] x y Hx Hy; [simpl in *; congruence|by apply (HR a)]. }
  destruct (Hpath n) as (l & Hl & HP & HR).
  assert (Htc : forall d a x y, l !! a = Some x -> l !! (a + S d)%nat = Some y -> tc R x y).
  { induction d as [|d IH]; intros a x y Hx Hy.
    - apply tc_once, (HR a); [done|]. by rewrite Nat.add_1_r in Hy.
    - destruct (lookup_lt_is_Some_2 l (S a)) as [z Hz].
      { apply lookup_lt_Some in Hy. lia. }
      apply (tc_l _ _ z); [by apply (HR a)|]. apply (IH (S a)); [done|].
      by rewrite Nat.add_succ_comm. }
  destruct (not_NoDup_lookup l) as (a & b & x & Hab & Ha & Hbx).
  - intros Hnd. assert (length l <= length (seq 0 n))%nat; [|rewrite length_seq in *; lia].
    apply NoDup_incl_length; [by apply NoDup_ListNoDup|]. intros j Hj. apply in_seq.
    rewrite List.Forall_forall in HP. specialize (Hb j (HP j Hj)). lia.
  - exists x. apply (Htc (b - a - 1) a x x); [done|]. by replace (a + S (b - a - 1)) with b by lia.
Qed.

(** Kahn's loop places every node exactly when the graph has no cycle. *)
Lemma layering_total_iff g layers remaining :
  graph_wf g -> loop_inv g layers [] remaining ->
  (length (concat layers) = length (nodes g) <-> forall j, ~ tc (edge g) j j) /\
  (length (concat layers) = length (nodes g) -> concat layers ≡ₚ seq 0 (length (nodes g))).
Proof.
  intros Hw [Hnd Hb _ _ Hready _ Hs]. rewrite app_nil_r in Hnd, Hb.
  rewrite Forall_forall in Hb.
  assert (Hperm : length (concat layers) = length (nodes g) ->
    concat layers ≡ₚ seq 0 (length (nodes g))).
  { intros E. apply NoDup_Permutation; [done|apply NoDup_seq|]. intros j. split.
    - intros Hj. apply elem_of_seq. specialize (Hb j Hj). cbn in Hb. lia.
    - intros Hj. apply list_elem_of_In. apply list_elem_of_In in Hj.
      apply (NoDup_length_incl (l := concat layers) (l' := seq 0 (length (nodes g))));
        [by apply NoDup_ListNoDup|rewrite length_seq; lia| |done].
      intros i Hi. apply in_seq. apply list_elem_of_In in Hi. specialize (Hb i Hi). cbn in Hb. lia. }
  split; [|done]. split.
  - intros E. apply (placed_acyclic g layers Hw Hs). intros j Hj.
    rewrite (Hperm E). apply elem_of_seq. lia.
  - intros Hac. destruct (decide (length (concat layers) = length (nodes g))) as [|Hne]; [done|].
    exfalso. destruct (decide (Forall (fun j => j ∈ concat layers) (seq 0 (length (nodes g)))))
      as [Hall|Hnall].
    + apply Hne. rewrite <- (length_seq (length (nodes g)) 0). apply Permutation_length.
      apply NoDup_Permutation; [done|apply NoDup_seq|]. intros j. rewrite Forall_forall in Hall.
      split; [|by apply Hall]. intros Hj. apply elem_of_seq. specialize (Hb j Hj). cbn in Hb. lia.
    + apply not_Forall_Exists in Hnall; [|intros j; apply _].
      apply Exists_exists in Hnall as (j0 & Hj0 & Hnot). apply elem_of_seq in Hj0.
      destruct (no_source_cycle (edge g) (length (nodes g))
        (fun j => (j < length (nodes g))%nat /\ j ∉ concat layers) j0) as [j Hj].
      * split; [lia|done].
      * by intros j [? _].
      * intros j [Hj Hjn].
        destruct (decide (set_Exists (fun i => i ∉ concat layers) (preds g j))) as [Hex|Hnex].
        -- destruct Hex as (i & Hi & Hin). apply elem_of_preds in Hi as [Hil Hie]. by exists i.
        -- exfalso. apply (not_elem_of_nil j). apply Hready; [done|]. split; [done|].
           intros i Hi. apply elem_of_list_to_set.
           destruct (decide (i ∈ concat layers)); [done|]. exfalso. apply Hnex. by exists i.
      * by apply (Hac j).
Qed.

(** ** Operations preserve the representation *)

Lemma empty_graph_wf : graph_wf empty_graph.
Proof.
  split; try done.
  - intros i j Hj. unfold edge, outgoing in Hj. cbn in Hj. by apply elem_of_nil in Hj.
  - intros i. unfold outgoing. cbn. constructor.
Qed.

Lemma layering_with_cache g v l : layering (with_cache g v l) = layering g.
Proof.
  unfold layering. change (initial_ready (with_cache g v l)) with (initial_ready g).
  cbn [with_cache nodes dependency_counts].
  generalize (S (length (nodes g))), (initial_ready g), (dependency_counts g), (@nil (list nat)), 0%nat.
  induction n as [|n IH]; intros ready remaining layers visited; [done|]. cbn [layer_loop].
  destruct ready; [done|].
  change (release_layer (with_cache g v l)) with (release_layer g).
  destruct (release_layer g _ _). apply IH.
Qed.

Lemma with_cache_wf g v l :
  graph_wf g -> (v = true -> fst (layering g) = (l, length (nodes g))) -> graph_wf (with_cache g v l).
Proof.
  intros [W1 W2 W3 W4 W5 W6 W7 W8] Hc. split; try done. by rewrite layering_with_cache.
Qed.

Lemma outgoing_add_node g node i :
  graph_wf g -> outgoing (snd (add_node node g)) i = outgoing g i.
Proof.
  intros Hw. unfold add_node. case_bool_decide; [done|]. unfold outgoing. cbn [snd dependents].
  destruct (decide (i < length (dependents g))%nat) as [Hi|Hi].
  - by rewrite lookup_app_l.
  - rewrite lookup_app_r by lia. rewrite (lookup_ge_None_2 (dependents g)) by lia.
    by destruct (i - length (dependents g))%nat as [|?].
Qed.

Lemma add_node_wf node g : graph_wf g -> graph_wf (snd (add_node node g)).
Proof.
  intros Hw. pose proof (outgoing_add_node g node) as Hout.
  assert (Hedge : forall i j, edge (snd (add_node node g)) i j <-> edge g i j)
    by (intros i j; unfold edge; by rewrite Hout).
  unfold add_node in *. case_bool_decide as Hd; [done|]. cbn [snd] in *.
  apply eq_None_not_Some in Hd. set (g' := {| nodes := _ |}) in *.
  assert (Hpreds : forall j, preds g' j = preds g j).
  { intros j. apply set_eq. intros i. rewrite !elem_of_preds, Hedge. unfold g'. cbn [nodes].
    rewrite length_app. split; intros [_ He]; (split; [|done]).
    - by eapply edge_source_bound.
    - apply (edge_source_bound g i j Hw) in He. lia. }
  pose proof Hw as [W1 W2 W3 W4 W5 W6 W7 W8]. split.
  - unfold g'. cbn. rewrite !length_app. simpl. lia.
  - unfold g'. cbn. rewrite !length_app. simpl. lia.
  - intros x i. unfold g'. cbn [node_indices nodes]. destruct (decide (x = node)) as [->|Hne].
    + rewrite lookup_insert_eq. split.
      * intros [= <-]. by rewrite list_lookup_middle.
      * intros Hi. apply lookup_app_Some in Hi as [Hi|[Hl Hi]].
        -- apply W3 in Hi. congruence.
        -- apply list_lookup_singleton_Some in Hi as [Hi _]. f_equal. lia.
    + rewrite lookup_insert_ne, W3 by done. split.
      * intros Hi. apply lookup_app_Some. by left.
      * intros Hi. apply lookup_app_Some in Hi as [Hi|[Hl Hi]]; [done|].
        apply list_lookup_singleton_Some in Hi as [_ ->]. done.
  - intros i j He. apply Hedge, W4 in He. unfold g'. cbn. rewrite length_app. lia.
  - intros i. rewrite Hout by done. apply W5.
  - intros j Hj. rewrite Hpreds. unfold g', count_at in *. cbn [nodes dependency_counts] in *.
    rewrite length_app in Hj. simpl in Hj. destruct (decide (j < length (nodes g))%nat) as [Hl|Hl].
    + rewrite lookup_app_l by lia. by apply W6.
    + rewrite lookup_app_r by lia. replace (j - _)%nat with 0%nat by lia.
      rewrite preds_out_of_range by (done || lia). by rewrite size_empty.
  - unfold g'. cbn. rewrite sum_list_with_app. simpl. lia.
  - done.
Qed.

Lemma outgoing_add_edge g from i l :
  graph_wf g -> (from < length (nodes g))%nat ->
  default [] (<[from := l]> (dependents g) !! i) = if decide (i = from) then l else outgoing g i.
Proof.
  intros Hw Hf. case_decide as Hd.
  - subst. by rewrite list_lookup_insert_eq by (by rewrite (wf_dependents_length g Hw)).
  - by rewrite list_lookup_insert_ne by congruence.
Qed.

(** What a successful [add_dependency] changes. *)
Lemma add_dependency_ok x y g g' :
  graph_wf g -> add_dependency x y g = (OK, g') ->
  exists from to, nodes g !! from = Some x /\ nodes g !! to = Some y /\ ~ edge g from to /\
    nodes g' = nodes g /\ node_indices g' = node_indices g /\ topology_valid g' = false /\
    (forall i, outgoing g' i = if decide (i = from) then outgoing g from ++ [to] else outgoing g i) /\
    dependents g' = <[from := outgoing g from ++ [to]]> (dependents g) /\
    dependency_counts g' = <[to := (count_at (dependency_counts g) to + 1)%Z]> (dependency_counts g) /\
    edge_count g' = S (edge_count g).
Proof.
  intros Hw. unfold add_dependency.
  destruct (node_indices g !! x) as [from|] eqn:Ef; [|done].
  destruct (node_indices g !! y) as [to|] eqn:Et; [|done].
  case_bool_decide as Hd; [done|]. intros [= <-].
  apply (wf_indices g Hw) in Ef, Et. exists from, to. split_and!; try done.
  intros i. unfold outgoing at 1. cbn [dependents].
  apply outgoing_add_edge; [done|]. by eapply lookup_lt_Some.
Qed.

Lemma add_dependency_edges x y g g' from to :
  nodes g !! from = Some x -> nodes g !! to = Some y ->
  (forall i, outgoing g' i = if decide (i = from) then outgoing g from ++ [to] else outgoing g i) ->
  forall i j, edge g' i j <-> (edge g i j \/ (i = from /\ j = to)).
Proof.
  intros Hf Ht Hout i j. unfold edge. rewrite Hout. case_decide as Hd; [|naive_solver].
  subst. rewrite elem_of_app, list_elem_of_singleton. naive_solver.
Qed.

Lemma add_dependency_wf x y g : graph_wf g -> graph_wf (snd (add_dependency x y g)).
Proof.
  intros Hw. destruct (add_dependency x y g) as [status g'] eqn:E. cbn [snd].
  destruct (decide (status = OK)) as [->|Hne].
  2: { unfold add_dependency in E. destruct (node_indices g !! x); [|by injection E as <- <-].
       destruct (node_indices g !! y); [|by injection E as <- <-].
       case_bool_decide; injection E as <- <-; [done|by destruct Hne]. }
  destruct (add_dependency_ok x y g g' Hw E)
    as (from & to & Hf & Ht & Hnew & En & Ei & Ev & Eo & Ed & Ec & Ee).
  pose proof (add_dependency_edges x y g g' from to Hf Ht Eo) as Hedge.
  pose proof Hw as [W1 W2 W3 W4 W5 W6 W7 W8].
  assert (Hfl : (from < length (nodes g))%nat) by (by eapply lookup_lt_Some).
  assert (Htl : (to < length (nodes g))%nat) by (by eapply lookup_lt_Some).
  split.
  - by rewrite Ed, En, length_insert.
  - by rewrite Ec, En, length_insert.
  - by rewrite Ei, En.
  - intros i j He. rewrite En. apply Hedge in He as [He|[_ ->]]; [by apply W4 in He|done].
  - intros i. rewrite Eo. case_decide; [|apply W5]. apply NoDup_app. split_and!; [apply W5| |].
    + intros j Hj ->%list_elem_of_singleton. done.
    + apply NoDup_singleton.
  - intros j Hj. rewrite En in Hj. rewrite Ec, count_at_insert by lia. case_decide as Hd.
    + subst j. assert (preds g' to = preds g to ∪ {[from]}) as ->.
      { apply set_eq. intros i. rewrite elem_of_union, elem_of_singleton, !elem_of_preds, En, Hedge.
        split; [tauto|]. intros [[? ?]| ->]; [tauto|]. split; [done|by right]. }
      rewrite size_union, size_singleton, W6 by
        (done || (intros i Hi; rewrite elem_of_singleton; intros ->;
                  apply elem_of_preds in Hi as [_ Hi]; done)). lia.
    + rewrite W6 by done. do 2 f_equal. apply set_eq. intros i. rewrite !elem_of_preds, En, Hedge.
      naive_solver.
  - rewrite Ee, Ed, W7. destruct (lookup_lt_is_Some_2 (dependents g) from) as [l Hl]; [lia|].
    assert (Hol : outgoing g from = l) by (unfold outgoing; by rewrite Hl). rewrite Hol.
    rewrite insert_take_drop, <- (take_drop_middle (dependents g) from l Hl) at 1
      by (apply lookup_lt_Some in Hl; lia).
    rewrite !sum_list_with_app. cbn [sum_list_with]. rewrite length_app. simpl. lia.
  - by rewrite Ev.
Qed.

Lemma validate_wf g : graph_wf g -> graph_wf (snd (validate_locked g)).
Proof.
  intros Hw. unfold validate_locked. destruct (topology_valid g) eqn:Ev; [done|].
  destruct (layering g) as [[layers visited] rest] eqn:E.
  destruct (Nat.eqb_spec visited (length (nodes g))) as [->|]; cbn [negb snd].
  - apply with_cache_wf; [done|]. by rewrite E.
  - by apply with_cache_wf.
Qed.

(** Validation, from the cache or afresh. *)
Lemma validate_spec g :
  graph_wf g ->
  exists layers remaining, loop_inv g layers [] remaining /\
    (let '(status, g') := validate_locked g in
     nodes g' = nodes g /\ dependents g' = dependents g /\
     if decide (length (concat layers) = length (nodes g))
     then status = OK /\ forward_layer_indices g' = layers /\ topology_valid g' = true
     else status = DEPENDENCY_CYCLE).
Proof.
  intros Hw. destruct (layering_spec g Hw) as (layers & remaining & E & Hinv).
  exists layers, remaining. split; [done|]. unfold validate_locked.
  destruct (topology_valid g) eqn:Ev.
  - apply (wf_cache g Hw) in Ev as Hc. rewrite E in Hc. injection Hc as -> Hl.
    rewrite decide_True by done. done.
  - rewrite E. destruct (Nat.eqb_spec (length (concat layers)) (length (nodes g))) as [Hl|Hl]; cbn [negb].
    + rewrite decide_True by done. done.
    + rewrite decide_False by done. done.
Qed.

(** ** Edges between nodes *)

Lemma depends_path g x y :
  graph_wf g ->
  tc (depends g) x y <-> exists i j, nodes g !! i = Some x /\ nodes g !! j = Some y /\ tc (edge g) i j.
Proof.
  intros Hw. split.
  - induction 1 as [x y (i & j & Hi & Hj & He)|x z y (i & k & Hi & Hk & He) _ IH].
    + exists i, j. split_and!; [done|done|by apply tc_once].
    + destruct IH as (k' & j & Hk' & Hj & Hp). exists i, j. split_and!; [done|done|].
      apply (wf_indices g Hw) in Hk, Hk'. assert (k = k') as <- by congruence.
      by eapply tc_l.
  - intros (i & j & Hi & Hj & Hp). revert x Hi. induction Hp as [i j He|i k j He Hp IH]; intros x Hi.
    + apply tc_once. by exists i, j.
    + destruct (lookup_lt_is_Some_2 (nodes g) k) as [z Hz]; [by apply (wf_targets g Hw i)|].
      apply (tc_l _ _ z); [by exists i, k|]. by apply IH.
Qed.

Lemma acyclic_nodes g :
  graph_wf g -> (forall j, ~ tc (edge g) j j) <-> (forall x, ~ tc (depends g) x x).
Proof.
  intros Hw. split.
  - intros Ha x Hp. apply (depends_path g x x Hw) in Hp as (i & j & Hi & Hj & Hp).
    apply (wf_indices g Hw) in Hi, Hj. assert (i = j) as <- by congruence. by apply (Ha i).
  - intros Ha j Hp. destruct (path_bounds g j j Hw Hp) as [Hj _].
    destruct (lookup_lt_is_Some_2 (nodes g) j Hj) as [x Hx]. apply (Ha x).
    apply depends_path; [done|]. by exists j, j.
Qed.
End Graph.
Arguments DependencyGraph N {_ _}.

(** ** Reachable graphs *)

(** The graphs that construction and public calls produce; every query may
    refresh the cache. *)
Inductive reachable {N : Type} `{Countable N} : DependencyGraph N -> Prop :=
| reachable_empty : reachable empty_graph
| reachable_add_node g node : reachable g -> reachable (snd (add_node node g))
| reachable_add_dependency g x y : reachable g -> reachable (snd (add_dependency x y g))
| reachable_query g : reachable g -> reachable (snd (validate_locked g)).

Lemma graph_reachable_wf {N : Type} `{Countable N} (g : DependencyGraph N) :
  reachable g -> graph_wf g.
Proof.
  induction 1; [apply empty_graph_wf|by apply add_node_wf|by apply add_dependency_wf
    |by apply validate_wf].
Qed.

(** Indexes and nodes of a layer. *)
Lemma layer_nodes_map {N : Type} `{Countable N} (g : DependencyGraph N) l x :
  x ∈ layer_nodes g l <-> exists i, i ∈ l /\ nodes g !! i = Some x.
Proof. unfold layer_nodes. by rewrite list_elem_of_omap. Qed.

Lemma layer_nodes_concat {N : Type} `{Countable N} (g : DependencyGraph N) layers :
  concat (map (layer_nodes g) layers) = layer_nodes g (concat layers).
Proof.
  unfold layer_nodes. induction layers as [|l layers IH]; [done|].
  cbn [map concat]. by rewrite IH, omap_app.
Qed.

Lemma layer_nodes_all {N : Type} (l : list N) :
  omap (fun i => l !! i) (seq 0 (length l)) = l.
Proof.
  induction l as [|x l IH] using rev_ind; [done|].
  rewrite length_app, seq_app, omap_app. simpl. rewrite list_lookup_middle by done. f_equal.
  rewrite <- IH at 2. apply list_omap_ext. apply Forall2_same_length_lookup_2; [done|].
  intros i a b Ha Hb. assert (a = b) as -> by congruence. apply lookup_seq in Ha as [-> Ha].
  by rewrite lookup_app_l.
Qed.

(** What a successful query returned. *)
Lemma forward_layers_ok {N : Type} `{Countable N} (g g' : DependencyGraph N) layers :
  graph_wf g -> forward_layers g = (OK, layers, g') ->
  exists ls rem, loop_inv g ls [] rem /\ length (concat ls) = length (nodes g) /\
    layers = map (layer_nodes g) ls.
Proof.
  intros Hw Hf. unfold forward_layers in Hf.
  destruct (validate_spec g Hw) as (ls & rem & Hinv & Hv).
  destruct (validate_locked g) as [status g1]. destruct Hv as (En & Ed & Hv).
  case_bool_decide as Hs; [|by injection Hf as -> _ _].
  destruct (decide (length (concat ls) = length (nodes g))) as [Hl|]; [|congruence].
  destruct Hv as (_ & Hls & _). injection Hf as <- _. exists ls, rem.
  split_and!; [done|done|]. unfold layer_nodes. by rewrite Hls, En.
Qed.

(** ** What clients rely on *)

Section Client.
Context {N : Type} `{Countable N}.

Lemma reachable_nodes_index (g : DependencyGraph N) z :
  reachable g -> z ∈ nodes g <-> is_Some (node_indices g !! z).
Proof.
  intros Hw%graph_reachable_wf. rewrite list_elem_of_lookup.
  split; intros [i Hi]; exists i; by apply (wf_indices g Hw).
Qed.

Lemma reachable_nodes_nodup (g : DependencyGraph N) : reachable g -> NoDup (nodes g).
Proof.
  intros Hw%graph_reachable_wf. apply NoDup_alt. intros i j x Hi Hj.
  apply (wf_indices g Hw) in Hi, Hj. congruence.
Qed.

Lemma depends_edge (g : DependencyGraph N) x y from to :
  graph_wf g -> node_indices g !! x = Some from -> node_indices g !! y = Some to ->
  depends g x y <-> edge g from to.
Proof.
  intros Hw Hf Ht. split.
  - intros (i & j & Hi & Hj & He). apply (wf_indices g Hw) in Hi, Hj. congruence.
  - intros He. apply (wf_indices g Hw) in Hf, Ht. by exists from, to.
Qed.

(** The effect of [add_node], on both branches. *)
Lemma add_node_effect (g : DependencyGraph N) x :
  reachable g ->
  let '(status, g') := add_node x g in
  (status = if decide (x ∈ nodes g) then DUPLICATE_NODE else OK) /\
  nodes g' = (if decide (x ∈ nodes g) then nodes g else nodes g ++ [x]) /\
  forall u v, depends g' u v <-> depends g u v.
Proof.
  intros Hr. pose proof (graph_reachable_wf g Hr) as Hw.
  pose proof (outgoing_add_node g x) as Hout. destruct (add_node x g) as [status g'] eqn:E.
  cbn [snd] in Hout. unfold add_node in E. case_bool_decide as Hd; injection E as <- <-.
  - rewrite !decide_True by (by apply reachable_nodes_index). by split_and!.
  - rewrite !decide_False by (by rewrite reachable_nodes_index). split_and!; [done|done|].
    intros u v. unfold depends, edge. setoid_rewrite Hout; [|done]. cbn [nodes]. split.
    + intros (i & j & Hi & Hj & He).
      pose proof (edge_source_bound g i j Hw He). pose proof (wf_targets g Hw i j He).
      rewrite lookup_app_l in Hi, Hj by done. by exists i, j.
    + intros (i & j & Hi & Hj & He). exists i, j. by rewrite !lookup_app_l by (by eapply lookup_lt_Some).
Qed.

(** The effect of [add_dependency], on its four branches. *)
Lemma add_dependency_effect (g : DependencyGraph N) x y :
  reachable g ->
  let '(status, g') := add_dependency x y g in
  (~ (x ∈ nodes g /\ y ∈ nodes g) -> status = NODE_NOT_FOUND) /\
  (x ∈ nodes g -> y ∈ nodes g -> status = OK \/ status = DUPLICATE_DEPENDENCY) /\
  (status = DUPLICATE_DEPENDENCY <-> depends g x y) /\
  (if decide (status = OK)
   then nodes g' = nodes g /\ dependency_count g' = S (dependency_count g) /\
        forall u v, depends g' u v <-> (depends g u v \/ (u = x /\ v = y))
   else g' = g).
Proof.
  intros Hr. pose proof (graph_reachable_wf g Hr) as Hw.
  pose proof (reachable_nodes_index g x Hr) as Hx. pose proof (reachable_nodes_index g y Hr) as Hy.
  destruct (add_dependency x y g) as [status g'] eqn:E. rewrite Hx, Hy. destruct (decide (status = OK)) as [->|Hne].
  - destruct (add_dependency_ok x y g g' Hw E)
      as (from & to & Hf & Ht & Hnew & En & _ & _ & Eo & _ & _ & Ee).
    pose proof (add_dependency_edges x y g g' from to Hf Ht Eo) as Hedge.
    assert (Hfi : node_indices g !! x = Some from) by (by apply (wf_indices g Hw)).
    assert (Hti : node_indices g !! y = Some to) by (by apply (wf_indices g Hw)).
    rewrite Hfi, Hti. split_and!; [intros []; split; by eexists|by left| |done|done|].
    + rewrite (depends_edge g x y from to) by done. by split.
    + intros u v. unfold depends. rewrite En. setoid_rewrite Hedge. split.
      * intros (i & j & Hi & Hj & [He|[-> ->]]); [left; by exists i, j|right; split; congruence].
      * intros [(i & j & Hi & Hj & He)|[-> ->]]; [by exists i, j; auto|]. exists from, to. auto.
  - unfold add_dependency in E. destruct (node_indices g !! x) as [from|] eqn:Ef.
    2: { injection E as <- <-. split_and!; [done|by intros [? ?]|split; [done|]|done].
         intros (i & j & Hi & _). apply (wf_indices g Hw) in Hi. congruence. }
    destruct (node_indices g !! y) as [to|] eqn:Et.
    2: { injection E as <- <-. split_and!; [done|by intros _ [? ?]|split; [done|]|done].
         intros (i & j & _ & Hj & _). apply (wf_indices g Hw) in Hj. congruence. }
    rewrite (depends_edge g x y from to) by done.
    case_bool_decide as Hd; injection E as <- <-; [|by destruct Hne].
    split_and!; [intros []; split; by eexists|by right|done|done].
Qed.

(** Strictly ascending positions select a sublist. *)
Lemma sorted_sublist_seq l : forall a n,
  StronglySorted lt l -> Forall (fun i => (a <= i < a + n)%nat) l -> l `sublist_of` seq a n.
Proof.
  intros a n. revert a l. induction n as [|n IH]; intros a l Hs Hb.
  - destruct l as [|i l]; [constructor|]. apply Forall_cons in Hb as [? _]. lia.
  - destruct l as [|i l]; [apply sublist_nil_l|]. apply StronglySorted_inv in Hs as [Hs Hi].
    apply Forall_cons in Hb as [Hib Hb]. rewrite Forall_forall in Hi, Hb. cbn [seq].
    destruct (decide (i = a)) as [->|Hne].
    + apply sublist_skip, IH; [done|]. apply Forall_forall. intros j Hj.
      specialize (Hi j Hj). specialize (Hb j Hj). cbn in *. lia.
    + apply sublist_cons, IH; [constructor; [done|by apply Forall_forall]|].
      apply Forall_cons. split; [lia|]. apply Forall_forall. intros j Hj.
      specialize (Hi j Hj). specialize (Hb j Hj). cbn in *. lia.
Qed.

Lemma omap_sublist {A B} (f : A -> option B) (l k : list A) :
  l `sublist_of` k -> omap f l `sublist_of` omap f k.
Proof.
  induction 1 as [|x l k _ IH|x l k _ IH]; cbn; [constructor| |].
  - destruct (f x); [by apply sublist_skip|done].
  - destruct (f x); [by apply sublist_cons|done].
Qed.

Lemma strongly_sorted_lt l : StronglySorted le l -> NoDup l -> StronglySorted lt l.
Proof.
  induction 1 as [|i l Hs IH Hi]; intros Hn; [constructor|]. apply NoDup_cons in Hn as [Hni Hn].
  constructor; [by apply IH|]. apply Forall_forall. rewrite Forall_forall in Hi. intros j Hj.
  specialize (Hi j Hj). destruct (decide (i = j)) as [->|]; [done|]. lia.
Qed.

(** A successful layering holds every node once, in registration order inside
    a layer, with every dependency going from an earlier to a later layer. *)
Lemma forward_layers_order (g g' : DependencyGraph N) layers :
  reachable g -> forward_layers g = (OK, layers, g') ->
  concat layers ≡ₚ nodes g /\
  (forall x y a b la lb, depends g x y -> layers !! a = Some la -> x ∈ la ->
     layers !! b = Some lb -> y ∈ lb -> (a < b)%nat) /\
  (forall layer, layer ∈ layers -> layer `sublist_of` nodes g).
Proof.
  intros Hr Hf. pose proof (graph_reachable_wf g Hr) as Hw.
  destruct (forward_layers_ok g g' layers Hw Hf) as (ls & rem & Hinv & Hl & ->).
  pose proof (proj2 (layering_total_iff g ls rem Hw Hinv) Hl) as Hperm.
  pose proof (li_layers _ _ _ _ Hinv) as Hs. split_and!.
  - rewrite layer_nodes_concat. unfold layer_nodes. rewrite Hperm. by rewrite layer_nodes_all.
  - intros x y a b la lb (i & j & Hi & Hj & He) Ha Hx Hb Hy.
    apply list_lookup_fmap_Some in Ha as (ia & -> & Ha), Hb as (ib & -> & Hb).
    apply layer_nodes_map in Hx as (i' & Hi' & Hix), Hy as (j' & Hj' & Hjy).
    apply (wf_indices g Hw) in Hi, Hj, Hix, Hjy.
    assert (i' = i) as -> by congruence. assert (j' = j) as -> by congruence.
    pose proof (path_to_layer g ls i j Hw Hs (tc_once _ _ _ He) b ib Hb Hj') as Hin.
    apply elem_of_concat_take in Hin as (m & l & Hm & Hlm & Him).
    destruct (decide (m < a)%nat) as [Hma|]; [|lia]. exfalso.
    destruct (Hs a ia Ha) as (_ & _ & Hla). apply Hla in Hi' as (_ & Hnot & _).
    apply Hnot, elem_of_concat_take. by exists m, l.
  - intros layer (l & -> & Hin)%list_elem_of_fmap. pose proof Hin as (k & Hk)%list_elem_of_lookup.
    destruct (Hs k l Hk) as (_ & Hsorted & Hmem). rewrite <- (layer_nodes_all (nodes g)).
    unfold layer_nodes. apply omap_sublist, sorted_sublist_seq.
    + apply strongly_sorted_lt; [done|]. pose proof (li_nodup _ _ _ _ Hinv) as Hnd.
      rewrite app_nil_r in Hnd. apply list_elem_of_split in Hin as (l1 & l2 & ->).
      rewrite concat_app in Hnd. apply NoDup_app in Hnd as (_ & _ & Hnd).
      cbn [concat] in Hnd. by apply NoDup_app in Hnd as (Hnd & _ & _).
    + apply Forall_forall. intros j Hj. apply Hmem in Hj as [? _]. lia.
Qed.

(** A second query answers from the cache. *)
Lemma forward_layers_again (g g' : DependencyGraph N) layers :
  forward_layers g = (OK, layers, g') -> forward_layers g' = (OK, layers, g').
Proof.
  assert (Hv : forall g g' : DependencyGraph N, validate_locked g = (OK, g') -> validate_locked g' = (OK, g')).
  { clear. intros g g'. unfold validate_locked. destruct (topology_valid g) eqn:E.
    - intros [= <-]. by rewrite E.
    - destruct (layering g) as [[? ?] ?]. destruct (negb _); [done|]. by intros [= <-]. }
  unfold forward_layers. destruct (validate_locked g) as [status g1] eqn:E.
  case_bool_decide as Ho; [|by intros [= -> _ _]]. subst status. intros [= <- <-].
  by rewrite (Hv _ _ E), bool_decide_true.
Qed.

(** A query succeeds exactly on acyclic graphs. *)
Lemma forward_layers_status (g : DependencyGraph N) :
  reachable g ->
  let '(status, layers, g') := forward_layers g in
  reachable g' /\ nodes g' = nodes g /\ (forall x y, depends g' x y <-> depends g x y) /\
  status = fst (validate_locked g) /\
  (if decide (status = OK) then forall x, ~ tc (depends g) x x
   else status = DEPENDENCY_CYCLE /\ layers = [] /\ ~ forall x, ~ tc (depends g) x x) /\
  reverse_layers g = (status, reverse layers, g').
Proof.
  intros Hr. pose proof (graph_reachable_wf g Hr) as Hw.
  destruct (validate_spec g Hw) as (ls & rem & Hinv & Hv).
  pose proof (proj1 (layering_total_iff g ls rem Hw Hinv)) as Hiff.
  rewrite (acyclic_nodes g Hw) in Hiff. pose proof (reachable_query g Hr) as Hr'.
  unfold reverse_layers, forward_layers.
  destruct (validate_locked g) as [status g']. cbn [fst snd] in *. destruct Hv as (En & Ed & Hv).
  assert (Hdep : forall x y, depends g' x y <-> depends g x y)
    by (intros x y; unfold depends, edge, outgoing; by rewrite En, Ed).
  destruct (decide (length (concat ls) = length (nodes g))) as [Hl|Hl].
  - destruct Hv as (-> & _ & _). rewrite !bool_decide_true by done. rewrite decide_True by done.
    split_and!; try done. by apply Hiff.
  - subst status. rewrite !bool_decide_false by done. rewrite decide_False by done.
    split_and!; try done. by rewrite <- Hiff.
Qed.
End Client.

(** ** Properties *)

(** Edges are tracked exactly: [add_dependency] reports [NODE_NOT_FOUND]
    when an endpoint is unregistered, [DUPLICATE_DEPENDENCY] when the edge is
    there, and otherwise adds exactly that edge; failures change nothing and a
    new node brings no edge. The representation (index map, incoming counts,
    edge count, layer cache) is consistent in every reachable graph. *)
Theorem graph_tracks_edges {N : Type} `{Countable N} (g : DependencyGraph N) x y :
  reachable g ->
  graph_wf g /\
  (let '(status, g') := add_dependency x y g in
   (status = NODE_NOT_FOUND <-> (x ∉ nodes g) \/ (y ∉ nodes g)) /\
   (status = DUPLICATE_DEPENDENCY <-> depends g x y) /\
   (if decide (status = OK)
    then dependency_count g' = S (dependency_count g) /\
         forall u v, depends g' u v <-> (depends g u v \/ (u = x /\ v = y))
    else g' = g)) /\
  (let '(status, g') := add_node x g in
   (status = if decide (x ∈ nodes g) then DUPLICATE_NODE else OK) /\
   nodes g' = (if decide (x ∈ nodes g) then nodes g else nodes g ++ [x]) /\
   forall u v, depends g' u v <-> depends g u v).
Proof.
  intros Hr. split; [by apply graph_reachable_wf|]. split; [|by apply add_node_effect].
  pose proof (add_dependency_effect g x y Hr) as He.
  destruct (add_dependency x y g) as [status g']. destruct He as (Hnf & Hin & Hdup & Hok).
  split_and!; [|done|].
  - destruct (decide (x ∈ nodes g /\ y ∈ nodes g)) as [[Hx Hy]|Hn].
    + destruct (Hin Hx Hy) as [->| ->]; (split; [done|tauto]).
    + rewrite (Hnf Hn). split; [|done]. intros _. destruct (decide (x ∈ nodes g)); [right|left]; tauto.
  - by destruct (decide (status = OK)); [destruct Hok as (_ & ? & ?)|].
Qed.

(** C35. A successful layering is a topological order: its layers hold every node
    once, in registration order inside a layer, every dependency goes from an
    earlier to a later layer, every node sits in the earliest possible layer,
    and the reverse query returns the same layers backwards. *)
Theorem forward_layers_topological {N : Type} `{Countable N} (g g' : DependencyGraph N) layers :
  reachable g -> forward_layers g = (OK, layers, g') ->
  (concat layers ≡ₚ nodes g /\
   (forall x y a b la lb, depends g x y -> layers !! a = Some la -> x ∈ la ->
      layers !! b = Some lb -> y ∈ lb -> (a < b)%nat) /\
   (forall layer, layer ∈ layers -> layer `sublist_of` nodes g)) /\
  (forall b lb y, layers !! S b = Some lb -> y ∈ lb ->
     exists la x, layers !! b = Some la /\ x ∈ la /\ depends g x y) /\
  reverse_layers g = (OK, reverse layers, g').
Proof.
  intros Hr Hf. split; [by eapply forward_layers_order|].
  split; [|unfold reverse_layers; by rewrite Hf]. pose proof (graph_reachable_wf g Hr) as Hw.
  destruct (forward_layers_ok g g' layers Hw Hf) as (ls & rem & Hinv & Hl & ->).
  pose proof (li_layers _ _ _ _ Hinv) as Hs.
  intros b lb y Hb Hy. apply list_lookup_fmap_Some in Hb as (ib & -> & Hb).
  apply layer_nodes_map in Hy as (j & Hj & Hjy).
  destruct (Hs (S b) ib Hb) as (_ & _ & Hlb). apply Hlb in Hj as (Hjn & Hnot & Hsub).
  destruct (lookup_lt_is_Some_2 ls b) as [la Hla]; [apply lookup_lt_Some in Hb; lia|].
  destruct (Hs b la Hla) as (_ & _ & Hspec).
  assert (Htake : concat (take (S b) ls) = concat (take b ls) ++ la)
    by (rewrite (take_S_r _ _ _ Hla), concat_app; simpl; by rewrite app_nil_r).
  rewrite Htake in Hnot, Hsub. rewrite elem_of_app in Hnot.
  destruct (decide (set_Exists (fun i => i ∈ la) (preds g j))) as [Hex|Hnex].
  - destruct Hex as (i & Hi & Hila). apply elem_of_preds in Hi as [Hin Hie].
    destruct (lookup_lt_is_Some_2 (nodes g) i Hin) as [x Hx].
    exists (layer_nodes g la), x. split_and!; [|apply layer_nodes_map; by exists i|by exists i, j].
    apply list_lookup_fmap_Some. by exists la.
  - exfalso. apply Hnot. right. apply Hspec. split_and!; [done|tauto|]. intros i Hi.
    specialize (Hsub i Hi). apply elem_of_list_to_set, elem_of_app in Hsub as [Hsub|Hsub];
      [by apply elem_of_list_to_set|]. exfalso. apply Hnex. by exists i.
Qed.

(** Every query succeeds exactly on acyclic graphs; otherwise it reports
    [DEPENDENCY_CYCLE] with an empty output, from the cache or afresh. *)
Theorem cycles_detected {N : Type} `{Countable N} (g : DependencyGraph N) :
  reachable g ->
  if decide (fst (validate_locked g) = OK)
  then (forall x, ~ tc (depends g) x x) /\
       exists layers g', forward_layers g = (OK, layers, g') /\
         snapshot g = (OK, {| snapshot_nodes := nodes g'; snapshot_dependents := dependents g';
           snapshot_dependency_counts := dependency_counts g' |}, g')
  else ~ (forall x, ~ tc (depends g) x x) /\
       exists g', forward_layers g = (DEPENDENCY_CYCLE, [], g') /\
         reverse_layers g = (DEPENDENCY_CYCLE, [], g') /\
         snapshot g = (DEPENDENCY_CYCLE, empty_snapshot, g').
Proof.
  intros Hr. pose proof (forward_layers_status g Hr) as Hs.
  destruct (forward_layers g) as [[status layers] g1] eqn:E.
  destruct Hs as (_ & _ & _ & -> & Hok & Hrev). unfold forward_layers, snapshot in *.
  destruct (validate_locked g) as [status g']. cbn [fst] in *. destruct (decide (status = OK)) as [->|Hne].
  - rewrite bool_decide_true in * by done. split; [done|]. by do 2 eexists.
  - destruct Hok as (-> & -> & Hc). rewrite bool_decide_false in * by done.
    injection E as <-. split; [done|]. by exists g'.
Qed.

(** ** Witnesses *)

Definition sample_graph : DependencyGraph nat :=
  snd (add_dependency 1 2 (snd (add_dependency 1 3 (snd (add_dependency 2 4 (snd (add_dependency 3 4
    (snd (add_node 4 (snd (add_node 3 (snd (add_node 2 (snd (add_node 1 empty_graph))))))))))))))).

Lemma sample_graph_reachable : reachable sample_graph.
Proof. repeat constructor. Qed.

Example sample_layers : fst (forward_layers sample_graph) = (OK, [[1]; [2; 3]; [4]]).
Proof. vm_compute. reflexivity. Qed.

Example sample_cycle :
  fst (forward_layers (snd (add_dependency 4 1 sample_graph))) = (DEPENDENCY_CYCLE, []).
Proof. vm_compute. reflexivity. Qed.

Lemma graph_tracks_edges_witness : graph_wf sample_graph.
Proof. exact (proj1 (graph_tracks_edges sample_graph 1 2 sample_graph_reachable)). Defined.

Lemma forward_layers_topological_witness : concat [[1]; [2; 3]; [4]] ≡ₚ nodes sample_graph.
Proof.
  refine (proj1 (proj1 (forward_layers_topological sample_graph (snd (forward_layers sample_graph))
    [[1]; [2; 3]; [4]] sample_graph_reachable _))). vm_compute. reflexivity.
Defined.

Lemma cycles_detected_witness :
  ~ (forall x, ~ tc (depends (snd (add_dependency 4 1 sample_graph))) x x).
Proof.
  pose proof (cycles_detected (snd (add_dependency 4 1 sample_graph))
    (reachable_add_dependency sample_graph 4 1 sample_graph_reachable)) as Hc.
  assert (E : fst (validate_locked (snd (add_dependency 4 1 sample_graph))) = DEPENDENCY_CYCLE)
    by (vm_compute; reflexivity).
  rewrite decide_False in Hc by (rewrite E; discriminate). exact (proj1 Hc).
Defined.
