(* ===== verification/Readiness.v ===== *)
(** * Readiness of nodes during a run

    Both executors of a dependency graph (utils/execution_graph) count the
    prerequisites of every node that have not completed. This file relates
    those counters to the set of completed nodes, and gives the vocabulary in
    which runs are logged. *)
From S2P Require Import Prelude.
From S2P Require Import DependencyGraph.

(** ** What happened to the nodes of a run

    [Began] and [Ended] bracket the execution of a caller's job; [Released]:
    its completion was counted and its successors updated; [Aborted]: it
    completed after the run had failed; [Skipped]: it became ready after that;
    [Rejected]: the pool refused it; [Discarded]: the pool was shut down while
    it was queued; [Notified]: the result was delivered. *)
Inductive RunEvent :=
| Began (node : nat)
| Ended (node : nat)
| Released (node : nat)
| Aborted (node : nat)
| Skipped (node : nat)
| Rejected (node : nat)
| Discarded (nodes : list nat)
| Notified (result : Status).

Definition began (log : list RunEvent) : list nat := omap (fun e => match e with Began i => Some i | _ => None end) log.
Definition ended (log : list RunEvent) : list nat := omap (fun e => match e with Ended i => Some i | _ => None end) log.
Definition released (log : list RunEvent) : list nat :=
  omap (fun e => match e with Released i => Some i | _ => None end) log.
Definition aborted (log : list RunEvent) : list nat :=
  omap (fun e => match e with Aborted i => Some i | _ => None end) log.
Definition discarded (log : list RunEvent) : list nat :=
  flat_map (fun e => match e with Discarded l => l | _ => [] end) log.
Definition notified (log : list RunEvent) : list Status :=
  omap (fun e => match e with Notified s => Some s | _ => None end) log.

(** The nodes whose fate is settled. *)
Definition settled_nodes (log : list RunEvent) : list nat :=
  flat_map (fun e => match e with
                     | Released i | Aborted i | Skipped i | Rejected i => [i]
                     | Discarded l => l
                     | _ => []
                     end) log.

Lemma began_app l1 l2 : began (l1 ++ l2) = began l1 ++ began l2.
Proof. apply omap_app. Qed.
Lemma ended_app l1 l2 : ended (l1 ++ l2) = ended l1 ++ ended l2.
Proof. apply omap_app. Qed.
Lemma released_app l1 l2 : released (l1 ++ l2) = released l1 ++ released l2.
Proof. apply omap_app. Qed.
Lemma aborted_app l1 l2 : aborted (l1 ++ l2) = aborted l1 ++ aborted l2.
Proof. apply omap_app. Qed.
Lemma discarded_app l1 l2 : discarded (l1 ++ l2) = discarded l1 ++ discarded l2.
Proof. apply flat_map_app. Qed.
Lemma notified_app l1 l2 : notified (l1 ++ l2) = notified l1 ++ notified l2.
Proof. apply omap_app. Qed.
Lemma settled_app l1 l2 : settled_nodes (l1 ++ l2) = settled_nodes l1 ++ settled_nodes l2.
Proof. apply flat_map_app. Qed.

Create HintDb runlog.
#[export] Hint Rewrite began_app ended_app released_app aborted_app discarded_app notified_app settled_app : runlog.

(** Take the last event off a log. *)
Ltac log_simpl := autorewrite with runlog; cbn [began ended released aborted discarded notified settled_nodes
  omap list_omap flat_map app option_bind mbind].

Lemma released_settled log i : i ∈ released log -> i ∈ settled_nodes log.
Proof.
  induction log as [|e log IH]; cbn; [by intros ?%elem_of_nil|].
  destruct e; cbn; rewrite ?elem_of_cons, ?elem_of_app; naive_solver.
Qed.

Lemma elem_perm {A} (x : A) l k : l ≡ₚ k -> x ∈ l <-> x ∈ k.
Proof. by intros ->. Qed.

(** ** Fates are disjoint *)

Lemma aborted_settled l i : i ∈ aborted l -> i ∈ settled_nodes l.
Proof.
  induction l as [|e l IH]; cbn; [by intros ?%elem_of_nil|].
  destruct e; cbn; rewrite ?elem_of_cons, ?elem_of_app; naive_solver.
Qed.

(** A node that was completed was completed once. *)
Lemma settled_nodup l : NoDup (settled_nodes l) -> NoDup (released l ++ aborted l).
Proof.
  induction l as [|e l IH]; [by intros; apply NoDup_nil_2|]. intros Hn.
  assert (Hl : NoDup (settled_nodes l)).
  { destruct e; cbn in Hn; try (by apply NoDup_cons in Hn as [_ Hn]); try done. by apply NoDup_app in Hn as (_ & _ & Hn). }
  specialize (IH Hl). destruct e; cbn [released aborted omap list_omap option_bind mbind]; try done;
    cbn in Hn; apply NoDup_cons in Hn as [Hx _];
    assert (Hi : node ∉ released l ++ aborted l)
      by (rewrite elem_of_app; intros [?%released_settled|?%aborted_settled]; done).
  - cbn. by constructor.
  - eapply NoDup_Permutation_proper; [symmetry; apply Permutation_middle|]. by constructor.
Qed.

Lemma released_nodup l : NoDup (settled_nodes l) -> NoDup (released l).
Proof. intros Hn%settled_nodup. by apply NoDup_app in Hn as [Hn _]. Qed.

(** ** Counters *)

Section Readiness.
Context {N : Type} `{Countable N} (g : DependencyGraph N).
Hypothesis Hw : graph_wf g.

Abbreviation total := (length (nodes g)).

(** [remaining] counts, for every node, the prerequisites outside [done]. *)
Definition counts_ready (done : list nat) (remaining : list Z) : Prop :=
  length remaining = total /\
  forall j, (j < total)%nat -> count_at remaining j = Z.of_nat (size (preds g j ∖ list_to_set done)).

Definition ready_after (done : list nat) (j : nat) : Prop :=
  (j < total)%nat /\ preds g j ⊆ list_to_set done.

Lemma counts_ready_start : counts_ready [] (dependency_counts g).
Proof.
  destruct (loop_inv_init g Hw) as [_ _ Hl Hr _ _ _]. by split.
Qed.

Lemma initial_ready_spec : NoDup (initial_ready g) /\ forall j, j ∈ initial_ready g <-> ready_after [] j.
Proof.
  destruct (loop_inv_init g Hw) as [Hn Hb _ _ Hr _ _]. cbn [concat app] in *. split; [done|].
  intros j. unfold ready_after. split.
  - intros Hj. rewrite Forall_forall in Hb. pose proof (Hb j Hj). split; [done|]. by apply Hr.
  - intros [Hj Hs]. apply Hr; [done|]. split; [by intros ?%elem_of_nil|done].
Qed.

Lemma outgoing_occ i j : count_occ Nat.eq_dec (outgoing g i) j = if decide (edge g i j) then 1%nat else 0%nat.
Proof.
  pose proof (wf_outgoing_nodup g Hw i) as Hn. unfold edge. case_decide as Hd.
  - apply NoDup_ListNoDup in Hn. apply (NoDup_count_occ' Nat.eq_dec); [done|]. by apply list_elem_of_In.
  - apply count_occ_not_In. by rewrite <- list_elem_of_In.
Qed.

(** Completing a node whose prerequisites were done readies the nodes that
    waited for it alone. *)
Lemma counts_release done remaining i :
  counts_ready done remaining -> (i < total)%nat -> i ∉ done ->
  let '(remaining', ready) := fold_left release (outgoing g i) (remaining, []) in
  counts_ready (done ++ [i]) remaining' /\ NoDup ready /\
  (forall j, j ∈ ready <-> ready_after (done ++ [i]) j /\ ~ ready_after done j).
Proof.
  intros [Hl Hc] Hi Hnd.
  assert (Hsplit : forall j, (j < total)%nat ->
    Z.of_nat (size (preds g j ∖ list_to_set done)) =
    (Z.of_nat (size (preds g j ∖ list_to_set (done ++ [i]))) + (if decide (edge g i j) then 1 else 0))%Z).
  { intros j Hj. case_decide as He.
    - assert (E : preds g j ∖ list_to_set done = {[i]} ∪ (preds g j ∖ list_to_set (done ++ [i]))).
      { apply set_eq. intros x. rewrite elem_of_union, elem_of_singleton, !elem_of_difference,
          !elem_of_list_to_set, elem_of_app, list_elem_of_singleton. split.
        - intros [Hx Hd]. destruct (decide (x = i)); [by left|right]. split; [done|]. by intros [?|?].
        - intros [->|[Hx Hd]]; [|split; [done|tauto]]. split; [|done]. by apply elem_of_preds. }
      rewrite E, size_union, size_singleton by (intros x; rewrite elem_of_singleton, elem_of_difference,
        elem_of_list_to_set, elem_of_app, list_elem_of_singleton; tauto). lia.
    - rewrite Z.add_0_r. f_equal. f_equal. apply set_eq. intros x.
      rewrite !elem_of_difference, !elem_of_list_to_set, elem_of_app, list_elem_of_singleton.
      split; [|tauto]. intros [Hx Hd]. split; [done|]. intros [?| ->]; [done|].
      by apply elem_of_preds in Hx as [_ ?]. }
  assert (Hb : Forall (fun j => (j < total)%nat) (outgoing g i))
    by (apply Forall_forall; intros j Hj; by apply (wf_targets g Hw i)).
  assert (Hr : forall j, (Z.of_nat (releases (outgoing g i) j) <= count_at remaining j)%Z).
  { intros j. unfold releases. rewrite outgoing_occ. destruct (decide (edge g i j)) as [He|He].
    - pose proof (wf_targets g Hw _ _ He) as Hj. rewrite Hc, Hsplit, decide_True by done. lia.
    - destruct (decide (j < total)%nat) as [Hj|Hj]; [rewrite Hc by done; lia|].
      unfold count_at. rewrite lookup_ge_None_2 by lia. done. }
  pose proof (release_fold_spec total _ remaining Hl Hb Hr) as Hs.
  destruct (fold_left release _ _) as [remaining' ready]. destruct Hs as (Hl' & Hc' & Hn & Hin).
  unfold releases in *. setoid_rewrite outgoing_occ in Hc'. setoid_rewrite outgoing_occ in Hin.
  assert (Hc2 : forall j, (j < total)%nat ->
    count_at remaining' j = Z.of_nat (size (preds g j ∖ list_to_set (done ++ [i])))).
  { intros j Hj. rewrite Hc', Hc, Hsplit by done. destruct (decide (edge g i j)); lia. }
  split; [by split|]. split; [done|]. intros j. rewrite Hin. unfold ready_after.
  assert (Hz : forall l, Z.of_nat (size (preds g j ∖ list_to_set l)) = 0%Z <-> preds g j ⊆ list_to_set l).
  { intros l. rewrite <- difference_none, <- size_zero. lia. }
  destruct (decide (edge g i j)) as [He|He].
  - pose proof (wf_targets g Hw _ _ He) as Hj. rewrite Hc2, Hz by done. split; [|by intros [[_ ?] _]; split; [lia|]].
    intros [_ Hsub]. split; [done|]. intros [_ Hold]. rewrite <- Hz, Hsplit, decide_True in Hold by done. lia.
  - split; [intros [? _]; lia|]. intros [[Hj Hsub] Hold]. exfalso. apply Hold. split; [done|].
    rewrite <- Hz, Hsplit, decide_False, Z.add_0_r, Hz by done. done.
Qed.

Lemma ready_after_mono done i j : ready_after done j -> ready_after (done ++ [i]) j.
Proof.
  clear Hw. intros [Hj Hs]. split; [done|]. rewrite list_to_set_app_L. set_solver.
Qed.

(** In a validated graph, a set of nodes that contains every node it readies
    contains them all. *)
Lemma closed_done done : fst (validate_locked g) = OK ->
  (forall j, ready_after done j -> j ∈ done) -> forall j, (j < total)%nat -> j ∈ done.
Proof.
  intros Hv Hc. destruct (validate_spec g Hw) as (layers & remaining & Hinv & Hs).
  destruct (validate_locked g) as [status g']. destruct Hs as (_ & _ & Hs). cbn in Hv. subst status.
  destruct (decide (length (concat layers) = total)) as [Hl|]; [|done].
  assert (Hall : forall k j, j ∈ concat (take k layers) -> j ∈ done).
  { induction k as [|k IH]; intros j Hj; [by apply elem_of_nil in Hj|].
    apply elem_of_concat_take in Hj as (m & layer & Hm & Hlm & Hj).
    destruct (li_layers _ _ _ _ Hinv m layer Hlm) as (_ & _ & Hspec). apply Hspec in Hj as (Hjn & _ & Hsub).
    apply Hc. split; [done|]. intros i Hi. apply Hsub, elem_of_list_to_set in Hi. apply elem_of_list_to_set, IH.
    apply elem_of_concat_take in Hi as (m' & l' & Hm' & Hl' & Hi). apply elem_of_concat_take. exists m', l'.
    split; [lia|done]. }
  intros j Hj. apply (Hall (length layers)). rewrite take_ge by done.
  pose proof (li_nodup _ _ _ _ Hinv) as Hn. pose proof (li_bound _ _ _ _ Hinv) as Hb. rewrite app_nil_r in Hn, Hb.
  assert (Hp : concat layers ≡ₚ seq 0 total).
  { apply submseteq_length_Permutation; [|rewrite length_seq; lia]. apply NoDup_submseteq; [done|].
    intros x Hx. rewrite Forall_forall in Hb. apply elem_of_seq. specialize (Hb x Hx). lia. }
  rewrite Hp. apply elem_of_seq. lia.
Qed.
End Readiness.

(** ** Orders in the log *)

Section Orders.
Context {N : Type} `{Countable N} (g : DependencyGraph N).

(** No job begins before its prerequisites ended. *)
Definition in_order (log : list RunEvent) : Prop :=
  forall l1 j l2, log = l1 ++ Began j :: l2 -> forall i, edge g i j -> i ∈ ended l1.

(** The result is delivered when every job that began has ended, and none
    begins afterwards. *)
Definition quiet_after (log : list RunEvent) : Prop :=
  forall l1 s l2, log = l1 ++ Notified s :: l2 -> ended l1 ≡ₚ began l1 /\ began l2 = [].

Lemma in_order_nil : in_order [].
Proof. intros l1 j l2 E. by destruct l1. Qed.
Lemma quiet_after_nil : quiet_after [].
Proof. intros l1 j l2 E. by destruct l1. Qed.

Lemma in_order_snoc log e : in_order log ->
  (forall j, e = Began j -> forall i, edge g i j -> i ∈ ended log) -> in_order (log ++ [e]).
Proof.
  intros Ho He l1 j l2 E. destruct (list_snoc_inv l2) as [->|(l2' & x & ->)].
  - apply app_inj_tail in E as [<- ->]. by apply He.
  - rewrite app_comm_cons, app_assoc in E. apply app_inj_tail in E as [E _]. by apply (Ho l1 j l2').
Qed.

Lemma quiet_after_snoc log e : quiet_after log ->
  (forall j, e = Began j -> notified log = []) ->
  (forall s, e = Notified s -> ended log ≡ₚ began log) -> quiet_after (log ++ [e]).
Proof.
  intros Ho Hb He l1 s l2 E. destruct (list_snoc_inv l2) as [->|(l2' & x & ->)].
  - apply app_inj_tail in E as [<- ->]. split; [by eapply He|done].
  - rewrite app_comm_cons, app_assoc in E. apply app_inj_tail in E as [E <-].
    destruct (Ho l1 s l2' E) as [H1 H2]. split; [done|]. rewrite began_app, H2. destruct e; try done.
    exfalso. specialize (Hb node eq_refl). rewrite E, notified_app in Hb. by apply app_eq_nil in Hb as [_ ?].
Qed.
End Orders.

(** ** Topologies *)

Lemma validate_again {N : Type} `{Countable N} (g : DependencyGraph N) :
  graph_wf g -> fst (validate_locked g) = OK -> fst (validate_locked (snd (validate_locked g))) = OK.
Proof.
  intros Hw Hv. destruct (validate_spec g Hw) as (layers & remaining & _ & Hs).
  destruct (validate_locked g) as [status g']. cbn in *. subst. destruct Hs as (_ & _ & Hs).
  destruct (decide _); [|done]. destruct Hs as (_ & _ & Ht). unfold validate_locked. by rewrite Ht.
Qed.

Lemma edge_same {N : Type} `{Countable N} (g g' : DependencyGraph N) i j :
  dependents g' = dependents g -> edge g' i j <-> edge g i j.
Proof. unfold edge, outgoing. by intros ->. Qed.
