(* ===== verification/ExecutionPlan.v ===== *)
(** * Independent runs of an immutable plan (utils/execution_graph/execution_plan.hpp)

    A plan is a validated topology; every accepted submission owns a [Run] with
    private counters, driven by the threads of a job queue. The sections that
    the C++ executes under [mutex_], and the calls between them, are the steps
    of [task_step]; a history is a list of choices of which thread moves. Of
    the job queue a run sees its own urgent jobs, first in first out, and
    whether the queue is active (JobQueue.v). *)
From S2P Require Import Prelude.
From S2P Require Import DependencyGraph.
From S2P Require Import Readiness.

(** ** Plans *)

Section Plan.
Context {N : Type} `{Countable N}.

(** [Data]: the snapshot and its roots. *)
Record Data := {
  data_nodes : list N;
  data_dependents : list (list nat);
  data_dependency_counts : list Z;
  data_roots : list nat;
}.

Definition make_data (s : DependencyGraphSnapshot (N := N)) : Data :=
  {| data_nodes := snapshot_nodes s; data_dependents := snapshot_dependents s;
     data_dependency_counts := snapshot_dependency_counts s;
     data_roots := filter (fun index => count_at (snapshot_dependency_counts s) index = 0%Z)
                          (seq 0 (length (snapshot_dependency_counts s))) |}.

(** [compile]: the status, the plan ([None] is a null [data_]) and the topology
    with its refreshed cache. *)
Definition compile (topology : DependencyGraph N) : Status * option Data * DependencyGraph N :=
  let '(status, s, topology) := snapshot topology in
  if bool_decide (status = OK) then (OK, Some (make_data s), topology) else (status, None, topology).

Definition plan_valid (plan : option Data) : bool :=
  match plan with None => false | Some d => negb (bool_decide (data_nodes d = [])) end.

Definition plan_size (plan : option Data) : nat :=
  match plan with None => 0%nat | Some d => length (data_nodes d) end.

(** ** Runs *)

Record Run := {
  remaining_dependencies : list Z;
  remaining_nodes : Z;
  running_jobs : Z;
  run_status : Status;
  finished : bool;
}.

Definition new_run (d : Data) : Run :=
  {| remaining_dependencies := data_dependency_counts d;
     remaining_nodes := Z.of_nat (length (data_nodes d));
     running_jobs := 0; run_status := OK; finished := false |}.

Definition is_ok (status : Status) : bool := bool_decide (status = OK).

Definition with_running (r : Run) (running : Z) : Run :=
  {| remaining_dependencies := remaining_dependencies r; remaining_nodes := remaining_nodes r;
     running_jobs := running; run_status := run_status r; finished := finished r |}.

(** [take_completion_locked]: the status to deliver, when the run has just
    quiesced. *)
Definition take_completion (r : Run) : option Status * Run :=
  if finished r || negb (running_jobs r =? 0)%Z || (is_ok (run_status r) && negb (remaining_nodes r =? 0)%Z)
  then (None, r)
  else (Some (run_status r),
        {| remaining_dependencies := remaining_dependencies r; remaining_nodes := remaining_nodes r;
           running_jobs := running_jobs r; run_status := run_status r; finished := true |}).

(** A thread inside this run, by the code it is about to execute: a caller's
    job, the locked block of [complete], the loop that schedules the nodes in
    [todo] (after which [complete] takes the completion when [last]), and, in
    [schedule], the submission, the handling of its rejection, and the call of
    the completion. *)
Inductive Task :=
| Executing (node : nat)
| Completing (node : nat)
| Scheduling (todo : list nat) (last : bool)
| Submitting (node : nat) (todo : list nat) (last : bool)
| Rejecting (node : nat) (todo : list nat) (last : bool)
| Finishing
| Invoking (result : Status) (todo : list nat) (last : bool).

(** The rest of the scheduling loop. *)
Definition looping (todo : list nat) (last : bool) : list Task :=
  match todo with
  | [] => if last then [Finishing] else []
  | _ => [Scheduling todo last]
  end.

(** [invoke] does nothing without a completion. *)
Definition invoking (completion : option Status) (todo : list nat) (last : bool) : list Task :=
  match completion with
  | None => looping todo last
  | Some result => [Invoking result todo last]
  end.

(** One step of a thread: the run, the queue, what the thread does next and
    what happened. *)
Definition task_step (d : Data) (accepting : bool) (r : Run) (q : list nat) (t : Task)
  : Run * list nat * list Task * list RunEvent :=
  match t with
  | Executing node => (r, q, [Completing node], [Ended node])
  | Completing node =>
      let r := with_running r (running_jobs r - 1)%Z in
      if is_ok (run_status r) then
        let '(remaining, ready) :=
          fold_left release (default [] (data_dependents d !! node)) (remaining_dependencies r, []) in
        ({| remaining_dependencies := remaining; remaining_nodes := (remaining_nodes r - 1)%Z;
            running_jobs := running_jobs r; run_status := run_status r; finished := finished r |},
         q, looping ready true, [Released node])
      else (r, q, looping [] true, [Aborted node])
  | Scheduling [] last => (r, q, looping [] last, [])
  | Scheduling (node :: todo) last =>
      if finished r || negb (is_ok (run_status r))
      then (r, q, looping todo last, [Skipped node])
      else (with_running r (running_jobs r + 1)%Z, q, [Submitting node todo last], [])
  | Submitting node todo last =>
      if accepting then (r, q ++ [node], looping todo last, [])
      else (r, q, [Rejecting node todo last], [])
  | Rejecting node todo last =>
      let r := {| remaining_dependencies := remaining_dependencies r; remaining_nodes := remaining_nodes r;
                  running_jobs := (running_jobs r - 1)%Z;
                  run_status := if is_ok (run_status r) then WORKER_SUBMISSION_FAILED else run_status r;
                  finished := finished r |} in
      let (completion, r) := take_completion r in
      (r, q, invoking completion todo last, [Rejected node])
  | Finishing =>
      let (completion, r) := take_completion r in
      (r, q, invoking completion [] false, [])
  | Invoking result todo last => (r, q, looping todo last, [Notified result])
  end.

(** A run with the queue it was submitted to and the threads inside it. *)
Record World := {
  run : Run;
  accepting : bool;
  queue : list nat;
  tasks : list Task;
  log : list RunEvent;
}.

(** A worker takes the next queued job; a thread moves; the queue is shut
    down, discarding what has not started. *)
Inductive Choice :=
| Advance (thread : nat)
| Take
| Shutdown.

Definition choose (d : Data) (w : World) (c : Choice) : option World :=
  match c with
  | Advance k =>
      t ← tasks w !! k;
      let '(r, q, next, events) := task_step d (accepting w) (run w) (queue w) t in
      Some {| run := r; accepting := accepting w; queue := q;
              tasks := take k (tasks w) ++ next ++ drop (S k) (tasks w); log := log w ++ events |}
  | Take =>
      match accepting w, queue w with
      | true, node :: q =>
          Some {| run := run w; accepting := true; queue := q;
                  tasks := tasks w ++ [Executing node]; log := log w ++ [Began node] |}
      | _, _ => None
      end
  | Shutdown =>
      if accepting w then
        Some {| run := run w; accepting := false; queue := []; tasks := tasks w;
                log := log w ++ [Discarded (queue w)] |}
      else None
  end.

Fixpoint play (d : Data) (w : World) (choices : list Choice) : option World :=
  match choices with
  | [] => Some w
  | c :: choices => w ← choose d w c; play d w choices
  end.

(** [Run::start] on the submitting thread. *)
Definition start_run (d : Data) : World :=
  {| run := new_run d; accepting := true; queue := []; tasks := looping (data_roots d) false; log := [] |}.

(** [submit]; [None] is a null job. *)
Definition submit {J : Type} (plan : option Data) (jobs : list (option J)) (has_completion active : bool)
  : Status * option World :=
  match plan with
  | None => (INVALID_ARGUMENT, None)
  | Some d =>
      if bool_decide (data_nodes d = []) || negb (length jobs =? length (data_nodes d))%nat
         || negb has_completion || negb active
      then (INVALID_ARGUMENT, None)
      else if forallb (fun job => bool_decide (is_Some job)) jobs then (OK, Some (start_run d))
      else (INVALID_ARGUMENT, None)
  end.
End Plan.
Arguments Data N : clear implicits.
