(* ===== verification/PlanRuns.v ===== *)
(** * Histories of a plan's runs

    The invariant of one run under every interleaving of its threads, the
    measure that bounds its histories, and the state in which they end. *)
From S2P Require Import Prelude.
From S2P Require Import DependencyGraph.
From S2P Require Import Readiness.
From S2P Require Import ExecutionPlan.

(** ** Where the nodes of a run are *)

Definition task_nodes (t : Task) : list nat :=
  match t with
  | Executing i | Completing i => [i]
  | Scheduling todo _ => todo
  | Submitting i todo _ | Rejecting i todo _ => i :: todo
  | Finishing => []
  | Invoking _ todo _ => todo
  end.

(** The threads counted by [running_jobs_]. *)
Definition task_busy (t : Task) : list nat :=
  match t with
  | Executing i | Completing i | Submitting i _ _ | Rejecting i _ _ => [i]
  | _ => []
  end.

(** The threads inside a caller's job, and behind it. *)
Definition task_executing (t : Task) : list nat := match t with Executing i => [i] | _ => [] end.
Definition task_completing (t : Task) : list nat := match t with Completing i => [i] | _ => [] end.

Definition task_delivering (t : Task) : list Status :=
  match t with Invoking result _ _ => [result] | _ => [] end.

(** Every node that became ready is in exactly one of these places. *)
Definition placed (w : World) : list nat :=
  flat_map task_nodes (tasks w) ++ queue w ++ settled_nodes (log w).

Lemma looping_views todo last :
  flat_map task_nodes (looping todo last) = todo /\ flat_map task_busy (looping todo last) = [] /\
  flat_map task_executing (looping todo last) = [] /\ flat_map task_completing (looping todo last) = [] /\
  flat_map task_delivering (looping todo last) = [].
Proof. destruct todo, last; cbn; by rewrite ?app_nil_r. Qed.

Lemma invoking_views c todo last :
  flat_map task_nodes (invoking c todo last) = todo /\ flat_map task_busy (invoking c todo last) = [] /\
  flat_map task_executing (invoking c todo last) = [] /\ flat_map task_completing (invoking c todo last) = [] /\
  flat_map task_delivering (invoking c todo last) = match c with Some s => [s] | None => [] end.
Proof. destruct c; [cbn; by rewrite ?app_nil_r|apply looping_views]. Qed.

Section Runs.
Context {N : Type} `{Countable N} (g : DependencyGraph N) (d : Data N).
Hypothesis Hw : graph_wf g.
Hypothesis Hvalid : fst (validate_locked g) = OK.

(** [d] is the compiled form of [g]. *)
Record compiled : Prop := {
  compiled_nodes : data_nodes d = nodes g;
  compiled_dependents : data_dependents d = dependents g;
  compiled_counts : data_dependency_counts d = dependency_counts g;
  compiled_roots : data_roots d = initial_ready g;
}.
Hypothesis Hd : compiled.

Abbreviation total := (length (nodes g)).

Record plan_inv (w : World) : Prop := {
  pi_nodup : NoDup (placed w);
  pi_placed : forall j, j ∈ placed w <-> ready_after g (released (log w)) j;
  pi_counts : counts_ready g (released (log w)) (remaining_dependencies (run w));
  pi_remaining : remaining_nodes (run w) = (Z.of_nat total - Z.of_nat (length (released (log w))))%Z;
  pi_running : running_jobs (run w) =
    Z.of_nat (length (flat_map task_busy (tasks w)) + length (queue w) + length (discarded (log w)));
  pi_status : run_status (run w) = OK \/ run_status (run w) = WORKER_SUBMISSION_FAILED;
  pi_lost : run_status (run w) = OK ->
    settled_nodes (log w) ≡ₚ released (log w) ++ discarded (log w);
  pi_aborted : run_status (run w) = OK -> aborted (log w) = [];
  pi_finished : finished (run w) = true ->
    running_jobs (run w) = 0%Z /\ (run_status (run w) = OK -> remaining_nodes (run w) = 0%Z);
  pi_notified : notified (log w) ++ flat_map task_delivering (tasks w) ≡ₚ
    if finished (run w) then [run_status (run w)] else [];
  pi_began : began (log w) ≡ₚ flat_map task_executing (tasks w) ++ ended (log w);
  pi_ended : ended (log w) ≡ₚ flat_map task_completing (tasks w) ++ released (log w) ++ aborted (log w);
  pi_order : in_order g (log w);
  pi_quiet : quiet_after (log w);
}.

Lemma ready_bound done j : ready_after g done j -> (j < total)%nat.
Proof. by intros []. Qed.

(** The invariant does not depend on the order of the threads. *)
Lemma plan_inv_perm w w' : run w' = run w -> queue w' = queue w -> log w' = log w -> tasks w ≡ₚ tasks w' ->
  plan_inv w -> plan_inv w'.
Proof.
  intros Er Eq El Ht [].
  assert (Hp : placed w' ≡ₚ placed w) by (unfold placed; by rewrite Eq, El, Ht).
  assert (Hb : length (flat_map task_busy (tasks w')) = length (flat_map task_busy (tasks w))) by (by rewrite Ht).
  split; rewrite ?Er, ?Eq, ?El; try done.
  - by rewrite Hp.
  - intros j. by rewrite Hp.
  - by rewrite Hb.
  - by rewrite <- Ht.
  - by rewrite <- Ht.
  - by rewrite <- Ht.
Qed.

Lemma start_inv : plan_inv (start_run d).
Proof.
  destruct (initial_ready_spec g Hw) as [Hn Hi]. destruct (looping_views (data_roots d) false) as (V1 & V2 & V3 & V4 & V5).
  assert (Hp : placed (start_run d) = initial_ready g).
  { unfold placed. cbn. rewrite V1. by rewrite app_nil_r, (compiled_roots Hd). }
  split; cbn [start_run run new_run log released settled_nodes omap list_omap flat_map queue tasks
    remaining_dependencies remaining_nodes running_jobs run_status finished]; try done.
  - by rewrite Hp.
  - intros j. rewrite Hp. apply Hi.
  - rewrite (compiled_counts Hd). by apply counts_ready_start.
  - rewrite (compiled_nodes Hd). cbn. lia.
  - rewrite V2. done.
  - by left.
  - by rewrite V5.
  - by rewrite V3.
  - by rewrite V4.
  - apply in_order_nil.
  - apply quiet_after_nil.
Qed.

(** A delivered or undelivered completion means that nothing of the run is
    left in the pool. *)
Lemma finished_idle w : plan_inv w -> finished (run w) = true ->
  flat_map task_busy (tasks w) = [] /\ queue w = [] /\ discarded (log w) = [].
Proof.
  intros I Hf. destruct (pi_finished _ I Hf) as [Hr _]. rewrite (pi_running _ I) in Hr.
  split_and!; apply length_zero_iff_nil; lia.
Qed.

Lemma busy_working ts : flat_map task_busy ts = [] ->
  flat_map task_executing ts = [] /\ flat_map task_completing ts = [].
Proof.
  induction ts as [|t ts IH]; [done|]. cbn. intros [Ht Hts]%app_eq_nil. destruct (IH Hts) as [-> ->].
  by destruct t.
Qed.

Lemma released_once w : plan_inv w -> NoDup (released (log w)).
Proof.
  intros I. pose proof (pi_nodup _ I) as Hn. unfold placed in Hn.
  apply NoDup_app in Hn as (_ & _ & Hn). apply NoDup_app in Hn as (_ & _ & Hn). by apply released_nodup.
Qed.

(** A run that finished without failure released every node. *)
Lemma finished_released w : plan_inv w -> finished (run w) = true -> run_status (run w) = OK ->
  released (log w) ≡ₚ seq 0 total.
Proof.
  intros I Hf Hs. destruct (pi_finished _ I Hf) as [_ Hr]. specialize (Hr Hs).
  rewrite (pi_remaining _ I) in Hr. apply submseteq_length_Permutation; [|rewrite length_seq; lia].
  apply NoDup_submseteq; [by apply released_once|]. intros j Hj%released_settled. apply elem_of_seq.
  assert (Hp : j ∈ placed w) by (unfold placed; rewrite !elem_of_app; auto).
  apply (pi_placed _ I) in Hp as [Hp _]. lia.
Qed.
(** ** Steps *)

(** The world after the thread [t] has moved; [rest] are the other threads. *)
Definition stepped (w : World) (t : Task) (rest : list Task) : World :=
  let '(r, q, next, events) := task_step d (accepting w) (run w) (queue w) t in
  {| run := r; accepting := accepting w; queue := q; tasks := next ++ rest; log := log w ++ events |}.

Ltac world_simpl := cbn [run accepting queue tasks log remaining_dependencies remaining_nodes running_jobs
  run_status finished with_running].

(** Views of the threads: [t], what it became, and the others. *)
Ltac views E :=
  rewrite ?E in *; rewrite ?flat_map_app;
  cbn [flat_map task_nodes task_busy task_executing task_completing task_delivering app] in *.

Lemma executing_inv w i rest : tasks w = Executing i :: rest -> plan_inv w -> plan_inv (stepped w (Executing i) rest).
Proof.
  intros E []. unfold stepped, placed in *. cbn [task_step]. 
  split; unfold placed; world_simpl; views E; log_simpl; rewrite ?app_nil_r; try done.
  - rewrite pi_began0. solve_Permutation.
  - rewrite pi_ended0. solve_Permutation.
  - by apply in_order_snoc.
  - by apply quiet_after_snoc.
Qed.

Lemma skipping_inv w i todo last rest : tasks w = Scheduling (i :: todo) last :: rest -> plan_inv w ->
  plan_inv (stepped w (Scheduling (i :: todo) last) rest).
Proof.
  intros E I. pose proof I as []. unfold stepped, placed in *. cbn [task_step].
  destruct (looping_views todo last) as (V1 & V2 & V3 & V4 & V5).
  destruct (finished (run w) || negb (is_ok (run_status (run w)))) eqn:G.
  - split; unfold placed; world_simpl; views E; log_simpl; rewrite ?V1, ?V2, ?V3, ?V4, ?V5; cbn [app];
      rewrite ?app_nil_r; try done.
    + eapply NoDup_Permutation_proper; [|exact pi_nodup0]. solve_Permutation.
    + intros j. rewrite <- pi_placed0. apply elem_perm. solve_Permutation.
    + intros Hs. exfalso. unfold is_ok in G. rewrite Hs, bool_decide_true, orb_false_r in G by done.
      pose proof (finished_released w I G Hs) as Hp.
      assert (Hi : i ∈ released (log w)).
      { rewrite Hp. apply elem_of_seq. assert (Hi : ready_after g (released (log w)) i); [|destruct Hi; lia].
        apply pi_placed0, elem_of_cons. by left. }
      apply released_settled in Hi. apply NoDup_cons in pi_nodup0 as [Hn _]. apply Hn.
      rewrite !elem_of_app. auto.
    + by apply in_order_snoc.
    + by apply quiet_after_snoc.
  - apply orb_false_iff in G as [G1 G2]. 
    split; unfold placed; world_simpl; views E; log_simpl; rewrite ?app_nil_r; try done.
    + rewrite pi_running0. cbn [length]. lia.
    + by rewrite G1.
Qed.

Lemma submitting_inv w i todo last rest : tasks w = Submitting i todo last :: rest -> plan_inv w ->
  plan_inv (stepped w (Submitting i todo last) rest).
Proof.
  intros E []. unfold stepped, placed in *. cbn [task_step].
  destruct (looping_views todo last) as (V1 & V2 & V3 & V4 & V5).
  destruct (accepting w).
  - split; unfold placed; world_simpl; views E; log_simpl; rewrite ?V1, ?V2, ?V3, ?V4, ?V5; cbn [app];
      rewrite ?app_nil_r; try done.
    + eapply NoDup_Permutation_proper; [|exact pi_nodup0]. solve_Permutation.
    + intros j. rewrite <- pi_placed0. apply elem_perm. solve_Permutation.
    + rewrite pi_running0. rewrite length_app. cbn [length]. lia.
  - split; unfold placed; world_simpl; views E; log_simpl; rewrite ?app_nil_r; try done.
Qed.

Lemma invoking_inv w s todo last rest : tasks w = Invoking s todo last :: rest -> plan_inv w ->
  plan_inv (stepped w (Invoking s todo last) rest).
Proof.
  intros E I. pose proof I as []. unfold stepped, placed in *. cbn [task_step].
  destruct (looping_views todo last) as (V1 & V2 & V3 & V4 & V5).
  assert (Hf : finished (run w) = true).
  { destruct (finished (run w)) eqn:Hf; [done|]. rewrite E in pi_notified0. cbn in pi_notified0.
    symmetry in pi_notified0. apply Permutation_nil in pi_notified0.
    by apply app_eq_nil in pi_notified0 as [_ ?]. }
  destruct (finished_idle w I Hf) as (Hb & _ & _). apply busy_working in Hb as [Hb1 Hb2].
  split; unfold placed; world_simpl; views E; log_simpl; rewrite ?V1, ?V2, ?V3, ?V4, ?V5; cbn [app];
      rewrite ?app_nil_r; try done.
  - rewrite <- pi_notified0. solve_Permutation.
  - by apply in_order_snoc.
  - apply quiet_after_snoc; [done|done|]. intros s' _. rewrite pi_began0, Hb1. done.
Qed.

Lemma is_ok_spec s : is_ok s = true <-> s = OK.
Proof. unfold is_ok. apply bool_decide_eq_true. Qed.

(** Taking the completion marks a quiescent run finished. *)
Lemma take_completion_spec r :
  let (c, r') := take_completion r in
  remaining_dependencies r' = remaining_dependencies r /\ remaining_nodes r' = remaining_nodes r /\
  running_jobs r' = running_jobs r /\ run_status r' = run_status r /\
  match c with
  | None => finished r' = finished r
  | Some s => s = run_status r /\ finished r = false /\ finished r' = true /\ running_jobs r = 0%Z /\
              (run_status r = OK -> remaining_nodes r = 0%Z)
  end.
Proof.
  unfold take_completion. guard_goal; cbn; [done|].
  apply orb_false_iff in G as [G G3]. apply orb_false_iff in G as [G1 G2].
  apply negb_false_iff, Z.eqb_eq in G2. split_and!; try done. intros Hs.
  rewrite (proj2 (is_ok_spec _) Hs) in G3. cbn in G3. by apply negb_false_iff, Z.eqb_eq in G3.
Qed.

Lemma finishing_inv w rest : tasks w = Finishing :: rest -> plan_inv w -> plan_inv (stepped w Finishing rest).
Proof.
  intros E I. pose proof I as []. unfold stepped, placed in *. cbn [task_step].
  pose proof (take_completion_spec (run w)) as T. destruct (take_completion (run w)) as [c r'].
  destruct T as (T1 & T2 & T3 & T4 & T5).
  destruct (invoking_views c [] false) as (V1 & V2 & V3 & V4 & V5).
  split; unfold placed; world_simpl; views E; rewrite ?T1, ?T2, ?T3, ?T4, ?V1, ?V2, ?V3, ?V4, ?V5; cbn [app];
    rewrite ?app_nil_r; try done.
  - destruct c; [|by rewrite T5]. intros _. tauto.
  - destruct c as [s|]; [|by rewrite T5]. destruct T5 as (-> & T5 & T6 & _). rewrite T6.
    rewrite T5 in pi_notified0. symmetry in pi_notified0; apply Permutation_nil, app_eq_nil in pi_notified0 as [-> ->]. done.
Qed.

Lemma rejecting_inv w i todo last rest : tasks w = Rejecting i todo last :: rest -> plan_inv w ->
  plan_inv (stepped w (Rejecting i todo last) rest).
Proof.
  intros E I. pose proof I as []. unfold stepped, placed in *. cbn [task_step].
  set (r1 := {| remaining_dependencies := _; remaining_nodes := _; running_jobs := _; run_status := _; finished := _ |}).
  pose proof (take_completion_spec r1) as T. destruct (take_completion r1) as [c r'].
  destruct T as (T1 & T2 & T3 & T4 & T5).
  destruct (invoking_views c todo last) as (V1 & V2 & V3 & V4 & V5).
  assert (Hf : finished (run w) = false).
  { destruct (finished (run w)) eqn:Hf; [|done]. destruct (finished_idle w I Hf) as [Hb _]. by rewrite E in Hb. }
  assert (Hs : run_status r1 = WORKER_SUBMISSION_FAILED).
  { cbn. destruct pi_status0 as [->| ->]; done. }
  split; unfold placed; world_simpl; views E; log_simpl; rewrite ?T1, ?T2, ?T3, ?T4, ?V1, ?V2, ?V3, ?V4, ?V5, ?Hs;
    cbn [app]; rewrite ?app_nil_r; try done.
  - eapply NoDup_Permutation_proper; [|exact pi_nodup0]. solve_Permutation.
  - intros j. rewrite <- pi_placed0. apply elem_perm. solve_Permutation.
  - cbn [r1 running_jobs]. rewrite pi_running0. cbn [length]. lia.
  - by right.
  - destruct c; [|by rewrite T5; cbn [r1 finished]; rewrite Hf]. intros _. split; [tauto|done].
  - rewrite Hf in pi_notified0. symmetry in pi_notified0; apply Permutation_nil, app_eq_nil in pi_notified0 as [-> ->].
    destruct c as [s|]; cbn [r1 finished] in T5; [|by rewrite T5, Hf].
    destruct T5 as (-> & _ & -> & _). by rewrite Hs.
  - by apply in_order_snoc.
  - by apply quiet_after_snoc.
Qed.

Lemma completing_failed_inv w i rest : tasks w = Completing i :: rest -> run_status (run w) <> OK -> plan_inv w ->
  plan_inv (stepped w (Completing i) rest).
Proof.
  intros E Hs I. pose proof I as []. unfold stepped, placed in *. cbn [task_step].
  assert (Hk : is_ok (run_status (with_running (run w) (running_jobs (run w) - 1)%Z)) = false)
    by (unfold is_ok; cbn; by apply bool_decide_false).
  rewrite Hk.
  assert (Hf : finished (run w) = false).
  { destruct (finished (run w)) eqn:Hf; [|done]. destruct (finished_idle w I Hf) as [Hb _]. by rewrite E in Hb. }
  split; unfold placed; world_simpl; views E; log_simpl; cbn [looping flat_map task_nodes task_busy task_executing task_completing task_delivering app];
    rewrite ?app_nil_r; try done.
  - eapply NoDup_Permutation_proper; [|exact pi_nodup0]. solve_Permutation.
  - intros j. rewrite <- pi_placed0. apply elem_perm. solve_Permutation.
  - rewrite pi_running0. cbn [length]. lia.
  - by rewrite Hf.
  - rewrite pi_ended0. solve_Permutation.
  - by apply in_order_snoc.
  - by apply quiet_after_snoc.
Qed.

Lemma completing_inv w i rest : tasks w = Completing i :: rest -> run_status (run w) = OK -> plan_inv w ->
  plan_inv (stepped w (Completing i) rest).
Proof.
  intros E Hs I. pose proof I as []. unfold stepped, placed in *. cbn [task_step].
  assert (Hk : is_ok (run_status (with_running (run w) (running_jobs (run w) - 1)%Z)) = true)
    by (apply is_ok_spec; done).
  rewrite Hk. cbn [with_running remaining_dependencies remaining_nodes running_jobs run_status finished].
  assert (Hf : finished (run w) = false).
  { destruct (finished (run w)) eqn:Hf; [|done]. destruct (finished_idle w I Hf) as [Hb _]. by rewrite E in Hb. }
  rewrite E in pi_nodup0, pi_placed0. cbn [flat_map task_nodes app] in pi_nodup0, pi_placed0.
  assert (Hi : ready_after g (released (log w)) i) by (apply pi_placed0, elem_of_cons; by left).
  assert (Hni : i ∉ released (log w)).
  { intros Hr%released_settled. apply NoDup_cons in pi_nodup0 as [Hn _]. apply Hn. rewrite !elem_of_app. auto. }
  pose proof (counts_release g Hw (released (log w)) (remaining_dependencies (run w)) i pi_counts0 (proj1 Hi) Hni) as R.
  
  rewrite (compiled_dependents Hd). change (default [] (dependents g !! i)) with (outgoing g i).
  destruct (fold_left release (outgoing g i) (remaining_dependencies (run w), [])) as [remaining ready].
  destruct R as (R1 & R2 & R3).
  destruct (looping_views ready true) as (V1 & V2 & V3 & V4 & V5).
  split; unfold placed; world_simpl; rewrite ?flat_map_app; log_simpl; rewrite ?V1, ?V2, ?V3, ?V4, ?V5; cbn [app];
    rewrite ?app_nil_r; rewrite ?E in *; cbn [flat_map task_busy task_executing task_completing task_delivering app] in *;
    try done.
  - eapply (NoDup_Permutation_proper (ready ++ (i :: flat_map task_nodes rest ++ queue w ++ settled_nodes (log w))));
      [solve_Permutation|]. apply NoDup_app. split_and!; [done| |done].
    intros j Hj Hp. apply R3 in Hj as [_ Hj]. by apply Hj, pi_placed0.
  - intros j. transitivity (j ∈ ready ++ (i :: flat_map task_nodes rest ++ queue w ++ settled_nodes (log w)));
      [apply elem_perm; solve_Permutation|]. rewrite elem_of_app, R3, pi_placed0.
    split; [intros [[? _]|?]; [done|by apply ready_after_mono]|].
    intros Hj. destruct (decide (j ∈ i :: flat_map task_nodes rest ++ queue w ++ settled_nodes (log w))) as [Hp|Hp];
      [right|left; split; [done|]]; by rewrite <- pi_placed0.
  - rewrite length_app. cbn [length]. lia.
  - rewrite pi_running0. cbn [length]. lia.
  - intros _. rewrite (pi_lost0 Hs). solve_Permutation.
  - by rewrite Hf.
  - rewrite pi_ended0. solve_Permutation.
  - by apply in_order_snoc.
  - by apply quiet_after_snoc.
Qed.

Lemma stepped_inv w t rest : tasks w = t :: rest -> plan_inv w -> plan_inv (stepped w t rest).
Proof.
  intros E I. destruct t as [i|i|todo last|i todo last|i todo last| |s todo last].
  - by apply executing_inv.
  - destruct (decide (run_status (run w) = OK)); [by apply completing_inv|by apply completing_failed_inv].
  - destruct todo; [|by apply skipping_inv].
    pose proof I as []. unfold stepped, placed in *. cbn [task_step].
    destruct (looping_views [] last) as (V1 & V2 & V3 & V4 & V5).
    split; unfold placed; world_simpl; views E; rewrite ?V1, ?V2, ?V3, ?V4, ?V5; cbn [app]; rewrite ?app_nil_r; done.
  - by apply submitting_inv.
  - by apply rejecting_inv.
  - by apply finishing_inv.
  - by apply invoking_inv.
Qed.

Lemma take_inv w i q : queue w = i :: q -> plan_inv w ->
  plan_inv {| run := run w; accepting := true; queue := q; tasks := tasks w ++ [Executing i]; log := log w ++ [Began i] |}.
Proof.
  intros E I. pose proof I as []. unfold placed in *.
  assert (Hf : finished (run w) = false).
  { destruct (finished (run w)) eqn:Hf; [|done]. destruct (finished_idle w I Hf) as (_ & Hq & _). congruence. }
  rewrite E in *.
  split; unfold placed; world_simpl; rewrite ?flat_map_app; log_simpl; rewrite ?app_nil_r; try done.
  - eapply NoDup_Permutation_proper; [|exact pi_nodup0]. cbn. solve_Permutation.
  - intros j. rewrite <- pi_placed0. apply elem_perm. cbn. solve_Permutation.
  - rewrite pi_running0, length_app. cbn [length flat_map task_busy app]. lia.
  - rewrite pi_began0. cbn. solve_Permutation.
  - apply in_order_snoc; [done|]. intros j [= <-] k Hk. rewrite pi_ended0, !elem_of_app. right. left.
    assert (Hi : ready_after g (released (log w)) i).
    { apply pi_placed0. rewrite !elem_of_app, elem_of_cons. auto. }
    destruct Hi as [Hi Hs].
    assert (Hp : k ∈ preds g i) by (apply elem_of_preds; split; [by eapply edge_source_bound|done]).
    by apply Hs, elem_of_list_to_set in Hp.
  - apply quiet_after_snoc; [done| |done]. intros j _. rewrite Hf in pi_notified0.
    symmetry in pi_notified0. by apply Permutation_nil, app_eq_nil in pi_notified0 as [-> _].
Qed.

Lemma shutdown_inv w : plan_inv w ->
  plan_inv {| run := run w; accepting := false; queue := []; tasks := tasks w; log := log w ++ [Discarded (queue w)] |}.
Proof.
  intros []. unfold placed in *.
  split; unfold placed; world_simpl; log_simpl; rewrite ?app_nil_r; try done.
  - eapply NoDup_Permutation_proper; [|exact pi_nodup0]. solve_Permutation.
  - intros j. rewrite <- pi_placed0. apply elem_perm. solve_Permutation.
  - rewrite pi_running0, length_app. cbn [length]. lia.
  - intros Hs. rewrite (pi_lost0 Hs). solve_Permutation.
  - by apply in_order_snoc.
  - by apply quiet_after_snoc.
Qed.

Lemma choose_inv w c w' : plan_inv w -> choose d w c = Some w' -> plan_inv w'.
Proof.
  intros I. destruct c as [k| |]; cbn [choose].
  - destruct (tasks w !! k) as [t|] eqn:Et; [|done]. cbn.
    assert (Hp : tasks w ≡ₚ t :: take k (tasks w) ++ drop (S k) (tasks w)).
    { rewrite <- (take_drop_middle _ _ _ Et) at 1. by rewrite <- Permutation_middle. }
    set (w0 := {| run := run w; accepting := accepting w; queue := queue w;
                  tasks := t :: take k (tasks w) ++ drop (S k) (tasks w); log := log w |}).
    assert (I0 : plan_inv w0) by (by apply (plan_inv_perm w)).
    pose proof (stepped_inv w0 t _ eq_refl I0) as I1. unfold stepped in I1. cbn [w0 accepting run queue log] in I1.
    destruct (task_step d (accepting w) (run w) (queue w) t) as [[[r q] next] events].
    intros [= <-]. eapply plan_inv_perm; [..|exact I1]; cbn; try done. solve_Permutation.
  - destruct (accepting w); [|done]. destruct (queue w) as [|i q] eqn:E; [done|]. intros [= <-]. by apply take_inv.
  - destruct (accepting w); [|done]. intros [= <-]. by apply shutdown_inv.
Qed.

Lemma play_inv choices : forall w w', plan_inv w -> play d w choices = Some w' -> plan_inv w'.
Proof.
  induction choices as [|c choices IH]; intros w w' I; cbn [play]; [by intros [= <-]|].
  destruct (choose d w c) as [w1|] eqn:E; [|done]. apply IH. by eapply choose_inv.
Qed.

(** ** Histories end *)

(** What a thread and the nodes in its hands can still do. *)
Definition tail_weight (todo : list nat) (last : bool) : nat := 20 * length todo + if last then 9 else 0.

Definition task_weight (t : Task) : nat :=
  match t with
  | Executing _ => 12
  | Completing _ => 11
  | Scheduling todo last => 1 + tail_weight todo last
  | Submitting _ todo last => 18 + tail_weight todo last
  | Rejecting _ todo last => 3 + tail_weight todo last
  | Finishing => 9
  | Invoking _ todo last => 2 + tail_weight todo last
  end.

(** The nodes that are not ready yet, those in the threads and in the queue,
    and the pending shutdown. *)
Definition plan_measure (w : World) : nat :=
  25 * (total - length (placed w)) + sum_list_with task_weight (tasks w) + 13 * length (queue w) +
  (if accepting w then 1 else 0).

Lemma placed_bound w : plan_inv w -> (length (placed w) <= total)%nat.
Proof.
  intros I. rewrite <- (length_seq total 0). apply submseteq_length, NoDup_submseteq; [apply I|].
  intros j Hj. apply (pi_placed _ I) in Hj as [Hj _]. apply elem_of_seq. lia.
Qed.

Lemma looping_weight todo last :
  (sum_list_with task_weight (looping todo last) <= 1 + tail_weight todo last)%nat.
Proof. destruct todo, last; cbn; lia. Qed.

Lemma invoking_weight c todo last :
  (sum_list_with task_weight (invoking c todo last) <= 2 + tail_weight todo last)%nat.
Proof. destruct c; [cbn; lia|]. cbn [invoking]. pose proof (looping_weight todo last). lia. Qed.

(** A thread's step moves nodes between the places, or brings new ones that
    weigh less than before. *)
Lemma task_step_weight acc r q t :
  let '(r', q', next, events) := task_step d acc r q t in
  exists fresh : nat,
    (length (flat_map task_nodes next) + length q' + length (settled_nodes events) =
     length (task_nodes t) + length q + fresh)%nat /\
    (sum_list_with task_weight next + 13 * length q' < task_weight t + 13 * length q + 25 * fresh \/
     sum_list_with task_weight next + 13 * length q' < task_weight t + 13 * length q /\ fresh = 0)%nat.
Proof.
  destruct t as [i|i|[|i todo] last|i todo last|i todo last| |s todo last]; cbn [task_step].
  - exists 0%nat. cbn. lia.
  - destruct (is_ok _).
    + destruct (fold_left release _ _) as [remaining ready]. exists (length ready).
      destruct (looping_views ready true) as (-> & _). pose proof (looping_weight ready true).
      cbn [settled_nodes flat_map task_nodes app length task_weight]. unfold tail_weight in *. lia.
    + exists 0%nat. cbn. lia.
  - exists 0%nat. destruct last; cbn; lia.
  - destruct (_ || _); exists 0%nat.
    + destruct (looping_views todo last) as (-> & _). pose proof (looping_weight todo last).
      cbn [settled_nodes flat_map task_nodes app length task_weight]. unfold tail_weight in *. cbn [length]. lia.
    + cbn [settled_nodes flat_map task_nodes app length task_weight sum_list_with]. unfold tail_weight.
      rewrite app_nil_r. cbn [length]. lia.
  - destruct acc; exists 0%nat.
    + destruct (looping_views todo last) as (-> & _). pose proof (looping_weight todo last).
      rewrite length_app. cbn [settled_nodes flat_map task_nodes app length task_weight]. lia.
    + cbn [settled_nodes flat_map task_nodes app length task_weight sum_list_with]. rewrite app_nil_r. cbn [length]. lia.
  - destruct (take_completion _) as [c r']. exists 0%nat.
    destruct (invoking_views c todo last) as (-> & _). pose proof (invoking_weight c todo last).
    cbn [settled_nodes flat_map task_nodes app length task_weight]. lia.
  - destruct (take_completion _) as [c r']. exists 0%nat.
    destruct (invoking_views c [] false) as (-> & _). pose proof (invoking_weight c [] false).
    cbn [settled_nodes flat_map task_nodes app length task_weight]. unfold tail_weight in *. cbn [length] in *. lia.
  - exists 0%nat. destruct (looping_views todo last) as (-> & _). pose proof (looping_weight todo last).
    cbn [settled_nodes flat_map task_nodes app length task_weight]. lia.
Qed.

Lemma choose_measure w c w' : plan_inv w -> choose d w c = Some w' -> (plan_measure w' < plan_measure w)%nat.
Proof.
  intros I E. pose proof (placed_bound w' (choose_inv w c w' I E)) as Hb. pose proof (placed_bound w I) as Hb0.
  unfold plan_measure. unfold placed in *. rewrite !length_app in *. destruct c as [k| |]; cbn [choose] in E.
  - destruct (tasks w !! k) as [t|] eqn:Et; [|done]. cbn in E.
    assert (Hs : forall f : Task -> nat, sum_list_with f (tasks w)
      = (f t + sum_list_with f (take k (tasks w)) + sum_list_with f (drop (S k) (tasks w)))%nat).
    { intros f. rewrite <- (take_drop_middle _ _ _ Et) at 1. rewrite sum_list_with_app. cbn. lia. }
    assert (Hn : length (flat_map task_nodes (tasks w)) = (length (task_nodes t)
      + length (flat_map task_nodes (take k (tasks w))) + length (flat_map task_nodes (drop (S k) (tasks w))))%nat).
    { rewrite <- (take_drop_middle _ _ _ Et) at 1. rewrite flat_map_app. cbn. rewrite !length_app. lia. }
    pose proof (task_step_weight (accepting w) (run w) (queue w) t) as T.
    destruct (task_step d (accepting w) (run w) (queue w) t) as [[[r q] next] events]. injection E as <-.
    destruct T as (fresh & T1 & T2).
    cbn [tasks queue accepting log] in *.
    rewrite settled_app, !flat_map_app, !length_app in Hb |- *. rewrite !sum_list_with_app, Hs. rewrite Hn in *. lia.
  - destruct (accepting w); [|done]. destruct (queue w) as [|i q]; [done|]. injection E as <-.
    cbn [tasks queue accepting log] in *. rewrite settled_app, !flat_map_app, !length_app in *.
    rewrite sum_list_with_app. cbn in *. lia.
  - destruct (accepting w); [|done]. injection E as <-. cbn [tasks queue accepting log] in *.
    rewrite settled_app, !length_app in *. cbn in *. rewrite ?app_nil_r in *. lia.
Qed.

Lemma play_bounded choices : forall w w', plan_inv w -> play d w choices = Some w' ->
  (length choices + plan_measure w' <= plan_measure w)%nat.
Proof.
  induction choices as [|c choices IH]; intros w w' I; cbn [play]; [intros [= <-]; cbn [length]; lia|].
  destruct (choose d w c) as [w1|] eqn:E; [|done]. intros Hp.
  pose proof (choose_measure _ _ _ I E). specialize (IH w1 w' (choose_inv _ _ _ I E) Hp). cbn [length]. lia.
Qed.

(** Nothing can move any more, the queue's own shutdown aside. *)
Definition stuck (w : World) : Prop := forall c, c <> Shutdown -> choose d w c = None.

Lemma stuck_spec w : stuck w <-> tasks w = [] /\ (accepting w = true -> queue w = []).
Proof.
  split.
  - intros Hs. split.
    + destruct (tasks w) as [|t ts] eqn:E; [done|]. specialize (Hs (Advance 0) ltac:(done)). cbn in Hs. rewrite E in Hs.
      cbn in Hs. by destruct (task_step d (accepting w) (run w) (queue w) t) as [[[? ?] ?] ?].
    + intros Ha. specialize (Hs Take ltac:(done)). cbn in Hs. rewrite Ha in Hs. by destruct (queue w).
  - intros [Ht Hq] [k| |] Hc; cbn; [by rewrite Ht|..|done].
    destruct (accepting w); [|done]. by rewrite Hq.
Qed.
End Runs.
