(* ===== verification/PlanProps.v ===== *)
(** * What a submitted run promises

    Compilation, the safety of every interleaving of a run, and its end: every
    history stops, and where it stops the result has been delivered once unless
    a shutdown of the queue discarded jobs of the run. *)
From S2P Require Import Prelude.
From S2P Require Import DependencyGraph.
From S2P Require Import Readiness.
From S2P Require Import ExecutionPlan.
From S2P Require Import PlanRuns.

#[export] Instance choice_eq_dec : EqDecision Choice.
Proof. solve_decision. Defined.

(** ** Compiled plans *)

Lemma compile_spec {N : Type} `{Countable N} (g : DependencyGraph N) :
  graph_wf g ->
  let '(status, plan, g') := compile g in
  status = fst (validate_locked g) /\ g' = snd (validate_locked g) /\
  match plan with Some d => status = OK /\ compiled g' d | None => status <> OK end.
Proof.
  intros Hw. pose proof (validate_wf g Hw) as Hw'.
  unfold compile, snapshot. destruct (validate_locked g) as [status g']. cbn [snd] in Hw'.
  destruct (decide (status = OK)) as [->|Hn].
  - rewrite !bool_decide_true by done. cbn. split; [done|]. split; [done|]. split; [done|].
    split; cbn; [done..|]. unfold initial_ready. by rewrite (wf_counts_length g' Hw').
  - rewrite !bool_decide_false by done. cbn. by rewrite ?bool_decide_false.
Qed.

(** A plan carries the invariants of the graph it came from. *)
Lemma compile_graph {N : Type} `{Countable N} (g g' : DependencyGraph N) d :
  reachable g -> compile g = (OK, Some d, g') ->
  graph_wf g' /\ fst (validate_locked g') = OK /\ compiled g' d /\ nodes g' = nodes g /\ dependents g' = dependents g.
Proof.
  intros Hr E. pose proof (graph_reachable_wf g Hr) as Hw. pose proof (compile_spec g Hw) as Hs. rewrite E in Hs.
  destruct Hs as (Hv & -> & _ & Hc). split_and!; [by apply validate_wf|by apply validate_again|done| |];
    destruct (validate_spec g Hw) as (? & ? & _ & Hs); destruct (validate_locked g); tauto.
Qed.

(** ** Completion is never forgotten *)

Section Live.
Context {N : Type} `{Countable N} (g : DependencyGraph N) (d : Data N).
Hypothesis Hw : graph_wf g.
Hypothesis Hvalid : fst (validate_locked g) = OK.
Hypothesis Hd : compiled g d.

Abbreviation total := (length (nodes g)).

(** The threads that still have a completion to take. *)
Definition task_last (t : Task) : bool :=
  match t with
  | Scheduling _ last | Submitting _ _ last | Rejecting _ _ last | Invoking _ _ last => last
  | Finishing => true
  | Executing _ | Completing _ => false
  end.

Definition over (r : Run) : Prop := running_jobs r = 0%Z /\ (run_status r <> OK \/ remaining_nodes r = 0%Z).

Record live_inv (w : World) : Prop := {
  li_plan : plan_inv g w;
  li_over : finished (run w) = false -> over (run w) -> Exists (fun t => task_last t = true) (tasks w);
  li_closed : accepting w = false -> queue w = [];
  li_open : accepting w = true ->
    discarded (log w) = [] /\ run_status (run w) = OK /\ Forall (fun t => forall i todo last, t <> Rejecting i todo last) (tasks w);
}.

Lemma take_completion_over r : let (_, r') := take_completion r in finished r' = false -> ~ over r'.
Proof.
  unfold take_completion, over. guard_goal; cbn; [|done]. intros Hf [Hr Ho]. rewrite Hf, Hr in G. cbn in G.
  unfold is_ok in G. destruct Ho as [Ho|Ho]; [rewrite bool_decide_false in G by done; done|].
  rewrite Ho in G. cbn in G. by rewrite andb_false_r in G.
Qed.

Lemma looping_last todo : Exists (fun t => task_last t = true) (looping todo true).
Proof. destruct todo; by constructor. Qed.

Lemma looping_open todo last : Forall (fun t => forall i todo last, t <> Rejecting i todo last) (looping todo last).
Proof. destruct todo, last; by repeat constructor. Qed.

Lemma invoking_last c todo : Exists (fun t => task_last t = true) (invoking c todo true).
Proof. destruct c; [by constructor|apply looping_last]. Qed.

(** A thread's step leaves someone to take the completion. *)
Lemma stepped_over w t rest : tasks w = t :: rest -> live_inv w ->
  finished (run (stepped d w t rest)) = false -> over (run (stepped d w t rest)) ->
  Exists (fun t => task_last t = true) (tasks (stepped d w t rest)).
Proof.
  intros E [I Ho _ _]. pose proof (pi_running _ _ I) as Hr. rewrite E in *. cbn [flat_map] in Hr. rewrite length_app in Hr.
  assert (Hkeep : forall next, (task_last t = true -> Exists (fun t => task_last t = true) next) ->
    finished (run w) = false -> over (run w) -> Exists (fun t => task_last t = true) (next ++ rest)).
  { intros next Hn Hf Hov. specialize (Ho Hf Hov). apply Exists_app. apply Exists_cons in Ho as [?|?]; auto. }
  unfold stepped. destruct t as [i|i|[|i todo] last|i todo last|i todo last| |s todo last]; cbn [task_step].
  - cbn [run tasks]. by apply Hkeep.
  - destruct (is_ok _).
    + destruct (fold_left release _ _) as [remaining ready]. intros _ _. cbn [tasks]. apply Exists_app. left. apply looping_last.
    + intros _ _. cbn [tasks]. apply Exists_app. left. apply looping_last.
  - cbn [run tasks]. apply Hkeep. cbn. intros ->. by constructor.
  - destruct (_ || _).
    + cbn [run tasks]. apply Hkeep. cbn. intros ->. apply looping_last.
    + cbn [run]. unfold over. cbn. intros _ [? _]. lia.
  - cbn in Hr. destruct (accepting w); cbn [run tasks]; intros _ [? _]; lia.
  - match goal with |- context [take_completion ?r] => pose proof (take_completion_over r) as Ht;
      destruct (take_completion r) as [c r'] end. cbn [run]. intros Hf Hov. by destruct (Ht Hf).
  - pose proof (take_completion_over (run w)) as Ht. destruct (take_completion (run w)) as [c r'].
    cbn [run]. intros Hf Hov. by destruct (Ht Hf).
  - cbn [run tasks]. apply Hkeep. cbn. intros ->. apply looping_last.
Qed.

Lemma stepped_open w t rest : tasks w = t :: rest -> live_inv w -> accepting w = true ->
  discarded (log (stepped d w t rest)) = [] /\ run_status (run (stepped d w t rest)) = OK /\
  Forall (fun t => forall i todo last, t <> Rejecting i todo last) (tasks (stepped d w t rest)).
Proof.
  intros E [I _ _ Ho] Ha. destruct (Ho Ha) as (Hd' & Hs & Hf). rewrite E in Hf. apply Forall_cons in Hf as [Ht Hf].
  unfold stepped. destruct t as [i|i|[|i todo] last|i todo last|i todo last| |s todo last]; cbn [task_step].
  - cbn [run log tasks]. log_simpl. rewrite Hd'. split_and!; [done|done|]. by repeat constructor.
  - unfold is_ok. cbn [run_status with_running]. rewrite bool_decide_true by done.
    destruct (fold_left release _ _) as [remaining ready]. cbn [run log tasks run_status]. log_simpl. rewrite Hd'.
    split_and!; [done|done|]. apply Forall_app. split; [apply looping_open|done].
  - cbn [run log tasks]. log_simpl. rewrite Hd'. split_and!; [done|done|]. destruct last; by repeat constructor.
  - destruct (_ || _); cbn [run log tasks]; log_simpl; rewrite Hd'; (split_and!; [done|done|]).
    + apply Forall_app. split; [apply looping_open|done].
    + by repeat constructor.
  - rewrite Ha. cbn [run log tasks]. log_simpl. rewrite Hd'. split_and!; [done|done|].
    apply Forall_app. split; [apply looping_open|done].
  - by destruct (Ht i todo last).
  - pose proof (take_completion_spec (run w)) as Hc. destruct (take_completion (run w)) as [c r'].
    destruct Hc as (_ & _ & _ & Hc & _). cbn [run log tasks]. log_simpl. rewrite Hd'. split_and!; [done|congruence|].
    apply Forall_app. split; [|done]. destruct c; cbn; by repeat constructor.
  - cbn [run log tasks]. log_simpl. rewrite Hd'. split_and!; [done|done|].
    apply Forall_app. split; [apply looping_open|done].
Qed.

Lemma stepped_queue w t rest : accepting w = false -> queue (stepped d w t rest) = queue w.
Proof.
  intros Ha. unfold stepped. destruct t as [i|i|[|i todo] last|i todo last|i todo last| |s todo last]; cbn [task_step];
    rewrite ?Ha; repeat case_match; simplify_eq; done.
Qed.

Lemma stepped_accepting w t rest : accepting (stepped d w t rest) = accepting w.
Proof. unfold stepped. by destruct (task_step _ _ _ _ _) as [[[? ?] ?] ?]. Qed.

(** The order of the threads is immaterial. *)
Lemma live_inv_perm w w' : run w' = run w -> queue w' = queue w -> log w' = log w -> accepting w' = accepting w ->
  tasks w ≡ₚ tasks w' -> live_inv w -> live_inv w'.
Proof.
  intros Er Eq El Ea Ht [I1 I2 I3 I4]. split; rewrite ?Er, ?Eq, ?El, ?Ea; [by apply (plan_inv_perm g w)|..|done|].
  - by setoid_rewrite <- Ht.
  - by setoid_rewrite <- Ht.
Qed.

Lemma choose_live w c w' : live_inv w -> choose d w c = Some w' -> live_inv w'.
Proof.
  intros L E. pose proof (choose_inv g d Hw Hd w c w' (li_plan _ L) E) as I'. revert E. destruct c as [k| |]; cbn [choose].
  - destruct (tasks w !! k) as [t|] eqn:Et; [|done]. cbn.
    assert (Hp : tasks w ≡ₚ t :: take k (tasks w) ++ drop (S k) (tasks w)).
    { rewrite <- (take_drop_middle _ _ _ Et) at 1. by rewrite <- Permutation_middle. }
    set (w0 := {| run := run w; accepting := accepting w; queue := queue w;
                  tasks := t :: take k (tasks w) ++ drop (S k) (tasks w); log := log w |}).
    assert (L0 : live_inv w0) by (by apply (live_inv_perm w)).
    assert (L1 : plan_inv g w' -> live_inv (stepped d w0 t (take k (tasks w) ++ drop (S k) (tasks w)))).
    { intros _. split.
      - apply (stepped_inv g d Hw Hd); [done|apply L0].
      - by apply stepped_over.
      - rewrite stepped_accepting. intros Ha. rewrite stepped_queue by done. by apply L0.
      - rewrite stepped_accepting. by apply stepped_open. }
    specialize (L1 I'). unfold stepped in L1. cbn [w0 accepting run queue log] in L1.
    destruct (task_step d (accepting w) (run w) (queue w) t) as [[[r q] next] events].
    intros [= <-]. eapply live_inv_perm; [..|exact L1]; cbn; try done. solve_Permutation.
  - destruct (accepting w) eqn:Ha; [|done]. destruct (queue w) as [|i q] eqn:E; [done|]. intros [= <-].
    destruct L as [I L1 L2 L3]. specialize (L3 Ha) as (L3 & L4 & L5). split; [done|..]; cbn [run accepting queue tasks log].
    + intros Hf [Hr _]. rewrite (pi_running _ _ I), E in Hr. cbn in Hr. lia.
    + done.
    + intros _. log_simpl. rewrite L3. split_and!; [done..|]. apply Forall_app. split; [done|]. by repeat constructor.
  - destruct (accepting w) eqn:Ha; [|done]. intros [= <-]. destruct L as [I L1 L2 L3]. by split.
Qed.

Lemma play_live choices : forall w w', live_inv w -> play d w choices = Some w' -> live_inv w'.
Proof.
  induction choices as [|c choices IH]; intros w w' L; cbn [play]; [by intros [= <-]|].
  destruct (choose d w c) as [w1|] eqn:E; [|done]. apply IH. by eapply choose_live.
Qed.

Lemma start_live : nodes g <> [] -> live_inv (start_run d).
Proof.
  intros Hne. split; [by apply start_inv|..]; cbn [start_run run queue log accepting tasks finished new_run].
  - intros _ [_ [?|Ho]]; [done|]. cbn [run new_run remaining_nodes start_run] in Ho. rewrite (compiled_nodes _ _ Hd) in Ho.
    destruct (nodes g); [done|cbn [length] in Ho; lia].
  - done.
  - intros _. split_and!; [done..|]. apply looping_open.
Qed.

(** When nothing can move and nothing was discarded, the run has finished. *)
Lemma stuck_finished w : live_inv w -> stuck d w -> discarded (log w) = [] -> finished (run w) = true.
Proof.
  intros [I L1 L2 L3] [Ht Hq]%stuck_spec Hdis. destruct (finished (run w)) eqn:Hf; [done|exfalso].
  assert (Hq0 : queue w = []) by (destruct (accepting w); auto).
  assert (Hr : running_jobs (run w) = 0%Z) by (rewrite (pi_running _ _ I), Ht, Hq0, Hdis; done).
  assert (Hov : over (run w)); [|by specialize (L1 eq_refl Hov); rewrite Ht in L1; apply Exists_nil in L1].
  split; [done|]. destruct (decide (run_status (run w) = OK)) as [Hs|]; [right|by left].
  pose proof (pi_lost _ _ I Hs) as Hl. rewrite Hdis, app_nil_r in Hl.
  assert (Hall : forall j, (j < total)%nat -> j ∈ released (log w)).
  { apply (closed_done g Hw); [done|]. intros j Hj. apply (pi_placed _ _ I) in Hj.
    unfold placed in Hj. rewrite Ht, Hq0 in Hj. cbn in Hj. by rewrite Hl in Hj. }
  rewrite (pi_remaining _ _ I). assert (Hp : seq 0 total ⊆+ released (log w)).
  { apply NoDup_submseteq; [apply NoDup_seq|]. intros j [_ Hj]%elem_of_seq. by apply Hall. }
  apply submseteq_length in Hp. rewrite length_seq in Hp. 
  assert (Hp2 : released (log w) ⊆+ seq 0 total).
  { apply NoDup_submseteq; [by apply (released_once g)|]. intros j Hj%released_settled. apply elem_of_seq.
    assert (Hp2 : j ∈ placed w) by (unfold placed; rewrite !elem_of_app; auto).
    apply (pi_placed _ _ I) in Hp2 as [Hp2 _]. lia. }
  apply submseteq_length in Hp2. rewrite length_seq in Hp2. lia.
Qed.

(** A delivered success means that every job ran. *)
Lemma notified_ok_all w : plan_inv g w -> OK ∈ notified (log w) ->
  ended (log w) ≡ₚ seq 0 total /\ began (log w) ≡ₚ seq 0 total.
Proof.
  intros I Hn. pose proof (pi_notified _ _ I) as Hp. destruct (finished (run w)) eqn:Hf.
  - assert (Hs : run_status (run w) = OK).
    { assert (Hin : OK ∈ [run_status (run w)]) by (rewrite <- Hp; apply elem_of_app; by left).
      by apply list_elem_of_singleton in Hin. }
    destruct (finished_idle g w I Hf) as (Hb & _ & _). apply busy_working in Hb as [Hb1 Hb2].
    pose proof (finished_released g w I Hf Hs) as Hr.
    assert (He : ended (log w) ≡ₚ seq 0 total)
      by (rewrite (pi_ended _ _ I), Hb2, (pi_aborted _ _ I Hs), app_nil_r; done).
    split; [done|]. by rewrite (pi_began _ _ I), Hb1.
  - symmetry in Hp. apply Permutation_nil, app_eq_nil in Hp as [Hp _]. rewrite Hp in Hn. by apply elem_of_nil in Hn.
Qed.

(** No job runs twice. *)
Lemma began_nodup w : plan_inv g w -> NoDup (began (log w)).
Proof.
  intros I. assert (Hs : task_executing = task_executing) by done.
  pose proof (pi_nodup _ _ I) as Hn. unfold placed in Hn. apply NoDup_app in Hn as (Hn1 & Hn2 & Hn).
  apply NoDup_app in Hn as (_ & _ & Hn3).
  eapply NoDup_Permutation_proper; [rewrite (pi_began _ _ I), (pi_ended _ _ I); reflexivity|].
  rewrite app_assoc. apply NoDup_app. split; [|split; [|by apply settled_nodup]].
  - revert Hn1. generalize (tasks w). induction l as [|t l IH]; [constructor|]. cbn. intros Hn1.
    apply NoDup_app in Hn1 as (_ & Hd1 & Hn1). specialize (IH Hn1).
    assert (Hsub : forall i, i ∈ flat_map task_executing l ++ flat_map task_completing l -> i ∈ flat_map task_nodes l).
    { clear. induction l as [|t l IH]; cbn; [done|]. intros i. rewrite !elem_of_app in *.
      destruct t; cbn; rewrite ?list_elem_of_singleton; set_solver. }
    destruct t; cbn; try done.
    + constructor; [|done]. intros Hi%Hsub. apply (Hd1 node); [by left|done].
    + eapply NoDup_Permutation_proper; [symmetry; apply Permutation_middle|].
      constructor; [|done]. intros Hi%Hsub. apply (Hd1 node); [by left|done].
  - intros i Hi Hi2. apply (Hn2 i).
    + clear - Hi. revert Hi. generalize (tasks w). induction l as [|t l IH]; cbn; [done|]. rewrite !elem_of_app in *.
      destruct t; cbn; rewrite ?list_elem_of_singleton; set_solver.
    + apply elem_of_app. right. rewrite elem_of_app in Hi2. destruct Hi2 as [?%released_settled|?%aborted_settled]; done.
Qed.
End Live.

(** ** Accepted submissions *)

Lemma submit_spec {N J : Type} `{Countable N} (d : Data N) (jobs : list (option J)) has_completion active w :
  submit (Some d) jobs has_completion active = (OK, Some w) -> data_nodes d <> [] /\ w = start_run d.
Proof.
  unfold submit. destruct (bool_decide_reflect (data_nodes d = [])) as [|Hn]; [done|].
  destruct (_ || negb active); [done|]. destruct (forallb _ jobs); [|done]. intros [= <-]. done.
Qed.

(** Every world of an accepted run. *)
Lemma submitted_live {N J : Type} `{Countable N} (g g' : DependencyGraph N) d (jobs : list (option J)) w0 choices w :
  reachable g -> compile g = (OK, Some d, g') -> submit (Some d) jobs true true = (OK, Some w0) ->
  play d w0 choices = Some w -> live_inv g' w /\ w0 = start_run d.
Proof.
  intros Hr Hc [Hne ->]%submit_spec Hp. destruct (compile_graph g g' d Hr Hc) as (Hw & Hv & Hd & _).
  split; [|done]. eapply (play_live g' d Hw Hd); [|done]. apply start_live; [done|done|].
  by rewrite <- (compiled_nodes _ _ Hd).
Qed.

Lemma start_measure {N : Type} `{Countable N} (g : DependencyGraph N) d :
  graph_wf g -> compiled g d -> (plan_measure g (start_run d) <= 25 * length (nodes g) + 2)%nat.
Proof.
  intros Hw Hd. pose proof (placed_bound g (start_run d) (start_inv g d Hw Hd)) as Hb.
  unfold plan_measure, placed in *. cbn [start_run tasks queue log accepting] in *.
  destruct (looping_views (data_roots d) false) as (V & _). rewrite V in *.
  pose proof (looping_weight (data_roots d) false) as Hl. unfold tail_weight in Hl.
  rewrite length_app in *. cbn [settled_nodes flat_map app length] in *. lia.
Qed.

Lemma play_accepting {N : Type} `{Countable N} (d : Data N) choices : forall w w', Shutdown ∉ choices ->
  play d w choices = Some w' -> accepting w' = accepting w.
Proof.
  induction choices as [|c choices IH]; intros w w' Hn; cbn [play]; [by intros [= <-]|].
  apply not_elem_of_cons in Hn as [Hc Hn]. destruct (choose d w c) as [w1|] eqn:E; [|done]. intros Hp.
  rewrite (IH w1 w' Hn Hp). destruct c as [k| |]; cbn [choose] in E; [| |done].
  - destruct (tasks w !! k); [|done]. cbn in E. by destruct (task_step _ _ _ _ _) as [[[? ?] ?] ?]; simplify_eq.
  - destruct (accepting w); [|done]. by destruct (queue w); simplify_eq.
Qed.

(** A compilation succeeds exactly on acyclic topologies. *)
Lemma compile_status {N : Type} `{Countable N} (g : DependencyGraph N) : reachable g ->
  let '(status, plan, g') := compile g in
  (is_Some plan <-> status = OK) /\ (status = OK <-> forall x, ~ tc (depends g) x x) /\
  match plan with
  | Some d => graph_wf g' /\ compiled g' d /\ nodes g' = nodes g /\ dependents g' = dependents g
  | None => True
  end.
Proof.
  intros Hr. pose proof (graph_reachable_wf g Hr) as Hw. pose proof (compile_spec g Hw) as Hs.
  pose proof (compile_graph g) as Hg. pose proof (forward_layers_status g Hr) as Hf.
  destruct (compile g) as [[status plan] g'] eqn:E. destruct Hs as (Hv & _ & Hp).
  destruct (forward_layers g) as [[fstatus layers] g1]. destruct Hf as (_ & _ & _ & Hfs & Hok & _).
  rewrite <- Hv in Hfs. subst fstatus. split; [|split].
  - destruct plan; [|by split; [intros [? ?]|]]. destruct Hp as [Hp _]. split; [done|]. intros _. by eexists.
  - destruct (decide (status = OK)) as [|Hn]; [done|]. destruct Hok as (_ & _ & Hc). done.
  - destruct plan as [d|]; [|done]. destruct Hp as [-> _]. destruct (Hg g' d Hr eq_refl) as (? & _ & ? & ?). done.
Qed.

Lemma null_jobs {J : Type} (jobs : list (option J)) :
  forallb (fun job => bool_decide (is_Some job)) jobs = true <-> None ∉ jobs.
Proof.
  rewrite forallb_forall. split.
  - intros Hf Hn%list_elem_of_In. apply Hf, bool_decide_eq_true in Hn as [? ?]. done.
  - intros Hn [j|] Hj; [done|]. by apply list_elem_of_In in Hj.
Qed.

Lemma no_preds {N : Type} `{Countable N} (g : DependencyGraph N) j : graph_wf g ->
  preds g j ⊆ list_to_set [] <-> forall i, ~ edge g i j.
Proof.
  intros Hw. split.
  - intros Hs i He. assert (Hi : i ∈ preds g j) by (apply elem_of_preds; split; [by eapply edge_source_bound|done]).
    by apply Hs, elem_of_list_to_set, elem_of_nil in Hi.
  - intros Hn i [_ He]%elem_of_preds. by destruct (Hn i).
Qed.

(** ** Properties *)

(** A plan is compiled exactly from the acyclic topologies, holds their nodes
    in registration order, and a submission is accepted exactly when the plan
    is not empty, there is one job for every node and none is null, there is a
    completion and the queue is active; acceptance starts the run at the
    nodes without prerequisites. *)
Theorem plan_compile_submit {N J : Type} `{Countable N} (g : DependencyGraph N) (jobs : list (option J))
    (has_completion active : bool) : reachable g ->
  let '(status, plan, _) := compile g in
  (is_Some plan <-> status = OK) /\ (status = OK <-> forall x, ~ tc (depends g) x x) /\
  (status = OK -> plan_size plan = graph_size g /\ (plan_valid plan = true <-> nodes g <> [])) /\
  let '(accepted, started) := submit plan jobs has_completion active in
  (accepted = OK <-> status = OK /\ nodes g <> [] /\ length jobs = length (nodes g) /\ None ∉ jobs /\
                     has_completion = true /\ active = true) /\
  (accepted <> OK -> accepted = INVALID_ARGUMENT /\ started = None) /\
  (accepted = OK -> exists w todo, started = Some w /\ tasks w = looping todo false /\
     forall j, j ∈ todo <-> (j < length (nodes g))%nat /\ forall i, ~ edge g i j).
Proof.
  intros Hr. pose proof (compile_status g Hr) as Hs. destruct (compile g) as [[status plan] g'] eqn:E.
  destruct Hs as (Hi & Ha & Hp). split; [done|]. split; [done|]. destruct plan as [d|]; cbn [submit].
  - destruct Hp as (Hw & Hd & En & Ed). pose proof (compiled_nodes _ _ Hd) as Hn.
    assert (Hok : status = OK) by (by apply Hi). split; [intros _; unfold plan_size, plan_valid, graph_size; rewrite Hn, En|].
    { split; [done|]. destruct (bool_decide_reflect (nodes g = [])); cbn; naive_solver. }
    rewrite Hn, En. destruct (_ || negb active) eqn:G.
    + split_and!; [|done|done]. split; [done|]. intros (_ & Hne & Hl & _ & -> & ->).
      rewrite bool_decide_false in G by done. apply Nat.eqb_eq in Hl. by rewrite Hl in G.
    + apply orb_false_iff in G as [G G4]. apply orb_false_iff in G as [G G3]. apply orb_false_iff in G as [G1 G2].
      apply bool_decide_eq_false in G1. apply negb_false_iff in G2, G3, G4. apply Nat.eqb_eq in G2.
      pose proof (null_jobs jobs) as Hj. destruct (forallb _ jobs).
      2:{ split; [|done]. split; [done|]. intros (_ & _ & _ & Hnone & _). by apply Hj in Hnone. }
      split; [|split; [done|]]; [split; [|done]; intros _; split_and!; try done; by apply Hj|].
      intros _. exists (start_run d), (data_roots d). split; [done|]. split; [done|]. intros j.
      rewrite (compiled_roots _ _ Hd), (proj2 (initial_ready_spec g' Hw)). unfold ready_after. rewrite En.
      apply and_iff_compat_l. rewrite (no_preds g' j Hw). unfold edge, outgoing. by rewrite Ed.
  - assert (Hok : status <> OK) by (intros Hok; by apply Hi in Hok as [? ?]).
    split_and!; [done| |done|done]. split; [done|]. by intros [? _].
Qed.

(** Whatever the workers, the submitting thread and a shutdown of the queue do,
    in any order: no job of an accepted run begins twice, and none begins
    before all its prerequisites have ended; the result is delivered at most
    once, when every job that began has ended and with none beginning later;
    a delivered [OK] means that every job has run. *)
Theorem plan_run_safe {N J : Type} `{Countable N} (g g' : DependencyGraph N) d (jobs : list (option J))
    w0 choices w :
  reachable g -> compile g = (OK, Some d, g') -> submit (Some d) jobs true true = (OK, Some w0) ->
  play d w0 choices = Some w ->
  NoDup (began (log w)) /\
  (forall l1 j l2, log w = l1 ++ Began j :: l2 -> forall i, edge g i j -> i ∈ ended l1) /\
  (length (notified (log w)) <= 1)%nat /\
  (forall l1 s l2, log w = l1 ++ Notified s :: l2 -> ended l1 ≡ₚ began l1 /\ began l2 = []) /\
  (OK ∈ notified (log w) -> ended (log w) ≡ₚ seq 0 (length (nodes g))).
Proof.
  intros Hr Hc Hs Hp. destruct (submitted_live g g' d jobs w0 choices w Hr Hc Hs Hp) as [[I _ _ _] _].
  destruct (compile_graph g g' d Hr Hc) as (_ & _ & _ & En & Ed). split; [by eapply began_nodup|]. split; [|split; [|split]].
  - intros l1 j l2 E i He. apply (pi_order _ _ I l1 j l2 E). by apply (edge_same g).
  - pose proof (pi_notified _ _ I) as Hn. apply Permutation_length in Hn. rewrite length_app in Hn.
    destruct (finished _); cbn [length] in Hn; lia.
  - apply I.
  - intros Hok. rewrite <- En. by apply (notified_ok_all g' w I).
Qed.

(** Every history of an accepted run is finite, with a bound linear in the
    plan. Where nothing but a shutdown is left to happen, the result has been
    delivered exactly once, and it is [OK] when the queue was never shut down,
    unless a shutdown discarded queued jobs of the run: then no result is ever
    delivered. *)
Theorem plan_run_completes {N J : Type} `{Countable N} (g g' : DependencyGraph N) d (jobs : list (option J))
    w0 choices w :
  reachable g -> compile g = (OK, Some d, g') -> submit (Some d) jobs true true = (OK, Some w0) ->
  play d w0 choices = Some w ->
  (length choices <= 25 * plan_size (Some d) + 2)%nat /\
  ((forall c, c <> Shutdown -> choose d w c = None) ->
   (discarded (log w) = [] -> exists s, notified (log w) = [s] /\ (s = OK \/ s = WORKER_SUBMISSION_FAILED)) /\
   (Shutdown ∉ choices -> notified (log w) = [OK]) /\
   (discarded (log w) <> [] -> notified (log w) = [])).
Proof.
  intros Hr Hc Hs Hp. destruct (submitted_live g g' d jobs w0 choices w Hr Hc Hs Hp) as [L ->].
  destruct (compile_graph g g' d Hr Hc) as (Hw & Hv & Hd & _). pose proof (li_plan _ _ L) as I. split.
  - pose proof (play_bounded g' d Hw Hd choices (start_run d) w (start_inv g' d Hw Hd) Hp).
    pose proof (start_measure g' d Hw Hd). unfold plan_size. rewrite (compiled_nodes _ _ Hd). lia.
  - intros Hst. assert (Hn : discarded (log w) = [] -> notified (log w) = [run_status (run w)]).
    { intros Hdis. pose proof (stuck_finished g' d Hw Hv w L Hst Hdis) as Hf. pose proof (pi_notified _ _ I) as Hn.
      apply stuck_spec in Hst as [Ht _]. rewrite Hf, Ht, app_nil_r in Hn. by apply Permutation_singleton_r in Hn. }
    split; [|split].
    + intros Hdis. exists (run_status (run w)). split; [by apply Hn|apply I].
    + intros Hno. pose proof (play_accepting d choices _ w Hno Hp) as Ha. cbn in Ha.
      destruct (li_open _ _ L Ha) as (Hdis & Hok & _). rewrite Hn, Hok by done. done.
    + intros Hdis. pose proof (pi_notified _ _ I) as Hp'. destruct (finished (run w)) eqn:Hf.
      * by destruct (finished_idle g' w I Hf) as (_ & _ & ?).
      * symmetry in Hp'. by apply Permutation_nil, app_eq_nil in Hp' as [? _].
Qed.

(** ** Witnesses *)

Definition sample_plan : Data nat := default (make_data empty_snapshot) (snd (fst (compile sample_graph))).
Definition sample_compiled : DependencyGraph nat := snd (compile sample_graph).
Definition sample_jobs : list (option nat) := [Some 1; Some 2; Some 3; Some 4].

(** Two workers run the diamond, whose middle jobs overlap. *)
Definition sample_history : list Choice :=
  [Advance 0; Advance 0; Take; Advance 0; Advance 0; Advance 0; Advance 0; Take; Advance 0; Advance 0; Take;
   Advance 2; Advance 2; Advance 2; Advance 0; Advance 0; Advance 0; Advance 0; Advance 0; Take; Advance 0;
   Advance 0; Advance 0; Advance 0; Advance 0].

Definition sample_end : World := default (start_run sample_plan) (play sample_plan (start_run sample_plan) sample_history).

Example sample_run_log : log sample_end =
  [Began 0; Ended 0; Released 0; Began 2; Began 1; Ended 1; Released 1; Ended 2; Released 2; Began 3; Ended 3;
   Released 3; Notified OK].
Proof. vm_compute. reflexivity. Qed.

Lemma plan_compile_submit_witness : is_Some (snd (fst (compile sample_graph))) <-> fst (fst (compile sample_graph)) = OK.
Proof.
  pose proof (plan_compile_submit sample_graph sample_jobs true true sample_graph_reachable) as Hc.
  destruct (compile sample_graph) as [[status plan] g']. exact (proj1 Hc).
Defined.

Lemma sample_compile : compile sample_graph = (OK, Some sample_plan, sample_compiled).
Proof. vm_compute. reflexivity. Qed.

Lemma sample_submit : submit (Some sample_plan) sample_jobs true true = (OK, Some (start_run sample_plan)).
Proof. vm_compute. reflexivity. Qed.

Lemma sample_play : play sample_plan (start_run sample_plan) sample_history = Some sample_end.
Proof. vm_compute. reflexivity. Qed.

Lemma plan_run_safe_witness : NoDup (began (log sample_end)).
Proof.
  exact (proj1 (plan_run_safe sample_graph sample_compiled sample_plan sample_jobs (start_run sample_plan)
    sample_history sample_end sample_graph_reachable sample_compile sample_submit sample_play)).
Defined.

(** A shutdown while the first job is queued: nothing is left to happen and
    the result is never delivered. *)
Definition sample_shut : World :=
  default (start_run sample_plan) (play sample_plan (start_run sample_plan) [Advance 0; Advance 0; Shutdown]).

Lemma sample_shut_play :
  play sample_plan (start_run sample_plan) [Advance 0; Advance 0; Shutdown] = Some sample_shut.
Proof. vm_compute. reflexivity. Qed.

Lemma plan_run_completes_witness : notified (log sample_end) = [OK] /\ notified (log sample_shut) = [].
Proof.
  split.
  - refine (proj1 (proj2 (proj2 (plan_run_completes sample_graph sample_compiled sample_plan sample_jobs
      (start_run sample_plan) sample_history sample_end sample_graph_reachable sample_compile sample_submit
      sample_play) _)) _).
    + intros [k| |] Hc; [destruct k; reflexivity|reflexivity|by destruct Hc].
    + apply (bool_decide_unpack _). vm_compute. exact I.
  - refine (proj2 (proj2 (proj2 (plan_run_completes sample_graph sample_compiled sample_plan sample_jobs
      (start_run sample_plan) [Advance 0; Advance 0; Shutdown] sample_shut sample_graph_reachable sample_compile
      sample_submit sample_shut_play) _)) _).
    + intros [k| |] Hc; [destruct k; reflexivity|reflexivity|by destruct Hc].
    + vm_compute. discriminate.
Defined.
