(* ===== verification/ExecutionGraph.v ===== *)
(** * Reusable execution graphs (utils/execution_graph/execution_graph.hpp)

    A graph owns a topology and one job per node; [start] runs them on a job
    queue, [wait] consumes the result. Runs are numbered by [generation], so
    that a thread still inside an earlier run finds itself outdated. The
    sections under [mutex] are the steps; the job of a node is known by its
    index. Calls of [wait] from inside a graph job, which terminate the
    process, are not steps. The condition variable is not modelled either:
    [wait] may return in any step in which its predicate, a complete run,
    holds, so the theorems say when a waiter may go on, not that it is woken
    (the code notifies all waiters in, or right after, the section that
    completes a run). *)
From S2P Require Import Prelude.
From S2P Require Import DependencyGraph.
From S2P Require Import Readiness.

Section ExecutionGraph.
Context {N : Type} `{Countable N}.

Inductive RunState := IDLE | RUNNING | COMPLETE.

#[export] Instance RunState_eq_dec : EqDecision RunState.
Proof. solve_decision. Defined.

(** [Impl::Node], without its job. *)
Record Node := {
  node_dependents : list nat;
  node_dependency_count : Z;
  node_remaining_dependencies : Z;
}.

(** [Impl] *)
Record Impl := {
  topology : DependencyGraph N;
  impl_nodes : list Node;
  state : RunState;
  run_status : Status;
  remaining_nodes : Z;
  running_jobs : Z;
  generation : Z;
}.

Definition new_impl : Impl :=
  {| topology := empty_graph; impl_nodes := []; state := IDLE; run_status := OK; remaining_nodes := 0;
     running_jobs := 0; generation := 0 |}.

Definition is_ok (status : Status) : bool := bool_decide (status = OK).
Definition is_running (g : Impl) : bool := bool_decide (state g = RUNNING).

Definition with_topology (g : Impl) (t : DependencyGraph N) (nodes : list Node) : Impl :=
  {| topology := t; impl_nodes := nodes; state := state g; run_status := run_status g;
     remaining_nodes := remaining_nodes g; running_jobs := running_jobs g; generation := generation g |}.

(** ** Construction *)

(** [add]; a missing job is [false]. *)
Definition add (value : N) (has_job : bool) (g : Impl) : Status * Impl :=
  if negb has_job then (INVALID_ARGUMENT, g)
  else if negb (bool_decide (state g = IDLE)) then (EXECUTION_IN_PROGRESS, g)
  else
    let (status, t) := add_node value (topology g) in
    if is_ok status
    then (OK, with_topology g t (impl_nodes g ++
                [{| node_dependents := []; node_dependency_count := 0; node_remaining_dependencies := 0 |}]))
    else (status, with_topology g t (impl_nodes g)).

Definition depend (prerequisite dependent : N) (g : Impl) : Status * Impl :=
  if negb (bool_decide (state g = IDLE)) then (EXECUTION_IN_PROGRESS, g)
  else
    let (status, t) := add_dependency prerequisite dependent (topology g) in
    (status, with_topology g t (impl_nodes g)).

Definition active (g : Impl) : bool := negb (bool_decide (state g = IDLE)).
Definition size (g : Impl) : nat := graph_size (topology g).
Definition dependencies (g : Impl) : nat := dependency_count (topology g).

(** ** Starting and waiting *)

(** The loop over the nodes, with the snapshot. *)
Definition prepare_node (s : DependencyGraphSnapshot (N := N)) (index : nat) (_ : Node) : Node :=
  {| node_dependents := default [] (snapshot_dependents s !! index);
     node_dependency_count := count_at (snapshot_dependency_counts s) index;
     node_remaining_dependencies := count_at (snapshot_dependency_counts s) index |}.

Definition roots (nodes : list Node) : list nat :=
  filter (fun index => count_at (map node_remaining_dependencies nodes) index = 0%Z) (seq 0 (length nodes)).

(** The locked part of [start]: the roots are then scheduled outside it. *)
Definition start (workers_active : bool) (g : Impl) : Status * Impl * list nat :=
  if negb (bool_decide (state g = IDLE)) then (EXECUTION_IN_PROGRESS, g, [])
  else if negb workers_active then (INVALID_ARGUMENT, g, [])
  else
    let '(validation, s, t) := snapshot (topology g) in
    if is_ok validation then
      let nodes := imap (prepare_node s) (impl_nodes g) in
      (OK, {| topology := t; impl_nodes := nodes;
              state := if bool_decide (nodes = []) then COMPLETE else RUNNING; run_status := OK;
              remaining_nodes := Z.of_nat (length nodes); running_jobs := 0;
              generation := wrap 64 (generation g + 1) |}, roots nodes)
    else (validation, with_topology g t (impl_nodes g), []).

Definition with_state (g : Impl) (s : RunState) : Impl :=
  {| topology := topology g; impl_nodes := impl_nodes g; state := s; run_status := run_status g;
     remaining_nodes := remaining_nodes g; running_jobs := running_jobs g; generation := generation g |}.

(** [wait]; [None] blocks. *)
Definition wait (g : Impl) : option (Status * Impl) :=
  match state g with
  | IDLE => Some (OK, g)
  | RUNNING => None
  | COMPLETE => Some (run_status g, with_state g IDLE)
  end.

(** ** Threads *)

Definition with_running (g : Impl) (running : Z) : Impl :=
  {| topology := topology g; impl_nodes := impl_nodes g; state := state g; run_status := run_status g;
     remaining_nodes := remaining_nodes g; running_jobs := running; generation := generation g |}.

(** [fail_run_locked] *)
Definition fail_run (status : Status) (g : Impl) : Impl :=
  {| topology := topology g; impl_nodes := impl_nodes g;
     state := if (running_jobs g =? 0)%Z then COMPLETE else state g;
     run_status := if is_ok (run_status g) then status else run_status g;
     remaining_nodes := remaining_nodes g; running_jobs := running_jobs g; generation := generation g |}.

(** One dependent of a completed node. *)
Definition release_node (s : list Node * list nat) (dependent : nat) : list Node * list nat :=
  let (nodes, ready) := s in
  match nodes !! dependent with
  | None => (nodes, ready)
  | Some node =>
      let remaining := (node_remaining_dependencies node - 1)%Z in
      (<[dependent := {| node_dependents := node_dependents node; node_dependency_count := node_dependency_count node;
                         node_remaining_dependencies := remaining |}]> nodes,
       if (remaining =? 0)%Z then ready ++ [dependent] else ready)
  end.

(** The locked part of [complete] in the current run. *)
Definition complete (node : nat) (g : Impl) : Impl * list nat :=
  let g := with_running g (running_jobs g - 1)%Z in
  if is_ok (run_status g) then
    let dependents := match impl_nodes g !! node with Some n => node_dependents n | None => [] end in
    let '(nodes, ready) := fold_left release_node dependents (impl_nodes g, []) in
    let remaining := (remaining_nodes g - 1)%Z in
    ({| topology := topology g; impl_nodes := nodes; state := if (remaining =? 0)%Z then COMPLETE else state g;
        run_status := run_status g; remaining_nodes := remaining; running_jobs := running_jobs g;
        generation := generation g |}, ready)
  else (if (running_jobs g =? 0)%Z then with_state g COMPLETE else g, []).

(** A thread of the run [generation], by what it does next: the loop that
    schedules [todo], the submission and the handling of its rejection in
    [schedule], the first lock of [execute_node], the job, and the lock of
    [complete]. *)
Inductive Task :=
| Scheduling (run : Z) (todo : list nat)
| Submitting (run : Z) (node : nat) (todo : list nat)
| Rejecting (run : Z) (node : nat) (todo : list nat)
| Checking (run : Z) (node : nat)
| Executing (run : Z) (node : nat)
| Completing (run : Z) (node : nat).

Definition looping (run : Z) (todo : list nat) : list Task :=
  match todo with [] => [] | _ => [Scheduling run todo] end.

(** The delivery of a result is logged when the run completes. *)
Definition completion (before after : Impl) : list RunEvent :=
  if is_running before && negb (is_running after) then [Notified (run_status after)] else [].

Definition current (g : Impl) (run : Z) : bool := is_running g && (generation g =? run)%Z.

Definition task_step (accepting : bool) (g : Impl) (q : list (Z * nat)) (t : Task)
  : Impl * list (Z * nat) * list Task * list RunEvent :=
  match t with
  | Scheduling run [] => (g, q, [], [])
  | Scheduling run (node :: todo) =>
      if current g run && is_ok (run_status g)
      then (with_running g (running_jobs g + 1)%Z, q, [Submitting run node todo], [])
      else (g, q, looping run todo, if (generation g =? run)%Z then [Skipped node] else [])
  | Submitting run node todo =>
      if accepting then (g, q ++ [(run, node)], looping run todo, [])
      else (g, q, [Rejecting run node todo], [])
  | Rejecting run node todo =>
      let g' := fail_run WORKER_SUBMISSION_FAILED (with_running g (running_jobs g - 1)%Z) in
      (g', q, looping run todo, Rejected node :: completion g g')
  | Checking run node =>
      if current g run && (node <? length (impl_nodes g))%nat
      then (g, q, [Executing run node], [Began node])
      else (g, q, [], [])
  | Executing run node => (g, q, [Completing run node], [Ended node])
  | Completing run node =>
      if current g run then
        let '(g', ready) := complete node g in
        (g', q, looping run ready,
         (if is_ok (run_status g) then Released node else Aborted node) :: completion g g')
      else (g, q, [], [])
  end.

(** The graph, its queue and the threads inside it; [log] is what happened
    since the last start. *)
Record World := {
  graph : Impl;
  accepting : bool;
  queue : list (Z * nat);
  tasks : list Task;
  log : list RunEvent;
}.

Inductive Choice :=
| Advance (thread : nat)
| Take
| Shutdown
| AddNode (value : N) (has_job : bool)
| AddDependency (prerequisite dependent : N)
| Start
| Wait.

Definition with_graph (w : World) (g : Impl) : World :=
  {| graph := g; accepting := accepting w; queue := queue w; tasks := tasks w; log := log w |}.

Definition choose (w : World) (c : Choice) : option World :=
  match c with
  | Advance k =>
      t ← tasks w !! k;
      let '(g, q, next, events) := task_step (accepting w) (graph w) (queue w) t in
      Some {| graph := g; accepting := accepting w; queue := q;
              tasks := take k (tasks w) ++ next ++ drop (S k) (tasks w); log := log w ++ events |}
  | Take =>
      match accepting w, queue w with
      | true, (run, node) :: q =>
          Some {| graph := graph w; accepting := true; queue := q; tasks := tasks w ++ [Checking run node]; log := log w |}
      | _, _ => None
      end
  | Shutdown =>
      if accepting w then
        Some {| graph := graph w; accepting := false; queue := []; tasks := tasks w;
                log := log w ++ [Discarded (map snd (queue w))] |}
      else None
  | AddNode value has_job => Some (with_graph w (snd (add value has_job (graph w))))
  | AddDependency prerequisite dependent => Some (with_graph w (snd (depend prerequisite dependent (graph w))))
  | Start =>
      let '(status, g, ready) := start (accepting w) (graph w) in
      if is_ok status then
        Some {| graph := g; accepting := accepting w; queue := queue w;
                tasks := tasks w ++ looping (generation g) ready;
                log := if is_running g then [] else [Notified OK] |}
      else Some (with_graph w g)
  | Wait => '(_, g) ← wait (graph w); Some (with_graph w g)
  end.

Fixpoint play (w : World) (choices : list Choice) : option World :=
  match choices with
  | [] => Some w
  | c :: choices => w ← choose w c; play w choices
  end.

Definition new_world : World := {| graph := new_impl; accepting := true; queue := []; tasks := []; log := [] |}.
End ExecutionGraph.
Arguments Impl N {_ _}.
Arguments World N {_ _}.
Arguments Choice N : clear implicits.
