(* ===== verification/GraphRuns.v ===== *)
(** * Histories of a reusable graph

    The invariant of the current run of an execution graph under every
    interleaving of its threads, among them threads of earlier runs that have
    not left yet, and the measure that bounds a run. *)
From S2P Require Import Prelude.
From S2P Require Import DependencyGraph.
From S2P Require Import Readiness.
From S2P Require Import ExecutionGraph.

(** ** Where the nodes of a run are *)

Definition task_run (t : Task) : Z :=
  match t with
  | Scheduling run _ | Submitting run _ _ | Rejecting run _ _ | Checking run _ | Executing run _ | Completing run _ => run
  end.

Definition task_nodes (t : Task) : list nat :=
  match t with
  | Scheduling _ todo => todo
  | Submitting _ i todo | Rejecting _ i todo => i :: todo
  | Checking _ i | Executing _ i | Completing _ i => [i]
  end.

(** The threads counted by [running_jobs]. *)
Definition task_busy (t : Task) : list nat :=
  match t with
  | Scheduling _ _ => []
  | Submitting _ i _ | Rejecting _ i _ | Checking _ i | Executing _ i | Completing _ i => [i]
  end.

Definition task_executing (t : Task) : list nat := match t with Executing _ i => [i] | _ => [] end.
Definition task_completing (t : Task) : list nat := match t with Completing _ i => [i] | _ => [] end.

(** Every node of the run that became ready is in exactly one place. *)
Definition placed (ts : list Task) (q : list nat) (l : list RunEvent) : list nat :=
  flat_map task_nodes ts ++ q ++ settled_nodes l.

Lemma graph_looping_views run todo :
  flat_map task_nodes (looping run todo) = todo /\ flat_map task_busy (looping run todo) = [] /\
  flat_map task_executing (looping run todo) = [] /\ flat_map task_completing (looping run todo) = [].
Proof. destruct todo; cbn; by rewrite ?app_nil_r. Qed.

Lemma looping_run run todo : Forall (fun t => task_run t = run /\ task_busy t = []) (looping run todo).
Proof. destruct todo; by repeat constructor. Qed.

Lemma graph_busy_working ts : flat_map task_busy ts = [] ->
  flat_map task_executing ts = [] /\ flat_map task_completing ts = [].
Proof.
  induction ts as [|t ts IH]; [done|]. cbn. intros [Ht Hts]%app_eq_nil. destruct (IH Hts) as [-> ->]. by destruct t.
Qed.

Lemma busy_none ts : flat_map task_busy ts = [] -> forall t, t ∈ ts -> task_busy t = [].
Proof.
  intros Hb t Ht. apply list_elem_of_split in Ht as (l1 & l2 & ->). rewrite flat_map_app in Hb. cbn in Hb.
  apply app_eq_nil in Hb as [_ Hb]. by apply app_eq_nil in Hb as [? _].
Qed.

(** ** Counters inside the nodes *)

(** The loop over the dependents of a completed node updates the counters the
    way validation does. *)
Lemma release_nodes_spec ds : forall ns ready, Forall (fun j => (j < length ns)%nat) ds ->
  let (ns', ready') := fold_left release_node ds (ns, ready) in
  fold_left release ds (map node_remaining_dependencies ns, ready) = (map node_remaining_dependencies ns', ready') /\
  map node_dependents ns' = map node_dependents ns.
Proof.
  induction ds as [|j ds IH]; intros ns ready Hb; [done|]. apply Forall_cons in Hb as [Hj Hb].
  cbn [fold_left]. destruct (lookup_lt_is_Some_2 ns j Hj) as [n En]. cbn [release_node]. rewrite En.
  set (n' := {| node_dependents := _; node_dependency_count := _; node_remaining_dependencies := _ |}).
  set (ready1 := if (_ =? 0)%Z then _ else _).
  specialize (IH (<[j := n']> ns) ready1). rewrite length_insert in IH. specialize (IH Hb).
  destruct (fold_left release_node ds (<[j := n']> ns, ready1)) as [ns' ready'].
  assert (Er : release (map node_remaining_dependencies ns, ready) j =
    (map node_remaining_dependencies (<[j := n']> ns), ready1)).
  { unfold release, count_at. rewrite list_lookup_fmap, En. cbn [fmap option_fmap option_map default]. unfold ready1.
    f_equal. rewrite list_fmap_insert. done. }
  rewrite Er. destruct IH as [IH1 IH2]. split; [done|]. rewrite IH2, list_fmap_insert. 
  apply list_insert_id. by rewrite list_lookup_fmap, En.
Qed.

Lemma release_nodes_length ds : forall ns ready, length (fst (fold_left release_node ds (ns, ready))) = length ns.
Proof.
  induction ds as [|j ds IH]; intros ns ready; [done|]. cbn [fold_left release_node].
  destruct (ns !! j); rewrite IH; [apply length_insert|done].
Qed.

(** ** The current run *)

Section Runs.
Context {N : Type} `{Countable N}.
Implicit Types (g : Impl N) (w : World N).

(** The run [generation g] in state [RUNNING] or [COMPLETE]: its threads [ts],
    its queued nodes [q] and its log [l]. *)
Record run_inv (g : Impl N) (ts : list Task) (q : list nat) (l : list RunEvent) : Prop := {
  ri_nodup : NoDup (placed ts q l);
  ri_placed : forall j, j ∈ placed ts q l <-> ready_after (topology g) (released l) j;
  ri_counts : counts_ready (topology g) (released l) (map node_remaining_dependencies (impl_nodes g));
  ri_dependents : map node_dependents (impl_nodes g) = dependents (topology g);
  ri_remaining : remaining_nodes g = (Z.of_nat (length (nodes (topology g))) - Z.of_nat (length (released l)))%Z;
  ri_running : running_jobs g = Z.of_nat (length (flat_map task_busy ts) + length q + length (discarded l));
  ri_status : run_status g = OK \/ run_status g = WORKER_SUBMISSION_FAILED;
  ri_lost : run_status g = OK -> settled_nodes l ≡ₚ released l ++ discarded l;
  ri_aborted : run_status g = OK -> aborted l = [];
  ri_over : if is_running g
            then (run_status g = OK -> remaining_nodes g <> 0%Z) /\ (run_status g <> OK -> running_jobs g <> 0%Z)
            else running_jobs g = 0%Z /\ (run_status g = OK -> remaining_nodes g = 0%Z);
  ri_notified : notified l = if is_running g then [] else [run_status g];
  ri_began : began l ≡ₚ flat_map task_executing ts ++ ended l;
  ri_ended : ended l ≡ₚ flat_map task_completing ts ++ released l ++ aborted l;
  ri_order : in_order (topology g) l;
  ri_quiet : quiet_after l;
}.

Lemma run_inv_perm g ts ts' q l : ts ≡ₚ ts' -> run_inv g ts q l -> run_inv g ts' q l.
Proof.
  intros Ht [].
  assert (Hp : placed ts' q l ≡ₚ placed ts q l) by (unfold placed; by rewrite Ht).
  assert (Hb : length (flat_map task_busy ts') = length (flat_map task_busy ts)) by (by rewrite Ht).
  split; try done.
  - by rewrite Hp.
  - intros j. by rewrite Hp.
  - by rewrite Hb.
  - by rewrite <- Ht.
  - by rewrite <- Ht.
Qed.

Lemma graph_released_once g ts q l : run_inv g ts q l -> NoDup (released l).
Proof.
  intros I. pose proof (ri_nodup _ _ _ _ I) as Hn. unfold placed in Hn.
  apply NoDup_app in Hn as (_ & _ & Hn). apply NoDup_app in Hn as (_ & _ & Hn). by apply released_nodup.
Qed.

(** A completed run has left nothing in the pool. *)
Lemma over_idle g ts q l : run_inv g ts q l -> is_running g = false ->
  flat_map task_busy ts = [] /\ q = [] /\ discarded l = [].
Proof.
  intros I Hs. pose proof (ri_over _ _ _ _ I) as Hr. rewrite Hs in Hr. destruct Hr as [Hr _].
  rewrite (ri_running _ _ _ _ I) in Hr. split_and!; apply length_zero_iff_nil; lia.
Qed.

Lemma busy_running g t ts q l : run_inv g (t :: ts) q l -> task_busy t <> [] -> is_running g = true.
Proof.
  intros I Ht. destruct (is_running g) eqn:Hs; [done|]. destruct (over_idle _ _ _ _ I Hs) as [Hb _].
  cbn in Hb. by apply app_eq_nil in Hb as [? _].
Qed.

Lemma all_released g ts q l : run_inv g ts q l -> remaining_nodes g = 0%Z ->
  released l ≡ₚ seq 0 (length (nodes (topology g))).
Proof.
  intros I Hr. rewrite (ri_remaining _ _ _ _ I) in Hr.
  apply submseteq_length_Permutation; [|rewrite length_seq; lia].
  apply NoDup_submseteq; [by eapply graph_released_once|]. intros j Hj%released_settled. apply elem_of_seq.
  assert (Hp : j ∈ placed ts q l) by (unfold placed; rewrite !elem_of_app; auto).
  apply (ri_placed _ _ _ _ I) in Hp as [Hp _]. lia.
Qed.

(** Nothing of the run is left once every node is released. *)
Lemma released_idle total ts q l : NoDup (placed ts q l) -> (forall j, j ∈ placed ts q l -> (j < total)%nat) ->
  settled_nodes l ≡ₚ released l ++ discarded l -> length (released l) = total ->
  flat_map task_nodes ts = [] /\ q = [] /\ discarded l = [].
Proof.
  intros Hn Hb Hl Hr.
  assert (Hp : placed ts q l ⊆+ seq 0 total).
  { apply NoDup_submseteq; [done|]. intros j Hj. apply elem_of_seq. specialize (Hb j Hj). lia. }
  apply submseteq_length in Hp. apply Permutation_length in Hl. unfold placed in Hp.
  rewrite !length_app, length_seq in *. split_and!; apply length_zero_iff_nil; lia.
Qed.

Lemma nodes_busy ts : flat_map task_nodes ts = [] -> flat_map task_busy ts = [].
Proof. induction ts as [|t ts IH]; [done|]. cbn. intros [Ht Hts]%app_eq_nil. rewrite IH by done. by destruct t. Qed.

(** ** Steps of its threads *)

Ltac impl_simpl := cbn [topology impl_nodes state run_status remaining_nodes running_jobs generation
  with_running with_state] in *.
Ltac views := rewrite ?flat_map_app; cbn [flat_map task_nodes task_busy task_executing task_completing app] in *.

(** The invariant after a step [s] of a thread beside [rest]. *)
Definition stepped_ok (rest : list Task) (l : list RunEvent)
    (s : Impl N * list (Z * nat) * list Task * list RunEvent) : Prop :=
  let '(g, q, next, events) := s in run_inv g (next ++ rest) (map snd q) (l ++ events).

Lemma graph_is_ok_spec s : is_ok s = true <-> s = OK.
Proof. unfold is_ok. apply bool_decide_eq_true. Qed.

Lemma is_running_with g running : is_running (with_running g running) = is_running g.
Proof. done. Qed.

Lemma graph_executing_inv acc g run i rest q l : run_inv g (Executing run i :: rest) (map snd q) l ->
  stepped_ok rest l (task_step acc g q (Executing run i)).
Proof.
  intros []. unfold stepped_ok. cbn [task_step]. split; unfold placed in *; views; log_simpl; rewrite ?app_nil_r; try done.
  - rewrite ri_began0. solve_Permutation.
  - rewrite ri_ended0. solve_Permutation.
  - by apply in_order_snoc.
  - by apply quiet_after_snoc.
Qed.

Lemma graph_submitting_inv acc g run i todo rest q l : run_inv g (Submitting run i todo :: rest) (map snd q) l ->
  stepped_ok rest l (task_step acc g q (Submitting run i todo)).
Proof.
  intros []. unfold stepped_ok. cbn [task_step]. destruct (graph_looping_views run todo) as (V1 & V2 & V3 & V4).
  destruct acc; split; unfold placed in *; rewrite ?map_app; views; log_simpl; rewrite ?V1, ?V2, ?V3, ?V4; cbn [app map snd];
    rewrite ?app_nil_r; try done.
  - eapply NoDup_Permutation_proper; [|exact ri_nodup0]. solve_Permutation.
  - intros j. rewrite <- ri_placed0. apply elem_perm. solve_Permutation.
  - rewrite ri_running0, length_app. cbn [length]. lia.
Qed.

Lemma checking_inv acc g i rest q l : graph_wf (topology g) -> length (impl_nodes g) = length (nodes (topology g)) ->
  run_inv g (Checking (generation g) i :: rest) (map snd q) l ->
  stepped_ok rest l (task_step acc g q (Checking (generation g) i)).
Proof.
  intros Hw Hl I. unfold stepped_ok. cbn [task_step]. pose proof (busy_running _ _ _ _ _ I ltac:(done)) as Hr.
  pose proof I as []. unfold current. rewrite Hr, Z.eqb_refl. cbn [andb].
  assert (Hi : ready_after (topology g) (released l) i).
  { apply ri_placed0. unfold placed. cbn. rewrite elem_of_cons. auto. }
  destruct Hi as [Hi Hs]. rewrite (proj2 (Nat.ltb_lt _ _)) by lia. rewrite Hr in *.
  split; unfold placed in *; rewrite ?Hr; views; log_simpl; rewrite ?app_nil_r; try done.
  - rewrite ri_began0. solve_Permutation.
  - apply in_order_snoc; [done|]. intros j [= <-] k Hk. rewrite ri_ended0, !elem_of_app. right. left.
    assert (Hp : k ∈ preds (topology g) i) by (apply elem_of_preds; split; [by eapply edge_source_bound|done]).
    by apply Hs, elem_of_list_to_set in Hp.
  - by apply quiet_after_snoc.
Qed.

Lemma scheduling_inv acc g todo rest q l : run_inv g (Scheduling (generation g) todo :: rest) (map snd q) l ->
  stepped_ok rest l (task_step acc g q (Scheduling (generation g) todo)).
Proof.
  intros I. pose proof I as []. unfold stepped_ok. destruct todo as [|i todo]; cbn [task_step].
  { split; unfold placed in *; views; rewrite ?app_nil_r; done. }
  destruct (graph_looping_views (generation g) todo) as (V1 & V2 & V3 & V4).
  unfold current. rewrite Z.eqb_refl, andb_true_r.
  destruct (is_running g && is_ok (run_status g)) eqn:G.
  - apply andb_true_iff in G as [G1 G2]. 
    split; unfold placed in *; views; log_simpl; rewrite ?app_nil_r, ?is_running_with; impl_simpl; try done.
    + rewrite ri_running0. cbn [length]. lia.
    + rewrite G1 in *. split; [tauto|]. intros _. lia.
  - split; unfold placed in *; views; log_simpl; rewrite ?V1, ?V2, ?V3, ?V4; cbn [app]; rewrite ?app_nil_r; try done.
    + eapply NoDup_Permutation_proper; [|exact ri_nodup0]. solve_Permutation.
    + intros j. rewrite <- ri_placed0. apply elem_perm. solve_Permutation.
    + intros Hs. exfalso. rewrite (proj2 (graph_is_ok_spec _) Hs), andb_true_r in G. rewrite G in ri_over0.
      pose proof (all_released _ _ _ _ I (proj2 ri_over0 Hs)) as Hp.
      assert (Hi : i ∈ released l).
      { rewrite Hp. apply elem_of_seq. assert (Hi : ready_after (topology g) (released l) i); [|destruct Hi; lia].
        apply ri_placed0, elem_of_cons. by left. }
      apply released_settled in Hi. apply NoDup_cons in ri_nodup0 as [Hn _]. apply Hn. rewrite !elem_of_app. auto.
    + by apply in_order_snoc.
    + by apply quiet_after_snoc.
Qed.

Lemma completion_spec g g' : is_running g = true ->
  completion g g' = if is_running g' then [] else [Notified (run_status g')].
Proof. intros Hr. unfold completion. rewrite Hr. by destruct (is_running g'). Qed.

(** A thread that settles a node may complete the run. *)
Lemma settling_log (t : DependencyGraph N) l e g g' : in_order t l -> quiet_after l -> began [e] = [] -> notified [e] = [] -> ended [e] = [] ->
  is_running g = true -> (is_running g' = false -> ended l ≡ₚ began l) ->
  in_order t (l ++ e :: completion g g') /\ quiet_after (l ++ e :: completion g g').
Proof.
  intros Ho Hq H1 H2 H3 Hr He. rewrite completion_spec by done.
  assert (Ho' : in_order t (l ++ [e])) by (apply in_order_snoc; [done|]; intros j ->; done).
  assert (Hq' : quiet_after (l ++ [e])) by (apply quiet_after_snoc; [done|by intros ? ->..]).
  destruct (is_running g'); [done|].
  replace (l ++ [e; Notified (run_status g')]) with ((l ++ [e]) ++ [Notified (run_status g')]) by (by rewrite <- app_assoc).
  split; [by apply in_order_snoc|]. apply quiet_after_snoc; [done|done|]. intros s _.
  rewrite ended_app, began_app, H1, H3, !app_nil_r. by apply He.
Qed.

Lemma graph_rejecting_inv acc g run i todo rest q l : run_inv g (Rejecting run i todo :: rest) (map snd q) l ->
  stepped_ok rest l (task_step acc g q (Rejecting run i todo)).
Proof.
  intros I. unfold stepped_ok. cbn [task_step]. pose proof (busy_running _ _ _ _ _ I ltac:(done)) as Hr.
  pose proof I as []. destruct (graph_looping_views run todo) as (V1 & V2 & V3 & V4).
  set (g' := fail_run _ _).
  assert (Hs : run_status g' = WORKER_SUBMISSION_FAILED).
  { cbn. destruct ri_status0 as [->| ->]; done. }
  assert (Hg : is_running g' = negb (running_jobs g - 1 =? 0)%Z).
  { unfold is_running, g', fail_run. impl_simpl. destruct (_ =? 0)%Z; [done|]. cbn [negb].
    apply bool_decide_eq_true. by apply bool_decide_eq_true in Hr. }
  destruct (settling_log (topology g) l (Rejected i) g g') as [Ho Hq]; try done.
  { rewrite Hg. intros Hz%negb_false_iff%Z.eqb_eq. rewrite ri_began0. cbn [flat_map task_executing app].
    assert (Hb : flat_map task_busy rest = []).
    { apply length_zero_iff_nil. cbn [flat_map task_busy app length] in ri_running0. lia. }
    apply graph_busy_working in Hb as [-> _]. done. }
  rewrite completion_spec in * by done. rewrite Hs, Hr in *.
  split; unfold placed in *; views; log_simpl; rewrite ?V1, ?V2, ?V3, ?V4, ?Hs; cbn [app]; try done;
    destruct (is_running g') eqn:Eg; cbn [settled_nodes began ended released aborted discarded notified
      omap list_omap flat_map app option_bind mbind]; rewrite ?app_nil_r; try done.
  all: try (eapply NoDup_Permutation_proper; [|exact ri_nodup0]; solve_Permutation).
  all: try (intros j; change (topology g') with (topology g); rewrite <- ri_placed0; apply elem_perm; solve_Permutation).
  all: try (by right).
  - unfold g', fail_run. impl_simpl. rewrite ri_running0. cbn [length]. lia.
  - unfold g', fail_run. impl_simpl. rewrite ri_running0. cbn [length]. lia.
  - split; [done|]. intros _. symmetry in Hg. by apply negb_true_iff, Z.eqb_neq in Hg.
  - symmetry in Hg. apply negb_false_iff, Z.eqb_eq in Hg. split; [done|done].
  - by rewrite ri_notified0.
Qed.

Ltac event_simpl := cbn [settled_nodes began ended released aborted discarded notified
  omap list_omap flat_map app option_bind mbind].

Lemma graph_completing_failed_inv acc g i rest q l : run_status g <> OK ->
  run_inv g (Completing (generation g) i :: rest) (map snd q) l ->
  stepped_ok rest l (task_step acc g q (Completing (generation g) i)).
Proof.
  intros Hs I. unfold stepped_ok. cbn [task_step]. pose proof (busy_running _ _ _ _ _ I ltac:(done)) as Hr.
  pose proof I as []. unfold current, complete. rewrite Hr, Z.eqb_refl. cbn [andb]. impl_simpl.
  assert (Hk : is_ok (run_status g) = false) by (unfold is_ok; by apply bool_decide_false).
  rewrite Hk. set (g' := (if (_ =? 0)%Z then _ else _ : Impl N)).
  assert (Hrs : run_status g' = run_status g) by (unfold g'; by destruct (_ =? 0)%Z).
  assert (Hg : is_running g' = negb (running_jobs g - 1 =? 0)%Z) by (unfold g'; by destruct (_ =? 0)%Z).
  assert (Hrj : running_jobs g' = (running_jobs g - 1)%Z) by (unfold g'; by destruct (_ =? 0)%Z).
  assert (Hrest : topology g' = topology g /\ impl_nodes g' = impl_nodes g /\ remaining_nodes g' = remaining_nodes g)
    by (unfold g'; by destruct (_ =? 0)%Z). clearbody g'. destruct Hrest as (Ht & Hn & Hm).
  destruct (settling_log (topology g) l (Aborted i) g g') as [Ho Hq]; try done.
  { rewrite Hg. intros Hz%negb_false_iff%Z.eqb_eq. rewrite ri_began0. cbn [flat_map task_executing app].
    assert (Hb : flat_map task_busy rest = []).
    { apply length_zero_iff_nil. cbn [flat_map task_busy app length] in ri_running0. lia. }
    apply graph_busy_working in Hb as [-> _]. done. }
  rewrite completion_spec in * by done. rewrite Hrs in Ho, Hq. rewrite Hr in *.
  split; unfold placed in *; rewrite ?Ht, ?Hn, ?Hm, ?Hrs, ?Hrj; views; log_simpl; cbn [looping flat_map app]; try done;
    destruct (is_running g') eqn:Eg; event_simpl; rewrite ?app_nil_r; try done.
  all: try (eapply NoDup_Permutation_proper; [|exact ri_nodup0]; solve_Permutation).
  all: try (intros j; rewrite <- ri_placed0; apply elem_perm; solve_Permutation).
  all: try (rewrite ri_running0; cbn [length]; lia).
  all: try (rewrite ri_ended0; solve_Permutation).
  - split; [done|]. intros _. symmetry in Hg. by apply negb_true_iff, Z.eqb_neq in Hg.
  - symmetry in Hg. apply negb_false_iff, Z.eqb_eq in Hg. done.
  - by rewrite ri_notified0.
Qed.

(** Completing a node replaces it by the nodes it made ready. *)
Lemma placed_released (t : DependencyGraph N) run i rest q l ready done done' : done = released l -> done' = done ++ [i] ->
  NoDup (i :: flat_map task_nodes rest ++ q ++ settled_nodes l) ->
  (forall j, j ∈ i :: flat_map task_nodes rest ++ q ++ settled_nodes l <-> ready_after t done j) ->
  NoDup ready -> (forall j, j ∈ ready <-> ready_after t done' j /\ ~ ready_after t done j) ->
  NoDup (placed (looping run ready ++ rest) q (l ++ [Released i])) /\
  forall j, j ∈ placed (looping run ready ++ rest) q (l ++ [Released i]) <-> ready_after t done' j.
Proof.
  intros -> -> Hn Hp R2 R3. destruct (graph_looping_views run ready) as (V1 & _).
  assert (Hq : placed (looping run ready ++ rest) q (l ++ [Released i]) ≡ₚ
    ready ++ (i :: flat_map task_nodes rest ++ q ++ settled_nodes l)).
  { unfold placed. rewrite flat_map_app, V1. log_simpl. rewrite ?app_nil_r. solve_Permutation. }
  split; [rewrite Hq|intros j; rewrite Hq].
  - apply NoDup_app. split_and!; [exact R2| |exact Hn]. intros j Hj Hx. apply R3 in Hj as [_ Hj]. by apply Hj, Hp.
  - rewrite elem_of_app, R3, Hp. split; [intros [[? _]|?]; [done|by apply ready_after_mono]|].
    intros Hj. destruct (decide (j ∈ i :: flat_map task_nodes rest ++ q ++ settled_nodes l)) as [Hx|Hx];
      [right|left; split; [done|]]; by rewrite <- Hp.
Qed.

Lemma completing_released_inv acc g i rest q l : graph_wf (topology g) ->
  length (impl_nodes g) = length (nodes (topology g)) -> run_status g = OK ->
  run_inv g (Completing (generation g) i :: rest) (map snd q) l ->
  stepped_ok rest l (task_step acc g q (Completing (generation g) i)).
Proof.
  intros Hw Hln Hs I. unfold stepped_ok. cbn [task_step]. pose proof (busy_running _ _ _ _ _ I ltac:(done)) as Hr.
  pose proof I as []. unfold current, complete. rewrite Hr, Z.eqb_refl. cbn [andb]. impl_simpl.
  rewrite (proj2 (graph_is_ok_spec _) Hs).
  assert (Hi : ready_after (topology g) (released l) i).
  { apply ri_placed0. unfold placed. cbn. rewrite elem_of_cons. auto. }
  unfold placed in ri_nodup0, ri_placed0. cbn [flat_map task_nodes app] in ri_nodup0, ri_placed0.
  assert (Hni : i ∉ released l).
  { intros Hx%released_settled. apply NoDup_cons in ri_nodup0 as [Hn _]. apply Hn. rewrite !elem_of_app. auto. }
  set (ds := match impl_nodes g !! i with Some n => _ | None => _ end).
  assert (Hds : ds = outgoing (topology g) i).
  { unfold ds, outgoing. rewrite <- ri_dependents0, list_lookup_fmap. by destruct (impl_nodes g !! i). }
  assert (Hb : Forall (fun j => (j < length (impl_nodes g))%nat) ds).
  { rewrite Hds, Hln. apply Forall_forall. intros j Hj. by apply (wf_targets _ Hw i). }
  pose proof (release_nodes_spec ds (impl_nodes g) [] Hb) as Rel. rewrite Hds in Rel |- *. clearbody ds. clear ds Hds Hb.
  pose proof (counts_release _ Hw (released l) _ i ri_counts0 (proj1 Hi) Hni) as R.
  destruct (fold_left release_node _ _) as [ns ready]. destruct Rel as [Rel1 Rel2]. rewrite Rel1 in R.
  destruct R as (R1 & R2 & R3).
  set (g' := {| topology := _ |}).
  assert (Hg : is_running g' = negb (remaining_nodes g - 1 =? 0)%Z).
  { unfold is_running, g'. impl_simpl. destruct (_ =? 0)%Z; [done|]. cbn [negb].
    apply bool_decide_eq_true. by apply bool_decide_eq_true in Hr. }
  destruct (graph_looping_views (generation g) ready) as (V1 & V2 & V3 & V4).
  destruct (placed_released _ (generation g) _ _ _ _ ready _ _ eq_refl eq_refl ri_nodup0 ri_placed0 R2 R3) as [Hn1 Hn2].
  assert (Hl : settled_nodes (l ++ [Released i]) ≡ₚ released (l ++ [Released i]) ++ discarded (l ++ [Released i])).
  { log_simpl. rewrite (ri_lost0 Hs), app_nil_r. solve_Permutation. }
  assert (Hidle : (remaining_nodes g - 1 =? 0)%Z = true ->
    flat_map task_busy rest = [] /\ map snd q = [] /\ discarded l = []).
  { intros Hz%Z.eqb_eq. destruct (released_idle (length (nodes (topology g))) _ _ _ Hn1) as (H1 & H2 & H3).
    - intros j [Hj _]%Hn2. done.
    - done.
    - log_simpl. rewrite length_app. cbn [length]. lia.
    - rewrite flat_map_app in H1. apply app_eq_nil in H1 as [_ H1]. rewrite (nodes_busy rest) by done.
      revert H3. log_simpl. by rewrite app_nil_r. }
  destruct (settling_log (topology g) l (Released i) g g') as [Ho Hq]; try done.
  { rewrite Hg. intros Hz%negb_false_iff. rewrite ri_began0. cbn [flat_map task_executing app].
    destruct (Hidle Hz) as [Hb _]. apply graph_busy_working in Hb as [-> _]. done. }
  unfold placed in Hn1, Hn2. revert Hn1 Hn2 Hl. rewrite flat_map_app. log_simpl. rewrite V1, !app_nil_r. intros Hn1 Hn2 Hl.
  rewrite completion_spec in * by done. rewrite Hr in *.
  split; unfold placed in *; change (topology g') with (topology g); rewrite ?flat_map_app; log_simpl;
    rewrite ?V1, ?V2, ?V3, ?V4;
    cbn [flat_map task_busy task_executing task_completing app] in *; try done;
    destruct (is_running g') eqn:Eg; event_simpl; rewrite ?app_nil_r; try done.
  all: try (by rewrite <- ri_dependents0).
  all: try (unfold g'; cbn [remaining_nodes running_jobs]; rewrite ?length_app; cbn [length] in *; lia).
  all: try (rewrite ri_ended0; solve_Permutation).
  - split; [|done]. intros _. symmetry in Hg. by apply negb_true_iff, Z.eqb_neq in Hg.
  - symmetry in Hg. apply negb_false_iff in Hg. destruct (Hidle Hg) as (Hb1 & Hb2 & Hb3). apply Z.eqb_eq in Hg.
    unfold g'. cbn [remaining_nodes running_jobs run_status]. rewrite Hb1, Hb2, Hb3 in ri_running0. cbn [length] in ri_running0.
    split; [lia|done].
  - by rewrite ri_notified0.
Qed.

(** Every thread of the current run keeps its invariant. *)
Lemma graph_step_inv acc g t rest q l : graph_wf (topology g) -> length (impl_nodes g) = length (nodes (topology g)) ->
  task_run t = generation g -> run_inv g (t :: rest) (map snd q) l -> stepped_ok rest l (task_step acc g q t).
Proof.
  intros Hw Hl Ht I. destruct t as [run todo|run i todo|run i todo|run i|run i|run i]; cbn in Ht; subst run.
  - by apply scheduling_inv.
  - by apply graph_submitting_inv.
  - by apply graph_rejecting_inv.
  - by apply checking_inv.
  - by apply graph_executing_inv.
  - destruct (decide (run_status g = OK)); [by apply completing_released_inv|by apply graph_completing_failed_inv].
Qed.

(** What a step of any thread leaves alone. *)
Lemma step_frame acc g q t :
  let '(g', q', next, events) := task_step acc g q t in
  generation g' = generation g /\ topology g' = topology g /\ length (impl_nodes g') = length (impl_nodes g) /\
  Forall (fun t' => task_run t' = task_run t) next /\
  (q' = q \/ exists i, task_busy t = [i] /\ q' = q ++ [(task_run t, i)]) /\
  (task_busy t = [] \/ is_running g = true -> state g' = IDLE -> state g = IDLE) /\
  (is_running g = false -> task_busy t = [] -> g' = g /\ q' = q /\ Forall (fun t' => task_busy t' = []) next).
Proof.
  assert (Hlr : forall run todo, Forall (fun t' => task_run t' = run) (looping run todo) /\
    Forall (fun t' => task_busy t' = []) (looping run todo)).
  { intros run todo. destruct todo; by repeat constructor. }
  destruct t as [run [|i todo]|run i todo|run i todo|run i|run i|run i]; cbn [task_step].
  - by split_and!; try constructor; auto.
  - unfold current. destruct (is_running g) eqn:Hr; cbn [andb].
    + destruct (_ && _); (split_and!; [done|done|done|by try apply Hlr; repeat constructor|by left|by intros|done]).
    + split_and!; [done|done|done|apply Hlr|by left|done|]. intros _ _. split_and!; [done|done|apply Hlr].
  - destruct acc; (split_and!; [done|done|done|by try apply Hlr; repeat constructor| |done|done]).
    + right. by exists i.
    + by left.
  - split_and!; [done|done|done|apply Hlr|by left| |done]. cbn. intros [?|?]; [done|].
    by destruct (_ =? 0)%Z.
  - destruct (_ && _); (split_and!; [done|done|done|by repeat constructor|by left|done|done]).
  - split_and!; [done|done|done|by repeat constructor|by left|done|done].
  - destruct (current g run) eqn:Hc; [|split_and!; [done|done|done|by constructor|by left|done|done]].
    apply andb_true_iff in Hc as [Hr Hg]. unfold complete. impl_simpl.
    destruct (is_ok _).
    + destruct (impl_nodes g !! i) as [n|].
      * pose proof (release_nodes_length (node_dependents n) (impl_nodes g) []) as Hl.
        destruct (fold_left release_node _ _) as [ns ready]. impl_simpl.
        split_and!; [done|done|done|apply Hlr|by left| |done]. intros _. by destruct (_ =? 0)%Z.
      * cbn. split_and!; [done|done|done|by constructor|by left| |done]. intros _. by destruct (_ =? 0)%Z.
    + destruct (_ =? 0)%Z; (split_and!; [done|done|done|by constructor|by left|done|done]).
Qed.

(** ** Whole histories *)

(** The threads of the current run. *)
Definition mine (g : Impl N) (ts : list Task) : list Task := filter (fun t => task_run t = generation g) ts.

(** [k] bounds the number of starts so far. *)
Record graph_inv (k : Z) (w : World N) : Prop := {
  gi_wf : graph_wf (topology (graph w));
  gi_length : length (impl_nodes (graph w)) = length (nodes (topology (graph w)));
  gi_generation : (0 <= generation (graph w) <= k)%Z;
  gi_tasks : Forall (fun t => (task_run t <= generation (graph w))%Z /\
                              (task_busy t = [] \/ task_run t = generation (graph w))) (tasks w);
  gi_queue : Forall (fun e => e.1 = generation (graph w)) (queue w);
  gi_idle : state (graph w) = IDLE -> queue w = [] /\ Forall (fun t => task_busy t = []) (tasks w);
  gi_run : state (graph w) <> IDLE ->
    fst (validate_locked (topology (graph w))) = OK /\
    run_inv (graph w) (mine (graph w) (tasks w)) (map snd (queue w)) (log w);
}.

Lemma graph_inv_perm k w w' : graph w' = graph w -> queue w' = queue w -> log w' = log w -> tasks w ≡ₚ tasks w' ->
  graph_inv k w -> graph_inv k w'.
Proof.
  intros Eg Eq El Ht []. split; rewrite ?Eg, ?Eq, ?El, <- ?Ht; try done.
  intros Hs. destruct (gi_run0 Hs) as [Hv I]. split; [done|]. eapply run_inv_perm; [|exact I]. unfold mine. by rewrite Ht.
Qed.

Lemma new_world_inv : graph_inv 0 (new_world (N := N)).
Proof. split; cbn; try done. apply empty_graph_wf. Qed.

Lemma graph_inv_mono k k' w : (k <= k')%Z -> graph_inv k w -> graph_inv k' w.
Proof. intros Hk []. split; try done. lia. Qed.

Lemma stale_step acc g q t : task_busy t = [] -> task_run t <> generation g ->
  exists next, task_step acc g q t = (g, q, next, []) /\
    Forall (fun t' => task_run t' = task_run t /\ task_busy t' = []) next.
Proof.
  intros Hb Hr. destruct t as [run [|i todo]|run i todo|run i todo|run i|run i|run i]; cbn in Hb, Hr; try done; cbn [task_step].
  - exists []. by split.
  - exists (looping run todo). unfold current. rewrite (proj2 (Z.eqb_neq _ _)) by congruence. rewrite andb_false_r. cbn [andb].
    split; [done|]. apply looping_run.
Qed.

Lemma mine_app g ts ts' : mine g (ts ++ ts') = mine g ts ++ mine g ts'.
Proof. apply filter_app. Qed.

Lemma mine_all g ts : Forall (fun t => task_run t = generation g) ts -> mine g ts = ts.
Proof. rewrite Forall_forall. apply list_filter_all. Qed.

Lemma mine_none g ts : Forall (fun t => task_run t <> generation g) ts -> mine g ts = [].
Proof. rewrite Forall_forall. apply list_filter_none. Qed.

Lemma advance_inv k acc g t rest q l : graph_inv k {| graph := g; accepting := acc; queue := q; tasks := t :: rest; log := l |} ->
  let '(g', q', next, events) := task_step acc g q t in
  graph_inv k {| graph := g'; accepting := acc; queue := q'; tasks := next ++ rest; log := l ++ events |}.
Proof.
  intros []. cbn [graph accepting queue tasks log] in *. apply Forall_cons in gi_tasks0 as [[Hle Hb] Hrest].
  pose proof (step_frame acc g q t) as Fr. destruct (decide (task_run t = generation g)) as [Ht|Ht].
  - destruct (decide (state g = IDLE)) as [Hs|Hs].
    + destruct (gi_idle0 Hs) as [Hq Hbs]. apply Forall_cons in Hbs as [Hbt Hbs].
      assert (Hr : is_running g = false) by (unfold is_running; rewrite Hs; done).
      destruct (task_step acc g q t) as [[[g' q'] next] events]. destruct Fr as (_ & _ & _ & Fn & _ & _ & Fi).
      destruct (Fi Hr Hbt) as (-> & -> & Fb). split; cbn [graph accepting queue tasks log]; try done.
      * apply Forall_app. split; [|done]. apply Forall_forall. intros t' Hin. rewrite Forall_forall in Fn, Fb.
        rewrite Fn by done. split; [lia|]. left. by apply Fb.
      * intros _. split; [done|]. by apply Forall_app.
    + destruct (gi_run0 Hs) as [Hv I]. unfold mine in I. rewrite filter_cons_True in I by done.
      fold (mine g rest) in I. pose proof (graph_step_inv acc g t (mine g rest) q l gi_wf0 gi_length0 Ht I) as St.
      assert (Hi : task_busy t = [] \/ is_running g = true).
      { destruct (task_busy t) eqn:E; [by left|right]. eapply busy_running; [exact I|by rewrite E]. }
      destruct (task_step acc g q t) as [[[g' q'] next] events]. destruct Fr as (F1 & F2 & F3 & F4 & F5 & F6 & _).
      specialize (F6 Hi). cbn [stepped_ok] in St.
      assert (Hm : mine g' (next ++ rest) = next ++ mine g rest).
      { rewrite mine_app. f_equal; [|unfold mine; by rewrite F1]. apply mine_all.
        eapply Forall_impl; [exact F4|]. cbn. intros t' ->. congruence. }
      split; cbn [graph accepting queue tasks log]; rewrite ?F1, ?F2, ?F3, ?Hm; try done.
      * apply Forall_app. split; [|done]. eapply Forall_impl; [exact F4|]. cbn. intros t' ->. split; [lia|by right].
      * destruct F5 as [->|(i & _ & ->)]; [done|]. apply Forall_app. split; [done|]. by repeat constructor.
      * intros Hs'. by apply F6 in Hs'.
  - destruct Hb as [Hb|?]; [|done]. destruct (stale_step acc g q t Hb Ht) as (next & -> & Hn).
    rewrite app_nil_r. assert (Hn1 : Forall (fun t' => task_busy t' = []) next) by (eapply Forall_impl; [exact Hn|]; cbn; tauto).
    split; cbn [graph accepting queue tasks log]; try done.
    + apply Forall_app. split; [|done]. eapply Forall_impl; [exact Hn|]. cbn. intros t' [-> ?]. split; [lia|by left].
    + intros Hs. destruct (gi_idle0 Hs) as [Hq Hbs]. apply Forall_cons in Hbs as [_ Hbs]. split; [done|]. by apply Forall_app.
    + intros Hs. destruct (gi_run0 Hs) as [Hv I]. split; [done|]. rewrite mine_app, (mine_none g next).
      * unfold mine in *. by rewrite filter_cons_False in I.
      * eapply Forall_impl; [exact Hn|]. cbn. intros t' [-> ?]. done.
Qed.

Lemma graph_take_inv k w run i q : queue w = (run, i) :: q -> graph_inv k w ->
  graph_inv k {| graph := graph w; accepting := true; queue := q; tasks := tasks w ++ [Checking run i]; log := log w |}.
Proof.
  intros E []. rewrite E in *. apply Forall_cons in gi_queue0 as [Hr Hq]. cbn in Hr. subst run.
  assert (Hs : state (graph w) <> IDLE) by (intros Hs; by destruct (gi_idle0 Hs)).
  destruct (gi_run0 Hs) as [Hv I].
  split; cbn [graph accepting queue tasks log]; try done.
  - apply Forall_app. split; [done|]. apply Forall_singleton. cbn. split; [lia|by right].
  - intros _. split; [done|]. rewrite mine_app, (mine_all _ [_]) by by repeat constructor.
    destruct I. split; try done; unfold placed in *; views; rewrite ?app_nil_r.
    + eapply NoDup_Permutation_proper; [|exact ri_nodup0]. cbn [map snd]. solve_Permutation.
    + intros j. rewrite <- ri_placed0. apply elem_perm. cbn [map snd]. solve_Permutation.
    + rewrite ri_running0, length_app. cbn [length map]. lia.
    + done.
    + done.
Qed.

Lemma graph_shutdown_inv k w : graph_inv k w ->
  graph_inv k {| graph := graph w; accepting := false; queue := []; tasks := tasks w;
                 log := log w ++ [Discarded (map snd (queue w))] |}.
Proof.
  intros []. split; cbn [graph accepting queue tasks log]; try done.
  - intros Hs. by destruct (gi_idle0 Hs).
  - intros Hs. destruct (gi_run0 Hs) as [Hv []]. split; [done|]. unfold placed in *.
    split; unfold placed; log_simpl; rewrite ?app_nil_r; cbn [app map]; try done.
    + eapply NoDup_Permutation_proper; [|exact ri_nodup0]. solve_Permutation.
    + intros j. rewrite <- ri_placed0. apply elem_perm. solve_Permutation.
    + rewrite ri_running0, length_app. cbn [length]. lia.
    + intros Hr. rewrite (ri_lost0 Hr). solve_Permutation.
    + by apply in_order_snoc.
    + by apply quiet_after_snoc.
Qed.

(** Construction happens between runs only. *)
Lemma with_topology_inv k w t ns : state (graph w) = IDLE -> graph_wf t -> length ns = length (nodes t) ->
  graph_inv k w -> graph_inv k (with_graph w (with_topology (graph w) t ns)).
Proof. intros Hs Hw Hl []. by split. Qed.

Lemma with_graph_same w : with_graph w (graph w) = w.
Proof. by destruct w. Qed.

Lemma add_node_length (x : N) t : length (nodes (snd (add_node x t))) =
  (if is_ok (fst (add_node x t)) then S (length (nodes t)) else length (nodes t))%nat.
Proof.
  unfold add_node. repeat case_match; cbn; try done. rewrite length_app. cbn. lia.
Qed.

Lemma add_inv k w value has_job : graph_inv k w -> graph_inv k (with_graph w (snd (add value has_job (graph w)))).
Proof.
  intros I. unfold add. destruct has_job; cbn [negb]; [|by rewrite with_graph_same].
  destruct (bool_decide_reflect (state (graph w) = IDLE)) as [Hs|Hs]; cbn [negb]; [|by rewrite with_graph_same].
  pose proof (add_node_length value (topology (graph w))) as Hl. pose proof (add_node_wf value _ (gi_wf _ _ I)) as Hw.
  destruct (add_node value (topology (graph w))) as [status t]. cbn [fst snd] in Hl, Hw.
  destruct (is_ok status); cbn [snd]; apply with_topology_inv; try done; rewrite Hl; [|apply I].
  rewrite length_app, (gi_length _ _ I). cbn. lia.
Qed.

Lemma depend_inv k w x y : graph_inv k w -> graph_inv k (with_graph w (snd (depend x y (graph w)))).
Proof.
  intros I. unfold depend.
  destruct (bool_decide_reflect (state (graph w) = IDLE)) as [Hs|Hs]; cbn [negb]; [|by rewrite with_graph_same].
  pose proof (add_dependency_wf x y _ (gi_wf _ _ I)) as Hw.
  assert (Hl : nodes (snd (add_dependency x y (topology (graph w)))) = nodes (topology (graph w))).
  { unfold add_dependency. repeat case_match; done. }
  destruct (add_dependency x y (topology (graph w))) as [status t]. cbn [fst snd] in *.
  apply with_topology_inv; [done|done| |done]. rewrite Hl. apply I.
Qed.

Lemma wait_inv k w r g : wait (graph w) = Some (r, g) -> graph_inv k w -> graph_inv k (with_graph w g).
Proof.
  unfold wait. intros E I. destruct (state (graph w)) eqn:Hs; [|done|]; injection E as <- <-; [by rewrite with_graph_same|].
  pose proof I as []. destruct gi_run0 as [Hv R]; [by rewrite Hs|].
  destruct (over_idle _ _ _ _ R) as (Hb & Hq & _); [by unfold is_running; rewrite Hs|].
  split; cbn [with_graph with_state graph topology impl_nodes generation queue tasks log state]; try done.
  intros _. split; [by destruct (queue w)|]. apply Forall_forall. intros t Ht. rewrite Forall_forall in gi_tasks0.
  destruct (gi_tasks0 t Ht) as [_ [?|Hr]]; [done|]. apply (busy_none _ Hb). by apply list_elem_of_filter.
Qed.

(** *** A run starts *)

Lemma prepared_nodes (s : DependencyGraphSnapshot (N := N)) ns :
  length (snapshot_dependents s) = length ns -> length (snapshot_dependency_counts s) = length ns ->
  map node_remaining_dependencies (imap (prepare_node s) ns) = snapshot_dependency_counts s /\
  map node_dependents (imap (prepare_node s) ns) = snapshot_dependents s.
Proof.
  intros H1 H2. split; apply list_eq; intros i; rewrite list_lookup_fmap, list_lookup_imap;
    destruct (ns !! i) as [n|] eqn:En; cbn.
  - destruct (lookup_lt_is_Some_2 (snapshot_dependency_counts s) i) as [c Ec]; [rewrite H2; by eapply lookup_lt_Some|].
    unfold count_at. by rewrite Ec.
  - symmetry. apply lookup_ge_None_2. rewrite H2. by apply lookup_ge_None_1.
  - destruct (lookup_lt_is_Some_2 (snapshot_dependents s) i) as [c Ec]; [rewrite H1; by eapply lookup_lt_Some|].
    by rewrite Ec.
  - symmetry. apply lookup_ge_None_2. rewrite H1. by apply lookup_ge_None_1.
Qed.

Lemma started_run_inv g ts l run todo : graph_wf (topology g) -> length (impl_nodes g) = length (nodes (topology g)) ->
  map node_remaining_dependencies (impl_nodes g) = dependency_counts (topology g) ->
  map node_dependents (impl_nodes g) = dependents (topology g) ->
  remaining_nodes g = Z.of_nat (length (impl_nodes g)) -> running_jobs g = 0%Z -> run_status g = OK ->
  is_running g = negb (bool_decide (impl_nodes g = [])) -> l = (if is_running g then [] else [Notified OK]) ->
  todo = initial_ready (topology g) -> ts = looping run todo -> run_inv g ts [] l.
Proof.
  intros Hw Hl Hc Hd Hr Hj Hs Hg -> -> ->. destruct (initial_ready_spec (topology g) Hw) as [Hn Hi].
  destruct (graph_looping_views run (initial_ready (topology g))) as (V1 & V2 & V3 & V4).
  assert (Hlog : forall A (f : list RunEvent -> list A), f [] = [] -> f [Notified OK] = [] ->
    f (if is_running g then [] else [Notified OK]) = []) by (intros A f; by destruct (is_running g)).
  assert (Hset := Hlog _ settled_nodes eq_refl eq_refl). assert (Hrel := Hlog _ released eq_refl eq_refl).
  assert (Hdis := Hlog _ discarded eq_refl eq_refl). assert (Hab := Hlog _ aborted eq_refl eq_refl).
  assert (Hbe := Hlog _ began eq_refl eq_refl). assert (Hen := Hlog _ ended eq_refl eq_refl).
  split; unfold placed; rewrite ?V1, ?V2, ?V3, ?V4, ?Hset, ?Hrel, ?Hdis, ?Hab, ?Hbe, ?Hen, ?app_nil_r; try done.
  - rewrite Hc. by apply counts_ready_start.
  - rewrite Hr, Hl. cbn [length]. lia.
  - by left.
  - rewrite Hg, Hr, Hj. destruct (bool_decide_reflect (impl_nodes g = [])) as [->|Hne]; cbn [negb]; [done|].
    split; [|done]. intros _ Hz. destruct (impl_nodes g); [done|cbn [length] in Hz; lia].
  - rewrite Hs. by destruct (is_running g).
  - destruct (is_running g); [apply in_order_nil|].
    apply (in_order_snoc (topology g) [] (Notified OK)); [apply in_order_nil|done].
  - destruct (is_running g); [apply quiet_after_nil|].
    apply (quiet_after_snoc [] (Notified OK)); [apply quiet_after_nil|done|done].
Qed.

Lemma graph_start_inv k w status g ready : (k + 1 < 2 ^ 64)%Z -> start (accepting w) (graph w) = (status, g, ready) ->
  graph_inv k w ->
  graph_inv (k + 1) (if is_ok status then
    {| graph := g; accepting := accepting w; queue := queue w; tasks := tasks w ++ looping (generation g) ready;
       log := if is_running g then [] else [Notified OK] |}
    else with_graph w g).
Proof.
  intros Hk E I. unfold start in E.
  destruct (bool_decide_reflect (state (graph w) = IDLE)) as [Hs|Hs]; cbn [negb] in E.
  2: { injection E as <- <- <-. cbn. rewrite with_graph_same. apply (graph_inv_mono k); [lia|done]. }
  destruct (accepting w) eqn:Ha; cbn [negb] in E.
  2: { injection E as <- <- <-. cbn. rewrite with_graph_same. apply (graph_inv_mono k); [lia|done]. }
  pose proof (validate_wf _ (gi_wf _ _ I)) as Hw. pose proof (validate_again _ (gi_wf _ _ I)) as Hv.
  destruct (validate_spec _ (gi_wf _ _ I)) as (? & ? & _ & Hn).
  unfold snapshot in E. destruct (validate_locked (topology (graph w))) as [validation t] eqn:Et.
  cbn [fst snd] in *. destruct Hn as (Hn & _).
  destruct (bool_decide_reflect (validation = OK)) as [->|Hne].
  2: { unfold is_ok in *. rewrite bool_decide_false in E by done. injection E as <- <- <-. rewrite bool_decide_false by done.
       apply (graph_inv_mono k); [lia|]. apply with_topology_inv; [done|done| |done]. rewrite Hn. apply I. }
  rewrite (proj2 (graph_is_ok_spec OK)) in E by done. injection E as <- <- <-. cbn [is_ok]. rewrite (proj2 (graph_is_ok_spec OK)) by done.
  specialize (Hv eq_refl). destruct I as [_ Il [Ig1 Ig2] It _ Ii _]. destruct (Ii Hs) as [Hq Hb].
  set (s := {| snapshot_nodes := _ |}). set (ns := imap (prepare_node s) (impl_nodes (graph w))).
  assert (Hwrap : wrap 64 (generation (graph w) + 1) = (generation (graph w) + 1)%Z)
    by (unfold wrap; apply Z.mod_small; lia).
  destruct (prepared_nodes s (impl_nodes (graph w))) as [P1 P2].
  { cbn [s snapshot_dependents]. rewrite (wf_dependents_length _ Hw), Hn. done. }
  { cbn [s snapshot_dependency_counts]. rewrite (wf_counts_length _ Hw), Hn. done. }
  fold ns in P1, P2. cbn [s snapshot_dependents snapshot_dependency_counts] in P1, P2.
  assert (Hl : length ns = length (nodes t)) by (unfold ns; rewrite length_imap, Hn; done).
  rewrite Hwrap. split; cbn [graph accepting queue tasks log topology impl_nodes generation]; rewrite ?Hq; try done.
  - lia.
  - apply Forall_app. split.
    + rewrite Forall_forall in It, Hb |- *. intros t' Hin. specialize (It t' Hin) as [? _]. split; [lia|left; by apply Hb].
    + eapply Forall_impl; [apply looping_run|]. cbn. intros t' [-> ?]. split; [lia|by left].
  - intros Hs'. split; [done|]. apply Forall_app. split; [done|]. eapply Forall_impl; [apply looping_run|]. cbn. tauto.
  - intros _. split; [done|]. rewrite mine_app, mine_none, mine_all; cbn [app map generation].
    + eapply (started_run_inv _ _ _ (generation (graph w) + 1)); cbn [topology impl_nodes remaining_nodes running_jobs run_status]; try done.
      * unfold is_running. cbn [state]. destruct (bool_decide_reflect (ns = [])); done.
      * f_equal. unfold roots, initial_ready. rewrite P1, Hl. done.
    + eapply Forall_impl; [apply looping_run|]. cbn. tauto.
    + rewrite Forall_forall in It |- *. intros t' Hin. specialize (It t' Hin) as [? _]. cbn. lia.
Qed.

(** ** Histories *)

Definition is_start (c : Choice N) : bool := match c with Start => true | _ => false end.

Lemma graph_choose_inv k w c w' : (k + 1 < 2 ^ 64)%Z -> choose w c = Some w' -> graph_inv k w ->
  graph_inv (if is_start c then k + 1 else k) w'.
Proof.
  intros Hk E I. destruct c as [j| | |x has_job|x y| |]; cbn [choose] in E.
  - destruct (tasks w !! j) as [t|] eqn:Et; [|done]. cbn in E.
    assert (Hp : tasks w ≡ₚ t :: take j (tasks w) ++ drop (S j) (tasks w)).
    { rewrite <- (take_drop_middle _ _ _ Et) at 1. by rewrite <- Permutation_middle. }
    assert (I0 : graph_inv k {| graph := graph w; accepting := accepting w; queue := queue w;
      tasks := t :: take j (tasks w) ++ drop (S j) (tasks w); log := log w |}) by (by apply (graph_inv_perm k w)).
    apply advance_inv in I0. destruct (task_step (accepting w) (graph w) (queue w) t) as [[[g q] next] events].
    injection E as <-. eapply graph_inv_perm; [..|exact I0]; cbn; try done. solve_Permutation.
  - destruct (accepting w); [|done]. destruct (queue w) as [|[run i] q] eqn:Eq; [done|]. injection E as <-. by apply graph_take_inv.
  - destruct (accepting w); [|done]. injection E as <-. by apply graph_shutdown_inv.
  - injection E as <-. by apply add_inv.
  - injection E as <-. by apply depend_inv.
  - destruct (start (accepting w) (graph w)) as [[status g] ready] eqn:Es. 
    pose proof (graph_start_inv k w status g ready Hk Es I) as I'. by destruct (is_ok status); injection E as <-.
  - destruct (wait (graph w)) as [[r g]|] eqn:Ew; [|done]. injection E as <-. by eapply wait_inv.
Qed.

(** The number of starts in a history. *)
Definition starts (choices : list (Choice N)) : Z :=
  Z.of_nat (length (filter (fun c => is_start c = true) choices)).

Lemma graph_play_inv choices : forall k w w', (k + starts choices < 2 ^ 64 - 1)%Z -> graph_inv k w -> play w choices = Some w' ->
  graph_inv (k + starts choices) w'.
Proof.
  induction choices as [|c choices IH]; intros k w w' Hk I; cbn [play].
  - intros [= <-]. unfold starts. cbn. by rewrite Z.add_0_r.
  - destruct (choose w c) as [w1|] eqn:E; [|done]. intros Hp. cbn [mbind option_bind] in Hp.
    assert (Hc : starts (c :: choices) = ((if is_start c then 1 else 0) + starts choices)%Z).
    { unfold starts. rewrite filter_cons. destruct c; cbn [is_start]; case_decide; try done; cbn [length]; lia. }
    assert (Hs : (0 <= starts choices)%Z) by (unfold starts; lia).
    rewrite Hc in *. assert (I1 : graph_inv (k + (if is_start c then 1 else 0)) w1).
    { pose proof (graph_choose_inv k w c w1) as I1. destruct c; cbn [is_start] in *; rewrite ?Z.add_0_r; apply I1; try done; lia. }
    rewrite Z.add_assoc. apply (IH (k + (if is_start c then 1 else 0))%Z w1 w'); [lia|done|done].
Qed.

(** ** Failures

    A run fails only because the pool refused one of its nodes. *)
Definition failed_by_rejection (w : World N) : Prop := run_status (graph w) <> OK -> exists i, Rejected i ∈ log w.

Lemma step_rejects acc g q t : let '(g', _, _, events) := task_step acc g q t in
  run_status g' = run_status g \/ exists i, Rejected i ∈ events.
Proof.
  destruct t as [run [|i todo]|run i todo|run i todo|run i|run i|run i]; cbn [task_step]; try (by left).
  - destruct (_ && _); by left.
  - destruct acc; by left.
  - right. exists i. apply elem_of_cons. by left.
  - destruct (_ && _); by left.
  - destruct (current g run); [|by left]. unfold complete. impl_simpl.
    destruct (is_ok (run_status g)); [|destruct (_ =? 0)%Z; by left].
    destruct (fold_left _ _ _). by left.
Qed.

Lemma choose_failed w c w' : choose w c = Some w' -> failed_by_rejection w -> failed_by_rejection w'.
Proof.
  unfold failed_by_rejection. intros E I. destruct c as [j| | |x has_job|x y| |]; cbn [choose] in E.
  - destruct (tasks w !! j) as [t|]; [|done]. cbn in E. pose proof (step_rejects (accepting w) (graph w) (queue w) t) as Hs.
    destruct (task_step _ _ _ t) as [[[g q] next] events]. injection E as <-. cbn [graph log]. setoid_rewrite elem_of_app.
    destruct Hs as [->|[i Hi]]; [|intros _; exists i; by right]. intros Hf. destruct (I Hf) as [i Hi]. exists i. by left.
  - destruct (accepting w); [|done]. destruct (queue w) as [|[run i] q]; [done|]. by injection E as <-.
  - destruct (accepting w); [|done]. injection E as <-. cbn [graph log]. intros Hf. destruct (I Hf) as [i Hi]. exists i.
    apply elem_of_app. by left.
  - injection E as <-. revert I. unfold add, with_topology. by repeat (case_match; cbn; try done).
  - injection E as <-. revert I. unfold depend, with_topology. by repeat (case_match; cbn; try done).
  - destruct (start (accepting w) (graph w)) as [[status g] ready] eqn:Es. unfold start in Es.
    destruct (negb (bool_decide (state _ = _))); [by injection Es as <- <- <-; injection E as <-|].
    destruct (negb (accepting w)); [by injection Es as <- <- <-; injection E as <-|].
    destruct (snapshot (topology (graph w))) as [[v s] t].
    destruct (is_ok v) eqn:Hv; injection Es as <- <- <-; [by injection E as <-|]. rewrite Hv in E. by injection E as <-.
  - destruct (wait (graph w)) as [[r g]|] eqn:Ew; [|done]. injection E as <-. unfold wait in Ew.
    destruct (state (graph w)); [by injection Ew as <- <-|done|by injection Ew as <- <-].
Qed.
End Runs.
