(* ===== verification/GraphProps.v ===== *)
(** * What the runs of a reusable graph promise

    The safety of every run whatever the threads of this and of earlier runs
    do, and its end: the threads stop, and where they stop [wait] returns,
    unless a shutdown of the queue discarded jobs of the run. *)
From S2P Require Import Prelude.
From S2P Require Import DependencyGraph.
From S2P Require Import Readiness.
From S2P Require Import ExecutionGraph.
From S2P Require Import GraphRuns.

Section Live.
Context {N : Type} `{Countable N}.
Implicit Types (g : Impl N) (w : World N).

(** ** What a pool that was never shut down implies *)

Definition rejecting (t : Task) : bool := match t with Rejecting _ _ _ => true | _ => false end.

Record pool_inv (w : World N) : Prop := {
  po_closed : accepting w = false -> queue w = [];
  po_open : accepting w = true ->
    run_status (graph w) = OK /\ discarded (log w) = [] /\ Forall (fun t => rejecting t = false) (tasks w);
}.

Lemma graph_looping_open run todo : Forall (fun t => rejecting t = false) (looping run todo).
Proof. destruct todo; by repeat constructor. Qed.

Lemma completion_discarded g g' : discarded (completion g g') = [].
Proof. unfold completion. by destruct (_ && _). Qed.

Lemma step_open g q t : run_status g = OK -> rejecting t = false ->
  let '(g', q', next, events) := task_step true g q t in
  run_status g' = OK /\ discarded events = [] /\ Forall (fun t => rejecting t = false) next.
Proof.
  intros Hs Ht. destruct t as [run [|i todo]|run i todo|run i todo|run i|run i|run i]; cbn [task_step].
  - done.
  - destruct (_ && _).
    + split_and!; [done|done|]. by repeat constructor.
    + split_and!; [done|by destruct (_ =? _)%Z|apply graph_looping_open].
  - split_and!; [done|done|apply graph_looping_open].
  - done.
  - destruct (_ && _); split_and!; try done; by repeat constructor.
  - split_and!; try done; by repeat constructor.
  - destruct (current g run); [|done]. unfold complete.
    cbn [with_running run_status impl_nodes remaining_nodes running_jobs topology generation state].
    rewrite (proj2 (graph_is_ok_spec _) Hs).
    destruct (fold_left release_node _ _) as [ns ready]. cbn [run_status].
    split_and!; [done| |apply graph_looping_open]. cbn [discarded flat_map app]. apply completion_discarded.
Qed.

Lemma step_closed g q t : let '(g', q', next, events) := task_step false g q t in q' = q.
Proof.
  destruct t as [run [|i todo]|run i todo|run i todo|run i|run i|run i]; cbn [task_step]; try done;
    repeat case_match; by simplify_eq.
Qed.

Lemma choose_pool w c w' : pool_inv w -> choose w c = Some w' -> pool_inv w'.
Proof.
  intros [Hc Ho]. destruct c as [k| | |x has_job|x y| |]; cbn [choose].
  - destruct (tasks w !! k) as [t|] eqn:Et; [|done]. cbn [mbind option_bind].
    rewrite <- (take_drop_middle _ _ _ Et) in Ho. destruct (accepting w) eqn:Ha.
    + destruct (Ho eq_refl) as (Hs & Hd & Hf). apply Forall_app in Hf as [Hf1 Hf]. apply Forall_cons in Hf as [Ht Hf2].
      pose proof (step_open (graph w) (queue w) t Hs Ht) as Hst.
      destruct (task_step true (graph w) (queue w) t) as [[[g q] next] events]. intros [= <-].
      destruct Hst as (S1 & S2 & S3). split; cbn [accepting graph queue tasks log]; [done|]. intros _.
      split_and!; [done|by rewrite discarded_app, Hd|]. by rewrite !Forall_app.
    + pose proof (step_closed (graph w) (queue w) t) as Hst.
      destruct (task_step false (graph w) (queue w) t) as [[[g q] next] events]. intros [= <-]. subst q.
      split; cbn [accepting graph queue tasks log]; [by rewrite Hc|done].
  - destruct (accepting w) eqn:Ha; [|done]. destruct (queue w) as [|[run i] q]; [done|]. intros [= <-].
    destruct (Ho eq_refl) as (Hs & Hd & Hf). split; cbn [accepting graph queue tasks log]; [done|].
    intros _. split_and!; [done..|]. apply Forall_app. split; [done|]. by repeat constructor.
  - destruct (accepting w); [|done]. intros [= <-]. by split.
  - intros [= <-]. split; cbn [with_graph accepting graph queue tasks log]; [done|]. intros Ha.
    destruct (Ho Ha) as (Hs & ?). split; [|done]. unfold add. repeat case_match; cbn; done.
  - intros [= <-]. split; cbn [with_graph accepting graph queue tasks log]; [done|]. intros Ha.
    destruct (Ho Ha) as (Hs & ?). split; [|done]. unfold depend. repeat case_match; cbn; done.
  - unfold start. destruct (bool_decide (state (graph w) = IDLE)); cbn [negb].
    2: { intros [= <-]. rewrite with_graph_same. by split. }
    destruct (accepting w) eqn:Ha; cbn [negb]; [|intros [= <-]; rewrite with_graph_same; split; by rewrite Ha].
    destruct (Ho eq_refl) as (Hs & Hd & Hf). destruct (snapshot _) as [[v s] t].
    destruct (is_ok v) eqn:Ev; cbn [is_ok].
    + rewrite (proj2 (graph_is_ok_spec OK)) by done. intros [= <-]. split; cbn [accepting graph queue tasks log]; [done|].
      intros _. split_and!; [done| |apply Forall_app; split; [done|apply graph_looping_open]]. by destruct (is_running _).
    + rewrite Ev. intros [= <-]. split; cbn; [by rewrite Ha|done].
  - unfold wait. destruct (state (graph w)); [|done|]; intros [= <-]; [rewrite with_graph_same|]; by split.
Qed.

Lemma play_pool choices : forall w w', pool_inv w -> play w choices = Some w' -> pool_inv w'.
Proof.
  induction choices as [|c choices IH]; intros w w' I; cbn [play]; [by intros [= <-]|].
  destruct (choose w c) as [w1|] eqn:E; [|done]. apply IH. by eapply choose_pool.
Qed.

Lemma new_world_pool : pool_inv (new_world (N := N)).
Proof. split; cbn; [done|]. intros _. by split_and!; try constructor. Qed.

Lemma graph_play_accepting choices : forall w w', Shutdown ∉ choices -> play w choices = Some w' -> accepting w' = accepting w.
Proof.
  induction choices as [|c choices IH]; intros w w' Hn; cbn [play]; [by intros [= <-]|].
  apply not_elem_of_cons in Hn as [Hc Hn]. destruct (choose w c) as [w1|] eqn:E; [|done]. intros Hp.
  rewrite (IH w1 w' Hn Hp). destruct c as [k| | |x b|x y| |]; cbn [choose] in E; try done.
  - destruct (tasks w !! k); [|done]. cbn in E. by destruct (task_step _ _ _ _) as [[[? ?] ?] ?]; simplify_eq.
  - destruct (accepting w); [|done]. by destruct (queue w) as [|[? ?] ?]; simplify_eq.
  - by simplify_eq.
  - by simplify_eq.
  - destruct (start _ _) as [[status ?] ?]. by destruct (is_ok status); simplify_eq.
  - destruct (wait (graph w)) as [[? ?]|]; [|done]. by injection E as <-.
Qed.

(** ** Threads stop *)

Definition task_weight (t : Task) : nat :=
  match t with
  | Scheduling _ todo => 1 + 20 * length todo
  | Submitting _ _ todo => 18 + 20 * length todo
  | Rejecting _ _ todo => 3 + 20 * length todo
  | Checking _ _ => 13
  | Executing _ _ => 12
  | Completing _ _ => 11
  end.

(** The nodes of the current run that are not ready yet. *)
Definition waiting_nodes (w : World N) : nat :=
  if decide (state (graph w) = IDLE) then 0
  else length (nodes (topology (graph w))) - length (placed (mine (graph w) (tasks w)) (map snd (queue w)) (log w)).

Definition graph_measure (w : World N) : nat :=
  25 * waiting_nodes w + sum_list_with task_weight (tasks w) + 14 * length (queue w).

Lemma graph_looping_weight run todo : (sum_list_with task_weight (looping run todo) <= 1 + 20 * length todo)%nat.
Proof. destruct todo; cbn; lia. Qed.

(** A thread of the current run moves nodes between their places, or brings
    new ones that weigh less than before. *)
Lemma step_weight acc g q t : task_run t = generation g -> (task_busy t = [] \/ is_running g = true) ->
  Forall (fun i => (i < length (impl_nodes g))%nat) (task_busy t) ->
  let '(g', q', next, events) := task_step acc g q t in
  exists fresh : nat,
    (length (flat_map task_nodes next) + length q' + length (settled_nodes events) =
     length (task_nodes t) + length q + fresh)%nat /\
    (sum_list_with task_weight next + 14 * length q' + 1 <= task_weight t + 14 * length q + 20 * fresh)%nat.
Proof.
  intros Ht Hb Hr. destruct t as [run [|i todo]|run i todo|run i todo|run i|run i|run i]; cbn in Ht; subst run; cbn [task_step].
  - exists 0%nat. cbn. lia.
  - destruct (graph_looping_views (generation g) todo) as (V & _). pose proof (graph_looping_weight (generation g) todo).
    destruct (_ && _); exists 0%nat.
    + cbn. rewrite ?app_nil_r. lia.
    + rewrite Z.eqb_refl, V. cbn [settled_nodes flat_map task_nodes app length task_weight]. lia.
  - destruct (graph_looping_views (generation g) todo) as (V & _). pose proof (graph_looping_weight (generation g) todo).
    destruct acc; exists 0%nat.
    + rewrite V, length_app. cbn [settled_nodes flat_map task_nodes app length task_weight]. lia.
    + cbn. rewrite ?app_nil_r. cbn. lia.
  - destruct (graph_looping_views (generation g) todo) as (V & _). pose proof (graph_looping_weight (generation g) todo).
    exists 0%nat. rewrite V. unfold completion. destruct (_ && _);
      cbn [settled_nodes flat_map task_nodes app length task_weight]; lia.
  - destruct Hb as [?|Hb]; [done|]. unfold current. rewrite Hb, Z.eqb_refl. apply Forall_cons in Hr as [Hr _].
    rewrite (proj2 (Nat.ltb_lt _ _) Hr). exists 0%nat. cbn. lia.
  - exists 0%nat. cbn. lia.
  - destruct Hb as [?|Hb]; [done|]. unfold current. rewrite Hb, Z.eqb_refl. cbn [andb].
    destruct (ExecutionGraph.complete i g) as [g' ready]. exists (length ready).
    destruct (graph_looping_views (generation g) ready) as (V & _). pose proof (graph_looping_weight (generation g) ready). rewrite V.
    assert (Hset : forall e, settled_nodes (e :: completion g g') = settled_nodes [e]).
    { intros e. unfold completion. by destruct (_ && _). }
    rewrite Hset. destruct (is_ok _); cbn [settled_nodes flat_map task_nodes app length task_weight]; lia.
Qed.

Lemma graph_placed_bound k w : graph_inv k w -> state (graph w) <> IDLE ->
  (length (placed (mine (graph w) (tasks w)) (map snd (queue w)) (log w)) <= length (nodes (topology (graph w))))%nat.
Proof.
  intros I Hs. destruct (gi_run _ _ I Hs) as [_ R]. rewrite <- (length_seq (length (nodes _)) 0).
  apply submseteq_length, NoDup_submseteq; [apply R|]. intros j Hj. apply (ri_placed _ _ _ _ R) in Hj as [Hj _].
  apply elem_of_seq. lia.
Qed.

(** Nodes in the hands of a busy thread exist. *)
Lemma busy_bound g t ts q l : length (impl_nodes g) = length (nodes (topology g)) -> run_inv g (t :: ts) q l ->
  Forall (fun i => (i < length (impl_nodes g))%nat) (task_busy t).
Proof.
  intros Hl R. apply Forall_forall. intros i Hi. rewrite Hl.
  assert (Hp : i ∈ placed (t :: ts) q l).
  { unfold placed. cbn. rewrite !elem_of_app. left. left. destruct t; cbn in *; set_solver. }
  by apply (ri_placed _ _ _ _ R) in Hp as [? _].
Qed.

(** A thread that finds its run over or outdated only shortens its loop. *)
Lemma idle_step_weight acc g q t : task_busy t = [] -> is_running g = false \/ task_run t <> generation g ->
  exists next events, task_step acc g q t = (g, q, next, events) /\
    (sum_list_with task_weight next < task_weight t)%nat /\
    (task_run t <> generation g -> events = [] /\ Forall (fun t' => task_run t' <> generation g) next).
Proof.
  intros Hb Hr. destruct t as [run [|i todo]|run i todo|run i todo|run i|run i|run i]; cbn in Hb, Hr; try done; cbn [task_step].
  - exists [], []. split; [done|]. split; [cbn; lia|]. intros _. by split.
  - assert (Hc : current g run = false).
    { unfold current. destruct Hr as [->|Hr]; [done|]. rewrite (proj2 (Z.eqb_neq _ _)) by congruence. apply andb_false_r. }
    rewrite Hc. cbn [andb]. do 2 eexists. split; [done|]. split.
    + pose proof (graph_looping_weight run todo). cbn. lia.
    + cbn [task_run]. intros Hne. rewrite (proj2 (Z.eqb_neq _ _)) by congruence. split; [done|].
      eapply Forall_impl; [apply looping_run|]. cbn. intros t' [-> _]. done.
Qed.

Definition moved (w : World N) (g : Impl N) (q : list (Z * nat)) (ts : list Task) (events : list RunEvent) : World N :=
  {| graph := g; accepting := accepting w; queue := q; tasks := ts; log := log w ++ events |}.

(** The world in which the thread [t] comes first. *)
Lemma advance_front w j w' : choose w (Advance j) = Some w' -> exists t rest, tasks w ≡ₚ t :: rest /\
  let '(g, q, next, events) := task_step (accepting w) (graph w) (queue w) t in
  exists ts, ts ≡ₚ next ++ rest /\ w' = moved w g q ts events.
Proof.
  cbn [choose]. destruct (tasks w !! j) as [t|] eqn:Et; [|done]. cbn [mbind option_bind]. intros E.
  exists t, (take j (tasks w) ++ drop (S j) (tasks w)). split.
  { rewrite <- (take_drop_middle _ _ _ Et) at 1. by rewrite <- Permutation_middle. }
  destruct (task_step (accepting w) (graph w) (queue w) t) as [[[g q] next] events]. injection E as <-.
  eexists. split; [|done]. solve_Permutation.
Qed.

Lemma sum_weights_perm ts ts' : ts ≡ₚ ts' -> sum_list_with task_weight ts = sum_list_with task_weight ts'.
Proof. intros E. induction E; cbn; lia. Qed.

Lemma placed_length ts ts' q l : ts ≡ₚ ts' -> length (placed ts q l) = length (placed ts' q l).
Proof. intros E. unfold placed. by rewrite E. Qed.

Lemma advance_measure k w j w' : graph_inv k w -> graph_inv k w' -> choose w (Advance j) = Some w' ->
  (graph_measure w' < graph_measure w)%nat.
Proof.
  intros I I' E. destruct (advance_front w j w' E) as (t & rest & Hp & Hs).
  pose proof (gi_tasks _ _ I) as Ht. rewrite Hp in Ht. apply Forall_cons in Ht as [[_ Hb] _].
  pose proof (sum_weights_perm _ _ Hp) as Hsum. cbn [sum_list_with] in Hsum.
  pose proof (step_frame (accepting w) (graph w) (queue w) t) as Fr.
  unfold graph_measure, waiting_nodes.
  destruct (decide (state (graph w) <> IDLE /\ task_run t = generation (graph w))) as [[Hi Hr]|Hn].
  - pose proof (graph_placed_bound k w I Hi) as B. destruct (gi_run _ _ I Hi) as [_ R].
    assert (Hmine : mine (graph w) (tasks w) ≡ₚ t :: mine (graph w) rest).
    { unfold mine. rewrite Hp. by rewrite filter_cons_True. }
    apply (run_inv_perm _ _ _ _ _ Hmine) in R.
    assert (Hi1 : task_busy t = [] \/ is_running (graph w) = true).
    { destruct (task_busy t) eqn:Eb; [by left|right]. eapply busy_running; [exact R|by rewrite Eb]. }
    pose proof (step_weight (accepting w) (graph w) (queue w) t Hr Hi1 (busy_bound _ _ _ _ _ (gi_length _ _ I) R)) as St.
    destruct (task_step (accepting w) (graph w) (queue w) t) as [[[g q] next] events].
    destruct Fr as (F1 & F2 & _ & F4 & _ & F6 & _). destruct St as (fresh & S1 & S2). destruct Hs as (ts & Hts & ->).
    specialize (F6 Hi1). assert (Hi' : state g <> IDLE) by (intros Hi'; by apply F6 in Hi').
    pose proof (graph_placed_bound k _ I' Hi') as B'. cbn [moved graph queue tasks log] in *. rewrite !decide_False by done.
    rewrite Hsum, (sum_weights_perm _ _ Hts), sum_list_with_app.
    assert (Hm' : mine g ts ≡ₚ next ++ mine (graph w) rest).
    { unfold mine. rewrite Hts, filter_app, F1. fold (mine (graph w) next). rewrite (mine_all _ next); [done|].
      eapply Forall_impl; [exact F4|]. cbn. congruence. }
    assert (Hl : (length (placed (mine g ts) (map snd q) (log w ++ events)) =
      length (placed (mine (graph w) (tasks w)) (map snd (queue w)) (log w)) + fresh)%nat).
    { rewrite (placed_length _ _ _ _ Hm'), (placed_length _ _ _ _ Hmine). unfold placed.
      rewrite settled_app, flat_map_app. cbn [flat_map]. rewrite !length_app, !length_map. lia. }
    rewrite Hl in *. rewrite F2 in *. lia.
  - destruct (idle_step_weight (accepting w) (graph w) (queue w) t) as (next & events & Est & W & Hev).
    { destruct Hb as [Hb|Hb]; [done|]. destruct (decide (state (graph w) = IDLE)) as [Hi|Hi]; [|by destruct Hn].
      destruct (gi_idle _ _ I Hi) as [_ Hf]. rewrite Hp in Hf. by apply Forall_cons in Hf as [Hf _]. }
    { destruct (decide (state (graph w) = IDLE)) as [Hi|Hi]; [left; unfold is_running; by rewrite Hi|].
      right. intros Hr. by destruct Hn. }
    rewrite Est in Hs. destruct Hs as (ts & Hts & ->). cbn [moved graph queue tasks log].
    rewrite Hsum, (sum_weights_perm _ _ Hts), sum_list_with_app.
    destruct (decide (state (graph w) = IDLE)) as [Hi|Hi]; [lia|].
    destruct Hev as [-> Hnext]; [intros Hr; by destruct Hn|].
    assert (Hm : mine (graph w) ts ≡ₚ mine (graph w) (tasks w)).
    { unfold mine. rewrite Hts, Hp, filter_app. fold (mine (graph w) next). rewrite (mine_none _ next) by done.
      rewrite filter_cons_False; [done|]. intros Hr. by destruct Hn. }
    rewrite app_nil_r, (placed_length _ _ _ _ Hm). lia.
Qed.

Lemma take_measure k w w' : graph_inv k w -> choose w Take = Some w' -> (graph_measure w' < graph_measure w)%nat.
Proof.
  intros I. cbn [choose]. destruct (accepting w); [|done]. destruct (queue w) as [|[run i] q] eqn:Eq; [done|]. intros [= <-].
  pose proof (gi_queue _ _ I) as Hq. rewrite Eq in Hq. apply Forall_cons in Hq as [Hr _]. cbn in Hr. subst run.
  unfold graph_measure, waiting_nodes. cbn [graph queue tasks log].
  rewrite mine_app, (mine_all _ [_]) by by repeat constructor. rewrite sum_list_with_app, Eq. unfold placed.
  rewrite flat_map_app, !length_app. cbn. destruct (decide _); lia.
Qed.

(** The steps of the pool and its threads. *)
Definition pool_step (c : Choice N) : bool := match c with Advance _ | Take => true | _ => false end.

Lemma pool_bounded choices : forall k w w', (k < 2 ^ 64 - 1)%Z -> graph_inv k w ->
  Forall (fun c => pool_step c = true) choices -> play w choices = Some w' ->
  (length choices + graph_measure w' <= graph_measure w)%nat.
Proof.
  induction choices as [|c choices IH]; intros k w w' Hk I Hf; cbn [play]; [intros [= <-]; cbn [length]; lia|].
  apply Forall_cons in Hf as [Hc Hf]. destruct (choose w c) as [w1|] eqn:E; [|done]. intros Hp.
  assert (I1 : graph_inv k w1) by (pose proof (graph_choose_inv k w c w1 ltac:(lia) E I) as I1; by destruct c).
  specialize (IH k w1 w' Hk I1 Hf Hp). cbn [length].
  assert (graph_measure w1 < graph_measure w)%nat; [|lia].
  destruct c; try done; [by eapply advance_measure|by eapply take_measure].
Qed.

(** No thread can move. *)
Definition pool_stuck (w : World N) : Prop := forall c, pool_step c = true -> choose w c = None.

Lemma pool_stuck_spec w : pool_stuck w -> tasks w = [] /\ (accepting w = true -> queue w = []).
Proof.
  intros Hs. split.
  - destruct (tasks w) as [|t ts] eqn:E; [done|]. specialize (Hs (Advance 0) eq_refl). cbn in Hs. rewrite E in Hs.
    cbn in Hs. by destruct (task_step (accepting w) (graph w) (queue w) t) as [[[? ?] ?] ?].
  - intros Ha. specialize (Hs Take eq_refl). cbn in Hs. rewrite Ha in Hs. by destruct (queue w) as [|[? ?] ?].
Qed.

(** A run of which nothing is left has completed. *)
Lemma stuck_complete k w : graph_inv k w -> pool_inv w -> pool_stuck w -> discarded (log w) = [] ->
  state (graph w) <> RUNNING.
Proof.
  intros I P [Ht Hq]%pool_stuck_spec Hd Hs. destruct (gi_run _ _ I) as [Hv R]; [by rewrite Hs|].
  assert (Hq0 : queue w = []) by (destruct (accepting w) eqn:Ha; [auto|by apply (po_closed _ P)]).
  rewrite Ht, Hq0 in R. cbn in R. pose proof (ri_over _ _ _ _ R) as Ho.
  assert (Hr : is_running (graph w) = true) by (unfold is_running; rewrite Hs; done). rewrite Hr in Ho.
  assert (Hj : running_jobs (graph w) = 0%Z) by (rewrite (ri_running _ _ _ _ R), Hd; done).
  destruct (decide (run_status (graph w) = OK)) as [Hok|Hok]; [|by destruct Ho as [_ []]].
  destruct Ho as [Ho _]. apply (Ho Hok). pose proof (ri_lost _ _ _ _ R Hok) as Hl. rewrite Hd, app_nil_r in Hl.
  assert (Hall : forall j, (j < length (nodes (topology (graph w))))%nat -> j ∈ released (log w)).
  { apply (closed_done _ (gi_wf _ _ I)); [done|]. intros j Hlt. apply (ri_placed _ _ _ _ R) in Hlt.
    unfold placed in Hlt. cbn in Hlt. by rewrite Hl in Hlt. }
  rewrite (ri_remaining _ _ _ _ R).
  assert (Hp : released (log w) ≡ₚ seq 0 (length (nodes (topology (graph w))))).
  { apply NoDup_Permutation; [by eapply graph_released_once|apply NoDup_seq|]. intros j. rewrite elem_of_seq. split.
    - intros Hin%released_settled. assert (Hx : j ∈ placed [] [] (log w)) by (unfold placed; cbn; done).
      apply (ri_placed _ _ _ _ R) in Hx as [Hx _]. lia.
    - intros [_ Hin]. by apply Hall. }
  rewrite (Permutation_length Hp), length_seq. lia.
Qed.

(** A completed run without failure ran every job. *)
Lemma complete_ok_all g ts q l : run_inv g ts q l -> is_running g = false -> run_status g = OK ->
  ended l ≡ₚ seq 0 (length (nodes (topology g))) /\ began l ≡ₚ ended l.
Proof.
  intros R Hr Hs. destruct (over_idle _ _ _ _ R Hr) as (Hb & _ & _). apply graph_busy_working in Hb as [Hb1 Hb2].
  pose proof (ri_over _ _ _ _ R) as Ho. rewrite Hr in Ho. split.
  - rewrite (ri_ended _ _ _ _ R), Hb2, (ri_aborted _ _ _ _ R Hs), app_nil_r. cbn.
    by apply (all_released _ _ _ _ R), Ho.
  - by rewrite (ri_began _ _ _ _ R), Hb1.
Qed.

Lemma began_once g ts q l : run_inv g ts q l -> NoDup (began l).
Proof.
  intros R. pose proof (ri_nodup _ _ _ _ R) as Hn. unfold placed in Hn. apply NoDup_app in Hn as (Hn1 & Hn2 & Hn).
  apply NoDup_app in Hn as (_ & _ & Hn3).
  assert (Hsub : forall l' i, i ∈ flat_map task_executing l' ++ flat_map task_completing l' -> i ∈ flat_map task_nodes l').
  { clear. induction l' as [|t l' IH]; cbn; [done|]. intros i. rewrite !elem_of_app in *.
    destruct t; cbn; rewrite ?list_elem_of_singleton; set_solver. }
  eapply NoDup_Permutation_proper; [rewrite (ri_began _ _ _ _ R), (ri_ended _ _ _ _ R); reflexivity|].
  rewrite app_assoc. apply NoDup_app. split; [|split; [|by apply settled_nodup]].
  - clear - Hn1 Hsub. induction ts as [|t l' IH]; [constructor|]. cbn in *. apply NoDup_app in Hn1 as (_ & Hd1 & Hn1).
    specialize (IH Hn1). destruct t; cbn; try done.
    + constructor; [|done]. intros Hi%Hsub. apply (Hd1 node); [by left|done].
    + eapply NoDup_Permutation_proper; [symmetry; apply Permutation_middle|].
      constructor; [|done]. intros Hi%Hsub. apply (Hd1 node); [by left|done].
  - intros i Hi%Hsub Hi2. apply (Hn2 i); [done|]. apply elem_of_app. right. rewrite elem_of_app in Hi2.
    destruct Hi2 as [?%released_settled|?%aborted_settled]; done.
Qed.
End Live.

(** ** Properties *)

(** C4. Whatever the callers, the workers and the threads of this and of earlier
    runs do, in any order: while a run is active or awaits collection, no job of
    it began twice and none began before all its prerequisites ended; its
    result is known at most once, when every job that began has ended and with
    none beginning later; [wait] returns exactly that result, and [OK] means
    that every job has run. *)
Theorem graph_run_safe {N : Type} `{Countable N} (choices : list (Choice N)) w :
  (starts choices < 2 ^ 64 - 1)%Z -> play new_world choices = Some w -> state (graph w) <> IDLE ->
  NoDup (began (log w)) /\
  (forall l1 j l2, log w = l1 ++ Began j :: l2 -> forall i, edge (topology (graph w)) i j -> i ∈ ended l1) /\
  (length (notified (log w)) <= 1)%nat /\
  (forall l1 s l2, log w = l1 ++ Notified s :: l2 -> ended l1 ≡ₚ began l1 /\ began l2 = []) /\
  match wait (graph w) with
  | None => notified (log w) = []
  | Some (result, _) => notified (log w) = [result] /\
      (result = OK -> ended (log w) ≡ₚ seq 0 (size (graph w))) /\ (result = OK \/ result = WORKER_SUBMISSION_FAILED)
  end.
Proof.
  intros Hk Hp Hs. pose proof (graph_play_inv choices 0 new_world w ltac:(lia) new_world_inv Hp) as I.
  destruct (gi_run _ _ I Hs) as [_ R]. split; [by eapply began_once|]. split; [apply R|].
  pose proof (ri_notified _ _ _ _ R) as Hn. split; [rewrite Hn; destruct (is_running _); cbn; lia|]. split; [apply R|].
  unfold wait. destruct (state (graph w)) eqn:E; [done|..].
  - by rewrite Hn, (proj2 (bool_decide_eq_true _) E : is_running (graph w) = true).
  - assert (Hr : is_running (graph w) = false) by (apply bool_decide_false; by rewrite E).
    rewrite Hn, Hr. split; [done|]. split; [|apply R]. intros Hok. by eapply complete_ok_all.
Qed.

(** C5. From any reachable state the pool's threads stop after a bounded number of
    steps. Where none can move, [wait] returns unless a shutdown discarded
    queued jobs of the run, and returns [OK] if the pool was never shut down;
    with discarded jobs [wait] blocks, whatever the threads do. *)
Theorem graph_run_completes {N : Type} `{Countable N} (choices : list (Choice N)) w :
  (starts choices < 2 ^ 64 - 1)%Z -> play new_world choices = Some w ->
  (exists bound, forall more w', Forall (fun c => pool_step c = true) more -> play w more = Some w' ->
     (length more <= bound)%nat) /\
  ((forall c, pool_step c = true -> choose w c = None) ->
   (discarded (log w) = [] -> is_Some (wait (graph w))) /\
   (Shutdown ∉ choices -> exists g, wait (graph w) = Some (OK, g))) /\
  (state (graph w) <> IDLE -> discarded (log w) <> [] -> wait (graph w) = None).
Proof.
  intros Hk Hp. pose proof (graph_play_inv choices 0 new_world w ltac:(lia) new_world_inv Hp) as I.
  pose proof (play_pool choices new_world w new_world_pool Hp) as P. split; [|split].
  - exists (graph_measure w). intros more w' Hf Hm.
    pose proof (pool_bounded more (0 + starts choices)%Z w w' ltac:(lia) I Hf Hm). lia.
  - intros Hst. assert (Hc : discarded (log w) = [] -> is_Some (wait (graph w))).
    { intros Hd. pose proof (stuck_complete _ w I P Hst Hd) as Hr. unfold wait. by destruct (state (graph w)). }
    split; [done|]. intros Hn. pose proof (graph_play_accepting choices _ _ Hn Hp) as Ha.
    destruct (po_open _ P Ha) as (Hs & Hd & _). destruct (Hc Hd) as [[r g] Hw]. exists g. rewrite Hw.
    unfold wait in Hw. destruct (state (graph w)); simplify_eq; by rewrite ?Hs.
  - intros Hs Hd. destruct (gi_run _ _ I Hs) as [_ R]. unfold wait. destruct (state (graph w)) eqn:E; [done|done|].
    destruct (over_idle _ _ _ _ R) as (_ & _ & Hd'); [|done]. apply bool_decide_false. by rewrite E.
Qed.

(** ** Witnesses *)

(** A diamond is built, an unsupported node refused, and the run of the graph
    played by two workers, collected and started again. *)
Definition sample_build : list (Choice nat) :=
  [AddNode 1 true; AddNode 2 true; AddNode 3 true; AddNode 4 true; AddNode 5 false; AddDependency 1 2;
   AddDependency 1 3; AddDependency 2 4; AddDependency 3 4].
Definition sample_steps : list (Choice nat) :=
  [Start; Advance 0; Advance 0; Take; Advance 0; Advance 0; Advance 0; Advance 0; Advance 0; Take; Advance 1;
   Advance 1; Advance 1; Advance 0; Advance 0; Take; Advance 0; Advance 0; Advance 0; Advance 0; Advance 0; Take;
   Advance 0; Advance 0; Advance 0].
Definition sample_choices : list (Choice nat) := sample_build ++ sample_steps ++ [Wait] ++ sample_steps.
Definition sample_world : World nat := default new_world (play new_world sample_choices).

Example sample_world_log : log sample_world =
  [Began 0; Ended 0; Released 0; Began 1; Ended 1; Released 1; Began 2; Ended 2; Released 2; Began 3; Ended 3;
   Released 3; Notified OK] /\ generation (graph sample_world) = 2%Z.
Proof. vm_compute. split; reflexivity. Qed.

Lemma sample_world_play : play new_world sample_choices = Some sample_world.
Proof. vm_compute. reflexivity. Qed.

Lemma graph_run_safe_witness : NoDup (began (log sample_world)).
Proof.
  refine (proj1 (graph_run_safe sample_choices sample_world _ sample_world_play _)).
  - vm_compute. reflexivity.
  - vm_compute. discriminate.
Defined.

(** A shutdown with a queued job. *)
Definition sample_stopped : list (Choice nat) := sample_build ++ [Start; Advance 0; Advance 0; Shutdown].
Definition stopped_world : World nat := default new_world (play new_world sample_stopped).

Lemma stopped_world_play : play new_world sample_stopped = Some stopped_world.
Proof. vm_compute. reflexivity. Qed.

Lemma graph_run_completes_witness :
  (exists g, wait (graph sample_world) = Some (OK, g)) /\ wait (graph stopped_world) = None.
Proof.
  split.
  - refine (proj2 (proj1 (proj2 (graph_run_completes sample_choices sample_world _ sample_world_play)) _) _).
    + vm_compute. reflexivity.
    + intros [k| | |x b|x y| |] Hc; try discriminate Hc; [destruct k; reflexivity|reflexivity].
    + intros Hin. apply list_elem_of_In in Hin. vm_compute in Hin.
      repeat (destruct Hin as [Hin|Hin]; [discriminate Hin|]). exact Hin.
  - refine (proj2 (proj2 (graph_run_completes sample_stopped stopped_world _ stopped_world_play)) _ _).
    + vm_compute. reflexivity.
    + vm_compute. discriminate.
    + vm_compute. discriminate.
Defined.
