(* ===== verification/GraphJobs.v ===== *)
(** * What the jobs of a graph may rely on

    The guarantees of an execution graph to the objects whose methods its jobs
    call: which jobs are running, which have ended, and what each step of the
    threads adds. *)
From S2P Require Import Prelude.
From S2P Require Import DependencyGraph.
From S2P Require Import Readiness.
From S2P Require Import ExecutionGraph.
From S2P Require Import GraphRuns.
From S2P Require Import GraphProps.

Section Jobs.
Context {N : Type} `{Countable N}.
Implicit Types (g : Impl N) (w : World N).

Lemma working_nodes ts i : i ∈ flat_map task_executing ts ++ flat_map task_completing ts -> i ∈ flat_map task_nodes ts.
Proof.
  induction ts as [|t ts IH]; cbn; [done|]. rewrite !elem_of_app in *.
  destruct t; cbn; rewrite ?list_elem_of_singleton; set_solver.
Qed.

Lemma began_placed g ts q l i : run_inv g ts q l -> i ∈ began l -> i ∈ placed ts q l.
Proof.
  intros I Hi. rewrite (ri_began _ _ _ _ I), (ri_ended _ _ _ _ I), app_assoc, elem_of_app in Hi. unfold placed.
  rewrite !elem_of_app in *. destruct Hi as [Hi|[Hi|Hi]]; [|by right; right; apply released_settled|by right; right; apply aborted_settled].
  left. by apply working_nodes, elem_of_app.
Qed.

(** A rejected node was not completed. *)
Lemma rejected_settled l i : NoDup (settled_nodes l) -> Rejected i ∈ l -> i ∈ settled_nodes l /\ i ∉ released l ++ aborted l.
Proof.
  intros Hn Hi. apply list_elem_of_split in Hi as (l1 & l2 & ->). rewrite settled_app in *.
  cbn [settled_nodes flat_map app] in *. change (flat_map _ l2) with (settled_nodes l2) in *.
  split; [rewrite elem_of_app, elem_of_cons; auto|].
  apply NoDup_app in Hn as (_ & Hd & Hn). apply NoDup_cons in Hn as [Hn _].
  assert (H1 : i ∉ settled_nodes l1) by (intros H1; apply (Hd i H1), elem_of_cons; by left).
  rewrite released_app, aborted_app. cbn. rewrite !elem_of_app.
  intros [[?%released_settled|?%released_settled]|[?%aborted_settled|?%aborted_settled]]; done.
Qed.

Lemma running_not_idle w : is_running (graph w) = true -> state (graph w) <> IDLE.
Proof. unfold is_running. intros ?%bool_decide_eq_true. congruence. Qed.

(** A thread inside a job belongs to the current run. *)
Lemma executing_job k w run i : graph_inv k w -> Executing run i ∈ tasks w ->
  run = generation (graph w) /\ is_running (graph w) = true /\ i ∈ began (log w) /\ i ∉ ended (log w).
Proof.
  intros I Hi. destruct I. rewrite Forall_forall in gi_tasks. destruct (gi_tasks _ Hi) as [_ [?|Hr]]; [done|]. cbn in Hr.
  assert (Hs : state (graph w) <> IDLE).
  { intros Hs. destruct (gi_idle Hs) as [_ Hb]. rewrite Forall_forall in Hb. by specialize (Hb _ Hi). }
  destruct (gi_run Hs) as [_ R].
  assert (Hm : Executing run i ∈ mine (graph w) (tasks w)) by (by apply list_elem_of_filter).
  apply elem_of_Permutation in Hm as [rest Hm]. apply (run_inv_perm _ _ _ _ _ Hm) in R.
  pose proof (began_once _ _ _ _ R) as Hn. pose proof (ri_began _ _ _ _ R) as Hb. cbn in Hb.
  split; [done|]. split; [by eapply busy_running|]. split; [rewrite Hb; apply elem_of_cons; by left|].
  rewrite Hb in Hn. apply NoDup_cons in Hn as [Hn _]. intros He. apply Hn, elem_of_app. by right.
Qed.

Lemma began_bound k w i : graph_inv k w -> state (graph w) <> IDLE -> i ∈ began (log w) ->
  (i < length (nodes (topology (graph w))))%nat.
Proof.
  intros I Hs Hi. destruct (gi_run _ _ I Hs) as [_ R]. eapply began_placed in Hi; [|exact R].
  by apply (ri_placed _ _ _ _ R) in Hi as [? _].
Qed.

(** The prerequisites of a job that began have ended. *)
Lemma began_after k w i j : graph_inv k w -> state (graph w) <> IDLE -> edge (topology (graph w)) i j ->
  j ∈ began (log w) -> i ∈ ended (log w).
Proof.
  intros I Hs He Hj. destruct (gi_run _ _ I Hs) as [_ R]. apply list_elem_of_omap in Hj as (e & Hin & E).
  destruct e; try done. injection E as ->. apply list_elem_of_split in Hin as (l1 & l2 & El).
  pose proof (ri_order _ _ _ _ R l1 j l2 El i He) as Hi. rewrite El, ended_app. apply elem_of_app. by left.
Qed.

(** A completed run. *)
Lemma complete_facts k w : graph_inv k w -> failed_by_rejection w -> state (graph w) = COMPLETE ->
  began (log w) ≡ₚ ended (log w) /\
  if decide (run_status (graph w) = OK)
  then began (log w) ≡ₚ seq 0 (length (nodes (topology (graph w))))
  else exists i, (i < length (nodes (topology (graph w))))%nat /\ i ∉ began (log w).
Proof.
  intros I Hf Hs. destruct (gi_run _ _ I) as [_ R]; [by rewrite Hs|].
  assert (Hr : is_running (graph w) = false) by (unfold is_running; by rewrite Hs).
  destruct (over_idle _ _ _ _ R Hr) as (Hb & _ & _). pose proof (graph_busy_working _ Hb) as [Hx Hc].
  pose proof (ri_began _ _ _ _ R) as Hbe. rewrite Hx in Hbe. split; [done|]. case_decide as Ho.
  - destruct (complete_ok_all _ _ _ _ R Hr Ho) as [H1 H2]. by rewrite H2.
  - destruct (Hf Ho) as [i Hi]. pose proof (ri_nodup _ _ _ _ R) as Hn. unfold placed in Hn.
    apply NoDup_app in Hn as (_ & _ & Hn). apply NoDup_app in Hn as (_ & _ & Hn).
    destruct (rejected_settled _ i Hn Hi) as [H1 H2]. exists i. split.
    + assert (Hp : i ∈ placed (mine (graph w) (tasks w)) (map snd (queue w)) (log w)) by (unfold placed; rewrite !elem_of_app; auto).
      by apply (ri_placed _ _ _ _ R) in Hp as [? _].
    + rewrite Hbe, (ri_ended _ _ _ _ R), Hc. done.
Qed.

(** ** What a step adds to the log *)

Definition begins (w : World N) (c : Choice N) : list nat :=
  match c with
  | Advance thread =>
      match tasks w !! thread with
      | Some (Checking run node) =>
          if current (graph w) run && (node <? length (impl_nodes (graph w)))%nat then [node] else []
      | _ => []
      end
  | _ => []
  end.

Definition ends (w : World N) (c : Choice N) : list nat :=
  match c with
  | Advance thread => match tasks w !! thread with Some (Executing _ node) => [node] | _ => [] end
  | _ => []
  end.

Lemma completion_views g g' : began (completion g g') = [] /\ ended (completion g g') = [].
Proof. unfold completion. by destruct (_ && _). Qed.

Lemma step_views acc g q t : let '(_, _, _, events) := task_step acc g q t in
  began events = match t with
                 | Checking run node => if current g run && (node <? length (impl_nodes g))%nat then [node] else []
                 | _ => []
                 end /\
  ended events = match t with Executing _ node => [node] | _ => [] end.
Proof.
  destruct t as [run [|i todo]|run i todo|run i todo|run i|run i|run i]; cbn [task_step]; try done.
  - destruct (_ && _); [done|]. by destruct (_ =? _)%Z.
  - by destruct acc.
  - cbn. apply completion_views.
  - by destruct (_ && _).
  - destruct (current g run); [|done]. destruct (complete i g) as [g' ready].
    destruct (completion_views g g') as [E1 E2]. destruct (is_ok _); cbn; by rewrite ?E1, ?E2.
Qed.

Definition within_run (c : Choice N) : bool := match c with Advance _ | Take | Shutdown => true | _ => false end.

Lemma choose_views k w c w' : graph_inv k w -> choose w c = Some w' -> within_run c = true ->
  began (log w') = began (log w) ++ begins w c /\ ended (log w') = ended (log w) ++ ends w c /\
  topology (graph w') = topology (graph w) /\ (state (graph w) <> IDLE -> state (graph w') <> IDLE).
Proof.
  intros I E Hc. destruct c as [j| | |x has_job|x y| |]; try done; cbn [choose begins ends] in *.
  - destruct (tasks w !! j) as [t|] eqn:Et; [|done]. cbn in E.
    pose proof (step_views (accepting w) (graph w) (queue w) t) as Hv.
    pose proof (step_frame (accepting w) (graph w) (queue w) t) as Hf.
    destruct (task_step _ _ _ t) as [[[g q] next] events]. injection E as <-. cbn [graph log].
    rewrite began_app, ended_app. destruct Hv as [-> ->].
    destruct Hf as (_ & Ht & _ & _ & _ & F6 & F7). split; [done|]. split; [done|]. split; [done|].
    intros Hs Hs'. apply Hs. pose proof (gi_tasks _ _ I) as Hts. rewrite Forall_forall in Hts.
    destruct (is_running (graph w)) eqn:Hr; [apply F6; auto|].
    assert (Hb : task_busy t = []).
    { destruct (Hts t (list_elem_of_lookup_2 _ _ _ Et)) as [_ [?|Hrun]]; [done|].
      destruct (gi_run _ _ I Hs) as [_ R]. destruct (over_idle _ _ _ _ R Hr) as [Hb _].
      eapply busy_none; [exact Hb|]. apply list_elem_of_filter. split; [done|]. by eapply list_elem_of_lookup_2. }
    apply F6; auto.
  - destruct (accepting w); [|done]. destruct (queue w) as [|[run i] q]; [done|]. injection E as <-. cbn. by rewrite !app_nil_r.
  - destruct (accepting w); [|done]. injection E as <-. cbn. by rewrite began_app, ended_app.
Qed.

(** ** Starting a run *)

Lemma start_views k w : graph_inv k w ->
  let status := fst (fst (start (accepting w) (graph w))) in
  exists w', choose w Start = Some w' /\ accepting w' = accepting w /\
    nodes (topology (graph w')) = nodes (topology (graph w)) /\
    (forall i j, edge (topology (graph w')) i j <-> edge (topology (graph w)) i j) /\
    if is_ok status then state (graph w') <> IDLE /\ began (log w') = [] /\ ended (log w') = []
    else state (graph w') = state (graph w) /\ log w' = log w.
Proof.
  intros I. cbn [choose]. destruct (start (accepting w) (graph w)) as [[status g] ready] eqn:E. cbn [fst]. unfold start in E.
  destruct (negb (bool_decide (state (graph w) = IDLE))).
  { injection E as <- <- <-. eexists. split; [done|]. by rewrite with_graph_same. }
  destruct (negb (accepting w)).
  { injection E as <- <- <-. eexists. split; [done|]. by rewrite with_graph_same. }
  unfold snapshot in E. destruct (validate_spec _ (gi_wf _ _ I)) as (? & ? & _ & Hn).
  destruct (validate_locked (topology (graph w))) as [validation t]. destruct Hn as (Hn & Hd & _).
  destruct (bool_decide_reflect (validation = OK)) as [->|Ev].
  2:{ assert (Ev' : is_ok validation = false) by (by apply bool_decide_false). rewrite Ev' in E. injection E as <- <- <-.
      rewrite Ev'. eexists. split; [done|]. cbn. split; [done|]. split; [done|]. split; [intros; by apply edge_same|]. done. }
  rewrite (proj2 (graph_is_ok_spec OK)) in E by done. injection E as <- <- <-.
  rewrite (proj2 (graph_is_ok_spec OK)) by done. eexists. split; [done|]. cbn.
  split; [done|]. split; [done|]. split; [intros; by apply edge_same|].
  split; [by destruct (bool_decide (imap _ _ = []))|]. by destruct (is_running _).
Qed.
End Jobs.
