(* ===== verification/JobQueue.v ===== *)
(** * The worker pool and its schedule (utils/multithreading/job_queue.cpp)

    A queue holds immediate jobs in order of arrival and timed jobs by deadline;
    a fixed set of workers takes them. The sections under [jobs_mutex_], the
    atomic accesses of a periodic job's state and the caller's job are the
    steps of a worker; time passes between them. A job is known by a number.
    A worker that finds nothing sleeps on [signal_], with or without a deadline,
    and looks again only when a notification, the deadline or a spurious wake-up
    ends its sleep. The notifications that follow a section are steps of their
    own: between the end of the section and the notification, others may move.
    Which sleeping worker [notify_one] wakes is a choice. *)
From S2P Require Import Prelude.

Inductive Status := OK | INVALID_ARGUMENT | INVALID_PERIOD | DELAY_OUT_OF_RANGE | QUEUE_STOPPED.

(** An addition of clock values can be undefined; a worker can have nothing
    to do. *)
Inductive Outcome (A : Type) :=
| Undefined
| Blocked
| Next (a : A).
Arguments Undefined {A}.
Arguments Blocked {A}.
Arguments Next {A} a.

Record JobEntry := {
  next_run : Z;
  period : Z;
  sequence : Z;
  job : nat;
  periodic_state : option nat;
}.

#[export] Instance JobEntry_eq_dec : EqDecision JobEntry.
Proof. solve_decision. Defined.

(** [JobEntry::operator>], reversed: what the priority queue serves first. *)
Definition before (a b : JobEntry) : bool :=
  if (next_run a =? next_run b)%Z then (sequence a <? sequence b)%Z else (next_run a <? next_run b)%Z.

(** [std::priority_queue::push]: the queue is kept in serving order. *)
Fixpoint push (e : JobEntry) (jobs : list JobEntry) : list JobEntry :=
  match jobs with
  | [] => [e]
  | x :: jobs => if before e x then e :: x :: jobs else x :: push e jobs
  end.

(** What happened, with the time at which it did. [TakenUrgent], [TakenTimed]:
    a worker removed the entry from its queue. *)
Inductive QueueEvent :=
| SubmittedUrgent (e : JobEntry)
| SubmittedTimed (e : JobEntry)
| TakenUrgent (e : JobEntry)
| TakenTimed (e : JobEntry)
| Began (e : JobEntry)
| Ended (e : JobEntry)
| Cancelled (state : nat)
| Discarded (urgent timed : list JobEntry).

(** A worker, by what it does next: it looks for work, it holds an entry it has
    taken, it is inside the job, it checks whether to repeat it, it puts it
    back, it notifies after having put it back, it has returned. [Waiting],
    [WaitingUntil]: it sleeps in [signal_.wait] or [signal_.wait_until]. *)
Inductive Worker :=
| Looking
| Waiting
| WaitingUntil (time : Z)
| Holding (e : JobEntry)
| Inside (e : JobEntry)
| Checking (e : JobEntry)
| Rescheduling (e : JobEntry)
| Notifying
| Returned.

(** A notification a caller has still to send, after its section. *)
Inductive Signal := NotifyOne | NotifyAll.

(** The queue, its workers, the notifications on their way, the atomic bits of periodic jobs by their number,
    the handles of the callers, the clock and the log. *)
Record JobQueue := {
  jobs : list JobEntry;
  urgent_jobs : list JobEntry;
  active : bool;
  next_sequence : Z;
  states : list bool;
  handles : gmap nat nat;
  workers : list Worker;
  signals : list Signal;
  now : Z;
  log : list (Z * QueueEvent);
}.

Section Queue.
(** Clock periods in a millisecond; the clock counts in 64-bit integers. *)
Variable ticks : Z.

Definition clock_range (z : Z) : bool := (- 2 ^ 63 <=? z)%Z && (z <? 2 ^ 63)%Z.

(** [Clock::now() + milliseconds{delay}]: the delay is converted to clock
    periods first. *)
Definition deadline (time delay : Z) : option Z :=
  if clock_range (delay * ticks) && clock_range (time + delay * ticks) then Some (time + delay * ticks)%Z else None.

(** [std::numeric_limits<std::chrono::milliseconds::rep>::max()] *)
Definition milliseconds_max : Z := 2 ^ 63 - 1.

Definition new_queue (worker_count : Z) (time : Z) : JobQueue :=
  {| jobs := []; urgent_jobs := []; active := true; next_sequence := 0; states := []; handles := ∅;
     workers := replicate (Z.to_nat (if (worker_count =? 0)%Z then 1%Z else worker_count)) Looking;
     signals := []; now := time; log := [] |}.

Definition record_event (e : QueueEvent) (q : JobQueue) : JobQueue :=
  {| jobs := jobs q; urgent_jobs := urgent_jobs q; active := active q; next_sequence := next_sequence q;
     states := states q; handles := handles q; workers := workers q; signals := signals q; now := now q; log := log q ++ [(now q, e)] |}.

Definition with_states (q : JobQueue) (s : list bool) (h : gmap nat nat) : JobQueue :=
  {| jobs := jobs q; urgent_jobs := urgent_jobs q; active := active q; next_sequence := next_sequence q;
     states := s; handles := h; workers := workers q; signals := signals q; now := now q; log := log q |}.

Definition with_workers (q : JobQueue) (w : list Worker) : JobQueue :=
  {| jobs := jobs q; urgent_jobs := urgent_jobs q; active := active q; next_sequence := next_sequence q;
     states := states q; handles := handles q; workers := w; signals := signals q; now := now q; log := log q |}.

Definition with_jobs (q : JobQueue) (urgent timed : list JobEntry) (next : Z) : JobQueue :=
  {| jobs := timed; urgent_jobs := urgent; active := active q; next_sequence := next;
     states := states q; handles := handles q; workers := workers q; signals := signals q; now := now q; log := log q |}.

(** The caller left its section and will notify. *)
Definition signal (s : Signal) (q : JobQueue) : JobQueue :=
  {| jobs := jobs q; urgent_jobs := urgent_jobs q; active := active q; next_sequence := next_sequence q;
     states := states q; handles := handles q; workers := workers q; signals := signals q ++ [s]; now := now q;
     log := log q |}.

(** ** Submission *)

(** [jobs_.push(entry)] with a fresh sequence number. *)
Definition push_timed (time per : Z) (j : nat) (state : option nat) (q : JobQueue) : JobQueue :=
  let e := {| next_run := time; period := per; sequence := next_sequence q; job := j; periodic_state := state |} in
  record_event (SubmittedTimed e) (with_jobs q (urgent_jobs q) (push e (jobs q)) (wrap 64 (next_sequence q + 1))).

(** A null job is [None]. *)
Definition add_delayed_job (delay_ms : Z) (j : option nat) (q : JobQueue) : Outcome (Status * JobQueue) :=
  match j with
  | None => Next (INVALID_ARGUMENT, q)
  | Some j =>
      if (milliseconds_max <? delay_ms)%Z then Next (DELAY_OUT_OF_RANGE, q)
      else if negb (active q) then Next (QUEUE_STOPPED, q)
      else
        match deadline (now q) delay_ms with
        | None => Undefined
        | Some time => Next (OK, signal NotifyOne (push_timed time 0 j None q))
        end
  end.

(** *** Periodic jobs and their handles *)

Definition is_active (q : JobQueue) (state : nat) : bool := default false (states q !! state).

Definition deactivate (q : JobQueue) (state : nat) : JobQueue :=
  with_states q (<[state := false]> (states q)) (handles q).

(** [PeriodicJobHandle::cancel] *)
Definition cancel (h : nat) (q : JobQueue) : JobQueue :=
  match handles q !! h with
  | None => q
  | Some state =>
      record_event (Cancelled state) (with_states q (<[state := false]> (states q)) (delete h (handles q)))
  end.

(** [PeriodicJobHandle::active] *)
Definition handle_active (h : nat) (q : JobQueue) : bool :=
  match handles q !! h with None => false | Some state => is_active q state end.

(** [handle = PeriodicJobHandle{state}] *)
Definition adopt (h state : nat) (q : JobQueue) : JobQueue :=
  let q := cancel h q in with_states q (states q) (<[h := state]> (handles q)).

(** Move assignment between two handles, which may be the same. *)
Definition move_handle (target source : nat) (q : JobQueue) : JobQueue :=
  if (target =? source)%nat then q
  else
    let q := cancel target q in
    match handles q !! source with
    | None => q
    | Some state => with_states q (states q) (<[target := state]> (delete source (handles q)))
    end.

Definition add_periodic_job (period_ms : Z) (j : option nat) (h : nat) (q : JobQueue) : Outcome (Status * JobQueue) :=
  match j with
  | None => Next (INVALID_ARGUMENT, q)
  | Some j =>
      if (period_ms =? 0)%Z then Next (INVALID_PERIOD, q)
      else if (milliseconds_max <? period_ms)%Z then Next (DELAY_OUT_OF_RANGE, q)
      else if negb (active q) then Next (QUEUE_STOPPED, q)
      else
        match deadline (now q) period_ms with
        | None => Undefined
        | Some time =>
            let state := length (states q) in
            let q := with_states q (states q ++ [true]) (handles q) in
            Next (OK, signal NotifyOne (adopt h state (push_timed time period_ms j (Some state) q)))
        end
  end.

Definition add_urgent_job (j : option nat) (q : JobQueue) : Status * JobQueue :=
  match j with
  | None => (INVALID_ARGUMENT, q)
  | Some j =>
      if negb (active q) then (QUEUE_STOPPED, q)
      else
        let e := {| next_run := now q; period := 0; sequence := next_sequence q; job := j; periodic_state := None |} in
        (OK, signal NotifyOne (record_event (SubmittedUrgent e)
               (with_jobs q (urgent_jobs q ++ [e]) (jobs q) (wrap 64 (next_sequence q + 1)))))
  end.

(** ** Teardown *)

Definition deactivate_entry (q : JobQueue) (e : JobEntry) : JobQueue :=
  match periodic_state e with Some state => deactivate q state | None => q end.

Definition shutdown (q : JobQueue) : JobQueue :=
  if negb (active q) then q
  else
    let q' := fold_left deactivate_entry (jobs q) q in
    record_event (Discarded (urgent_jobs q) (jobs q))
      {| jobs := []; urgent_jobs := []; active := false; next_sequence := next_sequence q'; states := states q';
         handles := handles q'; workers := workers q'; signals := signals q' ++ [NotifyAll]; now := now q'; log := log q' |}.

Definition pending_jobs (q : JobQueue) : nat := length (urgent_jobs q) + length (jobs q).
Definition worker_count (q : JobQueue) : nat := length (workers q).

(** The second half of [wait]: every thread can be joined. *)
Definition joinable (q : JobQueue) : bool := forallb (fun w => match w with Returned => true | _ => false end) (workers q).

(** ** Workers *)

Definition entry_active (q : JobQueue) (e : JobEntry) : bool :=
  match periodic_state e with None => true | Some state => is_active q state end.

(** A worker asleep on the condition variable. *)
Definition asleep (w : Worker) : bool := match w with Waiting | WaitingUntil _ => true | _ => false end.

Definition wake (w : Worker) : Worker := if asleep w then Looking else w.

(** [signal_.notify_one()]: the worker [target] wakes if it sleeps, otherwise
    the first one that does, if any. *)
Definition notify_one (target : nat) (ws : list Worker) : list Worker :=
  if default false (asleep <$> ws !! target) then alter wake target ws
  else match list_find (fun w => asleep w = true) ws with Some (i, _) => alter wake i ws | None => ws end.

(** [signal_.notify_all()] *)
Definition notify_all (ws : list Worker) : list Worker := map wake ws.

(** The thread [k] does its next step; where it notifies, [target] is chosen. *)
Definition worker (k target : nat) (q : JobQueue) : Outcome JobQueue :=
  match workers q !! k with
  | None => Blocked
  | Some w =>
      let set := fun w q => with_workers q (<[k := w]> (workers q)) in
      let taken := fun e => with_workers q (notify_one target (<[k := Holding e]> (workers q))) in
      match w with
      | Looking =>
          if active q then
            match urgent_jobs q with
            | e :: urgent => Next (record_event (TakenUrgent e) (with_jobs (taken e) urgent (jobs q) (next_sequence q)))
            | [] =>
                match jobs q with
                | [] => Next (set Waiting q)
                | e :: timed =>
                    if (now q <? next_run e)%Z then Next (set (WaitingUntil (next_run e)) q)
                    else Next (record_event (TakenTimed e) (with_jobs (taken e) (urgent_jobs q) timed (next_sequence q)))
                end
            end
          else Next (set Returned q)
      | Waiting => Blocked
      | WaitingUntil time => if (now q <? time)%Z then Blocked else Next (set Looking q)
      | Holding e =>
          if entry_active q e then Next (record_event (Began e) (set (Inside e) q)) else Next (set (Checking e) q)
      | Inside e => Next (record_event (Ended e) (set (Checking e) q))
      | Checking e =>
          match periodic_state e with
          | None => Next (set Looking q)
          | Some state => if is_active q state then Next (set (Rescheduling e) q) else Next (set Looking q)
          end
      | Rescheduling e =>
          if negb (active q) then Next (set Looking (deactivate_entry q e))
          else
            match deadline (now q) (period e) with
            | None => Undefined
            | Some time => Next (set Notifying (push_timed time (period e) (job e) (periodic_state e) q))
            end
      | Notifying => Next (with_workers q (notify_one target (<[k := Looking]> (workers q))))
      | Returned => Blocked
      end
  end.

(** The caller that owes the [i]-th notification sends it. *)
Definition deliver (i target : nat) (q : JobQueue) : Outcome JobQueue :=
  match signals q !! i with
  | None => Blocked
  | Some s =>
      Next {| jobs := jobs q; urgent_jobs := urgent_jobs q; active := active q; next_sequence := next_sequence q;
              states := states q; handles := handles q;
              workers := match s with NotifyOne => notify_one target (workers q) | NotifyAll => notify_all (workers q) end;
              signals := delete i (signals q); now := now q; log := log q |}
  end.

(** A wait ends without reason. *)
Definition spurious (k : nat) (q : JobQueue) : Outcome JobQueue :=
  if default false (asleep <$> workers q !! k) then Next (with_workers q (alter wake k (workers q))) else Blocked.

(** ** Histories *)

Inductive Choice :=
| Elapse (duration : Z)
| AddDelayed (delay_ms : Z) (j : option nat)
| AddPeriodic (period_ms : Z) (j : option nat) (handle : nat)
| AddUrgent (j : option nat)
| CancelHandle (handle : nat)
| MoveHandle (target source : nat)
| Shutdown
| Work (thread target : nat)
| Deliver (i target : nat)
| Spurious (thread : nat).

Definition forget {A} (o : Outcome (A * JobQueue)) : Outcome JobQueue :=
  match o with Undefined => Undefined | Blocked => Blocked | Next (_, q) => Next q end.

Definition choose (q : JobQueue) (c : Choice) : Outcome JobQueue :=
  match c with
  | Elapse duration =>
      if (duration <? 0)%Z then Blocked
      else Next {| jobs := jobs q; urgent_jobs := urgent_jobs q; active := active q; next_sequence := next_sequence q;
                   states := states q; handles := handles q; workers := workers q; signals := signals q; now := (now q + duration)%Z;
                   log := log q |}
  | AddDelayed delay_ms j => forget (add_delayed_job delay_ms j q)
  | AddPeriodic period_ms j h => forget (add_periodic_job period_ms j h q)
  | AddUrgent j => Next (snd (add_urgent_job j q))
  | CancelHandle h => Next (cancel h q)
  | MoveHandle target source => Next (move_handle target source q)
  | Shutdown => Next (shutdown q)
  | Work k target => worker k target q
  | Deliver i target => deliver i target q
  | Spurious k => spurious k q
  end.

Fixpoint play (q : JobQueue) (choices : list Choice) : Outcome JobQueue :=
  match choices with
  | [] => Next q
  | c :: choices =>
      match choose q c with
      | Next q => play q choices
      | Undefined => Undefined
      | Blocked => Blocked
      end
  end.
End Queue.
