(* ===== verification/QueueRuns.v ===== *)
(** * Histories of the worker pool

    The invariant of the queue under every interleaving of callers and workers:
    where every submitted entry is, in which order entries are taken, and when
    a periodic job may begin. *)
From S2P Require Import Prelude.
From S2P Require Import JobQueue.
From Stdlib Require Import Sorted.

(** ** Reading the log *)

Definition urgent_submitted (l : list (Z * QueueEvent)) : list JobEntry :=
  omap (fun x => match x.2 with SubmittedUrgent e => Some e | _ => None end) l.
Definition timed_submitted (l : list (Z * QueueEvent)) : list JobEntry :=
  omap (fun x => match x.2 with SubmittedTimed e => Some e | _ => None end) l.
Definition urgent_taken (l : list (Z * QueueEvent)) : list JobEntry :=
  omap (fun x => match x.2 with TakenUrgent e => Some e | _ => None end) l.
Definition timed_taken (l : list (Z * QueueEvent)) : list JobEntry :=
  omap (fun x => match x.2 with TakenTimed e => Some e | _ => None end) l.
Definition urgent_discarded (l : list (Z * QueueEvent)) : list JobEntry :=
  flat_map (fun x => match x.2 with Discarded u _ => u | _ => [] end) l.
Definition timed_discarded (l : list (Z * QueueEvent)) : list JobEntry :=
  flat_map (fun x => match x.2 with Discarded _ d => d | _ => [] end) l.
Definition began (l : list (Z * QueueEvent)) : list JobEntry :=
  omap (fun x => match x.2 with Began e => Some e | _ => None end) l.
Definition ended (l : list (Z * QueueEvent)) : list JobEntry :=
  omap (fun x => match x.2 with Ended e => Some e | _ => None end) l.
Definition cancelled (l : list (Z * QueueEvent)) : list nat :=
  omap (fun x => match x.2 with Cancelled p => Some p | _ => None end) l.
(** The times at which periodic state [p] was submitted or ended a run. *)
Definition marks (p : nat) (l : list (Z * QueueEvent)) : list Z :=
  omap (fun x => match x.2 with
                 | SubmittedTimed e | Ended e => if decide (periodic_state e = Some p) then Some x.1 else None
                 | _ => None
                 end) l.
Definition closed (l : list (Z * QueueEvent)) : bool :=
  existsb (fun x => match x.2 with Discarded _ _ => true | _ => false end) l.

Section Logs.
Implicit Types l k : list (Z * QueueEvent).
Lemma urgent_submitted_app l k : urgent_submitted (l ++ k) = urgent_submitted l ++ urgent_submitted k.
Proof. apply omap_app. Qed.
Lemma timed_submitted_app l k : timed_submitted (l ++ k) = timed_submitted l ++ timed_submitted k.
Proof. apply omap_app. Qed.
Lemma urgent_taken_app l k : urgent_taken (l ++ k) = urgent_taken l ++ urgent_taken k.
Proof. apply omap_app. Qed.
Lemma timed_taken_app l k : timed_taken (l ++ k) = timed_taken l ++ timed_taken k.
Proof. apply omap_app. Qed.
Lemma urgent_discarded_app l k : urgent_discarded (l ++ k) = urgent_discarded l ++ urgent_discarded k.
Proof. apply flat_map_app. Qed.
Lemma timed_discarded_app l k : timed_discarded (l ++ k) = timed_discarded l ++ timed_discarded k.
Proof. apply flat_map_app. Qed.
Lemma queue_began_app l k : began (l ++ k) = began l ++ began k.
Proof. apply omap_app. Qed.
Lemma queue_ended_app l k : ended (l ++ k) = ended l ++ ended k.
Proof. apply omap_app. Qed.
Lemma cancelled_app l k : cancelled (l ++ k) = cancelled l ++ cancelled k.
Proof. apply omap_app. Qed.
Lemma marks_app p l k : marks p (l ++ k) = marks p l ++ marks p k.
Proof. apply omap_app. Qed.
Lemma closed_app l k : closed (l ++ k) = closed l || closed k.
Proof. apply existsb_app. Qed.
End Logs.

Create HintDb queuelog.
#[export] Hint Rewrite urgent_submitted_app timed_submitted_app urgent_taken_app timed_taken_app urgent_discarded_app
  timed_discarded_app queue_began_app queue_ended_app cancelled_app marks_app closed_app : queuelog.

(** Read the last event of a log. *)
Ltac read_log := autorewrite with queuelog in *;
  cbn [urgent_submitted timed_submitted urgent_taken timed_taken urgent_discarded timed_discarded began ended cancelled
    marks closed existsb omap list_omap flat_map app option_bind mbind fst snd] in *.

(** A law of every event given what came before it. *)
Definition at_events (P : list (Z * QueueEvent) -> Z * QueueEvent -> Prop) (l : list (Z * QueueEvent)) : Prop :=
  forall l1 x l2, l = l1 ++ x :: l2 -> P l1 x.

Lemma at_events_nil P : at_events P [].
Proof. intros l1 x l2 E. by destruct l1. Qed.

Lemma at_events_snoc P l x : at_events P l -> P l x -> at_events P (l ++ [x]).
Proof.
  intros Hl Hx l1 y l2 E. destruct (list_snoc_inv l2) as [->|(l2' & z & ->)].
  - by apply app_inj_tail in E as [<- <-].
  - rewrite app_comm_cons, app_assoc in E. apply app_inj_tail in E as [E _]. by eapply Hl.
Qed.

(** ** Serving order *)

Definition served_before (a b : JobEntry) : Prop := before a b = true.

Lemma served_before_trans a b c : served_before a b -> served_before b c -> served_before a c.
Proof.
  unfold served_before, before. destruct (next_run a =? next_run b)%Z eqn:E1, (next_run b =? next_run c)%Z eqn:E2,
    (next_run a =? next_run c)%Z eqn:E3; rewrite ?Z.eqb_eq, ?Z.eqb_neq, ?Z.ltb_lt in *; lia.
Qed.

Lemma served_before_total a b : sequence a <> sequence b -> before a b = false -> served_before b a.
Proof.
  unfold served_before, before. rewrite (Z.eqb_sym (next_run b)). destruct (next_run a =? next_run b)%Z eqn:E1;
    rewrite ?Z.eqb_eq, ?Z.eqb_neq, ?Z.ltb_lt, ?Z.ltb_ge in *; lia.
Qed.

Lemma push_perm e l : push e l ≡ₚ e :: l.
Proof.
  induction l as [|x l IH]; cbn; [done|]. destruct (before e x); [done|]. rewrite IH. constructor.
Qed.

Lemma push_sorted e l : Forall (fun x => sequence x <> sequence e) l -> StronglySorted served_before l ->
  StronglySorted served_before (push e l).
Proof.
  intros Hd. induction l as [|x l IH]; intros Hs; cbn; [by repeat constructor|].
  apply Forall_cons in Hd as [Hx Hd]. inversion Hs as [|? ? Hs' Hf]; subst. destruct (before e x) eqn:E.
  - constructor; [done|]. constructor; [done|]. eapply Forall_impl; [exact Hf|]. intros y. by apply served_before_trans.
  - constructor; [by apply IH|]. rewrite push_perm. constructor; [|done].
    by apply served_before_total.
Qed.

Lemma sorted_snoc {A} (R : A -> A -> Prop) l x : StronglySorted R l -> Forall (fun y => R y x) l -> StronglySorted R (l ++ [x]).
Proof.
  induction 1 as [|y l Hs IH Hf]; intros Hx; cbn; [by repeat constructor|]. apply Forall_cons in Hx as [Hy Hx].
  constructor; [by apply IH|]. apply Forall_app. split; [done|]. by apply Forall_singleton.
Qed.

Lemma sorted_suffix {A} (R : A -> A -> Prop) l k : StronglySorted R (l ++ k) -> StronglySorted R k.
Proof. induction l as [|x l IH]; [done|]. intros Hs. inversion Hs; subst. by apply IH. Qed.

(** ** The invariant *)

Section Runs.
Variable ticks : Z.
Implicit Types q : JobQueue.

(** The entry a worker has taken, and the one whose job it is inside. *)
Definition held (w : Worker) : list JobEntry :=
  match w with Holding e | Inside e | Checking e | Rescheduling e => [e] | _ => [] end.
Definition holding (w : Worker) : list JobEntry := match w with Holding e => [e] | _ => [] end.
Definition inside (w : Worker) : list JobEntry := match w with Inside e => [e] | _ => [] end.

Definition timed_states (es : list JobEntry) : list nat := omap periodic_state es.

(** What may happen after the log [l]. A timed entry is taken when it is due,
    no immediate one waits, and no waiting entry is served before it. A periodic
    job begins if it was not cancelled, all its earlier invocations ended, and
    a period has passed since its submission and the last of them. *)
Definition lawful (l : list (Z * QueueEvent)) (x : Z * QueueEvent) : Prop :=
  match x.2 with
  | TakenUrgent e => closed l = false
  | TakenTimed e =>
      closed l = false /\ (next_run e <= x.1)%Z /\ urgent_submitted l = urgent_taken l /\
      forall e', e' ∈ timed_submitted l -> e' ∈ timed_taken l \/ e' = e \/ served_before e e'
  | SubmittedUrgent e => closed l = false
  | SubmittedTimed e => closed l = false
  | Began e =>
      forall p, periodic_state e = Some p ->
        p ∉ cancelled l /\
        count_occ Nat.eq_dec (timed_states (began l)) p = count_occ Nat.eq_dec (timed_states (ended l)) p /\
        forall t, t ∈ marks p l -> (t + period e * ticks <= x.1)%Z
  | _ => True
  end.

(** [k] bounds the number of submissions so far. *)
Record queue_inv (k : Z) (q : JobQueue) : Prop := {
  qi_sequence : (0 <= next_sequence q <= k)%Z;
  qi_sequences : Forall (fun e => (sequence e < next_sequence q)%Z) (urgent_submitted (log q) ++ timed_submitted (log q));
  qi_distinct : NoDup (map sequence (urgent_submitted (log q) ++ timed_submitted (log q)));
  qi_increasing : StronglySorted Z.lt (map sequence (timed_submitted (log q)));
  qi_urgent : urgent_submitted (log q) = urgent_taken (log q) ++ urgent_jobs q ++ urgent_discarded (log q);
  qi_timed : timed_submitted (log q) ≡ₚ timed_taken (log q) ++ jobs q ++ timed_discarded (log q);
  qi_sorted : StronglySorted served_before (jobs q);
  qi_open : active q = true -> urgent_discarded (log q) = [] /\ timed_discarded (log q) = [];
  qi_closed : active q = negb (closed (log q));
  qi_empty : active q = false -> jobs q = [] /\ urgent_jobs q = [];
  qi_oneshot : Forall (fun e => periodic_state e = None) (urgent_submitted (log q));
  qi_began : began (log q) ++ flat_map holding (workers q) ⊆+ urgent_taken (log q) ++ timed_taken (log q);
  qi_states : NoDup (timed_states (jobs q ++ flat_map held (workers q)));
  qi_fresh : Forall (fun p => (p < length (states q))%nat)
    (timed_states (jobs q ++ flat_map held (workers q)) ++ cancelled (log q) ++ map snd (map_to_list (handles q)));
  qi_marks : forall p, (length (states q) <= p)%nat -> marks p (log q) = [];
  qi_running : began (log q) ≡ₚ ended (log q) ++ flat_map inside (workers q);
  qi_past : forall p t, t ∈ marks p (log q) -> (t <= now q)%Z;
  qi_due : forall e p t, e ∈ jobs q -> periodic_state e = Some p -> t ∈ marks p (log q) ->
    (t + period e * ticks <= next_run e)%Z;
  qi_held : forall e p t, e ∈ flat_map holding (workers q) -> periodic_state e = Some p -> t ∈ marks p (log q) ->
    (t + period e * ticks <= now q)%Z;
  qi_cancelled : forall p, p ∈ cancelled (log q) -> is_active q p = false;
  qi_lawful : at_events lawful (log q);
}.

(** ** Replacing one worker *)

Lemma flat_map_worker {B} (f : Worker -> list B) ws i w : ws !! i = Some w ->
  flat_map f ws ≡ₚ f w ++ flat_map f (delete i ws).
Proof.
  intros E. rewrite <- (take_drop_middle _ _ _ E) at 1. rewrite delete_take_drop, !flat_map_app. cbn. solve_Permutation.
Qed.

Lemma flat_map_set {B} (f : Worker -> list B) ws i w w' : ws !! i = Some w ->
  flat_map f (<[i := w']> ws) ≡ₚ f w' ++ flat_map f (delete i ws).
Proof.
  intros E. assert (Hi : (i < length ws)%nat) by (by eapply lookup_lt_Some).
  rewrite insert_take_drop, delete_take_drop, !flat_map_app by done. cbn. solve_Permutation.
Qed.

Lemma timed_states_app a b : timed_states (a ++ b) = timed_states a ++ timed_states b.
Proof. apply omap_app. Qed.

#[export] Instance timed_states_perm : Proper ((≡ₚ) ==> (≡ₚ)) timed_states.
Proof. unfold timed_states. solve_proper. Qed.

Lemma timed_states_sub a b : a ⊆+ b -> timed_states a ⊆+ timed_states b.
Proof. intros [r E]%submseteq_Permutation. rewrite E, timed_states_app. by apply submseteq_inserts_r. Qed.

Lemma nodup_sub {A} (a b : list A) : a ⊆+ b -> NoDup b -> NoDup a.
Proof. intros [r E]%submseteq_Permutation. rewrite E. by intros [? _]%NoDup_app. Qed.

Lemma forall_sub {A} (P : A -> Prop) a b : a ⊆+ b -> Forall P b -> Forall P a.
Proof. intros [r E]%submseteq_Permutation. rewrite E. by intros [? _]%Forall_app. Qed.

Lemma holding_held ws e : e ∈ flat_map holding ws -> e ∈ flat_map held ws.
Proof.
  induction ws as [|w ws IH]; cbn; [done|]. rewrite !elem_of_app. intros [Hw|Hw]; [left|right; by apply IH].
  destruct w; cbn in *; set_solver.
Qed.

Lemma inside_held ws e : e ∈ flat_map inside ws -> e ∈ flat_map held ws.
Proof.
  induction ws as [|w ws IH]; cbn; [done|]. rewrite !elem_of_app. intros [Hw|Hw]; [left|right; by apply IH].
  destruct w; cbn in *; set_solver.
Qed.

Lemma elem_timed_states es p : p ∈ timed_states es <-> exists e, e ∈ es /\ periodic_state e = Some p.
Proof. unfold timed_states. by rewrite list_elem_of_omap. Qed.

Lemma initial_inv n time : queue_inv 0 (new_queue n time).
Proof.
  assert (Hf : forall (B : Type) (f : Worker -> list B), f Looking = [] -> forall m, flat_map f (replicate m Looking) = []).
  { intros B f Hf m. induction m as [|m IH]; cbn; [done|]. by rewrite Hf. }
  split; cbn [new_queue jobs urgent_jobs active next_sequence states handles workers now log]; rewrite ?Hf by done; try done;
    try apply at_events_nil; try (by constructor); intros; set_solver.
Qed.

Ltac queue_simpl := cbn [jobs urgent_jobs active next_sequence states handles workers signals now log
  record_event with_states with_workers with_jobs signal] in *.

(** *** Time passes *)
Lemma elapse_inv k q d : (0 <= d)%Z -> queue_inv k q ->
  queue_inv k {| jobs := jobs q; urgent_jobs := urgent_jobs q; active := active q; next_sequence := next_sequence q;
                 states := states q; handles := handles q; workers := workers q; signals := signals q; now := (now q + d)%Z; log := log q |}.
Proof.
  intros Hd []. split; queue_simpl; try done.
  - intros p t Ht. specialize (qi_past0 p t Ht). lia.
  - intros e p t He Hp Ht. specialize (qi_held0 e p t He Hp Ht). lia.
Qed.

Lemma queue_inv_mono k k' q : (k <= k')%Z -> queue_inv k q -> queue_inv k' q.
Proof. intros Hk []. split; try done. lia. Qed.

(** *** Notifications *)

(** What a sleeping worker has: nothing, as one that looks. *)
Definition idle {B} (f : Worker -> list B) : Prop := f Looking = [] /\ f Waiting = [] /\ forall t, f (WaitingUntil t) = [].

Lemma wake_idle {B} (f : Worker -> list B) w : idle f -> f (wake w) = f w.
Proof. intros (H1 & H2 & H3). destruct w; cbn; try done; by rewrite H1, ?H2, ?H3. Qed.

Lemma flat_map_wake {B} (f : Worker -> list B) i ws : idle f -> flat_map f (alter wake i ws) = flat_map f ws.
Proof.
  intros Hf. revert i. induction ws as [|w ws IH]; intros [|i]; try done.
  - change (f (wake w) ++ flat_map f ws = f w ++ flat_map f ws). by rewrite wake_idle.
  - change (f w ++ flat_map f (alter wake i ws) = f w ++ flat_map f ws). by rewrite IH.
Qed.

Lemma notify_one_alter target ws : notify_one target ws = ws \/ exists i, notify_one target ws = alter wake i ws.
Proof.
  unfold notify_one. destruct (default false _); [by right; exists target|].
  destruct (list_find _ ws) as [[i w]|]; [by right; exists i|by left].
Qed.

Lemma flat_map_notify_one {B} (f : Worker -> list B) target ws : idle f -> flat_map f (notify_one target ws) = flat_map f ws.
Proof. intros Hf. destruct (notify_one_alter target ws) as [->|[i ->]]; [done|]. by apply flat_map_wake. Qed.

Lemma flat_map_notify_all {B} (f : Worker -> list B) ws : idle f -> flat_map f (notify_all ws) = flat_map f ws.
Proof. intros Hf. induction ws as [|w ws IH]; cbn; [done|]. fold (notify_all ws). by rewrite IH, wake_idle. Qed.

Lemma held_idle : idle held. Proof. done. Qed.
Lemma holding_idle : idle holding. Proof. done. Qed.
Lemma inside_idle : idle inside. Proof. done. Qed.

(** Workers that wake, and notifications on their way. *)
Definition settle (ws : list Worker) (sg : list Signal) (q : JobQueue) : JobQueue :=
  {| jobs := jobs q; urgent_jobs := urgent_jobs q; active := active q; next_sequence := next_sequence q;
     states := states q; handles := handles q; workers := ws; signals := sg; now := now q; log := log q |}.

Lemma settled_inv k ws sg q : (forall f : Worker -> list JobEntry, idle f -> flat_map f ws = flat_map f (workers q)) ->
  queue_inv k q -> queue_inv k (settle ws sg q).
Proof.
  intros Hf []. pose proof (Hf _ held_idle) as E1. pose proof (Hf _ holding_idle) as E2. pose proof (Hf _ inside_idle) as E3.
  split; cbn [settle jobs urgent_jobs active next_sequence states handles workers signals now log]; rewrite ?E1, ?E2, ?E3; done.
Qed.

Lemma signal_inv k s q : queue_inv k q -> queue_inv k (signal s q).
Proof. by apply (settled_inv k (workers q)). Qed.

Lemma deliver_inv k i target q q' : deliver i target q = Next q' -> queue_inv k q -> queue_inv k q'.
Proof.
  unfold deliver. destruct (signals q !! i) as [s|]; [|done]. intros [= <-] I.
  apply (settled_inv k _ (delete i (signals q)) q); [|done].
  intros f Hf. destruct s; [by apply flat_map_notify_one|by apply flat_map_notify_all].
Qed.

Lemma spurious_inv k i q q' : spurious i q = Next q' -> queue_inv k q -> queue_inv k q'.
Proof.
  unfold spurious. destruct (default false _); [|done]. intros [= <-] I.
  apply (settled_inv k _ (signals q) q); [|done]. intros f. apply flat_map_wake.
Qed.

(** *** A worker moves on without an event *)
Lemma set_worker_inv k q i w w' : workers q !! i = Some w -> held w' ⊆+ held w -> holding w' = [] -> inside w' = inside w ->
  queue_inv k q -> queue_inv k (with_workers q (<[i := w']> (workers q))).
Proof.
  intros Ei Hh Hw Hin []. 
  assert (Hsub : flat_map held (<[i := w']> (workers q)) ⊆+ flat_map held (workers q)).
  { rewrite (flat_map_set held _ _ _ w' Ei), (flat_map_worker held _ _ _ Ei). by apply submseteq_app. }
  assert (Hjs : timed_states (jobs q ++ flat_map held (<[i := w']> (workers q))) ⊆+
                timed_states (jobs q ++ flat_map held (workers q))).
  { rewrite !timed_states_app. apply submseteq_skips_l. by apply timed_states_sub. }
  assert (Hhold : flat_map holding (<[i := w']> (workers q)) ⊆+ flat_map holding (workers q)).
  { rewrite (flat_map_set holding _ _ _ w' Ei), (flat_map_worker holding _ _ _ Ei), Hw. by apply submseteq_inserts_l. }
  split; queue_simpl; try done.
  - etransitivity; [|exact qi_began0]. by apply submseteq_skips_l.
  - by eapply nodup_sub.
  - apply Forall_app in qi_fresh0 as [F1 F2]. apply Forall_app. split; [|done].
    by eapply forall_sub.
  - rewrite qi_running0, (flat_map_set inside _ _ _ w' Ei), (flat_map_worker inside _ _ _ Ei), Hin. done.
  - intros e p t He. apply qi_held0. by eapply elem_of_submseteq.
Qed.

(** *** Submissions *)

Definition fresh_state q (time per : Z) (state : option nat) : Prop :=
  forall p, state = Some p -> (p < length (states q))%nat /\
    p ∉ timed_states (jobs q ++ flat_map held (workers q)) /\
    (forall t, t ∈ marks p (log q) -> (t + per * ticks <= time)%Z) /\ (now q + per * ticks <= time)%Z.

Lemma fresh_sequence k q e : sequence e = next_sequence q -> queue_inv k q ->
  Forall (fun x => sequence x <> sequence e) (urgent_submitted (log q) ++ timed_submitted (log q)).
Proof. intros E I. eapply Forall_impl; [exact (qi_sequences _ _ I)|]. cbn. lia. Qed.

Lemma waiting_submitted k q : queue_inv k q -> jobs q ⊆+ timed_submitted (log q).
Proof. intros I. rewrite (qi_timed _ _ I). apply submseteq_inserts_l, submseteq_inserts_r. done. Qed.

Lemma sequence_fresh k q e : sequence e = next_sequence q -> queue_inv k q ->
  sequence e ∉ map sequence (urgent_submitted (log q) ++ timed_submitted (log q)).
Proof.
  intros E I Hin. apply list_elem_of_fmap in Hin as (x & Hx & Hin). pose proof (fresh_sequence k q e E I) as Hf.
  rewrite Forall_forall in Hf. by apply (Hf x Hin).
Qed.

Lemma push_timed_inv k q time per j state : (k + 1 < 2 ^ 64)%Z -> active q = true -> fresh_state q time per state ->
  queue_inv k q -> queue_inv (k + 1) (push_timed time per j state q).
Proof.
  intros Hk Ha Hst I. unfold push_timed. set (e := {| next_run := time |}).
  pose proof (sequence_fresh k q e eq_refl I) as Hnew. pose proof (fresh_sequence k q e eq_refl I) as Hne.
  assert (Hsort : StronglySorted served_before (push e (jobs q))).
  { apply push_sorted; [|apply I]. eapply forall_sub; [eapply waiting_submitted; exact I|].
    by apply Forall_app in Hne as [_ ?]. }
  pose proof I as [[S1 S2]]. assert (Hw : wrap 64 (next_sequence q + 1) = (next_sequence q + 1)%Z)
    by (unfold wrap; apply Z.mod_small; lia).
  destruct (qi_open0 Ha) as [Hu Hd]. pose proof (push_perm e (jobs q)) as Hp.
  assert (Hps : timed_states (push e (jobs q) ++ flat_map held (workers q)) ≡ₚ
    timed_states [e] ++ timed_states (jobs q ++ flat_map held (workers q))).
  { rewrite Hp. rewrite <- timed_states_app. done. }
  assert (Hm : forall p, marks p [(now q, SubmittedTimed e)] = if decide (state = Some p) then [now q] else []).
  { intros p. cbn. by destruct (decide (state = Some p)). }
  split; queue_simpl; rewrite ?Hw; autorewrite with queuelog; cbn [urgent_submitted timed_submitted urgent_taken timed_taken
    urgent_discarded timed_discarded began ended cancelled closed existsb omap list_omap flat_map app option_bind mbind fst snd];
    rewrite ?app_nil_r; try done.
  - lia.
  - apply Forall_app in qi_sequences0 as [F1 F2]. rewrite !Forall_app. split_and!; [..|by repeat constructor; cbn; lia].
    + eapply Forall_impl; [exact F1|]. cbn. lia.
    + eapply Forall_impl; [exact F2|]. cbn. lia.
  - rewrite app_assoc, map_app. apply NoDup_app. split_and!; [done| |by apply NoDup_singleton].
    intros x Hx Hx2. apply list_elem_of_singleton in Hx2. subst x. done.
  - rewrite map_app. apply sorted_snoc; [done|]. apply Forall_app in qi_sequences0 as [_ F2].
    apply Forall_forall. intros x (y & -> & Hy)%list_elem_of_fmap. rewrite Forall_forall in F2. by apply F2.
  - rewrite Hp, qi_timed0, Hd. solve_Permutation.
  - by rewrite orb_false_r.
  - rewrite Ha. done.
  - rewrite Hps. apply NoDup_app. split_and!; [|intros p Hp1|done].
    + unfold timed_states. cbn. destruct state; cbn; [apply NoDup_singleton|constructor].
    + unfold timed_states in Hp1. cbn in Hp1. destruct state as [p'|]; cbn in Hp1; [|by apply elem_of_nil in Hp1].
      apply list_elem_of_singleton in Hp1. subst p'. by destruct (Hst p eq_refl) as (_ & ? & _).
  - apply Forall_app in qi_fresh0 as [F1 F2]. rewrite Forall_app. split; [|done]. rewrite Hps, Forall_app. split; [|done].
    unfold timed_states. cbn. destruct state as [p|]; cbn; [|constructor]. apply Forall_singleton. by destruct (Hst p eq_refl).
  - intros p Hl. rewrite marks_app, qi_marks0, Hm by done. rewrite decide_False; [done|]. intros ->.
    destruct (Hst p eq_refl) as [? _]. lia.
  - intros p t. rewrite marks_app, Hm, elem_of_app. intros [Ht|Ht]; [by eapply qi_past0|].
    case_decide; [|by apply elem_of_nil in Ht]. apply list_elem_of_singleton in Ht. lia.
  - intros e' p t. rewrite Hp, elem_of_cons, marks_app, Hm. intros [->|He] Hpe Ht.
    + cbn in Hpe |- *. destruct (Hst p Hpe) as (_ & _ & H3 & H4). apply elem_of_app in Ht as [Ht|Ht]; [by apply H3|].
      rewrite decide_True in Ht by done. apply list_elem_of_singleton in Ht. by subst t.
    + apply elem_of_app in Ht as [Ht|Ht]; [by eapply qi_due0|]. case_decide as Hs; [|by apply elem_of_nil in Ht].
      destruct (Hst p Hs) as (_ & H2 & _). exfalso. apply H2, elem_timed_states. exists e'. split; [|done]. apply elem_of_app. by left.
  - intros e' p t He Hpe. rewrite marks_app, Hm. intros Ht. apply elem_of_app in Ht as [Ht|Ht]; [by eapply qi_held0|].
    case_decide as Hs; [|by apply elem_of_nil in Ht]. destruct (Hst p Hs) as (_ & H2 & _). exfalso.
    apply H2, elem_timed_states. exists e'. split; [|done]. apply elem_of_app. right. by apply holding_held.
  - apply at_events_snoc; [done|]. cbn. rewrite Ha in qi_closed0. by apply negb_sym in qi_closed0.
Qed.

Lemma add_urgent_inv k q j : (k + 1 < 2 ^ 64)%Z -> queue_inv k q -> queue_inv (k + 1) (snd (add_urgent_job j q)).
Proof.
  intros Hk I. unfold add_urgent_job. destruct j as [j|]; [|apply (queue_inv_mono k); [lia|done]].
  destruct (active q) eqn:Ha; cbn [negb snd]; [|apply (queue_inv_mono k); [lia|done]].
  apply signal_inv. set (e := {| next_run := now q |}). pose proof (sequence_fresh k q e eq_refl I) as Hnew.
  pose proof I as [[S1 S2]]. assert (Hw : wrap 64 (next_sequence q + 1) = (next_sequence q + 1)%Z)
    by (unfold wrap; apply Z.mod_small; lia).
  destruct (qi_open0 Ha) as [Hu Hd].
  split; queue_simpl; rewrite ?Hw; autorewrite with queuelog; cbn [urgent_submitted timed_submitted urgent_taken timed_taken
    urgent_discarded timed_discarded began ended cancelled closed existsb omap list_omap flat_map app option_bind mbind fst snd];
    rewrite ?app_nil_r; try done.
  - lia.
  - apply Forall_app in qi_sequences0 as [F1 F2]. rewrite !Forall_app. split_and!; [|by repeat constructor; cbn; lia|].
    + eapply Forall_impl; [exact F1|]. cbn. lia.
    + eapply Forall_impl; [exact F2|]. cbn. lia.
  - rewrite <- app_assoc, !map_app. cbn [map app]. rewrite <- Permutation_middle. constructor; [|by rewrite <- map_app].
    by rewrite <- map_app.
  - rewrite qi_urgent0, Hu. rewrite !app_nil_r, <- app_assoc. done.
  - by rewrite orb_false_r.
  - rewrite Ha. done.
  - apply Forall_app. split; [done|]. by repeat constructor.
  - intros p Hl. rewrite marks_app, qi_marks0 by done. done.
  - intros p t. rewrite marks_app, app_nil_r. apply qi_past0.
  - intros e' p t. rewrite marks_app, app_nil_r. apply qi_due0.
  - intros e' p t. rewrite marks_app, app_nil_r. apply qi_held0.
  - apply at_events_snoc; [done|]. cbn. rewrite Ha in qi_closed0. by apply negb_sym in qi_closed0.
Qed.

Lemma add_delayed_inv k q delay j s q' : (k + 1 < 2 ^ 64)%Z -> add_delayed_job ticks delay j q = Next (s, q') ->
  queue_inv k q -> queue_inv (k + 1) q'.
Proof.
  intros Hk E I. unfold add_delayed_job in E.
  assert (Hsame : queue_inv (k + 1) q) by (apply (queue_inv_mono k); [lia|done]).
  destruct j as [j|]; [|by injection E as <- <-]. destruct (_ <? _)%Z; [by injection E as <- <-|].
  destruct (active q) eqn:Ha; cbn [negb] in E; [|by injection E as <- <-].
  destruct (deadline ticks (now q) delay) as [time|]; [|done]. injection E as <- <-.
  by apply signal_inv, push_timed_inv.
Qed.

(** *** Handles *)

Lemma cancel_inv k q h : queue_inv k q -> queue_inv k (cancel h q).
Proof.
  intros I. unfold cancel. destruct (handles q !! h) as [p|] eqn:Eh; [|done]. pose proof I as [].
  assert (Hfr := qi_fresh0). apply Forall_app in Hfr as [F1 F2]. apply Forall_app in F2 as [F2 F3].
  assert (Hp : (p < length (states q))%nat).
  { rewrite Forall_forall in F3. apply F3, list_elem_of_fmap. exists (h, p). split; [done|]. by apply elem_of_map_to_list. }
  split; queue_simpl; autorewrite with queuelog; cbn [urgent_submitted timed_submitted urgent_taken timed_taken
    urgent_discarded timed_discarded began ended cancelled closed existsb omap list_omap flat_map app option_bind mbind fst snd];
    rewrite ?app_nil_r, ?orb_false_r; try done.
  - rewrite length_insert, !Forall_app. split_and!; [done|done|by apply Forall_singleton|].
    rewrite Forall_forall in F3 |- *. intros x (e & -> & He)%list_elem_of_fmap. destruct e as [h' x]. apply F3, list_elem_of_fmap.
    exists (h', x). split; [done|]. apply elem_of_map_to_list in He. apply lookup_delete_Some in He as [_ He].
    by apply elem_of_map_to_list.
  - intros p' Hl. rewrite length_insert in Hl. rewrite marks_app, qi_marks0 by done. done.
  - intros p' t. rewrite marks_app, app_nil_r. apply qi_past0.
  - intros e' p' t. rewrite marks_app, app_nil_r. apply qi_due0.
  - intros e' p' t. rewrite marks_app, app_nil_r. apply qi_held0.
  - intros p' Hc. unfold is_active. queue_simpl. destruct (decide (p = p')) as [<-|Hne].
    + by rewrite list_lookup_insert_eq.
    + rewrite list_lookup_insert_ne by done. apply qi_cancelled0. apply elem_of_app in Hc as [?|Hc]; [done|].
      apply list_elem_of_singleton in Hc. congruence.
  - by apply at_events_snoc.
Qed.

Lemma with_handles_inv k q h : Forall (fun p => (p < length (states q))%nat) (map snd (map_to_list h)) ->
  queue_inv k q -> queue_inv k (with_states q (states q) h).
Proof.
  intros Hh []. split; queue_simpl; try done. apply Forall_app in qi_fresh0 as [F1 F2]. apply Forall_app in F2 as [F2 F3].
  by rewrite !Forall_app.
Qed.

Lemma handles_bound k q h p : queue_inv k q -> handles q !! h = Some p -> (p < length (states q))%nat.
Proof.
  intros [] Eh. apply Forall_app in qi_fresh0 as [_ F2]. apply Forall_app in F2 as [_ F3]. rewrite Forall_forall in F3.
  apply F3, list_elem_of_fmap. exists (h, p). split; [done|]. by apply elem_of_map_to_list.
Qed.

(** Every handle of [m] points to a state. *)
Lemma handles_range (m : gmap nat nat) n : (forall h p, m !! h = Some p -> (p < n)%nat) ->
  Forall (fun p => (p < n)%nat) (map snd (map_to_list m)).
Proof.
  intros Hm. apply Forall_forall. intros x ([h y] & -> & He)%list_elem_of_fmap. apply elem_of_map_to_list in He. by eapply Hm.
Qed.

Lemma cancel_states h q : length (states (cancel h q)) = length (states q).
Proof. unfold cancel. destruct (handles q !! h); [|done]. queue_simpl. apply length_insert. Qed.

Lemma adopt_inv k q h p : (p < length (states q))%nat -> queue_inv k q -> queue_inv k (adopt h p q).
Proof.
  intros Hp I. unfold adopt. pose proof (cancel_inv k q h I) as Ic. apply with_handles_inv; [|done].
  apply handles_range. intros h' p'. rewrite lookup_insert_Some. intros [[_ <-]|[_ He]]; [by rewrite cancel_states|].
  by eapply handles_bound.
Qed.

Lemma move_inv k q a b : queue_inv k q -> queue_inv k (move_handle a b q).
Proof.
  intros I. unfold move_handle. destruct (a =? b)%nat; [done|]. pose proof (cancel_inv k q a I) as Ic.
  destruct (handles (cancel a q) !! b) as [p|] eqn:Eb; [|done]. apply with_handles_inv; [|done].
  apply handles_range. intros h' p'. rewrite lookup_insert_Some. intros [[_ <-]|[_ He]]; [by eapply handles_bound|].
  apply lookup_delete_Some in He as [_ He]. by eapply handles_bound.
Qed.

(** A periodic submission makes a new state. *)
Lemma new_state_inv k q : queue_inv k q -> queue_inv k (with_states q (states q ++ [true]) (handles q)).
Proof.
  intros []. split; queue_simpl; rewrite ?length_app; cbn [length]; try done.
  - eapply Forall_impl; [exact qi_fresh0|]. cbn. lia.
  - intros p Hp. apply qi_marks0. lia.
  - intros p Hp. unfold is_active in *. queue_simpl. rewrite lookup_app_l; [by apply qi_cancelled0|].
    apply Forall_app in qi_fresh0 as [_ F]. apply Forall_app in F as [F _]. rewrite Forall_forall in F. by apply F.
Qed.

Lemma deadline_spec time delay t : deadline ticks time delay = Some t -> t = (time + delay * ticks)%Z.
Proof. unfold deadline. destruct (_ && _); by intros [= <-]. Qed.

Lemma add_periodic_inv k q per j h s q' : (k + 1 < 2 ^ 64)%Z -> add_periodic_job ticks per j h q = Next (s, q') ->
  queue_inv k q -> queue_inv (k + 1) q'.
Proof.
  intros Hk E I. unfold add_periodic_job in E.
  assert (Hsame : queue_inv (k + 1) q) by (apply (queue_inv_mono k); [lia|done]).
  destruct j as [j|]; [|by injection E as <- <-]. destruct (_ =? _)%Z; [by injection E as <- <-|].
  destruct (_ <? _)%Z; [by injection E as <- <-|]. destruct (active q) eqn:Ha; cbn [negb] in E; [|by injection E as <- <-].
  destruct (deadline ticks (now q) per) as [time|] eqn:Ed; [|done]. injection E as <- <-. apply deadline_spec in Ed.
  pose proof (new_state_inv k q I) as In. apply signal_inv, adopt_inv.
  - cbn. rewrite length_app. cbn. lia.
  - apply push_timed_inv; [done|done| |done]. intros p [= <-]. queue_simpl. rewrite length_app. cbn [length].
    split_and!; [lia| |intros t Ht; rewrite (qi_marks _ _ I) in Ht by lia; by apply elem_of_nil in Ht|lia].
    intros Hin. pose proof (qi_fresh _ _ I) as F. apply Forall_app in F as [F _]. rewrite Forall_forall in F.
    specialize (F _ Hin). lia.
Qed.

(** *** Shutdown *)

(** [q'] is [q] with the states of [es] cleared. *)
Definition cleared (es : list JobEntry) (q q' : JobQueue) : Prop :=
  length (states q') = length (states q) /\ next_sequence q' = next_sequence q /\ handles q' = handles q /\
  workers q' = workers q /\ now q' = now q /\ log q' = log q /\
  forall p, is_active q' p = is_active q p && negb (bool_decide (p ∈ timed_states es)).

Lemma deactivate_entry_cleared e q : cleared [e] q (deactivate_entry q e).
Proof.
  unfold cleared, deactivate_entry, deactivate, timed_states. cbn. destruct (periodic_state e) as [p|]; cbn [states].
  - queue_simpl. rewrite length_insert. split_and!; try done. intros p'. unfold is_active. queue_simpl.
    destruct (decide (p = p')) as [<-|Hne].
    + rewrite bool_decide_true by (by apply list_elem_of_singleton). rewrite andb_false_r. destruct (states q !! p) eqn:Es.
      * rewrite list_lookup_insert_eq by (by eapply lookup_lt_Some). done.
      * rewrite list_insert_ge by (by apply lookup_ge_None_1). by rewrite Es.
    + rewrite list_lookup_insert_ne by done. rewrite bool_decide_false; [by rewrite andb_true_r|].
      intros ?%list_elem_of_singleton. congruence.
  - split_and!; try done. intros p. by rewrite andb_true_r.
Qed.

Lemma deactivate_fold es : forall q, cleared es q (fold_left deactivate_entry es q).
Proof.
  induction es as [|e es IH]; intros q; cbn [fold_left].
  { split_and!; try done. intros p. by rewrite andb_true_r. }
  destruct (IH (deactivate_entry q e)) as (H1 & H2 & H3 & H4 & H5 & H6 & H7).
  destruct (deactivate_entry_cleared e q) as (K1 & K2 & K3 & K4 & K5 & K6 & K7).
  split_and!; try congruence. intros p. rewrite H7, K7, (timed_states_app [e] es : timed_states (e :: es) = _).
  rewrite <- andb_assoc, <- negb_orb. f_equal. f_equal. symmetry.
  destruct (bool_decide_reflect (p ∈ timed_states [e])), (bool_decide_reflect (p ∈ timed_states es)); cbn;
    rewrite ?bool_decide_eq_true, ?bool_decide_eq_false, elem_of_app; tauto.
Qed.

Lemma queue_shutdown_inv k q : queue_inv k q -> queue_inv k (shutdown q).
Proof.
  intros I. unfold shutdown. destruct (active q) eqn:Ha; cbn [negb]; [|done].
  destruct (deactivate_fold (jobs q) q) as (H1 & H2 & H3 & H4 & H5 & H6 & H7). cbn zeta in *. pose proof I as [].
  destruct (qi_open0 Ha) as [Hu Hd].
  split; queue_simpl; rewrite ?H1, ?H2, ?H3, ?H4, ?H5, ?H6; autorewrite with queuelog;
    cbn [urgent_submitted timed_submitted urgent_taken timed_taken
    urgent_discarded timed_discarded began ended cancelled closed existsb omap list_omap flat_map app option_bind mbind fst snd];
    rewrite ?app_nil_r; try done.
  - rewrite qi_urgent0, Hu. by rewrite app_nil_r.
  - rewrite qi_timed0, Hd. by rewrite app_nil_r.
  - constructor.
  - by rewrite orb_true_r.
  - eapply nodup_sub; [|exact qi_states0]. rewrite timed_states_app. by apply submseteq_inserts_l.
  - eapply forall_sub; [|exact qi_fresh0]. apply submseteq_skips_r. rewrite timed_states_app. by apply submseteq_inserts_l.
  - intros p Hp. rewrite marks_app, qi_marks0 by done. done.
  - intros p t. rewrite marks_app, app_nil_r. apply qi_past0.
  - intros e p t. by intros ?%elem_of_nil.
  - intros e p t. rewrite marks_app, app_nil_r. apply qi_held0.
  - intros p Hp. unfold is_active in *. queue_simpl. rewrite H7. by rewrite qi_cancelled0.
  - by apply at_events_snoc.
Qed.

(** *** Workers *)

Ltac event_simpl := queue_simpl; autorewrite with queuelog; cbn [urgent_submitted timed_submitted urgent_taken timed_taken
  urgent_discarded timed_discarded began ended cancelled closed existsb omap list_omap flat_map app option_bind mbind fst snd];
  rewrite ?app_nil_r, ?orb_false_r.

Lemma take_urgent_inv k q i e urgent : workers q !! i = Some Looking -> active q = true -> urgent_jobs q = e :: urgent ->
  queue_inv k q ->
  queue_inv k (record_event (TakenUrgent e)
    (with_jobs (with_workers q (<[i := Holding e]> (workers q))) urgent (jobs q) (next_sequence q))).
Proof.
  intros Ei Ha Eu I. pose proof I as []. rewrite Eu in *. destruct (qi_open0 Ha) as [Hu Hd].
  assert (He : periodic_state e = None).
  { rewrite Forall_forall in qi_oneshot0. apply qi_oneshot0. rewrite qi_urgent0. rewrite elem_of_app, elem_of_app, elem_of_cons. auto. }
  assert (Hts : forall es, timed_states (e :: es) = timed_states es) by (intros es; unfold timed_states; cbn; by rewrite He).
  assert (Hheld : flat_map held (<[i := Holding e]> (workers q)) ≡ₚ e :: flat_map held (workers q)).
  { rewrite (flat_map_set held _ _ _ (Holding e) Ei), (flat_map_worker held _ _ _ Ei). done. }
  assert (Hhold : flat_map holding (<[i := Holding e]> (workers q)) ≡ₚ e :: flat_map holding (workers q)).
  { rewrite (flat_map_set holding _ _ _ (Holding e) Ei), (flat_map_worker holding _ _ _ Ei). done. }
  assert (Hstates : timed_states (jobs q ++ flat_map held (<[i := Holding e]> (workers q))) ≡ₚ
    timed_states (jobs q ++ flat_map held (workers q))).
  { rewrite Hheld, <- Permutation_middle. by rewrite Hts. }
  split; event_simpl; try done.
  - rewrite qi_urgent0, Hu, <- app_assoc, !app_nil_r. done.
  - intros ?. congruence.
  - rewrite Hhold, <- Permutation_middle, <- app_assoc. cbn [app]. rewrite <- Permutation_middle. by constructor.
  - by rewrite Hstates.
  - by rewrite Hstates.
  - intros p Hp. by rewrite marks_app, qi_marks0.
  - by rewrite (flat_map_set inside _ _ _ (Holding e) Ei), qi_running0, (flat_map_worker inside _ _ _ Ei).
  - intros p t. rewrite marks_app, app_nil_r. apply qi_past0.
  - intros e' p t. rewrite marks_app, app_nil_r. apply qi_due0.
  - intros e' p t. rewrite Hhold, marks_app, app_nil_r, elem_of_cons. intros [->|Hin]; [congruence|]. by apply qi_held0.
  - apply at_events_snoc; [done|]. cbn. rewrite Ha in qi_closed0. by apply negb_sym in qi_closed0.
Qed.

Lemma take_timed_inv k q i e timed : workers q !! i = Some Looking -> active q = true -> urgent_jobs q = [] ->
  jobs q = e :: timed -> (next_run e <= now q)%Z -> queue_inv k q ->
  queue_inv k (record_event (TakenTimed e)
    (with_jobs (with_workers q (<[i := Holding e]> (workers q))) (urgent_jobs q) timed (next_sequence q))).
Proof.
  intros Ei Ha Eu Ej Hdue I. pose proof I as []. rewrite Eu, Ej in *. destruct (qi_open0 Ha) as [Hu Hd].
  assert (Hheld : flat_map held (<[i := Holding e]> (workers q)) ≡ₚ e :: flat_map held (workers q)).
  { rewrite (flat_map_set held _ _ _ (Holding e) Ei), (flat_map_worker held _ _ _ Ei). done. }
  assert (Hhold : flat_map holding (<[i := Holding e]> (workers q)) ≡ₚ e :: flat_map holding (workers q)).
  { rewrite (flat_map_set holding _ _ _ (Holding e) Ei), (flat_map_worker holding _ _ _ Ei). done. }
  assert (Hstates : timed_states (timed ++ flat_map held (<[i := Holding e]> (workers q))) ≡ₚ
    timed_states ((e :: timed) ++ flat_map held (workers q))).
  { rewrite Hheld, <- Permutation_middle. done. }
  inversion qi_sorted0 as [|? ? Hs Hf]; subst.
  split; event_simpl; try done.
  - rewrite qi_timed0. solve_Permutation.
  - intros ?. congruence.
  - rewrite Hhold. assert (Hb : began (log q) ++ e :: flat_map holding (workers q) ≡ₚ e :: (began (log q) ++ flat_map holding (workers q)))
      by solve_Permutation. rewrite Hb, app_assoc.
    assert (Hx : (urgent_taken (log q) ++ timed_taken (log q)) ++ [e] ≡ₚ e :: (urgent_taken (log q) ++ timed_taken (log q)))
      by solve_Permutation. rewrite Hx. by constructor.
  - by rewrite Hstates.
  - by rewrite Hstates.
  - intros p Hp. by rewrite marks_app, qi_marks0.
  - by rewrite (flat_map_set inside _ _ _ (Holding e) Ei), qi_running0, (flat_map_worker inside _ _ _ Ei).
  - intros p t. rewrite marks_app, app_nil_r. apply qi_past0.
  - intros e' p t Hin. rewrite marks_app, app_nil_r. apply qi_due0, elem_of_cons. by right.
  - intros e' p t. rewrite Hhold, marks_app, app_nil_r, elem_of_cons. intros [->|Hin]; [|by apply qi_held0].
    intros Hp Ht. assert (Hx := qi_due0 e p t (list_elem_of_here _ _) Hp Ht). lia.
  - apply at_events_snoc; [done|]. cbn. rewrite Ha in qi_closed0. apply negb_sym in qi_closed0. split_and!; [done|done| |].
    + rewrite qi_urgent0, Hu. by rewrite app_nil_r.
    + intros e'. rewrite qi_timed0, Hd, app_nil_r, elem_of_app, elem_of_cons. intros [?|[?|Hin]]; auto.
      right. right. rewrite Forall_forall in Hf. by apply Hf.
Qed.

(** While a worker holds a periodic entry, no worker is inside it, and it is
    not in the queue. *)
Lemma not_elsewhere k q i e w p : workers q !! i = Some w -> held w = [e] -> periodic_state e = Some p -> queue_inv k q ->
  p ∉ timed_states (jobs q ++ flat_map held (delete i (workers q))).
Proof.
  intros Ei Hw Hp I. pose proof (qi_states _ _ I) as Hn.
  assert (E : jobs q ++ flat_map held (workers q) ≡ₚ [e] ++ jobs q ++ flat_map held (delete i (workers q))).
  { rewrite (flat_map_worker held _ _ _ Ei), Hw. solve_Permutation. }
  rewrite E, timed_states_app in Hn. unfold timed_states at 1 in Hn. cbn in Hn. rewrite Hp in Hn.
  by apply NoDup_cons in Hn as [? _].
Qed.

Lemma not_inside k q i e p : workers q !! i = Some (Holding e) -> periodic_state e = Some p -> queue_inv k q ->
  p ∉ timed_states (flat_map inside (workers q)).
Proof.
  intros Ei Hp I Hin. apply (not_elsewhere k q i e (Holding e) p Ei eq_refl Hp I).
  apply elem_timed_states in Hin as (e' & He' & Hp'). rewrite (flat_map_worker inside _ _ _ Ei) in He'. cbn in He'.
  apply elem_timed_states. exists e'. split; [|done]. apply elem_of_app. right. by apply inside_held.
Qed.

Lemma begin_inv k q i e : workers q !! i = Some (Holding e) -> entry_active q e = true -> queue_inv k q ->
  queue_inv k (record_event (Began e) (with_workers q (<[i := Inside e]> (workers q)))).
Proof.
  intros Ei Hact I. pose proof I as [].
  assert (Hheld : flat_map held (<[i := Inside e]> (workers q)) ≡ₚ flat_map held (workers q)).
  { rewrite (flat_map_set held _ _ _ (Inside e) Ei), (flat_map_worker held _ _ _ Ei). done. }
  assert (Hhold : flat_map holding (workers q) ≡ₚ e :: flat_map holding (<[i := Inside e]> (workers q))).
  { rewrite (flat_map_set holding _ _ _ (Inside e) Ei), (flat_map_worker holding _ _ _ Ei). done. }
  assert (Hin : flat_map inside (<[i := Inside e]> (workers q)) ≡ₚ e :: flat_map inside (workers q)).
  { rewrite (flat_map_set inside _ _ _ (Inside e) Ei), (flat_map_worker inside _ _ _ Ei). done. }
  assert (Hstates : timed_states (jobs q ++ flat_map held (<[i := Inside e]> (workers q))) ≡ₚ
    timed_states (jobs q ++ flat_map held (workers q))) by by rewrite Hheld.
  split; event_simpl; try done.
  - etransitivity; [|exact qi_began0]. rewrite Hhold, <- app_assoc. done.
  - by rewrite Hstates.
  - by rewrite Hstates.
  - intros p Hp. by rewrite marks_app, qi_marks0.
  - rewrite qi_running0, Hin. solve_Permutation.
  - intros p t. rewrite marks_app, app_nil_r. apply qi_past0.
  - intros e' p t. rewrite marks_app, app_nil_r. apply qi_due0.
  - intros e' p t Hx. rewrite marks_app, app_nil_r. apply qi_held0. rewrite Hhold. by apply elem_of_cons; right.
  - apply at_events_snoc; [done|]. cbn. intros p Hp. split_and!.
    + intros Hc. specialize (qi_cancelled0 p Hc). unfold entry_active in Hact. rewrite Hp in Hact. congruence.
    + rewrite (proj1 (Permutation_count_occ Nat.eq_dec _ _) (timed_states_perm _ _ qi_running0) p), timed_states_app, count_occ_app.
      rewrite (proj1 (count_occ_not_In _ (timed_states (flat_map inside (workers q))) p)); [lia|].
      rewrite <- list_elem_of_In. by apply (not_inside k q i e).
    + intros t Ht. apply qi_held0 with p; [|done|done]. rewrite Hhold. apply elem_of_cons. by left.
Qed.

Lemma end_inv k q i e : workers q !! i = Some (Inside e) -> queue_inv k q ->
  queue_inv k (record_event (Ended e) (with_workers q (<[i := Checking e]> (workers q)))).
Proof.
  intros Ei I. pose proof I as [].
  assert (Hheld : flat_map held (<[i := Checking e]> (workers q)) ≡ₚ flat_map held (workers q)).
  { rewrite (flat_map_set held _ _ _ (Checking e) Ei), (flat_map_worker held _ _ _ Ei). done. }
  assert (Hhold : flat_map holding (<[i := Checking e]> (workers q)) ≡ₚ flat_map holding (workers q)).
  { rewrite (flat_map_set holding _ _ _ (Checking e) Ei), (flat_map_worker holding _ _ _ Ei). done. }
  assert (Hin : flat_map inside (workers q) ≡ₚ [e] ++ flat_map inside (<[i := Checking e]> (workers q))).
  { rewrite (flat_map_set inside _ _ _ (Checking e) Ei), (flat_map_worker inside _ _ _ Ei). done. }
  assert (Hstates : timed_states (jobs q ++ flat_map held (<[i := Checking e]> (workers q))) ≡ₚ
    timed_states (jobs q ++ flat_map held (workers q))) by by rewrite Hheld.
  assert (Hm : forall p, marks p [(now q, Ended e)] = if decide (periodic_state e = Some p) then [now q] else []).
  { intros p. cbn. by destruct (decide (periodic_state e = Some p)). }
  assert (Hel : forall p e', periodic_state e = Some p -> periodic_state e' = Some p ->
    e' ∈ jobs q ++ flat_map holding (workers q) -> False).
  { intros p e' Hp Hp' Hx. apply (not_elsewhere k q i e (Inside e) p Ei eq_refl Hp I), elem_timed_states. exists e'.
    split; [|done]. rewrite (flat_map_worker holding _ _ _ Ei) in Hx. cbn in Hx. apply elem_of_app in Hx as [Hx|Hx];
      apply elem_of_app; [by left|right; by apply holding_held]. }
  split; event_simpl; try done.
  - by rewrite Hhold.
  - by rewrite Hstates.
  - by rewrite Hstates.
  - intros p Hp. rewrite marks_app, qi_marks0, Hm, decide_False; [done| |done]. intros He.
    apply Forall_app in qi_fresh0 as [F _]. rewrite Forall_forall in F. assert (p < length (states q))%nat; [|lia].
    apply F, elem_timed_states. exists e. split; [|done]. apply elem_of_app. right.
    rewrite (flat_map_worker held _ _ _ Ei). by left.
  - rewrite qi_running0, Hin. solve_Permutation.
  - intros p t. rewrite marks_app, Hm, elem_of_app. intros [Ht|Ht]; [by eapply qi_past0|].
    case_decide; [|by apply elem_of_nil in Ht]. apply list_elem_of_singleton in Ht. lia.
  - intros e' p t He' Hp. rewrite marks_app, Hm, elem_of_app. intros [Ht|Ht]; [by eapply qi_due0|].
    case_decide as Hd; [|by apply elem_of_nil in Ht]. exfalso. apply (Hel p e' Hd Hp), elem_of_app. by left.
  - intros e' p t He' Hp. rewrite marks_app, Hm, elem_of_app. rewrite Hhold in He'. intros [Ht|Ht]; [by eapply qi_held0|].
    case_decide as Hd; [|by apply elem_of_nil in Ht]. exfalso. apply (Hel p e' Hd Hp), elem_of_app. by right.
  - by apply at_events_snoc.
Qed.

(** A worker that puts its entry back. *)
Lemma reschedule_inv k q i e time : (k + 1 < 2 ^ 64)%Z -> workers q !! i = Some (Rescheduling e) -> active q = true ->
  time = (now q + period e * ticks)%Z -> queue_inv k q ->
  queue_inv (k + 1) (with_workers (push_timed time (period e) (job e) (periodic_state e) q) (<[i := Notifying]> (workers q))).
Proof.
  intros Hk Ei Ha -> I.
  assert (I1 : queue_inv k (with_workers q (<[i := Notifying]> (workers q)))).
  { eapply set_worker_inv; [exact Ei|apply submseteq_nil_l|done|done|done]. }
  apply (push_timed_inv k (with_workers q (<[i := Notifying]> (workers q))) _ (period e) (job e) (periodic_state e)); try done.
  intros p Hp. queue_simpl. split_and!.
  - pose proof (qi_fresh _ _ I) as F. apply Forall_app in F as [F _]. rewrite Forall_forall in F. apply F, elem_timed_states.
    exists e. split; [|done]. apply elem_of_app. right. rewrite (flat_map_worker held _ _ _ Ei). by left.
  - rewrite (flat_map_set held _ _ _ Notifying Ei). by apply (not_elsewhere k q i e (Rescheduling e)).
  - intros t Ht. pose proof (qi_past _ _ I p t Ht). lia.
  - lia.
Qed.

Lemma deactivate_entry_inv k q e : queue_inv k q -> queue_inv k (deactivate_entry q e).
Proof.
  intros I. destruct (deactivate_entry_cleared e q) as (H1 & H2 & H3 & H4 & H5 & H6 & H7). pose proof I as [].
  assert (Hj : jobs (deactivate_entry q e) = jobs q /\ urgent_jobs (deactivate_entry q e) = urgent_jobs q /\
    active (deactivate_entry q e) = active q) by (unfold deactivate_entry; by destruct (periodic_state e)).
  destruct Hj as (J1 & J2 & J3). split; rewrite ?H1, ?H2, ?H3, ?H4, ?H5, ?H6, ?J1, ?J2, ?J3; try done.
  intros p Hp. rewrite H7. by rewrite qi_cancelled0.
Qed.

Lemma worker_inv k q i target q' : (k + 1 < 2 ^ 64)%Z -> worker ticks i target q = Next q' -> queue_inv k q ->
  queue_inv (k + 1) q'.
Proof.
  intros Hk E I. unfold worker in E. destruct (workers q !! i) as [w|] eqn:Ei; [|done].
  assert (Hset : forall w', held w' ⊆+ held w -> holding w' = [] -> inside w' = inside w ->
    queue_inv k (with_workers q (<[i := w']> (workers q)))) by (intros w' ? ? ?; by eapply set_worker_inv).
  assert (Hmono : forall q'', queue_inv k q'' -> queue_inv (k + 1) q'')
    by (intros q'' ?; apply (queue_inv_mono k); [lia|done]).
  assert (Hnote : forall q'', queue_inv k q'' -> queue_inv k (settle (notify_one target (workers q'')) (signals q'') q''))
    by (intros q'' ?; apply settled_inv; [intros f; apply flat_map_notify_one|done]).
  destruct w as [| |t|e|e|e|e| |].
  - destruct (active q) eqn:Ha; [|injection E as <-; apply Hmono; by apply Hset].
    destruct (urgent_jobs q) as [|e urgent] eqn:Eu.
    + destruct (jobs q) as [|e timed] eqn:Ej; [injection E as <-; apply Hmono; by apply Hset|].
      destruct (now q <? next_run e)%Z eqn:Ed; injection E as <-; [apply Hmono; by apply Hset|].
      apply Hmono. pose proof (take_timed_inv k q i e timed Ei Ha Eu Ej) as T. rewrite Eu in T.
      refine (Hnote _ (T _ I)). apply Z.ltb_ge in Ed. lia.
    + injection E as <-. apply Hmono. exact (Hnote _ (take_urgent_inv k q i e urgent Ei Ha Eu I)).
  - done.
  - destruct (now q <? t)%Z; [done|]. injection E as <-. apply Hmono. by apply Hset.
  - destruct (entry_active q e) eqn:Ha; injection E as <-; apply Hmono; [by apply begin_inv|]. by apply Hset.
  - injection E as <-. apply Hmono. by apply end_inv.
  - destruct (periodic_state e) as [p|]; [destruct (is_active q p)|]; injection E as <-; apply Hmono, Hset; try done;
      apply submseteq_nil_l.
  - destruct (active q) eqn:Ha; cbn [negb] in E.
    + destruct (deadline ticks (now q) (period e)) as [time|] eqn:Ed; [|done]. injection E as <-.
      apply deadline_spec in Ed. by apply reschedule_inv.
    + injection E as <-. apply Hmono.
      assert (Ei' : workers (deactivate_entry q e) !! i = Some (Rescheduling e))
        by (unfold deactivate_entry; by destruct (periodic_state e)).
      pose proof (set_worker_inv k (deactivate_entry q e) i _ Looking Ei') as S.
      apply S; try done; [apply submseteq_nil_l|by apply deactivate_entry_inv].
  - injection E as <-. apply Hmono. exact (Hnote _ (Hset Looking (submseteq_nil_l _) eq_refl eq_refl)).
  - done.
Qed.

Lemma queue_choose_inv k q c q' : (k + 1 < 2 ^ 64)%Z -> choose ticks q c = Next q' -> queue_inv k q -> queue_inv (k + 1) q'.
Proof.
  intros Hk E I. assert (Hmono : forall q'', queue_inv k q'' -> queue_inv (k + 1) q'')
    by (intros q'' ?; apply (queue_inv_mono k); [lia|done]).
  destruct c as [d|delay j|per j h|j|h|a b| |i target|i target|i]; cbn [choose] in E.
  - destruct (d <? 0)%Z eqn:Ed; [done|]. injection E as <-. apply Hmono, elapse_inv; [|done]. apply Z.ltb_ge in Ed. lia.
  - destruct (add_delayed_job ticks delay j q) as [| |[s q'']] eqn:Ea; [done|done|]. injection E as <-. by eapply add_delayed_inv.
  - destruct (add_periodic_job ticks per j h q) as [| |[s q'']] eqn:Ea; [done|done|]. injection E as <-. by eapply add_periodic_inv.
  - injection E as <-. by apply add_urgent_inv.
  - injection E as <-. by apply Hmono, cancel_inv.
  - injection E as <-. by apply Hmono, move_inv.
  - injection E as <-. by apply Hmono, queue_shutdown_inv.
  - by eapply worker_inv.
  - by eapply Hmono, deliver_inv.
  - by eapply Hmono, spurious_inv.
Qed.

Lemma queue_play_inv choices : forall k q q', (k + Z.of_nat (length choices) < 2 ^ 64)%Z -> play ticks q choices = Next q' ->
  queue_inv k q -> queue_inv (k + Z.of_nat (length choices)) q'.
Proof.
  induction choices as [|c choices IH]; intros k q q' Hk E I; cbn [play length] in *.
  - injection E as <-. by rewrite Z.add_0_r.
  - destruct (choose ticks q c) as [| |q1] eqn:Ec; [done|done|].
    replace (k + Z.of_nat (S (length choices)))%Z with (k + 1 + Z.of_nat (length choices))%Z by lia.
    apply (IH (k + 1)%Z q1); [lia|done|]. apply (queue_choose_inv k q c); [lia|done|done].
Qed.
End Runs.
