(* ===== verification/QueueProps.v ===== *)
(** * What the worker pool promises

    Order of service, periodic jobs, deadlines at the end of the clock's range,
    and teardown. *)
From S2P Require Import Prelude.
From S2P Require Import JobQueue.
From S2P Require Import QueueRuns.
From Stdlib Require Import Sorted.

Section Alive.
Variable ticks : Z.
Implicit Types q : JobQueue.

Abbreviation placed q := (timed_states (jobs q ++ flat_map held (workers q))).

(** A periodic job that may still run is in the queue or with a worker; no
    worker returns while the queue is active. *)
Record alive (q : JobQueue) : Prop := {
  al_states : forall p, is_active q p = true -> p ∈ placed q;
  al_workers : active q = true -> Returned ∉ workers q;
}.

Lemma alive_same q q' : jobs q' = jobs q -> workers q' = workers q -> active q' = active q ->
  (forall p, is_active q' p = true -> is_active q p = true) -> alive q -> alive q'.
Proof. intros Hj Hw Ha Hs [A1 A2]. split; rewrite ?Hj, ?Hw, ?Ha; auto. Qed.

Lemma cancel_alive h q : alive q -> alive (cancel h q).
Proof.
  intros A. unfold cancel. destruct (handles q !! h) as [p|]; [|done]. apply (alive_same q); try done.
  intros p'. unfold is_active. cbn. destruct (decide (p = p')) as [<-|Hn]; [|by rewrite list_lookup_insert_ne].
  destruct (decide (p < length (states q))%nat); [by rewrite list_lookup_insert_eq|]. by rewrite list_insert_ge by lia.
Qed.

Lemma push_alive time per j state q : (forall p, is_active q p = true -> state = Some p \/ p ∈ placed q) ->
  (active q = true -> Returned ∉ workers q) -> alive (push_timed time per j state q).
Proof.
  intros Hs Hw. split; [|done]. intros p Hp. unfold push_timed.
  cbn [record_event with_jobs jobs workers]. set (e := {| next_run := time |}).
  specialize (Hs p Hp). apply elem_timed_states. destruct Hs as [Hs|Hs].
  - exists e. split; [|done]. apply elem_of_app. left. rewrite (push_perm e). by left.
  - apply elem_timed_states in Hs as (e' & He & Hp'). exists e'. split; [|done]. rewrite (push_perm e). by right.
Qed.

Lemma set_worker_alive q i w w' : workers q !! i = Some w -> w' <> Returned ->
  (forall e p, e ∈ held w -> periodic_state e = Some p -> is_active q p = true -> e ∈ held w') -> alive q ->
  alive (with_workers q (<[i := w']> (workers q))).
Proof.
  intros Ei Hr Hh [A1 A2]. split; cbn [with_workers jobs workers active].
  - intros p Hp. specialize (A1 p Hp). apply elem_timed_states in A1 as (e & He & Hpe). apply elem_timed_states.
    rewrite (flat_map_worker held _ _ _ Ei) in He. exists e. split; [|done].
    rewrite (flat_map_set held _ _ _ w' Ei). rewrite !elem_of_app in *. destruct He as [He|[He|He]]; auto.
    right. left. by eapply Hh.
  - intros Ha Hin. apply list_elem_of_lookup in Hin as [j Hj].
    apply list_lookup_insert_Some in Hj as [(_ & ? & _)|(_ & Hj)]; [done|]. by eapply A2, list_elem_of_lookup_2.
Qed.

Lemma take_alive q i e ev urgent timed : workers q !! i = Some Looking -> alive q ->
  (forall p, p ∈ timed_states (jobs q) -> p ∈ timed_states (e :: timed)) ->
  alive (record_event ev (with_jobs (with_workers q (<[i := Holding e]> (workers q))) urgent timed (next_sequence q))).
Proof.
  intros Ei [A1 A2] Hj. split; cbn [record_event with_jobs with_workers jobs workers active].
  - intros p Hp. specialize (A1 p Hp). rewrite (flat_map_set held _ _ _ (Holding e) Ei).
    rewrite (flat_map_worker held _ _ _ Ei) in A1. rewrite !timed_states_app in A1 |- *.
    assert (Hx : p ∈ timed_states (e :: timed) \/ p ∈ timed_states (flat_map held (delete i (workers q)))).
    { apply elem_of_app in A1 as [A1|A1]; [left; by apply Hj|by right]. }
    rewrite (timed_states_app [e] timed : timed_states (e :: timed) = _) in Hx. rewrite !elem_of_app in *. tauto.
  - intros Ha Hin. apply list_elem_of_lookup in Hin as [j Hx].
    apply list_lookup_insert_Some in Hx as [(_ & ? & _)|(_ & Hx)]; [done|]. by eapply A2, list_elem_of_lookup_2.
Qed.

(** *** Workers that wake *)

Lemma returned_wake (i : nat) (ws : list Worker) : Returned ∈ alter wake i ws -> Returned ∈ ws.
Proof.
  intros [j Hj]%list_elem_of_lookup. destruct (decide (i = j)) as [<-|Hn].
  - rewrite list_lookup_alter_eq in Hj. destruct (ws !! i) as [w|] eqn:E; [|done]. apply list_elem_of_lookup. exists i.
    rewrite E. destruct w; done.
  - rewrite list_lookup_alter_ne in Hj by done. by eapply list_elem_of_lookup_2.
Qed.

Lemma returned_notify target (ws : list Worker) : Returned ∈ notify_one target ws -> Returned ∈ ws.
Proof. destruct (notify_one_alter target ws) as [->|[i ->]]; [done|]. apply returned_wake. Qed.

Lemma returned_notify_all (ws : list Worker) : Returned ∈ notify_all ws -> Returned ∈ ws.
Proof.
  unfold notify_all. intros (w & Hw & Hin)%list_elem_of_fmap. by destruct w.
Qed.

Lemma settle_alive ws sg q : flat_map held ws = flat_map held (workers q) -> (Returned ∈ ws -> Returned ∈ workers q) ->
  alive q -> alive (settle ws sg q).
Proof.
  intros Hf Hr [A1 A2]. split; cbn [settle jobs workers active]; [rewrite Hf; exact A1|]. intros Ha Hin. exact (A2 Ha (Hr Hin)).
Qed.

Lemma notify_alive target q : alive q -> alive (settle (notify_one target (workers q)) (signals q) q).
Proof. apply settle_alive; [by apply flat_map_notify_one|apply returned_notify]. Qed.

Lemma worker_alive q i target q' : worker ticks i target q = Next q' -> alive q -> alive q'.
Proof.
  intros E A. unfold worker in E. destruct (workers q !! i) as [w|] eqn:Ei; [|done].
  pose proof (fun w' => set_worker_alive q i w w' Ei) as Hset. destruct w as [| |time|e|e|e|e| |].
  - destruct (active q) eqn:Ha.
    + destruct (urgent_jobs q) as [|e urgent].
      * destruct (jobs q) as [|e timed] eqn:Ej; [injection E as <-; by apply Hset|].
        destruct (_ <? _)%Z; injection E as <-; [by apply Hset|].
        refine (notify_alive target _ (take_alive q i e (TakenTimed e) [] timed Ei A _)). by rewrite Ej.
      * injection E as <-. refine (notify_alive target _ (take_alive q i e (TakenUrgent e) urgent (jobs q) Ei A _)).
        intros p Hp. rewrite (timed_states_app [e] (jobs q) : timed_states (e :: jobs q) = _). apply elem_of_app. by right.
    + injection E as <-. destruct A as [A1 A2]. split; cbn [with_workers jobs workers active]; [|congruence].
      intros p Hp. rewrite (flat_map_set held _ _ _ Returned Ei). specialize (A1 p Hp).
      by rewrite (flat_map_worker held _ _ _ Ei) in A1.
  - done.
  - destruct (_ <? _)%Z; [done|]. injection E as <-. by apply Hset.
  - destruct (entry_active q e); injection E as <-; [|by apply Hset].
    destruct (Hset (Inside e)) as [B1 B2]; [done|done|done|]. by split.
  - injection E as <-. destruct (Hset (Checking e)) as [B1 B2]; [done|done|done|]. by split.
  - destruct (periodic_state e) as [p|] eqn:Ep; [destruct (is_active q p) eqn:Hp|]; injection E as <-; apply Hset; try done.
    + cbn. intros e' p' ->%list_elem_of_singleton. congruence.
    + cbn. intros e' p' ->%list_elem_of_singleton. congruence.
  - destruct (active q) eqn:Ha; cbn [negb] in E.
    + destruct (deadline ticks (now q) (period e)) as [time|]; [|done]. injection E as <-. destruct A as [A1 A2].
      apply (push_alive time (period e) (job e) (periodic_state e) (with_workers q (<[i := Notifying]> (workers q)))).
      * cbn [with_workers jobs workers]. intros p Hp. specialize (A1 p Hp). rewrite (flat_map_set held _ _ _ Notifying Ei).
        rewrite (flat_map_worker held _ _ _ Ei) in A1. apply elem_timed_states in A1 as (e' & He & Hpe).
        rewrite !elem_of_app in He. destruct He as [He|[->%list_elem_of_singleton|He]]; [right|by left|right];
          apply elem_timed_states; exists e'; (split; [|done]); cbn; rewrite elem_of_app; auto.
      * cbn [with_workers workers active]. intros _ Hin. apply list_elem_of_lookup in Hin as [j Hx].
        apply list_lookup_insert_Some in Hx as [(_ & ? & _)|(_ & Hx)]; [done|].
        by eapply (A2 Ha), list_elem_of_lookup_2.
    + injection E as <-. destruct (deactivate_entry_cleared e q) as (_ & _ & _ & H4 & _ & _ & H7).
      assert (Hj : jobs (deactivate_entry q e) = jobs q /\ active (deactivate_entry q e) = active q)
        by (unfold deactivate_entry; by destruct (periodic_state e)). destruct Hj as [J1 J2].
      split; cbn [with_workers jobs workers active]; [|rewrite J2; congruence].
      intros p Hp. change (is_active (deactivate_entry q e) p = true) in Hp. rewrite H7 in Hp.
      apply andb_true_iff in Hp as [Hp Hn]. apply negb_true_iff, bool_decide_eq_false in Hn. destruct A as [A1 _].
      specialize (A1 p Hp). rewrite H4, J1, (flat_map_set held _ _ _ Looking Ei).
      rewrite (flat_map_worker held _ _ _ Ei) in A1. rewrite !timed_states_app, !elem_of_app in *. tauto.
  - injection E as <-. refine (notify_alive target _ (Hset Looking _ _ A)); done.
  - done.
Qed.

Lemma shutdown_alive q : alive q -> alive (shutdown q).
Proof.
  intros [A1 A2]. unfold shutdown. destruct (active q) eqn:Ha; cbn [negb]; [|by split; rewrite ?Ha].
  destruct (deactivate_fold (jobs q) q) as (_ & _ & _ & H4 & _ & _ & H7).
  split; cbn [record_event jobs workers active]; [|done]. intros p Hp.
  change (is_active (fold_left deactivate_entry (jobs q) q) p = true) in Hp. rewrite H7 in Hp.
  apply andb_true_iff in Hp as [Hp Hn]. apply negb_true_iff, bool_decide_eq_false in Hn.
  specialize (A1 p Hp). rewrite H4. rewrite timed_states_app, elem_of_app in A1. by destruct A1.
Qed.

Lemma choose_alive q c q' : choose ticks q c = Next q' -> alive q -> alive q'.
Proof.
  intros E A. destruct c as [d|delay j|per j h|j|h|a b| |i target|i target|i]; cbn [choose] in E.
  - destruct (d <? 0)%Z; [done|]. injection E as <-. by apply (alive_same q).
  - unfold add_delayed_job in E. destruct j as [j|]; [|by injection E as <-].
    destruct (_ <? _)%Z; [by injection E as <-|]. destruct (negb (active q)); [by injection E as <-|].
    destruct (deadline ticks (now q) delay) as [time|]; [|done]. injection E as <-. apply (settle_alive (workers q) (signals q ++ [NotifyOne]) (push_timed time 0 j None q)); [done|done|].
    apply push_alive; [|apply A]. intros p Hp. right. by apply A.
  - unfold add_periodic_job in E. destruct j as [j|]; [|by injection E as <-].
    destruct (_ =? _)%Z; [by injection E as <-|]. destruct (_ <? _)%Z; [by injection E as <-|].
    destruct (negb (active q)); [by injection E as <-|].
    destruct (deadline ticks (now q) per) as [time|]; [|done]. injection E as <-. unfold adopt.
    eapply alive_same; [..|apply (cancel_alive h)]; try done. apply push_alive; [|apply A].
    unfold is_active. cbn [with_states states jobs workers]. intros p Hp.
    destruct (decide (p < length (states q))%nat).
    + rewrite lookup_app_l in Hp by done. right. by apply A.
    + rewrite lookup_app_r in Hp by lia. destruct (p - length (states q))%nat as [|n'] eqn:En; [|done].
      left. f_equal. lia.
  - injection E as <-. unfold add_urgent_job. destruct j; [|done]. destruct (negb (active q)); [done|]. by apply (alive_same q).
  - injection E as <-. by apply cancel_alive.
  - injection E as <-. unfold move_handle. destruct (a =? b)%nat; [done|]. destruct (handles _ !! b).
    + eapply alive_same; [..|apply (cancel_alive a), A]; done.
    + by apply cancel_alive.
  - injection E as <-. by apply shutdown_alive.
  - by eapply worker_alive.
  - unfold deliver in E. destruct (signals q !! i) as [s|]; [|done]. injection E as <-.
    apply (settle_alive _ (delete i (signals q)) q); [|destruct s; [apply returned_notify|apply returned_notify_all]|done].
    destruct s; [by apply flat_map_notify_one|by apply flat_map_notify_all].
  - unfold spurious in E. destruct (default false _); [|done]. injection E as <-.
    apply (settle_alive _ (signals q) q); [by apply flat_map_wake|apply returned_wake|done].
Qed.

Lemma play_alive choices : forall q q', play ticks q choices = Next q' -> alive q -> alive q'.
Proof.
  induction choices as [|c choices IH]; intros q q' E A; cbn [play] in E; [by injection E as <-|].
  destruct (choose ticks q c) as [| |q1] eqn:Ec; [done|done|]. eapply IH; [done|]. by eapply choose_alive.
Qed.

Lemma initial_alive n time : alive (new_queue n time).
Proof.
  split; cbn; [done|]. intros _ Hin. apply elem_of_replicate in Hin as [? _]. done.
Qed.
End Alive.

(** ** Nobody sleeps over due work *)

Section Rest.
Variable ticks : Z.
Implicit Types q : JobQueue.

(** Somebody will look at the queue: a worker about to, or the receiver of a
    notification. *)
Definition attended q : Prop := signals q <> [] \/ Looking ∈ workers q \/ Notifying ∈ workers q.

(** A sleeping worker's deadline covers the first timed job. *)
Definition covered q : Prop :=
  urgent_jobs q = [] /\
  match jobs q with [] => True | e :: _ => exists t, WaitingUntil t ∈ workers q /\ (t <= next_run e)%Z end.

Definition sleeper (ws : list Worker) : Prop := exists w, w ∈ ws /\ asleep w = true.

(** While the queue is active a worker sleeps only if the queue is attended or
    its next job covered; after a shutdown only while the final notification is
    on its way. *)
Record rested q : Prop := {
  rs_open : active q = true -> sleeper (workers q) -> attended q \/ covered q;
  rs_shut : active q = false -> sleeper (workers q) -> NotifyAll ∈ signals q;
}.

Lemma asleep_wake_lookup (i j : nat) (ws : list Worker) w : alter wake i ws !! j = Some w -> asleep w = true -> ws !! j = Some w.
Proof.
  destruct (decide (i = j)) as [<-|Hn]; [|by rewrite list_lookup_alter_ne].
  rewrite list_lookup_alter_eq. destruct (ws !! i) as [w'|]; [|done]. intros [= <-]. by destruct w'.
Qed.

Lemma sleeper_wake (i : nat) (ws : list Worker) : sleeper (alter wake i ws) -> sleeper ws.
Proof.
  intros (w & [j Hj]%list_elem_of_lookup & Hw). exists w. split; [|done].
  eapply list_elem_of_lookup_2, asleep_wake_lookup; done.
Qed.

Lemma wake_looking (i : nat) (ws : list Worker) : default false (asleep <$> ws !! i) = true -> Looking ∈ alter wake i ws.
Proof.
  intros Hs. destruct (ws !! i) as [w|] eqn:E; [|done]. apply list_elem_of_lookup. exists i.
  rewrite list_lookup_alter_eq, E. destruct w; done.
Qed.

(** A notification reaches a sleeping worker, or nobody sleeps. *)
Lemma notify_one_reaches target (ws : list Worker) : sleeper ws -> Looking ∈ notify_one target ws.
Proof.
  intros (w & Hin & Hw). unfold notify_one. destruct (default false (asleep <$> ws !! target)) eqn:E; [by apply wake_looking|].
  destruct (list_find (fun w => asleep w = true) ws) as [[i w']|] eqn:Ef.
  - apply list_find_Some in Ef as (Ei & Ha & _). apply wake_looking. rewrite Ei. exact Ha.
  - apply list_find_None in Ef. rewrite Forall_forall in Ef. by destruct (Ef w Hin).
Qed.

Lemma sleeper_notify target (ws : list Worker) : sleeper (notify_one target ws) -> sleeper ws.
Proof. destruct (notify_one_alter target ws) as [->|[i ->]]; [done|]. apply sleeper_wake. Qed.

Lemma sleeper_notify_all (ws : list Worker) : ~ sleeper (notify_all ws).
Proof. intros (w & (w' & -> & _)%list_elem_of_fmap & Hw). by destruct w'. Qed.

Lemma wake_keeps (i : nat) (ws : list Worker) w : asleep w = false -> w ∈ ws -> w ∈ alter wake i ws.
Proof.
  intros Hw [j Hj]%list_elem_of_lookup. apply list_elem_of_lookup. exists j. destruct (decide (i = j)) as [<-|Hn].
  - rewrite list_lookup_alter_eq, Hj. cbn. unfold wake. by rewrite Hw.
  - by rewrite list_lookup_alter_ne.
Qed.

Lemma sleeper_set (i : nat) (ws : list Worker) w' : asleep w' = false -> sleeper (<[i := w']> ws) -> sleeper ws.
Proof.
  intros Hw (w & [j Hj]%list_elem_of_lookup & Ha). apply list_lookup_insert_Some in Hj as [(_ & <- & _)|[_ Hj]]; [congruence|].
  exists w. split; [|done]. by eapply list_elem_of_lookup_2.
Qed.

(** *** Steps *)

(** Callers that add nothing, and time. *)
Lemma rested_same q q' : jobs q' = jobs q -> urgent_jobs q' = urgent_jobs q -> active q' = active q ->
  workers q' = workers q -> signals q' = signals q -> rested q -> rested q'.
Proof.
  intros H1 H2 H3 H4 H5 [R1 R2]. split; unfold attended, covered in *; rewrite ?H1, ?H2, ?H3, ?H4, ?H5; done.
Qed.

(** Callers that add something notify. *)
Lemma rested_signal q q' : active q' = true -> signals q' <> [] -> rested q'.
Proof. intros Ha Hs. split; [|congruence]. intros _ _. left. by left. Qed.

Lemma set_index (i : nat) (ws : list Worker) w w' : ws !! i = Some w -> w' ∈ <[i := w']> ws.
Proof.
  intros E. apply list_elem_of_lookup. exists i. rewrite list_lookup_insert_eq; [done|]. by eapply lookup_lt_Some.
Qed.

Lemma set_keeps (i : nat) (ws : list Worker) w w' x : ws !! i = Some w -> x <> w -> x ∈ ws -> x ∈ <[i := w']> ws.
Proof.
  intros E Hn [j Hj]%list_elem_of_lookup. apply list_elem_of_lookup. exists j.
  rewrite list_lookup_insert_ne; [done|]. intros <-. rewrite E in Hj. by injection Hj as ->.
Qed.

(** A worker that was not attending moves on awake, and the queue is as it was. *)
Lemma rested_set q i w w' : workers q !! i = Some w -> asleep w = false -> asleep w' = false ->
  (w <> Looking /\ w <> Notifying \/ w' = Looking) -> rested q -> rested (with_workers q (<[i := w']> (workers q))).
Proof.
  intros E Hw Hw' Hor [R1 R2]. split; cbn [with_workers jobs urgent_jobs active workers signals]; intros Ha Hs;
    apply sleeper_set in Hs; [|done| |done]; [|by apply R2].
  destruct Hor as [[Hn1 Hn2]| ->].
  - destruct (R1 Ha Hs) as [[?|[Hl|Hl]]|[Hu Hc]].
    + left. by left.
    + left. right. left. cbn. eapply set_keeps; [exact E|congruence|exact Hl].
    + left. right. right. cbn. eapply set_keeps; [exact E|congruence|exact Hl].
    + right. split; [exact Hu|]. cbn. destruct (jobs q); [done|]. destruct Hc as (t & Ht & Hle). exists t. split; [|exact Hle].
      eapply set_keeps; [exact E| |exact Ht]. intros <-. discriminate Hw.
  - left. right. left. cbn. by eapply set_index.
Qed.

(** A worker that took an entry, or put one back, has notified. *)
Lemma rested_notified target (ws : list Worker) q : workers q = notify_one target ws -> active q = true -> rested q.
Proof.
  intros Hq Ha. split; [|congruence]. intros _ Hs. rewrite Hq in Hs. apply sleeper_notify in Hs.
  left. right. left. rewrite Hq. by apply notify_one_reaches.
Qed.

Lemma worker_rested q i target q' : worker ticks i target q = Next q' -> rested q -> rested q'.
Proof.
  intros E R. unfold worker in E. destruct (workers q !! i) as [w|] eqn:Ei; [|done].
  pose proof (fun w' => rested_set q i w w' Ei) as Hset. destruct w as [| |time|e|e|e|e| |].
  - destruct (active q) eqn:Ha.
    + destruct (urgent_jobs q) as [|e urgent] eqn:Eu.
      * destruct (jobs q) as [|e timed] eqn:Ej.
        { injection E as <-. split; cbn [with_workers jobs urgent_jobs active workers]; [|congruence].
          intros _ _. right. split; cbn; [done|]. by rewrite Ej. }
        destruct (_ <? _)%Z; injection E as <-.
        { split; cbn [with_workers jobs urgent_jobs active workers]; [|congruence].
          intros _ _. right. split; cbn; [done|]. rewrite Ej. exists (next_run e). split; [by eapply set_index|lia]. }
        eapply rested_notified; [reflexivity|exact Ha].
      * injection E as <-. eapply rested_notified; [reflexivity|exact Ha].
    + injection E as <-. split; cbn [with_workers active workers signals]; [congruence|]. intros _ Hs.
      apply sleeper_set in Hs; [|done]. by apply (rs_shut _ R).
  - done.
  - destruct (_ <? _)%Z; [done|]. injection E as <-.
    split; cbn [with_workers active workers signals]; intros Ha Hs; apply sleeper_set in Hs; [|done| |done].
    + left. right. left. cbn. by eapply set_index.
    + by apply (rs_shut _ R).
  - destruct (entry_active q e); injection E as <-; [|by apply Hset; auto].
    apply (rested_same (with_workers q (<[i := Inside e]> (workers q)))); try done. by apply Hset; auto.
  - injection E as <-. apply (rested_same (with_workers q (<[i := Checking e]> (workers q)))); try done. by apply Hset; auto.
  - destruct (periodic_state e) as [p|]; [destruct (is_active q p)|]; injection E as <-; by apply Hset; auto.
  - destruct (active q) eqn:Ha; cbn [negb] in E.
    + destruct (deadline ticks (now q) (period e)) as [t|]; [|done]. injection E as <-.
      split; cbn; [|congruence]. intros _ _. left. right. right. by eapply set_index.
    + injection E as <-. apply (rested_same (with_workers q (<[i := Looking]> (workers q))));
        try (unfold deactivate_entry; by destruct (periodic_state e)). by apply Hset; auto.
  - injection E as <-. destruct R as [R1 R2]. split; cbn [with_workers active workers signals]; intros Ha Hs;
      apply sleeper_notify in Hs.
    + left. right. left. cbn. by apply notify_one_reaches.
    + apply sleeper_set in Hs; [|done]. by apply R2.
  - done.
Qed.

Lemma deliver_rested q i target q' : deliver i target q = Next q' -> rested q -> rested q'.
Proof.
  unfold deliver. destruct (signals q !! i) as [s|] eqn:Es; [|done]. intros [= <-] [R1 R2]. destruct s.
  - split; cbn [active workers signals]; intros Ha Hs; apply sleeper_notify in Hs.
    + left. right. left. cbn. by apply notify_one_reaches.
    + specialize (R2 Ha Hs). apply list_elem_of_lookup in R2 as [j Hj]. apply list_elem_of_lookup.
      assert (i <> j) by congruence. destruct (decide (j < i)%nat).
      * exists j. by rewrite list_lookup_delete_lt.
      * exists (pred j). rewrite list_lookup_delete_ge by lia. by replace (S (pred j)) with j by lia.
  - split; cbn [active workers signals]; intros Ha Hs; by apply sleeper_notify_all in Hs.
Qed.

Lemma spurious_rested q i q' : spurious i q = Next q' -> rested q -> rested q'.
Proof.
  unfold spurious. destruct (default false _) eqn:Es; [|done]. intros [= <-] [R1 R2].
  split; cbn [with_workers active workers signals]; intros Ha Hs; apply sleeper_wake in Hs; [|by apply R2].
  left. right. left. cbn. by apply wake_looking.
Qed.

Lemma cancel_same h q : jobs (cancel h q) = jobs q /\ urgent_jobs (cancel h q) = urgent_jobs q /\
  active (cancel h q) = active q /\ workers (cancel h q) = workers q /\ signals (cancel h q) = signals q.
Proof. unfold cancel. by destruct (handles q !! h). Qed.

Lemma choose_rested q c q' : choose ticks q c = Next q' -> rested q -> rested q'.
Proof.
  intros E R. destruct c as [d|delay j|per j h|j|h|a b| |i target|i target|i]; cbn [choose] in E.
  - destruct (d <? 0)%Z; [done|]. injection E as <-. by apply (rested_same q).
  - unfold add_delayed_job in E. destruct j as [j|]; [|by injection E as <-].
    destruct (_ <? _)%Z; [by injection E as <-|]. destruct (active q) eqn:Ha; cbn [negb] in E; [|by injection E as <-].
    destruct (deadline ticks (now q) delay) as [time|]; [|done]. injection E as <-. apply (rested_signal q); [exact Ha|].
    cbn. by destruct (signals q).
  - unfold add_periodic_job in E. destruct j as [j|]; [|by injection E as <-].
    destruct (_ =? _)%Z; [by injection E as <-|]. destruct (_ <? _)%Z; [by injection E as <-|].
    destruct (active q) eqn:Ha; cbn [negb] in E; [|by injection E as <-].
    destruct (deadline ticks (now q) per) as [time|]; [|done]. injection E as <-.
    apply (rested_signal q); cbn [signal active signals]; [|by destruct (signals _)].
    unfold adopt. cbn [with_states active]. destruct (cancel_same h (push_timed time per j (Some (length (states q)))
      (with_states q (states q ++ [true]) (handles q)))) as (_ & _ & -> & _). exact Ha.
  - injection E as <-. unfold add_urgent_job. destruct j; [|done]. destruct (active q) eqn:Ha; cbn [negb]; [|done].
    apply (rested_signal q); [exact Ha|]. cbn. by destruct (signals q).
  - injection E as <-. destruct (cancel_same h q) as (H1 & H2 & H3 & H4 & H5). by apply (rested_same q).
  - injection E as <-. unfold move_handle. destruct (a =? b)%nat; [done|].
    destruct (cancel_same a q) as (H1 & H2 & H3 & H4 & H5). destruct (handles _ !! b); by apply (rested_same q).
  - injection E as <-. unfold shutdown. destruct (active q) eqn:Ha; cbn [negb]; [|done].
    split; cbn [record_event active signals]; [done|]. intros _ _. apply elem_of_app. right. by left.
  - by eapply worker_rested.
  - by eapply deliver_rested.
  - by eapply spurious_rested.
Qed.

Lemma play_rested choices : forall q q', play ticks q choices = Next q' -> rested q -> rested q'.
Proof.
  induction choices as [|c choices IH]; intros q q' E R; cbn [play] in E; [by injection E as <-|].
  destruct (choose ticks q c) as [| |q1] eqn:Ec; [done|done|]. eapply IH; [done|]. by eapply choose_rested.
Qed.

Lemma initial_rested n time : rested (new_queue n time).
Proof.
  split; cbn; [|done]. intros _ (w & Hin & Hw). apply elem_of_replicate in Hin as [-> _]. done.
Qed.

(** A worker that will do nothing at time [t] until it is notified, its job ends
    or its deadline comes. *)
Definition unattending (t : Z) (w : Worker) : Prop :=
  match w with Looking | Notifying => False | WaitingUntil time => (t < time)%Z | _ => True end.

Lemma rested_idle q : rested q -> active q = true -> StronglySorted served_before (jobs q) -> signals q = [] ->
  sleeper (workers q) -> (forall w, w ∈ workers q -> unattending (now q) w) ->
  urgent_jobs q = [] /\ forall e, e ∈ jobs q -> (now q < next_run e)%Z.
Proof.
  intros [R1 _] Ha Hsort Hsig Hs Hw. destruct (R1 Ha Hs) as [[?|[Hl|Hl]]|[Hu Hc]]; [done|by apply Hw in Hl|by apply Hw in Hl|].
  split; [exact Hu|]. intros e He. destruct (jobs q) as [|e0 timed]; [by apply elem_of_nil in He|].
  destruct Hc as (t & Ht & Hle). specialize (Hw _ Ht). cbn in Hw.
  apply elem_of_cons in He as [->|He]; [lia|]. inversion Hsort as [|? ? _ Hf]; subst.
  rewrite Forall_forall in Hf. specialize (Hf e He). unfold served_before, before in Hf.
  destruct (next_run e0 =? next_run e)%Z eqn:En; [apply Z.eqb_eq in En; lia|]. apply Z.ltb_lt in Hf. lia.
Qed.
End Rest.

(** ** The pool drains *)

Definition worker_weight (w : Worker) : nat :=
  match w with
  | Holding _ => 5 | Inside _ => 4 | Checking _ => 3 | Rescheduling _ | Notifying | Waiting | WaitingUntil _ => 2
  | Looking => 1 | Returned => 0
  end.

Definition pool_weight (q : JobQueue) : nat := sum_list_with worker_weight (workers q) + length (signals q).

Definition is_work (c : Choice) : bool := match c with Work _ _ | Deliver _ _ | Spurious _ => true | _ => false end.

Lemma weight_set i w w' ws : ws !! i = Some w ->
  (sum_list_with worker_weight (<[i := w']> ws) + worker_weight w = sum_list_with worker_weight ws + worker_weight w')%nat.
Proof.
  intros E. rewrite <- (take_drop_middle _ _ _ E) at 2. rewrite insert_take_drop by (by eapply lookup_lt_Some).
  rewrite !sum_list_with_app. cbn. lia.
Qed.

Lemma weight_wake (i : nat) (ws : list Worker) :
  (sum_list_with worker_weight (alter wake i ws) <= sum_list_with worker_weight ws)%nat.
Proof.
  revert i. induction ws as [|w ws IH]; intros [|i]; try done.
  - change (worker_weight (wake w) + sum_list_with worker_weight ws <= worker_weight w + sum_list_with worker_weight ws)%nat.
    destruct w; cbn; lia.
  - change (worker_weight w + sum_list_with worker_weight (alter wake i ws) <=
      worker_weight w + sum_list_with worker_weight ws)%nat. specialize (IH i). lia.
Qed.

Lemma weight_notify target (ws : list Worker) :
  (sum_list_with worker_weight (notify_one target ws) <= sum_list_with worker_weight ws)%nat.
Proof. destruct (notify_one_alter target ws) as [->|[i ->]]; [done|]. apply weight_wake. Qed.

Lemma weight_notify_all (ws : list Worker) :
  (sum_list_with worker_weight (notify_all ws) <= sum_list_with worker_weight ws)%nat.
Proof. induction ws as [|w ws IH]; cbn; [done|]. fold (notify_all ws). destruct w; cbn; lia. Qed.

Lemma worker_closed ticks i target q q' : active q = false -> worker ticks i target q = Next q' ->
  active q' = false /\ (pool_weight q' < pool_weight q)%nat.
Proof.
  intros Ha E. unfold worker in E. destruct (workers q !! i) as [w|] eqn:Ei; [|done]. rewrite Ha in E.
  pose proof (fun w' => weight_set i w w' (workers q) Ei) as W. unfold pool_weight.
  assert (Hd : forall e, active (deactivate_entry q e) = active q /\ workers (deactivate_entry q e) = workers q /\
    signals (deactivate_entry q e) = signals q)
    by (intros e; unfold deactivate_entry; by destruct (periodic_state e)).
  destruct w as [| |time|e|e|e|e| |]; cbn [negb] in E; try done;
    repeat match type of E with context [match ?x with _ => _ end] => destruct x end; try done; injection E as <-;
    cbn [record_event with_workers workers active signals]; (split; [try apply (Hd _); try done; by rewrite (proj1 (Hd _))|]);
    match goal with |- context [<[i := ?w']> _] => specialize (W w') end; cbn [worker_weight] in W;
    try (rewrite (proj2 (proj2 (Hd _)))); try (rewrite (proj1 (proj2 (Hd _)))); try lia.
  pose proof (weight_notify target (<[i := Looking]> (workers q))). lia.
Qed.

Lemma work_closed ticks c q q' : active q = false -> is_work c = true -> choose ticks q c = Next q' ->
  active q' = false /\ (pool_weight q' < pool_weight q)%nat.
Proof.
  intros Ha Hc E. destruct c as [| | | | | | |i target|i target|i]; try done; cbn [choose] in E.
  - by eapply worker_closed.
  - unfold deliver in E. destruct (signals q !! i) as [s|] eqn:Es; [|done]. injection E as <-. split; [done|].
    unfold pool_weight. cbn [workers signals]. rewrite length_delete by done. apply lookup_lt_Some in Es.
    pose proof (weight_notify target (workers q)). pose proof (weight_notify_all (workers q)). destruct s; lia.
  - unfold spurious in E. destruct (workers q !! i) as [w|] eqn:Ei; [|done]. cbn in E. destruct (asleep w) eqn:Hw; [|done].
    injection E as <-. split; [done|]. unfold pool_weight. cbn [with_workers workers signals].
    assert (Hal : alter wake i (workers q) = <[i := Looking]> (workers q)).
    { apply list_eq. intros j. destruct (decide (i = j)) as [<-|Hn].
      - rewrite list_lookup_alter_eq, list_lookup_insert_eq, Ei by (by eapply lookup_lt_Some). destruct w; done.
      - by rewrite list_lookup_alter_ne, list_lookup_insert_ne. }
    rewrite Hal. pose proof (weight_set i w Looking (workers q) Ei). destruct w; cbn in *; (done || lia).
Qed.

Lemma work_bounded ticks choices : forall q q', active q = false -> Forall (fun c => is_work c = true) choices ->
  play ticks q choices = Next q' -> (length choices + pool_weight q' <= pool_weight q)%nat.
Proof.
  induction choices as [|c choices IH]; intros q q' Ha Hf E; cbn [play] in E; [injection E as <-; cbn; lia|].
  apply Forall_cons in Hf as [Hc Hf]. destruct (choose ticks q c) as [| |q1] eqn:Ew; [done|done|].
  destruct (work_closed _ _ _ _ Ha Hc Ew) as (Ha1 & Hw). specialize (IH q1 q' Ha1 Hf E). cbn [length]. lia.
Qed.

Lemma weight_bound ws : (sum_list_with worker_weight ws <= 5 * length ws)%nat.
Proof. induction ws as [|w ws IH]; cbn; [lia|]. destruct w; cbn; lia. Qed.

(** Where no worker can move, every one sleeps or has returned. *)
Lemma blocked_workers ticks q : (forall i target, worker ticks i target q = Blocked) ->
  forall w, w ∈ workers q -> (asleep w = true /\ unattending (now q) w) \/ w = Returned.
Proof.
  intros Hb w Hin. apply list_elem_of_lookup in Hin as [i Ei]. specialize (Hb i 0%nat). unfold worker in Hb. rewrite Ei in Hb.
  destruct w as [| |time|e|e|e|e| |]; [|by left| |..|by right]; try done.
  - destruct (active q); [|done]. destruct (urgent_jobs q); [|done]. destruct (jobs q) as [|e timed]; [done|]. by destruct (_ <? _)%Z.
  - left. split; [done|]. destruct (now q <? time)%Z eqn:E; [by apply Z.ltb_lt|done].
  - by destruct (entry_active q e).
  - destruct (periodic_state e) as [p|]; [|done]. by destruct (is_active q p).
  - destruct (negb (active q)); [done|]. by destruct (deadline ticks (now q) (period e)).
Qed.

Lemma length_notify target (ws : list Worker) : length (notify_one target ws) = length ws.
Proof. destruct (notify_one_alter target ws) as [->|[i ->]]; [done|]. apply length_alter. Qed.

Lemma play_keeps_workers ticks choices : forall q q', play ticks q choices = Next q' -> length (workers q') = length (workers q).
Proof.
  assert (Hd : forall es q, workers (fold_left deactivate_entry es q) = workers q).
  { intros es q. by destruct (deactivate_fold es q) as (_ & _ & _ & ? & _). }
  assert (Hde : forall e q, workers (deactivate_entry q e) = workers q)
    by (intros e q; unfold deactivate_entry; by destruct (periodic_state e)).
  assert (Hc : forall h q, workers (cancel h q) = workers q) by (intros h q; unfold cancel; by destruct (handles q !! h)).
  induction choices as [|c choices IH]; intros q q' E; cbn [play] in E; [by injection E as <-|].
  destruct (choose ticks q c) as [| |q1] eqn:Ec; [done|done|]. rewrite (IH q1 q' E). clear IH E.
  destruct c as [d|delay j|per j h|j|h|a b| |i target|i target|i]; cbn [choose] in Ec.
  - destruct (d <? 0)%Z; by simplify_eq.
  - unfold add_delayed_job in Ec. repeat case_match; cbn [forget] in Ec; simplify_eq; done.
  - unfold add_periodic_job in Ec. repeat case_match; cbn [forget] in Ec; simplify_eq; try done. unfold adopt. cbn. by rewrite Hc.
  - injection Ec as <-. unfold add_urgent_job. repeat case_match; done.
  - injection Ec as <-. by rewrite Hc.
  - injection Ec as <-. unfold move_handle. destruct (a =? b)%nat; [done|]. destruct (handles _ !! b); cbn; by rewrite Hc.
  - injection Ec as <-. unfold shutdown. destruct (negb (active q)); [done|]. cbn. by rewrite Hd.
  - unfold worker in Ec. repeat case_match; simplify_eq; cbn; by rewrite ?Hde, ?length_notify, ?length_insert.
  - unfold deliver in Ec. repeat case_match; simplify_eq; cbn; [by rewrite length_notify|by apply length_map].
  - unfold spurious in Ec. repeat case_match; simplify_eq. cbn. apply length_alter.
Qed.

(** *** What was taken was submitted once *)
Lemma taken_once k ticks q : queue_inv ticks k q -> NoDup (began (log q)).
Proof.
  intros I. eapply nodup_sub; [|apply (NoDup_fmap_1 sequence), (qi_distinct _ _ _ I)].
  etransitivity; [eapply submseteq_inserts_r, (reflexivity _)|]. etransitivity; [apply (qi_began _ _ _ I)|].
  rewrite (qi_urgent _ _ _ I), (qi_timed _ _ _ I). apply submseteq_app; by apply submseteq_inserts_r.
Qed.

(** ** Properties *)

(** C11. Immediate jobs are taken in the order of their submission, and each is
    taken, waiting or discarded by a shutdown. A timed job is taken when it is
    due, only when no immediate job waits, and never while a waiting one has an
    earlier deadline, or the same deadline and an earlier submission. No entry
    is executed twice. *)
Theorem queue_serves_in_order ticks worker_count time choices q :
  (Z.of_nat (length choices) < 2 ^ 64)%Z -> play ticks (new_queue worker_count time) choices = Next q ->
  urgent_submitted (log q) = urgent_taken (log q) ++ urgent_jobs q ++ urgent_discarded (log q) /\
  timed_submitted (log q) ≡ₚ timed_taken (log q) ++ jobs q ++ timed_discarded (log q) /\
  (forall l1 t e l2, log q = l1 ++ (t, TakenTimed e) :: l2 ->
     (next_run e <= t)%Z /\ urgent_submitted l1 = urgent_taken l1 /\
     forall e', e' ∈ timed_submitted l1 -> e' ∈ timed_taken l1 \/ e' = e \/ served_before e e') /\
  (forall l1 e l2 e' l3, timed_submitted (log q) = l1 ++ e :: l2 ++ e' :: l3 ->
     (next_run e <= next_run e')%Z -> served_before e e') /\
  NoDup (began (log q)) /\ began (log q) ⊆+ urgent_taken (log q) ++ timed_taken (log q).
Proof.
  intros Hk Hp. pose proof (queue_play_inv ticks choices 0 _ _ ltac:(lia) Hp (initial_inv ticks worker_count time)) as I.
  split_and!; [apply I|apply I|..].
  - intros l1 t e l2 E. by destruct (qi_lawful _ _ _ I l1 _ l2 E) as (_ & ? & ? & ?).
  - intros l1 e l2 e' l3 E Hle. pose proof (qi_increasing _ _ _ I) as Hs. rewrite E, !map_app in Hs. cbn in Hs.
    rewrite map_app in Hs. cbn in Hs. apply sorted_suffix in Hs.
    inversion Hs as [|? ? _ Hf]; subst. apply Forall_app in Hf as [_ Hf]. apply Forall_cons in Hf as [Hf _].
    unfold served_before, before. destruct (next_run e =? next_run e')%Z eqn:En; rewrite Z.ltb_lt; [done|].
    apply Z.eqb_neq in En. lia.
  - by eapply taken_once.
  - etransitivity; [|apply (qi_began _ _ _ I)]. by apply submseteq_inserts_r.
Qed.

(** A periodic job never overlaps itself: its entry is in at most one place.
    It begins only while it is not cancelled, after every earlier invocation
    has ended, and a full period after its submission and after the end of
    every earlier invocation. As long as it is active it stays scheduled. *)
Theorem periodic_jobs_spaced ticks worker_count time choices q :
  (Z.of_nat (length choices) < 2 ^ 64)%Z -> play ticks (new_queue worker_count time) choices = Next q ->
  NoDup (timed_states (jobs q ++ flat_map held (workers q))) /\
  (forall p, is_active q p = true -> p ∈ timed_states (jobs q ++ flat_map held (workers q))) /\
  forall l1 t e l2 p, log q = l1 ++ (t, Began e) :: l2 -> periodic_state e = Some p ->
    (forall t', (t', Cancelled p) ∉ l1) /\
    count_occ Nat.eq_dec (timed_states (began l1)) p = count_occ Nat.eq_dec (timed_states (ended l1)) p /\
    (forall t' e', (t', SubmittedTimed e') ∈ l1 \/ (t', Ended e') ∈ l1 -> periodic_state e' = Some p ->
       (t' + period e * ticks <= t)%Z).
Proof.
  intros Hk Hp. pose proof (queue_play_inv ticks choices 0 _ _ ltac:(lia) Hp (initial_inv ticks worker_count time)) as I.
  split; [apply I|]. split; [apply (play_alive ticks choices _ _ Hp), initial_alive|].
  intros l1 t e l2 p E Hpe. destruct (qi_lawful _ _ _ I l1 _ l2 E p Hpe) as (H1 & H2 & H3). split_and!; [|done|].
  - intros t' Hin. apply H1. apply list_elem_of_omap. by exists (t', Cancelled p).
  - intros t' e' Hin Hpe'. apply H3. apply list_elem_of_omap. destruct Hin as [Hin|Hin]; eexists; (split; [exact Hin|]);
      cbn; by rewrite decide_True.
Qed.

(** C12. While the queue is active, no worker sleeps over work: if some worker
    sleeps, no notification is on its way, no worker is about to look or to
    notify and no deadline of a sleeper has come, then no immediate job waits
    and no timed job is due, even if all other workers are inside long jobs. In
    particular this holds where no worker can move. After a shutdown both queues
    are empty for good; the workers, the notifications on their way and spurious
    wake-ups take at most five steps per worker and one per notification; where
    none of them can move, every thread can be joined, exactly the jobs that
    began have ended and every periodic job is inactive. *)
Theorem queue_drains ticks worker_count time choices q :
  (Z.of_nat (length choices) < 2 ^ 64)%Z -> (0 <= worker_count)%Z ->
  play ticks (new_queue worker_count time) choices = Next q ->
  (active q = true -> signals q = [] ->
   ((exists w, w ∈ workers q /\ asleep w = true) -> (forall w, w ∈ workers q -> unattending (now q) w) ->
    urgent_jobs q = [] /\ forall e, e ∈ jobs q -> (now q < next_run e)%Z) /\
   ((forall i target, worker ticks i target q = Blocked) ->
    urgent_jobs q = [] /\ forall e, e ∈ jobs q -> (now q < next_run e)%Z)) /\
  (active q = false ->
   jobs q = [] /\ urgent_jobs q = [] /\ (forall i target, worker ticks i target q <> Undefined) /\
   (forall more q', Forall (fun c => is_work c = true) more -> play ticks q more = Next q' ->
      (length more <= 5 * JobQueue.worker_count q + length (signals q))%nat) /\
   (signals q = [] -> (forall i target, worker ticks i target q = Blocked) ->
      joinable q = true /\ began (log q) ≡ₚ ended (log q) /\ forall h, handle_active h q = false)).
Proof.
  intros Hk Hn Hp. pose proof (queue_play_inv ticks choices 0 _ _ ltac:(lia) Hp (initial_inv ticks worker_count time)) as I.
  pose proof (play_alive ticks choices _ _ Hp (initial_alive _ _)) as A.
  pose proof (play_rested ticks choices _ _ Hp (initial_rested _ _)) as R. split.
  - intros Ha Hsig. pose proof (rested_idle q R Ha (qi_sorted _ _ _ I) Hsig) as Hidle. split; [exact Hidle|].
    intros Hb. pose proof (blocked_workers ticks q Hb) as Hw. pose proof (al_workers _ A Ha) as Hret. apply Hidle.
    + pose proof (play_keeps_workers ticks choices _ _ Hp) as Hl. cbn in Hl. rewrite length_replicate in Hl.
      destruct (workers q) as [|w ws]; [cbn in Hl; destruct (worker_count =? 0)%Z eqn:E0; [done|apply Z.eqb_neq in E0; lia]|].
      exists w. split; [by left|]. destruct (Hw w) as [[? _]| ->]; [by left|done|]. destruct Hret. by left.
    + intros w Hin. by destruct (Hw w Hin) as [[_ ?]| ->].
  - intros Ha. destruct (qi_empty _ _ _ I Ha) as [Hj Hu]. split; [done|]. split; [done|]. split; [|split].
    + intros i target. unfold worker. destruct (workers q !! i) as [w|]; [|done]. rewrite Ha.
      destruct w as [| |t|e|e|e|e| |]; try done; [by destruct (_ <? _)%Z|by destruct (entry_active q e)|].
      destruct (periodic_state e) as [p|]; [by destruct (is_active q p)|done].
    + intros more q' Hf Hm. pose proof (work_bounded ticks more q q' Ha Hf Hm) as Hx. unfold JobQueue.worker_count, pool_weight in *.
      pose proof (weight_bound (workers q)). lia.
    + intros Hsig Hb. assert (Hr : forall w, w ∈ workers q -> w = Returned).
      { intros w Hw. destruct (blocked_workers ticks q Hb w Hw) as [[Hs _]|?]; [|done].
        assert (Hin : NotifyAll ∈ signals q) by (apply (rs_shut _ R Ha); by exists w).
        rewrite Hsig in Hin. by apply elem_of_nil in Hin. }
      assert (Hnone : forall f : Worker -> list JobEntry, f Returned = [] -> flat_map f (workers q) = []).
      { intros f Hf. revert Hr. generalize (workers q). induction l as [|w ws IH]; intros Hr; cbn; [done|].
        rewrite (Hr w) by (by left). rewrite Hf. apply IH. intros w' Hw'. apply Hr. by right. }
      split; [|split].
      * unfold joinable. apply forallb_forall. intros w Hw. rewrite (Hr w); [done|]. by apply list_elem_of_In.
      * rewrite (qi_running _ _ _ I), (Hnone inside) by done. by rewrite app_nil_r.
      * intros h. unfold handle_active. destruct (handles q !! h) as [p|]; [|done].
        destruct (is_active q p) eqn:Hact; [|done]. pose proof (al_states _ A p Hact) as Hin.
        rewrite Hj, (Hnone held) in Hin by done. by apply elem_of_nil in Hin.
Qed.

(** A delay is refused as out of range exactly when it does not fit a count of
    milliseconds; the addition of every other delay that does not fit the clock
    is undefined, and the rest get the exact deadline. *)
Theorem delay_range ticks q delay j :
  (1 <= ticks)%Z -> active q = true -> (0 <= now q < 2 ^ 63)%Z -> is_u64 delay ->
  (add_delayed_job ticks delay (Some j) q = Next (DELAY_OUT_OF_RANGE, q) <-> (2 ^ 63 <= delay)%Z) /\
  (add_delayed_job ticks delay (Some j) q = Undefined <->
   (delay < 2 ^ 63 /\ 2 ^ 63 <= now q + delay * ticks)%Z) /\
  ((now q + delay * ticks < 2 ^ 63)%Z ->
   add_delayed_job ticks delay (Some j) q = Next (OK, signal NotifyOne (push_timed (now q + delay * ticks) 0 j None q))).
Proof.
  intros Ht Ha Hn [Hd0 Hd]. unfold add_delayed_job, milliseconds_max, deadline, clock_range. rewrite Ha. cbn [negb].
  destruct (2 ^ 63 - 1 <? delay)%Z eqn:E; [apply Z.ltb_lt in E|apply Z.ltb_ge in E].
  - split_and!; [split; [intros _; lia|done]|split; [done|lia]|]. intros Hx. nia.
  - rewrite (proj2 (Z.leb_le (- 2 ^ 63) (delay * ticks))), (proj2 (Z.leb_le (- 2 ^ 63) (now q + delay * ticks))) by nia.
    cbn [andb]. destruct (now q + delay * ticks <? 2 ^ 63)%Z eqn:E2; [apply Z.ltb_lt in E2|apply Z.ltb_ge in E2].
    + rewrite (proj2 (Z.ltb_lt (delay * ticks) (2 ^ 63))) by lia. cbn [andb].
      split_and!; [split; [done|lia]|split; [done|lia]|done].
    + rewrite andb_false_r. split_and!; [split; [done|lia]|split; [lia|done]|lia].
Qed.

(** ** Witnesses *)

Definition kTicks : Z := 1000000.

(** Two workers, two immediate jobs, two delayed jobs with one deadline and a
    periodic job that runs twice. Worker 0 wakes at the deadline and its
    notification wakes worker 1 for the second delayed job. *)
Definition sample_calls : list Choice :=
  [AddUrgent (Some 1); AddUrgent (Some 2); AddUrgent None; AddDelayed 5 (Some 3); AddDelayed 5 (Some 4);
   AddPeriodic 10 (Some 5) 0; AddPeriodic 0 (Some 6) 1; Work 0 0; Work 1 0; Work 1 0; Work 0 0; Work 0 0; Work 0 0;
   Work 1 0; Work 1 0; Deliver 0 0; Deliver 1 0; Deliver 0 1; Work 0 0; Work 1 0; Deliver 0 1; Work 1 0; Spurious 0;
   Work 0 0; Deliver 0 0; Work 0 0;
   Elapse 6000000; Work 0 0; Work 0 1; Work 1 0; Work 0 0; Work 1 0; Work 0 0; Work 1 0; Work 0 0; Work 1 0;
   Work 0 0; Work 1 0; Elapse 5000000; Work 1 0; Work 1 0; Work 0 0; Work 1 0; Elapse 1000000; Work 1 0; Work 1 0;
   Work 1 0; Work 1 0; Work 0 0; Work 1 0; Elapse 10000000; Work 0 0; Work 0 1; Work 1 0; Work 0 0; Work 0 0; Work 0 0;
   Work 0 0; Work 0 1; Work 0 0; Work 1 0].

Definition sample_queue : JobQueue :=
  match play kTicks (new_queue 2 0) sample_calls with Next q => q | _ => new_queue 2 0 end.

(** Worker 1 sleeps and worker 0 is inside the job when the queue is shut down. *)
Definition sample_stop : list Choice :=
  [Elapse 10000000; Work 0 0; Work 0 1; Work 1 0; Work 0 0; Shutdown; AddUrgent (Some 7); Work 0 0; Work 0 0; Work 0 0;
   Work 0 0; Deliver 0 0; Work 1 0].
Definition stopped_queue : JobQueue :=
  match play kTicks (new_queue 2 0) (sample_calls ++ sample_stop) with Next q => q | _ => new_queue 2 0 end.

Example sample_queue_order :
  map job (urgent_taken (log sample_queue)) = [1; 2] /\ map job (timed_taken (log sample_queue)) = [3; 4; 5; 5].
Proof. vm_compute. split; reflexivity. Qed.

Lemma sample_queue_play : play kTicks (new_queue 2 0) sample_calls = Next sample_queue.
Proof. vm_compute. reflexivity. Qed.

Lemma stopped_queue_play : play kTicks (new_queue 2 0) (sample_calls ++ sample_stop) = Next stopped_queue.
Proof. vm_compute. reflexivity. Qed.

Lemma queue_serves_in_order_witness : NoDup (began (log sample_queue)).
Proof.
  refine (proj1 (proj2 (proj2 (proj2 (proj2 (queue_serves_in_order kTicks 2 0 sample_calls sample_queue _ sample_queue_play)))))).
  vm_compute. reflexivity.
Defined.

Lemma periodic_jobs_spaced_witness : NoDup (timed_states (jobs sample_queue ++ flat_map held (workers sample_queue))).
Proof.
  refine (proj1 (periodic_jobs_spaced kTicks 2 0 sample_calls sample_queue _ sample_queue_play)). vm_compute. reflexivity.
Defined.

Lemma queue_drains_witness :
  (map asleep (workers sample_queue) = [true; true] /\ urgent_jobs sample_queue = []) /\
  joinable stopped_queue = true /\ handle_active 0 stopped_queue = false.
Proof.
  split; [split; [vm_compute; reflexivity|]|].
  - refine (proj1 (proj2 (proj1 (queue_drains kTicks 2 0 sample_calls sample_queue _ _ sample_queue_play) _ _) _));
      [vm_compute; reflexivity|lia|vm_compute; reflexivity|vm_compute; reflexivity|].
    intros [|[|[|i]]] target; vm_compute; reflexivity.
  - destruct (queue_drains kTicks 2 0 (sample_calls ++ sample_stop) stopped_queue) as [_ D];
      [vm_compute; reflexivity|lia|exact stopped_queue_play|].
    destruct D as (_ & _ & _ & _ & D); [vm_compute; reflexivity|].
    destruct D as (D1 & _ & D2); [vm_compute; reflexivity|intros [|[|[|i]]] target; vm_compute; reflexivity|].
    split; [exact D1|exact (D2 0%nat)].
Defined.

(** Some three hundred years from now is accepted and cannot be added to the
    clock. *)
Lemma delay_range_witness : add_delayed_job kTicks (2 ^ 62) (Some 1) (new_queue 2 0) = Undefined.
Proof.
  refine (proj2 (proj1 (proj2 (delay_range kTicks (new_queue 2 0) (2 ^ 62) 1 _ _ _ _))) _).
  - vm_compute. discriminate.
  - reflexivity.
  - split; [vm_compute; discriminate|vm_compute; reflexivity].
  - split; [vm_compute; discriminate|vm_compute; reflexivity].
  - split; [vm_compute; reflexivity|vm_compute; discriminate].
Defined.
