(* ===== verification/AppState.v ===== *)
(** * Application lifecycle (state/state.cpp, state.hpp, lifecycle.hpp)

    The subsystem registry and the lifecycle operations of [AppState] over the
    dependency graph. The virtual hooks of a subsystem are an interface whose
    implementation is arbitrary: each hook sees the whole state and returns any
    status. The ghost field [trace] records the hook calls made. The lifecycle
    mutex makes every public call one atomic step; hooks may re-enter, which
    [transitional_calls_rejected] shows to have no effect. *)
From S2P Require Import Prelude.
From S2P Require Import DependencyGraph.
From stdpp Require Import sorting fin_sets.

(** The enumerators, and the other values the underlying integer can hold. *)
Inductive OperatingMode :=
| TUI
| TEST
| OTHER_MODE (value : Z).

Inductive LifecycleState :=
| UNINITIALIZED
| INITIALIZING
| INITIALIZED
| STARTING
| RUNNING
| STOPPING
| STOPPED
| TERMINATING
| TERMINATED
| CRASHED.

Inductive Status :=
| OK
| INVALID_ARGUMENT
| DUPLICATE_SUBSYSTEM
| DUPLICATE_SUBSYSTEM_NAME
| SUBSYSTEM_NOT_FOUND
| MISSING_DEPENDENCY
| DUPLICATE_DEPENDENCY
| DEPENDENCY_CYCLE
| REGISTRATION_FROZEN
| INVALID_LIFECYCLE_TRANSITION
| SUBSYSTEM_FAILURE
| INTERNAL_ERROR.

#[global] Instance LifecycleState_eq_dec : EqDecision LifecycleState.
Proof. solve_decision. Defined.
#[global] Instance app_Status_eq_dec : EqDecision Status.
Proof. solve_decision. Defined.

Definition is_ok (status : Status) : bool := bool_decide (status = OK).

Definition valid_operating_mode (mode : OperatingMode) : bool :=
  match mode with
  | TUI | TEST => true
  | OTHER_MODE _ => false
  end.

Definition topology_status (status : DependencyGraph.Status) : Status :=
  match status with
  | DependencyGraph.OK => OK
  | DependencyGraph.DUPLICATE_NODE => DUPLICATE_SUBSYSTEM
  | DependencyGraph.NODE_NOT_FOUND => MISSING_DEPENDENCY
  | DependencyGraph.DUPLICATE_DEPENDENCY => DUPLICATE_DEPENDENCY
  | DependencyGraph.DEPENDENCY_CYCLE => DEPENDENCY_CYCLE
  | DependencyGraph.INVALID_ARGUMENT
  | DependencyGraph.EXECUTION_IN_PROGRESS
  | DependencyGraph.WORKER_SUBMISSION_FAILED => INTERNAL_ERROR
  end.

(** The first failure, once [candidate] is reported. *)
Definition record_failure (candidate first_failure : Status) : Status :=
  if is_ok first_failure && negb (is_ok candidate) then candidate else first_failure.

(** The virtual hooks, and how a throwing hook ends. *)
Inductive Hook := ON_INITIALIZE | ON_START | ON_STOP | ON_TERMINATE.

Inductive Outcome :=
| Returned (status : Status)
| Threw.

#[global] Instance Hook_eq_dec : EqDecision Hook.
Proof. solve_decision. Defined.

(** The [try]/[catch] around the hooks that may throw. *)
Definition caught (outcome : Outcome) : Status :=
  match outcome with
  | Returned status => status
  | Threw => SUBSYSTEM_FAILURE
  end.

Section App.
Context {SubsystemId : Type} `{Countable SubsystemId}.

Record AppSubsystem := {
name : string;
dependencies : list SubsystemId;
}.

Record Entry := {
subsystem : AppSubsystem;
initialized : bool;
started : bool;
}.

Record HookCall := {
call_hook : Hook;
call_id : SubsystemId;
call_status : Status;
}.

Record AppState := {
subsystems : gmap SubsystemId Entry;
subsystem_names : gmap string SubsystemId;
registration_order : list SubsystemId;
topology : option (DependencyGraph SubsystemId);
app_forward_layers : list (list SubsystemId);
app_reverse_layers : list (list SubsystemId);
state : LifecycleState;
mode : OperatingMode;
frozen : bool;
trace : list HookCall;
}.

(** The virtual interface of [AppSubsystem]. [stop] and [terminate] are
  [noexcept]. *)
Class SubsystemHooks := {
on_initialize : AppState -> SubsystemId -> Outcome;
on_start : AppState -> SubsystemId -> Outcome;
on_stop : AppState -> SubsystemId -> Status;
on_terminate : AppState -> SubsystemId -> Status;
}.

Definition new_app : AppState :=
{| subsystems := ∅; subsystem_names := ∅; registration_order := []; topology := None;
   app_forward_layers := []; app_reverse_layers := []; state := UNINITIALIZED; mode := TUI;
   frozen := false; trace := [] |}.

(** Field assignments. *)
Definition with_state (s : LifecycleState) (app : AppState) : AppState :=
{| subsystems := subsystems app; subsystem_names := subsystem_names app;
   registration_order := registration_order app; topology := topology app;
   app_forward_layers := app_forward_layers app; app_reverse_layers := app_reverse_layers app;
   state := s; mode := mode app; frozen := frozen app; trace := trace app |}.

Definition with_mode (m : OperatingMode) (app : AppState) : AppState :=
{| subsystems := subsystems app; subsystem_names := subsystem_names app;
   registration_order := registration_order app; topology := topology app;
   app_forward_layers := app_forward_layers app; app_reverse_layers := app_reverse_layers app;
   state := state app; mode := m; frozen := frozen app; trace := trace app |}.

Definition freeze (app : AppState) : AppState :=
{| subsystems := subsystems app; subsystem_names := subsystem_names app;
   registration_order := registration_order app; topology := topology app;
   app_forward_layers := app_forward_layers app; app_reverse_layers := app_reverse_layers app;
   state := state app; mode := mode app; frozen := true; trace := trace app |}.

Definition with_layers (g : DependencyGraph SubsystemId) (forward reverse : list (list SubsystemId))
  (app : AppState) : AppState :=
{| subsystems := subsystems app; subsystem_names := subsystem_names app;
   registration_order := registration_order app; topology := Some g;
   app_forward_layers := forward; app_reverse_layers := reverse;
   state := state app; mode := mode app; frozen := frozen app; trace := trace app |}.

Definition with_entries (entries : gmap SubsystemId Entry) (calls : list HookCall)
  (app : AppState) : AppState :=
{| subsystems := entries; subsystem_names := subsystem_names app;
   registration_order := registration_order app; topology := topology app;
   app_forward_layers := app_forward_layers app; app_reverse_layers := app_reverse_layers app;
   state := state app; mode := mode app; frozen := frozen app; trace := calls |}.

Definition register_subsystem_erased (id : SubsystemId) (subsystem : option AppSubsystem)
  (app : AppState) : Status * AppState :=
match subsystem with
| None => (INVALID_ARGUMENT, app)
| Some sub =>
    if String.eqb (name sub) "" then (INVALID_ARGUMENT, app)
    else if frozen app then (REGISTRATION_FROZEN, app)
    else if bool_decide (is_Some (subsystems app !! id)) then (DUPLICATE_SUBSYSTEM, app)
    else if bool_decide (is_Some (subsystem_names app !! name sub))
    then (DUPLICATE_SUBSYSTEM_NAME, app)
    else
      (OK, {| subsystems :=
                <[id := {| subsystem := sub; initialized := false; started := false |}]>
                  (subsystems app);
              subsystem_names := <[name sub := id]> (subsystem_names app);
              registration_order := registration_order app ++ [id];
              topology := topology app; app_forward_layers := app_forward_layers app;
              app_reverse_layers := app_reverse_layers app; state := state app;
              mode := mode app; frozen := frozen app; trace := trace app |})
end.

Definition find_subsystem (id : SubsystemId) (app : AppState) : option AppSubsystem :=
subsystem <$> subsystems app !! id.

(** [registration_frozen()] *)
Definition registration_frozen (app : AppState) : bool := frozen app.

Definition app_size (app : AppState) : nat := size (subsystems app).

(** [find_entry] *)
Definition find_entry (id : SubsystemId) (app : AppState) : option Entry := subsystems app !! id.

(** The flag assignments that follow a successful hook. *)
Definition completed (h : Hook) (e : Entry) : Entry :=
match h with
| ON_INITIALIZE => {| subsystem := subsystem e; initialized := true; started := started e |}
| ON_START => {| subsystem := subsystem e; initialized := initialized e; started := true |}
| ON_STOP => {| subsystem := subsystem e; initialized := initialized e; started := false |}
| ON_TERMINATE => {| subsystem := subsystem e; initialized := false; started := false |}
end.

Context {hooks : SubsystemHooks}.

Definition hook_status (h : Hook) (id : SubsystemId) (app : AppState) : Status :=
match h with
| ON_INITIALIZE => caught (on_initialize app id)
| ON_START => caught (on_start app id)
| ON_STOP => on_stop app id
| ON_TERMINATE => on_terminate app id
end.

(** Call a hook; when it succeeds, assign the entry's flags. *)
Definition run_hook (h : Hook) (id : SubsystemId) (app : AppState) : Status * AppState :=
let status := hook_status h id app in
let calls := trace app ++ [{| call_hook := h; call_id := id; call_status := status |}] in
(status,
 with_entries (if is_ok status then alter (completed h) id (subsystems app) else subsystems app)
   calls app).

(** [build_topology]: nodes, edges, layers. *)
Definition add_registered (id : SubsystemId) (g : DependencyGraph SubsystemId)
: Status + DependencyGraph SubsystemId :=
let '(status, g) := add_node id g in
if bool_decide (status = DependencyGraph.OK) then inr g else inl (topology_status status).

Definition add_declared (app : AppState) (id dependency : SubsystemId)
  (g : DependencyGraph SubsystemId) : Status + DependencyGraph SubsystemId :=
if negb (bool_decide (is_Some (subsystems app !! dependency))) then inl MISSING_DEPENDENCY
else
  let '(status, g) := add_dependency dependency id g in
  if bool_decide (status = DependencyGraph.OK) then inr g else inl (topology_status status).

Definition add_dependencies (app : AppState) (id : SubsystemId) (g : DependencyGraph SubsystemId)
: Status + DependencyGraph SubsystemId :=
match subsystems app !! id with
| None => inl INTERNAL_ERROR
| Some entry => foreach (add_declared app id) (dependencies (subsystem entry)) g
end.

Definition build_topology (app : AppState) : Status * AppState :=
match foreach add_registered (registration_order app) empty_graph with
| inl status => (status, app)
| inr g =>
    match foreach (add_dependencies app) (registration_order app) g with
    | inl status => (status, app)
    | inr g =>
        let '(forward_status, forward, g) := forward_layers g in
        if negb (bool_decide (forward_status = DependencyGraph.OK))
        then (topology_status forward_status, app)
        else
          let '(reverse_status, reverse, g) := reverse_layers g in
          if negb (bool_decide (reverse_status = DependencyGraph.OK))
          then (topology_status reverse_status, app)
          else (OK, with_layers g forward reverse app)
    end
end.

(** [stop_started]; the inner loop carries both failures. *)
Definition stop_one (id : SubsystemId) (acc : Status * Status * AppState)
: Empty_set + Status * Status * AppState :=
let '(first_failure, layer_failure, app) := acc in
match find_entry id app with
| None =>
    inr (record_failure INTERNAL_ERROR first_failure,
         record_failure INTERNAL_ERROR layer_failure, app)
| Some entry =>
    if negb (started entry) then inr (first_failure, layer_failure, app)
    else
      let '(status, app) := run_hook ON_STOP id app in
      inr (record_failure status first_failure, record_failure status layer_failure, app)
end.

(** A loop whose body never leaves it. *)
Definition finish {S} (r : Empty_set + S) : S :=
match r with
| inl absurd => match absurd with end
| inr s => s
end.

Definition stop_layer (best_effort : bool) (layer : list SubsystemId) (acc : Status * AppState)
: (Status * AppState) + (Status * AppState) :=
let '(first_failure, app) := acc in
let '(first_failure, layer_failure, app) :=
  finish (foreach stop_one layer (first_failure, OK, app)) in
if negb best_effort && negb (is_ok layer_failure) then inl (first_failure, app)
else inr (first_failure, app).

(** Both ways out of a loop whose early exit is a [break]. *)
Definition after {S} (r : S + S) : S :=
match r with inl s => s | inr s => s end.

Definition stop_started (best_effort : bool) (app : AppState) : Status * AppState :=
after (foreach (stop_layer best_effort) (app_reverse_layers app) (OK, app)).

Definition terminate_one (id : SubsystemId) (acc : Status * AppState)
: Empty_set + Status * AppState :=
let '(first_failure, app) := acc in
match find_entry id app with
| None => inr (record_failure INTERNAL_ERROR first_failure, app)
| Some entry =>
    if negb (initialized entry) then inr (first_failure, app)
    else
      let '(status, app) := run_hook ON_TERMINATE id app in
      inr (record_failure status first_failure, app)
end.

Definition terminate_initialized (app : AppState) : Status * AppState :=
finish (foreach (foreach terminate_one) (app_reverse_layers app) (OK, app)).

(** [rollback_started] and [rollback_initialized] differ in the hook. *)
Definition rollback_one (h : Hook) (id : SubsystemId) (acc : Status * AppState)
: (Status * AppState) + (Status * AppState) :=
let '(first_failure, app) := acc in
match find_entry id app with
| None => inr (record_failure INTERNAL_ERROR first_failure, app)
| Some _ =>
    let '(status, app) := run_hook h id app in
    let first_failure := record_failure status first_failure in
    if is_ok status then inr (first_failure, app) else inl (first_failure, app)
end.

Definition rollback_started (started : list SubsystemId) (app : AppState) : Status * AppState :=
after (foreach (rollback_one ON_STOP) (reverse started) (OK, app)).

Definition rollback_initialized (initialized : list SubsystemId) (app : AppState)
: Status * AppState :=
after (foreach (rollback_one ON_TERMINATE) (reverse initialized) (OK, app)).

Definition initialize_one (id : SubsystemId) (acc : list SubsystemId * AppState)
: (Status * AppState) + (list SubsystemId * AppState) :=
let '(initialized, app) := acc in
match find_entry id app with
| None =>
    let '(_, app) := rollback_initialized initialized app in
    inl (INTERNAL_ERROR, with_state CRASHED app)
| Some _ =>
    let '(status, app) := run_hook ON_INITIALIZE id app in
    if negb (is_ok status)
    then
      let '(_, app) := rollback_initialized initialized app in
      inl (status, with_state CRASHED app)
    else inr (initialized ++ [id], app)
end.

Definition initialize (m : OperatingMode) (app : AppState) : Status * AppState :=
if negb (bool_decide (state app = UNINITIALIZED)) then (INVALID_LIFECYCLE_TRANSITION, app)
else if negb (valid_operating_mode m) then (INVALID_ARGUMENT, app)
else
  let '(topology_result, app) := build_topology (with_state INITIALIZING (with_mode m (freeze app))) in
  if negb (is_ok topology_result) then (topology_result, with_state CRASHED app)
  else
    match foreach (foreach initialize_one) (app_forward_layers app) ([], app) with
    | inl result => result
    | inr (_, app) => (OK, with_state INITIALIZED app)
    end.

Definition start_one (previous_state : LifecycleState) (id : SubsystemId)
  (acc : list SubsystemId * AppState)
: (Status * AppState) + (list SubsystemId * AppState) :=
let '(started, app) := acc in
if match find_entry id app with None => true | Some entry => negb (initialized entry) end
then
  let '(_, app) := rollback_started started app in
  inl (INTERNAL_ERROR, with_state CRASHED app)
else
  let '(status, app) := run_hook ON_START id app in
  if negb (is_ok status)
  then
    let '(rollback_status, app) := rollback_started started app in
    inl (status, with_state (if is_ok rollback_status then previous_state else CRASHED) app)
  else inr (started ++ [id], app).

Definition start (app : AppState) : Status * AppState :=
if negb (bool_decide (state app = INITIALIZED)) && negb (bool_decide (state app = STOPPED))
then (INVALID_LIFECYCLE_TRANSITION, app)
else
  let previous_state := state app in
  let app := with_state STARTING app in
  match foreach (foreach (start_one previous_state)) (app_forward_layers app) ([], app) with
  | inl result => result
  | inr (_, app) => (OK, with_state RUNNING app)
  end.

Definition stop (app : AppState) : Status * AppState :=
match state app with
| UNINITIALIZED | INITIALIZED | STOPPED | TERMINATED => (OK, app)
| INITIALIZING | STARTING | STOPPING | TERMINATING => (INVALID_LIFECYCLE_TRANSITION, app)
| RUNNING | CRASHED =>
    let was_crashed := bool_decide (state app = CRASHED) in
    let '(status, app) := stop_started false (with_state STOPPING app) in
    (status, with_state (if is_ok status && negb was_crashed then STOPPED else CRASHED) app)
end.

Definition terminate (app : AppState) : Status * AppState :=
match state app with
| TERMINATED => (OK, app)
| INITIALIZING | STARTING | STOPPING | TERMINATING => (INVALID_LIFECYCLE_TRANSITION, app)
| UNINITIALIZED => (OK, with_state TERMINATED (freeze app))
| INITIALIZED | RUNNING | STOPPED | CRASHED =>
    let '(first_failure, app) := stop_started true (with_state TERMINATING app) in
    let '(status, app) := terminate_initialized app in
    let first_failure := record_failure status first_failure in
    (first_failure, with_state (if is_ok first_failure then TERMINATED else CRASHED) app)
end.

(** ** Specification vocabulary *)

Definition is_initialized (app : AppState) (x : SubsystemId) : bool :=
match subsystems app !! x with Some e => initialized e | None => false end.
Definition is_started (app : AppState) (x : SubsystemId) : bool :=
match subsystems app !! x with Some e => started e | None => false end.
Definition registered (app : AppState) (x : SubsystemId) : Prop := is_Some (subsystems app !! x).
Definition deps_of (app : AppState) (x : SubsystemId) : list SubsystemId :=
match subsystems app !! x with Some e => dependencies (subsystem e) | None => [] end.

(** The phases of a subsystem that a history of hook calls implies. *)
Definition replay_call (x : SubsystemId) (phase : bool * bool) (c : HookCall) : bool * bool :=
if bool_decide (call_id c = x) && is_ok (call_status c)
then match call_hook c with
     | ON_INITIALIZE => (true, phase.2)
     | ON_START => (phase.1, true)
     | ON_STOP => (phase.1, false)
     | ON_TERMINATE => (false, false)
     end
else phase.
Definition phase_after (calls : list HookCall) (x : SubsystemId) : bool * bool :=
fold_left (replay_call x) calls (false, false).

Definition called (h : Hook) (x : SubsystemId) (calls : list HookCall) : Prop :=
exists c, c ∈ calls /\ call_hook c = h /\ call_id c = x.
Definition failed_call (h : Hook) (x : SubsystemId) (calls : list HookCall) : Prop :=
exists c, c ∈ calls /\ call_hook c = h /\ call_id c = x /\ call_status c <> OK.

(** When the documented contract allows hook [h] of [x] to be called after
  [calls]: initialisation once and after the dependencies; start after the
  dependencies; stop before them, and termination before them, unless a
  dependent refused. *)
Definition hook_allowed (deps : SubsystemId -> list SubsystemId) (calls : list HookCall)
  (h : Hook) (x : SubsystemId) : Prop :=
match h with
| ON_INITIALIZE =>
    ~ called ON_INITIALIZE x calls /\ forall d, d ∈ deps x -> (phase_after calls d).1 = true
| ON_START =>
    phase_after calls x = (true, false) /\ forall d, d ∈ deps x -> (phase_after calls d).2 = true
| ON_STOP =>
    (phase_after calls x).2 = true /\
    forall y, x ∈ deps y -> (phase_after calls y).2 = true -> failed_call ON_STOP y calls
| ON_TERMINATE =>
    (phase_after calls x).1 = true /\
    ((phase_after calls x).2 = true -> failed_call ON_STOP x calls) /\
    forall y, x ∈ deps y -> (phase_after calls y).1 = true -> failed_call ON_TERMINATE y calls
end.

(** What holds between any two steps, transitions included. *)
Record mid_inv (app : AppState) : Prop := {
mi_order : NoDup (registration_order app) /\
  forall x, x ∈ registration_order app <-> registered app x;
mi_names : forall n x, subsystem_names app !! n = Some x <->
  exists e, subsystems app !! x = Some e /\ name (subsystem e) = n;
mi_phase : forall x, (is_initialized app x, is_started app x) = phase_after (trace app) x;
mi_started : forall x, is_started app x = true -> is_initialized app x = true;
mi_protocol : forall pre c post, trace app = pre ++ c :: post ->
  hook_allowed (deps_of app) pre (call_hook c) (call_id c);
}.

(** What hooks and loops leave alone; the trace only grows. *)
Record frame (app app' : AppState) : Prop := {
fr_subsystems : forall x, subsystem <$> subsystems app' !! x = subsystem <$> subsystems app !! x;
fr_names : subsystem_names app' = subsystem_names app;
fr_order : registration_order app' = registration_order app;
fr_forward : app_forward_layers app' = app_forward_layers app;
fr_reverse : app_reverse_layers app' = app_reverse_layers app;
fr_mode : mode app' = mode app;
fr_state : state app' = state app;
fr_frozen : frozen app' = frozen app;
fr_trace : trace app `prefix_of` trace app';
}.

#[export] Instance frame_preorder : PreOrder frame.
Proof.
split.
- intros app. by split.
- intros a b c [] []. split; try congruence. by etrans.
Qed.

Lemma frame_registered app app' x : frame app app' -> registered app' x <-> registered app x.
Proof.
intros Hf. unfold registered. rewrite <- (fmap_is_Some subsystem (subsystems app' !! x)).
by rewrite (fr_subsystems _ _ Hf), fmap_is_Some.
Qed.

Lemma frame_named app app' x n :
frame app app' ->
(exists e, subsystems app' !! x = Some e /\ name (subsystem e) = n) <->
(exists e, subsystems app !! x = Some e /\ name (subsystem e) = n).
Proof.
intros Hf. pose proof (fr_subsystems _ _ Hf x) as E.
destruct (subsystems app' !! x) as [e'|], (subsystems app !! x) as [e|]; cbn in E;
  simplify_eq; [|by split; intros (? & ? & ?)].
split; intros (? & [= <-] & <-); eexists; (split; [done|congruence]).
Qed.

Lemma frame_deps app app' x : frame app app' -> deps_of app' x = deps_of app x.
Proof.
intros Hf. pose proof (fr_subsystems _ _ Hf x) as E. unfold deps_of.
destruct (subsystems app' !! x), (subsystems app !! x); cbn in E; try done. congruence.
Qed.

Lemma failed_call_mono h x calls calls' :
calls `prefix_of` calls' -> failed_call h x calls -> failed_call h x calls'.
Proof.
intros [more ->] (c & Hc & E). exists c. split; [|done]. apply elem_of_app. by left.
Qed.

Lemma record_failure_ok s f : record_failure s f = OK <-> s = OK /\ f = OK.
Proof.
unfold record_failure, is_ok. destruct (bool_decide_reflect (f = OK)) as [->|],
  (bool_decide_reflect (s = OK)); cbn; naive_solver.
Qed.

(** One flag per teardown hook. *)
Definition flag (h : Hook) (app : AppState) (x : SubsystemId) : bool :=
match h with
| ON_STOP | ON_START => is_started app x
| ON_TERMINATE | ON_INITIALIZE => is_initialized app x
end.

Definition new_initialized (h : Hook) (old : bool) : bool :=
match h with ON_INITIALIZE => true | ON_TERMINATE => false | _ => old end.
Definition new_started (h : Hook) (old : bool) : bool :=
match h with ON_START => true | ON_STOP | ON_TERMINATE => false | ON_INITIALIZE => old end.

(** The effect of one hook call that the contract allows. *)
Lemma run_hook_spec h x app :
mid_inv app -> registered app x -> hook_allowed (deps_of app) (trace app) h x ->
let status := hook_status h x app in
let app' := snd (run_hook h x app) in
fst (run_hook h x app) = status /\
mid_inv app' /\ frame app app' /\
trace app' = trace app ++ [{| call_hook := h; call_id := x; call_status := status |}] /\
forall y, is_initialized app' y =
    (if decide (y = x /\ status = OK) then new_initialized h (is_initialized app y)
     else is_initialized app y) /\
  is_started app' y =
    (if decide (y = x /\ status = OK) then new_started h (is_started app y)
     else is_started app y).
Proof.
intros Hm Hx Hallowed status app'. split; [done|].
assert (Hflags : forall y, is_initialized app' y =
    (if decide (y = x /\ status = OK) then new_initialized h (is_initialized app y)
     else is_initialized app y) /\
  is_started app' y =
    (if decide (y = x /\ status = OK) then new_started h (is_started app y)
     else is_started app y)).
{ intros y. unfold is_initialized, is_started, app', run_hook. cbn [snd subsystems with_entries].
  fold status. unfold is_ok. destruct Hx as [e He].
  destruct (bool_decide_reflect (status = OK)) as [E|E]; destruct (decide (y = x)) as [->|Hne].
  - rewrite lookup_alter_eq, He, !decide_True by done. cbn. by destruct h.
  - rewrite lookup_alter_ne, !decide_False by naive_solver. done.
  - rewrite !decide_False by naive_solver. done.
  - rewrite !decide_False by naive_solver. done. }
assert (Hf : frame app app').
{ split; try done; [|by eexists]. intros y. unfold app', run_hook.
  cbn [snd subsystems with_entries]. fold status. destruct (is_ok status); [|done].
  destruct (decide (y = x)) as [->|]; [|by rewrite lookup_alter_ne].
  rewrite lookup_alter_eq. destruct (subsystems app !! x); [by destruct h|done]. }
split_and!; [|done|done|done]. pose proof Hm as [M1 M2 M3 M4 M5]. split.
- split; [apply M1|]. intros y. rewrite frame_registered by done. apply M1.
- intros n y. by rewrite (fr_names _ _ Hf), M2, (frame_named app app').
- intros y. destruct (Hflags y) as [-> ->]. unfold app', run_hook. cbn [snd trace with_entries].
  unfold phase_after. rewrite fold_left_app. fold (phase_after (trace app) y). rewrite <- M3.
  unfold replay_call, is_ok. cbn [fold_left call_id call_status call_hook]. fold status.
  destruct (decide (y = x /\ status = OK)) as [[-> ->]|Hn].
  + rewrite !bool_decide_true by done. by destruct h.
  + destruct (bool_decide_reflect (x = y)) as [->|]; [|done].
    rewrite bool_decide_false by naive_solver. done.
- intros y. destruct (Hflags y) as [-> ->].
  destruct (decide (y = x /\ status = OK)) as [[-> _]|]; [|apply M4].
  destruct h; cbn; try done.
  destruct Hallowed as [Hp _]. rewrite <- M3 in Hp. by injection Hp as -> _.
- intros pre c post E. unfold app', run_hook in E. cbn [snd trace with_entries] in E. fold status in E.
  assert (Hd : forall z, deps_of app' z = deps_of app z) by (intros z; by apply frame_deps).
  destruct (list_snoc_inv post) as [->|(post' & c' & ->)].
  + apply app_inj_tail in E as [<- <-]. cbn [call_hook call_id]. revert Hallowed.
    unfold hook_allowed. destruct h; setoid_rewrite Hd; done.
  + rewrite app_comm_cons, app_assoc in E. apply app_inj_tail in E as [E _].
    specialize (M5 _ _ _ E). revert M5. unfold hook_allowed. destruct (call_hook c); setoid_rewrite Hd; done.
Qed.

(** ** Layers *)

Record layers_ok (app : AppState) : Prop := {
lo_perm : concat (app_forward_layers app) ≡ₚ registration_order app;
lo_reverse : app_reverse_layers app = reverse (app_forward_layers app);
lo_edges : forall x y a b la lb, x ∈ deps_of app y ->
  app_forward_layers app !! a = Some la -> x ∈ la ->
  app_forward_layers app !! b = Some lb -> y ∈ lb -> (a < b)%nat;
lo_deps : forall x d, d ∈ deps_of app x -> registered app d;
lo_sublist : forall layer, layer ∈ app_forward_layers app ->
  layer `sublist_of` registration_order app;
}.

Lemma frame_layers app app' : frame app app' -> layers_ok app -> layers_ok app'.
Proof.
intros Hf [L1 L2 L3 L4 L5]. split.
- by rewrite (fr_forward _ _ Hf), (fr_order _ _ Hf).
- by rewrite (fr_reverse _ _ Hf), (fr_forward _ _ Hf).
- intros x y a b la lb. rewrite (fr_forward _ _ Hf), (frame_deps app app') by done. apply L3.
- intros x d. rewrite (frame_deps app app'), (frame_registered app app') by done. apply L4.
- intros layer. rewrite (fr_forward _ _ Hf), (fr_order _ _ Hf). apply L5.
Qed.

Lemma deps_registered app x d : d ∈ deps_of app x -> registered app x.
Proof.
unfold deps_of, registered. destruct (subsystems app !! x); [by eexists|].
by intros ?%elem_of_nil.
Qed.

Lemma elem_of_forward app x :
mid_inv app -> layers_ok app -> x ∈ concat (app_forward_layers app) <-> registered app x.
Proof. intros Hm Hl. rewrite (lo_perm _ Hl). apply (mi_order _ Hm). Qed.

Lemma elem_of_reverse_layers app x :
mid_inv app -> layers_ok app -> x ∈ concat (app_reverse_layers app) <-> registered app x.
Proof.
intros Hm Hl. rewrite <- elem_of_forward by done. rewrite (lo_reverse _ Hl).
rewrite !list_elem_of_In, !in_concat. by setoid_rewrite <- list_elem_of_In; setoid_rewrite elem_of_reverse.
Qed.

Lemma forward_nodup app : mid_inv app -> layers_ok app -> NoDup (concat (app_forward_layers app)).
Proof. intros Hm Hl. rewrite (lo_perm _ Hl). apply (mi_order _ Hm). Qed.

Lemma concat_reverse_perm {A} (ls : list (list A)) : concat (reverse ls) ≡ₚ concat ls.
Proof.
induction ls as [|l ls IH]; [done|]. rewrite reverse_cons, concat_app, IH. cbn.
rewrite app_nil_r. apply Permutation_app_comm.
Qed.

Lemma reverse_nodup app : mid_inv app -> layers_ok app -> NoDup (concat (app_reverse_layers app)).
Proof.
intros Hm Hl. rewrite (lo_reverse _ Hl), concat_reverse_perm. by apply forward_nodup.
Qed.

(** Going forward, the dependencies of a subsystem come first. *)
Lemma dependencies_first app pre y post d :
mid_inv app -> layers_ok app -> concat (app_forward_layers app) = pre ++ y :: post ->
d ∈ deps_of app y -> d ∈ pre.
Proof.
intros Hm Hl E Hd. pose proof (lo_deps _ Hl _ _ Hd) as Hreg.
apply elem_of_forward, elem_of_layers in Hreg as (a & la & Ha & Hda); [|done|done].
destruct (concat_split _ _ _ _ E) as (b & p & q & Hb & ->).
apply elem_of_app. left. apply elem_of_concat_take. exists a, la.
split; [|done]. apply (lo_edges _ Hl d y a b la _ Hd Ha Hda Hb). set_solver.
Qed.

(** Going backward, the dependents of a subsystem come in earlier layers. *)
Lemma dependents_first app preL layer postL x y :
mid_inv app -> layers_ok app -> app_reverse_layers app = preL ++ layer :: postL ->
x ∈ layer -> x ∈ deps_of app y -> y ∈ concat preL.
Proof.
intros Hm Hl E Hx Hd. pose proof (deps_registered _ _ _ Hd) as Hreg.
apply elem_of_forward, elem_of_layers in Hreg as (b & lb & Hb & Hyb); [|done|done].
rewrite (lo_reverse _ Hl) in E. apply (f_equal reverse) in E.
rewrite reverse_involutive, reverse_app, reverse_cons, <- app_assoc in E.
assert (Ha : app_forward_layers app !! length (reverse postL) = Some layer)
  by (by rewrite E, lookup_app_r, Nat.sub_diag).
pose proof (lo_edges _ Hl x y _ _ _ _ Hd Ha Hx Hb Hyb) as Hlt.
rewrite E, lookup_app_r in Hb by lia. destruct (b - length (reverse postL))%nat as [|k] eqn:Ek; [lia|].
cbn in Hb. apply list_elem_of_lookup_2, elem_of_reverse, list_elem_of_lookup in Hb as [m Hm'].
rewrite reverse_involutive in Hm'. apply elem_of_layers. by exists m, lb.
Qed.

Lemma dependents_first_flat app pre x post y :
mid_inv app -> layers_ok app -> concat (app_reverse_layers app) = pre ++ x :: post ->
x ∈ deps_of app y -> y ∈ pre.
Proof.
intros Hm Hl E Hd. destruct (concat_split _ _ _ _ E) as (a & p & q & Ha & ->).
apply elem_of_app. left. apply (dependents_first app _ (p ++ x :: q) (drop (S a) (app_reverse_layers app)) x);
  try done; [|set_solver]. by rewrite take_drop_middle.
Qed.

(** ** Teardown loops *)

(** Where a loop calling teardown hook [h] stands: [visited] have been asked. *)
Record teardown (h : Hook) (visited : list SubsystemId) (app0 app : AppState) : Prop := {
td_mid : mid_inv app;
td_frame : frame app0 app;
td_visited : forall y, y ∈ visited -> flag h app y = true -> failed_call h y (trace app);
td_unvisited : forall y, y ∉ visited ->
  is_started app y = is_started app0 y /\ is_initialized app y = is_initialized app0 y;
td_started : forall y, is_started app y = true -> is_started app0 y = true;
td_initialized : forall y, h = ON_STOP -> is_initialized app y = is_initialized app0 y;
td_cause : forall y, y ∈ visited -> flag h app y = true -> exists a, hook_status h y a <> OK;
}.

Lemma teardown_refl h app : mid_inv app -> teardown h [] app app.
Proof. intros Hm. split; try done; by intros y ?%elem_of_nil. Qed.

Lemma teardown_skip h visited app0 app x :
teardown h visited app0 app -> flag h app x = false -> teardown h (visited ++ [x]) app0 app.
Proof.
intros [] Hx. split; try done.
- intros y Hy Hfl. apply elem_of_app in Hy as [Hy|Hy]; [by apply td_visited0|].
  apply list_elem_of_singleton in Hy as ->. congruence.
- intros y Hy. apply td_unvisited0. set_solver.
- intros y Hy Hfl. apply elem_of_app in Hy as [Hy|Hy]; [by apply td_cause0|].
  apply list_elem_of_singleton in Hy as ->. congruence.
Qed.

(** A teardown hook may be called when its dependents were asked. *)
Lemma teardown_allowed h visited app0 app x :
(h = ON_STOP \/ h = ON_TERMINATE) -> teardown h visited app0 app ->
flag h app x = true ->
(forall y, x ∈ deps_of app0 y -> y ∈ visited \/ flag h app0 y = false) ->
(h = ON_TERMINATE -> forall y, is_started app0 y = true -> failed_call ON_STOP y (trace app0)) ->
hook_allowed (deps_of app) (trace app) h x.
Proof.
intros Hh Ht Hx Hdep Hst. destruct Ht as [Hm Hf Hv Hu Hs Hi _].
assert (Hphase : forall y, phase_after (trace app) y = (is_initialized app y, is_started app y))
  by (intros y; by rewrite (mi_phase _ Hm)).
assert (Hdeps : forall y, x ∈ deps_of app y -> flag h app y = true -> failed_call h y (trace app)).
{ intros y Hy Hfl. rewrite (frame_deps app0 app) in Hy by done.
  destruct (decide (y ∈ visited)) as [|Hn]; [by apply Hv|]. destruct (Hdep y Hy) as [|Hz]; [done|].
  destruct (Hu y Hn) as [E1 E2]. destruct Hh as [->| ->]; cbn in *; congruence. }
destruct Hh as [->| ->]; cbn in *; setoid_rewrite Hphase; cbn; [done|].
split_and!; [done| |done]. intros Hxs. apply (failed_call_mono _ _ (trace app0)); [apply Hf|].
apply Hst; [done|]. by apply Hs.
Qed.

Lemma teardown_call h visited app0 app x :
(h = ON_STOP \/ h = ON_TERMINATE) -> teardown h visited app0 app ->
flag h app x = true ->
(forall y, x ∈ deps_of app0 y -> y ∈ visited \/ flag h app0 y = false) ->
(h = ON_TERMINATE -> forall y, is_started app0 y = true -> failed_call ON_STOP y (trace app0)) ->
let '(status, app') := run_hook h x app in
teardown h (visited ++ [x]) app0 app' /\ (status = OK <-> flag h app' x = false) /\
status = hook_status h x app /\
forall y, y <> x -> is_started app' y = is_started app y /\ is_initialized app' y = is_initialized app y.
Proof.
intros Hh Ht Hx Hdep Hst. pose proof Ht as [Hm Hf Hv Hu Hs Hi Hca].
assert (Hreg : registered app x).
{ unfold registered. destruct Hh as [->| ->]; cbn in Hx; unfold is_started, is_initialized in Hx;
    destruct (subsystems app !! x); done. }
pose proof (teardown_allowed h visited app0 app x Hh Ht Hx Hdep Hst) as Hallow.
destruct (run_hook_spec h x app Hm Hreg Hallow) as (Es & Hm' & Hf' & Etr & Hflags).
destruct (run_hook h x app) as [status app']. cbn [fst snd] in *. subst status.
remember (hook_status h x app) as status eqn:Est. clear Hallow.
assert (Hother : forall y, y <> x ->
  is_started app' y = is_started app y /\ is_initialized app' y = is_initialized app y).
{ intros y Hne. destruct (Hflags y) as [-> ->]. by rewrite !decide_False by naive_solver. }
assert (Hiff : status = OK <-> flag h app' x = false).
{ destruct (Hflags x) as [E1 E2]. destruct Hh as [->| ->]; cbn in *.
  - rewrite E2. destruct (decide (x = x /\ status = OK)) as [[_ ->]|Hn]; [by split|];
    split; intros E; [by destruct Hn|congruence].
  - rewrite E1. destruct (decide (x = x /\ status = OK)) as [[_ ->]|Hn]; [by split|];
    split; intros E; [by destruct Hn|congruence]. }
split_and!; [|done|done|done]. split.
- done.
- by etrans.
- intros y Hy Hfl. destruct (decide (y = x)) as [->|Hne].
  + exists {| call_hook := h; call_id := x; call_status := status |}. rewrite Etr.
    split_and!; [set_solver|done|done|]. cbn. rewrite Hiff. by rewrite Hfl.
  + apply elem_of_app in Hy as [Hy|Hy]; [|by apply list_elem_of_singleton in Hy].
    apply (failed_call_mono _ _ (trace app)); [apply Hf'|]. apply Hv; [done|].
    destruct (Hother y Hne). destruct Hh as [->| ->]; cbn in *; congruence.
- intros y Hy. destruct (Hother y) as [-> ->]; [set_solver|]. apply Hu. set_solver.
- intros y. destruct (Hflags y) as [_ ->].
  destruct (decide (y = x /\ status = OK)); [|apply Hs]. by destruct Hh as [->| ->].
- intros y ->. destruct (Hflags y) as [-> _]. destruct (decide (y = x /\ status = OK)); by apply Hi.
- intros y Hy Hfl. destruct (decide (y = x)) as [->|Hne].
  + exists app. rewrite <- Est, Hiff. by rewrite Hfl.
  + apply elem_of_app in Hy as [Hy|Hy]; [|by apply list_elem_of_singleton in Hy].
    apply (Hca y Hy). destruct (Hother y Hne). destruct Hh as [->| ->]; cbn in *; congruence.
Qed.

Lemma started_registered app x : is_started app x = true -> registered app x.
Proof. unfold is_started, registered. by destruct (subsystems app !! x); [eexists|]. Qed.

Lemma initialized_registered app x : is_initialized app x = true -> registered app x.
Proof. unfold is_initialized, registered. by destruct (subsystems app !! x); [eexists|]. Qed.

Lemma teardown_registered h visited app0 app x :
teardown h visited app0 app -> registered app0 x -> exists e, subsystems app !! x = Some e.
Proof. intros Ht Hx. apply (frame_registered app0 app x (td_frame _ _ _ _ Ht)) in Hx as [e He]. by exists e. Qed.

Lemma flag_entry h app x e :
subsystems app !! x = Some e ->
flag h app x = match h with ON_STOP | ON_START => started e | _ => initialized e end.
Proof. intros He. unfold flag, is_started, is_initialized. rewrite He. by destruct h. Qed.

(** One iteration of the inner stop loop. *)
Lemma stop_one_spec visited app0 app x ff lf :
teardown ON_STOP visited app0 app -> registered app0 x ->
(forall y, x ∈ deps_of app0 y -> y ∈ visited) ->
exists ff' lf' app', stop_one x (ff, lf, app) = inr (ff', lf', app') /\
  teardown ON_STOP (visited ++ [x]) app0 app' /\
  (ff' = OK <-> ff = OK /\ is_started app' x = false) /\
  (lf' = OK <-> lf = OK /\ is_started app' x = false) /\
  forall y, y <> x -> is_started app' y = is_started app y.
Proof.
intros Ht Hx Hdep. destruct (teardown_registered _ _ _ _ _ Ht Hx) as [e He].
unfold stop_one, find_entry. rewrite He. pose proof (flag_entry ON_STOP app x e He) as Hfl. cbn in Hfl.
destruct (started e) eqn:Es; cbn [negb].
- pose proof (teardown_call ON_STOP visited app0 app x (or_introl eq_refl) Ht) as Hcall.
  destruct (run_hook ON_STOP x app) as [status app'].
  destruct Hcall as (Ht' & Hok & _ & Hother); [by cbn; rewrite Hfl|auto|done|].
  do 3 eexists. split; [done|]. rewrite !record_failure_ok, Hok. cbn [flag].
  split_and!; [done|tauto|tauto|]. intros y Hy. by apply Hother.
- do 3 eexists. split; [done|]. split_and!; [by apply teardown_skip| | |done]; by rewrite Hfl; tauto.
Qed.

(** The inner loop, over one layer. *)
Lemma stop_layer_loop preL layer app0 app ff :
teardown ON_STOP (concat preL) app0 app ->
(forall x, x ∈ layer -> registered app0 x) ->
(forall x y, x ∈ layer -> x ∈ deps_of app0 y -> y ∈ concat preL) ->
NoDup layer ->
let '(ff', lf', app') := finish (foreach stop_one layer (ff, OK, app)) in
teardown ON_STOP (concat preL ++ layer) app0 app' /\
(ff' = OK <-> ff = OK /\ forall x, x ∈ layer -> is_started app' x = false) /\
(lf' = OK <-> forall x, x ∈ layer -> is_started app' x = false) /\
forall y, y ∉ layer -> is_started app' y = is_started app y.
Proof.
intros Ht Hreg Hdep Hnd.
pose proof (foreach_inv stop_one (fun pre '(ff', lf', app') =>
  teardown ON_STOP (concat preL ++ pre) app0 app' /\
  (ff' = OK <-> ff = OK /\ forall x, x ∈ pre -> is_started app' x = false) /\
  (lf' = OK <-> forall x, x ∈ pre -> is_started app' x = false) /\
  forall y, y ∉ pre -> is_started app' y = is_started app y) (fun _ => False)
  layer (ff, OK, app)) as Hloop.
destruct (foreach stop_one layer (ff, OK, app)) as [[]|[[ff' lf'] app']]. cbn [finish].
apply Hloop; clear Hloop.
- rewrite app_nil_r. split_and!; [done| | |done].
  + split; [|by intros [? _]]. split; [done|]. by intros x ?%elem_of_nil.
  + split; [|done]. by intros _ x ?%elem_of_nil.
- intros pre x post [[f l] a] -> (Hta & Hf & Hl & Ho).
  destruct (stop_one_spec (concat preL ++ pre) app0 a x f l Hta) as (f' & l' & a' & -> & Ht' & Hf' & Hl' & Ho').
  { apply Hreg. set_solver. } { intros y Hy. apply elem_of_app. left. apply (Hdep x); [set_solver|done]. }
  rewrite app_assoc. apply NoDup_app in Hnd as (_ & Hnx & Hnd). apply NoDup_cons in Hnd as [Hxp _].
  assert (Hpre : forall z, z ∈ pre -> is_started a' z = is_started a z).
  { intros z Hz. apply Ho'. intros ->. by apply (Hnx x Hz), list_elem_of_here. }
  assert (Hall : (forall z, z ∈ pre ++ [x] -> is_started a' z = false) <->
    (forall z, z ∈ pre -> is_started a z = false) /\ is_started a' x = false).
  { split.
    - intros Hz. split; [|apply Hz; set_solver]. intros z Hzp. rewrite <- Hpre by done. apply Hz. set_solver.
    - intros [Hp Hz] z [Hzp|Hzx%list_elem_of_singleton]%elem_of_app; [rewrite Hpre; auto|by subst]. }
  rewrite Hall, Hf', Hf, Hl', Hl. split_and!; [done|tauto|tauto|].
  intros y Hy. rewrite Ho' by set_solver. apply Ho. set_solver.
Qed.

(** The dependencies of a started subsystem are started. *)
Definition closed (app : AppState) : Prop :=
forall y d, d ∈ deps_of app y -> is_started app y = true -> is_started app d = true.

(** [stop_started] runs to the end, or (not in best-effort mode) breaks after
  the layer of the first failure. *)
Definition stop_reached (best_effort : bool) (app0 : AppState) (preL : list (list SubsystemId))
  (acc : Status * AppState) : Prop :=
teardown ON_STOP (concat preL) app0 acc.2 /\
(acc.1 = OK <-> forall x, x ∈ concat preL -> is_started acc.2 x = false) /\
(best_effort = false -> acc.1 = OK).

Definition stop_broken (best_effort : bool) (app0 : AppState) (acc : Status * AppState) : Prop :=
best_effort = false /\ acc.1 <> OK /\ exists preL layer postL,
  app_reverse_layers app0 = preL ++ layer :: postL /\
  teardown ON_STOP (concat preL ++ layer) app0 acc.2 /\
  (exists x, x ∈ layer /\ is_started acc.2 x = true) /\
  (forall x, x ∈ concat preL -> is_started acc.2 x = false).

Lemma not_all_stopped (l : list SubsystemId) (f : SubsystemId -> bool) :
~ (forall x, x ∈ l -> f x = false) -> exists x, x ∈ l /\ f x = true.
Proof.
intros Hn. destruct (decide (Exists (fun x => f x = true) l)) as [He|Hne].
- by apply Exists_exists in He.
- exfalso. apply Hn. intros x Hx. destruct (f x) eqn:E; [|done]. exfalso. apply Hne, Exists_exists. by exists x.
Qed.

Lemma stop_layer_step best_effort app preL layer postL acc :
mid_inv app -> layers_ok app -> app_reverse_layers app = preL ++ layer :: postL ->
stop_reached best_effort app preL acc ->
match stop_layer best_effort layer acc with
| inl r => stop_broken best_effort app r
| inr s => stop_reached best_effort app (preL ++ [layer]) s
end.
Proof.
intros Hm Hl E (Hta & Hf & Hbe). destruct acc as [ff a]. cbn [fst snd] in *.
pose proof (reverse_nodup app Hm Hl) as Hnd. rewrite E, concat_app in Hnd. cbn [concat] in Hnd.
apply NoDup_app in Hnd as (_ & Hdis & Hnd). apply NoDup_app in Hnd as (Hndl & _ & _).
assert (Hin : forall x, x ∈ layer -> registered app x).
{ intros x Hx. apply elem_of_reverse_layers; [done..|]. rewrite E, concat_app. set_solver. }
pose proof (stop_layer_loop preL layer app a ff Hta Hin
  (fun x y Hx => dependents_first app preL layer postL x y Hm Hl E Hx) Hndl) as Hlayer.
unfold stop_layer. destruct (finish _) as [[ff' lf'] a']. destruct Hlayer as (Hta' & Hff & Hlf & Ho).
assert (Hkeep : forall x, x ∈ concat preL -> is_started a' x = is_started a x).
{ intros x Hx. apply Ho. intros Hxl. apply (Hdis x Hx). set_solver. }
assert (Hcat : concat (preL ++ [layer]) = concat preL ++ layer)
  by (rewrite concat_app; cbn; by rewrite app_nil_r).
assert (Hall : ff' = OK <-> forall x, x ∈ concat (preL ++ [layer]) -> is_started a' x = false).
{ rewrite Hff, Hf, Hcat. split.
  - intros [Hp Hx] x [Hxp|Hxl]%elem_of_app; [rewrite Hkeep; auto|auto].
  - intros Hx. split; intros x Hxx; [rewrite <- Hkeep by done|]; apply Hx; set_solver. }
destruct (negb best_effort && negb (is_ok lf')) eqn:Eb.
- apply andb_true_iff in Eb as [Eb1 Eb2]. apply negb_true_iff in Eb1, Eb2.
  apply bool_decide_eq_false in Eb2. specialize (Hbe Eb1). split; [done|]. cbn [fst snd].
  split; [tauto|]. exists preL, layer, postL. split_and!; [done|done| |].
  + apply not_all_stopped. tauto.
  + intros x Hx. rewrite Hkeep by done. by apply Hf.
- split_and!; cbn [fst snd]; [by rewrite Hcat|done|]. intros Hb. rewrite Hb in Eb. cbn in Eb.
  apply negb_false_iff, bool_decide_eq_true in Eb. rewrite Hff. tauto.
Qed.

Lemma stop_started_loop best_effort app :
mid_inv app -> layers_ok app ->
stop_reached best_effort app (app_reverse_layers app) (stop_started best_effort app) \/
stop_broken best_effort app (stop_started best_effort app).
Proof.
intros Hm Hl. unfold stop_started.
pose proof (foreach_inv (stop_layer best_effort) (stop_reached best_effort app)
  (stop_broken best_effort app) (app_reverse_layers app) (OK, app)) as Hloop.
destruct (foreach _ _ _) as [r|r]; cbn [after]; [right|left]; apply Hloop.
1,3: split_and!; [by apply teardown_refl|by split; [intros _ ? ?%elem_of_nil|]|done].
all: intros preL layer postL acc E Hr; by apply (stop_layer_step best_effort app preL layer postL).
Qed.

Lemma stop_started_spec best_effort app :
mid_inv app -> layers_ok app ->
let '(status, app') := stop_started best_effort app in
mid_inv app' /\ frame app app' /\
(forall y, is_initialized app' y = is_initialized app y) /\
(forall y, is_started app' y = true -> is_started app y = true) /\
(status = OK <-> forall y, is_started app' y = false) /\
(best_effort = true -> forall y, is_started app' y = true -> failed_call ON_STOP y (trace app')) /\
(best_effort = false -> closed app -> closed app') /\
(status <> OK -> exists y a, hook_status ON_STOP y a <> OK).
Proof.
intros Hm Hl. pose proof (stop_started_loop best_effort app Hm Hl) as Hloop.
destruct (stop_started best_effort app) as [status app'].
destruct Hloop as [(Ht & Hok & Hbe)|(Hbe & Hne & preL & layer & postL & E & Ht & [x [Hxl Hx]] & Hpre)];
  cbn [fst snd] in *; pose proof Ht as [Tm Tf Tv Tu Ts Ti Tc];
  (split_and!; [done|done|by intros y; apply Ti|done|..]).
- rewrite Hok. split; [|auto]. intros Hs y. destruct (is_started app' y) eqn:Ey; [|done].
  rewrite <- Ey. apply Hs, elem_of_reverse_layers; [done..|]. by apply started_registered, Ts.
- intros _ y Hy. apply Tv; [|done]. apply elem_of_reverse_layers; [done..|]. by apply started_registered, Ts.
- intros Hb _ y d _ Hy. exfalso. pose proof (proj1 Hok (Hbe Hb) y) as Hz.
  rewrite Hz in Hy; [done|]. apply elem_of_reverse_layers; [done..|]. by apply started_registered, Ts.
- intros Hne. destruct (not_all_stopped (concat (app_reverse_layers app)) (is_started app')) as (y & Hy & Hys);
    [by rewrite <- Hok|]. destruct (Tc y Hy Hys) as [a Ha]. by exists y, a.
- split; [done|]. intros Hz. by rewrite Hz in Hx.
- congruence.
- intros _ Hc y d Hd Hy. rewrite (frame_deps app app') in Hd by done.
  assert (Hd' : d ∉ concat preL ++ layer).
  { intros Hin. enough (y ∈ concat preL) as Hyp by (rewrite Hpre in Hy; done).
    apply elem_of_app in Hin as [Hin|Hin]; [|exact (dependents_first app preL layer postL d y Hm Hl E Hin Hd)].
    apply elem_of_layers in Hin as (m & l & Hm' & Hdl).
    assert (El : app_reverse_layers app = take m preL ++ l :: (drop (S m) preL ++ layer :: postL)).
    { rewrite E. rewrite <- (take_drop_middle preL m l) at 1 by done. by rewrite <- app_assoc. }
    pose proof (dependents_first app _ _ _ d y Hm Hl El Hdl Hd) as Hyt.
    apply elem_of_concat_take in Hyt as (k & lk & _ & Hk & Hyk). apply elem_of_layers. by exists k, lk. }
  destruct (Tu d Hd') as [-> _]. apply (Hc y d Hd). by apply Ts.
- intros _. destruct (Tc x) as [a Ha]; [apply elem_of_app; by right|done|]. by exists x, a.
Qed.

Lemma terminate_initialized_spec app :
mid_inv app -> layers_ok app ->
(forall y, is_started app y = true -> failed_call ON_STOP y (trace app)) ->
let '(status, app') := terminate_initialized app in
mid_inv app' /\ frame app app' /\
(forall y, is_started app' y = true -> is_started app y = true) /\
(status = OK <-> forall y, is_initialized app' y = false) /\
(status <> OK -> exists y a, hook_status ON_TERMINATE y a <> OK).
Proof.
intros Hm Hl Hst. unfold terminate_initialized. rewrite foreach_concat.
pose proof (foreach_inv terminate_one (fun pre '(ff, app') =>
  teardown ON_TERMINATE pre app app' /\
  (ff = OK <-> forall x, x ∈ pre -> is_initialized app' x = false)) (fun _ => False)
  (concat (app_reverse_layers app)) (OK, app)) as Hloop.
destruct (foreach _ _ _) as [[]|[ff app']]. cbn [finish].
destruct Hloop as [Ht Hok].
- split; [by apply teardown_refl|]. by split; [intros _ ? ?%elem_of_nil|].
- intros pre x post [f a] E (Ht & Hf).
  assert (Hreg : registered app x) by (apply elem_of_reverse_layers; [done..|]; rewrite E; set_solver).
  destruct (teardown_registered _ _ _ _ _ Ht Hreg) as [e He].
  unfold terminate_one, find_entry. rewrite He. pose proof (flag_entry ON_TERMINATE a x e He) as Hfl.
  cbn in Hfl. assert (Hxp : x ∉ pre).
  { pose proof (reverse_nodup app Hm Hl) as Hnd. rewrite E in Hnd.
    apply NoDup_app in Hnd as (_ & Hd & _). intros Hx. apply (Hd x Hx). set_solver. }
  destruct (initialized e) eqn:Ei; cbn [negb].
  + pose proof (teardown_call ON_TERMINATE pre app a x (or_intror eq_refl) Ht) as Hcall.
    destruct (run_hook ON_TERMINATE x a) as [status a'].
    destruct Hcall as (Ht' & Hs & _ & Hother); [by cbn; rewrite Hfl| |done|].
    { intros y Hy. left. exact (dependents_first_flat app pre x post y Hm Hl E Hy). }
    split; [done|]. rewrite record_failure_ok, Hs, Hf. cbn [flag]. split.
    * intros [Hx Hp] z [Hz|Hz%list_elem_of_singleton]%elem_of_app; [|by subst].
      destruct (Hother z) as [_ ->]; [by intros ->|auto].
    * intros Hz. split; [apply Hz; set_solver|]. intros z Hzp.
      destruct (Hother z) as [_ E2]; [by intros ->|]. rewrite <- E2. apply Hz. set_solver.
  + split; [by apply teardown_skip|]. rewrite Hf. split.
    * intros Hp z [Hz|Hz%list_elem_of_singleton]%elem_of_app; [auto|by subst].
    * intros Hz z Hzp. apply Hz. set_solver.
- pose proof Ht as [Tm Tf Tv Tu Ts Ti Tc]. split_and!; [done|done|done| |].
  2: { intros Hne. destruct (not_all_stopped (concat (app_reverse_layers app)) (is_initialized app'))
         as (y & Hy & Hyi); [by rewrite <- Hok|]. destruct (Tc y Hy Hyi) as [a Ha]. by exists y, a. }
  rewrite Hok. split; [|auto]. intros Hz y. destruct (is_initialized app' y) eqn:Ey; [|done].
  rewrite <- Ey. apply Hz, elem_of_reverse_layers; [done..|].
  apply initialized_registered in Ey. by apply (frame_registered app app').
Qed.

Lemma rollback_step h ids app pre x post acc :
(h = ON_STOP \/ h = ON_TERMINATE) ->
(forall x, x ∈ ids -> flag h app x = true) ->
(forall pre x post y, ids = pre ++ x :: post -> x ∈ deps_of app y ->
   y ∈ post \/ flag h app y = false) ->
(h = ON_TERMINATE -> forall y, is_started app y = false) -> NoDup ids ->
reverse ids = pre ++ x :: post ->
(let '(ff, app') := acc in
 teardown h pre app app' /\ ff = OK /\ forall x, x ∈ pre -> flag h app' x = false) ->
match rollback_one h x acc with
| inl (ff, app') => ff <> OK /\ exists visited x, (forall y, y ∈ visited -> y ∈ ids) /\
    x ∈ ids /\ teardown h visited app app' /\ flag h app' x = true
| inr (ff, app') =>
    teardown h (pre ++ [x]) app app' /\ ff = OK /\ forall z, z ∈ pre ++ [x] -> flag h app' z = false
end.
Proof.
intros Hh Hmarked Hdep Hst Hnd E. destruct acc as [ff a]. intros (Ht & -> & Hpre).
assert (Hin : forall y, y ∈ pre ++ [x] -> y ∈ ids).
{ intros y Hy. apply elem_of_reverse. rewrite E. set_solver. }
assert (Hxids : x ∈ ids) by (apply Hin; set_solver).
assert (Hxpre : x ∉ pre).
{ rewrite <- (reverse_Permutation ids), E in Hnd. apply NoDup_app in Hnd as (_ & Hd & _).
  intros Hx. apply (Hd x Hx). set_solver. }
apply (f_equal reverse) in E. rewrite reverse_involutive, reverse_app, reverse_cons, <- app_assoc in E.
assert (Hfx : flag h a x = true).
{ destruct (td_unvisited _ _ _ _ Ht x Hxpre) as [E1 E2]. rewrite <- (Hmarked x Hxids).
  destruct Hh as [->| ->]; done. }
assert (Hreg : exists e, subsystems a !! x = Some e).
{ destruct Hh as [->| ->]; cbn in Hfx; [apply started_registered in Hfx as [e He]
    |apply initialized_registered in Hfx as [e He]]; by exists e. }
unfold rollback_one, find_entry. destruct Hreg as [e ->].
pose proof (teardown_call h pre app a x Hh Ht Hfx) as Hcall. destruct (run_hook h x a) as [status a'].
destruct Hcall as (Ht' & Hs & _ & Hother).
- intros y Hy. destruct (Hdep _ _ _ y E Hy) as [Hyp|]; [|by right]. left. by apply elem_of_reverse.
- intros Eh y Hy. by rewrite Hst in Hy.
- unfold is_ok. destruct (bool_decide_reflect (status = OK)) as [Eo|Eo].
  + split_and!; [done|by apply record_failure_ok|].
    intros z [Hz|Hz%list_elem_of_singleton]%elem_of_app; [|subst z; by apply Hs].
    destruct (Hother z) as [E1 E2]; [by intros ->|]. rewrite <- (Hpre z Hz).
    destruct Hh as [->| ->]; done.
  + split; [rewrite record_failure_ok; tauto|]. exists (pre ++ [x]), x. split_and!; [done|done|done|].
    destruct (flag h a' x) eqn:Ef; [done|]. by destruct Eo; apply Hs.
Qed.

(** Rolling back: the subsystems [ids], all of them marked, backwards, up to
  the first refusal. *)
Lemma rollback_spec h ids app :
(h = ON_STOP \/ h = ON_TERMINATE) -> mid_inv app ->
(forall x, x ∈ ids -> flag h app x = true) ->
(forall pre x post y, ids = pre ++ x :: post -> x ∈ deps_of app y ->
   y ∈ post \/ flag h app y = false) ->
(h = ON_TERMINATE -> forall y, is_started app y = false) -> NoDup ids ->
let '(status, app') := after (foreach (rollback_one h) (reverse ids) (OK, app)) in
exists visited, (forall y, y ∈ visited -> y ∈ ids) /\ teardown h visited app app' /\
  (status = OK <-> forall x, x ∈ ids -> flag h app' x = false).
Proof.
intros Hh Hm Hmarked Hdep Hst Hnd.
pose proof (foreach_inv (rollback_one h) (fun pre '(ff, app') =>
  teardown h pre app app' /\ ff = OK /\ forall x, x ∈ pre -> flag h app' x = false)
  (fun '(ff, app') => ff <> OK /\ exists visited x, (forall y, y ∈ visited -> y ∈ ids) /\
     x ∈ ids /\ teardown h visited app app' /\ flag h app' x = true)
  (reverse ids) (OK, app)) as Hloop.
destruct (foreach _ _ _) as [[ff app']|[ff app']]; cbn [after].
- destruct Hloop as (Hff & visited & x & Hsub & Hx & Ht & Hfl).
  + split_and!; [by apply teardown_refl|done|by intros ? ?%elem_of_nil].
  + intros pre x post acc E. by apply (rollback_step h ids app pre x post acc).
  + exists visited. split_and!; [done|done|]. split; [done|]. intros Hz. by rewrite Hz in Hfl.
- destruct Hloop as (Ht & -> & Hfl).
  + split_and!; [by apply teardown_refl|done|by intros ? ?%elem_of_nil].
  + intros pre x post acc E. by apply (rollback_step h ids app pre x post acc).
  + exists (reverse ids). setoid_rewrite elem_of_reverse in Hfl. split_and!; [|done|done].
    intros y. by rewrite elem_of_reverse.
Qed.

(** ** Topology *)

Definition declares (app : AppState) (d x : SubsystemId) : Prop := d ∈ deps_of app x.
Definition declared_ok (app : AppState) : Prop :=
forall x, NoDup (deps_of app x) /\ forall d, declares app d x -> registered app d.
Definition acyclic (app : AppState) : Prop := forall x, ~ tc (declares app) x x.

Lemma add_registered_step x g :
reachable g -> x ∉ nodes g ->
exists g', add_registered x g = inr g' /\ reachable g' /\ nodes g' = nodes g ++ [x] /\
  forall u v, depends g' u v <-> depends g u v.
Proof.
intros Hr Hx. unfold add_registered. pose proof (add_node_effect g x Hr) as He.
pose proof (reachable_add_node g x Hr) as Hr'. destruct (add_node x g) as [s g'].
cbn [snd] in Hr'. rewrite !decide_False in He by done. destruct He as (-> & Hn & Hd).
rewrite bool_decide_true by done. by exists g'.
Qed.

Lemma add_registered_loop ids :
NoDup ids ->
exists g, foreach add_registered ids empty_graph = inr g /\ reachable g /\ nodes g = ids /\
  forall u v, ~ depends g u v.
Proof.
intros Hnd. pose proof (foreach_inv add_registered (fun pre g =>
  reachable g /\ nodes g = pre /\ forall u v, ~ depends g u v) (fun _ => False) ids empty_graph) as Hloop.
assert (Hstep : forall pre x post g, ids = pre ++ x :: post ->
  reachable g /\ nodes g = pre /\ (forall u v, ~ depends g u v) ->
  match add_registered x g with
  | inl _ => False
  | inr g' => reachable g' /\ nodes g' = pre ++ [x] /\ forall u v, ~ depends g' u v
  end).
{ intros pre x post g -> (Hr & Hn & Hd). apply NoDup_app in Hnd as (_ & Hx & _).
  destruct (add_registered_step x g Hr) as (g' & -> & Hr' & Hn' & Hd').
  - rewrite Hn. intros Hxp. apply (Hx x Hxp). set_solver.
  - rewrite <- Hn. split_and!; [done|done|]. intros u v. by rewrite Hd'. }
assert (Hempty : reachable (empty_graph (N := SubsystemId)) /\
  nodes (empty_graph (N := SubsystemId)) = [] /\
  forall u v : SubsystemId, ~ depends empty_graph u v).
{ split_and!; [constructor|done|]. by intros u v (i & j & Hi & _). }
specialize (Hloop Hempty Hstep). destruct (foreach _ _ _) as [s|g]; [done|]. by exists g.
Qed.

(** One declaration. *)
Lemma add_declared_step app x d g :
reachable g -> (forall y, y ∈ nodes g <-> registered app y) -> registered app x ->
match add_declared app x d g with
| inr g' => registered app d /\ ~ depends g d x /\ reachable g' /\ nodes g' = nodes g /\
    forall u v, depends g' u v <-> depends g u v \/ (u = d /\ v = x)
| inl status =>
    (status = MISSING_DEPENDENCY /\ ~ registered app d) \/
    (status = DUPLICATE_DEPENDENCY /\ depends g d x)
end.
Proof.
intros Hr Hn Hx. unfold add_declared.
destruct (bool_decide_reflect (is_Some (subsystems app !! d))) as [Hd|Hd]; cbn [negb]; [|by left].
pose proof (add_dependency_effect g d x Hr) as He. pose proof (reachable_add_dependency g d x Hr) as Hr'.
destruct (add_dependency d x g) as [s g']. cbn [snd] in Hr'. destruct He as (_ & Hin & Hdup & Hok).
destruct Hin as [->| ->]; [by apply Hn|by apply Hn| |].
- rewrite bool_decide_true by done. rewrite decide_True in Hok by done. destruct Hok as (En & _ & Ed).
  split_and!; [done| |done|done|done]. intros Hc. by apply Hdup in Hc.
- rewrite bool_decide_false by done. right. split; [done|]. by apply Hdup.
Qed.

(** The declarations of one subsystem. *)
Lemma add_dependencies_loop app x g :
reachable g -> (forall y, y ∈ nodes g <-> registered app y) -> registered app x ->
(forall u, ~ depends g u x) ->
match add_dependencies app x g with
| inr g' => reachable g' /\ nodes g' = nodes g /\
    (forall u v, depends g' u v <-> depends g u v \/ (v = x /\ declares app u x)) /\
    NoDup (deps_of app x) /\ (forall d, declares app d x -> registered app d)
| inl status =>
    (status = MISSING_DEPENDENCY /\ exists d, declares app d x /\ ~ registered app d) \/
    (status = DUPLICATE_DEPENDENCY /\ ~ NoDup (deps_of app x))
end.
Proof.
intros Hr Hn [e He] Hfresh. unfold add_dependencies, declares, deps_of. rewrite He.
set (deps := dependencies (subsystem e)). apply (foreach_inv (add_declared app x) (fun pre g' =>
  reachable g' /\ nodes g' = nodes g /\
  (forall u v, depends g' u v <-> depends g u v \/ (v = x /\ u ∈ pre)) /\
  NoDup pre /\ forall d, d ∈ pre -> registered app d)).
{ split_and!; [done|done| |constructor|by intros ? ?%elem_of_nil].
  intros u v. split; [by left|by intros [?|[_ ?%elem_of_nil]]]. }
intros pre d post g1 E (Hr1 & Hn1 & Hd1 & Hnd1 & Hreg1).
pose proof (add_declared_step app x d g1 Hr1) as Hs. rewrite Hn1 in Hs.
specialize (Hs Hn (mk_is_Some _ _ He)). destruct (add_declared app x d g1) as [s|g2].
- destruct Hs as [[-> Hs]|[-> Hs]]; [left|right]; (split; [done|]).
  + exists d. split; [rewrite E; set_solver|done].
  + rewrite E. intros (_ & Hx & _)%NoDup_app. apply Hd1 in Hs as [Hs|[_ Hs]]; [by apply Hfresh in Hs|].
    apply (Hx d Hs). set_solver.
- destruct Hs as (Hd & Hnot & Hr2 & Hn2 & Hd2). split_and!; [done|done| | |].
  + intros u v. rewrite Hd2, Hd1, elem_of_app, list_elem_of_singleton. tauto.
  + apply NoDup_app. split_and!; [done| |apply NoDup_singleton].
    intros z Hz ->%list_elem_of_singleton. apply Hnot, Hd1. by right.
  + intros z [Hz|Hz%list_elem_of_singleton]%elem_of_app; [by apply Hreg1|by subst].
Qed.

Lemma dependencies_loop app g :
mid_inv app -> reachable g -> nodes g = registration_order app -> (forall u v, ~ depends g u v) ->
match foreach (add_dependencies app) (registration_order app) g with
| inr g' => reachable g' /\ nodes g' = registration_order app /\
    (forall u v, depends g' u v <-> declares app u v) /\ declared_ok app
| inl status =>
    (status = MISSING_DEPENDENCY /\ exists x d, declares app d x /\ ~ registered app d) \/
    (status = DUPLICATE_DEPENDENCY /\ exists x, ~ NoDup (deps_of app x))
end.
Proof.
intros Hm Hr Hn Hd. pose proof (mi_order _ Hm) as [Hnd Hreg].
pose proof (foreach_inv (add_dependencies app) (fun pre g' =>
  reachable g' /\ nodes g' = registration_order app /\
  (forall u v, depends g' u v <-> v ∈ pre /\ declares app u v) /\
  forall x, x ∈ pre -> NoDup (deps_of app x) /\ forall d, declares app d x -> registered app d)
  (fun status => (status = MISSING_DEPENDENCY /\ exists x d, declares app d x /\ ~ registered app d) \/
    (status = DUPLICATE_DEPENDENCY /\ exists x, ~ NoDup (deps_of app x)))
  (registration_order app) g) as Hloop.
assert (Hstep : match foreach (add_dependencies app) (registration_order app) g with
  | inr g' => reachable g' /\ nodes g' = registration_order app /\
      (forall u v, depends g' u v <-> v ∈ registration_order app /\ declares app u v) /\
      forall x, x ∈ registration_order app ->
        NoDup (deps_of app x) /\ forall d, declares app d x -> registered app d
  | inl status =>
      (status = MISSING_DEPENDENCY /\ exists x d, declares app d x /\ ~ registered app d) \/
      (status = DUPLICATE_DEPENDENCY /\ exists x, ~ NoDup (deps_of app x))
  end).
{ apply Hloop; clear Hloop.
  - split_and!; [done|done| |by intros ? ?%elem_of_nil].
    intros u v. split; [by intros ?%Hd|by intros [?%elem_of_nil _]].
  - intros pre x post g1 E (Hr1 & Hn1 & Hd1 & Hp1).
    pose proof (add_dependencies_loop app x g1 Hr1) as Hs. rewrite Hn1 in Hs.
    assert (Hxpre : x ∉ pre).
    { rewrite E in Hnd. apply NoDup_app in Hnd as (_ & Hx & _). intros Hxp. apply (Hx x Hxp). set_solver. }
    specialize (Hs Hreg). specialize (Hs (proj1 (Hreg x) ltac:(rewrite E; set_solver))).
    specialize (Hs ltac:(intros u [? _]%Hd1; done)).
    destruct (add_dependencies app x g1) as [s|g2].
    + destruct Hs as [[-> (d & Hs)]|[-> Hs]]; [left|right]; (split; [done|]); [by exists x, d|by exists x].
    + destruct Hs as (Hr2 & Hn2 & Hd2 & Hs). split_and!; [done|done| |].
      * intros u v. rewrite Hd2, Hd1, elem_of_app, list_elem_of_singleton.
        split; [intros [[? ?]|[-> ?]]; auto|intros [[?| ->] ?]; auto].
      * intros z [Hz|Hz%list_elem_of_singleton]%elem_of_app; [by apply Hp1|by subst]. }
clear Hloop. destruct (foreach _ _ _) as [s|g']; [done|].
destruct Hstep as (Hr' & Hn' & Hd' & Hp). split_and!; [done|done| |].
- intros u v. rewrite Hd'. split; [by intros [_ ?]|]. intros Hu. split; [|done].
  apply Hreg. by eapply deps_registered.
- intros x. destruct (decide (x ∈ registration_order app)) as [Hx|Hx]; [by apply Hp|].
  unfold declares, deps_of. destruct (subsystems app !! x) eqn:Ex; [exfalso; apply Hx, Hreg; by eexists|].
  split; [constructor|]. by intros d ?%elem_of_nil.
Qed.

Lemma tc_iff {A} (R S : A -> A -> Prop) x y :
(forall u v, R u v <-> S u v) -> tc R x y <-> tc S x y.
Proof.
intros E. split; (induction 1 as [? ? Ho|? ? ? Ho]; [apply tc_once|eapply tc_l; [|done]]; by apply E).
Qed.

(** The verdict on the declared topology, and the layers of a good one. *)
Lemma build_topology_spec app :
mid_inv app ->
let '(status, app') := build_topology app in
match status with
| OK => declared_ok app /\ acyclic app /\ layers_ok app' /\
    exists g forward, app' = with_layers g forward (reverse forward) app
| DEPENDENCY_CYCLE => declared_ok app /\ ~ acyclic app /\ app' = app
| MISSING_DEPENDENCY => (exists x d, declares app d x /\ ~ registered app d) /\ app' = app
| DUPLICATE_DEPENDENCY => (exists x, ~ NoDup (deps_of app x)) /\ app' = app
| _ => False
end.
Proof.
intros Hm. unfold build_topology. pose proof (mi_order _ Hm) as [Hnd Hreg].
destruct (add_registered_loop _ Hnd) as (g & -> & Hr & Hn & Hd).
pose proof (dependencies_loop app g Hm Hr Hn Hd) as Hdeps.
destruct (foreach _ _ _) as [s|g1]; [by destruct Hdeps as [[-> ?]|[-> ?]]|].
destruct Hdeps as (Hr1 & Hn1 & Hd1 & Hok). pose proof (forward_layers_status g1 Hr1) as Hs.
destruct (forward_layers g1) as [[s fwd] g2] eqn:Ef. destruct Hs as (Hr2 & Hn2 & Hd2 & _ & Hs & _).
assert (Hac : (forall x, ~ tc (depends g1) x x) <-> acyclic app).
{ unfold acyclic. split; intros Ha x Hx; apply (Ha x); by apply (tc_iff _ _ _ _ Hd1). }
destruct (decide (s = DependencyGraph.OK)) as [->|Hne].
2: { destruct Hs as (-> & -> & Hc). rewrite bool_decide_false by done. cbn. rewrite Hac in Hc. done. }
rewrite bool_decide_true by done. cbn [negb].
unfold reverse_layers. rewrite (forward_layers_again _ _ _ Ef), !bool_decide_true by done. cbn [negb].
destruct (forward_layers_order g1 g2 fwd Hr1 Ef) as (Hperm & Hord & Hsub). split_and!.
- done.
- by apply Hac.
- split; cbn.
  + by rewrite Hperm, Hn1.
  + done.
  + intros x y a b la lb Hx. apply Hord. by apply Hd1.
  + intros x d. apply Hok.
  + intros layer Hl. rewrite <- Hn1. by apply Hsub.
- by eexists _, _.
Qed.

(** ** Forward loops *)

Lemma rollback_order app ids rest pre x post y :
mid_inv app -> layers_ok app -> concat (app_forward_layers app) = ids ++ rest ->
ids = pre ++ x :: post -> x ∈ deps_of app y -> y ∈ ids -> y ∈ post.
Proof.
intros Hm Hl E Ei Hd Hy. pose proof (forward_nodup app Hm Hl) as Hnd. rewrite E in Hnd.
apply NoDup_app in Hnd as (Hnd & _ & _). apply list_elem_of_split in Hy as (p & q & Ey).
assert (Hx : x ∈ p).
{ apply (dependencies_first app p y (q ++ rest) x Hm Hl); [|done]. by rewrite E, Ey, <- app_assoc. }
apply list_elem_of_split in Hx as (p1 & p2 & ->). rewrite <- app_assoc in Ey. cbn in Ey.
rewrite Ei in Hnd, Ey. destruct (nodup_split _ _ _ _ _ Hnd Ey) as [_ ->]. set_solver.
Qed.

(** Where the initialisation loop stands after [pre]. *)
Record initializing (app : AppState) (pre done : list SubsystemId) (a : AppState) : Prop := {
iz_done : done = pre;
iz_mid : mid_inv a;
iz_frame : frame app a;
iz_initialized : forall y, is_initialized a y = bool_decide (y ∈ pre);
iz_started : forall y, is_started a y = false;
iz_trace : trace a = map (fun x => {| call_hook := ON_INITIALIZE; call_id := x; call_status := OK |}) pre;
}.

(** How a failed transition ends. *)
Record failed_initialize (app : AppState) (result : Status * AppState) : Prop := {
fi_status : result.1 <> OK;
fi_state : state result.2 = CRASHED;
fi_mid : mid_inv result.2;
fi_frame : frame app (with_state (state app) result.2);
fi_started : forall y, is_started result.2 y = false;
fi_cause : exists y a, hook_status ON_INITIALIZE y a = result.1;
}.

Lemma mid_inv_with_state s app : mid_inv app <-> mid_inv (with_state s app).
Proof. split; intros []; split; done. Qed.

Lemma frame_with_state app a s :
frame app a -> frame app (with_state (state app) (with_state s a)).
Proof. intros []. split; try done. Qed.

Lemma initialize_one_spec app pre x post done a :
mid_inv app -> layers_ok app -> concat (app_forward_layers app) = pre ++ x :: post ->
initializing app pre done a ->
match initialize_one x (done, a) with
| inl r => failed_initialize app r
| inr (done', a') => initializing app (pre ++ [x]) done' a'
end.
Proof.
intros Hm Hl E [-> Ia If Ii Is It]. unfold initialize_one, find_entry.
assert (Hreg : registered app x) by (apply elem_of_forward; [done..|]; rewrite E; set_solver).
apply (frame_registered _ _ _ If) in Hreg. pose proof Hreg as [e He]. rewrite He.
pose proof (forward_nodup app Hm Hl) as Hnd. rewrite E in Hnd. apply NoDup_app in Hnd as (Hndp & Hdis & _).
assert (Hxp : x ∉ pre) by (intros Hx; apply (Hdis x Hx); set_solver).
assert (Hallow : hook_allowed (deps_of a) (trace a) ON_INITIALIZE x).
{ split.
  - rewrite It. intros (c & Hc & _ & Hcx). apply list_elem_of_fmap in Hc as (z & -> & Hz). cbn in Hcx.
    by subst.
  - intros d Hd. rewrite <- (mi_phase _ Ia). cbn. rewrite Ii. apply bool_decide_eq_true.
    rewrite (frame_deps app a) in Hd by done. exact (dependencies_first app pre x post d Hm Hl E Hd). }
destruct (run_hook_spec ON_INITIALIZE x a Ia Hreg Hallow) as (Es & Hm' & Hf' & Etr & Hflags).
destruct (run_hook ON_INITIALIZE x a) as [status a']. cbn [fst snd] in *.
remember (hook_status ON_INITIALIZE x a) as hs eqn:Ehs. subst status. rename hs into status.
unfold is_ok. destruct (bool_decide_reflect (status = OK)) as [->|Hne]; cbn [negb].
- split; [done|done|by etrans| | |].
  + intros y. destruct (Hflags y) as [-> _]. rewrite Ii. destruct (decide (y = x)) as [->|Hy].
    * rewrite decide_True by done. symmetry. apply bool_decide_eq_true. set_solver.
    * rewrite decide_False by naive_solver. apply bool_decide_ext. set_solver.
  + intros y. destruct (Hflags y) as [_ ->]. by destruct (decide _); apply Is.
  + by rewrite Etr, It, map_app.
- assert (Hfl : forall y, is_initialized a' y = bool_decide (y ∈ pre) /\ is_started a' y = false).
  { intros y. destruct (Hflags y) as [-> ->]. rewrite !decide_False by naive_solver. auto. }
  pose proof (rollback_spec ON_TERMINATE pre a' (or_intror eq_refl) Hm') as Hrb.
  unfold rollback_initialized. destruct (after _) as [rs a''].
  destruct Hrb as (visited & _ & [Tm Tf Tv Tu Ts Ti Tc] & _).
  + intros y Hy. cbn. destruct (Hfl y) as [-> _]. by apply bool_decide_eq_true.
  + intros p z q y Ep Hz. rewrite (frame_deps app a') in Hz by (by etrans).
    cbn. destruct (Hfl y) as [-> _]. destruct (bool_decide_reflect (y ∈ pre)); [|by right].
    left. by apply (rollback_order app pre (x :: post) p z q y).
  + intros _ y. apply Hfl.
  + done.
  + split; cbn [fst snd]; [done|done|by apply mid_inv_with_state| | |by exists x, a].
    * apply frame_with_state. by do 2 (etrans; [done|]).
    * intros y. change (is_started a'' y = false). destruct (is_started a'' y) eqn:Ey; [|done].
      apply Ts in Ey. destruct (Hfl y) as [_ Hz]. by rewrite Hz in Ey.
Qed.

Lemma initialize_loop app :
mid_inv app -> layers_ok app -> trace app = [] ->
match foreach (foreach initialize_one) (app_forward_layers app) ([], app) with
| inl r => failed_initialize app r
| inr (done, a) => initializing app (concat (app_forward_layers app)) done a
end.
Proof.
intros Hm Hl Ht. rewrite foreach_concat.
apply (foreach_inv initialize_one (fun pre '(done, a) => initializing app pre done a)).
- assert (Hp : forall x, phase_after (trace app) x = (false, false)) by (intros x; by rewrite Ht).
  split; [done|done|done| | |by rewrite Ht].
  + intros y. pose proof (mi_phase _ Hm y) as Hy. rewrite Hp in Hy. injection Hy as -> _. done.
  + intros y. pose proof (mi_phase _ Hm y) as Hy. rewrite Hp in Hy. by injection Hy as _ ->.
- intros pre x post [done a] E Hi. pose proof (initialize_one_spec app pre x post done a Hm Hl E Hi) as Hs.
  destruct (initialize_one x (done, a)) as [|[done' a']]; done.
Qed.

(** The calls of a rollback: backwards, up to the first refusal. *)
Lemma rollback_calls h ids : forall ff app, (forall x, x ∈ ids -> registered app x) ->
let '(status, app') := after (foreach (rollback_one h) ids (ff, app)) in
exists calls k, trace app' = trace app ++ calls /\ map call_id calls = take k ids /\
  Forall (fun c => call_hook c = h) calls.
Proof.
induction ids as [|x ids IH]; intros ff app Hreg.
- exists [], 0%nat. cbn. by rewrite app_nil_r.
- cbn [foreach]. unfold rollback_one at 1, find_entry. destruct (Hreg x ltac:(by left)) as [e ->].
  destruct (run_hook h x app) as [status a] eqn:Er. injection Er as <- <-.
  set (c := {| call_hook := h; call_id := x; call_status := hook_status h x app |}).
  match goal with |- context [inr (_, ?app')] => set (a := app') end.
  assert (Ha : trace a = trace app ++ [c]) by done.
  assert (Hrega : forall y, y ∈ ids -> registered a y).
  { intros y Hy. specialize (Hreg y ltac:(by right)). unfold registered, a. cbn. destruct (is_ok _); [|done].
    destruct (decide (y = x)) as [->|]; [rewrite lookup_alter_eq; by apply fmap_is_Some|by rewrite lookup_alter_ne]. }
  destruct (is_ok _); cbn [after].
  + specialize (IH (record_failure (hook_status h x app) ff) a Hrega).
    destruct (after _) as [status' a']. destruct IH as (calls & k & E & Ek & Hall).
    exists (c :: calls), (S k). split; [by rewrite E, Ha, <- app_assoc|]. split; [cbn; by rewrite Ek|by constructor].
  + exists [c], 1%nat. split; [done|]. split; [cbn; by rewrite take_0|by repeat constructor].
Qed.

(** A hook call that succeeded. *)
Definition ok_call (h : Hook) (x : SubsystemId) : HookCall := {| call_hook := h; call_id := x; call_status := OK |}.

(** Where the start loop stands after [pre]. *)
Record starting (app : AppState) (pre done : list SubsystemId) (a : AppState) : Prop := {
sg_done : done = pre;
sg_mid : mid_inv a;
sg_frame : frame app a;
sg_initialized : forall y, is_initialized a y = is_initialized app y;
sg_started : forall y, is_started a y = bool_decide (y ∈ pre);
sg_trace : trace a = trace app ++ map (ok_call ON_START) pre;
}.

(** The calls of a start that failed with [status]: the starts that succeeded, in
  layer order, the one that failed, and stops of what was started, backwards. *)
Definition failed_start_calls (app : AppState) (status : Status) (calls : list HookCall) : Prop :=
exists pre x post stops k, concat (app_forward_layers app) = pre ++ x :: post /\
  calls = map (ok_call ON_START) pre ++ {| call_hook := ON_START; call_id := x; call_status := status |} :: stops /\
  map call_id stops = take k (reverse pre) /\ Forall (fun c => call_hook c = ON_STOP) stops.

Record failed_start (previous : LifecycleState) (app : AppState) (result : Status * AppState) : Prop := {
fs_status : result.1 <> OK;
fs_mid : mid_inv result.2;
fs_frame : frame app (with_state (state app) result.2);
fs_initialized : forall y, is_initialized result.2 y = is_initialized app y;
fs_state : (state result.2 = previous /\ forall y, is_started result.2 y = false) \/
  (state result.2 = CRASHED /\ exists y, is_started result.2 y = true);
fs_cause : exists y a, hook_status ON_START y a = result.1;
fs_trace : exists calls, trace result.2 = trace app ++ calls /\ failed_start_calls app result.1 calls;
}.

Lemma start_one_spec previous app pre x post done a :
mid_inv app -> layers_ok app -> concat (app_forward_layers app) = pre ++ x :: post ->
(forall y, registered app y -> is_initialized app y = true) ->
starting app pre done a ->
match start_one previous x (done, a) with
| inl r => failed_start previous app r
| inr (done', a') => starting app (pre ++ [x]) done' a'
end.
Proof.
intros Hm Hl E Hall [-> Ia If Ii Is It]. unfold start_one, find_entry.
assert (Hrega : registered app x) by (apply elem_of_forward; [done..|]; rewrite E; set_solver).
pose proof (proj2 (frame_registered _ _ _ If) Hrega) as Hreg. pose proof Hreg as [e He]. rewrite He.
assert (Hie : is_initialized a x = true) by (rewrite Ii; by apply Hall).
unfold is_initialized in Hie. rewrite He in Hie. rewrite Hie. cbn [negb].
pose proof (forward_nodup app Hm Hl) as Hnd. rewrite E in Hnd. apply NoDup_app in Hnd as (Hndp & Hdis & _).
assert (Hxp : x ∉ pre) by (intros Hx; apply (Hdis x Hx); set_solver).
assert (Hallow : hook_allowed (deps_of a) (trace a) ON_START x).
{ split.
  - rewrite <- (mi_phase _ Ia), Ii, Is, Hall by done. f_equal. by apply bool_decide_eq_false.
  - intros d Hd. rewrite <- (mi_phase _ Ia). cbn. rewrite Is. apply bool_decide_eq_true.
    rewrite (frame_deps app a) in Hd by done. exact (dependencies_first app pre x post d Hm Hl E Hd). }
destruct (run_hook_spec ON_START x a Ia Hreg Hallow) as (Es & Hm' & Hf' & Etr & Hflags).
destruct (run_hook ON_START x a) as [status a']. cbn [fst snd] in *.
remember (hook_status ON_START x a) as hs eqn:Ehs. subst status. rename hs into status.
unfold is_ok. destruct (bool_decide_reflect (status = OK)) as [->|Hne]; cbn [negb].
- split; [done|done|by etrans| | |by rewrite Etr, It, map_app, <- app_assoc].
  + intros y. destruct (Hflags y) as [-> _]. rewrite <- Ii. by destruct (decide _).
  + intros y. destruct (Hflags y) as [_ ->]. rewrite Is. destruct (decide (y = x)) as [->|Hy].
    * rewrite decide_True by done. symmetry. apply bool_decide_eq_true. set_solver.
    * rewrite decide_False by naive_solver. apply bool_decide_ext. set_solver.
- assert (Hfl : forall y, is_started a' y = bool_decide (y ∈ pre) /\ is_initialized a' y = is_initialized app y).
  { intros y. destruct (Hflags y) as [-> ->]. rewrite !decide_False by naive_solver. auto. }
  pose proof (rollback_spec ON_STOP pre a' (or_introl eq_refl) Hm') as Hrb.
  assert (Hcalls := rollback_calls ON_STOP (reverse pre) OK a').
  unfold rollback_started. destruct (after _) as [rs a''].
  destruct Hcalls as (stops & k & Estops & Ek & Hstops).
  { intros y Hy. rewrite elem_of_reverse in Hy. apply (proj2 (frame_registered a a' y Hf')), (proj2 (frame_registered app a y If)), elem_of_forward; [done..|].
    rewrite E.
    apply elem_of_app. by left. }
  destruct Hrb as (visited & _ & [Tm Tf Tv Tu Ts Ti Tc] & Hrs).
  + intros y Hy. cbn. destruct (Hfl y) as [-> _]. by apply bool_decide_eq_true.
  + intros p z q y Ep Hz. rewrite (frame_deps app a') in Hz by (by etrans).
    cbn. destruct (Hfl y) as [-> _]. destruct (bool_decide_reflect (y ∈ pre)); [|by right].
    left. by apply (rollback_order app pre (x :: post) p z q y).
  + done.
  + done.
  + split; cbn [fst snd]; [done|by apply mid_inv_with_state| | | |by exists x, a|].
    * apply frame_with_state. by do 2 (etrans; [done|]).
    * intros y. change (is_initialized a'' y = is_initialized app y). rewrite Ti by done. apply Hfl.
    * cbn [state with_state]. change (is_started (with_state ?s a'')) with (is_started a'').
      unfold is_ok. destruct (bool_decide_reflect (rs = OK)) as [Er|Er].
      -- left. split; [done|]. intros y. change (is_started a'' y = false).
         destruct (is_started a'' y) eqn:Ey; [|done].
         pose proof (Ts y Ey) as Ey'. destruct (Hfl y) as [Hz _]. rewrite Hz in Ey'.
         apply bool_decide_eq_true in Ey'. rewrite <- Ey. by apply (proj1 Hrs Er).
      -- right. split; [done|]. destruct (not_all_stopped pre (is_started a'')) as (y & _ & Hy).
         { intros Hz. by apply Er, Hrs. } by exists y.
    * eexists. split; [change (trace (with_state ?s a'')) with (trace a''); rewrite Estops, Etr, It, <- !app_assoc; reflexivity|].
      exists pre, x, post, stops, k. done.
Qed.

Lemma start_loop previous app :
mid_inv app -> layers_ok app -> (forall y, registered app y -> is_initialized app y = true) ->
(forall y, is_started app y = false) ->
match foreach (foreach (start_one previous)) (app_forward_layers app) ([], app) with
| inl r => failed_start previous app r
| inr (done, a) => starting app (concat (app_forward_layers app)) done a
end.
Proof.
intros Hm Hl Hall Hnone. rewrite foreach_concat.
apply (foreach_inv (start_one previous) (fun pre '(done, a) => starting app pre done a)).
- split; [done|done|done|done| |by rewrite app_nil_r]. intros y. by rewrite Hnone.
- intros pre x post [done a] E Hi.
  pose proof (start_one_spec previous app pre x post done a Hm Hl E Hall Hi) as Hs.
  destruct (start_one previous x (done, a)) as [|[done' a']]; done.
Qed.

(** ** The state machine at rest *)

Definition transitional (s : LifecycleState) : bool :=
match s with
| INITIALIZING | STARTING | STOPPING | TERMINATING => true
| _ => false
end.

(** Every subsystem has completed initialisation. *)
Definition ready (app : AppState) : Prop :=
layers_ok app /\ forall x, registered app x -> is_initialized app x = true.

(** What each lifecycle state promises between public calls. *)
Record rest_inv (app : AppState) : Prop := {
ri_mid : mid_inv app;
ri_layers : layers_ok app \/
  (app_forward_layers app = [] /\ app_reverse_layers app = [] /\
   forall x, is_initialized app x = false);
ri_fresh : state app = UNINITIALIZED ->
  trace app = [] /\ app_forward_layers app = [] /\ app_reverse_layers app = [];
ri_frozen : frozen app = true <-> state app <> UNINITIALIZED;
ri_ready : state app = INITIALIZED \/ state app = RUNNING \/ state app = STOPPED -> ready app;
ri_running : state app = RUNNING -> forall x, registered app x -> is_started app x = true;
ri_quiet : state app = INITIALIZED \/ state app = STOPPED \/ state app = TERMINATED ->
  forall x, is_started app x = false;
ri_terminated : state app = TERMINATED -> forall x, is_initialized app x = false;
ri_settled : transitional (state app) = false;
}.

(** Reachable from construction by public calls. *)
Inductive app_reachable : AppState -> Prop :=
| reachable_new : app_reachable new_app
| reachable_register id sub app :
  app_reachable app -> app_reachable (snd (register_subsystem_erased id sub app))
| reachable_initialize m app : app_reachable app -> app_reachable (snd (initialize m app))
| reachable_start app : app_reachable app -> app_reachable (snd (start app))
| reachable_stop app : app_reachable app -> app_reachable (snd (stop app))
| reachable_terminate app : app_reachable app -> app_reachable (snd (terminate app)).

Lemma new_app_rest : rest_inv new_app.
Proof.
assert (Hempty : forall x : SubsystemId, subsystems new_app !! x = None) by (intros x; apply lookup_empty).
split; try done.
- split.
  + split; [constructor|]. intros x. unfold registered. rewrite Hempty. split; [by intros ?%elem_of_nil|by intros [? ?]].
  + intros n x. cbn. rewrite !lookup_empty. by split; [|intros (? & ? & ?)].
  + intros x. unfold is_initialized, is_started. by rewrite Hempty.
  + intros x. unfold is_started. by rewrite Hempty.
  + intros pre c post E. by destruct pre.
- right. split_and!; [done|done|]. intros x. unfold is_initialized. by rewrite Hempty.
- by intros [?|[?|?]].
Qed.

Lemma register_rest id sub app :
rest_inv app -> rest_inv (snd (register_subsystem_erased id sub app)).
Proof.
intros Hr. unfold register_subsystem_erased. destruct sub as [sub|]; [|done].
destruct (String.eqb _ _); [done|]. destruct (frozen app) eqn:Efr; [done|].
case_bool_decide as Hid; [done|]. case_bool_decide as Hname; [done|]. cbn [snd].
apply eq_None_not_Some in Hid, Hname. pose proof Hr as [Rm Rl Rf Rz Rr Rg Rq Rt Rs].
assert (Es : state app = UNINITIALIZED).
{ destruct (decide (state app = UNINITIALIZED)) as [|Hn]; [done|]. apply Rz in Hn. congruence. }
destruct (Rf Es) as (Rtr & Rfw & Rrv). pose proof Rm as [[M1a M1b] M2 M3 M4 M5]. set (app' := {| subsystems := _ |}).
assert (Hold : forall x, is_initialized app x = false /\ is_started app x = false).
{ intros x. pose proof (M3 x) as E. rewrite Rtr in E. by injection E as -> ->. }
assert (Hnew : forall x, is_initialized app' x = false /\ is_started app' x = false).
{ intros x. unfold is_initialized, is_started, app'. cbn [subsystems].
  destruct (decide (x = id)) as [->|Hne]; [by rewrite lookup_insert_eq|].
  rewrite lookup_insert_ne by done. apply Hold. }
assert (Hreg : forall x, registered app' x <-> x = id \/ registered app x).
{ intros x. unfold registered, app'. cbn [subsystems]. rewrite lookup_insert_is_Some. 
  destruct (decide (x = id)) as [->|]; naive_solver. }
split; try done.
- split.
  + cbn [registration_order app']. split.
    * apply NoDup_app. split_and!; [done| |apply NoDup_singleton].
      intros x Hx ->%list_elem_of_singleton. apply M1b in Hx as [e He]. congruence.
    * intros x. rewrite Hreg, elem_of_app, list_elem_of_singleton, M1b. tauto.
  + intros n x. cbn [subsystem_names subsystems app'].
    destruct (decide (n = name sub)) as [->|Hn].
    * rewrite lookup_insert_eq. split.
      -- intros [= ->]. rewrite lookup_insert_eq. by eexists.
      -- intros (e & He & Hne). destruct (decide (x = id)) as [->|Hx]; [done|].
         rewrite lookup_insert_ne in He by done. exfalso.
         assert (Hz : subsystem_names app !! name sub = Some x) by (apply M2; by exists e). congruence.
    * rewrite lookup_insert_ne by done. rewrite M2. destruct (decide (x = id)) as [->|Hx].
      -- rewrite lookup_insert_eq. split; [intros (e & He & _); congruence|].
         intros (e & [= <-] & Hz). by destruct Hn.
      -- by rewrite lookup_insert_ne.
  + intros x. destruct (Hnew x) as [-> ->]. cbn [trace app']. by rewrite Rtr.
  + intros x. destruct (Hnew x) as [_ ->]. done.
  + cbn [trace app']. rewrite Rtr. intros pre c post E. by destruct pre.
- right. split_and!; [done|done|]. intros x. apply Hnew.
- intros Hst. cbn in Hst. rewrite Es in Hst. naive_solver.
- intros Hst. cbn in Hst. by rewrite Es in Hst.
- intros Hst x. apply Hnew.
- intros Hst. cbn in Hst. by rewrite Es in Hst.
Qed.

Lemma layers_ok_with_state s app : layers_ok app <-> layers_ok (with_state s app).
Proof. split; intros []; split; done. Qed.

Lemma frame_back s app a : frame app (with_state s a) -> mid_inv a -> layers_ok app -> layers_ok a.
Proof. intros Hf Hm Hl. apply (layers_ok_with_state s). by eapply frame_layers. Qed.

(** A framed successor of a state past registration. *)
Lemma rest_successor app a :
frozen app = true -> frame app (with_state (state app) a) -> mid_inv a ->
(layers_ok app \/ (app_forward_layers app = [] /\ app_reverse_layers app = [] /\
   forall x, is_initialized a x = false)) ->
state a <> UNINITIALIZED -> transitional (state a) = false ->
(state a = INITIALIZED \/ state a = RUNNING \/ state a = STOPPED -> ready a) ->
(state a = RUNNING -> forall x, registered a x -> is_started a x = true) ->
(state a = INITIALIZED \/ state a = STOPPED \/ state a = TERMINATED ->
 forall x, is_started a x = false) ->
(state a = TERMINATED -> forall x, is_initialized a x = false) ->
rest_inv a.
Proof.
intros Hz Hf Hm Hl Hu Ht Hr Hg Hq Htm. split; try done.
- destruct Hl as [Hl|(El & Er & Hi)]; [left; by eapply frame_back|right].
  pose proof (fr_forward _ _ Hf) as Ef. pose proof (fr_reverse _ _ Hf) as Eb. cbn in Ef, Eb.
  rewrite Ef, Eb. done.
- pose proof (fr_frozen _ _ Hf) as Ez. cbn in Ez. rewrite Ez, Hz. done.
Qed.

(** Nothing has happened before initialisation. *)
Lemma untouched app :
mid_inv app -> trace app = [] ->
(forall x, is_initialized app x = false) /\ (forall x, is_started app x = false).
Proof.
intros Hm Ht. split; intros x; pose proof (mi_phase _ Hm x) as E; rewrite Ht in E; injection E as E1 E2; congruence.
Qed.

(** Why a topology is rejected. *)
Definition topology_failure (app : AppState) (status : Status) : Prop :=
match status with
| DEPENDENCY_CYCLE => declared_ok app /\ ~ acyclic app
| MISSING_DEPENDENCY => exists x d, declares app d x /\ ~ registered app d
| DUPLICATE_DEPENDENCY => exists x, ~ NoDup (deps_of app x)
| _ => False
end.

(** The branches of [initialize] from the only state that admits it. *)
Lemma initialize_outcome m app :
rest_inv app -> state app = UNINITIALIZED -> valid_operating_mode m = true ->
let '(status, a) := initialize m app in
rest_inv a /\
(forall x, deps_of a x = deps_of app x) /\ (forall x, registered a x <-> registered app x) /\
mode a = m /\
if decide (status = OK)
then state a = INITIALIZED /\ declared_ok app /\ acyclic app /\
     trace a = map (fun x => {| call_hook := ON_INITIALIZE; call_id := x; call_status := OK |})
       (concat (app_forward_layers a))
else state a = CRASHED /\ (forall x, is_started a x = false) /\
     ((topology_failure app status /\ trace a = []) \/
      (declared_ok app /\ acyclic app /\ exists y b, hook_status ON_INITIALIZE y b = status)).
Proof.
intros Hr Es Hv. unfold initialize. rewrite bool_decide_true, Hv by done. cbn [negb].
destruct (ri_fresh _ Hr Es) as (Htr & Hfw & Hrv). pose proof (ri_mid _ Hr) as Hm.
set (app0 := with_state INITIALIZING (with_mode m (freeze app))).
assert (Hm0 : mid_inv app0) by (by destruct Hm; split).
pose proof (build_topology_spec app0 Hm0) as Hb. destruct (build_topology app0) as [status app1].
assert (Hfail : forall status, status <> OK -> app1 = app0 ->
  rest_inv (with_state CRASHED app1) /\ forall x, is_started (with_state CRASHED app1) x = false).
{ intros s Hs ->. destruct (untouched app Hm Htr) as [Hi Hst]. split; [|exact Hst].
  apply (rest_successor app0); try done; [by apply mid_inv_with_state|by right|by intros [?|[?|?]]]. }
destruct (decide (status = OK)) as [->|Hne].
2: { unfold is_ok. rewrite bool_decide_false by done. cbn [negb]. rewrite decide_False by done.
     assert (app1 = app0) as Ea by (destruct status; naive_solver).
     destruct (Hfail status Hne Ea) as [Hri Hst].
     assert (Htf : topology_failure app status) by (unfold topology_failure; destruct status; tauto).
     rewrite Ea in *. split_and!; try done. by left. }
destruct Hb as (Hdecl & Hac & Hl1 & g & fwd & E1). unfold is_ok at 1. rewrite bool_decide_true by done.
cbn [negb]. assert (Hm1 : mid_inv app1) by (rewrite E1; by destruct Hm0; split).
assert (Htr1 : trace app1 = []) by (by rewrite E1).
pose proof (initialize_loop app1 Hm1 Hl1 Htr1) as Hloop.
assert (Hfz : frozen app1 = true) by (by rewrite E1).
assert (Hd1 : (forall x, deps_of app1 x = deps_of app x) /\ (forall x, registered app1 x <-> registered app x)
  /\ mode app1 = m) by (rewrite E1; done).
destruct Hd1 as (Hd1 & Hr1 & Hmode). clear Hfail E1.
destruct (foreach _ _ _) as [[s a]|[done a]].
- destruct Hloop as [Fs Fst Fm Ff Fq Fc]; cbn [fst snd] in *. rewrite decide_False by done.
  split_and!; [|intros x; rewrite <- Hd1; exact (frame_deps _ _ x Ff)
    |intros x; rewrite <- Hr1; exact (frame_registered _ _ x Ff)| |done|done|by right].
  + apply (rest_successor app1); try done; rewrite ?Fst; first [done|by left|by intros [?|[?|?]]].
  + rewrite <- Hmode. apply (fr_mode _ _ Ff).
- destruct Hloop as [-> Im If Ii Is It]. rewrite decide_True by done.
  split_and!; [|intros x; rewrite <- Hd1; exact (frame_deps _ _ x If)
    |intros x; rewrite <- Hr1; exact (frame_registered _ _ x If)| |done|done|done|].
  + apply (rest_successor app1); try done; [by apply frame_with_state|by apply mid_inv_with_state|by left|].
    intros _. split; [exact (proj1 (layers_ok_with_state INITIALIZED a) (frame_layers _ _ If Hl1))|].
    intros x Hx. change (is_initialized a x = true). rewrite Ii. apply bool_decide_eq_true.
    apply elem_of_forward; [done..|]. apply (frame_registered _ _ x If). exact Hx.
  + rewrite <- Hmode. apply (fr_mode _ _ If).
  + cbn. rewrite It. by rewrite (fr_forward _ _ If).
Qed.

Lemma rest_frozen app : rest_inv app -> state app <> UNINITIALIZED -> frozen app = true.
Proof. intros Hr Hs. by apply (ri_frozen _ Hr). Qed.

Lemma start_outcome app :
rest_inv app -> state app = INITIALIZED \/ state app = STOPPED ->
let '(status, a) := start app in
rest_inv a /\ frame app (with_state (state app) a) /\
(forall x, is_initialized a x = is_initialized app x) /\
if decide (status = OK) then state a = RUNNING /\
  trace a = trace app ++ map (ok_call ON_START) (concat (app_forward_layers app))
else ((state a = state app /\ forall x, is_started a x = false) \/
      (state a = CRASHED /\ exists x, is_started a x = true)) /\
     (exists y b, hook_status ON_START y b = status) /\
     exists calls, trace a = trace app ++ calls /\ failed_start_calls app status calls.
Proof.
intros Hr Hs. assert (Hready : ready app) by (apply (ri_ready _ Hr); tauto). destruct Hready as [Hl Hall].
assert (Hnone : forall x, is_started app x = false) by (apply (ri_quiet _ Hr); tauto).
assert (Hfz : frozen app = true) by (apply (rest_frozen _ Hr); destruct Hs as [->| ->]; done).
unfold start. destruct (negb _ && negb _) eqn:Eg.
{ exfalso. apply andb_true_iff in Eg as [E1 E2]. rewrite !negb_true_iff, !bool_decide_eq_false in *. tauto. }
clear Eg. set (app0 := with_state STARTING app).
assert (Hm0 : mid_inv app0) by (apply mid_inv_with_state; apply Hr).
assert (Hl0 : layers_ok app0) by exact (proj1 (layers_ok_with_state STARTING app) Hl).
pose proof (start_loop (state app) app0 Hm0 Hl0 Hall Hnone) as Hloop.
destruct (foreach _ _ _) as [[s a]|[done a]].
- destruct Hloop as [Fs Fm Ff Fi Fst Fc Ftr]. cbn [fst snd] in *. rewrite decide_False by done.
  assert (Hf : frame app (with_state (state app) a)) by (by destruct Ff; split).
  assert (Hla : layers_ok a) by exact (frame_back STARTING app0 a Ff Fm Hl0).
  split_and!; [|done|done|done|done|done].
  apply (rest_successor app); try done; [by left|..];
    destruct Fst as [[-> Hz]|[-> Hz]]; try done; try (destruct Hs as [->| ->]; done).
  + intros _. split; [done|]. intros x Hx. rewrite Fi. apply Hall. exact (proj1 (frame_registered _ _ x Ff) Hx).
  + by intros [?|[?|?]].
  + by intros [?|[?|?]].
- destruct Hloop as [-> Sm Sf Si Ss St]. rewrite decide_True by done.
  split_and!; [|by destruct Sf; split|done|done|exact St].
  apply (rest_successor app); try done; [by destruct Sf; split|by apply mid_inv_with_state|by left|..].
  + intros _. split; [exact (proj1 (layers_ok_with_state RUNNING a) (frame_layers _ _ Sf Hl0))|].
    intros x Hx. change (is_initialized a x = true). rewrite Si. apply Hall.
    exact (proj1 (frame_registered _ _ x Sf) Hx).
  + intros _ x Hx. change (is_started a x = true). rewrite Ss. apply bool_decide_eq_true.
    apply elem_of_forward; [done..|]. exact (proj1 (frame_registered _ _ x Sf) Hx).
  + by intros [?|[?|?]].
Qed.

(** [stop_started] whatever the layers. *)
Lemma stop_started_rest best_effort app :
mid_inv app ->
(layers_ok app \/ (app_forward_layers app = [] /\ app_reverse_layers app = [] /\
   forall x, is_initialized app x = false)) ->
let '(status, app') := stop_started best_effort app in
mid_inv app' /\ frame app app' /\
(forall y, is_initialized app' y = is_initialized app y) /\
(forall y, is_started app' y = true -> is_started app y = true) /\
(status = OK <-> forall y, is_started app' y = false) /\
(best_effort = true -> forall y, is_started app' y = true -> failed_call ON_STOP y (trace app')) /\
(best_effort = false -> closed app -> closed app') /\
(status <> OK -> exists y a, hook_status ON_STOP y a <> OK).
Proof.
intros Hm [Hl|(_ & Eb & Hi)]; [by apply stop_started_spec|].
unfold stop_started. rewrite Eb. cbn.
assert (Hs : forall y, is_started app y = false).
{ intros y. destruct (is_started app y) eqn:E; [|done]. apply (mi_started _ Hm) in E. by rewrite Hi in E. }
split_and!; try done. intros _ y Hy. by rewrite Hs in Hy.
Qed.

Lemma stop_outcome app :
rest_inv app -> state app = RUNNING \/ state app = CRASHED ->
let '(status, a) := stop app in
rest_inv a /\ frame app (with_state (state app) a) /\
(forall x, is_initialized a x = is_initialized app x) /\
(forall x, is_started a x = true -> is_started app x = true) /\
(status = OK <-> forall x, is_started a x = false) /\
(closed app -> closed a) /\
(status <> OK -> exists y b, hook_status ON_STOP y b <> OK) /\
state a = if bool_decide (status = OK) && bool_decide (state app = RUNNING) then STOPPED else CRASHED.
Proof.
intros Hr Hs. assert (Hfz : frozen app = true) by (apply (rest_frozen _ Hr); destruct Hs as [->| ->]; done).
set (app0 := with_state STOPPING app).
assert (Hm0 : mid_inv app0) by (apply mid_inv_with_state; apply Hr).
assert (Hl0 : layers_ok app0 \/ (app_forward_layers app0 = [] /\ app_reverse_layers app0 = [] /\
   forall x, is_initialized app0 x = false)).
{ destruct (ri_layers _ Hr) as [Hl|Hn]; [left|by right]. exact (proj1 (layers_ok_with_state STOPPING app) Hl). }
pose proof (stop_started_rest false app0 Hm0 Hl0) as Hspec.
assert (Estop : stop app = let '(status, a) := stop_started false app0 in
  (status, with_state (if is_ok status && negb (bool_decide (state app = CRASHED)) then STOPPED else CRASHED) a)).
{ unfold stop, app0. destruct Hs as [->| ->]; done. }
rewrite Estop. destruct (stop_started false app0) as [status a].
destruct Hspec as (Sm & Sf & Si & Ss & Sok & _ & Sc & Sca). specialize (Sc eq_refl).
set (s' := if is_ok status && negb (bool_decide (state app = CRASHED)) then STOPPED else CRASHED).
assert (Es' : s' = if bool_decide (status = OK) && bool_decide (state app = RUNNING) then STOPPED else CRASHED).
{ unfold s', is_ok. f_equal. f_equal. destruct Hs as [->| ->]; done. }
assert (Hf : frame app (with_state (state app) (with_state s' a))) by (by destruct Sf; split).
split_and!; [|done|done|done|done|done|done|done].
assert (Hcase : (s' = STOPPED /\ (forall x, is_started a x = false) /\ state app = RUNNING) \/ s' = CRASHED).
{ rewrite Es'. destruct (bool_decide_reflect (status = OK)) as [->|]; [|by right].
  destruct (bool_decide_reflect (state app = RUNNING)); [left|by right]. split_and!; [done| |done].
  by apply Sok. }
apply (rest_successor app); try done; cbn [state with_state].
- by apply mid_inv_with_state.
- destruct Hl0 as [Hl|(E1 & E2 & Hi)]; [left; exact (proj2 (layers_ok_with_state STOPPING app) Hl)|right].
  split_and!; [done|done|]. intros x. change (is_initialized a x = false). rewrite Si. apply Hi.
- by destruct Hcase as [(-> & _)| ->].
- by destruct Hcase as [(-> & _)| ->].
- destruct Hcase as [(-> & _ & Erun)| ->]; [|by intros [?|[?|?]]]. intros _.
  destruct (ri_ready _ Hr) as [Hl Hall]; [tauto|]. split.
  + apply (frame_back (state app) app); [done|by apply mid_inv_with_state|done].
  + intros x Hx. change (is_initialized a x = true). rewrite Si. apply Hall.
    exact (proj1 (frame_registered _ _ x Sf) Hx).
- by destruct Hcase as [(-> & _)| ->].
- destruct Hcase as [(-> & Hz & _)| ->]; [done|by intros [?|[?|?]]].
- by destruct Hcase as [(-> & _)| ->].
Qed.

Lemma terminate_outcome app :
rest_inv app ->
let '(status, a) := terminate app in
rest_inv a /\ (forall x, deps_of a x = deps_of app x) /\
state a = (if decide (status = OK) then TERMINATED else CRASHED) /\
(status = OK -> forall x, is_initialized a x = false /\ is_started a x = false) /\
(status <> OK -> exists h y b, hook_status h y b <> OK).
Proof.
intros Hr. pose proof (ri_settled _ Hr) as Hset. pose proof (ri_mid _ Hr) as Hm.
destruct (decide (state app = TERMINATED)) as [Es|Hnt].
{ unfold terminate. rewrite Es. split_and!; [done|done|by rewrite decide_True| |done]. intros _ x.
  split; [by apply (ri_terminated _ Hr)|apply (ri_quiet _ Hr); auto]. }
destruct (decide (state app = UNINITIALIZED)) as [Es|Hnu].
{ unfold terminate. rewrite Es. destruct (ri_fresh _ Hr Es) as (Htr & Efw & Erv).
  destruct (untouched app Hm Htr) as [Hi Hst].
  assert (Hm' : mid_inv (with_state TERMINATED (freeze app))) by (by destruct Hm; split).
  split_and!; [|done|by rewrite decide_True|intros _ x; split; [apply Hi|apply Hst]|done]. split; try done.
  - right. split_and!; done.
  - by intros [?|[?|?]]. }
assert (Hfz : frozen app = true) by (by apply (rest_frozen _ Hr)).
set (app0 := with_state TERMINATING app).
assert (Hm0 : mid_inv app0) by (by apply mid_inv_with_state).
assert (Hl0 : layers_ok app0 \/ (app_forward_layers app0 = [] /\ app_reverse_layers app0 = [] /\
   forall x, is_initialized app0 x = false)).
{ destruct (ri_layers _ Hr) as [Hl|Hn]; [left|by right]. exact (proj1 (layers_ok_with_state TERMINATING app) Hl). }
assert (Eterm : terminate app = let '(ff, a) := stop_started true app0 in
  let '(status, a) := terminate_initialized a in let ff := record_failure status ff in
  (ff, with_state (if is_ok ff then TERMINATED else CRASHED) a)).
{ unfold terminate, app0. destruct (state app); done. }
rewrite Eterm. pose proof (stop_started_rest true app0 Hm0 Hl0) as Hstop.
destruct (stop_started true app0) as [ff a1].
destruct Hstop as (Sm & Sf & Si & Ss & Sok & Sfail & _ & Sca). specialize (Sfail eq_refl).
assert (Hterm : let '(status, a) := terminate_initialized a1 in
  mid_inv a /\ frame a1 a /\ (forall y, is_started a y = true -> is_started a1 y = true) /\
  (status = OK <-> forall y, is_initialized a y = false) /\
  (status <> OK -> exists y b, hook_status ON_TERMINATE y b <> OK)).
{ destruct Hl0 as [Hl|(E1 & E2 & Hi)]; [by apply terminate_initialized_spec; [|eapply frame_layers|]|].
  unfold terminate_initialized. rewrite (fr_reverse _ _ Sf), E2. cbn. split_and!; try done.
  split; [|done]. intros _ y. rewrite Si. apply Hi. }
assert (Hnil : app_reverse_layers app = [] -> snd (terminate_initialized a1) = a1).
{ intros E. unfold terminate_initialized. rewrite (fr_reverse _ _ Sf). cbn. by rewrite E. }
destruct (terminate_initialized a1) as [ts a]. cbn [snd] in Hnil. destruct Hterm as (Tm & Tf & Ts & Tok & Tca).
set (final := record_failure ts ff). assert (Hfinal : final = OK <-> ts = OK /\ ff = OK) by apply record_failure_ok.
assert (Hf : forall s, frame app (with_state (state app) (with_state s a))).
{ intros s. assert (Hff : frame app0 a) by (by etrans). by destruct Hff; split. }
assert (Hlayers : layers_ok app \/ (app_forward_layers app = [] /\ app_reverse_layers app = [] /\
   forall x, is_initialized a x = false)).
{ destruct Hl0 as [Hl|(E1 & E2 & Hi)]; [left; exact (proj2 (layers_ok_with_state TERMINATING app) Hl)|right].
  split_and!; [done|done|]. intros x. rewrite Hnil, Si by done. apply Hi. }
assert (Hgone : final = OK -> forall x, is_initialized a x = false /\ is_started a x = false).
{ intros [H1 H2]%Hfinal x. split; [by apply Tok|]. destruct (is_started a x) eqn:E; [|done].
  apply Ts in E. pose proof (proj1 Sok H2 x) as Hz. congruence. }
assert (Hcause : final <> OK -> exists h y b, hook_status h y b <> OK).
{ intros Hne. destruct (decide (ts = OK)) as [Et|Et].
  - destruct Sca as (y & b & Hb); [by intros ->; apply Hne, Hfinal|]. by exists ON_STOP, y, b.
  - destruct (Tca Et) as (y & b & Hb). by exists ON_TERMINATE, y, b. }
unfold is_ok. destruct (bool_decide_reflect (final = OK)) as [Ef|Ef].
- rewrite decide_True by done. split_and!; [| |done|by auto|done].
  2: { intros x. exact (frame_deps _ _ x (Hf TERMINATED)). }
  apply (rest_successor app); try done; [by apply mid_inv_with_state|..].
  + by intros [?|[?|?]].
  + intros _ x. by apply Hgone.
  + intros _ x. by apply Hgone.
- rewrite decide_False by done. split_and!; [| |done|done|done].
  2: { intros x. exact (frame_deps _ _ x (Hf CRASHED)). }
  apply (rest_successor app); try done; [by apply mid_inv_with_state|..].
  + by intros [?|[?|?]].
  + by intros [?|[?|?]].
Qed.

Lemma app_reachable_rest app : app_reachable app -> rest_inv app.
Proof.
induction 1 as [|id sub app _ IH|m app _ IH|app _ IH|app _ IH|app _ IH].
- apply new_app_rest.
- by apply register_rest.
- destruct (decide (state app = UNINITIALIZED)) as [Es|Es].
  + destruct (valid_operating_mode m) eqn:Ev.
    * pose proof (initialize_outcome m app IH Es Ev) as Ho. destruct (initialize m app). apply Ho.
    * unfold initialize. by rewrite bool_decide_true, Ev.
  + unfold initialize. by rewrite bool_decide_false.
- destruct (decide (state app = INITIALIZED \/ state app = STOPPED)) as [Es|Es].
  + pose proof (start_outcome app IH Es) as Ho. destruct (start app). apply Ho.
  + unfold start. by rewrite !bool_decide_false by tauto.
- destruct (decide (state app = RUNNING \/ state app = CRASHED)) as [Es|Es].
  + pose proof (stop_outcome app IH Es) as Ho. destruct (stop app). apply Ho.
  + unfold stop. destruct (state app); (done || tauto).
- pose proof (terminate_outcome app IH) as Ho. destruct (terminate app). apply Ho.
Qed.
End App.
Arguments AppSubsystem SubsystemId : clear implicits.
Arguments AppState SubsystemId {_ _}.
Arguments SubsystemHooks SubsystemId {_ _}.

(** ** Properties *)

Section Properties.
Context {SubsystemId : Type} `{Countable SubsystemId} {hooks : SubsystemHooks SubsystemId}.
Implicit Types app : AppState SubsystemId.

(** A subsystem that is initialised has been called to. *)
Lemma initialized_called (x : SubsystemId) (calls : list (HookCall (SubsystemId := SubsystemId))) : (phase_after calls x).1 = true -> called ON_INITIALIZE x calls.
Proof.
induction calls as [|c calls IH] using rev_ind; [done|]. unfold phase_after. rewrite fold_left_app. cbn [fold_left].
fold (phase_after calls x). unfold replay_call.
assert (Hearlier : (phase_after calls x).1 = true -> called ON_INITIALIZE x (calls ++ [c])).
{ intros (c1 & ? & ?)%IH. exists c1. split; [apply elem_of_app; by left|done]. }
destruct (bool_decide_reflect (call_id c = x)) as [Ex|]; cbn [andb]; [|exact Hearlier].
destruct (is_ok _); [|exact Hearlier]. destruct (call_hook c) eqn:Eh; cbn [fst]; try done.
intros _. exists c. split; [apply elem_of_app; right; by left|done].
Qed.

(** One whose termination succeeded is not initialised again. *)
Lemma terminated_stays (deps : SubsystemId -> list SubsystemId) (x : SubsystemId) (calls : list (HookCall (SubsystemId := SubsystemId))) :
(forall pre c post, calls = pre ++ c :: post -> hook_allowed deps pre (call_hook c) (call_id c)) ->
(exists c, c ∈ calls /\ call_hook c = ON_TERMINATE /\ call_id c = x /\ call_status c = OK) ->
(phase_after calls x).1 = false.
Proof.
induction calls as [|c calls IH] using rev_ind; intros Hall (c0 & Hin & Hh & Hx & Hok); [by apply elem_of_nil in Hin|].
unfold phase_after. rewrite fold_left_app. cbn [fold_left]. fold (phase_after calls x). unfold replay_call.
apply elem_of_app in Hin as [Hin| ->%list_elem_of_singleton].
2: { by rewrite Hx, bool_decide_eq_true_2, Hok, Hh by done. }
assert (Hprev : (phase_after calls x).1 = false).
{ apply IH; [|by exists c0]. intros pre c1 post ->. apply (Hall pre c1 (post ++ [c])). by rewrite <- app_assoc. }
destruct (bool_decide_reflect (call_id c = x)) as [Ex|]; cbn [andb]; [|done]. destruct (is_ok _); [|done].
destruct (call_hook c) eqn:Eh; cbn [fst]; try done. exfalso.
pose proof (Hall calls c [] eq_refl) as Hc. rewrite Eh, Ex in Hc. destruct Hc as [Hnot _]. apply Hnot.
apply list_elem_of_split in Hin as (pre & post & E). subst calls.
pose proof (Hall pre c0 (post ++ [c]) ltac:(by rewrite <- app_assoc)) as Hterm. rewrite Hh, Hx in Hterm.
destruct Hterm as [Hp _]. apply initialized_called in Hp as (c1 & ? & ?). exists c1. split; [apply elem_of_app; by left|done].
Qed.

(** C36. In every reachable history each hook is called only when the lifecycle
  allows it: [initialize] at most once and after the dependencies; [start] on
  an initialised, idle subsystem after its dependencies started; [stop] and
  [terminate] only on a subsystem in that phase and, unless a dependent
  refused, after all dependents. A termination hook is called again only when
  every earlier call of it failed; so it succeeds at most once, and where no
  termination hook fails each is called at most once, as documented. The
  recorded phases are those the history implies. *)
Theorem lifecycle_protocol app :
app_reachable app ->
(forall pre c post, trace app = pre ++ c :: post ->
   hook_allowed (deps_of app) pre (call_hook c) (call_id c) /\
   (call_hook c = ON_TERMINATE -> forall c', c' ∈ pre -> call_hook c' = ON_TERMINATE -> call_id c' = call_id c ->
      call_status c' <> OK)) /\
(forall x, (is_initialized app x, is_started app x) = phase_after (trace app) x).
Proof.
intros Hr%app_reachable_rest%ri_mid. split; [|apply (mi_phase _ Hr)]. intros pre c post E.
pose proof (mi_protocol _ Hr _ _ _ E) as Hallowed. split; [exact Hallowed|]. intros Eh c' Hin Eh' Eid Hok.
rewrite Eh in Hallowed. destruct Hallowed as [Hphase _].
rewrite (terminated_stays (deps_of app) (call_id c) pre) in Hphase; [done| |by exists c'].
intros pre' c1 post' E'. apply (mi_protocol _ Hr pre' c1 (post' ++ c :: post)). by rewrite E, E', <- app_assoc.
Qed.

(** What each lifecycle state promises between public calls. *)
Theorem lifecycle_states app :
app_reachable app ->
(forall x, is_started app x = true -> is_initialized app x = true) /\
(registration_frozen app = true <-> state app <> UNINITIALIZED) /\
match state app with
| UNINITIALIZED => trace app = []
| INITIALIZED | STOPPED =>
    ready app /\ forall x, is_started app x = false
| RUNNING => ready app /\ forall x, registered app x -> is_started app x = true
| TERMINATED => forall x, is_initialized app x = false /\ is_started app x = false
| CRASHED => True
| INITIALIZING | STARTING | STOPPING | TERMINATING => False
end.
Proof.
intros Hr%app_reachable_rest. split; [apply (mi_started _ (ri_mid _ Hr))|].
split; [apply (ri_frozen _ Hr)|]. pose proof (ri_settled _ Hr) as Hset.
pose proof (ri_ready _ Hr). pose proof (ri_running _ Hr). pose proof (ri_quiet _ Hr).
pose proof (ri_terminated _ Hr). pose proof (ri_fresh _ Hr).
destruct (state app); try done; try (split; [tauto|auto]); [tauto|].
intros x. split; auto.
Qed.

(** Calls that the lifecycle state does not admit, re-entrant calls from hooks
  included, report so and change nothing; registration is closed for good
  once initialisation was attempted. *)
Theorem inadmissible_calls_rejected app m id sub :
(if decide (state app = UNINITIALIZED)
 then initialize m app = (INVALID_ARGUMENT, app) \/ valid_operating_mode m = true
 else initialize m app = (INVALID_LIFECYCLE_TRANSITION, app)) /\
(if decide (state app = INITIALIZED \/ state app = STOPPED) then True
 else start app = (INVALID_LIFECYCLE_TRANSITION, app)) /\
(if transitional (state app)
 then stop app = (INVALID_LIFECYCLE_TRANSITION, app) /\
      terminate app = (INVALID_LIFECYCLE_TRANSITION, app)
 else if decide (state app = RUNNING \/ state app = CRASHED) then True else stop app = (OK, app)) /\
(if registration_frozen app
 then exists status, status <> OK /\ register_subsystem_erased id sub app = (status, app)
 else True).
Proof.
split_and!.
- unfold initialize. case_decide as Hs; [|by rewrite bool_decide_false].
  rewrite bool_decide_true by done. cbn. destruct (valid_operating_mode m); [by right|by left].
- case_decide as Hs; [done|]. unfold start. by rewrite !bool_decide_false by tauto.
- unfold stop, terminate. destruct (state app) eqn:Es; cbn; try done; case_decide; naive_solver.
- unfold registration_frozen, register_subsystem_erased. destruct (frozen app); [|done].
  destruct sub as [sub|]; [destruct (String.eqb _ _)|]; (eexists; split; [|done]; done).
Qed.

(** The registry: a subsystem is filed under its type exactly when pointer,
  name and both uniqueness checks pass, in registration order; a failing
  registration changes nothing. *)
Theorem registration_exact app id sub :
app_reachable app ->
let '(status, a) := register_subsystem_erased id sub app in
if decide (status = OK)
then state app = UNINITIALIZED /\ find_subsystem id a = sub /\ find_subsystem id app = None /\
     registration_order a = registration_order app ++ [id] /\ app_size a = S (app_size app) /\
     (forall x y sx sy, find_subsystem x a = Some sx -> find_subsystem y a = Some sy ->
        name sx = name sy -> x = y) /\
     forall x, x <> id -> find_subsystem x a = find_subsystem x app
else a = app.
Proof.
intros Hr. pose proof (app_reachable_rest app Hr) as Hri.
pose proof (app_reachable_rest _ (reachable_register id sub app Hr)) as Hra.
unfold register_subsystem_erased in *. destruct sub as [sub|]; [|done].
destruct (String.eqb _ _); [done|]. destruct (frozen app) eqn:Ef; [done|].
case_bool_decide as Hid; [done|]. case_bool_decide as Hn; [done|]. apply eq_None_not_Some in Hid.
cbn [snd] in Hra. set (a := {| subsystems := _ |}) in *. rewrite decide_True by done. split_and!.
- destruct (decide (state app = UNINITIALIZED)) as [|Hne]; [done|]. apply (ri_frozen _ Hri) in Hne. congruence.
- unfold find_subsystem. cbn. by rewrite lookup_insert_eq.
- unfold find_subsystem. by rewrite Hid.
- done.
- unfold app_size. cbn. by rewrite map_size_insert_None.
- intros x y sx sy Hx Hy E. pose proof (mi_names _ (ri_mid _ Hra)) as Hnames.
  apply fmap_Some in Hx as (ex & Hx & ->), Hy as (ey & Hy & ->).
  assert (H1 : subsystem_names a !! name (subsystem ex) = Some x) by (apply Hnames; by exists ex).
  assert (H2 : subsystem_names a !! name (subsystem ex) = Some y) by (apply Hnames; rewrite E; by exists ey).
  congruence.
- intros x Hx. unfold find_subsystem. cbn. by rewrite lookup_insert_ne.
Qed.

(** [initialize] of an open registry: a bad topology is reported by its
  defect before any hook runs; otherwise the hooks run in layer order, and
  either all succeed or the failing hook's status is returned, with the
  application crashed and nothing started. *)
Theorem initialize_exact app m :
app_reachable app -> state app = UNINITIALIZED -> valid_operating_mode m = true ->
let '(status, a) := initialize m app in
mode a = m /\
if decide (status = OK)
then state a = INITIALIZED /\ declared_ok app /\ acyclic app /\
     concat (app_forward_layers a) ≡ₚ registration_order a /\
     trace a = map (fun x => {| call_hook := ON_INITIALIZE; call_id := x; call_status := OK |})
       (concat (app_forward_layers a))
else state a = CRASHED /\ (forall x, is_started a x = false) /\
     ((topology_failure app status /\ trace a = []) \/
      (declared_ok app /\ acyclic app /\ exists y b, hook_status ON_INITIALIZE y b = status)).
Proof.
intros Hr%app_reachable_rest Hs Hv. pose proof (initialize_outcome m app Hr Hs Hv) as Ho.
destruct (initialize m app) as [status a]. destruct Ho as (Hra & _ & _ & Hm & Ho). split; [done|].
destruct (decide (status = OK)); [|done]. destruct Ho as (Es & Hd & Ha & Ht). split_and!; try done.
destruct (ri_ready _ Hra) as [Hl _]; [tauto|]. apply (lo_perm _ Hl).
Qed.

(** C37. [start] is all or nothing. It returns OK exactly when it called the start
  hook of every registered subsystem once, each after those of its
  dependencies and each successfully; then the application is [RUNNING] and
  everything is started. Otherwise it returns the status of the first start
  hook that failed, in that order, and calls nothing after it but the stop
  hooks of what it had started, backwards: either all of these stopped and the
  previous state is restored, or one refused, the application is crashed and
  something is still started. *)
Theorem start_atomic app :
app_reachable app -> state app = INITIALIZED \/ state app = STOPPED ->
let '(status, a) := start app in
let order := concat (app_forward_layers app) in
order ≡ₚ registration_order app /\
(forall pre x post d, order = pre ++ x :: post -> d ∈ deps_of app x -> d ∈ pre) /\
(forall x, is_initialized a x = is_initialized app x) /\
if decide (status = OK)
then state a = RUNNING /\ (forall x, registered app x -> is_started a x = true) /\
     trace a = trace app ++ map (ok_call ON_START) order
else ((state a = state app /\ forall x, is_started a x = false) \/
      (state a = CRASHED /\ exists x, is_started a x = true)) /\
     (exists y b, hook_status ON_START y b = status) /\
     exists calls, trace a = trace app ++ calls /\ failed_start_calls app status calls.
Proof.
intros Hr%app_reachable_rest Hs. pose proof (start_outcome app Hr Hs) as Ho.
destruct (ri_ready _ Hr) as [Hl _]; [tauto|]. pose proof (ri_mid _ Hr) as Hm.
destruct (start app) as [status a]. destruct Ho as (Hra & Hf & Hi & Ho).
split; [apply (lo_perm _ Hl)|]. split; [intros pre x post d; by apply dependencies_first|]. split; [exact Hi|].
destruct (decide (status = OK)); [|exact Ho]. destruct Ho as [Hrun Htr]. split; [done|]. split; [|exact Htr].
intros x Hx. apply (ri_running _ Hra Hrun). by apply (frame_registered app (with_state (state app) a)).
Qed.

(** [stop] of a running application never stops a dependency of a subsystem
  that is still started: it does not cross the layer of a failed hook. It
  succeeds exactly when everything stopped. *)
Theorem stop_respects_layers app :
app_reachable app -> state app = RUNNING ->
let '(status, a) := stop app in
closed a /\ (status = OK <-> forall x, is_started a x = false) /\
state a = (if decide (status = OK) then STOPPED else CRASHED) /\
(forall x, is_initialized a x = is_initialized app x) /\
(status <> OK -> exists y b, hook_status ON_STOP y b <> OK).
Proof.
intros Hr%app_reachable_rest Hs. pose proof (stop_outcome app Hr (or_introl Hs)) as Ho.
destruct (stop app) as [status a]. destruct Ho as (_ & Hf & Hi & _ & Hok & Hc & Hca & Est).
split_and!; [|done| |done|done].
- apply Hc. intros y d Hd Hy. apply (ri_running _ Hr Hs).
  destruct (ri_ready _ Hr) as [Hl _]; [tauto|]. by apply (lo_deps _ Hl y).
- rewrite Est, Hs. destruct (decide (status = OK)) as [->|Hne]; [done|]. by rewrite bool_decide_false.
Qed.

(** When every hook succeeds and the declared topology is sound, a whole
  lifetime with two start/stop generations runs to [TERMINATED]. *)
Theorem lifetime_completes app m :
app_reachable app -> state app = UNINITIALIZED -> valid_operating_mode m = true ->
declared_ok app -> acyclic app -> (forall h x b, hook_status h x b = OK) ->
let '(s1, a1) := initialize m app in
let '(s2, a2) := start a1 in
let '(s3, a3) := stop a2 in
let '(s4, a4) := start a3 in
let '(s5, a5) := stop a4 in
let '(s6, a6) := terminate a5 in
[s1; s2; s3; s4; s5; s6] = [OK; OK; OK; OK; OK; OK] /\
map state [a1; a2; a3; a4; a5; a6] = [INITIALIZED; RUNNING; STOPPED; RUNNING; STOPPED; TERMINATED] /\
forall x, is_initialized a6 x = false.
Proof.
intros Hr%app_reachable_rest Hs Hv Hd Ha Hhooks.
assert (Hstart : forall a, rest_inv a -> state a = INITIALIZED \/ state a = STOPPED ->
  exists a', start a = (OK, a') /\ rest_inv a' /\ state a' = RUNNING).
{ intros a Hra Hsa. pose proof (start_outcome a Hra Hsa) as Ho. destruct (start a) as [s a'].
  destruct Ho as (Hr' & _ & _ & Ho). exists a'. destruct (decide (s = OK)) as [->|Hne]; [by destruct Ho|].
  destruct Ho as (_ & (y & b & Hb) & _). by rewrite Hhooks in Hb. }
assert (Hstop : forall a, rest_inv a -> state a = RUNNING ->
  exists a', stop a = (OK, a') /\ rest_inv a' /\ state a' = STOPPED).
{ intros a Hra Hsa. pose proof (stop_outcome a Hra (or_introl Hsa)) as Ho. destruct (stop a) as [s a'].
  destruct Ho as (Hr' & _ & _ & _ & _ & _ & Hca & Est). exists a'.
  destruct (decide (s = OK)) as [->|Hne]; [by rewrite Hsa in Est|].
  destruct (Hca Hne) as (y & b & Hb). by rewrite Hhooks in Hb. }
pose proof (initialize_outcome m app Hr Hs Hv) as Ho. destruct (initialize m app) as [s1 a1].
destruct Ho as (Hr1 & _ & _ & _ & Ho). destruct (decide (s1 = OK)) as [->|Hne].
2: { exfalso. destruct Ho as (_ & _ & [[Htf _]|(_ & _ & y & b & Hb)]); [|by rewrite Hhooks in Hb].
     destruct s1; try done; cbn in Htf; [|destruct Htf as [x Hx]; by apply Hx, Hd|tauto].
     destruct Htf as (x & d & Hx & Hn). by apply Hn, (Hd x). }
destruct Ho as (E1 & _). destruct (Hstart a1 Hr1 (or_introl E1)) as (a2 & -> & Hr2 & E2).
destruct (Hstop a2 Hr2 E2) as (a3 & -> & Hr3 & E3).
destruct (Hstart a3 Hr3 (or_intror E3)) as (a4 & -> & Hr4 & E4).
destruct (Hstop a4 Hr4 E4) as (a5 & -> & Hr5 & E5).
pose proof (terminate_outcome a5 Hr5) as Ho. destruct (terminate a5) as [s6 a6].
destruct Ho as (_ & _ & E6 & Hgone & Hca). destruct (decide (s6 = OK)) as [->|Hne].
- cbn. rewrite E1, E2, E3, E4, E5, E6. split_and!; [done|done|]. intros x. by apply Hgone.
- destruct (Hca Hne) as (h & y & b & Hb). by rewrite Hhooks in Hb.
Qed.
End Properties.

(** ** Witnesses *)

(** Every hook succeeds. *)
Definition obedient : SubsystemHooks nat :=
  {| on_initialize := fun _ _ => Returned OK; on_start := fun _ _ => Returned OK;
     on_stop := fun _ _ => OK; on_terminate := fun _ _ => OK |}.

(** Subsystem 3 fails to start; subsystem 1 refuses its first termination. *)
Definition stubborn : SubsystemHooks nat :=
  {| on_initialize := fun _ _ => Returned OK;
     on_start := fun _ x => if (x =? 3)%nat then Threw else Returned OK;
     on_stop := fun _ _ => OK;
     on_terminate := fun app x =>
       if ((x =? 1)%nat && negb (existsb (fun c => (call_id c =? 1)%nat &&
            bool_decide (call_hook c = ON_TERMINATE)) (trace app)))%bool
       then SUBSYSTEM_FAILURE else OK |}.

Definition sample_subsystem (n : string) (deps : list nat) : option (AppSubsystem nat) :=
  Some {| name := n; dependencies := deps |}.

Definition sample_app : AppState nat :=
  snd (register_subsystem_erased 3%nat (sample_subsystem "view" [1%nat; 2%nat])
    (snd (register_subsystem_erased 2%nat (sample_subsystem "input" [1%nat])
      (snd (register_subsystem_erased 1%nat (sample_subsystem "log" []) new_app))))).

Lemma sample_app_reachable {hooks : SubsystemHooks nat} : app_reachable sample_app.
Proof. repeat constructor. Qed.

Definition sample_initialized (hooks : SubsystemHooks nat) : AppState nat :=
  snd (initialize TUI sample_app).
Definition sample_running : AppState nat := snd (start (hooks := obedient) (sample_initialized obedient)).

Lemma sample_initialized_reachable hooks : app_reachable (hooks := hooks) (sample_initialized hooks).
Proof. constructor. apply sample_app_reachable. Qed.

Lemma sample_running_reachable : app_reachable (hooks := obedient) sample_running.
Proof. apply reachable_start, sample_initialized_reachable. Qed.

Example sample_running_calls :
  map (fun c => (call_hook c, call_id c)) (trace sample_running)
  = [(ON_INITIALIZE, 1); (ON_INITIALIZE, 2); (ON_INITIALIZE, 3);
     (ON_START, 1); (ON_START, 2); (ON_START, 3)]%nat.
Proof. vm_compute. reflexivity. Qed.

(** A failed start stops what it had started, in reverse. *)
Example sample_rollback :
  let '(status, a) := start (hooks := stubborn) (sample_initialized stubborn) in
  (status, state a, map (fun c => (call_hook c, call_id c)) (drop 3 (trace a)))
  = (SUBSYSTEM_FAILURE, INITIALIZED,
     [(ON_START, 1); (ON_START, 2); (ON_START, 3); (ON_STOP, 2); (ON_STOP, 1)]%nat).
Proof. vm_compute. reflexivity. Qed.

(** A termination hook that failed is invoked again by the next [terminate],
    although the class documentation promises at most one invocation. *)
Example terminate_hook_repeated :
  let once := snd (terminate (hooks := stubborn) (sample_initialized stubborn)) in
  let twice := snd (terminate (hooks := stubborn) once) in
  (state once, state twice,
   length (filter (fun c => call_hook c = ON_TERMINATE /\ call_id c = 1%nat) (trace twice)))
  = (CRASHED, TERMINATED, 2%nat).
Proof. vm_compute. reflexivity. Qed.

Lemma sample_unregistered x : x ∉ [1%nat; 2%nat; 3%nat] -> subsystems sample_app !! x = None.
Proof.
  intros Hx. apply eq_None_not_Some. intros Hr. apply Hx.
  assert (E : registration_order sample_app = [1%nat; 2%nat; 3%nat]) by (vm_compute; reflexivity).
  rewrite <- E. by apply (mi_order _ (ri_mid _ (app_reachable_rest sample_app
    (sample_app_reachable (hooks := obedient))))).
Qed.

Lemma sample_declared : declared_ok sample_app.
Proof.
  intros x. unfold declares, deps_of.
  destruct (decide (x = 1%nat)) as [->|H1]; [|destruct (decide (x = 2%nat)) as [->|H2];
    [|destruct (decide (x = 3%nat)) as [->|H3]]].
  - split; [constructor|]. by intros d ?%elem_of_nil.
  - split; [apply NoDup_singleton|]. intros d Hd%list_elem_of_singleton. subst. by eexists.
  - split; [apply NoDup_cons; split; [set_solver|apply NoDup_singleton]|].
    intros d [->|Hd%list_elem_of_singleton]%elem_of_cons; [by eexists|subst; by eexists].
  - assert (E : subsystems sample_app !! x = None) by (apply sample_unregistered; set_solver).
    rewrite E. split; [constructor|]. by intros d ?%elem_of_nil.
Qed.

Lemma sample_acyclic : acyclic sample_app.
Proof.
  assert (Hlt : forall d x, tc (declares sample_app) d x -> (d < x)%nat).
  { assert (Hone : forall d x, declares sample_app d x -> (d < x)%nat).
    { intros d x. unfold declares, deps_of.
      destruct (decide (x = 1%nat)) as [->|H1]; [by intros ?%elem_of_nil|].
      destruct (decide (x = 2%nat)) as [->|H2]; [intros Hd%list_elem_of_singleton; lia|].
      destruct (decide (x = 3%nat)) as [->|H3];
        [intros [->|Hd%list_elem_of_singleton]%elem_of_cons; lia|].
      assert (E : subsystems sample_app !! x = None) by (apply sample_unregistered; set_solver).
      rewrite E. by intros ?%elem_of_nil. }
    induction 1 as [? ? Ho|? ? ? Ho _ IH]; [by apply Hone|]. apply Hone in Ho. lia. }
  intros x Hx%Hlt. lia.
Qed.

Lemma obedient_ok h x b : hook_status (hooks := obedient) h x b = OK.
Proof. by destruct h. Qed.

Lemma lifecycle_protocol_witness :
  hook_allowed (deps_of sample_running) (take 4 (trace sample_running)) ON_START 2%nat.
Proof.
  refine (proj1 (proj1 (lifecycle_protocol (hooks := obedient) sample_running sample_running_reachable)
    (take 4 (trace sample_running)) {| call_hook := ON_START; call_id := 2%nat; call_status := OK |}
    (drop 5 (trace sample_running)) _)). vm_compute. reflexivity.
Defined.

Lemma lifecycle_states_witness : registration_frozen sample_running = true.
Proof.
  refine (proj2 (proj1 (proj2 (lifecycle_states (hooks := obedient) sample_running
    sample_running_reachable))) _). vm_compute. discriminate.
Defined.

Lemma registration_exact_witness :
  app_size (snd (register_subsystem_erased 4%nat (sample_subsystem "net" []) sample_app)) = 4%nat.
Proof.
  pose proof (registration_exact (hooks := obedient) sample_app 4%nat (sample_subsystem "net" [])
    sample_app_reachable) as Hr.
  assert (E : fst (register_subsystem_erased 4%nat (sample_subsystem "net" []) sample_app) = OK)
    by (vm_compute; reflexivity).
  destruct (register_subsystem_erased _ _ _) as [status a]. cbn [fst snd] in *. subst status.
  rewrite decide_True in Hr by done. destruct Hr as (_ & _ & _ & _ & Hsize & _). rewrite Hsize.
  vm_compute. reflexivity.
Defined.

Lemma initialize_exact_witness : mode (sample_initialized stubborn) = TUI.
Proof.
  pose proof (initialize_exact (hooks := stubborn) sample_app TUI sample_app_reachable eq_refl eq_refl) as Hi.
  unfold sample_initialized. destruct (initialize TUI sample_app). exact (proj1 Hi).
Defined.

Lemma start_atomic_witness :
  let '(status, a) := start (hooks := stubborn) (sample_initialized stubborn) in
  is_initialized a 3%nat = true /\ status = SUBSYSTEM_FAILURE.
Proof.
  assert (Hs : state (sample_initialized stubborn) = INITIALIZED) by (vm_compute; reflexivity).
  pose proof (start_atomic (hooks := stubborn) (sample_initialized stubborn)
    (sample_initialized_reachable stubborn) (or_introl Hs)) as Ha.
  assert (E : fst (start (hooks := stubborn) (sample_initialized stubborn)) = SUBSYSTEM_FAILURE)
    by (vm_compute; reflexivity).
  destruct (start _) as [status a]. cbn [fst] in E. split; [|exact E].
  rewrite (proj1 (proj2 (proj2 Ha))). vm_compute. reflexivity.
Defined.

Lemma stop_respects_layers_witness : closed (snd (stop (hooks := obedient) sample_running)).
Proof.
  assert (Hs : state sample_running = RUNNING) by (vm_compute; reflexivity).
  pose proof (stop_respects_layers (hooks := obedient) sample_running sample_running_reachable Hs) as Ha.
  destruct (stop _) as [status a]. exact (proj1 Ha).
Defined.

Lemma lifetime_completes_witness :
  fst (initialize (hooks := obedient) TUI sample_app) = OK.
Proof.
  pose proof (lifetime_completes (hooks := obedient) sample_app TUI sample_app_reachable eq_refl eq_refl
    sample_declared sample_acyclic obedient_ok) as Hl.
  destruct (initialize _ _) as [s1 a1]. destruct (start a1) as [s2 a2]. destruct (stop a2) as [s3 a3].
  destruct (start a3) as [s4 a4]. destruct (stop a4) as [s5 a5]. destruct (terminate a5) as [s6 a6].
  cbn. destruct Hl as [E _]. congruence.
Defined.
