(* ===== verification/Tui.v ===== *)
(** * Shared terminal-UI types (puc-cli/tui/rendering/status.hpp, selection.hpp)

    Status codes and the semantic selection events exchanged between the
    screen, its frames and the text editor. *)
From S2P Require Import Prelude.

Inductive Status :=
| OK
| INVALID_ARGUMENT
| INVALID_DIMENSIONS
| DIMENSION_OVERFLOW
| FRAME_ALREADY_IN_PROGRESS
| NO_FRAME_IN_PROGRESS
| RECT_OUT_OF_BOUNDS
| CELL_SHAPE_MISMATCH
| DUPLICATE_FRAME_ID
| FRAME_NOT_FOUND
| FRAME_NOT_SELECTABLE
| INVALID_SELECTION_TRANSITION
| NO_SELECTION
| INVALID_PERCENTAGE
| INVALID_RATIO
| INVALID_CONSTRAINT
| CONSTRAINT_CYCLE
| CANVAS_NOT_SET
| TERMINAL_NOT_AVAILABLE
| TERMINAL_QUERY_FAILED
| TERMINAL_CONFIG_FAILED
| TERMINAL_WRITE_FAILED
| CHANNEL_SETUP_FAILED
| MESSAGE_ENCODING_FAILED
| MESSAGE_DECODING_FAILED
| ASYNC_DISPATCH_FAILED.

#[global] Instance tui_Status_eq_dec : EqDecision Status.
Proof. solve_decision. Defined.

Definition is_ok (status : Status) : bool := bool_decide (status = OK).

Inductive SelectionPhase :=
| NONE
| IN_PROGRESS
| COMPLETE.

Inductive SelectionEventType :=
| SELECT_AND_EXTEND
| END_SELECT_AND_EXTEND
| SELECT_WORD
| SELECT_LINE
| SELECT_ALL
| RESET.

#[global] Instance SelectionPhase_eq_dec : EqDecision SelectionPhase.
Proof. solve_decision. Defined.
#[global] Instance SelectionEventType_eq_dec : EqDecision SelectionEventType.
Proof. solve_decision. Defined.

(** Signed cell coordinates, [std::int64_t]. *)
Record SelectionPosition := { position_x : Z; position_y : Z }.

Record SelectionEvent := {
  event_type : SelectionEventType;
  event_anchor : SelectionPosition;
  event_extent : SelectionPosition;
}.

Definition origin : SelectionPosition := {| position_x := 0; position_y := 0 |}.

(** [SelectionEvent{.type = type}] *)
Definition plain_event (type : SelectionEventType) : SelectionEvent :=
  {| event_type := type; event_anchor := origin; event_extent := origin |}.
