(* ===== verification/ZBuffer.v ===== *)
(** * Frame compositing order (puc-cli/tui/rendering/zbuf.cpp)

    Frames in drawing order, back to front, under unique ids; a frame is any
    type of shared references. *)
From S2P Require Import Prelude.
From S2P Require Import Tui.

Section ZBuffer.
Context {Frame : Type}.

Record ZEntry := {
  frame_id : string;
  frame : Frame;
}.

(** [revision_] is a [std::size_t]. *)
Record ZBuffer := {
  frames : list ZEntry;
  revision : Z;
}.

Definition empty_zbuffer : ZBuffer := {| frames := []; revision := 0 |}.

Definition bump (r : Z) : Z := wrap 64 (r + 1).

(** [std::find_if] by id: the first match with what precedes and follows it. *)
Fixpoint find_entry_by_id (id : string) (entries : list ZEntry)
  : option (list ZEntry * ZEntry * list ZEntry) :=
  match entries with
  | [] => None
  | e :: entries =>
      if String.eqb (frame_id e) id then Some ([], e, entries)
      else '(before, found, behind) ← find_entry_by_id id entries; Some (e :: before, found, behind)
  end.

Definition zbuffer_add (id : string) (new_frame : option Frame) (z : ZBuffer) : Status * ZBuffer :=
  match new_frame with
  | None => (INVALID_ARGUMENT, z)
  | Some f =>
      if String.eqb id "" then (INVALID_ARGUMENT, z)
      else
        match find_entry_by_id id (frames z) with
        | Some _ => (DUPLICATE_FRAME_ID, z)
        | None => (OK, {| frames := frames z ++ [{| frame_id := id; frame := f |}];
                          revision := bump (revision z) |})
        end
  end.

Definition zbuffer_remove (id : string) (z : ZBuffer) : Status * ZBuffer :=
  match find_entry_by_id id (frames z) with
  | None => (FRAME_NOT_FOUND, z)
  | Some (before, _, behind) =>
      (OK, {| frames := before ++ behind; revision := bump (revision z) |})
  end.

Definition bring_to_front (id : string) (z : ZBuffer) : Status * ZBuffer :=
  match find_entry_by_id id (frames z) with
  | None => (FRAME_NOT_FOUND, z)
  | Some (before, entry, behind) =>
      match behind with
      | [] => (OK, z)
      | _ => (OK, {| frames := before ++ behind ++ [entry]; revision := bump (revision z) |})
      end
  end.

(** ** Lookup *)

Definition ids (z : ZBuffer) : list string := map frame_id (frames z).

(** The frame under an id. *)
Definition frame_of (id : string) (z : ZBuffer) : option Frame :=
  '(_, e, _) ← find_entry_by_id id (frames z); Some (frame e).

Lemma find_entry_some id l before e behind :
  find_entry_by_id id l = Some (before, e, behind) ->
  l = before ++ e :: behind /\ frame_id e = id /\ id ∉ map frame_id before.
Proof.
  revert before. induction l as [|x l IH]; intros before E; [done|]. cbn in E.
  destruct (String.eqb_spec (frame_id x) id) as [Ex|Ex].
  - injection E as <- <- <-. split_and!; [done|done|]. by intros ?%elem_of_nil.
  - destruct (find_entry_by_id id l) as [[[b f] k]|]; [|done]. injection E as <- <- <-.
    destruct (IH b eq_refl) as (-> & Ef & Hb). split_and!; [done|done|]. cbn.
    by intros [->|?]%elem_of_cons.
Qed.

Lemma find_entry_none id l : find_entry_by_id id l = None <-> id ∉ map frame_id l.
Proof.
  induction l as [|x l IH]; cbn; [split; [by intros _ ?%elem_of_nil|done]|].
  rewrite not_elem_of_cons. destruct (String.eqb_spec (frame_id x) id) as [Ex|Ex].
  - split; [done|]. by intros [? _].
  - rewrite <- IH. destruct (find_entry_by_id id l) as [[[? ?] ?]|]; cbn; [|by split; [intros _|]].
    split; [done|]. by intros [_ ?].
Qed.

(** The states that public calls produce. *)
Inductive zbuffer_reachable : ZBuffer -> Prop :=
| reachable_empty_zbuffer : zbuffer_reachable empty_zbuffer
| reachable_zbuffer_add id f z : zbuffer_reachable z -> zbuffer_reachable (snd (zbuffer_add id f z))
| reachable_zbuffer_remove id z : zbuffer_reachable z -> zbuffer_reachable (snd (zbuffer_remove id z))
| reachable_bring_to_front id z : zbuffer_reachable z -> zbuffer_reachable (snd (bring_to_front id z)).

Lemma zbuffer_ids_nodup z : zbuffer_reachable z -> NoDup (ids z).
Proof.
  unfold ids. induction 1 as [|id f z _ IH|id z _ IH|id z _ IH].
  - constructor.
  - unfold zbuffer_add. destruct f as [f|]; [|done]. destruct (String.eqb id ""); [done|].
    destruct (find_entry_by_id id (frames z)) eqn:E; [done|]. apply find_entry_none in E.
    cbn. rewrite map_app. apply NoDup_app. split_and!; [done| |apply NoDup_singleton].
    by intros x Hx ->%list_elem_of_singleton.
  - unfold zbuffer_remove. destruct (find_entry_by_id id (frames z)) as [[[b e] k]|] eqn:E; [|done].
    apply find_entry_some in E as (E & _ & _). rewrite E, map_app in IH. cbn in IH |- *.
    rewrite map_app. by rewrite <- Permutation_middle, NoDup_cons in IH; destruct IH.
  - unfold bring_to_front. destruct (find_entry_by_id id (frames z)) as [[[b e] k]|] eqn:E; [|done].
    destruct k as [|x k]; [done|]. apply find_entry_some in E as (E & _ & _). cbn [snd frames].
    rewrite E in IH. eapply NoDup_Permutation_proper; [|exact IH]. rewrite !map_app. f_equiv.
    cbn [map]. by rewrite Permutation_app_comm.
Qed.
End ZBuffer.
Arguments ZEntry Frame : clear implicits.
Arguments ZBuffer Frame : clear implicits.

(** ** Properties *)

(** Every reachable buffer holds unique ids. [add] puts a new frame in front,
    [remove] takes one out, [bring_to_front] moves one behind none, and the
    others keep their order; failures change nothing, and the revision moves
    exactly when the drawing order does. *)
Theorem zbuffer_order {Frame : Type} (z : ZBuffer Frame) id (f : option Frame) :
  zbuffer_reachable z ->
  NoDup (ids z) /\
  (let '(status, z') := zbuffer_add id f z in
   if decide (status = OK)
   then exists g, f = Some g /\ id ∉ ids z /\ frames z' = frames z ++ [{| frame_id := id; frame := g |}] /\
     revision z' = bump (revision z)
   else z' = z) /\
  (let '(status, z') := zbuffer_remove id z in
   (status = OK <-> id ∈ ids z) /\
   frames z' = filter (fun e => frame_id e <> id) (frames z) /\
   (revision z' = if decide (status = OK) then bump (revision z) else revision z)) /\
  (let '(status, z') := bring_to_front id z in
   (status = OK <-> id ∈ ids z) /\
   frames z' = filter (fun e => frame_id e <> id) (frames z) ++ filter (fun e => frame_id e = id) (frames z) /\
   (frames z' = frames z -> z' = z)).
Proof.
  intros Hr. pose proof (zbuffer_ids_nodup z Hr) as Hn. split; [done|].
  assert (Hout : forall l : list (ZEntry Frame), id ∉ map frame_id l ->
    filter (fun e => frame_id e <> id) l = l /\ filter (fun e => frame_id e = id) l = []).
  { induction l as [|e l IH]; intros Hl; [done|]. cbn in Hl. apply not_elem_of_cons in Hl as [He Hl].
    destruct (IH Hl) as [E1 E2]. rewrite !filter_cons, decide_True, decide_False by congruence.
    by rewrite E1, E2. }
  assert (Hin : forall b e k, frames z = b ++ e :: k -> frame_id e = id ->
    filter (fun e => frame_id e <> id) (frames z) = b ++ k /\
    filter (fun e => frame_id e = id) (frames z) = [e]).
  { intros b e k E Ee. unfold ids in Hn. rewrite E, map_app in Hn. cbn in Hn.
    pose proof Hn as Hb. rewrite <- Permutation_middle, NoDup_cons in Hb. destruct Hb as [Hb _].
    rewrite Ee, elem_of_app in Hb. destruct (Hout b) as [B1 B2]; [tauto|]. destruct (Hout k) as [K1 K2]; [tauto|].
    rewrite E, !filter_app, !filter_cons, decide_False, decide_True by tauto.
    by rewrite B1, B2, K1, K2. }
  split_and!.
  - unfold zbuffer_add. destruct f as [g|]; [|done]. destruct (String.eqb id ""); [done|].
    destruct (find_entry_by_id id (frames z)) eqn:E; [done|]. apply find_entry_none in E. by exists g.
  - unfold zbuffer_remove. destruct (find_entry_by_id id (frames z)) as [[[b e] k]|] eqn:E.
    + apply find_entry_some in E as (E & Ee & _). destruct (Hin b e k E Ee) as [-> _].
      rewrite decide_True by done. split_and!; [|done|done]. split; [|done]. intros _. unfold ids.
      rewrite E, map_app, elem_of_app. right. cbn. rewrite Ee. apply list_elem_of_here.
    + apply find_entry_none in E. destruct (Hout (frames z) E) as [-> _]. split_and!; [by split|done|done].
  - unfold bring_to_front. destruct (find_entry_by_id id (frames z)) as [[[b e] k]|] eqn:E.
    + apply find_entry_some in E as (E & Ee & _). destruct (Hin b e k E Ee) as [-> ->].
      assert (Hid : id ∈ ids z).
      { unfold ids. rewrite E, map_app, elem_of_app. right. cbn. rewrite Ee. apply list_elem_of_here. }
      destruct k as [|x k]; split_and!; try done; [by rewrite app_nil_r|by rewrite <- app_assoc|].
      cbn [frames]. intros E'. exfalso. rewrite E in E'. apply app_inv_head in E'.
      injection E' as Exe _. subst x. unfold ids in Hn. rewrite E, map_app in Hn.
      apply NoDup_app in Hn as (_ & _ & Hn). apply NoDup_cons in Hn as [Hn _].
      apply Hn, list_elem_of_here.
    + apply find_entry_none in E. destruct (Hout (frames z) E) as [-> ->].
      split_and!; [by split|by rewrite app_nil_r|done].
Qed.

(** ** Witness *)

Definition sample_zbuffer : ZBuffer nat :=
  snd (zbuffer_add "status" (Some 2) (snd (zbuffer_add "text" (Some 1) empty_zbuffer))).

Example sample_front :
  map frame_id (frames (snd (bring_to_front "text" sample_zbuffer))) = ["status"; "text"]%string.
Proof. reflexivity. Qed.

Lemma sample_zbuffer_reachable : zbuffer_reachable sample_zbuffer.
Proof. repeat constructor. Qed.

Lemma zbuffer_order_witness : NoDup (ids sample_zbuffer).
Proof. exact (proj1 (zbuffer_order sample_zbuffer "text" (Some 3) sample_zbuffer_reachable)). Defined.
