(* ===== verification/Canvas.v ===== *)
(** * Transactional double-buffered cells (puc-cli/tui/rendering/canvas.cpp)

    Sizes are [std::size_t] values in [Z]; buffers are row-major lists of cells.
    A write is the sequence of single-cell stores that the row copies perform,
    because several workers may write concurrently (Renderer.v). *)
From S2P Require Import Prelude.
From S2P Require Import Tui.

Record Cell := {
  character : Z;
  foreground_color : Z;
  background_color : Z;
}.

Record Rect := {
  rect_x : Z;
  rect_y : Z;
  rect_width : Z;
  rect_height : Z;
}.

#[global] Instance Cell_eq_dec : EqDecision Cell.
Proof. solve_decision. Defined.
#[global] Instance Rect_eq_dec : EqDecision Rect.
Proof. solve_decision. Defined.

Definition blank_cell : Cell := {| character := 0x20; foreground_color := 0; background_color := 0 |}.

Inductive BufferState :=
| DRAW_A_WRITETO_B
| DRAW_B_WRITETO_A.

Record Canvas := {
  screen_buffer_a : list Cell;
  screen_buffer_b : list Cell;
  buffer_state : BufferState;
  frame_in_progress : bool;
  status : Status;
  width : Z;
  height : Z;
}.

(** ** Construction *)

Definition checked_area (width height : Z) : Status * Z :=
  if negb (height =? 0)%Z && (size_max / height <? width)%Z then (DIMENSION_OVERFLOW, 0%Z)
  else (OK, (width * height)%Z).

Definition new_canvas (width height : Z) : Canvas :=
  let (status, area) := checked_area width height in
  if is_ok status then
    {| screen_buffer_a := replicate (Z.to_nat area) blank_cell;
       screen_buffer_b := replicate (Z.to_nat area) blank_cell;
       buffer_state := DRAW_A_WRITETO_B; frame_in_progress := false; status := status;
       width := width; height := height |}
  else
    {| screen_buffer_a := []; screen_buffer_b := []; buffer_state := DRAW_A_WRITETO_B;
       frame_in_progress := false; status := status; width := 0; height := 0 |}.

Definition get_dimensions (c : Canvas) : Z * Z := (width c, height c).

(** ** Buffers *)

Definition get_drawable_buffer (c : Canvas) : list Cell :=
  match buffer_state c with
  | DRAW_A_WRITETO_B => screen_buffer_a c
  | DRAW_B_WRITETO_A => screen_buffer_b c
  end.

Definition writable_buffer (c : Canvas) : list Cell :=
  match buffer_state c with
  | DRAW_A_WRITETO_B => screen_buffer_b c
  | DRAW_B_WRITETO_A => screen_buffer_a c
  end.

Definition set_writable (c : Canvas) (buffer : list Cell) : Canvas :=
  {| screen_buffer_a := match buffer_state c with DRAW_A_WRITETO_B => screen_buffer_a c | _ => buffer end;
     screen_buffer_b := match buffer_state c with DRAW_A_WRITETO_B => buffer | _ => screen_buffer_b c end;
     buffer_state := buffer_state c; frame_in_progress := frame_in_progress c; status := status c;
     width := width c; height := height c |}.

Definition set_in_progress (c : Canvas) (in_progress : bool) : Canvas :=
  {| screen_buffer_a := screen_buffer_a c; screen_buffer_b := screen_buffer_b c;
     buffer_state := buffer_state c; frame_in_progress := in_progress; status := status c;
     width := width c; height := height c |}.

(** [std::copy] stores one cell after the other, from index [at]. *)
Fixpoint row_stores (at_ : nat) (row : list Cell) : list (nat * Cell) :=
  match row with
  | [] => []
  | cell :: row => (at_, cell) :: row_stores (S at_) row
  end.

Definition store (buffer : list Cell) (s : nat * Cell) : list Cell := <[s.1 := s.2]> buffer.
Definition apply_stores (stores : list (nat * Cell)) (buffer : list Cell) : list Cell :=
  fold_left store stores buffer.

Definition copy_drawable_to_writable (c : Canvas) : Canvas :=
  set_writable c (apply_stores (row_stores 0 (get_drawable_buffer c)) (writable_buffer c)).

(** ** Transactions *)

Definition begin_frame (c : Canvas) : Status * Canvas :=
  if negb (is_ok (status c)) then (status c, c)
  else if frame_in_progress c then (FRAME_ALREADY_IN_PROGRESS, c)
  else (OK, set_in_progress (copy_drawable_to_writable c) true).

Definition clear (cell : Cell) (c : Canvas) : Status * Canvas :=
  if negb (frame_in_progress c) then (NO_FRAME_IN_PROGRESS, c)
  else (OK, set_writable c (replicate (length (writable_buffer c)) cell)).

(** [destination], in [std::size_t] arithmetic. *)
Definition destination (canvas_width : Z) (rect : Rect) (row : nat) : Z :=
  wrap 64 (wrap 64 (wrap 64 (rect_y rect + Z.of_nat row) * canvas_width) + rect_x rect).

Definition write_stores (canvas_width : Z) (rect : Rect) (cells : list (list Cell)) : list (nat * Cell) :=
  concat (imap (fun row line => row_stores (Z.to_nat (destination canvas_width rect row)) line) cells).

(** The checks of [write_cells]. *)
Definition check_write (c : Canvas) (rect : Rect) (cells : list (list Cell)) : Status :=
  if negb (frame_in_progress c) then NO_FRAME_IN_PROGRESS
  else if (width c <? rect_x rect)%Z || (height c <? rect_y rect)%Z ||
          (width c - rect_x rect <? rect_width rect)%Z || (height c - rect_y rect <? rect_height rect)%Z
  then RECT_OUT_OF_BOUNDS
  else if negb (Z.of_nat (length cells) =? rect_height rect)%Z then CELL_SHAPE_MISMATCH
  else if forallb (fun row => Z.of_nat (length row) =? rect_width rect)%Z cells then OK
  else CELL_SHAPE_MISMATCH.

Definition write_cells (rect : Rect) (cells : list (list Cell)) (c : Canvas) : Status * Canvas :=
  let checked := check_write c rect cells in
  if is_ok checked
  then (OK, set_writable c (apply_stores (write_stores (width c) rect cells) (writable_buffer c)))
  else (checked, c).

Definition end_frame (c : Canvas) : Status * Canvas :=
  if negb (frame_in_progress c) then (NO_FRAME_IN_PROGRESS, c)
  else
    (OK, {| screen_buffer_a := screen_buffer_a c; screen_buffer_b := screen_buffer_b c;
            buffer_state := match buffer_state c with
                            | DRAW_A_WRITETO_B => DRAW_B_WRITETO_A
                            | DRAW_B_WRITETO_A => DRAW_A_WRITETO_B
                            end;
            frame_in_progress := false; status := status c; width := width c; height := height c |}).

Definition cancel_frame (c : Canvas) : Status * Canvas :=
  if negb (frame_in_progress c) then (NO_FRAME_IN_PROGRESS, c) else (OK, set_in_progress c false).

(** ** Stores *)

Lemma apply_stores_app s1 s2 b : apply_stores (s1 ++ s2) b = apply_stores s2 (apply_stores s1 b).
Proof. apply fold_left_app. Qed.

Lemma apply_stores_length s : forall b, length (apply_stores s b) = length b.
Proof. induction s as [|x s IH]; intros b; cbn; [done|]. rewrite IH. apply length_insert. Qed.

Lemma row_stores_app at_ l k : row_stores at_ (l ++ k) = row_stores at_ l ++ row_stores (at_ + length l) k.
Proof.
  revert at_. induction l as [|c l IH]; intros at_; cbn; [by rewrite Nat.add_0_r|]. rewrite IH. do 3 f_equal. lia.
Qed.

Lemma row_stores_indices at_ row : map fst (row_stores at_ row) = seq at_ (length row).
Proof. revert at_. induction row as [|c row IH]; intros at_; cbn; [done|]. by rewrite IH. Qed.

(** The cells stored at an index, in order; the last one remains. *)
Definition stores_at (k : nat) (s : list (nat * Cell)) : list Cell :=
  omap (fun x => if (x.1 =? k)%nat then Some x.2 else None) s.

Lemma stores_at_app k s1 s2 : stores_at k (s1 ++ s2) = stores_at k s1 ++ stores_at k s2.
Proof. apply omap_app. Qed.

Lemma apply_stores_lookup s k : forall b, (k < length b)%nat ->
  apply_stores s b !! k = match last (stores_at k s) with Some c => Some c | None => b !! k end.
Proof.
  induction s as [|[i c] s IH]; intros b Hk; [done|]. cbn [apply_stores fold_left].
  change (fold_left store s ?b) with (apply_stores s b). rewrite IH by (unfold store; by rewrite length_insert).
  unfold stores_at. cbn. unfold store. cbn [fst snd]. destruct (Nat.eqb_spec i k) as [->|Hn].
  - rewrite list_lookup_insert_eq by done. rewrite last_cons. by destruct (last _).
  - by rewrite list_lookup_insert_ne.
Qed.

(** Two sequences that store the same cells at every index, each in its own
    order, have the same effect. *)
Lemma apply_stores_pointwise s1 s2 b : (forall k, stores_at k s1 = stores_at k s2) ->
  apply_stores s1 b = apply_stores s2 b.
Proof.
  intros He. apply list_eq. intros k. destruct (decide (k < length b)%nat) as [Hk|Hk].
  - by rewrite !apply_stores_lookup, He.
  - rewrite !lookup_ge_None_2; [done|rewrite apply_stores_length; lia..].
Qed.

Lemma stores_at_row k row : forall at_,
  stores_at k (row_stores at_ row) =
  if (at_ <=? k)%nat then match row !! (k - at_)%nat with Some c => [c] | None => [] end else [].
Proof.
  induction row as [|c row IH]; intros at_; cbn; [by destruct (at_ <=? k)%nat|].
  change (omap _ ?l) with (stores_at k l). destruct (Nat.eqb_spec at_ k) as [->|Hn].
  - rewrite Nat.leb_refl, Nat.sub_diag. cbn. f_equal. rewrite IH. destruct (Nat.leb_spec (S k) k); [lia|done].
  - rewrite IH. destruct (Nat.leb_spec (S at_) k), (Nat.leb_spec at_ k); try lia; [|done].
    by replace (k - at_)%nat with (S (k - S at_)) by lia.
Qed.

(** Copying a whole buffer over another of the same size. *)
Lemma copy_all b b' : length b = length b' -> apply_stores (row_stores 0 b) b' = b.
Proof.
  intros Hl. apply list_eq. intros k. destruct (decide (k < length b)%nat) as [Hk|Hk].
  - rewrite apply_stores_lookup, stores_at_row by lia. cbn [Nat.leb]. rewrite Nat.sub_0_r.
    by destruct (lookup_lt_is_Some_2 b k Hk) as [c ->].
  - rewrite !lookup_ge_None_2; [done|lia|rewrite apply_stores_length; lia].
Qed.

(** ** Rectangles on the row-major buffer *)

Lemma index_in_row (W X M Y x y : nat) : (x < W)%nat -> (X + M <= W)%nat ->
  (Y * W + X <= y * W + x < Y * W + X + M)%nat <-> y = Y /\ (X <= x < X + M)%nat.
Proof.
  intros Hx HX. split; [|intros [-> ?]; lia]. intros Hk.
  assert (y = Y); [|subst; lia]. destruct (Nat.lt_trichotomy y Y) as [Hl|[->|Hl]]; [|done|].
  - pose proof (Nat.mul_le_mono_r (S y) Y W Hl). lia.
  - pose proof (Nat.mul_le_mono_r (S Y) y W Hl). lia.
Qed.

(** The cell that a write of [lines] at column [X] and row [Y] puts on a
    point. *)
Definition write_point (X Y : nat) (lines : list (list Cell)) (x y : nat) : option Cell :=
  if (Y <=? y)%nat && (X <=? x)%nat then line ← lines !! (y - Y)%nat; line !! (x - X)%nat else None.

Lemma stores_at_write W X M lines x y : forall Y, (x < W)%nat -> (X + M <= W)%nat ->
  Forall (fun line => length line = M) lines ->
  stores_at (y * W + x) (concat (imap (fun r line => row_stores ((Y + r) * W + X) line) lines)) =
  match write_point X Y lines x y with Some c => [c] | None => [] end.
Proof.
  induction lines as [|line lines IH]; intros Y Hx HX Hf; [by unfold write_point; destruct (_ && _)|].
  apply Forall_cons in Hf as [Hm Hf]. cbn [imap concat]. rewrite stores_at_app, stores_at_row, Nat.add_0_r.
  assert (E : imap ((fun r line0 => row_stores ((Y + r) * W + X) line0) ∘ S) lines =
              imap (fun r line0 => row_stores ((S Y + r) * W + X) line0) lines).
  { apply imap_ext. intros r l _. cbn. f_equal. lia. }
  rewrite E, IH by done. clear E IH. pose proof (index_in_row W X M Y x y Hx HX) as Hi. unfold write_point.
  destruct (decide (y = Y /\ X <= x < X + M)%nat) as [[-> Hb]|Hn].
  - destruct (Nat.leb_spec (S Y) Y); [lia|]. rewrite Nat.leb_refl, Nat.sub_diag. cbn [andb app].
    destruct (Nat.leb_spec X x); [|lia]. destruct (Nat.leb_spec (Y * W + X) (Y * W + x)); [|lia].
    cbn. replace (Y * W + x - (Y * W + X))%nat with (x - X)%nat by lia. by rewrite app_nil_r.
  - match goal with |- (if ?b then _ else _) ++ _ = _ => assert (E : (if b then match line !! (y * W + x - (Y * W + X))%nat
      with Some c => [c] | None => [] end else []) = []) end.
    { destruct (Nat.leb_spec (Y * W + X) (y * W + x)); [|done]. rewrite lookup_ge_None_2; [done|]. lia. }
    rewrite E. cbn [app]. destruct (Nat.leb_spec Y y) as [Hy|Hy]; cbn [andb].
    + destruct (decide (y = Y)) as [->|Hne].
      * destruct (Nat.leb_spec (S Y) Y); [lia|]. cbn [andb]. destruct (Nat.leb_spec X x); [|done].
        rewrite Nat.sub_diag. cbn. rewrite lookup_ge_None_2; [done|]. lia.
      * destruct (Nat.leb_spec (S Y) y); [|lia]. cbn [andb].
        by replace (y - Y)%nat with (S (y - S Y)) by lia.
    + destruct (Nat.leb_spec (S Y) y); [lia|]. done.
Qed.

(** ** Representation *)

Record canvas_inv (c : Canvas) : Prop := {
  ci_width : is_u64 (width c);
  ci_height : is_u64 (height c);
  ci_area : (width c * height c <= size_max)%Z;
  ci_a : Z.of_nat (length (screen_buffer_a c)) = (width c * height c)%Z;
  ci_b : Z.of_nat (length (screen_buffer_b c)) = (width c * height c)%Z;
  ci_status : status c = OK \/ frame_in_progress c = false;
}.

Lemma drawable_length c : canvas_inv c -> Z.of_nat (length (get_drawable_buffer c)) = (width c * height c)%Z.
Proof. intros []. unfold get_drawable_buffer. by destruct (buffer_state c). Qed.

Lemma writable_length c : canvas_inv c -> Z.of_nat (length (writable_buffer c)) = (width c * height c)%Z.
Proof. intros []. unfold writable_buffer. by destruct (buffer_state c). Qed.

Lemma set_writable_views c b :
  get_drawable_buffer (set_writable c b) = get_drawable_buffer c /\ writable_buffer (set_writable c b) = b.
Proof. unfold get_drawable_buffer, writable_buffer. cbn. by destruct (buffer_state c). Qed.

Lemma set_writable_inv c b : length b = length (writable_buffer c) -> canvas_inv c -> canvas_inv (set_writable c b).
Proof.
  intros Hl I. pose proof (writable_length c I) as Hw. destruct I. split; cbn; try done;
    destruct (buffer_state c) eqn:E; try done; rewrite Hl; done.
Qed.

Lemma checked_area_spec w h : is_u64 w -> is_u64 h ->
  checked_area w h = if decide (w * h <= size_max)%Z then (OK, (w * h)%Z) else (DIMENSION_OVERFLOW, 0%Z).
Proof.
  intros Hw Hh. unfold checked_area. destruct (Z.eqb_spec h 0) as [->|Hn]; cbn [negb andb].
  - rewrite Z.mul_0_r. by rewrite decide_True by (unfold size_max; lia).
  - assert (Hpos : (0 < h)%Z) by width_lia. pose proof (Z.div_mod size_max h Hn) as Hd.
    pose proof (Z.mod_pos_bound size_max h Hpos) as Hm.
    destruct (Z.ltb_spec (size_max / h) w) as [Hlt|Hge].
    + rewrite decide_False; [done|]. intros Hle.
      assert (h * (size_max / h + 1) <= h * w)%Z by (apply Z.mul_le_mono_nonneg_l; lia). lia.
    + rewrite decide_True; [done|]. assert (h * w <= h * (size_max / h))%Z by (apply Z.mul_le_mono_nonneg_l; lia). lia.
Qed.

Lemma new_canvas_inv w h : is_u64 w -> is_u64 h -> canvas_inv (new_canvas w h).
Proof.
  intros Hw Hh. unfold new_canvas. rewrite checked_area_spec by done. case_decide as Ha.
  - assert (Hl : Z.of_nat (length (replicate (Z.to_nat (w * h)) blank_cell)) = (w * h)%Z)
      by (rewrite length_replicate, Z2Nat.id; width_lia). change (is_ok OK) with true. by split; try done; left.
  - change (is_ok DIMENSION_OVERFLOW) with false. split; cbn; try (unfold in_width, size_max; lia).
Qed.

(** An accepted write lies on the canvas; the index arithmetic is exact. *)
Lemma check_write_ok c rect cells : check_write c rect cells = OK <->
  frame_in_progress c = true /\ (rect_x rect <= width c /\ rect_y rect <= height c)%Z /\
  (rect_width rect <= width c - rect_x rect /\ rect_height rect <= height c - rect_y rect)%Z /\
  Z.of_nat (length cells) = rect_height rect /\ Forall (fun row => Z.of_nat (length row) = rect_width rect) cells.
Proof.
  unfold check_write. destruct (frame_in_progress c); cbn [negb]; [|split; [done|by intros []]].
  repeat match goal with |- context [(?a <? ?b)%Z] => destruct (Z.ltb_spec a b) end; cbn [orb];
    try (split; [done|lia]).
  destruct (Z.eqb_spec (Z.of_nat (length cells)) (rect_height rect)); cbn [negb]; [|split; [done|lia]].
  destruct (forallb _ cells) eqn:Hf; (split; [|try done]).
  - intros _. split_and!; try done; try lia. apply Forall_forall. intros row Hr%list_elem_of_In.
    rewrite forallb_forall in Hf. specialize (Hf row Hr). lia.
  - done.
  - intros (_ & _ & _ & _ & Hr). exfalso. apply not_true_iff_false in Hf. apply Hf. apply forallb_forall.
    intros row Hin%list_elem_of_In. rewrite Forall_forall in Hr. specialize (Hr row Hin). lia.
Qed.

(** A rectangle of [std::size_t] values. *)
Definition rect_u64 (r : Rect) : Prop :=
  is_u64 (rect_x r) /\ is_u64 (rect_y r) /\ is_u64 (rect_width r) /\ is_u64 (rect_height r).

Lemma destination_exact c rect cells row : canvas_inv c -> rect_u64 rect -> check_write c rect cells = OK ->
  (row < length cells)%nat ->
  Z.to_nat (destination (width c) rect row) =
  ((Z.to_nat (rect_y rect) + row) * Z.to_nat (width c) + Z.to_nat (rect_x rect))%nat.
Proof.
  intros [Hw Hh Ha _ _ _] (Hx & Hy & Hrw & Hrh) Hok%check_write_ok Hr.
  destruct Hok as (_ & [Hx' Hy'] & [Hw' Hh'] & Hl & _).
  assert (Hrow : (rect_y rect + Z.of_nat row + 1 <= height c)%Z) by lia.
  assert (Hd : ((rect_y rect + Z.of_nat row) * width c + rect_x rect <= size_max)%Z).
  { assert (width c * (rect_y rect + Z.of_nat row + 1) <= width c * height c)%Z
      by (apply Z.mul_le_mono_nonneg_l; width_lia). lia. }
  assert (Hm : (0 <= (rect_y rect + Z.of_nat row) * width c)%Z) by (apply Z.mul_nonneg_nonneg; width_lia).
  unfold destination. unfold size_max in *.
  rewrite !(wrap_small 64 (rect_y rect + _)) by width_lia.
  rewrite (wrap_small 64 (_ * _)) by width_lia. rewrite wrap_small by width_lia.
  rewrite Z2Nat.inj_add, Z2Nat.inj_mul, Z2Nat.inj_add, Nat2Z.id; width_lia.
Qed.

Lemma write_stores_exact c rect cells : canvas_inv c -> rect_u64 rect -> check_write c rect cells = OK ->
  write_stores (width c) rect cells =
  concat (imap (fun r line => row_stores ((Z.to_nat (rect_y rect) + r) * Z.to_nat (width c) + Z.to_nat (rect_x rect)) line) cells).
Proof.
  intros I Hu Hok. unfold write_stores. f_equal. apply imap_ext. intros r line Hr.
  apply lookup_lt_Some in Hr. by erewrite destination_exact.
Qed.

(** ** The abstract picture *)

(** What a canvas shows: a published image and, during a transaction, a
    draft; images are functions of the column and the row. *)
Definition Image := nat -> nat -> option Cell.

Record Picture := {
  picture_status : Status;
  picture_width : Z;
  picture_height : Z;
  published : Image;
  draft : option Image;
}.

Definition solid (w h : Z) (cell : Cell) : Image :=
  fun x y => if bool_decide (Z.of_nat x < w /\ Z.of_nat y < h)%Z then Some cell else None.

Definition paint (rect : Rect) (cells : list (list Cell)) (image : Image) : Image := fun x y =>
  match write_point (Z.to_nat (rect_x rect)) (Z.to_nat (rect_y rect)) cells x y with
  | Some cell => Some cell
  | None => image x y
  end.

(** The rectangle lies on the picture. *)
Definition rect_inside (w h : Z) (r : Rect) : Prop :=
  (rect_x r + rect_width r <= w /\ rect_y r + rect_height r <= h)%Z.
#[global] Instance rect_inside_dec w h r : Decision (rect_inside w h r).
Proof. unfold rect_inside. apply _. Defined.

Definition shaped (r : Rect) (cells : list (list Cell)) : Prop :=
  Z.of_nat (length cells) = rect_height r /\ Forall (fun row => Z.of_nat (length row) = rect_width r) cells.
#[global] Instance shaped_dec r cells : Decision (shaped r cells).
Proof. unfold shaped. apply _. Defined.

Inductive CanvasOp :=
| BeginFrame
| Clear (cell : Cell)
| WriteCells (rect : Rect) (cells : list (list Cell))
| EndFrame
| CancelFrame.

Definition canvas_op (op : CanvasOp) (c : Canvas) : Status * Canvas :=
  match op with
  | BeginFrame => begin_frame c
  | Clear cell => clear cell c
  | WriteCells rect cells => write_cells rect cells c
  | EndFrame => end_frame c
  | CancelFrame => cancel_frame c
  end.

Definition with_draft (p : Picture) (d : option Image) : Picture :=
  {| picture_status := picture_status p; picture_width := picture_width p; picture_height := picture_height p;
     published := published p; draft := d |}.

Definition picture_op (op : CanvasOp) (p : Picture) : Status * Picture :=
  match op, draft p with
  | BeginFrame, None => if is_ok (picture_status p) then (OK, with_draft p (Some (published p))) else (picture_status p, p)
  | BeginFrame, Some _ => (FRAME_ALREADY_IN_PROGRESS, p)
  | _, None => (NO_FRAME_IN_PROGRESS, p)
  | Clear cell, Some _ => (OK, with_draft p (Some (solid (picture_width p) (picture_height p) cell)))
  | WriteCells rect cells, Some d =>
      if decide (rect_inside (picture_width p) (picture_height p) rect)
      then if decide (shaped rect cells) then (OK, with_draft p (Some (paint rect cells d))) else (CELL_SHAPE_MISMATCH, p)
      else (RECT_OUT_OF_BOUNDS, p)
  | EndFrame, Some d =>
      (OK, {| picture_status := picture_status p; picture_width := picture_width p; picture_height := picture_height p;
              published := d; draft := None |})
  | CancelFrame, Some _ => (OK, with_draft p None)
  end.

Definition blank_picture (w h : Z) : Picture :=
  if decide (w * h <= size_max)%Z
  then {| picture_status := OK; picture_width := w; picture_height := h; published := solid w h blank_cell; draft := None |}
  else {| picture_status := DIMENSION_OVERFLOW; picture_width := 0; picture_height := 0;
          published := solid 0 0 blank_cell; draft := None |}.

(** The image in a buffer. *)
Definition image_in (w h : Z) (buffer : list Cell) : Image := fun x y =>
  if bool_decide (Z.of_nat x < w /\ Z.of_nat y < h)%Z then buffer !! (y * Z.to_nat w + x)%nat else None.

Definition same_image (f g : Image) : Prop := forall x y, f x y = g x y.

#[global] Instance same_image_equiv : Equivalence same_image.
Proof.
  split; [by intros f x y|by intros f g Hf x y|]. intros f g k H1 H2 x y. by rewrite H1.
Qed.

#[global] Instance paint_proper rect cells : Proper (same_image ==> same_image) (paint rect cells).
Proof. intros f g Hf x y. unfold paint. by rewrite Hf. Qed.

Record shows (c : Canvas) (p : Picture) : Prop := {
  sh_status : status c = picture_status p;
  sh_width : width c = picture_width p;
  sh_height : height c = picture_height p;
  sh_published : same_image (image_in (width c) (height c) (get_drawable_buffer c)) (published p);
  sh_draft : match draft p with
             | Some d => frame_in_progress c = true /\ same_image (image_in (width c) (height c) (writable_buffer c)) d
             | None => frame_in_progress c = false
             end;
}.

(** ** Refinement *)

Lemma solid_buffer w h n cell : (0 <= w)%Z -> Z.of_nat n = (w * h)%Z ->
  same_image (image_in w h (replicate n cell)) (solid w h cell).
Proof.
  intros Hw Hn x y. unfold image_in, solid. case_bool_decide as Hb; [|done]. apply lookup_replicate_2.
  assert (Hle : (S y * Z.to_nat w <= n)%nat).
  { apply Nat2Z.inj_le. rewrite Nat2Z.inj_mul, Z2Nat.id, Hn by done. rewrite (Z.mul_comm w h).
    apply Z.mul_le_mono_nonneg_r; lia. }
  lia.
Qed.

Lemma write_point_inside c rect cells x y : canvas_inv c -> rect_u64 rect -> check_write c rect cells = OK ->
  is_Some (write_point (Z.to_nat (rect_x rect)) (Z.to_nat (rect_y rect)) cells x y) ->
  (Z.of_nat x < width c /\ Z.of_nat y < height c)%Z.
Proof.
  intros I (Hx & Hy & _ & _) Hok%check_write_ok. destruct Hok as (_ & _ & [Hw Hh] & Hl & Hf).
  unfold write_point. destruct (_ && _) eqn:E; [|by intros [? ?]]. apply andb_true_iff in E as [E1 E2].
  intros [cell Hc]. apply bind_Some in Hc as (line & Hline & Hc). rewrite Forall_forall in Hf.
  pose proof (Hf line (list_elem_of_lookup_2 _ _ _ Hline)) as Hlen. apply lookup_lt_Some in Hline, Hc. width_lia.
Qed.

Lemma write_image c rect cells : canvas_inv c -> rect_u64 rect -> check_write c rect cells = OK ->
  same_image (image_in (width c) (height c) (apply_stores (write_stores (width c) rect cells) (writable_buffer c)))
             (paint rect cells (image_in (width c) (height c) (writable_buffer c))).
Proof.
  intros I Hu Hok x y. unfold image_in, paint.
  pose proof (write_point_inside c rect cells x y I Hu Hok) as Hin.
  case_bool_decide as Hb.
  - pose proof (writable_length c I) as Hlen. rewrite write_stores_exact by done. destruct I as [Hw Hh Ha _ _ _].
    assert (Hk : (y * Z.to_nat (width c) + x < length (writable_buffer c))%nat).
    { assert (Hle : (S y * Z.to_nat (width c) <= length (writable_buffer c))%nat); [|lia].
      apply Nat2Z.inj_le. rewrite Nat2Z.inj_mul, Z2Nat.id, Hlen by width_lia. rewrite (Z.mul_comm (width c)).
      apply Z.mul_le_mono_nonneg_r; width_lia. }
    rewrite apply_stores_lookup by done.
    apply check_write_ok in Hok as Hok'. destruct Hok' as (_ & [Hx' Hy'] & [Hw' Hh'] & Hl & Hf). destruct Hu as (Hx & Hy & Hrw & Hrh).
    rewrite (stores_at_write _ _ (Z.to_nat (rect_width rect))); [by destruct (write_point _ _ _ _ _)|width_lia|width_lia|].
    eapply Forall_impl; [exact Hf|]. cbn. intros row Hr. lia.
  - destruct (write_point _ _ _ _ _); [|done]. exfalso. apply Hb, Hin. by eexists.
Qed.

Definition op_u64 (op : CanvasOp) : Prop := match op with WriteCells rect _ => rect_u64 rect | _ => True end.

Lemma shows_set_writable c p b d : shows c p -> frame_in_progress c = true ->
  same_image (image_in (width c) (height c) b) d -> shows (set_writable c b) (with_draft p (Some d)).
Proof.
  intros [] Hp Hb. destruct (set_writable_views c b) as [E1 E2]. split; cbn [with_draft picture_status picture_width
    picture_height published draft]; try done; [by rewrite E1|]. split; [done|]. by rewrite E2.
Qed.

(** The checks of a write, in terms of the rectangle. *)
Lemma check_write_spec c rect cells : canvas_inv c -> rect_u64 rect ->
  check_write c rect cells =
  if negb (frame_in_progress c) then NO_FRAME_IN_PROGRESS
  else if decide (rect_inside (width c) (height c) rect)
       then if decide (shaped rect cells) then OK else CELL_SHAPE_MISMATCH
       else RECT_OUT_OF_BOUNDS.
Proof.
  intros [Hw Hh _ _ _ _] (Hx & Hy & Hrw & Hrh). unfold check_write. destruct (frame_in_progress c); cbn [negb]; [|done].
  destruct (decide (rect_inside _ _ _)) as [Hi|Hi]; unfold rect_inside in Hi.
  - repeat match goal with |- context [(?a <? ?b)%Z] => destruct (Z.ltb_spec a b); [width_lia|] end. cbn [orb].
    unfold shaped. destruct (Z.eqb_spec (Z.of_nat (length cells)) (rect_height rect)) as [He|He]; cbn [negb].
    + destruct (forallb _ cells) eqn:Hf.
      * rewrite decide_True; [done|]. split; [done|]. apply Forall_forall. intros row Hr%list_elem_of_In.
        rewrite forallb_forall in Hf. specialize (Hf row Hr). lia.
      * rewrite decide_False; [done|]. intros [_ Hr]. apply not_true_iff_false in Hf. apply Hf, forallb_forall.
        intros row Hin%list_elem_of_In. rewrite Forall_forall in Hr. specialize (Hr row Hin). lia.
    + rewrite decide_False; [done|]. by intros [? _].
  - destruct (_ || _) eqn:E; [done|]. exfalso. apply Hi.
    repeat (apply orb_false_iff in E as [E ?]). lia.
Qed.

(** Every operation does to the canvas what it does to the picture. *)
Lemma set_in_progress_inv c : canvas_inv c -> canvas_inv (set_in_progress c false).
Proof. intros []. split; cbn; try done. by right. Qed.

Lemma begin_refines c p : canvas_inv c -> shows c p ->
  fst (begin_frame c) = fst (picture_op BeginFrame p) /\ shows (snd (begin_frame c)) (snd (picture_op BeginFrame p)) /\
  canvas_inv (snd (begin_frame c)).
Proof.
  intros I S. pose proof (sh_draft _ _ S) as Sd. unfold begin_frame. cbn [picture_op]. rewrite (sh_status _ _ S).
  destruct (draft p) as [d|] eqn:Ed.
  - destruct Sd as [Hp _]. destruct (ci_status _ I) as [Hs|Hs]; [|congruence].
    rewrite <- (sh_status _ _ S), Hs, Hp. change (is_ok OK) with true. done.
  - rewrite Sd. destruct (is_ok (picture_status p)) eqn:Ho; cbn [negb fst snd]; [|done]. split; [done|].
    assert (Hl : length (get_drawable_buffer c) = length (writable_buffer c))
      by (apply Nat2Z.inj; by rewrite drawable_length, writable_length).
    unfold copy_drawable_to_writable. rewrite copy_all by done.
    apply bool_decide_eq_true in Ho. pose proof (set_writable_inv c _ Hl I) as [].
    pose proof (sh_published _ _ S) as Hpub.
    destruct S. split; [|split; try done; left; cbn; congruence].
    split; try done; unfold get_drawable_buffer, writable_buffer in *; cbn in *; by destruct (buffer_state c).
Qed.

Lemma canvas_op_refines op c p : op_u64 op -> canvas_inv c -> shows c p ->
  fst (canvas_op op c) = fst (picture_op op p) /\ shows (snd (canvas_op op c)) (snd (picture_op op p)) /\
  canvas_inv (snd (canvas_op op c)).
Proof.
  intros Hu I S. destruct op as [|cell|rect cells| |]; [by apply begin_refines|..];
    pose proof (sh_draft _ _ S) as Sd; cbn [canvas_op picture_op op_u64] in *.
  - unfold clear. destruct (draft p) as [d|] eqn:Ed; [|by rewrite Sd]. destruct Sd as [Hp Hd]. rewrite Hp.
    cbn [negb fst snd]. split; [done|]. rewrite <- (sh_width _ _ S), <- (sh_height _ _ S). split.
    + apply shows_set_writable; [done..|]. apply solid_buffer; [apply I|by apply writable_length].
    + apply set_writable_inv; [apply length_replicate|done].
  - unfold write_cells. destruct (draft p) as [d|] eqn:Ed.
    2:{ unfold check_write. by rewrite Sd. }
    destruct Sd as [Hp Hd]. rewrite <- (sh_width _ _ S), <- (sh_height _ _ S), check_write_spec by done. rewrite Hp. cbn [negb].
    case_decide as Hin; [|done]. case_decide as Hsh; [|done]. change (is_ok OK) with true. cbn [fst snd].
    assert (Hok : check_write c rect cells = OK)
      by (rewrite check_write_spec, Hp by done; cbn [negb]; by rewrite !decide_True).
    split; [done|]. split.
    + apply shows_set_writable; [done..|]. rewrite write_image by done. by rewrite Hd.
    + apply set_writable_inv; [by rewrite apply_stores_length|done].
  - unfold end_frame. destruct (draft p) as [d|] eqn:Ed; [|by rewrite Sd]. destruct Sd as [Hp Hd]. rewrite Hp.
    cbn [negb fst snd]. split; [done|]. destruct I, S. split; [|split; try done; by right].
    split; try done. unfold get_drawable_buffer, writable_buffer in *; cbn in *; by destruct (buffer_state c).
  - unfold cancel_frame. destruct (draft p) as [d|] eqn:Ed; [|by rewrite Sd]. destruct Sd as [Hp Hd]. rewrite Hp.
    cbn [negb fst snd]. split; [done|]. split; [|by apply set_in_progress_inv]. destruct S. by split.
Qed.

Lemma new_canvas_shows w h : is_u64 w -> is_u64 h -> shows (new_canvas w h) (blank_picture w h).
Proof.
  intros Hw Hh. unfold new_canvas, blank_picture. rewrite checked_area_spec by done. case_decide as Ha.
  - change (is_ok OK) with true. cbn [fst snd]. split; try done. cbn [get_drawable_buffer buffer_state screen_buffer_a width height published].
    apply solid_buffer; [apply Hw|]. rewrite Z2Nat.id; width_lia.
  - change (is_ok DIMENSION_OVERFLOW) with false. split; try done. intros x y. unfold image_in, solid. cbn [width height published].
    by rewrite !bool_decide_false by lia.
Qed.

(** ** Histories *)

Fixpoint canvas_run (ops : list CanvasOp) (c : Canvas) : list Status * Canvas :=
  match ops with
  | [] => ([], c)
  | op :: ops =>
      let (s, c) := canvas_op op c in
      let (rest, c) := canvas_run ops c in (s :: rest, c)
  end.

Fixpoint picture_run (ops : list CanvasOp) (p : Picture) : list Status * Picture :=
  match ops with
  | [] => ([], p)
  | op :: ops =>
      let (s, p) := picture_op op p in
      let (rest, p) := picture_run ops p in (s :: rest, p)
  end.

Lemma canvas_run_refines ops : forall c p, Forall op_u64 ops -> canvas_inv c -> shows c p ->
  fst (canvas_run ops c) = fst (picture_run ops p) /\ shows (snd (canvas_run ops c)) (snd (picture_run ops p)) /\
  canvas_inv (snd (canvas_run ops c)).
Proof.
  induction ops as [|op ops IH]; intros c p Hf I S; [done|]. apply Forall_cons in Hf as [Ho Hf]. cbn [canvas_run picture_run].
  destruct (canvas_op_refines op c p Ho I S) as (E & S' & I').
  destruct (canvas_op op c) as [s c'], (picture_op op p) as [s' p']. cbn [fst snd] in *. subst s'.
  specialize (IH c' p' Hf I' S').
  destruct (canvas_run ops c') as [l c''], (picture_run ops p') as [l' p'']. cbn [fst snd] in *.
  destruct IH as (-> & ? & ?). done.
Qed.

(** ** Properties *)

(** C10. Every history of a canvas is one of the picture it stands for: the same
    statuses, and the drawable buffer always holds the published image, which
    changes only when a transaction ends; a transaction starts from the
    published image, a write replaces exactly the cells of its rectangle when
    it lies on the canvas and has its shape, and a refused operation changes
    nothing. A canvas whose area does not fit [std::size_t] is an empty one
    that refuses every transaction. *)
Theorem canvas_shows_picture (w h : Z) (ops : list CanvasOp) :
  is_u64 w -> is_u64 h -> Forall op_u64 ops ->
  let (statuses, c) := canvas_run ops (new_canvas w h) in
  let (statuses', p) := picture_run ops (blank_picture w h) in
  statuses = statuses' /\ shows c p /\
  Z.of_nat (length (get_drawable_buffer c)) = (picture_width p * picture_height p)%Z.
Proof.
  intros Hw Hh Hf.
  destruct (canvas_run_refines ops (new_canvas w h) (blank_picture w h) Hf) as (E & S & I);
    [by apply new_canvas_inv|by apply new_canvas_shows|].
  destruct (canvas_run ops _) as [statuses c], (picture_run ops _) as [statuses' p]. cbn [fst snd] in *.
  split; [done|]. split; [done|]. rewrite drawable_length by done. by rewrite (sh_width _ _ S), (sh_height _ _ S).
Qed.

(** ** Witnesses *)

Definition sample_cell (z : Z) : Cell := {| character := z; foreground_color := 1; background_color := 2 |}.

Definition sample_ops : list CanvasOp :=
  [BeginFrame; Clear (sample_cell 46);
   WriteCells {| rect_x := 1; rect_y := 0; rect_width := 2; rect_height := 2 |}
     [[sample_cell 65; sample_cell 66]; [sample_cell 67; sample_cell 68]];
   WriteCells {| rect_x := 2; rect_y := 0; rect_width := 2; rect_height := 1 |} [[sample_cell 69; sample_cell 70]];
   EndFrame; BeginFrame; Clear blank_cell; CancelFrame; Clear blank_cell].

Lemma canvas_shows_picture_witness :
  fst (canvas_run sample_ops (new_canvas 3 2)) = [OK; OK; OK; RECT_OUT_OF_BOUNDS; OK; OK; OK; OK; NO_FRAME_IN_PROGRESS] /\
  map character (get_drawable_buffer (snd (canvas_run sample_ops (new_canvas 3 2)))) = [46; 65; 66; 46; 67; 68]%Z /\
  is_u64 3 /\ is_u64 2 /\ shows (snd (canvas_run sample_ops (new_canvas 3 2))) (snd (picture_run sample_ops (blank_picture 3 2))).
Proof.
  split; [vm_compute; reflexivity|]. split; [vm_compute; reflexivity|].
  assert (H3 : is_u64 3) by (split; [lia|reflexivity]). assert (H2 : is_u64 2) by (split; [lia|reflexivity]).
  split; [done|]. split; [done|].
  assert (Hf : Forall op_u64 sample_ops) by (repeat constructor; cbn; unfold rect_u64, in_width; cbn; lia).
  pose proof (canvas_shows_picture 3 2 sample_ops H3 H2 Hf) as Hc.
  destruct (canvas_run sample_ops (new_canvas 3 2)) as [statuses c].
  destruct (picture_run sample_ops (blank_picture 3 2)) as [statuses' p]. exact (proj1 (proj2 Hc)).
Defined.
