(* ===== verification/LongDouble.v ===== *)
(** * Floating-point values of the layout solver

    [float] is IEEE binary32. [long double] values are non-negative rationals
    that every operation rounds to nearest, ties to even, at a significand of
    [precision] bits; the magnitudes of the solver (below [2 ^ 288], above
    [2 ^ -350]) are far inside its exponent range. *)
From S2P Require Import Prelude.
From Stdlib Require Import QArith Qround Qpower Lqa.

Local Open Scope Q_scope.

(** [Finite m e] is [m * 2 ^ e]. *)
Inductive Float :=
| NaN
| Infinity (negative : bool)
| Finite (mantissa exponent : Z).

(** The finite values of binary32. *)
Definition float_wf (f : Float) : Prop :=
  match f with Finite m e => (Z.abs m < 2 ^ 24)%Z /\ (-149 <= e <= 104)%Z | _ => True end.

Definition float_value (m e : Z) : Q := inject_Z m * 2 ^ e.

(** The value of a finite [float]. *)
Definition finite_value (f : Float) : option Q :=
  match f with Finite m e => Some (float_value m e) | _ => None end.

(** ** Rounding *)

(** The integer part of the binary logarithm of [q > 0]. *)
Definition binary_exponent (q : Q) : Z :=
  let k := (Z.log2 (Qnum q) - Z.log2 (Zpos (Qden q)))%Z in
  if Qle_bool (2 ^ k) q then k else (k - 1)%Z.

Definition nearest_even (q : Q) : Z :=
  let f := Qfloor q in
  match Qcompare (q - inject_Z f) (1 # 2) with
  | Lt => f
  | Gt => (f + 1)%Z
  | Eq => if Z.even f then f else (f + 1)%Z
  end.

Definition round_at (precision : Z) (q : Q) : Q :=
  if Qle_bool q 0 then 0
  else
    let e := (binary_exponent q - precision + 1)%Z in
    Qred (inject_Z (nearest_even (q / 2 ^ e)) * 2 ^ e).

Lemma pow2_pos k : 0 < 2 ^ k.
Proof. by apply Qpower_0_lt. Qed.

Lemma pow2_plus a b : 2 ^ (a + b) == 2 ^ a * 2 ^ b.
Proof. by apply Qpower_plus. Qed.

Lemma pow2_le a b : (a <= b)%Z -> 2 ^ a <= 2 ^ b.
Proof. intros H. by apply Qpower_le_compat_l. Qed.

Lemma pow2_Z k : (0 <= k)%Z -> inject_Z (2 ^ k) == 2 ^ k.
Proof. intros H. by rewrite Zpower_Qpower. Qed.

Lemma binary_exponent_spec q : 0 < q -> 2 ^ binary_exponent q <= q < 2 ^ (binary_exponent q + 1).
Proof.
  intros Hq. destruct q as [n d]. assert (Hn : (0 < n)%Z) by (unfold Qlt in Hq; cbn in Hq; lia).
  unfold binary_exponent. cbn [Qnum Qden].
  set (a := Z.log2 n). set (b := Z.log2 (Zpos d)).
  pose proof (Z.log2_spec n Hn) as [Ha1 Ha2]. pose proof (Z.log2_spec (Zpos d) eq_refl) as [Hb1 Hb2]. fold a b in Ha1, Ha2, Hb1, Hb2.
  assert (Ha : (0 <= a)%Z) by apply Z.log2_nonneg. assert (Hb : (0 <= b)%Z) by apply Z.log2_nonneg.
  rewrite Zle_Qle in Ha1, Hb1. rewrite Zlt_Qlt in Ha2, Hb2. rewrite <- Z.add_1_r in Ha2, Hb2.
  rewrite pow2_Z in Ha1, Hb1 by done. rewrite pow2_Z in Ha2, Hb2 by lia.
  assert (Ed : n # d == inject_Z n / inject_Z (Zpos d)) by (apply Qmake_Qdiv).
  assert (Hd0 : 0 < inject_Z (Zpos d)) by done.
  assert (Ek : forall j, 2 ^ (a - b + j) * 2 ^ b == 2 ^ (a + j)) by (intros j; rewrite <- pow2_plus; f_equiv; lia).
  pose proof (pow2_pos b) as Hpb.
  assert (Hup : n # d < 2 ^ (a - b + 1)).
  { rewrite Ed. apply Qlt_shift_div_r; [done|]. specialize (Ek 1%Z). pose proof (pow2_pos (a - b + 1)) as Hp. nra. }
  assert (Hlo : 2 ^ (a - b - 1) <= n # d).
  { rewrite Ed. apply Qle_shift_div_l; [done|]. specialize (Ek (-1)%Z).
    replace (a - b + -1)%Z with (a - b - 1)%Z in Ek by lia. pose proof (pow2_pos (a - b - 1)) as Hp.
    assert (Ea : 2 ^ a == 2 * 2 ^ (a + -1)) by (change 2 with (2 ^ 1) at 2; rewrite <- pow2_plus; f_equiv; lia).
    assert (Eb : 2 ^ (b + 1) == 2 * 2 ^ b) by (rewrite pow2_plus; change (2 ^ 1) with 2; ring). nra. }
  destruct (Qle_bool (2 ^ (a - b)) (n # d)) eqn:E.
  - apply Qle_bool_iff in E. done.
  - split; [done|]. replace (a - b - 1 + 1)%Z with (a - b)%Z by lia. apply Qnot_le_lt. intros Hle.
    apply Qle_bool_iff in Hle. congruence.
Qed.

Lemma binary_exponent_unique q e : 0 < q -> 2 ^ e <= q < 2 ^ (e + 1) -> binary_exponent q = e.
Proof.
  intros Hq [H1 H2]. destruct (binary_exponent_spec q Hq) as [H3 H4]. set (k := binary_exponent q) in *.
  assert (Hke : (k < e + 1)%Z) by (eapply (Qpower_lt_compat_l_inv 2); [eapply Qle_lt_trans; eassumption|done]).
  assert (Hek : (e < k + 1)%Z) by (eapply (Qpower_lt_compat_l_inv 2); [eapply Qle_lt_trans; eassumption|done]).
  lia.
Qed.

Lemma nearest_even_bounds q : (Qfloor q <= nearest_even q <= Qfloor q + 1)%Z.
Proof. unfold nearest_even. destruct (Qcompare _ _); [|lia|lia]. destruct (Z.even _); lia. Qed.

Lemma nearest_even_le q z : q <= inject_Z z -> (nearest_even q <= z)%Z.
Proof.
  intros Hq. pose proof (Qfloor_resp_le _ _ Hq) as Hf. rewrite Qfloor_Z in Hf.
  destruct (decide (Qfloor q = z)) as [E|]; [|pose proof (nearest_even_bounds q); lia].
  unfold nearest_even. rewrite E. assert (Hl : Qcompare (q - inject_Z z) (1 # 2) = Lt) by (apply (proj1 (Qlt_alt _ _)); lra). rewrite Hl. lia.
Qed.

Lemma nearest_even_ge q z : inject_Z z <= q -> (z <= nearest_even q)%Z.
Proof.
  intros Hq. pose proof (Qfloor_resp_le _ _ Hq) as Hf. rewrite Qfloor_Z in Hf. pose proof (nearest_even_bounds q). lia.
Qed.

Lemma nearest_even_error q : inject_Z (nearest_even q) - (1 # 2) <= q <= inject_Z (nearest_even q) + (1 # 2).
Proof.
  pose proof (Qfloor_le q) as H1. pose proof (Qlt_floor q) as H2. rewrite inject_Z_plus in H2. unfold nearest_even.
  destruct (Qcompare _ _) eqn:E.
  - apply Qeq_alt in E. destruct (Z.even _); rewrite ?inject_Z_plus; change (inject_Z 1) with 1 in *; lra.
  - apply Qlt_alt in E. change (inject_Z 1) with 1 in *; lra.
  - apply Qgt_alt in E. rewrite inject_Z_plus. change (inject_Z 1) with 1 in *; lra.
Qed.

Lemma nearest_even_comp p q : p == q -> nearest_even p = nearest_even q.
Proof.
  intros E. unfold nearest_even. rewrite (Qfloor_comp p q E).
  assert (Ec : Qcompare (p - inject_Z (Qfloor q)) (1 # 2) = Qcompare (q - inject_Z (Qfloor q)) (1 # 2))
    by (by rewrite E). by rewrite Ec.
Qed.

Lemma nearest_even_mono p q : p <= q -> (nearest_even p <= nearest_even q)%Z.
Proof.
  intros Hpq. pose proof (Qfloor_resp_le _ _ Hpq) as Hf.
  destruct (decide (Qfloor p = Qfloor q)) as [E|]; [|pose proof (nearest_even_bounds p); pose proof (nearest_even_bounds q); lia].
  unfold nearest_even. rewrite E. set (f := Qfloor q) in *.
  destruct (Qcompare (p - inject_Z f) (1 # 2)) eqn:E1, (Qcompare (q - inject_Z f) (1 # 2)) eqn:E2;
    try (destruct (Z.even f); lia); exfalso;
    repeat match goal with
    | H : Qcompare _ _ = Eq |- _ => apply Qeq_alt in H
    | H : Qcompare _ _ = Lt |- _ => apply Qlt_alt in H
    | H : Qcompare _ _ = Gt |- _ => apply Qgt_alt in H
    end; lra.
Qed.

(** The values of the format. *)
Definition representable (precision : Z) (r : Q) : Prop :=
  exists m k, (0 <= m < 2 ^ precision)%Z /\ r == inject_Z m * 2 ^ k.

Section Rounding.
Variable p : Z.
Hypothesis Hp : (1 <= p)%Z.

(** The scaled value that is rounded to an integer. *)
Lemma round_at_pos q : 0 < q -> exists e,
  2 ^ (p - 1) <= q / 2 ^ e /\ q == q / 2 ^ e * 2 ^ e /\
  round_at p q == inject_Z (nearest_even (q / 2 ^ e)) * 2 ^ e /\ 2 ^ (e + p - 1) <= q.
Proof.
  intros Hq. exists (binary_exponent q - p + 1)%Z. destruct (binary_exponent_spec q Hq) as [H1 _].
  set (e := (binary_exponent q - p + 1)%Z). pose proof (pow2_pos e) as He.
  replace (e + p - 1)%Z with (binary_exponent q) by (unfold e; lia).
  split; [|split; [|split; [|done]]].
  - apply Qle_shift_div_l; [done|]. rewrite <- pow2_plus. by replace (p - 1 + e)%Z with (binary_exponent q) by (unfold e; lia).
  - field. lra.
  - unfold round_at. destruct (Qle_bool q 0) eqn:E; [apply Qle_bool_iff in E; lra|]. fold e. apply Qred_correct.
Qed.

Lemma round_at_zero q : q <= 0 -> round_at p q = 0.
Proof. intros Hq. unfold round_at. apply Qle_bool_iff in Hq. by rewrite Hq. Qed.

#[export] Instance round_at_proper : Proper (Qeq ==> Qeq) (round_at p).
Proof.
  intros q r E. destruct (Qlt_le_dec 0 q) as [Hq|Hq].
  - assert (Hr : 0 < r) by (by rewrite <- E). unfold round_at.
    destruct (Qle_bool q 0) eqn:E1; [apply Qle_bool_iff in E1; lra|].
    destruct (Qle_bool r 0) eqn:E2; [apply Qle_bool_iff in E2; lra|].
    assert (Eb : binary_exponent q = binary_exponent r).
    { apply binary_exponent_unique; [done|]. rewrite E. by apply binary_exponent_spec. }
    rewrite Eb, !Qred_correct. set (e := (binary_exponent r - p + 1)%Z).
    rewrite (nearest_even_comp (q / 2 ^ e) (r / 2 ^ e)); [done|]. by rewrite E.
  - rewrite !round_at_zero; [done|by rewrite <- E|done].
Qed.

(** Rounding does not cross a representable value. *)
Lemma round_at_le q r : 0 <= q -> representable p r -> q <= r -> round_at p q <= r.
Proof.
  intros Hq0 (m & k & Hm & Er) Hqr. destruct (Qlt_le_dec 0 q) as [Hq|Hq]; [|rewrite round_at_zero by done; lra].
  destruct (round_at_pos q Hq) as (e & H1 & H2 & -> & H3). pose proof (pow2_pos e) as He.
  destruct (Z.le_gt_cases e k) as [Hek|Hek].
  - assert (Ez : r == inject_Z (m * 2 ^ (k - e)) * 2 ^ e).
    { rewrite inject_Z_mult, pow2_Z by lia. rewrite <- Qmult_assoc, <- pow2_plus, Er. f_equiv. f_equiv. lia. }
    rewrite Ez. apply Qmult_le_compat_r; [|lra]. rewrite <- Zle_Qle. apply nearest_even_le.
    apply Qle_shift_div_r; [done|]. by rewrite <- Ez.
  - exfalso. assert (Hlt : r < 2 ^ (e + p - 1)); [|lra]. rewrite Er. apply Qlt_le_trans with (2 ^ p * 2 ^ k).
    + apply Qmult_lt_compat_r; [apply pow2_pos|]. rewrite <- pow2_Z by lia. rewrite <- Zlt_Qlt. lia.
    + rewrite <- pow2_plus. apply pow2_le. lia.
Qed.

Lemma round_at_ge q r : representable p r -> r <= q -> r <= round_at p q.
Proof.
  intros (m & k & Hm & Er) Hqr. destruct (Qlt_le_dec 0 q) as [Hq|Hq].
  - destruct (round_at_pos q Hq) as (e & H1 & H2 & -> & H3). pose proof (pow2_pos e) as He.
    destruct (Z.le_gt_cases e k) as [Hek|Hek].
    + assert (Ez : r == inject_Z (m * 2 ^ (k - e)) * 2 ^ e).
      { rewrite inject_Z_mult, pow2_Z by lia. rewrite <- Qmult_assoc, <- pow2_plus, Er. f_equiv. f_equiv. lia. }
      rewrite Ez. apply Qmult_le_compat_r; [|lra]. rewrite <- Zle_Qle. apply nearest_even_ge.
      apply Qle_shift_div_l; [done|]. by rewrite <- Ez.
    + assert (Hn : (2 ^ (p - 1) <= nearest_even (q / 2 ^ e))%Z).
      { apply nearest_even_ge. by rewrite pow2_Z by lia. }
      rewrite Zle_Qle, pow2_Z in Hn by lia. apply Qle_trans with (2 ^ (p - 1) * 2 ^ e).
      * rewrite Er, <- pow2_plus. apply Qle_trans with (2 ^ p * 2 ^ k).
        -- apply Qmult_le_compat_r; [|apply Qlt_le_weak, pow2_pos]. rewrite <- pow2_Z by lia. rewrite <- Zle_Qle. lia.
        -- rewrite <- pow2_plus. apply pow2_le. lia.
      * apply Qmult_le_compat_r; [done|lra].
  - rewrite round_at_zero by done. lra.
Qed.

Lemma round_at_nonneg q : 0 <= round_at p q.
Proof.
  destruct (Qlt_le_dec 0 q) as [Hq|Hq]; [|rewrite round_at_zero by done; lra].
  apply round_at_ge; [|lra]. exists 0%Z, 0%Z. split; [|done]. split; [done|]. apply Z.pow_pos_nonneg; lia.
Qed.

Lemma round_at_exact q : representable p q -> round_at p q == q.
Proof.
  intros Hr. assert (Hq : 0 <= q).
  { destruct Hr as (m & k & Hm & ->). apply Qmult_le_0_compat; [|apply Qlt_le_weak, pow2_pos].
    change 0 with (inject_Z 0). rewrite <- Zle_Qle. lia. }
  apply Qle_antisym; [by apply round_at_le; [..|lra]|by apply round_at_ge; [|lra]].
Qed.

(** The relative error is at most [2 ^ -p]. *)
Lemma round_at_error q : 0 <= q -> q - q * 2 ^ (- p) <= round_at p q <= q + q * 2 ^ (- p).
Proof.
  intros Hq0. destruct (Qlt_le_dec 0 q) as [Hq|Hq].
  - destruct (round_at_pos q Hq) as (e & _ & H2 & -> & H3). pose proof (pow2_pos e) as He. pose proof (pow2_pos (-p)) as Hpp.
    pose proof (nearest_even_error (q / 2 ^ e)) as [E1 E2].
    assert (Hh : (1 # 2) * 2 ^ e <= q * 2 ^ (- p)).
    { apply Qle_trans with (2 ^ (e + p - 1) * 2 ^ (- p)).
      - rewrite <- pow2_plus. replace (e + p - 1 + - p)%Z with (-1 + e)%Z by lia. rewrite pow2_plus.
        change (2 ^ (-1)) with (1 # 2). lra.
      - apply Qmult_le_compat_r; [done|lra]. }
    set (n := inject_Z (nearest_even (q / 2 ^ e))) in *. set (x := q / 2 ^ e) in *.
    assert (B1 : (n - (1 # 2)) * 2 ^ e <= q) by (rewrite H2 at 1; apply Qmult_le_compat_r; lra).
    assert (B2 : q <= (n + (1 # 2)) * 2 ^ e) by (rewrite H2 at 1; apply Qmult_le_compat_r; lra).
    split; lra.
  - rewrite round_at_zero by done. assert (E : q == 0) by lra. rewrite E. lra.
Qed.

Lemma representable_Z z : (0 <= z < 2 ^ p)%Z -> representable p (inject_Z z).
Proof. intros Hz. exists z, 0%Z. split; [done|]. change (2 ^ 0) with 1. ring. Qed.

(** Converting an integer of the format is exact. *)
Lemma round_at_Z z : (0 <= z < 2 ^ p)%Z -> round_at p (inject_Z z) == inject_Z z.
Proof. intros Hz. by apply round_at_exact, representable_Z. Qed.

(** Rounding is monotone. *)
Lemma round_at_mono q r : 0 <= q -> q <= r -> round_at p q <= round_at p r.
Proof.
  intros Hq Hqr. destruct (Qlt_le_dec 0 q) as [Hq0|Hq0]; [|rewrite (round_at_zero q) by done; apply round_at_nonneg].
  destruct (binary_exponent_spec q Hq0) as [H1 H2]. destruct (binary_exponent_spec r) as [H3 H4]; [lra|].
  destruct (decide (binary_exponent q = binary_exponent r)) as [E|Hn].
  - unfold round_at. destruct (Qle_bool q 0) eqn:E1; [apply Qle_bool_iff in E1; lra|].
    destruct (Qle_bool r 0) eqn:E2; [apply Qle_bool_iff in E2; lra|].
    rewrite E, !Qred_correct. set (e := (binary_exponent r - p + 1)%Z). pose proof (pow2_pos e) as He.
    apply Qmult_le_compat_r; [|lra]. rewrite <- Zle_Qle. apply nearest_even_mono.
    apply Qmult_le_compat_r; [done|]. apply Qlt_le_weak, Qinv_lt_0_compat. done.
  - assert (Hlt : (binary_exponent q < binary_exponent r)%Z).
    { assert (Hk : (binary_exponent q < binary_exponent r + 1)%Z); [|lia].
      eapply (Qpower_lt_compat_l_inv 2); [|done]. eapply Qle_lt_trans; [exact H1|]. eapply Qle_lt_trans; [exact Hqr|done]. }
    assert (Hrep : representable p (2 ^ (binary_exponent q + 1))).
    { exists 1%Z, (binary_exponent q + 1)%Z. split; [|ring]. split; [done|]. apply (Z.pow_lt_mono_r 2 0 p); lia. }
    apply Qle_trans with (2 ^ (binary_exponent q + 1)).
    + apply round_at_le; [done|done|lra].
    + apply round_at_ge; [done|]. apply Qle_trans with (2 ^ binary_exponent r); [|done]. apply pow2_le. lia.
Qed.
End Rounding.
