(* ===== verification/StringMap.v ===== *)
(** * Ordered maps with string keys

    [std::map<std::string, T>]: a finite map whose iteration visits the keys in
    the lexicographic order of their bytes.  The map itself is stdpp's [gmap];
    [entries] is the sequence a range-based [for] visits and [lower_bound] the
    part of it from an iterator on. *)
From S2P Require Import Prelude.
From stdpp Require Import sorting.
Open Scope Z_scope.

(** ** The order of [std::string::compare] *)

Fixpoint string_leb (a b : bytes) : bool :=
  match a, b with
  | [], _ => true
  | _ :: _, [] => false
  | x :: a, y :: b => if x <? y then true else if y <? x then false else string_leb a b
  end.

Definition string_le (a b : bytes) : Prop := string_leb a b = true.

#[export] Instance string_le_dec a b : Decision (string_le a b).
Proof. unfold string_le. apply _. Defined.

#[export] Instance string_le_refl : Reflexive string_le.
Proof. intros l. unfold string_le. induction l as [|x l IH]; [done|]. simpl. by rewrite Z.ltb_irrefl. Qed.

(** What a comparison of two non-empty strings tells. *)
Lemma string_le_cons x y a b :
  string_le (x :: a) (y :: b) <-> x < y \/ x = y /\ string_le a b.
Proof. unfold string_le. simpl. repeat guard_goal; bool_to_prop; intuition (congruence || lia). Qed.

#[export] Instance string_le_trans : Transitive string_le.
Proof.
  intros a. induction a as [|x a IH]; intros [|y b] [|z c] H1 H2; try done.
  apply string_le_cons in H1, H2. apply string_le_cons. destruct H1 as [?|[-> H1]], H2 as [?|[-> H2]]; try (left; lia).
  right. split; [done|]. by eapply IH.
Qed.

#[export] Instance string_le_antisym : AntiSymm (=) string_le.
Proof.
  intros a. induction a as [|x a IH]; intros [|y b] H1 H2; try done.
  apply string_le_cons in H1, H2. destruct H1 as [?|[-> H1]], H2 as [?|[? H2]]; try lia. f_equal. by apply IH.
Qed.

#[export] Instance string_le_total : Total string_le.
Proof.
  intros a. induction a as [|x a IH]; intros [|y b]; [by left|by left|by right|].
  rewrite !string_le_cons. destruct (Z.lt_trichotomy x y) as [?|[->|?]]; [tauto| |tauto].
  destruct (IH b); tauto.
Qed.

(** [text.starts_with(prefix)] *)
Fixpoint has_prefix (prefix text : bytes) : bool :=
  match prefix, text with
  | [], _ => true
  | p :: prefix, t :: text => (p =? t) && has_prefix prefix text
  | _ :: _, [] => false
  end.

Lemma has_prefix_app prefix text : has_prefix prefix text = true <-> exists rest, text = prefix ++ rest.
Proof.
  revert text. induction prefix as [|p prefix IH]; intros [|t text]; cbn; [by split; eauto|by split; eauto| |].
  - split; [done|]. by intros [rest ?].
  - rewrite andb_true_iff, Z.eqb_eq, IH. split; [intros [-> [rest ->]]; by eauto|intros [rest [= -> ->]]; by eauto].
Qed.

(** The strings with a prefix are an interval of the order that starts at the
    prefix itself. *)
Lemma prefix_le prefix text : has_prefix prefix text = true -> string_le prefix text.
Proof.
  intros [rest ->]%has_prefix_app. induction prefix as [|p prefix IH]; [done|]. cbn [app]. apply string_le_cons. by right.
Qed.

Lemma prefix_interval prefix a b :
  string_le prefix a -> string_le a b -> has_prefix prefix b = true -> has_prefix prefix a = true.
Proof.
  revert a b. induction prefix as [|p prefix IH]; intros [|x a] [|y b] H1 H2 H3; try done. cbn in *.
  apply andb_true_iff in H3 as [->%Z.eqb_eq H3]. apply string_le_cons in H1, H2.
  destruct H1 as [?|[-> H1]], H2 as [?|[? H2]]; try lia. rewrite Z.eqb_refl. by eapply IH.
Qed.

(** ** Iteration *)

Section StringMap.
Context {A : Type}.
Implicit Types (m : gmap bytes A) (k : bytes) (v : A).

Definition key_le (x y : bytes * A) : Prop := string_le x.1 y.1.

#[export] Instance key_le_dec x y : Decision (key_le x y).
Proof. unfold key_le. apply _. Defined.

#[export] Instance key_le_trans : Transitive key_le.
Proof. intros x y z. apply string_le_trans. Qed.

#[export] Instance key_le_total : Total key_le.
Proof. intros x y. apply string_le_total. Qed.

Definition entries m : list (bytes * A) := merge_sort key_le (map_to_list m).

(** [m.lower_bound(k)], as the entries from the iterator to [m.end()]. *)
Fixpoint skip_before k (l : list (bytes * A)) : list (bytes * A) :=
  match l with
  | [] => []
  | e :: rest => if string_leb k e.1 then l else skip_before k rest
  end.

Definition lower_bound m k : list (bytes * A) := skip_before k (entries m).

(** [m.emplace(k, v)]: [None] when the key is present, which leaves the map. *)
Definition emplace m k v : option (gmap bytes A) :=
  match m !! k with Some _ => None | None => Some (<[k := v]> m) end.

Lemma entries_perm m : entries m ≡ₚ map_to_list m.
Proof. apply merge_sort_Permutation. Qed.

Lemma elem_of_entries m k v : (k, v) ∈ entries m <-> m !! k = Some v.
Proof. rewrite entries_perm. apply elem_of_map_to_list. Qed.

Lemma entries_sorted m : StronglySorted key_le (entries m).
Proof. apply Sorted_StronglySorted; [apply _|]. apply Sorted_merge_sort. apply _. Qed.

Lemma entries_nodup_fst m : NoDup (entries m).*1.
Proof. rewrite entries_perm. apply NoDup_fst_map_to_list. Qed.

Lemma entries_nodup m : NoDup (entries m).
Proof. apply (NoDup_fmap_1 fst), entries_nodup_fst. Qed.

(** The while loop over a prefix visits the keys with this prefix, in order. *)
Lemma skip_before_filter (l : list (bytes * A)) prefix :
  StronglySorted key_le l ->
  filter (fun e => has_prefix prefix e.1 = true) (skip_before prefix l) =
  filter (fun e => has_prefix prefix e.1 = true) l.
Proof.
  induction 1 as [|e l Hl IH He]; [done|]. cbn [skip_before]. destruct (string_leb prefix e.1) eqn:E; [done|].
  rewrite filter_cons_False; [done|]. intros H%prefix_le. unfold string_le in H. congruence.
Qed.

Lemma skip_before_sorted (l : list (bytes * A)) prefix :
  StronglySorted key_le l ->
  StronglySorted key_le (skip_before prefix l) /\ Forall (fun e => string_le prefix e.1) (skip_before prefix l).
Proof.
  induction 1 as [|e l Hl IH He]; cbn [skip_before]; [by repeat constructor|].
  destruct (string_leb prefix e.1) eqn:E; [|done]. split; [by constructor|].
  constructor; [done|]. eapply Forall_impl; [exact He|]. intros x Hx. etrans; [exact E|exact Hx].
Qed.

(** The while loop that leaves at the first key without the prefix. *)
Fixpoint take_prefix prefix (l : list (bytes * A)) : list (bytes * A) :=
  match l with
  | [] => []
  | e :: rest => if has_prefix prefix e.1 then e :: take_prefix prefix rest else []
  end.

Lemma take_prefix_filter (l : list (bytes * A)) prefix :
  StronglySorted key_le l -> Forall (fun e => string_le prefix e.1) l ->
  take_prefix prefix l = filter (fun e => has_prefix prefix e.1 = true) l.
Proof.
  induction 1 as [|e l Hl IH He]; intros Hp; [done|]. apply Forall_cons in Hp as [Hp Hps]. cbn [take_prefix].
  destruct (has_prefix prefix e.1) eqn:E; [rewrite filter_cons_True by done; f_equal; by apply IH|].
  rewrite filter_cons_False by congruence. symmetry. apply list_filter_none. intros x Hx Hpx.
  rewrite Forall_forall in He. assert (has_prefix prefix e.1 = true) by (by eapply prefix_interval; [|apply He|]).
  congruence.
Qed.

(** From [lower_bound] on, the loop sees exactly the keys with the prefix. *)
Lemma prefix_range m prefix :
  take_prefix prefix (lower_bound m prefix) = filter (fun e => has_prefix prefix e.1 = true) (entries m).
Proof.
  pose proof (entries_sorted m) as Hs. destruct (skip_before_sorted _ prefix Hs) as [Hs' Hp].
  unfold lower_bound. by rewrite take_prefix_filter, skip_before_filter.
Qed.

Lemma entries_empty : entries ∅ = [].
Proof. unfold entries. by rewrite map_to_list_empty. Qed.
End StringMap.

(** The order in which [std::set<std::string>] is visited. *)
Definition members (s : gset bytes) : list bytes := merge_sort string_le (elements s).

Lemma elem_of_members s x : x ∈ members s <-> x ∈ s.
Proof. unfold members. rewrite merge_sort_Permutation. apply elem_of_elements. Qed.

Lemma members_nodup s : NoDup (members s).
Proof. unfold members. rewrite merge_sort_Permutation. apply NoDup_elements. Qed.
