(* ===== verification/PresentationTree.v ===== *)
(** * The presentation tree

    canvas/presentation/presentation_tree.hpp and presentation_tree.cpp: an
    immutable treap of turns in address order whose nodes are named by the digest
    of their contents.  The datastore is third-party storage: what it loads for a
    hash is an argument, as is the digest. *)
From S2P Require Import Prelude Bytes Text StringMap TurnAddress Hash256 TurnTree.
Open Scope Z_scope.

(** [datastore::Status] *)
Module DatastoreStatuses.
Inductive Status :=
| OK | INVALID_ARGUMENT | INVALID_STATE | OPEN_FAILED | SQL_ERROR | MIGRATION_ERROR | MIGRATION_CHANGED
| NOT_FOUND | ALREADY_EXISTS | SERIALIZATION_ERROR | CORRUPT_DATA.

#[export] Instance DatastoreStatus_eq_dec : EqDecision Status.
Proof. solve_decision. Defined.
End DatastoreStatuses.
Import DatastoreStatuses.

(** [StoredPresentationNode] *)
Record PresentationNode := { turn_id : TurnId; left_hash : Hash256; right_hash : Hash256 }.

#[export] Instance PresentationNode_eq_dec : EqDecision PresentationNode.
Proof. solve_decision. Defined.

Record PendingPresentation := {
  previous_root : Hash256;
  new_root : Hash256;
  inserted_turn : option TurnId;
  nodes : list (Hash256 * PresentationNode);
}.

(** [pending = {}] *)
Definition no_pending : PendingPresentation :=
  {| previous_root := zero_hash; new_root := zero_hash; inserted_turn := None; nodes := [] |}.

Definition with_left (n : PresentationNode) (h : Hash256) : PresentationNode :=
  {| turn_id := turn_id n; left_hash := h; right_hash := right_hash n |}.
Definition with_right (n : PresentationNode) (h : Hash256) : PresentationNode :=
  {| turn_id := turn_id n; left_hash := left_hash n; right_hash := h |}.

(** The function [address]. *)
Definition node_address (n : PresentationNode) : option TurnAddress := TurnAddress.parse (human_address (turn_id n)).

Definition append_hash (h : Hash256) : bytes := if Hash256.empty h then [0] else 1 :: h.

Definition canonical_bytes (n : PresentationNode) : bytes :=
  str "PUC-PRESENTATION-NODE-V1" ++ canvas_uuid (turn_id n) ++ [0] ++ human_address (turn_id n) ++ [0]
  ++ append_hash (left_hash n) ++ append_hash (right_hash n).

(** [*left < *right] on addresses. *)
Definition address_ltb (a b : TurnAddress) : bool :=
  match address_compare a b with Lt => true | _ => false end.

(** ** Computations over the pending nodes

    A computation reads and extends the pending presentation and ends with a
    value or a status; [None] is a recursion deeper than the fuel. *)
Definition Preparing (A : Type) : Type :=
  PendingPresentation -> option (PendingPresentation * result Status A).

Definition prepared {A} (a : A) : Preparing A := fun pending => Some (pending, Ok a).
Definition failed {A} (status : Status) : Preparing A := fun pending => Some (pending, Err status).
Definition too_deep {A} : Preparing A := fun _ => None.

Definition prepare {A B} (x : Preparing A) (k : A -> Preparing B) : Preparing B :=
  fun pending =>
    match x pending with
    | Some (pending, Ok a) => k a pending
    | Some (pending, Err status) => Some (pending, Err status)
    | None => None
    end.

Notation "'prep' x <- e ; k" := (prepare e (fun x => k))
  (at level 200, x strict pattern, e at level 100, k at level 200, right associativity).

Section PresentationTree.
(** The hash provider, and the nodes the datastore loads. *)
Context (mbedtls_sha256 : bytes -> option bytes) (load_node : Hash256 -> result Status PresentationNode).

(** The first eight digest bytes of the identity, most significant first. *)
Definition priority (turn : TurnId) : Z :=
  let digest := sha256 mbedtls_sha256 (canvas_uuid turn ++ [0] ++ human_address turn) in
  fold_left (fun result byte => Z.lor (wrap 64 (Z.shiftl result 8)) byte) (take 8 digest) 0.

Definition above (left right : TurnId) : bool :=
  (priority left <? priority right)
  || ((priority left =? priority right) && negb (string_leb (human_address right) (human_address left))).

(** [load]: the latest pending node of that hash, then the datastore. *)
Definition load (hash : Hash256) (pending : option PendingPresentation) : result Status PresentationNode :=
  if Hash256.empty hash then Err NOT_FOUND
  else
    match pending with
    | Some pending =>
        match List.find (fun entry => bool_decide (entry.1 = hash)) (reverse (nodes pending)) with
        | Some entry => Ok entry.2
        | None => load_node hash
        end
    | None => load_node hash
    end.

Definition load_pending (hash : Hash256) : Preparing PresentationNode :=
  fun pending => Some (pending, load hash (Some pending)).

Definition node_hash (n : PresentationNode) : Hash256 := sha256 mbedtls_sha256 (canonical_bytes n).

Definition retain (n : PresentationNode) : Preparing Hash256 :=
  fun pending =>
    Some ({| previous_root := previous_root pending; new_root := new_root pending;
             inserted_turn := inserted_turn pending; nodes := nodes pending ++ [(node_hash n, n)] |}, Ok (node_hash n)).

Fixpoint split (fuel : nat) (root : Hash256) (key : TurnAddress) : Preparing (Hash256 * Hash256) :=
  match fuel with
  | O => too_deep
  | S fuel =>
      if Hash256.empty root then prepared (zero_hash, zero_hash)
      else
        prep current <- load_pending root;
        match node_address current with
        | None => failed CORRUPT_DATA
        | Some current_address =>
            if address_ltb current_address key then
              prep (middle, upper) <- split fuel (right_hash current) key;
              prep lower <- retain (with_right current middle);
              prepared (lower, upper)
            else
              prep (lower, middle) <- split fuel (left_hash current) key;
              prep upper <- retain (with_left current middle);
              prepared (lower, upper)
        end
  end.

Fixpoint insert (fuel : nat) (root : Hash256) (inserted : PresentationNode) : Preparing Hash256 :=
  match fuel with
  | O => too_deep
  | S fuel =>
      if Hash256.empty root then retain inserted
      else
        prep current <- load_pending root;
        match node_address current, node_address inserted with
        | Some current_address, Some inserted_address =>
            if negb (bool_decide (canvas_uuid (turn_id current) = canvas_uuid (turn_id inserted)))
            then failed CORRUPT_DATA
            else if bool_decide (current_address = inserted_address) then failed ALREADY_EXISTS
            else if above (turn_id inserted) (turn_id current) then
              prep (lower, upper) <- split (S fuel) root inserted_address;
              retain (with_right (with_left inserted lower) upper)
            else if address_ltb inserted_address current_address then
              prep child <- insert fuel (left_hash current) inserted;
              retain (with_left current child)
            else
              prep child <- insert fuel (right_hash current) inserted;
              retain (with_right current child)
        | _, _ => failed CORRUPT_DATA
        end
  end.

Definition prepare_insert (fuel : nat) (root : Hash256) (turn : TurnId) : option (PendingPresentation * Status) :=
  match TurnAddress.parse (human_address turn) with
  | Some _ =>
      if negb (length (canvas_uuid turn) =? 16)%nat then Some (no_pending, INVALID_ARGUMENT)
      else
        let pending := {| previous_root := root; new_root := zero_hash; inserted_turn := Some turn; nodes := [] |} in
        match insert fuel root {| turn_id := turn; left_hash := zero_hash; right_hash := zero_hash |} pending with
        | Some (pending, Ok output) =>
            Some ({| previous_root := previous_root pending; new_root := output;
                     inserted_turn := inserted_turn pending; nodes := nodes pending |}, OK)
        | Some (pending, Err status) => Some (pending, status)
        | None => None
        end
  | None => Some (no_pending, INVALID_ARGUMENT)
  end.

(** [commit]: the root of the tree afterwards. *)
Definition commit (root : Hash256) (pending : PendingPresentation) : Hash256 :=
  if bool_decide (root = previous_root pending) then new_root pending else root.

Fixpoint collect (fuel : nat) (root : Hash256) (turns : list TurnId) : option (list TurnId * Status) :=
  match fuel with
  | O => None
  | S fuel =>
      if Hash256.empty root then Some (turns, OK)
      else
        match load root None with
        | Err status => Some (turns, status)
        | Ok n =>
            match collect fuel (left_hash n) turns with
            | Some (turns, OK) => collect fuel (right_hash n) (turns ++ [turn_id n])
            | other => other
            end
        end
  end.

Definition ordered_turns (fuel : nat) (root : Hash256) : option (list TurnId * Status) := collect fuel root [].
End PresentationTree.
