(* ===== verification/PresentationStore.v ===== *)
(** * Treaps of turns

    The trees behind the hashes of a presentation: search trees by address, heaps
    by the priority of the turns, with insertion as the code splits and rebuilds.
    A treap is determined by its turns. *)
From Stdlib Require Import Sorted.
From stdpp Require Import sorting.
From S2P Require Import Prelude Bytes Text StringMap TurnAddress Hash256 TurnTree PresentationTree.
Open Scope Z_scope.

(** ** Addresses as keys *)

Lemma address_ltb_compare a b : address_ltb a b = true <-> address_compare a b = Lt.
Proof. unfold address_ltb. by destruct (address_compare a b). Qed.

Lemma address_ltb_irrefl a : address_ltb a a = false.
Proof. unfold address_ltb. by rewrite (proj2 (address_compare_eq a a)). Qed.

Lemma address_ltb_trans a b c : address_ltb a b = true -> address_ltb b c = true -> address_ltb a c = true.
Proof. rewrite !address_ltb_compare. apply address_compare_trans. Qed.

Lemma address_ltb_total a b : address_ltb a b = false -> a <> b -> address_ltb b a = true.
Proof.
  intros Hab Hne. apply address_ltb_compare. rewrite address_compare_antisym. unfold address_ltb in Hab.
  destruct (address_compare a b) eqn:E; [|done|done]. by apply address_compare_eq in E.
Qed.

Lemma address_ltb_asym a b : address_ltb a b = true -> address_ltb b a = false.
Proof.
  intros Hab. destruct (address_ltb b a) eqn:Hba; [|done]. by rewrite <- (address_ltb_irrefl a), (address_ltb_trans a b a).
Qed.

Definition turn_key (turn : TurnId) : TurnAddress := default [] (TurnAddress.parse (human_address turn)).

Definition turn_lt (x y : TurnId) : Prop := address_ltb (turn_key x) (turn_key y) = true.

Lemma turn_sorted_nodup l : StronglySorted turn_lt l -> NoDup l.
Proof.
  induction 1 as [|x l Hs IH Hx]; constructor; [|done]. intros Hin. rewrite List.Forall_forall in Hx.
  specialize (Hx x (proj1 (list_elem_of_In _ _) Hin)). unfold turn_lt in Hx. by rewrite address_ltb_irrefl in Hx.
Qed.

(** The identity of a turn in a canvas, in the spelling [TurnAddress::string] gives. *)
Definition named (uuid : bytes) (turn : TurnId) : Prop :=
  exists a, valid_address a /\
    turn = {| canvas_uuid_field := Some uuid; human_address_field := Some (address_string a) |}.

Lemma named_key uuid turn : named uuid turn ->
  TurnAddress.parse (human_address turn) = Some (turn_key turn) /\ canvas_uuid turn = uuid /\
  human_address turn = address_string (turn_key turn).
Proof.
  intros (a & Ha & ->). unfold turn_key.
  assert (Hp : TurnAddress.parse (human_address {| canvas_uuid_field := Some uuid; human_address_field := Some (address_string a) |}) = Some a)
    by exact (proj1 address_round_trip a Ha).
  by rewrite Hp.
Qed.

Lemma named_inj uuid x y : named uuid x -> named uuid y -> turn_key x = turn_key y -> x = y.
Proof.
  intros Hx Hy Hk. destruct (named_key _ _ Hx) as (_ & _ & Ex), (named_key _ _ Hy) as (_ & _ & Ey).
  destruct Hx as (a & _ & ->), Hy as (b & _ & ->). rewrite Hk, <- Ey in Ex. unfold human_address in Ex. cbn in Ex. by rewrite Ex.
Qed.

Inductive treap := Leaf | Branch (turn : TurnId) (l r : treap).

Fixpoint inorder (t : treap) : list TurnId :=
  match t with Leaf => [] | Branch turn l r => inorder l ++ turn :: inorder r end.

Fixpoint height (t : treap) : nat :=
  match t with Leaf => 0 | Branch _ l r => S (Nat.max (height l) (height r)) end.

Lemma height_inorder t : (height t <= length (inorder t))%nat.
Proof. induction t as [|x l IHl r IHr]; cbn [height inorder]; [done|]. rewrite length_app. cbn. lia. Qed.

(** Lists sorted around an element. *)
Lemma sorted_middle {A} (R : A -> A -> Prop) l x r :
  StronglySorted R (l ++ x :: r) <->
  StronglySorted R l /\ StronglySorted R r /\ (forall y, y ∈ l -> R y x) /\ (forall y, y ∈ r -> R x y) /\
  forall y z, y ∈ l -> z ∈ r -> R y z.
Proof.
  induction l as [|a l IH]; cbn [app].
  - split; [intros H; inversion H as [|? ? Hs Hf]; subst|intros (_ & Hs & _ & Hf & _)].
    + rewrite List.Forall_forall in Hf. split_and!; [constructor|done|by intros y ?%elem_of_nil| |by intros y z ?%elem_of_nil].
      intros y Hy. by apply Hf, list_elem_of_In.
    + constructor; [done|]. apply List.Forall_forall. intros y Hy. by apply Hf, list_elem_of_In.
  - split; [intros H; inversion H as [|? ? Hs Hf]; subst|intros (Hl & Hr & Hlx & Hxr & Hlr)].
    + apply IH in Hs as (Hl & Hr & Hlx & Hxr & Hlr). rewrite List.Forall_forall in Hf.
      assert (Ha : forall y, y ∈ l ++ x :: r -> R a y) by (intros y Hy; by apply Hf, list_elem_of_In).
      split_and!; [|done| |done|].
      * constructor; [done|]. apply List.Forall_forall. intros y Hy. apply Ha, elem_of_app. left. by apply list_elem_of_In.
      * intros y [->|Hy]%elem_of_cons; [|by apply Hlx]. apply Ha, elem_of_app. right. by left.
      * intros y z [->|Hy]%elem_of_cons Hz; [|by apply Hlr]. apply Ha, elem_of_app. right. by right.
    + inversion Hl as [|? ? Hl' Hf]; subst. rewrite List.Forall_forall in Hf. constructor.
      * apply IH. split_and!; [done|done|intros y Hy; apply Hlx; by right|done|intros y z Hy; apply Hlr; by right].
      * apply List.Forall_forall. intros y Hy%list_elem_of_In. apply elem_of_app in Hy as [Hy|[->|Hy]%elem_of_cons].
        -- by apply Hf, list_elem_of_In.
        -- apply Hlx. by left.
        -- apply Hlr; [by left|done].
Qed.

Section Treap.
Context (mbedtls_sha256 : bytes -> option bytes).

Local Abbreviation above := (above mbedtls_sha256).

(** ** The order of the heap *)

Lemma string_ltb_trans a b c :
  negb (string_leb b a) = true -> negb (string_leb c b) = true -> negb (string_leb c a) = true.
Proof.
  rewrite !negb_true_iff. intros H1 H2. destruct (string_leb c a) eqn:E; [exfalso|done].
  destruct (string_le_total a b) as [Hab|Hba]; [|unfold string_le in Hba; congruence].
  assert (Hcb : string_le c b) by (by transitivity a). unfold string_le in Hcb. congruence.
Qed.

Lemma above_irrefl x : above x x = false.
Proof.
  unfold PresentationTree.above. rewrite Z.ltb_irrefl, Z.eqb_refl. pose proof (string_le_refl (human_address x)) as H.
  unfold string_le in H. by rewrite H.
Qed.

Lemma above_trans x y z : above x y = true -> above y z = true -> above x z = true.
Proof.
  unfold PresentationTree.above. rewrite !orb_true_iff, !andb_true_iff, !Z.ltb_lt, !Z.eqb_eq.
  intros [Hxy|[Hxy Sxy]] [Hyz|[Hyz Syz]]; [left; lia|left; lia|left; lia|right].
  split; [lia|]. by eapply string_ltb_trans.
Qed.

Lemma above_total x y : above x y = false -> human_address x <> human_address y -> above y x = true.
Proof.
  unfold PresentationTree.above. rewrite orb_false_iff, andb_false_iff, Z.ltb_ge, Z.eqb_neq, orb_true_iff, andb_true_iff, Z.ltb_lt, Z.eqb_eq.
  rewrite negb_false_iff, negb_true_iff. intros [Hp [Hne|Hs]] Hh; [left; lia|].
  destruct (decide (priority mbedtls_sha256 y < priority mbedtls_sha256 x)); [by left|right]. split; [lia|].
  destruct (string_leb (human_address x) (human_address y)) eqn:E; [|done]. exfalso. apply Hh. by apply (anti_symm string_le).
Qed.

Lemma above_asym x y : above x y = true -> above y x = false.
Proof. intros H. destruct (above y x) eqn:E; [|done]. by rewrite <- (above_irrefl x), (above_trans x y x). Qed.

(** ** Well-formed treaps *)

Fixpoint heap (t : treap) : Prop :=
  match t with
  | Leaf => True
  | Branch x l r => (forall y, y ∈ inorder l ++ inorder r -> above x y = true) /\ heap l /\ heap r
  end.

Record treap_ok (uuid : bytes) (t : treap) : Prop := {
  ok_sorted : StronglySorted turn_lt (inorder t);
  ok_heap : heap t;
  ok_named : Forall (named uuid) (inorder t);
}.

Lemma branch_ok uuid x l r :
  treap_ok uuid (Branch x l r) <->
  treap_ok uuid l /\ treap_ok uuid r /\ named uuid x /\
  (forall y, y ∈ inorder l -> turn_lt y x /\ above x y = true) /\ (forall y, y ∈ inorder r -> turn_lt x y /\ above x y = true).
Proof.
  split.
  - intros [Hs Hh Hn]. cbn [inorder heap] in *. apply sorted_middle in Hs as (Hl & Hr & Hlx & Hxr & _).
    destruct Hh as (Hx & Hhl & Hhr). apply Forall_app in Hn as [Hnl Hn]. apply Forall_cons in Hn as [Hnx Hnr].
    split_and!; [by split|by split|done|..]; intros y Hy; (split; [auto|apply Hx, elem_of_app; auto]).
  - intros ([Hl Hhl Hnl] & [Hr Hhr Hnr] & Hnx & Hlx & Hxr). split; cbn [inorder heap].
    + apply sorted_middle. split_and!; [done|done|by apply Hlx|by apply Hxr|].
      intros y z Hy Hz. eapply address_ltb_trans; [by apply Hlx|by apply Hxr].
    + split_and!; [|done|done]. intros y [Hy|Hy]%elem_of_app; [by apply Hlx|by apply Hxr].
    + apply Forall_app. split; [done|]. by constructor.
Qed.

Lemma leaf_ok uuid : treap_ok uuid Leaf.
Proof. split; constructor. Qed.

(** A treap is determined by its turns. *)
Lemma treap_unique uuid t t' : treap_ok uuid t -> treap_ok uuid t' -> inorder t = inorder t' -> t = t'.
Proof.
  revert t'. induction t as [|x l IHl r IHr]; intros [|x' l' r'] Ht Ht' E; [done|..].
  { cbn in E. by destruct (inorder l'). }
  { cbn in E. by destruct (inorder l). }
  apply branch_ok in Ht as (Hl & Hr & Hx & Hlx & Hxr), Ht' as (Hl' & Hr' & Hx' & Hlx' & Hxr'). cbn [inorder] in E.
  assert (x = x') as <-.
  { destruct (decide (x = x')) as [|Hne]; [done|exfalso].
    assert (Hin : x ∈ inorder l' ++ x' :: inorder r') by (rewrite <- E; apply elem_of_app; right; by left).
    assert (Hin' : x' ∈ inorder l ++ x :: inorder r) by (rewrite E; apply elem_of_app; right; by left).
    assert (Ha : above x' x = true).
    { apply elem_of_app in Hin as [Hin|[?|Hin]%elem_of_cons]; [by apply Hlx'|done|by apply Hxr']. }
    assert (Ha' : above x x' = true).
    { apply elem_of_app in Hin' as [Hin'|[?|Hin']%elem_of_cons]; [by apply Hlx|done|by apply Hxr]. }
    by rewrite (above_asym _ _ Ha) in Ha'. }
  assert (Hni : x ∉ inorder l /\ x ∉ inorder l').
  { split; intros Hin; [destruct (Hlx x Hin) as [_ H]|destruct (Hlx' x Hin) as [_ H]]; by rewrite above_irrefl in H. }
  assert (Hsplit : inorder l = inorder l' /\ inorder r = inorder r').
  { clear -E Hni. destruct Hni as [H1 H2]. revert E H1 H2. generalize (inorder l), (inorder l').
    induction l0 as [|y l0 IH]; intros [|z l1] E H1 H2; cbn in E.
    - by injection E as <-.
    - injection E as <- _. exfalso. apply H2. by left.
    - injection E as <- _. exfalso. apply H1. by left.
    - injection E as <- E. apply not_elem_of_cons in H1 as [_ H1], H2 as [_ H2].
      by destruct (IH l1 E H1 H2) as [-> ->]. }
  destruct Hsplit as [El Er]. by rewrite (IHl l'), (IHr r').
Qed.

Lemma inorder_unique uuid t t' :
  treap_ok uuid t -> treap_ok uuid t' -> (forall x, x ∈ inorder t <-> x ∈ inorder t') -> t = t'.
Proof.
  intros Ht Ht' Heq. apply (treap_unique uuid); [done..|].
  assert (Hlt : AntiSymm (=) turn_lt) by (intros x y Hxy Hyx; unfold turn_lt in *; by rewrite (address_ltb_asym _ _ Hxy) in Hyx).
  apply (StronglySorted_unique turn_lt); [apply Ht|apply Ht'|].
  apply NoDup_Permutation; [apply turn_sorted_nodup, Ht|apply turn_sorted_nodup, Ht'|done].
Qed.

(** ** Insertion *)

Fixpoint tsplit (t : treap) (key : TurnAddress) : treap * treap :=
  match t with
  | Leaf => (Leaf, Leaf)
  | Branch x l r =>
      if address_ltb (turn_key x) key then let '(middle, upper) := tsplit r key in (Branch x l middle, upper)
      else let '(lower, middle) := tsplit l key in (lower, Branch x middle r)
  end.

Fixpoint tinsert (t : treap) (turn : TurnId) : option treap :=
  match t with
  | Leaf => Some (Branch turn Leaf Leaf)
  | Branch x l r =>
      if bool_decide (turn_key x = turn_key turn) then None
      else if above turn x then let '(lower, upper) := tsplit t (turn_key turn) in Some (Branch turn lower upper)
      else if address_ltb (turn_key turn) (turn_key x) then
        match tinsert l turn with Some l => Some (Branch x l r) | None => None end
      else match tinsert r turn with Some r => Some (Branch x l r) | None => None end
  end.

Lemma tsplit_inorder t key : inorder (tsplit t key).1 ++ inorder (tsplit t key).2 = inorder t.
Proof.
  induction t as [|x l IHl r IHr]; cbn [tsplit]; [done|]. case_match.
  - destruct (tsplit r key) as [m u]. cbn [fst snd inorder] in *. by rewrite <- IHr, <- app_assoc.
  - destruct (tsplit l key) as [lo m]. cbn [fst snd inorder] in *. by rewrite <- IHl, <- app_assoc.
Qed.

Lemma tsplit_elem t key x : x ∈ inorder t <-> x ∈ inorder (tsplit t key).1 \/ x ∈ inorder (tsplit t key).2.
Proof. by rewrite <- elem_of_app, tsplit_inorder. Qed.

(** A split divides a treap at the key. *)
Lemma tsplit_ok uuid t key :
  treap_ok uuid t ->
  treap_ok uuid (tsplit t key).1 /\ treap_ok uuid (tsplit t key).2 /\
  (forall y, y ∈ inorder (tsplit t key).1 -> address_ltb (turn_key y) key = true) /\
  (forall y, y ∈ inorder (tsplit t key).2 -> address_ltb (turn_key y) key = false).
Proof.
  induction t as [|x l IHl r IHr]; intros Ht; cbn [tsplit].
  { split_and!; [apply leaf_ok..| |]; by intros y ?%elem_of_nil. }
  apply branch_ok in Ht as (Hl & Hr & Hx & Hlx & Hxr). destruct (address_ltb (turn_key x) key) eqn:Ek.
  - destruct (IHr Hr) as (Hm & Hu & Bm & Bu). pose proof (tsplit_elem r key) as He.
    destruct (tsplit r key) as [m u]. cbn [fst snd] in *. split_and!; [|done| |done].
    + apply branch_ok. split_and!; [done..|]. intros y Hy. apply Hxr, He. by left.
    + intros y Hy. cbn [inorder] in Hy. apply elem_of_app in Hy as [Hy|[->|Hy]%elem_of_cons]; [|done|by apply Bm].
      eapply address_ltb_trans; [by apply Hlx|done].
  - destruct (IHl Hl) as (Hlo & Hm & Blo & Bm). pose proof (tsplit_elem l key) as He.
    destruct (tsplit l key) as [lo m]. cbn [fst snd] in *. split_and!; [done| |done|].
    + apply branch_ok. split_and!; [done..| |done]. intros y Hy. apply Hlx, He. by right.
    + intros y Hy. cbn [inorder] in Hy. apply elem_of_app in Hy as [Hy|[->|Hy]%elem_of_cons]; [by apply Bm|done|].
      destruct (address_ltb (turn_key y) key) eqn:E; [|done]. destruct (Hxr y Hy) as [H _]. unfold turn_lt in H.
      by rewrite (address_ltb_trans _ _ _ H E) in Ek.
Qed.

(** Insertion refuses a key already present and otherwise adds the turn. *)
Lemma tinsert_ok uuid t turn :
  treap_ok uuid t -> named uuid turn ->
  match tinsert t turn with
  | None => exists x, x ∈ inorder t /\ turn_key x = turn_key turn
  | Some t' => treap_ok uuid t' /\ (forall x, x ∈ inorder t -> turn_key x <> turn_key turn) /\
      forall x, x ∈ inorder t' <-> x = turn \/ x ∈ inorder t
  end.
Proof.
  intros Ht Hn. induction t as [|x l IHl r IHr]; cbn [tinsert].
  { split_and!; [|by intros x ?%elem_of_nil|intros x; cbn; rewrite elem_of_cons; naive_solver].
    apply branch_ok. split_and!; [apply leaf_ok..|done| |]; by intros y ?%elem_of_nil. }
  pose proof Ht as Ht'. apply branch_ok in Ht' as (Hl & Hr & Hx & Hlx & Hxr).
  case_bool_decide as Hk; [exists x; split; [|done]; cbn; apply elem_of_app; right; by left|].
  destruct (above turn x) eqn:Ea.
  - assert (Hab : forall y, y ∈ inorder (Branch x l r) -> above turn y = true).
    { intros y [Hy|[->|Hy]%elem_of_cons]%elem_of_app; [|done|]; (eapply above_trans; [done|]); [by apply Hlx|by apply Hxr]. }
    assert (Hfresh : forall y, y ∈ inorder (Branch x l r) -> turn_key y <> turn_key turn).
    { intros y Hy E. pose proof (ok_named _ _ Ht) as Hall. rewrite List.Forall_forall in Hall.
      assert (y = turn) as -> by (apply (named_inj uuid); [by apply Hall, list_elem_of_In|done|done]).
      specialize (Hab _ Hy). by rewrite above_irrefl in Hab. }
    pose proof (tsplit_ok uuid (Branch x l r) (turn_key turn) Ht) as (Hlo & Hup & Blo & Bup).
    pose proof (tsplit_elem (Branch x l r) (turn_key turn)) as He.
    destruct (tsplit (Branch x l r) (turn_key turn)) as [lo up]. cbn [fst snd] in *. split_and!; [|done|].
    + apply branch_ok. split_and!; [done..| |]; intros y Hy.
      * split; [by apply Blo|apply Hab, He; by left].
      * assert (Hin : y ∈ inorder (Branch x l r)) by (apply He; by right). split; [|by apply Hab].
        apply address_ltb_total; [by apply Bup|by apply Hfresh].
    + intros y. rewrite He. cbn [inorder]. rewrite elem_of_app, elem_of_cons. naive_solver.
  - assert (Hax : above x turn = true).
    { apply above_total; [done|]. intros E. apply Hk.
      destruct (named_key _ _ Hx) as (Ex & _ & _), (named_key _ _ Hn) as (En & _ & _). rewrite <- E in Ex. congruence. }
    destruct (address_ltb (turn_key turn) (turn_key x)) eqn:Ek.
    + specialize (IHl Hl). destruct (tinsert l turn) as [l'|].
      * destruct IHl as (Hl' & Hf & He). split_and!.
        -- apply branch_ok. split_and!; [done..| |done]. intros y [->|Hy]%He; [done|by apply Hlx].
        -- intros y [Hy|[->|Hy]%elem_of_cons]%elem_of_app; [by apply Hf|done|]. intros E. destruct (Hxr y Hy) as [H _].
           unfold turn_lt in H. by rewrite E, (address_ltb_asym _ _ Ek) in H.
        -- intros y. cbn [inorder]. rewrite !elem_of_app, He. naive_solver.
      * destruct IHl as (y & Hy & E). exists y. split; [|done]. cbn. apply elem_of_app. by left.
    + assert (Ek' : address_ltb (turn_key x) (turn_key turn) = true) by (by apply address_ltb_total).
      specialize (IHr Hr). destruct (tinsert r turn) as [r'|].
      * destruct IHr as (Hr' & Hf & He). split_and!.
        -- apply branch_ok. split_and!; [done..|]. intros y [->|Hy]%He; [done|by apply Hxr].
        -- intros y [Hy|[->|Hy]%elem_of_cons]%elem_of_app; [|done|by apply Hf]. intros E. destruct (Hlx y Hy) as [H _].
           unfold turn_lt in H. by rewrite E, (address_ltb_asym _ _ Ek') in H.
        -- intros y. cbn [inorder]. rewrite !elem_of_app, !elem_of_cons, He. naive_solver.
      * destruct IHr as (y & Hy & E). exists y. split; [|done]. cbn. apply elem_of_app. right. by right.
Qed.
End Treap.

(** ** Presentations as treaps of hashes

    A root hash stands for the treap whose node contents the store holds; on it
    the operations of the code compute what those of the treap do, and retain
    exactly the new contents. *)

Import DatastoreStatuses.

(** The pending presentation with more nodes. *)
Definition adding (pending : PendingPresentation) (more : list (Hash256 * PresentationNode)) : PendingPresentation :=
  {| previous_root := previous_root pending; new_root := new_root pending;
     inserted_turn := inserted_turn pending; nodes := nodes pending ++ more |}.

Lemma adding_nil pending : adding pending [] = pending.
Proof. destruct pending. unfold adding. cbn. by rewrite app_nil_r. Qed.

Lemma adding_app pending more more' : adding (adding pending more) more' = adding pending (more ++ more').
Proof. unfold adding. cbn. by rewrite app_assoc. Qed.

Section Store.
Context (mbedtls_sha256 : bytes -> option bytes).

Local Abbreviation node_hash := (node_hash mbedtls_sha256).
Local Abbreviation above := (above mbedtls_sha256).
Local Abbreviation tinsert := (tinsert mbedtls_sha256).
Implicit Types (t : treap) (n : PresentationNode) (pending : PendingPresentation).

(** The root hash of a treap and the contents of its nodes. *)
Fixpoint digest (t : treap) : Hash256 :=
  match t with
  | Leaf => zero_hash
  | Branch x l r => node_hash {| turn_id := x; left_hash := digest l; right_hash := digest r |}
  end.

Definition branch_node (x : TurnId) (l r : treap) : PresentationNode :=
  {| turn_id := x; left_hash := digest l; right_hash := digest r |}.

Fixpoint contents (t : treap) : list PresentationNode :=
  match t with
  | Leaf => []
  | Branch x l r => branch_node x l r :: contents l ++ contents r
  end.

(** No two of the contents collide and none has the empty hash. *)
Definition clean (S : list PresentationNode) : Prop :=
  (forall n n', n ∈ S -> n' ∈ S -> node_hash n = node_hash n' -> n = n') /\
  forall n, n ∈ S -> Hash256.empty (node_hash n) = false.

(** Entries are contents under their hash. *)
Definition entries_of (S : list PresentationNode) (l : list (Hash256 * PresentationNode)) : Prop :=
  forall h n, (h, n) ∈ l -> h = node_hash n /\ n ∈ S.

Lemma entries_app S l l' : entries_of S l -> entries_of S l' -> entries_of S (l ++ l').
Proof. intros H H' h n [?|?]%elem_of_app; auto. Qed.

Lemma entries_one S n : n ∈ S -> entries_of S [(node_hash n, n)].
Proof. intros Hn h m ?%list_elem_of_singleton. by simplify_eq. Qed.

Section Load.
Context (load_node : Hash256 -> result Status PresentationNode).

Local Abbreviation load := (load load_node).
Local Abbreviation split := (split mbedtls_sha256 load_node).
Local Abbreviation insert := (insert mbedtls_sha256 load_node).

Definition held (pending : PendingPresentation) (n : PresentationNode) : Prop :=
  (node_hash n, n) ∈ nodes pending \/ load_node (node_hash n) = Ok n.

Lemma held_adding pending more n : held pending n -> held (adding pending more) n.
Proof. intros [?|?]; [left|by right]. apply elem_of_app. by left. Qed.

Lemma load_held S pending n :
  clean S -> n ∈ S -> entries_of S (nodes pending) -> held pending n -> load (node_hash n) (Some pending) = Ok n.
Proof.
  intros [Hinj Hne] Hn Hp Hh. unfold PresentationTree.load. rewrite Hne by done.
  destruct (List.find _ _) as [[h m]|] eqn:E.
  - apply List.find_some in E as [Hin Hb]. cbn in *. apply bool_decide_eq_true in Hb. f_equal.
    apply list_elem_of_In in Hin. rewrite elem_of_reverse in Hin. destruct (Hp h m Hin) as [-> Hm]. by apply Hinj.
  - destruct Hh as [Hin|?]; [exfalso|done].
    rewrite <- elem_of_reverse in Hin. pose proof (List.find_none _ _ E _ (proj1 (list_elem_of_In _ _) Hin)) as Hf.
    cbn in Hf. by rewrite bool_decide_eq_true_2 in Hf.
Qed.

Lemma load_none S n : clean S -> n ∈ S -> load_node (node_hash n) = Ok n -> load (node_hash n) None = Ok n.
Proof. intros [_ Hne] Hn Hl. unfold PresentationTree.load. by rewrite Hne. Qed.

Definition parses (x : TurnId) : Prop := TurnAddress.parse (human_address x) = Some (turn_key x).

(** ** Splitting *)

Lemma split_spec S key t : forall fuel pending,
  clean S -> (forall n, n ∈ contents t -> n ∈ S) ->
  (forall n, n ∈ contents (tsplit t key).1 \/ n ∈ contents (tsplit t key).2 -> n ∈ S) ->
  entries_of S (nodes pending) -> (forall n, n ∈ contents t -> held pending n) ->
  (forall x, x ∈ inorder t -> parses x) -> (height t < fuel)%nat ->
  exists more, split fuel (digest t) key pending = Some (adding pending more, Ok (digest (tsplit t key).1, digest (tsplit t key).2)) /\
    entries_of S more /\
    forall n, n ∈ contents (tsplit t key).1 \/ n ∈ contents (tsplit t key).2 -> n ∈ contents t \/ (node_hash n, n) ∈ more.
Proof.
  induction t as [|x l IHl r IHr]; intros [|fuel] pending Hc Ht Hs He Hh Hp Hf; cbn [height] in Hf; try lia.
  { exists []. rewrite adding_nil. split_and!; [done|by intros h n ?%elem_of_nil|]. intros n [?|?]; by left. }
  cbn [PresentationTree.split digest]. fold (branch_node x l r). assert (Htop : branch_node x l r ∈ S) by (apply Ht; by left).
  rewrite (proj2 Hc) by done. unfold prepare at 1, load_pending at 1.
  rewrite (load_held S) by (try done; apply Hh; by left). unfold node_address. cbn [turn_id branch_node].
  rewrite (Hp x) by (cbn; apply elem_of_app; right; by left). cbn [tsplit] in Hs |- *.
  destruct (address_ltb (turn_key x) key).
  - destruct (IHr fuel pending) as (more & E & Hm & Hin); try done.
    + intros n Hn. apply Ht. right. apply elem_of_app. by right.
    + intros n Hn. apply Hs. destruct (tsplit r key). cbn in *. rewrite elem_of_cons, elem_of_app. tauto.
    + intros n Hn. apply Hh. right. apply elem_of_app. by right.
    + intros y Hy. apply Hp. cbn. apply elem_of_app. right. by right.
    + lia.
    + unfold prepare at 1. cbn [right_hash branch_node]. rewrite E. cbn [fst snd] in *.
      destruct (tsplit r key) as [m u]. cbn [fst snd digest contents] in *. exists (more ++ [(node_hash (branch_node x l m), branch_node x l m)]).
      split_and!.
      * unfold prepare, retain, prepared. by rewrite <- adding_app.
      * apply entries_app; [done|]. apply entries_one, Hs. left. by left.
      * intros n. rewrite !elem_of_cons, !elem_of_app, list_elem_of_singleton. intros [[->|[Hn|Hn]]|Hn]; [by right; right| | |].
        -- left. right. by left.
        -- destruct (Hin n (or_introl Hn)); tauto.
        -- destruct (Hin n (or_intror Hn)); tauto.
  - destruct (IHl fuel pending) as (more & E & Hm & Hin); try done.
    + intros n Hn. apply Ht. right. apply elem_of_app. by left.
    + intros n Hn. apply Hs. destruct (tsplit l key). cbn in *. rewrite elem_of_cons, elem_of_app. tauto.
    + intros n Hn. apply Hh. right. apply elem_of_app. by left.
    + intros y Hy. apply Hp. cbn. apply elem_of_app. by left.
    + lia.
    + unfold prepare at 1. cbn [left_hash branch_node]. rewrite E. cbn [fst snd] in *.
      destruct (tsplit l key) as [lo m]. cbn [fst snd digest contents] in *. exists (more ++ [(node_hash (branch_node x m r), branch_node x m r)]).
      split_and!.
      * unfold prepare, retain, prepared. by rewrite <- adding_app.
      * apply entries_app; [done|]. apply entries_one, Hs. right. by left.
      * intros n. rewrite !elem_of_cons, !elem_of_app, list_elem_of_singleton. intros [Hn|[->|[Hn|Hn]]]; [|by right; right| |].
        -- destruct (Hin n (or_introl Hn)); tauto.
        -- destruct (Hin n (or_intror Hn)); tauto.
        -- left. right. by right.
Qed.

(** ** Inserting *)

Definition lone_node (turn : TurnId) : PresentationNode :=
  {| turn_id := turn; left_hash := zero_hash; right_hash := zero_hash |}.

(** What an insertion into a treap does on its hash. *)
Definition inserts (S : list PresentationNode) (t : treap) (turn : TurnId) (fuel : nat) (pending : PendingPresentation) : Prop :=
  match tinsert t turn with
  | None => insert fuel (digest t) (lone_node turn) pending = Some (pending, Err ALREADY_EXISTS)
  | Some t' => exists more, insert fuel (digest t) (lone_node turn) pending = Some (adding pending more, Ok (digest t')) /\
      entries_of S more /\ forall n, n ∈ contents t' -> n ∈ contents t \/ (node_hash n, n) ∈ more
  end.

Lemma store_insert_spec S uuid turn t : forall fuel pending,
  clean S -> named uuid turn -> (forall n, n ∈ contents t -> n ∈ S) ->
  (forall t' n, tinsert t turn = Some t' -> n ∈ contents t' -> n ∈ S) ->
  entries_of S (nodes pending) -> (forall n, n ∈ contents t -> held pending n) ->
  Forall (named uuid) (inorder t) -> (height t < fuel)%nat -> inserts S t turn fuel pending.
Proof.
  induction t as [|x l IHl r IHr]; intros [|fuel] pending Hc Hn Ht Hs He Hh Hall Hf; cbn [height] in Hf; try lia.
  { exists [(node_hash (lone_node turn), lone_node turn)]. split_and!; [done|apply entries_one, (Hs (Branch turn Leaf Leaf)); [done|by left]|].
    intros n [->|?%elem_of_nil]%elem_of_cons; [right; by left|done]. }
  assert (Htop : branch_node x l r ∈ S) by (apply Ht; by left).
  cbn [inorder] in Hall. pose proof Hall as Hall'. apply Forall_app in Hall' as [Hl Hr]. apply Forall_cons in Hr as [Hx Hr].
  destruct (named_key _ _ Hx) as (Px & Ux & _), (named_key _ _ Hn) as (Pn & Un & _).
  assert (Hrun : insert (Datatypes.S fuel) (digest (Branch x l r)) (lone_node turn) pending =
    (if bool_decide (turn_key x = turn_key turn) then failed ALREADY_EXISTS
     else if above turn x then
       prep (lower, upper) <- split (Datatypes.S fuel) (digest (Branch x l r)) (turn_key turn);
       retain mbedtls_sha256 (with_right (with_left (lone_node turn) lower) upper)
     else if address_ltb (turn_key turn) (turn_key x) then
       prep child <- insert fuel (digest l) (lone_node turn); retain mbedtls_sha256 (with_left (branch_node x l r) child)
     else
       prep child <- insert fuel (digest r) (lone_node turn); retain mbedtls_sha256 (with_right (branch_node x l r) child)) pending).
  { cbn [PresentationTree.insert digest]. fold (branch_node x l r). rewrite (proj2 Hc) by done. unfold prepare at 1, load_pending at 1.
    rewrite (load_held S) by (try done; apply Hh; by left). unfold node_address. cbn [turn_id branch_node lone_node].
    by rewrite Px, Pn, Ux, Un, (bool_decide_eq_true_2 (uuid = uuid)). }
  unfold inserts. rewrite Hrun. clear Hrun. cbn [tinsert] in Hs |- *.
  destruct (bool_decide (turn_key x = turn_key turn)) eqn:Ek; [done|].
  destruct (above turn x) eqn:Ea.
  - destruct (tsplit (Branch x l r) (turn_key turn)) as [lo up] eqn:Es.
    destruct (split_spec S (turn_key turn) (Branch x l r) (Datatypes.S fuel) pending) as (more & E & Hm & Hin); try done.
    + rewrite Es. cbn [fst snd]. intros n Hin. apply (Hs (Branch turn lo up)); [done|]. right. apply elem_of_app. tauto.
    + intros y Hy. rewrite List.Forall_forall in Hall. apply (named_key uuid), Hall. by apply list_elem_of_In.
    + rewrite Es in E, Hin. cbn [fst snd] in *. unfold prepare. rewrite E. exists (more ++ [(node_hash (branch_node turn lo up), branch_node turn lo up)]). split_and!.
      * unfold retain. by rewrite <- adding_app.
      * apply entries_app; [done|]. apply entries_one, (Hs (Branch turn lo up)); [done|by left].
      * intros n. cbn [contents]. rewrite elem_of_cons, !elem_of_app, list_elem_of_singleton.
        intros [->|Hn']; [by right; right|]. destruct (Hin n Hn'); tauto.
  - destruct (address_ltb (turn_key turn) (turn_key x)) eqn:El.
    + assert (Hi : inserts S l turn fuel pending).
      { apply IHl; try done; [| | |lia].
        - intros n Hin. apply Ht. right. apply elem_of_app. by left.
        - intros l' n E Hin. rewrite E in Hs. apply (Hs (Branch x l' r)); [done|]. right. apply elem_of_app. by left.
        - intros n Hin. apply Hh. right. apply elem_of_app. by left. }
      unfold inserts in Hi. unfold prepare. destruct (tinsert l turn) as [l'|]; [|by rewrite Hi].
      destruct Hi as (more & E & Hm & Hin). rewrite E. exists (more ++ [(node_hash (branch_node x l' r), branch_node x l' r)]). split_and!.
      * unfold retain. by rewrite <- adding_app.
      * apply entries_app; [done|]. apply entries_one, (Hs (Branch x l' r)); [done|by left].
      * intros n. cbn [contents]. rewrite !elem_of_cons, !elem_of_app, list_elem_of_singleton.
        intros [->|[Hn'|Hn']]; [by right; right| |tauto]. destruct (Hin n Hn'); tauto.
    + assert (Hi : inserts S r turn fuel pending).
      { apply IHr; try done; [| | |lia].
        - intros n Hin. apply Ht. right. apply elem_of_app. by right.
        - intros r' n E Hin. rewrite E in Hs. apply (Hs (Branch x l r')); [done|]. right. apply elem_of_app. by right.
        - intros n Hin. apply Hh. right. apply elem_of_app. by right. }
      unfold inserts in Hi. unfold prepare. destruct (tinsert r turn) as [r'|]; [|by rewrite Hi].
      destruct Hi as (more & E & Hm & Hin). rewrite E. exists (more ++ [(node_hash (branch_node x l r'), branch_node x l r')]). split_and!.
      * unfold retain. by rewrite <- adding_app.
      * apply entries_app; [done|]. apply entries_one, (Hs (Branch x l r')); [done|by left].
      * intros n. cbn [contents]. rewrite !elem_of_cons, !elem_of_app, list_elem_of_singleton.
        intros [->|[Hn'|Hn']]; [by right; right|tauto|]. destruct (Hin n Hn'); tauto.
Qed.

(** ** Collecting *)

(** The store holds the contents of a treap. *)
Definition stored (t : treap) : Prop := forall n, n ∈ contents t -> load_node (node_hash n) = Ok n.

Lemma collect_spec S t : forall fuel turns,
  clean S -> (forall n, n ∈ contents t -> n ∈ S) -> stored t -> (height t < fuel)%nat ->
  collect load_node fuel (digest t) turns = Some (turns ++ inorder t, OK).
Proof.
  induction t as [|x l IHl r IHr]; intros [|fuel] turns Hc Ht Hh Hf; cbn [height] in Hf; try lia; cbn [collect digest].
  { by rewrite app_nil_r. }
  fold (branch_node x l r). assert (Htop : branch_node x l r ∈ S) by (apply Ht; by left).
  rewrite (proj2 Hc) by done. rewrite (load_none S) by (try done; apply Hh; by left). cbn [left_hash right_hash branch_node turn_id].
  rewrite IHl; [|done| | |lia].
  - rewrite IHr; [by rewrite <- !app_assoc|done| | |lia].
    + intros n Hin. apply Ht. right. apply elem_of_app. by right.
    + intros n Hin. apply Hh. right. apply elem_of_app. by right.
  - intros n Hin. apply Ht. right. apply elem_of_app. by left.
  - intros n Hin. apply Hh. right. apply elem_of_app. by left.
Qed.
End Load.
End Store.
