(* ===== verification/PresentationProps.v ===== *)
(** * Properties of the presentation tree

    Histories of prepared, persisted and committed insertions: what the ordered
    turns are, that old roots stay readable, and what a root hash identifies. *)
From S2P Require Import Prelude Bytes Text StringMap TurnAddress Hash256 TurnTree TurnTreeProps.
From S2P Require Import PresentationTree PresentationStore.
From Stdlib Require Import Sorted.
From stdpp Require Import sorting.
Import DatastoreStatuses.
Open Scope Z_scope.

Abbreviation NodeLoader := (Hash256 -> result Status PresentationNode).

(** What persisting a prepared insertion leaves in the store: the new nodes under
    their hashes, and everything it held. *)
Definition persisted (load_node : NodeLoader) (pending : PendingPresentation) (load_node' : NodeLoader) : Prop :=
  (forall h n, (h, n) ∈ nodes pending -> load_node' h = Ok n) /\ forall h n, load_node h = Ok n -> load_node' h = Ok n.

Section Histories.
Context (mbedtls_sha256 : bytes -> option bytes).

Local Abbreviation digest := (digest mbedtls_sha256).
Local Abbreviation contents := (contents mbedtls_sha256).
Local Abbreviation tinsert := (tinsert mbedtls_sha256).
Local Abbreviation prepare_insert := (prepare_insert mbedtls_sha256).
Local Abbreviation clean := (clean mbedtls_sha256).
Implicit Types (turns : list TurnId) (t : treap).

(** The stores and roots a presentation goes through, with the turns inserted. *)
Inductive reached : NodeLoader -> Hash256 -> list TurnId -> Prop :=
| reached_empty load_node : reached load_node zero_hash []
| reached_insert load_node load_node' root turns fuel turn pending :
    reached load_node root turns ->
    (length turns < fuel)%nat ->
    prepare_insert load_node fuel root turn = Some (pending, OK) ->
    persisted load_node pending load_node' ->
    reached load_node' (commit root pending) (turns ++ [turn]).

(** The treap of a list of turns, and the contents of all on the way to it. *)
Definition treap_of turns : treap := fold_left (fun t turn => default t (tinsert t turn)) turns Leaf.

Fixpoint history_contents (fuel : nat) turns : list PresentationNode :=
  contents (treap_of turns) ++
  match fuel with O => [] | S fuel => history_contents fuel (removelast turns) end.

Definition history turns : list PresentationNode := history_contents (length turns) turns.

Lemma treap_of_snoc turns turn : treap_of (turns ++ [turn]) = default (treap_of turns) (tinsert (treap_of turns) turn).
Proof. unfold treap_of. by rewrite fold_left_app. Qed.

Lemma history_snoc turns turn n : n ∈ history turns -> n ∈ history (turns ++ [turn]).
Proof.
  unfold history. rewrite length_app, Nat.add_comm. cbn [length history_contents Nat.add]. rewrite removelast_last.
  intros Hn. apply elem_of_app. by right.
Qed.

Lemma contents_history turns n : n ∈ contents (treap_of turns) -> n ∈ history turns.
Proof. intros Hn. unfold history. destruct (length turns); cbn [history_contents]; apply elem_of_app; by left. Qed.

Lemma clean_sub S S' : clean S -> (forall n, n ∈ S' -> n ∈ S) -> clean S'.
Proof. intros [Hi He] Hs. split; [intros n n' Hn Hn'; apply Hi; auto|auto]. Qed.

Lemma treap_of_ok uuid turns :
  Forall (named uuid) turns -> treap_ok mbedtls_sha256 uuid (treap_of turns) /\
  forall x, x ∈ inorder (treap_of turns) <-> x ∈ turns.
Proof.
  induction turns as [|turn turns IH] using rev_ind; intros Hn; [split; [apply leaf_ok|done]|].
  apply Forall_app in Hn as [Hn Ht%Forall_inv]. destruct (IH Hn) as [Hok He]. rewrite treap_of_snoc.
  pose proof (tinsert_ok mbedtls_sha256 uuid _ turn Hok Ht) as Hi.
  destruct (tinsert (treap_of turns) turn) as [t'|]; cbn [default from_option].
  - destruct Hi as (Hok' & _ & He'). split; [done|]. intros x. unfold Datatypes.id. rewrite He', He, elem_of_app, list_elem_of_singleton. tauto.
  - split; [done|]. intros x. rewrite He, elem_of_app, list_elem_of_singleton. split; [tauto|]. intros [?| ->]; [done|].
    destruct Hi as (y & Hy & Hk). rewrite <- He. pose proof (ok_named _ _ _ Hok) as Hall. rewrite List.Forall_forall in Hall.
    by rewrite <- (named_inj uuid y turn (Hall y (proj1 (list_elem_of_In _ _) Hy)) Ht Hk).
Qed.

(** ** One insertion *)

Lemma prepare_insert_spec uuid load_node t turn fuel S :
  length uuid = 16%nat -> named uuid turn -> treap_ok mbedtls_sha256 uuid t ->
  clean S -> (forall n, n ∈ contents t -> n ∈ S) -> (forall t' n, tinsert t turn = Some t' -> n ∈ contents t' -> n ∈ S) ->
  stored mbedtls_sha256 load_node t -> (height t < fuel)%nat ->
  exists pending, previous_root pending = digest t /\
  match tinsert t turn with
  | None => prepare_insert load_node fuel (digest t) turn = Some (pending, ALREADY_EXISTS)
  | Some t' => prepare_insert load_node fuel (digest t) turn = Some (pending, OK) /\ new_root pending = digest t' /\
      entries_of mbedtls_sha256 S (nodes pending) /\
      forall n, n ∈ contents t' -> n ∈ contents t \/ (node_hash mbedtls_sha256 n, n) ∈ nodes pending
  end.
Proof.
  intros Hu Hn Hok Hc Ht Hs Hh Hf. destruct (named_key _ _ Hn) as (Hp & Hcu & _).
  set (pending := {| previous_root := digest t; new_root := zero_hash; inserted_turn := Some turn; nodes := [] |}).
  assert (Hi : inserts mbedtls_sha256 load_node S t turn fuel pending).
  { apply (store_insert_spec mbedtls_sha256 load_node S uuid); try done; [by intros h n ?%elem_of_nil|intros n Hin; right; by apply Hh|apply Hok]. }
  unfold inserts in Hi. unfold PresentationTree.prepare_insert. rewrite Hp, Hcu, Hu. cbn [Nat.eqb negb]. fold (lone_node turn) pending.
  destruct (tinsert t turn) as [t'|].
  - destruct Hi as (more & -> & He & Hin).
    exists {| previous_root := digest t; new_root := digest t'; inserted_turn := Some turn; nodes := more |}. by split_and!.
  - rewrite Hi. by exists pending.
Qed.

(** ** Histories *)

Lemma treap_of_height uuid turns : Forall (named uuid) turns -> (height (treap_of turns) <= length turns)%nat.
Proof.
  intros Hn. destruct (treap_of_ok uuid turns Hn) as [Hok He]. etransitivity; [apply height_inorder|].
  apply submseteq_length, NoDup_submseteq; [|intros x; by rewrite He].
  apply turn_sorted_nodup, Hok.
Qed.

(** The root of a reached presentation is the hash of the treap of its turns. *)
Lemma reached_treap uuid load_node root turns :
  reached load_node root turns -> length uuid = 16%nat -> Forall (named uuid) turns -> clean (history turns) ->
  root = digest (treap_of turns) /\ stored mbedtls_sha256 load_node (treap_of turns).
Proof.
  intros Hr Hu. induction Hr as [load_node|load_node load_node' root turns fuel turn pending Hr IH Hf Hi [Hnew Hold]]; intros Hn Hc.
  { split; [done|]. by intros n ?%elem_of_nil. }
  apply Forall_app in Hn as [Hn Ht%Forall_inv]. assert (Hc' : clean (history turns)).
  { apply (clean_sub _ _ Hc). intros n. apply history_snoc. }
  destruct (IH Hn Hc') as [-> Hs]. destruct (treap_of_ok uuid turns Hn) as [Hok He]. pose proof (treap_of_snoc turns turn) as Et.
  destruct (prepare_insert_spec uuid load_node (treap_of turns) turn fuel (history (turns ++ [turn]))) as (p & Hp & Hcase); try done.
  - intros n Hin. by apply history_snoc, contents_history.
  - intros t' n Hins Hin. apply contents_history. by rewrite Et, Hins.
  - pose proof (treap_of_height uuid turns Hn). lia.
  - destruct (tinsert (treap_of turns) turn) as [t'|]; [|rewrite Hi in Hcase; done].
    destruct Hcase as (E & Hroot & _ & Hin). rewrite Hi in E. injection E as <-. cbn [default from_option] in Et. unfold Datatypes.id in Et. rewrite Et.
    split; [unfold commit; by rewrite Hp, bool_decide_eq_true_2|]. intros n Hn'. destruct (Hin n Hn') as [Hn''|Hn'']; [|by apply Hnew].
    by apply Hold, Hs.
Qed.

(** Digests of treaps without collisions. *)
Lemma digest_inj S t t' :
  clean S -> (forall n, n ∈ contents t -> n ∈ S) -> (forall n, n ∈ contents t' -> n ∈ S) -> digest t = digest t' -> t = t'.
Proof.
  intros [Hinj Hne]. revert t'. induction t as [|x l IHl r IHr]; intros [|x' l' r'] Ht Ht' E; [done|..].
  - specialize (Hne (branch_node mbedtls_sha256 x' l' r') (Ht' _ ltac:(by left))). cbn in E. unfold branch_node in Hne. by rewrite <- E in Hne.
  - specialize (Hne (branch_node mbedtls_sha256 x l r) (Ht _ ltac:(by left))). cbn in E. unfold branch_node in Hne. by rewrite E in Hne.
  - apply (Hinj (branch_node mbedtls_sha256 x l r) (branch_node mbedtls_sha256 x' l' r')) in E; [|apply Ht; by left|apply Ht'; by left].
    injection E as -> El Er.
    assert (Hsub : forall x l r, (forall n, n ∈ contents (Branch x l r) -> n ∈ S) ->
      (forall n, n ∈ contents l -> n ∈ S) /\ forall n, n ∈ contents r -> n ∈ S).
    { intros y a b Hb. split; intros n Hn; apply Hb; right; apply elem_of_app; [by left|by right]. }
    destruct (Hsub _ _ _ Ht) as [Hl Hr], (Hsub _ _ _ Ht') as [Hl' Hr']. by rewrite (IHl l'), (IHr r').
Qed.

(** ** Properties *)

(** C23. For turns of one canvas, with a 16-byte identifier and addresses in the
    spelling [TurnAddress::string] gives, and as long as no two contents of the
    nodes collide and none has the empty digest: whatever the order of the
    insertions, the ordered turns of the committed root are exactly the inserted
    turns, sorted, each once (fuel above their number).  Preparing a turn already
    present reports ALREADY_EXISTS, and preparing a new one succeeds, changes
    nothing visible, and leaves the old root readable after it is persisted.
    With another spelling of an address both fail: [same_address_twice]. *)
Theorem presentation_keeps_order uuid load_node root turns turn fuel :
  reached load_node root turns -> length uuid = 16%nat -> Forall (named uuid) (turns ++ [turn]) ->
  clean (history (turns ++ [turn])) -> (length turns < fuel)%nat ->
  exists ordered, ordered_turns load_node fuel root = Some (ordered, OK) /\
    StronglySorted turn_lt ordered /\ (forall x, x ∈ ordered <-> x ∈ turns) /\
    exists pending status, prepare_insert load_node fuel root turn = Some (pending, status) /\
      (turn ∈ turns -> status = ALREADY_EXISTS) /\
      (turn ∉ turns -> status = OK /\ commit root pending = new_root pending /\
         forall load_node', persisted load_node pending load_node' -> ordered_turns load_node' fuel root = Some (ordered, OK)).
Proof.
  intros Hr Hu Hn Hc Hf. pose proof Hn as [Hn' Ht%Forall_inv]%Forall_app.
  assert (Hc' : clean (history turns)) by (apply (clean_sub _ _ Hc); intros n; apply history_snoc).
  destruct (reached_treap uuid _ _ _ Hr Hu Hn' Hc') as [-> Hs]. destruct (treap_of_ok uuid turns Hn') as [Hok He].
  pose proof (treap_of_height uuid turns Hn') as Hh.
  assert (Hcol : forall load_node', stored mbedtls_sha256 load_node' (treap_of turns) ->
    ordered_turns load_node' fuel (digest (treap_of turns)) = Some (inorder (treap_of turns), OK)).
  { intros load_node' Hs'. apply (collect_spec mbedtls_sha256 load_node' (history turns) _ fuel []); [done| |done|lia].
    intros n. apply contents_history. }
  exists (inorder (treap_of turns)). split_and!; [by apply Hcol|apply Hok|done|].
  pose proof (treap_of_snoc turns turn) as Et. pose proof (tinsert_ok mbedtls_sha256 uuid _ turn Hok Ht) as Hi.
  destruct (prepare_insert_spec uuid load_node (treap_of turns) turn fuel (history (turns ++ [turn]))) as (p & Hp & Hcase); try done.
  - intros n Hin. by apply history_snoc, contents_history.
  - intros t' n Hins Hin. apply contents_history. by rewrite Et, Hins.
  - lia.
  - exists p. destruct (tinsert (treap_of turns) turn) as [t'|].
    + destruct Hcase as (-> & Hroot & _). destruct Hi as (_ & Hfresh & _). exists OK. split_and!; [done| |].
      * intros Hin. exfalso. by apply (Hfresh turn (proj2 (He turn) Hin)).
      * intros _. split_and!; [done|unfold commit; by rewrite Hp, bool_decide_eq_true_2|].
        intros load_node' [_ Hold]. apply Hcol. intros n Hin. by apply Hold, Hs.
    + exists ALREADY_EXISTS. split_and!; [done|done|]. intros Hnin. exfalso. destruct Hi as (y & Hy & Hk).
      pose proof (ok_named _ _ _ Hok) as Hall. rewrite List.Forall_forall in Hall.
      apply Hnin, He. by rewrite <- (named_inj uuid y turn (Hall y (proj1 (list_elem_of_In _ _) Hy)) Ht Hk).
Qed.

(** C24. The root hash of a presentation identifies its set of turns: two histories
    that insert the same turns in any order reach the same root, and without
    collisions among the contents of their nodes equal roots mean equal turns. *)
Theorem presentation_root_canonical uuid load_node root turns load_node' root' turns' :
  reached load_node root turns -> reached load_node' root' turns' -> length uuid = 16%nat ->
  Forall (named uuid) turns -> Forall (named uuid) turns' ->
  clean (history turns ++ history turns') ->
  root = root' <-> forall x, x ∈ turns <-> x ∈ turns'.
Proof.
  intros Hr Hr' Hu Hn Hn' Hc.
  assert (Hc1 : clean (history turns)) by (apply (clean_sub _ _ Hc); intros n; rewrite elem_of_app; by left).
  assert (Hc2 : clean (history turns')) by (apply (clean_sub _ _ Hc); intros n; rewrite elem_of_app; by right).
  destruct (reached_treap uuid _ _ _ Hr Hu Hn Hc1) as [-> _], (reached_treap uuid _ _ _ Hr' Hu Hn' Hc2) as [-> _].
  destruct (treap_of_ok uuid turns Hn) as [Hok He], (treap_of_ok uuid turns' Hn') as [Hok' He'].
  assert (Heq : treap_of turns = treap_of turns' <-> digest (treap_of turns) = digest (treap_of turns')).
  { split; [by intros ->|]. apply (digest_inj _ _ _ Hc); intros n Hin; apply elem_of_app; [left|right]; by apply contents_history. }
  rewrite <- Heq. split; [intros E x; by rewrite <- He, <- He', E|]. intros E.
  apply (inorder_unique mbedtls_sha256 uuid); [done..|]. intros x. by rewrite He, He', E.
Qed.
End Histories.

(** ** Concrete presentations *)

(** A store that keeps the first node under each hash, as the database does. *)
Definition stored_nodes (entries : list (Hash256 * PresentationNode)) : NodeLoader :=
  fun h =>
    match List.find (fun entry => bool_decide (entry.1 = h)) entries with
    | Some entry => Ok entry.2
    | None => Err NOT_FOUND
    end.

(** Insert turns one by one, persisting each. *)
Fixpoint present (mbedtls_sha256 : bytes -> option bytes) (fuel : nat) (entries : list (Hash256 * PresentationNode))
    (root : Hash256) (turns : list TurnId) : option (list (Hash256 * PresentationNode) * Hash256) :=
  match turns with
  | [] => Some (entries, root)
  | turn :: rest =>
      match prepare_insert mbedtls_sha256 (stored_nodes entries) fuel root turn with
      | Some (pending, OK) => present mbedtls_sha256 fuel (entries ++ nodes pending) (commit root pending) rest
      | _ => None
      end
  end.

(** Entries under the same hash are the same node. *)
Definition consistent (entries : list (Hash256 * PresentationNode)) : Prop :=
  forall e e', e ∈ entries -> e' ∈ entries -> e.1 = e'.1 -> e.2 = e'.2.

Lemma stored_nodes_elem entries h n : consistent entries -> (h, n) ∈ entries -> stored_nodes entries h = Ok n.
Proof.
  intros Hc Hin. unfold stored_nodes. destruct (List.find _ _) as [e|] eqn:E.
  - apply List.find_some in E as [He Hh]. apply list_elem_of_In in He. apply bool_decide_eq_true in Hh.
    f_equal. by apply (Hc e (h, n)).
  - pose proof (List.find_none _ _ E _ (proj1 (list_elem_of_In _ _) Hin)) as Hf. cbn in Hf.
    by rewrite bool_decide_eq_true_2 in Hf.
Qed.

Lemma stored_nodes_some entries h n : stored_nodes entries h = Ok n -> (h, n) ∈ entries.
Proof.
  unfold stored_nodes. destruct (List.find _ _) as [[h' n']|] eqn:E; [|done].
  apply List.find_some in E as [He Hh]. cbn in *. apply bool_decide_eq_true in Hh as ->. intros [= <-].
  by apply list_elem_of_In.
Qed.

Lemma present_sub mbedtls_sha256 fuel turns : forall entries root entries' root',
  present mbedtls_sha256 fuel entries root turns = Some (entries', root') -> forall e, e ∈ entries -> e ∈ entries'.
Proof.
  induction turns as [|turn turns IH]; intros entries root entries' root'; cbn [present]; [by intros [= <- _]|].
  destruct (prepare_insert _ _ _ _ _) as [[pending []]|]; try done. intros E e He. apply (IH _ _ _ _ E), elem_of_app. by left.
Qed.

Lemma present_reached mbedtls_sha256 fuel turns : forall entries root before entries' root',
  reached mbedtls_sha256 (stored_nodes entries) root before -> (length before + length turns <= fuel)%nat ->
  present mbedtls_sha256 fuel entries root turns = Some (entries', root') -> consistent entries' ->
  reached mbedtls_sha256 (stored_nodes entries') root' (before ++ turns).
Proof.
  induction turns as [|turn turns IH]; intros entries root before entries' root' Hr Hf; cbn [present length] in *.
  { intros [= <- <-] _. by rewrite app_nil_r. }
  destruct (prepare_insert _ _ _ _ _) as [[pending []]|] eqn:Ep; try done. intros E Hc.
  change (turn :: turns) with ([turn] ++ turns). rewrite app_assoc.
  apply (IH _ _ (before ++ [turn]) _ _) in E; [done| |rewrite length_app; cbn; lia|done].
  assert (Hc' : consistent (entries ++ nodes pending)).
  { intros e e' He He'. apply Hc; by eapply present_sub. }
  apply (reached_insert _ (stored_nodes entries) _ root before fuel turn pending); [done|lia|done|]. split.
  - intros h n Hn. apply stored_nodes_elem; [done|]. apply elem_of_app. by right.
  - intros h n Hn%stored_nodes_some. apply stored_nodes_elem; [done|]. apply elem_of_app. by left.
Qed.

Definition consistent_b (entries : list (Hash256 * PresentationNode)) : bool :=
  forallb (fun e => forallb (fun e' => negb (bool_decide (e.1 = e'.1)) || bool_decide (e.2 = e'.2)) entries) entries.

Lemma consistent_b_ok entries : consistent_b entries = true -> consistent entries.
Proof.
  unfold consistent_b. rewrite forallb_forall. intros H e e' He%list_elem_of_In He'%list_elem_of_In E. specialize (H e He).
  rewrite forallb_forall in H. specialize (H e' He'). rewrite E, (bool_decide_eq_true_2 (e'.1 = e'.1)) in H by done.
  by apply bool_decide_eq_true in H.
Qed.

(** Contents, paired with their hashes, compared pairwise. *)
Definition clean_b (mbedtls_sha256 : bytes -> option bytes) (S : list PresentationNode) : bool :=
  let hashed := map (fun n => (node_hash mbedtls_sha256 n, n)) S in
  forallb (fun e => negb (Hash256.empty e.1)) hashed && consistent_b hashed.

Lemma clean_b_ok mbedtls_sha256 S : clean_b mbedtls_sha256 S = true -> clean mbedtls_sha256 S.
Proof.
  unfold clean_b. set (hashed := map _ S). intros [He Hc%consistent_b_ok]%andb_true_iff.
  assert (Hin : forall n, n ∈ S -> (node_hash mbedtls_sha256 n, n) ∈ hashed)
    by (intros n Hn; apply list_elem_of_In, in_map_iff; exists n; split; [done|by apply list_elem_of_In]).
  split.
  - intros n n' Hn Hn' E. exact (Hc _ _ (Hin n Hn) (Hin n' Hn') E).
  - intros n Hn. rewrite forallb_forall in He. apply negb_true_iff.
    exact (He _ (proj1 (list_elem_of_In _ _) (Hin n Hn))).
Qed.

Definition toy_turns : list TurnId := map toy_turn_id ["2"; "1"; "1.a"]%string.
Definition toy_turns' : list TurnId := map toy_turn_id ["1.a"; "2"; "1"]%string.
Definition toy_presentation (turns : list TurnId) : list (Hash256 * PresentationNode) * Hash256 :=
  default ([], zero_hash) (present toy_digest 9 [] zero_hash turns).

Lemma toy_reached turns entries root :
  (length turns <= 9)%nat -> toy_presentation turns = (entries, root) -> consistent_b entries = true ->
  present toy_digest 9 [] zero_hash turns <> None ->
  reached toy_digest (stored_nodes entries) root turns.
Proof.
  unfold toy_presentation. intros Hl E Hc Hn. destruct (present toy_digest 9 [] zero_hash turns) as [[es r]|] eqn:Ep; [|done].
  injection E as -> ->. apply (present_reached toy_digest 9 turns [] zero_hash [] entries root); [constructor|done|done|].
  by apply consistent_b_ok.
Qed.

Lemma toy_named text a : TurnAddress.parse (str text) = Some a -> address_string a = str text -> named toy_uuid (toy_turn_id text).
Proof. intros Hp Ha. apply address_round_trip in Hp as [Hv _]. exists a. split; [done|]. unfold toy_turn_id. by rewrite Ha. Qed.

Lemma toy_turns_named : Forall (named toy_uuid) toy_turns /\ Forall (named toy_uuid) toy_turns' /\ named toy_uuid (toy_turn_id "3").
Proof. split_and!; repeat constructor; (eapply toy_named; [vm_compute; reflexivity|vm_compute; reflexivity]). Qed.

Lemma presentation_keeps_order_witness :
  exists ordered, ordered_turns (stored_nodes (toy_presentation toy_turns).1) 4 (toy_presentation toy_turns).2 = Some (ordered, OK) /\
    (forall x, x ∈ ordered <-> x ∈ toy_turns).
Proof.
  destruct toy_turns_named as (Hn & _ & H3).
  destruct (presentation_keeps_order toy_digest toy_uuid (stored_nodes (toy_presentation toy_turns).1) (toy_presentation toy_turns).2
    toy_turns (toy_turn_id "3") 4) as (ordered & Ho & _ & He & _).
  - apply toy_reached; [vm_compute; lia|by destruct (toy_presentation toy_turns)|vm_compute; reflexivity|by vm_compute].
  - done.
  - apply Forall_app. split; [done|]. by constructor.
  - apply clean_b_ok. vm_compute. reflexivity.
  - vm_compute. lia.
  - exists ordered. split; [exact Ho|exact He].
Defined.

Lemma presentation_root_canonical_witness : (toy_presentation toy_turns).2 = (toy_presentation toy_turns').2.
Proof.
  destruct toy_turns_named as (Hn & Hn' & _).
  apply (presentation_root_canonical toy_digest toy_uuid (stored_nodes (toy_presentation toy_turns).1) _ toy_turns
    (stored_nodes (toy_presentation toy_turns').1) _ toy_turns').
  - apply toy_reached; [vm_compute; lia|by destruct (toy_presentation toy_turns)|vm_compute; reflexivity|by vm_compute].
  - apply toy_reached; [vm_compute; lia|by destruct (toy_presentation toy_turns')|vm_compute; reflexivity|by vm_compute].
  - done.
  - done.
  - done.
  - apply clean_b_ok. vm_compute. reflexivity.
  - intros x. unfold toy_turns, toy_turns'. cbn [map]. rewrite !elem_of_cons. tauto.
Defined.

(** The spelling of an address matters: the priority is that of the text, so a
    turn spelled with a trailing separator can be placed above an equal one, and
    the presentation lists the address 3 twice. *)
Example same_address_twice :
  (let '(entries, root) := toy_presentation (map toy_turn_id ["1"; "3"; "3."]%string) in
   ordered_turns (stored_nodes entries) 9 root) = Some (map toy_turn_id ["1"; "3."; "3"]%string, OK) /\
  turn_key (toy_turn_id "3") = turn_key (toy_turn_id "3.").
Proof. vm_compute. done. Qed.
