(* ===== verification/Charconv.v ===== *)
(** * Integer conversions of the C++ runtime

    [std::from_chars] into 64-bit integers in any base up to sixteen and
    [std::to_string] of a signed 64-bit integer.  A conversion returns the value
    and the unread suffix of the text, [None] when [ec] reports an error. *)
From S2P Require Import Prelude Text.
Open Scope Z_scope.

Definition int64_min : Z := - 2 ^ 63.
Definition int64_max : Z := 2 ^ 63 - 1.
Definition is_i64 (z : Z) : Prop := int64_min <= z <= int64_max.

#[export] Instance is_i64_dec z : Decision (is_i64 z).
Proof. unfold is_i64. apply _. Defined.

(** ** Digits in a base *)

Definition is_digit_of (base c : Z) : bool := (0 <=? hex_value c) && (hex_value c <? base).

Definition digits_value (base : Z) (digits : bytes) : Z :=
  fold_left (fun value c => value * base + hex_value c) digits 0.

(** The value after the longest prefix of digits, and the rest. *)
Fixpoint scan_base (base : Z) (text : bytes) (value : Z) : Z * bytes :=
  match text with
  | c :: rest => if is_digit_of base c then scan_base base rest (value * base + hex_value c) else (value, text)
  | [] => (value, [])
  end.

Definition starts_with_digit (base : Z) (text : bytes) : bool :=
  match text with c :: _ => is_digit_of base c | [] => false end.

(** [std::from_chars(first, last, std::uint64_t&, base)] *)
Definition from_chars_unsigned (base : Z) (text : bytes) : option (Z * bytes) :=
  if starts_with_digit base text then
    let '(value, rest) := scan_base base text 0 in
    if value <? 2 ^ 64 then Some (value, rest) else None
  else None.

(** [std::from_chars(first, last, std::int64_t&, base)]: only a minus sign is
    recognised. *)
Definition from_chars_signed (base : Z) (text : bytes) : option (Z * bytes) :=
  let negative := match text with 45 :: _ => true | _ => false end in
  let digits := if negative then drop 1 text else text in
  if starts_with_digit base digits then
    let '(magnitude, rest) := scan_base base digits 0 in
    let value := if negative then - magnitude else magnitude in
    if bool_decide (is_i64 value) then Some (value, rest) else None
  else None.

(** [std::to_string(std::int64_t)] *)
Definition signed_text (value : Z) : bytes :=
  if value <? 0 then 45 :: decimal (- value) else decimal value.

(** ** Lemmas *)

Lemma digits_value_from base digits a :
  fold_left (fun value c => value * base + hex_value c) digits a
  = a * base ^ Z.of_nat (length digits) + digits_value base digits.
Proof.
  unfold digits_value. revert a. induction digits as [|c digits IH]; intros a; [simpl; lia|].
  cbn [fold_left length]. rewrite IH, (IH (0 * base + hex_value c)), Nat2Z.inj_succ, Z.pow_succ_r by lia. lia.
Qed.

Lemma digits_value_app base l k :
  digits_value base (l ++ k) = digits_value base l * base ^ Z.of_nat (length k) + digits_value base k.
Proof. unfold digits_value at 1. rewrite fold_left_app. apply digits_value_from. Qed.

Lemma digits_value_nonneg base digits :
  0 <= base -> Forall (fun c => is_digit_of base c = true) digits -> 0 <= digits_value base digits.
Proof.
  intros Hb Hd. unfold digits_value. enough (forall a, 0 <= a ->
    0 <= fold_left (fun value c => value * base + hex_value c) digits a) by auto with lia.
  induction Hd as [|c digits Hc Hd IH]; intros a Ha; [done|]. cbn [fold_left]. apply IH.
  unfold is_digit_of in Hc. bool_to_prop. nia.
Qed.

(** A scan that reads everything read digits only, and conversely. *)
Lemma scan_base_all base text a v :
  scan_base base text a = (v, []) <->
  Forall (fun c => is_digit_of base c = true) text
  /\ v = fold_left (fun value c => value * base + hex_value c) text a.
Proof.
  revert a. induction text as [|c text IH]; intros a; cbn [scan_base fold_left].
  - split; [intros [= <-]; split; [constructor|done]|by intros [_ ->]].
  - rewrite Forall_cons. destruct (is_digit_of base c); [rewrite IH; tauto|]. split; [done|by intros [[? _] _]].
Qed.

(** A scan stops at the first byte that is not a digit. *)
Lemma scan_base_app base digits rest a :
  Forall (fun c => is_digit_of base c = true) digits -> starts_with_digit base rest = false ->
  scan_base base (digits ++ rest) a = (a * base ^ Z.of_nat (length digits) + digits_value base digits, rest).
Proof.
  intros Hd Hr. rewrite <- digits_value_from. revert a.
  induction Hd as [|c digits Hc Hd IH]; intros a; cbn [app scan_base fold_left]; [|by rewrite Hc].
  destruct rest as [|c rest]; [done|]. cbn in Hr |- *. by rewrite Hr.
Qed.

Lemma digits_value_zeros base digits k :
  digits_value base (digits ++ replicate k 48) = digits_value base digits * base ^ Z.of_nat k.
Proof.
  rewrite digits_value_app, length_replicate. replace (digits_value base (replicate k 48)) with 0; [lia|].
  unfold digits_value. symmetry. induction k as [|k IH]; [done|]. cbn [replicate fold_left]. exact IH.
Qed.

Lemma zeros_digits base k : 1 < base -> Forall (fun c => is_digit_of base c = true) (replicate k 48).
Proof.
  intros Hb. apply Forall_replicate. unfold is_digit_of. change (hex_value 48) with 0.
  rewrite andb_true_iff, Z.leb_le, Z.ltb_lt. lia.
Qed.

Lemma starts_with_digit_all base text :
  Forall (fun c => is_digit_of base c = true) text -> starts_with_digit base text = true <-> text <> [].
Proof. destruct 1; by cbn. Qed.

(** A base-ten scan is the scan of Text. *)
Lemma is_digit_of_ten c : is_digit_of 10 c = is_digit c.
Proof.
  unfold is_digit_of, hex_value, is_digit. repeat guard_goal; bool_to_prop; try done.
  all: symmetry; rewrite ?andb_true_iff, ?Z.leb_le, ?Z.ltb_lt; try lia.
  all: rewrite andb_false_iff, ?Z.leb_gt, ?Z.ltb_ge in *; lia.
Qed.

Lemma scan_base_ten text a : scan_base 10 text a = scan_digits text a.
Proof.
  revert a. induction text as [|c text IH]; intros a; [done|]. cbn [scan_base scan_digits].
  rewrite is_digit_of_ten. destruct (is_digit c) eqn:E; [|done]. rewrite IH. f_equal.
  unfold is_digit in E. unfold hex_value. by rewrite E.
Qed.

(** The decimal text of a number is its digits. *)
Lemma decimal_digits_of value :
  is_u64 value ->
  Forall (fun c => is_digit_of 10 c = true) (decimal value) /\ digits_value 10 (decimal value) = value
  /\ decimal value <> [].
Proof.
  intros Hv. pose proof (from_chars_decimal value [] Hv I) as H. rewrite app_nil_r in H.
  destruct (decimal value) as [|d r] eqn:E; [done|]. cbn [from_chars_u64] in H.
  destruct (is_digit d) eqn:Hd; [|done]. destruct (scan_digits (d :: r) 0) as [w rest] eqn:Es.
  destruct (w <? 2 ^ 64); [|done]. simplify_eq. rewrite <- scan_base_ten in Es.
  apply scan_base_all in Es as [Hall Hw]. split_and!; [done|by symmetry|done].
Qed.

(** How many digits a number has. *)
Lemma length_decimal_digits fuel value k :
  10 ^ Z.of_nat k <= value < 10 ^ Z.of_nat (S k) -> (k < fuel)%nat ->
  length (decimal_digits fuel value []) = S k.
Proof.
  revert value k. induction fuel as [|fuel IH]; intros value k Hv Hk; [lia|]. cbn [decimal_digits].
  rewrite Nat2Z.inj_succ, Z.pow_succ_r in Hv by lia.
  assert (0 < 10 ^ Z.of_nat k) by (apply Z.pow_pos_nonneg; lia).
  rewrite (proj2 (Z.eqb_neq value 0)) by lia. rewrite decimal_digits_app, length_app. cbn [length].
  destruct k as [|k].
  - replace (value / 10) with 0 by (cbn in Hv; Z.div_mod_to_equations; lia). by destruct fuel.
  - rewrite (IH (value / 10) k); [lia| |lia]. rewrite Nat2Z.inj_succ, Z.pow_succ_r in * by lia.
    Z.div_mod_to_equations. lia.
Qed.

Lemma length_decimal value k :
  10 ^ Z.of_nat k <= value < 10 ^ Z.of_nat (S k) -> (k < 20)%nat -> length (decimal value) = S k.
Proof.
  intros Hv Hk. unfold decimal. assert (0 < 10 ^ Z.of_nat k) by (apply Z.pow_pos_nonneg; lia).
  rewrite (proj2 (Z.eqb_neq value 0)) by lia. by apply length_decimal_digits.
Qed.

(** A signed conversion that reads the whole text. *)
Lemma from_chars_signed_all base text z :
  from_chars_signed base text = Some (z, []) <->
  is_i64 z /\ exists negative digits,
    text = (if negative : bool then [45] else []) ++ digits /\ digits <> []
    /\ Forall (fun c => is_digit_of base c = true) digits
    /\ z = (if negative then - digits_value base digits else digits_value base digits).
Proof.
  assert (Hstep : forall (negative : bool) digits,
    (if starts_with_digit base digits then
       let '(magnitude, rest) := scan_base base digits 0 in
       let value := if negative then - magnitude else magnitude in
       if bool_decide (is_i64 value) then Some (value, rest) else None
     else None) = Some (z, []) <->
    is_i64 z /\ digits <> [] /\ Forall (fun c => is_digit_of base c = true) digits
    /\ z = (if negative then - digits_value base digits else digits_value base digits)).
  { intros negative digits. split.
    - destruct (starts_with_digit base digits) eqn:Es; [|done]. destruct (scan_base base digits 0) as [m rest] eqn:E.
      cbv zeta. case_bool_decide as Hi; [|done]. intros [= Hz ->]. apply scan_base_all in E as [Hd ->].
      split_and!; [by subst|by destruct digits|done|]. by subst.
    - intros (Hi & Hn & Hd & ->). apply starts_with_digit_all in Hd as Hs. rewrite (proj2 Hs Hn).
      rewrite (proj2 (scan_base_all base digits 0 (digits_value base digits))) by done.
      cbn zeta. by rewrite bool_decide_eq_true_2. }
  unfold from_chars_signed. destruct text as [|c text]; cbn [drop].
  { split; [done|]. intros (_ & [] & digits & E & Hn & _); [done|]. by destruct Hn. }
  destruct (decide (c = 45)) as [->|Hc].
  - rewrite (Hstep true text). split.
    + intros (Hi & Hn & Hd & ->). split; [done|]. by exists true, text.
    + intros (Hi & [] & digits & E & Hn & Hd & ->); cbn in E; simplify_eq; [done|].
      apply Forall_cons in Hd as [Hd _]. done.
  - assert (E : (match c with 45 => true | _ => false end) = false) by (repeat case_match; congruence).
    rewrite E. rewrite (Hstep false (c :: text)). split.
    + intros (Hi & Hn & Hd & ->). split; [done|]. by exists false, (c :: text).
    + intros (Hi & [] & digits & Et & Hn & Hd & ->); cbn in Et; simplify_eq; done.
Qed.

Lemma from_chars_unsigned_all base text z :
  0 <= base -> from_chars_unsigned base text = Some (z, []) <->
  z < 2 ^ 64 /\ text <> [] /\ Forall (fun c => is_digit_of base c = true) text /\ z = digits_value base text.
Proof.
  intros Hb. unfold from_chars_unsigned. split.
  - destruct (starts_with_digit base text) eqn:Es; [|done]. destruct (scan_base base text 0) as [m rest] eqn:E.
    destruct (m <? 2 ^ 64) eqn:Hm; [|done]. intros [= -> ->]. apply scan_base_all in E as [Hd ->]. bool_to_prop.
    split_and!; [done|by destruct text|done|done].
  - intros (Hi & Hn & Hd & ->). apply starts_with_digit_all in Hd as Hs. rewrite (proj2 Hs Hn).
    rewrite (proj2 (scan_base_all base text 0 (digits_value base text))) by done.
    by rewrite (proj2 (Z.ltb_lt _ _)).
Qed.

(** [to_string] reads back. *)
Lemma signed_text_reads z : is_i64 z -> from_chars_signed 10 (signed_text z) = Some (z, []).
Proof.
  intros Hz. apply from_chars_signed_all. split; [done|]. unfold is_i64, int64_min, int64_max in Hz.
  unfold signed_text. destruct (z <? 0) eqn:E; bool_to_prop.
  - destruct (decimal_digits_of (- z)) as (Hd & Hv & Hn); [width_lia|]. exists true, (decimal (- z)).
    split_and!; [done|done|done|]. lia.
  - destruct (decimal_digits_of z) as (Hd & Hv & Hn); [width_lia|]. exists false, (decimal z).
    split_and!; [done|done|done|]. lia.
Qed.
