(* ===== verification/DoubleText.v ===== *)
(** * Double-precision numbers and their text

    [double] is IEEE binary64.  [from_chars] with [std::chars_format::general]
    rounds the decimal number to the nearest double, ties to even;
    [operator<<] at [max_digits10] = 17 digits prints the nearest decimal of 17
    significant digits without trailing zeros.  The last section shows that the
    printed text of a finite double reads back as the same double. *)
From S2P Require Import Prelude Text Charconv LongDouble.
From Stdlib Require Import QArith Qround Qpower Qabs Lqa.
Open Scope Z_scope.

(** [DFinite negative m e] is [m * 2 ^ e] with its sign; zero has one too. *)
Inductive Double :=
| DNaN (negative : bool)
| DInfinity (negative : bool)
| DFinite (negative : bool) (mantissa exponent : Z).

#[export] Instance Double_eq_dec : EqDecision Double.
Proof. solve_decision. Defined.

(** The normal and subnormal doubles, each written in one way. *)
Definition double_wf (d : Double) : Prop :=
  match d with
  | DFinite _ m e =>
      2 ^ 52 <= m < 2 ^ 53 /\ -1074 <= e <= 971 \/ 0 <= m < 2 ^ 52 /\ e = -1074
  | _ => True
  end.

#[export] Instance double_wf_dec d : Decision (double_wf d).
Proof. destruct d; cbn; apply _. Defined.

(** ** Reading *)

(** The double nearest to [q >= 0]; [None] when [q] is out of range: above the
    largest double, or not zero and rounded to zero. *)
Definition nearest_double (negative : bool) (q : Q) : option Double :=
  if Qle_bool q 0 then Some (DFinite negative 0 (-1074))
  else
    let e := Z.max (binary_exponent q - 52) (-1074) in
    let m := nearest_even (q / 2 ^ e) in
    let '(m, e) := if m =? 2 ^ 53 then (2 ^ 52, e + 1) else (m, e) in
    if (m =? 0) || (971 <? e) then None else Some (DFinite negative m e).

(** The optional exponent: [e] or [E], a sign, digits; not read when no digit
    follows. *)
Definition scan_exponent (text : bytes) : Z * bytes :=
  match text with
  | c :: after =>
      if (c =? 101) || (c =? 69) then
        let '(negative, digits) :=
          match after with
          | s :: more => if s =? 45 then (true, more) else if s =? 43 then (false, more) else (false, after)
          | [] => (false, after)
          end in
        match digits with
        | d :: _ =>
            if is_digit d then
              let '(value, rest) := scan_digits digits 0 in ((if negative : bool then - value else value), rest)
            else (0, text)
        | [] => (0, text)
        end
      else (0, text)
  | [] => (0, text)
  end.

(** The optional fraction after the whole part: the digits as one integer and
    how many of them follow the point. *)
Definition scan_fraction (whole : Z) (after : bytes) : Z * nat * bytes :=
  match after with
  | c :: fraction =>
      if c =? 46 then
        let '(value, rest) := scan_digits fraction whole in (value, (length fraction - length rest)%nat, rest)
      else (whole, O, after)
  | [] => (whole, O, after)
  end.

(** An unsigned decimal number: its digits as an integer, the power of ten
    that scales them, and the rest. *)
Definition scan_decimal (text : bytes) : option (Z * Z * bytes) :=
  let '(whole, after) := scan_digits text 0 in
  let '(mantissa, places, after') := scan_fraction whole after in
  if (length text - length after + places =? 0)%nat then None
  else
    let '(exponent, rest) := scan_exponent after' in
    Some (mantissa, exponent - Z.of_nat places, rest).

Definition lower (c : Z) : Z := if (65 <=? c) && (c <=? 90) then c + 32 else c.

(** The suffix after [word], compared without case. *)
Fixpoint skip_word (word text : bytes) : option bytes :=
  match word, text with
  | [], _ => Some text
  | w :: word, c :: text => if lower c =? w then skip_word word text else None
  | _ :: _, [] => None
  end.

Definition is_nan_char (c : Z) : bool :=
  is_digit c || ((97 <=? lower c) && (lower c <=? 122)) || (c =? 95).

(** The optional [(n-char-sequence)] of a NaN. *)
Fixpoint skip_nan_chars (text : bytes) : option bytes :=
  match text with
  | c :: rest => if c =? 41 then Some rest else if is_nan_char c then skip_nan_chars rest else None
  | [] => None
  end.

Definition scan_special (negative : bool) (text : bytes) : option (Double * bytes) :=
  match skip_word (str "infinity") text with
  | Some rest => Some (DInfinity negative, rest)
  | None =>
      match skip_word (str "inf") text with
      | Some rest => Some (DInfinity negative, rest)
      | None =>
          match skip_word (str "nan") text with
          | Some rest =>
              match rest with
              | c :: inner =>
                  if c =? 40 then Some (DNaN negative, default rest (skip_nan_chars inner))
                  else Some (DNaN negative, rest)
              | [] => Some (DNaN negative, rest)
              end
          | None => None
          end
      end
  end.

(** [std::from_chars(first, last, double&, std::chars_format::general)] *)
Definition from_chars_double (text : bytes) : option (Double * bytes) :=
  let '(negative, body) :=
    match text with c :: rest => if c =? 45 then (true, rest) else (false, text) | [] => (false, text) end in
  match scan_decimal body with
  | Some (mantissa, exponent, rest) =>
      match nearest_double negative (inject_Z mantissa * 10 ^ exponent) with
      | Some d => Some (d, rest)
      | None => None
      end
  | None => scan_special negative body
  end.

(** ** Writing *)

(** The number of decimal digits of [z > 0], less one. *)
Fixpoint decimal_log (fuel : nat) (z : Z) : Z :=
  match fuel with
  | O => 0
  | S fuel => if z <? 10 then 0 else 1 + decimal_log fuel (z / 10)
  end.

Definition log10_Z (z : Z) : Z := decimal_log (Z.to_nat (Z.log2 z)) z.

(** The exponent of [q > 0] in scientific notation. *)
Definition decimal_exponent (q : Q) : Z :=
  let k := log10_Z (Qnum q) - log10_Z (Zpos (Qden q)) in
  if Qle_bool (10 ^ k) q then k else k - 1.

(** The 17 significant digits of [q > 0] and its exponent once rounded. *)
Definition significant_digits (q : Q) : Z * Z :=
  let x := decimal_exponent q in
  let n := nearest_even (q * 10 ^ (16 - x)) in
  if n =? 10 ^ 17 then (10 ^ 16, x + 1) else (n, x).

Fixpoint strip_zeros (digits : bytes) : bytes :=
  match digits with
  | [] => []
  | d :: rest =>
      match strip_zeros rest with
      | [] => if d =? 48 then [] else [d]
      | rest' => d :: rest'
      end
  end.

Definition exponent_text (x : Z) : bytes :=
  (if x <? 0 then 45 else 43) :: (if Z.abs x <? 10 then [48] else []) ++ decimal (Z.abs x).

Definition point_text (rest : bytes) : bytes := match rest with [] => [] | _ => 46 :: rest end.

(** [%.17g] for the digits [n] and the exponent [x]. *)
Definition general_text (n x : Z) : bytes :=
  let digits := strip_zeros (decimal n) in
  if (x <? -4) || (17 <=? x) then
    take 1 digits ++ point_text (drop 1 digits) ++ 101 :: exponent_text x
  else if 0 <=? x then
    let whole := Z.to_nat (x + 1) in
    take whole digits ++ replicate (whole - length digits) 48 ++ point_text (drop whole digits)
  else [48; 46] ++ replicate (Z.to_nat (- x - 1)) 48 ++ digits.

(** [output << std::setprecision(17) << value] *)
Definition double_text (d : Double) : bytes :=
  match d with
  | DNaN negative => (if negative then [45] else []) ++ str "nan"
  | DInfinity negative => (if negative then [45] else []) ++ str "inf"
  | DFinite negative m e =>
      (if negative then [45] else []) ++
      (if m =? 0 then [48]
       else let '(n, x) := significant_digits (float_value m e) in general_text n x)
  end.

(** ** Seventeen digits are enough *)

Local Open Scope Q_scope.

(** Half a unit of the seventeenth digit, relative to the number. *)
Definition half_digit : Q := 5 # 100000000000000000.

Lemma half_digit_small : half_digit * 2 ^ 54 < 1 /\ 0 < half_digit.
Proof. split; reflexivity. Qed.

Lemma nearest_even_close z r : inject_Z z - (1 # 2) < r < inject_Z z + (1 # 2) -> nearest_even r = z.
Proof.
  intros [H1 H2]. pose proof (nearest_even_error r) as [H3 H4].
  assert (A : inject_Z (nearest_even r) < inject_Z (z + 1)) by (rewrite inject_Z_plus; change (inject_Z 1) with 1; lra).
  assert (B : inject_Z z < inject_Z (nearest_even r + 1)) by (rewrite inject_Z_plus; change (inject_Z 1) with 1; lra).
  rewrite <- Zlt_Qlt in A, B. lia.
Qed.

Lemma binary_exponent_scaled r e k :
  inject_Z (2 ^ k) <= r < inject_Z (2 ^ (k + 1)) -> (0 <= k)%Z -> binary_exponent (r * 2 ^ e) = (k + e)%Z.
Proof.
  intros [H1 H2] Hk. rewrite pow2_Z in H1 by done. rewrite pow2_Z in H2 by lia. pose proof (pow2_pos e) as He.
  pose proof (pow2_pos k) as Hpk. apply binary_exponent_unique; [nra|].
  replace (k + e + 1)%Z with ((k + 1) + e)%Z by lia. rewrite (pow2_plus k), (pow2_plus (k + 1)). split; [nra|].
  apply Qmult_lt_compat_r; done.
Qed.

Lemma div_pow2 r e k : r * 2 ^ e / 2 ^ (e + k) == r * 2 ^ (- k).
Proof.
  pose proof (pow2_pos e). pose proof (pow2_pos k). rewrite pow2_plus, Qpower_opp. field. split; lra.
Qed.

(** The part of [nearest_double] after the choice of the exponent. *)
Lemma nearest_double_at negative q e m :
  0 < q -> Z.max (binary_exponent q - 52) (-1074) = e -> nearest_even (q / 2 ^ e) = m ->
  nearest_double negative q =
    (let '(m, e) := if (m =? 2 ^ 53)%Z then (2 ^ 52, e + 1)%Z else (m, e) in
     if ((m =? 0) || (971 <? e))%Z then None else Some (DFinite negative m e)).
Proof.
  intros Hq <- <-. unfold nearest_double. destruct (Qle_bool q 0) eqn:E; [|done].
  apply Qle_bool_iff in E. lra.
Qed.

Section Close.
Variables (negative : bool) (m e : Z) (r : Q).
Hypothesis Hm : (0 < m)%Z.
Hypothesis Hwf : double_wf (DFinite negative m e).
Hypothesis Hr : inject_Z m - inject_Z m * half_digit <= r <= inject_Z m + inject_Z m * half_digit.

Lemma close_mantissa : (m < 2 ^ 53)%Z /\ 1 <= inject_Z m /\ inject_Z m <= inject_Z (2 ^ 53 - 1).
Proof.
  cbn in Hwf. split; [lia|]. split; [change 1 with (inject_Z 1)|]; rewrite <- Zle_Qle; lia.
Qed.

Lemma close_error : inject_Z m - (1 # 2) < r < inject_Z m + (1 # 2) /\ 0 < r.
Proof.
  destruct close_mantissa as (_ & H1 & H2). destruct half_digit_small as [Hd Hd0].
  change (2 ^ 54) with 18014398509481984 in Hd. change (inject_Z (2 ^ 53 - 1)) with 9007199254740991 in H2.
  assert (inject_Z m * half_digit < 1 # 2) by nra. lra.
Qed.

(** The rounded value when the exponent is kept. *)
Lemma close_kept : Z.max (binary_exponent (r * 2 ^ e) - 52) (-1074) = e ->
  nearest_double negative (r * 2 ^ e) = Some (DFinite negative m e).
Proof.
  intros Hb. destruct close_error as [[H1 H2] H3]. pose proof (pow2_pos e) as He.
  erewrite nearest_double_at; [|nra|exact Hb|].
  2: { apply (nearest_even_close m). rewrite <- (Z.add_0_r e) at 2 4. rewrite div_pow2. change (2 ^ (- 0)) with 1. lra. }
  cbn in Hwf. rewrite (proj2 (Z.eqb_neq m (2 ^ 53))) by lia. rewrite (proj2 (Z.eqb_neq m 0)) by lia.
  by rewrite (proj2 (Z.ltb_ge 971 e)) by lia.
Qed.

(** Just below a power of two the exponent drops by one and the rounding
    carries it back. *)
Lemma close_carry : m = (2 ^ 52)%Z -> (-1074 < e)%Z -> r < inject_Z (2 ^ 52) ->
  nearest_double negative (r * 2 ^ e) = Some (DFinite negative m e).
Proof.
  intros Em He Hlt. destruct close_error as [_ H3]. pose proof (pow2_pos e) as Hp.
  assert (H1 : inject_Z (2 ^ 52) - (1 # 4) < r).
  { eapply Qlt_le_trans; [|apply Hr]. rewrite Em. reflexivity. }
  assert (Hb : binary_exponent (r * 2 ^ e) = (51 + e)%Z).
  { apply binary_exponent_scaled; [|lia]. split; [|done]. change (inject_Z (2 ^ 52)) with 4503599627370496 in H1.
    change (inject_Z (2 ^ 51)) with 2251799813685248. lra. }
  erewrite nearest_double_at; [|nra|rewrite Hb; apply Z.max_l; lia|].
  2: { apply (nearest_even_close (2 ^ 53)). replace (51 + e - 52)%Z with (e + -1)%Z by lia. rewrite !div_pow2.
       change (2 ^ (- -1)) with 2. change (inject_Z (2 ^ 53)) with (2 * inject_Z (2 ^ 52)). lra. }
  rewrite Z.eqb_refl. replace (51 + e - 52 + 1)%Z with e by lia. rewrite Em. cbn in Hwf.
  by rewrite (proj2 (Z.ltb_ge 971 e)) by lia.
Qed.

Lemma nearest_double_close : nearest_double negative (r * 2 ^ e) = Some (DFinite negative m e).
Proof.
  destruct close_error as [[H1 H2] H3], close_mantissa as (H4 & H5 & H6).
  assert (Hup : r < inject_Z (2 ^ 53)).
  { eapply Qlt_le_trans; [exact H2|]. change (inject_Z (2 ^ 53)) with (inject_Z (2 ^ 53 - 1) + 1). lra. }
  assert (Hwf' := Hwf). cbn in Hwf'. destruct Hwf' as [[Hm' He]|[Hm' He]].
  - destruct (Qlt_le_dec r (inject_Z (2 ^ 52))) as [Hlt|Hge].
    + assert (Em : m = (2 ^ 52)%Z).
      { assert (inject_Z m < inject_Z (2 ^ 52 + 1)) as Hz by (rewrite inject_Z_plus; change (inject_Z 1) with 1; lra).
        rewrite <- Zlt_Qlt in Hz. lia. }
      destruct (decide (e = -1074)%Z) as [He'|]; [|apply close_carry; [done|lia|done]].
      apply close_kept. rewrite (binary_exponent_scaled _ _ 51); [lia| |lia]. split; [|done].
      rewrite Em in H1. change (inject_Z (2 ^ 52)) with 4503599627370496 in H1.
      change (inject_Z (2 ^ 51)) with 2251799813685248. lra.
    + apply close_kept. rewrite (binary_exponent_scaled _ _ 52); [lia|done|lia].
  - apply close_kept. rewrite He. apply Z.max_r. pose proof (pow2_pos (-1074)) as Hp.
    assert (Hlt : r * 2 ^ (-1074) < 2 ^ (-1022)).
    { replace (-1022)%Z with (52 + -1074)%Z by lia. rewrite pow2_plus. apply Qmult_lt_compat_r; [done|].
      eapply Qlt_le_trans; [exact H2|]. assert (inject_Z m <= inject_Z (2 ^ 52 - 1)) by (rewrite <- Zle_Qle; lia).
      change (2 ^ 52) with (inject_Z (2 ^ 52 - 1) + 1). lra. }
    assert (Hq : 0 < r * 2 ^ (-1074)) by nra. destruct (binary_exponent_spec _ Hq) as [Hb _].
    assert (binary_exponent (r * 2 ^ (-1074)) < -1022)%Z; [|lia].
    eapply (Qpower_lt_compat_l_inv 2); [by eapply Qle_lt_trans|done].
Qed.
End Close.

#[export] Instance nearest_double_proper negative : Proper (Qeq ==> eq) (nearest_double negative).
Proof.
  intros p q E. destruct (Qlt_le_dec 0 q) as [Hq|Hq].
  - assert (Hp : 0 < p) by (by rewrite E). destruct (binary_exponent_spec q Hq) as [H1 H2].
    assert (Eb : binary_exponent p = binary_exponent q) by (apply binary_exponent_unique; rewrite ?E; done).
    erewrite (nearest_double_at negative p); [|done|by rewrite Eb|].
    { by erewrite (nearest_double_at negative q). } by apply nearest_even_comp; rewrite E.
  - unfold nearest_double. by rewrite !(proj2 (Qle_bool_iff _ 0)) by (by rewrite ?E).
Qed.

(** *** The significant digits *)

Lemma pow10_pos k : 0 < 10 ^ k.
Proof. by apply Qpower_0_lt. Qed.

Lemma pow10_plus a b : 10 ^ (a + b) == 10 ^ a * 10 ^ b.
Proof. by apply Qpower_plus. Qed.

Lemma pow10_Z k : (0 <= k)%Z -> inject_Z (10 ^ k) == 10 ^ k.
Proof. intros H. by rewrite Zpower_Qpower. Qed.

Lemma decimal_log_spec fuel z :
  (0 < z)%Z -> (Z.log2 z <= Z.of_nat fuel)%Z ->
  (0 <= decimal_log fuel z /\ 10 ^ decimal_log fuel z <= z < 10 ^ (decimal_log fuel z + 1))%Z.
Proof.
  revert z. induction fuel as [|fuel IH]; intros z Hz Hf; cbn [decimal_log].
  { pose proof (Z.log2_spec z Hz) as [_ H]. pose proof (Z.log2_nonneg z). replace (Z.log2 z) with 0%Z in H by lia. cbn in H. lia. }
  destruct (z <? 10)%Z eqn:E; bool_to_prop; [cbn; lia|].
  destruct (IH (z / 10)%Z) as (H1 & H2 & H3); [Z.div_mod_to_equations; lia| |].
  { transitivity (Z.log2 (Z.shiftr z 1)); [apply Z.log2_le_mono; rewrite Z.shiftr_div_pow2 by lia; Z.div_mod_to_equations; lia|].
    rewrite Z.log2_shiftr by done. lia. }
  split; [lia|]. rewrite (Z.add_comm 1), !Z.pow_add_r in * by lia. change (10 ^ 1)%Z with 10%Z in *.
  Z.div_mod_to_equations. lia.
Qed.

Lemma log10_Z_spec z : (0 < z)%Z ->
  (0 <= log10_Z z /\ 10 ^ log10_Z z <= z < 10 ^ (log10_Z z + 1))%Z.
Proof. intros Hz. apply decimal_log_spec; [done|]. rewrite Z2Nat.id; [done|apply Z.log2_nonneg]. Qed.

Lemma decimal_exponent_spec q : 0 < q -> 10 ^ decimal_exponent q <= q < 10 ^ (decimal_exponent q + 1).
Proof.
  intros Hq. destruct q as [n d]. assert (Hn : (0 < n)%Z) by (unfold Qlt in Hq; cbn in Hq; lia).
  unfold decimal_exponent. cbn [Qnum Qden]. destruct (log10_Z_spec n Hn) as (Ha & Ha1 & Ha2).
  destruct (log10_Z_spec (Zpos d) eq_refl) as (Hb & Hb1 & Hb2).
  set (a := log10_Z n) in *. set (b := log10_Z (Zpos d)) in *.
  rewrite Zle_Qle in Ha1, Hb1. rewrite Zlt_Qlt in Ha2, Hb2. rewrite pow10_Z in Ha1, Hb1 by done.
  rewrite pow10_Z in Ha2, Hb2 by lia. rewrite pow10_plus in Ha2, Hb2. change (10 ^ 1) with 10 in *.
  assert (Ed : (n # d) * inject_Z (Zpos d) == inject_Z n) by (rewrite Qmake_Qdiv; field; done).
  set (dq := inject_Z (Zpos d)) in *. set (nq := inject_Z n) in *.
  pose proof (pow10_pos b) as Hpb. pose proof (pow10_pos (a - b)) as Hpab.
  assert (Ek : 10 ^ (a - b) * 10 ^ b == 10 ^ a) by (rewrite <- pow10_plus; f_equiv; lia).
  assert (Hup : n # d < 10 ^ (a - b) * 10).
  { apply Qnot_le_lt. intros Hle. assert (10 ^ (a - b) * 10 * dq <= (n # d) * dq) by (apply Qmult_le_compat_r; [done|by apply Qlt_le_weak]).
    assert (10 ^ (a - b) * 10 * 10 ^ b <= 10 ^ (a - b) * 10 * dq) by (apply Qmult_le_l; [lra|done]). lra. }
  assert (Hlo : 10 ^ (a - b) < (n # d) * 10).
  { apply Qnot_le_lt. intros Hle. assert ((n # d) * 10 * dq <= 10 ^ (a - b) * dq) by (apply Qmult_le_compat_r; [done|by apply Qlt_le_weak]).
    assert (10 ^ (a - b) * dq < 10 ^ (a - b) * (10 ^ b * 10)) by (apply Qmult_lt_l; done). lra. }
  destruct (Qle_bool (10 ^ (a - b)) (n # d)) eqn:E.
  - apply Qle_bool_iff in E. rewrite pow10_plus. done.
  - assert (Hnl : n # d < 10 ^ (a - b)) by (apply Qnot_le_lt; intros Hle; apply Qle_bool_iff in Hle; congruence).
    assert (Em : 10 ^ (a - b) == 10 ^ (a - b - 1) * 10) by (rewrite <- (pow10_plus (a - b - 1) 1); f_equiv; lia).
    split; [lra|]. by replace (a - b - 1 + 1)%Z with (a - b)%Z by lia.
Qed.

Lemma significant_digits_spec q n x :
  0 < q -> significant_digits q = (n, x) ->
  (10 ^ 16 <= n < 10 ^ 17)%Z /\
  q - q * half_digit <= inject_Z n * 10 ^ (x - 16) <= q + q * half_digit.
Proof.
  intros Hq E. destruct (decimal_exponent_spec q Hq) as [H1 H2]. unfold significant_digits in E.
  set (k := decimal_exponent q) in *. set (s := q * 10 ^ (16 - k)) in *.
  pose proof (pow10_pos (k - 16)) as Hp. pose proof (pow10_pos (16 - k)) as Hp'.
  assert (Eq : q == s * 10 ^ (k - 16)).
  { unfold s. rewrite <- Qmult_assoc, <- pow10_plus. replace (16 - k + (k - 16))%Z with 0%Z by lia. cbn. ring. }
  assert (E1 : 10 ^ k == inject_Z (10 ^ 16) * 10 ^ (k - 16)) by (rewrite pow10_Z, <- pow10_plus by done; f_equiv; lia).
  assert (E2 : 10 ^ (k + 1) == inject_Z (10 ^ 17) * 10 ^ (k - 16)) by (rewrite pow10_Z, <- pow10_plus by done; f_equiv; lia).
  assert (Hs1 : inject_Z (10 ^ 16) <= s) by (apply (Qmult_le_r _ _ (10 ^ (k - 16))); [done|]; rewrite <- E1, <- Eq; done).
  assert (Hs2 : s <= inject_Z (10 ^ 17)) by (apply (Qmult_le_r _ _ (10 ^ (k - 16))); [done|]; rewrite <- E2, <- Eq; by apply Qlt_le_weak).
  pose proof (nearest_even_ge _ _ Hs1) as Hn1. pose proof (nearest_even_le _ _ Hs2) as Hn2.
  pose proof (nearest_even_error s) as [He1 He2].
  assert (Hd : (1 # 2) * 10 ^ (k - 16) <= q * half_digit).
  { assert ((1 # 2) * 10 ^ (k - 16) == 10 ^ k * half_digit) as -> by (rewrite E1; unfold half_digit; change (inject_Z (10 ^ 16)) with 10000000000000000; ring).
    apply Qmult_le_compat_r; [done|]. by apply Qlt_le_weak. }
  assert (Hv : q - q * half_digit <= inject_Z (nearest_even s) * 10 ^ (k - 16) <= q + q * half_digit).
  { set (w := inject_Z (nearest_even s)) in *.
    assert ((s - (1 # 2)) * 10 ^ (k - 16) <= w * 10 ^ (k - 16)) by (apply Qmult_le_compat_r; [lra|by apply Qlt_le_weak]).
    assert (w * 10 ^ (k - 16) <= (s + (1 # 2)) * 10 ^ (k - 16)) by (apply Qmult_le_compat_r; [lra|by apply Qlt_le_weak]). lra. }
  destruct (nearest_even s =? 10 ^ 17)%Z eqn:En; bool_to_prop; simplify_eq; [|split; [lia|done]].
  split; [done|]. rewrite En in Hv. replace (k + 1 - 16)%Z with (1 + (k - 16))%Z by lia. rewrite pow10_plus.
  change (inject_Z (10 ^ 16)) with 10000000000000000. change (inject_Z (10 ^ 17)) with 100000000000000000 in Hv. change (10 ^ 1) with 10. lra.
Qed.

(** *** The text *)

Local Open Scope Z_scope.

Abbreviation digits_of_ten := (Forall (fun c => is_digit_of 10 c = true)).

Lemma scan_digits_stop digits rest a :
  digits_of_ten digits -> starts_with_digit 10 rest = false ->
  scan_digits (digits ++ rest) a = (a * 10 ^ Z.of_nat (length digits) + digits_value 10 digits, rest).
Proof. intros Hd Hr. rewrite <- scan_base_ten. by apply scan_base_app. Qed.

Lemma starts_with_digit_ten text :
  digits_of_ten text -> text <> [] -> exists c rest, text = c :: rest /\ is_digit c = true.
Proof. destruct 1 as [|c rest Hc]; [done|]. rewrite is_digit_of_ten in Hc. by exists c, rest. Qed.

(** An exponent that was printed is read whole. *)
Lemma scan_exponent_text x : is_u64 (Z.abs x) -> scan_exponent (101 :: exponent_text x) = (x, []).
Proof.
  intros Hx. destruct (decimal_digits_of _ Hx) as (Hd & Hv & Hn). unfold exponent_text.
  set (pad := if Z.abs x <? 10 then [48] else []). set (digits := pad ++ decimal (Z.abs x)).
  assert (Hdd : digits_of_ten digits) by (apply Forall_app; split; [unfold pad; case_match; by repeat constructor|done]).
  assert (Hdv : digits_value 10 digits = Z.abs x).
  { unfold digits. rewrite digits_value_app, Hv. unfold pad. by destruct (Z.abs x <? 10). }
  assert (Hdn : digits <> []) by (unfold digits; destruct pad; by cbn).
  destruct (starts_with_digit_ten _ Hdd Hdn) as (c & rest & E & Hc).
  pose proof (scan_digits_stop digits [] 0 Hdd eq_refl) as Hs. rewrite app_nil_r, Hdv, E in Hs.
  unfold scan_exponent. destruct (x <? 0) eqn:Ex; bool_to_prop; cbn -[scan_digits is_digit]; rewrite E, Hc, Hs; f_equal; lia.
Qed.

(** The general shape of a printed number. *)
Lemma scan_decimal_text whole fraction tail exponent rest :
  digits_of_ten whole -> whole <> [] -> digits_of_ten fraction ->
  starts_with_digit 10 tail = false -> head tail <> Some 46 -> scan_exponent tail = (exponent, rest) ->
  scan_decimal (whole ++ point_text fraction ++ tail) =
    Some (digits_value 10 (whole ++ fraction), exponent - Z.of_nat (length fraction), rest).
Proof.
  intros Hw Hwn Hf Ht H46 He. unfold scan_decimal.
  assert (Hp : starts_with_digit 10 (point_text fraction ++ tail) = false) by (by destruct fraction).
  rewrite (scan_digits_stop whole _ 0 Hw Hp), Z.mul_0_l, Z.add_0_l. rewrite digits_value_app.
  assert (Hl : (length (whole ++ point_text fraction ++ tail) - length (point_text fraction ++ tail) =? 0)%nat = false).
  { apply Nat.eqb_neq. rewrite length_app. destruct whole; [done|]. cbn [length]. lia. }
  destruct fraction as [|c fraction].
  - cbn [point_text app] in *. replace (digits_value 10 []) with 0 by done. rewrite Z.mul_1_r, Z.add_0_r.
    assert (E : scan_fraction (digits_value 10 whole) tail = (digits_value 10 whole, O, tail)).
    { destruct tail as [|c tail]; [done|]. cbn. rewrite (proj2 (Z.eqb_neq c 46)); [done|]. by intros ->. }
    rewrite E, Nat.add_0_r, Hl, He. done.
  - cbn [point_text app scan_fraction]. rewrite Z.eqb_refl. cbn [point_text app] in Hl.
    change (c :: fraction ++ tail) with ((c :: fraction) ++ tail).
    rewrite (scan_digits_stop (c :: fraction) tail _ Hf Ht).
    assert (Hpl : (length ((c :: fraction) ++ tail) - length tail)%nat = length (c :: fraction)) by (rewrite length_app; lia).
    rewrite Hpl. guard_goal; bool_to_prop; [cbn [length] in *; lia|].
    rewrite He. do 3 f_equal; lia.
Qed.

Lemma strip_zeros_spec digits : exists k, digits = strip_zeros digits ++ replicate k 48.
Proof.
  induction digits as [|d digits [k IH]]; [by exists O|]. cbn [strip_zeros].
  destruct (strip_zeros digits) as [|d' rest] eqn:E.
  - destruct (d =? 48) eqn:Ed; bool_to_prop; [exists (S k)|exists k]; cbn in *; congruence.
  - exists k. cbn in *. congruence.
Qed.

(** The digits kept from a seventeen-digit number. *)
Lemma kept_digits n : 10 ^ 16 <= n < 10 ^ 17 ->
  let digits := strip_zeros (decimal n) in
  digits_of_ten digits /\ digits <> [] /\ (length digits <= 17)%nat
  /\ n = digits_value 10 digits * 10 ^ (17 - Z.of_nat (length digits)).
Proof.
  intros Hn digits. destruct (decimal_digits_of n) as (Hd & Hv & _); [width_lia|].
  assert (Hl : length (decimal n) = 17%nat) by (apply (length_decimal n 16); [exact Hn|lia]).
  destruct (strip_zeros_spec (decimal n)) as [k E]. fold digits in E. rewrite E in Hd, Hv, Hl.
  apply Forall_app in Hd as [Hd _]. rewrite length_app, length_replicate in Hl. rewrite digits_value_zeros in Hv.
  replace (17 - Z.of_nat (length digits)) with (Z.of_nat k) by lia. split_and!; [done| |lia|done].
  intros En. rewrite En in Hv. cbn in Hv. lia.
Qed.

(** A printed number starts with a digit and is read whole, as the number that
    was printed. *)
Lemma scan_general_text n x : 10 ^ 16 <= n < 10 ^ 17 -> is_u64 (Z.abs x) ->
  starts_with_digit 10 (general_text n x) = true /\
  exists mantissa exponent,
    scan_decimal (general_text n x) = Some (mantissa, exponent, [])
    /\ (inject_Z mantissa * 10 ^ exponent == inject_Z n * 10 ^ (x - 16))%Q.
Proof.
  intros Hn Hx. destruct (kept_digits n Hn) as (Hd & Hne & Hl & Hv). set (digits := strip_zeros (decimal n)) in *.
  enough (exists whole fraction tail exponent,
    general_text n x = whole ++ point_text fraction ++ tail /\ digits_of_ten whole /\ whole <> []
    /\ digits_of_ten fraction /\ starts_with_digit 10 tail = false /\ head tail <> Some 46
    /\ scan_exponent tail = (exponent, [])
    /\ exists zeros, digits_value 10 (whole ++ fraction) = digits_value 10 digits * 10 ^ Z.of_nat zeros
    /\ exponent - Z.of_nat (length fraction) + Z.of_nat zeros = x + 1 - Z.of_nat (length digits))
    as (whole & fraction & tail & exponent & E & Hw & Hwn & Hf & Ht & H46 & He & zeros & Hz & Hsum).
  { rewrite E. split; [destruct (starts_with_digit_ten _ Hw Hwn) as (c & r & -> & Hc); cbn; by rewrite is_digit_of_ten|].
    do 2 eexists. split; [by eapply scan_decimal_text|]. rewrite Hz, Hv at 1.
    rewrite !inject_Z_mult, !pow10_Z by lia. rewrite <- !Qmult_assoc, <- !pow10_plus. do 2 f_equiv. lia. }
  unfold general_text. fold digits. destruct ((x <? -4) || (17 <=? x)) eqn:G.
  - exists (take 1 digits), (drop 1 digits), (101 :: exponent_text x), x. rewrite take_drop.
    split_and!; try done; [by apply Forall_take|by destruct digits|by apply Forall_drop|by apply scan_exponent_text|].
    exists O. rewrite length_drop. split; [lia|]. assert (length digits <> 0%nat) by (by destruct digits). lia.
  - bool_to_prop. destruct (0 <=? x) eqn:Hx0; bool_to_prop.
    + set (w := Z.to_nat (x + 1)). exists (take w digits ++ replicate (w - length digits) 48), (drop w digits), [], 0.
      rewrite app_nil_r, <- app_assoc. split_and!; try done.
      * apply Forall_app. split; [by apply Forall_take|by apply zeros_digits].
      * destruct digits; [done|]. unfold w. by replace (Z.to_nat (x + 1)) with (S (Z.to_nat x)) by lia.
      * by apply Forall_drop.
      * exists (w - length digits)%nat. rewrite length_drop. split; [|lia].
        destruct (le_lt_dec (length digits) w) as [Hlw|Hlw].
        -- rewrite take_ge, drop_ge, app_nil_r by done. apply digits_value_zeros.
        -- replace (w - length digits)%nat with O by lia. cbn [replicate]. rewrite app_nil_r, take_drop. lia.
    + exists [48], (replicate (Z.to_nat (- x - 1)) 48 ++ digits), [], 0. rewrite app_nil_r. split_and!; try done.
      * assert (Hp : replicate (Z.to_nat (- x - 1)) 48 ++ digits <> []) by (destruct digits; [done|by destruct (Z.to_nat (- x - 1))]).
        by destruct (replicate (Z.to_nat (- x - 1)) 48 ++ digits).
      * by repeat constructor.
      * apply Forall_app. split; [by apply zeros_digits|done].
      * exists O. rewrite length_app, length_replicate. split; [|lia].
        change ([48] ++ ?l) with (replicate 1 48 ++ l). rewrite app_assoc, <- replicate_add, digits_value_app.
        change (replicate ?k 48) with ([] ++ replicate k 48). rewrite digits_value_zeros. cbn. lia.
Qed.

(** The exponents of doubles are small. *)
Lemma decimal_exponent_range negative m e n x :
  0 < m -> double_wf (DFinite negative m e) -> significant_digits (float_value m e) = (n, x) -> is_u64 (Z.abs x).
Proof.
  intros Hm Hwf E. assert (Hq : (0 < float_value m e)%Q).
  { unfold float_value. pose proof (pow2_pos e). assert (0 < inject_Z m)%Q by (change 0%Q with (inject_Z 0); by rewrite <- Zlt_Qlt). nra. }
  destruct (decimal_exponent_spec _ Hq) as [H1 H2]. set (k := decimal_exponent (float_value m e)) in *.
  assert (Hk : k < 400).
  { eapply (Qpower_lt_compat_l_inv 10); [eapply Qle_lt_trans; [exact H1|]|done].
    apply (Qlt_trans _ (2 ^ 1024)); [|by vm_compute]. unfold float_value.
    apply (Qlt_le_trans _ (2 ^ 53 * 2 ^ e)).
    - apply Qmult_lt_compat_r; [apply pow2_pos|]. rewrite <- (pow2_Z 53) by done. rewrite <- Zlt_Qlt. cbn in Hwf. lia.
    - rewrite <- pow2_plus. apply pow2_le. cbn in Hwf. lia. }
  assert (Hk' : -400 < k + 1).
  { eapply (Qpower_lt_compat_l_inv 10); [eapply Qle_lt_trans; [|exact H2]|done].
    apply (Qle_trans _ (2 ^ (-1074))); [by vm_compute|]. unfold float_value.
    apply (Qle_trans _ (1 * 2 ^ e)); [rewrite Qmult_1_l; apply pow2_le; cbn in Hwf; lia|].
    apply Qmult_le_compat_r; [|apply Qlt_le_weak, pow2_pos]. change 1%Q with (inject_Z 1). rewrite <- Zle_Qle. lia. }
  unfold significant_digits in E. fold k in E. unfold in_width. case_match; simplify_eq; lia.
Qed.

(** The text of a double reads back as the double. *)
Lemma double_text_reads d : double_wf d -> from_chars_double (double_text d) = Some (d, []).
Proof.
  intros Hwf. destruct d as [[]|[]|negative m e]; [done..|].
  assert (Hsign : forall text, starts_with_digit 10 text = true -> forall M E, scan_decimal text = Some (M, E, []) ->
    nearest_double negative (inject_Z M * 10 ^ E) = Some (DFinite negative m e) ->
    from_chars_double ((if negative then [45] else []) ++ text) = Some (DFinite negative m e, [])).
  { intros text Ht M E Hs Hnd. unfold from_chars_double. destruct negative; cbn [app].
    - by rewrite Z.eqb_refl, Hs, Hnd.
    - destruct text as [|c text]; [done|]. cbn in Ht. rewrite (proj2 (Z.eqb_neq c 45)); [by rewrite Hs, Hnd|].
      intros ->. done. }
  cbn [double_text]. destruct (m =? 0) eqn:Em; bool_to_prop.
  { subst m. assert (e = -1074) as -> by (cbn in Hwf; lia). eapply Hsign; done. }
  assert (Hm : 0 < m) by (cbn in Hwf; lia). destruct (significant_digits (float_value m e)) as [n x] eqn:Es.
  assert (Hq : (0 < float_value m e)%Q).
  { unfold float_value. pose proof (pow2_pos e). assert (0 < inject_Z m)%Q by (change 0%Q with (inject_Z 0); by rewrite <- Zlt_Qlt). nra. }
  destruct (significant_digits_spec _ _ _ Hq Es) as [Hn Herr].
  destruct (scan_general_text n x Hn (decimal_exponent_range negative m e n x Hm Hwf Es)) as (Ht & M & E & Hs & Ev).
  apply (Hsign _ Ht M E Hs). rewrite Ev. set (t := (inject_Z n * 10 ^ (x - 16))%Q) in *.
  assert (Et : (t == t / 2 ^ e * 2 ^ e)%Q) by (field; pose proof (pow2_pos e); lra). rewrite Et.
  apply nearest_double_close; [done|done|]. unfold float_value in Herr. pose proof (pow2_pos e) as Hp.
  split; [apply Qle_shift_div_l|apply Qle_shift_div_r]; try done; lra.
Qed.
