(* ===== verification/Config.v ===== *)
(** * Configuration files

    utils/config/config.hpp and config.cpp: read-only views of a parsed TOML
    document and the loader that merges the primary file with the user's
    overrides.  The file system, the TOML parser and its deep merge (tomlc17)
    are arguments; the parsed tree is the parser's [toml_datum_t].  Every size
    and string pointer of a parsed tree is valid, so the guards on negative
    lengths and null strings cannot fire and have no counterpart here. *)
From S2P Require Import Prelude Text DoubleText.
Open Scope Z_scope.

Module ConfigStatuses.
Inductive Status :=
| OK | NOT_FOUND | INVALID_ROOT | INVALID_PATH | NOT_REGULAR_FILE | IO_ERROR | PARSE_ERROR.

#[export] Instance Status_eq_dec : EqDecision Status.
Proof. solve_decision. Defined.
End ConfigStatuses.
Import ConfigStatuses.

Definition status_message (status : Status) : bytes :=
  match status with
  | OK => str "success"
  | NOT_FOUND => str "configuration was not found"
  | INVALID_ROOT => str "configuration root is not a directory"
  | INVALID_PATH => str "configuration path is invalid"
  | NOT_REGULAR_FILE => str "configuration is not a regular file"
  | IO_ERROR => str "configuration could not be read"
  | PARSE_ERROR => str "configuration is not valid TOML"
  end.

Module ValueTypes.
Inductive ValueType :=
| NONE | STRING | INTEGER | FLOAT | BOOLEAN | DATE | TIME | DATE_TIME | OFFSET_DATE_TIME | ARRAY | TABLE.

#[export] Instance ValueType_eq_dec : EqDecision ValueType.
Proof. solve_decision. Defined.
End ValueTypes.
Export ValueTypes(ValueType, ValueType_eq_dec).

Record Date := { year : Z; month : Z; day : Z }.
Record Time := { hour : Z; minute : Z; second : Z; microsecond : Z }.
Record DateTime := { date : Date; time : Time; utc_offset_minutes : option Z }.

#[export] Instance Date_eq_dec : EqDecision Date.
Proof. solve_decision. Defined.
#[export] Instance Time_eq_dec : EqDecision Time.
Proof. solve_decision. Defined.
#[export] Instance DateTime_eq_dec : EqDecision DateTime.
Proof. solve_decision. Defined.

(** ** The parsed tree *)

(** [toml_datum_t]: the position the parser recorded and the tagged union. *)
Record Origin := { source : option bytes; lineno : Z; colno : Z }.

Inductive Datum := datum (origin : Origin) (u : Content)
with Content :=
| TOML_UNKNOWN
| TOML_STRING (text : bytes)
| TOML_INT64 (int64 : Z)
| TOML_FP64 (fp64 : Double)
| TOML_BOOLEAN (boolean : bool)
| TOML_DATE (ts : Date)
| TOML_TIME (ts : Time)
| TOML_DATETIME (ts_date : Date) (ts_time : Time)
| TOML_DATETIMETZ (ts_date : Date) (ts_time : Time) (tz : Z)
| TOML_ARRAY (elem : list Datum)
| TOML_TABLE (fields : list (bytes * Datum)).

Definition content (d : Datum) : Content := let 'datum _ u := d in u.
Definition datum_origin (d : Datum) : Origin := let 'datum origin _ := d in origin.

(** ** Value: a view of one datum, [None] when missing *)

Definition Value : Type := option Datum.

Definition type (value : Value) : ValueType :=
  match content <$> value with
  | None | Some TOML_UNKNOWN => ValueTypes.NONE
  | Some (TOML_STRING _) => ValueTypes.STRING
  | Some (TOML_INT64 _) => ValueTypes.INTEGER
  | Some (TOML_FP64 _) => ValueTypes.FLOAT
  | Some (TOML_BOOLEAN _) => ValueTypes.BOOLEAN
  | Some (TOML_DATE _) => ValueTypes.DATE
  | Some (TOML_TIME _) => ValueTypes.TIME
  | Some (TOML_DATETIME _ _) => ValueTypes.DATE_TIME
  | Some (TOML_DATETIMETZ _ _ _) => ValueTypes.OFFSET_DATE_TIME
  | Some (TOML_ARRAY _) => ValueTypes.ARRAY
  | Some (TOML_TABLE _) => ValueTypes.TABLE
  end.

Record SourceLocation := { location_source : bytes; line : Z; column : Z }.

Definition location (value : Value) : SourceLocation :=
  match value with
  | None => {| location_source := []; line := 0; column := 0 |}
  | Some d =>
      {| location_source := default [] (source (datum_origin d));
         line := if lineno (datum_origin d) <? 0 then 0 else lineno (datum_origin d);
         column := if colno (datum_origin d) <? 0 then 0 else colno (datum_origin d) |}
  end.

Definition size (value : Value) : nat :=
  match content <$> value with
  | Some (TOML_ARRAY elem) => length elem
  | Some (TOML_TABLE fields) => length fields
  | _ => O
  end.

Definition at_index (value : Value) (index : nat) : Value :=
  match content <$> value with
  | Some (TOML_ARRAY elem) => elem !! index
  | _ => None
  end.

(** The first field with the key. *)
Fixpoint lookup_field (key : bytes) (fields : list (bytes * Datum)) : option Datum :=
  match fields with
  | [] => None
  | (k, d) :: rest => if bool_decide (k = key) then Some d else lookup_field key rest
  end.

Definition find_key (value : Value) (key : bytes) : Value :=
  match content <$> value with
  | Some (TOML_TABLE fields) => lookup_field key fields
  | _ => None
  end.

(** [dotted_path.find('.', offset)] in the part that starts at [offset]: the
    component before the separator and, with a separator, what follows it. *)
Fixpoint split_dot (path : bytes) : bytes * option bytes :=
  match path with
  | [] => ([], None)
  | c :: rest =>
      if c =? 46 then ([], Some rest)
      else let '(component, after) := split_dot rest in (c :: component, after)
  end.

(** The loop of [Value::find]; [path] is the text from [offset] on and [fuel]
    bounds the number of components. *)
Fixpoint find_loop (fuel : nat) (current : Value) (path : bytes) : Value :=
  match fuel with
  | O => None
  | S fuel =>
      match path with
      | [] => None
      | _ =>
          let '(component, after) := split_dot path in
          if bool_decide (component = []) then None
          else
            match find_key current component with
            | None => None
            | Some d =>
                match after with
                | None => Some d
                | Some rest => if bool_decide (rest = []) then None else find_loop fuel (Some d) rest
                end
            end
      end
  end.

Definition find (value : Value) (dotted_path : bytes) : Value :=
  if bool_decide (dotted_path = []) then None else find_loop (length dotted_path) value dotted_path.

Definition key_at (value : Value) (index : nat) : bytes :=
  match content <$> value with
  | Some (TOML_TABLE fields) => default [] (fst <$> fields !! index)
  | _ => []
  end.

Definition value_at (value : Value) (index : nat) : Value :=
  match content <$> value with
  | Some (TOML_TABLE fields) => snd <$> fields !! index
  | _ => None
  end.

Definition as_string (value : Value) : option bytes :=
  match content <$> value with Some (TOML_STRING text) => Some text | _ => None end.

Definition as_integer (value : Value) : option Z :=
  match content <$> value with Some (TOML_INT64 int64) => Some int64 | _ => None end.

Definition as_float (value : Value) : option Double :=
  match content <$> value with Some (TOML_FP64 fp64) => Some fp64 | _ => None end.

Definition as_boolean (value : Value) : option bool :=
  match content <$> value with Some (TOML_BOOLEAN boolean) => Some boolean | _ => None end.

Definition as_date (value : Value) : option Date :=
  match content <$> value with Some (TOML_DATE ts) => Some ts | _ => None end.

Definition as_time (value : Value) : option Time :=
  match content <$> value with Some (TOML_TIME ts) => Some ts | _ => None end.

Definition as_date_time (value : Value) : option DateTime :=
  match content <$> value with
  | Some (TOML_DATETIME d t) => Some {| date := d; time := t; utc_offset_minutes := None |}
  | Some (TOML_DATETIMETZ d t tz) => Some {| date := d; time := t; utc_offset_minutes := Some tz |}
  | _ => None
  end.

(** ** Document: the root of a parse result, [None] when empty *)

Definition Document : Type := option Datum.

Definition root (document : Document) : Value := document.
Definition document_find (document : Document) (dotted_path : bytes) : Value := find (root document) dotted_path.
Definition document_find_key (document : Document) (key : bytes) : Value := find_key (root document) key.

(** ** Paths: [std::filesystem::path] on POSIX *)

Definition is_absolute (path : bytes) : bool := match path with c :: _ => c =? 47 | [] => false end.

(** The names between slashes. *)
Fixpoint split_slash (path : bytes) : list bytes :=
  match path with
  | [] => [[]]
  | c :: rest =>
      if c =? 47 then [] :: split_slash rest
      else match split_slash rest with
           | name :: names => (c :: name) :: names
           | [] => [[c]]
           end
  end.

Definition ends_with_slash (path : bytes) : bool := bool_decide (List.last path 0 = 47).

Definition names (path : bytes) : list bytes := filter (fun name => name <> []) (split_slash path).

(** The components a relative path iterates over: its names, and an empty one
    after a trailing slash. *)
Definition components (path : bytes) : list bytes :=
  names path ++ (if ends_with_slash path then [[]] else []).

(** [operator==] of paths: both absolute or both relative, with the same
    components, however the slashes between them are repeated. *)
Definition same_path (left right : bytes) : bool :=
  bool_decide (is_absolute left = is_absolute right) && bool_decide (components left = components right).

(** [root / relative] *)
Definition append_path (root relative : bytes) : bytes :=
  if is_absolute relative then relative
  else if bool_decide (root = []) || ends_with_slash root then root ++ relative
  else root ++ [47] ++ relative.

(** The stack of [lexically_normal]: names in reverse order and whether the
    last step removed a name, which leaves a directory. *)
Definition normal_step (absolute : bool) (stack : list bytes * bool) (name : bytes) : list bytes * bool :=
  if bool_decide (name = [46]) then (stack.1, true)
  else if bool_decide (name = [46; 46]) then
    match stack.1 with
    | top :: rest => if bool_decide (top = [46; 46]) then (name :: stack.1, false) else (rest, true)
    | [] => if absolute then ([], true) else ([name], false)
    end
  else (name :: stack.1, false).

Fixpoint join_slash (l : list bytes) : bytes :=
  match l with
  | [] => []
  | [name] => name
  | name :: rest => name ++ 47 :: join_slash rest
  end.

Definition lexically_normal (path : bytes) : bytes :=
  if bool_decide (path = []) then []
  else
    let absolute := is_absolute path in
    let '(stack, directory) := fold_left (normal_step absolute) (names path) ([], false) in
    let slash := directory || ends_with_slash path in
    match stack with
    | [] => if absolute then [47] else [46]
    | top :: _ =>
        (if absolute then [47] else []) ++ join_slash (reverse stack) ++
        (if slash && negb (bool_decide (top = [46; 46])) then [47] else [])
    end.

Definition valid_relative_path (path : bytes) : bool :=
  if bool_decide (path = []) || is_absolute path then false
  else forallb (fun component =>
         negb (bool_decide (component = []) || bool_decide (component = [46]) || bool_decide (component = [46; 46])))
         (components path).

(** ** Loading *)

Inductive FileType := REGULAR | DIRECTORY | OTHER_FILE | FILE_NOT_FOUND | FILE_TYPE_NONE.
Inductive Errc := NO_SUCH_FILE_OR_DIRECTORY | OTHER_ERROR.

#[export] Instance FileType_eq_dec : EqDecision FileType.
Proof. solve_decision. Defined.
#[export] Instance Errc_eq_dec : EqDecision Errc.
Proof. solve_decision. Defined.

(** The operations of the file system the loader uses: [std::filesystem::status]
    with its [error_code], [std::fopen] and whether [std::fclose] succeeds. *)
Record FileSystem {File : Type} := {
  file_status : bytes -> FileType * option Errc;
  fopen : bytes -> option File;
  fclose : File -> bool
}.
Arguments FileSystem : clear implicits.

(** tomlc17: parsing an open file under a source name, parsing text, and the
    deep merge of two results; [None] for a result that is not [ok]. *)
Record TomlParser {File : Type} := {
  toml_parse_file_named : File -> bytes -> option Datum;
  toml_parse_named : bytes -> bytes -> option Datum;
  toml_merge : Datum -> Datum -> option Datum
}.
Arguments TomlParser : clear implicits.

(** [c_str()]: what a C function reads of a string. *)
Fixpoint c_str (text : bytes) : bytes :=
  match text with
  | [] => []
  | c :: rest => if c =? 0 then [] else c :: c_str rest
  end.

(** A [ParsedResult] is the storage, or the status of the failure. *)
Definition ParsedResult : Type := result Status Datum.

Definition own_result (parsed : option Datum) : ParsedResult :=
  match parsed with
  | Some storage => Ok storage
  | None => Err PARSE_ERROR
  end.

Section Loader.
Context {File : Type} (toml : TomlParser File) (disk : FileSystem File).

Definition load_one (root relative_path : bytes) : ParsedResult :=
  match file_status disk root with
  | (_, Some error) =>
      if bool_decide (error = NO_SUCH_FILE_OR_DIRECTORY) then Err NOT_FOUND else Err INVALID_ROOT
  | (root_type, None) =>
      if negb (bool_decide (root_type = DIRECTORY)) then Err INVALID_ROOT
      else
        let candidate := append_path root relative_path in
        match file_status disk candidate with
        | (_, Some error) =>
            if bool_decide (error = NO_SUCH_FILE_OR_DIRECTORY) then Err NOT_FOUND else Err IO_ERROR
        | (candidate_type, None) =>
            if bool_decide (candidate_type = FILE_NOT_FOUND) || bool_decide (candidate_type = FILE_TYPE_NONE)
            then Err NOT_FOUND
            else if negb (bool_decide (candidate_type = REGULAR)) then Err NOT_REGULAR_FILE
            else
              match fopen disk (c_str candidate) with
              | None => Err IO_ERROR
              | Some file =>
                  let parsed := toml_parse_file_named toml file (c_str candidate) in
                  if fclose disk file then own_result parsed else Err IO_ERROR
              end
        end
  end.
End Loader.

Record Config := { primary_root : bytes; user_overrides_root : bytes }.

Definition new_config (primary user : bytes) : Config :=
  {| primary_root := lexically_normal primary; user_overrides_root := lexically_normal user |}.

Definition parsed_status (parsed : ParsedResult) : Status :=
  match parsed with Ok _ => OK | Err status => status end.

(** Neither parsed nor absent. *)
Definition load_failed (parsed : ParsedResult) : bool :=
  negb (bool_decide (parsed_status parsed = OK)) && negb (bool_decide (parsed_status parsed = NOT_FOUND)).

(** A [LoadResult]: the document, or the status of the failure. *)
Definition load {File : Type} (toml : TomlParser File) (disk : FileSystem File) (config : Config)
    (relative_path : bytes) : result Status Document :=
  if negb (valid_relative_path relative_path) then Err INVALID_PATH
  else
    let primary := load_one toml disk (primary_root config) relative_path in
    if load_failed primary then Err (parsed_status primary)
    else
      let user_override := load_one toml disk (user_overrides_root config) relative_path in
      if load_failed user_override then Err (parsed_status user_override)
      else
        match primary, user_override with
        | Err _, Err _ => Err NOT_FOUND
        | Err _, Ok storage => Ok (Some storage)
        | Ok storage, Err _ => Ok (Some storage)
        | Ok storage, Ok override =>
            do merged <- own_result (toml_merge toml storage override); Ok (Some merged)
        end.

Definition int_max : Z := 2 ^ 31 - 1.

Definition parse {File : Type} (toml : TomlParser File) (text source_name : bytes) : result Status Document :=
  if int_max <? Z.of_nat (length text) then Err PARSE_ERROR
  else do storage <- own_result (toml_parse_named toml text (c_str source_name)); Ok (Some storage).

(** ** Lookup *)

(** The components of a dotted path. *)
Fixpoint split_dots (path : bytes) : list bytes :=
  match path with
  | [] => [[]]
  | c :: rest =>
      if c =? 46 then [] :: split_dots rest
      else match split_dots rest with
           | name :: names => (c :: name) :: names
           | [] => [[c]]
           end
  end.

Lemma split_dots_nonempty path : split_dots path <> [].
Proof. destruct path as [|c path]; [done|]. cbn. destruct (c =? 46); [done|]. by destruct (split_dots path). Qed.

Lemma split_dot_dots path :
  split_dots path = (split_dot path).1 ::
    (match (split_dot path).2 with None => [] | Some rest => split_dots rest end).
Proof.
  induction path as [|c path IH]; [done|]. cbn [split_dots split_dot]. destruct (c =? 46); [done|].
  destruct (split_dot path) as [component after]. cbn in *. by rewrite IH.
Qed.

Lemma split_dot_shorter path component rest :
  split_dot path = (component, Some rest) -> length path = S (length component + length rest).
Proof.
  revert component. induction path as [|c path IH]; intros component E; [done|]. cbn in E.
  destruct (c =? 46); [by simplify_eq|]. destruct (split_dot path) as [k after] eqn:Es. simplify_eq. cbn. by rewrite (IH k).
Qed.

(** [find] is a fold of [find_key] over the components, all non-empty. *)
Definition find_components (value : Value) (path : list bytes) : Value :=
  fold_left (fun current component => if bool_decide (component = []) then None else find_key current component) path value.

Lemma find_key_missing key : find_key None key = None.
Proof. done. Qed.

Lemma find_components_missing path : find_components None path = None.
Proof. induction path as [|c path IH]; [done|]. cbn. by case_bool_decide. Qed.

Lemma find_components_cons value component path :
  find_components value (component :: path) =
  find_components (if bool_decide (component = []) then None else find_key value component) path.
Proof. done. Qed.

Lemma find_loop_components fuel current path :
  (length path <= fuel)%nat -> path <> [] -> find_loop fuel current path = find_components current (split_dots path).
Proof.
  revert current path. induction fuel as [|fuel IH]; intros current path Hf Hp; [destruct path; [done|cbn in Hf; lia]|].
  cbn [find_loop]. replace (match path with [] => None | _ => _ end) with (let '(component, after) := split_dot path in
    if bool_decide (component = []) then None
    else match find_key current component with
         | None => None
         | Some d => match after with None => Some d
           | Some rest => if bool_decide (rest = []) then None else find_loop fuel (Some d) rest end end) by (by destruct path).
  rewrite split_dot_dots. destruct (split_dot path) as [component after] eqn:Es. cbn [fst snd]. rewrite find_components_cons.
  case_bool_decide as Hc; [by rewrite find_components_missing|].
  destruct (find_key current component) as [d|]; [|by rewrite find_components_missing].
  destruct after as [rest|]; [|done]. case_bool_decide as Hr.
  - subst. done.
  - apply IH; [|done]. apply split_dot_shorter in Es. lia.
Qed.

Lemma find_is_components value path : find value path = find_components value (split_dots path).
Proof.
  unfold find. case_bool_decide as Hp; [by subst|]. by apply find_loop_components.
Qed.

(** ** Loading *)

(** A failed load has a status. *)
Lemma load_not_ok {File : Type} (toml : TomlParser File) disk config path : load toml disk config path <> Err OK.
Proof.
  unfold load. destruct (valid_relative_path path); cbn; [|done].
  destruct (load_one toml disk (primary_root config) path) as [p|s1], (load_one toml disk (user_overrides_root config) path) as [o|s2];
    unfold load_failed; cbn; repeat case_bool_decide; cbn; try congruence.
  destruct (toml_merge toml p o); done.
Qed.

(** The file that a successful load of one root parsed is a regular file below
    the root. *)
Lemma load_one_ok {File : Type} (toml : TomlParser File) disk root path storage :
  load_one toml disk root path = Ok storage ->
  exists file, file_status disk root = (DIRECTORY, None)
    /\ file_status disk (append_path root path) = (REGULAR, None)
    /\ fopen disk (c_str (append_path root path)) = Some file /\ fclose disk file = true
    /\ toml_parse_file_named toml file (c_str (append_path root path)) = Some storage.
Proof.
  unfold load_one. destruct (file_status disk root) as [t [e|]]; [by case_bool_decide|].
  case_bool_decide as Ht; cbn; [|done]. destruct (file_status disk (append_path root path)) as [t' [e|]]; [by case_bool_decide|].
  case_bool_decide; [done|]. case_bool_decide; [done|]. cbn. case_bool_decide as Hr; cbn; [|done].
  destruct (fopen disk _) as [file|]; [|done]. destruct (fclose disk file) eqn:Ec; [|done].
  destruct (toml_parse_file_named toml file _) as [d|] eqn:Ep; cbn; [|done]. intros [= <-]. exists file. by subst.
Qed.
