(* ===== verification/Views.v ===== *)
(** * Views of immutable documents

    The public value and document views of properties/properties.cpp: a shared
    handle on a configuration value or document, or nothing; every operation
    forwards to the configuration value and translates its type. *)
From S2P Require Import Prelude Text DoubleText Config.
Open Scope Z_scope.

Module PropertyTypes.
Inductive ValueType :=
| NONE | STRING | INTEGER | FLOAT | BOOLEAN | DATE | TIME | DATE_TIME | OFFSET_DATE_TIME | ARRAY | TABLE.

#[export] Instance PropertyType_eq_dec : EqDecision ValueType.
Proof. solve_decision. Defined.
End PropertyTypes.
Export PropertyTypes(PropertyType_eq_dec).

Definition value_type (type : Config.ValueTypes.ValueType) : PropertyTypes.ValueType :=
  match type with
  | ValueTypes.NONE => PropertyTypes.NONE
  | ValueTypes.STRING => PropertyTypes.STRING
  | ValueTypes.INTEGER => PropertyTypes.INTEGER
  | ValueTypes.FLOAT => PropertyTypes.FLOAT
  | ValueTypes.BOOLEAN => PropertyTypes.BOOLEAN
  | ValueTypes.DATE => PropertyTypes.DATE
  | ValueTypes.TIME => PropertyTypes.TIME
  | ValueTypes.DATE_TIME => PropertyTypes.DATE_TIME
  | ValueTypes.OFFSET_DATE_TIME => PropertyTypes.OFFSET_DATE_TIME
  | ValueTypes.ARRAY => PropertyTypes.ARRAY
  | ValueTypes.TABLE => PropertyTypes.TABLE
  end.

(** ** Values *)

(** A view holds a handle on a configuration value, or nothing. *)
Definition Value : Type := option Config.Value.

Definition exists_value (value : Value) : bool :=
  match value with Some handle => bool_decide (is_Some handle) | None => false end.

Definition type (value : Value) : PropertyTypes.ValueType :=
  match value with Some handle => value_type (Config.type handle) | None => PropertyTypes.NONE end.

Definition location (value : Value) : SourceLocation :=
  match value with
  | Some handle => Config.location handle
  | None => {| location_source := []; line := 0; column := 0 |}
  end.

Definition size (value : Value) : nat :=
  match value with Some handle => Config.size handle | None => O end.

Definition at_index (value : Value) (index : nat) : Value := (fun handle => Config.at_index handle index) <$> value.
Definition find (value : Value) (dotted_path : bytes) : Value := (fun handle => Config.find handle dotted_path) <$> value.
Definition find_key (value : Value) (key : bytes) : Value := (fun handle => Config.find_key handle key) <$> value.

Definition key_at (value : Value) (index : nat) : bytes :=
  match value with Some handle => Config.key_at handle index | None => [] end.

Definition value_at (value : Value) (index : nat) : Value := (fun handle => Config.value_at handle index) <$> value.

Definition as_string (value : Value) : option bytes := handle ← value; Config.as_string handle.
Definition as_integer (value : Value) : option Z := handle ← value; Config.as_integer handle.
Definition as_float (value : Value) : option Double := handle ← value; Config.as_float handle.
Definition as_boolean (value : Value) : option bool := handle ← value; Config.as_boolean handle.
Definition as_date (value : Value) : option Date := handle ← value; Config.as_date handle.
Definition as_time (value : Value) : option Time := handle ← value; Config.as_time handle.
Definition as_date_time (value : Value) : option DateTime := handle ← value; Config.as_date_time handle.

(** A document handle, or nothing. *)
Definition Document : Type := option Config.Document.

Definition exists_document (document : Document) : bool :=
  match document with Some handle => bool_decide (is_Some handle) | None => false end.

Definition root (document : Document) : Value := Config.root <$> document.
Definition document_find (document : Document) (dotted_path : bytes) : Value :=
  (fun handle => Config.document_find handle dotted_path) <$> document.
Definition document_find_key (document : Document) (key : bytes) : Value :=
  (fun handle => Config.document_find_key handle key) <$> document.

