(* ===== verification/Properties.v ===== *)
(** * Typed properties

    properties/properties.hpp and properties.cpp: immutable TOML documents and
    user-mutable scalar properties behind one directory of dotted names.  This
    file holds the scalar values with their text, the collection of scalars
    from a document, and the operations of the service.  Each part of an
    operation that runs under one lock is one definition, so that other
    operations can run between the two locks of a load. *)
From S2P Require Import Prelude Text Charconv DoubleText StringMap Views Config.
Open Scope Z_scope.

Module PropertyStatuses.
Inductive Status :=
| OK | NOT_FOUND | INVALID_ROOT | INVALID_PATH | NOT_REGULAR_FILE | IO_ERROR | PARSE_ERROR
| DUPLICATE_SOURCE | DUPLICATE_PROPERTY | IMMUTABLE_PROPERTY | UNSUPPORTED_VALUE | TYPE_MISMATCH | INVALID_VALUE.

#[export] Instance Status_eq_dec : EqDecision Status.
Proof. solve_decision. Defined.
End PropertyStatuses.
Export PropertyStatuses.

Definition is_ok (status : Status) : bool := bool_decide (status = OK).

Definition status_message (status : Status) : bytes :=
  match status with
  | OK => str "success"
  | NOT_FOUND => str "property or source was not found"
  | INVALID_ROOT => str "properties root is not a directory"
  | INVALID_PATH => str "property or source path is invalid"
  | NOT_REGULAR_FILE => str "properties source is not a regular file"
  | IO_ERROR => str "properties source could not be read"
  | PARSE_ERROR => str "properties source is not valid TOML"
  | DUPLICATE_SOURCE => str "properties source name is already registered"
  | DUPLICATE_PROPERTY => str "property path is exposed by more than one source"
  | IMMUTABLE_PROPERTY => str "property is immutable"
  | UNSUPPORTED_VALUE => str "mutable property default is not a supported scalar"
  | TYPE_MISMATCH => str "property value has the wrong type"
  | INVALID_VALUE => str "property value text is invalid"
  end.

(** ** Translations *)

Definition properties_status (status : ConfigStatuses.Status) : Status :=
  match status with
  | ConfigStatuses.OK => OK
  | ConfigStatuses.NOT_FOUND => NOT_FOUND
  | ConfigStatuses.INVALID_ROOT => INVALID_ROOT
  | ConfigStatuses.INVALID_PATH => INVALID_PATH
  | ConfigStatuses.NOT_REGULAR_FILE => NOT_REGULAR_FILE
  | ConfigStatuses.IO_ERROR => IO_ERROR
  | ConfigStatuses.PARSE_ERROR => PARSE_ERROR
  end.

Definition is_source_byte (byte : Z) : bool :=
  ((97 <=? byte) && (byte <=? 122)) || ((65 <=? byte) && (byte <=? 90)) || ((48 <=? byte) && (byte <=? 57))
  || (byte =? 95) || (byte =? 45) || (byte =? 46).

Fixpoint source_bytes_ok (previous_dot : bool) (name : bytes) : bool :=
  match name with
  | [] => true
  | byte :: rest =>
      if negb (is_source_byte byte) || ((byte =? 46) && previous_dot) then false
      else source_bytes_ok (byte =? 46) rest
  end.

Definition valid_source_name (name : bytes) : bool :=
  match name with
  | [] => false
  | front :: _ => if (front =? 46) || (List.last name 0 =? 46) then false else source_bytes_ok false name
  end.

Definition qualified_name (source local : bytes) : bytes :=
  if bool_decide (local = []) then source else source ++ [46] ++ local.

(** ** Scalars *)

(** [Scalar], a variant; the constructors are its alternatives in order. *)
Inductive Scalar :=
| SString (text : bytes)
| SInteger (value : Z)
| SDouble (value : Double)
| SBool (value : bool)
| SDate (value : Date)
| STime (value : Time)
| SDateTime (value : DateTime).

#[export] Instance Scalar_eq_dec : EqDecision Scalar.
Proof. solve_decision. Defined.

(** [std::variant::index()] *)
Definition scalar_index (scalar : Scalar) : nat :=
  match scalar with
  | SString _ => 0 | SInteger _ => 1 | SDouble _ => 2 | SBool _ => 3 | SDate _ => 4 | STime _ => 5 | SDateTime _ => 6
  end%nat.

Definition same_type (a b : Scalar) : bool := (scalar_index a =? scalar_index b)%nat.

Definition scalar_type (scalar : Scalar) : PropertyTypes.ValueType :=
  match scalar with
  | SString _ => PropertyTypes.STRING
  | SInteger _ => PropertyTypes.INTEGER
  | SDouble _ => PropertyTypes.FLOAT
  | SBool _ => PropertyTypes.BOOLEAN
  | SDate _ => PropertyTypes.DATE
  | STime _ => PropertyTypes.TIME
  | SDateTime d =>
      match utc_offset_minutes d with Some _ => PropertyTypes.OFFSET_DATE_TIME | None => PropertyTypes.DATE_TIME end
  end.

Definition scalar_value (value : Config.Value) : option Scalar :=
  match Config.type value with
  | ValueTypes.STRING => SString <$> as_string value
  | ValueTypes.INTEGER => SInteger <$> as_integer value
  | ValueTypes.FLOAT => SDouble <$> as_float value
  | ValueTypes.BOOLEAN => SBool <$> as_boolean value
  | ValueTypes.DATE => SDate <$> as_date value
  | ValueTypes.TIME => STime <$> as_time value
  | ValueTypes.DATE_TIME | ValueTypes.OFFSET_DATE_TIME => SDateTime <$> as_date_time value
  | ValueTypes.NONE | ValueTypes.ARRAY | ValueTypes.TABLE => None
  end.

(** [collect_scalars] on an existing datum.  The recursion of the code over
    [value_at(index)] and [at(index)] visits the fields and elements in order. *)
Fixpoint collect_datum (d : Datum) (path : bytes) (mutable_source : bool) (output : gmap bytes Scalar)
    : result Status (gmap bytes Scalar) :=
  match d with
  | datum _ (TOML_TABLE fields) =>
      (fix each_field (fields : list (bytes * Datum)) (output : gmap bytes Scalar) :=
         match fields with
         | [] => Ok output
         | (key, value) :: rest =>
             let child := (if bool_decide (path = []) then [] else path ++ [46]) ++ key in
             do output <- collect_datum value child mutable_source output;
             each_field rest output
         end) fields output
  | datum _ (TOML_ARRAY elements) =>
      if mutable_source then Err UNSUPPORTED_VALUE
      else
        (fix each_element (index : Z) (elements : list Datum) (output : gmap bytes Scalar) :=
           match elements with
           | [] => Ok output
           | value :: rest =>
               let child := path ++ [91] ++ decimal index ++ [93] in
               do output <- collect_datum value child false output;
               each_element (index + 1) rest output
           end) 0 elements output
  | _ =>
      match scalar_value (Some d) with
      | None => Err UNSUPPORTED_VALUE
      | Some scalar =>
          if bool_decide (path = []) then Err UNSUPPORTED_VALUE
          else
            match emplace output path scalar with
            | None => Err DUPLICATE_PROPERTY
            | Some output => Ok output
            end
      end
  end.

Definition collect_scalars (value : Config.Value) (path : bytes) (mutable_source : bool)
    (output : gmap bytes Scalar) : result Status (gmap bytes Scalar) :=
  match value with
  | None => Err UNSUPPORTED_VALUE
  | Some d => collect_datum d path mutable_source output
  end.

(** ** Text *)

Definition quoted_string (value : bytes) : bytes :=
  [34] ++ flat_map (fun byte =>
    if byte =? 92 then [92; 92]
    else if byte =? 34 then [92; 34]
    else if byte =? 10 then [92; 110]
    else if byte =? 13 then [92; 114]
    else if byte =? 9 then [92; 116]
    else [byte]) value ++ [34].

(** [output << std::setw(width) << std::setfill('0') << value] *)
Definition padded (width : nat) (value : Z) : bytes :=
  replicate (width - length (signed_text value)) 48 ++ signed_text value.

Definition append_two_digits (output : bytes) (value : Z) : bytes := output ++ padded 2 value.

Definition date_text (d : Date) : bytes :=
  append_two_digits (append_two_digits (padded 4 (year d) ++ [45]) (month d) ++ [45]) (day d).

Definition time_text (t : Time) : bytes :=
  let output := append_two_digits (append_two_digits (append_two_digits [] (hour t) ++ [58]) (minute t) ++ [58]) (second t) in
  if microsecond t =? 0 then output else output ++ [46] ++ padded 6 (microsecond t).

Definition scalar_text (scalar : Scalar) : bytes :=
  match scalar with
  | SString text => quoted_string text
  | SInteger value => signed_text value
  | SDouble value => double_text value
  | SBool value => if value then str "true" else str "false"
  | SDate d => date_text d
  | STime t => time_text t
  | SDateTime d =>
      date_text (date d) ++ [84] ++ time_text (time d) ++
      match utc_offset_minutes d with
      | None => []
      | Some minutes =>
          if minutes =? 0 then [90]
          else
            let absolute := if minutes <? 0 then - minutes else minutes in
            append_two_digits
              (append_two_digits [if minutes <? 0 then 45 else 43] (absolute / 60) ++ [58]) (absolute mod 60)
      end
  end.

(** ** Parsing *)

(** The base a prefix at the offset of the digits selects. *)
Definition prefix_base (digits : bytes) : Z :=
  match digits with
  | zero :: letter :: _ =>
      if zero =? 48 then
        if (letter =? 120) || (letter =? 88) then 16
        else if (letter =? 111) || (letter =? 79) then 8
        else if (letter =? 98) || (letter =? 66) then 2
        else 10
      else 10
  | _ => 10
  end.

Definition parse_integer (text : bytes) : option Z :=
  match text with
  | [] => None
  | front :: rest =>
      let negative := front =? 45 in
      let digits := if (front =? 43) || (front =? 45) then rest else text in
      let base := prefix_base digits in
      if negb (base =? 10) then
        let body := drop 2 digits in
        if bool_decide (body = []) then None
        else
          match from_chars_unsigned base body with
          | Some (magnitude, []) =>
              let limit := if negative then 2 ^ 63 else int64_max in
              if limit <? magnitude then None
              else if negative then Some (if magnitude =? 2 ^ 63 then int64_min else - magnitude)
              else Some magnitude
          | _ => None
          end
      else
        match from_chars_signed 10 text with
        | Some (value, []) => Some value
        | _ => None
        end
  end.

Definition parse_float (text : bytes) : option Double :=
  match text with
  | [] => None
  | _ =>
      match from_chars_double text with
      | Some (value, []) => Some value
      | _ => None
      end
  end.

(** ** The service *)

Inductive Mutability := IMMUTABLE | USER_MUTABLE.

#[export] Instance Mutability_eq_dec : EqDecision Mutability.
Proof. solve_decision. Defined.

Record Property := { name : bytes; value : Scalar; mutability : Mutability; user_modified : bool }.

Record LoadResult := { status : Status; document : Views.Document }.

Record Source := {
  source_name : bytes;
  relative_path : bytes;
  source_mutability : Mutability;
  source_document : Views.Document;
  values : gmap bytes Scalar;
  modified_names : gset bytes
}.

Record IndexedProperty := { property : Property; property_source : bytes; local_name : bytes }.

Record Impl := {
  config_ : Config;
  sources_ : gmap bytes Source;
  properties_ : gmap bytes IndexedProperty
}.

(** The working directory is [current], if it can be read. *)
Definition normalize_roots (current : option bytes) (primary user : bytes) : bytes * bytes :=
  let primary := if bool_decide (primary = []) then default [46] current else primary in
  let user := if bool_decide (user = []) then append_path primary (str ".puc-no-user-overrides") else user in
  (primary, user).

Definition new_properties (current : option bytes) (primary user : bytes) : Impl :=
  let '(primary, user) := normalize_roots current primary user in
  {| config_ := new_config primary user; sources_ := ∅; properties_ := ∅ |}.

(** The entry one scalar contributes to the directory. *)
Definition indexed (source_name : bytes) (source : Source) (local : bytes) (v : Scalar) : IndexedProperty :=
  {| property :=
       {| name := qualified_name source_name local; value := v; mutability := source_mutability source;
          user_modified := bool_decide (local ∈ modified_names source) |};
     property_source := source_name; local_name := local |}.

Definition index_value (source_name : bytes) (source : Source) (entry : bytes * Scalar)
    (output : gmap bytes IndexedProperty) : Status + gmap bytes IndexedProperty :=
  let '(local, v) := entry in
  match emplace output (qualified_name source_name local) (indexed source_name source local v) with
  | None => inl DUPLICATE_PROPERTY
  | Some output => inr output
  end.

Definition index_source (entry : bytes * Source) (output : gmap bytes IndexedProperty)
    : Status + gmap bytes IndexedProperty :=
  let '(source_name, source) := entry in
  foreach (index_value source_name source) (entries (values source)) output.

Definition build_index (sources : gmap bytes Source) : result Status (gmap bytes IndexedProperty) :=
  match foreach index_source (entries sources) ∅ with
  | inl status => Err status
  | inr output => Ok output
  end.

Section Operations.
Context {File : Type} (toml : TomlParser File).

Definition read_source (config : Config) (disk : FileSystem File) (name path : bytes) (mutability : Mutability)
    : result Status Source :=
  match Config.load toml disk config path with
  | Err status => Err (properties_status status)
  | Ok loaded =>
      do values <- collect_scalars (Config.root loaded) [] (bool_decide (mutability = USER_MUTABLE)) ∅;
      Ok {| source_name := name; relative_path := path; source_mutability := mutability;
            source_document := Some loaded; values := values; modified_names := ∅ |}
  end.

Definition failure (status : Status) : LoadResult := {| status := status; document := None |}.

(** A registered source against the one a caller asks for. *)
Definition existing_immutable (existing : Source) (path : bytes) : LoadResult :=
  if negb (bool_decide (source_mutability existing = IMMUTABLE)) || negb (same_path (relative_path existing) path)
  then failure DUPLICATE_SOURCE
  else {| status := OK; document := source_document existing |}.

Definition existing_mutable (existing : Source) (path : bytes) : Status :=
  if bool_decide (source_mutability existing = USER_MUTABLE) && same_path (relative_path existing) path
  then OK else DUPLICATE_SOURCE.

(** The insertion both loads end with. *)
Definition register (impl : Impl) (name : bytes) (source : Source) : result Status Impl :=
  let candidate_sources := <[name := source]> (sources_ impl) in
  do candidate_properties <- build_index candidate_sources;
  Ok {| config_ := config_ impl; sources_ := candidate_sources; properties_ := candidate_properties |}.

(** [load_immutable] under its second, exclusive lock. *)
Definition commit_immutable (impl : Impl) (name path : bytes) (source : Source) : Impl * LoadResult :=
  match sources_ impl !! name with
  | Some existing => (impl, existing_immutable existing path)
  | None =>
      match register impl name source with
      | Err status => (impl, failure status)
      | Ok impl => (impl, {| status := OK; document := source_document source |})
      end
  end.

(** [load_immutable] up to the reading of the file: an early result, or the
    source to commit. *)
Definition begin_immutable (impl : Impl) (disk : FileSystem File) (name path : bytes) : LoadResult + Source :=
  if negb (valid_source_name name) then inl (failure INVALID_PATH)
  else
    match sources_ impl !! name with
    | Some existing => inl (existing_immutable existing path)
    | None =>
        match read_source (config_ impl) disk name path IMMUTABLE with
        | Err status => inl (failure status)
        | Ok source => inr source
        end
    end.

Definition load_immutable (impl : Impl) (disk : FileSystem File) (name path : bytes) : Impl * LoadResult :=
  match begin_immutable impl disk name path with
  | inl result => (impl, result)
  | inr source => commit_immutable impl name path source
  end.

Definition commit_mutable (impl : Impl) (name path : bytes) (source : Source) : Impl * Status :=
  match sources_ impl !! name with
  | Some existing => (impl, existing_mutable existing path)
  | None =>
      match register impl name source with
      | Err status => (impl, status)
      | Ok impl => (impl, OK)
      end
  end.

Definition begin_mutable (impl : Impl) (disk : FileSystem File) (name path : bytes) : Status + Source :=
  if negb (valid_source_name name) then inl INVALID_PATH
  else
    match sources_ impl !! name with
    | Some existing => inl (existing_mutable existing path)
    | None =>
        match read_source (config_ impl) disk name path USER_MUTABLE with
        | Err status => inl status
        | Ok source => inr source
        end
    end.

Definition load_mutable_defaults (impl : Impl) (disk : FileSystem File) (name path : bytes) : Impl * Status :=
  match begin_mutable impl disk name path with
  | inl status => (impl, status)
  | inr source => commit_mutable impl name path source
  end.

Definition document_of (impl : Impl) (name : bytes) : LoadResult :=
  match sources_ impl !! name with
  | None => failure NOT_FOUND
  | Some source =>
      if negb (bool_decide (source_mutability source = IMMUTABLE)) then failure NOT_FOUND
      else {| status := OK; document := source_document source |}
  end.

Definition get (impl : Impl) (name : bytes) : result Status Property :=
  match properties_ impl !! name with
  | None => Err NOT_FOUND
  | Some entry => Ok (property entry)
  end.

Definition list_properties (impl : Impl) (prefix : bytes) : list Property :=
  map (fun entry => property entry.2) (take_prefix prefix (lower_bound (properties_ impl) prefix)).

(** The visitor of [set]: the new scalar, of the alternative of the old one. *)
Definition parse_as (scalar : Scalar) (text : bytes) : option Scalar :=
  match scalar with
  | SString _ => Some (SString text)
  | SInteger _ => SInteger <$> parse_integer text
  | SDouble _ => SDouble <$> parse_float text
  | SBool _ =>
      if bool_decide (text = str "true") then Some (SBool true)
      else if bool_decide (text = str "false") then Some (SBool false)
      else None
  | SDate _ | STime _ | SDateTime _ => None
  end.

Definition set_value (source : Source) (local : bytes) (next : Scalar) : Source :=
  {| source_name := source_name source; relative_path := relative_path source;
     source_mutability := source_mutability source; source_document := source_document source;
     values := <[local := next]> (values source); modified_names := modified_names source ∪ {[local]} |}.

Definition set_indexed (entry : IndexedProperty) (next : Scalar) : IndexedProperty :=
  {| property :=
       {| name := name (property entry); value := next; mutability := mutability (property entry); user_modified := true |};
     property_source := property_source entry; local_name := local_name entry |}.

(** [None] when [sources_.at] throws, which no reachable state does. *)
Definition set (impl : Impl) (name text : bytes) : option (Impl * Status) :=
  match properties_ impl !! name with
  | None => Some (impl, NOT_FOUND)
  | Some entry =>
      if negb (bool_decide (mutability (property entry) = USER_MUTABLE)) then Some (impl, IMMUTABLE_PROPERTY)
      else
        match parse_as (value (property entry)) text with
        | None => Some (impl, INVALID_VALUE)
        | Some next =>
            source ← sources_ impl !! property_source entry;
            Some ({| config_ := config_ impl;
                     sources_ := <[property_source entry := set_value source (local_name entry) next]> (sources_ impl);
                     properties_ := <[name := set_indexed entry next]> (properties_ impl) |}, OK)
        end
  end.

(** The carry-over of one user-modified value onto the freshly read source. *)
Definition keep_modified (source : Source) (local : bytes) (candidate : Source) : Source :=
  match values source !! local, values candidate !! local with
  | Some previous, Some current =>
      if same_type previous current then set_value candidate local previous else candidate
  | _, _ => candidate
  end.

Definition reload_source (config : Config) (disk : FileSystem File) (name : bytes) (source : Source)
    : result Status Source :=
  do candidate <- read_source config disk name (relative_path source) (source_mutability source);
  if bool_decide (source_mutability source = USER_MUTABLE)
  then Ok (fold_left (fun candidate local => keep_modified source local candidate) (members (modified_names source)) candidate)
  else Ok candidate.

Definition reload_one (config : Config) (disk : FileSystem File) (entry : bytes * Source)
    (candidates : gmap bytes Source) : Status + gmap bytes Source :=
  let '(name, source) := entry in
  match reload_source config disk name source with
  | Err status => inl status
  | Ok candidate => inr (default candidates (emplace candidates name candidate))
  end.

Definition reload (impl : Impl) (disk : FileSystem File) : Impl * Status :=
  match foreach (reload_one (config_ impl) disk) (entries (sources_ impl)) ∅ with
  | inl status => (impl, status)
  | inr candidate_sources =>
      match build_index candidate_sources with
      | Err status => (impl, status)
      | Ok candidate_properties =>
          ({| config_ := config_ impl; sources_ := candidate_sources; properties_ := candidate_properties |}, OK)
      end
  end.
End Operations.
