(* ===== verification/PropertiesIndex.v ===== *)
(** * The directory of properties

    What [build_index] builds, the runs of the service (loads split at their two
    locks, assignments and reloads in any order) and the invariant of every run:
    the directory is exactly the index of the registered sources. *)
From S2P Require Import Prelude Text StringMap Config Properties.
Open Scope Z_scope.

(** ** The index *)

(** A loop of loops, as one loop over the pairs. *)
Lemma foreach_pairs {X Y S R} (f : X -> list Y) (body : X -> Y -> S -> R + S) l s :
  foreach (fun x => foreach (body x) (f x)) l s
  = foreach (fun p => body p.1 p.2) (flat_map (fun x => map (pair x) (f x)) l) s.
Proof.
  revert s. induction l as [|x l IH]; intros s; [done|]. cbn [foreach flat_map].
  assert (H : forall ys s, foreach (fun p => body p.1 p.2) (map (pair x) ys ++ flat_map (fun x => map (pair x) (f x)) l) s
    = match foreach (body x) ys s with inl r => inl r | inr s => foreach (fun p => body p.1 p.2) (flat_map (fun x => map (pair x) (f x)) l) s end).
  { clear. intros ys. induction ys as [|y ys IHy]; intros s; [done|]. cbn. destruct (body x y s); [done|]. apply IHy. }
  rewrite H. destruct (foreach (body x) (f x) s); [done|]. apply IH.
Qed.

(** Insertions that stop at the first key present. *)
Lemma foreach_emplace {X A} (key : X -> bytes) (make : X -> A) (status : Status) (l : list X) (m : gmap bytes A) :
  match foreach (fun x m => match emplace m (key x) (make x) with None => inl status | Some m => inr m end) l m with
  | inl r => r = status /\ ~ (NoDup (map key l) /\ forall x, x ∈ l -> m !! key x = None)
  | inr m' =>
      NoDup (map key l) /\ (forall x, x ∈ l -> m !! key x = None)
      /\ forall k v, m' !! k = Some v <-> m !! k = Some v \/ exists x, x ∈ l /\ k = key x /\ v = make x
  end.
Proof.
  revert m. induction l as [|x l IH]; intros m; cbn [foreach map].
  { split_and!; [constructor|by intros x Hx; apply not_elem_of_nil in Hx|]. intros k v. split; [by left|].
    intros [?|(x & Hx & _)]; [done|by apply not_elem_of_nil in Hx]. }
  unfold emplace at 1. destruct (m !! key x) as [old|] eqn:Eo.
  { split; [done|]. intros [_ H]. specialize (H x (list_elem_of_here _ _)). congruence. }
  specialize (IH (<[key x := make x]> m)).
  assert (Hfresh : (forall y, y ∈ l -> <[key x := make x]> m !! key y = None) <->
    (key x ∉ map key l) /\ forall y, y ∈ l -> m !! key y = None).
  { split.
    - intros H. split; [|intros y Hy; specialize (H y Hy); by apply lookup_insert_None in H as [? _]].
      intros (y & Ey & Hy)%list_elem_of_fmap. specialize (H y Hy). rewrite <- Ey, lookup_insert_eq in H. done.
    - intros [H1 H2] y Hy. apply lookup_insert_None. split; [by apply H2|]. intros Ek. apply H1. rewrite Ek. by apply list_elem_of_fmap_2. }
  destruct (foreach _ l _) as [r|m'].
  - destruct IH as [-> Hn]. split; [done|]. intros [Hnd Hm]. apply Hn. apply NoDup_cons in Hnd as [Hx Hnd]. split; [done|].
    apply Hfresh. split; [done|]. intros y Hy. apply Hm. by apply list_elem_of_further.
  - destruct IH as (Hnd & Hf & Hm). apply Hfresh in Hf as [Hx Hf]. split_and!.
    + by apply NoDup_cons.
    + intros y [->|Hy]%elem_of_cons; [done|by apply Hf].
    + intros k v. rewrite Hm, lookup_insert_Some. split.
      * intros [[[<- <-]|[_ ?]]|(y & Hy & -> & ->)]; [right; exists x; by split; [apply list_elem_of_here|]|by left|].
        right. exists y. by split; [apply list_elem_of_further|].
      * intros [Hk|(y & [->|Hy]%elem_of_cons & -> & ->)]; [|by left; left|right; by exists y].
        left. right. split; [|done]. intros <-. congruence.
Qed.

(** What the sources contribute to the directory. *)
Definition contributes (sources : gmap bytes Source) (full : bytes) (entry : IndexedProperty) : Prop :=
  exists s source local v, sources !! s = Some source /\ values source !! local = Some v
    /\ full = qualified_name s local /\ entry = indexed s source local v.

Definition present (sources : gmap bytes Source) (s local : bytes) : Prop :=
  exists source, sources !! s = Some source /\ is_Some (values source !! local).

(** No two scalars have the same full name. *)
Definition distinct_names (sources : gmap bytes Source) : Prop :=
  forall s1 l1 s2 l2, present sources s1 l1 -> present sources s2 l2 ->
  qualified_name s1 l1 = qualified_name s2 l2 -> s1 = s2 /\ l1 = l2.

Definition leaves (sources : gmap bytes Source) : list (bytes * Source * (bytes * Scalar)) :=
  flat_map (fun x => map (pair x) (entries (values x.2))) (entries sources).

Definition leaf_name (leaf : bytes * Source * (bytes * Scalar)) : bytes := qualified_name leaf.1.1 leaf.2.1.

Lemma elem_of_leaves sources s source local v :
  (s, source, (local, v)) ∈ leaves sources <-> sources !! s = Some source /\ values source !! local = Some v.
Proof.
  unfold leaves. rewrite elem_of_flat_map. split.
  - intros ([s' source'] & Hs & (p & E & Hp)%list_elem_of_fmap). simplify_eq. cbn in Hp.
    apply elem_of_entries in Hs. by apply elem_of_entries in Hp.
  - intros [Hs Hv]. exists (s, source). split; [by apply elem_of_entries|]. apply list_elem_of_fmap.
    exists (local, v). split; [done|]. by apply elem_of_entries.
Qed.

Lemma leaves_nodup sources : distinct_names sources <-> NoDup (map leaf_name (leaves sources)).
Proof.
  assert (Hl : NoDup (leaves sources)).
  { unfold leaves. pose proof (entries_nodup sources) as Hn. induction Hn as [|x l Hx Hn IH]; [constructor|]. cbn [flat_map].
    apply NoDup_app. split_and!; [|intros p Hp (y & Hy & Hp')%elem_of_flat_map|done].
    - apply NoDup_fmap_2; [by intros ?? [=]|apply entries_nodup].
    - apply list_elem_of_fmap in Hp as (? & -> & _). apply list_elem_of_fmap in Hp' as (? & E & _). by simplify_eq. }
  assert (Hf : forall p, p ∈ leaves sources -> sources !! p.1.1 = Some p.1.2 /\ values p.1.2 !! p.2.1 = Some p.2.2)
    by (intros [[s source] [local v]] Hp; by apply elem_of_leaves).
  split.
  - intros Hd. apply NoDup_fmap_2_strong; [|done]. intros p q Hp Hq E. apply Hf in Hp as [Hp1 Hp2]. apply Hf in Hq as [Hq1 Hq2].
    destruct p as [[s source] [local v]], q as [[s' source'] [local' v']]. cbn in *.
    destruct (Hd s local s' local') as [-> ->]; [by exists source; eauto|by exists source'; eauto|done|]. congruence.
  - intros Hn s1 l1 s2 l2 (src1 & H1 & [v1 E1]) (src2 & H2 & [v2 E2]) E.
    assert (G : (s1, src1, (l1, v1)) = (s2, src2, (l2, v2))); [|by simplify_eq].
    assert (M1 : (s1, src1, (l1, v1)) ∈ leaves sources) by (by apply elem_of_leaves).
    assert (M2 : (s2, src2, (l2, v2)) ∈ leaves sources) by (by apply elem_of_leaves).
    apply list_elem_of_lookup in M1 as [i Hi]. apply list_elem_of_lookup in M2 as [j Hj].
    assert (i = j); [|congruence]. eapply NoDup_lookup; [exact Hn| |]; rewrite list_lookup_fmap.
    + by rewrite Hi.
    + rewrite Hj. unfold leaf_name. cbn. by rewrite E.
Qed.

(** [build_index] succeeds exactly when the names are distinct, and then holds
    what the sources contribute. *)
Lemma build_index_spec sources :
  match build_index sources with
  | Ok output => distinct_names sources /\ forall full entry, output !! full = Some entry <-> contributes sources full entry
  | Err status => status = DUPLICATE_PROPERTY /\ ~ distinct_names sources
  end.
Proof.
  unfold build_index.
  assert (E : foreach index_source (entries sources) ∅
    = foreach (fun p m => match emplace m (leaf_name p) (indexed p.1.1 p.1.2 p.2.1 p.2.2) with None => inl DUPLICATE_PROPERTY | Some m => inr m end)
        (leaves sources) ∅).
  { unfold leaves. rewrite <- (foreach_pairs (fun x => entries (values x.2))
      (fun x y m => match emplace m (qualified_name x.1 y.1) (indexed x.1 x.2 y.1 y.2) with None => inl DUPLICATE_PROPERTY | Some m => inr m end)).
    generalize (∅ : gmap bytes IndexedProperty). induction (entries sources) as [|[s source] l IH]; intros m; [done|]. cbn [foreach index_source fst snd].
    assert (Ei : forall (m : gmap bytes IndexedProperty), foreach (index_value s source) (entries (values source)) m = foreach (fun y m => match emplace m (qualified_name s y.1) (indexed s source y.1 y.2) with None => inl DUPLICATE_PROPERTY | Some m => inr m end) (entries (values source)) m).
    { induction (entries (values source)) as [|[local v] k IHk]; intros m'; [done|]. cbn [foreach index_value fst snd]. by destruct (emplace _ _ _). }
    rewrite Ei. destruct (foreach _ _ m); [done|]. apply IH. }
  rewrite E. pose proof (foreach_emplace leaf_name (fun p => indexed p.1.1 p.1.2 p.2.1 p.2.2) DUPLICATE_PROPERTY (leaves sources) ∅) as H.
  destruct (foreach _ (leaves sources) ∅) as [r|output].
  - destruct H as [-> H]. split; [done|]. intros Hd%leaves_nodup. apply H. split; [done|]. intros x _. apply lookup_empty.
  - destruct H as (Hnd & _ & H). split; [by apply leaves_nodup|]. intros full entry. rewrite H, lookup_empty. split.
    + intros [?|([[s source] [local v]] & Hp & -> & ->)]; [done|]. apply elem_of_leaves in Hp as [? ?]. by exists s, source, local, v.
    + intros (s & source & local & v & ? & ? & -> & ->). right. exists (s, source, (local, v)). by rewrite elem_of_leaves.
Qed.

Lemma build_index_distinct sources :
  distinct_names sources -> exists output, build_index sources = Ok output
    /\ forall full entry, output !! full = Some entry <-> contributes sources full entry.
Proof.
  intros Hd. pose proof (build_index_spec sources) as H. destruct (build_index sources) as [output|status].
  - exists output. by destruct H.
  - by destruct H as [_ []].
Qed.

(** ** One assignment *)

(** A source of the table: registered under its name, with marks on scalars it
    has, none when immutable, and the document its scalars were read from. *)
Record source_ok (s : bytes) (source : Source) : Prop := {
  ok_name : source_name source = s;
  ok_valid : valid_source_name s = true;
  ok_modified : forall local, local ∈ modified_names source -> is_Some (values source !! local);
  ok_immutable : source_mutability source = IMMUTABLE -> modified_names source = ∅;
  ok_document : exists document, source_document source = Some document
    /\ (source_mutability source = IMMUTABLE -> collect_scalars (Config.root document) [] false ∅ = Ok (values source))
}.

Definition index_ok (impl : Impl) : Prop := build_index (sources_ impl) = Ok (properties_ impl).

Lemma index_ok_spec impl : index_ok impl ->
  distinct_names (sources_ impl)
  /\ forall full entry, properties_ impl !! full = Some entry <-> contributes (sources_ impl) full entry.
Proof. intros H. pose proof (build_index_spec (sources_ impl)) as Hs. unfold index_ok in H. by rewrite H in Hs. Qed.

Lemma index_ok_intro impl :
  distinct_names (sources_ impl) ->
  (forall full entry, properties_ impl !! full = Some entry <-> contributes (sources_ impl) full entry) -> index_ok impl.
Proof.
  intros Hd Hc. destruct (build_index_distinct _ Hd) as (output & E & Ho). unfold index_ok. rewrite E. f_equal.
  apply map_eq. intros full. apply option_eq. intros entry. by rewrite Ho, Hc.
Qed.

(** Assigning to a scalar a source has changes that scalar's entry only. *)
Lemma set_value_contributes sources s source local v next :
  distinct_names sources -> sources !! s = Some source -> values source !! local = Some v ->
  distinct_names (<[s := set_value source local next]> sources) /\
  forall full entry, contributes (<[s := set_value source local next]> sources) full entry <->
    (full = qualified_name s local /\ entry = set_indexed (indexed s source local v) next)
    \/ (full <> qualified_name s local /\ contributes sources full entry).
Proof.
  intros Hd Hs Hv.
  assert (Hp : forall t l, present (<[s := set_value source local next]> sources) t l -> present sources t l).
  { intros t l (src & E & Hl). destruct (decide (t = s)) as [->|Hne].
    - rewrite lookup_insert_eq in E. simplify_eq. exists source. split; [done|]. cbn in Hl.
      destruct (decide (l = local)) as [->|]; [by eexists|]. by rewrite lookup_insert_ne in Hl.
    - rewrite lookup_insert_ne in E by done. by exists src. }
  split; [intros s1 l1 s2 l2 H1%Hp H2%Hp; by apply Hd|]. intros full entry. split.
  - intros (t & src & l & w & Et & Ew & -> & ->). destruct (decide (t = s)) as [->|Hne].
    + rewrite lookup_insert_eq in Et. simplify_eq. cbn in Ew. destruct (decide (l = local)) as [->|Hl].
      * rewrite lookup_insert_eq in Ew. simplify_eq. left. split; [done|]. unfold indexed, set_indexed. cbn.
        rewrite bool_decide_eq_true_2 by set_solver. done.
      * rewrite lookup_insert_ne in Ew by done. right. split.
        -- intros E. destruct (Hd s l s local) as [_ ?]; [by exists source|by exists source|done|done].
        -- exists s, source, l, w. split_and!; [done|done|done|]. unfold indexed. cbn. do 2 f_equal.
           apply bool_decide_ext. set_solver.
    + rewrite lookup_insert_ne in Et by done. right. split; [|by exists t, src, l, w].
      intros E. destruct (Hd t l s local) as [? _]; [by exists src|by exists source|done|done].
  - intros [[-> ->]|[Hne (t & src & l & w & Et & Ew & -> & ->)]].
    + exists s, (set_value source local next), local, next. split_and!; [by rewrite lookup_insert_eq|by cbn; rewrite lookup_insert_eq|done|].
      unfold indexed, set_indexed. cbn. rewrite bool_decide_eq_true_2 by set_solver. done.
    + destruct (decide (t = s)) as [->|Hts].
      * simplify_eq. assert (Hl : l <> local) by (by intros ->). exists s, (set_value source local next), l, w.
        split_and!; [by rewrite lookup_insert_eq|by cbn; rewrite lookup_insert_ne|done|]. unfold indexed. cbn. do 2 f_equal.
        apply bool_decide_ext. set_solver.
      * exists t, src, l, w. by rewrite lookup_insert_ne.
Qed.

Lemma set_value_ok s source local v next :
  source_ok s source -> source_mutability source = USER_MUTABLE -> values source !! local = Some v ->
  source_ok s (set_value source local next).
Proof.
  intros [H1 H2 H3 H4 (d & H5 & H6)] Hm Hv. split; cbn; [done|done| |congruence|exists d; split; [done|congruence]].
  intros l [Hl| ->%elem_of_singleton]%elem_of_union; [|by rewrite lookup_insert_eq].
  destruct (decide (l = local)) as [->|]; [by rewrite lookup_insert_eq|]. rewrite lookup_insert_ne by done. by apply H3.
Qed.

(** [set], on every branch. *)
Lemma set_spec impl full text :
  index_ok impl -> (forall s source, sources_ impl !! s = Some source -> source_ok s source) ->
  exists impl' status, set impl full text = Some (impl', status) /\ index_ok impl'
    /\ (forall s source, sources_ impl' !! s = Some source -> source_ok s source)
    /\ match properties_ impl !! full with
       | None => status = NOT_FOUND /\ impl' = impl
       | Some entry =>
           match mutability (property entry), parse_as (value (property entry)) text with
           | IMMUTABLE, _ => status = IMMUTABLE_PROPERTY /\ impl' = impl
           | USER_MUTABLE, None => status = INVALID_VALUE /\ impl' = impl
           | USER_MUTABLE, Some next =>
               status = OK /\ config_ impl' = config_ impl
               /\ properties_ impl' = <[full := set_indexed entry next]> (properties_ impl)
               /\ exists s source local, sources_ impl !! s = Some source
                    /\ sources_ impl' = <[s := set_value source local next]> (sources_ impl)
           end
       end.
Proof.
  intros Hi Hok. destruct (index_ok_spec impl Hi) as [Hd Hc]. unfold set.
  destruct (properties_ impl !! full) as [entry|] eqn:E; [|by exists impl, NOT_FOUND].
  destruct (mutability (property entry)) eqn:Em; cbn; [by exists impl, IMMUTABLE_PROPERTY|].
  destruct (parse_as (value (property entry)) text) as [next|]; [|by exists impl, INVALID_VALUE].
  apply Hc in E as Hen. destruct Hen as (s & source & local & v & Hs & Hv & -> & ->). cbn in Em |- *. rewrite Hs. cbn.
  destruct (set_value_contributes _ _ _ _ _ next Hd Hs Hv) as [Hd' Hc'].
  eexists _, OK. split; [done|]. split_and!; try done.
  - apply index_ok_intro; [done|]. cbn. intros full entry. rewrite Hc', lookup_insert_Some, Hc. naive_solver.
  - cbn. intros t src [[<- <-]|[_ Ht]]%lookup_insert_Some; [|by apply Hok]. eapply set_value_ok; [by apply Hok|done|done].
  - by exists s, source, local.
Qed.

(** ** Registration and reload *)

Lemma register_spec impl s source :
  index_ok impl -> sources_ impl !! s = None ->
  match register impl s source with
  | Ok impl' => index_ok impl' /\ sources_ impl' = <[s := source]> (sources_ impl) /\ config_ impl' = config_ impl
  | Err status => status = DUPLICATE_PROPERTY
  end.
Proof.
  intros Hi Hs. unfold register. pose proof (build_index_spec (<[s := source]> (sources_ impl))) as H.
  destruct (build_index (<[s := source]> (sources_ impl))) as [output|status] eqn:E; cbn; [|by destruct H].
  split_and!; [|done|done]. unfold index_ok. by cbn.
Qed.

(** The value a reload leaves under a local name of a source. *)
Definition carried (source fresh : Source) (local : bytes) : option Scalar :=
  match values source !! local, values fresh !! local with
  | Some previous, Some current => if same_type previous current then Some previous else Some current
  | _, current => current
  end.

Definition carries (source fresh : Source) (local : bytes) : Prop :=
  exists previous current, values source !! local = Some previous /\ values fresh !! local = Some current
    /\ same_type previous current = true.

Lemma same_type_refl v : same_type v v = true.
Proof. apply Nat.eqb_refl. Qed.

Lemma keep_modified_other source local fresh l :
  l <> local -> values (keep_modified source local fresh) !! l = values fresh !! l.
Proof.
  intros Hl. unfold keep_modified. repeat case_match; try done. cbn. by rewrite lookup_insert_ne.
Qed.

Lemma keep_modified_same source local fresh :
  values (keep_modified source local fresh) !! local = carried source fresh local.
Proof.
  unfold keep_modified, carried. destruct (values source !! local) as [p|] eqn:Ep; [|done].
  destruct (values fresh !! local) as [c|] eqn:Ec; [|done]. destruct (same_type p c); [cbn; by rewrite lookup_insert_eq|done].
Qed.

Lemma keep_modified_marks source local fresh l :
  l ∈ modified_names (keep_modified source local fresh) <->
  l ∈ modified_names fresh \/ l = local /\ carries source fresh local.
Proof.
  unfold keep_modified, carries. destruct (values source !! local) as [p|] eqn:Ep; [|naive_solver].
  destruct (values fresh !! local) as [c|] eqn:Ec; [|naive_solver].
  destruct (same_type p c) eqn:Et; [|naive_solver congruence]. cbn. rewrite elem_of_union, elem_of_singleton. naive_solver.
Qed.

Lemma carried_fold source locals fresh :
  let result := fold_left (fun candidate local => keep_modified source local candidate) locals fresh in
  (forall l, values result !! l = if bool_decide (l ∈ locals) then carried source fresh l else values fresh !! l)
  /\ (forall l, l ∈ modified_names result <-> l ∈ modified_names fresh \/ l ∈ locals /\ carries source fresh l)
  /\ source_name result = source_name fresh /\ relative_path result = relative_path fresh
  /\ source_mutability result = source_mutability fresh /\ source_document result = source_document fresh.
Proof.
  revert fresh. induction locals as [|local locals IH]; intros fresh; cbn [fold_left].
  { split_and!; try done. intros l. split; [by left|]. intros [?|[H _]]; [done|]. by apply not_elem_of_nil in H. }
  destruct (IH (keep_modified source local fresh)) as (H1 & H2 & H3 & H4 & H5 & H6).
  assert (Hc : forall l, carried source (keep_modified source local fresh) l = carried source fresh l).
  { intros l. unfold carried at 1. destruct (decide (l = local)) as [->|Hl]; [|by rewrite keep_modified_other].
    rewrite keep_modified_same. unfold carried. destruct (values source !! local) as [p|]; [|done].
    destruct (values fresh !! local) as [c|]; [|done]. destruct (same_type p c) eqn:E; [by rewrite same_type_refl|by rewrite E]. }
  assert (Hcs : forall l, carries source (keep_modified source local fresh) l <-> carries source fresh l).
  { intros l. unfold carries. destruct (decide (l = local)) as [->|Hl]; [|by rewrite keep_modified_other].
    rewrite keep_modified_same. unfold carried. destruct (values source !! local) as [p|]; [|naive_solver].
    destruct (values fresh !! local) as [c|]; [|naive_solver]. destruct (same_type p c) eqn:E; [|done].
    split; intros (p' & c' & ? & ? & ?); simplify_eq; [by exists p', c|exists p', p'; by rewrite same_type_refl]. }
  split_and!.
  - intros l. rewrite H1. destruct (decide (l = local)) as [->|Hl].
    + rewrite (bool_decide_eq_true_2 (local ∈ local :: locals)) by apply list_elem_of_here. rewrite Hc, keep_modified_same. by case_bool_decide.
    + rewrite Hc, keep_modified_other by done. rewrite (bool_decide_ext (l ∈ local :: locals) (l ∈ locals)); [done|]. rewrite elem_of_cons. naive_solver.
  - intros l. rewrite H2, keep_modified_marks, Hcs, elem_of_cons. naive_solver.
  - rewrite H3. unfold keep_modified. by repeat case_match.
  - rewrite H4. unfold keep_modified. by repeat case_match.
  - rewrite H5. unfold keep_modified. by repeat case_match.
  - rewrite H6. unfold keep_modified. by repeat case_match.
Qed.

Section Reload.
Context {File : Type} (toml : TomlParser File).

Lemma read_source_ok config disk s path mutable source :
  valid_source_name s = true -> read_source toml config disk s path mutable = Ok source ->
  source_ok s source /\ source_mutability source = mutable /\ relative_path source = path /\ modified_names source = ∅.
Proof.
  intros Hn. unfold read_source. destruct (Config.load toml disk config path) as [loaded|]; [|done].
  destruct (collect_scalars _ _ _ _) as [vs|] eqn:E; cbn; [|done]. intros H%Ok_inj. subst source. cbn.
  split_and!; try done. split; cbn; try done.
  exists loaded. split; [done|]. intros ->. exact E.
Qed.

(** A source after a reload: the scalars of the file, with the assigned values
    of the same type in place of theirs. *)
Lemma reload_source_spec config disk s source candidate :
  source_ok s source -> reload_source toml config disk s source = Ok candidate ->
  exists fresh, read_source toml config disk s (relative_path source) (source_mutability source) = Ok fresh
    /\ source_ok s candidate /\ source_mutability candidate = source_mutability source
    /\ (forall l, values candidate !! l = if bool_decide (l ∈ modified_names source) then carried source fresh l else values fresh !! l)
    /\ (forall l, l ∈ modified_names candidate <-> l ∈ modified_names source /\ carries source fresh l).
Proof.
  intros Hok. unfold reload_source. destruct (read_source _ _ _ _ _ _) as [fresh|] eqn:E; cbn; [|done].
  destruct (read_source_ok _ _ _ _ _ _ (ok_valid _ _ Hok) E) as (Hf & Hm & Hp & Hn). case_bool_decide as Hmut; intros H%Ok_inj; subst candidate.
  - destruct (carried_fold source (members (modified_names source)) fresh) as (H1 & H2 & H3 & H4 & H5 & H6).
    set (result := fold_left _ _ _) in *. exists fresh. split; [done|].
    assert (H1' : forall l, values result !! l = if bool_decide (l ∈ modified_names source) then carried source fresh l else values fresh !! l).
    { intros l. rewrite H1. by rewrite (bool_decide_ext _ _ (elem_of_members (modified_names source) l)). }
    assert (H2' : forall l, l ∈ modified_names result <-> l ∈ modified_names source /\ carries source fresh l).
    { intros l. rewrite H2, Hn, elem_of_members. set_solver. }
    split_and!; [|congruence|exact H1'|exact H2']. destruct Hf as [F1 F2 F3 F4 F5]. split; [congruence|done| | |].
    + intros l [Hl (p & c & Ep & Ec & Et)]%H2'. rewrite H1', bool_decide_eq_true_2 by done. unfold carried. rewrite Ep, Ec, Et. by eexists.
    + rewrite H5, Hm, Hmut. done.
    + rewrite H6, H5. destruct F5 as (d & F5 & F6). exists d. split; [done|]. rewrite Hm, Hmut. done.
  - exists fresh. assert (Him : source_mutability source = IMMUTABLE) by (by destruct (source_mutability source)).
    pose proof (ok_immutable _ _ Hok Him) as He. split_and!; [done|done|congruence| |]; rewrite ?He.
    + intros l. by rewrite bool_decide_eq_false_2 by set_solver.
    + intros l. rewrite Hn. set_solver.
Qed.

(** The loop of [reload] over the registered sources. *)
Lemma reload_sources_spec config disk l m :
  NoDup l.*1 -> (forall s, s ∈ l.*1 -> m !! s = None) ->
  match foreach (reload_one toml config disk) l m with
  | inl status => exists s source, (s, source) ∈ l /\ reload_source toml config disk s source = Err status
  | inr candidates =>
      (forall s, s ∉ l.*1 -> candidates !! s = m !! s)
      /\ forall s source, (s, source) ∈ l -> exists candidate,
           reload_source toml config disk s source = Ok candidate /\ candidates !! s = Some candidate
  end.
Proof.
  revert m. induction l as [|[s source] l IH]; intros m Hn Hm; cbn [foreach reload_one fmap list_fmap fst] in *.
  { split; [done|]. intros s source H. by apply not_elem_of_nil in H. }
  apply NoDup_cons in Hn as [Hs Hn]. destruct (reload_source toml config disk s source) as [candidate|status] eqn:E.
  2: { exists s, source. split; [apply list_elem_of_here|done]. }
  unfold emplace. rewrite (Hm s) by apply list_elem_of_here. cbn [default].
  specialize (IH (<[s := candidate]> m) Hn). destruct (foreach _ l _) as [status|candidates].
  - destruct IH as (t & src & Ht & Er).
    { intros t Ht. rewrite lookup_insert_ne by (by intros ->). apply Hm. by apply list_elem_of_further. }
    exists t, src. split; [by apply list_elem_of_further|done].
  - destruct IH as [H1 H2].
    { intros t Ht. rewrite lookup_insert_ne by (by intros ->). apply Hm. by apply list_elem_of_further. }
    split.
    + intros t Ht. rewrite not_elem_of_cons in Ht. destruct Ht as [Hne Ht]. rewrite H1 by done. by rewrite lookup_insert_ne.
    + intros t src [[= -> ->]|Ht]%elem_of_cons; [|by apply H2]. exists candidate. split; [done|].
      rewrite H1 by done. by rewrite lookup_insert_eq.
Qed.

(** [reload] is a transaction: the state is as before when any source fails or
    the names collide, and every source is reloaded otherwise. *)
Lemma reload_spec impl disk :
  index_ok impl -> (forall s source, sources_ impl !! s = Some source -> source_ok s source) ->
  let '(impl', status) := reload toml impl disk in
  index_ok impl' /\ (forall s source, sources_ impl' !! s = Some source -> source_ok s source)
  /\ config_ impl' = config_ impl
  /\ (status = OK /\ (forall s, is_Some (sources_ impl' !! s) <-> is_Some (sources_ impl !! s))
        /\ (forall s source, sources_ impl !! s = Some source -> exists candidate,
              reload_source toml (config_ impl) disk s source = Ok candidate /\ sources_ impl' !! s = Some candidate)
      \/ impl' = impl /\
         (status = DUPLICATE_PROPERTY \/ exists s source, sources_ impl !! s = Some source
            /\ reload_source toml (config_ impl) disk s source = Err status)).
Proof.
  intros Hi Hok. unfold reload. pose proof (reload_sources_spec (config_ impl) disk (entries (sources_ impl)) ∅ (entries_nodup_fst _)) as H.
  destruct (foreach _ _ _) as [status|candidates].
  - destruct H as (s & source & Hs%elem_of_entries & E); [by intros; apply lookup_empty|]. split_and!; try done. right. split; [done|]. right. by exists s, source.
  - destruct H as [H1 H2]; [by intros; apply lookup_empty|].
    assert (Hdom : forall s candidate, candidates !! s = Some candidate -> exists source, sources_ impl !! s = Some source /\ reload_source toml (config_ impl) disk s source = Ok candidate).
    { intros s candidate E. destruct (decide (s ∈ (entries (sources_ impl)).*1)) as [([s' source] & -> & Hs)%list_elem_of_fmap|Hs].
      - destruct (H2 _ _ Hs) as (c & Er & Ec). apply elem_of_entries in Hs. exists source. cbn in *. split; [done|congruence].
      - rewrite H1, lookup_empty in E by done. done. }
    destruct (build_index candidates) as [output|status] eqn:Eb.
    + cbn. split_and!; [done| |done|].
      * intros s candidate (source & Hs & Er)%Hdom. by destruct (reload_source_spec _ _ _ _ _ (Hok _ _ Hs) Er) as (? & ? & ? & _).
      * left. split; [done|]. split.
        -- intros s. split; [intros [c (source & ? & _)%Hdom]; by exists source|].
           intros [source Hs%elem_of_entries]. destruct (H2 _ _ Hs) as (c & _ & Ec). by exists c.
        -- intros s source Hs%elem_of_entries. by apply H2.
    + split_and!; try done. right. split; [done|]. left. pose proof (build_index_spec candidates) as Hb. rewrite Eb in Hb. by destruct Hb.
Qed.
End Reload.
