(* ===== verification/PropertiesRuns.v ===== *)
(** * Runs of the property service

    Loads are two steps, since each takes the lock twice: [BeginLoad] looks the
    source up and reads the file, [CommitLoad] inserts it; assignments and
    reloads are one step.  Any number of loads can be between their steps, and
    the disk can differ at every step.  The invariant of these runs is the
    consistency of the directory with the sources. *)
From S2P Require Import Prelude Text StringMap Config Properties PropertiesIndex.
Open Scope Z_scope.

Section Runs.
Context {File : Type} (toml : TomlParser File).

(** The service, and the sources read by loads that have not committed. *)
Record World := { impl : Impl; pending : list Source }.

Inductive Action :=
| BeginLoad (mutability : Mutability) (disk : FileSystem File) (name path : bytes)
| CommitLoad (index : nat)
| Assign (name text : bytes)
| Reload (disk : FileSystem File).

Definition commit_load (impl : Impl) (source : Source) : Impl :=
  match source_mutability source with
  | IMMUTABLE => (commit_immutable impl (source_name source) (relative_path source) source).1
  | USER_MUTABLE => (commit_mutable impl (source_name source) (relative_path source) source).1
  end.

Definition begin_load (impl : Impl) (mutability : Mutability) (disk : FileSystem File) (name path : bytes) : option Source :=
  match mutability with
  | IMMUTABLE => match begin_immutable toml impl disk name path with inr source => Some source | inl _ => None end
  | USER_MUTABLE => match begin_mutable toml impl disk name path with inr source => Some source | inl _ => None end
  end.

(** [None] would be an exception. *)
Definition perform (w : World) (action : Action) : option World :=
  match action with
  | BeginLoad mutability disk name path =>
      Some {| impl := impl w;
              pending := pending w ++ match begin_load (impl w) mutability disk name path with Some source => [source] | None => [] end |}
  | CommitLoad index =>
      match pending w !! index with
      | None => Some w
      | Some source => Some {| impl := commit_load (impl w) source; pending := delete index (pending w) |}
      end
  | Assign name text =>
      r ← set (impl w) name text;
      Some {| impl := r.1; pending := pending w |}
  | Reload disk => Some {| impl := (reload toml (impl w) disk).1; pending := pending w |}
  end.

Fixpoint perform_all (w : World) (actions : list Action) : option World :=
  match actions with
  | [] => Some w
  | action :: rest => w' ← perform w action; perform_all w' rest
  end.

Definition start_world (current : option bytes) (primary user : bytes) : World :=
  {| impl := new_properties current primary user; pending := [] |}.

Definition reachable (w : World) : Prop :=
  exists current primary user actions, perform_all (start_world current primary user) actions = Some w.

Record world_ok (w : World) : Prop := {
  world_index : index_ok (impl w);
  world_sources : forall s source, sources_ (impl w) !! s = Some source -> source_ok s source;
  world_pending : forall source, source ∈ pending w -> source_ok (source_name source) source
}.

(** ** Steps *)

Lemma begin_load_ok i mutable disk name path source :
  begin_load i mutable disk name path = Some source ->
  source_ok name source /\ source_name source = name /\ source_mutability source = mutable /\ relative_path source = path.
Proof.
  intros H. assert (G : valid_source_name name = true /\ read_source toml (config_ i) disk name path mutable = Ok source).
  { destruct mutable; cbn in H; [unfold begin_immutable in H|unfold begin_mutable in H].
    all: destruct (valid_source_name name); cbn in H; [|done]; destruct (sources_ i !! name); [done|].
    all: destruct (read_source _ _ _ _ _ _); by simplify_eq. }
  destruct G as [Hn Hr]. destruct (read_source_ok _ _ _ _ _ _ _ Hn Hr) as (Ho & ? & ? & _).
  by split_and!; [|apply (ok_name _ _ Ho)| |].
Qed.

Lemma commit_load_cases i source :
  commit_load i source = i \/
  sources_ i !! source_name source = None /\ register i (source_name source) source = Ok (commit_load i source).
Proof.
  unfold commit_load, commit_immutable, commit_mutable.
  destruct (source_mutability source), (sources_ i !! source_name source) as [existing|]; try (by left).
  all: destruct (register i (source_name source) source); [by right|by left].
Qed.

Lemma commit_load_ok i source :
  index_ok i -> (forall s src, sources_ i !! s = Some src -> source_ok s src) -> source_ok (source_name source) source ->
  index_ok (commit_load i source) /\ forall s src, sources_ (commit_load i source) !! s = Some src -> source_ok s src.
Proof.
  intros Hi Hs Ho. destruct (commit_load_cases i source) as [->|[Hn Hr]]; [done|].
  pose proof (register_spec i _ source Hi Hn) as H. rewrite Hr in H. destruct H as (H1 & H2 & _). split; [done|].
  rewrite H2. intros s src [[<- <-]|[_ E]]%lookup_insert_Some; [done|by apply Hs].
Qed.

Lemma perform_ok w action : world_ok w -> exists w', perform w action = Some w' /\ world_ok w'.
Proof.
  intros [Hi Hs Hp]. destruct action as [mutable disk name path|index|name text|disk]; cbn [perform].
  - eexists. split; [done|]. split; [done|done|]. intros source [H|H]%elem_of_app; [by apply Hp|].
    destruct (begin_load _ _ _ _ _) as [src|] eqn:E; [|by apply not_elem_of_nil in H]. apply list_elem_of_singleton in H. subst.
    destruct (begin_load_ok _ _ _ _ _ _ E) as (Ho & Hn & _). by rewrite Hn.
  - destruct (pending w !! index) as [source|] eqn:E; [|by exists w].
    destruct (commit_load_ok _ _ Hi Hs (Hp _ (list_elem_of_lookup_2 _ _ _ E))) as [H1 H2].
    eexists. split; [done|]. split; [done|done|]. intros src Hsrc. apply Hp. cbn in Hsrc.
    rewrite delete_take_drop in Hsrc. rewrite <- (take_drop index (pending w)), elem_of_app.
    apply elem_of_app in Hsrc as [?|Hsrc]; [by left|]. right. rewrite (drop_S _ source) by done. by apply list_elem_of_further.
  - destruct (set_spec (impl w) name text Hi Hs) as (i & st & -> & H1 & H2 & _). eexists. split; [done|]. by split.
  - pose proof (reload_spec toml (impl w) disk Hi Hs) as H. destruct (reload toml (impl w) disk) as [i st].
    destruct H as (H1 & H2 & _). eexists. split; [done|]. by split.
Qed.

Lemma start_world_ok current primary user : world_ok (start_world current primary user).
Proof.
  unfold start_world, new_properties. destruct (normalize_roots _ _ _) as [p u]. split; cbn.
  - reflexivity.
  - intros s source H. by rewrite lookup_empty in H.
  - intros source H. by apply not_elem_of_nil in H.
Qed.

Lemma perform_all_ok w actions : world_ok w -> exists w', perform_all w actions = Some w' /\ world_ok w'.
Proof.
  revert w. induction actions as [|action actions IH]; intros w Hw; [by exists w|].
  destruct (perform_ok w action Hw) as (w' & E & Hw'). cbn. rewrite E. by apply IH.
Qed.

Lemma reachable_ok w : reachable w -> world_ok w.
Proof.
  intros (current & primary & user & actions & E).
  destruct (perform_all_ok _ actions (start_world_ok current primary user)) as (w' & E' & H). congruence.
Qed.

(** ** What steps other than reloads keep *)

(** Every property stays, with its mutability and the type of its value; an
    immutable one keeps its value too, and so does a registered document. *)
Definition extends (before after : Impl) : Prop :=
  (forall full p, get before full = Ok p -> exists p', get after full = Ok p'
     /\ name p' = name p /\ mutability p' = mutability p /\ same_type (value p) (value p') = true
     /\ (mutability p = IMMUTABLE -> p' = p))
  /\ (forall s d, document_of before s = {| status := OK; document := d |} -> document_of after s = {| status := OK; document := d |}).

#[export] Instance extends_refl : Reflexive extends.
Proof. intros i. split; [|done]. intros full p E. exists p. by rewrite same_type_refl. Qed.

#[export] Instance extends_trans : Transitive extends.
Proof.
  intros i j k [H1 H2] [H3 H4]. split; [|intros s d E; by apply H4, H2]. intros full p E.
  destruct (H1 _ _ E) as (q & Eq & En & Em & Et & Ei). destruct (H3 _ _ Eq) as (r & Er & Fn & Fm & Ft & Fi).
  exists r. split_and!; [done|congruence|congruence| |].
  - unfold same_type in *. apply Nat.eqb_eq in Et, Ft. apply Nat.eqb_eq. congruence.
  - intros Hp. rewrite Fi by congruence. by apply Ei.
Qed.

Lemma commit_extends i source : index_ok i -> extends i (commit_load i source).
Proof.
  intros Hi. destruct (commit_load_cases i source) as [->|[Hn Hr]]; [reflexivity|].
  pose proof (register_spec i _ source Hi Hn) as H. rewrite Hr in H. destruct H as (H1 & H2 & _).
  destruct (index_ok_spec _ Hi) as [_ Hc]. destruct (index_ok_spec _ H1) as [_ Hc']. split.
  - intros full p. unfold get. destruct (properties_ i !! full) as [entry|] eqn:E; [|done]. intros [= <-].
    assert (E' : properties_ (commit_load i source) !! full = Some entry).
    { apply Hc'. apply Hc in E as (s & src & local & v & Hs & Hv & -> & ->). exists s, src, local, v. split_and!; try done.
      rewrite H2. rewrite lookup_insert_ne; [done|]. intros <-. congruence. }
    rewrite E'. exists (property entry). by rewrite same_type_refl.
  - intros s d. unfold document_of. rewrite H2. destruct (sources_ i !! s) as [src|] eqn:E; [|done].
    by rewrite lookup_insert_ne, E by (intros <-; congruence).
Qed.

Lemma parse_as_type scalar text next : parse_as scalar text = Some next -> same_type scalar next = true.
Proof.
  destruct scalar; cbn; intros H; try done; repeat case_bool_decide; simplify_eq; try done.
  - by apply fmap_Some in H as (z & _ & ->).
  - by apply fmap_Some in H as (z & _ & ->).
Qed.

Lemma set_extends i full text i' st :
  index_ok i -> (forall s src, sources_ i !! s = Some src -> source_ok s src) -> set i full text = Some (i', st) -> extends i i'.
Proof.
  intros Hi Hs E. destruct (set_spec i full text Hi Hs) as (i2 & st2 & E2 & _ & _ & H). rewrite E in E2. simplify_eq.
  destruct (properties_ i !! full) as [entry|] eqn:Ef; [|by destruct H as [_ ->]].
  destruct (mutability (property entry)) eqn:Em; [by destruct H as [_ ->]|].
  destruct (parse_as (value (property entry)) text) as [next|] eqn:Ep; [|by destruct H as [_ ->]].
  destruct H as (_ & _ & H1 & (s & src & local & Hsrc & H2)). split.
  - intros other p. unfold get. rewrite H1. destruct (decide (other = full)) as [->|Hne].
    + rewrite Ef, lookup_insert_eq. intros [= <-]. exists (property (set_indexed entry next)). cbn.
      split_and!; [done|done|done|by eapply parse_as_type|congruence].
    + rewrite lookup_insert_ne by done. destruct (properties_ i !! other) as [e|]; [|done]. intros [= <-].
      exists (property e). by rewrite same_type_refl.
  - intros t d. unfold document_of. rewrite H2. destruct (decide (t = s)) as [->|Hne]; [|by rewrite lookup_insert_ne].
    rewrite lookup_insert_eq, Hsrc. done.
Qed.

Definition is_reload (action : Action) : bool := match action with Reload _ => true | _ => false end.

Lemma perform_extends w action w' :
  world_ok w -> is_reload action = false -> perform w action = Some w' -> extends (impl w) (impl w').
Proof.
  intros [Hi Hs Hp] Hr E. destruct action as [mutable disk name path|index|name text|disk]; cbn in *; simplify_eq; [done| |].
  - destruct (pending w !! index) as [source|]; simplify_eq; [by apply commit_extends|done].
  - apply bind_Some in E as ([i st] & E & [= <-]). by eapply set_extends.
Qed.

Lemma perform_all_extends w actions w' :
  world_ok w -> forallb (fun a => negb (is_reload a)) actions = true -> perform_all w actions = Some w' ->
  extends (impl w) (impl w').
Proof.
  revert w. induction actions as [|action actions IH]; intros w Hw Hr E; cbn in *; simplify_eq; [done|].
  apply andb_true_iff in Hr as [Hr Hrs]. apply negb_true_iff in Hr. apply bind_Some in E as (w1 & E1 & E).
  destruct (perform_ok w action Hw) as (w2 & E2 & Hw2). assert (w2 = w1) as -> by congruence.
  etrans; [by eapply perform_extends|by apply IH].
Qed.
End Runs.
