(* ===== verification/PropertiesScalars.v ===== *)
(** * Scalars of a document, and integers from text

    The names [collect_scalars] gives to the scalars of a document agree with
    the paths [find] resolves, and [parse_integer] accepts exactly the literals
    of a small grammar. *)
From S2P Require Import Prelude Text Charconv StringMap Config Properties.
Open Scope Z_scope.

(** ** Induction on parsed trees *)

Definition children (d : Datum) : list Datum :=
  match content d with
  | TOML_ARRAY elements => elements
  | TOML_TABLE fields => fields.*2
  | _ => []
  end.

Lemma datum_children_ind (P : Datum -> Prop) :
  (forall d, (forall child, child ∈ children d -> P child) -> P d) -> forall d, P d.
Proof.
  intros H. fix IH 1. intros [origin u]. apply H.
  destruct u; cbn; intros child Hc; try (exfalso; exact (not_elem_of_nil _ Hc)).
  - induction elem as [|x l IHl]; [exfalso; exact (not_elem_of_nil _ Hc)|].
    apply elem_of_cons in Hc as [E|Hc]; [rewrite E; exact (IH x)|exact (IHl Hc)].
  - induction fields as [|[k x] l IHl]; [exfalso; exact (not_elem_of_nil _ Hc)|]. cbn in Hc.
    apply elem_of_cons in Hc as [E|Hc]; [rewrite E; exact (IH x)|exact (IHl Hc)].
Qed.

(** ** Collection *)

Definition child_path (path key : bytes) : bytes := (if bool_decide (path = []) then [] else path ++ [46]) ++ key.

(** The loops of [collect_scalars], named. *)
Fixpoint collect_fields (mutable_source : bool) (path : bytes) (fields : list (bytes * Datum)) (output : gmap bytes Scalar)
    : result Status (gmap bytes Scalar) :=
  match fields with
  | [] => Ok output
  | (key, child) :: rest =>
      do output <- collect_datum child (child_path path key) mutable_source output;
      collect_fields mutable_source path rest output
  end.

Fixpoint collect_elements (path : bytes) (index : Z) (elements : list Datum) (output : gmap bytes Scalar)
    : result Status (gmap bytes Scalar) :=
  match elements with
  | [] => Ok output
  | child :: rest =>
      do output <- collect_datum child (path ++ [91] ++ decimal index ++ [93]) false output;
      collect_elements path (index + 1) rest output
  end.

Lemma collect_datum_table origin fields path mutable_source output :
  collect_datum (datum origin (TOML_TABLE fields)) path mutable_source output
  = collect_fields mutable_source path fields output.
Proof.
  cbn [collect_datum]. revert output. induction fields as [|[key child] rest IH]; intros output; [done|].
  cbn [collect_fields]. unfold child_path. destruct (collect_datum child _ _ _); cbn; [apply IH|done].
Qed.

Lemma collect_datum_array origin elements path output :
  collect_datum (datum origin (TOML_ARRAY elements)) path false output = collect_elements path 0 elements output.
Proof.
  cbn [collect_datum]. revert output. generalize 0 as index. induction elements as [|child rest IH]; intros index output; [done|].
  cbn [collect_elements]. destruct (collect_datum child _ _ _); cbn; [apply IH|done].
Qed.

(** A datum is a table, an array or a leaf. *)
Inductive datum_case (d : Datum) : Prop :=
| IsTable origin fields (E : d = datum origin (TOML_TABLE fields))
| IsArray origin elements (E : d = datum origin (TOML_ARRAY elements))
| IsLeaf (El : children d = []) (Ef : forall key, find_key (Some d) key = None)
    (Ec : forall path mutable_source output, collect_datum d path mutable_source output =
      match scalar_value (Some d) with
      | None => Err UNSUPPORTED_VALUE
      | Some scalar => if bool_decide (path = []) then Err UNSUPPORTED_VALUE
          else match emplace output path scalar with None => Err DUPLICATE_PROPERTY | Some output => Ok output end
      end).

Lemma datum_cases d : datum_case d.
Proof. destruct d as [origin []]; try (by apply IsLeaf); [by eapply IsArray|by eapply IsTable]. Qed.

(** Collection only adds scalars. *)
Lemma collect_grows d : forall path mutable_source output output',
  collect_datum d path mutable_source output = Ok output' -> output ⊆ output'.
Proof.
  induction d as [d IH] using datum_children_ind. intros path mutable_source output output'.
  destruct (datum_cases d) as [origin fields ->|origin elements ->|_ _ Ec].
  - rewrite collect_datum_table. cbn in IH. revert output. induction fields as [|[key child] rest IHf]; intros output H.
    { apply Ok_inj in H. by subst. }
    cbn in H. apply bind_ok in H as (middle & E & H). etrans.
    + eapply IH; [|exact E]. apply list_elem_of_here.
    + eapply IHf; [|exact H]. intros c Hc. apply IH. by apply list_elem_of_further.
  - destruct mutable_source; [done|]. rewrite collect_datum_array. cbn in IH. generalize 0 as index.
    revert output. induction elements as [|child rest IHe]; intros output index H.
    { apply Ok_inj in H. by subst. }
    cbn in H. apply bind_ok in H as (middle & E & H). etrans.
    + eapply IH; [|exact E]. apply list_elem_of_here.
    + eapply IHe; [|exact H]. intros c Hc. apply IH. by apply list_elem_of_further.
  - rewrite Ec. destruct (scalar_value (Some d)) as [v|]; [|done]. case_bool_decide; [done|].
    unfold emplace. destruct (output !! path) eqn:E; [done|]. intros <-%Ok_inj. by apply insert_subseteq.
Qed.

(** A failed collection has a status. *)
Lemma collect_datum_not_ok d : forall path mutable_source output, collect_datum d path mutable_source output <> Err OK.
Proof.
  induction d as [d IH] using datum_children_ind. intros path mutable_source output.
  destruct (datum_cases d) as [origin fields ->|origin elements ->|_ _ Ec].
  - rewrite collect_datum_table. cbn in IH. revert output. induction fields as [|[key child] rest IHf]; intros output; [done|].
    cbn. destruct (collect_datum child _ _ _) eqn:E; cbn.
    + apply IHf. intros c Hc. apply IH. by apply list_elem_of_further.
    + intros [= ->]. eapply (IH child); [apply list_elem_of_here|exact E].
  - destruct mutable_source; [done|]. rewrite collect_datum_array. cbn in IH. generalize 0 as index.
    revert output. induction elements as [|child rest IHe]; intros output index; [done|].
    cbn. destruct (collect_datum child _ _ _) eqn:E; cbn.
    + apply IHe. intros c Hc. apply IH. by apply list_elem_of_further.
    + intros [= ->]. eapply (IH child); [apply list_elem_of_here|exact E].
  - rewrite Ec. by repeat case_match.
Qed.

Lemma collect_scalars_not_ok v path mutable_source output : collect_scalars v path mutable_source output <> Err OK.
Proof. destruct v as [d|]; [apply collect_datum_not_ok|done]. Qed.

Definition join_path (path : bytes) (names : list bytes) : bytes := fold_left child_path names path.

Lemma find_components_some value names leaf :
  find_components value names = Some leaf -> Forall (fun name => name <> []) names \/ names = [].
Proof.
  revert value. induction names as [|name names IH]; intros value H; [by right|]. left. rewrite find_components_cons in H.
  case_bool_decide as Hn; [by rewrite find_components_missing in H|]. constructor; [done|].
  destruct (IH _ H) as [?| ->]; [done|constructor].
Qed.

Lemma lookup_field_elem key fields child : lookup_field key fields = Some child -> (key, child) ∈ fields.
Proof.
  induction fields as [|[k d] fields IH]; [done|]. cbn. case_bool_decide; intros E; simplify_eq; [apply list_elem_of_here|].
  apply list_elem_of_further. by apply IH.
Qed.

(** A scalar that [find] reaches is collected under the path to it. *)
Lemma found_is_collected d : forall path mutable_source output output' names leaf v,
  collect_datum d path mutable_source output = Ok output' ->
  find_components (Some d) names = Some leaf -> scalar_value (Some leaf) = Some v ->
  output' !! join_path path names = Some v.
Proof.
  induction d as [d IH] using datum_children_ind. intros path mutable_source output output' names leaf v Hc Hf Hv.
  destruct names as [|name names].
  { cbn in Hf |- *. simplify_eq. destruct (datum_cases leaf) as [origin fields ->|origin elements ->|_ _ Ec]; [done|done|].
    rewrite Ec, Hv in Hc. case_bool_decide; [done|]. unfold emplace in Hc. destruct (output !! path); [done|].
    apply Ok_inj in Hc. subst. by rewrite lookup_insert_eq. }
  rewrite find_components_cons in Hf. case_bool_decide as Hn; [by rewrite find_components_missing in Hf|].
  destruct (datum_cases d) as [origin fields ->|origin elements ->|_ Ef _].
  - rewrite collect_datum_table in Hc. cbn [find_key content fmap option_fmap option_map] in Hf. cbn in IH.
    destruct (lookup_field name fields) as [child|] eqn:Ef; [|by rewrite find_components_missing in Hf].
    apply lookup_field_elem in Ef. clear -IH Hc Hf Hv Ef origin. revert output Hc.
    induction fields as [|[key d] rest IHf]; intros output Hc; [by apply not_elem_of_nil in Ef|].
    cbn in Hc. apply bind_ok in Hc as (middle & E & Hc). apply elem_of_cons in Ef as [[= -> ->]|Ef].
    + assert (G : middle !! join_path (child_path path key) names = Some v) by (eapply IH; [apply list_elem_of_here|done..]).
      assert (Hsub : middle ⊆ output').
      { pose proof (collect_grows (datum origin (TOML_TABLE rest)) path mutable_source middle output') as Hg.
        rewrite collect_datum_table in Hg. by apply Hg. }
      by eapply lookup_weaken.
    + eapply IHf; [|done..]. intros c Hcc. apply IH. by apply list_elem_of_further.
  - cbn in Hf. by rewrite find_components_missing in Hf.
  - rewrite Ef in Hf. by rewrite find_components_missing in Hf.
Qed.

(** ** Plain documents *)

Definition has_dot (key : bytes) : bool := existsb (Z.eqb 46) key.

(** A document of tables and scalars whose keys are distinct, not empty and
    without dots. *)
Inductive plain : Datum -> Prop :=
| PlainTable origin fields :
    NoDup fields.*1 -> (forall key child, (key, child) ∈ fields -> key <> [] /\ has_dot key = false) ->
    (forall key child, (key, child) ∈ fields -> plain child) ->
    plain (datum origin (TOML_TABLE fields))
| PlainLeaf d : children d = [] -> (forall origin fields, d <> datum origin (TOML_TABLE fields)) ->
    (forall origin elements, d <> datum origin (TOML_ARRAY elements)) -> plain d.

Lemma lookup_field_unique key child fields :
  NoDup fields.*1 -> (key, child) ∈ fields -> lookup_field key fields = Some child.
Proof.
  induction fields as [|[k d] fields IH]; intros Hn Hin; [by apply not_elem_of_nil in Hin|]. cbn in *.
  apply NoDup_cons in Hn as [Hk Hn]. apply elem_of_cons in Hin as [[= -> ->]|Hin]; [by rewrite bool_decide_eq_true_2|].
  rewrite bool_decide_eq_false_2; [by apply IH|]. intros ->. apply Hk. by apply (list_elem_of_fmap_2' fst _ (key, child)).
Qed.

(** In a plain document every collected scalar is one that [find] reaches. *)
Lemma collected_is_found d : plain d -> forall path mutable_source output output' full v,
  collect_datum d path mutable_source output = Ok output' -> output' !! full = Some v ->
  output !! full = Some v \/
  exists names leaf, find_components (Some d) names = Some leaf /\ scalar_value (Some leaf) = Some v
    /\ full = join_path path names /\ Forall (fun name => name <> [] /\ has_dot name = false) names.
Proof.
  induction 1 as [origin fields Hn Hf _ IH|d Hch Ht Ha]; intros path mutable_source output output' full v Hc Hv.
  - rewrite collect_datum_table in Hc.
    enough (G : output !! full = Some v \/ exists key child names leaf, (key, child) ∈ fields
      /\ find_components (Some child) names = Some leaf /\ scalar_value (Some leaf) = Some v
      /\ full = join_path (child_path path key) names /\ Forall (fun name => name <> [] /\ has_dot name = false) names).
    { destruct G as [?|(key & child & names & leaf & Hin & Hfind & Hs & -> & Hnames)]; [by left|right].
      destruct (Hf _ _ Hin) as (Hk & Hd). exists (key :: names), leaf. rewrite find_components_cons, bool_decide_eq_false_2 by done.
      cbn [find_key content fmap option_fmap option_map]. rewrite (lookup_field_unique _ _ _ Hn Hin). by repeat constructor. }
    clear Hn Hf. revert output Hc. induction fields as [|[key child] rest IHf]; intros output Hc.
    { apply Ok_inj in Hc. subst. by left. }
    cbn in Hc. apply bind_ok in Hc as (middle & E & Hc).
    destruct (IHf (fun k c H => IH k c (list_elem_of_further _ _ _ H)) middle Hc) as [Hm|(k & c & names & leaf & Hin & Hrest)].
    + destruct (IH key child (list_elem_of_here _ _) _ _ _ _ _ _ E Hm) as [?|(names & leaf & Hrest)]; [by left|right].
      exists key, child, names, leaf. split; [apply list_elem_of_here|done].
    + right. exists k, c, names, leaf. split; [by apply list_elem_of_further|done].
  - destruct (datum_cases d) as [origin fields ->|origin elements ->|_ _ Ec]; [by destruct (Ht origin fields)|by destruct (Ha origin elements)|].
    rewrite Ec in Hc. destruct (scalar_value (Some d)) as [w|] eqn:Es; [|done]. case_bool_decide; [done|].
    unfold emplace in Hc. destruct (output !! path); [done|]. apply Ok_inj in Hc. subst.
    apply lookup_insert_Some in Hv as [[<- <-]|[_ ?]]; [right|by left]. exists [], d. by split_and!.
Qed.

(** ** Paths and their components *)

Lemma join_path_app path names :
  path <> [] -> join_path path names = path ++ flat_map (fun name => 46 :: name) names.
Proof.
  revert path. induction names as [|name names IH]; intros path Hp; cbn; [by rewrite app_nil_r|].
  unfold child_path. rewrite bool_decide_eq_false_2 by done. unfold join_path in IH. rewrite IH; [|by destruct path].
  by rewrite <- !app_assoc.
Qed.

Lemma join_path_root name names : name <> [] ->
  join_path [] (name :: names) = name ++ flat_map (fun name => 46 :: name) names.
Proof. intros Hn. cbn. change (child_path [] name) with name. by apply join_path_app. Qed.

Lemma split_dots_join path :
  path = match split_dots path with [] => [] | name :: names => name ++ flat_map (fun name => 46 :: name) names end.
Proof.
  induction path as [|c path IH]; [done|]. cbn [split_dots]. destruct (c =? 46) eqn:E; bool_to_prop.
  - subst. cbn. pose proof (split_dots_nonempty path). destruct (split_dots path) as [|name names]; [done|]. cbn. by f_equal.
  - pose proof (split_dots_nonempty path). destruct (split_dots path) as [|name names]; [done|]. cbn. by f_equal.
Qed.

Lemma split_dots_app name rest :
  has_dot name = false -> (rest = [] \/ exists more, rest = 46 :: more) ->
  split_dots (name ++ rest) = name :: (match rest with [] => [] | _ :: more => split_dots more end).
Proof.
  intros Hn Hr. induction name as [|c name IH].
  - destruct Hr as [->|[more ->]]; done.
  - change (has_dot (c :: name)) with ((46 =? c) || has_dot name) in Hn. apply orb_false_iff in Hn as [Hc Hn]. cbn [app split_dots]. rewrite Z.eqb_sym, Hc. by rewrite IH.
Qed.

Lemma split_dots_flat name names :
  Forall (fun name => has_dot name = false) (name :: names) ->
  split_dots (name ++ flat_map (fun name => 46 :: name) names) = name :: names.
Proof.
  revert name. induction names as [|n names IH]; intros name H; apply Forall_cons in H as [Hn H].
  - by rewrite split_dots_app; [|done|by left].
  - cbn [flat_map]. rewrite split_dots_app; [|done|right; by eexists]. cbn [app]. f_equal. by apply IH.
Qed.

(** A found path is the join of its components, all of them not empty. *)
Lemma found_path_join value path leaf :
  find value path = Some leaf -> join_path [] (split_dots path) = path /\ find_components value (split_dots path) = Some leaf.
Proof.
  rewrite find_is_components. intros H. split; [|done]. destruct (find_components_some _ _ _ H) as [Hn|Hn].
  - pose proof (split_dots_join path) as E. destruct (split_dots path) as [|name names]; [by rewrite E|].
    apply Forall_cons in Hn as [Hn _]. by rewrite join_path_root.
  - by destruct (split_dots_nonempty path).
Qed.

Lemma join_path_found value names leaf :
  names <> [] -> find_components value names = Some leaf -> Forall (fun name => name <> [] /\ has_dot name = false) names ->
  find value (join_path [] names) = Some leaf.
Proof.
  intros Hn Hf Hd. destruct names as [|name names]; [done|]. rewrite join_path_root by (by apply Forall_cons in Hd as [[? _] _]).
  rewrite find_is_components, split_dots_flat; [done|]. eapply Forall_impl; [exact Hd|]. by intros x [_ ?].
Qed.

(** The two together: the directory of a document and its paths. *)
Lemma collect_find_agree document output path v :
  collect_scalars (Config.root document) [] false ∅ = Ok output ->
  (forall leaf, document_find document path = Some leaf -> scalar_value (Some leaf) = Some v -> output !! path = Some v)
  /\ (forall d, document = Some d -> plain d -> output !! path = Some v ->
        exists leaf, document_find document path = Some leaf /\ scalar_value (Some leaf) = Some v).
Proof.
  intros Hc. split.
  - intros leaf Hf Hv. destruct document as [d|]; [|by rewrite find_is_components in Hf; unfold Config.root in Hf; rewrite find_components_missing in Hf].
    destruct (found_path_join _ _ _ Hf) as [Hj Hn]. rewrite <- Hj. exact (found_is_collected d [] false ∅ output _ leaf v Hc Hn Hv).
  - intros d -> Hp Ho. destruct (collected_is_found d Hp _ _ _ _ _ _ Hc Ho) as [?|(names & leaf & Hf & Hv & -> & Hn)]; [by rewrite lookup_empty in *|].
    destruct names as [|name names].
    + cbn in Hf. simplify_eq. destruct (datum_cases leaf) as [origin fields ->|origin elements ->|_ _ Ec]; [done|done|].
      unfold collect_scalars, Config.root in Hc. rewrite Ec, Hv in Hc. done.
    + exists leaf. split; [|done]. by apply join_path_found.
Qed.

(** ** Integer literals *)

(** The letters of [0x], [0o] and [0b]. *)
Definition prefix_letters : list (Z * Z) := [(120, 16); (88, 16); (111, 8); (79, 8); (98, 2); (66, 2)].

Definition signed (negative : bool) (magnitude : Z) : Z := if negative then - magnitude else magnitude.

(** Decimal digits after an optional minus sign; or a base prefix and digits
    after an optional sign of either kind. *)
Inductive integer_literal : bytes -> Z -> Prop :=
| DecimalLiteral (negative : bool) digits :
    digits <> [] -> Forall (fun c => is_digit_of 10 c = true) digits ->
    integer_literal ((if negative then [45] else []) ++ digits) (signed negative (digits_value 10 digits))
| PrefixedLiteral (sign : list Z) letter base digits :
    sign ∈ [[]; [43]; [45]] -> (letter, base) ∈ prefix_letters ->
    digits <> [] -> Forall (fun c => is_digit_of base c = true) digits ->
    integer_literal (sign ++ 48 :: letter :: digits) (signed (bool_decide (sign = [45])) (digits_value base digits)).

Lemma prefix_base_cases digits :
  prefix_base digits = 10 \/
  exists letter body, digits = 48 :: letter :: body /\ (letter, prefix_base digits) ∈ prefix_letters.
Proof.
  destruct digits as [|zero [|letter body]]; [by left..|]. cbn [prefix_base].
  destruct (zero =? 48) eqn:Ez; [|by left]. bool_to_prop. subst.
  repeat match goal with |- context [if ?b || ?c then _ else _] => destruct b eqn:?; cbn [orb]; [|destruct c eqn:?; cbn [orb]] end;
    bool_to_prop; subst; try (by left); right; eexists _, body; (split; [reflexivity|]); unfold prefix_letters; set_solver.
Qed.

Lemma prefix_base_letter letter base body :
  (letter, base) ∈ prefix_letters -> prefix_base (48 :: letter :: body) = base /\ base <> 10 /\ 0 <= base.
Proof. unfold prefix_letters. rewrite !elem_of_cons, elem_of_nil. intros H. by repeat destruct H as [[= -> ->]|H]. Qed.

Lemma prefix_base_digits digits : Forall (fun c => is_digit_of 10 c = true) digits -> prefix_base digits = 10.
Proof.
  intros Hd. destruct (prefix_base_cases digits) as [?|(letter & body & -> & Hl)]; [done|].
  apply Forall_cons in Hd as [_ Hd]. apply Forall_cons in Hd as [Hc _]. revert Hl. generalize (prefix_base (48 :: letter :: body)). intros b.
  unfold prefix_letters. rewrite !elem_of_cons, elem_of_nil. intros H. exfalso. by repeat destruct H as [[= -> ->]|H].
Qed.

(** The sign of a text and what follows it. *)
Definition unsigned_part (text : bytes) : bytes :=
  match text with
  | front :: rest => if (front =? 43) || (front =? 45) then rest else text
  | [] => []
  end.

Lemma unsigned_part_sign text : exists sign, text = sign ++ unsigned_part text /\ sign ∈ [[]; [43]; [45]]
  /\ bool_decide (sign = [45]) = (match text with front :: _ => front =? 45 | [] => false end).
Proof.
  destruct text as [|front rest]; [exists []; by split_and!; [|set_solver|]|]. cbn [unsigned_part].
  destruct (front =? 43) eqn:E1; [|destruct (front =? 45) eqn:E2]; bool_to_prop; subst; cbn [orb].
  - exists [43]. by split_and!; [|set_solver|].
  - exists [45]. by split_and!; [|set_solver|].
  - exists []. by split_and!; [|set_solver|].
Qed.

Lemma unsigned_part_app sign c rest :
  sign ∈ [[]; [43]; [45]] -> c <> 43 /\ c <> 45 -> unsigned_part (sign ++ c :: rest) = c :: rest.
Proof.
  rewrite !elem_of_cons, elem_of_nil. intros [-> |[-> |[-> |[]]]] [H1 H2]; [|done|done]. cbn.
  by rewrite (proj2 (Z.eqb_neq c 43)), (proj2 (Z.eqb_neq c 45)).
Qed.

(** The branch of a base prefix. *)
Lemma prefixed_value (negative : bool) base body z : 0 <= base ->
  (if bool_decide (body = []) then None
   else match from_chars_unsigned base body with
        | Some (magnitude, []) =>
            let limit := if negative then 2 ^ 63 else int64_max in
            if limit <? magnitude then None
            else if negative then Some (if magnitude =? 2 ^ 63 then int64_min else - magnitude)
            else Some magnitude
        | _ => None
        end) = Some z <->
  body <> [] /\ Forall (fun c => is_digit_of base c = true) body /\ z = signed negative (digits_value base body) /\ is_i64 z.
Proof.
  intros Hb. case_bool_decide as Hn; [split; [done|by intros [? _]]|].
  pose proof (from_chars_unsigned_all base body) as Hall. split.
  - destruct (from_chars_unsigned base body) as [[magnitude [|c rest]]|] eqn:E; [|done|done].
    destruct (proj1 (Hall magnitude Hb) eq_refl) as (Hm & _ & Hd & ->). cbn zeta.
    pose proof (digits_value_nonneg base body Hb Hd) as H0. set (m := digits_value base body) in *.
    destruct negative; destruct (_ <? m) eqn:El; [done| |done|]; bool_to_prop; intros [= <-].
    + split_and!; [done|done| |]; unfold signed, is_i64, int64_min, int64_max in *; destruct (m =? 2 ^ 63) eqn:Em; bool_to_prop; lia.
    + split_and!; [done|done|done|]. unfold is_i64, int64_min, int64_max in *. lia.
  - intros (_ & Hd & -> & Hi). pose proof (digits_value_nonneg base body Hb Hd) as H0.
    rewrite (proj2 (Hall (digits_value base body) Hb)).
    2: { split_and!; try done. unfold is_i64, signed, int64_min, int64_max in Hi. destruct negative; lia. }
    cbn zeta. set (m := digits_value base body) in *. unfold is_i64, signed, int64_min, int64_max in *.
    rewrite (proj2 (Z.ltb_ge _ m)) by (destruct negative; lia). destruct negative; [|done].
    destruct (m =? 2 ^ 63) eqn:Em; bool_to_prop; [|done]. by rewrite Em.
Qed.

(** [parse_integer] accepts the literals in range and gives their value. *)
Lemma parse_integer_spec text z :
  parse_integer text = Some z <-> integer_literal text z /\ is_i64 z.
Proof.
  destruct text as [|front rest].
  { split; [done|]. intros [H _]. remember [] as text eqn:E. destruct H as [[] digits Hn|[] letter base digits]; cbn in E; done. }
  set (text := front :: rest). assert (E : parse_integer text =
    let digits := unsigned_part text in
    if negb (prefix_base digits =? 10) then
      let body := drop 2 digits in
      if bool_decide (body = []) then None
      else match from_chars_unsigned (prefix_base digits) body with
        | Some (magnitude, []) =>
            let limit := if front =? 45 then 2 ^ 63 else int64_max in
            if limit <? magnitude then None
            else if front =? 45 then Some (if magnitude =? 2 ^ 63 then int64_min else - magnitude)
            else Some magnitude
        | _ => None end
    else match from_chars_signed 10 text with Some (value, []) => Some value | _ => None end) by done.
  rewrite E. clear E. cbn zeta. destruct (unsigned_part_sign text) as (sign & Et & Hs & Hneg). cbn in Hneg.
  destruct (prefix_base_cases (unsigned_part text)) as [Eb|(letter & body & Ed & Hl)].
  - rewrite Eb. cbn [negb Z.eqb Pos.eqb]. transitivity (from_chars_signed 10 text = Some (z, [])).
    { destruct (from_chars_signed 10 text) as [[v [|c r]]|]; split; intros H; simplify_eq; done. }
    rewrite from_chars_signed_all. split.
    + intros (Hi & negative & digits & -> & Hn & Hd & ->). split; [by apply DecimalLiteral|done].
    + intros [H Hi]. split; [done|]. destruct H as [negative digits Hn Hd|sign' letter base digits Hs' Hl Hn Hd].
      * by exists negative, digits.
      * destruct (prefix_base_letter letter base digits Hl) as (E1 & E2 & _).
        rewrite unsigned_part_app in Eb by done. congruence.
  - rewrite Ed in Hl |- *. destruct (prefix_base_letter _ _ body Hl) as (_ & Hten & Hb).
    rewrite (proj2 (Z.eqb_neq _ 10)) by done. cbn [negb drop]. rewrite prefixed_value by done. split.
    + intros (Hn & Hd & -> & Hi). split; [|done]. rewrite Et, Ed, <- Hneg. by apply PrefixedLiteral.
    + intros [H Hi]. destruct H as [negative digits Hn Hd|sign' letter' base digits Hs' Hl' Hn Hd].
      * pose proof (prefix_base_digits _ Hd) as E10. assert (Eu : unsigned_part ((if negative then [45] else []) ++ digits) = digits).
        { destruct digits as [|d digits]; [done|]. apply unsigned_part_app; [by destruct negative; set_solver|]. apply Forall_cons in Hd as [Hd _].
          revert Hd. unfold is_digit_of, hex_value. repeat case_match; bool_to_prop; lia. }
        rewrite Eu in Ed. rewrite Ed in E10. congruence.
      * rewrite unsigned_part_app in Et, Ed by done. apply app_inv_tail in Et as <-. simplify_eq. destruct (prefix_base_letter _ _ body Hl') as (E1 & _).
        rewrite E1, <- Hneg. by split_and!.
Qed.

Lemma parse_integer_signed_text z : is_i64 z -> parse_integer (signed_text z) = Some z.
Proof.
  intros Hz. apply parse_integer_spec. split; [|done]. apply signed_text_reads, from_chars_signed_all in Hz.
  destruct Hz as (_ & negative & digits & -> & Hn & Hd & ->). by apply DecimalLiteral.
Qed.
