(* ===== verification/PropertiesProps.v ===== *)
(** * What the property service guarantees

    The directory in every run, the types of properties, assignments and
    reloads; the agreement of the directory with the documents it was read from;
    the integers text stands for. *)
From S2P Require Import Prelude Text Charconv DoubleText StringMap Config Properties PropertiesIndex PropertiesRuns PropertiesScalars.
Open Scope Z_scope.

(** An integer is parsed from exactly the literals of the grammar whose value
    fits 64 bits: no other text is accepted, nothing wraps around at the limits,
    and the number is the one the digits denote.  In particular the text shown
    for any 64-bit integer is accepted and denotes it. *)
Theorem parse_integer_exact text z :
  (parse_integer text = Some z <-> integer_literal text z /\ is_i64 z)
  /\ (is_i64 z -> parse_integer (signed_text z) = Some z).
Proof. split; [apply parse_integer_spec|apply parse_integer_signed_text]. Qed.

Lemma parse_integer_exact_witness :
  is_i64 int64_min /\ parse_integer (signed_text int64_min) = Some int64_min
  /\ integer_literal (str "-0x8000000000000000") int64_min.
Proof.
  assert (H : is_i64 int64_min) by (by vm_compute). split; [done|]. split.
  - by apply (parse_integer_exact [] int64_min).
  - apply (parse_integer_exact (str "-0x8000000000000000") int64_min). by vm_compute.
Defined.

(** Signs are not uniform: a plus sign is read before a base prefix and refused
    before decimal digits. *)
Example plus_sign_needs_prefix : parse_integer (str "+0x10") = Some 16 /\ parse_integer (str "+16") = None.
Proof. by vm_compute. Qed.

(** A control character without a short escape is left as it is. *)
Example quoted_control_character : quoted_string [1; 127] = [34; 1; 127; 34].
Proof. reflexivity. Qed.

(** ** Values shown and set back *)

(** What a user types for a value: the text that is shown, and a string without
    its quotes. *)
Definition edit_text (v : Scalar) : bytes :=
  match v with SString text => text | _ => scalar_text v end.

(** Values of the types [set] accepts. *)
Definition settable (v : Scalar) : Prop :=
  match v with
  | SString _ | SBool _ => True
  | SInteger z => is_i64 z
  | SDouble d => double_wf d
  | SDate _ | STime _ | SDateTime _ => False
  end.

Lemma edit_text_parses old v : same_type old v = true -> settable v -> parse_as old (edit_text v) = Some v.
Proof.
  unfold same_type. intros Ht%Nat.eqb_eq Hs. destruct old, v; try done; cbn in *.
  - by rewrite parse_integer_signed_text.
  - enough (E : parse_float (double_text value0) = Some value0) by (by rewrite E).
    unfold parse_float. apply double_text_reads in Hs. destruct (double_text value0); [done|]. by rewrite Hs.
  - by destruct value0.
Qed.

(** C19. Any settable value of the type of a mutable property can be typed back: the
    assignment of its text succeeds in every reachable state, the property then
    has exactly this value and is marked as modified, and no other property
    changes.  For floating-point numbers this is every double, since the
    seventeen digits shown determine it. *)
Theorem shown_value_sets_back {File : Type} (toml : TomlParser File) w full p v :
  reachable toml w -> get (impl w) full = Ok p -> mutability p = USER_MUTABLE ->
  same_type (value p) v = true -> settable v ->
  exists after, set (impl w) full (edit_text v) = Some (after, OK)
    /\ get after full = Ok {| name := name p; value := v; mutability := USER_MUTABLE; user_modified := true |}
    /\ forall other, other <> full -> get after other = get (impl w) other.
Proof.
  intros Hw Hg Hm Ht Hv. destruct (reachable_ok _ _ Hw) as [Hi Hs _]. unfold get in Hg.
  destruct (properties_ (impl w) !! full) as [entry|] eqn:E; [|done]. injection Hg as <-.
  destruct (set_spec (impl w) full (edit_text v) Hi Hs) as (after & st & Hset & _ & _ & H).
  rewrite E, Hm, edit_text_parses in H by done. destruct H as (-> & _ & Hp & _). exists after. split; [done|].
  unfold get. rewrite Hp, lookup_insert_eq. split; [unfold set_indexed; cbn; by rewrite Hm|].
  intros other Ho. by rewrite lookup_insert_ne.
Qed.

(** ** A sample service *)

Module Sample.
(** A file is the tree the parser makes of it, and an override replaces the
    primary document. *)
Definition sample_toml : TomlParser Datum :=
  {| toml_parse_file_named file _ := Some file; toml_parse_named _ _ := None; toml_merge _ override := Some override |}.

Definition leaf (u : Content) : Datum := datum {| source := None; lineno := 1; colno := 1 |} u.

Definition settings (click : Z) : Datum :=
  leaf (TOML_TABLE [(str "timeouts", leaf (TOML_TABLE
    [(str "click", leaf (TOML_INT64 click)); (str "scale", leaf (TOML_FP64 (DFinite false 4503599627370496 (-52))))]));
    (str "label", leaf (TOML_STRING (str "default")))]).

(** A disk whose only file is [/etc/settings.toml]. *)
Definition sample_disk (file : Datum) : FileSystem Datum :=
  {| file_status path :=
       if bool_decide (path = str "/etc") then (DIRECTORY, None)
       else if bool_decide (path = str "/etc/settings.toml") then (REGULAR, None)
       else (FILE_NOT_FOUND, Some NO_SUCH_FILE_OR_DIRECTORY);
     fopen path := if bool_decide (path = str "/etc/settings.toml") then Some file else None;
     fclose _ := true |}.

Definition sample_start : World := start_world None (str "/etc") (str "/home").

Definition sample_load : list Action :=
  [BeginLoad USER_MUTABLE (sample_disk (settings 500)) (str "terminal") (str "settings.toml");
   BeginLoad IMMUTABLE (sample_disk (settings 500)) (str "fixed") (str "settings.toml");
   CommitLoad 1; CommitLoad 0].

Definition sample_world : World := default sample_start (perform_all sample_toml sample_start sample_load).

Lemma sample_reachable : reachable sample_toml sample_world.
Proof. exists None, (str "/etc"), (str "/home"), sample_load. by vm_compute. Qed.

Definition click_name : bytes := str "terminal.timeouts.click".
Definition scale_name : bytes := str "terminal.timeouts.scale".

Definition sample_property (full : bytes) (v : Scalar) (mutable : Mutability) (modified : bool) : Property :=
  {| name := full; value := v; mutability := mutable; user_modified := modified |}.
End Sample.
Import Sample.

Lemma shown_value_sets_back_witness :
  exists after, set (impl sample_world) scale_name (str "0.10000000000000001") = Some (after, OK)
    /\ get after scale_name = Ok (sample_property scale_name (SDouble (DFinite false 7205759403792794 (-56))) USER_MUTABLE true)
    /\ forall other, other <> scale_name -> get after other = get (impl sample_world) other.
Proof.
  assert (E : str "0.10000000000000001" = edit_text (SDouble (DFinite false 7205759403792794 (-56)))) by (by vm_compute).
  rewrite E. apply (shown_value_sets_back sample_toml sample_world scale_name
    (sample_property scale_name (SDouble (DFinite false 4503599627370496 (-52))) USER_MUTABLE false)).
  - apply sample_reachable.
  - by vm_compute.
  - done.
  - done.
  - cbn. lia.
Defined.

(** ** The directory in every run *)

(** C15. Whatever loads, assignments and reloads have run, and however the two steps
    of concurrent loads were interleaved, no step throws and the directory
    shows exactly the scalars of the registered sources: [get] of a name gives
    a value if and only if one source has it, with that source's value,
    mutability and modification mark, no two sources expose the same name, and
    only mutable scalars are ever marked as modified. *)
Theorem directory_always_exact {File : Type} (toml : TomlParser File) w :
  reachable toml w ->
  (forall action, is_Some (perform toml w action))
  /\ (forall full p, get (impl w) full = Ok p <->
        exists s source local v, sources_ (impl w) !! s = Some source /\ values source !! local = Some v
          /\ full = qualified_name s local /\ p = property (indexed s source local v))
  /\ distinct_names (sources_ (impl w))
  /\ (forall full p, get (impl w) full = Ok p -> user_modified p = true -> mutability p = USER_MUTABLE).
Proof.
  intros Hw. pose proof (reachable_ok _ _ Hw) as Hok. destruct (Hok) as [Hi Hs _].
  destruct (index_ok_spec _ Hi) as [Hd Hc].
  assert (Hget : forall full p, get (impl w) full = Ok p <->
        exists s source local v, sources_ (impl w) !! s = Some source /\ values source !! local = Some v
          /\ full = qualified_name s local /\ p = property (indexed s source local v)).
  { intros full p. unfold get. split.
    - destruct (properties_ (impl w) !! full) as [entry|] eqn:E; [|done]. intros [= <-].
      apply Hc in E as (s & source & local & v & ? & ? & -> & ->). by exists s, source, local, v.
    - intros (s & source & local & v & Es & Ev & -> & ->).
      by rewrite (proj2 (Hc (qualified_name s local) (indexed s source local v)) (ex_intro _ s (ex_intro _ source (ex_intro _ local (ex_intro _ v (conj Es (conj Ev (conj eq_refl eq_refl)))))))). }
  split_and!; [|done|done|].
  - intros action. destruct (perform_ok toml w action Hok) as (w' & E & _). by exists w'.
  - intros full p (s & source & local & v & Es & _ & _ & ->)%Hget. cbn. intros Hm%bool_decide_eq_true.
    destruct (source_mutability source) eqn:Em; [|done]. rewrite (ok_immutable _ _ (Hs _ _ Es) Em) in Hm. by apply not_elem_of_empty in Hm.
Qed.

Lemma directory_always_exact_witness :
  get (impl sample_world) click_name = Ok (sample_property click_name (SInteger 500) USER_MUTABLE false)
  /\ distinct_names (sources_ (impl sample_world)).
Proof.
  split; [by vm_compute|]. apply (directory_always_exact sample_toml sample_world), sample_reachable.
Defined.

(** C16. Outside of reloads, properties never disappear and never change their
    type or mutability, an immutable property never changes at all, and the
    document of a registered immutable source stays the same, whatever loads
    and assignments run. *)
Theorem properties_keep_their_type {File : Type} (toml : TomlParser File) w actions w' :
  reachable toml w -> forallb (fun action => negb (is_reload action)) actions = true ->
  perform_all toml w actions = Some w' ->
  (forall full p, get (impl w) full = Ok p -> exists p', get (impl w') full = Ok p'
     /\ name p' = name p /\ mutability p' = mutability p /\ scalar_index (value p') = scalar_index (value p)
     /\ (mutability p = IMMUTABLE -> p' = p))
  /\ (forall s d, document_of (impl w) s = {| status := OK; document := d |} ->
        document_of (impl w') s = {| status := OK; document := d |}).
Proof.
  intros Hw Hr E. destruct (perform_all_extends toml w actions w' (reachable_ok _ _ Hw) Hr E) as [H1 H2].
  split; [|done]. intros full p Hp. destruct (H1 _ _ Hp) as (p' & H3 & H4 & H5 & H6 & H7). exists p'.
  split_and!; try done. symmetry. by apply Nat.eqb_eq.
Qed.

Lemma properties_keep_their_type_witness :
  exists p', get (impl sample_world) (str "terminal.label") = Ok p' /\ mutability p' = USER_MUTABLE /\ scalar_index (value p') = 0%nat.
Proof.
  destruct (properties_keep_their_type sample_toml sample_world
    [Assign (str "terminal.label") (str "new"); Assign (str "fixed.label") (str "new"); Assign click_name (str "0x1")]
    (default sample_world (perform_all sample_toml sample_world
      [Assign (str "terminal.label") (str "new"); Assign (str "fixed.label") (str "new"); Assign click_name (str "0x1")]))) as [H _].
  - apply sample_reachable.
  - done.
  - by vm_compute.
  - destruct (H (str "terminal.label") (sample_property (str "terminal.label") (SString (str "default")) USER_MUTABLE false))
      as (p' & _ & _ & Hm & Ht & _); [by vm_compute|].
    exists (sample_property (str "terminal.label") (SString (str "default")) USER_MUTABLE false). by vm_compute.
Defined.

(** ** Reload *)

(** What a reload shows under the name of a scalar the file has now: the value
    the user assigned, if the scalar was modified in this source and the file's
    value has the same type, and the file's value otherwise. *)
Definition reloaded_property (before : Impl) (s local : bytes) (mutable : Mutability) (current : Scalar) : Property :=
  let full := qualified_name s local in
  let fresh := {| name := full; value := current; mutability := mutable; user_modified := false |} in
  match properties_ before !! full with
  | Some entry =>
      if bool_decide (property_source entry = s) && user_modified (property entry)
         && same_type (value (property entry)) current
      then property entry else fresh
  | None => fresh
  end.

Lemma indexed_reloaded i s source fresh candidate local current :
  index_ok i -> sources_ i !! s = Some source -> source_ok s source ->
  source_mutability candidate = source_mutability source ->
  (forall l, values candidate !! l = if bool_decide (l ∈ modified_names source) then carried source fresh l else values fresh !! l) ->
  (forall l, l ∈ modified_names candidate <-> l ∈ modified_names source /\ carries source fresh l) ->
  values fresh !! local = Some current ->
  exists v, values candidate !! local = Some v
    /\ property (indexed s candidate local v) = reloaded_property i s local (source_mutability source) current.
Proof.
  intros Hi Hs Hok Hm Hv Hn Hc. destruct (index_ok_spec _ Hi) as [Hd Hp]. unfold reloaded_property.
  destruct (decide (local ∈ modified_names source)) as [Hmod|Hmod].
  - destruct (ok_modified _ _ Hok _ Hmod) as [previous Ep].
    assert (E : properties_ i !! qualified_name s local = Some (indexed s source local previous)) by (apply Hp; by exists s, source, local, previous).
    rewrite E. cbn. rewrite (bool_decide_eq_true_2 (s = s)), (bool_decide_eq_true_2 (local ∈ modified_names source)) by done. cbn [andb].
    destruct (same_type previous current) eqn:Et.
    + exists previous. rewrite Hv, bool_decide_eq_true_2 by done. unfold carried. rewrite Ep, Hc, Et. split; [done|].
      unfold indexed. cbn. rewrite Hm, bool_decide_eq_true_2; [done|]. apply Hn. split; [done|]. by exists previous, current.
    + exists current. rewrite Hv, bool_decide_eq_true_2 by done. unfold carried. rewrite Ep, Hc, Et. split; [done|].
      unfold indexed. cbn. rewrite Hm, bool_decide_eq_false_2; [done|]. rewrite Hn. intros [_ (p & c & ? & ? & ?)]. congruence.
  - exists current. rewrite Hv, bool_decide_eq_false_2 by done. split; [done|].
    assert (E : property (indexed s candidate local current)
      = {| name := qualified_name s local; value := current; mutability := source_mutability source; user_modified := false |}).
    { unfold indexed. cbn. rewrite Hm, bool_decide_eq_false_2; [done|]. rewrite Hn. tauto. }
    rewrite E. destruct (properties_ i !! qualified_name s local) as [entry|] eqn:Ee; [|done].
    apply Hp in Ee as (t & src & l & v & Ht & Hl & Eq & ->). cbn. case_bool_decide as Hts; [|done]. cbn. subst t.
    assert (l = local) as ->.
    { unfold qualified_name in Eq. repeat case_bool_decide; subst; try done.
      - by apply (f_equal length) in Eq; rewrite !length_app in Eq; cbn in Eq; lia.
      - by apply (f_equal length) in Eq; rewrite !length_app in Eq; cbn in Eq; lia.
      - apply app_inv_head in Eq. by simplify_eq. }
    simplify_eq. by rewrite bool_decide_eq_false_2.
Qed.

(** C17. A reload is one transaction that keeps the user's changes.  If it does not
    report success the service is exactly as before.  If it does, every source
    was read again from the same file, and the properties are exactly the
    scalars these files have now, each with the value [reloaded_property]
    says. *)
Theorem reload_keeps_user_changes {File : Type} (toml : TomlParser File) w disk :
  reachable toml w ->
  let '(after, status) := reload toml (impl w) disk in
  (status <> OK /\ after = impl w)
  \/ status = OK /\
     (forall s source, sources_ (impl w) !! s = Some source -> exists fresh,
        read_source toml (config_ (impl w)) disk s (relative_path source) (source_mutability source) = Ok fresh
        /\ forall local current, values fresh !! local = Some current ->
             get after (qualified_name s local) = Ok (reloaded_property (impl w) s local (source_mutability source) current))
     /\ (forall full p, get after full = Ok p -> exists s source fresh local current,
           sources_ (impl w) !! s = Some source
           /\ read_source toml (config_ (impl w)) disk s (relative_path source) (source_mutability source) = Ok fresh
           /\ values fresh !! local = Some current /\ full = qualified_name s local
           /\ p = reloaded_property (impl w) s local (source_mutability source) current).
Proof.
  intros Hw. destruct (reachable_ok _ _ Hw) as [Hi Hs _]. pose proof (reload_spec toml (impl w) disk Hi Hs) as H.
  destruct (reload toml (impl w) disk) as [after st]. destruct H as (Hi' & Hs' & Hcfg & [(-> & Hdom & Hre)|[-> Herr]]).
  2: { left. split; [|done]. destruct Herr as [->|(s & source & Es & Er)]; [done|]. intros ->.
       revert Er. unfold reload_source, read_source. pose proof (load_not_ok toml disk (config_ (impl w)) (relative_path source)) as Hl.
       destruct (Config.load _ _ _ _) as [d|[]]; cbn; try done.
       destruct (collect_scalars _ _ _ _) as [vs|st] eqn:Ec; cbn; [by case_bool_decide|]. intros [= ->]. by destruct (collect_scalars_not_ok _ _ _ _ Ec). }
  right. split; [done|]. destruct (index_ok_spec _ Hi') as [_ Hc']. split.
  - intros s source Es. destruct (Hre _ _ Es) as (candidate & Er & Ec).
    destruct (reload_source_spec toml _ _ _ _ _ (Hs _ _ Es) Er) as (fresh & Ef & Hok & Hm & Hv & Hn). exists fresh. split; [done|].
    intros local current El. destruct (indexed_reloaded _ _ _ _ _ _ _ Hi Es (Hs _ _ Es) Hm Hv Hn El) as (v & Ev & <-).
    unfold get. rewrite (proj2 (Hc' _ (indexed s candidate local v))); [done|]. by exists s, candidate, local, v.
  - intros full p. unfold get. destruct (properties_ after !! full) as [entry|] eqn:E; [|done]. intros [= <-].
    apply Hc' in E as (s & candidate & local & v & Es & Ev & -> & ->).
    destruct (proj1 (Hdom s) (ex_intro _ _ Es)) as [source Eso]. destruct (Hre _ _ Eso) as (c & Er & Ec). assert (c = candidate) as -> by congruence.
    destruct (reload_source_spec toml _ _ _ _ _ (Hs _ _ Eso) Er) as (fresh & Ef & Hok & Hm & Hv & Hn).
    assert (Hfr : exists current, values fresh !! local = Some current).
    { rewrite Hv in Ev. case_bool_decide; [|by eexists]. unfold carried in Ev. destruct (values source !! local), (values fresh !! local); try done; by eexists. }
    destruct Hfr as [current El]. destruct (indexed_reloaded _ _ _ _ _ _ _ Hi Eso (Hs _ _ Eso) Hm Hv Hn El) as (v' & Ev' & E').
    assert (v' = v) as -> by congruence. by exists s, source, fresh, local, current.
Qed.

Definition sample_edited : World :=
  default sample_world (perform_all sample_toml sample_world [Assign click_name (str "900")]).

Lemma sample_edited_reachable : reachable sample_toml sample_edited.
Proof. exists None, (str "/etc"), (str "/home"), (sample_load ++ [Assign click_name (str "900")]). by vm_compute. Qed.

Lemma reload_keeps_user_changes_witness :
  let after := (reload sample_toml (impl sample_edited) (sample_disk (settings 750))).1 in
  get after click_name = Ok (sample_property click_name (SInteger 900) USER_MUTABLE true)
  /\ get after (str "fixed.timeouts.click") = Ok (sample_property (str "fixed.timeouts.click") (SInteger 750) IMMUTABLE false).
Proof.
  pose proof (reload_keeps_user_changes sample_toml sample_edited (sample_disk (settings 750)) sample_edited_reachable) as H.
  revert H. assert (E : (reload sample_toml (impl sample_edited) (sample_disk (settings 750))).2 = OK) by (by vm_compute).
  destruct (reload sample_toml (impl sample_edited) (sample_disk (settings 750))) as [after st] eqn:Er. cbn in E. subst st.
  intros [[[] _]|(_ & H & _)]; [done|]. cbn [fst]. split.
  - destruct (sources_ (impl sample_edited) !! str "terminal") as [source|] eqn:Es; [|by vm_compute in Es].
    destruct (H _ _ Es) as (fresh & Ef & Hf). vm_compute in Es. injection Es as <-. vm_compute in Ef. injection Ef as <-.
    by apply (Hf (str "timeouts.click") (SInteger 750)).
  - destruct (sources_ (impl sample_edited) !! str "fixed") as [source|] eqn:Es; [|by vm_compute in Es].
    destruct (H _ _ Es) as (fresh & Ef & Hf). vm_compute in Es. injection Es as <-. vm_compute in Ef. injection Ef as <-.
    by apply (Hf (str "timeouts.click") (SInteger 750)).
Defined.

(** ** Documents and the directory *)

(** C18. The two ways to read an immutable source agree.  A scalar that the
    registered document finds under a dotted path is the value [get] returns for
    the source name joined to this path; and when the document is plain (tables
    and scalars, keys distinct, not empty and without dots) every property of
    the source is found in the document under its local path, with the same
    value. *)
Theorem directory_agrees_with_document {File : Type} (toml : TomlParser File) w s d path :
  reachable toml w -> document_of (impl w) s = {| status := OK; document := d |} ->
  (forall leaf v, Views.document_find d path = Some (Some leaf) -> scalar_value (Some leaf) = Some v ->
     get (impl w) (qualified_name s path)
     = Ok {| name := qualified_name s path; value := v; mutability := IMMUTABLE; user_modified := false |})
  /\ (forall root entry, d = Some (Some root) -> plain root ->
        properties_ (impl w) !! qualified_name s path = Some entry -> property_source entry = s ->
        exists leaf, Views.document_find d (local_name entry) = Some (Some leaf)
          /\ scalar_value (Some leaf) = Some (value (property entry))).
Proof.
  intros Hw Hdoc. destruct (reachable_ok _ _ Hw) as [Hi Hs _]. destruct (index_ok_spec _ Hi) as [_ Hc].
  unfold document_of in Hdoc. destruct (sources_ (impl w) !! s) as [source|] eqn:Es; [|done].
  case_bool_decide as Hm; [|done]. cbn in Hdoc. injection Hdoc as <-. pose proof (Hs _ _ Es) as Hok.
  destruct (ok_document _ _ Hok) as (document & -> & Hcollect). specialize (Hcollect Hm). split.
  - intros leaf v [= Hf] Hv. destruct (collect_find_agree document _ path v Hcollect) as [H _]. specialize (H leaf Hf Hv).
    unfold get. rewrite (proj2 (Hc (qualified_name s path) (indexed s source path v))) by (by exists s, source, path, v).
    unfold indexed. cbn. rewrite Hm, (ok_immutable _ _ Hok Hm). by rewrite bool_decide_eq_false_2 by apply not_elem_of_empty.
  - intros root entry [= ->] Hp (t & src & l & v & Et & El & Eq & ->)%Hc. cbn. intros ->. simplify_eq.
    destruct (collect_find_agree (Some root) _ l v Hcollect) as [_ H]. destruct (H root eq_refl Hp El) as (leaf & Hf & Hv).
    exists leaf. split; [by f_equal|done].
Qed.

Lemma directory_agrees_with_document_witness :
  get (impl sample_world) (str "fixed.timeouts.click")
  = Ok (sample_property (str "fixed.timeouts.click") (SInteger 500) IMMUTABLE false).
Proof.
  apply (directory_agrees_with_document sample_toml sample_world (str "fixed") (Some (Some (settings 500))) (str "timeouts.click")
    sample_reachable) with (leaf := leaf (TOML_INT64 500)); by vm_compute.
Defined.
