(* ===== verification/Commands.v ===== *)
(** * Commands (commands/command.cpp, commands/config.cpp, commands/quit.cpp)

    The registry of command spellings over the trie, notifications, and the two
    built-in commands over the property service. *)
From S2P Require Import Prelude Bytes Text MsgCodec ScreenMsgs IpcMessage FramedIo Trie StringMap Views Config Properties Events Tui.
Open Scope Z_scope.

Module CommandStatuses.
Inductive Status :=
| OK | INVALID_ARGUMENT | DUPLICATE_COMMAND_NAME | COMMAND_NOT_FOUND | MESSAGE_ENCODING_FAILED | NOTIFICATION_FAILED
| NOT_ALLOWED | INTERNAL_ERROR.

#[export] Instance Status_eq_dec : EqDecision Status.
Proof. solve_decision. Defined.
End CommandStatuses.
Export CommandStatuses.

Definition valid_command_name (name : bytes) : bool :=
  negb (bool_decide (name = [])) && forallb (fun byte => negb ((byte <=? 0x20) || (byte =? 0x7f))) name.

(** ** The dispatcher *)

Section Dispatcher.
(** Whether the platform's [char] is signed, which decides its order. *)
Context (char_signed : bool).
Context {CommandApp : Type}.

Definition to_char (byte : Z) : Z := if char_signed && (128 <=? byte) then byte - 256 else byte.

Definition command_key (name : bytes) : list Z := map to_char name.

(** The shared pointers of the trie, null by default. *)
Abbreviation CommandTrie := (list (TrieNode Z (option CommandApp))).

Definition new_dispatcher : CommandTrie := new_trie None.

Definition find_command (d : CommandTrie) (name : bytes) : option CommandApp :=
  default None (Trie.find None d (command_key name)).

Fixpoint has_duplicates (spellings : list bytes) : bool :=
  match spellings with
  | [] => false
  | spelling :: spellings => bool_decide (spelling ∈ spellings) || has_duplicates spellings
  end.

Definition register_command (d : CommandTrie) (name : bytes) (aliases : list bytes) (command : option CommandApp)
  : CommandTrie * Status :=
  if negb (bool_decide (is_Some command)) || negb (valid_command_name name) then (d, INVALID_ARGUMENT)
  else if negb (forallb valid_command_name aliases) then (d, INVALID_ARGUMENT)
  else
    let spellings := name :: aliases in
    if has_duplicates spellings then (d, DUPLICATE_COMMAND_NAME)
    else
      let keys := map command_key spellings in
      if existsb (fun key => bool_decide (is_Some (Trie.find None d key))) keys then (d, DUPLICATE_COMMAND_NAME)
      else (fold_left (fun d key => fst (Trie.insert None d key command)) keys d, OK).

Definition contains (d : CommandTrie) (name : bytes) : bool :=
  valid_command_name name && bool_decide (is_Some (find_command d name)).

(** The bytes of the characters of a key. *)
Definition of_key (key : list Z) : bytes := map (wrap 8) key.

Definition list_completions (d : CommandTrie) (prefix : bytes) : list bytes :=
  if negb (bool_decide (prefix = [])) && negb (valid_command_name prefix) then []
  else map of_key (Trie.completions None d (command_key prefix)).

(** [run]: what the command's [run] returns, with its effects. *)
Definition dispatch {Effect : Type} (run : CommandApp -> list bytes -> Status * Effect) (nothing : Effect)
    (d : CommandTrie) (name : bytes) (args : list bytes) : Status * Effect :=
  if negb (valid_command_name name) then (INVALID_ARGUMENT, nothing)
  else match find_command d name with None => (COMMAND_NOT_FOUND, nothing) | Some command => run command args end.

Definition get_command_description (description : CommandApp -> bytes) (d : CommandTrie) (name : bytes) : bytes :=
  match find_command d name with None => [] | Some command => description command end.

Definition get_command_usage (usage : CommandApp -> bytes) (d : CommandTrie) (name : bytes) : bytes :=
  match find_command d name with None => [] | Some command => usage command end.
End Dispatcher.

(** ** Notifications *)

Definition kCmdFrameNotifyChannel : bytes := str "//cmdframe/notify".

(** A directory is what its [transmit] answers.  The result is the status and
    the payload handed to the directory, if any. *)
Definition send_notification (directory : option (bytes -> bytes -> TransferResult)) (text : bytes) : Status * option bytes :=
  match directory with
  | None => (INVALID_ARGUMENT, None)
  | Some transmit =>
      match MsgCodec.serialize {| notification_text := text |} with
      | (MsgCodec.OK, payload) =>
          let '(status, sent) := transmit kCmdFrameNotifyChannel payload in
          (if negb (bool_decide (status = IpcMessage.OK)) || negb (sent =? length payload)%nat then NOTIFICATION_FAILED else OK,
           Some payload)
      | _ => (MESSAGE_ENCODING_FAILED, None)
      end
  end.

(** ** The built-in commands *)

Definition command_status (status : PropertyStatuses.Status) : Status :=
  match status with
  | PropertyStatuses.OK => OK
  | PropertyStatuses.NOT_FOUND | PropertyStatuses.INVALID_PATH | PropertyStatuses.IMMUTABLE_PROPERTY
  | PropertyStatuses.UNSUPPORTED_VALUE | PropertyStatuses.TYPE_MISMATCH | PropertyStatuses.INVALID_VALUE => INVALID_ARGUMENT
  | PropertyStatuses.INVALID_ROOT | PropertyStatuses.NOT_REGULAR_FILE | PropertyStatuses.IO_ERROR
  | PropertyStatuses.PARSE_ERROR | PropertyStatuses.DUPLICATE_SOURCE | PropertyStatuses.DUPLICATE_PROPERTY => INTERNAL_ERROR
  end.

(** A property as a row of [list]: its name, a tab and its value. *)
Definition property_row (p : Property) : bytes := Properties.name p ++ [9] ++ scalar_text (Properties.value p).

(** The rows of [list], separated by newlines once there is text. *)
Definition list_text (listed : list Property) : bytes :=
  fold_left (fun text p => (match text with [] => [] | _ => text ++ [10] end) ++ property_row p) listed [].

Section Config.
Context {File : Type} (toml : TomlParser File).

(** [ConfigCommand::run]: the service afterwards, the status and the payload
    transmitted; [None] where [Properties.set] is. *)
Definition config_run (properties : option Impl) (disk : FileSystem File)
    (directory : option (bytes -> bytes -> TransferResult)) (args : list bytes) : option (option Impl * Status * option bytes) :=
  match properties, args with
  | None, _ | _, [] => Some (properties, INVALID_ARGUMENT, None)
  | Some impl, verb :: rest =>
      let refused status := Some (Some impl, status, None) in
      let publish impl text := let '(status, sent) := send_notification directory text in Some (Some impl, status, sent) in
      if bool_decide (verb = str "get") then
        match rest with
        | [name] =>
            match Properties.get impl name with
            | Ok property => publish impl (property_row property)
            | Err status => refused (command_status status)
            end
        | _ => refused INVALID_ARGUMENT
        end
      else if bool_decide (verb = str "set") then
        match rest with
        | [name; text] =>
            outcome ← Properties.set impl name text;
            let '(impl', status) := outcome in
            if negb (bool_decide (status = PropertyStatuses.OK)) then Some (Some impl', command_status status, None)
            else
              match Properties.get impl' name with
              | Ok property => publish impl' (property_row property)
              | Err status => Some (Some impl', command_status status, None)
              end
        | _ => refused INVALID_ARGUMENT
        end
      else if bool_decide (verb = str "list") then
        match rest with
        | [] => publish impl (list_text (list_properties impl []))
        | [prefix] => publish impl (list_text (list_properties impl prefix))
        | _ => refused INVALID_ARGUMENT
        end
      else if bool_decide (verb = str "reload") then
        match rest with
        | [] =>
            let '(impl', status) := Properties.reload toml impl disk in
            if bool_decide (status = PropertyStatuses.OK) then publish impl' (str "Properties reloaded.")
            else Some (Some impl', command_status status, None)
        | _ => refused INVALID_ARGUMENT
        end
      else refused INVALID_ARGUMENT
  end.
End Config.

(** [QuitCommand::run]; the control records whether an exit was requested. *)
Definition quit_run (control : option bool) (args : list bytes) : option bool * Status :=
  match args, control with
  | [], Some _ => (Some true, OK)
  | _, _ => (control, INVALID_ARGUMENT)
  end.

(** ** Command mode (commands/command_mode_subsystem.cpp)

    The controller between the input frame and the dispatcher: completions and
    usage for the text typed so far, autocompletion, and running commands.  The
    frame is an interface: its operations are those the controller calls. *)

(** ** Text *)

(** [std::isspace] in the "C" locale. *)
Definition is_space (byte : Z) : bool := ((9 <=? byte) && (byte <=? 13)) || (byte =? 32).

(** The longest prefix of bytes that satisfy [keep], and the rest. *)
Fixpoint span (keep : Z -> bool) (text : bytes) : bytes * bytes :=
  match text with
  | [] => ([], [])
  | byte :: rest => if keep byte then let '(kept, rest) := span keep rest in (byte :: kept, rest) else ([], text)
  end.

(** One unit of fuel per round of the outer loop. *)
Fixpoint tokenize_loop (fuel : nat) (text : bytes) : list bytes :=
  match fuel, text with
  | S fuel, _ :: _ =>
      let '(token, rest) := span (fun byte => negb (is_space byte)) (snd (span is_space text)) in
      (if bool_decide (token = []) then [] else [token]) ++ tokenize_loop fuel rest
  | _, _ => []
  end.

Definition tokenize (text : bytes) : list bytes := tokenize_loop (length text) text.

Fixpoint usage_rows (usage : bytes) : list bytes :=
  match usage with
  | [] => [[]]
  | byte :: rest =>
      if byte =? 10 then [] :: usage_rows rest
      else match usage_rows rest with row :: rows => (byte :: row) :: rows | [] => [[byte]] end
  end.

(** Up to [find_first_of] of space, tab, carriage return and newline. *)
Definition command_prefix (text : bytes) : bytes :=
  fst (span (fun byte => negb (existsb (Z.eqb byte) [32; 9; 13; 10])) text).

(** ** The input frame *)

Inductive InputMode := NORMAL | COMMAND | TERMINAL.

#[export] Instance InputMode_eq_dec : EqDecision InputMode.
Proof. solve_decision. Defined.

(** A completion is a spelling with its description. *)
Class InputFrame (F : Type) := {
  frame_mode : F -> InputMode;
  frame_command_text : F -> bytes;
  frame_handle_event : F -> Event -> F * Tui.Status;
  replace_command_text : F -> bytes -> F * Tui.Status;
  leave_command_mode : F -> F;
  clear_command_help : F -> F;
  set_command_usage : F -> list bytes -> F;
  set_command_completions : F -> bytes -> list (bytes * bytes) -> nat -> F;
  set_notification : F -> bytes -> F;
}.

(** Showing or hiding help changes neither the mode nor the command text: the
    help is a part of the frame of its own (CmdFrame::set_completions,
    set_usage, clear_help). *)
Class InputFrameLaws (F : Type) `{InputFrame F} := {
  usage_keeps f rows : frame_mode (set_command_usage f rows) = frame_mode f /\
    frame_command_text (set_command_usage f rows) = frame_command_text f;
  completions_keep f typed found selected : frame_mode (set_command_completions f typed found selected) = frame_mode f /\
    frame_command_text (set_command_completions f typed found selected) = frame_command_text f;
  clear_keeps f : frame_mode (clear_command_help f) = frame_mode f /\
    frame_command_text (clear_command_help f) = frame_command_text f;
}.

(** ** The controller *)

Section Controller.
Context (char_signed : bool) {CommandApp : Type}.
Context (description usage_of : CommandApp -> bytes) (status_message : CommandStatuses.Status -> bytes).
Context {F : Type} `{InputFrame F}.
Abbreviation CommandTrie := (list (TrieNode Z (option CommandApp))).

(** [executed]: the command lines handed to commands, in order; [app] is
    whether [app_] is bound. *)
Record Controller := {
  input_frame : option F;
  dispatcher : option CommandTrie;
  app : bool;
  completions : list (bytes * bytes);
  usage : bytes;
  prefix : bytes;
  selected_completion : nat;
  waiting_for_acknowledgement : bool;
  active : bool;
  executed : list (list bytes);
}.

Definition new_controller : Controller :=
  {| input_frame := None; dispatcher := None; app := false; completions := []; usage := []; prefix := [];
     selected_completion := 0; waiting_for_acknowledgement := false; active := false; executed := [] |}.

Definition with_frame (c : Controller) (f : F) : Controller :=
  {| input_frame := Some f; dispatcher := dispatcher c; app := app c; completions := completions c; usage := usage c;
     prefix := prefix c; selected_completion := selected_completion c;
     waiting_for_acknowledgement := waiting_for_acknowledgement c; active := active c; executed := executed c |}.

Definition with_help (c : Controller) (f : F) (completions : list (bytes * bytes)) (usage prefix : bytes) (selected : nat) : Controller :=
  {| input_frame := Some f; dispatcher := dispatcher c; app := app c; completions := completions; usage := usage;
     prefix := prefix; selected_completion := selected;
     waiting_for_acknowledgement := waiting_for_acknowledgement c; active := active c; executed := executed c |}.

Definition with_waiting (c : Controller) (waiting : bool) (executed : list (list bytes)) : Controller :=
  {| input_frame := input_frame c; dispatcher := dispatcher c; app := app c; completions := completions c; usage := usage c;
     prefix := prefix c; selected_completion := selected_completion c;
     waiting_for_acknowledgement := waiting; active := active c; executed := executed |}.

Definition with_running (c : Controller) (running : bool) : Controller :=
  {| input_frame := input_frame c; dispatcher := dispatcher c; app := running; completions := completions c; usage := usage c;
     prefix := prefix c; selected_completion := selected_completion c;
     waiting_for_acknowledgement := waiting_for_acknowledgement c; active := running; executed := executed c |}.

Definition refresh_help (c : Controller) : Controller :=
  match input_frame c, dispatcher c with
  | Some f, Some d =>
      if negb (bool_decide (frame_mode f = COMMAND)) then with_help c (clear_command_help f) [] [] [] 0
      else
        let next_prefix := command_prefix (frame_command_text f) in
        let selected := if bool_decide (next_prefix = prefix c) then selected_completion c else 0%nat in
        let found := map (fun spelling => (spelling, get_command_description char_signed description d spelling))
          (list_completions char_signed d next_prefix) in
        let selected := if bool_decide (found = []) then 0%nat else Nat.min selected (length found - 1) in
        let usage := if Commands.contains char_signed d next_prefix then get_command_usage char_signed usage_of d next_prefix else [] in
        let f :=
          if negb (bool_decide (usage = [])) then set_command_usage f (usage_rows usage)
          else if negb (bool_decide (found = []))
               && ((1 <? length found)%nat || negb (bool_decide (fst <$> head found = Some next_prefix)))
          then set_command_completions f next_prefix found selected
          else clear_command_help f in
        with_help c f found usage next_prefix selected
  | _, _ => c
  end.

Definition autocomplete (c : Controller) : Controller * Tui.Status :=
  match input_frame c, completions c with
  | None, _ | _, [] => (c, Tui.OK)
  | Some f, first :: _ =>
      let selected := Nat.min (selected_completion c) (length (completions c) - 1) in
      let c := with_help c f (completions c) (usage c) (prefix c) selected in
      let '(f, status) := replace_command_text f (fst (nth selected (completions c) first) ++ [32]) in
      let c := with_frame c f in
      (if Tui.is_ok status then refresh_help c else c, status)
  end.

(** [run] is the command's result; [commands_available] whether the command
    subsystem is found. *)
Definition dispatch_line (run : CommandApp -> list bytes -> CommandStatuses.Status) (commands_available : bool) (c : Controller)
  : Controller * Tui.Status :=
  match input_frame c, dispatcher c, app c with
  | Some f, Some d, true =>
      match tokenize (frame_command_text f) with
      | [] => (with_waiting (with_frame c (set_notification f (status_message CommandStatuses.INVALID_ARGUMENT))) true (executed c), Tui.OK)
      | name :: args =>
          if negb commands_available then (c, Tui.INVALID_ARGUMENT)
          else
            let '(result, ran) :=
              Commands.dispatch char_signed (fun command args => (run command args, [name :: args])) [] d name args in
            let f := if bool_decide (result = CommandStatuses.OK) then f else set_notification f (status_message result) in
            (with_waiting (with_help c (clear_command_help f) [] [] (prefix c) (selected_completion c)) true (executed c ++ ran), Tui.OK)
      end
  | _, _, _ => (c, Tui.INVALID_ARGUMENT)
  end.

(** The named key of a press or repeat; the first component is whether there is
    any pressed key. *)
Definition pressed_key (event : Event) : bool * option NamedKey :=
  match event with
  | EKey pressed =>
      if bool_decide (key_action pressed = KeyActions.RELEASE) then (false, None)
      else (true, match Events.key pressed with NamedCode named => Some named | _ => None end)
  | _ => (false, None)
  end.

Definition select (c : Controller) (f : F) (selected : nat) : Controller :=
  refresh_help (with_help c f (completions c) (usage c) (prefix c) selected).

Definition handle_event (run : CommandApp -> list bytes -> CommandStatuses.Status) (commands_available : bool) (c : Controller)
    (event : Event) : Controller * Tui.Status :=
  match input_frame c, dispatcher c, active c && app c with
  | Some f, Some d, true =>
      let '(pressed, named) := pressed_key event in
      if waiting_for_acknowledgement c && pressed then
        (with_waiting (with_help c (clear_command_help (leave_command_mode f)) [] [] [] (selected_completion c)) false (executed c), Tui.OK)
      else
        let forward :=
          let '(f, status) := frame_handle_event f event in
          let c := with_frame c f in
          (if Tui.is_ok status then refresh_help c else c, status) in
        if bool_decide (frame_mode f = COMMAND) then
          match named with
          | Some NamedKeys.UP =>
              if bool_decide (completions c = []) then forward
              else
                (select c f (if (selected_completion c =? 0)%nat then length (completions c) - 1 else selected_completion c - 1), Tui.OK)
          | Some NamedKeys.DOWN =>
              if bool_decide (completions c = []) then forward
              else (select c f ((selected_completion c + 1) mod length (completions c)), Tui.OK)
          | Some NamedKeys.TAB => autocomplete c
          | Some NamedKeys.ENTER | Some NamedKeys.KEYPAD_ENTER =>
              match tokenize (frame_command_text f) with
              | name :: _ =>
                  if Commands.contains char_signed d name then dispatch_line run commands_available c
                  else if bool_decide (completions c = []) then dispatch_line run commands_available c
                  else autocomplete c
              | [] => if bool_decide (completions c = []) then dispatch_line run commands_available c else autocomplete c
              end
          | _ => forward
          end
        else forward
  | _, _, _ => (c, Tui.INVALID_ARGUMENT)
  end.

(** ** The lifecycle *)

Definition initialize (c : Controller) (frame : option F) (d : option CommandTrie) : Controller * bool :=
  match frame, d with
  | Some f, Some d =>
      ({| input_frame := Some f; dispatcher := Some d; app := app c; completions := completions c; usage := usage c;
          prefix := prefix c; selected_completion := selected_completion c;
          waiting_for_acknowledgement := waiting_for_acknowledgement c; active := active c; executed := executed c |}, true)
  | _, _ => (c, false)
  end.

Definition start (c : Controller) : Controller * bool :=
  match input_frame c, dispatcher c with
  | Some f, Some _ =>
      let c := with_running c true in
      (if waiting_for_acknowledgement c then with_frame c (clear_command_help f) else refresh_help c, true)
  | _, _ => (c, false)
  end.

Definition stop (c : Controller) : Controller := with_running c false.

(** The frame is released; its last state is the second component. *)
Definition terminate (c : Controller) : Controller * option F :=
  ({| input_frame := None; dispatcher := None; app := false; completions := []; usage := []; prefix := [];
      selected_completion := 0; waiting_for_acknowledgement := false; active := false; executed := executed c |},
   clear_command_help <$> input_frame c).
End Controller.
