(* ===== verification/CommandProps.v ===== *)
(** * What the dispatcher and command mode promise

    The dispatcher is a finite map from spellings to commands whose completions
    are exact and sorted; command mode completes with registered spellings only
    and runs a command once per entered line that names it. *)
From S2P Require Import Prelude Bytes Text Events Tui Trie StringMap Views Config Properties Commands.
From Stdlib Require Import Sorted.
Open Scope Z_scope.

(** ** Keys *)

Section Dispatcher.
Context (char_signed : bool) {CommandApp : Type}.

Lemma wrap_to_char byte : is_byte byte -> wrap 8 (to_char char_signed byte) = byte.
Proof.
  unfold to_char, wrap, in_width. intros Hb. destruct (char_signed && (128 <=? byte)).
  - replace (byte - 256) with (byte + (-1) * 2 ^ 8) by lia. rewrite Z.mod_add by lia. apply Z.mod_small. lia.
  - apply Z.mod_small. lia.
Qed.

Lemma of_command_key name : Forall is_byte name -> of_key (command_key char_signed name) = name.
Proof.
  induction 1 as [|b name Hb _ IH]; [done|]. unfold of_key, command_key in *. cbn [map]. by rewrite wrap_to_char, IH.
Qed.

Lemma command_key_inj name name' :
  Forall is_byte name -> Forall is_byte name' -> command_key char_signed name = command_key char_signed name' -> name = name'.
Proof. intros Hn Hn' E. by rewrite <- (of_command_key name), <- (of_command_key name'), E. Qed.

(** A key that extends the key of a prefix is the key of an extension. *)
Lemma command_key_prefix prefix name suffix :
  Forall is_byte prefix -> Forall is_byte name -> command_key char_signed name = command_key char_signed prefix ++ suffix ->
  exists rest, name = prefix ++ rest.
Proof.
  intros Hp Hn E. exists (of_key suffix). rewrite <- (of_command_key name), E by done. unfold of_key at 1.
  rewrite map_app. f_equal. by apply of_command_key.
Qed.

(** ** The specification *)

Definition SpecMap : Type := bytes -> option CommandApp.

Definition spec_register (m : SpecMap) (name : bytes) (aliases : list bytes) (command : option CommandApp) : SpecMap * CommandStatuses.Status :=
  let spellings := name :: aliases in
  if negb (bool_decide (is_Some command)) || negb (forallb valid_command_name spellings) then (m, CommandStatuses.INVALID_ARGUMENT)
  else if negb (bool_decide (NoDup spellings)) || existsb (fun s => bool_decide (is_Some (m s))) spellings
  then (m, CommandStatuses.DUPLICATE_COMMAND_NAME)
  else (fun s => if bool_decide (s ∈ spellings) then command else m s, CommandStatuses.OK).

(** A registration call. *)
Record Registration := { reg_name : bytes; reg_aliases : list bytes; reg_command : option CommandApp }.

Definition registration_bytes (r : Registration) : Prop := Forall (Forall is_byte) (reg_name r :: reg_aliases r).

Abbreviation CommandTrie := (list (TrieNode Z (option CommandApp))).

Definition run_registrations (calls : list Registration) : CommandTrie * list CommandStatuses.Status :=
  fold_left (fun '(d, statuses) r =>
    let '(d, status) := register_command char_signed d (reg_name r) (reg_aliases r) (reg_command r) in (d, statuses ++ [status]))
    calls (new_dispatcher, []).

Definition spec_registrations (calls : list Registration) : SpecMap * list CommandStatuses.Status :=
  fold_left (fun '(m, statuses) r =>
    let '(m, status) := spec_register m (reg_name r) (reg_aliases r) (reg_command r) in (m, statuses ++ [status]))
    calls (fun _ => None, []).

Record dispatcher_ok (d : CommandTrie) (m : SpecMap) : Prop := {
  disp_wf : trie_wf None d;
  disp_find : forall name, Forall is_byte name -> Trie.find None d (command_key char_signed name) = Some <$> m name;
  disp_keys : forall key, is_Some (Trie.find None d key) -> exists name, Forall is_byte name /\ key = command_key char_signed name;
  disp_names : forall name, is_Some (m name) -> valid_command_name name = true;
}.

Lemma has_duplicates_iff spellings : has_duplicates spellings = negb (bool_decide (NoDup spellings)).
Proof.
  induction spellings as [|s spellings IH]; [done|]. cbn [has_duplicates]. rewrite IH.
  destruct (decide (s ∈ spellings)) as [Hin|Hin].
  - assert (Hno : ~ NoDup (s :: spellings)) by (by intros [? _]%NoDup_cons).
    by rewrite (bool_decide_eq_true_2 (s ∈ spellings)), (bool_decide_eq_false_2 (NoDup (s :: spellings))).
  - rewrite (bool_decide_eq_false_2 (s ∈ spellings)) by done. cbn. f_equal. apply bool_decide_ext. rewrite NoDup_cons.
    split; [by split|by intros [_ ?]].
Qed.

Lemma insert_all_spec (command : option CommandApp) names : forall d : CommandTrie,
  trie_wf None d ->
  let d' := fold_left (fun d key => fst (Trie.insert None d key command)) (map (command_key char_signed) names) d in
  trie_wf None d' /\ forall key, Trie.find None d' key =
    if decide (key ∈ map (command_key char_signed) names) then Some command else Trie.find None d key.
Proof.
  induction names as [|name names IH]; intros d Hw; cbn [map fold_left].
  - split; [done|]. intros key. by rewrite decide_False by (by intros ?%elem_of_nil).
  - pose proof (Trie.insert_spec None d (command_key char_signed name) command Hw) as Hi.
    destruct (Trie.insert None d (command_key char_signed name) command) as [d1 index]. destruct Hi as (Hw1 & _ & Hf & _).
    destruct (IH d1 Hw1) as [Hw' Hf']. split; [done|]. intros key. cbn [fst]. rewrite Hf', Hf.
    destruct (decide (key ∈ map (command_key char_signed) names)) as [Hin|Hin].
    + rewrite decide_True; [done|]. apply elem_of_cons. by right.
    + destruct (decide (key = command_key char_signed name)) as [->|Hne].
      * rewrite decide_True; [done|]. apply elem_of_cons. by left.
      * rewrite decide_False; [done|]. by intros [?|?]%elem_of_cons.
Qed.

Lemma register_step d m name aliases command :
  dispatcher_ok d m -> Forall (Forall is_byte) (name :: aliases) ->
  let '(d', status) := register_command char_signed d name aliases command in
  let '(m', status') := spec_register m name aliases command in
  status = status' /\ dispatcher_ok d' m'.
Proof.
  intros Hok Hbytes. unfold register_command, spec_register. cbn [forallb].
  destruct (bool_decide (is_Some command)) eqn:Ec; cbn [negb orb]; [|done].
  destruct (valid_command_name name) eqn:Ev; cbn [negb orb andb]; [|done].
  destruct (forallb valid_command_name aliases) eqn:Ea; cbn [negb orb]; [|done].
  rewrite has_duplicates_iff. destruct (bool_decide (NoDup (name :: aliases))) eqn:En; cbn [negb orb]; [|done].
  assert (Hex : existsb (fun key => bool_decide (is_Some (Trie.find None d key))) (map (command_key char_signed) (name :: aliases)) =
    existsb (fun s => bool_decide (is_Some (m s))) (name :: aliases)).
  { clear - Hok Hbytes. induction Hbytes as [|s l Hs _ IH]; [done|]. cbn [existsb map]. rewrite IH. f_equal.
    apply bool_decide_ext. rewrite (disp_find _ _ Hok s Hs). by rewrite fmap_is_Some. }
  rewrite Hex. destruct (existsb _ (name :: aliases)) eqn:Ex; [done|]. split; [done|].
  apply bool_decide_eq_true in Ec as [c ->].
  destruct (insert_all_spec (Some c) (name :: aliases) d (disp_wf _ _ Hok)) as [Hw Hf].
  assert (Hmem : forall s, Forall is_byte s -> command_key char_signed s ∈ map (command_key char_signed) (name :: aliases) <-> s ∈ name :: aliases).
  { intros s Hs. rewrite list_elem_of_fmap. split; [|by intros ?; exists s].
    intros (s' & E & Hin). apply command_key_inj in E as ->; [done|done|]. by apply (proj1 (Forall_forall _ _) Hbytes). }
  split; [done| | |].
  - intros s Hs. rewrite Hf. destruct (decide (s ∈ name :: aliases)) as [Hin|Hin].
    + rewrite decide_True by (by apply Hmem). by rewrite (bool_decide_eq_true_2 (s ∈ name :: aliases)).
    + rewrite decide_False by (by rewrite Hmem). rewrite (bool_decide_eq_false_2 (s ∈ name :: aliases)) by done.
      by apply disp_find.
  - intros key. rewrite Hf. case_decide as Hin; [|by apply (disp_keys _ _ Hok)]. intros _.
    apply list_elem_of_fmap in Hin as (s & -> & Hs). exists s. split; [|done]. by apply (proj1 (Forall_forall _ _) Hbytes).
  - intros s. destruct (decide (s ∈ name :: aliases)) as [Hin|Hin].
    2: { rewrite (bool_decide_eq_false_2 (s ∈ name :: aliases)) by done. apply (disp_names _ _ Hok). }
    intros _. apply elem_of_cons in Hin as [->|Hin]; [done|]. rewrite forallb_forall in Ea. by apply Ea, list_elem_of_In.
Qed.

Lemma new_dispatcher_ok : dispatcher_ok new_dispatcher (fun _ => None).
Proof.
  assert (Hnone : forall key, Trie.find (V := option CommandApp) None (new_trie None) key = None).
  { intros key. apply (find_run (K := Z) (V := option CommandApp) None [] key). }
  split; [apply new_trie_wf| | |].
  - intros name _. apply Hnone.
  - intros key. unfold new_dispatcher. rewrite Hnone. by intros [].
  - by intros name [].
Qed.

Lemma run_registrations_ok calls :
  Forall registration_bytes calls ->
  (run_registrations calls).2 = (spec_registrations calls).2 /\
  dispatcher_ok (run_registrations calls).1 (spec_registrations calls).1.
Proof.
  unfold run_registrations, spec_registrations. intros Hcalls.
  enough (G : forall d m (l : list CommandStatuses.Status), dispatcher_ok d m ->
    let run := fold_left (fun '(d, statuses) r =>
      let '(d, status) := register_command char_signed d (reg_name r) (reg_aliases r) (reg_command r) in (d, statuses ++ [status])) calls (d, l) in
    let spec := fold_left (fun '(m, statuses) r =>
      let '(m, status) := spec_register m (reg_name r) (reg_aliases r) (reg_command r) in (m, statuses ++ [status])) calls (m, l) in
    run.2 = spec.2 /\ dispatcher_ok run.1 spec.1) by apply G, new_dispatcher_ok.
  induction Hcalls as [|r calls Hr _ IH]; intros d m l Hok; [done|]. cbn [fold_left].
  pose proof (register_step d m _ _ (reg_command r) Hok Hr) as Hstep.
  destruct (register_command _ _ _ _ _) as [d' s], (spec_register _ _ _ _) as [m' s']. destruct Hstep as [-> Hok']. by apply IH.
Qed.

(** C31. The dispatcher refines a map from spellings to commands.  A history of
    registrations returns the specified statuses, adding all the spellings of a
    call or none; looking up, describing and dispatching a name use the command
    of the map; and the completions of a prefix are, sorted as characters and
    each once, exactly the registered spellings that begin with it. *)
Theorem commands_refine_map calls :
  Forall registration_bytes calls ->
  let '(d, statuses) := run_registrations calls in
  let '(m, expected) := spec_registrations calls in
  statuses = expected /\
  (forall name, Forall is_byte name -> find_command char_signed d name = m name /\ Commands.contains char_signed d name = bool_decide (is_Some (m name))) /\
  (forall prefix, Forall is_byte prefix ->
    StronglySorted lex_lt (map (command_key char_signed) (list_completions char_signed d prefix)) /\
    forall name, name ∈ list_completions char_signed d prefix <->
      Forall is_byte name /\ (exists suffix, name = prefix ++ suffix) /\ is_Some (m name)).
Proof.
  intros Hcalls. pose proof (run_registrations_ok calls Hcalls) as [Hst Hok].
  destruct (run_registrations calls) as [d statuses], (spec_registrations calls) as [m expected]. cbn in Hst, Hok.
  assert (Hfind : forall name, Forall is_byte name -> find_command char_signed d name = m name).
  { intros name Hn. unfold find_command. rewrite (disp_find _ _ Hok) by done. by destruct (m name). }
  split; [done|]. split.
  - intros name Hn. split; [by apply Hfind|]. unfold Commands.contains. rewrite Hfind by done.
    destruct (m name) as [c|] eqn:E; [|by rewrite andb_false_r]. by rewrite (disp_names _ _ Hok) by (by rewrite E).
  - intros prefix Hp.
    destruct (completions_of_wf None d (command_key char_signed prefix) (disp_wf _ _ Hok)) as [Hsorted Hmem].
    assert (Hcontains : forall key, Trie.contains None d key = true <-> is_Some (Trie.find None d key)).
    { intros key. pose proof (erase_spec None d key (disp_wf _ _ Hok)) as He. destruct (Trie.erase None d key).
      destruct He as (_ & _ & -> & _). apply bool_decide_eq_true. }
    assert (Hkeys : forall key, key ∈ Trie.completions None d (command_key char_signed prefix) ->
      exists name, Forall is_byte name /\ key = command_key char_signed name).
    { intros key [_ Hc]%Hmem. by apply (disp_keys _ _ Hok), Hcontains. }
    unfold list_completions. destruct (negb _ && negb _) eqn:Einvalid.
    + split; [constructor|]. intros name. split; [by intros ?%elem_of_nil|]. intros (_ & [suffix ->] & Hm).
      apply (disp_names _ _ Hok) in Hm. apply andb_prop in Einvalid as [Hne Hinv]. exfalso. revert Hm Hinv Hne.
      unfold valid_command_name. rewrite forallb_app. intros [_ [H1 _]%andb_prop]%andb_prop. rewrite H1, andb_true_r.
      by destruct (bool_decide (prefix = [])).
    + split.
      * rewrite map_map, map_ext_in with (g := fun key => key), map_id; [done|].
        intros key Hkey%list_elem_of_In. destruct (Hkeys _ Hkey) as (name & Hn & ->). by rewrite of_command_key.
      * intros name. rewrite list_elem_of_fmap. split.
        -- intros (key & -> & Hkey). destruct (Hkeys _ Hkey) as (name & Hn & ->). rewrite of_command_key by done.
           apply Hmem in Hkey as [[suffix E] Hc%Hcontains]. split; [done|]. split; [by apply (command_key_prefix _ _ suffix)|].
           rewrite (disp_find _ _ Hok) in Hc by done. by apply fmap_is_Some in Hc.
        -- intros (Hn & [suffix ->] & Hm). exists (command_key char_signed (prefix ++ suffix)).
           split; [by rewrite of_command_key|]. apply Hmem. split.
           ++ exists (command_key char_signed suffix). apply map_app.
           ++ apply Hcontains. rewrite (disp_find _ _ Hok) by done. by apply fmap_is_Some.
Qed.
End Dispatcher.

(** ** Tokens *)

(** The pieces between separators, empty ones included. *)
Fixpoint pieces (separator : Z -> bool) (text : bytes) : list bytes :=
  match text with
  | [] => [[]]
  | byte :: rest =>
      if separator byte then [] :: pieces separator rest
      else match pieces separator rest with piece :: more => (byte :: piece) :: more | [] => [[byte]] end
  end.

Definition nonempty (piece : bytes) : bool := negb (bool_decide (piece = [])).

Lemma pieces_cons separator text : exists piece more, pieces separator text = piece :: more.
Proof. destruct text as [|b rest]; cbn; [by eexists _, _|]. destruct (separator b), (pieces separator rest); by eexists _, _. Qed.

Lemma span_length keep text : (length (snd (span keep text)) <= length text)%nat.
Proof. induction text as [|b text IH]; cbn; [lia|]. destruct (keep b); [|done]. destruct (span keep text). cbn in *. lia. Qed.

(** Leading separators only make empty pieces. *)
Lemma pieces_skip separator text :
  List.filter nonempty (pieces separator text) = List.filter nonempty (pieces separator (snd (span separator text))).
Proof.
  induction text as [|b text IH]; [done|]. cbn [pieces span]. destruct (separator b) eqn:E; [|by cbn; rewrite E].
  destruct (span separator text). cbn [snd] in *. by rewrite <- IH.
Qed.

(** The first piece is the text up to a separator. *)
Lemma pieces_span separator text :
  let '(token, rest) := span (fun byte => negb (separator byte)) text in
  pieces separator text = token :: match rest with [] => [] | _ :: rest => pieces separator rest end.
Proof.
  induction text as [|b text IH]; [done|]. cbn. destruct (separator b); cbn; [done|].
  destruct (span _ text) as [token rest]. by rewrite IH.
Qed.

Lemma span_rest keep text b rest : snd (span keep text) = b :: rest -> keep b = false.
Proof.
  induction text as [|a text IH]; cbn; [done|]. destruct (keep a) eqn:E; [|by intros [= <- <-]].
  destruct (span keep text). exact IH.
Qed.

Lemma tokenize_loop_pieces fuel : forall text, (length text <= fuel)%nat ->
  tokenize_loop fuel text = List.filter nonempty (pieces is_space text).
Proof.
  induction fuel as [|fuel IH]; intros [|b text] Hl; try done; [cbn in Hl; lia|].
  cbn [tokenize_loop]. rewrite pieces_skip. pose proof (span_length is_space (b :: text)) as Hlen.
  pose proof (span_rest is_space (b :: text)) as Hfirst.
  destruct (span is_space (b :: text)) as [skipped text'] eqn:Es. cbn [snd] in *.
  pose proof (pieces_span is_space text') as Hp. pose proof (span_length (fun byte => negb (is_space byte)) text') as Hlen'.
  destruct (span (fun byte => negb (is_space byte)) text') as [token rest] eqn:Et. rewrite Hp. cbn [snd] in *.
  assert (Hrest : text' <> [] -> (length rest < length text')%nat).
  { destruct text' as [|a text']; [done|]. intros _. cbn in Et. specialize (Hfirst a text' eq_refl). rewrite Hfirst in Et. cbn in Et.
    pose proof (span_length (fun byte => negb (is_space byte)) text') as Hl''. destruct (span _ text') as [t r].
    injection Et as <- <-. cbn in *. lia. }
  assert (Hle : (length rest <= fuel)%nat).
  { destruct text' as [|a text']; [injection Et as <- <-; cbn; lia|]. specialize (Hrest ltac:(done)). cbn in *. lia. }
  rewrite IH by done. cbn [List.filter]. unfold nonempty at 2. case_bool_decide as Htok; cbn [negb app].
  - destruct rest as [|c rest]; [done|]. cbn [pieces].
    pose proof (span_rest (fun byte => negb (is_space byte)) text' c rest) as Hc. rewrite Et in Hc. specialize (Hc eq_refl).
    apply negb_false_iff in Hc. by rewrite Hc.
  - f_equal. destruct rest as [|c rest]; [done|]. cbn [pieces].
    pose proof (span_rest (fun byte => negb (is_space byte)) text' c rest) as Hc. rewrite Et in Hc. specialize (Hc eq_refl).
    apply negb_false_iff in Hc. by rewrite Hc.
Qed.

(** The tokens of a line are its nonempty pieces between white space, and the
    rows of a usage text its pieces between newlines. *)
Lemma tokenize_pieces text : tokenize text = List.filter nonempty (pieces is_space text).
Proof. by apply tokenize_loop_pieces. Qed.

Lemma pieces_ext separator separator' text :
  (forall byte, separator byte = separator' byte) -> pieces separator text = pieces separator' text.
Proof. intros E. induction text as [|byte text IH]; [done|]. cbn. by rewrite E, IH. Qed.

(** The words of a line, between white space, and the first word of a text. *)
Definition white_space (byte : Z) : bool := existsb (Z.eqb byte) [9; 10; 11; 12; 13; 32].

Definition words (text : bytes) : list bytes := List.filter nonempty (pieces white_space text).

Lemma tokenize_words text : tokenize text = words text.
Proof.
  rewrite tokenize_pieces. unfold words. f_equal. apply pieces_ext. intros byte. unfold is_space, white_space. cbn. lia.
Qed.

Definition first_word (text : bytes) : bytes :=
  default [] (head (pieces (fun byte => existsb (Z.eqb byte) [9; 10; 13; 32]) text)).

Lemma command_prefix_first_word text : command_prefix text = first_word text.
Proof.
  unfold first_word, command_prefix. rewrite (pieces_ext _ (fun byte => existsb (Z.eqb byte) [32; 9; 13; 10])) by (intros byte; cbn; lia).
  pose proof (pieces_span (fun byte => existsb (Z.eqb byte) [32; 9; 13; 10]) text) as H. destruct (span _ text) as [token rest]. by rewrite H.
Qed.

Lemma usage_rows_pieces usage : usage_rows usage = pieces (Z.eqb 10) usage.
Proof.
  induction usage as [|b usage IH]; [done|]. cbn. rewrite IH. by rewrite Z.eqb_sym.
Qed.

(** ** The controller *)

Section Controller.
Context (char_signed : bool) {CommandApp : Type}.
Context (description usage_of : CommandApp -> bytes) (status_message : CommandStatuses.Status -> bytes).
Context {F : Type} `{InputFrame F}.
Abbreviation CommandTrie := (list (TrieNode Z (option CommandApp))).
Abbreviation Control := (Controller (CommandApp := CommandApp) (F := F)).
Local Abbreviation refresh := (refresh_help char_signed description usage_of).
Local Abbreviation complete := (autocomplete char_signed description usage_of).
Local Abbreviation enter := (dispatch_line char_signed status_message).
Local Abbreviation handle := (handle_event char_signed description usage_of status_message).

(** The selected completion exists, and every completion is a registered
    spelling that extends the prefix. *)
Record control_ok (c : Control) : Prop := {
  control_selected : completions c <> [] -> (selected_completion c < length (completions c))%nat;
  control_completions : forall entry, entry ∈ completions c ->
    exists d, dispatcher c = Some d /\ fst entry ∈ list_completions char_signed d (prefix c);
}.

Lemma control_empty c : completions c = [] -> control_ok c.
Proof. intros Hc. split; rewrite Hc; [done|by intros entry ?%elem_of_nil]. Qed.

Lemma refresh_ok (c : Control) : control_ok c -> control_ok (refresh c).
Proof.
  intros Hok. unfold refresh_help. destruct (input_frame c) as [f|]; [|done]. destruct (dispatcher c) as [d|] eqn:Ed; [|done].
  destruct (negb _); [by apply control_empty|]. split; cbn.
  - intros Hne. rewrite bool_decide_eq_false_2 by done. destruct (map _ _) as [|e l]; [done|]. cbn [length]. lia.
  - intros entry (spelling & -> & Hin)%list_elem_of_fmap. by exists d.
Qed.

(** What [refresh_help] and a change of the frame leave alone. *)
Definition same_control (c c' : Control) : Prop :=
  dispatcher c' = dispatcher c /\ executed c' = executed c /\ waiting_for_acknowledgement c' = waiting_for_acknowledgement c.

Lemma refresh_same (c : Control) : same_control c (refresh c).
Proof.
  unfold refresh_help. destruct (input_frame c); [|done]. destruct (dispatcher c) eqn:Ed; [|done].
  destruct (negb _); unfold same_control; cbn; by rewrite Ed.
Qed.

Lemma with_frame_ok (c : Control) f : control_ok c -> control_ok (with_frame c f).
Proof. intros [? ?]. by split. Qed.

Lemma with_waiting_ok (c : Control) waiting ran : control_ok c -> control_ok (with_waiting c waiting ran).
Proof. intros [? ?]. by split. Qed.

Lemma complete_ok (c : Control) : control_ok c -> control_ok (complete c).1 /\ same_control c (complete c).1.
Proof.
  intros Hok. unfold autocomplete. destruct (input_frame c) as [f|]; [|done]. destruct (completions c) as [|first rest] eqn:Ec; [done|].
  rewrite <- Ec. set (selected := Nat.min _ _). set (c1 := with_help c f _ _ _ selected).
  assert (Hc1 : control_ok c1).
  { split; cbn; [|apply Hok]. intros _. unfold selected. rewrite Ec. cbn [length]. lia. }
  destruct (replace_command_text f _) as [f' status]. cbn [fst]. destruct (Tui.is_ok status).
  - split; [by apply refresh_ok, with_frame_ok|]. pose proof (refresh_same (with_frame c1 f')) as (Hd & He & Hw). by split_and!.
  - split; [by apply with_frame_ok|done].
Qed.

Lemma enter_ok run available (c : Control) : control_ok c -> control_ok (enter run available c).1.
Proof.
  intros Hok. unfold dispatch_line. destruct (input_frame c) as [f|]; [|done]. destruct (dispatcher c) as [d|]; [|done].
  destruct (app c); [|done]. destruct (tokenize _) as [|name args]; [by apply with_waiting_ok, with_frame_ok|].
  destruct available; cbn; [|done]. destruct (Commands.dispatch _ _ _ _ _ _) as [result ran]. cbn.
  by apply with_waiting_ok, control_empty.
Qed.

(** A key that goes down or repeats, and its name. *)
Definition key_down (event : Event) : bool :=
  match event with EKey key => negb (bool_decide (key_action key = KeyActions.RELEASE)) | _ => false end.

Definition key_name (event : Event) : option NamedKey :=
  match event with
  | EKey key => if key_down event then match Events.key key with NamedCode named => Some named | _ => None end else None
  | _ => None
  end.

Lemma pressed_key_spec event : pressed_key event = (key_down event, key_name event).
Proof. destruct event; try done. cbn. by case_bool_decide. Qed.

Lemma key_up_name event : key_down event = false -> key_name event = None.
Proof. intros Hdown. destruct event; try done. unfold key_name. by rewrite Hdown. Qed.

(** The line that an event runs, if any. *)
Definition line_run (available : bool) (c : Control) (event : Event) : list (list bytes) :=
  match input_frame c, dispatcher c, active c && app c with
  | Some f, Some d, true =>
      if negb (waiting_for_acknowledgement c) && bool_decide (frame_mode f = COMMAND) && available
         && bool_decide (key_name event = Some NamedKeys.ENTER \/ key_name event = Some NamedKeys.KEYPAD_ENTER)
      then match words (frame_command_text f) with
           | name :: args => if Commands.contains char_signed d name then [name :: args] else []
           | [] => []
           end
      else []
  | _, _, _ => []
  end.

Lemma enter_executes run available (c : Control) f d :
  input_frame c = Some f -> dispatcher c = Some d -> app c = true ->
  let c' := (enter run available c).1 in
  let line := tokenize (frame_command_text f) in
  executed c' = executed c ++
    (match line with name :: _ => if available && Commands.contains char_signed d name then [line] else [] | [] => [] end) /\
  (executed c' <> executed c -> waiting_for_acknowledgement c' = true).
Proof.
  intros Hf Hd Happ. unfold dispatch_line. rewrite Hf, Hd, Happ. destruct (tokenize _) as [|name args]; cbn; [by rewrite app_nil_r|].
  destruct available; cbn; [|by rewrite app_nil_r]. unfold Commands.dispatch, Commands.contains.
  destruct (valid_command_name name); cbn; [|by rewrite app_nil_r]. by destruct (find_command _ _ _); cbn; rewrite ?app_nil_r.
Qed.

(** [forward]: an event the frame handles itself. *)
Lemma forward_ok (c : Control) f event :
  control_ok c ->
  let c' := (let '(f, status) := frame_handle_event f event in
             let c := with_frame c f in (if Tui.is_ok status then refresh c else c, status)).1 in
  control_ok c' /\ same_control c c'.
Proof.
  intros Hok. destruct (frame_handle_event f event) as [f' status]. cbn [fst]. destruct (Tui.is_ok status).
  - split; [by apply refresh_ok, with_frame_ok|]. by pose proof (refresh_same (with_frame c f')) as (? & ? & ?).
  - split; [by apply with_frame_ok|done].
Qed.

Lemma select_ok (c : Control) f selected :
  control_ok c -> (selected < length (completions c))%nat ->
  control_ok (select char_signed description usage_of c f selected) /\ same_control c (select char_signed description usage_of c f selected).
Proof.
  intros Hok Hlt. unfold select. split.
  - apply refresh_ok. split; cbn; [done|apply Hok].
  - by pose proof (refresh_same (with_help c f (completions c) (usage c) (prefix c) selected)) as (? & ? & ?).
Qed.

Lemma handle_spec run available (c : Control) event :
  control_ok c ->
  let c' := (handle run available c event).1 in
  control_ok c' /\ executed c' = executed c ++ line_run available c event /\
  (executed c' <> executed c -> waiting_for_acknowledgement c' = true).
Proof.
  intros Hok. unfold handle_event, line_run.
  destruct (input_frame c) as [f|] eqn:Hf; [|by cbn; rewrite app_nil_r].
  destruct (dispatcher c) as [d|] eqn:Hd; [|by cbn; rewrite app_nil_r].
  destruct (active c && app c) eqn:Hrun; [|by cbn; rewrite app_nil_r]. apply andb_prop in Hrun as [_ Happ].
  rewrite <- tokenize_words. rewrite pressed_key_spec. pose proof (key_up_name event) as Hup.
  revert Hup. generalize (key_down event) as pressed, (key_name event) as named. intros pressed named Hup.
  destruct (waiting_for_acknowledgement c) eqn:Hwait; cbn [andb negb].
  { destruct pressed; [split; [by apply control_empty|]; cbn; by rewrite app_nil_r|]. rewrite app_nil_r.
    rewrite (Hup eq_refl).
    assert (Hquiet : forall c' : Control, control_ok c' /\ same_control c c' ->
      control_ok c' /\ executed c' = executed c /\ (executed c' <> executed c -> waiting_for_acknowledgement c' = true)).
    { intros c' (Hok' & _ & He & _). by split_and!. }
    destruct (bool_decide (frame_mode f = COMMAND)); apply Hquiet, forward_ok, Hok. }
  assert (Hquiet : forall c' : Control, control_ok c' /\ same_control c c' ->
    control_ok c' /\ executed c' = executed c ++ [] /\ (executed c' <> executed c -> waiting_for_acknowledgement c' = true)).
  { intros c' (Hok' & _ & He & _). rewrite app_nil_r. by split_and!. }
  destruct (bool_decide (frame_mode f = COMMAND)) eqn:Hmode; cbn [andb]; [|apply Hquiet, forward_ok, Hok].
  assert (Henter : named = Some NamedKeys.ENTER \/ named = Some NamedKeys.KEYPAD_ENTER \/
    bool_decide (named = Some NamedKeys.ENTER \/ named = Some NamedKeys.KEYPAD_ENTER) = false).
  { destruct (decide (named = Some NamedKeys.ENTER)) as [|Hn1]; [by left|].
    destruct (decide (named = Some NamedKeys.KEYPAD_ENTER)) as [|Hn2]; [by right; left|right; right].
    apply bool_decide_eq_false_2. by intros [?|?]. }
  pose proof (enter_executes run available c f d Hf Hd Happ) as [Hexec Hwaits].
  assert (Hline : forall k, k = Some NamedKeys.ENTER \/ k = Some NamedKeys.KEYPAD_ENTER ->
    let c' := (match tokenize (frame_command_text f) with
      | name :: _ =>
          if Commands.contains char_signed d name then enter run available c
          else if bool_decide (completions c = []) then enter run available c else complete c
      | [] => if bool_decide (completions c = []) then enter run available c else complete c
      end).1 in
    control_ok c' /\ executed c' = executed c ++
      (if available && bool_decide (k = Some NamedKeys.ENTER \/ k = Some NamedKeys.KEYPAD_ENTER)
       then match tokenize (frame_command_text f) with
            | name :: args => if Commands.contains char_signed d name then [name :: args] else []
            | [] => [] end else []) /\
    (executed c' <> executed c -> waiting_for_acknowledgement c' = true)).
  { intros k Hk. rewrite (bool_decide_eq_true_2 (k = Some NamedKeys.ENTER \/ k = Some NamedKeys.KEYPAD_ENTER)), andb_true_r by done. pose proof (enter_ok run available c Hok) as Hok'.
    destruct (tokenize (frame_command_text f)) as [|name args].
    - destruct (bool_decide (completions c = [])); [split; [done|split; [destruct available; exact Hexec|done]]|]. destruct available; apply Hquiet, complete_ok, Hok.
    - destruct (Commands.contains char_signed d name) eqn:Hc.
      + split; [done|]. split; [rewrite Hexec; by destruct available|done].
      + rewrite andb_false_r in Hexec. destruct (bool_decide (completions c = [])); [split; [done|split; [destruct available; exact Hexec|done]]|].
        destruct available; apply Hquiet, complete_ok, Hok. }
  destruct Henter as [->|[->|Hno]]; [by apply (Hline (Some NamedKeys.ENTER)); left|by apply (Hline (Some NamedKeys.KEYPAD_ENTER)); right|].
  rewrite Hno, andb_false_r. pose proof (control_selected _ Hok) as Hsel.
  apply bool_decide_eq_false in Hno.
  destruct named as [[]|]; first [exfalso; apply Hno; by left|exfalso; apply Hno; by right|apply Hquiet, forward_ok, Hok
    |apply Hquiet, complete_ok, Hok|idtac].
  - destruct (bool_decide (completions c = [])) eqn:Hnone; [apply Hquiet, forward_ok, Hok|].
    apply bool_decide_eq_false in Hnone. specialize (Hsel Hnone). apply Hquiet, select_ok; [done|].
    destruct (Nat.eqb_spec (selected_completion c) 0); lia.
  - destruct (bool_decide (completions c = [])) eqn:Hnone; [apply Hquiet, forward_ok, Hok|].
    apply bool_decide_eq_false in Hnone. apply Hquiet, select_ok; [done|]. apply Nat.mod_upper_bound.
    specialize (Hsel Hnone). lia.
Qed.

(** Histories: the lifecycle binds a frame and a dispatcher once between
    construction or termination and the next termination. *)
Inductive ControlStep :=
| InitializeStep (frame : option F) (d : option CommandTrie)
| StartStep
| StopStep
| TerminateStep
| EventStep (run : CommandApp -> list bytes -> CommandStatuses.Status) (available : bool) (event : Event).

Definition control_step (c : Control) (step : ControlStep) : Control :=
  match step with
  | InitializeStep frame d => match dispatcher c with None => (initialize c frame d).1 | Some _ => c end
  | StartStep => (Commands.start char_signed description usage_of c).1
  | StopStep => stop c
  | TerminateStep => (terminate c).1
  | EventStep run available event => (handle run available c event).1
  end.

Definition run_control (steps : list ControlStep) : Control := fold_left control_step steps new_controller.

Lemma control_step_ok (c : Control) step : control_ok c -> control_ok (control_step c step).
Proof.
  intros Hok. destruct step as [frame d| | | |run available event]; cbn [control_step].
  - destruct (dispatcher c) as [d0|] eqn:Ed; [done|]. unfold initialize. destruct frame as [f|], d as [d|]; try done. apply control_empty. cbn.
    destruct (completions c) as [|entry rest] eqn:Ec; [done|].
    destruct (control_completions _ Hok entry) as (d1 & Hd & _); [rewrite Ec; by left|congruence].
  - unfold start. destruct (input_frame c); [|done]. destruct (dispatcher c); [|done]. cbn [fst].
    assert (Hrun : control_ok (with_running c true)) by (by destruct Hok; split).
    destruct (waiting_for_acknowledgement _); [by apply with_frame_ok|by apply refresh_ok].
  - by destruct Hok; split.
  - by apply control_empty.
  - by apply handle_spec.
Qed.

Lemma run_control_ok steps : control_ok (run_control steps).
Proof.
  unfold run_control. assert (Hok : control_ok new_controller) by (by apply control_empty). revert Hok.
  generalize (new_controller (CommandApp := CommandApp) (F := F)). induction steps as [|step steps IH]; intros c Hok; [done|].
  cbn. by apply IH, control_step_ok.
Qed.

(** ** Help for what is typed *)

Context `{!InputFrameLaws F}.

(** The frame [f] with the help of [c]: the usage of an exact command, else the
    completions with the selected one, if they offer anything. *)
Definition presented (c : Control) (f : F) : F :=
  if negb (bool_decide (usage c = [])) then set_command_usage f (pieces (Z.eqb 10) (usage c))
  else if match completions c with [] => false | [entry] => negb (bool_decide (fst entry = prefix c)) | _ => true end
  then set_command_completions f (prefix c) (completions c) (selected_completion c)
  else clear_command_help f.

(** The completions are all spellings that extend the first word of the text,
    with their descriptions. *)
Definition current (c : Control) (f : F) (d : CommandTrie) : Prop :=
  prefix c = first_word (frame_command_text f) /\
  completions c = map (fun spelling => (spelling, get_command_description char_signed description d spelling))
    (list_completions char_signed d (prefix c)).

(** [c] offers help for what is typed in [f], whose text it keeps: in command
    mode the completions are current and the usage is that of the command the
    first word names; the frame shows them. In other modes there is none. *)
Definition helps (f : F) (c : Control) : Prop :=
  exists f' d, input_frame c = Some f' /\ dispatcher c = Some d /\
    frame_mode f' = frame_mode f /\ frame_command_text f' = frame_command_text f /\
    if bool_decide (frame_mode f' = COMMAND) then
      current c f' d /\
      usage c = (if Commands.contains char_signed d (prefix c) then get_command_usage char_signed usage_of d (prefix c) else []) /\
      f' = presented c f
    else prefix c = [] /\ completions c = [] /\ usage c = [] /\ f' = clear_command_help f.

(** The selection after help was computed from the one before. *)
Definition kept_selection (c c' : Control) : nat :=
  if bool_decide (prefix c' = prefix c) then Nat.min (selected_completion c) (length (completions c') - 1) else 0.

Lemma presented_keeps c f :
  frame_mode (presented c f) = frame_mode f /\ frame_command_text (presented c f) = frame_command_text f.
Proof. unfold presented. destruct (negb _); [apply usage_keeps|]. destruct (match completions c with [] => _ | _ => _ end); [apply completions_keep|apply clear_keeps]. Qed.

Lemma refresh_helps (c : Control) f d : input_frame c = Some f -> dispatcher c = Some d ->
  helps f (refresh c) /\ (frame_mode f = COMMAND -> selected_completion (refresh c) = kept_selection c (refresh c)).
Proof.
  intros Hf Hd. unfold refresh_help. rewrite Hf, Hd, command_prefix_first_word. destruct (bool_decide_reflect (frame_mode f = COMMAND)) as [Hm|Hm]; cbn [negb].
  - set (found := map _ (list_completions _ _ _)). set (used := if Commands.contains _ _ _ then _ else _).
    set (selected := if bool_decide (found = []) then 0%nat else _).
    match goal with |- context [with_help c ?g found used ?p selected] => set (c1 := with_help c g found used p selected); set (f1 := g) in c1 end.
    assert (E : f1 = presented c1 f).
    { unfold f1, presented, c1. rewrite <- usage_rows_pieces. cbn [usage completions prefix selected_completion with_help].
      destruct (negb (bool_decide (used = []))); [done|]. destruct found as [|e [|e2 found']]; [done| |done]. cbn.
      by rewrite (bool_decide_ext (Some e.1 = Some (first_word (frame_command_text f)))
        (e.1 = first_word (frame_command_text f))) by (split; congruence). }
    destruct (presented_keeps c1 f) as [Hk1 Hk2]. rewrite <- E in Hk1, Hk2. split.
    + exists f1, d. split; [done|]. split; [exact Hd|]. split; [done|]. split; [done|].
      unfold current. rewrite Hk1, Hk2, bool_decide_eq_true_2 by done. by split_and!.
    + intros _. unfold kept_selection, c1. cbn [prefix completions selected_completion with_help]. unfold selected.
      destruct (bool_decide_reflect (found = [])) as [->|];
        destruct (bool_decide (first_word (frame_command_text f) = prefix c)); cbn [length]; lia.
  - split; [|done]. exists (clear_command_help f), d. destruct (clear_keeps f) as [Hk1 Hk2].
    split; [done|]. split; [exact Hd|]. split; [done|]. split; [done|]. rewrite Hk1, bool_decide_eq_false_2 by done. by split_and!.
Qed.

(** ** What a key does *)

Inductive KeyRole := MovesSelection | Completes | RunsLine | Typed.

(** In command mode Up and Down move through the completions, Tab completes,
    Enter runs a line that names a command, completes another one if it can,
    and else runs it into its error; everything else is for the frame. *)
Definition key_role (c : Control) (f : F) (d : CommandTrie) (named : option NamedKey) : KeyRole :=
  if negb (bool_decide (frame_mode f = COMMAND)) then Typed
  else match named with
  | Some NamedKeys.UP | Some NamedKeys.DOWN => if bool_decide (completions c = []) then Typed else MovesSelection
  | Some NamedKeys.TAB => Completes
  | Some NamedKeys.ENTER | Some NamedKeys.KEYPAD_ENTER =>
      let known := match words (frame_command_text f) with name :: _ => Commands.contains char_signed d name | [] => false end in
      if known || bool_decide (completions c = []) then RunsLine else Completes
  | _ => Typed
  end.

Definition moved_selection (named : option NamedKey) (selected n : nat) : nat :=
  if bool_decide (named = Some NamedKeys.DOWN) then (selected + 1) mod n else (selected + (n - 1)) mod n.

Definition acts (run : CommandApp -> list bytes -> CommandStatuses.Status) (available : bool) (c : Control) (f : F)
    (d : CommandTrie) (event : Event) (c' : Control) (status : Tui.Status) : Prop :=
  match key_role c f d (key_name event) with
  | Typed => exists f1, frame_handle_event f event = (f1, status) /\
      if Tui.is_ok status then helps f1 c' /\ (frame_mode f1 = COMMAND -> selected_completion c' = kept_selection c c')
      else c' = with_frame c f1
  | MovesSelection => status = Tui.OK /\ helps f c' /\
      (current c f d -> completions c' = completions c /\
       selected_completion c' = moved_selection (key_name event) (selected_completion c) (length (completions c)))
  | Completes =>
      match completions c !! selected_completion c with
      | None => completions c = [] /\ c' = c /\ status = Tui.OK
      | Some entry => exists f1, replace_command_text f (fst entry ++ [32]) = (f1, status) /\
          if Tui.is_ok status then helps f1 c' /\ (frame_mode f1 = COMMAND -> selected_completion c' = kept_selection c c')
          else c' = with_frame c f1
      end
  | RunsLine => (c', status) = enter run available c
  end.

Lemma forward_acts (c : Control) f d event : dispatcher c = Some d ->
  forall c' status, (let '(f, status) := frame_handle_event f event in
             let c := with_frame c f in (if Tui.is_ok status then refresh c else c, status)) = (c', status) ->
  exists f1, frame_handle_event f event = (f1, status) /\
    if Tui.is_ok status then helps f1 c' /\ (frame_mode f1 = COMMAND -> selected_completion c' = kept_selection c c')
    else c' = with_frame c f1.
Proof.
  intros Hd c' status. destruct (frame_handle_event f event) as [f1 s]. intros [= <- <-]. exists f1. split; [done|].
  destruct (Tui.is_ok s); [|done]. destruct (refresh_helps (with_frame c f1) f1 d eq_refl Hd) as [H1 H2].
  split; [exact H1|]. intros Hm. exact (H2 Hm).
Qed.

Lemma complete_acts (c : Control) f d : input_frame c = Some f -> dispatcher c = Some d ->
  (completions c <> [] -> (selected_completion c < length (completions c))%nat) ->
  forall c' status, complete c = (c', status) ->
  match completions c !! selected_completion c with
  | None => completions c = [] /\ c' = c /\ status = Tui.OK
  | Some entry => exists f1, replace_command_text f (fst entry ++ [32]) = (f1, status) /\
      if Tui.is_ok status then helps f1 c' /\ (frame_mode f1 = COMMAND -> selected_completion c' = kept_selection c c')
      else c' = with_frame c f1
  end.
Proof.
  intros Hf Hd Hsel c' status. unfold autocomplete. rewrite Hf.
  destruct (completions c) as [|first rest] eqn:Ec; [by intros [= <- <-]|]. specialize (Hsel ltac:(done)). rewrite <- Ec in *.
  rewrite Nat.min_l by lia. destruct (lookup_lt_is_Some_2 _ _ Hsel) as [entry He]. rewrite He.
  assert (Esame : with_help c f (completions c) (usage c) (prefix c) (selected_completion c) = with_frame c f) by (by destruct c).
  rewrite Esame. cbn [completions with_frame]. rewrite (nth_lookup_Some _ _ first _ He). destruct (replace_command_text f _) as [f1 s]. intros [= <- <-]. exists f1. split; [done|].
  destruct (Tui.is_ok s); [|done]. destruct (refresh_helps (with_frame c f1) f1 d eq_refl Hd) as [H1 H2].
  split; [exact H1|]. intros Hm. exact (H2 Hm).
Qed.

Lemma select_acts (c : Control) f d named selected : dispatcher c = Some d -> frame_mode f = COMMAND ->
  selected = moved_selection named (selected_completion c) (length (completions c)) ->
  (selected < length (completions c))%nat ->
  let c' := select char_signed description usage_of c f selected in
  helps f c' /\
  (current c f d -> completions c' = completions c /\
   selected_completion c' = moved_selection named (selected_completion c) (length (completions c))).
Proof.
  intros Hd Hm Hs Hlt. cbn zeta. unfold select. set (c1 := with_help c f _ _ _ selected).
  destruct (refresh_helps c1 f d eq_refl Hd) as [H1 H2]. split; [exact H1|]. intros [Hp Hc].
  assert (Hcur : prefix (refresh c1) = prefix c /\ completions (refresh c1) = completions c).
  { destruct H1 as (f' & d' & _ & Hd' & Hmode & Htext & H1). rewrite Hmode, bool_decide_eq_true_2 in H1 by done.
    destruct (refresh_same c1) as (Hsame & _). assert (d' = d) as -> by (change (dispatcher c1) with (dispatcher c) in Hsame; congruence).
    destruct H1 as ((H1p & H1c) & _). rewrite Htext in H1p. rewrite <- Hp in H1p. split; [exact H1p|]. by rewrite H1c, H1p, <- Hc. }
  destruct Hcur as [Hpre Hcomp]. split; [exact Hcomp|]. rewrite H2 by done. unfold kept_selection. rewrite Hpre, Hcomp.
  rewrite bool_decide_eq_true_2 by done. change (selected_completion c1) with selected. rewrite Nat.min_l by lia. exact Hs.
Qed.

Lemma handle_acts run available (c : Control) f d event c' status :
  control_ok c -> input_frame c = Some f -> dispatcher c = Some d -> active c && app c = true ->
  waiting_for_acknowledgement c && key_down event = false ->
  handle run available c event = (c', status) -> acts run available c f d event c' status.
Proof.
  intros Hok Hf Hd Hact Hwait. unfold handle_event, acts, key_role. rewrite <- tokenize_words, Hf, Hd, Hact.
  rewrite pressed_key_spec, Hwait. generalize (key_name event) as named. intros named.
  pose proof (control_selected _ Hok) as Hsel.
  destruct (bool_decide_reflect (frame_mode f = COMMAND)) as [Hm|Hm]; cbn [negb]; [|by apply (forward_acts c f d)].
  assert (Hup : (completions c <> [] ->
    (if (selected_completion c =? 0)%nat then length (completions c) - 1 else selected_completion c - 1)%nat =
    moved_selection (Some NamedKeys.UP) (selected_completion c) (length (completions c)))).
  { intros Hne. specialize (Hsel Hne). unfold moved_selection. rewrite bool_decide_eq_false_2 by done.
    destruct (Nat.eqb_spec (selected_completion c) 0) as [->|Hz]; [rewrite Nat.mod_small; lia|].
    replace (selected_completion c + (length (completions c) - 1))%nat
      with (selected_completion c - 1 + 1 * length (completions c))%nat by lia.
    rewrite Nat.Div0.mod_add, Nat.mod_small; lia. }
  assert (Henter : forall c' status,
    (match tokenize (frame_command_text f) with
      | name :: _ =>
          if Commands.contains char_signed d name then enter run available c
          else if bool_decide (completions c = []) then enter run available c else complete c
      | [] => if bool_decide (completions c = []) then enter run available c else complete c
      end) = (c', status) ->
    let known := match tokenize (frame_command_text f) with name :: _ => Commands.contains char_signed d name | [] => false end in
    match (if known || bool_decide (completions c = []) then RunsLine else Completes) with
    | RunsLine => (c', status) = enter run available c
    | _ => complete c = (c', status)
    end).
  { intros c1 s1. cbn zeta. destruct (tokenize _) as [|name args].
    - cbn [orb]. by destruct (bool_decide (completions c = [])).
    - destruct (Commands.contains char_signed d name); cbn [orb]; [done|]. by destruct (bool_decide (completions c = [])). }
  destruct named as [[]|]; try (by apply (forward_acts c f d)).
  all: try (intros E; apply Henter in E; cbn zeta in E;
    destruct (_ || bool_decide (completions c = [])); [exact E|by apply (complete_acts c f d)]).
  all: try (by apply (complete_acts c f d)).
  all: destruct (bool_decide_reflect (completions c = [])) as [Hc|Hc]; [by apply (forward_acts c f d)|].
  all: intros [= <- <-]; split; [done|]; specialize (Hsel Hc).
  - apply (select_acts c f d (Some NamedKeys.UP)); [done|done|by apply Hup|]. destruct (Nat.eqb_spec (selected_completion c) 0); lia.
  - apply (select_acts c f d (Some NamedKeys.DOWN)); [done|done|done|]. apply Nat.mod_upper_bound. lia.
Qed.

(** C32. In every history of command mode, whatever the frame does with its events,
    the selected completion exists. An event does what the role of its key says:
    typing, and everything else the frame handles itself, leaves the help
    computed for what is now typed (its first word, all registered spellings
    that extend it, the usage of the command it names) and the selection where
    it was unless the word changed; Up and Down move the selection cyclically;
    Tab, and Enter on a line that names no command, replaces the line by the
    selected completion and a space. An event runs a command exactly when it is
    Enter in command mode on a line whose first token names one: then once, with
    the line's tokens, and the result waits to be acknowledged. While it waits,
    a pressed key leaves command mode and does nothing else. Starting while
    nothing waits computes the help as well. *)
Theorem command_mode_runs_lines steps run available event :
  let c := run_control steps in
  let '(c', status) := handle run available c event in
  (completions c <> [] -> (selected_completion c < length (completions c))%nat) /\
  (forall entry, entry ∈ completions c ->
    exists d, dispatcher c = Some d /\ fst entry ∈ list_completions char_signed d (prefix c)) /\
  executed c' = executed c ++ line_run available c event /\
  (line_run available c event <> [] -> waiting_for_acknowledgement c' = true) /\
  (forall f d, input_frame c = Some f -> dispatcher c = Some d ->
    (active c && app c = true ->
      (waiting_for_acknowledgement c = true -> key_down event = true ->
        input_frame c' = Some (clear_command_help (leave_command_mode f)) /\ waiting_for_acknowledgement c' = false /\
        completions c' = [] /\ executed c' = executed c) /\
      (waiting_for_acknowledgement c && key_down event = false -> acts run available c f d event c' status)) /\
    (waiting_for_acknowledgement c = false -> helps f (Commands.start char_signed description usage_of c).1)).
Proof.
  intros c. pose proof (run_control_ok steps : control_ok c) as Hok. clearbody c.
  pose proof (handle_spec run available c event Hok) as (_ & Hexec & Hwaits). cbn zeta in *.
  destruct (handle run available c event) as [c' status] eqn:Eh. cbn [fst] in *.
  split; [apply Hok|]. split; [apply Hok|]. split; [done|]. split.
  - intros Hline. apply Hwaits. rewrite Hexec. intros E. apply Hline. by apply (app_inv_head (executed c)); rewrite app_nil_r.
  - intros f d Hf Hd. split; [intros Hact; split|].
    + intros Hw Hp. unfold handle_event in Eh. rewrite Hf, Hd, Hact, Hw in Eh.
      rewrite pressed_key_spec, Hp in Eh. injection Eh as <- <-. done.
    + intros Hw. by apply handle_acts.
    + intros Hw. unfold start. rewrite Hf, Hd. cbn [waiting_for_acknowledgement with_running]. rewrite Hw.
      by apply (refresh_helps (with_running c true) f d).
Qed.
End Controller.

(** ** Concrete commands *)

Definition sample_registrations : list (Registration (CommandApp := nat)) :=
  [{| reg_name := str "quit"; reg_aliases := [str "q"; str "exit"]; reg_command := Some 1%nat |};
   {| reg_name := str "config"; reg_aliases := []; reg_command := Some 2%nat |};
   {| reg_name := str "help"; reg_aliases := [str "q"]; reg_command := Some 3%nat |};
   {| reg_name := str "two words"; reg_aliases := []; reg_command := Some 4%nat |};
   {| reg_name := [99; 200]; reg_aliases := []; reg_command := Some 5%nat |}].

(** A signed [char] sorts a non-ASCII spelling first. *)
Example sample_run :
  (run_registrations true sample_registrations).2 =
    [CommandStatuses.OK; CommandStatuses.OK; CommandStatuses.DUPLICATE_COMMAND_NAME; CommandStatuses.INVALID_ARGUMENT; CommandStatuses.OK] /\
  list_completions true (run_registrations true sample_registrations).1 (str "c") = [[99; 200]; str "config"] /\
  list_completions false (run_registrations false sample_registrations).1 [] = map str ["config"%string] ++ [[99; 200]] ++ map str ["exit"; "q"; "quit"]%string.
Proof. vm_compute. split_and!; reflexivity. Qed.

Lemma sample_registration_bytes : Forall registration_bytes sample_registrations.
Proof.
  assert (H : forallb (fun r => forallb (forallb (fun b => (0 <=? b) && (b <? 256))) (reg_name r :: reg_aliases r)) sample_registrations = true)
    by (vm_compute; reflexivity).
  apply List.Forall_forall. intros r Hr. rewrite forallb_forall in H. specialize (H r Hr).
  apply List.Forall_forall. intros name Hn. rewrite forallb_forall in H. specialize (H name Hn).
  apply List.Forall_forall. intros b Hb. rewrite forallb_forall in H. specialize (H b Hb). unfold in_width. lia.
Qed.

Lemma commands_refine_map_witness : find_command true (run_registrations true sample_registrations).1 (str "exit") = Some 1%nat.
Proof.
  pose proof (commands_refine_map true sample_registrations sample_registration_bytes) as H.
  destruct (run_registrations true sample_registrations) as [d statuses] eqn:Ed.
  destruct (spec_registrations sample_registrations) as [m expected] eqn:Em. destruct H as (_ & H & _).
  assert (Hb : Forall is_byte (str "exit")).
  { repeat (apply Forall_cons; split; [unfold in_width; vm_compute; split; [discriminate|reflexivity]|]). by apply Forall_nil. }
  cbn [fst]. rewrite (proj1 (H _ Hb)). apply (f_equal fst) in Em. cbn [fst] in Em. rewrite <- Em. vm_compute. reflexivity.
Defined.

(** A frame that is its mode, its text and the help it shows; text is appended. *)
Record ToyFrame := { toy_mode : InputMode; toy_text : bytes; toy_help : list bytes }.

Definition toy_with_help (help : list bytes) (f : ToyFrame) : ToyFrame :=
  {| toy_mode := toy_mode f; toy_text := toy_text f; toy_help := help |}.

#[export] Instance toy_frame : InputFrame ToyFrame := {
  frame_mode := toy_mode;
  frame_command_text := toy_text;
  frame_handle_event := fun f event =>
    match event with
    | EText text => ({| toy_mode := toy_mode f; toy_text := toy_text f ++ utf8 text; toy_help := toy_help f |}, Tui.OK)
    | _ => (f, Tui.INVALID_ARGUMENT)
    end;
  replace_command_text := fun f text => ({| toy_mode := toy_mode f; toy_text := text; toy_help := toy_help f |}, Tui.OK);
  leave_command_mode := fun f => {| toy_mode := NORMAL; toy_text := toy_text f; toy_help := toy_help f |};
  clear_command_help := toy_with_help [];
  set_command_usage := fun f rows => toy_with_help rows f;
  set_command_completions := fun f _ found _ => toy_with_help (map fst found) f;
  set_notification := fun f _ => f;
}.

#[export] Instance toy_frame_laws : InputFrameLaws ToyFrame.
Proof. by split. Qed.

Definition toy_key (named : NamedKey) : Event :=
  EKey {| Events.key := NamedCode named; key_modifiers := 0; key_action := KeyActions.PRESS; shifted_key := None;
          base_layout_key := None; key_text := [] |}.

Definition toy_event (event : Event) : ControlStep (CommandApp := nat) (F := ToyFrame) :=
  EventStep (fun _ _ => CommandStatuses.OK) true event.

(** The user types "c", chooses the second completion with Down, completes it,
    and adds an argument. *)
Definition toy_steps : list (ControlStep (CommandApp := nat) (F := ToyFrame)) :=
  [InitializeStep (Some {| toy_mode := COMMAND; toy_text := []; toy_help := [] |}) (Some (run_registrations true sample_registrations).1);
   StartStep; toy_event (EText {| utf8 := str "c" |}); toy_event (toy_key NamedKeys.DOWN); toy_event (toy_key NamedKeys.TAB);
   toy_event (EText {| utf8 := str "list" |})].

Definition no_text (command : nat) : bytes := [].

(** Starting computes the help for the empty text, and the line is run. *)
Lemma command_mode_runs_lines_witness :
  helps true no_text no_text {| toy_mode := COMMAND; toy_text := []; toy_help := [] |}
    (Commands.start true no_text no_text (run_control true no_text no_text (fun _ => []) (take 1 toy_steps))).1 /\
  executed (handle_event true no_text no_text (fun _ => []) (fun _ _ => CommandStatuses.OK) true
    (run_control true no_text no_text (fun _ => []) toy_steps) (toy_key NamedKeys.ENTER)).1 = [map str ["config"; "list"]%string].
Proof.
  split.
  - pose proof (command_mode_runs_lines true no_text no_text (fun _ => []) (take 1 toy_steps) (fun _ _ => CommandStatuses.OK) true
      (toy_key NamedKeys.ENTER)) as H.
    cbv zeta in H. destruct (handle_event _ _ _ _ _ _ _ _) as [c' status]. destruct H as (_ & _ & _ & _ & H).
    refine (proj2 (H _ (run_registrations true sample_registrations).1 _ _) _); vm_compute; reflexivity.
  - pose proof (command_mode_runs_lines true no_text no_text (fun _ => []) toy_steps (fun _ _ => CommandStatuses.OK) true (toy_key NamedKeys.ENTER)) as H.
    cbv zeta in H. destruct (handle_event _ _ _ _ _ _ _ _) as [c' status]. destruct H as (_ & _ & H & _). cbn [fst].
    etransitivity; [exact H|]. vm_compute. reflexivity.
Defined.

(** What is shown while "c" is typed, and after Down and Tab. *)
Example toy_help_shown :
  (toy_help <$> input_frame (run_control true no_text no_text (fun _ => []) (take 3 toy_steps))) = Some [[99; 200]; str "config"] /\
  (toy_text <$> input_frame (run_control true no_text no_text (fun _ => []) (take 5 toy_steps))) = Some (str "config ").
Proof. vm_compute. split; reflexivity. Qed.
