(* ===== verification/Layout.v ===== *)
(** * Constraint-based frame layout (puc-cli/tui/rendering/layout.cpp)

    Validation and indexing of constraints, measures and aspect ratios, the
    depth-first resolution of named anchors, minimum dimensions, overlap
    dependencies, and the caches of a layout description. Sizes are
    [std::size_t] values in [Z]; [long double] arithmetic is that of
    LongDouble.v at a significand of [precision] bits. *)
From S2P Require Import Prelude.
From S2P Require Import Tui.
From S2P Require Import ZBuffer.
From S2P Require Import Canvas.
From S2P Require Import LongDouble.
From Stdlib Require Import QArith Qround.
From stdpp Require Import sorting.

Inductive ConstraintType :=
| ASPECT_RATIO
| MIN_WIDTH
| MIN_HEIGHT
| MAX_WIDTH
| MAX_HEIGHT
| LEFT_MARGIN
| RIGHT_MARGIN
| TOP_MARGIN
| BOTTOM_MARGIN
| LEFT_ANCHOR
| RIGHT_ANCHOR
| TOP_ANCHOR
| BOTTOM_ANCHOR
| HORIZONTAL_CENTER
| VERTICAL_CENTER.

Inductive Unit :=
| CHARACTERS
| PERCENT
| RATIO
| NAME.

(** [std::int32_t] extents. *)
Record AspectRatio := { ratio_width : Z; ratio_height : Z }.

(** [std::variant<float, size_t, AspectRatio, std::string>] *)
Inductive Value :=
| FloatValue (f : Float)
| SizeValue (n : Z)
| RatioValue (r : AspectRatio)
| NameValue (s : string).

Record Constraint := {
  constraint_type : ConstraintType;
  constraint_unit : Unit;
  constraint_value : Value;
}.

Record CellDimensions := { cell_width : Z; cell_height : Z }.

#[global] Instance ConstraintType_eq_dec : EqDecision ConstraintType.
Proof. solve_decision. Defined.
#[global] Instance Unit_eq_dec : EqDecision Unit.
Proof. solve_decision. Defined.
#[global] Instance CellDimensions_eq_dec : EqDecision CellDimensions.
Proof. solve_decision. Defined.

Definition make_percentage_constraint (type : ConstraintType) (percent : Float) : Constraint :=
  {| constraint_type := type; constraint_unit := PERCENT; constraint_value := FloatValue percent |}.
Definition make_character_constraint (type : ConstraintType) (characters : Z) : Constraint :=
  {| constraint_type := type; constraint_unit := CHARACTERS; constraint_value := SizeValue characters |}.
Definition make_ratio_constraint (type : ConstraintType) (w h : Z) : Constraint :=
  {| constraint_type := type; constraint_unit := RATIO;
     constraint_value := RatioValue {| ratio_width := w; ratio_height := h |} |}.
Definition make_name_constraint (type : ConstraintType) (name : string) : Constraint :=
  {| constraint_type := type; constraint_unit := NAME; constraint_value := NameValue name |}.

(** [std::get_if] *)
Definition get_float (v : Value) : option Float := match v with FloatValue f => Some f | _ => None end.
Definition get_size (v : Value) : option Z := match v with SizeValue n => Some n | _ => None end.
Definition get_ratio (v : Value) : option AspectRatio := match v with RatioValue r => Some r | _ => None end.
Definition get_name (v : Value) : option string := match v with NameValue s => Some s | _ => None end.

(** ** Constraint types *)

(** [static_cast<size_t>(type)] *)
Definition type_index (type : ConstraintType) : nat :=
  match type with
  | ASPECT_RATIO => 0 | MIN_WIDTH => 1 | MIN_HEIGHT => 2 | MAX_WIDTH => 3 | MAX_HEIGHT => 4
  | LEFT_MARGIN => 5 | RIGHT_MARGIN => 6 | TOP_MARGIN => 7 | BOTTOM_MARGIN => 8
  | LEFT_ANCHOR => 9 | RIGHT_ANCHOR => 10 | TOP_ANCHOR => 11 | BOTTOM_ANCHOR => 12
  | HORIZONTAL_CENTER => 13 | VERTICAL_CENTER => 14
  end%nat.

Definition constraint_type_count : nat := S (type_index VERTICAL_CENTER).

Definition is_horizontal_placement (type : ConstraintType) : bool :=
  match type with LEFT_ANCHOR | RIGHT_ANCHOR | HORIZONTAL_CENTER => true | _ => false end.
Definition is_vertical_placement (type : ConstraintType) : bool :=
  match type with TOP_ANCHOR | BOTTOM_ANCHOR | VERTICAL_CENTER => true | _ => false end.
Definition is_edge_anchor (type : ConstraintType) : bool :=
  match type with LEFT_ANCHOR | RIGHT_ANCHOR | TOP_ANCHOR | BOTTOM_ANCHOR => true | _ => false end.

(** Finite, and in the closed interval from zero to one. *)
Definition percentage_ok (f : Float) : bool :=
  match finite_value f with
  | Some q => negb (negb (Qle_bool 0 q) || negb (Qle_bool q 1))
  | None => false
  end.

Definition ratio_ok (r : AspectRatio) : bool := negb ((ratio_width r <=? 0)%Z || (ratio_height r <=? 0)%Z).

(** Every enumerator is below [constraint_type_count]. *)
Definition validate_constraint (c : Constraint) : Status :=
  match constraint_unit c with
  | CHARACTERS =>
      if bool_decide (constraint_type c = ASPECT_RATIO) || bool_decide (get_size (constraint_value c) = None)
      then INVALID_CONSTRAINT else OK
  | PERCENT =>
      if bool_decide (constraint_type c = ASPECT_RATIO) then INVALID_CONSTRAINT
      else match get_float (constraint_value c) with
           | Some f => if percentage_ok f then OK else INVALID_PERCENTAGE
           | None => INVALID_PERCENTAGE
           end
  | RATIO =>
      if negb (bool_decide (constraint_type c = ASPECT_RATIO)) then INVALID_CONSTRAINT
      else match get_ratio (constraint_value c) with
           | Some r => if ratio_ok r then OK else INVALID_RATIO
           | None => INVALID_RATIO
           end
  | NAME =>
      if negb (is_edge_anchor (constraint_type c)) then INVALID_CONSTRAINT
      else match get_name (constraint_value c) with
           | Some name => if String.eqb name "" then INVALID_ARGUMENT else OK
           | None => INVALID_ARGUMENT
           end
  end.

(** [a > b] on [float] values. *)
Definition float_gtb (a b : Float) : bool :=
  match a, b with
  | NaN, _ | _, NaN => false
  | Infinity true, _ => false
  | Infinity false, Infinity false => false
  | Infinity false, _ => true
  | Finite _ _, Infinity negative => negative
  | Finite m e, Finite m' e' => negb (Qle_bool (float_value m e) (float_value m' e'))
  end.

Definition validate_bound_pair (minimum maximum : option Constraint) : Status :=
  match minimum, maximum with
  | Some minimum, Some maximum =>
      if negb (bool_decide (constraint_unit minimum = constraint_unit maximum)) then OK
      else
        match constraint_unit minimum with
        | CHARACTERS =>
            match get_size (constraint_value minimum), get_size (constraint_value maximum) with
            | Some a, Some b => if (b <? a)%Z then INVALID_CONSTRAINT else OK
            | _, _ => INVALID_CONSTRAINT
            end
        | PERCENT =>
            match get_float (constraint_value minimum), get_float (constraint_value maximum) with
            | Some a, Some b => if float_gtb a b then INVALID_CONSTRAINT else OK
            | _, _ => INVALID_CONSTRAINT
            end
        | _ => OK
        end
  | _, _ => OK
  end.

(** ** Parsing *)

(** [ParsedConstraints::values] *)
Abbreviation ParsedConstraints := (list (option Constraint)).
Definition no_constraints : ParsedConstraints := replicate constraint_type_count None.

Definition get (parsed : ParsedConstraints) (type : ConstraintType) : option Constraint :=
  default None (parsed !! type_index type).

(** The loop of [parse_constraints]: the table and the placements counted. *)
Fixpoint index_constraints (constraints : list Constraint) (parsed : ParsedConstraints) (horizontal vertical : nat)
  : result Status (ParsedConstraints * nat * nat) :=
  match constraints with
  | [] => Ok (parsed, horizontal, vertical)
  | c :: constraints =>
      let validation := validate_constraint c in
      if is_ok validation then
        match get parsed (constraint_type c) with
        | Some _ => Err INVALID_CONSTRAINT
        | None =>
            index_constraints constraints (<[type_index (constraint_type c) := Some c]> parsed)
              (if is_horizontal_placement (constraint_type c) then S horizontal else horizontal)
              (if is_vertical_placement (constraint_type c) then S vertical else vertical)
        end
      else Err validation
  end.

Definition parse_constraints (constraints : list Constraint) : result Status ParsedConstraints :=
  do (parsed, horizontal, vertical) <- index_constraints constraints no_constraints 0 0;
  if (1 <? horizontal)%nat || (1 <? vertical)%nat then Err INVALID_CONSTRAINT
  else
    let status := validate_bound_pair (get parsed MIN_WIDTH) (get parsed MAX_WIDTH) in
    if negb (is_ok status) then Err status
    else
      let status := validate_bound_pair (get parsed MIN_HEIGHT) (get parsed MAX_HEIGHT) in
      if negb (is_ok status) then Err status else Ok parsed.

Abbreviation ParsedLayout := (gmap string ParsedConstraints).

(** The frames of the Z-buffer, back to front. *)
Fixpoint parse_frames (frame_ids : list string) (constraints : gmap string (list Constraint)) (parsed : ParsedLayout)
  : result Status ParsedLayout :=
  match frame_ids with
  | [] => Ok parsed
  | id :: frame_ids =>
      do one <- match constraints !! id with Some l => parse_constraints l | None => Ok no_constraints end;
      parse_frames frame_ids constraints (match parsed !! id with Some _ => parsed | None => <[id := one]> parsed end)
  end.

Definition parse_layout (frame_ids : list string) (constraints : gmap string (list Constraint))
  : result Status ParsedLayout :=
  do parsed <- parse_frames frame_ids constraints ∅;
  if bool_decide (map_Forall (fun id _ => id ∈ frame_ids) constraints) then Ok parsed else Err FRAME_NOT_FOUND.

(** ** Measures *)

Section Solver.
Variable precision : Z.

(** [long double] operations. *)
Definition ld (z : Z) : Q := round_at precision (inject_Z z).
Definition ld_mul (a b : Q) : Q := round_at precision (a * b).
Definition ld_div (a b : Q) : Q := round_at precision (a / b).
Definition ld_add (a b : Q) : Q := round_at precision (a + b).
Definition ld_sub (a b : Q) : Q := round_at precision (a - b).

Definition resolve_measure (c : option Constraint) (extent default_value : Z) : result Status Z :=
  match c with
  | None => Ok default_value
  | Some c =>
      match constraint_unit c with
      | CHARACTERS =>
          match get_size (constraint_value c) with Some n => Ok n | None => Err INVALID_CONSTRAINT end
      | PERCENT =>
          match get_float (constraint_value c) with
          | Some f =>
              match finite_value f with
              | Some p =>
                  if negb (Qle_bool 0 p) || negb (Qle_bool p 1) then Err INVALID_PERCENTAGE
                  else if Qeq_bool p 1 then Ok extent
                  else Ok (Qfloor (ld_mul (ld extent) p))
              | None => Err INVALID_PERCENTAGE
              end
          | None => Err INVALID_PERCENTAGE
          end
      | _ => Err INVALID_CONSTRAINT
      end
  end.

Inductive DimensionRounding := DOWN | UP.

Definition checked_derived_dimension (source_cells source_cell_extent source_ratio_extent
    target_cell_extent target_ratio_extent : Z) (rounding : DimensionRounding) : result Status Z :=
  if (source_cell_extent =? 0)%Z || (target_cell_extent =? 0)%Z then Err INVALID_DIMENSIONS
  else if (source_ratio_extent <=? 0)%Z || (target_ratio_extent <=? 0)%Z then Err INVALID_RATIO
  else
    let scaled := ld_div (ld_mul (ld_mul (ld source_cells) (ld source_cell_extent)) (ld target_ratio_extent))
                         (ld_mul (ld target_cell_extent) (ld source_ratio_extent)) in
    let rounded := match rounding with UP => Qceiling scaled | DOWN => Qfloor scaled end in
    if negb (Qle_bool (inject_Z rounded) (ld size_max)) then Err DIMENSION_OVERFLOW else Ok rounded.

Definition height_for_width (w : Z) (ratio : AspectRatio) (cells : CellDimensions) (rounding : DimensionRounding)
  : result Status Z :=
  checked_derived_dimension w (cell_width cells) (ratio_width ratio) (cell_height cells) (ratio_height ratio) rounding.

Definition width_for_height (h : Z) (ratio : AspectRatio) (cells : CellDimensions) (rounding : DimensionRounding)
  : result Status Z :=
  checked_derived_dimension h (cell_height cells) (ratio_height ratio) (cell_width cells) (ratio_width ratio) rounding.

(** A derived extent of a non-empty frame is at least one cell. *)
Definition at_least_one (w h derived : Z) : Z :=
  if (0 <? w)%Z && (0 <? h)%Z && (derived =? 0)%Z then 1%Z else derived.

Definition apply_aspect_ratio (parsed : ParsedConstraints) (w h : Z) (cells : CellDimensions)
  : result Status (Z * Z) :=
  match get parsed ASPECT_RATIO with
  | None => Ok (w, h)
  | Some c =>
      match get_ratio (constraint_value c) with
      | Some ratio =>
          if (ratio_width ratio <=? 0)%Z || (ratio_height ratio <=? 0)%Z then Err INVALID_RATIO
          else
            do height_from_width <- height_for_width w ratio cells DOWN;
            let height_from_width := at_least_one w h height_from_width in
            if (height_from_width <=? h)%Z then Ok (w, height_from_width)
            else
              do width_from_height <- width_for_height h ratio cells DOWN;
              Ok (Z.min w (at_least_one w h width_from_height), h)
      | None => Err INVALID_RATIO
      end
  end.

(** The half-open bounds left by the margins of one axis. *)
Definition resolve_axis_bounds (parsed : ParsedConstraints) (horizontal : bool) (screen_extent : Z)
  : result Status (Z * Z) :=
  let lower_type := if horizontal then LEFT_MARGIN else TOP_MARGIN in
  let upper_type := if horizontal then RIGHT_MARGIN else BOTTOM_MARGIN in
  do lower_margin <- resolve_measure (get parsed lower_type) screen_extent 0;
  do upper_margin <- resolve_measure (get parsed upper_type) screen_extent 0;
  let lower := Z.min lower_margin screen_extent in
  let upper := (screen_extent - Z.min upper_margin screen_extent)%Z in
  Ok (lower, if (upper <? lower)%Z then lower else upper).

Fixpoint first_constraint (parsed : ParsedConstraints) (types : list ConstraintType) : option Constraint :=
  match types with
  | [] => None
  | type :: types => match get parsed type with Some c => Some c | None => first_constraint parsed types end
  end.

Definition placement_constraint (parsed : ParsedConstraints) (horizontal : bool) : option Constraint :=
  if horizontal then first_constraint parsed [LEFT_ANCHOR; RIGHT_ANCHOR; HORIZONTAL_CENTER]
  else first_constraint parsed [TOP_ANCHOR; BOTTOM_ANCHOR; VERTICAL_CENTER].

Definition clamp_origin (origin lower upper frame_extent : Z) : Z :=
  if (upper <? lower)%Z || (upper - lower <? frame_extent)%Z then lower
  else
    let high := (upper - frame_extent)%Z in
    if (origin <? lower)%Z then lower else if (high <? origin)%Z then high else origin.

(** [a + b], saturating at the largest [std::size_t]. *)
Definition saturating_add (a b : Z) : Z := if (size_max - a <? b)%Z then size_max else (a + b)%Z.

Definition edge_origin (edge frame_extent : Z) : Z := if (edge <? frame_extent)%Z then 0%Z else (edge - frame_extent)%Z.

Definition resolve_axis_origin (placement : option Constraint) (screen_extent lower upper frame_extent : Z)
    (reference : option Rect) : result Status Z :=
  match placement with
  | None => Ok lower
  | Some c =>
      if bool_decide (constraint_unit c = NAME) then
        match reference with
        | None => Err FRAME_NOT_FOUND
        | Some r =>
            match constraint_type c with
            | LEFT_ANCHOR => Ok (clamp_origin (rect_x r) lower upper frame_extent)
            | RIGHT_ANCHOR =>
                Ok (clamp_origin (edge_origin (saturating_add (rect_x r) (rect_width r)) frame_extent) lower upper frame_extent)
            | TOP_ANCHOR => Ok (clamp_origin (rect_y r) lower upper frame_extent)
            | BOTTOM_ANCHOR =>
                Ok (clamp_origin (edge_origin (saturating_add (rect_y r) (rect_height r)) frame_extent) lower upper frame_extent)
            | _ => Err INVALID_CONSTRAINT
            end
        end
      else
        do offset <- resolve_measure (Some c) screen_extent 0;
        match constraint_type c with
        | LEFT_ANCHOR | TOP_ANCHOR => Ok (clamp_origin (saturating_add lower offset) lower upper frame_extent)
        | RIGHT_ANCHOR | BOTTOM_ANCHOR =>
            let needed := saturating_add frame_extent offset in
            Ok (clamp_origin (if (upper <? needed)%Z then lower else (upper - needed)%Z) lower upper frame_extent)
        | HORIZONTAL_CENTER | VERTICAL_CENTER =>
            let available := (upper - lower)%Z in
            let centered := if (available <? frame_extent)%Z then lower
                            else (lower + (available - frame_extent) / 2)%Z in
            Ok (clamp_origin (saturating_add centered offset) lower upper frame_extent)
        | _ => Err INVALID_CONSTRAINT
        end
  end.

(** ** Resolution *)

Inductive VisitState := UNVISITED | VISITING | RESOLVED.

#[export] Instance VisitState_eq_dec : EqDecision VisitState.
Proof. solve_decision. Defined.

(** The mutable members of [Resolver]. *)
Record Resolution := {
  visit_states : gmap string VisitState;
  output : gmap string Rect;
  resolution_order : list string;
}.

Variable screen_width screen_height : Z.
Variable cells : CellDimensions.

(** The bounds and the size of a frame: left, right, top, bottom, width and
    height. *)
Record Extent := {
  left_ : Z;
  right_ : Z;
  top_ : Z;
  bottom_ : Z;
  frame_width : Z;
  frame_height : Z;
}.

Definition resolve_extent (parsed : ParsedConstraints) : result Status Extent :=
  do (left_, right_) <- resolve_axis_bounds parsed true screen_width;
  do (top_, bottom_) <- resolve_axis_bounds parsed false screen_height;
  do w <- resolve_measure (get parsed MAX_WIDTH) screen_width (right_ - left_)%Z;
  let w := Z.min w (right_ - left_) in
  do h <- resolve_measure (get parsed MAX_HEIGHT) screen_height (bottom_ - top_)%Z;
  let h := Z.min h (bottom_ - top_) in
  do (w, h) <- apply_aspect_ratio parsed w h cells;
  Ok {| left_ := left_; right_ := right_; top_ := top_; bottom_ := bottom_; frame_width := w; frame_height := h |}.

Definition place_frame (parsed : ParsedConstraints) (e : Extent) (horizontal_reference vertical_reference : option Rect)
  : result Status Rect :=
  do x <- resolve_axis_origin (placement_constraint parsed true) screen_width (left_ e) (right_ e) (frame_width e)
            horizontal_reference;
  do y <- resolve_axis_origin (placement_constraint parsed false) screen_height (top_ e) (bottom_ e) (frame_height e)
            vertical_reference;
  Ok {| rect_x := x; rect_y := y; rect_width := frame_width e; rect_height := frame_height e |}.

(** A recursion that may run out of fuel ([None]) or fail. *)
Definition run {A B : Type} (r : option (result Status A)) (k : A -> option (result Status B)) : option (result Status B) :=
  match r with
  | None => None
  | Some (Err status) => Some (Err status)
  | Some (Ok a) => k a
  end.

Definition resolve_reference (resolve : string -> Resolution -> option (result Status Resolution))
    (placement : option Constraint) (s : Resolution) : option (result Status (option Rect * Resolution)) :=
  match placement with
  | None => Some (Ok (None, s))
  | Some c =>
      if negb (bool_decide (constraint_unit c = NAME)) then Some (Ok (None, s))
      else
        match get_name (constraint_value c) with
        | None => Some (Err INVALID_ARGUMENT)
        | Some name =>
            if String.eqb name "" then Some (Err INVALID_ARGUMENT)
            else run (resolve name s) (fun s =>
                   match output s !! name with
                   | None => Some (Err FRAME_NOT_FOUND)
                   | Some r => Some (Ok (Some r, s))
                   end)
        end
  end.

Variable parsed_layout : ParsedLayout.

(** [resolve]; every nested call has marked one more frame, so the number of
    frames bounds the depth. *)
Fixpoint resolve (fuel : nat) (frame_id : string) (s : Resolution) : option (result Status Resolution) :=
  match fuel with
  | O => None
  | S fuel =>
      match visit_states s !! frame_id with
      | None => Some (Err FRAME_NOT_FOUND)
      | Some RESOLVED => Some (Ok s)
      | Some VISITING => Some (Err CONSTRAINT_CYCLE)
      | Some UNVISITED =>
          let s := {| visit_states := <[frame_id := VISITING]> (visit_states s); output := output s;
                      resolution_order := resolution_order s |} in
          match parsed_layout !! frame_id with
          | None => Some (Err FRAME_NOT_FOUND)
          | Some parsed =>
              run (Some (resolve_extent parsed)) (fun e =>
              run (resolve_reference (resolve fuel) (placement_constraint parsed true) s) (fun '(horizontal_reference, s) =>
              run (resolve_reference (resolve fuel) (placement_constraint parsed false) s) (fun '(vertical_reference, s) =>
              run (Some (place_frame parsed e horizontal_reference vertical_reference)) (fun r =>
              Some (Ok {| visit_states := <[frame_id := RESOLVED]> (visit_states s);
                          output := <[frame_id := r]> (output s);
                          resolution_order := resolution_order s ++ [frame_id] |})))))
          end
      end
  end.

Fixpoint resolve_each (fuel : nat) (frame_ids : list string) (s : Resolution) : option (result Status Resolution) :=
  match frame_ids with
  | [] => Some (Ok s)
  | id :: frame_ids => run (resolve fuel id s) (resolve_each fuel frame_ids)
  end.

(** The constructor marks every frame of the description. *)
Definition new_resolution (frame_ids : list string) : Resolution :=
  {| visit_states := list_to_map (map (fun id => (id, UNVISITED)) frame_ids); output := ∅; resolution_order := [] |}.

Definition resolve_all (frame_ids : list string) (cached_order : option (list string))
  : option (result Status Resolution) :=
  resolve_each (S (length frame_ids)) (default frame_ids cached_order) (new_resolution frame_ids).
End Solver.

(** ** Minimum dimensions *)

Section Minimum.
Variable precision : Z.

Abbreviation ld := (ld precision).
Abbreviation ld_mul := (ld_mul precision).
Abbreviation ld_div := (ld_div precision).

Definition checked_add (value addition : Z) : result Status Z :=
  if (size_max - value <? addition)%Z then Err DIMENSION_OVERFLOW else Ok (value + addition)%Z.

Definition character_minimum (c : option Constraint) : result Status Z :=
  match c with
  | None => Ok 0%Z
  | Some c =>
      match constraint_unit c with
      | PERCENT => Ok 0%Z
      | CHARACTERS =>
          match get_size (constraint_value c) with Some n => Ok n | None => Err INVALID_CONSTRAINT end
      | _ => Err INVALID_CONSTRAINT
      end
  end.

(** The new fixed cells and screen fraction. Parsing has rejected every
    percentage that is not finite; the last cases of this and of
    [required_for_percentage_maximum] stand for them. *)
Definition add_minimum_component (c : option Constraint) (multiplier fixed : Z) (fraction : Q) : result Status (Z * Q) :=
  match c with
  | None => Ok (fixed, fraction)
  | Some c =>
      match constraint_unit c with
      | CHARACTERS =>
          match get_size (constraint_value c) with
          | None => Err DIMENSION_OVERFLOW
          | Some n =>
              if negb (multiplier =? 0)%Z && (size_max / multiplier <? n)%Z then Err DIMENSION_OVERFLOW
              else do fixed <- checked_add fixed (n * multiplier)%Z; Ok (fixed, fraction)
          end
      | PERCENT =>
          match get_float (constraint_value c) with
          | Some (Finite m e) =>
              Ok (fixed, ld_add precision fraction (ld_mul (float_value m e) (ld multiplier)))
          | _ => Err INVALID_CONSTRAINT
          end
      | NAME => Ok (fixed, fraction)
      | RATIO => Err INVALID_CONSTRAINT
      end
  end.

(** The loop of [required_for_percentage_maximum]; [None] is exhausted fuel. *)
Fixpoint grow_required (fuel : nat) (maximum : Constraint) (frame_minimum required : Z) : option (result Status Z) :=
  match resolve_measure precision (Some maximum) required 0 with
  | Err status => Some (Err status)
  | Ok resolved =>
      if (resolved <? frame_minimum)%Z then
        if (required =? size_max)%Z then Some (Err DIMENSION_OVERFLOW)
        else match fuel with
             | O => None
             | S fuel => grow_required fuel maximum frame_minimum (required + 1)
             end
      else Some (Ok required)
  end.

(** The estimate is at most one cell short (LayoutMinimum.v). *)
Definition growth_fuel : nat := 1.

Definition required_for_percentage_maximum (maximum : option Constraint) (frame_minimum : Z) : option (result Status Z) :=
  match maximum with
  | None => Some (Ok 0%Z)
  | Some c =>
      match constraint_unit c with
      | CHARACTERS =>
          match get_size (constraint_value c) with
          | Some n => if (n <? frame_minimum)%Z then Some (Err INVALID_CONSTRAINT) else Some (Ok 0%Z)
          | None => Some (Err INVALID_CONSTRAINT)
          end
      | PERCENT =>
          match get_float (constraint_value c) with
          | Some (Finite m e) =>
              let p := float_value m e in
              if negb (Qle_bool 0 p) || negb (Qle_bool p 1) then Some (Err INVALID_PERCENTAGE)
              else if (frame_minimum =? 0)%Z then Some (Ok 0%Z)
              else if Qeq_bool p 0 then Some (Err INVALID_CONSTRAINT)
              else
                let estimate := Qceiling (ld_div (ld frame_minimum) p) in
                if negb (Qle_bool (inject_Z estimate) (ld size_max)) then Some (Err DIMENSION_OVERFLOW)
                else grow_required growth_fuel c frame_minimum estimate
          | _ => Some (Err INVALID_PERCENTAGE)
          end
      | _ => Some (Err INVALID_CONSTRAINT)
      end
  end.

Definition minimum_axis (parsed : ParsedConstraints) (horizontal : bool) (frame_minimum : Z) : option (result Status Z) :=
  let lower_margin := if horizontal then LEFT_MARGIN else TOP_MARGIN in
  let upper_margin := if horizontal then RIGHT_MARGIN else BOTTOM_MARGIN in
  let maximum := if horizontal then MAX_WIDTH else MAX_HEIGHT in
  let placement := placement_constraint parsed horizontal in
  let centered := match placement with
                  | Some c => bool_decide (constraint_type c = HORIZONTAL_CENTER) || bool_decide (constraint_type c = VERTICAL_CENTER)
                  | None => false
                  end in
  run (Some (
    do (fixed, fraction) <- add_minimum_component (get parsed lower_margin) 1 frame_minimum 0;
    do (fixed, fraction) <- add_minimum_component (get parsed upper_margin) 1 fixed fraction;
    do (fixed, fraction) <- add_minimum_component placement (if centered then 2 else 1)%Z fixed fraction;
    if Qle_bool 1 fraction then
      if (fixed =? 0)%Z then Ok 0%Z else Err INVALID_CONSTRAINT
    else
      let required := Qceiling (ld_div (ld fixed) (ld_sub precision 1 fraction)) in
      if negb (Qle_bool (inject_Z required) (ld size_max)) then Err DIMENSION_OVERFLOW else Ok required)) (fun minimum =>
  run (required_for_percentage_maximum (get parsed maximum) frame_minimum) (fun maximum_requirement =>
  Some (Ok (Z.max minimum maximum_requirement)))).

Definition frame_minimum_size (parsed : ParsedConstraints) (cells : CellDimensions) : result Status (Z * Z) :=
  do w <- character_minimum (get parsed MIN_WIDTH);
  do h <- character_minimum (get parsed MIN_HEIGHT);
  match get parsed ASPECT_RATIO with
  | None => Ok (w, h)
  | Some c =>
      match get_ratio (constraint_value c) with
      | Some ratio =>
          if (ratio_width ratio <=? 0)%Z || (ratio_height ratio <=? 0)%Z then Err INVALID_RATIO
          else
            do height_from_width <- height_for_width precision w ratio cells UP;
            if (height_from_width <=? h)%Z then
              do width_from_height <- width_for_height precision h ratio cells UP;
              Ok (Z.max w width_from_height, h)
            else Ok (w, height_from_width)
      | None => Err INVALID_RATIO
      end
  end.

(** The frames of a [std::map], in the order of their ids. *)
Definition in_id_order (parsed : ParsedLayout) : list ParsedConstraints :=
  map snd (merge_sort (fun a b => String.le (fst a) (fst b)) (map_to_list parsed)).

Fixpoint minimum_of_each (frames : list ParsedConstraints) (cells : CellDimensions) (minimum_width minimum_height : Z)
  : option (result Status (Z * Z)) :=
  match frames with
  | [] => Some (Ok (minimum_width, minimum_height))
  | parsed :: frames =>
      run (Some (frame_minimum_size parsed cells)) (fun '(w, h) =>
      run (minimum_axis parsed true w) (fun required_width =>
      run (minimum_axis parsed false h) (fun required_height =>
      minimum_of_each frames cells (Z.max minimum_width required_width) (Z.max minimum_height required_height))))
  end.
End Minimum.

(** ** Overlap dependencies *)

Record FrameDependency := { prerequisite : nat; dependent : nat }.

#[global] Instance FrameDependency_eq_dec : EqDecision FrameDependency.
Proof. solve_decision. Defined.

Definition rectangles_intersect (first second : Rect) : bool :=
  if (rect_width first =? 0)%Z || (rect_height first =? 0)%Z || (rect_width second =? 0)%Z || (rect_height second =? 0)%Z
  then false
  else
    (rect_x first <? wrap 64 (rect_x second + rect_width second))%Z &&
    (rect_x second <? wrap 64 (rect_x first + rect_width first))%Z &&
    (rect_y first <? wrap 64 (rect_y second + rect_height second))%Z &&
    (rect_y second <? wrap 64 (rect_y first + rect_height first))%Z.

(** The frames in front of the frame [back]; [front] is the index of the first. *)
Fixpoint overlaps (layouts : gmap string Rect) (back : nat) (back_rect : Rect) (front : nat) (ids : list string)
  : result Status (list FrameDependency) :=
  match ids with
  | [] => Ok []
  | id :: ids =>
      match layouts !! id with
      | None => Err FRAME_NOT_FOUND
      | Some front_rect =>
          do rest <- overlaps layouts back back_rect (S front) ids;
          Ok (if rectangles_intersect back_rect front_rect
              then {| prerequisite := back; dependent := front |} :: rest else rest)
      end
  end.

Fixpoint build_from (layouts : gmap string Rect) (back : nat) (ids : list string) : result Status (list FrameDependency) :=
  match ids with
  | [] => Ok []
  | id :: ids =>
      match layouts !! id with
      | None => Err FRAME_NOT_FOUND
      | Some back_rect =>
          do edges <- overlaps layouts back back_rect (S back) ids;
          do rest <- build_from layouts (S back) ids;
          Ok (edges ++ rest)
      end
  end.

Definition build_frame_dependencies (layouts : gmap string Rect) (ids : list string) : result Status (list FrameDependency) :=
  build_from layouts 0 ids.

(** ** Descriptions *)

Record AbsoluteLayout := {
  frame_layouts : gmap string Rect;
  frame_dependencies : list FrameDependency;
}.

Definition empty_layout : AbsoluteLayout := {| frame_layouts := ∅; frame_dependencies := [] |}.

Record CachedAbsoluteLayout := {
  cached_screen_width : Z;
  cached_screen_height : Z;
  cached_cell_dimensions : CellDimensions;
  cached_z_buffer_revision : Z;
  cached_constraint_revision : Z;
  cached_layout : AbsoluteLayout;
}.

Section Description.
Context {Frame : Type}.

Record LayoutDescription := {
  z_buffer : ZBuffer Frame;
  constraints : gmap string (list Constraint);
  constraint_revision : Z;
  cached_resolution_order : list string;
  cached_order_z_buffer_revision : Z;
  cached_order_constraint_revision : Z;
  cached_resolution_order_valid : bool;
  cached_absolute_layout : option CachedAbsoluteLayout;
}.

Definition make_layout_description : LayoutDescription :=
  {| z_buffer := empty_zbuffer; constraints := ∅; constraint_revision := 0; cached_resolution_order := [];
     cached_order_z_buffer_revision := 0; cached_order_constraint_revision := 0;
     cached_resolution_order_valid := false; cached_absolute_layout := None |}.

(** [++constraint_revision] and the resets that follow it. *)
Definition changed (d : LayoutDescription) (z : ZBuffer Frame) (c : gmap string (list Constraint)) : LayoutDescription :=
  {| z_buffer := z; constraints := c; constraint_revision := wrap 64 (constraint_revision d + 1);
     cached_resolution_order := cached_resolution_order d;
     cached_order_z_buffer_revision := cached_order_z_buffer_revision d;
     cached_order_constraint_revision := cached_order_constraint_revision d;
     cached_resolution_order_valid := false; cached_absolute_layout := None |}.

Definition add_frame_to_layout_description (frame_id : string) (frame : option Frame) (d : LayoutDescription)
  : Status * LayoutDescription :=
  let (status, z) := zbuffer_add frame_id frame (z_buffer d) in
  if is_ok status
  then (OK, changed d z (match constraints d !! frame_id with
                         | Some _ => constraints d
                         | None => <[frame_id := []]> (constraints d)
                         end))
  else (status, d).

Definition conflicting (a b : Constraint) : bool :=
  bool_decide (constraint_type a = constraint_type b) ||
  (is_horizontal_placement (constraint_type a) && is_horizontal_placement (constraint_type b)) ||
  (is_vertical_placement (constraint_type a) && is_vertical_placement (constraint_type b)).

Definition add_constraint_to_frame (frame_id : string) (c : Constraint) (d : LayoutDescription)
  : Status * LayoutDescription :=
  if String.eqb frame_id "" then (INVALID_ARGUMENT, d)
  else if negb (bool_decide (frame_id ∈ ids (z_buffer d))) then (FRAME_NOT_FOUND, d)
  else
    let validation := validate_constraint c in
    if negb (is_ok validation) then (validation, d)
    else
      let existing := default [] (constraints d !! frame_id) in
      if existsb (fun e => conflicting e c) existing then (INVALID_CONSTRAINT, d)
      else (OK, changed d (z_buffer d) (<[frame_id := existing ++ [c]]> (constraints d))).

(** The checks of [add_frame] on the constraints against those before them. *)
Fixpoint check_constraints (previous l : list Constraint) : Status :=
  match l with
  | [] => OK
  | c :: l =>
      let validation := validate_constraint c in
      if negb (is_ok validation) then validation
      else if existsb (fun e => conflicting e c) previous then INVALID_CONSTRAINT
      else check_constraints (previous ++ [c]) l
  end.

Fixpoint add_constraints (frame_id : string) (l : list Constraint) (d : LayoutDescription) : Status * LayoutDescription :=
  match l with
  | [] => (OK, d)
  | c :: l =>
      let (status, d) := add_constraint_to_frame frame_id c d in
      if is_ok status then add_constraints frame_id l d else (status, d)
  end.

Definition add_frame (frame_id : string) (frame : option Frame) (l : list Constraint) (d : LayoutDescription)
  : Status * LayoutDescription :=
  if String.eqb frame_id "" || bool_decide (frame = None) then (INVALID_ARGUMENT, d)
  else
    let checked := check_constraints [] l in
    if negb (is_ok checked) then (checked, d)
    else
      let (status, d) := add_frame_to_layout_description frame_id frame d in
      if is_ok status then add_constraints frame_id l d else (status, d).

(** The Z-buffer is a public member: its own operations go past the caches. *)
Definition with_z_buffer (d : LayoutDescription) (z : ZBuffer Frame) : LayoutDescription :=
  {| z_buffer := z; constraints := constraints d; constraint_revision := constraint_revision d;
     cached_resolution_order := cached_resolution_order d;
     cached_order_z_buffer_revision := cached_order_z_buffer_revision d;
     cached_order_constraint_revision := cached_order_constraint_revision d;
     cached_resolution_order_valid := cached_resolution_order_valid d;
     cached_absolute_layout := cached_absolute_layout d |}.

Section Compute.
Variable precision : Z.

(** The geometry cache answers. *)
Definition cache_hit (d : LayoutDescription) (w h : Z) (cells : CellDimensions) : option AbsoluteLayout :=
  match cached_absolute_layout d with
  | Some c =>
      if (cached_screen_width c =? w)%Z && (cached_screen_height c =? h)%Z &&
         bool_decide (cached_cell_dimensions c = cells) &&
         (cached_z_buffer_revision c =? revision (z_buffer d))%Z &&
         (cached_constraint_revision c =? constraint_revision d)%Z
      then Some (cached_layout c) else None
  | None => None
  end.

Definition cached_order_valid (d : LayoutDescription) : bool :=
  cached_resolution_order_valid d && (cached_order_z_buffer_revision d =? revision (z_buffer d))%Z &&
  (cached_order_constraint_revision d =? constraint_revision d)%Z.

Definition store_caches (d : LayoutDescription) (w h : Z) (cells : CellDimensions) (order : list string)
    (layout : AbsoluteLayout) : LayoutDescription :=
  let valid := cached_order_valid d in
  {| z_buffer := z_buffer d; constraints := constraints d; constraint_revision := constraint_revision d;
     cached_resolution_order := if valid then cached_resolution_order d else order;
     cached_order_z_buffer_revision := if valid then cached_order_z_buffer_revision d else revision (z_buffer d);
     cached_order_constraint_revision := if valid then cached_order_constraint_revision d else constraint_revision d;
     cached_resolution_order_valid := if valid then cached_resolution_order_valid d else true;
     cached_absolute_layout := Some
       {| cached_screen_width := w; cached_screen_height := h; cached_cell_dimensions := cells;
          cached_z_buffer_revision := revision (z_buffer d); cached_constraint_revision := constraint_revision d;
          cached_layout := layout |} |}.

(** [compute_absolute_layout]; [None] is exhausted fuel. The output is empty
    on every error. *)
Definition compute_absolute_layout (d : LayoutDescription) (w h : Z) (cells : CellDimensions)
  : option (result Status AbsoluteLayout * LayoutDescription) :=
  if (cell_width cells =? 0)%Z || (cell_height cells =? 0)%Z then Some (Err INVALID_DIMENSIONS, d)
  else
    match cache_hit d w h cells with
    | Some layout => Some (Ok layout, d)
    | None =>
        match parse_layout (ids (z_buffer d)) (constraints d) with
        | Err status => Some (Err status, d)
        | Ok parsed =>
            match resolve_all precision w h cells parsed (ids (z_buffer d))
                    (if cached_order_valid d then Some (cached_resolution_order d) else None) with
            | None => None
            | Some (Err status) => Some (Err status, d)
            | Some (Ok s) =>
                match build_frame_dependencies (output s) (ids (z_buffer d)) with
                | Err status => Some (Err status, d)
                | Ok edges =>
                    let layout := {| frame_layouts := output s; frame_dependencies := edges |} in
                    Some (Ok layout, store_caches d w h cells (resolution_order s) layout)
                end
            end
        end
    end.

Definition compute_minimum_dimensions (d : LayoutDescription) (cells : CellDimensions) : option (result Status (Z * Z)) :=
  if (cell_width cells =? 0)%Z || (cell_height cells =? 0)%Z then Some (Err INVALID_DIMENSIONS)
  else run (Some (parse_layout (ids (z_buffer d)) (constraints d)))
         (fun parsed => minimum_of_each precision (in_id_order parsed) cells 0 0).
End Compute.
End Description.
Arguments LayoutDescription Frame : clear implicits.
