(* ===== verification/LayoutSolve.v ===== *)
(** * Sizes and positions of single frames

    What the measures, margins, aspect ratios and anchors of Layout.v compute:
    a resolved frame lies inside its margins, whatever its constraints. *)
From S2P Require Import Prelude Tui Canvas LongDouble Layout.
From Stdlib Require Import QArith Qround Lqa.
(** ** Validated constraints *)

(** The values of a constraint are those of its C++ types. *)
Definition constraint_wf (c : Constraint) : Prop :=
  match constraint_value c with
  | FloatValue f => float_wf f
  | SizeValue n => is_u64 n
  | RatioValue r => (ratio_width r < 2 ^ 31 /\ ratio_height r < 2 ^ 31)%Z
  | NameValue _ => True
  end.

Definition parsed_ok (p : ParsedConstraints) : Prop :=
  forall t c, get p t = Some c -> constraint_type c = t /\ validate_constraint c = OK /\ constraint_wf c.

Lemma type_index_inj t t' : type_index t = type_index t' -> t = t'.
Proof. by destruct t, t'. Qed.

Lemma type_index_bound t : (type_index t < constraint_type_count)%nat.
Proof. destruct t; unfold constraint_type_count; cbn; lia. Qed.

Lemma get_insert p t t' c : length p = constraint_type_count ->
  get (<[type_index t := Some c]> p) t' = if decide (t = t') then Some c else get p t'.
Proof.
  intros Hl. pose proof (type_index_bound t) as Hb. unfold get. case_decide as Hd.
  - subst. by rewrite list_lookup_insert_eq by lia.
  - rewrite list_lookup_insert_ne; [done|]. intros E. by apply type_index_inj in E.
Qed.

Lemma get_none t : get no_constraints t = None.
Proof. by destruct t. Qed.

Lemma is_ok_eq s : is_ok s = true <-> s = OK.
Proof. unfold is_ok. apply bool_decide_eq_true. Qed.

Lemma index_constraints_ok l : forall p hn vn p' hn' vn',
  index_constraints l p hn vn = Ok (p', hn', vn') -> length p = constraint_type_count -> parsed_ok p ->
  Forall constraint_wf l -> parsed_ok p'.
Proof.
  induction l as [|c l IH]; intros p hn vn p' hn' vn' E Hl Hp Hf; cbn in E; [by injection E as <- <- <-|].
  apply Forall_cons in Hf as [Hc Hf]. destruct (is_ok (validate_constraint c)) eqn:Hv; [|done]. apply is_ok_eq in Hv.
  destruct (get p (constraint_type c)) eqn:Hg; [done|]. eapply IH; [exact E|by rewrite length_insert| |done].
  intros t c' Hget. rewrite get_insert in Hget by done. case_decide as Hd; [|by apply Hp].
  by injection Hget as <-.
Qed.

Lemma parse_constraints_ok l p : parse_constraints l = Ok p -> Forall constraint_wf l -> parsed_ok p.
Proof.
  intros E Hf. unfold parse_constraints in E. apply bind_ok in E as ([[p' hn] vn] & E & H).
  destruct (_ || _); [done|]. destruct (negb _); [done|]. destruct (negb _); [done|]. apply Ok_inj in H as <-.
  eapply index_constraints_ok; [exact E|done| |done]. intros t c Hg. by rewrite get_none in Hg.
Qed.

Lemma no_constraints_ok : parsed_ok no_constraints.
Proof. intros t c Hg. by rewrite get_none in Hg. Qed.

(** What a validated measure holds. *)
Inductive measure_view (c : Constraint) : Prop :=
| measure_characters n : constraint_unit c = CHARACTERS -> constraint_value c = SizeValue n -> is_u64 n -> measure_view c
| measure_percent m e : constraint_unit c = PERCENT -> constraint_value c = FloatValue (Finite m e) ->
    (Z.abs m < 2 ^ 24)%Z -> (0 <= float_value m e)%Q -> (float_value m e <= 1)%Q -> measure_view c
| measure_ratio : constraint_unit c = RATIO -> constraint_type c = ASPECT_RATIO -> measure_view c
| measure_name s : constraint_unit c = NAME -> constraint_value c = NameValue s -> s <> ""%string ->
    is_edge_anchor (constraint_type c) = true -> measure_view c.

Lemma validated_view c : validate_constraint c = OK -> constraint_wf c -> measure_view c.
Proof.
  unfold validate_constraint, constraint_wf. destruct (constraint_unit c) eqn:U.
  - destruct (constraint_value c) eqn:V; cbn; rewrite ?bool_decide_eq_true_2 by done; rewrite ?orb_true_r; try done.
    intros _ Hn. by eapply measure_characters.
  - destruct (bool_decide _); [done|]. destruct (constraint_value c) as [f| | |] eqn:V; try done. cbn.
    destruct f as [|neg|m e]; try done. unfold percentage_ok. cbn. destruct (_ || _) eqn:G; [done|].
    apply orb_false_iff in G as [G1 G2]. apply negb_false_iff in G1, G2. apply Qle_bool_iff in G1, G2.
    intros _ [Hm _]. by eapply measure_percent.
  - destruct (bool_decide (constraint_type c = ASPECT_RATIO)) eqn:T; [|done]. apply bool_decide_eq_true in T.
    intros _ _. by apply measure_ratio.
  - destruct (is_edge_anchor (constraint_type c)) eqn:T; [|done].
    destruct (constraint_value c) as [| | |s] eqn:V; try done. cbn. destruct (String.eqb_spec s ""); [done|].
    intros _ _. by eapply measure_name.
Qed.

Section Sizes.

Variable precision : Z.
Hypothesis Hprecision : (64 <= precision)%Z.

Lemma u64_representable z : is_u64 z -> representable precision (inject_Z z).
Proof.
  intros Hz. apply representable_Z. unfold in_width in Hz.
  pose proof (Z.pow_le_mono_r 2 64 precision ltac:(lia) Hprecision). lia.
Qed.

Lemma ld_exact z : is_u64 z -> (ld precision z == inject_Z z)%Q.
Proof. intros Hz. apply round_at_exact; [lia|]. by apply u64_representable. Qed.

(** ** Measures *)

Lemma percent_bounds extent p : is_u64 extent -> (0 <= p)%Q -> (p <= 1)%Q ->
  (0 <= Qfloor (ld_mul precision (ld precision extent) p) <= extent)%Z.
Proof.
  intros He Hp0 Hp1. unfold ld_mul.
  assert (He0 : (0 <= inject_Z extent)%Q) by (change 0%Q with (inject_Z 0); rewrite <- Zle_Qle; apply He).
  assert (E : (ld precision extent * p == inject_Z extent * p)%Q) by (by rewrite ld_exact).
  assert (Hn : (0 <= inject_Z extent * p)%Q) by nra.
  assert (Hu : (inject_Z extent * p <= inject_Z extent)%Q) by nra.
  split.
  - change 0%Z with (Qfloor (inject_Z 0)). apply Qfloor_resp_le. apply (round_at_nonneg precision). lia.
  - rewrite <- (Qfloor_Z extent) at 2. apply Qfloor_resp_le. rewrite E.
    apply round_at_le; [lia|done|by apply u64_representable|done].
Qed.

(** A measure of a validated constraint never fails, except for a named
    anchor or a ratio; percentages stay on the screen. *)
Lemma resolve_measure_ok c extent default_value : validate_constraint c = OK -> constraint_wf c ->
  constraint_unit c = CHARACTERS \/ constraint_unit c = PERCENT -> is_u64 extent ->
  exists v, resolve_measure precision (Some c) extent default_value = Ok v /\ is_u64 v /\
            (constraint_unit c = PERCENT -> (v <= extent)%Z).
Proof.
  intros Hv Hw Hu He. destruct (validated_view c Hv Hw) as [n U V Hn|m e U V _ Hp0 Hp1|U _|s U]; rewrite U in *;
    [| |by destruct Hu|by destruct Hu]; unfold resolve_measure; rewrite U, V; cbn.
  - exists n. done.
  - apply Qle_bool_iff in Hp0 as B0. apply Qle_bool_iff in Hp1 as B1. rewrite B0, B1. cbn.
    destruct (Qeq_bool _ 1); [by exists extent|].
    eexists. split; [done|]. pose proof (percent_bounds extent _ He Hp0 Hp1). split; [width_lia|lia].
Qed.

(** A percentage of a screen of fewer than [2 ^ (precision - 24)] cells is the
    exact product rounded down. *)
Lemma percent_exact extent m e : (0 <= extent < 2 ^ (precision - 24))%Z -> (0 <= m < 2 ^ 24)%Z ->
  Qfloor (ld_mul precision (ld precision extent) (float_value m e)) = Qfloor (inject_Z extent * float_value m e).
Proof.
  intros He Hm. assert (Hlt : (extent < 2 ^ precision)%Z).
  { pose proof (Z.pow_le_mono_r 2 (precision - 24) precision ltac:(lia) ltac:(lia)). lia. }
  assert (Hld : (ld precision extent == inject_Z extent)%Q) by (apply round_at_Z; lia).
  apply Qfloor_comp. unfold ld_mul. rewrite Hld.
  apply round_at_exact; [lia|]. exists (extent * m)%Z, e. split.
  - split; [lia|]. replace precision with ((precision - 24) + 24)%Z at 1 by lia. rewrite Z.pow_add_r by lia. nia.
  - unfold float_value. rewrite inject_Z_mult. ring.
Qed.

(** The validated measures of a parsed frame: neither a name nor a ratio. *)
Definition measure_type (t : ConstraintType) : bool :=
  match t with
  | ASPECT_RATIO => false
  | t => negb (is_edge_anchor t)
  end.

Lemma parsed_measure p t extent default_value : parsed_ok p -> measure_type t = true -> is_u64 extent ->
  is_u64 default_value ->
  exists v, resolve_measure precision (get p t) extent default_value = Ok v /\ is_u64 v.
Proof.
  intros Hp Ht He Hd. destruct (get p t) as [c|] eqn:G; [|by exists default_value].
  destruct (Hp t c G) as (Et & Hv & Hw).
  assert (Hu : constraint_unit c = CHARACTERS \/ constraint_unit c = PERCENT).
  { destruct (validated_view c Hv Hw) as [n U|m e U|U E|s U _ _ E]; [by left|by right|..].
    - rewrite Et in E. by rewrite E in Ht.
    - rewrite Et in E. destruct t; done. }
  destruct (resolve_measure_ok c extent default_value Hv Hw Hu He) as (v & E & Hv' & _). by exists v.
Qed.

(** The margins leave an interval of the screen. *)
Lemma axis_bounds_ok p horizontal extent : parsed_ok p -> is_u64 extent ->
  exists lower upper, resolve_axis_bounds precision p horizontal extent = Ok (lower, upper) /\
    (0 <= lower <= upper)%Z /\ (upper <= extent)%Z.
Proof.
  intros Hp He. unfold resolve_axis_bounds. assert (H0 : is_u64 0) by done.
  destruct (parsed_measure p (if horizontal then LEFT_MARGIN else TOP_MARGIN) extent 0 Hp) as (a & -> & Ha);
    [by destruct horizontal|done..|].
  destruct (parsed_measure p (if horizontal then RIGHT_MARGIN else BOTTOM_MARGIN) extent 0 Hp) as (b & -> & Hb);
    [by destruct horizontal|done..|].
  cbn [result_bind]. eexists _, _. split; [done|]. destruct (Z.ltb_spec (extent - Z.min b extent) (Z.min a extent)); width_lia.
Qed.

(** ** Aspect ratios *)

Lemma derived_nonneg s sc sr tc tr rounding v :
  checked_derived_dimension precision s sc sr tc tr rounding = Ok v -> is_u64 v.
Proof.
  unfold checked_derived_dimension. destruct (_ || _); [done|]. destruct (_ || _); [done|].
  set (scaled := ld_div _ _ _). destruct (negb _) eqn:G; [done|]. intros E%Ok_inj. subst v.
  apply negb_false_iff, Qle_bool_iff in G. rewrite ld_exact in G by (unfold size_max; width_lia). rewrite <- Zle_Qle in G.
  assert (Hs : (0 <= scaled)%Q) by (apply round_at_nonneg; lia).
  assert (Hn : (0 <= match rounding with DOWN => Qfloor scaled | UP => Qceiling scaled end)%Z).
  { apply Qfloor_resp_le in Hs. change (Qfloor 0) with 0%Z in Hs. destruct rounding; [done|].
    assert (Hc : (Qfloor scaled <= Qceiling scaled)%Z) by (rewrite Zle_Qle; apply Qle_floor_ceiling). lia. }
  unfold size_max in G. width_lia.
Qed.

Lemma derived_status s sc sr tc tr rounding e : (0 < sc)%Z -> (0 < tc)%Z -> (0 < sr)%Z -> (0 < tr)%Z ->
  checked_derived_dimension precision s sc sr tc tr rounding = Err e -> e = DIMENSION_OVERFLOW.
Proof.
  intros H1 H2 H3 H4. unfold checked_derived_dimension.
  destruct (Z.eqb_spec sc 0), (Z.eqb_spec tc 0), (Z.leb_spec sr 0), (Z.leb_spec tr 0); try lia. cbn.
  destruct (negb _); [|done]. by intros [= <-].
Qed.

Lemma at_least_one_bounds w h v : (0 <= w)%Z -> (0 <= h)%Z -> (0 <= v)%Z ->
  (0 <= at_least_one w h v)%Z /\ (0 < w -> 0 < h -> 0 < at_least_one w h v)%Z /\ (v <= at_least_one w h v)%Z.
Proof.
  intros Hw Hh Hv. unfold at_least_one.
  destruct (Z.ltb_spec 0 w), (Z.ltb_spec 0 h), (Z.eqb_spec v 0); cbn; lia.
Qed.

(** A parsed ratio is a pair of positive extents. *)
Lemma parsed_ratio p c : parsed_ok p -> get p ASPECT_RATIO = Some c ->
  exists r, constraint_value c = RatioValue r /\ (0 < ratio_width r < 2 ^ 31)%Z /\ (0 < ratio_height r < 2 ^ 31)%Z.
Proof.
  intros Hp G. destruct (Hp _ _ G) as (Et & Hv & Hw). unfold validate_constraint, constraint_wf in *. rewrite Et in Hv.
  destruct (constraint_unit c); [done|done| |done]. cbn in Hv. destruct (constraint_value c) as [| |r|]; try done. exists r.
  cbn in Hv. unfold ratio_ok in Hv. destruct (Z.leb_spec (ratio_width r) 0), (Z.leb_spec (ratio_height r) 0); try done. split; [done|]. lia.
Qed.

Variable cells : CellDimensions.
Hypothesis Hcells : (0 < cell_width cells)%Z /\ (0 < cell_height cells)%Z.

(** The aspect ratio only shrinks a frame, and leaves a cell of a non-empty
    one. *)
Lemma aspect_ratio_ok p w h : parsed_ok p -> (0 <= w)%Z -> (0 <= h)%Z ->
  match apply_aspect_ratio precision p w h cells with
  | Ok (w', h') => (0 <= w' <= w)%Z /\ (0 <= h' <= h)%Z /\ (0 < w -> 0 < h -> 0 < w' /\ 0 < h')%Z
  | Err e => e = DIMENSION_OVERFLOW
  end.
Proof.
  intros Hp Hw Hh. unfold apply_aspect_ratio. destruct (get p ASPECT_RATIO) as [c|] eqn:G; [|lia].
  destruct (parsed_ratio p c Hp G) as (r & -> & Hr1 & Hr2). cbn [get_ratio].
  destruct (Z.leb_spec (ratio_width r) 0), (Z.leb_spec (ratio_height r) 0); try lia. cbn [orb].
  unfold height_for_width, width_for_height. destruct (checked_derived_dimension precision w _ _ _ _ _) as [v|e] eqn:E1; cbn.
  2:{ eapply derived_status; [..|exact E1]; lia. }
  apply derived_nonneg in E1. pose proof (at_least_one_bounds w h v Hw Hh ltac:(width_lia)) as (B1 & B2 & _).
  destruct (Z.leb_spec (at_least_one w h v) h); [lia|].
  destruct (checked_derived_dimension precision h _ _ _ _ _) as [v'|e] eqn:E2; cbn.
  2:{ eapply derived_status; [..|exact E2]; lia. }
  apply derived_nonneg in E2. pose proof (at_least_one_bounds w h v' Hw Hh ltac:(width_lia)) as (B3 & B4 & _). lia.
Qed.

(** ** Bounds, sizes and positions *)

Variable screen_width screen_height : Z.
Hypothesis Hscreen : is_u64 screen_width /\ is_u64 screen_height.

Record extent_ok (p : ParsedConstraints) (e : Extent) : Prop := {
  eo_horizontal : resolve_axis_bounds precision p true screen_width = Ok (left_ e, right_ e);
  eo_vertical : resolve_axis_bounds precision p false screen_height = Ok (top_ e, bottom_ e);
  eo_left : (0 <= left_ e)%Z;
  eo_width : (0 <= frame_width e <= right_ e - left_ e)%Z;
  eo_right : (right_ e <= screen_width)%Z;
  eo_top : (0 <= top_ e)%Z;
  eo_height : (0 <= frame_height e <= bottom_ e - top_ e)%Z;
  eo_bottom : (bottom_ e <= screen_height)%Z;
  eo_max_width : forall m, resolve_measure precision (get p MAX_WIDTH) screen_width (right_ e - left_ e)%Z = Ok m ->
    (frame_width e <= m)%Z;
  eo_max_height : forall m, resolve_measure precision (get p MAX_HEIGHT) screen_height (bottom_ e - top_ e)%Z = Ok m ->
    (frame_height e <= m)%Z;
}.

Lemma resolve_extent_ok p : parsed_ok p ->
  match resolve_extent precision screen_width screen_height cells p with
  | Ok e => extent_ok p e
  | Err e => e = DIMENSION_OVERFLOW
  end.
Proof.
  intros Hp. destruct Hscreen as [Hsw Hsh]. unfold resolve_extent.
  destruct (axis_bounds_ok p true screen_width Hp Hsw) as (l & r & El & Bl & Br). rewrite El. cbn [result_bind].
  destruct (axis_bounds_ok p false screen_height Hp Hsh) as (t & b & Et & Bt & Bb). rewrite Et. cbn [result_bind].
  assert (Hd1 : is_u64 (r - l)) by width_lia. assert (Hd2 : is_u64 (b - t)) by width_lia.
  destruct (parsed_measure p MAX_WIDTH screen_width (r - l) Hp eq_refl Hsw Hd1) as (w & Ew & Hw). rewrite Ew. cbn [result_bind].
  destruct (parsed_measure p MAX_HEIGHT screen_height (b - t) Hp eq_refl Hsh Hd2) as (h & Eh & Hh). rewrite Eh. cbn [result_bind].
  pose proof (aspect_ratio_ok p (Z.min w (r - l)) (Z.min h (b - t)) Hp ltac:(width_lia) ltac:(width_lia)) as Ha.
  destruct (apply_aspect_ratio _ _ _ _ _) as [[w' h']|e]; cbn [result_bind]; [|done].
  split; cbn [left_ right_ top_ bottom_ frame_width frame_height]; try done; try lia.
  - intros m Em. rewrite Ew in Em. injection Em as <-. lia.
  - intros m Em. rewrite Eh in Em. injection Em as <-. lia.
Qed.

Lemma clamp_origin_ok origin lower upper extent : (0 <= extent <= upper - lower)%Z ->
  (lower <= clamp_origin origin lower upper extent)%Z /\ (clamp_origin origin lower upper extent + extent <= upper)%Z.
Proof.
  intros He. unfold clamp_origin.
  destruct (Z.ltb_spec upper lower), (Z.ltb_spec (upper - lower) extent); try lia. cbn [orb].
  destruct (Z.ltb_spec origin lower), (Z.ltb_spec (upper - extent) origin); lia.
Qed.

(** The frame a placement is aligned with. *)
Definition anchor_name (placement : option Constraint) : option string :=
  c ← placement; if bool_decide (constraint_unit c = NAME) then get_name (constraint_value c) else None.

(** A validated placement: absent, or of a placement type. *)
Lemma placement_view p horizontal c : parsed_ok p -> placement_constraint p horizontal = Some c ->
  validate_constraint c = OK /\ constraint_wf c /\
  (if horizontal then is_horizontal_placement (constraint_type c) else is_vertical_placement (constraint_type c)) = true.
Proof.
  intros Hp E. assert (Hg : exists t, get p t = Some c /\
    (if horizontal then is_horizontal_placement t else is_vertical_placement t) = true).
  { unfold placement_constraint in E. destruct horizontal; cbn in E.
    - destruct (get p LEFT_ANCHOR) eqn:E1; [simplify_eq; by exists LEFT_ANCHOR|].
      destruct (get p RIGHT_ANCHOR) eqn:E2; [simplify_eq; by exists RIGHT_ANCHOR|].
      destruct (get p HORIZONTAL_CENTER) eqn:E3; [simplify_eq; by exists HORIZONTAL_CENTER|done].
    - destruct (get p TOP_ANCHOR) eqn:E1; [simplify_eq; by exists TOP_ANCHOR|].
      destruct (get p BOTTOM_ANCHOR) eqn:E2; [simplify_eq; by exists BOTTOM_ANCHOR|].
      destruct (get p VERTICAL_CENTER) eqn:E3; [simplify_eq; by exists VERTICAL_CENTER|done]. }
  destruct Hg as (t & Hg & Ht). destruct (Hp t c Hg) as (Et & Hv & Hw). by rewrite Et.
Qed.

(** An origin always keeps the frame between the bounds, and only a missing
    reference fails. *)
Lemma axis_origin_ok p horizontal screen_extent lower upper extent reference : parsed_ok p -> is_u64 screen_extent ->
  (0 <= extent <= upper - lower)%Z ->
  (is_Some (anchor_name (placement_constraint p horizontal)) -> is_Some reference) ->
  exists origin,
    resolve_axis_origin precision (placement_constraint p horizontal) screen_extent lower upper extent reference = Ok origin /\
    (lower <= origin)%Z /\ (origin + extent <= upper)%Z.
Proof.
  intros Hp Hs He Hr. unfold resolve_axis_origin.
  destruct (placement_constraint p horizontal) as [c|] eqn:E; [|exists lower; split; [done|lia]].
  destruct (placement_view p horizontal c Hp E) as (Hv & Hw & Ht).
  assert (Hc : forall o, (lower <= clamp_origin o lower upper extent)%Z /\ (clamp_origin o lower upper extent + extent <= upper)%Z)
    by (intros o; by apply clamp_origin_ok).
  cbn in Hr. case_bool_decide as U.
  - destruct (validated_view c Hv Hw) as [? U'|? ? U'|U'|s U' V _ A]; try congruence. rewrite V in Hr. cbn in Hr.
    destruct Hr as [r ->]; [by eexists|]. destruct (constraint_type c); try done; eexists; (split; [done|apply Hc]).
  - assert (Hu : constraint_unit c = CHARACTERS \/ constraint_unit c = PERCENT).
    { destruct (validated_view c Hv Hw) as [? U'|? ? U'|U' T|? U']; [by left|by right| |done].
      rewrite T in Ht. by destruct horizontal. }
    destruct (resolve_measure_ok c screen_extent 0 Hv Hw Hu Hs) as (v & -> & _). cbn [result_bind].
    destruct (constraint_type c), horizontal; try done; eexists; (split; [done|apply Hc]).
Qed.

(** The rectangle lies within the margins. *)
Lemma place_frame_ok p e hr vr : parsed_ok p -> extent_ok p e ->
  (is_Some (anchor_name (placement_constraint p true)) -> is_Some hr) ->
  (is_Some (anchor_name (placement_constraint p false)) -> is_Some vr) ->
  exists r, place_frame precision screen_width screen_height p e hr vr = Ok r /\
    (left_ e <= rect_x r /\ rect_x r + rect_width r <= right_ e)%Z /\
    (top_ e <= rect_y r /\ rect_y r + rect_height r <= bottom_ e)%Z /\
    rect_width r = frame_width e /\ rect_height r = frame_height e.
Proof.
  intros Hp [] H1 H2. destruct Hscreen as [Hsw Hsh]. unfold place_frame.
  destruct (axis_origin_ok p true screen_width (left_ e) (right_ e) (frame_width e) hr Hp Hsw eo_width0 H1) as (x & -> & Hx).
  destruct (axis_origin_ok p false screen_height (top_ e) (bottom_ e) (frame_height e) vr Hp Hsh eo_height0 H2) as (y & -> & Hy).
  eexists. split; [done|]. done.
Qed.
End Sizes.

(** ** Resolution of named anchors

    A recursive specification of a solved frame, without traversal state, and
    the proof that the depth-first resolver computes it: what it returns, why
    it fails, and that its fuel is enough. *)

Section Solve.
Variable precision : Z.
Hypothesis Hprecision : (64 <= precision)%Z.
Variable screen_width screen_height : Z.
Hypothesis Hscreen : is_u64 screen_width /\ is_u64 screen_height.
Variable cells : CellDimensions.
Hypothesis Hcells : (0 < cell_width cells)%Z /\ (0 < cell_height cells)%Z.
Variable parsed_layout : ParsedLayout.
Hypothesis Hparsed : map_Forall (fun _ p => parsed_ok p) parsed_layout.

Abbreviation extent_of := (resolve_extent precision screen_width screen_height cells).
Abbreviation place := (place_frame precision screen_width screen_height).
Abbreviation resolve := (Layout.resolve precision screen_width screen_height cells parsed_layout).
Abbreviation resolve_each := (Layout.resolve_each precision screen_width screen_height cells parsed_layout).

(** ** The specification *)

(** [a] is aligned with [b]. *)
Definition reference (a : string) (horizontal : bool) : option string :=
  p ← parsed_layout !! a; anchor_name (placement_constraint p horizontal).

Definition refers (a b : string) : Prop := exists horizontal, reference a horizontal = Some b.

Definition referenced (solve : string -> option Rect) (name : option string) : option (option Rect) :=
  match name with
  | None => Some None
  | Some n => r ← solve n; Some (Some r)
  end.

(** A frame's rectangle in terms of those it is aligned with; [depth] bounds
    the chain of anchors. *)
Fixpoint solve (depth : nat) (id : string) : option Rect :=
  match depth with
  | O => None
  | S depth =>
      p ← parsed_layout !! id;
      match extent_of p with
      | Err _ => None
      | Ok e =>
          hr ← referenced (solve depth) (anchor_name (placement_constraint p true));
          vr ← referenced (solve depth) (anchor_name (placement_constraint p false));
          match place p e hr vr with Ok r => Some r | Err _ => None end
      end
  end.

Lemma referenced_mono f f' name hr : (forall n r, f n = Some r -> f' n = Some r) ->
  referenced f name = Some hr -> referenced f' name = Some hr.
Proof.
  intros Hf. destruct name as [n|]; [|done]. cbn. destruct (f n) as [r|] eqn:E; [|done]. by rewrite (Hf n r E).
Qed.

Lemma solve_S depth id r : solve depth id = Some r -> solve (S depth) id = Some r.
Proof.
  revert id r. induction depth as [|depth IH]; intros id r; [done|]. intros E. cbn [solve] in E. cbn [solve].
  destruct (parsed_layout !! id) as [p|]; [|done]. cbn [mbind option_bind] in *. destruct (extent_of p) as [e|]; [|done].
  destruct (referenced (solve depth) (anchor_name (placement_constraint p true))) as [hr|] eqn:H1; [|done].
  destruct (referenced (solve depth) (anchor_name (placement_constraint p false))) as [vr|] eqn:H2; [|done].
  pose proof (referenced_mono _ (solve (S depth)) _ _ IH H1) as H1'. pose proof (referenced_mono _ (solve (S depth)) _ _ IH H2) as H2'.
  cbn [solve] in H1', H2'. by rewrite H1', H2'.
Qed.

Lemma solve_mono depth depth' id r : (depth <= depth')%nat -> solve depth id = Some r -> solve depth' id = Some r.
Proof. induction 1; [done|]. intros E. by apply solve_S; auto. Qed.

(** What a solved frame needs. *)
Lemma solve_needs depth id r b : solve (S depth) id = Some r -> refers id b -> is_Some (solve depth b).
Proof.
  cbn [solve]. intros E [h Hr]. unfold reference in Hr. destruct (parsed_layout !! id) as [p|]; [|done].
  cbn [mbind option_bind] in *. destruct (extent_of p) as [e|]; [|done].
  destruct (referenced (solve depth) (anchor_name (placement_constraint p true))) as [hr|] eqn:H1; [|done].
  destruct (referenced (solve depth) (anchor_name (placement_constraint p false))) as [vr|] eqn:H2; [|done].
  destruct h; rewrite Hr in *; cbn in *.
  - destruct (solve depth b); [by eexists|done].
  - destruct (solve depth b); [by eexists|done].
Qed.

Lemma solve_reaches depth id x : is_Some (solve depth id) -> rtc refers id x -> is_Some (solve depth x).
Proof.
  intros Hs Hr. induction Hr as [id|id y x He _ IH]; [done|]. apply IH. destruct Hs as [r Hs].
  destruct depth as [|depth]; [done|]. destruct (solve_needs _ _ _ _ Hs He) as [r' Hr']. exists r'. by apply solve_S.
Qed.

Lemma solve_acyclic depth : forall id, is_Some (solve depth id) -> ~ tc refers id id.
Proof.
  induction depth as [|depth IH]; intros id [r Hs]; [done|]. intros Hc.
  assert (Hb : exists b, refers id b /\ rtc refers b id).
  { inversion Hc as [? ? Ht|? b ? Ht Ht']; subst; [by exists id|]. exists b. split; [done|]. by apply tc_rtc. }
  destruct Hb as (b & He & Hrt). destruct (solve_needs _ _ _ _ Hs He) as [r' Hr'].
  apply (IH b); [by eexists|]. eapply tc_rtc_l; [exact Hrt|]. by apply tc_once.
Qed.

(** ** The resolver's state *)

Record resolution_inv (s : Resolution) : Prop := {
  ri_frames : forall id, is_Some (visit_states s !! id) <-> is_Some (parsed_layout !! id);
  ri_order : forall id, id ∈ resolution_order s <-> visit_states s !! id = Some RESOLVED;
  ri_nodup : NoDup (resolution_order s);
  ri_output : forall id, is_Some (output s !! id) -> visit_states s !! id = Some RESOLVED;
  ri_solved : forall i id, resolution_order s !! i = Some id ->
    exists r, output s !! id = Some r /\ solve (S i) id = Some r;
}.

(** What a successful call changes. *)
Record extends (s s' : Resolution) : Prop := {
  ex_visiting : forall id, visit_states s' !! id = Some VISITING <-> visit_states s !! id = Some VISITING;
  ex_unvisited : forall id, visit_states s' !! id = Some UNVISITED -> visit_states s !! id = Some UNVISITED;
  ex_output : forall id r, output s !! id = Some r -> output s' !! id = Some r;
  ex_order : exists l, resolution_order s' = resolution_order s ++ l;
}.

Lemma res_extends_refl s : extends s s.
Proof. split; try done. exists []. by rewrite app_nil_r. Qed.

Lemma res_extends_trans s1 s2 s3 : extends s1 s2 -> extends s2 s3 -> extends s1 s3.
Proof.
  intros [A1 A2 A3 [l A4]] [B1 B2 B3 [k B4]]. split; auto.
  - intros id. by rewrite B1.
  - exists (l ++ k). by rewrite B4, A4, app_assoc.
Qed.

Definition mark (s : Resolution) (id : string) : Resolution :=
  {| visit_states := <[id := VISITING]> (visit_states s); output := output s; resolution_order := resolution_order s |}.

Definition finish (s : Resolution) (id : string) (r : Rect) : Resolution :=
  {| visit_states := <[id := RESOLVED]> (visit_states s); output := <[id := r]> (output s);
     resolution_order := resolution_order s ++ [id] |}.

Lemma mark_inv s id : resolution_inv s -> visit_states s !! id = Some UNVISITED -> resolution_inv (mark s id).
Proof.
  intros [A1 A2 A3 A4 A5] Hu. split; cbn; try done.
  - intros x. rewrite <- A1, lookup_insert_is_Some. destruct (decide (id = x)) as [->|]; [|naive_solver].
    split; [by eexists|by left].
  - intros x. rewrite A2. destruct (decide (id = x)) as [->|]; [|by rewrite lookup_insert_ne].
    rewrite lookup_insert_eq, Hu. done.
  - intros x Hx%A4. destruct (decide (id = x)) as [->|]; [congruence|by rewrite lookup_insert_ne].
Qed.

(** The reference as the resolver computes it. *)
Lemma resolve_reference_eq R p horizontal s : parsed_ok p ->
  resolve_reference R (placement_constraint p horizontal) s =
  match anchor_name (placement_constraint p horizontal) with
  | None => Some (Ok (None, s))
  | Some n => run (R n s) (fun s => match output s !! n with
                                    | None => Some (Err FRAME_NOT_FOUND)
                                    | Some r => Some (Ok (Some r, s))
                                    end)
  end.
Proof.
  intros Hp. unfold resolve_reference. destruct (placement_constraint p horizontal) as [c|] eqn:E; [|done].
  destruct (placement_view p horizontal c Hp E) as (Hv & Hw & _). cbn [anchor_name mbind option_bind].
  destruct (bool_decide_reflect (constraint_unit c = NAME)) as [U|U]; cbn [negb]; [|done].
  destruct (validated_view c Hv Hw) as [? U'|? ? U'|U'|n U' V Hn _]; try congruence. rewrite V. cbn [get_name].
  destruct (String.eqb_spec n ""); done.
Qed.

(** Unfolding of a call on a frame that has not been visited. *)
Lemma resolve_unvisited fuel id s p : visit_states s !! id = Some UNVISITED -> parsed_layout !! id = Some p ->
  resolve (S fuel) id s =
  run (Some (extent_of p)) (fun e =>
  run (resolve_reference (resolve fuel) (placement_constraint p true) (mark s id)) (fun '(hr, s) =>
  run (resolve_reference (resolve fuel) (placement_constraint p false) s) (fun '(vr, s) =>
  run (Some (place p e hr vr)) (fun r => Some (Ok (finish s id r)))))).
Proof. intros Hu Hp. cbn [Layout.resolve]. by rewrite Hu, Hp. Qed.

Lemma run_ok {A B} (r : option (result Status A)) (k : A -> option (result Status B)) b :
  run r k = Some (Ok b) -> exists a, r = Some (Ok a) /\ k a = Some (Ok b).
Proof. destruct r as [[a|]|]; [by exists a|done..]. Qed.

Lemma run_err {A B} (r : option (result Status A)) (k : A -> option (result Status B)) e :
  run r k = Some (Err e) -> r = Some (Err e) \/ exists a, r = Some (Ok a) /\ k a = Some (Err e).
Proof. destruct r as [[a|]|]; cbn; [right; by exists a| |done]. intros [= ->]. by left. Qed.

(** ** Success *)

Definition resolves (R : string -> Resolution -> option (result Status Resolution)) : Prop :=
  forall id s s', resolution_inv s -> R id s = Some (Ok s') ->
    resolution_inv s' /\ extends s s' /\ visit_states s' !! id = Some RESOLVED.

(** The rectangle of a resolved frame, and that the specification gives it by
    the time the order has its current length. *)
Lemma resolved_solve s n : resolution_inv s -> visit_states s !! n = Some RESOLVED ->
  exists r, output s !! n = Some r /\ solve (length (resolution_order s)) n = Some r.
Proof.
  intros I Hv. apply (ri_order _ I) in Hv. apply list_elem_of_lookup in Hv as [i Hi].
  destruct (ri_solved _ I i n Hi) as (r & Ho & Hs). exists r. split; [done|].
  eapply solve_mono; [|exact Hs]. apply lookup_lt_Some in Hi. lia.
Qed.

Lemma reference_ok R p horizontal s hr s' : resolves R -> parsed_ok p -> resolution_inv s ->
  resolve_reference R (placement_constraint p horizontal) s = Some (Ok (hr, s')) ->
  resolution_inv s' /\ extends s s' /\
  referenced (solve (length (resolution_order s'))) (anchor_name (placement_constraint p horizontal)) = Some hr.
Proof.
  intros HR Hp I. rewrite resolve_reference_eq by done. destruct (anchor_name _) as [n|].
  - intros (s1 & E1 & E2)%run_ok. destruct (HR n s s1 I E1) as (I1 & X & Hv).
    destruct (resolved_solve s1 n I1 Hv) as (r & Ho & Hs). rewrite Ho in E2. injection E2 as <- <-.
    split; [done|]. split; [done|]. cbn. by rewrite Hs.
  - intros [= <- <-]. split; [done|]. split; [apply res_extends_refl|done].
Qed.

Lemma order_length s s' : extends s s' -> (length (resolution_order s) <= length (resolution_order s'))%nat.
Proof. intros X. destruct (ex_order _ _ X) as [l ->]. rewrite length_app. lia. Qed.

Lemma finish_inv s s3 id p e hr vr r : resolution_inv s3 -> extends (mark s id) s3 ->
  visit_states s !! id = Some UNVISITED -> parsed_layout !! id = Some p ->
  extent_of p = Ok e -> place p e hr vr = Ok r ->
  referenced (solve (length (resolution_order s3))) (anchor_name (placement_constraint p true)) = Some hr ->
  referenced (solve (length (resolution_order s3))) (anchor_name (placement_constraint p false)) = Some vr ->
  resolution_inv (finish s3 id r) /\ extends s (finish s3 id r).
Proof.
  intros [A1 A2 A3 A4 A5] [X1 X2 X3 [l X4]] Hu Hp He Hr H1 H2.
  assert (Hvis : visit_states s3 !! id = Some VISITING) by (apply X1; cbn; by rewrite lookup_insert_eq).
  assert (Hnot : id ∉ resolution_order s3) by (rewrite A2, Hvis; done).
  split; split; cbn [finish visit_states output resolution_order].
  - intros x. rewrite <- A1, lookup_insert_is_Some. destruct (decide (id = x)) as [->|]; [|naive_solver].
    rewrite Hvis. split; [by eexists|by left].
  - intros x. rewrite elem_of_app, A2, list_elem_of_singleton. destruct (decide (id = x)) as [->|].
    + rewrite lookup_insert_eq. split; [done|by right].
    + rewrite lookup_insert_ne by done. naive_solver.
  - apply NoDup_app. split; [done|]. split; [|apply NoDup_singleton]. intros x Hx ->%list_elem_of_singleton. done.
  - intros x. destruct (decide (id = x)) as [->|]; [by rewrite !lookup_insert_eq|].
    rewrite !lookup_insert_ne by done. apply A4.
  - intros i x Hi. apply lookup_app_Some in Hi as [Hi|[Hl Hi]].
    + destruct (A5 i x Hi) as (r' & Ho & Hs). exists r'. split; [|done].
      assert (id <> x) by (intros ->; apply Hnot; by eapply list_elem_of_lookup_2).
      by rewrite lookup_insert_ne.
    + apply list_lookup_singleton_Some in Hi as [Hi <-]. exists r. split; [by rewrite lookup_insert_eq|].
      replace i with (length (resolution_order s3)) by lia. cbn [solve]. rewrite Hp. cbn [mbind option_bind].
      rewrite He, H1, H2. cbn. by rewrite Hr.
  - intros x. destruct (decide (id = x)) as [->|].
    + rewrite lookup_insert_eq, Hu. done.
    + rewrite lookup_insert_ne, X1 by done. cbn. by rewrite lookup_insert_ne.
  - intros x. destruct (decide (id = x)) as [->|]; [by rewrite lookup_insert_eq|].
    rewrite lookup_insert_ne by done. intros Hx%X2. cbn in Hx. by rewrite lookup_insert_ne in Hx.
  - intros x r' Hx. destruct (decide (id = x)) as [->|].
    + exfalso. assert (Ho : is_Some (output s3 !! x)) by (eexists; by apply X3).
      apply A4 in Ho. congruence.
    + rewrite lookup_insert_ne by done. by apply X3.
  - exists (l ++ [id]). cbn in X4. by rewrite X4, app_assoc.
Qed.

Lemma resolve_resolves fuel : resolves (resolve fuel).
Proof.
  induction fuel as [|fuel IH]; intros id s s' I E; [done|].
  destruct (visit_states s !! id) as [[]|] eqn:Hv; [|by cbn in E; rewrite Hv in E|..|by cbn in E; rewrite Hv in E].
  2:{ cbn in E. rewrite Hv in E. injection E as <-. split; [done|]. split; [apply res_extends_refl|done]. }
  destruct (proj1 (ri_frames _ I id)) as [p Hp]; [by eexists|]. pose proof (Hparsed id p Hp) as Hok. cbn in Hok.
  rewrite (resolve_unvisited fuel id s p Hv Hp) in E.
  apply run_ok in E as (e & He & E). injection He as He.
  apply run_ok in E as ([hr s2] & E1 & E). apply run_ok in E as ([vr s3] & E2 & E).
  apply run_ok in E as (r & Hr & E). injection Hr as Hr. injection E as <-.
  destruct (reference_ok _ p true _ hr s2 IH Hok (mark_inv s id I Hv) E1) as (I2 & X2 & H1).
  destruct (reference_ok _ p false _ vr s3 IH Hok I2 E2) as (I3 & X3 & H2).
  destruct (finish_inv s s3 id p e hr vr r I3 (res_extends_trans _ _ _ X2 X3) Hv Hp He Hr) as [I4 X4]; [|done|].
  - eapply referenced_mono; [|exact H1]. intros n r'. apply solve_mono. by apply order_length.
  - split; [done|]. split; [done|]. cbn. by rewrite lookup_insert_eq.
Qed.

(** ** Failure *)

(** Why a frame cannot be resolved: it depends on a cycle of anchors, on a
    frame that does not exist, or on one whose aspect ratio overflows. *)
Definition unsolvable (id : string) (e : Status) : Prop :=
  exists x, rtc refers id x /\
    ((e = CONSTRAINT_CYCLE /\ tc refers x x) \/ (e = FRAME_NOT_FOUND /\ parsed_layout !! x = None) \/
     (e = DIMENSION_OVERFLOW /\ exists p, parsed_layout !! x = Some p /\ extent_of p = Err DIMENSION_OVERFLOW)).

Definition fails_well (R : string -> Resolution -> option (result Status Resolution)) : Prop :=
  forall id s e, resolution_inv s -> (forall v, visit_states s !! v = Some VISITING -> tc refers v id) ->
    R id s = Some (Err e) -> unsolvable id e.

Lemma unsolvable_step id n e : refers id n -> unsolvable n e -> unsolvable id e.
Proof. intros Hr (x & Hx & He). exists x. split; [by eapply rtc_l|done]. Qed.

Lemma reference_err R p id horizontal s e : resolves R -> fails_well R -> resolution_inv s ->
  parsed_layout !! id = Some p -> parsed_ok p ->
  (forall v, visit_states s !! v = Some VISITING -> v = id \/ tc refers v id) ->
  resolve_reference R (placement_constraint p horizontal) s = Some (Err e) -> unsolvable id e.
Proof.
  intros HR HF I Hp Hok Hv. rewrite resolve_reference_eq by done.
  destruct (anchor_name (placement_constraint p horizontal)) as [n|] eqn:En; [|done].
  assert (Hn : refers id n) by (exists horizontal; unfold reference; by rewrite Hp).
  intros [E|(s1 & E1 & E2)]%run_err.
  - apply (unsolvable_step id n); [done|]. apply (HF n s e I); [|done].
    intros v Hvv. destruct (Hv v Hvv) as [->|Ht]; [by apply tc_once|]. eapply tc_r; [exact Ht|done].
  - destruct (HR n s s1 I E1) as (I1 & _ & Hvis). destruct (resolved_solve s1 n I1 Hvis) as (r & Ho & _).
    by rewrite Ho in E2.
Qed.

Lemma resolve_fails_well fuel : fails_well (resolve fuel).
Proof.
  induction fuel as [|fuel IH]; intros id s e I Hvis E; [done|].
  destruct (visit_states s !! id) as [[]|] eqn:Hv.
  - destruct (proj1 (ri_frames _ I id)) as [p Hp]; [by eexists|]. pose proof (Hparsed id p Hp) as Hok. cbn in Hok.
    rewrite (resolve_unvisited fuel id s p Hv Hp) in E.
    pose proof (resolve_extent_ok precision Hprecision cells Hcells screen_width screen_height Hscreen p Hok) as Hext.
    assert (Hm : forall v, visit_states (mark s id) !! v = Some VISITING -> v = id \/ tc refers v id).
    { intros v. cbn. destruct (decide (id = v)) as [->|]; [by left|]. rewrite lookup_insert_ne by done. intros H. right. by apply Hvis. }
    apply run_err in E as [E|(ext & He & E)].
    { injection E as E. rewrite E in Hext. subst e. exists id. split; [done|]. right. right. split; [done|]. by exists p. }
    injection He as He. rewrite He in Hext.
    apply run_err in E as [E|([hr s2] & E1 & E)].
    { eapply reference_err; [apply resolve_resolves|exact IH|by apply mark_inv|done..|exact E]. }
    destruct (reference_ok _ p true _ hr s2 (resolve_resolves fuel) Hok (mark_inv s id I Hv) E1) as (I2 & X2 & H1).
    apply run_err in E as [E|([vr s3] & E2 & E)].
    { eapply reference_err; [apply resolve_resolves|exact IH|exact I2|done|done| |exact E].
      intros v Hvv. apply Hm. by apply (ex_visiting _ _ X2). }
    destruct (reference_ok _ p false _ vr s3 (resolve_resolves fuel) Hok I2 E2) as (I3 & X3 & H2).
    exfalso. destruct (place_frame_ok precision Hprecision screen_width screen_height Hscreen p ext hr vr Hok Hext) as (r & Hr & _).
    + intros [n Hn]. rewrite Hn in H1. cbn in H1. destruct (solve _ n); simplify_eq/=. by eexists.
    + intros [n Hn]. rewrite Hn in H2. cbn in H2. destruct (solve _ n); simplify_eq/=. by eexists.
    + rewrite Hr in E. done.
  - cbn in E. rewrite Hv in E. injection E as <-. exists id. split; [done|]. left. split; [done|]. by apply Hvis.
  - cbn in E. by rewrite Hv in E.
  - cbn in E. rewrite Hv in E. injection E as <-. exists id. split; [done|]. right. left. split; [done|].
    destruct (parsed_layout !! id) eqn:Hp; [|done]. exfalso. destruct (proj2 (ri_frames _ I id)) as [? ?]; [by eexists|congruence].
Qed.

(** A frame that the specification solves is not unsolvable. *)
Lemma solvable_not depth id e : is_Some (solve depth id) -> ~ unsolvable id e.
Proof.
  intros Hs (x & Hx & Hc). pose proof (solve_reaches depth id x Hs Hx) as Hsx.
  destruct Hc as [[_ Ht]|[[_ Hn]|(_ & p & Hp & He)]]; [by apply (solve_acyclic depth x Hsx)|..];
    destruct Hsx as [r Hr]; destruct depth as [|depth]; try done; cbn [solve] in Hr.
  - by rewrite Hn in Hr.
  - rewrite Hp in Hr. cbn in Hr. by rewrite He in Hr.
Qed.

(** ** Termination *)

Definition unvisited (s : Resolution) : gset string :=
  dom (filter (fun x => x.2 = UNVISITED) (visit_states s)).

Lemma elem_of_unvisited s id : id ∈ unvisited s <-> visit_states s !! id = Some UNVISITED.
Proof.
  unfold unvisited. rewrite elem_of_dom. split.
  - intros [v Hv]. apply map_lookup_filter_Some in Hv as [Hv Hu]. cbn in Hu. by subst.
  - intros Hv. exists UNVISITED. by apply map_lookup_filter_Some.
Qed.

Lemma extends_unvisited s s' : extends s s' -> (size (unvisited s') <= size (unvisited s))%nat.
Proof.
  intros X. apply subseteq_size. intros id. rewrite !elem_of_unvisited. apply X.
Qed.

Lemma mark_unvisited s id : visit_states s !! id = Some UNVISITED ->
  (size (unvisited (mark s id)) < size (unvisited s))%nat.
Proof.
  intros Hu. apply subset_size. split.
  - intros x. rewrite !elem_of_unvisited. cbn. destruct (decide (id = x)) as [->|]; [by rewrite lookup_insert_eq|].
    by rewrite lookup_insert_ne.
  - intros Hs. apply elem_of_unvisited, Hs, elem_of_unvisited in Hu. cbn in Hu. by rewrite lookup_insert_eq in Hu.
Qed.

Lemma reference_total R p horizontal s fuel : parsed_ok p ->
  (forall n, (size (unvisited s) < fuel)%nat -> R n s <> None) -> (size (unvisited s) < fuel)%nat ->
  resolve_reference R (placement_constraint p horizontal) s <> None.
Proof.
  intros Hp HR Hf. rewrite resolve_reference_eq by done. destruct (anchor_name _) as [n|]; [|done].
  specialize (HR n Hf). destruct (R n s) as [[s1|]|]; cbn; [by destruct (output s1 !! n)|done..].
Qed.

Lemma resolve_total fuel : forall id s, resolution_inv s -> (size (unvisited s) < fuel)%nat -> resolve fuel id s <> None.
Proof.
  induction fuel as [|fuel IH]; intros id s I Hf; [lia|].
  destruct (visit_states s !! id) as [[]|] eqn:Hv; [|by cbn; rewrite Hv..].
  destruct (proj1 (ri_frames _ I id)) as [p Hp]; [by eexists|]. pose proof (Hparsed id p Hp) as Hok. cbn in Hok.
  rewrite (resolve_unvisited fuel id s p Hv Hp). pose proof (mark_unvisited s id Hv) as Hm.
  pose proof (mark_inv s id I Hv) as Im.
  destruct (extent_of p) as [e|]; cbn [run]; [|done].
  destruct (resolve_reference _ (placement_constraint p true) _) as [[[hr s2]|]|] eqn:E1; cbn [run]; [|done|].
  2:{ exfalso. eapply (reference_total (resolve fuel) p true (mark s id) fuel); [done| |lia|done]. intros n _. apply IH; [done|lia]. }
  destruct (reference_ok _ p true _ hr s2 (resolve_resolves fuel) Hok Im E1) as (I2 & X2 & _).
  pose proof (extends_unvisited _ _ X2).
  destruct (resolve_reference _ (placement_constraint p false) _) as [[[vr s3]|]|] eqn:E2; cbn [run]; [|done|].
  2:{ exfalso. eapply (reference_total (resolve fuel) p false s2 fuel); [done| |lia|done]. intros n _. apply IH; [done|lia]. }
  by destruct (place p e hr vr).
Qed.

(** ** All frames *)

Definition idle (s : Resolution) : Prop := forall v, visit_states s !! v <> Some VISITING.

Lemma resolve_each_spec fuel ids : forall s, resolution_inv s -> idle s -> (size (unvisited s) < fuel)%nat ->
  match resolve_each fuel ids s with
  | None => False
  | Some (Ok s') => resolution_inv s' /\ extends s s' /\ forall id, id ∈ ids -> visit_states s' !! id = Some RESOLVED
  | Some (Err e) => exists id, id ∈ ids /\ unsolvable id e
  end.
Proof.
  induction ids as [|id ids IH]; intros s I Hi Hf; cbn [Layout.resolve_each].
  { split; [done|]. split; [apply res_extends_refl|]. by intros id ?%elem_of_nil. }
  pose proof (resolve_total fuel id s I Hf) as Ht.
  destruct (resolve fuel id s) as [[s1|e]|] eqn:E; cbn [run]; [| |done].
  - destruct (resolve_resolves fuel id s s1 I E) as (I1 & X1 & Hv).
    assert (Hi1 : idle s1) by (intros v Hv'; by apply (ex_visiting _ _ X1), Hi in Hv').
    pose proof (extends_unvisited _ _ X1). specialize (IH s1 I1 Hi1 ltac:(lia)).
    destruct (resolve_each fuel ids s1) as [[s2|e]|]; [|destruct IH as (x & Hx & Hu); exists x; split; [by right|done]|done].
    destruct IH as (I2 & X2 & Hr). split; [done|]. split; [by eapply res_extends_trans|].
    intros x [->|Hx]%elem_of_cons; [|by apply Hr]. apply (ri_order _ I2). destruct (ex_order _ _ X2) as [l ->].
    apply elem_of_app. left. by apply (ri_order _ I1).
  - exists id. split; [by left|]. eapply resolve_fails_well; [exact I| |exact E]. intros v Hv. by destruct (Hi v).
Qed.

Variable frame_ids : list string.
Hypothesis Hframes : forall id, is_Some (parsed_layout !! id) <-> id ∈ frame_ids.
Hypothesis Hnodup : NoDup frame_ids.

Lemma new_resolution_lookup id :
  visit_states (new_resolution frame_ids) !! id = if decide (id ∈ frame_ids) then Some UNVISITED else None.
Proof.
  cbn. case_decide as Hd.
  - apply elem_of_list_to_map; [|apply list_elem_of_fmap; by exists id].
    rewrite <- list_fmap_compose. cbn. by rewrite list_fmap_id.
  - apply not_elem_of_list_to_map. rewrite <- list_fmap_compose. cbn. by rewrite list_fmap_id.
Qed.

Lemma new_resolution_inv : resolution_inv (new_resolution frame_ids).
Proof.
  split.
  - intros id. rewrite new_resolution_lookup, Hframes. case_decide; [by split; [|eexists]|].
    split; [by intros [? ?]|done].
  - intros id. rewrite new_resolution_lookup. cbn. split; [by intros ?%elem_of_nil|]. by case_decide.
  - by apply NoDup_nil_2.
  - intros id [? Ho]. cbn in Ho. by rewrite lookup_empty in Ho.
  - intros i id Hi. cbn in Hi. by rewrite lookup_nil in Hi.
Qed.

(** The resolver visits every frame of the order it is given, or names the
    reason why one cannot be solved. *)
Lemma resolve_all_spec order :
  match resolve_all precision screen_width screen_height cells parsed_layout frame_ids order with
  | None => False
  | Some (Ok s) => resolution_inv s /\ forall id, id ∈ default frame_ids order -> id ∈ resolution_order s
  | Some (Err e) => exists id, id ∈ default frame_ids order /\ unsolvable id e
  end.
Proof.
  unfold resolve_all. pose proof (resolve_each_spec (S (length frame_ids)) (default frame_ids order)
    (new_resolution frame_ids) new_resolution_inv) as Hs.
  assert (Hsize : (size (unvisited (new_resolution frame_ids)) < S (length frame_ids))%nat).
  { assert (Hsub : unvisited (new_resolution frame_ids) ⊆ list_to_set frame_ids).
    { intros id. rewrite elem_of_unvisited, new_resolution_lookup, elem_of_list_to_set. by case_decide. }
    apply subseteq_size in Hsub. rewrite size_list_to_set in Hsub by done. lia. }
  specialize (Hs ltac:(intros v; rewrite new_resolution_lookup; by case_decide) Hsize).
  destruct (Layout.resolve_each _ _ _ _ _ _ _ _) as [[s|e]|]; [|done..].
  destruct Hs as (I & _ & Hv). split; [done|]. intros id Hid. apply (ri_order _ I). by apply Hv.
Qed.

(** The depth of the specification that is enough for every frame. *)
Definition depth_bound : nat := length frame_ids.

Lemma resolution_solves s id : resolution_inv s -> id ∈ resolution_order s ->
  exists r, output s !! id = Some r /\ solve depth_bound id = Some r.
Proof.
  intros I Hid. destruct (resolved_solve s id I) as (r & Ho & Hs); [by apply (ri_order _ I)|]. exists r. split; [done|].
  eapply solve_mono; [|exact Hs]. unfold depth_bound. apply submseteq_length, NoDup_submseteq; [apply I|].
  intros x Hx%(ri_order _ I). apply Hframes, (ri_frames _ I). by eexists.
Qed.

Lemma resolution_output s id r : resolution_inv s -> output s !! id = Some r ->
  id ∈ frame_ids /\ solve depth_bound id = Some r.
Proof.
  intros I Ho. assert (Hid : id ∈ resolution_order s) by (apply (ri_order _ I), (ri_output _ I); by eexists).
  destruct (resolution_solves s id I Hid) as (r' & Ho' & Hs). simplify_eq. split; [|done].
  apply Hframes, (ri_frames _ I). exists RESOLVED. by apply (ri_order _ I).
Qed.

(** Complete: when the specification solves every frame, so does the
    resolver, in any order that has them all. *)
Lemma resolve_all_solves order : (forall id, id ∈ default frame_ids order <-> id ∈ frame_ids) ->
  match resolve_all precision screen_width screen_height cells parsed_layout frame_ids order with
  | None => False
  | Some (Ok s) =>
      (forall id, output s !! id = if decide (id ∈ frame_ids) then solve depth_bound id else None) /\
      (forall id, id ∈ frame_ids -> is_Some (solve depth_bound id)) /\
      (forall id, id ∈ resolution_order s <-> id ∈ frame_ids)
  | Some (Err e) => exists id, id ∈ frame_ids /\ unsolvable id e /\ solve depth_bound id = None
  end.
Proof.
  intros Ho. pose proof (resolve_all_spec order) as Hs.
  destruct (resolve_all _ _ _ _ _ _ _) as [[s|e]|]; [|destruct Hs as (id & Hid & Hu)|done].
  - destruct Hs as [I Hall]. split; [|split].
    + intros id. case_decide as Hd.
      * destruct (resolution_solves s id I) as (r & -> & ->); [by apply Hall, Ho|done].
      * destruct (output s !! id) as [r|] eqn:E; [|done]. by destruct (resolution_output s id r I E).
    + intros id Hd. destruct (resolution_solves s id I) as (r & _ & ->); [by apply Hall, Ho|by eexists].
    + intros id. split; [|by intros Hd; apply Hall, Ho]. intros Hin%(ri_order _ I). apply Hframes, (ri_frames _ I). by eexists.
  - exists id. split; [by apply Ho|]. split; [done|]. destruct (solve depth_bound id) eqn:E; [|done].
    exfalso. eapply (solvable_not depth_bound id); [by eexists|exact Hu].
Qed.
End Solve.
