(* ===== verification/LayoutProps.v ===== *)
(** * What the layout solver promises

    Geometry, dependencies, caches and errors of [compute_absolute_layout] on
    every description that the public operations produce. *)
From S2P Require Import Prelude.
From S2P Require Import Tui.
From S2P Require Import ZBuffer.
From S2P Require Import Canvas.
From S2P Require Import LongDouble.
From S2P Require Import Layout.
From S2P Require Import LayoutSolve.
From S2P Require Import LayoutSolve.

(** ** Parsing a description *)

Definition constraints_wf (c : gmap string (list Constraint)) : Prop := map_Forall (fun _ l => Forall constraint_wf l) c.

Lemma parse_frames_spec ids constraints : forall parsed parsed', parse_frames ids constraints parsed = Ok parsed' ->
  (forall id, is_Some (parsed' !! id) <-> is_Some (parsed !! id) \/ id ∈ ids) /\
  (constraints_wf constraints -> map_Forall (fun _ p => parsed_ok p) parsed -> map_Forall (fun _ p => parsed_ok p) parsed').
Proof.
  induction ids as [|id ids IH]; intros parsed parsed' E; cbn in E.
  { apply Ok_inj in E as <-. split; [|done]. intros id. split; [by left|]. by intros [?|?%elem_of_nil]. }
  apply bind_ok in E as (one & E1 & E2). apply IH in E2 as [H1 H2]. split.
  - intros x. rewrite H1, elem_of_cons. destruct (parsed !! id) as [p|] eqn:Hp.
    + split; [naive_solver|]. intros [?|[->|?]]; [by left|left; by eexists|by right].
    + rewrite lookup_insert_is_Some. destruct (decide (id = x)); naive_solver.
  - intros Hc Hp. apply H2; [done|]. destruct (parsed !! id); [done|]. apply map_Forall_insert_2; [|done].
    destruct (constraints !! id) as [l|] eqn:El.
    + eapply parse_constraints_ok; [exact E1|]. by apply (Hc id).
    + apply Ok_inj in E1 as <-. apply no_constraints_ok.
Qed.

Lemma parse_layout_spec ids constraints parsed : parse_layout ids constraints = Ok parsed ->
  (forall id, is_Some (parsed !! id) <-> id ∈ ids) /\
  (constraints_wf constraints -> map_Forall (fun _ p => parsed_ok p) parsed).
Proof.
  intros E. unfold parse_layout in E. apply bind_ok in E as (parsed' & E & H). destruct (bool_decide _); [|done].
  apply Ok_inj in H as <-. destruct (parse_frames_spec ids constraints ∅ parsed' E) as [H1 H2]. split.
  - intros id. rewrite H1, lookup_empty. split; [|by right]. by intros [[? ?]|].
  - intros Hc. apply H2; [done|]. apply map_Forall_empty.
Qed.

(** The parsed form of each frame. *)
Lemma parse_frames_lookup ids constraints : forall parsed parsed', parse_frames ids constraints parsed = Ok parsed' ->
  forall id p, parsed' !! id = Some p -> parsed !! id = Some p \/
    match constraints !! id with Some l => parse_constraints l = Ok p | None => p = no_constraints end.
Proof.
  induction ids as [|x ids IH]; intros parsed parsed' E id p Hp; cbn in E; [apply Ok_inj in E as <-; by left|].
  apply bind_ok in E as (one & E1 & E2). destruct (IH _ _ E2 id p Hp) as [H1|]; [|by right].
  destruct (parsed !! x); [by left|]. destruct (decide (x = id)) as [->|]; [|rewrite lookup_insert_ne in H1 by done; by left].
  rewrite lookup_insert_eq in H1. simplify_eq. right. destruct (constraints !! id); [done|]. by apply Ok_inj in E1.
Qed.

Lemma parse_layout_lookup ids constraints parsed id p : parse_layout ids constraints = Ok parsed -> parsed !! id = Some p ->
  match constraints !! id with Some l => parse_constraints l = Ok p | None => p = no_constraints end.
Proof.
  intros E Hp. unfold parse_layout in E. apply bind_ok in E as (parsed' & E & H). destruct (bool_decide _); [|done].
  apply Ok_inj in H as <-. destruct (parse_frames_lookup _ _ _ _ E id p Hp) as [H|]; [|done]. by rewrite lookup_empty in H.
Qed.

(** ** Overlaps *)

(** The cell at a column and a row lies in a rectangle. *)
Definition covers (r : Rect) (x y : Z) : Prop :=
  (rect_x r <= x < rect_x r + rect_width r)%Z /\ (rect_y r <= y < rect_y r + rect_height r)%Z.

Definition on_screen (w h : Z) (r : Rect) : Prop :=
  (0 <= rect_x r /\ 0 <= rect_y r /\ 0 <= rect_width r /\ 0 <= rect_height r)%Z /\ rect_inside w h r.

(** On a screen the comparison does not wrap and is exact. *)
Lemma rectangles_intersect_spec w h a b : is_u64 w -> is_u64 h -> on_screen w h a -> on_screen w h b ->
  rectangles_intersect a b = true <-> exists x y, covers a x y /\ covers b x y.
Proof.
  intros Hw Hh [Ha [Ha1 Ha2]] [Hb [Hb1 Hb2]]. unfold rectangles_intersect.
  rewrite !wrap_small by width_lia.
  destruct (Z.eqb_spec (rect_width a) 0); cbn [orb]; [split; [done|unfold covers; intros (x & y & ? & ?); lia]|].
  destruct (Z.eqb_spec (rect_height a) 0); cbn [orb]; [split; [done|unfold covers; intros (x & y & ? & ?); lia]|].
  destruct (Z.eqb_spec (rect_width b) 0); cbn [orb]; [split; [done|unfold covers; intros (x & y & ? & ?); lia]|].
  destruct (Z.eqb_spec (rect_height b) 0); cbn [orb]; [split; [done|unfold covers; intros (x & y & ? & ?); lia]|].
  split.
  - intros E. repeat (apply andb_true_iff in E as [E ?]).
    exists (Z.max (rect_x a) (rect_x b)), (Z.max (rect_y a) (rect_y b)). unfold covers. lia.
  - intros (x & y & [? ?] & [? ?]). repeat (apply andb_true_iff; split); lia.
Qed.

Lemma overlaps_spec layouts back back_rect ids : forall front edges,
  overlaps layouts back back_rect front ids = Ok edges ->
  forall i j, {| prerequisite := i; dependent := j |} ∈ edges <->
    i = back /\ (front <= j)%nat /\ exists id r, ids !! (j - front)%nat = Some id /\ layouts !! id = Some r /\
      rectangles_intersect back_rect r = true.
Proof.
  induction ids as [|id ids IH]; intros front edges E i j; cbn in E.
  { apply Ok_inj in E as <-. split; [by intros ?%elem_of_nil|]. by intros (_ & _ & id & r & Hid & _). }
  destruct (layouts !! id) as [r|] eqn:Hr; [|done]. apply bind_ok in E as (rest & E & H). apply Ok_inj in H as <-.
  specialize (IH (S front) rest E i j).
  assert (Hrest : {| prerequisite := i; dependent := j |} ∈ rest <->
    i = back /\ (front < j)%nat /\ exists id' r', (id :: ids) !! (j - front)%nat = Some id' /\ layouts !! id' = Some r' /\
      rectangles_intersect back_rect r' = true).
  { rewrite IH. split; intros (-> & Hj & id' & r' & Hid & Hx); (split; [done|]); (split; [lia|]); exists id', r'; (split; [|done]).
    - by replace (j - front)%nat with (S (j - S front)) by lia.
    - by replace (j - front)%nat with (S (j - S front)) in Hid by lia. }
  destruct (rectangles_intersect back_rect r) eqn:Hi.
  - rewrite elem_of_cons, Hrest. split.
    + intros [[= -> ->]|(-> & Hj & Hx)]; [|by split; [|split; [lia|]]]. split; [done|]. split; [lia|].
      exists id, r. by rewrite Nat.sub_diag.
    + intros (-> & Hj & Hx). destruct (decide (j = front)) as [->|]; [by left|right]. split; [done|]. split; [lia|done].
  - rewrite Hrest. split; [intros (-> & Hj & Hx); split; [done|]; split; [lia|done]|].
    intros (-> & Hj & id' & r' & Hid & Hr' & Hx). split; [done|]. split; [|by exists id', r'].
    destruct (decide (j = front)) as [->|]; [|lia]. rewrite Nat.sub_diag in Hid. cbn in Hid. simplify_eq. congruence.
Qed.

Lemma build_from_spec layouts ids : forall back edges, build_from layouts back ids = Ok edges ->
  forall i j, {| prerequisite := i; dependent := j |} ∈ edges <->
    (back <= i < j)%nat /\ exists a b ra rb, ids !! (i - back)%nat = Some a /\ ids !! (j - back)%nat = Some b /\
      layouts !! a = Some ra /\ layouts !! b = Some rb /\ rectangles_intersect ra rb = true.
Proof.
  induction ids as [|id ids IH]; intros back edges E i j; cbn in E.
  { apply Ok_inj in E as <-. split; [by intros ?%elem_of_nil|]. by intros (_ & a & b & ra & rb & Ha & _). }
  destruct (layouts !! id) as [r|] eqn:Hr; [|done]. apply bind_ok in E as (l1 & E1 & E). apply bind_ok in E as (l2 & E2 & H).
  apply Ok_inj in H as <-. rewrite elem_of_app, (overlaps_spec _ _ _ _ _ _ E1), (IH _ _ E2). split.
  - intros [(-> & Hj & b & rb & Hb & Hrb & Hx)|(Hij & a & b & ra & rb & Ha & Hb & Hx)].
    + split; [lia|]. exists id, b, r, rb. rewrite Nat.sub_diag. replace (j - back)%nat with (S (j - S back)) by lia. done.
    + split; [lia|]. exists a, b, ra, rb. replace (i - back)%nat with (S (i - S back)) by lia.
      replace (j - back)%nat with (S (j - S back)) by lia. done.
  - intros (Hij & a & b & ra & rb & Ha & Hb & Hra & Hrb & Hx).
    replace (j - back)%nat with (S (j - S back)) in Hb by lia. cbn in Hb. destruct (decide (i = back)) as [->|].
    + left. rewrite Nat.sub_diag in Ha. cbn in Ha. simplify_eq. split; [done|]. split; [lia|]. by exists b, rb.
    + right. split; [lia|]. replace (i - back)%nat with (S (i - S back)) in Ha by lia. by exists a, b, ra, rb.
Qed.

Lemma overlaps_nodup layouts back back_rect ids : forall front edges,
  overlaps layouts back back_rect front ids = Ok edges -> NoDup edges.
Proof.
  induction ids as [|id ids IH]; intros front edges E; cbn in E; [apply Ok_inj in E as <-; by apply NoDup_nil_2|].
  destruct (layouts !! id) as [r|]; [|done]. apply bind_ok in E as (rest & E & H). apply Ok_inj in H as <-.
  pose proof (IH _ _ E) as Hn. destruct (rectangles_intersect back_rect r); [|done]. constructor; [|done].
  intros Hin. apply (overlaps_spec _ _ _ _ _ _ E) in Hin as (_ & Hlt & _). lia.
Qed.

Lemma build_from_nodup layouts ids : forall back edges, build_from layouts back ids = Ok edges -> NoDup edges.
Proof.
  induction ids as [|id ids IH]; intros back edges E; cbn in E; [apply Ok_inj in E as <-; by apply NoDup_nil_2|].
  destruct (layouts !! id) as [r|]; [|done]. apply bind_ok in E as (l1 & E1 & E). apply bind_ok in E as (l2 & E2 & H).
  apply Ok_inj in H as <-. apply NoDup_app. split; [by eapply overlaps_nodup|]. split; [|by eapply IH].
  intros [i j] H1 H2. apply (overlaps_spec _ _ _ _ _ _ E1) in H1 as (-> & _). apply (build_from_spec _ _ _ _ E2) in H2 as [? _]. lia.
Qed.

Lemma overlaps_total layouts back back_rect ids : (forall id, id ∈ ids -> is_Some (layouts !! id)) ->
  forall front, exists edges, overlaps layouts back back_rect front ids = Ok edges.
Proof.
  intros Hl. induction ids as [|id ids IH]; intros front; cbn; [by eexists|].
  destruct (Hl id) as [r ->]; [by left|]. destruct IH with (S front) as [l ->]; [|by eexists].
  intros x Hx. apply Hl. by right.
Qed.

Lemma build_total layouts ids : (forall id, id ∈ ids -> is_Some (layouts !! id)) ->
  forall back, exists edges, build_from layouts back ids = Ok edges.
Proof.
  intros Hl. induction ids as [|id ids IH]; intros back; cbn; [by eexists|].
  destruct (Hl id) as [r ->]; [by left|]. destruct (overlaps_total layouts back r ids) with (S back) as [l ->].
  { intros x Hx. apply Hl. by right. }
  destruct IH with (S back) as [k ->]; [|by eexists]. intros x Hx. apply Hl. by right.
Qed.

(** ** One computation *)

Section Computations.
Context {Frame : Type}.
Variable precision : Z.
Hypothesis Hprecision : (64 <= precision)%Z.

Abbreviation Description := (LayoutDescription Frame).
Implicit Types d : LayoutDescription Frame.

(** The answer that the specification gives. *)
Definition solved_as (ids : list string) (parsed : ParsedLayout) (w h : Z) (cells : CellDimensions)
    (r : result Status AbsoluteLayout) : Prop :=
  match r with
  | Ok layout =>
      (forall id, frame_layouts layout !! id =
         if decide (id ∈ ids) then solve precision w h cells parsed (length ids) id else None) /\
      (forall id, id ∈ ids -> is_Some (solve precision w h cells parsed (length ids) id)) /\
      build_frame_dependencies (frame_layouts layout) ids = Ok (frame_dependencies layout)
  | Err e => exists id, id ∈ ids /\ unsolvable precision w h cells parsed id e /\
      solve precision w h cells parsed (length ids) id = None
  end.

Lemma solved_as_ok ids parsed w h cells layout r :
  solved_as ids parsed w h cells (Ok layout) -> solved_as ids parsed w h cells r -> r = Ok layout.
Proof.
  intros (H1 & H2 & H3). destruct r as [layout'|e].
  - intros (H4 & _ & H5). assert (E : frame_layouts layout' = frame_layouts layout)
      by (apply map_eq; intros id; by rewrite H1, H4). rewrite E in H5. rewrite H3 in H5. apply Ok_inj in H5.
    destruct layout, layout'. cbn in *. by subst.
  - intros (id & Hid & _ & Hn). destruct (H2 id Hid) as [r Hr]. congruence.
Qed.

(** No frame depends on a cycle of anchors or on a frame that is not there. *)
Definition grounded (ids : list string) (parsed : ParsedLayout) : Prop :=
  forall id x, id ∈ ids -> rtc (refers parsed) id x -> is_Some (parsed !! x) /\ ~ tc (refers parsed) x x.

Lemma solved_as_err ids parsed w h cells e e' : grounded ids parsed ->
  solved_as ids parsed w h cells (Err e) -> solved_as ids parsed w h cells (Err e') -> e = e'.
Proof.
  intros Hg. assert (Ho : forall e, solved_as ids parsed w h cells (Err e) -> e = DIMENSION_OVERFLOW).
  { intros e0 (id & Hid & (x & Hx & Hc) & _). destruct (Hg id x Hid Hx) as [[p Hp] Hn].
    destruct Hc as [[_ ?]|[[_ Hnone]|[? _]]]; [by destruct Hn|congruence|done]. }
  intros ->%Ho ->%Ho. done.
Qed.

Lemma solves_grounded ids parsed w h cells :
  (forall id, id ∈ ids -> is_Some (solve precision w h cells parsed (length ids) id)) -> grounded ids parsed.
Proof.
  intros Hs id x Hid Hx. pose proof (solve_reaches _ _ _ _ _ _ _ _ (Hs id Hid) Hx) as Hsx. split.
  - destruct Hsx as [r Hr]. destruct (length ids); [done|]. cbn in Hr. destruct (parsed !! x); [by eexists|done].
  - by eapply solve_acyclic.
Qed.

(** What the resolver and the dependencies give, with or without an order. *)
Lemma solved_layout ids (c : gmap string (list Constraint)) parsed w h cells order :
  NoDup ids -> constraints_wf c -> parse_layout ids c = Ok parsed -> is_u64 w -> is_u64 h ->
  (0 < cell_width cells)%Z /\ (0 < cell_height cells)%Z -> (forall id, id ∈ default ids order <-> id ∈ ids) ->
  match resolve_all precision w h cells parsed ids order with
  | None => False
  | Some (Err e) => solved_as ids parsed w h cells (Err e)
  | Some (Ok s) => exists edges, build_frame_dependencies (output s) ids = Ok edges /\
      solved_as ids parsed w h cells (Ok {| frame_layouts := output s; frame_dependencies := edges |}) /\
      (forall id, id ∈ resolution_order s <-> id ∈ ids)
  end.
Proof.
  intros Hn Hc Hp Hw Hh Hcells Ho. destruct (parse_layout_spec ids c parsed Hp) as [Hdom Hok]. specialize (Hok Hc).
  pose proof (resolve_all_solves precision Hprecision w h (conj Hw Hh) cells Hcells parsed Hok ids Hdom Hn order Ho) as Hs.
  destruct (resolve_all _ _ _ _ _ _ _) as [[s|e]|]; [|done..]. destruct Hs as (H1 & H2 & H3). unfold depth_bound in *.
  destruct (build_total (output s) ids) with 0%nat as [edges He].
  { intros id Hid. rewrite H1, decide_True by done. by apply H2. }
  exists edges. split; [done|]. split; [|done]. by split; [|split].
Qed.

(** ** Descriptions *)

(** The same description with empty caches. *)
Definition forget (d : Description) : Description :=
  {| z_buffer := z_buffer d; constraints := constraints d; constraint_revision := constraint_revision d;
     cached_resolution_order := []; cached_order_z_buffer_revision := 0; cached_order_constraint_revision := 0;
     cached_resolution_order_valid := false; cached_absolute_layout := None |}.

Definition z_step (z z' : ZBuffer Frame) : Prop :=
  exists id (f : option Frame), z' = snd (zbuffer_add id f z) \/ z' = snd (zbuffer_remove id z) \/ z' = snd (bring_to_front id z).

(** The descriptions that public operations produce, with the number of
    operations that went to the Z-buffer directly. *)
Inductive history : Z -> Description -> Prop :=
| history_new : history 0 make_layout_description
| history_add_frame k d id f l : Forall constraint_wf l -> history k d -> history k (snd (add_frame id f l d))
| history_add_unconstrained k d id f : history k d -> history k (snd (add_frame_to_layout_description id f d))
| history_constrain k d id c : constraint_wf c -> history k d -> history k (snd (add_constraint_to_frame id c d))
| history_z_buffer k d z : history k d -> z_step (z_buffer d) z -> history (k + 1) (with_z_buffer d z)
| history_compute k d w h cells r d' : is_u64 w -> is_u64 h -> is_u64 (cell_width cells) -> is_u64 (cell_height cells) ->
    history k d -> compute_absolute_layout precision d w h cells = Some (r, d') -> history k d'.

(** The Z-buffer has moved on by [age] revisions since one was recorded. *)
Definition aged (k : Z) (z : ZBuffer Frame) (recorded : Z) (fresh : Prop) : Prop :=
  exists age, (0 <= age <= k)%Z /\ is_u64 recorded /\ revision z = wrap 64 (recorded + age) /\ (age = 0%Z -> fresh).

Definition geometry_fresh (d : Description) (c : CachedAbsoluteLayout) : Prop :=
  (0 < cell_width (cached_cell_dimensions c))%Z /\ (0 < cell_height (cached_cell_dimensions c))%Z /\
  exists parsed, parse_layout (ids (z_buffer d)) (constraints d) = Ok parsed /\
    solved_as (ids (z_buffer d)) parsed (cached_screen_width c) (cached_screen_height c) (cached_cell_dimensions c)
      (Ok (cached_layout c)).

Definition order_fresh (d : Description) : Prop :=
  (forall id, id ∈ cached_resolution_order d <-> id ∈ ids (z_buffer d)) /\
  exists parsed, parse_layout (ids (z_buffer d)) (constraints d) = Ok parsed /\ grounded (ids (z_buffer d)) parsed.

Record description_inv (k : Z) (d : Description) : Prop := {
  di_z : zbuffer_reachable (z_buffer d);
  di_revision : is_u64 (revision (z_buffer d));
  di_wf : constraints_wf (constraints d);
  di_geometry : forall c, cached_absolute_layout d = Some c ->
    aged k (z_buffer d) (cached_z_buffer_revision c) (geometry_fresh d c);
  di_order : cached_resolution_order_valid d = true ->
    aged k (z_buffer d) (cached_order_z_buffer_revision d) (order_fresh d);
}.

Lemma aged_hit k z recorded fresh : (k < 2 ^ 64)%Z -> recorded = revision z -> aged k z recorded fresh -> fresh.
Proof.
  intros Hk Er (age & Ha & Hr & E & Hf). apply Hf. rewrite <- Er in E. unfold wrap in E.
  apply (f_equal (fun x => x mod 2 ^ 64)%Z) in E. rewrite Zmod_mod in E. unfold in_width in Hr.
  pose proof (Z.div_mod (recorded + age) (2 ^ 64) ltac:(lia)). pose proof (Z.div_mod recorded (2 ^ 64) ltac:(lia)).
  pose proof (Z.mod_pos_bound (recorded + age) (2 ^ 64) ltac:(lia)). nia.
Qed.

Lemma aged_now k z fresh : (0 <= k)%Z -> is_u64 (revision z) -> fresh -> aged k z (revision z) fresh.
Proof. intros Hk Hr Hf. exists 0%Z. rewrite Z.add_0_r, wrap_small by done. by split; [|split; [|split]]. Qed.

(** Without caches. *)
Lemma changed_inv k d z c : zbuffer_reachable z -> is_u64 (revision z) -> constraints_wf c -> description_inv k (changed d z c).
Proof. intros Hz Hr Hc. by split. Qed.

(** ** Operations on the description *)

Lemma z_op_revision z z' : z_step z z' -> is_u64 (revision z) ->
  (z' = z \/ revision z' = wrap 64 (revision z + 1)) /\ is_u64 (revision z') /\ (zbuffer_reachable z -> zbuffer_reachable z').
Proof.
  intros (id & f & Hz) Hr. assert (Hb : is_u64 (wrap 64 (revision z + 1))) by (apply wrap_in_width; lia).
  assert (Hop : z' = z \/ revision z' = wrap 64 (revision z + 1)).
  { destruct Hz as [-> |[-> | ->]].
    - unfold zbuffer_add. destruct f; [|by left]. destruct (String.eqb _ _); [by left|].
      destruct (find_entry_by_id _ _); [by left|by right].
    - unfold zbuffer_remove. destruct (find_entry_by_id _ _) as [[[? ?] ?]|]; [by right|by left].
    - unfold bring_to_front. destruct (find_entry_by_id _ _) as [[[? ?] l]|]; [|by left]. destruct l; [by left|by right]. }
  split; [done|]. split; [by destruct Hop as [-> | ->]|]. intros Hz'. destruct Hz as [-> |[-> | ->]]; by constructor.
Qed.

Lemma add_unconstrained_inv k d id f : description_inv k d -> description_inv k (snd (add_frame_to_layout_description id f d)).
Proof.
  intros I. unfold add_frame_to_layout_description.
  destruct (z_op_revision (z_buffer d) (snd (zbuffer_add id f (z_buffer d)))) as (_ & Hr & Hz);
    [exists id, f; by left|apply I|]. destruct (zbuffer_add id f (z_buffer d)) as [st z]. cbn [snd] in *.
  destruct (is_ok st); [|done]. cbn. apply changed_inv; [apply Hz, I|done|].
  destruct (constraints d !! id); [apply I|]. apply map_Forall_insert_2; [by constructor|apply I].
Qed.

Lemma add_constraint_inv k d id c : constraint_wf c -> description_inv k d -> description_inv k (snd (add_constraint_to_frame id c d)).
Proof.
  intros Hc I. unfold add_constraint_to_frame. destruct (String.eqb id ""); [done|]. destruct (negb _); [done|].
  destruct (negb _); [done|]. destruct (existsb _ _); [done|]. cbn. apply changed_inv; [apply I..|].
  apply map_Forall_insert_2; [|apply I]. apply Forall_app. split; [|by constructor].
  destruct (constraints d !! id) as [l|] eqn:E; [|by constructor]. by apply (di_wf _ _ I id).
Qed.

Lemma add_constraints_inv k id l : forall d, Forall constraint_wf l -> description_inv k d ->
  description_inv k (snd (add_constraints id l d)).
Proof.
  induction l as [|c l IH]; intros d Hf I; [done|]. apply Forall_cons in Hf as [Hc Hf]. cbn [add_constraints].
  pose proof (add_constraint_inv k d id c Hc I) as I'. destruct (add_constraint_to_frame id c d) as [st d']. cbn in I'.
  destruct (is_ok st); [by apply IH|done].
Qed.

Lemma add_frame_inv k d id f l : Forall constraint_wf l -> description_inv k d -> description_inv k (snd (add_frame id f l d)).
Proof.
  intros Hf I. unfold add_frame. destruct (_ || _); [done|]. destruct (negb _); [done|].
  pose proof (add_unconstrained_inv k d id f I) as I'. destruct (add_frame_to_layout_description id f d) as [st d']. cbn in I'.
  destruct (is_ok st); [by apply add_constraints_inv|done].
Qed.

Lemma aged_step k z z' recorded fresh fresh' : (z' = z -> fresh -> fresh') -> (0 <= k)%Z ->
  (z' = z \/ revision z' = wrap 64 (revision z + 1)) -> aged k z recorded fresh -> aged (k + 1) z' recorded fresh'.
Proof.
  intros Hf Hk [->|Hz] (age & Ha & Hr & E & Hfr).
  - exists age. split; [lia|]. split; [done|]. split; [done|]. auto.
  - exists (age + 1)%Z. split; [lia|]. split; [done|]. split; [|lia]. rewrite Hz, E. unfold wrap.
    rewrite Zplus_mod_idemp_l. f_equal. lia.
Qed.

Lemma z_buffer_inv k d z : (0 <= k)%Z -> z_step (z_buffer d) z -> description_inv k d -> description_inv (k + 1) (with_z_buffer d z).
Proof.
  intros Hk Hs [I1 I2 I3 I4 I5]. destruct (z_op_revision _ _ Hs I2) as (Hop & Hr & Hz). split; cbn; auto.
  - intros c Hc. eapply aged_step; [|done|done|by apply I4]. intros ->. done.
  - intros Hv. eapply aged_step; [|done|done|by apply I5]. intros ->. done.
Qed.

(** ** Computing a layout *)

Lemma cache_hit_some d w h cells layout : cache_hit d w h cells = Some layout ->
  exists c, cached_absolute_layout d = Some c /\ cached_layout c = layout /\ cached_screen_width c = w /\
    cached_screen_height c = h /\ cached_cell_dimensions c = cells /\ cached_z_buffer_revision c = revision (z_buffer d).
Proof.
  unfold cache_hit. destruct (cached_absolute_layout d) as [c|]; [|done]. destruct (_ && _) eqn:E; [|done].
  intros [= <-]. exists c. apply andb_true_iff in E as [E H5]. apply andb_true_iff in E as [E H4].
  apply andb_true_iff in E as [E H3]. apply andb_true_iff in E as [H1 H2]. apply bool_decide_eq_true in H3.
  apply Z.eqb_eq in H1, H2, H4. done.
Qed.

Definition usable_cells (cells : CellDimensions) : bool := negb ((cell_width cells =? 0)%Z || (cell_height cells =? 0)%Z).

Lemma usable_positive cells : is_u64 (cell_width cells) -> is_u64 (cell_height cells) -> usable_cells cells = true ->
  (0 < cell_width cells)%Z /\ (0 < cell_height cells)%Z.
Proof.
  unfold usable_cells. intros H1 H2. destruct (Z.eqb_spec (cell_width cells) 0), (Z.eqb_spec (cell_height cells) 0); try done.
  width_lia.
Qed.

(** The whole outcome of a computation. *)
Definition computed_as (d : Description) (w h : Z) (cells : CellDimensions) (r : result Status AbsoluteLayout) : Prop :=
  if usable_cells cells then
    match parse_layout (ids (z_buffer d)) (constraints d) with
    | Err e => r = Err e
    | Ok parsed => solved_as (ids (z_buffer d)) parsed w h cells r
    end
  else r = Err INVALID_DIMENSIONS.

Lemma compute_spec k d w h cells : (0 <= k < 2 ^ 64)%Z -> description_inv k d -> is_u64 w -> is_u64 h ->
  is_u64 (cell_width cells) -> is_u64 (cell_height cells) ->
  match compute_absolute_layout precision d w h cells with
  | None => False
  | Some (r, d') =>
      computed_as d w h cells r /\ description_inv k d' /\
      (usable_cells cells = true -> cached_order_valid d = true ->
        exists parsed, parse_layout (ids (z_buffer d)) (constraints d) = Ok parsed /\ grounded (ids (z_buffer d)) parsed)
  end.
Proof.
  intros Hk I Hw Hh Hcw Hch. unfold compute_absolute_layout, computed_as. pose proof (usable_positive cells Hcw Hch) as Hpos.
  unfold usable_cells in *. destruct (_ || _); cbn [negb] in *; [done|]. specialize (Hpos eq_refl).
  assert (Hground : cached_order_valid d = true -> order_fresh d).
  { unfold cached_order_valid. intros Hv. apply andb_true_iff in Hv as [Hv _]. apply andb_true_iff in Hv as [Hv Hz].
    apply (aged_hit k (z_buffer d) (cached_order_z_buffer_revision d)); [lia|lia|]. by apply (di_order _ _ I). }
  destruct (cache_hit d w h cells) as [layout|] eqn:Hhit.
  - apply cache_hit_some in Hhit as (c & Hc & <- & <- & <- & <- & Hz).
    destruct (aged_hit k _ _ _ ltac:(lia) Hz (di_geometry _ _ I c Hc)) as (_ & _ & parsed & Hpp & Hs).
    split; [by rewrite Hpp|]. split; [done|]. intros _ Hv. destruct (Hground Hv) as (_ & parsed' & Hp & Hg). by exists parsed'.
  - destruct (parse_layout (ids (z_buffer d)) (constraints d)) as [parsed|e] eqn:Hp.
    2:{ split; [done|]. split; [done|]. intros _ Hv. destruct (Hground Hv) as (_ & parsed & Hp' & _). congruence. }
    assert (Horder : forall id, id ∈ default (ids (z_buffer d)) (if cached_order_valid d then Some (cached_resolution_order d) else None)
      <-> id ∈ ids (z_buffer d)).
    { intros id. destruct (cached_order_valid d) eqn:Hv; [|done]. by apply (Hground eq_refl). }
    pose proof (solved_layout (ids (z_buffer d)) (constraints d) parsed w h cells _ (zbuffer_ids_nodup _ (di_z _ _ I))
      (di_wf _ _ I) Hp Hw Hh Hpos Horder) as Hs.
    assert (Hg : cached_order_valid d = true -> exists parsed0, @Ok Status _ parsed = Ok parsed0 /\ grounded (ids (z_buffer d)) parsed0).
    { intros Hv. destruct (Hground Hv) as (_ & parsed' & Hp' & Hg). exists parsed'. split; [congruence|done]. }
    destruct (resolve_all _ _ _ _ _ _ _) as [[s|e]|]; [|done..]. destruct Hs as (edges & -> & Hs & Ho).
    split; [done|]. split; [|done]. assert (Hgr : grounded (ids (z_buffer d)) parsed)
      by (destruct Hs as (_ & Hs & _); by eapply solves_grounded).
    destruct I as [I1 I2 I3 I4 I5]. split; cbn; try done.
    + intros c [= <-]. apply aged_now; [lia|done|]. split; [apply Hpos|]. split; [apply Hpos|]. by exists parsed.
    + destruct (cached_order_valid d) eqn:Hv; cbn.
      * intros Hv'. destruct (I5 Hv') as (age & Ha & Hr & E & Hf). exists age. split; [done|]. split; [done|]. split; [done|].
        intros Hz. destruct (Hf Hz) as [Hm Hpg]. split; [|done]. cbn. by rewrite Hv.
      * intros _. apply aged_now; [lia|done|]. split; [cbn; by rewrite Hv|]. by exists parsed.
Qed.

Lemma history_nonneg k d : history k d -> (0 <= k)%Z.
Proof. induction 1; lia. Qed.

Lemma history_inv k d : history k d -> (k < 2 ^ 64)%Z -> description_inv k d.
Proof.
  induction 1 as [|k d id f l Hf _ IH|k d id f _ IH|k d id c Hc _ IH|k d z Hd IH Hz|k d w h cells r d' Hw Hh Hcw Hch Hd IH E]; intros Hk.
  - split; try done. constructor.
  - by apply add_frame_inv, IH.
  - by apply add_unconstrained_inv, IH.
  - by apply add_constraint_inv, IH.
  - apply history_nonneg in Hd as Hk0. apply z_buffer_inv; [done|done|]. apply IH. lia.
  - apply history_nonneg in Hd as Hk0. pose proof (compute_spec k d w h cells ltac:(lia) (IH Hk) Hw Hh Hcw Hch) as Hc.
    rewrite E in Hc. apply Hc.
Qed.

Lemma forget_inv k d : description_inv k d -> description_inv k (forget d).
Proof. intros []. by split. Qed.

(** The answer does not depend on the caches. *)
Lemma compute_forget k d w h cells : (0 <= k < 2 ^ 64)%Z -> description_inv k d -> is_u64 w -> is_u64 h ->
  is_u64 (cell_width cells) -> is_u64 (cell_height cells) ->
  exists r d1 d2, compute_absolute_layout precision d w h cells = Some (r, d1) /\
    compute_absolute_layout precision (forget d) w h cells = Some (r, d2).
Proof.
  intros Hk I Hw Hh Hcw Hch. pose proof (compute_spec k d w h cells Hk I Hw Hh Hcw Hch) as H1.
  pose proof (compute_spec k (forget d) w h cells Hk (forget_inv k d I) Hw Hh Hcw Hch) as H2.
  destruct (compute_absolute_layout precision d w h cells) as [[r1 d1]|] eqn:E1; [|done].
  destruct (compute_absolute_layout precision (forget d) w h cells) as [[r2 d2]|] eqn:E2; [|done].
  destruct H1 as (C1 & _ & G1), H2 as (C2 & _ & _). assert (r1 = r2); [|subst r2; by exists r1, d1, d2].
  unfold computed_as in *. cbn [forget z_buffer constraints] in C2. destruct (usable_cells cells) eqn:Hu; [|congruence].
  destruct (parse_layout _ _) as [parsed|e] eqn:Hp; [|congruence].
  destruct r1 as [l1|e1]; [symmetry; by eapply solved_as_ok|]. destruct r2 as [l2|e2]; [by eapply solved_as_ok|].
  f_equal. destruct (cached_order_valid d) eqn:Hv.
  - destruct (G1 eq_refl eq_refl) as (parsed' & Hp' & Hg). assert (parsed' = parsed) as -> by congruence. by eapply solved_as_err.
  - unfold compute_absolute_layout in E1, E2. unfold usable_cells in Hu. destruct (_ || _); [done|].
    cbn [forget z_buffer constraints cache_hit cached_absolute_layout] in E2.
    destruct (cache_hit d w h cells) eqn:Hhit; [done|]. rewrite Hp in E1, E2. rewrite Hv in E1.
    change (cached_order_valid (forget d)) with false in E2.
    destruct (resolve_all _ _ _ _ _ _ _) as [[s|e]|]; [|congruence|done].
    destruct (build_frame_dependencies _ _); congruence.
Qed.
End Computations.

(** A solved rectangle and the constraints that made it. *)
Lemma solve_bounds precision w h cells parsed depth id r : (64 <= precision)%Z -> is_u64 w -> is_u64 h ->
  (0 < cell_width cells)%Z /\ (0 < cell_height cells)%Z -> map_Forall (fun _ p => parsed_ok p) parsed ->
  solve precision w h cells parsed depth id = Some r ->
  exists p e, parsed !! id = Some p /\ resolve_extent precision w h cells p = Ok e /\ extent_ok precision w h p e /\
    (left_ e <= rect_x r /\ rect_x r + rect_width r <= right_ e)%Z /\
    (top_ e <= rect_y r /\ rect_y r + rect_height r <= bottom_ e)%Z /\
    rect_width r = frame_width e /\ rect_height r = frame_height e.
Proof.
  intros Hprec Hw Hh Hc Hp E. destruct depth as [|depth]; [done|]. cbn [solve] in E.
  destruct (parsed !! id) as [p|] eqn:Hpid; [|done]. cbn [mbind option_bind] in E. pose proof (Hp id p Hpid) as Hok. cbn in Hok.
  pose proof (resolve_extent_ok precision Hprec cells Hc w h (conj Hw Hh) p Hok) as Hext.
  destruct (resolve_extent precision w h cells p) as [e|] eqn:He; [|done].
  destruct (referenced _ (anchor_name (placement_constraint p true))) as [hr|] eqn:H1; [|done].
  destruct (referenced _ (anchor_name (placement_constraint p false))) as [vr|] eqn:H2; [|done]. cbn in E.
  destruct (place_frame_ok precision Hprec w h (conj Hw Hh) p e hr vr Hok Hext) as (r' & Hr & Hb).
  - intros [n Hn]. rewrite Hn in H1. cbn in H1. destruct (solve _ _ _ _ _ depth n); simplify_eq/=. by eexists.
  - intros [n Hn]. rewrite Hn in H2. cbn in H2. destruct (solve _ _ _ _ _ depth n); simplify_eq/=. by eexists.
  - rewrite Hr in E. injection E as <-. by exists p, e.
Qed.

(** A successful computation, opened. *)
Lemma computed_ok {Frame : Type} precision k (d : LayoutDescription Frame) w h cells layout d' : (64 <= precision)%Z ->
  history precision k d -> (k < 2 ^ 64)%Z -> is_u64 w -> is_u64 h -> is_u64 (cell_width cells) -> is_u64 (cell_height cells) ->
  compute_absolute_layout precision d w h cells = Some (Ok layout, d') ->
  exists parsed, parse_layout (ids (z_buffer d)) (constraints d) = Ok parsed /\
    map_Forall (fun _ p => parsed_ok p) parsed /\ ((0 < cell_width cells)%Z /\ (0 < cell_height cells)%Z) /\
    solved_as precision (ids (z_buffer d)) parsed w h cells (Ok layout).
Proof.
  intros Hp Hd Hk Hw Hh Hcw Hch E. pose proof (history_inv precision Hp k d Hd Hk) as I.
  pose proof (compute_spec precision Hp k d w h cells (conj (history_nonneg _ _ _ Hd) Hk) I Hw Hh Hcw Hch) as Hc.
  rewrite E in Hc. destruct Hc as (Hc & _ & _). unfold computed_as in Hc.
  pose proof (usable_positive cells Hcw Hch) as Hpos. destruct (usable_cells cells); [|done].
  destruct (parse_layout _ _) as [parsed|] eqn:Hparse; [|done]. exists parsed. split; [done|].
  split; [by apply (parse_layout_spec _ _ _ Hparse), I|]. split; [by apply Hpos|done].
Qed.

(** ** Properties *)

(** The dependencies of a computed layout, and where its rectangles are. *)
Lemma computed_dependencies {Frame : Type} precision k (d : LayoutDescription Frame) w h cells layout d' :
  (64 <= precision)%Z -> history precision k d -> (k < 2 ^ 64)%Z ->
  is_u64 w -> is_u64 h -> is_u64 (cell_width cells) -> is_u64 (cell_height cells) ->
  compute_absolute_layout precision d w h cells = Some (Ok layout, d') ->
  (forall id r, frame_layouts layout !! id = Some r -> on_screen w h r) /\ NoDup (frame_dependencies layout) /\
  forall i j, {| prerequisite := i; dependent := j |} ∈ frame_dependencies layout <->
   (i < j)%nat /\ exists a b ra rb, ids (z_buffer d) !! i = Some a /\ ids (z_buffer d) !! j = Some b /\
     frame_layouts layout !! a = Some ra /\ frame_layouts layout !! b = Some rb /\
     exists x y, covers ra x y /\ covers rb x y.
Proof.
  intros Hp Hd Hk Hw Hh Hcw Hch E.
  destruct (computed_ok precision k d w h cells layout d' Hp Hd Hk Hw Hh Hcw Hch E) as (parsed & Hparse & Hok & Hpos & H1 & H2 & H3).
  assert (Hon : forall id r, frame_layouts layout !! id = Some r -> on_screen w h r).
  { intros id r Hr. rewrite H1 in Hr. case_decide as Hid; [|done].
    destruct (solve_bounds precision w h cells parsed _ id r Hp Hw Hh Hpos Hok Hr) as (p & e & _ & _ & [] & Hx & Hy & Ew & Eh).
    split; [lia|]. unfold rect_inside. lia. }
  unfold build_frame_dependencies in H3. split; [done|]. split; [by eapply build_from_nodup|]. intros i j.
  rewrite (build_from_spec _ _ _ _ H3).
  split.
  - intros (Hij & a & b & ra & rb & Ha & Hb & Hra & Hrb & Hx). rewrite Nat.sub_0_r in Ha, Hb. split; [lia|].
    exists a, b, ra, rb. do 4 (split; [done|]). by apply (rectangles_intersect_spec w h); eauto.
  - intros (Hij & a & b & ra & rb & Ha & Hb & Hra & Hrb & Hx). split; [lia|]. rewrite !Nat.sub_0_r.
    exists a, b, ra, rb. do 4 (split; [done|]). by apply (rectangles_intersect_spec w h); eauto.
Qed.

(** C7. A computed layout has a rectangle for exactly the frames of the Z-buffer,
    and every rectangle lies between its frame's margins, hence on the
    screen, and is no larger than the frame's maximums, whatever the
    constraints, the terminal size and the rounding of percentages. *)
Theorem layout_inside_margins {Frame : Type} precision k (d : LayoutDescription Frame) w h cells layout d' :
  (64 <= precision)%Z -> history precision k d -> (k < 2 ^ 64)%Z ->
  is_u64 w -> is_u64 h -> is_u64 (cell_width cells) -> is_u64 (cell_height cells) ->
  compute_absolute_layout precision d w h cells = Some (Ok layout, d') ->
  (forall id, is_Some (frame_layouts layout !! id) <-> id ∈ ids (z_buffer d)) /\
  (forall id r, frame_layouts layout !! id = Some r -> on_screen w h r /\
     exists p left_ right_ top_ bottom_, 
       match constraints d !! id with Some l => parse_constraints l = Ok p | None => p = no_constraints end /\
       resolve_axis_bounds precision p true w = Ok (left_, right_) /\
       resolve_axis_bounds precision p false h = Ok (top_, bottom_) /\
       (left_ <= rect_x r /\ rect_x r + rect_width r <= right_)%Z /\
       (top_ <= rect_y r /\ rect_y r + rect_height r <= bottom_)%Z /\
       (forall m, resolve_measure precision (get p MAX_WIDTH) w (right_ - left_)%Z = Ok m -> (rect_width r <= m)%Z) /\
       (forall m, resolve_measure precision (get p MAX_HEIGHT) h (bottom_ - top_)%Z = Ok m -> (rect_height r <= m)%Z)).
Proof.
  intros Hp Hd Hk Hw Hh Hcw Hch E.
  destruct (computed_ok precision k d w h cells layout d' Hp Hd Hk Hw Hh Hcw Hch E) as (parsed & Hparse & Hok & Hpos & H1 & H2 & _).
  split.
  - intros id. rewrite H1. case_decide as Hid; [by split; [|intros; apply H2]|]. by split; [intros [? ?]|].
  - intros id r Hr. rewrite H1 in Hr. case_decide as Hid; [|done].
    destruct (solve_bounds precision w h cells parsed _ id r Hp Hw Hh Hpos Hok Hr) as (p & e & Hpid & _ & Hext & Hx & Hy & Ew & Eh).
    split.
    + destruct Hext. split; [lia|]. unfold rect_inside. lia.
    + exists p, (left_ e), (right_ e), (top_ e), (bottom_ e). destruct Hext.
      split; [by eapply parse_layout_lookup|]. rewrite Ew, Eh in *. done.
Qed.

(** C6. The depth-first resolver always returns. It succeeds exactly when every
    frame's rectangle is defined by its own constraints and the rectangles of
    the frames it is aligned with, and then returns those rectangles, in
    whatever order it visited the frames; otherwise it reports a zero cell
    dimension, an invalid constraint, or a frame that depends on a cycle of
    anchors, on a missing frame or on an aspect ratio that overflows. *)
Theorem layout_refines_solve {Frame : Type} precision k (d : LayoutDescription Frame) w h cells :
  (64 <= precision)%Z -> history precision k d -> (k < 2 ^ 64)%Z ->
  is_u64 w -> is_u64 h -> is_u64 (cell_width cells) -> is_u64 (cell_height cells) ->
  match compute_absolute_layout precision d w h cells with
  | None => False
  | Some (Ok layout, _) =>
      (0 < cell_width cells)%Z /\ (0 < cell_height cells)%Z /\
      exists parsed, parse_layout (ids (z_buffer d)) (constraints d) = Ok parsed /\
        forall id, id ∈ ids (z_buffer d) ->
          is_Some (frame_layouts layout !! id) /\
          frame_layouts layout !! id = solve precision w h cells parsed (length (ids (z_buffer d))) id
  | Some (Err e, _) =>
      (e = INVALID_DIMENSIONS /\ (cell_width cells = 0 \/ cell_height cells = 0)%Z) \/
      parse_layout (ids (z_buffer d)) (constraints d) = Err e \/
      exists parsed id, parse_layout (ids (z_buffer d)) (constraints d) = Ok parsed /\ id ∈ ids (z_buffer d) /\
        solve precision w h cells parsed (length (ids (z_buffer d))) id = None /\
        unsolvable precision w h cells parsed id e
  end.
Proof.
  intros Hp Hd Hk Hw Hh Hcw Hch. pose proof (history_inv precision Hp k d Hd Hk) as I.
  pose proof (compute_spec precision Hp k d w h cells (conj (history_nonneg _ _ _ Hd) Hk) I Hw Hh Hcw Hch) as Hc.
  destruct (compute_absolute_layout precision d w h cells) as [[[layout|e] d']|]; [| |done]; destruct Hc as (Hc & _ & _);
    unfold computed_as in Hc; pose proof (usable_positive cells Hcw Hch) as Hpos; destruct (usable_cells cells) eqn:Hu; try done.
  - destruct (parse_layout _ _) as [parsed|]; [|done]. destruct Hpos as [? ?]; [done|]. split; [done|]. split; [done|].
    exists parsed. split; [done|]. intros id Hid. destruct Hc as (H1 & H2 & _). rewrite H1, decide_True by done.
    split; [by apply H2|done].
  - destruct (parse_layout _ _) as [parsed|e']; [|right; left; congruence]. right. right.
    destruct Hc as (id & Hid & Hus & Hn). by exists parsed, id.
  - left. split; [by injection Hc|]. unfold usable_cells in Hu. lia.
Qed.

(** C8. The geometry and resolution-order caches are invisible: after any history
    of additions, constraints, direct Z-buffer changes (fewer than the 2^64
    after which its revision repeats) and computations for any screens, the
    answer is the one of the same description without caches, and a
    computation changes nothing but the caches. *)
Theorem layout_caches_transparent {Frame : Type} precision k (d : LayoutDescription Frame) w h cells :
  (64 <= precision)%Z -> history precision k d -> (k < 2 ^ 64)%Z ->
  is_u64 w -> is_u64 h -> is_u64 (cell_width cells) -> is_u64 (cell_height cells) ->
  exists r d1 d2, compute_absolute_layout precision d w h cells = Some (r, d1) /\
    compute_absolute_layout precision (forget d) w h cells = Some (r, d2) /\ forget d1 = forget d.
Proof.
  intros Hp Hd Hk Hw Hh Hcw Hch. pose proof (history_inv precision Hp k d Hd Hk) as I.
  destruct (compute_forget precision Hp k d w h cells (conj (history_nonneg _ _ _ Hd) Hk) I Hw Hh Hcw Hch) as (r & d1 & d2 & E1 & E2).
  exists r, d1, d2. split; [done|]. split; [done|]. unfold compute_absolute_layout in E1.
  destruct (_ || _); [by injection E1 as <- <-|]. destruct (cache_hit d w h cells); [by injection E1 as <- <-|].
  destruct (parse_layout _ _); [|by injection E1 as <- <-].
  destruct (resolve_all _ _ _ _ _ _ _) as [[s|]|]; [|by injection E1 as <- <-|done].
  destruct (build_frame_dependencies _ _); by injection E1 as <- <-.
Qed.

(** The execution dependencies of a layout are, once each, exactly the pairs
    of frames that share a cell of the screen, the one further back first. *)
Theorem layout_dependencies_exact {Frame : Type} precision k (d : LayoutDescription Frame) w h cells layout d' i j :
  (64 <= precision)%Z -> history precision k d -> (k < 2 ^ 64)%Z ->
  is_u64 w -> is_u64 h -> is_u64 (cell_width cells) -> is_u64 (cell_height cells) ->
  compute_absolute_layout precision d w h cells = Some (Ok layout, d') ->
  NoDup (frame_dependencies layout) /\
  ({| prerequisite := i; dependent := j |} ∈ frame_dependencies layout <->
   (i < j)%nat /\ exists a b ra rb, ids (z_buffer d) !! i = Some a /\ ids (z_buffer d) !! j = Some b /\
     frame_layouts layout !! a = Some ra /\ frame_layouts layout !! b = Some rb /\
     exists x y, covers ra x y /\ covers rb x y).
Proof.
  intros Hp Hd Hk Hw Hh Hcw Hch E.
  destruct (computed_dependencies precision k d w h cells layout d' Hp Hd Hk Hw Hh Hcw Hch E) as (_ & Hn & Hs).
  split; [done|apply Hs].
Qed.

(** ** Witnesses *)

Definition half : Float := Finite 1 (-1).

(** A header over the screen, a centred square body under it, a status line at
    its bottom edge, and a popup aligned with the body. *)
Definition sample_description : LayoutDescription nat :=
  let d := make_layout_description in
  let d := snd (add_frame "body" (Some 1%nat) [make_ratio_constraint ASPECT_RATIO 1 1;
             make_character_constraint TOP_MARGIN 2; make_percentage_constraint MAX_WIDTH half;
             make_character_constraint HORIZONTAL_CENTER 0] d) in
  let d := snd (add_frame "header" (Some 2%nat) [make_character_constraint MAX_HEIGHT 2] d) in
  let d := snd (add_frame "popup" (Some 3%nat) [make_name_constraint RIGHT_ANCHOR "body"; make_character_constraint MAX_WIDTH 10;
             make_character_constraint MAX_HEIGHT 3; make_name_constraint BOTTOM_ANCHOR "body"] d) in
  d.

Definition sample_cells : CellDimensions := {| cell_width := 1; cell_height := 2 |}.

Lemma sample_history_layout : history 64 0 sample_description.
Proof.
  unfold sample_description. repeat apply history_add_frame;
    [..|apply history_new]; repeat constructor; cbn; unfold in_width; cbn; try lia.
Qed.

Definition sample_computed : AbsoluteLayout :=
  match compute_absolute_layout 64 sample_description 80 24 sample_cells with
  | Some (Ok layout, _) => layout
  | _ => empty_layout
  end.

Example sample_rectangles : map_to_list (frame_layouts sample_computed) ≡ₚ
  [("body", {| rect_x := 20; rect_y := 2; rect_width := 40; rect_height := 20 |});
   ("header", {| rect_x := 0; rect_y := 0; rect_width := 80; rect_height := 2 |});
   ("popup", {| rect_x := 50; rect_y := 19; rect_width := 10; rect_height := 3 |})]%string /\
  frame_dependencies sample_computed = [{| prerequisite := 0; dependent := 2 |}].
Proof. split; [|vm_compute; reflexivity]. apply (bool_decide_unpack _). vm_compute. exact I. Qed.

Definition sample_after : LayoutDescription nat :=
  match compute_absolute_layout 64 sample_description 80 24 sample_cells with
  | Some (_, d) => d
  | None => sample_description
  end.

Lemma sample_compute :
  compute_absolute_layout 64 sample_description 80 24 sample_cells = Some (Ok sample_computed, sample_after).
Proof. vm_compute. reflexivity. Qed.

Lemma u64_80 : is_u64 80. Proof. by split. Qed.
Lemma u64_24 : is_u64 24. Proof. by split. Qed.
Lemma u64_100 : is_u64 100. Proof. by split. Qed.
Lemma u64_30 : is_u64 30. Proof. by split. Qed.
Lemma u64_1 : is_u64 1. Proof. by split. Qed.
Lemma u64_2 : is_u64 2. Proof. by split. Qed.

Lemma layout_inside_margins_witness :
  is_Some (frame_layouts sample_computed !! "popup"%string) <-> "popup"%string ∈ ids (z_buffer sample_description).
Proof.
  exact (proj1 (layout_inside_margins 64 0 sample_description 80 24 sample_cells sample_computed sample_after
    (Z.le_refl 64) sample_history_layout eq_refl u64_80 u64_24 u64_1 u64_2 sample_compute) "popup"%string).
Defined.

(** Two frames aligned with each other. *)
Definition cyclic_description : LayoutDescription nat :=
  snd (add_frame "b" (Some 2%nat) [make_name_constraint LEFT_ANCHOR "a"]
    (snd (add_frame "a" (Some 1%nat) [make_name_constraint LEFT_ANCHOR "b"] make_layout_description))).

Lemma cyclic_history : history 64 0 cyclic_description.
Proof. unfold cyclic_description. repeat apply history_add_frame; [..|apply history_new]; by repeat constructor. Qed.

Lemma layout_refines_solve_witness :
  compute_absolute_layout 64 cyclic_description 80 24 sample_cells = Some (Err CONSTRAINT_CYCLE, cyclic_description) /\
  exists parsed id, parse_layout (ids (z_buffer cyclic_description)) (constraints cyclic_description) = Ok parsed /\
    unsolvable 64 80 24 sample_cells parsed id CONSTRAINT_CYCLE.
Proof.
  assert (E : compute_absolute_layout 64 cyclic_description 80 24 sample_cells = Some (Err CONSTRAINT_CYCLE, cyclic_description))
    by (vm_compute; reflexivity).
  split; [exact E|].
  pose proof (layout_refines_solve 64 0 cyclic_description 80 24 sample_cells (Z.le_refl 64) cyclic_history eq_refl
    u64_80 u64_24 u64_1 u64_2) as Hs. rewrite E in Hs.
  destruct Hs as [[Hs _]|[Hs|(parsed & id & Hp & _ & _ & Hu)]]; [discriminate Hs|vm_compute in Hs; discriminate Hs|].
  exists parsed, id. exact (conj Hp Hu).
Defined.

(** The caches of a computed description answer for it. *)
Lemma sample_after_history : history 64 0 sample_after.
Proof.
  eapply (history_compute 64 0 sample_description 80 24 sample_cells); [apply u64_80|apply u64_24|apply u64_1|apply u64_2|
    apply sample_history_layout|apply sample_compute].
Qed.

Lemma layout_caches_transparent_witness : cached_order_valid sample_after = true /\
  exists r d1 d2, compute_absolute_layout 64 sample_after 100 30 sample_cells = Some (r, d1) /\
    compute_absolute_layout 64 (forget sample_after) 100 30 sample_cells = Some (r, d2) /\ forget d1 = forget sample_after.
Proof.
  split; [vm_compute; reflexivity|].
  exact (layout_caches_transparent 64 0 sample_after 100 30 sample_cells (Z.le_refl 64) sample_after_history eq_refl
    u64_100 u64_30 u64_1 u64_2).
Defined.

Lemma layout_dependencies_exact_witness : NoDup (frame_dependencies sample_computed).
Proof.
  exact (proj1 (layout_dependencies_exact 64 0 sample_description 80 24 sample_cells sample_computed sample_after 0 2
    (Z.le_refl 64) sample_history_layout eq_refl u64_80 u64_24 u64_1 u64_2 sample_compute)).
Defined.
