(* ===== verification/LayoutMinimum.v ===== *)
(** * Minimum dimensions

    [compute_minimum_dimensions] against [compute_absolute_layout]: the loop
    that corrects a percentage terminates, the derived dimensions are exact
    for terminal-sized numbers, and a screen of the reported size leaves every
    frame its declared minimum. *)
From S2P Require Import Prelude.
From S2P Require Import Tui.
From S2P Require Import ZBuffer.
From S2P Require Import Canvas.
From S2P Require Import LongDouble.
From S2P Require Import Layout.
From S2P Require Import LayoutSolve.
From S2P Require Import LayoutSolve.
From S2P Require Import LayoutProps.
From Stdlib Require Import QArith Qround Lqa.

Lemma inject_Z_le a b : (a <= b)%Z -> (inject_Z a <= inject_Z b)%Q.
Proof. intros H. by rewrite <- Zle_Qle. Qed.

Lemma inject_Z_nonneg a : (0 <= a)%Z -> (0 <= inject_Z a)%Q.
Proof. apply inject_Z_le. Qed.

Lemma inject_Z_pos a : (0 < a)%Z -> (0 < inject_Z a)%Q.
Proof. intros H. change 0%Q with (inject_Z 0). by rewrite <- Zlt_Qlt. Qed.

Section Minimum.
Variable precision : Z.
Hypothesis Hprecision : (64 <= precision)%Z.

(** The relative error of one operation. *)
Definition epsilon : Q := (1 # 18446744073709551616).

Lemma rounding_error q : (0 <= q)%Q -> (q - q * epsilon <= round_at precision q <= q + q * epsilon)%Q.
Proof.
  intros Hq. destruct (round_at_error precision q Hq) as [H1 H2].
  assert (He : (2 ^ (- precision) <= epsilon)%Q) by (change epsilon with (2 ^ (-64))%Q; apply pow2_le; lia).
  assert (Hm : (q * 2 ^ (- precision) <= q * epsilon)%Q) by (rewrite !(Qmult_comm q); by apply Qmult_le_compat_r).
  split; lra.
Qed.

(** ** Derived dimensions *)

Definition div_up (a b : Z) : Z := (- ((- a) / b))%Z.

Lemma div_up_spec a b : (0 < b)%Z -> (a <= div_up a b * b < a + b)%Z.
Proof. intros Hb. unfold div_up. pose proof (Z.div_mod (-a) b ltac:(lia)). pose proof (Z.mod_pos_bound (-a) b Hb). nia. Qed.

(** Rounding a quotient of integers does not move its integer part. *)
Lemma quotient_floor a b : (0 <= a < 2 ^ 63)%Z -> (0 < b)%Z ->
  Qfloor (round_at precision (inject_Z a / inject_Z b)) = (a / b)%Z.
Proof.
  intros Ha Hb. set (q := (inject_Z a / inject_Z b)%Q). pose proof (inject_Z_pos b Hb) as Hbq.
  assert (Hqb : (q * inject_Z b == inject_Z a)%Q) by (unfold q; field; lra).
  assert (Hq0 : (0 <= q)%Q) by (apply Qle_shift_div_l; [done|]; rewrite Qmult_0_l; apply inject_Z_nonneg; lia).
  pose proof (Z.div_mod a b ltac:(lia)) as Hdm. pose proof (Z.mod_pos_bound a b Hb) as Hm.
  assert (Hdiv : (0 <= a / b)%Z) by (apply Z.div_pos; lia).
  assert (Hlo : (inject_Z (a / b) <= round_at precision q)%Q).
  { apply round_at_ge; [lia|apply u64_representable; [done|]|].
    - assert (a / b <= a)%Z by (apply Z.div_le_upper_bound; nia). width_lia.
    - apply Qle_shift_div_l; [done|]. rewrite <- inject_Z_mult. apply inject_Z_le. lia. }
  assert (Hhi : (round_at precision q < inject_Z (a / b + 1))%Q).
  { destruct (rounding_error q Hq0) as [_ He]. eapply Qle_lt_trans; [exact He|].
    assert (Hgap : (inject_Z a + 1 <= inject_Z (a / b + 1) * inject_Z b)%Q).
    { rewrite <- inject_Z_mult. change 1%Q with (inject_Z 1). rewrite <- inject_Z_plus. apply inject_Z_le. lia. }
    assert (Hsmall : (inject_Z a * epsilon < 1)%Q).
    { assert (Hle : (inject_Z a <= inject_Z (2 ^ 63))%Q) by (apply inject_Z_le; lia). unfold epsilon.
      change (inject_Z (2 ^ 63)) with (9223372036854775808 # 1) in Hle. lra. }
    apply (Qmult_lt_r _ _ (inject_Z b)); [done|]. nra. }
  apply Z.le_antisymm.
  - apply Z.lt_succ_r. rewrite Zlt_Qlt. eapply Qle_lt_trans; [apply Qfloor_le|exact Hhi].
  - rewrite <- (Qfloor_Z (a / b)). by apply Qfloor_resp_le.
Qed.

Lemma quotient_ceiling a b : (0 <= a < 2 ^ 63)%Z -> (0 < b)%Z ->
  Qceiling (round_at precision (inject_Z a / inject_Z b)) = div_up a b.
Proof.
  intros Ha Hb. set (q := (inject_Z a / inject_Z b)%Q). pose proof (inject_Z_pos b Hb) as Hbq.
  assert (Hqb : (q * inject_Z b == inject_Z a)%Q) by (unfold q; field; lra).
  assert (Hq0 : (0 <= q)%Q) by (apply Qle_shift_div_l; [done|]; rewrite Qmult_0_l; apply inject_Z_nonneg; lia).
  pose proof (div_up_spec a b Hb) as Hc. assert (Hc0 : (0 <= div_up a b)%Z) by nia.
  assert (Hhi : (round_at precision q <= inject_Z (div_up a b))%Q).
  { apply round_at_le; [lia|done|apply u64_representable; [done|]|].
    - assert (div_up a b <= a)%Z by nia. width_lia.
    - apply Qle_shift_div_r; [done|]. rewrite <- inject_Z_mult. apply inject_Z_le. lia. }
  assert (Hlo : (inject_Z (div_up a b - 1) < round_at precision q)%Q).
  { destruct (rounding_error q Hq0) as [He _]. eapply Qlt_le_trans; [|exact He].
    assert (Hgap : (inject_Z (div_up a b - 1) * inject_Z b <= inject_Z a - 1)%Q).
    { rewrite <- inject_Z_mult. change 1%Q with (inject_Z 1). unfold Qminus. rewrite <- inject_Z_opp, <- inject_Z_plus.
      apply inject_Z_le. nia. }
    assert (Hsmall : (inject_Z a * epsilon < 1)%Q).
    { assert (Hle : (inject_Z a <= inject_Z (2 ^ 63))%Q) by (apply inject_Z_le; lia). unfold epsilon.
      change (inject_Z (2 ^ 63)) with (9223372036854775808 # 1) in Hle. lra. }
    apply (Qmult_lt_r _ _ (inject_Z b)); [done|]. nra. }
  apply Z.le_antisymm.
  - rewrite <- (Qceiling_Z (div_up a b)). by apply Qceiling_resp_le.
  - assert (div_up a b - 1 < Qceiling (round_at precision q))%Z; [|lia].
    rewrite Zlt_Qlt. eapply Qlt_le_trans; [exact Hlo|apply Qle_ceiling].
Qed.

Lemma ld_mul_exact a b x y : (x == inject_Z a)%Q -> (y == inject_Z b)%Q -> (0 <= a * b < 2 ^ 64)%Z ->
  (ld_mul precision x y == inject_Z (a * b))%Q.
Proof.
  intros Hx Hy Hab. unfold ld_mul. rewrite Hx, Hy, <- inject_Z_mult. apply round_at_Z; [lia|].
  pose proof (Z.pow_le_mono_r 2 64 precision ltac:(lia) Hprecision). lia.
Qed.

(** On numbers of this size, a derived dimension is the exact quotient. *)
Lemma derived_exact s sc sr tc tr rounding :
  (0 <= s)%Z -> (0 < sc)%Z -> (0 < sr)%Z -> (0 < tc)%Z -> (0 < tr)%Z -> (s < 2 ^ 63)%Z -> (sc * tr < 2 ^ 63)%Z ->
  (s * sc * tr < 2 ^ 63)%Z -> (tc * sr < 2 ^ 63)%Z ->
  checked_derived_dimension precision s sc sr tc tr rounding =
  Ok (match rounding with DOWN => (s * (sc * tr)) / (tc * sr) | UP => div_up (s * (sc * tr)) (tc * sr) end)%Z.
Proof.
  intros Hs Hsc Hsr Htc Htr Hs63 Hst Hn Hd. unfold checked_derived_dimension.
  destruct (Z.eqb_spec sc 0), (Z.eqb_spec tc 0), (Z.leb_spec sr 0), (Z.leb_spec tr 0); try lia. cbn [orb].
  assert (B1 : (s * sc <= s * sc * tr)%Z) by nia. assert (B0 : (0 <= s * sc)%Z) by nia.
  set (a := (s * sc * tr)%Z) in *. assert (Ha0 : (0 <= a)%Z) by (unfold a; nia).
  assert (Hld : forall z, (0 <= z < 2 ^ 63)%Z -> (ld precision z == inject_Z z)%Q) by (intros z Hz; apply ld_exact; [done|width_lia]).
  assert (Hsc63 : (sc < 2 ^ 63)%Z) by nia. assert (Htr63 : (tr < 2 ^ 63)%Z) by nia.
  assert (Htc63 : (tc < 2 ^ 63)%Z) by nia. assert (Hsr63 : (sr < 2 ^ 63)%Z) by nia.
  assert (E1 : (ld_mul precision (ld precision s) (ld precision sc) == inject_Z (s * sc))%Q) by (apply ld_mul_exact; [apply Hld; lia..|lia]).
  assert (E2 : (ld_mul precision (ld_mul precision (ld precision s) (ld precision sc)) (ld precision tr) == inject_Z a)%Q)
    by (apply ld_mul_exact; [exact E1|apply Hld; lia|unfold a in *; lia]).
  assert (E3 : (ld_mul precision (ld precision tc) (ld precision sr) == inject_Z (tc * sr))%Q) by (apply ld_mul_exact; [apply Hld; lia..|nia]).
  assert (Eq : (ld_div precision (ld_mul precision (ld_mul precision (ld precision s) (ld precision sc)) (ld precision tr))
                   (ld_mul precision (ld precision tc) (ld precision sr)) ==
                round_at precision (inject_Z a / inject_Z (tc * sr)))%Q) by (unfold ld_div; by rewrite E2, E3).
  assert (Hb : (0 < tc * sr)%Z) by nia. rewrite Z.mul_assoc. fold a.
  assert (Hmax : (ld precision size_max == inject_Z size_max)%Q) by (apply ld_exact; [done|unfold size_max; width_lia]).
  destruct rounding.
  - rewrite (Qfloor_comp _ _ Eq), quotient_floor by lia. destruct (Qle_bool _ _) eqn:E; [done|]. exfalso.
    apply not_true_iff_false in E. apply E, Qle_bool_iff. rewrite Hmax. apply inject_Z_le.
    assert (a / (tc * sr) <= a)%Z by (apply Z.div_le_upper_bound; nia). unfold size_max. lia.
  - rewrite (Qceiling_comp _ _ Eq), quotient_ceiling by lia. destruct (Qle_bool _ _) eqn:E; [done|]. exfalso.
    apply not_true_iff_false in E. apply E, Qle_bool_iff. rewrite Hmax. apply inject_Z_le.
    pose proof (div_up_spec a (tc * sr) Hb). assert (div_up a (tc * sr) <= a)%Z by nia. unfold size_max. lia.
Qed.

(** ** Percentage maximums *)

(** A validated percentage of a larger screen is not smaller. *)
Lemma percent_mono c extent extent' d d' v v' : validate_constraint c = OK -> constraint_wf c -> constraint_unit c = PERCENT ->
  is_u64 extent -> is_u64 extent' -> (extent <= extent')%Z ->
  resolve_measure precision (Some c) extent d = Ok v -> resolve_measure precision (Some c) extent' d' = Ok v' -> (v <= v')%Z.
Proof.
  intros Hv Hw U He He' Hle. destruct (validated_view c Hv Hw) as [? U'|m e _ V _ Hp0 Hp1|U'|? U']; try congruence.
  unfold resolve_measure. rewrite U, V. cbn [get_float finite_value]. apply Qle_bool_iff in Hp0 as B0. apply Qle_bool_iff in Hp1 as B1.
  rewrite B0, B1. cbn [negb orb]. destruct (Qeq_bool _ 1); [by intros [= <-] [= <-]|]. intros [= <-] [= <-].
  apply Qfloor_resp_le, round_at_mono; [lia|..].
  - apply Qmult_le_0_compat; [|done]. apply round_at_nonneg. lia.
  - apply Qmult_le_compat_r; [|done]. rewrite !ld_exact by done. by apply inject_Z_le.
Qed.

(** One more cell is enough after the estimate. *)
Lemma estimate_close p fm estimate : (0 < p)%Q -> (p <= 1)%Q -> (0 < fm)%Z -> is_u64 fm ->
  estimate = Qceiling (ld_div precision (ld precision fm) p) -> (estimate <= size_max)%Z ->
  (fm <= estimate)%Z /\ (inject_Z fm <= (inject_Z estimate + 1) * p)%Q.
Proof.
  intros Hp0 Hp1 Hfm Hu -> Hle. unfold ld_div in *. set (q := (ld precision fm / p)%Q) in *.
  assert (Eq : (q == inject_Z fm / p)%Q) by (unfold q; by rewrite ld_exact).
  assert (Hqp : (q * p == inject_Z fm)%Q) by (rewrite Eq; field; lra).
  assert (Hfq : (0 < inject_Z fm)%Q) by (by apply inject_Z_pos). assert (Hq : (inject_Z fm <= q)%Q).
  { rewrite Eq. apply Qle_shift_div_l; [done|]. nra. }
  set (r := round_at precision q) in *. pose proof (Qle_ceiling r) as Hc.
  assert (Hr : (inject_Z fm <= r)%Q) by (apply round_at_ge; [lia|by apply u64_representable|done]).
  split; [rewrite Zle_Qle; lra|]. destruct (rounding_error q ltac:(lra)) as [He _]. fold r in He.
  apply inject_Z_le in Hle. assert (Hs : (inject_Z size_max == 18446744073709551615)%Q) by done. unfold epsilon in He.
  assert (Hqmax : (q <= 18446744073709551616)%Q) by lra.
  assert (Hstep : (q <= inject_Z (Qceiling r) + 1)%Q) by lra. rewrite <- Hqp. apply Qmult_le_compat_r; lra.
Qed.

Lemma resolve_reaches c extent fm : validate_constraint c = OK -> constraint_wf c -> constraint_unit c = PERCENT ->
  is_u64 extent -> is_u64 fm -> forall m e, constraint_value c = FloatValue (Finite m e) ->
  (fm <= extent)%Z -> (inject_Z fm <= inject_Z extent * float_value m e)%Q ->
  exists v, resolve_measure precision (Some c) extent 0 = Ok v /\ (fm <= v)%Z.
Proof.
  intros Hv Hw U He Hu m e V Hfe Hfm. destruct (validated_view c Hv Hw) as [? U'|m' e' _ V' _ Hp0 Hp1|U'|? U']; try congruence.
  rewrite V in V'. injection V' as <- <-. unfold resolve_measure. rewrite U, V. cbn [get_float finite_value].
  apply Qle_bool_iff in Hp0 as B0. apply Qle_bool_iff in Hp1 as B1. rewrite B0, B1. cbn [negb orb].
  destruct (Qeq_bool _ 1); [by exists extent|]. eexists. split; [done|]. rewrite <- (Qfloor_Z fm). apply Qfloor_resp_le.
  unfold ld_mul. apply round_at_ge; [lia|by apply u64_representable|]. by rewrite ld_exact.
Qed.

(** The loop ends, with an extent whose percentage holds the minimum. *)
Lemma required_spec maximum fm : (forall c, maximum = Some c -> validate_constraint c = OK /\ constraint_wf c) -> is_u64 fm ->
  match required_for_percentage_maximum precision maximum fm with
  | None => False
  | Some (Err e) => e = INVALID_CONSTRAINT \/ e = DIMENSION_OVERFLOW
  | Some (Ok required) => is_u64 required /\
      forall c, maximum = Some c ->
        match constraint_unit c with
        | CHARACTERS => forall n, constraint_value c = SizeValue n -> (fm <= n)%Z
        | PERCENT => exists v, resolve_measure precision (Some c) required 0 = Ok v /\ (fm <= v)%Z
        | _ => False
        end
  end.
Proof.
  intros Hc Hu. destruct maximum as [c|]; [|done]. destruct (Hc c eq_refl) as [Hv Hw].
  destruct (validated_view c Hv Hw) as [n U V Hn|m e U V _ Hp0 Hp1|U T|s U V _ _]; unfold required_for_percentage_maximum; rewrite U.
  - rewrite V. cbn. destruct (Z.ltb_spec n fm); [by left|]. split; [done|]. intros c' [= <-]. rewrite U, V. intros n' [= <-]. lia.
  - rewrite V. cbn [get_float]. apply Qle_bool_iff in Hp0 as B0. apply Qle_bool_iff in Hp1 as B1. rewrite B0, B1. cbn [negb orb].
    destruct (Z.eqb_spec fm 0) as [->|Hfm].
    { split; [done|]. intros c' [= <-]. rewrite U. destruct (resolve_measure_ok precision Hprecision c 0 0 Hv Hw (or_intror U)) as (v & E & Hv' & _);
        [done|]. exists v. split; [done|]. width_lia. }
    destruct (Qeq_bool (float_value m e) 0) eqn:E0; [by left|].
    assert (Hp : (0 < float_value m e)%Q).
    { apply Qle_lteq in Hp0 as [?|E]; [done|]. symmetry in E. apply Qeq_bool_iff in E. congruence. }
    set (estimate := Qceiling _). assert (Hmax : (ld precision size_max == inject_Z size_max)%Q)
      by (apply ld_exact; [done|unfold size_max; width_lia]).
    destruct (Qle_bool (inject_Z estimate) (ld precision size_max)) eqn:El; cbn [negb]; [|by right].
    apply Qle_bool_iff in El. rewrite Hmax, <- Zle_Qle in El.
    destruct (estimate_close (float_value m e) fm estimate Hp Hp1 ltac:(width_lia) Hu eq_refl El) as [Hge Hstep].
    assert (Hest : is_u64 estimate) by (unfold size_max in El; width_lia).
    destruct (resolve_measure_ok precision Hprecision c estimate 0 Hv Hw (or_intror U) Hest) as (v & E & Hv' & _).
    unfold growth_fuel. cbn [grow_required]. rewrite E. destruct (Z.ltb_spec v fm) as [Hlt|Hge'].
    2:{ split; [done|]. intros c' [= <-]. rewrite U. exists v. split; [done|lia]. }
    destruct (Z.eqb_spec estimate size_max) as [|Hne]; [by right|].
    assert (Hest1 : is_u64 (estimate + 1)) by (unfold size_max in *; width_lia).
    destruct (resolve_reaches c (estimate + 1) fm Hv Hw U Hest1 Hu m e V) as (v' & E' & Hv1); [lia|by rewrite inject_Z_plus|].
    rewrite E'. destruct (Z.ltb_spec v' fm); [lia|]. split; [done|]. intros c' [= <-]. rewrite U. by exists v'.
  - by left.
  - by left.
Qed.

(** ** One axis *)

(** The cells and the fraction of the screen that a constraint claims. *)
Definition claimed_cells (c : option Constraint) : Z :=
  match c with Some c => match constraint_value c with SizeValue n => n | _ => 0%Z end | None => 0%Z end.
Definition claimed_fraction (c : option Constraint) : Q :=
  match c with Some c => match constraint_value c with FloatValue (Finite m e) => float_value m e | _ => 0%Q end | None => 0%Q end.

Definition valid_component (c : option Constraint) : Prop :=
  forall c', c = Some c' -> validate_constraint c' = OK /\ constraint_wf c' /\ constraint_type c' <> ASPECT_RATIO.

Lemma ld_small z : (0 <= z < 2 ^ 64)%Z -> (ld precision z == inject_Z z)%Q.
Proof. intros Hz. by apply ld_exact. Qed.

Lemma component_spec c k mult fixed fraction fixed' fraction' : valid_component c -> (mult = 1 \/ mult = 2)%Z ->
  is_u64 fixed -> (0 <= fraction)%Q -> (0 <= k <= 2)%Z -> (fraction <= inject_Z k)%Q ->
  add_minimum_component precision c mult fixed fraction = Ok (fixed', fraction') ->
  is_u64 fixed' /\ (fixed + claimed_cells c <= fixed')%Z /\ (0 <= claimed_cells c)%Z /\
  (0 <= fraction')%Q /\ (fraction' <= inject_Z (k + mult))%Q /\
  (fraction + claimed_fraction c - 4 * epsilon <= fraction')%Q /\ (0 <= claimed_fraction c <= 1)%Q.
Proof.
  intros Hc Hm Hf Hfr Hk Hfk. assert (Hkm : (inject_Z k <= inject_Z (k + mult))%Q) by (apply inject_Z_le; lia).
  assert (He : (0 <= epsilon)%Q) by (unfold epsilon; lra).
  destruct c as [c|]; cbn [add_minimum_component claimed_cells claimed_fraction].
  2:{ intros [= <- <-]. split; [done|]. split; [lia|]. split; [done|]. split; [done|]. split; [lra|]. split; lra. }
  destruct (Hc c eq_refl) as (Hv & Hw & Ht). destruct (validated_view c Hv Hw) as [n U V Hn|m e U V Hm24 Hp0 Hp1|U T|s U V _ _]; rewrite U.
  - rewrite V. cbn [get_size]. destruct (_ && _); [done|]. unfold checked_add.
    destruct (Z.ltb_spec (size_max - fixed) (n * mult)) as [|Hle]; [done|]. cbn. intros [= <- <-].
    assert (Hn0 : (0 <= n)%Z) by apply Hn. split; [unfold size_max in Hle; width_lia|]. split; [nia|]. split; [done|].
    split; [done|]. split; [lra|]. split; lra.
  - rewrite V. cbn [get_float]. intros [= <- <-]. split; [done|]. split; [lia|]. split; [done|].
    set (x := float_value m e) in *. assert (Hm0 : (0 <= m)%Z).
    { destruct (Z.le_gt_cases 0 m) as [|Hneg]; [done|]. exfalso. unfold x, float_value in Hp0. pose proof (pow2_pos e).
      assert (Hlt : (inject_Z m < 0)%Q) by (change 0%Q with (inject_Z 0); by rewrite <- Zlt_Qlt). nra. }
    assert (Hmq : (0 < inject_Z mult <= 2)%Q) by (destruct Hm as [-> | ->]; change (inject_Z 1) with 1%Q; change (inject_Z 2) with 2%Q; lra).
    assert (Ex : (ld_mul precision x (ld precision mult) == x * inject_Z mult)%Q).
    { unfold ld_mul. rewrite ld_small by lia. apply round_at_exact; [lia|]. exists (m * mult)%Z, e. split.
      - pose proof (Z.pow_le_mono_r 2 64 precision ltac:(lia) Hprecision). destruct Hm as [-> | ->]; lia.
      - unfold x, float_value. rewrite inject_Z_mult. ring. }
    set (y := (fraction + x * inject_Z mult)%Q). assert (Hy0 : (0 <= y)%Q) by (unfold y; nra).
    assert (Hyx : (fraction + x <= y)%Q).
    { unfold y. destruct Hm as [-> | ->]; [change (inject_Z 1) with 1%Q|change (inject_Z 2) with 2%Q]; lra. }
    assert (Hy1 : (y <= inject_Z (k + mult))%Q) by (unfold y; rewrite inject_Z_plus; nra).
    assert (Ey : (ld_add precision fraction (ld_mul precision x (ld precision mult)) == round_at precision y)%Q)
      by (unfold ld_add, y; by rewrite Ex).
    rewrite Ey. split; [apply round_at_nonneg; lia|]. split.
    + apply round_at_le; [lia|done|apply u64_representable; [done|width_lia]|done].
    + split; [|by split]. destruct (rounding_error y Hy0) as [Hr _].
      assert (Hb : (y <= 4)%Q) by (assert (inject_Z (k + mult) <= inject_Z 4)%Q by (apply inject_Z_le; lia); change (inject_Z 4) with 4%Q in *; lra).
      assert (Hye : (y * epsilon <= 4 * epsilon)%Q) by (by apply Qmult_le_compat_r). lra.
  - done.
  - rewrite V. intros [= <- <-]. split; [done|]. split; [lia|]. split; [done|]. split; [done|]. split; [lra|]. split; lra.
Qed.

(** A margin takes what it claims, up to rounding. *)
Lemma margin_spec c extent : valid_component c -> (forall c', c = Some c' -> is_edge_anchor (constraint_type c') = false) ->
  is_u64 extent -> exists v, resolve_measure precision c extent 0 = Ok v /\ (0 <= v)%Z /\
    (inject_Z v <= inject_Z (claimed_cells c) + inject_Z extent * claimed_fraction c + inject_Z extent * epsilon)%Q.
Proof.
  intros Hc Ha He. assert (He0 : (0 <= inject_Z extent)%Q) by (apply inject_Z_nonneg, He).
  assert (Hep : (0 <= inject_Z extent * epsilon)%Q) by (apply Qmult_le_0_compat; [done|unfold epsilon; lra]).
  destruct c as [c|]; [|exists 0%Z; split; [done|]; split; [done|]; cbn [claimed_cells claimed_fraction]; change (inject_Z 0) with 0%Q; lra].
  destruct (Hc c eq_refl) as (Hv & Hw & Ht). specialize (Ha c eq_refl).
  destruct (validated_view c Hv Hw) as [n U V Hn|m e U V Hm24 Hp0 Hp1|U T|s U V _ A]; [| |done|congruence];
    unfold resolve_measure; rewrite U, V; cbn [get_size get_float finite_value claimed_cells claimed_fraction]; rewrite V.
  - exists n. split; [done|]. split; [apply Hn|]. lra.
  - set (x := float_value m e) in *. apply Qle_bool_iff in Hp0 as B0. apply Qle_bool_iff in Hp1 as B1. rewrite B0, B1. cbn [negb orb].
    change (inject_Z 0) with 0%Q. destruct (Qeq_bool x 1) eqn:E1.
    + apply Qeq_bool_iff in E1. exists extent. split; [done|]. split; [apply He|]. rewrite E1. lra.
    + eexists. split; [done|]. pose proof (percent_bounds precision Hprecision extent x He Hp0 Hp1) as [Hb _]. split; [exact Hb|].
      eapply Qle_trans; [apply Qfloor_le|]. unfold ld_mul. rewrite ld_exact by done.
      assert (Hex : (0 <= inject_Z extent * x)%Q) by (by apply Qmult_le_0_compat).
      destruct (rounding_error (inject_Z extent * x) Hex) as [_ Hr].
      assert (Hxe : (inject_Z extent * x * epsilon <= inject_Z extent * epsilon)%Q).
      { apply Qmult_le_compat_r; [|unfold epsilon; lra]. nra. }
      lra.
Qed.

Lemma margin_component p t : parsed_ok p -> t <> ASPECT_RATIO -> valid_component (get p t).
Proof. intros Hp Ht c Hc. destruct (Hp t c Hc) as (E & Hv & Hw). by rewrite E. Qed.

Lemma placement_component p horizontal : parsed_ok p -> valid_component (placement_constraint p horizontal).
Proof.
  intros Hp c Hc. destruct (placement_view p horizontal c Hp Hc) as (Hv & Hw & Ht). split; [done|]. split; [done|].
  intros E. rewrite E in Ht. by destruct horizontal.
Qed.

(** The division of the claimed cells by the rest of the screen, up to
    rounding. *)
Lemma quotient_covers fixed fraction extent : is_u64 fixed -> (0 <= fraction)%Q -> (fraction < 1)%Q ->
  (Qceiling (ld_div precision (ld precision fixed) (ld_sub precision 1 fraction)) <= extent)%Z ->
  (fixed <= extent)%Z /\
  (inject_Z fixed <= inject_Z extent * (1 - fraction) + 2 * (inject_Z extent * epsilon))%Q.
Proof.
  intros Hf H0 H1 Hle. set (g := ld_sub precision 1 fraction) in *. assert (Hfq : (0 <= inject_Z fixed)%Q) by (apply inject_Z_nonneg, Hf).
  destruct (rounding_error (1 - fraction) ltac:(lra)) as [Hg1 Hg2]. change (round_at precision (1 - fraction)) with g in *.
  assert (Hg : (0 < g)%Q) by (unfold epsilon in Hg1; lra).
  assert (Hg3 : (g <= 1)%Q) by (apply round_at_le; [lia|lra|by apply (u64_representable precision Hprecision 1)|lra]).
  set (q := (ld precision fixed / g)%Q). assert (Hq : (q * g == inject_Z fixed)%Q)
    by (unfold q; rewrite ld_exact by done; field; lra).
  assert (Hq0 : (inject_Z fixed <= q)%Q) by nra.
  assert (Hqe : (round_at precision q <= inject_Z extent)%Q).
  { eapply Qle_trans; [apply Qle_ceiling|]. by apply inject_Z_le. }
  assert (Hfe : (inject_Z fixed <= inject_Z extent)%Q).
  { eapply Qle_trans; [|exact Hqe]. apply round_at_ge; [lia|by apply u64_representable|done]. }
  split; [by rewrite Zle_Qle|]. destruct (rounding_error q ltac:(lra)) as [Hr _].
  set (w := inject_Z extent) in *. assert (Hw : (0 <= w)%Q) by lra.
  assert (Hwg : (inject_Z fixed - inject_Z fixed * epsilon <= w * g)%Q).
  { assert (Hm : ((q - q * epsilon) * g <= w * g)%Q) by (apply Qmult_le_compat_r; lra).
    assert (E : ((q - q * epsilon) * g == q * g - q * g * epsilon)%Q) by ring. rewrite E, Hq in Hm. exact Hm. }
  assert (Hfeps : (inject_Z fixed * epsilon <= w * epsilon)%Q) by (apply Qmult_le_compat_r; [done|unfold epsilon; lra]).
  assert (Hg4 : (g <= 1 - fraction + epsilon)%Q) by (unfold epsilon in *; lra).
  assert (Hwg2 : (w * g <= w * (1 - fraction + epsilon))%Q) by (rewrite !(Qmult_comm w); apply Qmult_le_compat_r; done).
  lra.
Qed.

Lemma minimum_axis_total p horizontal fm : parsed_ok p -> is_u64 fm -> minimum_axis precision p horizontal fm <> None.
Proof.
  intros Hp Hu. unfold minimum_axis. destruct (result_bind _ _); cbn [run]; [|done].
  pose proof (required_spec (get p (if horizontal then MAX_WIDTH else MAX_HEIGHT)) fm) as Hr.
  destruct (required_for_percentage_maximum _ _ _) as [[|]|]; cbn; [done|done|]. exfalso. apply Hr; [|done].
  intros c Hc. destruct (Hp _ c Hc) as (_ & ? & ?). done.
Qed.

(** A screen of the minimum extent leaves the frame's minimum between its
    margins and below its maximum. *)
Lemma axis_suffices p horizontal fm minimum extent : parsed_ok p -> is_u64 fm ->
  minimum_axis precision p horizontal fm = Some (Ok minimum) -> (minimum <= extent < 2 ^ 16)%Z ->
  (fm <= extent)%Z /\ exists lower upper,
    resolve_axis_bounds precision p horizontal extent = Ok (lower, upper) /\ (fm <= upper - lower)%Z /\
    forall m d, resolve_measure precision (get p (if horizontal then MAX_WIDTH else MAX_HEIGHT)) extent d = Ok m ->
      (d = upper - lower)%Z -> (fm <= m)%Z.
Proof.
  intros Hp Hu E Hx. unfold minimum_axis in E. apply run_ok in E as (least & E1 & E2). apply run_ok in E2 as (required & Hreq & E2).
  injection E2 as <-. injection E1 as E1.
  set (lt := if horizontal then LEFT_MARGIN else TOP_MARGIN) in *. set (ut := if horizontal then RIGHT_MARGIN else BOTTOM_MARGIN) in *.
  set (mt := if horizontal then MAX_WIDTH else MAX_HEIGHT) in *.
  assert (Hlt : lt <> ASPECT_RATIO /\ is_edge_anchor lt = false) by (unfold lt; by destruct horizontal).
  assert (Hut : ut <> ASPECT_RATIO /\ is_edge_anchor ut = false) by (unfold ut; by destruct horizontal).
  assert (Hreq' : is_u64 required /\ forall c, get p mt = Some c ->
        match constraint_unit c with
        | CHARACTERS => forall n, constraint_value c = SizeValue n -> (fm <= n)%Z
        | PERCENT => exists v, resolve_measure precision (Some c) required 0 = Ok v /\ (fm <= v)%Z
        | _ => False
        end).
  { pose proof (required_spec (get p mt) fm) as Hr. rewrite Hreq in Hr. apply Hr; [|done].
    intros c Hc. destruct (Hp mt c Hc) as (_ & ? & ?). done. }
  destruct Hreq' as [Hru Hmax].
  apply bind_ok in E1 as ([f1 r1] & C1 & E1). apply bind_ok in E1 as ([f2 r2] & C2 & E1). apply bind_ok in E1 as ([f3 r3] & C3 & E1).
  destruct (component_spec _ 0 1 _ _ _ _ (margin_component p lt Hp (proj1 Hlt)) (or_introl eq_refl) Hu (Qle_refl 0) ltac:(lia) (Qle_refl 0) C1)
    as (U1 & F1 & P1 & Z1 & B1 & L1 & Q1).
  destruct (component_spec _ 1 1 _ _ _ _ (margin_component p ut Hp (proj1 Hut)) (or_introl eq_refl) U1 Z1 ltac:(lia) B1 C2)
    as (U2 & F2 & P2 & Z2 & B2 & L2 & Q2).
  set (mult := if _ : bool then 2%Z else 1%Z) in C3. assert (Hmult : (mult = 1 \/ mult = 2)%Z) by (unfold mult; destruct (match placement_constraint p horizontal with Some _ => _ | None => _ end); auto).
  destruct (component_spec _ 2 mult _ _ _ _ (placement_component p horizontal Hp) Hmult U2 Z2 ltac:(lia) B2 C3)
    as (U3 & F3 & P3 & Z3 & B3 & L3 & Q3).
  assert (Hext : is_u64 extent) by (split; [|lia]; destruct Hru; lia).
  destruct (margin_spec (get p lt) extent (margin_component p lt Hp (proj1 Hlt))) as (lv & El & Hl0 & Hl);
    [intros c Hc; destruct (Hp lt c Hc) as (-> & _); apply Hlt|done|].
  destruct (margin_spec (get p ut) extent (margin_component p ut Hp (proj1 Hut))) as (uv & Eu & Hu0 & Hu');
    [intros c Hc; destruct (Hp ut c Hc) as (-> & _); apply Hut|done|].
  assert (Hfit : (fm + lv + uv <= extent)%Z \/ fm = 0%Z).
  { destruct (Qle_bool 1 r3) eqn:Hr3.
    - right. destruct (Z.eqb_spec f3 0) as [Hz|]; [|done]. width_lia.
    - left. assert (Hr1 : (r3 < 1)%Q) by (apply Qnot_le_lt; intros Hle; apply Qle_bool_iff in Hle; congruence).
      destruct (negb _); [done|]. apply Ok_inj in E1.
      destruct (quotient_covers f3 r3 extent U3 Z3 Hr1 ltac:(lia)) as [_ Hq].
      assert (Hsmall : (inject_Z extent <= 65535)%Q) by (change 65535%Q with (inject_Z 65535); apply inject_Z_le; lia).
      assert (He0 : (0 <= inject_Z extent)%Q) by (apply inject_Z_nonneg, Hext).
      apply inject_Z_le in F1, F2, F3. rewrite inject_Z_plus in F1, F2, F3. apply inject_Z_nonneg in P3.
      set (w := inject_Z extent) in *. set (pl := claimed_fraction (get p lt)) in *. set (pu := claimed_fraction (get p ut)) in *.
      assert (Hr3' : (pl + pu - 12 * epsilon <= r3)%Q) by lra.
      assert (Hwr : (w * (1 - r3) <= w * (1 - (pl + pu - 12 * epsilon)))%Q) by (rewrite !(Qmult_comm w); apply Qmult_le_compat_r; lra).
      assert (Hweps : (w * epsilon <= 65535 * epsilon)%Q) by (apply Qmult_le_compat_r; [done|unfold epsilon; lra]).
      assert (Hsum : (inject_Z fm + inject_Z lv + inject_Z uv <= w + 16 * (w * epsilon))%Q) by lra.
      assert (Hlast : (inject_Z (fm + lv + uv) < inject_Z (extent + 1))%Q).
      { rewrite !inject_Z_plus. change (inject_Z 1) with 1%Q. fold w. unfold epsilon in Hweps. unfold epsilon in Hsum. lra. }
      rewrite <- Zlt_Qlt in Hlast. lia. }
  split; [destruct Hfit; [lia|width_lia]|].
  unfold resolve_axis_bounds. fold lt ut. rewrite El, Eu. cbn [result_bind]. do 2 eexists. split; [done|]. split.
  - destruct (Z.ltb_spec (extent - Z.min uv extent) (Z.min lv extent)); width_lia.
  - intros m d Em Hd. destruct (get p mt) as [c|] eqn:Gm.
    + destruct (Hp mt c Gm) as (_ & Hv & Hw). specialize (Hmax c eq_refl).
      destruct (validated_view c Hv Hw) as [n U V Hn|m' e' U V _ Hp0 Hp1|U|? U]; rewrite U in Hmax; [| |done..].
      * unfold resolve_measure in Em. rewrite U, V in Em. cbn in Em. injection Em as <-. by apply Hmax.
      * destruct Hmax as (v & Ev & Hfv). etransitivity; [exact Hfv|].
        eapply (percent_mono c required extent 0 d); [done|done|done|done|done|lia|exact Ev|exact Em].
    + cbn in Em. injection Em as <-. subst d. destruct (Z.ltb_spec (extent - Z.min uv extent) (Z.min lv extent)); width_lia.
Qed.

(** ** Aspect ratios *)

Variable cells : CellDimensions.
Hypothesis Hcells : (0 < cell_width cells < 2 ^ 16)%Z /\ (0 < cell_height cells < 2 ^ 16)%Z.

(** The fixed minimum of a frame is kept by every larger available size. *)
Lemma aspect_keeps_minimum p mw mh fw fh w h w' h' : parsed_ok p ->
  character_minimum (get p MIN_WIDTH) = Ok mw -> character_minimum (get p MIN_HEIGHT) = Ok mh -> (0 <= mw)%Z -> (0 <= mh)%Z ->
  frame_minimum_size precision p cells = Ok (fw, fh) -> (fw <= w < 2 ^ 16)%Z -> (fh <= h < 2 ^ 16)%Z ->
  apply_aspect_ratio precision p w h cells = Ok (w', h') -> (mw <= w')%Z /\ (mh <= h')%Z.
Proof.
  intros Hp Emw Emh Hmw Hmh Ef Hw Hh Ea. unfold frame_minimum_size in Ef. rewrite Emw, Emh in Ef. cbn [result_bind] in Ef.
  unfold apply_aspect_ratio in Ea. destruct (get p ASPECT_RATIO) as [c|] eqn:Ga; [|injection Ef as <- <-; injection Ea as <- <-; lia].
  destruct (parsed_ratio p c Hp Ga) as (r & Er & Hr1 & Hr2). rewrite Er in Ef, Ea. cbn [get_ratio] in Ef, Ea.
  destruct (Z.leb_spec (ratio_width r) 0), (Z.leb_spec (ratio_height r) 0); try lia. cbn [orb] in Ef, Ea.
  destruct Hcells as [Hcw Hch]. unfold height_for_width, width_for_height in Ef, Ea.
  set (a := (cell_width cells * ratio_height r)%Z). set (b := (cell_height cells * ratio_width r)%Z).
  assert (Ha : (0 < a < 2 ^ 47)%Z) by (unfold a; nia). assert (Hb : (0 < b < 2 ^ 47)%Z) by (unfold b; nia).
  assert (Hfit : (mw <= fw /\ mh <= fh)%Z).
  { apply bind_ok in Ef as (v & Ev & Ef). destruct (Z.leb_spec v mh).
    - apply bind_ok in Ef as (v' & Ev' & Ef). injection Ef as <- <-. lia.
    - injection Ef as <- <-. lia. }
  assert (D1 : forall x rounding, (0 <= x < 2 ^ 16)%Z ->
    checked_derived_dimension precision x (cell_width cells) (ratio_width r) (cell_height cells) (ratio_height r) rounding =
    Ok (match rounding with DOWN => x * a / b | UP => div_up (x * a) b end)%Z).
  { intros x rounding Hx. apply derived_exact; try lia; unfold a, b in *; nia. }
  assert (D2 : forall x rounding, (0 <= x < 2 ^ 16)%Z ->
    checked_derived_dimension precision x (cell_height cells) (ratio_height r) (cell_width cells) (ratio_width r) rounding =
    Ok (match rounding with DOWN => x * b / a | UP => div_up (x * b) a end)%Z).
  { intros x rounding Hx. apply derived_exact; try lia; unfold a, b in *; nia. }
  rewrite (D1 mw UP) in Ef by lia. cbn [result_bind] in Ef. pose proof (div_up_spec (mw * a) b ltac:(lia)) as U1.
  assert (Hkey : (mh * b <= fw * a /\ mw * a <= fh * b)%Z).
  { destruct (Z.leb_spec (div_up (mw * a) b) mh).
    - rewrite (D2 mh UP) in Ef by lia. cbn [result_bind] in Ef. pose proof (div_up_spec (mh * b) a ltac:(lia)) as U2.
      injection Ef as <- <-. nia.
    - injection Ef as <- <-. nia. }
  rewrite (D1 w DOWN) in Ea by lia. cbn [result_bind] in Ea.
  assert (Hlow : (mh <= w * a / b)%Z) by (apply Z.div_le_lower_bound; nia).
  assert (Hd0 : (0 <= w * a / b)%Z) by (apply Z.div_pos; nia).
  pose proof (at_least_one_bounds w h (w * a / b) ltac:(lia) ltac:(lia) Hd0) as (_ & _ & K1).
  destruct (Z.leb_spec (at_least_one w h (w * a / b)) h).
  - injection Ea as <- <-. lia.
  - rewrite (D2 h DOWN) in Ea by lia. cbn [result_bind] in Ea. injection Ea as <- <-.
    assert (Hlow2 : (mw <= h * b / a)%Z) by (apply Z.div_le_lower_bound; nia).
    assert (Hd1 : (0 <= h * b / a)%Z) by (apply Z.div_pos; nia).
    pose proof (at_least_one_bounds w h (h * b / a) ltac:(lia) ltac:(lia) Hd1) as (_ & _ & K2). lia.
Qed.
End Minimum.

(** ** All frames *)

(** Parsing keeps every constraint. *)
Lemma index_constraints_get l : forall p hn vn p' hn' vn',
  index_constraints l p hn vn = Ok (p', hn', vn') -> length p = constraint_type_count ->
  (forall t c, get p t = Some c -> get p' t = Some c) /\ (forall c, c ∈ l -> get p' (constraint_type c) = Some c).
Proof.
  induction l as [|x l IH]; intros p hn vn p' hn' vn' E Hl; cbn in E.
  { injection E as <- <- <-. split; [done|]. by intros c ?%elem_of_nil. }
  destruct (is_ok (validate_constraint x)); [|done]. destruct (get p (constraint_type x)) eqn:Hg; [done|].
  destruct (IH _ _ _ _ _ _ E) as [H1 H2]; [by rewrite length_insert|]. split.
  - intros t c Hget. apply H1. rewrite get_insert by done. case_decide; [congruence|done].
  - intros c [->|Hc]%elem_of_cons; [|by apply H2]. apply H1. by rewrite get_insert, decide_True.
Qed.

Lemma parse_constraints_get l p c : parse_constraints l = Ok p -> c ∈ l -> get p (constraint_type c) = Some c.
Proof.
  intros E Hc. unfold parse_constraints in E. apply bind_ok in E as ([[p' hn] vn] & E & H).
  destruct (_ || _); [done|]. destruct (negb _); [done|]. destruct (negb _); [done|]. apply Ok_inj in H as <-.
  by apply (index_constraints_get _ _ _ _ _ _ _ E).
Qed.

Lemma character_minimum_u64 p t n : parsed_ok p -> character_minimum (get p t) = Ok n -> is_u64 n.
Proof.
  intros Hp. destruct (get p t) as [c|] eqn:G; cbn; [|by intros [= <-]]. destruct (Hp t c G) as (_ & Hv & Hw).
  destruct (validated_view c Hv Hw) as [m U V Hm|? ? U|U|? U]; rewrite U; [rewrite V; cbn|..]; [by intros [= <-]|by intros [= <-]|done..].
Qed.

Lemma frame_minimum_u64 precision p cells fw fh : (64 <= precision)%Z -> parsed_ok p ->
  frame_minimum_size precision p cells = Ok (fw, fh) ->
  is_u64 fw /\ is_u64 fh /\ exists mw mh, character_minimum (get p MIN_WIDTH) = Ok mw /\ character_minimum (get p MIN_HEIGHT) = Ok mh.
Proof.
  intros Hprec Hp E. unfold frame_minimum_size in E. apply bind_ok in E as (w & Ew & E). apply bind_ok in E as (h & Eh & E).
  pose proof (character_minimum_u64 p _ _ Hp Ew) as Hw. pose proof (character_minimum_u64 p _ _ Hp Eh) as Hh.
  assert (Huv : is_u64 fw /\ is_u64 fh); [|split; [apply Huv|split; [apply Huv|by exists w, h]]].
  destruct (get p ASPECT_RATIO) as [c|]; [|by injection E as <- <-].
  destruct (get_ratio _) as [r|]; [|done]. destruct (_ || _); [done|]. apply bind_ok in E as (v & Ev & E).
  apply derived_nonneg in Ev; [|done]. destruct (_ <=? _)%Z.
  - apply bind_ok in E as (v' & Ev' & E). apply derived_nonneg in Ev'; [|done]. injection E as <- <-. split; [|done].
    destruct (Z.max_spec w v') as [[_ ->]|[_ ->]]; done.
  - by injection E as <- <-.
Qed.

Lemma minimum_of_each_spec precision cells l : (64 <= precision)%Z -> Forall parsed_ok l -> forall mw mh,
  match minimum_of_each precision l cells mw mh with
  | None => False
  | Some (Err _) => True
  | Some (Ok (mw', mh')) => (mw <= mw' /\ mh <= mh')%Z /\
      forall p, p ∈ l -> exists fw fh rw rh, frame_minimum_size precision p cells = Ok (fw, fh) /\
        minimum_axis precision p true fw = Some (Ok rw) /\ minimum_axis precision p false fh = Some (Ok rh) /\
        (rw <= mw' /\ rh <= mh')%Z
  end.
Proof.
  intros Hprec. induction l as [|p l IH]; intros Hf mw mh; cbn [minimum_of_each].
  { split; [lia|]. by intros p ?%elem_of_nil. }
  apply Forall_cons in Hf as [Hp Hf]. destruct (frame_minimum_size precision p cells) as [[fw fh]|] eqn:E; cbn [run]; [|done].
  destruct (frame_minimum_u64 precision p cells fw fh Hprec Hp E) as (Hw & Hh & _).
  pose proof (minimum_axis_total precision Hprec p true fw Hp Hw) as T1. pose proof (minimum_axis_total precision Hprec p false fh Hp Hh) as T2.
  destruct (minimum_axis precision p true fw) as [[rw|]|] eqn:E1; cbn [run]; [|done|done].
  destruct (minimum_axis precision p false fh) as [[rh|]|] eqn:E2; cbn [run]; [|done|done].
  specialize (IH Hf (Z.max mw rw) (Z.max mh rh)). destruct (minimum_of_each _ _ _ _ _) as [[[mw' mh']|]|]; [|done..].
  destruct IH as [Hle Hall]. split; [lia|]. intros q [->|Hq]%elem_of_cons; [|by apply Hall].
  exists fw, fh, rw, rh. do 3 (split; [done|]). lia.
Qed.

Lemma elem_of_id_order (parsed : ParsedLayout) p : p ∈ in_id_order parsed <-> exists id, parsed !! id = Some p.
Proof.
  unfold in_id_order. rewrite list_elem_of_fmap. setoid_rewrite sorting.merge_sort_Permutation. split.
  - intros ([id q] & -> & Hq). exists id. by apply elem_of_map_to_list.
  - intros [id Hid]. exists (id, p). split; [done|]. by apply elem_of_map_to_list.
Qed.

(** A solved frame keeps its minimum on a screen of the minimum size. *)
Lemma frame_keeps_minimum precision w h cells p e mw mh fw fh rw rh : (64 <= precision)%Z -> parsed_ok p ->
  (0 < cell_width cells < 2 ^ 16)%Z /\ (0 < cell_height cells < 2 ^ 16)%Z ->
  character_minimum (get p MIN_WIDTH) = Ok mw -> character_minimum (get p MIN_HEIGHT) = Ok mh ->
  frame_minimum_size precision p cells = Ok (fw, fh) ->
  minimum_axis precision p true fw = Some (Ok rw) -> minimum_axis precision p false fh = Some (Ok rh) ->
  (rw <= w < 2 ^ 16)%Z -> (rh <= h < 2 ^ 16)%Z -> resolve_extent precision w h cells p = Ok e ->
  (mw <= frame_width e /\ mh <= frame_height e)%Z.
Proof.
  intros Hprec Hp Hc Emw Emh Ef Ew Eh Hw Hh E.
  destruct (frame_minimum_u64 precision p cells fw fh Hprec Hp Ef) as (Hfw & Hfh & _).
  destruct (axis_suffices precision Hprec p true fw rw w Hp Hfw Ew Hw) as (Hfw' & l & r & Eb & Hb & Hm).
  destruct (axis_suffices precision Hprec p false fh rh h Hp Hfh Eh Hh) as (Hfh' & t & b & Eb' & Hb' & Hm').
  unfold resolve_extent in E. rewrite Eb, Eb' in E. cbn [result_bind] in E.
  apply bind_ok in E as (m1 & E1 & E). apply bind_ok in E as (m2 & E2 & E). apply bind_ok in E as ([w' h'] & E3 & E). injection E as <-.
  cbn [frame_width frame_height]. specialize (Hm m1 (r - l)%Z E1 eq_refl). specialize (Hm' m2 (b - t)%Z E2 eq_refl).
  assert (Hwu : is_u64 w) by (width_lia). assert (Hhu : is_u64 h) by (width_lia).
  destruct (axis_bounds_ok precision Hprec p true w Hp Hwu) as (l0 & r0 & Eb0 & Hl0 & Hr0). rewrite Eb in Eb0. injection Eb0 as <- <-.
  destruct (axis_bounds_ok precision Hprec p false h Hp Hhu) as (t0 & b0 & Eb0 & Ht0 & Hb0). rewrite Eb' in Eb0. injection Eb0 as <- <-.
  eapply (aspect_keeps_minimum precision Hprec cells Hc p mw mh fw fh); [done|done|done| | |done| | |exact E3].
  - apply (character_minimum_u64 p _ _ Hp Emw).
  - apply (character_minimum_u64 p _ _ Hp Emh).
  - lia.
  - lia.
Qed.

(** ** Property *)

(** C9. For layouts of any history of additions and edits, and cells smaller than
    2^16 pixels: [compute_minimum_dimensions] always returns, and when it
    reports a size, then on any screen at least that large and below 2^16 cells
    each way (terminal and cell sizes are 16-bit, as in [winsize]) a computed
    layout gives every frame at least the width and the height that its minimums
    in characters declare, after margins, percentage maximums, aspect ratios and
    all rounding to at least 64 bits.  A minimum given as a percentage declares
    no number of cells and does not take part (layout.hpp, "Percentage minimums
    do not introduce an absolute minimum"). *)
Theorem minimum_dimensions_suffice {Frame : Type} precision k (d : LayoutDescription Frame) cells :
  (64 <= precision)%Z -> history precision k d -> (k < 2 ^ 64)%Z ->
  (0 < cell_width cells < 2 ^ 16)%Z -> (0 < cell_height cells < 2 ^ 16)%Z ->
  match compute_minimum_dimensions precision d cells with
  | None => False
  | Some (Err _) => True
  | Some (Ok (minimum_width, minimum_height)) =>
      forall w h layout d', (minimum_width <= w < 2 ^ 16)%Z -> (minimum_height <= h < 2 ^ 16)%Z ->
        compute_absolute_layout precision d w h cells = Some (Ok layout, d') ->
        forall id r l c n, frame_layouts layout !! id = Some r -> constraints d !! id = Some l -> c ∈ l ->
          constraint_unit c = CHARACTERS -> constraint_value c = SizeValue n ->
          (constraint_type c = MIN_WIDTH -> (n <= rect_width r)%Z) /\
          (constraint_type c = MIN_HEIGHT -> (n <= rect_height r)%Z)
  end.
Proof.
  intros Hp Hd Hk Hcw Hch. pose proof (history_inv precision Hp k d Hd Hk) as I. unfold compute_minimum_dimensions.
  destruct (Z.eqb_spec (cell_width cells) 0) as [|Hn1], (Z.eqb_spec (cell_height cells) 0) as [|Hn2]; try lia. cbn [orb].
  destruct (parse_layout (ids (z_buffer d)) (constraints d)) as [parsed|] eqn:Hparse; cbn [run]; [|done].
  pose proof (proj2 (parse_layout_spec _ _ _ Hparse) (di_wf _ _ _ I)) as Hok.
  assert (Hf : Forall parsed_ok (in_id_order parsed)).
  { apply Forall_forall. intros p [id Hid]%elem_of_id_order. by apply (Hok id). }
  pose proof (minimum_of_each_spec precision cells _ Hp Hf 0 0) as Hs.
  destruct (minimum_of_each _ _ _ _ _) as [[[mw mh]|]|]; [|done..]. destruct Hs as [Hpos Hall].
  intros w h layout d' Hw Hh E id r l c n Hr Hl Hc U V.
  assert (Hwu : is_u64 w) by width_lia. assert (Hhu : is_u64 h) by width_lia.
  assert (Hcwu : is_u64 (cell_width cells)) by width_lia. assert (Hchu : is_u64 (cell_height cells)) by width_lia.
  destruct (computed_ok precision k d w h cells layout d' Hp Hd Hk Hwu Hhu Hcwu Hchu E) as (parsed' & Hparse' & _ & Hcells & H1 & _ & _).
  rewrite Hparse in Hparse'. injection Hparse' as <-. rewrite H1 in Hr. case_decide as Hid; [|done].
  destruct (solve_bounds precision w h cells parsed _ id r Hp Hwu Hhu Hcells Hok Hr) as (p & e & Hpid & He & _ & _ & _ & Ew & Eh).
  pose proof (parse_layout_lookup _ _ _ _ _ Hparse Hpid) as Hpl. rewrite Hl in Hpl.
  pose proof (parse_constraints_get l p c Hpl Hc) as Hget. pose proof (Hok id p Hpid) as Hpok. cbn in Hpok.
  destruct (Hall p) as (fw & fh & rw & rh & Ef & Erw & Erh & Hrw & Hrh); [apply elem_of_id_order; by exists id|].
  destruct (frame_minimum_u64 precision p cells fw fh Hp Hpok Ef) as (_ & _ & mw0 & mh0 & Emw & Emh).
  destruct (frame_keeps_minimum precision w h cells p e mw0 mh0 fw fh rw rh Hp Hpok (conj Hcw Hch) Emw Emh Ef Erw Erh ltac:(lia) ltac:(lia) He) as [K1 K2].
  rewrite Ew, Eh. split; intros Ht; rewrite Ht in Hget; [rewrite Hget in Emw|rewrite Hget in Emh]; cbn in *; rewrite U, V in *; cbn in *.
  - by injection Emw as <-.
  - by injection Emh as <-.
Qed.

(** ** Witness *)

(** A body of at least thirty columns, half the screen at most, with visual
    ratio two to one inside a margin of a tenth of the screen. *)
Definition minimal_constraints : list Constraint :=
  [make_character_constraint MIN_WIDTH 30; make_percentage_constraint MAX_WIDTH half;
   make_ratio_constraint ASPECT_RATIO 2 1; make_percentage_constraint LEFT_MARGIN (Finite 13421773 (-27))].

Definition minimal_description : LayoutDescription nat :=
  snd (add_frame "body" (Some 1%nat) minimal_constraints make_layout_description).

Lemma minimal_history : history 64 0 minimal_description.
Proof.
  unfold minimal_description. apply history_add_frame; [|apply history_new]. repeat constructor; cbn; unfold in_width; lia.
Qed.

Example minimal_dimensions : compute_minimum_dimensions 64 minimal_description sample_cells = Some (Ok (60, 8)%Z).
Proof. vm_compute. reflexivity. Qed.

Definition minimal_layout : AbsoluteLayout :=
  match compute_absolute_layout 64 minimal_description 60 8 sample_cells with
  | Some (Ok layout, _) => layout
  | _ => empty_layout
  end.

Definition minimal_after : LayoutDescription nat :=
  match compute_absolute_layout 64 minimal_description 60 8 sample_cells with
  | Some (_, d) => d
  | None => minimal_description
  end.

Lemma minimum_dimensions_suffice_witness :
  frame_layouts minimal_layout !! "body"%string = Some {| rect_x := 6; rect_y := 0; rect_width := 30; rect_height := 7 |} /\
  (30 <= 30)%Z.
Proof.
  assert (E : frame_layouts minimal_layout !! "body"%string = Some {| rect_x := 6; rect_y := 0; rect_width := 30; rect_height := 7 |})
    by (vm_compute; reflexivity).
  split; [exact E|].
  pose proof (minimum_dimensions_suffice 64 0 minimal_description sample_cells (Z.le_refl 64) minimal_history eq_refl
    (conj eq_refl eq_refl) (conj eq_refl eq_refl)) as Hm. rewrite minimal_dimensions in Hm.
  refine (proj1 (Hm 60%Z 8%Z minimal_layout minimal_after ltac:(lia) ltac:(lia) _ "body"%string _ minimal_constraints
    (make_character_constraint MIN_WIDTH 30) 30%Z E _ _ _ _) _); [vm_compute; reflexivity|vm_compute; reflexivity|by left|reflexivity..].
Defined.
