(* ===== verification/Renderer.v ===== *)
(** * Concurrent drawing of frames (puc-cli/tui/rendering/renderer.cpp)

    [start] opens a canvas transaction and runs an execution graph with one
    node per frame, whose edges are the overlaps of the layout; the job of the
    last frame to finish publishes or cancels the transaction; [wait] collects
    the result. A frame is known by the writes that its [draw] performs; jobs
    advance in steps of one lock section or one stored cell, so writes of
    different frames interleave. Layout::draw (layout.cpp) is the sequential
    definition. *)
From S2P Require Import Prelude.
From S2P Require Import DependencyGraph.
From S2P Require Import Readiness.
From S2P Require Import ExecutionGraph.
From S2P Require Import Tui.
From S2P Require Import ZBuffer.
From S2P Require Import Canvas.
From S2P Require Import Layout.

(** ** Frames *)

(** What a call of [Frame::draw] does to its canvas: writes, each continued
    according to its status, then a result. *)
Inductive Drawing :=
| Drawn (result : Status)
| Writing (rect : Rect) (cells : list (list Cell)) (continue : Status -> Drawing).

Fixpoint run_drawing (d : Drawing) (c : Canvas) : Status * Canvas :=
  match d with
  | Drawn result => (result, c)
  | Writing rect cells continue => let (status, c) := write_cells rect cells c in run_drawing (continue status) c
  end.

(** What a frame may do: its theme, the canvas dimensions and its rectangle
    determine its writes. *)
Class FrameDraw (Frame Theme : Type) := draw : Frame -> Theme -> Z * Z -> Rect -> Drawing.

Section Renderer.
Context {Frame Theme : Type} `{FrameDraw Frame Theme}.

(** ** Layout::draw *)

Fixpoint draw_entries (entries : list (ZEntry Frame)) (layout : AbsoluteLayout) (theme : Theme) (c : Canvas)
  : Status * Canvas :=
  match entries with
  | [] => (OK, c)
  | entry :: entries =>
      match frame_layouts layout !! frame_id entry with
      | None => (FRAME_NOT_FOUND, c)
      | Some rect =>
          let (status, c) := run_drawing (draw (frame entry) theme (get_dimensions c) rect) c in
          if is_ok status then draw_entries entries layout theme c else (status, c)
      end
  end.

Definition layout_draw (description : option (LayoutDescription Frame)) (layout : AbsoluteLayout) (theme : Theme) (c : Canvas)
  : Status * Canvas :=
  match description with
  | None => (INVALID_ARGUMENT, c)
  | Some d => draw_entries (frames (z_buffer d)) layout theme c
  end.

(** ** RenderContext *)

(** The pointers a run reads, null between runs. *)
Record RenderInputs := {
  input_frames : list (ZEntry Frame);
  input_layout : AbsoluteLayout;
  input_theme : Theme;
}.

Record RenderContext := {
  inputs : option RenderInputs;
  context_status : Status;
  remaining_frames : Z;
  is_published : bool;
}.

Definition new_context : RenderContext :=
  {| inputs := None; context_status := OK; remaining_frames := 0; is_published := false |}.

Definition prepare (description : LayoutDescription Frame) (layout : AbsoluteLayout) (theme : Theme) (frame_count : nat)
  : RenderContext :=
  {| inputs := Some {| input_frames := frames (z_buffer description); input_layout := layout; input_theme := theme |};
     context_status := OK; remaining_frames := Z.of_nat frame_count; is_published := false |}.

Definition with_status (x : RenderContext) (status : Status) (published : bool) : RenderContext :=
  {| inputs := inputs x; context_status := status; remaining_frames := remaining_frames x; is_published := published |}.

(** The locked part of [finish_frame], and whether it goes on to publish. *)
Definition finish_frame (frame_status : Status) (x : RenderContext) : RenderContext * bool :=
  let status := if is_ok (context_status x) && negb (is_ok frame_status) then frame_status else context_status x in
  if (remaining_frames x =? 0)%Z
  then (with_status x (if is_ok status then ASYNC_DISPATCH_FAILED else status) (is_published x), false)
  else
    let remaining := (remaining_frames x - 1)%Z in
    ({| inputs := inputs x; context_status := status; remaining_frames := remaining; is_published := is_published x |},
     (remaining =? 0)%Z).

(** The second locked part of [publish]. *)
Definition record_transaction (transaction_status : Status) (x : RenderContext) : RenderContext :=
  with_status x (if is_ok (context_status x) then transaction_status else context_status x) true.

Definition cancel_after_graph_failure (x : RenderContext) (c : Canvas) : Status * RenderContext * Canvas :=
  let status := if is_ok (context_status x) then ASYNC_DISPATCH_FAILED else context_status x in
  let x' := with_status x status (is_published x) in
  (status, x', if is_published x then c else snd (cancel_frame c)).

Definition context_reset (x : RenderContext) : RenderContext :=
  {| inputs := None; context_status := context_status x; remaining_frames := 0; is_published := is_published x |}.

(** ** The jobs *)

(** A thread inside a job, by what it does next. *)
Inductive JobState :=
| Drawing_ (d : Drawing)
| Storing (pending : list (nat * Cell)) (d : Drawing)
| Finishing (frame_status : Status)
| Publishing
| Ending (aggregate : Status)
| Recording (transaction_status : Status)
| Returned.

(** [render] up to the call of [draw]; without inputs it would read a null
    pointer. *)
Definition render (frame_index : nat) (x : RenderContext) (c : Canvas) : option JobState :=
  i ← inputs x;
  Some match input_frames i !! frame_index with
       | None => Finishing FRAME_NOT_FOUND
       | Some entry =>
           match frame_layouts (input_layout i) !! frame_id entry with
           | None => Finishing FRAME_NOT_FOUND
           | Some rect => Drawing_ (draw (frame entry) (input_theme i) (get_dimensions c) rect)
           end
       end.

(** FrameRenderJob and PublishJob *)
Definition execute_job (frame_count node : nat) (x : RenderContext) (c : Canvas) : option JobState :=
  if (frame_count =? 0)%nat then Some Publishing else render node x c.

Definition job_step (j : JobState) (x : RenderContext) (c : Canvas) : option (JobState * RenderContext * Canvas) :=
  match j with
  | Drawing_ (Drawn result) => Some (Finishing result, x, c)
  | Drawing_ (Writing rect cells continue) =>
      let status := check_write c rect cells in
      Some (if is_ok status then Storing (write_stores (width c) rect cells) (continue OK) else Drawing_ (continue status), x, c)
  | Storing [] d => Some (Drawing_ d, x, c)
  | Storing (s :: pending) d => Some (Storing pending d, x, set_writable c (store (writable_buffer c) s))
  | Finishing frame_status =>
      let (x, publish_now) := finish_frame frame_status x in
      Some (if publish_now then Publishing else Returned, x, c)
  | Publishing => Some (Ending (context_status x), x, c)
  | Ending aggregate =>
      let (transaction_status, c) := if is_ok aggregate then end_frame c else cancel_frame c in
      Some (Recording transaction_status, x, c)
  | Recording transaction_status => Some (Returned, record_transaction transaction_status x, c)
  | Returned => None
  end.

(** ** ParallelRenderer *)

Record RenderTopology := {
  frame_count : nat;
  topology_dependencies : list FrameDependency;
}.

#[export] Instance RenderTopology_eq_dec : EqDecision RenderTopology.
Proof. solve_decision. Defined.

(** [Impl], with the threads of its graph, the jobs they are inside, and the
    canvas of the current or last batch. *)
Record ParallelRenderer := {
  pool : ExecutionGraph.World nat;
  jobs : gmap nat JobState;
  context : RenderContext;
  target : Canvas;
  render_topology : option RenderTopology;
  renderer_active : bool;
}.

Definition map_graph_status (status : DependencyGraph.Status) : Status :=
  if ExecutionGraph.is_ok status then OK
  else if bool_decide (status = DependencyGraph.INVALID_ARGUMENT) then INVALID_ARGUMENT
  else ASYNC_DISPATCH_FAILED.

Fixpoint add_nodes (indices : list nat) (g : ExecutionGraph.Impl nat) : DependencyGraph.Status * ExecutionGraph.Impl nat :=
  match indices with
  | [] => (DependencyGraph.OK, g)
  | index :: indices =>
      let (status, g) := ExecutionGraph.add index true g in
      if ExecutionGraph.is_ok status then add_nodes indices g else (status, g)
  end.

Fixpoint add_dependencies (count : nat) (dependencies : list FrameDependency) (g : ExecutionGraph.Impl nat)
  : Status * ExecutionGraph.Impl nat :=
  match dependencies with
  | [] => (OK, g)
  | d :: dependencies =>
      if (count <=? prerequisite d)%nat || (count <=? dependent d)%nat || (dependent d <=? prerequisite d)%nat
      then (INVALID_ARGUMENT, g)
      else
        let (status, g) := ExecutionGraph.depend (prerequisite d) (dependent d) g in
        if ExecutionGraph.is_ok status then add_dependencies count dependencies g else (map_graph_status status, g)
  end.

(** The graph that [prepare_graph] builds. *)
Definition build_graph (count : nat) (dependencies : list FrameDependency) : Status * ExecutionGraph.Impl nat :=
  let (status, g) := add_nodes (if (count =? 0)%nat then [0%nat] else seq 0 count) new_impl in
  if ExecutionGraph.is_ok status then add_dependencies count dependencies g else (map_graph_status status, g).

Definition with_pool (r : ParallelRenderer) (p : ExecutionGraph.World nat) : ParallelRenderer :=
  {| pool := p; jobs := jobs r; context := context r; target := target r; render_topology := render_topology r;
     renderer_active := renderer_active r |}.

Definition prepare_graph (count : nat) (dependencies : list FrameDependency) (r : ParallelRenderer) : Status * ParallelRenderer :=
  let wanted := {| frame_count := count; topology_dependencies := dependencies |} in
  if bool_decide (render_topology r = Some wanted) then (OK, r)
  else
    let (status, g) := build_graph count dependencies in
    if is_ok status then
      (OK, {| pool := {| graph := g; accepting := accepting (pool r); queue := []; tasks := []; log := [] |};
              jobs := jobs r; context := context r; target := target r; render_topology := Some wanted;
              renderer_active := renderer_active r |})
    else (status, r).

Definition with_run (r : ParallelRenderer) (p : ExecutionGraph.World nat) (j : gmap nat JobState) (x : RenderContext)
    (c : Canvas) (active : bool) : ParallelRenderer :=
  {| pool := p; jobs := j; context := x; target := c; render_topology := render_topology r; renderer_active := active |}.

(** The checks of [start] on the layout. *)
Definition check_layout (entries : list (ZEntry Frame)) (layout : AbsoluteLayout) : bool :=
  bool_decide (base.size (frame_layouts layout) = length entries) &&
  forallb (fun entry => bool_decide (is_Some (frame_layouts layout !! frame_id entry))) entries.

Definition start (description : option (LayoutDescription Frame)) (layout : AbsoluteLayout) (theme : Theme)
    (canvas : option Canvas) (base_cell : option Cell) (r : ParallelRenderer) : Status * ParallelRenderer :=
  if renderer_active r then (FRAME_ALREADY_IN_PROGRESS, r)
  else
    match accepting (pool r), description, canvas with
    | true, Some d, Some c =>
        let entries := frames (z_buffer d) in
        if negb (check_layout entries layout) then (FRAME_NOT_FOUND, r)
        else
          let (status, r) := prepare_graph (length entries) (frame_dependencies layout) r in
          if negb (is_ok status) then (status, r)
          else
            let (status, c) := begin_frame c in
            if negb (is_ok status) then (status, with_run r (pool r) (jobs r) (context r) c false)
            else
              let (status, c) := match base_cell with Some cell => clear cell c | None => (OK, c) end in
              if negb (is_ok status) then (status, with_run r (pool r) (jobs r) (context r) (snd (cancel_frame c)) false)
              else
                let x := prepare d layout theme (length entries) in
                let graph_status := fst (fst (ExecutionGraph.start (accepting (pool r)) (graph (pool r)))) in
                let p := default (pool r) (ExecutionGraph.choose (pool r) Start) in
                if ExecutionGraph.is_ok graph_status then (OK, with_run r p ∅ x c true)
                else
                  let '(_, x, c) := cancel_after_graph_failure x c in
                  (map_graph_status graph_status, with_run r p (jobs r) (context_reset x) c false)
    | _, _, _ => (INVALID_ARGUMENT, r)
    end.

(** [wait]; [None] blocks. *)
Definition wait (r : ParallelRenderer) : option (Status * ParallelRenderer) :=
  if negb (renderer_active r) then Some (OK, r)
  else
    '(graph_status, g) ← ExecutionGraph.wait (graph (pool r));
    let p := with_graph (pool r) g in
    let '(status, x, c) :=
      if ExecutionGraph.is_ok graph_status then (context_status (context r), context r, target r)
      else cancel_after_graph_failure (context r) (target r) in
    Some (status, with_run r p (jobs r) (context_reset x) c false).

(** ** The worker threads *)

Inductive RenderStep :=
| Schedule (choice : ExecutionGraph.Choice nat)
| Work (thread : nat).

(** The graph is private: only its threads and the owner of the workers act
    on it between [start] and [wait]. *)
Definition schedulable (choice : ExecutionGraph.Choice nat) : bool :=
  match choice with Advance _ | Take | Shutdown => true | _ => false end.

(** A thread leaves its job when the job has returned. *)
Definition job_allows (r : ParallelRenderer) (choice : ExecutionGraph.Choice nat) : bool :=
  match choice with
  | Advance thread =>
      match tasks (pool r) !! thread with
      | Some (Executing _ node) => match jobs r !! node with Some Returned => true | _ => false end
      | _ => true
      end
  | _ => true
  end.

(** The node whose job a scheduling step calls. *)
Definition called (r : ParallelRenderer) (choice : ExecutionGraph.Choice nat) : option nat :=
  match choice with
  | Advance thread =>
      match tasks (pool r) !! thread with
      | Some (Checking run node) =>
          if current (graph (pool r)) run && (node <? length (impl_nodes (graph (pool r))))%nat then Some node else None
      | _ => None
      end
  | _ => None
  end.

Definition render_step (r : ParallelRenderer) (s : RenderStep) : option ParallelRenderer :=
  match s with
  | Schedule choice =>
      if schedulable choice && job_allows r choice then
        p ← ExecutionGraph.choose (pool r) choice;
        match called r choice with
        | None => Some (with_pool r p)
        | Some node =>
            t ← render_topology r;
            j ← execute_job (frame_count t) node (context r) (target r);
            Some (with_run r p (<[node := j]> (jobs r)) (context r) (target r) (renderer_active r))
        end
      else None
  | Work thread =>
      match tasks (pool r) !! thread with
      | Some (Executing _ node) =>
          j ← jobs r !! node;
          '(j, x, c) ← job_step j (context r) (target r);
          Some (with_run r (pool r) (<[node := j]> (jobs r)) x c (renderer_active r))
      | _ => None
      end
  end.

Fixpoint render_steps (r : ParallelRenderer) (steps : list RenderStep) : option ParallelRenderer :=
  match steps with
  | [] => Some r
  | s :: steps => r ← render_step r s; render_steps r steps
  end.

Definition new_renderer (c : Canvas) : ParallelRenderer :=
  {| pool := new_world; jobs := ∅; context := new_context; target := c; render_topology := None; renderer_active := false |}.

End Renderer.
