(* ===== verification/RenderRuns.v ===== *)
(** * Histories of a batch

    What the jobs of one batch store in the canvas under every interleaving:
    the stores of each frame in its own order, and at every cell the stores of
    the frames further back first. *)
From S2P Require Import Prelude.
From S2P Require Import DependencyGraph.
From S2P Require Import Readiness.
From S2P Require Import ExecutionGraph.
From S2P Require Import GraphRuns.
From S2P Require Import GraphProps.
From S2P Require Import GraphJobs.
From S2P Require Import Tui.
From S2P Require Import ZBuffer.
From S2P Require Import Canvas.
From S2P Require Import Layout.
From S2P Require Import LayoutProps.
From S2P Require Import Renderer.
From Stdlib Require Import Sorted.

(** ** Drawings as stores *)

(** The stores of a drawing on a canvas like [c], and its result. *)
Fixpoint stores_of (c : Canvas) (d : Drawing) : list (nat * Cell) * Status :=
  match d with
  | Drawn result => ([], result)
  | Writing rect cells continue =>
      let status := check_write c rect cells in
      let (rest, result) := stores_of c (continue status) in
      ((if is_ok status then write_stores (width c) rect cells else []) ++ rest, result)
  end.

Lemma set_writable_twice c b b' : set_writable (set_writable c b) b' = set_writable c b'.
Proof. unfold set_writable. cbn. by destruct (buffer_state c). Qed.

Lemma set_writable_same c : set_writable c (writable_buffer c) = c.
Proof. unfold set_writable, writable_buffer. destruct c as [a b s]. cbn. by destruct s. Qed.

Lemma stores_of_set c b d : stores_of (set_writable c b) d = stores_of c d.
Proof. induction d as [|rect cells continue IH]; [done|]. cbn. by rewrite IH. Qed.

(** A canvas after some stores. *)
Definition stored (c : Canvas) (s : list (nat * Cell)) : Canvas := set_writable c (apply_stores s (writable_buffer c)).

Lemma stored_app c s1 s2 : stored (stored c s1) s2 = stored c (s1 ++ s2).
Proof. unfold stored. rewrite set_writable_twice, apply_stores_app. by destruct (set_writable_views c (apply_stores s1 (writable_buffer c))) as [_ ->]. Qed.

Lemma stored_nil c : stored c [] = c.
Proof. apply set_writable_same. Qed.

Lemma stored_one c s x : set_writable (stored c s) (store (writable_buffer (stored c s)) x) = stored c (s ++ [x]).
Proof. by rewrite <- stored_app. Qed.

Lemma stores_of_stored c s d : stores_of (stored c s) d = stores_of c d.
Proof. apply stores_of_set. Qed.

Lemma run_drawing_stores d : forall c, run_drawing d c = (snd (stores_of c d), stored c (fst (stores_of c d))).
Proof.
  induction d as [result|rect cells continue IH]; intros c; [by rewrite stored_nil|]. cbn [run_drawing stores_of].
  unfold write_cells. destruct (is_ok (check_write c rect cells)) eqn:E.
  - apply bool_decide_eq_true in E. rewrite E. rewrite IH. change (set_writable c ?b) with (stored c (write_stores (width c) rect cells)).
    rewrite stores_of_stored. destruct (stores_of c (continue OK)) as [rest result]. cbn [fst snd]. by rewrite stored_app.
  - rewrite IH. by destruct (stores_of c _) as [rest result].
Qed.

(** ** Drawings inside a rectangle *)

Definition sub_rect (inner outer : Rect) : Prop :=
  (rect_x outer <= rect_x inner /\ rect_x inner + rect_width inner <= rect_x outer + rect_width outer /\
   rect_y outer <= rect_y inner /\ rect_y inner + rect_height inner <= rect_y outer + rect_height outer)%Z.

Fixpoint draws_within (r : Rect) (d : Drawing) : Prop :=
  match d with
  | Drawn _ => True
  | Writing rect _ continue => rect_u64 rect /\ sub_rect rect r /\ forall status, draws_within r (continue status)
  end.

(** A frame writes only inside the rectangle it is given (frame.hpp). *)
Class FrameContract (Frame Theme : Type) `{FrameDraw Frame Theme} :=
  draws_inside f theme dimensions r : rect_u64 r -> draws_within r (draw f theme dimensions r).

(** Cell [k] of a canvas lies in the rectangle. *)
Definition cell_in (c : Canvas) (r : Rect) (k : nat) : Prop :=
  (0 < width c)%Z /\ covers r (Z.of_nat k mod width c) (Z.of_nat k / width c).

Lemma row_stores_inside at_ row s : s ∈ row_stores at_ row -> (at_ <= s.1 < at_ + length row)%nat.
Proof.
  intros Hs. apply (list_elem_of_fmap_2 fst) in Hs. rewrite row_stores_indices in Hs. by apply elem_of_seq in Hs.
Qed.

Lemma write_stores_inside c rect cells r s : canvas_inv c -> rect_u64 rect -> sub_rect rect r ->
  check_write c rect cells = OK -> s ∈ write_stores (width c) rect cells -> cell_in c r s.1.
Proof.
  intros I Hu Hsub Hok Hs. rewrite write_stores_exact in Hs by done. apply check_write_ok in Hok.
  destruct Hok as (_ & [Hx Hy] & [Hw Hh] & Hl & Hf). destruct Hu as (Ux & Uy & Uw & Uh). pose proof (ci_width _ I) as Hcw.
  apply list_elem_of_In, in_concat in Hs as (row & Hrow & Hs). apply list_elem_of_In in Hrow, Hs.
  apply elem_of_lookup_imap in Hrow as (m & line & -> & Hline). apply row_stores_inside in Hs.
  rewrite Forall_forall in Hf. pose proof (Hf line (list_elem_of_lookup_2 _ _ _ Hline)) as Hlen. cbn in Hlen.
  apply lookup_lt_Some in Hline.
  set (y := (rect_y rect + Z.of_nat m)%Z). set (x := (Z.of_nat s.1 - y * width c)%Z).
  assert (Hxb : (rect_x rect <= x < rect_x rect + rect_width rect)%Z).
  { unfold x, y. assert (E : Z.of_nat ((Z.to_nat (rect_y rect) + m) * Z.to_nat (width c) + Z.to_nat (rect_x rect)) =
      ((rect_y rect + Z.of_nat m) * width c + rect_x rect)%Z) by (rewrite Nat2Z.inj_add, Nat2Z.inj_mul, Nat2Z.inj_add, !Z2Nat.id by width_lia; done).
    lia. }
  assert (Ek : Z.of_nat s.1 = (y * width c + x)%Z) by (unfold x; lia).
  assert (Hpos : (0 < width c)%Z) by width_lia.
  assert (Ed : (Z.of_nat s.1 / width c = y)%Z) by (symmetry; apply (Z.div_unique _ _ _ x); width_lia).
  assert (Em : (Z.of_nat s.1 mod width c = x)%Z) by (symmetry; apply (Z.mod_unique _ _ y); width_lia).
  split; [done|]. rewrite Ed, Em. unfold covers, y. destruct Hsub as (? & ? & ? & ?). lia.
Qed.

Lemma stores_inside c r d : canvas_inv c -> draws_within r d -> Forall (fun s => cell_in c r s.1) (fst (stores_of c d)).
Proof.
  intros I. induction d as [|rect cells continue IH]; [constructor|]. cbn [draws_within stores_of]. intros (Hu & Hsub & Hc).
  specialize (IH _ (Hc (check_write c rect cells))). destruct (stores_of c _) as [rest result]. cbn [fst] in *.
  apply Forall_app. split; [|done]. destruct (is_ok _) eqn:E; [|constructor]. apply bool_decide_eq_true in E.
  apply Forall_forall. intros s. by apply write_stores_inside.
Qed.

(** ** Interleavings *)

(** A trace lists the performed stores with the frames that performed them. *)
Abbreviation Trace := (list (nat * (nat * Cell))).

Definition stores_by (i : nat) (tr : Trace) : list (nat * Cell) := omap (fun e => if (e.1 =? i)%nat then Some e.2 else None) tr.

(** What was stored at cell [k], by whom. *)
Definition stores_on (k : nat) (tr : Trace) : list (nat * Cell) :=
  omap (fun e => if (e.2.1 =? k)%nat then Some (e.1, e.2.2) else None) tr.

Definition back_first (l : list (nat * Cell)) : Prop := StronglySorted (fun a b => (a.1 <= b.1)%nat) l.

Lemma stores_by_app i t1 t2 : stores_by i (t1 ++ t2) = stores_by i t1 ++ stores_by i t2.
Proof. apply omap_app. Qed.
Lemma stores_on_app k t1 t2 : stores_on k (t1 ++ t2) = stores_on k t1 ++ stores_on k t2.
Proof. apply omap_app. Qed.

Definition cells_by (i : nat) (l : list (nat * Cell)) : list Cell := omap (fun e => if (e.1 =? i)%nat then Some e.2 else None) l.

Lemma stores_at_by k i tr : stores_at k (stores_by i tr) = cells_by i (stores_on k tr).
Proof.
  induction tr as [|[j [m cell]] tr IH]; [done|]. unfold stores_by, stores_on, stores_at, cells_by in *. cbn.
  destruct (j =? i)%nat eqn:Ei, (m =? k)%nat eqn:Ek; cbn; rewrite ?Ei, ?Ek; cbn; by rewrite ?IH.
Qed.

Lemma stores_at_trace k tr : stores_at k (map snd tr) = map snd (stores_on k tr).
Proof.
  induction tr as [|[j [m cell]] tr IH]; [done|]. unfold stores_on, stores_at in *. cbn.
  destruct (Nat.eqb_spec m k); cbn; by rewrite IH.
Qed.

Lemma stores_at_concat k ls : stores_at k (concat ls) = concat (map (stores_at k) ls).
Proof. induction ls as [|l ls IH]; [done|]. cbn [concat map]. by rewrite stores_at_app, IH. Qed.

Lemma cells_by_none i l : Forall (fun e => (i < e.1)%nat) l -> cells_by i l = [].
Proof.
  induction 1 as [|e l He _ IH]; [done|]. unfold cells_by in *. cbn. by destruct (Nat.eqb_spec e.1 i); [lia|].
Qed.

(** The part of a sorted list at its least key comes first. *)
Lemma split_least m l : back_first l -> Forall (fun e => (m <= e.1)%nat) l ->
  exists rest, map snd l = cells_by m l ++ map snd rest /\ back_first rest /\
    Forall (fun e => (m < e.1)%nat /\ e ∈ l) rest /\ forall i, (m < i)%nat -> cells_by i l = cells_by i rest.
Proof.
  intros Hs. induction Hs as [|e l Hs IH Hle]; intros Hm; [exists []; split_and!; [done|constructor|constructor|done]|].
  apply Forall_cons in Hm as [He Hm].
  destruct (Nat.eq_dec e.1 m) as [E|E].
  - destruct (IH Hm) as (rest & H1 & H2 & H3 & H4). exists rest. split.
    + unfold cells_by at 1. cbn. rewrite E, Nat.eqb_refl. cbn. by rewrite H1.
    + split; [done|]. split.
      * eapply Forall_impl; [exact H3|]. cbn. intros x [? ?]. split; [done|]. apply elem_of_cons. by right.
      * intros i Hi. unfold cells_by at 1. cbn. destruct (Nat.eqb_spec e.1 i); [lia|]. by apply H4.
  - assert (Hall : Forall (fun x => (m < x.1)%nat) (e :: l)).
    { constructor; [lia|]. eapply Forall_impl; [exact Hle|]. cbn. lia. }
    exists (e :: l). split; [by rewrite cells_by_none|]. split; [by constructor|]. split; [|done].
    rewrite Forall_forall in Hall |- *. auto.
Qed.

Lemma sorted_concat n : forall m l, back_first l -> Forall (fun e => (m <= e.1 < m + n)%nat) l ->
  map snd l = concat (map (fun i => cells_by i l) (seq m n)).
Proof.
  induction n as [|n IH]; intros m l Hs Hb.
  - destruct l as [|e l]; [done|]. apply Forall_cons in Hb as [? _]. lia.
  - destruct (split_least m l Hs) as (rest & -> & H2 & H3 & H4); [eapply Forall_impl; [exact Hb|]; cbn; lia|].
    cbn [seq map concat]. f_equal. rewrite (IH (S m) rest H2).
    + f_equal. apply map_ext_in. intros i Hi%in_seq. symmetry. apply H4. lia.
    + rewrite Forall_forall in Hb, H3 |- *. intros x Hx. destruct (H3 x Hx) as [? Hin]. specialize (Hb x Hin). lia.
Qed.

Lemma stores_on_bound k tr n : Forall (fun e => (e.1 < n)%nat) tr -> Forall (fun e => (e.1 < n)%nat) (stores_on k tr).
Proof.
  induction 1 as [|e tr He _ IH]; [constructor|]. unfold stores_on in *. cbn. destruct (_ =? k)%nat; [by constructor|done].
Qed.

(** Stores that reach every cell in the order of the frames have the effect
    of the frames drawn one after the other. *)
Lemma interleaving_sequential tr n buffer : (forall k, back_first (stores_on k tr)) -> Forall (fun e => (e.1 < n)%nat) tr ->
  apply_stores (map snd tr) buffer = apply_stores (concat (map (fun i => stores_by i tr) (seq 0 n))) buffer.
Proof.
  intros Hs Hb. apply apply_stores_pointwise. intros k. rewrite stores_at_trace, stores_at_concat, map_map.
  rewrite (sorted_concat n 0 (stores_on k tr)).
  - f_equal. apply map_ext. intros i. symmetry. apply stores_at_by.
  - apply Hs.
  - eapply Forall_impl; [by apply stores_on_bound|]. cbn. lia.
Qed.

Lemma stores_on_elem k tr e : e ∈ stores_on k tr -> (e.1, (k, e.2)) ∈ tr.
Proof.
  unfold stores_on. intros H. apply list_elem_of_omap in H as ([j [m cell]] & Hin & E). cbn in E.
  destruct (Nat.eqb_spec m k); [|done]. by injection E as <-; subst.
Qed.

Lemma back_first_snoc l e : back_first l -> Forall (fun x => (x.1 <= e.1)%nat) l -> back_first (l ++ [e]).
Proof.
  induction 1 as [|x l Hs IH Hx]; intros Hf; [by repeat constructor|]. apply Forall_cons in Hf as [Hxe Hf].
  cbn. constructor; [by apply IH|]. apply Forall_app. split; [done|by constructor].
Qed.

(** One more store keeps the order when no frame in front has stored there. *)
Lemma trace_snoc tr i s : (forall k, back_first (stores_on k tr)) ->
  (forall j cell, (j, (s.1, cell)) ∈ tr -> (j <= i)%nat) -> forall k, back_first (stores_on k (tr ++ [(i, s)])).
Proof.
  intros Hs Hf k. rewrite stores_on_app. unfold stores_on at 2. cbn. destruct (Nat.eqb_spec s.1 k) as [<-|]; cbn.
  - apply back_first_snoc; [done|]. apply Forall_forall. intros x Hx%stores_on_elem. cbn. by apply (Hf _ x.2).
  - by rewrite app_nil_r.
Qed.

(** ** The graph of a batch *)

Record idle_graph (g : ExecutionGraph.Impl nat) : Prop := {
  ig_wf : graph_wf (topology g);
  ig_length : length (impl_nodes g) = length (nodes (topology g));
  ig_state : state g = IDLE;
  ig_generation : generation g = 0%Z;
  ig_status : run_status g = DependencyGraph.OK;
}.

Lemma idle_graph_inv g acc : idle_graph g -> graph_inv 0 {| graph := g; accepting := acc; queue := []; tasks := []; log := [] |}.
Proof. intros []. split; cbn; try done. lia. Qed.

Lemma add_nodes_spec count : forall m g, idle_graph g -> nodes (topology g) = seq 0 m -> (forall i j, ~ edge (topology g) i j) ->
  exists g', add_nodes (seq m count) g = (DependencyGraph.OK, g') /\ idle_graph g' /\
    nodes (topology g') = seq 0 (m + count) /\ (forall i j, ~ edge (topology g') i j).
Proof.
  induction count as [|count IH]; intros m g I Hn He; cbn [seq add_nodes]; [exists g; by rewrite Nat.add_0_r|].
  unfold add. rewrite (ig_state _ I), (bool_decide_eq_true_2 (IDLE = IDLE)) by done. cbn [negb].
  assert (Hnew : ~ is_Some (node_indices (topology g) !! m)).
  { intros [i Hi]. apply (wf_indices _ (ig_wf _ I)) in Hi. rewrite Hn in Hi. apply lookup_seq in Hi. lia. }
  pose proof (add_node_wf m _ (ig_wf _ I)) as Hw. pose proof (outgoing_add_node (topology g) m) as Hout.
  unfold add_node in *. rewrite bool_decide_eq_false_2 in * by done. cbn [snd] in *.
  set (t := {| nodes := _ |}) in *. set (g' := with_topology g t (impl_nodes g ++
    [{| node_dependents := []; node_dependency_count := 0; node_remaining_dependencies := 0 |}])).
  destruct (IH (S m) g') as (g'' & E & I' & Hn' & He').
  - split; try apply I; [done|]. cbn. rewrite !length_app, (ig_length _ I). cbn. lia.
  - cbn. by rewrite Hn, <- seq_S.
  - intros i j. unfold edge. cbn [g' with_topology topology]. rewrite Hout by apply I. apply He.
  - exists g''. split; [exact E|]. split; [done|]. split; [|done]. rewrite Hn'. f_equal. lia.
Qed.

Lemma depend_spec x y n g g' : idle_graph g -> nodes (topology g) = seq 0 n -> depend x y g = (DependencyGraph.OK, g') ->
  idle_graph g' /\ nodes (topology g') = seq 0 n /\ (x < n)%nat /\ (y < n)%nat /\
  forall i j, edge (topology g') i j <-> edge (topology g) i j \/ (i = x /\ j = y).
Proof.
  intros I Hn E. unfold depend in E. rewrite (ig_state _ I), (bool_decide_eq_true_2 (IDLE = IDLE)) in E by done. cbn [negb] in E.
  pose proof (add_dependency_wf x y _ (ig_wf _ I)) as Hw.
  destruct (add_dependency x y (topology g)) as [status t] eqn:Ea. injection E as -> <-.
  destruct (add_dependency_ok _ _ _ _ (ig_wf _ I) Ea) as (from & to & Hf & Ht & _ & Hn' & _ & _ & Hout & _).
  pose proof (add_dependency_edges x y _ _ from to Hf Ht Hout) as He.
  rewrite Hn in Hf, Ht. apply lookup_seq in Hf as [-> Hf], Ht as [-> Ht].
  split; [split; cbn; try apply I; [done|by rewrite Hn'; apply I]|]. cbn. rewrite Hn'. split; [done|]. split; [lia|]. split; [lia|]. done.
Qed.

Lemma add_dependencies_spec count n deps : forall g g', add_dependencies count deps g = (OK, g') -> idle_graph g ->
  nodes (topology g) = seq 0 n -> idle_graph g' /\ nodes (topology g') = seq 0 n /\
  forall i j, edge (topology g') i j <-> edge (topology g) i j \/ {| prerequisite := i; dependent := j |} ∈ deps.
Proof.
  induction deps as [|d deps IH]; intros g g' E I Hn; cbn [add_dependencies] in E.
  - injection E as <-. split; [done|]. split; [done|]. intros i j. rewrite elem_of_nil. tauto.
  - destruct (_ || _); [done|]. destruct (depend (prerequisite d) (dependent d) g) as [status g1] eqn:Ed.
    destruct (ExecutionGraph.is_ok status) eqn:Es.
    2:{ unfold map_graph_status in E. rewrite Es in E. by destruct (bool_decide _). }
    apply graph_is_ok_spec in Es as ->. destruct (depend_spec _ _ _ _ _ I Hn Ed) as (I1 & Hn1 & _ & _ & He1).
    destruct (IH _ _ E I1 Hn1) as (I2 & Hn2 & He2). split; [done|]. split; [done|]. intros i j. rewrite He2, He1, elem_of_cons.
    destruct d as [p q]. cbn. split; [intros [[?|[-> ->]]|?]; auto|]. intros [?|[[= -> ->]|?]]; auto.
Qed.

Definition node_count (count : nat) : nat := Nat.max 1 count.

(** The nodes of the graph are the frames and its edges their overlaps. *)
Lemma build_graph_spec count deps g : build_graph count deps = (OK, g) ->
  idle_graph g /\ nodes (topology g) = seq 0 (node_count count) /\
  forall i j, edge (topology g) i j <-> {| prerequisite := i; dependent := j |} ∈ deps.
Proof.
  unfold build_graph. intros E.
  assert (I0 : idle_graph new_impl) by (split; try done; apply empty_graph_wf).
  destruct (add_nodes_spec (node_count count) 0 new_impl I0 eq_refl) as (g1 & E1 & I1 & Hn1 & He1).
  { intros i j. unfold edge, outgoing. cbn. by intros ?%elem_of_nil. }
  assert (Es : (if (count =? 0)%nat then [0%nat] else seq 0 count) = seq 0 (node_count count)) by (unfold node_count; by destruct count).
  rewrite Es, E1, (proj2 (graph_is_ok_spec _)) in E by done.
  destruct (add_dependencies_spec _ _ _ _ _ E I1 Hn1) as (I2 & Hn2 & He2). split; [done|]. split; [done|].
  intros i j. rewrite He2. split; [|by right]. intros [He|?]; [by apply He1 in He|done].
Qed.

(** ** A batch *)

Section Batch.
Context {Frame Theme : Type} `{FrameContract Frame Theme}.
Implicit Types (r : ParallelRenderer (Frame := Frame) (Theme := Theme)) (tr : Trace).

(** The inputs of a batch, with its canvas as frames first see it. *)
Record Batch := {
  b_frames : list (ZEntry Frame);
  b_layout : AbsoluteLayout;
  b_theme : Theme;
  b_canvas : Canvas;
}.

Implicit Types (b : Batch).

Definition rect_of b (i : nat) : option Rect := entry ← b_frames b !! i; frame_layouts (b_layout b) !! frame_id entry.

Definition program b (i : nat) : Drawing :=
  match b_frames b !! i with
  | None => Drawn FRAME_NOT_FOUND
  | Some entry =>
      match frame_layouts (b_layout b) !! frame_id entry with
      | None => Drawn FRAME_NOT_FOUND
      | Some rect => draw (frame entry) (b_theme b) (get_dimensions (b_canvas b)) rect
      end
  end.

Definition frame_stores b (i : nat) : list (nat * Cell) := fst (stores_of (b_canvas b) (program b i)).
Definition frame_result b (i : nat) : Status := snd (stores_of (b_canvas b) (program b i)).

(** The layout gives every frame a rectangle and orders those that overlap. *)
Record batch_ok b : Prop := {
  bo_canvas : canvas_inv (b_canvas b);
  bo_progress : frame_in_progress (b_canvas b) = true;
  bo_rects : forall i, (i < length (b_frames b))%nat -> exists rect, rect_of b i = Some rect /\ rect_u64 rect;
  bo_ordered : forall i j ri rj, (i < j)%nat -> rect_of b i = Some ri -> rect_of b j = Some rj ->
    (exists x y, covers ri x y /\ covers rj x y) ->
    {| prerequisite := i; dependent := j |} ∈ frame_dependencies (b_layout b);
}.

Lemma program_within b i rect : batch_ok b -> rect_of b i = Some rect -> draws_within rect (program b i).
Proof.
  intros B Hr. assert (Hu : rect_u64 rect).
  { destruct (decide (i < length (b_frames b))%nat) as [Hi|Hi].
    - destruct (bo_rects _ B i Hi) as (rect' & Hr' & Hu). congruence.
    - unfold rect_of in Hr. by rewrite lookup_ge_None_2 in Hr by lia. }
  unfold rect_of, program in *. destruct (b_frames b !! i) as [e|]; [|done]. cbn in Hr. rewrite Hr. by apply draws_inside.
Qed.

(** Frames that store in the same cell are ordered. *)
Lemma stores_ordered b i j s s' : batch_ok b -> (i < j)%nat -> (j < length (b_frames b))%nat ->
  s ∈ frame_stores b i -> s' ∈ frame_stores b j -> s.1 = s'.1 ->
  {| prerequisite := i; dependent := j |} ∈ frame_dependencies (b_layout b).
Proof.
  intros B Hij Hj Hs Hs' E. destruct (bo_rects _ B i ltac:(lia)) as (ri & Hri & _), (bo_rects _ B j Hj) as (rj & Hrj & _).
  apply (bo_ordered _ B i j ri rj Hij Hri Hrj).
  pose proof (stores_inside _ _ _ (bo_canvas _ B) (program_within _ _ _ B Hri)) as Hi.
  pose proof (stores_inside _ _ _ (bo_canvas _ B) (program_within _ _ _ B Hrj)) as Hj'.
  rewrite Forall_forall in Hi, Hj'. destruct (Hi _ Hs) as [_ Hi'], (Hj' _ Hs') as [_ Hj'']. rewrite <- E in Hj''. eauto.
Qed.

(** ** Jobs *)

Definition finished (j : JobState) : bool :=
  match j with Drawing_ _ | Storing _ _ | Finishing _ => false | _ => true end.
Definition closing (j : JobState) : bool := match j with Publishing | Ending _ | Recording _ => true | _ => false end.

(** The stores a job has left, and the result it will report. *)
Definition job_todo (c : Canvas) (j : JobState) : list (nat * Cell) :=
  match j with
  | Drawing_ d => fst (stores_of c d)
  | Storing pending d => pending ++ fst (stores_of c d)
  | _ => []
  end.

Definition job_result (c : Canvas) (j : JobState) : option Status :=
  match j with
  | Drawing_ d | Storing _ d => Some (snd (stores_of c d))
  | Finishing s => Some s
  | _ => None
  end.

Definition finished_set (jobs : gmap nat JobState) : gset nat := dom (filter (fun p => finished p.2 = true) jobs).

Lemma elem_finished jobs i : i ∈ finished_set jobs <-> exists j, jobs !! i = Some j /\ finished j = true.
Proof.
  unfold finished_set. rewrite elem_of_dom. split.
  - intros [j Hj]. apply map_lookup_filter_Some in Hj. by exists j.
  - intros (j & Hj & Hf). exists j. by apply map_lookup_filter_Some.
Qed.

Lemma finished_insert jobs i j : finished_set (<[i := j]> jobs) =
  if finished j then {[i]} ∪ finished_set jobs else finished_set jobs ∖ {[i]}.
Proof.
  apply set_eq. intros x. rewrite elem_finished. setoid_rewrite lookup_insert_Some.
  destruct (finished j) eqn:Hj; rewrite ?elem_of_union, ?elem_of_difference, elem_of_singleton, elem_finished.
  - split.
    + intros (j' & [[-> ->]|[Hn Hx]] & Hf); [by left|right; eauto].
    + intros [->|(j' & Hx & Hf)]; [by exists j; split; [left|]|].
      destruct (decide (i = x)) as [->|]; [by exists j; split; [left|]|]. exists j'. split; [by right|done].
  - split.
    + intros (j' & [[-> ->]|[Hn Hx]] & Hf); [congruence|]. split; [eauto|done].
    + intros [(j' & Hx & Hf) Hn]. exists j'. split; [by right|done].
Qed.

Lemma finished_keeps jobs i j j' : jobs !! i = Some j -> finished j = finished j' -> finished_set (<[i := j']> jobs) = finished_set jobs.
Proof.
  intros Hj E. rewrite finished_insert. apply set_eq. intros x. destruct (finished j') eqn:Hf.
  - rewrite elem_of_union, elem_of_singleton. split; [|by right]. intros [->|?]; [|done]. apply elem_finished. by exists j.
  - rewrite elem_of_difference, elem_of_singleton. split; [by intros [? _]|]. intros Hx. split; [done|].
    intros ->. apply elem_finished in Hx as (j0 & Hx & ?). congruence.
Qed.

Lemma finished_adds jobs i j' : (forall j, jobs !! i = Some j -> finished j = false) -> finished j' = true ->
  base.size (finished_set (<[i := j']> jobs)) = S (base.size (finished_set jobs)).
Proof.
  intros Hj Hf. rewrite finished_insert, Hf, size_union, size_singleton; [done|].
  intros x. rewrite elem_of_singleton. intros -> (j & E & Hx)%elem_finished. apply Hj in E. congruence.
Qed.

Lemma finished_unchanged jobs i j' : jobs !! i = None -> finished j' = false -> finished_set (<[i := j']> jobs) = finished_set jobs.
Proof.
  intros Hj Hf. rewrite finished_insert, Hf. apply set_eq. intros x. rewrite elem_of_difference, elem_of_singleton.
  split; [by intros [? _]|]. intros Hx. split; [done|]. intros ->. apply elem_finished in Hx as (j & E & _). congruence.
Qed.

(** Jobs below [m] only: all of them are finished as soon as [m] are. *)
Lemma finished_bound jobs m : (forall i, is_Some (jobs !! i) -> (i < m)%nat) -> (base.size (finished_set jobs) <= m)%nat.
Proof.
  intros Hb. rewrite <- (size_set_seq (C := gset nat) 0 m). apply subseteq_size. intros x (j & Hj & _)%elem_finished.
  apply elem_of_set_seq. specialize (Hb x). rewrite Hj in Hb. pose proof (Hb ltac:(by eexists)). lia.
Qed.

Lemma finished_all jobs m : (forall i, is_Some (jobs !! i) -> (i < m)%nat) -> base.size (finished_set jobs) = m ->
  forall i, (i < m)%nat -> exists j, jobs !! i = Some j /\ finished j = true.
Proof.
  intros Hb Hs i Hi. apply elem_finished.
  assert (Hsub : finished_set jobs ⊆ set_seq 0 m).
  { intros x (j & Hj & _)%elem_finished. apply elem_of_set_seq. specialize (Hb x). rewrite Hj in Hb.
    pose proof (Hb ltac:(by eexists)). lia. }
  apply set_subseteq_size_eq in Hsub; [|rewrite size_set_seq; lia]. rewrite Hsub. apply elem_of_set_seq. lia.
Qed.

(** ** The invariant of a batch *)

Abbreviation total b := (node_count (length (b_frames b))).

Definition batch_canvas b tr : Canvas := stored (b_canvas b) (map snd tr).

(** The canvas once the transaction has ended. *)
Definition ended_canvas b tr (status : Status) : Canvas :=
  snd (if is_ok status then end_frame (batch_canvas b tr) else cancel_frame (batch_canvas b tr)).

(** Frames are being drawn; one job is ending the transaction; it has ended. *)
Inductive phase_ok b r tr : Prop :=
| phase_open :
    (forall i j, jobs r !! i = Some j -> closing j = false) ->
    is_published (context r) = false -> target r = batch_canvas b tr ->
    (base.size (finished_set (jobs r)) < total b)%nat -> phase_ok b r tr
| phase_closing i j :
    jobs r !! i = Some j -> closing j = true ->
    (forall i', (i' < total b)%nat -> i' <> i -> jobs r !! i' = Some Returned) ->
    is_published (context r) = false ->
    match j with
    | Ending aggregate => aggregate = context_status (context r) /\ target r = batch_canvas b tr
    | Recording status => status = OK /\ target r = ended_canvas b tr (context_status (context r))
    | _ => target r = batch_canvas b tr
    end -> phase_ok b r tr
| phase_closed :
    (forall i, (i < total b)%nat -> jobs r !! i = Some Returned) ->
    is_published (context r) = true -> target r = ended_canvas b tr (context_status (context r)) -> phase_ok b r tr.

(** What a job has stored, and what it knows. *)
Record job_ok b tr (i : nat) (j : JobState) : Prop := {
  jo_stores : stores_by i tr ++ job_todo (b_canvas b) j = frame_stores b i;
  jo_result : forall s, job_result (b_canvas b) j = Some s -> s = frame_result b i;
  jo_frame : finished j = false -> (i < length (b_frames b))%nat;
}.

(** The scheduling of the batch. *)
Record pool_ok (k : Z) b r : Prop := {
  po_graph : graph_inv k (pool r);
  po_failed : failed_by_rejection (pool r);
  po_running : state (graph (pool r)) <> IDLE;
  po_nodes : length (nodes (topology (graph (pool r)))) = total b;
  po_edges : forall i j, {| prerequisite := i; dependent := j |} ∈ frame_dependencies (b_layout b) ->
    edge (topology (graph (pool r))) i j;
  po_topology : exists deps, render_topology r = Some {| frame_count := length (b_frames b); topology_dependencies := deps |};
  po_active : renderer_active r = true;
}.

Record batch_inv b r tr : Prop := {
  bi_inputs : inputs (context r) =
    Some {| input_frames := b_frames b; input_layout := b_layout b; input_theme := b_theme b |};
  bi_began : forall i, i ∈ began (log (pool r)) <-> is_Some (jobs r !! i);
  bi_ended : forall i, i ∈ ended (log (pool r)) -> jobs r !! i = Some Returned;
  bi_jobs : forall i j, jobs r !! i = Some j -> job_ok b tr i j;
  bi_trace : Forall (fun e => is_Some (jobs r !! e.1)) tr;
  bi_sorted : forall k, back_first (stores_on k tr);
  bi_remaining : remaining_frames (context r) =
    Z.max 0 (Z.of_nat (length (b_frames b)) - Z.of_nat (base.size (finished_set (jobs r))));
  bi_status : context_status (context r) = OK <->
    forall i, (i < length (b_frames b))%nat -> i ∈ finished_set (jobs r) -> frame_result b i = OK;
  bi_source : context_status (context r) <> OK ->
    exists i, (i < length (b_frames b))%nat /\ context_status (context r) = frame_result b i;
  bi_phase : phase_ok b r tr;
}.

Lemma batch_canvas_snoc b tr i s :
  set_writable (batch_canvas b tr) (store (writable_buffer (batch_canvas b tr)) s) = batch_canvas b (tr ++ [(i, s)]).
Proof. unfold batch_canvas. by rewrite stored_one, map_app. Qed.

Lemma batch_canvas_like b tr d : stores_of (batch_canvas b tr) d = stores_of (b_canvas b) d.
Proof. apply stores_of_stored. Qed.

Lemma jobs_bound k b r tr i : pool_ok k b r -> batch_inv b r tr -> is_Some (jobs r !! i) -> (i < total b)%nat.
Proof.
  intros P I Hi. rewrite <- (po_nodes _ _ _ P). eapply began_bound; [apply P|apply P|]. by apply (bi_began _ _ _ I).
Qed.

(** A job that has not finished keeps the batch open. *)
Lemma unfinished_open k b r tr i j : pool_ok k b r -> batch_inv b r tr -> jobs r !! i = Some j -> finished j = false ->
  (forall i' j', jobs r !! i' = Some j' -> closing j' = false) /\ is_published (context r) = false /\
  target r = batch_canvas b tr /\ (base.size (finished_set (jobs r)) < total b)%nat.
Proof.
  intros P I Hj Hf. pose proof (jobs_bound _ _ _ _ i P I ltac:(by eexists)) as Hi.
  destruct (bi_phase _ _ _ I) as [H1 H2 H3 H4|i' j' H1 H2 H3|H1]; [done| |].
  - destruct (decide (i = i')) as [->|Hn]; [|rewrite (H3 i Hi Hn) in Hj; by injection Hj as <-].
    rewrite H1 in Hj. injection Hj as ->. by destruct j.
  - rewrite (H1 i Hi) in Hj. by injection Hj as <-.
Qed.

Lemma stores_by_other i i' s tr : i <> i' -> stores_by i (tr ++ [(i', s)]) = stores_by i tr.
Proof. intros Hn. rewrite stores_by_app. unfold stores_by at 2. cbn. destruct (Nat.eqb_spec i' i); [congruence|]. apply app_nil_r. Qed.

Lemma stores_by_own i s tr : stores_by i (tr ++ [(i, s)]) = stores_by i tr ++ [s].
Proof. rewrite stores_by_app. unfold stores_by at 2. cbn. by rewrite Nat.eqb_refl. Qed.

(** ** Steps of the jobs *)

Definition with_job r (i : nat) (j : JobState) (x : RenderContext) (c : Canvas) : ParallelRenderer :=
  with_run r (pool r) (<[i := j]> (jobs r)) x c (renderer_active r).

Lemma pool_ok_job k b r i j x c : pool_ok k b r -> pool_ok k b (with_job r i j x c).
Proof. intros []. by split. Qed.

Lemma began_insert b r tr i j : batch_inv b r tr -> is_Some (jobs r !! i) ->
  forall i', i' ∈ began (log (pool r)) <-> is_Some (<[i := j]> (jobs r) !! i').
Proof.
  intros I Hi i'. rewrite (bi_began _ _ _ I), lookup_insert_is_Some. destruct (decide (i = i')) as [->|]; tauto.
Qed.

Lemma ended_insert b r tr i j : batch_inv b r tr -> i ∉ ended (log (pool r)) ->
  forall i', i' ∈ ended (log (pool r)) -> <[i := j]> (jobs r) !! i' = Some Returned.
Proof.
  intros I Hi i' Hi'. rewrite lookup_insert_ne by (by intros ->). by apply (bi_ended _ _ _ I).
Qed.

(** The job of frame [i] goes on drawing, with the stores [new]. *)
Lemma drawing_inv k b r tr i j j' new : pool_ok k b r -> batch_inv b r tr -> i ∉ ended (log (pool r)) ->
  jobs r !! i = Some j -> finished j = false -> finished j' = false ->
  job_ok b (tr ++ new) i j' -> Forall (fun e => e.1 = i) new -> (forall m, back_first (stores_on m (tr ++ new))) ->
  batch_inv b (with_job r i j' (context r) (batch_canvas b (tr ++ new))) (tr ++ new).
Proof.
  intros P I He Hj Hf Hf' Hok Hnew Hsort. destruct (unfinished_open _ _ _ _ _ _ P I Hj Hf) as (O1 & O2 & O3 & O4).
  assert (Hfs : finished_set (<[i := j']> (jobs r)) = finished_set (jobs r)) by (apply (finished_keeps _ _ j); congruence).
  assert (Hother : forall i', i' <> i -> stores_by i' (tr ++ new) = stores_by i' tr).
  { intros i' Hn. rewrite stores_by_app. rewrite Forall_forall in Hnew.
    assert (E : stores_by i' new = []); [|by rewrite E, app_nil_r].
    clear - Hnew Hn. induction new as [|e new IH]; [done|]. unfold stores_by in *. cbn.
    destruct (Nat.eqb_spec e.1 i') as [E|]; [|apply IH; intros x Hx; apply Hnew, elem_of_cons; by right].
    exfalso. apply Hn. rewrite <- E. apply Hnew, elem_of_cons. by left. }
  split; cbn [with_job with_run jobs pool context target]; try apply I.
  - eapply began_insert; [done|]. by rewrite Hj.
  - by eapply ended_insert.
  - intros i' j'' [[<- <-]|[Hn Hj'']]%lookup_insert_Some; [done|]. destruct (bi_jobs _ _ _ I _ _ Hj'') as [J1 J2 J3].
    split; [by rewrite Hother|done|done].
  - rewrite Forall_app. split.
    + eapply Forall_impl; [apply (bi_trace _ _ _ I)|]. cbn. intros e Hs. rewrite lookup_insert_is_Some.
      destruct (decide (i = e.1)); auto.
    + eapply Forall_impl; [exact Hnew|]. cbn. intros e ->. rewrite lookup_insert_is_Some. by left.
  - exact Hsort.
  - rewrite Hfs. apply I.
  - rewrite Hfs. apply I.
  - apply phase_open; cbn [with_job with_run jobs context target]; [|done|done|by rewrite Hfs].
    intros i' j'' [[<- <-]|[Hn Hj'']]%lookup_insert_Some; [by destruct j'|by eapply O1].
Qed.

(** A store keeps the order at its cell: the frames in front that overlap
    have not begun. *)
Lemma store_sorted k b r tr i s : pool_ok k b r -> batch_inv b r tr -> batch_ok b -> (i < length (b_frames b))%nat ->
  is_Some (jobs r !! i) -> jobs r !! i <> Some Returned -> s ∈ frame_stores b i ->
  forall m, back_first (stores_on m (tr ++ [(i, s)])).
Proof.
  intros P I B Hi Hsome Hnr Hs. apply trace_snoc; [apply I|]. intros i' cell Hin.
  destruct (decide (i' <= i)%nat) as [|Hlt]; [done|]. exfalso.
  pose proof (bi_trace _ _ _ I) as Ht. rewrite Forall_forall in Ht. specialize (Ht _ Hin). cbn in Ht.
  pose proof (jobs_bound _ _ _ _ _ P I Ht) as Hb'. unfold node_count in Hb'.
  assert (Hs' : (s.1, cell) ∈ frame_stores b i').
  { destruct Ht as [j' Hj']. rewrite <- (jo_stores _ _ _ _ (bi_jobs _ _ _ I _ _ Hj')). apply elem_of_app. left.
    apply list_elem_of_omap. exists (i', (s.1, cell)). split; [done|]. cbn. by rewrite Nat.eqb_refl. }
  pose proof (stores_ordered b i i' s (s.1, cell) B ltac:(lia) ltac:(lia) Hs Hs' eq_refl) as Hd.
  apply (po_edges _ _ _ P) in Hd. apply Hnr, (bi_ended _ _ _ I).
  eapply began_after; [apply P|apply P|exact Hd|]. by apply (bi_began _ _ _ I).
Qed.

Lemma stores_of_writing c rect cells continue : stores_of c (Writing rect cells continue) =
  ((if is_ok (check_write c rect cells) then write_stores (width c) rect cells else []) ++
     fst (stores_of c (continue (check_write c rect cells))),
   snd (stores_of c (continue (check_write c rect cells)))).
Proof. cbn. by destruct (stores_of c (continue _)). Qed.

Lemma drawing_step_inv k b r tr i j j' x c : pool_ok k b r -> batch_inv b r tr -> batch_ok b -> i ∉ ended (log (pool r)) ->
  jobs r !! i = Some j -> finished j = false -> (forall s, j <> Finishing s) ->
  job_step j (context r) (target r) = Some (j', x, c) ->
  exists tr', batch_inv b (with_job r i j' x c) tr'.
Proof.
  intros P I B He Hj Hf Hnf E. destruct (unfinished_open _ _ _ _ _ _ P I Hj Hf) as (O1 & O2 & O3 & O4).
  destruct (bi_jobs _ _ _ I _ _ Hj) as [J1 J2 J3].
  assert (Hkeep : forall j'', finished j'' = false -> job_ok b tr i j'' ->
    batch_inv b (with_job r i j'' (context r) (target r)) tr).
  { intros j'' Hf'' Hok. rewrite O3. pose proof (drawing_inv k b r tr i j j'' [] P I He Hj Hf Hf'') as D.
    rewrite app_nil_r in D. apply D; [done|by constructor|apply I]. }
  rewrite O3 in E. destruct j as [[result|rect cells continue]|[|s pending] d|s| | | |]; cbn [job_step] in E; try done.
  - injection E as <- <- <-. exists tr. rewrite <- O3. apply Hkeep; [done|]. split; [done| |by intros; apply J3].
    intros s [= <-]. by apply J2.
  - injection E as <- <- <-. exists tr. change (check_write (batch_canvas b tr) rect cells) with (check_write (b_canvas b) rect cells).
    change (width (batch_canvas b tr)) with (width (b_canvas b)). rewrite <- O3.
    cbn [job_todo job_result] in J1, J2. rewrite stores_of_writing in J1, J2. cbn [fst snd] in J1, J2.
    destruct (is_ok (check_write (b_canvas b) rect cells)) eqn:Ec.
    + apply bool_decide_eq_true in Ec. rewrite Ec in J1, J2. apply Hkeep; [done|]. split; [done|done|intros; by apply J3].
    + apply Hkeep; [done|]. split; [done|done|intros; by apply J3].
  - injection E as <- <- <-. exists tr. rewrite <- O3. apply Hkeep; [done|]. split; [done|done|intros; by apply J3].
  - injection E as <- <- <-. exists (tr ++ [(i, s)]). rewrite (batch_canvas_snoc b tr i s).
    eapply (drawing_inv k); try done.
    + split; [|done|intros; by apply J3]. rewrite stores_by_own, <- app_assoc. exact J1.
    + by constructor.
    + eapply store_sorted; try done; [by apply J3|by rewrite Hj|].
      rewrite <- J1. apply elem_of_app. right. apply elem_of_app. left. apply elem_of_cons. by left.
  - by destruct (Hnf s).
Qed.

(** Nothing but the job and the context changes when a job stops storing. *)
Lemma settle_inv b r tr i j j' x : batch_inv b r tr -> i ∉ ended (log (pool r)) -> jobs r !! i = Some j ->
  finished j' = true -> job_todo (b_canvas b) j = [] -> inputs x = inputs (context r) ->
  remaining_frames x = Z.max 0 (Z.of_nat (length (b_frames b)) - Z.of_nat (base.size (finished_set (<[i := j']> (jobs r))))) ->
  (context_status x = OK <->
    forall i', (i' < length (b_frames b))%nat -> i' ∈ finished_set (<[i := j']> (jobs r)) -> frame_result b i' = OK) ->
  (context_status x <> OK -> exists i', (i' < length (b_frames b))%nat /\ context_status x = frame_result b i') ->
  forall c, phase_ok b (with_job r i j' x c) tr -> batch_inv b (with_job r i j' x c) tr.
Proof.
  intros I He Hj Hf Ht Hin Hrem Hst Hsrc c Hph. split; cbn [with_job with_run jobs pool context target]; try done.
  - rewrite Hin. apply I.
  - eapply began_insert; [done|]. by rewrite Hj.
  - by eapply ended_insert.
  - intros i' j'' [[<- <-]|[Hn Hj'']]%lookup_insert_Some; [|by apply (bi_jobs _ _ _ I)].
    destruct (bi_jobs _ _ _ I _ _ Hj) as [J1 J2 J3]. rewrite Ht in J1. split; [|by destruct j'|by rewrite Hf].
    rewrite <- J1. by destruct j'.
  - eapply Forall_impl; [apply (bi_trace _ _ _ I)|]. cbn. intros e Hs. rewrite lookup_insert_is_Some.
    destruct (decide (i = e.1)); auto.
  - apply I.
Qed.

(** [finish_frame]: the last frame goes on to end the transaction. *)
Lemma render_finishing_inv k b r tr i s j' x c : pool_ok k b r -> batch_inv b r tr -> i ∉ ended (log (pool r)) ->
  jobs r !! i = Some (Finishing s) -> job_step (Finishing s) (context r) (target r) = Some (j', x, c) ->
  batch_inv b (with_job r i j' x c) tr.
Proof.
  intros P I He Hj E. destruct (unfinished_open _ _ _ _ _ _ P I Hj eq_refl) as (O1 & O2 & O3 & O4).
  destruct (bi_jobs _ _ _ I _ _ Hj) as [_ J2 J3]. specialize (J2 s eq_refl). specialize (J3 eq_refl).
  assert (Htotal : total b = length (b_frames b)) by (unfold node_count; lia).
  pose proof (bi_remaining _ _ _ I) as Hrem. cbn [job_step] in E. unfold finish_frame in E.
  destruct (Z.eqb_spec (remaining_frames (context r)) 0) as [Hz|Hz]; [lia|].
  set (status' := if is_ok (context_status (context r)) && negb (is_ok s) then s else context_status (context r)) in E.
  assert (Hfin : finished j' = true) by (by destruct (remaining_frames (context r) - 1 =? 0)%Z; injection E as <- _ _).
  assert (Hsize : base.size (finished_set (<[i := j']> (jobs r))) = S (base.size (finished_set (jobs r)))).
  { apply finished_adds; [|done]. intros j E'. rewrite Hj in E'. by injection E' as <-. }
  assert (Hx : inputs x = inputs (context r) /\ context_status x = status' /\
    remaining_frames x = (remaining_frames (context r) - 1)%Z /\ is_published x = false /\ c = target r /\
    j' = if (remaining_frames (context r) - 1 =? 0)%Z then Publishing else Returned)
    by (by injection E as <- <- <-). clear E. destruct Hx as (X1 & X2 & X3 & X4 & -> & Ej).
  apply (settle_inv b r tr i (Finishing s)); try done.
  - rewrite X3, Hrem, Hsize. lia.
  - rewrite X2, finished_insert, Hfin. pose proof (bi_status _ _ _ I) as Hst. unfold status'. split.
    + intros Hok. destruct (is_ok (context_status (context r)) && negb (is_ok s)) eqn:Eok.
      { apply andb_true_iff in Eok as [_ Eok]. rewrite Hok in Eok. done. }
      intros i' Hi' [->%elem_of_singleton|Hin]%elem_of_union; [|by apply Hst].
      rewrite <- J2. rewrite Hok in Eok. cbn in Eok. apply negb_false_iff in Eok. by apply bool_decide_eq_true in Eok.
    + intros Hall. assert (Hok : context_status (context r) = OK).
      { apply Hst. intros i' Hi' Hin. apply Hall; [done|]. apply elem_of_union. by right. }
      assert (Hs : s = OK) by (rewrite J2; apply Hall; [done|]; apply elem_of_union; left; by apply elem_of_singleton).
      by rewrite Hok, Hs.
  - rewrite X2. unfold status'. intros Hne. destruct (is_ok (context_status (context r)) && negb (is_ok s)).
    + by exists i.
    + by apply (bi_source _ _ _ I).
  - subst j'. destruct (Z.eqb_spec (remaining_frames (context r) - 1) 0) as [Hl|Hl].
    + apply (phase_closing _ _ _ i Publishing); cbn [with_job with_run jobs context target]; [by rewrite lookup_insert_eq|done| |done|done].
      intros i' Hi' Hn. destruct (finished_all (<[i := Publishing]> (jobs r)) (total b)) with (i := i') as (j & Hj' & Hf'); [|lia|done|].
      * intros i''. rewrite lookup_insert_is_Some. intros [->|[_ Hs]]; [lia|]. by eapply jobs_bound.
      * rewrite lookup_insert_ne in Hj' by done. rewrite lookup_insert_ne by done. rewrite Hj'. f_equal.
        pose proof (O1 _ _ Hj') as Hc. by destruct j.
    + apply phase_open; cbn [with_job with_run jobs context target]; [|done|done|lia].
      intros i' j'' [[<- <-]|[Hn Hj'']]%lookup_insert_Some; [done|by eapply O1].
Qed.

Lemma end_batch b tr : frame_in_progress (b_canvas b) = true -> forall status,
  (if is_ok status then end_frame (batch_canvas b tr) else cancel_frame (batch_canvas b tr)) = (OK, ended_canvas b tr status).
Proof.
  intros Hp status. unfold ended_canvas, end_frame, cancel_frame. change (frame_in_progress (batch_canvas b tr)) with (frame_in_progress (b_canvas b)).
  rewrite Hp. by destruct (is_ok status).
Qed.

(** The job that ends the transaction. *)
Lemma closing_inv b r tr i j j' x c : batch_inv b r tr -> batch_ok b -> i ∉ ended (log (pool r)) -> (i < total b)%nat ->
  jobs r !! i = Some j -> closing j = true -> job_step j (context r) (target r) = Some (j', x, c) ->
  batch_inv b (with_job r i j' x c) tr.
Proof.
  intros I B He Hi Hj Hc E.
  assert (Hph : (forall i', (i' < total b)%nat -> i' <> i -> jobs r !! i' = Some Returned) /\ is_published (context r) = false /\
    match j with
    | Ending aggregate => aggregate = context_status (context r) /\ target r = batch_canvas b tr
    | Recording status => status = OK /\ target r = ended_canvas b tr (context_status (context r))
    | _ => target r = batch_canvas b tr
    end).
  { destruct (bi_phase _ _ _ I) as [H1|i' j0 H1 H2 H3 H4 H5|H1].
    - by rewrite (H1 _ _ Hj) in Hc.
    - destruct (decide (i = i')) as [->|Hn]; [|rewrite (H3 i Hi Hn) in Hj; by injection Hj as <-].
      rewrite H1 in Hj. by injection Hj as ->.
    - rewrite (H1 i Hi) in Hj. by injection Hj as <-. }
  destruct Hph as (H1 & H2 & H3).
  assert (Hothers : forall i', (i' < total b)%nat -> i' <> i -> <[i := j']> (jobs r) !! i' = Some Returned).
  { intros i' Hi' Hn. rewrite lookup_insert_ne by done. by apply H1. }
  assert (Hf : finished j' = true /\ inputs x = inputs (context r) /\ remaining_frames x = remaining_frames (context r) /\
    context_status x = context_status (context r)).
  { destruct j; try done; cbn [job_step] in E; [by injection E as <- <- <-| |].
    - destruct (if is_ok aggregate then _ else _); by injection E as <- <- <-.
    - destruct H3 as [-> _]. injection E as <- <- <-. cbn. split_and!; try done.
      destruct (is_ok (context_status (context r))) eqn:Eo; [|done]. by apply bool_decide_eq_true in Eo. }
  destruct Hf as (Hf & X1 & X2 & X3).
  assert (Hfs : finished_set (<[i := j']> (jobs r)) = finished_set (jobs r)).
  { apply (finished_keeps _ _ j); [done|]. rewrite Hf. by destruct j. }
  apply (settle_inv b r tr i j); [done|done|done|done|by destruct j|done|rewrite Hfs, X2; apply I|rewrite Hfs, X3; apply I|rewrite X3; apply I|].
  destruct j; try done; cbn [job_step] in E.
  - injection E as <- <- <-. eapply (phase_closing _ _ _ i (Ending _)); cbn; [by apply lookup_insert_eq|done|done|done|done].
  - destruct H3 as [-> H3]. rewrite H3, (end_batch b tr (bo_progress _ B)) in E. injection E as <- <- <-.
    eapply (phase_closing _ _ _ i (Recording OK)); cbn; [by apply lookup_insert_eq|done|done|done|done].
  - destruct H3 as [-> H3]. injection E as <- <- <-. apply phase_closed; cbn; [|done|].
    + intros i' Hi'. destruct (decide (i = i')) as [->|]; [apply lookup_insert_eq|by apply Hothers].
    + cbn in X3. by rewrite X3.
Qed.

Lemma work_inv k b r tr thread r' : pool_ok k b r -> batch_inv b r tr -> batch_ok b ->
  render_step r (Work thread) = Some r' -> pool_ok k b r' /\ exists tr', batch_inv b r' tr'.
Proof.
  intros P I B E. cbn [render_step] in E. destruct (tasks (pool r) !! thread) as [t|] eqn:Et; [|done].
  destruct t as [| | | |run i|]; try done. apply bind_Some in E as (j & Hj & E). apply bind_Some in E as ([[j' x] c] & Es & E).
  injection E as <-. apply list_elem_of_lookup_2 in Et. destruct (executing_job _ _ _ _ (po_graph _ _ _ P) Et) as (_ & _ & _ & He).
  split; [by apply pool_ok_job|]. destruct (finished j) eqn:Hf.
  - exists tr. apply (closing_inv b r tr i j); try done; [eapply jobs_bound; [done|done|by rewrite Hj]|by destruct j].
  - destruct j; try done.
    + eapply (drawing_step_inv k b r tr i _ j'); try done.
    + eapply (drawing_step_inv k b r tr i _ j'); try done.
    + exists tr. by eapply (render_finishing_inv k).
Qed.

(** ** Steps of the scheduler *)

Lemma called_begins r choice : begins (pool r) choice = match called r choice with Some i => [i] | None => [] end.
Proof.
  unfold begins, called. destruct choice; try done. destruct (tasks (pool r) !! thread) as [[]|]; try done.
  by destruct (_ && _).
Qed.

Lemma pool_step_ok k b r choice p : pool_ok k b r -> (0 <= k < 2 ^ 64 - 1)%Z -> schedulable choice = true ->
  ExecutionGraph.choose (pool r) choice = Some p -> forall j x c, pool_ok k b (with_run r p j x c (renderer_active r)).
Proof.
  intros P Hk Hs E j x c. destruct P as [P1 P2 P3 P4 P5 P6 P7].
  destruct (choose_views k _ _ _ P1 E) as (_ & _ & Ht & Hst); [by destruct choice|].
  pose proof (graph_choose_inv k _ choice p ltac:(lia) E P1) as P1'.
  assert (Hns : is_start choice = false) by (by destruct choice). rewrite Hns in P1'.
  split; cbn [with_run pool render_topology renderer_active]; try done; [by eapply choose_failed|by apply Hst|by rewrite Ht|].
  intros i i' Hd. rewrite Ht. by apply P5.
Qed.

(** What calling the job of a node starts. *)
Lemma execute_job_ok k b r tr i j : pool_ok k b r -> batch_inv b r tr -> batch_ok b -> (i < total b)%nat -> jobs r !! i = None ->
  execute_job (length (b_frames b)) i (context r) (target r) = Some j ->
  job_ok b tr i j /\ closing j = finished j /\ finished j = (length (b_frames b) =? 0)%nat /\ target r = batch_canvas b tr /\
  is_published (context r) = false /\ (forall i' j', jobs r !! i' = Some j' -> closing j' = false) /\
  (base.size (finished_set (jobs r)) < total b)%nat.
Proof.
  intros P I B Hi Hn E.
  assert (Hopen : (forall i' j', jobs r !! i' = Some j' -> closing j' = false) /\ is_published (context r) = false /\
    target r = batch_canvas b tr /\ (base.size (finished_set (jobs r)) < total b)%nat).
  { destruct (bi_phase _ _ _ I) as [H1 H2 H3 H4|i' j0 H1 H2 H3|H1]; [done| |by rewrite H1 in Hn].
    destruct (decide (i = i')) as [->|Hne]; [by rewrite H1 in Hn|]. by rewrite (H3 i Hi Hne) in Hn. }
  destruct Hopen as (O1 & O2 & O3 & O4).
  assert (Htr : stores_by i tr = []).
  { pose proof (bi_trace _ _ _ I) as Ht. clear - Ht Hn. induction Ht as [|e tr He _ IH]; [done|]. unfold stores_by in *. cbn.
    destruct (Nat.eqb_spec e.1 i) as [<-|]; [|done]. rewrite Hn in He. by destruct He. }
  unfold execute_job in E. destruct (Nat.eqb_spec (length (b_frames b)) 0) as [Hz|Hz].
  - injection E as <-. split_and!; try done. split; [|done|done]. rewrite Htr. cbn. unfold frame_stores, program.
    by rewrite lookup_ge_None_2 by lia.
  - assert (Hi' : (i < length (b_frames b))%nat) by (unfold node_count in Hi; lia).
    destruct (bo_rects _ B i Hi') as (rect & Hr & _). unfold render in E. rewrite (bi_inputs _ _ _ I) in E. cbn [mbind option_bind] in E.
    cbn [input_frames input_layout input_theme] in E. rewrite O3 in E.
    change (get_dimensions (batch_canvas b tr)) with (get_dimensions (b_canvas b)) in E.
    assert (Ej : j = Drawing_ (program b i)).
    { unfold rect_of, program in *. destruct (b_frames b !! i) as [e|]; [|done]. cbn in Hr. rewrite Hr in *. by injection E as <-. }
    subst j. split_and!; try done. split; [by rewrite Htr| |done]. by intros s [= <-].
Qed.

Lemma schedule_inv k b r tr choice r' : pool_ok k b r -> batch_inv b r tr -> batch_ok b -> (0 <= k < 2 ^ 64 - 1)%Z ->
  render_step r (Schedule choice) = Some r' -> pool_ok k b r' /\ batch_inv b r' tr.
Proof.
  intros P I B Hk E. cbn [render_step] in E. destruct (schedulable choice && job_allows r choice) eqn:Hsa; [|done].
  apply andb_true_iff in Hsa as [Hs Ha]. apply bind_Some in E as (p & Ep & E).
  pose proof (pool_step_ok k b r choice p P Hk Hs Ep) as Hp.
  destruct (choose_views k _ _ _ (po_graph _ _ _ P) Ep) as (Hb & He & _); [by destruct choice|].
  pose proof (called_begins r choice) as Hcalled. rewrite Hcalled in Hb.
  assert (Hended : forall i, i ∈ ended (log p) -> jobs r !! i = Some Returned).
  { intros i. rewrite He, elem_of_app. intros [Hi|Hi]; [by apply (bi_ended _ _ _ I)|]. unfold ends in Hi. unfold job_allows in Ha.
    destruct choice as [thread| | | | | |]; try (by apply elem_of_nil in Hi).
    destruct (tasks (pool r) !! thread) as [[| | | |run node|]|]; try (by apply elem_of_nil in Hi).
    apply list_elem_of_singleton in Hi as ->. destruct (jobs r !! node) as [[]|]; done. }
  destruct (called r choice) as [i|] eqn:Ec.
  - destruct (po_topology _ _ _ P) as [deps Ht]. rewrite Ht in E. cbn in E. apply bind_Some in E as (j & Ej & E). injection E as <-.
    split; [apply Hp|].
    assert (Hi : (i < total b)%nat).
    { rewrite <- (po_nodes _ _ _ (Hp (jobs r) (context r) (target r))). eapply began_bound; [apply (Hp (jobs r) (context r) (target r))..|].
      cbn. rewrite Hb. apply elem_of_app. right. by apply list_elem_of_singleton. }
    assert (Hnew : jobs r !! i = None).
    { apply eq_None_not_Some. rewrite <- (bi_began _ _ _ I). intros Hin.
      destruct (gi_run _ _ (po_graph _ _ _ (Hp (jobs r) (context r) (target r)))) as [_ R]; [apply (Hp (jobs r) (context r) (target r))|].
      apply began_once in R. cbn in R. rewrite Hb in R. apply NoDup_app in R as (_ & R & _). apply (R i Hin). by apply list_elem_of_singleton. }
    destruct (execute_job_ok k b r tr i j P I B Hi Hnew Ej) as (Hok & Hcl & Hfin & Htg & Hpub & Hopen & Hsize).
    assert (Hrem : Z.max 0 (Z.of_nat (length (b_frames b)) - Z.of_nat (base.size (finished_set (<[i := j]> (jobs r))))) =
      Z.max 0 (Z.of_nat (length (b_frames b)) - Z.of_nat (base.size (finished_set (jobs r))))).
    { destruct (finished j) eqn:Hf; [symmetry in Hfin; apply Nat.eqb_eq in Hfin; lia|by rewrite finished_unchanged]. }
    split; cbn [with_run pool jobs context target]; try apply I.
    + intros i'. rewrite Hb, elem_of_app, list_elem_of_singleton, (bi_began _ _ _ I), lookup_insert_is_Some.
      destruct (decide (i = i')) as [->|]; [tauto|]. split; [intros [?|?]; [auto|congruence]|intros [?|[_ ?]]; [congruence|auto]].
    + intros i' Hi'. apply Hended in Hi'. rewrite lookup_insert_ne; [done|]. intros ->. congruence.
    + intros i' j' [[<- <-]|[Hn Hj']]%lookup_insert_Some; [done|by apply (bi_jobs _ _ _ I)].
    + eapply Forall_impl; [apply (bi_trace _ _ _ I)|]. cbn. intros e Hs'. rewrite lookup_insert_is_Some. destruct (decide (i = e.1)); auto.
    + rewrite Hrem. apply I.
    + destruct (finished j) eqn:Hf; [|rewrite finished_unchanged by done; apply I].
      symmetry in Hfin. apply Nat.eqb_eq in Hfin. rewrite (bi_status _ _ _ I). split; intros _ i' Hi'; lia.
    + destruct (finished j) eqn:Hf.
      * symmetry in Hfin. apply Nat.eqb_eq in Hfin.
        apply (phase_closing _ _ _ i j); cbn [with_run jobs context target]; [by rewrite lookup_insert_eq|done| |done|].
        { intros i' Hi' Hn. unfold node_count in *. lia. }
        unfold execute_job in Ej. rewrite Hfin in Ej. by injection Ej as <-.
      * apply phase_open; cbn [with_run jobs context target]; [|done|done|by rewrite finished_unchanged].
        intros i' j' [[<- <-]|[Hn Hj']]%lookup_insert_Some; [done|by eapply Hopen].
  - injection E as <-. split; [apply (Hp (jobs r) (context r) (target r))|]. destruct I as [I1 I2 I3 I4 I5 I6 I7 I8 I10 I9].
    split; cbn [with_pool pool jobs context target]; try done.
    + intros i. rewrite Hb, app_nil_r. apply I2.
    + by destruct I9; [apply phase_open|eapply phase_closing|apply phase_closed].
Qed.
End Batch.
