(* ===== verification/RenderProps.v ===== *)
(** * The parallel renderer draws what sequential drawing draws

    Every history of a renderer, batch after batch, and the theorems about one
    batch: its image, its visibility and its completion. *)
From S2P Require Import Prelude.
From S2P Require Import DependencyGraph.
From S2P Require Import Readiness.
From S2P Require Import ExecutionGraph.
From S2P Require Import GraphRuns.
From S2P Require Import GraphProps.
From S2P Require Import GraphJobs.
From S2P Require Import Tui.
From S2P Require Import ZBuffer.
From S2P Require Import Canvas.
From S2P Require Import Layout.
From S2P Require Import LayoutProps.
From S2P Require Import Renderer.
From S2P Require Import RenderRuns.

(** ** Transactions *)

Lemma begin_ok c c' : canvas_inv c -> begin_frame c = (OK, c') ->
  canvas_inv c' /\ frame_in_progress c' = true /\ get_drawable_buffer c' = get_drawable_buffer c /\ get_dimensions c' = get_dimensions c.
Proof.
  intros I E. unfold begin_frame in E. destruct (is_ok (status c)) eqn:Hs; cbn [negb] in E.
  2:{ apply bool_decide_eq_false in Hs. by injection E as E. }
  destruct (frame_in_progress c); [done|]. injection E as <-. apply bool_decide_eq_true in Hs.
  assert (Hl : length (get_drawable_buffer c) = length (writable_buffer c))
    by (apply Nat2Z.inj; by rewrite drawable_length, writable_length).
  unfold copy_drawable_to_writable. rewrite copy_all by done. destruct (set_writable_inv c _ Hl I) as [].
  split; [split; try done; by left|]. split; [done|]. split; [|done].
  unfold get_drawable_buffer. cbn. by destruct (buffer_state c).
Qed.

Lemma clear_ok c cell c' : canvas_inv c -> clear cell c = (OK, c') ->
  canvas_inv c' /\ frame_in_progress c' = frame_in_progress c /\ get_drawable_buffer c' = get_drawable_buffer c /\ get_dimensions c' = get_dimensions c.
Proof.
  intros I E. unfold clear in E. destruct (frame_in_progress c) eqn:Hp; [|done]. injection E as <-.
  split; [apply set_writable_inv; [apply length_replicate|done]|]. split; [done|]. split; [|done].
  by apply set_writable_views.
Qed.

(** The canvas a batch draws on. *)
Definition opened (base_cell : option Cell) (c : Canvas) : Canvas :=
  let c := snd (begin_frame c) in
  match base_cell with Some cell => snd (clear cell c) | None => c end.

Lemma stored_drawable c s : get_drawable_buffer (stored c s) = get_drawable_buffer c.
Proof. by apply set_writable_views. Qed.

(** ** Layouts *)

Section Histories.
Context {Frame Theme : Type} `{FrameContract Frame Theme}.
Implicit Types (r : ParallelRenderer (Frame := Frame) (Theme := Theme)).

(** The rectangles are cells of a screen, and frames that share a cell are
    ordered. *)
Definition layout_ordered (d : LayoutDescription Frame) (layout : AbsoluteLayout) : Prop :=
  (forall id rect, frame_layouts layout !! id = Some rect -> rect_u64 rect) /\
  forall i j a b ra rb, (i < j)%nat -> ids (z_buffer d) !! i = Some a -> ids (z_buffer d) !! j = Some b ->
    frame_layouts layout !! a = Some ra -> frame_layouts layout !! b = Some rb ->
    (exists x y, covers ra x y /\ covers rb x y) -> {| prerequisite := i; dependent := j |} ∈ frame_dependencies layout.

Definition batch_of (d : LayoutDescription Frame) (layout : AbsoluteLayout) (theme : Theme) (c : Canvas) : Batch :=
  {| b_frames := frames (z_buffer d); b_layout := layout; b_theme := theme; b_canvas := c |}.

Lemma ids_lookup (z : ZBuffer Frame) i e : frames z !! i = Some e -> ids z !! i = Some (frame_id e).
Proof. intros E. unfold ids. by rewrite list_lookup_fmap, E. Qed.

Lemma check_layout_spec (entries : list (ZEntry Frame)) layout : check_layout entries layout = true ->
  forall i e, entries !! i = Some e -> is_Some (frame_layouts layout !! frame_id e).
Proof.
  intros [_ Hc]%andb_true_iff i e He. rewrite forallb_forall in Hc. apply list_elem_of_lookup_2, list_elem_of_In, Hc in He.
  by apply bool_decide_eq_true in He.
Qed.

Lemma batch_of_ok d layout theme c : layout_ordered d layout -> check_layout (frames (z_buffer d)) layout = true ->
  canvas_inv c -> frame_in_progress c = true -> batch_ok (batch_of d layout theme c).
Proof.
  intros [Hu Ho] Hc I Hp. split; [done|done| |].
  - intros i Hi. cbn in Hi. destruct (lookup_lt_is_Some_2 _ _ Hi) as [e He]. destruct (check_layout_spec _ _ Hc _ _ He) as [rect Hr].
    exists rect. unfold rect_of. cbn. rewrite He. cbn. split; [done|]. by eapply Hu.
  - intros i j ri rj Hij Hri Hrj Hx. unfold rect_of in *. cbn [batch_of b_frames b_layout] in *.
    apply bind_Some in Hri as (ei & Hei & Hri), Hrj as (ej & Hej & Hrj).
    eapply (Ho i j); [done|by apply ids_lookup|by apply ids_lookup|done..].
Qed.

(** ** Sequential drawing *)

Lemma draw_entries_stores layout theme c : forall (entries : list (ZEntry Frame)),
  (forall i e, entries !! i = Some e -> is_Some (frame_layouts layout !! frame_id e)) ->
  forall s, let c' := stored c s in let b := {| b_frames := entries; b_layout := layout; b_theme := theme; b_canvas := c |} in
  (forall i, (i < length entries)%nat -> frame_result b i = OK) ->
  draw_entries entries layout theme c' =
    (OK, stored c (s ++ concat (map (frame_stores b) (seq 0 (length entries))))).
Proof.
  induction entries as [|e entries IH]; intros Hl s c' b Hr; [by rewrite app_nil_r|].
  cbn [draw_entries]. destruct (Hl 0%nat e eq_refl) as [rect Erect]. rewrite Erect. rewrite run_drawing_stores.
  unfold c'. rewrite stores_of_stored. change (get_dimensions (stored c s)) with (get_dimensions c).
  assert (Ep : program b 0 = draw (frame e) theme (get_dimensions c) rect) by (unfold program; cbn; by rewrite Erect).
  assert (Hr0 : snd (stores_of c (draw (frame e) theme (get_dimensions c) rect)) = OK)
    by (rewrite <- Ep; apply (Hr 0%nat); cbn; lia). rewrite Hr0.
  change (is_ok OK) with true. cbn iota. rewrite stored_app. rewrite (IH (fun i => Hl (S i))).
  - f_equal. f_equal. rewrite <- app_assoc. f_equal. cbn [length seq map concat].
    f_equal; [unfold frame_stores; by rewrite Ep|]. f_equal. rewrite <- (seq_shift (length entries) 0), map_map. done.
  - intros i Hi. apply (Hr (S i)). cbn. lia.
Qed.

Lemma draw_entries_fails layout theme c : forall (entries : list (ZEntry Frame)) s,
  let b := {| b_frames := entries; b_layout := layout; b_theme := theme; b_canvas := c |} in
  fst (draw_entries entries layout theme (stored c s)) = OK -> forall i, (i < length entries)%nat -> frame_result b i = OK.
Proof.
  induction entries as [|e entries IH]; intros s b E i Hi; [cbn in Hi; lia|]. cbn [draw_entries] in E.
  destruct (frame_layouts layout !! frame_id e) as [rect|] eqn:Erect; [|done]. rewrite run_drawing_stores in E.
  rewrite stores_of_stored in E. change (get_dimensions (stored c s)) with (get_dimensions c) in E.
  destruct (is_ok (snd (stores_of c (draw (frame e) theme (get_dimensions c) rect)))) eqn:Eok.
  - destruct i as [|i].
    + apply bool_decide_eq_true in Eok. unfold frame_result, program. cbn. by rewrite Erect.
    + rewrite stored_app in E. apply (IH _ E i). cbn in Hi. lia.
  - apply bool_decide_eq_false in Eok. by cbn in E.
Qed.

(** The whole image of a batch, stored in any order the jobs allow. *)
Lemma batch_sequential (b : Batch (Frame := Frame) (Theme := Theme)) tr : batch_ok b ->
  (forall i e, b_frames b !! i = Some e -> is_Some (frame_layouts (b_layout b) !! frame_id e)) ->
  (forall m, back_first (stores_on m tr)) -> Forall (fun e => (e.1 < length (b_frames b))%nat) tr ->
  (forall i, (i < length (b_frames b))%nat -> stores_by i tr = frame_stores b i /\ frame_result b i = OK) ->
  draw_entries (b_frames b) (b_layout b) (b_theme b) (b_canvas b) = (OK, batch_canvas b tr).
Proof.
  intros B Hl Hs Hb Hall. pose proof (draw_entries_stores (b_layout b) (b_theme b) (b_canvas b) (b_frames b) Hl []) as D.
  cbn zeta in D. rewrite stored_nil in D. destruct b as [entries layout theme c]. cbn [b_frames b_layout b_theme b_canvas app] in *.
  rewrite D by (intros i Hi; by apply Hall). f_equal. unfold batch_canvas, stored. f_equal. cbn [b_canvas].
  rewrite (interleaving_sequential tr (length entries)) by done. f_equal. f_equal. apply map_ext_in. intros i Hi%in_seq.
  symmetry. apply Hall. lia.
Qed.

(** ** Histories of a renderer *)

(** What [start] asks of its caller: a layout computed for the frames, and a
    canvas. *)
Definition valid_inputs (description : option (LayoutDescription Frame)) (layout : AbsoluteLayout) (canvas : option Canvas) : Prop :=
  (forall d, description = Some d -> layout_ordered d layout) /\ forall c, canvas = Some c -> canvas_inv c.

(** [k] counts the calls of [start]. *)
Inductive renderer_history : Z -> ParallelRenderer (Frame := Frame) (Theme := Theme) -> Prop :=
| history_new_renderer c : renderer_history 0 (new_renderer c)
| history_start k r description layout theme canvas base_cell :
    renderer_history k r -> valid_inputs description layout canvas ->
    renderer_history (k + 1) (snd (start description layout theme canvas base_cell r))
| history_step k r s r' : renderer_history k r -> render_step r s = Some r' -> renderer_history k r'
| history_wait k r status r' : renderer_history k r -> wait r = Some (status, r') -> renderer_history k r'.

(** The invariant of an active batch. *)
Record active_inv (k : Z) (b : Batch) r (tr : Trace) : Prop := {
  ai_pool : pool_ok k b r;
  ai_batch : batch_ok b;
  ai_rects : forall i e, b_frames b !! i = Some e -> is_Some (frame_layouts (b_layout b) !! frame_id e);
  ai_inv : batch_inv b r tr;
}.

Definition graph_matches (g : ExecutionGraph.Impl nat) (t : RenderTopology) : Prop :=
  length (nodes (topology g)) = node_count (frame_count t) /\
  forall i j, edge (topology g) i j <-> {| prerequisite := i; dependent := j |} ∈ topology_dependencies t.

Record renderer_inv (k : Z) r : Prop := {
  ri_bound : (0 <= k)%Z;
  ri_graph : graph_inv k (pool r);
  ri_pool : pool_inv (pool r);
  ri_failed : failed_by_rejection (pool r);
  ri_topology : forall t, render_topology r = Some t -> graph_matches (graph (pool r)) t;
  ri_batch : if renderer_active r then exists b tr, active_inv k b r tr else state (graph (pool r)) = IDLE;
}.

Lemma renderer_inv_new c : renderer_inv 0 (new_renderer c).
Proof.
  split; cbn; [lia|apply new_world_inv|apply new_world_pool| |done|done]. intros Hf. by destruct Hf.
Qed.

Lemma prepare_graph_inv k r count deps status r' : renderer_inv k r -> renderer_active r = false ->
  prepare_graph count deps r = (status, r') ->
  renderer_inv k r' /\ renderer_active r' = false /\ (status = OK -> render_topology r' = Some {| frame_count := count; topology_dependencies := deps |}).
Proof.
  intros I Ha E. unfold prepare_graph in E. destruct (bool_decide_reflect (render_topology r = Some
    {| frame_count := count; topology_dependencies := deps |})) as [Ht|_]; [by injection E as <- <-|].
  destruct (build_graph count deps) as [s g] eqn:Eg. destruct (is_ok s) eqn:Es.
  2:{ injection E as <- <-. split; [done|]. split; [done|]. intros ->. done. }
  apply bool_decide_eq_true in Es as ->. destruct (build_graph_spec _ _ _ Eg) as (Ig & Hn & He). injection E as <- <-.
  split; [|done]. pose proof (idle_graph_inv g (accepting (pool r)) Ig) as I0.
  split; cbn; [apply I|apply (graph_inv_mono 0); [apply I|done]| | | |by rewrite Ha; apply Ig].
  - split; cbn; [done|]. intros _. split; [apply Ig|]. by split.
  - intros Hf. by destruct Hf; apply Ig.
  - intros t [= <-]. split; cbn; [by rewrite Hn, length_seq|done].
Qed.

(** Starting the graph of an idle renderer. *)
Lemma graph_start_ok k r j x c active : renderer_inv k r -> renderer_active r = false -> (k < 2 ^ 64 - 1)%Z ->
  let graph_status := fst (fst (ExecutionGraph.start (accepting (pool r)) (graph (pool r)))) in
  let p := default (pool r) (ExecutionGraph.choose (pool r) Start) in
  graph_inv (k + 1) p /\ pool_inv p /\ failed_by_rejection p /\
  (forall t, render_topology r = Some t -> graph_matches (graph p) t) /\
  if ExecutionGraph.is_ok graph_status then state (graph p) <> IDLE /\ began (log p) = [] /\ ended (log p) = []
  else renderer_inv (k + 1) (with_run r p j x c active) \/ active = true.
Proof.
  intros I Ha Hk. cbn zeta. pose proof (ri_batch _ _ I) as Hidle. rewrite Ha in Hidle.
  destruct (start_views k _ (ri_graph _ _ I)) as (p & Ep & _ & Hn & He & Hs).
  pose proof (graph_choose_inv k _ _ _ ltac:(lia) Ep (ri_graph _ _ I)) as G.
  pose proof (choose_pool _ _ _ (ri_pool _ _ I) Ep) as P. pose proof (choose_failed _ _ _ Ep (ri_failed _ _ I)) as F.
  assert (T : forall t, render_topology r = Some t -> graph_matches (graph p) t).
  { intros t Ht. destruct (ri_topology _ _ I t Ht) as [T1 T2]. split; [by rewrite Hn|]. intros i i'. by rewrite He. }
  rewrite Ep. cbn [default from_option id]. split; [exact G|]. split; [done|]. split; [done|]. split; [done|].
  destruct (ExecutionGraph.is_ok _); [done|]. destruct Hs as [Hs _]. destruct active; [by right|left].
  split; cbn [with_run pool render_topology renderer_active]; try done; [pose proof (ri_bound _ _ I); lia|by rewrite Hs].
Qed.

Lemma renderer_inv_mono k k' r : (k <= k')%Z -> renderer_inv k r -> renderer_inv k' r.
Proof.
  intros Hk [I1 I2 I3 I4 I5 I6]. split; try done; [lia|by eapply graph_inv_mono|]. destruct (renderer_active r); [|done].
  destruct I6 as (b & tr & [[] A2 A3 A4]). exists b, tr. split; try done. split; try done. by eapply graph_inv_mono.
Qed.

(** A batch that starts. *)
Definition started (k : Z) (r : ParallelRenderer) (d : LayoutDescription Frame) (layout : AbsoluteLayout) (theme : Theme)
    (base_cell : option Cell) (c : Canvas) : Prop :=
  active_inv k (batch_of d layout theme (opened base_cell c)) r [] /\
  get_drawable_buffer (opened base_cell c) = get_drawable_buffer c.

Lemma open_canvas base_cell c c1 s c2 : canvas_inv c -> begin_frame c = (OK, c1) ->
  match base_cell with Some cell => clear cell c1 | None => (OK, c1) end = (s, c2) ->
  s = OK /\ c2 = opened base_cell c /\ canvas_inv c2 /\ frame_in_progress c2 = true /\
  get_drawable_buffer c2 = get_drawable_buffer c.
Proof.
  intros Ic E1 E2. destruct (begin_ok _ _ Ic E1) as (B1 & B2 & B3 & _). unfold opened. rewrite E1. cbn [snd].
  destruct base_cell as [cell|]; [|by injection E2 as <- <-].
  assert (Es : s = OK) by (unfold clear in E2; rewrite B2 in E2; by injection E2). subst s.
  destruct (clear_ok _ _ _ B1 E2) as (C1 & C2 & C3 & _). rewrite E2. cbn. rewrite C2, C3. done.
Qed.

Lemma render_start_inv k r description layout theme canvas base_cell : renderer_inv k r -> (k < 2 ^ 64 - 1)%Z ->
  valid_inputs description layout canvas ->
  let '(status, r') := start description layout theme canvas base_cell r in
  renderer_inv (k + 1) r' /\
  (status = OK -> exists d c, description = Some d /\ canvas = Some c /\ started (k + 1) r' d layout theme base_cell c).
Proof.
  intros I Hk [Hlayout Hcanvas]. unfold start. destruct (renderer_active r) eqn:Ha.
  { split; [apply (renderer_inv_mono k); [lia|done]|done]. }
  assert (Hsame : renderer_inv (k + 1) r) by (apply (renderer_inv_mono k); [lia|done]).
  destruct (accepting (pool r)) eqn:Hacc; [|done]. destruct description as [d|]; [|done]. destruct canvas as [c|]; [|done].
  specialize (Hlayout d eq_refl). specialize (Hcanvas c eq_refl).
  destruct (check_layout (frames (z_buffer d)) layout) eqn:Hc; cbn [negb]; [|done].
  destruct (prepare_graph _ _ r) as [status r1] eqn:Ep. destruct (prepare_graph_inv _ _ _ _ _ _ I Ha Ep) as (I1 & Ha1 & Ht).
  destruct (is_ok status) eqn:Es; cbn [negb].
  2:{ split; [apply (renderer_inv_mono k); [lia|done]|]. intros ->. done. }
  apply bool_decide_eq_true in Es as ->. specialize (Ht eq_refl).
  assert (Hplain : forall c', renderer_inv (k + 1) (with_run r1 (pool r1) (jobs r1) (context r1) c' false)).
  { intros c'. destruct I1 as [J1 J2 J3 J4 J5 J6]. rewrite Ha1 in J6. split; cbn; try done; [lia|]. apply (graph_inv_mono k); [lia|done]. }
  destruct (begin_frame c) as [s1 c1] eqn:E1. destruct (is_ok s1) eqn:Es1; cbn [negb].
  2:{ split; [apply Hplain|]. intros ->. done. }
  apply bool_decide_eq_true in Es1 as ->.
  destruct (match base_cell with Some cell => clear cell c1 | None => (OK, c1) end) as [s2 c2] eqn:E2.
  destruct (open_canvas _ _ _ _ _ Hcanvas E1 E2) as (-> & Ec2 & C1 & C2 & C3). change (is_ok OK) with true. cbn [negb].
  set (x := prepare d layout theme _).
  destruct (graph_start_ok k r1 ∅ x c2 true I1 Ha1 Hk) as (G1 & G2 & G3 & G4 & G5).
  destruct (graph_start_ok k r1 (jobs r1) (context_reset (snd (fst (cancel_after_graph_failure x c2))))
    (snd (cancel_after_graph_failure x c2)) false I1 Ha1 Hk) as (_ & _ & _ & _ & G6).
  destruct (ExecutionGraph.is_ok _) eqn:Eg.
  2:{ destruct (cancel_after_graph_failure x c2) as [[s x'] c'] eqn:Ex. destruct G6 as [G6|]; [|done]. split; [exact G6|].
      intros E. unfold map_graph_status in E. rewrite Eg in E. by destruct (bool_decide _). }
  clear G6. destruct G5 as (G5 & G6 & G7). set (p := default (pool r1) _) in *.
  set (b := batch_of d layout theme c2).
  assert (A : active_inv (k + 1) b (with_run r1 p ∅ x c2 true) []).
  { split.
    - split; cbn [with_run pool render_topology renderer_active]; try done; [by apply (G4 _ Ht)| |by eexists].
      intros i j Hd. by apply (G4 _ Ht).
    - by apply batch_of_ok.
    - by apply check_layout_spec.
    - split; cbn [with_run pool jobs context target]; try done.
      + intros i. rewrite G6, lookup_empty. split; [by intros ?%elem_of_nil|by intros [? ?]].
      + intros i. rewrite G7. by intros ?%elem_of_nil.
      + constructor.
      + unfold finished_set. rewrite map_filter_empty, dom_empty_L, size_empty. cbn. lia.
      + apply phase_open; cbn [with_run jobs context target]; [by intros i j; rewrite lookup_empty|done| |].
        * unfold batch_canvas. cbn. by rewrite stored_nil.
        * unfold finished_set. rewrite map_filter_empty, dom_empty_L, size_empty. unfold node_count. lia. }
  split.
  - split; cbn [with_run pool render_topology renderer_active]; try done; [pose proof (ri_bound _ _ I); lia|]. by exists b, [].
  - intros _. exists d, c. split; [done|]. split; [done|]. unfold started. by rewrite <- Ec2.
Qed.

(** ** Steps *)

Lemma batch_step k b r tr s r' : active_inv k b r tr -> (0 <= k < 2 ^ 64 - 1)%Z -> render_step r s = Some r' ->
  exists tr', active_inv k b r' tr'.
Proof.
  intros [P B Hl I] Hk E. destruct s as [choice|thread].
  - destruct (schedule_inv k b r tr choice r' P I B Hk E) as [P' I']. by exists tr.
  - destruct (work_inv k b r tr thread r' P I B E) as [P' [tr' I']]. by exists tr'.
Qed.

Lemma batch_steps k b steps : forall r tr r', active_inv k b r tr -> (0 <= k < 2 ^ 64 - 1)%Z -> render_steps r steps = Some r' ->
  exists tr', active_inv k b r' tr'.
Proof.
  induction steps as [|s steps IH]; intros r tr r' A Hk E; cbn [render_steps] in E; [injection E as <-; by exists tr|].
  apply bind_Some in E as (r1 & E1 & E). destruct (batch_step _ _ _ _ _ _ A Hk E1) as [tr1 A1]. by eapply IH.
Qed.

(** The pool during a step. *)
Lemma render_step_pool r s r' : render_step r s = Some r' ->
  render_topology r' = render_topology r /\ renderer_active r' = renderer_active r /\
  match s with
  | Schedule choice => schedulable choice = true /\ ExecutionGraph.choose (pool r) choice = Some (pool r')
  | Work thread => pool r' = pool r
  end.
Proof.
  destruct s as [choice|thread]; cbn [render_step].
  - destruct (schedulable choice) eqn:Hs; cbn [andb]; [|done]. destruct (job_allows r choice); [|done].
    destruct (ExecutionGraph.choose (pool r) choice) as [p|]; [|done]. cbn. destruct (called r choice) as [i|]; [|by intros [= <-]].
    intros (t & _ & (j & _ & E)%bind_Some)%bind_Some. by injection E as <-.
  - destruct (tasks (pool r) !! thread) as [[]|]; try done. destruct (jobs r !! node); [|done]. cbn.
    destruct (job_step _ _ _) as [[[? ?] ?]|]; [|done]. cbn. by intros [= <-].
Qed.

Lemma idle_choose k (w : ExecutionGraph.World nat) c w' : graph_inv k w -> state (graph w) = IDLE -> schedulable c = true ->
  ExecutionGraph.choose w c = Some w' -> state (graph w') = IDLE.
Proof.
  intros I Hs Hc E. destruct (gi_idle _ _ I Hs) as [Hq Hb]. destruct c as [j| | | | | |]; try done; cbn [choose] in E.
  - destruct (tasks w !! j) as [t|] eqn:Et; [|done]. cbn in E. pose proof (step_frame (accepting w) (graph w) (queue w) t) as Hf.
    destruct (task_step _ _ _ t) as [[[g q] next] events]. injection E as <-. destruct Hf as (_ & _ & _ & _ & _ & _ & F).
    rewrite Forall_forall in Hb. destruct F as [-> _]; [unfold is_running; by rewrite Hs| |done].
    apply Hb. by eapply list_elem_of_lookup_2.
  - destruct (accepting w); [|done]. destruct (queue w) as [|[run i] q]; [done|]. by injection E as <-.
  - destruct (accepting w); [|done]. by injection E as <-.
Qed.

Lemma step_renderer_inv k r s r' : renderer_inv k r -> (k < 2 ^ 64 - 1)%Z -> render_step r s = Some r' -> renderer_inv k r'.
Proof.
  intros I Hk E. pose proof (ri_bound _ _ I) as Hk0. destruct (render_step_pool _ _ _ E) as (Ht & Ha & Hp).
  assert (Hpool : graph_inv k (pool r') /\ pool_inv (pool r') /\ failed_by_rejection (pool r') /\
    topology (graph (pool r')) = topology (graph (pool r)) /\ (state (graph (pool r)) = IDLE -> state (graph (pool r')) = IDLE)).
  { destruct s as [choice|thread]; [|rewrite Hp; split_and!; try done; apply I]. destruct Hp as [Hs Hp].
    pose proof (graph_choose_inv k _ _ _ ltac:(lia) Hp (ri_graph _ _ I)) as G.
    assert (Hns : is_start choice = false) by (by destruct choice). rewrite Hns in G.
    destruct (choose_views k _ _ _ (ri_graph _ _ I) Hp) as (_ & _ & Hto & _); [by destruct choice|].
    split; [done|]. split; [eapply choose_pool; [apply I|done]|]. split; [eapply choose_failed; [done|apply I]|].
    split; [done|]. intros Hid. eapply idle_choose; [apply I|done..]. }
  destruct Hpool as (P1 & P2 & P3 & P4 & P5). pose proof (ri_batch _ _ I) as Hb.
  split; rewrite ?Ht, ?Ha; try done.
  - intros t E'. destruct (ri_topology _ _ I t E') as [T1 T2]. split; [by rewrite P4|]. intros i j. by rewrite P4.
  - destruct (renderer_active r); [|by apply P5]. destruct Hb as (b & tr & A). destruct (batch_step _ _ _ _ _ _ A (conj Hk0 Hk) E) as [tr' A'].
    by exists b, tr'.
Qed.

(** ** Collection *)

Abbreviation total b := (node_count (length (b_frames b))).

(** Once the graph has completed, every job has returned, and the transaction
    has ended unless a node was rejected. *)
Lemma complete_phase k b r tr : active_inv k b r tr -> state (graph (pool r)) = ExecutionGraph.COMPLETE ->
  if decide (run_status (graph (pool r)) = DependencyGraph.OK)
  then (forall i, (i < total b)%nat -> jobs r !! i = Some Returned) /\ is_published (context r) = true /\
       target r = ended_canvas b tr (context_status (context r))
  else is_published (context r) = false /\ target r = batch_canvas b tr.
Proof.
  intros [P B Hl I] Hs. destruct (complete_facts k _ (po_graph _ _ _ P) (po_failed _ _ _ P) Hs) as [Hbe Hc].
  assert (Hret : forall i j, jobs r !! i = Some j -> j = Returned).
  { intros i j Hj. assert (Hi : i ∈ began (log (pool r))) by (apply (bi_began _ _ _ I); by rewrite Hj).
    rewrite Hbe in Hi. apply (bi_ended _ _ _ I) in Hi. congruence. }
  rewrite (po_nodes _ _ _ P) in Hc. case_decide as Ho.
  - assert (Hall : forall i, (i < total b)%nat -> jobs r !! i = Some Returned).
    { intros i Hi. assert (Hin : i ∈ began (log (pool r))) by (rewrite Hc; apply elem_of_seq; lia).
      rewrite Hbe in Hin. by apply (bi_ended _ _ _ I). }
    destruct (bi_phase _ _ _ I) as [H1 H2 H3 H4|i j H1 H2 H3|H1 H2 H3]; [exfalso| |done].
    + assert (Hsub : set_seq 0 (total b) ⊆ finished_set (jobs r)).
      { intros i Hi%elem_of_set_seq. apply elem_finished. exists Returned. split; [apply Hall; lia|done]. }
      apply subseteq_size in Hsub. rewrite size_set_seq in Hsub. lia.
    + apply Hret in H1 as ->. done.
  - destruct Hc as (i & Hi & Hn). rewrite (bi_began _ _ _ I) in Hn.
    destruct (bi_phase _ _ _ I) as [H1 H2 H3 H4|i' j H1 H2 H3|H1 H2 H3]; [done| |].
    + apply Hret in H1 as ->. done.
    + exfalso. apply Hn. by rewrite H1.
Qed.

(** Every frame has stored everything. *)
Lemma returned_stores b r tr : batch_inv b r tr -> (forall i, (i < total b)%nat -> jobs r !! i = Some Returned) ->
  forall i, (i < length (b_frames b))%nat -> stores_by i tr = frame_stores b i.
Proof.
  intros I Hall i Hi. assert (Hi' : (i < total b)%nat) by (unfold node_count; lia).
  pose proof (jo_stores _ _ _ _ (bi_jobs _ _ _ I _ _ (Hall i Hi'))) as E. cbn in E. by rewrite app_nil_r in E.
Qed.

Lemma trace_frames k b r tr : active_inv k b r tr -> Forall (fun e => (e.1 < length (b_frames b))%nat) tr.
Proof.
  intros [P B Hl I]. pose proof (bi_trace _ _ _ I) as Ht. rewrite Forall_forall in Ht |- *. intros e He. specialize (Ht e He).
  pose proof (jobs_bound _ _ _ _ _ P I Ht) as Hb. destruct (decide (length (b_frames b) = 0)%nat) as [Hz|]; [|unfold node_count in Hb; lia].
  exfalso. destruct Ht as [j Hj]. pose proof (jo_stores _ _ _ _ (bi_jobs _ _ _ I _ _ Hj)) as E.
  unfold frame_stores, program in E. rewrite (lookup_ge_None_2 (b_frames b)) in E by lia. cbn in E. apply app_eq_nil in E as [E _].
  apply (elem_of_nil e.2). rewrite <- E. apply list_elem_of_omap. exists e. by rewrite Nat.eqb_refl.
Qed.

(** A complete and successful batch shows the frames drawn one by one. *)
Lemma complete_image k b r tr : active_inv k b r tr -> (forall i, (i < total b)%nat -> jobs r !! i = Some Returned) ->
  context_status (context r) = OK ->
  draw_entries (b_frames b) (b_layout b) (b_theme b) (b_canvas b) = (OK, batch_canvas b tr).
Proof.
  intros A Hall Hok. pose proof (trace_frames _ _ _ _ A) as Ht. destruct A as [P B Hl I]. apply batch_sequential; try done; [apply I|].
  intros i Hi. split; [by eapply returned_stores|]. apply (bi_status _ _ _ I); [done|done|]. apply elem_finished.
  exists Returned. split; [|done]. apply Hall. unfold node_count. lia.
Qed.


Lemma wait_spec k b r tr s r' : active_inv k b r tr -> pool_inv (pool r) -> wait r = Some (s, r') ->
  renderer_active r' = false /\
  (s = OK -> draw_entries (b_frames b) (b_layout b) (b_theme b) (b_canvas b) = (OK, batch_canvas b tr) /\
             target r' = snd (end_frame (batch_canvas b tr))) /\
  (s <> OK -> target r' = snd (cancel_frame (batch_canvas b tr)) /\
     (s = ASYNC_DISPATCH_FAILED /\ accepting (pool r) = false \/
      exists i, (i < length (b_frames b))%nat /\ s = frame_result b i)).
Proof.
  intros A Hp E. pose proof A as [P B Hl I]. unfold wait in E. rewrite (po_active _ _ _ P) in E. cbn [negb] in E.
  apply bind_Some in E as ([gs g] & Ew & E).
  assert (Hs : state (graph (pool r)) = ExecutionGraph.COMPLETE /\ gs = run_status (graph (pool r))).
  { unfold ExecutionGraph.wait in Ew. pose proof (po_running _ _ _ P) as Hr.
    destruct (state (graph (pool r))); [done|done|]. by injection Ew as <- <-. }
  destruct Hs as [Hs ->]. pose proof (complete_phase _ _ _ _ A Hs) as Hc. case_decide as Ho.
  - rewrite (proj2 (graph_is_ok_spec _)) in E by done. injection E as <- <-. cbn [with_run renderer_active target].
    destruct Hc as (Hall & _ & Ht). split; [done|]. rewrite Ht. unfold ended_canvas. split.
    + intros Hok. rewrite Hok. split; [by eapply complete_image|done].
    + intros Hne. assert (Hf : is_ok (context_status (context r)) = false) by (by apply bool_decide_false). rewrite Hf.
      split; [done|]. right. by apply (bi_source _ _ _ I).
  - assert (Hf : ExecutionGraph.is_ok (run_status (graph (pool r))) = false) by (by apply bool_decide_false).
    rewrite Hf in E. destruct Hc as [Hpub Ht]. unfold cancel_after_graph_failure in E. rewrite Hpub in E.
    injection E as <- <-. cbn [with_run renderer_active target]. rewrite Ht. split; [done|].
    destruct (is_ok (context_status (context r))) eqn:Hok; (split; [|intros Hne; split; [done|]]).
    + done.
    + left. split; [done|]. destruct (accepting (pool r)) eqn:Ha; [|done]. exfalso. apply Ho. by apply Hp.
    + intros Hx. by rewrite Hx in Hok.
    + right. by apply (bi_source _ _ _ I).
Qed.

Lemma wait_idle r s r' : renderer_active r = false -> wait r = Some (s, r') -> r' = r.
Proof. unfold wait. intros ->. by intros [= <- <-]. Qed.

Lemma wait_renderer_inv k r s r' : renderer_inv k r -> wait r = Some (s, r') -> renderer_inv k r'.
Proof.
  intros I E. pose proof (ri_batch _ _ I) as Hb. destruct (renderer_active r) eqn:Ha; [|by apply wait_idle in E as ->].
  unfold wait in E. rewrite Ha in E. cbn [negb] in E. apply bind_Some in E as ([gs g] & Ew & E).
  pose proof (wait_inv _ _ _ _ Ew (ri_graph _ _ I)) as G.
  assert (Ec : ExecutionGraph.choose (pool r) Wait = Some (with_graph (pool r) g)) by (cbn; by rewrite Ew).
  pose proof (choose_pool _ _ _ (ri_pool _ _ I) Ec) as P. pose proof (choose_failed _ _ _ Ec (ri_failed _ _ I)) as F.
  assert (Hg : state g = IDLE /\ topology g = topology (graph (pool r))).
  { unfold ExecutionGraph.wait in Ew. destruct (state (graph (pool r))) eqn:Es; [by injection Ew as <- <-|done|by injection Ew as <- <-]. }
  destruct Hg as [Hg1 Hg2].
  destruct (if ExecutionGraph.is_ok gs then _ else _) as [[status x] c]. injection E as <- <-.
  split; cbn [with_run pool render_topology renderer_active with_graph graph]; try done; [apply I|].
  intros t Ht. destruct (ri_topology _ _ I t Ht) as [T1 T2]. split; [by rewrite Hg2|]. intros i j. by rewrite Hg2.
Qed.

Lemma history_renderer_inv k r : renderer_history k r -> (k < 2 ^ 64 - 1)%Z -> renderer_inv k r.
Proof.
  induction 1 as [c|k r d layout theme canvas base Hr IH Hv|k r s r' Hr IH E|k r s r' Hr IH E]; intros Hk.
  - apply renderer_inv_new.
  - assert (I : renderer_inv k r) by (apply IH; lia).
    pose proof (render_start_inv k r d layout theme canvas base I ltac:(lia) Hv) as Hs. by destruct (start _ _ _ _ _ _) as [s r'], Hs.
  - by eapply step_renderer_inv; [apply IH|done|].
  - by eapply wait_renderer_inv; [apply IH|].
Qed.

Lemma steps_renderer_inv k steps : forall r r', renderer_inv k r -> (k < 2 ^ 64 - 1)%Z -> render_steps r steps = Some r' -> renderer_inv k r'.
Proof.
  induction steps as [|s steps IH]; intros r r' I Hk E; cbn [render_steps] in E; [by injection E as <-|].
  apply bind_Some in E as (r1 & E1 & E). eapply IH; [|done|exact E]. by eapply step_renderer_inv.
Qed.

(** A batch from its start to any later point. *)
Lemma batch_history k r d layout theme c base_cell r1 steps r2 : renderer_history k r -> (k < 2 ^ 64 - 2)%Z ->
  layout_ordered d layout -> canvas_inv c ->
  start (Some d) layout theme (Some c) base_cell r = (OK, r1) -> render_steps r1 steps = Some r2 ->
  exists tr, active_inv (k + 1) (batch_of d layout theme (opened base_cell c)) r2 tr /\ renderer_inv (k + 1) r2 /\
    get_drawable_buffer (opened base_cell c) = get_drawable_buffer c.
Proof.
  intros Hh Hk Hl Hc E1 E2. pose proof (history_renderer_inv k r Hh ltac:(lia)) as I.
  pose proof (render_start_inv k r (Some d) layout theme (Some c) base_cell I ltac:(lia)) as Hs. rewrite E1 in Hs.
  destruct Hs as [I1 Hs]; [by split; intros ? [= <-]|]. destruct (Hs eq_refl) as (d' & c' & [= <-] & [= <-] & A & Hd).
  pose proof (ri_bound _ _ I) as Hk0.
  destruct (batch_steps _ _ _ _ _ _ A ltac:(lia) E2) as [tr A2]. exists tr. split; [done|]. split; [|done].
  eapply steps_renderer_inv; [exact I1|lia|exact E2].
Qed.

(** What the screen shows during a batch: the old image until the batch is
    complete. *)
Lemma batch_visible k b r tr : active_inv k b r tr ->
  get_drawable_buffer (target r) = get_drawable_buffer (b_canvas b) \/
  exists c, draw_entries (b_frames b) (b_layout b) (b_theme b) (b_canvas b) = (OK, c) /\ target r = snd (end_frame c).
Proof.
  intros A. pose proof A as [P B Hl I].
  assert (Hopen : target r = batch_canvas b tr -> get_drawable_buffer (target r) = get_drawable_buffer (b_canvas b))
    by (intros ->; apply stored_drawable).
  assert (Hended : (forall i, (i < total b)%nat -> exists j, jobs r !! i = Some j /\ finished j = true) ->
    target r = ended_canvas b tr (context_status (context r)) ->
    get_drawable_buffer (target r) = get_drawable_buffer (b_canvas b) \/
    exists c, draw_entries (b_frames b) (b_layout b) (b_theme b) (b_canvas b) = (OK, c) /\ target r = snd (end_frame c)).
  { intros Hall Ht. rewrite Ht. unfold ended_canvas. destruct (is_ok (context_status (context r))) eqn:Hok.
    - right. exists (batch_canvas b tr). split; [|done]. apply bool_decide_eq_true in Hok. apply batch_sequential; try done;
        [apply I|by eapply trace_frames|]. intros i Hi. assert (Hi' : (i < total b)%nat) by (unfold node_count; lia).
      destruct (Hall i Hi') as (j & Hj & Hf). split.
      + pose proof (jo_stores _ _ _ _ (bi_jobs _ _ _ I _ _ Hj)) as E. destruct j; try done; cbn in E; by rewrite app_nil_r in E.
      + apply (bi_status _ _ _ I); [done|done|]. apply elem_finished. eauto.
    - left. unfold cancel_frame. change (frame_in_progress (batch_canvas b tr)) with (frame_in_progress (b_canvas b)).
      rewrite (bo_progress _ B). cbn [negb snd]. apply (stored_drawable (b_canvas b)). }
  destruct (bi_phase _ _ _ I) as [H1 H2 H3 H4|i j H1 H2 H3 H4 H5|H1 H2 H3]; [left; by apply Hopen| |].
  - destruct j; try done; [left; by apply Hopen|left; by apply Hopen; apply H5|]. apply Hended; [|apply H5].
    intros i' Hi'. destruct (decide (i' = i)) as [->|Hn]; [eauto|]. exists Returned. by rewrite H3.
  - apply Hended; [|done]. intros i Hi. exists Returned. by rewrite H1.
Qed.

(** ** Completion *)

(** The steps of the threads. *)
Definition thread_step (s : RenderStep) : bool :=
  match s with Schedule choice => pool_step choice | Work _ => true end.

(** The steps a job has left. *)
Fixpoint drawing_measure (c : Canvas) (d : Drawing) : nat :=
  match d with
  | Drawn _ => 5
  | Writing rect cells continue =>
      let status := check_write c rect cells in
      (if is_ok status then 2 + length (write_stores (width c) rect cells) else 1) + drawing_measure c (continue status)
  end.

Definition job_measure (c : Canvas) (j : JobState) : nat :=
  match j with
  | Drawing_ d => drawing_measure c d
  | Storing pending d => 1 + length pending + drawing_measure c d
  | Finishing _ => 4
  | Publishing => 3
  | Ending _ => 2
  | Recording _ => 1
  | Returned => 0
  end.

Definition node_measure (b : Batch) (jobs : gmap nat JobState) (i : nat) : nat :=
  match jobs !! i with
  | Some j => job_measure (b_canvas b) j
  | None => if (length (b_frames b) =? 0)%nat then 3 else drawing_measure (b_canvas b) (program b i)
  end.

Definition batch_measure (b : Batch) r : nat :=
  graph_measure (pool r) + sum_list_with (node_measure b (jobs r)) (seq 0 (total b)).

Lemma sum_insert (f g : nat -> nat) i m n : (m <= i < m + n)%nat -> (forall i', i' <> i -> f i' = g i') ->
  (sum_list_with f (seq m n) + g i = sum_list_with g (seq m n) + f i)%nat.
Proof.
  revert m. induction n as [|n IH]; intros m Hi He; [lia|]. cbn [seq sum_list_with].
  destruct (decide (m = i)) as [->|Hn].
  - assert (E : sum_list_with f (seq (S i) n) = sum_list_with g (seq (S i) n)); [|lia].
    clear - He. assert (Hb : forall x, x ∈ seq (S i) n -> f x = g x) by (intros x Hx%elem_of_seq; apply He; lia).
    revert Hb. induction (seq (S i) n) as [|x l IH]; intros Hb; [done|]. cbn. rewrite (Hb x) by (apply elem_of_cons; by left).
    rewrite IH; [done|]. intros y Hy. apply Hb, elem_of_cons. by right.
  - specialize (IH (S m) ltac:(lia) He). rewrite (He m) by done. lia.
Qed.

Lemma sum_same (f g : nat -> nat) l : (forall i, f i = g i) -> sum_list_with f l = sum_list_with g l.
Proof. intros He. induction l as [|x l IH]; [done|]. cbn. by rewrite He, IH. Qed.

Lemma job_step_measure k b r tr i j j' x c : active_inv k b r tr -> jobs r !! i = Some j -> i ∉ ended (log (pool r)) ->
  job_step j (context r) (target r) = Some (j', x, c) -> (job_measure (b_canvas b) j' < job_measure (b_canvas b) j)%nat.
Proof.
  intros [P B Hl I] Hj He E. destruct (finished j) eqn:Hf.
  - destruct j; try done; cbn [job_step] in E; [injection E as <- _ _; cbn; lia| |injection E as <- _ _; cbn; lia].
    destruct (if is_ok aggregate then _ else _). injection E as <- _ _. cbn. lia.
  - destruct (unfinished_open _ _ _ _ _ _ P I Hj Hf) as (_ & _ & Ht & _).
    destruct j as [[result|rect cells continue]|[|s pending] d|s| | | |]; try done; cbn [job_step] in E.
    + injection E as <- _ _. cbn. lia.
    + injection E as <- _ _. rewrite Ht. change (check_write (batch_canvas b tr) rect cells) with (check_write (b_canvas b) rect cells).
      change (width (batch_canvas b tr)) with (width (b_canvas b)). cbn [job_measure drawing_measure].
      destruct (is_ok _) eqn:Ec; cbn [job_measure]; [|lia]. apply bool_decide_eq_true in Ec. rewrite Ec. lia.
    + injection E as <- _ _. cbn. lia.
    + injection E as <- _ _. cbn [job_measure length]. lia.
    + destruct (finish_frame s (context r)) as [x' publish]. injection E as <- _ _. destruct publish; cbn; lia.
Qed.

Lemma thread_step_measure k b r tr s r' : active_inv k b r tr -> (0 <= k < 2 ^ 64 - 1)%Z -> thread_step s = true ->
  render_step r s = Some r' -> (batch_measure b r' < batch_measure b r)%nat.
Proof.
  intros A Hk Hs E. destruct (batch_step _ _ _ _ _ _ A Hk E) as [tr' A']. pose proof A as [P B Hl I].
  destruct s as [choice|thread].
  - destruct (render_step_pool _ _ _ E) as (_ & _ & _ & Ep).
    assert (Hm : (graph_measure (pool r') < graph_measure (pool r))%nat).
    { destruct choice; try done; [eapply advance_measure|eapply take_measure]; try apply Ep; try apply A'; apply P. }
    assert (Hn : forall i, node_measure b (jobs r') i = node_measure b (jobs r) i).
    { cbn [render_step] in E. destruct (schedulable choice && job_allows r choice); [|done].
      apply bind_Some in E as (p & _ & E). destruct (called r choice) as [i|] eqn:Ec; [|by injection E as <-].
      apply bind_Some in E as (t & Et & E). apply bind_Some in E as (j & Ej & E). injection E as <-.
      destruct (po_topology _ _ _ P) as [deps Ht]. rewrite Ht in Et. injection Et as <-. cbn [frame_count] in Ej.
      intros i'. unfold node_measure. cbn [with_run jobs]. destruct (decide (i = i')) as [<-|]; [|by rewrite lookup_insert_ne].
      rewrite lookup_insert_eq.
      assert (Hnew : jobs r !! i = None).
      { destruct (choose_views k _ _ _ (po_graph _ _ _ P) Ep) as (Hb & _); [by destruct choice|]. cbn [with_run pool] in Hb.
        rewrite called_begins, Ec in Hb. apply eq_None_not_Some. rewrite <- (bi_began _ _ _ I). intros Hin.
        destruct (gi_run _ _ (po_graph _ _ _ (ai_pool _ _ _ _ A'))) as [_ R]; [apply (ai_pool _ _ _ _ A')|].
        apply began_once in R. cbn [with_run pool] in R. rewrite Hb in R. apply NoDup_app in R as (_ & R & _). apply (R i Hin). by apply list_elem_of_singleton. }
      assert (Hi : (i < total b)%nat).
      { eapply jobs_bound; [apply A'|apply A'|]. cbn [with_run jobs]. by rewrite lookup_insert_eq. }
      rewrite Hnew. destruct (execute_job_ok k b r tr i j P I B Hi Hnew Ej) as (Hok & Hcl & Hfin & Htg & _).
      unfold execute_job in Ej. destruct (Nat.eqb_spec (length (b_frames b)) 0) as [Hz|Hz]; [by injection Ej as <-|].
      unfold render in Ej. rewrite (bi_inputs _ _ _ I) in Ej. cbn [mbind option_bind input_frames input_layout input_theme] in Ej.
      rewrite Htg in Ej. change (get_dimensions (batch_canvas b tr)) with (get_dimensions (b_canvas b)) in Ej.
      destruct (bo_rects _ B i) as (rect & Hr & _); [unfold node_count in Hi; lia|]. unfold rect_of, program in *.
      destruct (b_frames b !! i) as [e|]; [|done]. cbn in Hr. rewrite Hr in *. by injection Ej as <-. }
    unfold batch_measure. rewrite (sum_same _ _ _ Hn). lia.
  - cbn [render_step] in E. destruct (tasks (pool r) !! thread) as [t|] eqn:Et; [|done].
    destruct t as [| | | |run i|]; try done. apply bind_Some in E as (j & Hj & E). apply bind_Some in E as ([[j' x] c] & Es & E).
    injection E as <-. apply list_elem_of_lookup_2 in Et. destruct (executing_job _ _ _ _ (po_graph _ _ _ P) Et) as (_ & _ & _ & He).
    pose proof (job_step_measure _ _ _ _ _ _ _ _ _ A Hj He Es) as Hm. unfold batch_measure. cbn [with_run pool jobs].
    pose proof (jobs_bound _ _ _ _ i P I ltac:(by rewrite Hj)) as Hi.
    pose proof (sum_insert (node_measure b (<[i:=j']> (jobs r))) (node_measure b (jobs r)) i 0 (total b) ltac:(lia)) as Hsum.
    assert (Hoth : forall i', i' <> i -> node_measure b (<[i:=j']> (jobs r)) i' = node_measure b (jobs r) i').
    { intros i' Hn. unfold node_measure. by rewrite lookup_insert_ne. }
    specialize (Hsum Hoth). unfold node_measure in Hsum at 2 4. rewrite Hj, lookup_insert_eq in Hsum. lia.
Qed.

Lemma thread_steps_bounded k b steps : forall r tr r', active_inv k b r tr -> (0 <= k < 2 ^ 64 - 1)%Z ->
  Forall (fun s => thread_step s = true) steps -> render_steps r steps = Some r' ->
  (length steps + batch_measure b r' <= batch_measure b r)%nat.
Proof.
  induction steps as [|s steps IH]; intros r tr r' A Hk Hf E; cbn [render_steps] in E; [injection E as <-; cbn; lia|].
  apply Forall_cons in Hf as [Hs Hf]. apply bind_Some in E as (r1 & E1 & E).
  pose proof (thread_step_measure _ _ _ _ _ _ A Hk Hs E1) as Hm. destruct (batch_step _ _ _ _ _ _ A Hk E1) as [tr1 A1].
  specialize (IH _ _ _ A1 Hk Hf E). cbn [length]. lia.
Qed.

(** A thread inside a job, or about to call one, can move. *)
Lemma job_step_some j (x : RenderContext (Frame := Frame) (Theme := Theme)) c : j <> Returned -> is_Some (job_step j x c).
Proof.
  intros Hj. destruct j as [[]|[]| | | | |]; cbn [job_step]; try done.
  - by destruct (finish_frame _ _) as [x' p].
  - by destruct (if is_ok _ then _ else _) as [s c'].
Qed.

Lemma stuck_pool k b r tr : active_inv k b r tr -> (forall s, thread_step s = true -> render_step r s = None) -> pool_stuck (pool r).
Proof.
  intros [P B Hl I] Hst.
  assert (Hexec : forall choice, schedulable choice = true -> job_allows r choice = true ->
    is_Some (ExecutionGraph.choose (pool r) choice) -> is_Some (render_step r (Schedule choice))).
  { intros choice Hs Ha [p Ep]. cbn [render_step]. rewrite Hs, Ha. cbn [andb]. rewrite Ep. cbn [mbind option_bind].
    destruct (called r choice) as [i|]; [|done]. destruct (po_topology _ _ _ P) as [deps Ht]. rewrite Ht. cbn [mbind option_bind].
    unfold execute_job. destruct (_ =? 0)%nat; [done|]. unfold render. by rewrite (bi_inputs _ _ _ I). }
  intros choice Hc. apply eq_None_not_Some. intros Hp. destruct choice as [thread| | | | | |]; try done.
  - destruct (job_allows r (Advance thread)) eqn:Ha.
    + destruct (Hexec (Advance thread) eq_refl Ha Hp) as [r' Hr]. by rewrite (Hst (Schedule (Advance thread)) eq_refl) in Hr.
    + unfold job_allows in Ha. destruct (tasks (pool r) !! thread) as [[| | | |run i|]|] eqn:Et; try done.
      pose proof (list_elem_of_lookup_2 _ _ _ Et) as Hin.
      destruct (executing_job _ _ _ _ (po_graph _ _ _ P) Hin) as (_ & _ & Hb & _). apply (bi_began _ _ _ I) in Hb as [j Hj].
      rewrite Hj in Ha. destruct (job_step_some j (context r) (target r)) as [[[j' x'] c'] Es]; [by intros ->|].
      pose proof (Hst (Work thread) eq_refl) as Hn. cbn [render_step] in Hn. rewrite Et, Hj in Hn. cbn in Hn. by rewrite Es in Hn.
  - destruct (Hexec Take eq_refl eq_refl Hp) as [r' Hr]. by rewrite (Hst (Schedule Take) eq_refl) in Hr.
Qed.

Lemma steps_accepting steps : forall r r', Schedule Shutdown ∉ steps -> render_steps r steps = Some r' ->
  accepting (pool r') = accepting (pool r).
Proof.
  induction steps as [|s steps IH]; intros r r' Hn E; cbn [render_steps] in E; [by injection E as <-|].
  apply not_elem_of_cons in Hn as [Hs Hn]. apply bind_Some in E as (r1 & E1 & E). rewrite (IH _ _ Hn E).
  destruct (render_step_pool _ _ _ E1) as (_ & _ & Hp). destruct s as [choice|thread]; [|by rewrite Hp].
  destruct Hp as [_ Hp]. apply (graph_play_accepting [choice]); [|cbn; by rewrite Hp].
  intros E0%list_elem_of_singleton. apply Hs. by rewrite <- E0.
Qed.

Lemma start_accepting description layout theme canvas base_cell r r' :
  start description layout theme canvas base_cell r = (OK, r') -> accepting (pool r') = true.
Proof.
  unfold start. destruct (renderer_active r); [done|]. destruct (accepting (pool r)) eqn:Ha; [|done].
  destruct description as [d|]; [|done]. destruct canvas as [c|]; [|done]. destruct (negb (check_layout _ _)); [done|].
  destruct (prepare_graph _ _ r) as [status r1] eqn:Ep.
  assert (Ha1 : accepting (pool r1) = true).
  { unfold prepare_graph in Ep. destruct (bool_decide _); [by injection Ep as <- <-|].
    destruct (build_graph _ _) as [s g]. by destruct (is_ok s); injection Ep as <- <-. }
  destruct (is_ok status) eqn:E0; cbn [negb]; [|by intros [= -> _]].
  destruct (begin_frame c) as [s1 c1]. destruct (is_ok s1) eqn:E1; cbn [negb]; [|by intros [= -> _]].
  destruct (match base_cell with Some cell => clear cell c1 | None => (OK, c1) end) as [s2 c2].
  destruct (is_ok s2) eqn:E2; cbn [negb]; [|by intros [= -> _]].
  assert (Hp : accepting (default (pool r1) (ExecutionGraph.choose (pool r1) Start)) = true).
  { destruct (ExecutionGraph.choose (pool r1) Start) as [p|] eqn:Ec; [|exact Ha1]. cbn [default from_option id].
    rewrite <- Ha1. apply (graph_play_accepting [Start]); [by intros ?%list_elem_of_singleton|]. cbn [play]. by rewrite Ec. }
  destruct (ExecutionGraph.is_ok _) eqn:Eg.
  - by intros [= <-].
  - destruct (cancel_after_graph_failure _ _) as [[s x] c']. intros [= E _]. unfold map_graph_status in E. rewrite Eg in E.
    by destruct (bool_decide _).
Qed.

Lemma layout_draw_batch d layout theme c : layout_draw (Some d) layout theme c =
  draw_entries (b_frames (batch_of d layout theme c)) (b_layout (batch_of d layout theme c)) (b_theme (batch_of d layout theme c))
    (b_canvas (batch_of d layout theme c)).
Proof. done. Qed.

(** A batch of frames that all succeed succeeds, unless the pool is shut down. *)
Lemma wait_result k b r tr s r' : active_inv k b r tr -> pool_inv (pool r) -> accepting (pool r) = true -> wait r = Some (s, r') ->
  s = OK <-> fst (draw_entries (b_frames b) (b_layout b) (b_theme b) (b_canvas b)) = OK.
Proof.
  intros A Hp Ha E. destruct (wait_spec _ _ _ _ _ _ A Hp E) as (_ & Hok & Hfail). split.
  - intros Hs. by destruct (Hok Hs) as [-> _].
  - intros Hd. destruct (decide (s = OK)) as [|Hne]; [done|]. exfalso.
    destruct (Hfail Hne) as [_ [[_ Hc]|(i & Hi & ->)]]; [congruence|]. apply Hne. destruct b as [entries layout theme c].
    cbn [b_frames b_layout b_theme b_canvas] in *. rewrite <- (stored_nil c) in Hd. by eapply draw_entries_fails in Hd.
Qed.
End Histories.

(** ** Properties *)

(** A layout computed for a screen satisfies what [start] asks. *)
Lemma computed_layout_ordered {Frame : Type} precision k (d : LayoutDescription Frame) w h cells layout d' :
  (64 <= precision)%Z -> history precision k d -> (k < 2 ^ 64)%Z ->
  is_u64 w -> is_u64 h -> is_u64 (cell_width cells) -> is_u64 (cell_height cells) ->
  compute_absolute_layout precision d w h cells = Some (Ok layout, d') -> layout_ordered d layout.
Proof.
  intros Hp Hd Hk Hw Hh Hcw Hch E.
  destruct (computed_dependencies precision k d w h cells layout d' Hp Hd Hk Hw Hh Hcw Hch E) as (Hon & _ & Hs). split.
  - intros id rect Hr. destruct (Hon id rect Hr) as [? [? ?]]. unfold rect_u64. width_lia.
  - intros i j a b ra rb Hij Ha Hb Hra Hrb Hx. apply Hs. split; [done|]. by exists a, b, ra, rb.
Qed.

(** C13. Whatever the renderer did before, however the worker threads interleave
    the stores of the frames, and whatever the graph and the pool do meanwhile:
    when [wait] returns [OK], drawing the frames one after the other from back
    to front succeeds as well, and the canvas is exactly the one that leaves,
    published. Otherwise the transaction is cancelled, the visible image is
    the one before the batch, and the status is the failure of one of the
    frames, or a dispatch failure after the pool was shut down. *)
Theorem parallel_image_sequential {Frame Theme : Type} `{FrameContract Frame Theme} k
    (r : ParallelRenderer (Frame := Frame) (Theme := Theme)) d layout theme c base_cell r1 steps r2 s r3 :
  renderer_history k r -> (k < 2 ^ 64 - 2)%Z -> layout_ordered d layout -> canvas_inv c ->
  start (Some d) layout theme (Some c) base_cell r = (OK, r1) -> render_steps r1 steps = Some r2 -> wait r2 = Some (s, r3) ->
  renderer_active r3 = false /\
  (s = OK -> exists c', layout_draw (Some d) layout theme (opened base_cell c) = (OK, c') /\ target r3 = snd (end_frame c')) /\
  (s <> OK -> get_drawable_buffer (target r3) = get_drawable_buffer c /\ frame_in_progress (target r3) = false /\
     (s = ASYNC_DISPATCH_FAILED /\ accepting (pool r2) = false \/
      exists i, (i < length (frames (z_buffer d)))%nat /\ s = frame_result (batch_of d layout theme (opened base_cell c)) i)).
Proof.
  intros Hh Hk Hl Hc E1 E2 E3. destruct (batch_history _ _ _ _ _ _ _ _ _ _ Hh Hk Hl Hc E1 E2) as (tr & A & I & Hd).
  destruct (wait_spec _ _ _ _ _ _ A (ri_pool _ _ I) E3) as (H1 & H2 & H3). split; [done|]. split.
  - intros Hs. destruct (H2 Hs) as [Hdraw Ht]. by eexists.
  - intros Hs. destruct (H3 Hs) as [-> Hsrc]. split; [|split; [|done]].
    + unfold cancel_frame. rewrite (bo_progress _ (ai_batch _ _ _ _ A) : frame_in_progress (batch_canvas _ tr) = true).
      cbn [negb snd]. rewrite <- Hd. exact (stored_drawable (opened base_cell c) (map snd tr)).
    + unfold cancel_frame. by rewrite (bo_progress _ (ai_batch _ _ _ _ A) : frame_in_progress (batch_canvas _ tr) = true).
Qed.

(** At every moment of a batch the visible image is either the one before it
    or the complete one, never a part of it or a mixture. *)
Theorem batch_never_partial {Frame Theme : Type} `{FrameContract Frame Theme} k
    (r : ParallelRenderer (Frame := Frame) (Theme := Theme)) d layout theme c base_cell r1 steps r2 :
  renderer_history k r -> (k < 2 ^ 64 - 2)%Z -> layout_ordered d layout -> canvas_inv c ->
  start (Some d) layout theme (Some c) base_cell r = (OK, r1) -> render_steps r1 steps = Some r2 ->
  get_drawable_buffer (target r2) = get_drawable_buffer c \/
  exists c', layout_draw (Some d) layout theme (opened base_cell c) = (OK, c') /\ target r2 = snd (end_frame c').
Proof.
  intros Hh Hk Hl Hc E1 E2. destruct (batch_history _ _ _ _ _ _ _ _ _ _ Hh Hk Hl Hc E1 E2) as (tr & A & _ & <-).
  by apply (batch_visible _ _ _ _ A).
Qed.

(** C14. The threads of a batch stop after a bounded number of steps. Where none can
    move and the pool was not shut down, [wait] returns, with [OK] exactly if
    drawing the frames one after the other succeeds. *)
Theorem batch_completes {Frame Theme : Type} `{FrameContract Frame Theme} k
    (r : ParallelRenderer (Frame := Frame) (Theme := Theme)) d layout theme c base_cell r1 steps r2 :
  renderer_history k r -> (k < 2 ^ 64 - 2)%Z -> layout_ordered d layout -> canvas_inv c ->
  start (Some d) layout theme (Some c) base_cell r = (OK, r1) -> render_steps r1 steps = Some r2 ->
  (exists bound, forall more r3, Forall (fun s => thread_step s = true) more -> render_steps r2 more = Some r3 ->
     (length more <= bound)%nat) /\
  ((forall s, thread_step s = true -> render_step r2 s = None) -> Schedule Shutdown ∉ steps ->
   exists s r3, wait r2 = Some (s, r3) /\ (s = OK <-> fst (layout_draw (Some d) layout theme (opened base_cell c)) = OK)).
Proof.
  intros Hh Hk Hl Hc E1 E2. destruct (batch_history _ _ _ _ _ _ _ _ _ _ Hh Hk Hl Hc E1 E2) as (tr & A & I & _).
  pose proof (ri_bound _ _ (history_renderer_inv _ _ Hh ltac:(lia))) as Hk0. split.
  - exists (batch_measure (batch_of d layout theme (opened base_cell c)) r2). intros more r3 Hf E3.
    pose proof (thread_steps_bounded (k + 1) _ more _ _ _ A ltac:(lia) Hf E3). lia.
  - intros Hst Hn. pose proof (steps_accepting _ _ _ Hn E2) as Ha. rewrite (start_accepting _ _ _ _ _ _ _ E1) in Ha.
    destruct (GraphProps.po_open _ (ri_pool _ _ I) Ha) as (_ & Hdis & _).
    pose proof (stuck_complete _ _ (ri_graph _ _ I) (ri_pool _ _ I) (stuck_pool _ _ _ _ A Hst) Hdis) as Hr.
    assert (Hw : is_Some (wait r2)).
    { unfold wait. rewrite (po_active _ _ _ (ai_pool _ _ _ _ A)). cbn [negb]. unfold ExecutionGraph.wait.
      destruct (state (graph (pool r2))); [by eexists|done|]. cbn. destruct (if ExecutionGraph.is_ok _ then _ else _) as [[? ?] ?]. by eexists. }
    destruct Hw as [[s r3] Hw]. exists s, r3. split; [done|]. rewrite layout_draw_batch. by eapply wait_result; [exact A|apply I|done|].
Qed.

(** ** Witnesses *)

(** Frames that fill their rectangle with one cell. *)
#[local] Instance fill_draw : FrameDraw Cell unit := fun cell _ _ rect =>
  Writing rect (replicate (Z.to_nat (rect_height rect)) (replicate (Z.to_nat (rect_width rect)) cell)) Drawn.

#[local] Instance fill_contract : FrameContract Cell unit.
Proof. intros cell theme dims rect Hu. cbn. unfold sub_rect. split; [done|]. split; [lia|]. by intros status. Qed.

Definition paper : Cell := {| character := 0x2e; foreground_color := 7; background_color := 0 |}.
Definition ink : Cell := {| character := 0x23; foreground_color := 1; background_color := 0 |}.

(** A full-screen frame with another one over its first column. *)
Definition stacked_description : LayoutDescription Cell :=
  snd (add_frame "front" (Some ink) [make_character_constraint MAX_WIDTH 1]
    (snd (add_frame "back" (Some paper) [] make_layout_description))).

Definition stacked_layout : AbsoluteLayout :=
  match compute_absolute_layout 64 stacked_description 2 2 {| cell_width := 1; cell_height := 1 |} with
  | Some (Ok layout, _) => layout
  | _ => empty_layout
  end.

Definition small_canvas : Canvas := new_canvas 2 2.
Definition idle_renderer : ParallelRenderer (Frame := Cell) (Theme := unit) := new_renderer small_canvas.
Definition started_renderer := snd (start (Some stacked_description) stacked_layout tt (Some small_canvas) (Some blank_cell) idle_renderer).

(** One thread draws the back, publishes nothing, then draws the front. *)
Definition drawing_steps : list RenderStep :=
  [Schedule (Advance 0); Schedule (Advance 0); Schedule Take; Schedule (Advance 0)] ++ replicate 8 (Work 0) ++
  replicate 4 (Schedule (Advance 0)) ++ [Schedule Take; Schedule (Advance 0)] ++ replicate 9 (Work 0) ++
  replicate 2 (Schedule (Advance 0)).

Definition drawn_renderer := default idle_renderer (render_steps started_renderer drawing_steps).
Definition halfway_renderer := default idle_renderer (render_steps started_renderer (take 9 drawing_steps)).
Definition collected_renderer := match wait drawn_renderer with Some (_, r) => r | None => drawn_renderer end.

Lemma stacked_history : history 64 0 stacked_description.
Proof. unfold stacked_description. repeat apply history_add_frame; [..|apply history_new]; repeat constructor; cbn; unfold in_width; cbn; lia. Qed.

Lemma stacked_ordered : layout_ordered stacked_description stacked_layout.
Proof.
  eapply (computed_layout_ordered 64 0 _ 2 2 {| cell_width := 1; cell_height := 1 |});
    [lia|apply stacked_history|lia|by split..|vm_compute; reflexivity].
Qed.

Lemma small_canvas_inv : canvas_inv small_canvas.
Proof. by apply new_canvas_inv. Qed.

Lemma stacked_start :
  start (Some stacked_description) stacked_layout tt (Some small_canvas) (Some blank_cell) idle_renderer = (OK, started_renderer).
Proof.
  unfold started_renderer. rewrite (surjective_pairing (start _ _ _ _ _ _)) at 1. by f_equal.
Qed.

Lemma drawn_steps_run : render_steps started_renderer drawing_steps = Some drawn_renderer.
Proof. vm_compute. reflexivity. Qed.
Lemma halfway_steps_run : render_steps started_renderer (take 9 drawing_steps) = Some halfway_renderer.
Proof. vm_compute. reflexivity. Qed.
Lemma drawn_wait : wait drawn_renderer = Some (OK, collected_renderer).
Proof. vm_compute. reflexivity. Qed.

Lemma parallel_image_sequential_witness :
  get_drawable_buffer (target collected_renderer) = [ink; paper; ink; paper] /\
  exists c', layout_draw (Some stacked_description) stacked_layout tt (opened (Some blank_cell) small_canvas) = (OK, c') /\
    target collected_renderer = snd (end_frame c').
Proof.
  split; [vm_compute; reflexivity|].
  exact (proj1 (proj2 (parallel_image_sequential 0 idle_renderer stacked_description stacked_layout tt small_canvas (Some blank_cell)
    started_renderer drawing_steps drawn_renderer OK collected_renderer (history_new_renderer small_canvas) eq_refl stacked_ordered
    small_canvas_inv stacked_start drawn_steps_run drawn_wait)) eq_refl).
Defined.

Lemma batch_never_partial_witness :
  writable_buffer (target halfway_renderer) <> writable_buffer (opened (Some blank_cell) small_canvas) /\
  (get_drawable_buffer (target halfway_renderer) = get_drawable_buffer small_canvas \/
   exists c', layout_draw (Some stacked_description) stacked_layout tt (opened (Some blank_cell) small_canvas) = (OK, c') /\
     target halfway_renderer = snd (end_frame c')).
Proof.
  split; [vm_compute; discriminate|].
  exact (batch_never_partial 0 idle_renderer stacked_description stacked_layout tt small_canvas (Some blank_cell)
    started_renderer (take 9 drawing_steps) halfway_renderer (history_new_renderer small_canvas) eq_refl stacked_ordered
    small_canvas_inv stacked_start halfway_steps_run).
Defined.

Lemma batch_completes_witness :
  exists bound, forall more r3, Forall (fun s => thread_step s = true) more -> render_steps halfway_renderer more = Some r3 ->
    (length more <= bound)%nat.
Proof.
  exact (proj1 (batch_completes 0 idle_renderer stacked_description stacked_layout tt small_canvas (Some blank_cell)
    started_renderer (take 9 drawing_steps) halfway_renderer (history_new_renderer small_canvas) eq_refl stacked_ordered
    small_canvas_inv stacked_start halfway_steps_run)).
Defined.
