(* ===== verification/Selection.v ===== *)
(** * Screen-owned text selection (puc-cli/tui/rendering/selection.cpp, frame.hpp)

    The selection state machine over frames that are shared objects: a store
    maps frame references to their states, so that the machine's retained frame
    and the caller's frame alias. A frame is a type with the virtual selection
    interface; its documented promises are a class of laws that the text editor
    discharges (TextEditor.v). *)
From S2P Require Import Prelude.
From S2P Require Import Tui.
From stdpp Require Import functions.

(** The virtual selection interface of [Frame]. *)
Class SelectableFrame (F : Type) := {
  is_selectable : F -> bool;
  update_selection : SelectionEvent -> F -> Status * F;
  frame_selected_text : F -> Status * bytes;
}.

(** The promises of frame.hpp: a rejected event changes nothing, an accepted
    RESET removes the range, and no range means no text. *)
Class SelectableFrameLaws (F : Type) `{SelectableFrame F} := {
  has_range : F -> bool;
  rejected_unchanged : forall event f status f',
    update_selection event f = (status, f') -> status <> OK -> f' = f;
  reset_clears : forall event f f', event_type event = RESET ->
    update_selection event f = (OK, f') -> has_range f' = false;
  no_range_no_text : forall f, has_range f = false -> frame_selected_text f = (NO_SELECTION, []);
}.

Section Machine.
Context {Ref : Type} `{EqDecision Ref} {F : Type} `{SelectableFrame F}.

Record SelectionStateMachine := {
  phase : SelectionPhase;
  active_frame_id : string;
  active_frame : option Ref;
}.

Definition new_machine : SelectionStateMachine :=
  {| phase := NONE; active_frame_id := ""; active_frame := None |}.

(** The machine and the frames it shares with the rest of the screen. *)
Abbreviation World := (SelectionStateMachine * (Ref -> F))%type.

(** [frame->update_selection(event)] through a reference. *)
Definition dispatch (event : SelectionEvent) (r : Ref) (store : Ref -> F) : Status * (Ref -> F) :=
  let '(status, f) := update_selection event (store r) in (status, <[r := f]> store).

Definition is_active_target (id : string) (r : Ref) (m : SelectionStateMachine) : bool :=
  bool_decide (active_frame m = Some r) && String.eqb (active_frame_id m) id.

Definition reset (w : World) : Status * World :=
  let '(m, store) := w in
  if bool_decide (phase m = NONE) then (OK, (new_machine, store))
  else
    match active_frame m with
    | None => (INVALID_SELECTION_TRANSITION, w)
    | Some r =>
        let '(status, store) := dispatch (plain_event RESET) r store in
        if is_ok status then (OK, (new_machine, store)) else (status, (m, store))
    end.

(** The [switch]: the transitions that must happen before the frame is asked;
    [inl] returns. *)
Definition prepare (id : string) (r : Ref) (event : SelectionEvent) (w : World)
  : (Status * World) + World :=
  let m := fst w in
  let reset_first :=
    let '(status, w) := reset w in if is_ok status then inr w else inl (status, w) in
  match event_type event with
  | SELECT_AND_EXTEND =>
      if bool_decide (phase m = COMPLETE) then reset_first
      else if bool_decide (phase m = IN_PROGRESS) && negb (is_active_target id r m)
      then inl (INVALID_SELECTION_TRANSITION, w)
      else inr w
  | END_SELECT_AND_EXTEND =>
      if negb (bool_decide (phase m = IN_PROGRESS)) || negb (is_active_target id r m)
      then inl (INVALID_SELECTION_TRANSITION, w)
      else inr w
  | SELECT_WORD | SELECT_LINE | SELECT_ALL =>
      if negb (bool_decide (phase m = NONE)) then reset_first else inr w
  | RESET => inr w
  end.

Definition apply_event (id : string) (frame : option Ref) (event : SelectionEvent) (w : World)
  : Status * World :=
  if bool_decide (event_type event = RESET) then reset w
  else
    match frame with
    | None => (INVALID_ARGUMENT, w)
    | Some r =>
        if String.eqb id "" then (INVALID_ARGUMENT, w)
        else if negb (is_selectable (snd w r)) then (FRAME_NOT_SELECTABLE, w)
        else
          match prepare id r event w with
          | inl result => result
          | inr (m, store) =>
              let '(status, store) := dispatch event r store in
              if negb (is_ok status) then (status, (m, store))
              else
                (OK, ({| phase := if bool_decide (event_type event = SELECT_AND_EXTEND)
                                  then IN_PROGRESS else COMPLETE;
                         active_frame_id := id; active_frame := Some r |}, store))
          end
    end.

Definition current_frame_id (m : SelectionStateMachine) : option string :=
  if bool_decide (phase m = NONE) || negb (bool_decide (is_Some (active_frame m))) then None
  else Some (active_frame_id m).

Definition selected_text (w : World) : Status * bytes :=
  match phase (fst w), active_frame (fst w) with
  | COMPLETE, Some r => frame_selected_text (snd w r)
  | _, _ => (NO_SELECTION, [])
  end.

(** ** Invariant *)

Context `{!SelectableFrameLaws F}.

(** Only the retained frame holds a range, and only outside [NONE]. *)
Record world_ok (w : World) : Prop := {
  wo_phase : phase (fst w) = NONE <-> active_frame (fst w) = None;
  wo_owner : forall r, has_range (snd w r) = true -> active_frame (fst w) = Some r;
}.

Inductive world_reachable : World -> Prop :=
| reachable_new_machine store : (forall r, has_range (store r) = false) -> world_reachable (new_machine, store)
| reachable_reset w : world_reachable w -> world_reachable (snd (reset w))
| reachable_apply id frame event w :
    world_reachable w -> world_reachable (snd (apply_event id frame event w)).

(** The effect of a dispatched event, by the frame's promises. *)
Lemma dispatch_spec event r (store : Ref -> F) :
  let '(status, store') := dispatch event r store in
  (status <> OK -> forall x, store' x = store x) /\
  (forall x, x <> r -> store' x = store x) /\
  (status = OK -> event_type event = RESET -> has_range (store' r) = false).
Proof.
  unfold dispatch. destruct (update_selection event (store r)) as [status f] eqn:E. split_and!.
  - intros Hs x. destruct (decide (x = r)) as [->|Hx]; [|by rewrite fn_lookup_insert_ne].
    rewrite fn_lookup_insert. by eapply rejected_unchanged.
  - intros x Hx. by rewrite fn_lookup_insert_ne.
  - intros -> Hr. rewrite fn_lookup_insert. by eapply reset_clears.
Qed.

(** [reset] either leaves nothing selected or changes nothing. *)
Lemma reset_spec w :
  world_ok w ->
  let '(status, w') := reset w in
  world_ok w' /\
  (if decide (status = OK)
   then fst w' = new_machine /\ forall r, has_range (snd w' r) = false
   else fst w' = fst w /\ forall r, snd w' r = snd w r) /\
  (forall r, active_frame (fst w) <> Some r -> snd w' r = snd w r).
Proof.
  intros [Hp Ho]. destruct w as [m store]. cbn [fst snd] in *. unfold reset.
  destruct (bool_decide_reflect (phase m = NONE)) as [En|En].
  - assert (Hnone : forall r, has_range (store r) = false).
    { intros r. destruct (has_range (store r)) eqn:E; [|done]. apply Ho in E.
      by rewrite (proj1 Hp En) in E. }
    rewrite decide_True by done. split_and!; [|done|done|done]. split; cbn; [done|].
    intros r Hr. by rewrite Hnone in Hr.
  - destruct (active_frame m) as [r|] eqn:Er; [|by destruct En; apply Hp].
    pose proof (dispatch_spec (plain_event RESET) r store) as Hd.
    destruct (dispatch _ _ _) as [status store']. destruct Hd as (Hbad & Hother & Hok).
    unfold is_ok. destruct (bool_decide_reflect (status = OK)) as [->|Hs].
    + assert (Hnone : forall x, has_range (store' x) = false).
      { intros x. destruct (decide (x = r)) as [->|Hx]; [by apply Hok|]. rewrite Hother by done.
        destruct (has_range (store x)) eqn:E; [|done]. apply Ho in E. congruence. }
      rewrite decide_True by done. split_and!; cbn; [|done|done|by intros x Hx; apply Hother; congruence].
      split; cbn; [done|]. intros x Hx. by rewrite Hnone in Hx.
    + rewrite decide_False by done. split_and!; cbn; [|done|by apply Hbad|by intros x Hx; apply Hother; congruence].
      split; cbn; [by rewrite Er|]. intros x. rewrite Hbad, Er by done. apply Ho.
Qed.

Lemma prepare_ok id r event w :
  world_ok w -> event_type event <> RESET ->
  match prepare id r event w with
  | inl (status, w') => world_ok w' /\ status <> OK
  | inr w' => world_ok w' /\
      (active_frame (fst w') = None \/ active_frame (fst w') = Some r)
  end.
Proof.
  intros Hw Hne. pose proof (reset_spec w Hw) as Hr. unfold prepare.
  assert (Hreset : match (let '(status, w) := reset w in if is_ok status then inr w else inl (status, w)) with
    | inl (status, w') => world_ok w' /\ status <> OK
    | inr w' => world_ok w' /\ (active_frame (fst w') = None \/ active_frame (fst w') = Some r)
    end).
  { destruct (reset w) as [status w']. destruct Hr as (Hw' & Hc & _). unfold is_ok.
    destruct (bool_decide_reflect (status = OK)) as [->|]; [|done].
    rewrite decide_True in Hc by done. destruct Hc as [-> _]. split; [done|by left]. }
  assert (Htarget : forall p, phase (fst w) = p -> p <> NONE -> is_active_target id r (fst w) = true ->
    active_frame (fst w) = Some r).
  { intros p _ _ Ht. unfold is_active_target in Ht. apply andb_true_iff in Ht as [Ht _].
    by apply bool_decide_eq_true in Ht. }
  destruct (event_type event) eqn:Ee; try done.
  - destruct (bool_decide_reflect (phase (fst w) = COMPLETE)) as [|Hc]; [done|].
    destruct (bool_decide_reflect (phase (fst w) = IN_PROGRESS)) as [Hi|Hi]; cbn [andb].
    + destruct (is_active_target id r (fst w)) eqn:Et; [|done]. split; [done|right]. by eapply Htarget.
    + split; [done|left]. apply (wo_phase _ Hw). by destruct (phase (fst w)).
  - destruct (bool_decide_reflect (phase (fst w) = IN_PROGRESS)) as [Hi|Hi]; [|done].
    cbn [negb orb]. destruct (is_active_target id r (fst w)) eqn:Et; [|done].
    split; [done|right]. by eapply Htarget.
  - destruct (bool_decide_reflect (phase (fst w) = NONE)) as [Hz|]; [|done].
    split; [done|left]. by apply (wo_phase _ Hw).
  - destruct (bool_decide_reflect (phase (fst w) = NONE)) as [Hz|]; [|done].
    split; [done|left]. by apply (wo_phase _ Hw).
  - destruct (bool_decide_reflect (phase (fst w) = NONE)) as [Hz|]; [|done].
    split; [done|left]. by apply (wo_phase _ Hw).
Qed.

Lemma apply_event_ok id frame event w :
  world_ok w ->
  let '(status, w') := apply_event id frame event w in
  world_ok w' /\
  (status = OK -> event_type event <> RESET ->
   frame = active_frame (fst w') /\ current_frame_id (fst w') = Some id /\
   phase (fst w') = if decide (event_type event = SELECT_AND_EXTEND) then IN_PROGRESS else COMPLETE).
Proof.
  intros Hw. unfold apply_event.
  destruct (bool_decide_reflect (event_type event = RESET)) as [Er|Er].
  { pose proof (reset_spec w Hw) as Hr. destruct (reset w) as [status w']. split; [apply Hr|done]. }
  destruct frame as [r|]; [|done]. destruct (String.eqb id ""); [done|].
  destruct (is_selectable _); [|done]. cbn [negb].
  pose proof (prepare_ok id r event w Hw Er) as Hp.
  destruct (prepare id r event w) as [[status w']|[m store]]; [by destruct Hp|].
  destruct Hp as [[Hph Ho] Hact]. cbn [fst snd] in *.
  pose proof (dispatch_spec event r store) as Hd.
  destruct (dispatch event r store) as [status store']. destruct Hd as (Hbad & Hother & _).
  unfold is_ok. destruct (bool_decide_reflect (status = OK)) as [->|Hs]; cbn [negb].
  - split.
    + split; cbn [fst snd phase active_frame]; [by destruct (bool_decide _)|].
      intros x Hx. destruct (decide (x = r)) as [->|Hne]; [done|]. exfalso. rewrite Hother in Hx by done.
      apply Ho in Hx. destruct Hact; congruence.
    + intros _ _. split_and!; cbn [fst phase active_frame]; [done| |].
      * unfold current_frame_id. cbn [phase active_frame active_frame_id].
        rewrite (bool_decide_true (is_Some _)) by done. by destruct (bool_decide (event_type event = _)).
      * destruct (bool_decide_reflect (event_type event = SELECT_AND_EXTEND)); by case_decide.
  - split; [|done]. split; cbn [fst snd]; [done|]. intros x. rewrite Hbad by done. apply Ho.
Qed.

Lemma world_reachable_ok w : world_reachable w -> world_ok w.
Proof.
  induction 1 as [store Hs|w _ IH|id frame event w _ IH].
  - split; cbn; [done|]. intros r Hr. by rewrite Hs in Hr.
  - pose proof (reset_spec w IH) as Hr. destruct (reset w). apply Hr.
  - pose proof (apply_event_ok id frame event w IH) as Ha. destruct (apply_event _ _ _ _). apply Ha.
Qed.
End Machine.
Arguments SelectionStateMachine Ref : clear implicits.

(** ** Properties *)

(** At any time at most one frame holds a selected range, the one the machine
    retains; an accepted event makes the addressed frame the owner with the
    phase of its kind, and an accepted reset leaves no range anywhere. *)
Theorem single_selection_owner {Ref F : Type} `{EqDecision Ref} `{SelectableFrameLaws F}
    (w : SelectionStateMachine Ref * (Ref -> F)) id frame event :
  world_reachable w ->
  (forall r1 r2, has_range (snd w r1) = true -> has_range (snd w r2) = true -> r1 = r2) /\
  (forall r, has_range (snd w r) = true -> phase (fst w) <> NONE /\ active_frame (fst w) = Some r) /\
  (let '(status, w') := apply_event id frame event w in
   status = OK -> event_type event <> RESET ->
   frame = active_frame (fst w') /\ current_frame_id (fst w') = Some id /\
   phase (fst w') = if decide (event_type event = SELECT_AND_EXTEND) then IN_PROGRESS else COMPLETE) /\
  (let '(status, w') := reset w in
   if decide (status = OK)
   then (forall r, has_range (snd w' r) = false) /\ current_frame_id (fst w') = None
   else fst w' = fst w /\ forall r, snd w' r = snd w r).
Proof.
  intros Hr. pose proof (world_reachable_ok w Hr) as [Hp Ho]. split_and!.
  - intros r1 r2 H1%Ho H2%Ho. congruence.
  - intros r Hx%Ho. split; [|done]. intros Hn%Hp. congruence.
  - pose proof (apply_event_ok id frame event w (Build_world_ok w Hp Ho)) as Ha.
    destruct (apply_event _ _ _ _). apply Ha.
  - pose proof (reset_spec w (Build_world_ok w Hp Ho)) as Ha.
    destruct (reset w) as [status w']. destruct Ha as (_ & Ha & _).
    destruct (decide (status = OK)); [|done]. destruct Ha as [-> Ha]. done.
Qed.

(** ** Witness *)

(** A frame whose text is one word. *)
#[local] Instance word_frame : SelectableFrame bool := {
  is_selectable := fun _ => true;
  update_selection := fun event f => (OK, negb (bool_decide (event_type event = RESET)));
  frame_selected_text := fun f => if f then (OK, [119]%Z) else (NO_SELECTION, []);
}.

#[local] Instance word_frame_laws : SelectableFrameLaws bool.
Proof.
  refine {| has_range := id |}.
  - by intros event f status f' [= <- <-].
  - intros event f f' E [= <-]. by rewrite E.
  - by intros [].
Defined.

Definition sample_world : SelectionStateMachine nat * (nat -> bool) :=
  snd (apply_event "text" (Some 1%nat) (plain_event SELECT_WORD) (new_machine, fun _ => false)).

Lemma sample_world_reachable : world_reachable sample_world.
Proof. apply reachable_apply. by constructor. Qed.

Lemma single_selection_owner_witness : phase (fst sample_world) <> NONE.
Proof.
  exact (proj1 (proj1 (proj2 (single_selection_owner sample_world "text" (Some 2%nat)
    (plain_event SELECT_ALL) sample_world_reachable)) 1%nat eq_refl)).
Defined.
