(* ===== verification/TextEditor.v ===== *)
(** * Text editor model (puc-cli/tui/text_input/text_editor_utils.cpp)

    The reusable text-buffer state machine: logical lines of Unicode scalars, a
    caret, selection, wrapped rows, scrolling and transactional paste, with one
    definition per member function. Indexes and sizes are [nat]; the signed row
    deltas and the two unsigned subtractions that can wrap are [Z]. This file
    holds the definitions only; EditorRows.v, EditorText.v and EditorProps.v
    hold the facts. *)
From S2P Require Import Prelude.
From S2P Require Import Utf8.
From S2P Require Import Events.
From S2P Require Import Tui.
Open Scope Z_scope.

Record TextCursor := { line : nat; column : nat }.

Record TextSelectionRange := { range_first : TextCursor; range_last : TextCursor }.

Record TextEditorOptions := {
  tab_width : nat;
  fallback_width : nat;
  reserve_plain_enter : bool;
}.

#[global] Instance TextCursor_eq_dec : EqDecision TextCursor.
Proof. solve_decision. Defined.

Definition cursor_less (left right : TextCursor) : bool :=
  (line left <? line right)%nat ||
  ((line left =? line right)%nat && (column left <? column right)%nat).

(** [std::isalnum] in the "C" locale. *)
Definition isalnum (byte : Z) : bool :=
  ((48 <=? byte) && (byte <=? 57)) || ((65 <=? byte) && (byte <=? 90)) ||
  ((97 <=? byte) && (byte <=? 122)).

Definition is_word_character (character : Z) : bool :=
  if 0x7f <? character then true
  else isalnum character || (character =? 95) || (character =? 45).

Record VisualRow := {
  row_line : nat;
  row_first : nat;
  row_length : nat;
}.

Record PasteTransaction := {
  paste_lines : list (list Z);
  paste_cursor : TextCursor;
  paste_selection : option TextSelectionRange;
  paste_anchor : option TextCursor;
  paste_scroll_row : nat;
  paste_desired_column : nat;
  paste_has_desired_column : bool;
  pending_utf8 : bytes;
  preceding_cr : bool;
}.

Record Impl := {
  options : TextEditorOptions;
  lines : list (list Z);
  cursor : TextCursor;
  selection : option TextSelectionRange;
  keyboard_anchor : option TextCursor;
  scroll_row : nat;
  desired_column : nat;
  has_desired_column : bool;
  viewport_width : nat;
  viewport_height : nat;
  paste : option PasteTransaction;
}.

(** ** Field assignments *)

Definition with_text (ls : list (list Z)) (c : TextCursor) (s : Impl) : Impl :=
  {| options := options s; lines := ls; cursor := c; selection := selection s;
     keyboard_anchor := keyboard_anchor s; scroll_row := scroll_row s;
     desired_column := desired_column s; has_desired_column := has_desired_column s;
     viewport_width := viewport_width s; viewport_height := viewport_height s; paste := paste s |}.

Definition with_cursor (c : TextCursor) (s : Impl) : Impl := with_text (lines s) c s.

Definition with_selection (sel : option TextSelectionRange) (anchor : option TextCursor) (s : Impl) : Impl :=
  {| options := options s; lines := lines s; cursor := cursor s; selection := sel;
     keyboard_anchor := anchor; scroll_row := scroll_row s;
     desired_column := desired_column s; has_desired_column := has_desired_column s;
     viewport_width := viewport_width s; viewport_height := viewport_height s; paste := paste s |}.

Definition with_scroll (row : nat) (s : Impl) : Impl :=
  {| options := options s; lines := lines s; cursor := cursor s; selection := selection s;
     keyboard_anchor := keyboard_anchor s; scroll_row := row;
     desired_column := desired_column s; has_desired_column := has_desired_column s;
     viewport_width := viewport_width s; viewport_height := viewport_height s; paste := paste s |}.

Definition with_desired (col : nat) (active : bool) (s : Impl) : Impl :=
  {| options := options s; lines := lines s; cursor := cursor s; selection := selection s;
     keyboard_anchor := keyboard_anchor s; scroll_row := scroll_row s;
     desired_column := col; has_desired_column := active;
     viewport_width := viewport_width s; viewport_height := viewport_height s; paste := paste s |}.

(** [has_desired_column = false] *)
Definition forget_column (s : Impl) : Impl := with_desired (desired_column s) false s.

Definition with_viewport (width height : nat) (s : Impl) : Impl :=
  {| options := options s; lines := lines s; cursor := cursor s; selection := selection s;
     keyboard_anchor := keyboard_anchor s; scroll_row := scroll_row s;
     desired_column := desired_column s; has_desired_column := has_desired_column s;
     viewport_width := width; viewport_height := height; paste := paste s |}.

Definition with_paste (p : option PasteTransaction) (s : Impl) : Impl :=
  {| options := options s; lines := lines s; cursor := cursor s; selection := selection s;
     keyboard_anchor := keyboard_anchor s; scroll_row := scroll_row s;
     desired_column := desired_column s; has_desired_column := has_desired_column s;
     viewport_width := viewport_width s; viewport_height := viewport_height s; paste := p |}.

Definition with_options (o : TextEditorOptions) (s : Impl) : Impl :=
  {| options := o; lines := lines s; cursor := cursor s; selection := selection s;
     keyboard_anchor := keyboard_anchor s; scroll_row := scroll_row s;
     desired_column := desired_column s; has_desired_column := has_desired_column s;
     viewport_width := viewport_width s; viewport_height := viewport_height s; paste := paste s |}.

(** ** Construction *)

Definition buffer_start : TextCursor := {| line := 0; column := 0 |}.

(** [Impl(TextEditorOptions)] *)
Definition new_impl (supplied : TextEditorOptions) : Impl :=
  {| options := {| tab_width := Nat.max (tab_width supplied) 1;
                   fallback_width := Nat.max (fallback_width supplied) 1;
                   reserve_plain_enter := reserve_plain_enter supplied |};
     lines := [[]]; cursor := buffer_start; selection := None; keyboard_anchor := None;
     scroll_row := 0; desired_column := 0; has_desired_column := false;
     viewport_width := 0; viewport_height := 0; paste := None |}.

(** [lines[index]], in range. *)
Definition line_at (ls : list (list Z)) (index : nat) : list Z := default [] (ls !! index).

(** [lines.size() - 1U] with [lines.back().size()] *)
Definition buffer_end (s : Impl) : TextCursor :=
  {| line := length (lines s) - 1; column := length (line_at (lines s) (length (lines s) - 1)) |}.

Definition has_input (s : Impl) : bool :=
  (1 <? length (lines s))%nat || negb (bool_decide (line_at (lines s) 0 = [])).

Definition editable_width (s : Impl) : nat :=
  if (viewport_width s =? 0)%nat then fallback_width (options s) else viewport_width s.

(** ** Word wraps that become newlines *)

Definition SPACE : Z := 32.

(** [while (index < line.size() && line[index] == ' ') ++index;] *)
Fixpoint skip_spaces (fuel : nat) (l : list Z) (index : nat) : nat :=
  match fuel with
  | O => index
  | S fuel =>
      match l !! index with
      | Some c => if c =? SPACE then skip_spaces fuel l (S index) else index
      | None => index
      end
  end.

(** [while (word_first > row_first && line[word_first - 1U] != ' ') --word_first;] *)
Fixpoint word_start (l : list Z) (first word : nat) : nat :=
  match word with
  | O => O
  | S previous =>
      if (first <? word)%nat && negb (default SPACE (l !! previous) =? SPACE)
      then word_start l first previous
      else word
  end.

Fixpoint wrap_break_loop (fuel : nat) (l : list Z) (width first : nat) : option nat :=
  match fuel with
  | O => None
  | S fuel =>
      if (width <? length l - first)%nat then
        let word_character := skip_spaces (length l) l (first + width) in
        if (word_character =? length l)%nat then None
        else
          let word_first := word_start l first word_character in
          if (first <? word_first)%nat then Some (word_first - 1)%nat
          else wrap_break_loop fuel l width (first + width)
      else None
  end.

(** Every iteration consumes a positive width, so [length l] iterations are
    enough. *)
Definition materialized_wrap_break (l : list Z) (width : nat) : option nat :=
  if (width =? 0)%nat then None else wrap_break_loop (length l) l width 0.

(** One pass of [materialize_word_wraps] splits [lines[index]] at
    [separator]. *)
Definition split_line (index separator : nat) (ls : list (list Z)) (c : TextCursor)
  : list (list Z) * TextCursor :=
  let l := line_at ls index in
  (take index ls ++ [take separator l; drop (S separator) l] ++ drop (S index) ls,
   if (line c =? index)%nat && (separator <? column c)%nat
   then {| line := S (line c); column := column c - S separator |}
   else if (index <? line c)%nat then {| line := S (line c); column := column c |}
   else c).

Fixpoint materialize_loop (fuel width index final : nat) (ls : list (list Z)) (c : TextCursor)
  : list (list Z) * TextCursor :=
  match fuel with
  | O => (ls, c)
  | S fuel =>
      if (index <=? final)%nat then
        match materialized_wrap_break (line_at ls index) width with
        | None => materialize_loop fuel width (S index) final ls c
        | Some separator =>
            let '(ls, c) := split_line index separator ls c in
            materialize_loop fuel width (S index) (S final) ls c
        end
      else (ls, c)
  end.

(** A split leaves a strictly shorter line to examine, so two iterations more
    than its length are enough. *)
Definition materialize_word_wraps (first_line : nat) (s : Impl) : Impl :=
  let '(ls, c) := materialize_loop (2 + length (line_at (lines s) first_line)) (editable_width s)
    first_line first_line (lines s) (cursor s) in
  with_text ls c s.

(** ** Wrapped rows *)

(** The [for] over candidates from [hard_end] down to [first + 1]. *)
Fixpoint soft_end (l : list Z) (first candidate : nat) : option nat :=
  match candidate with
  | O => None
  | S previous =>
      if (first <? candidate)%nat
      then if default 0 (l !! previous) =? SPACE then Some candidate else soft_end l first previous
      else None
  end.

Definition visual_length (l : list Z) (width first : nat) : nat :=
  let remaining := (length l - first)%nat in
  let hard_end := (first + width)%nat in
  if (width <? remaining)%nat && negb (default 0 (l !! (hard_end - 1)%nat) =? SPACE)
     && negb (default 0 (l !! hard_end) =? SPACE)
  then match soft_end l first hard_end with
       | Some candidate => (candidate - first)%nat
       | None => Nat.min width remaining
       end
  else Nat.min width remaining.

(** The rows of one line from [first] on; each row has positive length. *)
Fixpoint wrap_line (fuel : nat) (l : list Z) (index width first : nat) : list VisualRow :=
  match fuel with
  | O => []
  | S fuel =>
      if (first <? length l)%nat then
        let len := visual_length l width first in
        {| row_line := index; row_first := first; row_length := len |}
          :: wrap_line fuel l index width (first + len)
      else []
  end.

(** The row for a caret behind a full last row. *)
Definition caret_row (l : list Z) (index width : nat) (c : TextCursor) (rows : list VisualRow)
  : list VisualRow :=
  match last rows with
  | Some back =>
      if (index =? line c)%nat && (column c =? length l)%nat && (row_line back =? index)%nat
         && (row_length back =? width)%nat
      then [{| row_line := index; row_first := length l; row_length := 0 |}]
      else []
  | None => []
  end.

Definition line_rows (l : list Z) (index width : nat) (c : TextCursor) : list VisualRow :=
  match l with
  | [] => [{| row_line := index; row_first := 0; row_length := 0 |}]
  | _ =>
      let rows := wrap_line (length l) l index width 0 in
      rows ++ caret_row l index width c rows
  end.

Fixpoint rows_from (index : nat) (ls : list (list Z)) (width : nat) (c : TextCursor)
  : list VisualRow :=
  match ls with
  | [] => []
  | l :: ls => line_rows l index width c ++ rows_from (S index) ls width c
  end.

Definition visual_rows (s : Impl) (width : nat) : list VisualRow :=
  if (width =? 0)%nat then [] else rows_from 0 (lines s) width (cursor s).

Fixpoint cursor_row_from (index : nat) (rows : list VisualRow) (width : nat) (c : TextCursor)
  : option (nat * nat) :=
  match rows with
  | [] => None
  | row :: rows =>
      if negb (row_line row =? line c)%nat then cursor_row_from (S index) rows width c
      else if (row_length row =? 0)%nat && (row_first row =? column c)%nat then Some (index, 0%nat)
      else if (row_first row <=? column c)%nat && (column c <? row_first row + row_length row)%nat
      then Some (index, column c - row_first row)%nat
      else if (row_length row <? width)%nat && (column c =? row_first row + row_length row)%nat
      then Some (index, row_length row)
      else cursor_row_from (S index) rows width c
  end.

Definition visual_cursor (s : Impl) (rows : list VisualRow) (width : nat) : nat * nat :=
  match cursor_row_from 0 rows width (cursor s) with
  | Some found => found
  | None => (length rows - 1, 0)%nat
  end.

(** ** Scrolling *)

(** [rows.size() > viewport_height ? rows.size() - viewport_height : 0] *)
Definition maximum_scroll (rows : list VisualRow) (height : nat) : nat :=
  if (height <? length rows)%nat then (length rows - height)%nat else 0%nat.

Definition clamp_scroll (s : Impl) : Impl :=
  if (viewport_width s =? 0)%nat then with_scroll 0 s
  else
    let rows := visual_rows s (viewport_width s) in
    with_scroll (Nat.min (scroll_row s) (maximum_scroll rows (viewport_height s))) s.

Definition ensure_cursor_visible (s : Impl) : Impl :=
  if (viewport_width s =? 0)%nat || (viewport_height s =? 0)%nat then s
  else
    let rows := visual_rows s (viewport_width s) in
    match rows with
    | [] => with_scroll 0 s
    | _ =>
        let row := fst (visual_cursor s rows (viewport_width s)) in
        let scrolled :=
          if (row <? scroll_row s)%nat then row
          else if (scroll_row s + viewport_height s <=? row)%nat
          then (row - viewport_height s + 1)%nat
          else scroll_row s in
        with_scroll (Nat.min scrolled (maximum_scroll rows (viewport_height s))) s
    end.

Definition after_character (s : Impl) (position : TextCursor) : TextCursor :=
  if (line position <? length (lines s))%nat &&
     (column position <? length (line_at (lines s) (line position)))%nat
  then {| line := line position; column := S (column position) |}
  else position.

(** ** Editing *)

(** [line.erase(first, count)] *)
Definition erase (first count : nat) (l : list Z) : list Z := take first l ++ drop (first + count) l.

Definition replace_line (index : nat) (l : list Z) (ls : list (list Z)) : list (list Z) := <[index := l]> ls.

(** [lines.erase(begin + first, begin + last)] *)
Definition erase_lines (first last : nat) (ls : list (list Z)) : list (list Z) :=
  take first ls ++ drop last ls.

Definition delete_selection (s : Impl) : bool * Impl :=
  match selection s with
  | None => (false, s)
  | Some range =>
      let first := range_first range in
      let last := range_last range in
      let ls :=
        if (line first =? line last)%nat
        then replace_line (line first)
               (erase (column first) (column last - column first) (line_at (lines s) (line first)))
               (lines s)
        else
          let merged := take (column first) (line_at (lines s) (line first)) ++
                        drop (column last) (line_at (lines s) (line last)) in
          erase_lines (line first + 1) (line last + 1) (replace_line (line first) merged (lines s)) in
      (true, forget_column (with_selection None None (with_text ls first s)))
  end.

Definition NEWLINE : Z := 10.
Definition CARRIAGE_RETURN : Z := 13.
Definition TABULATOR : Z := 9.

(** The line break branch of [insert]. *)
Definition break_line (s : Impl) : Impl :=
  let l := line_at (lines s) (line (cursor s)) in
  with_text (take (line (cursor s)) (lines s) ++
             [take (column (cursor s)) l; drop (column (cursor s)) l] ++
             drop (S (line (cursor s))) (lines s))
    {| line := S (line (cursor s)); column := 0 |} s.

(** [lines[cursor.line].insert(cursor.column, characters)] and the caret after
    them. *)
Definition insert_at_cursor (characters : list Z) (s : Impl) : Impl :=
  let l := line_at (lines s) (line (cursor s)) in
  with_text (replace_line (line (cursor s))
               (take (column (cursor s)) l ++ characters ++ drop (column (cursor s)) l) (lines s))
    {| line := line (cursor s); column := column (cursor s) + length characters |} s.

(** The loop body of [insert]. *)
Definition insert_character (acc : Impl * bool) (character : Z) : Impl * bool :=
  let '(s, cr) := acc in
  if (character =? NEWLINE) && cr then (s, false)
  else if (character =? CARRIAGE_RETURN) || (character =? NEWLINE)
  then (break_line s, character =? CARRIAGE_RETURN)
  else if character =? TABULATOR then
    let count := (tab_width (options s) - column (cursor s) `mod` tab_width (options s))%nat in
    let inserted := insert_at_cursor (replicate count SPACE) s in
    (materialize_word_wraps (line (cursor s)) inserted, false)
  else if (character <? 0x20) || (character =? 0x7f) then (s, false)
  else
    let inserted := insert_at_cursor [character] s in
    (materialize_word_wraps (line (cursor inserted)) inserted, false).

Definition insert (characters : list Z) (s : Impl) (cr : bool) : Impl * bool :=
  let '(_, s) := delete_selection s in
  let '(s, cr) := fold_left insert_character characters (s, cr) in
  (ensure_cursor_visible (forget_column (with_selection None None s)), cr).

(** The common end of the two deletion commands. *)
Definition finish_deletion (s : Impl) : Impl :=
  ensure_cursor_visible (forget_column (with_selection (selection s) None s)).

Definition backspace (s : Impl) : Impl :=
  let '(deleted, s) := delete_selection s in
  if deleted then ensure_cursor_visible s
  else
    let c := cursor s in
    finish_deletion
      (if (0 <? column c)%nat
       then with_text (replace_line (line c) (erase (column c - 1) 1 (line_at (lines s) (line c))) (lines s))
              {| line := line c; column := column c - 1 |} s
       else if (0 <? line c)%nat
       then
         let preceding_line := (line c - 1)%nat in
         let joined := line_at (lines s) preceding_line ++ line_at (lines s) (line c) in
         with_text (erase_lines (line c) (line c + 1) (replace_line preceding_line joined (lines s)))
           {| line := preceding_line; column := length (line_at (lines s) preceding_line) |} s
       else s).

Definition delete_forward (s : Impl) : Impl :=
  let '(deleted, s) := delete_selection s in
  if deleted then ensure_cursor_visible s
  else
    let c := cursor s in
    let l := line_at (lines s) (line c) in
    finish_deletion
      (if (column c <? length l)%nat
       then with_text (replace_line (line c) (erase (column c) 1 l) (lines s)) c s
       else if (line c + 1 <? length (lines s))%nat
       then with_text (erase_lines (line c + 1) (line c + 2)
                         (replace_line (line c) (l ++ line_at (lines s) (line c + 1)) (lines s))) c s
       else s).

(** ** Navigation *)

Definition finish_navigation (old_cursor : TextCursor) (extend : bool) (s : Impl) : Impl :=
  if negb extend then with_selection None None s
  else
    let anchor := default old_cursor (keyboard_anchor s) in
    let sel :=
      if bool_decide (anchor = cursor s) then None
      else if cursor_less (cursor s) anchor
      then Some {| range_first := cursor s; range_last := anchor |}
      else Some {| range_first := anchor; range_last := cursor s |} in
    with_selection sel (Some anchor) s.

(** The common end of the motions. *)
Definition finish_motion (old_cursor : TextCursor) (extend : bool) (s : Impl) : Impl :=
  ensure_cursor_visible (finish_navigation old_cursor extend s).

Definition horizontal_target (right : bool) (s : Impl) : TextCursor :=
  let c := cursor s in
  if right then
    if (column c <? length (line_at (lines s) (line c)))%nat
    then {| line := line c; column := S (column c) |}
    else if (line c + 1 <? length (lines s))%nat then {| line := S (line c); column := 0 |}
    else c
  else if (0 <? column c)%nat then {| line := line c; column := column c - 1 |}
  else if (0 <? line c)%nat
  then {| line := line c - 1; column := length (line_at (lines s) (line c - 1)) |}
  else c.

Definition move_horizontal (right extend : bool) (s : Impl) : Impl :=
  finish_motion (cursor s) extend (forget_column (with_cursor (horizontal_target right s) s)).

(** [while (column > 0 && test(line[column - 1])) --column;] *)
Fixpoint retreat (test : Z -> bool) (l : list Z) (col : nat) : nat :=
  match col with
  | O => O
  | S previous =>
      match l !! previous with
      | Some c => if test c then retreat test l previous else col
      | None => col
      end
  end.

(** [while (column < line.size() && test(line[column])) ++column;] *)
Fixpoint advance (fuel : nat) (test : Z -> bool) (l : list Z) (col : nat) : nat :=
  match fuel with
  | O => col
  | S fuel =>
      match l !! col with
      | Some c => if test c then advance fuel test l (S col) else col
      | None => col
      end
  end.

Definition not_word (character : Z) : bool := negb (is_word_character character).

Definition move_word_left (extend : bool) (s : Impl) : Impl :=
  let old_cursor := cursor s in
  if (column old_cursor =? 0)%nat && (line old_cursor =? 0)%nat
  then finish_navigation old_cursor extend s
  else
    let c :=
      if (column old_cursor =? 0)%nat
      then {| line := line old_cursor - 1; column := length (line_at (lines s) (line old_cursor - 1)) |}
      else old_cursor in
    let l := line_at (lines s) (line c) in
    let col := retreat is_word_character l (retreat not_word l (column c)) in
    finish_motion old_cursor extend (forget_column (with_cursor {| line := line c; column := col |} s)).

Definition move_word_right (extend : bool) (s : Impl) : Impl :=
  let old_cursor := cursor s in
  let c :=
    if (column old_cursor =? length (line_at (lines s) (line old_cursor)))%nat
       && (line old_cursor + 1 <? length (lines s))%nat
    then {| line := S (line old_cursor); column := 0 |}
    else old_cursor in
  let l := line_at (lines s) (line c) in
  let col := advance (length l) not_word l (advance (length l) is_word_character l (column c)) in
  finish_motion old_cursor extend (forget_column (with_cursor {| line := line c; column := col |} s)).

(** Row [target] after a signed motion from [current] among [count] rows. *)
Definition moved_row (row_delta : Z) (current count : nat) : nat :=
  if row_delta <? 0 then
    let distance := - (row_delta + 1) + 1 in
    if Z.of_nat current <? distance then 0%nat else (current - Z.to_nat distance)%nat
  else
    let remaining := (count - 1 - current)%nat in
    (current + Z.to_nat (Z.min row_delta (Z.of_nat remaining)))%nat.

Definition no_row : VisualRow := {| row_line := 0; row_first := 0; row_length := 0 |}.

Definition move_vertical (row_delta : Z) (extend : bool) (s : Impl) : Impl :=
  let width := editable_width s in
  let rows := visual_rows s width in
  match rows with
  | [] => s
  | _ =>
      let old_cursor := cursor s in
      let '(current_row, current_column) := visual_cursor s rows width in
      let desired := if has_desired_column s then desired_column s else current_column in
      let target := moved_row row_delta current_row (length rows) in
      let row := default no_row (rows !! target) in
      finish_motion old_cursor extend
        (with_cursor {| line := row_line row; column := row_first row + Nat.min desired (row_length row) |}
          (with_desired desired true s))
  end.

Definition move_row_boundary (to_end extend : bool) (s : Impl) : Impl :=
  let old_cursor := cursor s in
  let width := editable_width s in
  let rows := visual_rows s width in
  let target :=
    match rows with
    | [] => old_cursor
    | _ =>
        let row := default no_row (rows !! fst (visual_cursor s rows width)) in
        {| line := row_line row;
           column := if to_end then row_first row + row_length row else row_first row |}
    end in
  finish_motion old_cursor extend (forget_column (with_cursor target s)).

Definition move_buffer_boundary (to_end extend : bool) (s : Impl) : Impl :=
  finish_motion (cursor s) extend
    (forget_column (with_cursor (if to_end then buffer_end s else buffer_start) s)).

Definition int64_max : Z := 2 ^ 63 - 1.

Definition move_page (down extend : bool) (s : Impl) : Impl :=
  let page := Nat.max (viewport_height s) 1 in
  let delta := Z.min (Z.of_nat page) int64_max in
  move_vertical (if down then delta else - delta) extend s.

(** ** Mapping cells to positions *)

(** [visual_index] in [map_character]. *)
Definition mapped_row (s : Impl) (rows : list VisualRow) (position : SelectionPosition) : Z :=
  if position_y position <? 0 then
    let distance := - (position_y position + 1) + 1 in
    if Z.of_nat (scroll_row s) <? distance then 0
    else Z.of_nat (scroll_row s) - distance
  else
    let remaining := wrap 64 (Z.of_nat (length rows) - 1 - Z.of_nat (scroll_row s)) in
    wrap 64 (Z.of_nat (scroll_row s) + Z.min (position_y position) remaining).

Definition map_character (s : Impl) (position : SelectionPosition) : option TextCursor :=
  if (viewport_width s =? 0)%nat || (viewport_height s =? 0)%nat then None
  else
    let rows := visual_rows s (viewport_width s) in
    match rows with
    | [] => None
    | _ =>
        (* out of range where [map_defined] is false *)
        row ← rows !! Z.to_nat (mapped_row s rows position);
        if (row_length row =? 0)%nat then None
        else
          let col := Z.to_nat (Z.max (position_x position) 0) in
          Some {| line := row_line row; column := row_first row + Nat.min col (row_length row - 1) |}
    end.

(** [rows[visual_index]] is in range where [map_character] reads it; where it is
    not, the program is undefined and [map_character] here means nothing. *)
Definition map_defined (s : Impl) (position : SelectionPosition) : bool :=
  (viewport_width s =? 0)%nat || (viewport_height s =? 0)%nat ||
  (mapped_row s (visual_rows s (viewport_width s)) position <? Z.of_nat (length (visual_rows s (viewport_width s)))).

Definition map_caret (s : Impl) (position : SelectionPosition) : option TextCursor :=
  if (viewport_width s =? 0)%nat || (viewport_height s =? 0)%nat ||
     (position_x position <? 0) || (position_y position <? 0) ||
     (Z.of_nat (viewport_width s) <=? position_x position) ||
     (Z.of_nat (viewport_height s) <=? position_y position)
  then None
  else
    let rows := visual_rows s (viewport_width s) in
    let visual_index := (scroll_row s + Z.to_nat (position_y position))%nat in
    row ← rows !! visual_index;
    let offset := Z.to_nat (position_x position) in
    Some {| line := row_line row; column := row_first row + Nat.min offset (row_length row) |}.

Definition is_selected (s : Impl) (position : TextCursor) : bool :=
  match selection s with
  | None => false
  | Some range => negb (cursor_less position (range_first range)) && cursor_less position (range_last range)
  end.

(** ** The public editor *)

Definition set_viewport (width height : nat) (s : Impl) : Impl :=
  let changed := negb (viewport_width s =? width)%nat || negb (viewport_height s =? height)%nat in
  let s := clamp_scroll (with_viewport width height s) in
  if changed then ensure_cursor_visible s else s.

Definition set_fallback_width (width : nat) (s : Impl) : Impl :=
  with_options {| tab_width := tab_width (options s); fallback_width := Nat.max width 1;
                  reserve_plain_enter := reserve_plain_enter (options s) |} s.

(** [TextEditor::text] *)
Fixpoint join_lines (ls : list (list Z)) : bytes :=
  match ls with
  | [] => []
  | [l] => encode_utf8 l
  | l :: ls => encode_utf8 l ++ NEWLINE :: join_lines ls
  end.

Definition text (s : Impl) : bytes := join_lines (lines s).

Record TextEditorSnapshot := {
  snapshot_text : bytes;
  snapshot_cursor : TextCursor;
  snapshot_scroll_row : nat;
  snapshot_paste_in_progress : bool;
  snapshot_selection : option TextSelectionRange;
}.

Definition editor_snapshot (s : Impl) : TextEditorSnapshot :=
  {| snapshot_text := text s; snapshot_cursor := cursor s; snapshot_scroll_row := scroll_row s;
     snapshot_paste_in_progress := bool_decide (is_Some (paste s)); snapshot_selection := selection s |}.

Definition logical_line_count (s : Impl) : nat := if has_input s then length (lines s) else 0%nat.
Definition visual_row_count (s : Impl) (width : nat) : nat := length (visual_rows s width).

Record TextEditorRenderRow := {
  logical_line : nat;
  first_character : nat;
  first_visual_row : bool;
  cells : list (Z * bool);
}.

Record TextEditorRenderState := {
  render_rows : list TextEditorRenderRow;
  cursor_row : option nat;
  cursor_column : nat;
}.

Definition render_row (s : Impl) (row : VisualRow) : TextEditorRenderRow :=
  {| logical_line := row_line row; first_character := row_first row;
     first_visual_row := (row_first row =? 0)%nat;
     cells := map (fun col =>
         (default 0 (line_at (lines s) (row_line row) !! (row_first row + col)%nat),
          is_selected s {| line := row_line row; column := row_first row + col |}))
       (seq 0 (row_length row)) |}.

Definition render_state (s : Impl) : TextEditorRenderState :=
  if (viewport_width s =? 0)%nat || (viewport_height s =? 0)%nat
  then {| render_rows := []; cursor_row := None; cursor_column := 0 |}
  else
    let rows := visual_rows s (viewport_width s) in
    let '(row, col) := visual_cursor s rows (viewport_width s) in
    let available := if (scroll_row s <? length rows)%nat then (length rows - scroll_row s)%nat else 0%nat in
    let count := Nat.min (viewport_height s) available in
    let visible := map (render_row s) (take count (drop (scroll_row s) rows)) in
    if (scroll_row s <=? row)%nat && (row <? scroll_row s + viewport_height s)%nat
    then {| render_rows := visible; cursor_row := Some (row - scroll_row s)%nat; cursor_column := col |}
    else {| render_rows := visible; cursor_row := None; cursor_column := 0 |}.

(** [clear] builds a new [Impl] from the retained options. *)
Definition clear_editor (s : Impl) : Impl := new_impl (options s).

Definition insert_utf8 (text : bytes) (s : Impl) : Impl := fst (insert (decode_utf8 text) s false).

(** The [switch] on named keys. *)
Definition handle_named_key (named : NamedKey) (extend option command : bool) (s : Impl) : Impl :=
  match named with
  | NamedKeys.ENTER | NamedKeys.KEYPAD_ENTER =>
      if reserve_plain_enter (options s) && negb extend then s
      else fst (insert [NEWLINE] s false)
  | NamedKeys.TAB => fst (insert [TABULATOR] s false)
  | NamedKeys.BACKSPACE => backspace s
  | NamedKeys.DELETE_KEY | NamedKeys.KEYPAD_DELETE => delete_forward s
  | NamedKeys.LEFT | NamedKeys.KEYPAD_LEFT =>
      if command then move_row_boundary false extend s
      else if option then move_word_left extend s
      else move_horizontal false extend s
  | NamedKeys.RIGHT | NamedKeys.KEYPAD_RIGHT =>
      if command then move_row_boundary true extend s
      else if option then move_word_right extend s
      else move_horizontal true extend s
  | NamedKeys.UP | NamedKeys.KEYPAD_UP =>
      if command then move_buffer_boundary false extend s
      else if option then move_page false extend s
      else move_vertical (-1) extend s
  | NamedKeys.DOWN | NamedKeys.KEYPAD_DOWN =>
      if command then move_buffer_boundary true extend s
      else if option then move_page true extend s
      else move_vertical 1 extend s
  | NamedKeys.HOME | NamedKeys.KEYPAD_HOME => move_row_boundary false extend s
  | NamedKeys.END | NamedKeys.KEYPAD_END => move_row_boundary true extend s
  | NamedKeys.PAGE_UP | NamedKeys.KEYPAD_PAGE_UP => move_page false false s
  | NamedKeys.PAGE_DOWN | NamedKeys.KEYPAD_PAGE_DOWN => move_page true false s
  | _ => s
  end.

Definition handle_key (event : KeyEvent) (s : Impl) : Impl :=
  if bool_decide (key_action event = KeyActions.RELEASE) || bool_decide (is_Some (paste s)) then s
  else
    let modifiers := key_modifiers event in
    match key event with
    | NamedCode named =>
        if is_modifier_key named then s
        else
          handle_named_key named (contains modifiers ModifierBits.SHIFT)
            (contains modifiers ModifierBits.ALT)
            (contains modifiers ModifierBits.SUPER || contains modifiers ModifierBits.META) s
    | CharCode character =>
        if contains modifiers ModifierBits.CONTROL || contains modifiers ModifierBits.SUPER ||
           contains modifiers ModifierBits.HYPER || contains modifiers ModifierBits.META
        then s
        else if negb (bool_decide (key_text event = [])) then insert_utf8 (key_text event) s
        else insert_utf8 (append_utf8 (default character (shifted_key event)) []) s
    end.

Definition handle_text (event : TextEvent) (s : Impl) : Impl :=
  if bool_decide (is_Some (paste s)) then s else insert_utf8 (utf8 event) s.

Definition begin_paste (s : Impl) : PasteTransaction :=
  {| paste_lines := lines s; paste_cursor := cursor s; paste_selection := selection s;
     paste_anchor := keyboard_anchor s; paste_scroll_row := scroll_row s;
     paste_desired_column := desired_column s; paste_has_desired_column := has_desired_column s;
     pending_utf8 := []; preceding_cr := false |}.

(** [paste->pending_utf8] and [paste->preceding_cr] after a chunk. *)
Definition with_stream (pending : bytes) (cr : bool) (p : PasteTransaction) : PasteTransaction :=
  {| paste_lines := paste_lines p; paste_cursor := paste_cursor p; paste_selection := paste_selection p;
     paste_anchor := paste_anchor p; paste_scroll_row := paste_scroll_row p;
     paste_desired_column := paste_desired_column p;
     paste_has_desired_column := paste_has_desired_column p;
     pending_utf8 := pending; preceding_cr := cr |}.

Definition handle_paste (event : PasteEvent) (s : Impl) : Status * Impl :=
  match paste_phase event, paste s with
  | PastePhases.BEGIN, Some _ => (INVALID_ARGUMENT, s)
  | PastePhases.BEGIN, None => (OK, with_paste (Some (begin_paste s)) s)
  | PastePhases.DATA, None => (INVALID_ARGUMENT, s)
  | PastePhases.DATA, Some p =>
      let '(characters, pending) := consume_utf8 (pending_utf8 p ++ paste_data event) false in
      let '(s, cr) := insert characters s (preceding_cr p) in
      (OK, with_paste (Some (with_stream pending cr p)) s)
  | PastePhases.END, None => (INVALID_ARGUMENT, s)
  | PastePhases.END, Some p =>
      let '(characters, _) := consume_utf8 (pending_utf8 p) true in
      let '(s, _) := insert characters s (preceding_cr p) in
      (OK, with_paste None s)
  | PastePhases.CANCEL, None => (OK, s)
  | PastePhases.CANCEL, Some p =>
      (OK, with_paste None
             (with_desired (paste_desired_column p) (paste_has_desired_column p)
               (with_scroll (paste_scroll_row p)
                 (with_selection (paste_selection p) (paste_anchor p)
                   (with_text (paste_lines p) (paste_cursor p) s)))))
  end.

(** Select the whole buffer. *)
Definition whole_buffer (s : Impl) : TextSelectionRange :=
  {| range_first := buffer_start; range_last := buffer_end s |}.

Definition apply_command (c : Command) (s : Impl) : Impl :=
  match c with
  | Commands.COPY | Commands.ENTER_COMMAND_MODE | Commands.ENTER_TERMINAL_MODE => s
  | Commands.SELECT_ALL =>
      if has_input s then with_selection (Some (whole_buffer s)) None s else s
  | Commands.MOVE_WORD_LEFT => move_word_left false s
  | Commands.MOVE_WORD_RIGHT => move_word_right false s
  | Commands.MOVE_ROW_START => move_row_boundary false false s
  | Commands.MOVE_ROW_END => move_row_boundary true false s
  | Commands.MOVE_BUFFER_START => move_buffer_boundary false false s
  | Commands.MOVE_BUFFER_END => move_buffer_boundary true false s
  | Commands.MOVE_PAGE_UP => move_page false false s
  | Commands.MOVE_PAGE_DOWN => move_page true false s
  end.

Definition scroll_vertical (delta : Z) (s : Impl) : Impl :=
  if (viewport_width s =? 0)%nat || (delta =? 0) then s
  else
    let rows := visual_rows s (viewport_width s) in
    let maximum := maximum_scroll rows (viewport_height s) in
    if 0 <? delta
    then with_scroll (if Z.of_nat (scroll_row s) <? delta then 0%nat
                      else (scroll_row s - Z.to_nat delta)%nat) s
    else
      let amount := - (delta + 1) + 1 in
      let room := wrap 64 (Z.of_nat maximum - Z.of_nat (scroll_row s)) in
      with_scroll (Z.to_nat (wrap 64 (Z.of_nat (scroll_row s) + Z.min amount room))) s.

Definition reset_selection (s : Impl) : Impl := with_selection None None s.

(** The word around a mapped character. *)
Definition word_range (s : Impl) (extent : TextCursor) : TextSelectionRange :=
  let l := line_at (lines s) (line extent) in
  let first := column extent in
  let last := S (column extent) in
  let '(first, last) :=
    if is_word_character (default 0 (l !! column extent))
    then (retreat is_word_character l first, advance (length l) is_word_character l last)
    else (first, last) in
  {| range_first := {| line := line extent; column := first |};
     range_last := {| line := line extent; column := last |} |}.

(** [TextEditor::update_selection] *)
Definition editor_update_selection (event : SelectionEvent) (s : Impl) : Status * Impl :=
  match event_type event with
  | RESET => (OK, reset_selection s)
  | SELECT_ALL =>
      if negb (has_input s) then (NO_SELECTION, s)
      else (OK, with_selection (Some (whole_buffer s)) None s)
  | type =>
      match map_character s (event_extent event) with
      | None => (NO_SELECTION, s)
      | Some extent =>
          match type with
          | SELECT_WORD => (OK, with_selection (Some (word_range s extent)) None s)
          | SELECT_LINE =>
              (OK, with_selection
                (Some {| range_first := {| line := line extent; column := 0 |};
                         range_last := {| line := line extent;
                                          column := length (line_at (lines s) (line extent)) |} |})
                None s)
          | _ =>
              match map_character s (event_anchor event) with
              | None => (NO_SELECTION, s)
              | Some anchor =>
                  let range :=
                    if cursor_less extent anchor
                    then {| range_first := extent; range_last := after_character s anchor |}
                    else {| range_first := anchor; range_last := after_character s extent |} in
                  (OK, with_selection (Some range) None s)
              end
          end
      end
  end.

(** No row is read out of range. *)
Definition selection_defined (event : SelectionEvent) (s : Impl) : bool :=
  match event_type event with
  | RESET | SELECT_ALL => true
  | SELECT_WORD | SELECT_LINE => map_defined s (event_extent event)
  | _ =>
      map_defined s (event_extent event) &&
      match map_character s (event_extent event) with None => true | Some _ => map_defined s (event_anchor event) end
  end.

(** The loop of [selected_text] over [count] lines from [index] to
    [line last]. *)
Fixpoint selected_lines (count : nat) (index : nat) (range : TextSelectionRange)
    (ls : list (list Z)) : bytes :=
  match count with
  | O => []
  | S count =>
      let l := line_at ls index in
      let first := if (index =? line (range_first range))%nat then column (range_first range) else 0%nat in
      let last :=
        if (index =? line (range_last range))%nat then column (range_last range) else length l in
      encode_utf8 (take (last - first) (drop first l)) ++
      (if (index <? line (range_last range))%nat then [NEWLINE] else []) ++
      selected_lines count (S index) range ls
  end.

Definition editor_selected_text (s : Impl) : Status * bytes :=
  match selection s with
  | None => (NO_SELECTION, [])
  | Some range =>
      (OK, selected_lines (line (range_last range) + 1 - line (range_first range))
             (line (range_first range)) range (lines s))
  end.

Definition place_cursor (position : SelectionPosition) (s : Impl) : Status * Impl :=
  match map_caret s position with
  | None => (OK, s)
  | Some mapped =>
      (OK, ensure_cursor_visible (forget_column (reset_selection (with_cursor mapped s))))
  end.
