(* ===== verification/EditorRows.v ===== *)
(** * Wrapped rows of the text editor

    Facts on [visual_rows] and [visual_cursor] of TextEditor.v: the rows tile
    every line, words are broken only when they must be, and the caret is found
    in a row that shows it. *)
From S2P Require Import Prelude.
From S2P Require Import Tui.
From S2P Require Import TextEditor.
From Stdlib Require Import Sorted.
Open Scope nat_scope.

(** The scalars a row shows. *)
Definition slice (l : list Z) (r : VisualRow) : list Z := take (row_length r) (drop (row_first r) l).

(** A caret inside a buffer. *)
Definition cursor_valid (ls : list (list Z)) (c : TextCursor) : Prop :=
  exists l, ls !! line c = Some l /\ column c <= length l.

Lemma line_at_lookup ls i l : ls !! i = Some l -> line_at ls i = l.
Proof. intros E. unfold line_at. by rewrite E. Qed.

Lemma cursor_valid_iff ls c :
  cursor_valid ls c <-> line c < length ls /\ column c <= length (line_at ls (line c)).
Proof.
  unfold cursor_valid. split.
  - intros (l & E & Hc). rewrite (line_at_lookup _ _ _ E). split; [by eapply lookup_lt_Some|done].
  - intros [Hl Hc]. destruct (lookup_lt_is_Some_2 _ _ Hl) as [l E]. exists l.
    by rewrite (line_at_lookup _ _ _ E) in Hc.
Qed.

(** ** The length of one row *)

Lemma soft_end_some l first candidate e :
  soft_end l first candidate = Some e -> first < e <= candidate /\ l !! (e - 1) = Some SPACE.
Proof.
  induction candidate as [|n IH]; [done|]. cbn [soft_end].
  destruct (Nat.ltb_spec first (S n)); [|done].
  destruct (Z.eqb_spec (default 0%Z (l !! n)) SPACE) as [Es|Es].
  - intros [= <-]. split; [lia|]. replace (S n - 1) with n by lia. destruct (l !! n); cbn in Es; [by f_equal|done].
  - intros E. destruct (IH E). split; [lia|done].
Qed.

Lemma soft_end_none l first candidate :
  soft_end l first candidate = None -> forall i, first <= i < candidate -> l !! i <> Some SPACE.
Proof.
  induction candidate as [|n IH]; intros E i Hi; [lia|]. cbn [soft_end] in E.
  destruct (Nat.ltb_spec first (S n)); [|lia].
  destruct (Z.eqb_spec (default 0%Z (l !! n)) SPACE) as [|Es]; [done|].
  destruct (decide (i = n)) as [->|]; [|apply IH; [done|lia]]. intros Ei. by rewrite Ei in Es.
Qed.

Lemma visual_length_bounds l width first :
  0 < width -> first < length l ->
  0 < visual_length l width first <= width /\ first + visual_length l width first <= length l.
Proof.
  intros Hw Hf. unfold visual_length.
  destruct (_ && _ && _) eqn:E; [|lia]. apply andb_true_iff in E as [E _], E as [E _]; bool_to_prop.
  destruct (soft_end l first (first + width)) as [e|] eqn:Es; [|lia].
  apply soft_end_some in Es. lia.
Qed.

(** A row ends inside a word only when the word fills it. *)
Lemma visual_length_words l width first c d :
  0 < width -> first < length l ->
  let stop := first + visual_length l width first in
  l !! (stop - 1) = Some c -> l !! stop = Some d -> c <> SPACE -> d <> SPACE ->
  visual_length l width first = width /\ forall i, first <= i < stop -> l !! i <> Some SPACE.
Proof.
  intros Hw Hf stop Hc Hd Hnc Hnd. subst stop.
  pose proof (visual_length_bounds l width first Hw Hf) as [Hb1 Hb2]. revert Hc Hd Hb1 Hb2.
  unfold visual_length. destruct (_ && _ && _) eqn:E.
  - apply andb_true_iff in E as [E _], E as [E _]; bool_to_prop.
    destruct (soft_end l first (first + width)) as [e|] eqn:Es.
    + apply soft_end_some in Es as [He Hsp]. replace (first + (e - first)) with e by lia.
      intros Hc. congruence.
    + intros _ _ _ _. rewrite Nat.min_l by lia. split; [done|]. by apply soft_end_none.
  - intros Hc Hd _ _. exfalso. apply lookup_lt_Some in Hd as Hlt.
    destruct (Nat.ltb_spec width (length l - first)) as [Hr|Hr]; [|lia].
    rewrite Nat.min_l in * by lia. rewrite Hc, Hd in E. cbn in E.
    destruct (Z.eqb_spec c SPACE), (Z.eqb_spec d SPACE); done.
Qed.

(** ** The rows of one line *)

(** A row of a line, at the given width. *)
Definition row_in_line (l : list Z) (index width : nat) (r : VisualRow) : Prop :=
  row_line r = index /\ row_first r + row_length r <= length l /\ row_length r <= width.

Lemma wrap_line_spec l index width fuel first :
  0 < width -> length l - first <= fuel -> first <= length l ->
  let rows := wrap_line fuel l index width first in
  flat_map (slice l) rows = drop first l /\
  Forall (fun r => row_in_line l index width r /\ 0 < row_length r /\ first <= row_first r) rows /\
  StronglySorted (fun r1 r2 => row_first r1 < row_first r2) rows /\
  (first < length l -> exists r, last rows = Some r /\ row_first r + row_length r = length l).
Proof.
  intros Hw. revert first. induction fuel as [|fuel IH]; intros first Hfuel Hf; cbn [wrap_line].
  - rewrite drop_ge by lia. split_and!; [done|constructor|constructor|lia].
  - destruct (Nat.ltb_spec first (length l)) as [Hlt|Hge].
    2: { rewrite drop_ge by lia. split_and!; [done|constructor|constructor|lia]. }
    pose proof (visual_length_bounds l width first Hw Hlt) as [Hb1 Hb2].
    set (len := visual_length l width first) in *.
    destruct (IH (first + len)) as (E & Hall & Hs & Hlast); [lia|lia|]. split_and!.
    + cbn [flat_map slice row_first row_length]. rewrite E. unfold slice. cbn [row_first row_length].
      rewrite <- (take_drop len (drop first l)) at 2. f_equal. by rewrite drop_drop.
    + constructor; [cbn; unfold row_in_line; cbn; lia|].
      eapply Forall_impl; [exact Hall|]. cbn. intros r (? & ? & ?). split_and!; [done|done|lia].
    + constructor; [done|]. apply Forall_forall. rewrite Forall_forall in Hall. intros r Hr.
      specialize (Hall r Hr). cbn in *. lia.
    + intros _. destruct (Nat.eq_dec (first + len) (length l)) as [El|Hne].
      * exists {| row_line := index; row_first := first; row_length := len |}. split; [|done].
        destruct fuel; cbn [wrap_line]; [done|]. destruct (Nat.ltb_spec (first + len) (length l)); [lia|done].
      * destruct Hlast as (r & Hr & Er); [lia|]. exists r. split; [|done].
        destruct (wrap_line fuel l index width (first + len)); [done|]. by rewrite last_cons_cons.
Qed.

(** All rows of one line, the caret row included. *)
Lemma line_rows_spec l index width c :
  0 < width ->
  let rows := line_rows l index width c in
  rows <> [] /\ flat_map (slice l) rows = l /\
  Forall (row_in_line l index width) rows /\
  StronglySorted (fun r1 r2 => row_first r1 < row_first r2) rows /\
  (forall r, r ∈ rows -> row_length r = 0 ->
     l = [] \/ (index = line c /\ column c = length l /\ row_first r = length l)).
Proof.
  intros Hw. unfold line_rows. destruct l as [|x l].
  { split_and!; [done|done| |by repeat constructor|by left].
    constructor; [|constructor]. unfold row_in_line. cbn. lia. }
  set (k := x :: l). destruct (wrap_line_spec k index width (length k) 0 Hw) as (E & Hall & Hs & Hlast);
    [lia|lia|]. set (rows := wrap_line _ _ _ _ _) in *. rewrite drop_0 in E.
  destruct Hlast as (back & Hback & Eback); [cbn; lia|]. unfold caret_row. rewrite Hback.
  assert (Hrows : Forall (row_in_line k index width) rows) by (eapply Forall_impl; [exact Hall|]; by intros r (? & _)).
  assert (Hpos : forall r, r ∈ rows -> row_length r <> 0).
  { intros r Hr. rewrite Forall_forall in Hall. destruct (Hall r Hr) as (_ & ? & _). lia. }
  destruct (_ && _ && _ && _) eqn:Eb.
  - rewrite !andb_true_iff in Eb. destruct Eb as (((E1 & E2) & E3) & E4). bool_to_prop. split_and!.
    + by destruct rows.
    + rewrite flat_map_app, E. cbn [flat_map]. unfold slice. cbn. by rewrite take_0, app_nil_r.
    + apply Forall_app. split; [done|]. constructor; [|constructor]. unfold row_in_line. cbn. lia.
    + assert (Hlt : Forall (fun r => row_first r < length k) rows).
      { rewrite Forall_forall in Hall |- *. intros r Hr. destruct (Hall r Hr) as ((_ & ? & _) & ? & _). lia. }
      clear -Hs Hlt. induction Hs as [|r rows Hs IH Hr]; cbn; [by repeat constructor|].
      apply Forall_cons in Hlt as [Hlr Hlt]. constructor; [by apply IH|]. apply Forall_app.
      split; [done|]. by constructor.
    + intros r [Hr|Hr%list_elem_of_singleton]%elem_of_app Hz; [by apply Hpos in Hz|]. right. by subst r.
  - rewrite app_nil_r. split_and!; [by destruct rows|done|done|done|]. intros r Hr Hz. by apply Hpos in Hz.
Qed.

(** ** The rows of the buffer *)

(** Reading order of rows. *)
Definition row_before (r1 r2 : VisualRow) : Prop :=
  row_line r1 < row_line r2 \/ (row_line r1 = row_line r2 /\ row_first r1 < row_first r2).

Lemma strongly_sorted_app {A} (R : A -> A -> Prop) l k :
  StronglySorted R l -> StronglySorted R k -> (forall x y, x ∈ l -> y ∈ k -> R x y) ->
  StronglySorted R (l ++ k).
Proof.
  intros Hl Hk Hlk. induction Hl as [|x l Hl IH Hx]; [done|]. cbn. constructor.
  - apply IH. intros y z Hy. apply Hlk. by apply list_elem_of_further.
  - apply Forall_app. split; [done|]. apply Forall_forall. intros y Hy. apply Hlk; [apply list_elem_of_here|done].
Qed.

Lemma strongly_sorted_impl {A} (R S : A -> A -> Prop) l :
  (forall x y, x ∈ l -> y ∈ l -> R x y -> S x y) -> StronglySorted R l -> StronglySorted S l.
Proof.
  intros Himp Hl. induction Hl as [|x l Hl IH Hx]; [constructor|]. constructor.
  - apply IH. intros y z Hy Hz. apply Himp; by apply list_elem_of_further.
  - rewrite Forall_forall in Hx |- *. intros y Hy. apply Himp; [apply list_elem_of_here|by apply list_elem_of_further|auto].
Qed.

Lemma rows_from_spec ls base width c :
  0 < width ->
  let rows := rows_from base ls width c in
  (forall i, i < length ls -> filter (fun r => row_line r = base + i) rows = line_rows (line_at ls i) (base + i) width c) /\
  (forall r, r ∈ rows -> base <= row_line r < base + length ls /\
     row_in_line (line_at ls (row_line r - base)) (row_line r) width r) /\
  StronglySorted row_before rows /\ length ls <= length rows.
Proof.
  intros Hw. revert base. induction ls as [|l ls IH]; intros base; cbn [rows_from].
  { split_and!; [cbn; lia|by intros r ?%elem_of_nil|constructor|done]. }
  destruct (IH (S base)) as (Hf & Hin & Hs & Hlen). destruct (line_rows_spec l base width c Hw) as (Hne & _ & Hl & Hsl & _).
  rewrite Forall_forall in Hl. split_and!.
  - intros [|i] Hi; cbn in Hi; rewrite filter_app.
    + rewrite Nat.add_0_r. cbn. rewrite (list_filter_all _ (line_rows _ _ _ _)), (list_filter_none _ (rows_from _ _ _ _)).
      * by rewrite app_nil_r.
      * intros r Hr. apply Hin in Hr as [? _]. lia.
      * intros r Hr. apply (Hl r Hr).
    + rewrite (list_filter_none _ (line_rows _ _ _ _)).
      * cbn [app]. replace (base + S i) with (S base + i) by lia. apply Hf. lia.
      * intros r Hr. destruct (Hl r Hr) as [? _]. lia.
  - intros r [Hr|Hr]%elem_of_app.
    + destruct (Hl r Hr) as [E ?]. cbn [length]. split; [lia|]. rewrite E at 1. rewrite Nat.sub_diag.
      cbn. unfold row_in_line. split; [done|]. apply (Hl r Hr).
    + destruct (Hin r Hr) as [? Hrow]. cbn [length]. split; [lia|].
      replace (row_line r - base) with (S (row_line r - S base)) by lia. exact Hrow.
  - apply strongly_sorted_app; [|done|].
    + eapply strongly_sorted_impl; [|exact Hsl]. intros r1 r2 H1 H2 Hlt. right.
      destruct (Hl r1 H1) as [-> _], (Hl r2 H2) as [-> _]. done.
    + intros r1 r2 H1 H2. left. destruct (Hl r1 H1) as [-> _], (Hin r2 H2) as [? _]. lia.
  - rewrite length_app. destruct (line_rows l base width c); [done|]. cbn [length]. lia.
Qed.

(** ** The caret row *)

(** The tests of [visual_cursor] on one row. *)
Definition shows_cursor (width : nat) (c : TextCursor) (r : VisualRow) : Prop :=
  row_line r = line c /\
  ((row_length r = 0 /\ row_first r = column c) \/
   (row_first r <= column c < row_first r + row_length r) \/
   (row_length r < width /\ column c = row_first r + row_length r)).

Lemma cursor_row_from_some base rows width c i col :
  cursor_row_from base rows width c = Some (i, col) ->
  base <= i /\ exists r, rows !! (i - base) = Some r /\ shows_cursor width c r /\
    column c = row_first r + col /\ col <= row_length r.
Proof.
  revert base. induction rows as [|r rows IH]; intros base E; [done|]. cbn [cursor_row_from] in E.
  assert (Hnext : cursor_row_from (S base) rows width c = Some (i, col) ->
    base <= i /\ exists r', (r :: rows) !! (i - base) = Some r' /\ shows_cursor width c r' /\
      column c = row_first r' + col /\ col <= row_length r').
  { intros E'. destruct (IH (S base) E') as (Hi & r' & Hr & Hrest). split; [lia|]. exists r'.
    replace (i - base) with (S (i - S base)) by lia. done. }
  assert (Hhere : forall k, shows_cursor width c r -> column c = row_first r + k -> k <= row_length r ->
    Some (base, k) = Some (i, col) -> base <= i /\ exists r', (r :: rows) !! (i - base) = Some r' /\
      shows_cursor width c r' /\ column c = row_first r' + col /\ col <= row_length r').
  { intros k Hsh Hk Hlen [= <- <-]. split; [done|]. exists r. by rewrite Nat.sub_diag. }
  unfold shows_cursor in *. destruct (Nat.eqb_spec (row_line r) (line c)) as [El|]; cbn [negb] in E; [|auto].
  destruct (_ && _) eqn:E1 in E; [bool_to_prop; apply (Hhere 0); auto; lia|].
  destruct (_ && _) eqn:E2 in E; [bool_to_prop; apply (Hhere (column c - row_first r)); auto; lia|].
  destruct (_ && _) eqn:E3 in E; [bool_to_prop; apply (Hhere (row_length r)); auto; lia|]. auto.
Qed.

Lemma cursor_row_from_none base rows width c :
  cursor_row_from base rows width c = None -> forall r, r ∈ rows -> ~ shows_cursor width c r.
Proof.
  revert base. induction rows as [|r rows IH]; intros base E r' Hr'; [by apply elem_of_nil in Hr'|].
  cbn [cursor_row_from] in E. unfold shows_cursor. apply elem_of_cons in Hr' as [->|Hr'].
  - intros [El Hc]. rewrite El, Nat.eqb_refl in E. cbn [negb] in E.
    repeat match type of E with
    | (if ?b then _ else _) = _ => destruct b eqn:?; [done|]
    end.
    rewrite !andb_false_iff in *. rewrite ?Nat.eqb_neq, ?Nat.leb_gt, ?Nat.ltb_ge in *. lia.
  - repeat match type of E with
    | (if ?b then _ else _) = _ => destruct b; [by apply (IH (S base))||done|]
    end; by apply (IH (S base)).
Qed.

Lemma wrap_line_covers l index width fuel first k :
  0 < width -> length l - first <= fuel -> first <= k < length l ->
  exists r, r ∈ wrap_line fuel l index width first /\ row_line r = index /\
    row_first r <= k < row_first r + row_length r.
Proof.
  intros Hw. revert first. induction fuel as [|fuel IH]; intros first Hf Hk; [lia|]. cbn [wrap_line].
  destruct (Nat.ltb_spec first (length l)); [|lia].
  pose proof (visual_length_bounds l width first Hw) as Hb. destruct (visual_length l width first) as [|n] eqn:En; [lia|].
  destruct (decide (k < first + S n)).
  - eexists. split; [apply list_elem_of_here|]. cbn. lia.
  - destruct (IH (first + S n)) as (r & Hr & Hrest); [lia|lia|]. exists r. split; [|done].
    by apply list_elem_of_further.
Qed.

Lemma line_rows_cursor l width c :
  0 < width -> column c <= length l ->
  exists r, r ∈ line_rows l (line c) width c /\ shows_cursor width c r.
Proof.
  intros Hw Hc. unfold line_rows. destruct l as [|x l].
  { eexists. split; [apply list_elem_of_here|]. unfold shows_cursor. cbn in *. lia. }
  set (k := x :: l) in *. destruct (decide (column c < length k)) as [Hlt|Hge].
  - destruct (wrap_line_covers k (line c) width (length k) 0 (column c) Hw) as (r & Hr & El & Hb); [lia|lia|].
    exists r. split; [apply elem_of_app; by left|]. unfold shows_cursor. auto.
  - destruct (wrap_line_spec k (line c) width (length k) 0 Hw) as (_ & Hall & _ & Hlast); [lia|lia|].
    set (rows := wrap_line _ _ _ _ _) in *. destruct Hlast as (back & Hback & Eb); [cbn; lia|].
    assert (Hin : back ∈ rows) by (rewrite last_lookup in Hback; by eapply list_elem_of_lookup_2).
    rewrite Forall_forall in Hall. destruct (Hall back Hin) as ((El & _ & Hbw) & _).
    destruct (decide (row_length back < width)) as [Hs|Hs].
    + exists back. split; [apply elem_of_app; by left|]. unfold shows_cursor. split; [done|]. lia.
    + exists {| row_line := line c; row_first := length k; row_length := 0 |}.
      split; [|unfold shows_cursor; cbn [row_line row_first row_length]; lia].
      apply elem_of_app. right. unfold caret_row. rewrite Hback, El.
      replace (column c) with (length k) by lia. replace (row_length back) with width by lia.
      rewrite !Nat.eqb_refl. apply list_elem_of_here.
Qed.

(** ** What the operations use *)

Lemma visual_rows_positive s width : 0 < width -> visual_rows s width = rows_from 0 (lines s) width (cursor s).
Proof. unfold visual_rows. by destruct width; [lia|]. Qed.

(** Every row is a row of its line. *)
Lemma visual_rows_in s width r :
  r ∈ visual_rows s width ->
  row_line r < length (lines s) /\ row_in_line (line_at (lines s) (row_line r)) (row_line r) width r.
Proof.
  intros Hr. destruct (decide (0 < width)) as [Hw|Hw].
  - rewrite visual_rows_positive in Hr by done.
    destruct (rows_from_spec (lines s) 0 width (cursor s) Hw) as (_ & Hin & _).
    apply Hin in Hr as [? Hr]. rewrite Nat.sub_0_r in Hr. split; [lia|done].
  - unfold visual_rows in Hr. replace width with 0 in Hr by lia. by apply elem_of_nil in Hr.
Qed.

Lemma visual_rows_length s width : 0 < width -> length (lines s) <= length (visual_rows s width).
Proof. intros Hw. rewrite visual_rows_positive by done. by apply rows_from_spec. Qed.

(** The caret is found, in a row that shows it, left of the width. *)
Lemma visual_cursor_spec s width :
  0 < width -> cursor_valid (lines s) (cursor s) ->
  let '(row, col) := visual_cursor s (visual_rows s width) width in
  exists r, visual_rows s width !! row = Some r /\ row_line r = line (cursor s) /\
    column (cursor s) = row_first r + col /\ col <= row_length r /\ col < width.
Proof.
  intros Hw (l & El & Hc). unfold visual_cursor.
  destruct (cursor_row_from 0 (visual_rows s width) width (cursor s)) as [[row col]|] eqn:E.
  - apply cursor_row_from_some in E as (_ & r & Hr & Hsh & Hcol & Hlen). rewrite Nat.sub_0_r in Hr.
    exists r. destruct Hsh as [Hl Hsh]. split_and!; try done.
    assert (Hin : r ∈ visual_rows s width) by (by eapply list_elem_of_lookup_2).
    apply visual_rows_in in Hin as (_ & _ & _ & Hrw). lia.
  - exfalso. destruct (line_rows_cursor l width (cursor s) Hw Hc) as (r & Hr & Hsh).
    apply (cursor_row_from_none _ _ _ _ E r); [|done]. rewrite visual_rows_positive by done.
    destruct (rows_from_spec (lines s) 0 width (cursor s) Hw) as (Hf & _).
    specialize (Hf (line (cursor s)) ltac:(by eapply lookup_lt_Some)). cbn in Hf.
    rewrite (line_at_lookup _ _ _ El) in Hf. rewrite <- Hf in Hr. by apply list_elem_of_filter in Hr as [_ Hr].
Qed.

(** Carets at row positions are inside the buffer. *)
Lemma row_cursor_valid s width r col :
  r ∈ visual_rows s width -> col <= row_length r ->
  cursor_valid (lines s) {| line := row_line r; column := row_first r + col |}.
Proof.
  intros Hr Hc. apply visual_rows_in in Hr as (Hl & _ & Hb & _). apply cursor_valid_iff. cbn. lia.
Qed.
