(* ===== verification/EditorText.v ===== *)
(** * The editor as a flat text

    The abstract view of TextEditor.v: the buffer is one newline-separated
    text and the caret an offset into it. Every editing operation keeps the
    state well formed and is an edit of that text; materialised word wraps
    only turn spaces into newlines, and exactly those before the first word
    that does not fit its row; a tab fills up to the next multiple of the tab
    width. *)
From S2P Require Import Prelude.
From S2P Require Import Utf8.
From S2P Require Import Events.
From S2P Require Import Tui.
From S2P Require Import TextEditor.
From S2P Require Import EditorRows.
Open Scope nat_scope.

(** ** Lines and offsets *)

Fixpoint flat (ls : list (list Z)) : list Z :=
  match ls with
  | [] => []
  | [l] => l
  | l :: ls => l ++ NEWLINE :: flat ls
  end.

Definition before_text (pre : list (list Z)) : list Z := flat_map (fun l => l ++ [NEWLINE]) pre.
Definition after_text (post : list (list Z)) : list Z := flat_map (fun l => NEWLINE :: l) post.

Definition offset (ls : list (list Z)) (c : TextCursor) : nat :=
  length (before_text (take (line c) ls)) + column c.

Lemma flat_cons l post : flat (l :: post) = l ++ after_text post.
Proof.
  revert l. induction post as [|l' post IH]; intros l; [by rewrite app_nil_r|].
  change (flat (l :: l' :: post)) with (l ++ NEWLINE :: flat (l' :: post)). by rewrite IH.
Qed.

Lemma flat_split pre l post : flat (pre ++ l :: post) = before_text pre ++ l ++ after_text post.
Proof.
  induction pre as [|p pre IH]; [apply flat_cons|].
  assert (E : flat (p :: pre ++ l :: post) = p ++ NEWLINE :: flat (pre ++ l :: post)) by (by destruct pre).
  cbn [app]. rewrite E, IH. cbn [before_text flat_map]. by rewrite <- !app_assoc.
Qed.

(** A caret splits the buffer. *)
Lemma cursor_split ls c :
  cursor_valid ls c ->
  exists pre l post k, ls = pre ++ l :: post /\ c = {| line := length pre; column := k |} /\ k <= length l.
Proof.
  intros (l & E & Hc). exists (take (line c) ls), l, (drop (S (line c)) ls), (column c).
  rewrite take_drop_middle by done. split_and!; [done| |done].
  apply lookup_lt_Some in E. rewrite length_take_le by lia. by destruct c.
Qed.

Lemma cursor_valid_middle pre l post k :
  k <= length l -> cursor_valid (pre ++ l :: post) {| line := length pre; column := k |}.
Proof. intros Hk. exists l. cbn. split; [by apply list_lookup_middle|done]. Qed.

Lemma line_at_middle pre l post i : length pre = i -> line_at (pre ++ l :: post) i = l.
Proof. intros <-. unfold line_at. by rewrite list_lookup_middle. Qed.

Lemma replace_line_middle pre l l' post i :
  length pre = i -> replace_line i l' (pre ++ l :: post) = pre ++ l' :: post.
Proof.
  intros <-. unfold replace_line. rewrite insert_app_r_alt by done. by rewrite Nat.sub_diag.
Qed.

Lemma offset_middle pre l post k :
  offset (pre ++ l :: post) {| line := length pre; column := k |} = length (before_text pre) + k.
Proof. unfold offset. cbn. by rewrite take_app_length. Qed.

Lemma flat_take pre l post k :
  k <= length l ->
  take (length (before_text pre) + k) (flat (pre ++ l :: post)) = before_text pre ++ take k l.
Proof.
  intros Hk. rewrite flat_split, take_app_add. f_equal. rewrite take_app_le by done. done.
Qed.

Lemma flat_drop pre l post k :
  k <= length l ->
  drop (length (before_text pre) + k) (flat (pre ++ l :: post)) = drop k l ++ after_text post.
Proof. intros Hk. rewrite flat_split, drop_app_add, drop_app_le by done. done. Qed.

Lemma before_text_app pre post : before_text (pre ++ post) = before_text pre ++ before_text post.
Proof. apply flat_map_app. Qed.

Lemma after_text_app pre post : after_text (pre ++ post) = after_text pre ++ after_text post.
Proof. apply flat_map_app. Qed.

Lemma after_before pre l : after_text (pre ++ [l]) = NEWLINE :: before_text pre ++ l.
Proof.
  induction pre as [|p pre IH]; cbn [app before_text after_text flat_map]; [by rewrite app_nil_r|].
  unfold after_text in IH. rewrite IH. unfold before_text. cbn. by rewrite <- !app_assoc.
Qed.

Lemma offset_bound ls c : cursor_valid ls c -> offset ls c <= length (flat ls).
Proof.
  intros (pre & l & post & k & -> & -> & Hk)%cursor_split. rewrite offset_middle, flat_split, !length_app. lia.
Qed.

(** Carets are ordered like their offsets. *)
Lemma offset_less ls a b :
  cursor_valid ls a -> cursor_valid ls b ->
  cursor_less a b = true <-> offset ls a < offset ls b.
Proof.
  assert (Hline : forall a b, cursor_valid ls a -> cursor_valid ls b -> line a < line b -> offset ls a < offset ls b).
  { clear. intros a [j m] (pre & l & post & k & -> & -> & Hk)%cursor_split Hb Hij. cbn in Hij.
    rewrite offset_middle. unfold offset. cbn [line column].
    rewrite take_app_ge by lia. destruct (j - length pre) as [|n] eqn:En; [lia|].
    cbn [take]. rewrite before_text_app. cbn [before_text flat_map]. rewrite !length_app. cbn. lia. }
  intros Ha Hb. unfold cursor_less. destruct (Nat.lt_trichotomy (line a) (line b)) as [Hlt|[Heq|Hgt]].
  - split; [by intros _; apply Hline|]. intros _. apply orb_true_iff. left. by apply Nat.ltb_lt.
  - rewrite Heq, Nat.ltb_irrefl, Nat.eqb_refl. cbn [orb andb]. unfold offset. rewrite Heq, Nat.ltb_lt. lia.
  - pose proof (Hline b a Hb Ha Hgt). split; [|lia]. intros E. exfalso.
    apply orb_true_iff in E as [E|E]; [by apply Nat.ltb_lt in E; lia|].
    apply andb_true_iff in E as [E _]. apply Nat.eqb_eq in E. lia.
Qed.

Lemma offset_inj ls a b :
  cursor_valid ls a -> cursor_valid ls b -> offset ls a = offset ls b -> a = b.
Proof.
  intros Ha Hb E. pose proof (offset_less ls a b Ha Hb) as H1. pose proof (offset_less ls b a Hb Ha) as H2.
  rewrite E in H1, H2. destruct a as [i k], b as [j m]. unfold cursor_less in *. cbn [line column] in *.
  assert (Hn : forall P : Prop, (true = true <-> P) -> P) by (intros P [HP _]; by apply HP).
  destruct (Nat.ltb_spec i j); [apply Hn in H1; lia|]. destruct (Nat.ltb_spec j i); [apply Hn in H2; lia|].
  assert (i = j) as -> by lia. unfold offset in E. cbn in E. f_equal. lia.
Qed.

(** The published text is the encoding of the flat text. *)
Lemma join_lines_flat ls : join_lines ls = encode_utf8 (flat ls).
Proof.
  induction ls as [|l ls IH]; [done|]. destruct ls as [|l' ls]; [done|].
  change (flat (l :: l' :: ls)) with (l ++ [NEWLINE] ++ flat (l' :: ls)).
  rewrite !encode_utf8_app, <- IH. done.
Qed.

(** ** The state invariant *)

Definition range_valid (ls : list (list Z)) (r : TextSelectionRange) : Prop :=
  cursor_valid ls (range_first r) /\ cursor_valid ls (range_last r) /\
  offset ls (range_first r) <= offset ls (range_last r).

(** Caret, selection and anchor inside a buffer. *)
Definition marks_valid (ls : list (list Z)) (c : TextCursor) (sel : option TextSelectionRange)
    (anchor : option TextCursor) : Prop :=
  cursor_valid ls c /\ (forall r, sel = Some r -> range_valid ls r) /\
  (forall a, anchor = Some a -> cursor_valid ls a).

Record editor_wf (s : Impl) : Prop := {
  wf_tab : 0 < tab_width (options s);
  wf_fallback : 0 < fallback_width (options s);
  wf_marks : marks_valid (lines s) (cursor s) (selection s) (keyboard_anchor s);
  wf_paste : forall p, paste s = Some p ->
    marks_valid (paste_lines p) (paste_cursor p) (paste_selection p) (paste_anchor p);
}.

Lemma wf_cursor s : editor_wf s -> cursor_valid (lines s) (cursor s).
Proof. intros [_ _ [H _] _]. done. Qed.

(** The abstract state. *)
Definition flat_text (s : Impl) : list Z := flat (lines s).
Definition caret (s : Impl) : nat := offset (lines s) (cursor s).

(** ** Deleting *)

Lemma range_split ls a b :
  cursor_valid ls a -> cursor_valid ls b -> line a < line b ->
  exists pre l mid l' post k m,
    ls = pre ++ l :: mid ++ l' :: post /\ a = {| line := length pre; column := k |} /\
    b = {| line := length pre + S (length mid); column := m |} /\ k <= length l /\ m <= length l'.
Proof.
  intros (pre & l & post & k & -> & -> & Hk)%cursor_split (l' & Hb & Hm) Hlt. cbn [line] in Hlt.
  destruct b as [j m]. cbn [line column] in *. rewrite lookup_app_r in Hb by lia.
  destruct (j - length pre) as [|n] eqn:En; [lia|]. cbn in Hb.
  apply list_elem_of_split_length in Hb as (mid & post' & -> & Hmid).
  exists pre, l, mid, l', post', k, m. split_and!; try done. f_equal. lia.
Qed.

Lemma delete_selection_spec s r :
  selection s = Some r -> range_valid (lines s) r ->
  let s' := snd (delete_selection s) in
  fst (delete_selection s) = true /\ cursor_valid (lines s') (cursor s') /\
  flat_text s' = take (offset (lines s) (range_first r)) (flat_text s) ++
                 drop (offset (lines s) (range_last r)) (flat_text s) /\
  caret s' = offset (lines s) (range_first r).
Proof.
  intros Hsel (Ha & Hb & Hab). unfold delete_selection. rewrite Hsel. cbn. split; [done|].
  unfold flat_text, caret. cbn. destruct r as [a b]. cbn [range_first range_last] in *.
  destruct (Nat.eqb_spec (line a) (line b)) as [E|E].
  - destruct b as [j m]. cbn [line column] in *. subst j.
    apply cursor_split in Ha as (pre & l & post & k & El & -> & Hk). rewrite El in *. cbn [line column] in *.
    rewrite line_at_middle, replace_line_middle by done. rewrite !offset_middle in *.
    assert (Hm : m <= length l).
    { destruct Hb as (l' & Hl' & Hm). cbn in Hl', Hm. rewrite list_lookup_middle in Hl' by done. congruence. }
    rewrite flat_take, flat_drop, flat_split by done. unfold erase.
    replace (k + (m - k)) with m by lia. split_and!; [|by rewrite <- !app_assoc|done].
    apply cursor_valid_middle. rewrite length_app, length_take. lia.
  - assert (Hlt : line a < line b).
    { destruct (Nat.lt_trichotomy (line a) (line b)) as [?|[?|Hgt]]; [done|done|].
      assert (cursor_less b a = true) as H%(offset_less (lines s)) by (unfold cursor_less; apply orb_true_iff; left; by apply Nat.ltb_lt).
      - lia.
      - done.
      - done. }
    destruct (range_split _ _ _ Ha Hb Hlt) as (pre & l & mid & l' & post & k & m & El & -> & -> & Hk & Hm).
    rewrite El. cbn [line column]. rewrite line_at_middle, replace_line_middle by done.
    assert (Eb : pre ++ l :: mid ++ l' :: post = (pre ++ l :: mid) ++ l' :: post) by (by rewrite <- app_assoc).
    assert (Elen : length pre + S (length mid) = length (pre ++ l :: mid)) by (by rewrite length_app).
    rewrite offset_middle, flat_take by done.
    rewrite Eb, Elen, offset_middle, flat_drop by done.
    rewrite line_at_middle by done. unfold erase_lines.
    rewrite (app_assoc pre [_] _ : pre ++ (take k l ++ drop m l') :: mid ++ l' :: post = _).
    rewrite take_app_length' by (rewrite length_app; cbn; lia).
    rewrite drop_app_ge by (rewrite !length_app; cbn; lia).
    replace (mid ++ l' :: post) with ((mid ++ [l']) ++ post) by (by rewrite <- app_assoc).
    rewrite drop_app_length' by (rewrite !length_app; cbn; lia).
    rewrite <- app_assoc. cbn [app]. rewrite flat_split, offset_middle. split_and!; [|by rewrite <- !app_assoc|done].
    apply cursor_valid_middle. rewrite length_app, length_take. lia.
Qed.

(** [ensure_cursor_visible] only scrolls. *)
Lemma ensure_scrolls s : exists row, ensure_cursor_visible s = with_scroll row s.
Proof.
  assert (Hs : s = with_scroll (scroll_row s) s) by (by destruct s).
  unfold ensure_cursor_visible. destruct (_ || _); [by eexists|].
  destruct (visual_rows _ _); [by eexists|]. by eexists.
Qed.

Lemma ensure_lines s : lines (ensure_cursor_visible s) = lines s.
Proof. by destruct (ensure_scrolls s) as [row ->]. Qed.
Lemma ensure_cursor s : cursor (ensure_cursor_visible s) = cursor s.
Proof. by destruct (ensure_scrolls s) as [row ->]. Qed.

(** What the deletion commands remove, as offsets. *)
Definition backspace_range (s : Impl) : nat * nat :=
  match selection s with
  | Some r => (offset (lines s) (range_first r), offset (lines s) (range_last r))
  | None => (caret s - 1, caret s)
  end.

Definition delete_range (s : Impl) : nat * nat :=
  match selection s with
  | Some r => (offset (lines s) (range_first r), offset (lines s) (range_last r))
  | None => (caret s, S (caret s))
  end.

(** Removing [take a] up to [drop b]. *)
Definition cut (range : nat * nat) (t : list Z) : list Z := take (fst range) t ++ drop (snd range) t.

(** The two shapes of a deletion without a selection: inside a line, and the
    join of two lines. *)
Lemma erase_one_spec pre l post k :
  k < length l ->
  let ls := pre ++ l :: post in
  let ls' := replace_line (length pre) (erase k 1 l) ls in
  let o := length (before_text pre) + k in
  cursor_valid ls' {| line := length pre; column := k |} /\
  flat ls' = cut (o, S o) (flat ls) /\ offset ls' {| line := length pre; column := k |} = o.
Proof.
  intros Hk. cbn zeta. rewrite replace_line_middle, offset_middle by done. split_and!; [|unfold cut; cbn [fst snd]|done].
  - apply cursor_valid_middle. unfold erase. rewrite length_app, length_take. lia.
  - rewrite flat_take by lia. rewrite <- Nat.add_succ_r, flat_drop, flat_split by lia.
    unfold erase. rewrite Nat.add_1_r. by rewrite <- !app_assoc.
Qed.

Lemma join_lines_spec pre l l' post :
  let ls := pre ++ l :: l' :: post in
  let ls' := pre ++ (l ++ l') :: post in
  let o := length (before_text pre) + length l in
  cursor_valid ls' {| line := length pre; column := length l |} /\
  flat ls' = cut (o, S o) (flat ls) /\ offset ls' {| line := length pre; column := length l |} = o.
Proof.
  cbn zeta. rewrite offset_middle. split_and!; [|unfold cut; cbn [fst snd]|done].
  - apply cursor_valid_middle. rewrite length_app. lia.
  - rewrite flat_take, take_ge by lia. rewrite !flat_split.
    cbn [after_text flat_map]. rewrite <- !app_assoc. f_equal. f_equal.
    rewrite app_assoc. replace (S (length (before_text pre) + length l)) with (length (before_text pre ++ l) + 1) by (rewrite length_app; lia).
    rewrite drop_app_add. done.
Qed.

Lemma erase_joined pre l l' post :
  erase_lines (S (length pre)) (S (S (length pre))) (replace_line (length pre) (l ++ l') (pre ++ l :: l' :: post))
  = pre ++ (l ++ l') :: post.
Proof.
  rewrite replace_line_middle by done. unfold erase_lines.
  rewrite (app_assoc pre [_] _ : pre ++ (l ++ l') :: l' :: post = _).
  rewrite take_app_length' by (rewrite length_app; cbn; lia).
  rewrite drop_app_ge by (rewrite length_app; cbn; lia). rewrite length_app. cbn [length].
  replace (S (S (length pre)) - (length pre + 1)) with 1 by lia. cbn. by rewrite <- app_assoc.
Qed.

Lemma line_at_next pre l l' post : line_at (pre ++ l :: l' :: post) (S (length pre)) = l'.
Proof.
  replace (pre ++ l :: l' :: post) with ((pre ++ [l]) ++ l' :: post) by (by rewrite <- app_assoc).
  apply line_at_middle. rewrite length_app. cbn. lia.
Qed.

Lemma finish_deletion_view s :
  flat_text (finish_deletion s) = flat_text s /\ caret (finish_deletion s) = caret s /\
  lines (finish_deletion s) = lines s /\ cursor (finish_deletion s) = cursor s.
Proof. unfold finish_deletion, flat_text, caret. by rewrite ensure_lines, ensure_cursor. Qed.

Lemma ensure_view s :
  flat_text (ensure_cursor_visible s) = flat_text s /\ caret (ensure_cursor_visible s) = caret s.
Proof. unfold flat_text, caret. by rewrite ensure_lines, ensure_cursor. Qed.

Lemma delete_selection_none s : selection s = None -> delete_selection s = (false, s).
Proof. unfold delete_selection. by intros ->. Qed.

Lemma delete_selection_some s r :
  selection s = Some r -> fst (delete_selection s) = true.
Proof. unfold delete_selection. by intros ->. Qed.

Lemma backspace_spec s :
  editor_wf s ->
  cursor_valid (lines (backspace s)) (cursor (backspace s)) /\
  flat_text (backspace s) = cut (backspace_range s) (flat_text s) /\
  caret (backspace s) = fst (backspace_range s).
Proof.
  intros Hwf. unfold backspace, backspace_range. destruct (selection s) as [r|] eqn:Hsel.
  - assert (Hr : range_valid (lines s) r) by (by apply (wf_marks s Hwf)).
    destruct (delete_selection_spec s r Hsel Hr) as (E & Hc & Hf & Ho).
    destruct (delete_selection s) as [d s']. cbn [fst snd] in *. subst d.
    rewrite ensure_lines, ensure_cursor. destruct (ensure_view s') as [-> ->]. auto.
  - rewrite delete_selection_none by done. pose proof (wf_cursor s Hwf) as Hc. unfold finish_deletion.
    rewrite ensure_lines, ensure_cursor.
    match goal with |- context [ensure_cursor_visible ?t] => destruct (ensure_view t) as [-> ->] end.
    unfold caret, flat_text. cbn [lines cursor forget_column with_desired with_selection].
    apply cursor_split in Hc as (pre & l & post & k & El & Ec & Hk). rewrite Ec. cbn [line column].
    destruct (Nat.ltb_spec 0 k) as [H0|H0].
    + cbn [lines cursor with_text]. rewrite El, line_at_middle, offset_middle by done.
      destruct (erase_one_spec pre l post (k - 1)) as (? & -> & ->); [lia|].
      split_and!; [done|f_equal; f_equal; lia|cbn; lia].
    + assert (k = 0) as -> by lia. destruct (Nat.ltb_spec 0 (length pre)) as [H1|H1].
      * destruct (list_snoc_inv pre) as [->|(pre' & p & ->)]; [cbn in H1; lia|].
        rewrite El. cbn [lines cursor with_text]. rewrite <- app_assoc. cbn [app].
        rewrite length_app. cbn [length]. replace (length pre' + 1 - 1) with (length pre') by lia.
        rewrite line_at_middle by done.
        rewrite !Nat.add_1_r, line_at_next, erase_joined.
        destruct (join_lines_spec pre' p l post) as (? & Hf & Ho). rewrite Hf, Ho.
        assert (Eo : offset (pre' ++ p :: l :: post) {| line := S (length pre'); column := 0 |}
                     = S (length (before_text pre') + length p)).
        { unfold offset. cbn [line column].
          rewrite (app_assoc pre' [p] _ : pre' ++ p :: l :: post = _), take_app_length' by (rewrite length_app; cbn; lia).
          rewrite before_text_app. cbn. rewrite !length_app. cbn. lia. }
        rewrite Eo. split_and!; [done|f_equal; f_equal; lia|cbn; lia].
      * destruct pre; [|cbn in H1; lia]. rewrite El, Ec. cbn. split_and!; [|done|done].
        by apply (cursor_valid_middle [] l post 0).
Qed.

Lemma delete_forward_spec s :
  editor_wf s ->
  cursor_valid (lines (delete_forward s)) (cursor (delete_forward s)) /\
  flat_text (delete_forward s) = cut (delete_range s) (flat_text s) /\
  caret (delete_forward s) = fst (delete_range s).
Proof.
  intros Hwf. unfold delete_forward, delete_range. destruct (selection s) as [r|] eqn:Hsel.
  - assert (Hr : range_valid (lines s) r) by (by apply (wf_marks s Hwf)).
    destruct (delete_selection_spec s r Hsel Hr) as (E & Hc & Hf & Ho).
    destruct (delete_selection s) as [d s']. cbn [fst snd] in *. subst d.
    rewrite ensure_lines, ensure_cursor. destruct (ensure_view s') as [-> ->]. auto.
  - rewrite delete_selection_none by done. pose proof (wf_cursor s Hwf) as Hc. unfold finish_deletion.
    rewrite ensure_lines, ensure_cursor.
    match goal with |- context [ensure_cursor_visible ?t] => destruct (ensure_view t) as [-> ->] end.
    unfold caret, flat_text. cbn [lines cursor forget_column with_desired with_selection].
    apply cursor_split in Hc as (pre & l & post & k & El & Ec & Hk). rewrite Ec. cbn [line column].
    rewrite El, line_at_middle by done. destruct (Nat.ltb_spec k (length l)) as [H0|H0].
    + cbn [lines cursor with_text]. destruct (erase_one_spec pre l post k H0) as (? & -> & ->).
      rewrite offset_middle. done.
    + assert (k = length l) as -> by lia. destruct post as [|l' post].
      * destruct (Nat.ltb_spec (length pre + 1) (length (pre ++ [l]))) as [H1|_]; [rewrite length_app in H1; cbn in H1; lia|].
        rewrite El, Ec, offset_middle. split_and!; [by apply cursor_valid_middle| |done].
        unfold cut. cbn [fst snd]. rewrite flat_take, take_ge by lia. rewrite flat_split, drop_ge, !app_nil_r; [done|].
        rewrite !length_app. cbn. lia.
      * destruct (Nat.ltb_spec (length pre + 1) (length (pre ++ l :: l' :: post))) as [_|H1]; [|rewrite length_app in H1; cbn in H1; lia].
        cbn [lines cursor with_text]. rewrite !Nat.add_1_r, line_at_next.
        replace (length pre + 2) with (S (S (length pre))) by lia. rewrite erase_joined.
        destruct (join_lines_spec pre l l' post) as (? & -> & ->). rewrite offset_middle. done.
Qed.

(** ** Word wraps that become newlines *)

(** Equal but for spaces that turned into newlines. *)
Definition wrapped_char (before after : Z) : Prop := after = before \/ (before = SPACE /\ after = NEWLINE).
Definition wrapped_text : list Z -> list Z -> Prop := Forall2 wrapped_char.

#[global] Instance wrapped_text_refl : Reflexive wrapped_text.
Proof. intros l. induction l; constructor; [by left|done]. Qed.

#[global] Instance wrapped_text_trans : Transitive wrapped_text.
Proof.
  intros a b c Hab. revert c. induction Hab as [|x y a b Hxy Hab IH]; intros c Hbc; inversion Hbc; subst; constructor.
  - unfold wrapped_char, SPACE, NEWLINE in *. lia.
  - by apply IH.
Qed.

Lemma wrapped_text_app a a' b b' : wrapped_text a a' -> wrapped_text b b' -> wrapped_text (a ++ b) (a' ++ b').
Proof. apply Forall2_app. Qed.

(** [skip_spaces] stops behind the spaces. *)
Lemma skip_spaces_spec fuel l index :
  index <= length l -> length l - index <= fuel ->
  let stop := skip_spaces fuel l index in
  index <= stop <= length l /\ (forall i, index <= i < stop -> l !! i = Some SPACE) /\
  (stop < length l -> l !! stop <> Some SPACE).
Proof.
  revert index. induction fuel as [|fuel IH]; intros index Hi Hf; cbn.
  - split_and!; [lia|done|lia|lia].
  - destruct (l !! index) as [c|] eqn:E.
    + apply lookup_lt_Some in E as Hlt. destruct (Z.eqb_spec c SPACE) as [->|Hc].
      * destruct (IH (S index)) as (Hb & Hsp & Hst); [lia|lia|]. split_and!; [lia|lia| |done].
        intros i Hr. destruct (decide (i = index)) as [->|]; [done|]. apply Hsp. lia.
      * split_and!; [lia|lia|lia|]. congruence.
    + apply lookup_ge_None in E. split_and!; [lia|lia|lia|lia].
Qed.

(** [word_start] stops behind a space or at the row. *)
Lemma word_start_spec l first word :
  word <= length l ->
  let start := word_start l first word in
  start <= word /\ (first < start -> l !! (start - 1) = Some SPACE) /\
  (forall i, start <= i < word -> l !! i <> Some SPACE) /\ (first <= word -> first <= start).
Proof.
  induction word as [|n IH]; intros Hw; cbn zeta; cbn [word_start]; [split_and!; [lia|lia|lia|lia]|].
  destruct (lookup_lt_is_Some_2 l n) as [c Hc]; [lia|]. rewrite Hc. change (default SPACE (Some c)) with c.
  destruct (Nat.ltb_spec first (S n)) as [Hf|Hf]; cbn [andb].
  - destruct (Z.eqb_spec c SPACE) as [->|Hne]; cbn [negb].
    + split_and!; [lia| |lia|lia]. intros _. by replace (S n - 1) with n by lia.
    + destruct (IH ltac:(lia)) as (Hle & Hsp & Hno & Hge). split_and!; [lia|done| |intros; apply Hge; lia].
      intros i Hi. destruct (decide (i = n)) as [->|]; [congruence|]. apply Hno. lia.
  - split_and!; lia.
Qed.

Lemma wrap_break_space fuel l width first separator :
  0 < width -> wrap_break_loop fuel l width first = Some separator ->
  first <= separator /\ l !! separator = Some SPACE.
Proof.
  intros Hw. revert first. induction fuel as [|fuel IH]; intros first E; [done|]. cbn [wrap_break_loop] in E.
  destruct (Nat.ltb_spec width (length l - first)) as [Hlt|]; [|done].
  destruct (skip_spaces_spec (length l) l (first + width)) as (Hb & _ & _); [lia|lia|].
  destruct (Nat.eqb_spec (skip_spaces (length l) l (first + width)) (length l)) as [|Hne]; [done|].
  destruct (word_start_spec l first (skip_spaces (length l) l (first + width))) as (_ & Hsp & _); [lia|].
  destruct (Nat.ltb_spec first (word_start l first (skip_spaces (length l) l (first + width)))) as [Hf|Hf].
  - injection E as <-. split; [lia|auto].
  - apply IH in E. split; [lia|apply E].
Qed.

Lemma materialized_wrap_break_space l width separator :
  materialized_wrap_break l width = Some separator -> l !! separator = Some SPACE.
Proof.
  unfold materialized_wrap_break. destruct (Nat.eqb_spec width 0); [done|].
  intros [_ E]%wrap_break_space; [done|lia].
Qed.

Lemma drop_middle {A} (pre : list A) x post : drop (S (length pre)) (pre ++ x :: post) = post.
Proof. rewrite drop_app_ge by lia. by replace (S (length pre) - length pre) with 1 by lia. Qed.

(** One split turns one space into a newline. *)
Lemma split_line_spec ls c index separator :
  cursor_valid ls c -> line_at ls index !! separator = Some SPACE ->
  let '(ls', c') := split_line index separator ls c in
  cursor_valid ls' c' /\ offset ls' c' = offset ls c /\ wrapped_text (flat ls) (flat ls').
Proof.
  intros Hc Hs. assert (Hi : exists l, ls !! index = Some l).
  { unfold line_at in Hs. destruct (ls !! index); [by eexists|done]. }
  destruct Hi as [l Hl]. rewrite (line_at_lookup _ _ _ Hl) in Hs.
  apply list_elem_of_split_length in Hl as (pre & post & -> & ->).
  apply list_elem_of_split_length in Hs as (lead & trail & -> & ->).
  unfold split_line. rewrite line_at_middle by done. rewrite take_app_length.
  rewrite take_app_length.
  rewrite !drop_middle. cbn [app].
  assert (Hflat : wrapped_text (flat (pre ++ (lead ++ SPACE :: trail) :: post)) (flat (pre ++ lead :: trail :: post))).
  { rewrite !flat_split. cbn [after_text flat_map]. rewrite <- app_assoc. cbn [app].
    apply wrapped_text_app; [done|]. apply wrapped_text_app; [done|]. constructor; [by right|]. done. }
  destruct c as [i k]. cbn [line column].
  destruct (Nat.eqb_spec i (length pre)) as [->|Hne]; [destruct (Nat.ltb_spec (length lead) k) as [Hk|Hk]|]; cbn [andb].
  - (* on the split line, behind the separator *)
    destruct Hc as (l & El & Hkl). cbn in El, Hkl. rewrite list_lookup_middle in El by done. injection El as <-.
    rewrite length_app in Hkl. cbn in Hkl. split_and!; [| |done].
    + exists trail. cbn. split; [|lia]. rewrite lookup_app_r by lia. by replace (S (length pre) - length pre) with 1 by lia.
    + rewrite offset_middle. unfold offset. cbn [line column].
      rewrite (app_assoc pre [_] _ : pre ++ lead :: trail :: post = _), take_app_length' by (rewrite length_app; cbn; lia).
      rewrite before_text_app. cbn. rewrite !length_app. cbn. lia.
  - rewrite Nat.ltb_irrefl. split_and!; [by apply cursor_valid_middle| |done]. by rewrite !offset_middle.
  - destruct Hc as (l & El & Hkl). cbn in El, Hkl. destruct (Nat.ltb_spec (length pre) i) as [Hgt|Hle].
    + rewrite lookup_app_r in El by lia. destruct (i - length pre) as [|n] eqn:En; [lia|]. cbn in El.
      split_and!; [| |done].
      * exists l. cbn. split; [|done]. rewrite lookup_app_r by lia. by replace (S i - length pre) with (S (S n)) by lia.
      * unfold offset. cbn [line column]. rewrite !take_app_ge by lia.
        rewrite En. replace (S i - length pre) with (S (S n)) by lia. cbn [take]. rewrite !before_text_app.
        cbn. rewrite ?length_app. cbn. rewrite ?length_app. cbn. lia.
    + rewrite lookup_app_l in El by lia. split_and!; [| |done].
      * exists l. cbn. split; [|done]. by rewrite lookup_app_l by lia.
      * unfold offset. cbn [line column]. by rewrite !take_app_le by lia.
Qed.

Lemma materialize_loop_spec fuel width index final ls c :
  cursor_valid ls c ->
  let '(ls', c') := materialize_loop fuel width index final ls c in
  cursor_valid ls' c' /\ offset ls' c' = offset ls c /\ wrapped_text (flat ls) (flat ls').
Proof.
  revert index final ls c. induction fuel as [|fuel IH]; intros index final ls c Hc; cbn [materialize_loop]; [by split_and!|].
  destruct (index <=? final); [|by split_and!].
  destruct (materialized_wrap_break (line_at ls index) width) as [separator|] eqn:E; [|by apply IH].
  apply materialized_wrap_break_space in E. pose proof (split_line_spec ls c index separator Hc E) as Hs.
  destruct (split_line index separator ls c) as [ls1 c1]. destruct Hs as (Hc1 & Ho1 & Hw1).
  specialize (IH (S index) (S final) ls1 c1 Hc1). cbv beta iota zeta. destruct (materialize_loop _ _ _ _ _ _) as [ls2 c2].
  destruct IH as (Hc2 & Ho2 & Hw2). split_and!; [done|by rewrite Ho2|exact (transitivity Hw1 Hw2)].
Qed.

Lemma materialize_spec index s :
  cursor_valid (lines s) (cursor s) ->
  let s' := materialize_word_wraps index s in
  cursor_valid (lines s') (cursor s') /\ caret s' = caret s /\ wrapped_text (flat_text s) (flat_text s').
Proof.
  intros Hc. unfold materialize_word_wraps.
  pose proof (materialize_loop_spec (2 + length (line_at (lines s) index)) (editable_width s) index index _ _ Hc) as H.
  by destruct (materialize_loop _ _ _ _ _ _) as [ls c].
Qed.

(** ** Inserting *)

(** What one character of inserted text becomes, and the carried "was a
    carriage return" flag. *)
Inductive normal_char (tab : nat) : bool -> Z -> list Z -> bool -> Prop :=
| char_crlf : normal_char tab true NEWLINE [] false
| char_newline : normal_char tab false NEWLINE [NEWLINE] false
| char_return cr : normal_char tab cr CARRIAGE_RETURN [NEWLINE] true
| char_tab cr n : 1 <= n <= tab -> normal_char tab cr TABULATOR (replicate n SPACE) false
| char_control cr c :
    c <> NEWLINE -> c <> CARRIAGE_RETURN -> c <> TABULATOR -> (c < 0x20 \/ c = 0x7f)%Z ->
    normal_char tab cr c [] false
| char_plain cr c : (0x20 <= c)%Z -> c <> 0x7f%Z -> normal_char tab cr c [c] false.

Inductive normal_text (tab : nat) : bool -> list Z -> list Z -> bool -> Prop :=
| normal_nil cr : normal_text tab cr [] [] cr
| normal_cons cr c piece cr1 cs out cr2 :
    normal_char tab cr c piece cr1 -> normal_text tab cr1 cs out cr2 ->
    normal_text tab cr (c :: cs) (piece ++ out) cr2.

(** The text with [inserted] in place of a range. *)
Definition splice (range : nat * nat) (inserted t : list Z) : list Z :=
  take (fst range) t ++ inserted ++ drop (snd range) t.

(** One edit at the caret: [piece] is inserted and the caret is behind it. *)
Definition inserted_at_caret (s : Impl) (piece : list Z) (s' : Impl) : Prop :=
  cursor_valid (lines s') (cursor s') /\ caret s' = caret s + length piece /\
  wrapped_text (splice (caret s, caret s) piece (flat_text s)) (flat_text s') /\
  s' = with_text (lines s') (cursor s') s.

Lemma wrapped_text_take n a b : wrapped_text a b -> wrapped_text (take n a) (take n b).
Proof. apply Forall2_take. Qed.
Lemma wrapped_text_drop n a b : wrapped_text a b -> wrapped_text (drop n a) (drop n b).
Proof. apply Forall2_drop. Qed.

Lemma inserted_nothing s : cursor_valid (lines s) (cursor s) -> inserted_at_caret s [] s.
Proof.
  intros Hc. split_and!; [done|cbn; lia| |by destruct s]. unfold splice. cbn. by rewrite take_drop.
Qed.

Lemma caret_bound s : cursor_valid (lines s) (cursor s) -> caret s <= length (flat_text s).
Proof. apply offset_bound. Qed.

Lemma inserted_trans s p1 s1 p2 s2 :
  cursor_valid (lines s) (cursor s) ->
  inserted_at_caret s p1 s1 -> inserted_at_caret s1 p2 s2 -> inserted_at_caret s (p1 ++ p2) s2.
Proof.
  intros Hc (Hc1 & Ho1 & Hw1 & E1) (Hc2 & Ho2 & Hw2 & E2). split_and!; [done|rewrite length_app; lia| |by rewrite E2, E1].
  etrans; [|exact Hw2]. unfold splice in *. cbn [fst snd] in *. rewrite Ho1.
  pose proof (caret_bound s Hc) as Hb.
  assert (El : length (take (caret s) (flat_text s) ++ p1) = caret s + length p1)
    by (rewrite length_app, length_take_le by done; lia).
  rewrite app_assoc in Hw1.
  apply (wrapped_text_take (caret s + length p1)) in Hw1 as Ht.
  apply (wrapped_text_drop (caret s + length p1)) in Hw1 as Hd.
  rewrite take_app_length' in Ht by done. rewrite drop_app_length' in Hd by done.
  rewrite <- app_assoc, (app_assoc (take _ _) p1). apply wrapped_text_app; [done|]. by apply wrapped_text_app.
Qed.

Lemma insert_at_cursor_spec s piece :
  cursor_valid (lines s) (cursor s) -> inserted_at_caret s piece (insert_at_cursor piece s).
Proof.
  intros Hc. unfold inserted_at_caret, splice, caret, flat_text, insert_at_cursor. cbn [lines cursor with_text fst snd].
  apply cursor_split in Hc as (pre & l & post & k & El & Ec & Hk). rewrite Ec, El. cbn [line column].
  rewrite line_at_middle, replace_line_middle, !offset_middle by done.
  split_and!; [|lia| |done].
  - apply cursor_valid_middle. rewrite !length_app, length_take, length_drop. lia.
  - rewrite flat_take, flat_drop, flat_split by done. by rewrite <- !app_assoc.
Qed.

Lemma break_line_spec s :
  cursor_valid (lines s) (cursor s) -> inserted_at_caret s [NEWLINE] (break_line s).
Proof.
  intros Hc. unfold inserted_at_caret, splice, caret, flat_text, break_line. cbn [lines cursor with_text fst snd].
  apply cursor_split in Hc as (pre & l & post & k & El & Ec & Hk). rewrite Ec, El. cbn [line column].
  rewrite line_at_middle, take_app_length, drop_middle, offset_middle by done. cbn [app].
  split_and!; [| | |done].
  - exists (drop k l). cbn. split; [|lia]. rewrite lookup_app_r by lia. by replace (S (length pre) - length pre) with 1 by lia.
  - unfold offset. cbn [line column].
    rewrite (app_assoc pre [_] _ : pre ++ take k l :: drop k l :: post = _), take_app_length' by (rewrite length_app; cbn; lia).
    rewrite before_text_app. cbn. rewrite !length_app, length_take. cbn. lia.
  - rewrite flat_take, flat_drop, flat_split by done. cbn [after_text flat_map]. by rewrite <- !app_assoc.
Qed.

(** A materialised insertion is the insertion. *)
Lemma inserted_materialized s piece s' index :
  cursor_valid (lines s) (cursor s) ->
  inserted_at_caret s piece s' -> inserted_at_caret s piece (materialize_word_wraps index s').
Proof.
  intros Hc (Hc' & Ho & Hw & E). destruct (materialize_spec index s' Hc') as (Hc1 & Ho1 & Hw1).
  split_and!; [done|by rewrite Ho1| |].
  - exact (transitivity Hw Hw1).
  - unfold materialize_word_wraps. destruct (materialize_loop _ _ _ _ _ _) as [ls c]. cbn. by rewrite E at 1.
Qed.

Lemma insert_character_spec s cr c :
  0 < tab_width (options s) -> cursor_valid (lines s) (cursor s) ->
  exists piece, normal_char (tab_width (options s)) cr c piece (snd (insert_character (s, cr) c)) /\
    inserted_at_caret s piece (fst (insert_character (s, cr) c)).
Proof.
  intros Htab Hc. unfold insert_character.
  destruct ((c =? NEWLINE)%Z && cr) eqn:E1.
  { bool_to_prop. subst. exists []. split; [constructor|by apply inserted_nothing]. }
  destruct ((c =? CARRIAGE_RETURN)%Z || (c =? NEWLINE)%Z) eqn:E2.
  { exists [NEWLINE]. split; [|by apply break_line_spec]. cbn [snd].
    apply orb_true_iff in E2 as [->%Z.eqb_eq| ->%Z.eqb_eq]; [constructor|].
    destruct cr; [done|]. constructor. }
  apply orb_false_iff in E2 as [E2 E3]. apply Z.eqb_neq in E2, E3.
  destruct (Z.eqb_spec c TABULATOR) as [->|E4].
  { eexists. split; [cbn [snd]; apply char_tab|cbn [fst]; apply inserted_materialized; [done|by apply insert_at_cursor_spec]].
    pose proof (Nat.mod_upper_bound (column (cursor s)) (tab_width (options s))). lia. }
  destruct ((c <? 0x20)%Z || (c =? 0x7f)%Z) eqn:E5.
  { exists []. split; [|by apply inserted_nothing]. cbn [snd]. constructor; [done..|].
    apply orb_true_iff in E5 as [?%Z.ltb_lt| ?%Z.eqb_eq]; auto. }
  apply orb_false_iff in E5 as [E5%Z.ltb_ge E6%Z.eqb_neq]. exists [c].
  split; [by constructor|]. cbn [fst]. apply inserted_materialized; [done|]. by apply insert_at_cursor_spec.
Qed.

Lemma editor_insert_loop_spec characters s cr :
  0 < tab_width (options s) -> cursor_valid (lines s) (cursor s) ->
  let '(s', cr') := fold_left insert_character characters (s, cr) in
  exists out, normal_text (tab_width (options s)) cr characters out cr' /\ inserted_at_caret s out s'.
Proof.
  revert s cr. induction characters as [|c characters IH]; intros s cr Htab Hc; cbn [fold_left].
  { exists []. split; [constructor|by apply inserted_nothing]. }
  destruct (insert_character_spec s cr c Htab Hc) as (piece & Hn & Hi).
  destruct (insert_character (s, cr) c) as [s1 cr1]. cbn [fst snd] in *.
  destruct Hi as (Hc1 & Ho1 & Hw1 & E1) eqn:Ei. clear Ei.
  assert (Hopt : options s1 = options s) by (by rewrite E1).
  specialize (IH s1 cr1). rewrite Hopt in IH. specialize (IH Htab Hc1).
  destruct (fold_left insert_character characters (s1, cr1)) as [s2 cr2]. destruct IH as (out & Hn2 & Hi2).
  exists (piece ++ out). split; [by econstructor|]. eapply inserted_trans; [done| |done]. by split_and!.
Qed.

(** The range an insertion replaces. *)
Definition insert_range (s : Impl) : nat * nat :=
  match selection s with
  | Some r => (offset (lines s) (range_first r), offset (lines s) (range_last r))
  | None => (caret s, caret s)
  end.

Lemma splice_nothing n t : splice (n, n) [] t = t.
Proof. unfold splice. cbn. apply take_drop. Qed.

(** Removing the selection first, as [insert] does. *)
Lemma delete_selection_view s :
  editor_wf s ->
  let s1 := snd (delete_selection s) in
  cursor_valid (lines s1) (cursor s1) /\ caret s1 = fst (insert_range s) /\
  flat_text s1 = cut (insert_range s) (flat_text s) /\ options s1 = options s /\
  fst (insert_range s) <= snd (insert_range s) /\ fst (insert_range s) <= length (flat_text s).
Proof.
  intros Hwf. cbn zeta. unfold insert_range. destruct (selection s) as [r|] eqn:Hsel.
  - assert (Hr : range_valid (lines s) r) by (by apply (wf_marks s Hwf)).
    destruct (delete_selection_spec s r Hsel Hr) as (_ & Hc & Hf & Ho). destruct Hr as (Ha & _ & Hab).
    split_and!; [done|done|done| |done|by apply offset_bound]. unfold delete_selection. by rewrite Hsel.
  - rewrite delete_selection_none by done. pose proof (wf_cursor s Hwf) as Hc. cbn [snd fst].
    split_and!; [done|done| |done|done|by apply caret_bound]. unfold cut. cbn. by rewrite take_drop.
Qed.

Lemma editor_insert_spec characters s cr :
  editor_wf s ->
  let '(s', cr') := insert characters s cr in
  exists out, normal_text (tab_width (options s)) cr characters out cr' /\
    wrapped_text (splice (insert_range s) out (flat_text s)) (flat_text s') /\
    caret s' = fst (insert_range s) + length out /\ cursor_valid (lines s') (cursor s').
Proof.
  intros Hwf. unfold insert. destruct (delete_selection_view s Hwf) as (Hc & Ho & Hf & Hopt & _ & Hb).
  destruct (delete_selection s) as [d s1]. cbn [snd] in *.
  pose proof (editor_insert_loop_spec characters s1 cr) as H. rewrite Hopt in H.
  specialize (H (wf_tab s Hwf) Hc). destruct (fold_left insert_character characters (s1, cr)) as [s2 cr2].
  destruct H as (out & Hn & (Hc2 & Ho2 & Hw & _)). exists out.
  rewrite ensure_lines, ensure_cursor.
  match goal with |- context [ensure_cursor_visible ?t] => destruct (ensure_view t) as [-> ->] end.
  split_and!; [done| |by rewrite <- Ho|done].
  unfold splice in *. cbn [fst snd] in Hw. rewrite Ho, Hf in Hw. unfold cut in Hw.
  rewrite take_app_length' in Hw by (symmetry; by apply length_take_le).
  by rewrite drop_app_length' in Hw by (symmetry; by apply length_take_le).
Qed.

(** ** Materialised wraps are complete *)

Lemma lookup_take_some (l : list Z) n i c : take n l !! i = Some c -> i < n /\ l !! i = Some c.
Proof.
  intros E. apply lookup_lt_Some in E as Hi. rewrite length_take in Hi.
  rewrite lookup_take_lt in E by lia. split; [lia|done].
Qed.

Lemma word_start_take l n first word : word <= n -> word_start (take n l) first word = word_start l first word.
Proof.
  induction word as [|k IH]; intros Hw; [done|]. cbn [word_start]. rewrite lookup_take_lt by lia.
  by rewrite IH by lia.
Qed.

(** What is left before a separator has no break of its own. *)
Lemma wrap_break_take l width fuel first separator :
  0 < width -> wrap_break_loop fuel l width first = Some separator ->
  forall fuel', wrap_break_loop fuel' (take separator l) width first = None.
Proof.
  intros Hw. revert first. induction fuel as [|fuel IH]; intros first E fuel'; [done|].
  destruct (wrap_break_space (S fuel) l width first separator Hw E) as [_ Hsep]. apply lookup_lt_Some in Hsep as Hlen.
  destruct fuel' as [|fuel']; [done|]. cbn [wrap_break_loop] in *. rewrite length_take_le by lia.
  destruct (Nat.ltb_spec width (length l - first)) as [Hlt|]; [|done].
  destruct (Nat.ltb_spec width (separator - first)) as [Hlt'|]; [|done].
  destruct (skip_spaces_spec (length l) l (first + width)) as (Hb & Hsp & Hst); [lia|lia|].
  set (w := skip_spaces (length l) l (first + width)) in *.
  pose proof (skip_spaces_spec separator (take separator l) (first + width)) as Hs'. rewrite length_take_le in Hs' by lia.
  destruct Hs' as (Hb' & Hsp' & Hst'); [lia|lia|].
  set (w' := skip_spaces separator (take separator l) (first + width)) in *.
  destruct (Nat.eqb_spec w' separator) as [|Hne']; [done|].
  assert (Ew : w' = w).
  { assert (Hn' : l !! w' <> Some SPACE) by (intros H; apply Hst'; [lia|by rewrite lookup_take_lt by lia]).
    destruct (Nat.lt_trichotomy w' w) as [Hlt2|[?|Hgt]]; [|done|].
    - destruct Hn'. apply Hsp. lia.
    - destruct (lookup_take_some l separator w SPACE) as [_ Hs]; [apply Hsp'; lia|]. exfalso. apply Hst; [lia|done]. }
  rewrite Ew in *. rewrite word_start_take by lia.
  destruct (Nat.eqb_spec w (length l)) as [|Hne]; [done|].
  destruct (Nat.ltb_spec first (word_start l first w)) as [Hf|Hf].
  - exfalso. injection E as <-. destruct (word_start_spec l first w) as (Hle & _); [lia|]. lia.
  - by eapply IH.
Qed.

Lemma wrap_break_fuel l width fuel extra first :
  0 < width -> length l - first <= fuel ->
  wrap_break_loop (extra + fuel) l width first = wrap_break_loop fuel l width first.
Proof.
  intros Hw. revert first. induction fuel as [|fuel IH]; intros first Hf.
  - destruct extra as [|extra]; [done|]. cbn [wrap_break_loop Nat.add]. destruct (Nat.ltb_spec width (length l - first)); [lia|done].
  - rewrite Nat.add_succ_r. cbn [wrap_break_loop]. destruct (Nat.ltb_spec width (length l - first)); [|done].
    by rewrite IH by lia.
Qed.

Lemma materialized_take l width separator :
  materialized_wrap_break l width = Some separator -> materialized_wrap_break (take separator l) width = None.
Proof.
  unfold materialized_wrap_break. destruct (Nat.eqb_spec width 0); [done|]. intros E.
  by eapply wrap_break_take; [lia|].
Qed.

Lemma materialize_loop_done fuel width index final ls c :
  final < index -> materialize_loop fuel width index final ls c = (ls, c).
Proof.
  intros H. destruct fuel; [done|]. cbn [materialize_loop]. by destruct (Nat.leb_spec index final); [lia|].
Qed.

Lemma split_line_lines index separator ls c :
  index < length ls -> separator < length (line_at ls index) ->
  let ls' := fst (split_line index separator ls c) in
  line_at ls' index = take separator (line_at ls index) /\
  line_at ls' (S index) = drop (S separator) (line_at ls index) /\ length ls' = S (length ls).
Proof.
  intros Hi Hs. cbn. destruct (lookup_lt_is_Some_2 ls index Hi) as [l Hl].
  apply list_elem_of_split_length in Hl as (pre & post & -> & ->).
  rewrite (line_at_middle pre l post), take_app_length, drop_middle by done. split_and!.
  - by apply line_at_middle.
  - apply line_at_next.
  - rewrite !length_app. cbn. lia.
Qed.

Lemma materialize_loop_complete fuel extra width index ls c :
  2 + length (line_at ls index) <= fuel ->
  let '(ls', c') := materialize_loop fuel width index index ls c in
  materialize_loop (extra + fuel) width index index ls c = (ls', c') /\
  take index ls' = take index ls /\ length ls <= length ls' /\
  forall i, index <= i <= index + (length ls' - length ls) -> materialized_wrap_break (line_at ls' i) width = None.
Proof.
  revert extra index ls c. induction fuel as [|fuel IH]; intros extra index ls c Hf; [lia|].
  rewrite Nat.add_succ_r. cbn [materialize_loop]. rewrite Nat.leb_refl.
  destruct (materialized_wrap_break (line_at ls index) width) as [separator|] eqn:E.
  - apply materialized_wrap_break_space in E as Hs. apply lookup_lt_Some in Hs as Hlt.
    assert (Hi : index < length ls).
    { destruct (decide (index < length ls)); [done|]. unfold line_at in Hlt.
      rewrite lookup_ge_None_2 in Hlt by lia. cbn in Hlt. lia. }
    pose proof (split_line_lines index separator ls c Hi Hlt) as (H1 & H2 & H3).
    assert (Ht : take index (fst (split_line index separator ls c)) = take index ls).
    { cbn. rewrite take_app_length' by (rewrite length_take_le; lia). done. }
    destruct (split_line index separator ls c) as [ls1 c1]. cbn [fst] in *.
    specialize (IH extra (S index) ls1 c1). rewrite H2, length_drop in IH. specialize (IH ltac:(lia)).
    destruct (materialize_loop fuel width (S index) (S index) ls1 c1) as [ls2 c2].
    destruct IH as (E1 & E2 & E3 & Hnone). split_and!; [done| |lia|].
    + apply (f_equal (take index)) in E2. rewrite !take_take, !Nat.min_l in E2 by lia. by rewrite E2.
    + intros i Hr. destruct (decide (i = index)) as [->|]; [|apply Hnone; lia].
      assert (El : line_at ls2 index = line_at ls1 index).
      { unfold line_at. rewrite <- (lookup_take_lt ls2 (S index)), <- (lookup_take_lt ls1 (S index)) by lia. by rewrite E2. }
      rewrite El, H1. by apply materialized_take.
  - rewrite !materialize_loop_done by lia. split_and!; [done|done|lia|].
    intros i Hr. by replace i with index by lia.
Qed.

(** ** Where a line wraps *)

(** The separator before the first word that does not fit its row. Every earlier
    row is filled by a word that goes on in the next one; in row [r] the word
    behind [separator], or behind spaces up to it, reaches past the row's end:
    [w] is its first character there. *)
Definition wraps_from (first width : nat) (l : list Z) (separator : nat) : Prop :=
  exists r w,
    (0 < r -> forall i, first <= i <= first + r * width -> l !! i <> Some SPACE) /\
    first + r * width <= separator < w /\ l !! separator = Some SPACE /\
    first + S r * width <= w < length l /\
    (forall i, separator < i <= w -> l !! i <> Some SPACE) /\
    (forall i, first + S r * width <= i < w -> l !! i = Some SPACE).

Definition wraps_at (width : nat) : list Z -> nat -> Prop := wraps_from 0 width.

Lemma wrap_break_sound fuel l width first separator :
  0 < width -> wrap_break_loop fuel l width first = Some separator -> wraps_from first width l separator.
Proof.
  intros Hw. revert first. induction fuel as [|fuel IH]; intros first E; [done|]. cbn [wrap_break_loop] in E.
  destruct (Nat.ltb_spec width (length l - first)) as [Hlt|]; [|done].
  destruct (skip_spaces_spec (length l) l (first + width)) as (Hb & Hsp & Hst); [lia|lia|].
  set (w := skip_spaces (length l) l (first + width)) in *.
  destruct (Nat.eqb_spec w (length l)) as [|Hne]; [done|].
  destruct (word_start_spec l first w) as (Hle & Hprev & Hno & Hge); [lia|].
  set (start := word_start l first w) in *. destruct (Nat.ltb_spec first start) as [Hf|Hf].
  - injection E as <-. exists 0, w. split_and!; [lia|lia|lia|by apply Hprev|lia|lia| |].
    + intros i Hi. destruct (decide (i = w)) as [->|]; [apply Hst; lia|]. apply Hno. lia.
    + intros i Hi. apply Hsp. lia.
  - assert (Es : start = first) by (specialize (Hge ltac:(lia)); lia). rewrite Es in Hno.
    assert (Ew : w = first + width).
    { destruct (decide (w = first + width)); [done|]. destruct (Hno (w - 1)); [lia|]. apply Hsp. lia. }
    destruct (IH (first + width) E) as (r & w' & Hr & Hs & Hsep & Hw' & H1 & H2).
    exists (S r), w'. split_and!; [|lia|lia|done|lia|lia|done|intros; apply H2; lia].
    intros _ i Hi. destruct (decide (i < w)) as [Hiw|]; [apply Hno; lia|].
    destruct (decide (i = w)) as [->|]; [apply Hst; lia|]. apply Hr; lia.
Qed.

Lemma wrap_break_exact l width separator fuel first :
  0 < width -> length l - first <= fuel -> wraps_from first width l separator ->
  wrap_break_loop fuel l width first = Some separator.
Proof.
  intros Hw Hfuel (r & w & Hr & Hs & Hsep & Hb & H1 & H2). revert first fuel Hfuel Hr Hs Hb H2.
  induction r as [|r IH]; intros first fuel Hfuel Hr Hs Hb H2; (destruct fuel as [|fuel]; [lia|]); cbn [wrap_break_loop];
    (destruct (Nat.ltb_spec width (length l - first)) as [Hlt|]; [|lia]);
    (destruct (skip_spaces_spec (length l) l (first + width)) as (Hb' & Hsp & Hst); [lia|lia|]);
    set (w' := skip_spaces (length l) l (first + width)) in *.
  - assert (Ew : w' = w).
    { destruct (Nat.lt_trichotomy w' w) as [Hx|[?|Hx]]; [|done|].
      - exfalso. apply Hst; [lia|]. apply H2. lia.
      - exfalso. apply (H1 w); [lia|]. apply Hsp. lia. }
    rewrite Ew in *. destruct (Nat.eqb_spec w (length l)) as [|]; [lia|].
    destruct (word_start_spec l first w) as (Hle & Hprev & Hno & Hge); [lia|].
    set (start := word_start l first w) in *.
    assert (Es : start = S separator).
    { destruct (decide (start <= separator)) as [Hx|Hx]; [exfalso; by apply (Hno separator); [lia|]|].
      destruct (decide (start = S separator)); [done|]. exfalso. apply (H1 (start - 1)); [lia|]. apply Hprev. lia. }
    destruct (Nat.ltb_spec first start); [f_equal; lia|lia].
  - specialize (Hr ltac:(lia)). assert (Ew : w' = first + width).
    { destruct (decide (w' = first + width)); [done|]. exfalso. apply (Hr (first + width)); [lia|]. apply Hsp. lia. }
    rewrite Ew in *. destruct (Nat.eqb_spec (first + width) (length l)) as [|]; [lia|].
    destruct (word_start_spec l first (first + width)) as (Hle & Hprev & Hno & Hge); [lia|].
    destruct (Nat.ltb_spec first (word_start l first (first + width))) as [Hx|Hx].
    + exfalso. apply (Hr (word_start l first (first + width) - 1)); [lia|]. by apply Hprev.
    + apply IH; [lia| |lia|lia|intros i Hi; apply H2; lia]. intros _ i Hi. apply Hr. lia.
Qed.

Lemma materialized_wrap_break_at l width separator :
  0 < width -> materialized_wrap_break l width = Some separator <-> wraps_at width l separator.
Proof.
  intros Hw. unfold materialized_wrap_break. destruct (Nat.eqb_spec width 0); [lia|]. split.
  - by apply wrap_break_sound.
  - apply wrap_break_exact; lia.
Qed.

(** A line cut at its word wraps, the first one first. *)
Inductive word_wrapped (width : nat) : list Z -> list (list Z) -> Prop :=
| wrapped_whole l : (forall separator, ~ wraps_at width l separator) -> word_wrapped width l [l]
| wrapped_cut l separator ls :
    wraps_at width l separator -> word_wrapped width (drop (S separator) l) ls ->
    word_wrapped width l (take separator l :: ls).

Lemma materialize_loop_wraps fuel width pre l post c :
  0 < width -> 2 + length l <= fuel ->
  exists ls, word_wrapped width l ls /\
    fst (materialize_loop fuel width (length pre) (length pre) (pre ++ l :: post) c) = pre ++ ls ++ post.
Proof.
  intros Hw. revert pre l c. induction fuel as [|fuel IH]; intros pre l c Hf; [lia|].
  cbn [materialize_loop]. rewrite Nat.leb_refl, line_at_middle by done.
  destruct (materialized_wrap_break l width) as [separator|] eqn:E.
  - apply materialized_wrap_break_space in E as Hs. apply lookup_lt_Some in Hs.
    unfold split_line. rewrite line_at_middle, take_app_length, drop_middle by done. cbn [app].
    rewrite (app_assoc pre [_] _ : pre ++ take separator l :: drop (S separator) l :: post = _).
    match goal with |- context [materialize_loop _ _ _ _ _ ?c'] => destruct (IH (pre ++ [take separator l]) (drop (S separator) l) c') as (ls & Hls & El) end.
    { rewrite length_drop. lia. }
    rewrite length_app in El. cbn [length] in El. rewrite Nat.add_1_r in El.
    exists (take separator l :: ls). split; [|by rewrite El, <- app_assoc].
    eapply wrapped_cut; [|exact Hls]. by apply materialized_wrap_break_at.
  - rewrite materialize_loop_done by lia. exists [l]. split; [|done]. constructor. intros separator H.
    apply materialized_wrap_break_at in H; [|done]. congruence.
Qed.

(** ** Typing *)

(** What inserting one character does to the lines and the caret: a line break
    splits the line; a tab stands for the spaces up to the next multiple of the
    tab width; tabs and plain characters cut their line at its word wraps and
    nowhere else; the caret stays behind what was inserted. *)
Inductive typed_char (tab width : nat) :
  Z -> bool -> list (list Z) * TextCursor -> bool -> list (list Z) * TextCursor -> Prop :=
| typed_crlf b : typed_char tab width NEWLINE true b false b
| typed_break c cr pre left right post :
    c = CARRIAGE_RETURN \/ c = NEWLINE /\ cr = false ->
    typed_char tab width c cr
      (pre ++ (left ++ right) :: post, {| line := length pre; column := length left |}) (c =? CARRIAGE_RETURN)%Z
      (pre ++ left :: right :: post, {| line := S (length pre); column := 0 |})
| typed_control c cr b :
    c <> NEWLINE -> c <> CARRIAGE_RETURN -> c <> TABULATOR -> (c < 0x20 \/ c = 0x7f)%Z ->
    typed_char tab width c cr b false b
| typed_piece c cr piece pre left right post ls k :
    c = TABULATOR /\ piece = replicate (tab - length left mod tab) SPACE \/ (0x20 <= c)%Z /\ c <> 0x7f%Z /\ piece = [c] ->
    word_wrapped width (left ++ piece ++ right) ls -> cursor_valid (pre ++ ls ++ post) k ->
    offset (pre ++ ls ++ post) k = length (before_text pre) + length left + length piece ->
    typed_char tab width c cr
      (pre ++ (left ++ right) :: post, {| line := length pre; column := length left |}) false (pre ++ ls ++ post, k).

Inductive typed_text (tab width : nat) :
  list Z -> bool -> list (list Z) * TextCursor -> bool -> list (list Z) * TextCursor -> Prop :=
| typed_nil cr b : typed_text tab width [] cr b cr b
| typed_cons c cs cr b cr1 b1 cr2 b2 :
    typed_char tab width c cr b cr1 b1 -> typed_text tab width cs cr1 b1 cr2 b2 ->
    typed_text tab width (c :: cs) cr b cr2 b2.

Definition buffer (s : Impl) : list (list Z) * TextCursor := (lines s, cursor s).

Lemma materialized_typed s piece :
  0 < editable_width s -> cursor_valid (lines s) (cursor s) ->
  exists pre left right post ls k,
    buffer s = (pre ++ (left ++ right) :: post, {| line := length pre; column := length left |}) /\
    buffer (materialize_word_wraps (line (cursor s)) (insert_at_cursor piece s)) = (pre ++ ls ++ post, k) /\
    word_wrapped (editable_width s) (left ++ piece ++ right) ls /\ cursor_valid (pre ++ ls ++ post) k /\
    offset (pre ++ ls ++ post) k = length (before_text pre) + length left + length piece.
Proof.
  intros Hw Hc. destruct (insert_at_cursor_spec s piece Hc) as (Hc1 & Ho1 & _ & _).
  destruct (materialize_spec (line (cursor s)) (insert_at_cursor piece s) Hc1) as (Hc2 & Ho2 & _).
  rewrite Ho1 in Ho2. clear Ho1 Hc1. pose proof Hc as (pre & l & post & k & El & Ec & Hk)%cursor_split.
  assert (Eo : caret s = length (before_text pre) + k) by (unfold caret; rewrite Ec, El; apply offset_middle).
  rewrite Eo in Ho2. unfold caret in Ho2. revert Hc2 Ho2. unfold materialize_word_wraps, buffer.
  set (s1 := insert_at_cursor piece s).
  assert (E1 : lines s1 = pre ++ (take k l ++ piece ++ drop k l) :: post).
  { unfold s1, insert_at_cursor. rewrite Ec, El. cbn [line column lines with_text].
    by rewrite line_at_middle, replace_line_middle by done. }
  assert (Ew : editable_width s1 = editable_width s) by done. rewrite Ew, E1, Ec. cbn [line column].
  rewrite line_at_middle by done.
  destruct (materialize_loop_wraps (2 + length (take k l ++ piece ++ drop k l)) (editable_width s) pre
    (take k l ++ piece ++ drop k l) post (cursor s1) Hw ltac:(done)) as (ls & Hls & Eq).
  destruct (materialize_loop _ _ _ _ _ _) as [ls' c']. cbn [fst with_text lines cursor] in *. subst ls'.
  intros Hc2 Ho2. exists pre, (take k l), (drop k l), post, ls, c'.
  rewrite take_drop, length_take_le by done. split_and!; [by rewrite El|done|done|done|lia].
Qed.

Lemma insert_character_typed s cr c :
  0 < editable_width s -> cursor_valid (lines s) (cursor s) ->
  typed_char (tab_width (options s)) (editable_width s) c cr (buffer s)
    (snd (insert_character (s, cr) c)) (buffer (fst (insert_character (s, cr) c))).
Proof.
  intros Hw Hc. unfold insert_character.
  destruct ((c =? NEWLINE)%Z && cr) eqn:E1.
  { bool_to_prop. subst. apply typed_crlf. }
  destruct ((c =? CARRIAGE_RETURN)%Z || (c =? NEWLINE)%Z) eqn:E2.
  { cbn [fst snd]. pose proof Hc as (pre & l & post & k & El & Ec & Hk)%cursor_split.
    assert (Hor : c = CARRIAGE_RETURN \/ c = NEWLINE /\ cr = false).
    { apply orb_true_iff in E2 as [?%Z.eqb_eq|E2]; [by left|right]. rewrite E2 in E1. by apply Z.eqb_eq in E2. }
    unfold buffer, break_line. rewrite Ec, El. cbn [line column lines cursor with_text].
    rewrite line_at_middle, take_app_length, drop_middle by done. cbn [app].
    pose proof (typed_break (tab_width (options s)) (editable_width s) c cr pre (take k l) (drop k l) post Hor) as T.
    by rewrite take_drop, length_take_le in T by done. }
  apply orb_false_iff in E2 as [E2 E3]. apply Z.eqb_neq in E2, E3.
  destruct (Z.eqb_spec c TABULATOR) as [->|E4].
  { cbn [fst snd].
    destruct (materialized_typed s (replicate (tab_width (options s) - column (cursor s) mod tab_width (options s)) SPACE) Hw Hc)
      as (pre & left & right & post & ls & k & Eb & Eb' & Hls & Hk & Ho). rewrite Eb, Eb'.
    assert (Ecol : column (cursor s) = length left) by (unfold buffer in Eb; injection Eb as _ ->; done). rewrite Ecol in *.
    by eapply typed_piece; [left; split; [done|reflexivity]|..]. }
  destruct ((c <? 0x20)%Z || (c =? 0x7f)%Z) eqn:E5.
  { apply typed_control; [done..|]. apply orb_true_iff in E5 as [?%Z.ltb_lt| ?%Z.eqb_eq]; auto. }
  apply orb_false_iff in E5 as [E5%Z.ltb_ge E6%Z.eqb_neq]. cbn [fst snd].
  destruct (materialized_typed s [c] Hw Hc) as (pre & left & right & post & ls & k & Eb & Eb' & Hls & Hk & Ho).
  change (line (cursor (insert_at_cursor [c] s))) with (line (cursor s)). rewrite Eb, Eb'.
  by eapply typed_piece; [right; split_and!; [done|done|reflexivity]|..].
Qed.

Lemma insert_loop_typed characters s cr :
  0 < tab_width (options s) -> 0 < editable_width s -> cursor_valid (lines s) (cursor s) ->
  let '(s', cr') := fold_left insert_character characters (s, cr) in
  typed_text (tab_width (options s)) (editable_width s) characters cr (buffer s) cr' (buffer s').
Proof.
  revert s cr. induction characters as [|c characters IH]; intros s cr Htab Hw Hc; cbn [fold_left]; [constructor|].
  pose proof (insert_character_typed s cr c Hw Hc) as Ht.
  destruct (insert_character_spec s cr c Htab Hc) as (piece & _ & Hc1 & _ & _ & E1).
  destruct (insert_character (s, cr) c) as [s1 cr1]. cbn [fst snd] in *.
  assert (Eo : options s1 = options s) by (by rewrite E1).
  assert (Ew : editable_width s1 = editable_width s) by (by rewrite E1).
  specialize (IH s1 cr1). rewrite Eo, Ew in IH. specialize (IH Htab Hw Hc1).
  destruct (fold_left insert_character characters (s1, cr1)) as [s2 cr2]. by econstructor.
Qed.

Lemma editor_insert_typed characters s cr :
  editor_wf s ->
  let '(s', cr') := insert characters s cr in
  typed_text (tab_width (options s)) (editable_width s) characters cr (buffer (snd (delete_selection s))) cr' (buffer s').
Proof.
  intros Hwf. unfold insert. destruct (delete_selection_view s Hwf) as (Hc & _ & _ & Hopt & _).
  assert (Hw : editable_width (snd (delete_selection s)) = editable_width s)
    by (unfold delete_selection; by destruct (selection s)).
  destruct (delete_selection s) as [d s1]. cbn [snd] in *.
  assert (Hpos : 0 < editable_width s).
  { pose proof (wf_fallback s Hwf). unfold editable_width. destruct (Nat.eqb_spec (viewport_width s) 0); lia. }
  pose proof (insert_loop_typed characters s1 cr) as H. rewrite Hopt, Hw in H. specialize (H (wf_tab s Hwf) Hpos Hc).
  destruct (fold_left insert_character characters (s1, cr)) as [s2 cr2]. unfold buffer in *.
  by rewrite ensure_lines, ensure_cursor.
Qed.

(** *** Typing has one result *)

Lemma wraps_at_functional width l a b : 0 < width -> wraps_at width l a -> wraps_at width l b -> a = b.
Proof. intros Hw Ha%(materialized_wrap_break_at _ _ _ Hw) Hb%(materialized_wrap_break_at _ _ _ Hw). congruence. Qed.

Lemma word_wrapped_functional width l ls1 ls2 :
  0 < width -> word_wrapped width l ls1 -> word_wrapped width l ls2 -> ls1 = ls2.
Proof.
  intros Hw H1. revert ls2. induction H1 as [l Hn|l a ls Ha _ IH]; intros ls2 H2; inversion H2 as [? Hn2|? b ls' Hb Hr]; subst.
  - done.
  - by destruct (Hn b).
  - by destruct (Hn2 a).
  - rewrite (wraps_at_functional width l b a Hw Hb Ha) in *. f_equal. by apply IH.
Qed.

(** A caret's place in a line, as equal splits. *)
Lemma split_inj {A} (pre pre' : list (list A)) left right left' right' post post' :
  pre ++ (left ++ right) :: post = pre' ++ (left' ++ right') :: post' -> length pre = length pre' ->
  length left = length left' -> pre = pre' /\ left = left' /\ right = right' /\ post = post'.
Proof.
  intros E Hp Hl. apply app_inj_1 in E as [-> E]; [|done]. injection E as E ->. apply app_inj_1 in E as [-> ->]; done.
Qed.

Lemma typed_char_functional tab width c cr b cr1 b1 cr2 b2 :
  0 < width -> typed_char tab width c cr b cr1 b1 -> typed_char tab width c cr b cr2 b2 -> cr1 = cr2 /\ b1 = b2.
Proof.
  intros Hw H1 H2. unfold NEWLINE, CARRIAGE_RETURN, TABULATOR in *.
  destruct H1 as [b|c cr pre left right post Hc|c cr b E1 E2 E3 E4|c cr piece pre left right post ls k Hc Hls Hk Ho];
    inversion H2; unfold NEWLINE, CARRIAGE_RETURN, TABULATOR in *; subst; try done;
    try (exfalso; intuition (subst; discriminate || lia)).
  - match goal with E : _ ++ _ :: _ = _ ++ _ :: _ |- _ => apply split_inj in E as (-> & -> & -> & ->); [|done..] end. done.
  - match goal with E : _ ++ _ :: _ = _ ++ _ :: _ |- _ => apply split_inj in E as (-> & -> & -> & ->); [|done..] end.
    match goal with Hx : _ = 9%Z /\ ?p = _ \/ _ |- _ => assert (p = piece) as -> by intuition (subst; congruence || lia) end.
    match goal with Hx : word_wrapped _ _ ?ls' |- _ => assert (ls' = ls) as -> by (by eapply word_wrapped_functional) end.
    split; [done|]. f_equal. eapply offset_inj; [done|done|congruence].
Qed.

Lemma typed_text_functional tab width cs cr b cr1 b1 cr2 b2 :
  0 < width -> typed_text tab width cs cr b cr1 b1 -> typed_text tab width cs cr b cr2 b2 -> cr1 = cr2 /\ b1 = b2.
Proof.
  intros Hw H1. revert cr2 b2. induction H1 as [|c cs cr b cr1 b1 cr3 b3 Hc _ IH]; intros cr2 b2 H2; inversion H2; subst; [done|].
  match goal with Hx : typed_char _ _ c cr b _ _ |- _ => destruct (typed_char_functional _ _ _ _ _ _ _ _ _ Hw Hx Hc) as [-> ->] end.
  by apply IH.
Qed.
