(* ===== verification/EditorMotion.v ===== *)
(** * Motions and selections of the text editor

    On the flat text of EditorText.v: every operation keeps the state well
    formed, a motion moves the caret to its target offset and selects the text
    between the anchor and the caret, word motions cross separators and one
    word, and a selected range reads back as the text between its offsets. *)
From S2P Require Import Prelude.
From S2P Require Import Utf8.
From S2P Require Import Events.
From S2P Require Import Tui.
From S2P Require Import TextEditor.
From S2P Require Import EditorRows.
From S2P Require Import EditorText.
Open Scope nat_scope.

(** ** Well-formedness of every operation *)

Lemma wf_intro s s' :
  editor_wf s -> options s' = options s -> paste s' = paste s ->
  marks_valid (lines s') (cursor s') (selection s') (keyboard_anchor s') -> editor_wf s'.
Proof. intros [H1 H2 _ H4] Eo Ep Hm. split; rewrite ?Eo, ?Ep; auto. Qed.

Lemma marks_bare ls c : cursor_valid ls c -> marks_valid ls c None None.
Proof. intros Hc. split_and!; [done|by intros ? [=]|by intros ? [=]]. Qed.

Lemma wf_scroll row s : editor_wf s -> editor_wf (with_scroll row s).
Proof. intros [H1 H2 H3 H4]. by split. Qed.

Lemma wf_ensure s : editor_wf s -> editor_wf (ensure_cursor_visible s).
Proof. destruct (ensure_scrolls s) as [row ->]. apply wf_scroll. Qed.

Lemma wf_desired col b s : editor_wf s -> editor_wf (with_desired col b s).
Proof. intros [H1 H2 H3 H4]. by split. Qed.

Lemma wf_bare c s : editor_wf s -> cursor_valid (lines s) c -> editor_wf (with_selection None None (with_cursor c s)).
Proof. intros Hs Hc. apply (wf_intro s); [done..|]. by apply marks_bare. Qed.

(** Operations that drop every mark keep the options and the paste. *)
Definition bare_frame (s s' : Impl) : Prop :=
  options s' = options s /\ paste s' = paste s /\ selection s' = None /\ keyboard_anchor s' = None.

Lemma wf_bare_frame s s' :
  editor_wf s -> bare_frame s s' -> cursor_valid (lines s') (cursor s') -> editor_wf s'.
Proof.
  intros Hs (Eo & Ep & Es & Ea) Hc. apply (wf_intro s); [done..|]. rewrite Es, Ea. by apply marks_bare.
Qed.

Lemma bare_ensure s s' : bare_frame s s' -> bare_frame s (ensure_cursor_visible s').
Proof. by destruct (ensure_scrolls s') as [row ->]. Qed.

Lemma backspace_frame s : bare_frame s (backspace s).
Proof.
  unfold backspace, delete_selection. destruct (selection s) as [r|] eqn:E; apply bare_ensure; [done|].
  destruct (0 <? column (cursor s)), (0 <? line (cursor s)); by split_and!.
Qed.

Lemma delete_forward_frame s : bare_frame s (delete_forward s).
Proof.
  unfold delete_forward, delete_selection. destruct (selection s) as [r|] eqn:E; apply bare_ensure; [done|].
  destruct (column (cursor s) <? length (line_at (lines s) (line (cursor s)))),
    (line (cursor s) + 1 <? length (lines s)); by split_and!.
Qed.

Lemma insert_frame characters s cr : editor_wf s -> bare_frame s (fst (insert characters s cr)).
Proof.
  intros Hwf. unfold insert. destruct (delete_selection_view s Hwf) as (Hc & _ & _ & Hopt & _).
  assert (Ep : paste (snd (delete_selection s)) = paste s) by (unfold delete_selection; by destruct (selection s)).
  destruct (delete_selection s) as [d s1]. cbn [snd] in *.
  pose proof (editor_insert_loop_spec characters s1 cr) as H. rewrite Hopt in H. specialize (H (wf_tab s Hwf) Hc).
  destruct (fold_left insert_character characters (s1, cr)) as [s2 cr2]. destruct H as (out & _ & (_ & _ & _ & E)).
  cbn [fst]. apply bare_ensure. rewrite E. split_and!; [done|done|done|done].
Qed.

Lemma wf_backspace s : editor_wf s -> editor_wf (backspace s).
Proof. intros Hs. eapply wf_bare_frame; [done|apply backspace_frame|by apply backspace_spec]. Qed.

Lemma wf_delete_forward s : editor_wf s -> editor_wf (delete_forward s).
Proof. intros Hs. eapply wf_bare_frame; [done|apply delete_forward_frame|by apply delete_forward_spec]. Qed.

Lemma wf_insert characters s cr : editor_wf s -> editor_wf (fst (insert characters s cr)).
Proof.
  intros Hs. eapply wf_bare_frame; [done|by apply insert_frame|]. pose proof (editor_insert_spec characters s cr Hs) as H.
  destruct (insert characters s cr). cbn. by destruct H as (out & _ & _ & _ & Hc).
Qed.

(** ** Motions *)

(** What a motion selects: the text between the anchor and the caret. *)
Definition extends_from (ls : list (list Z)) (anchor c : TextCursor) (sel : option TextSelectionRange) : Prop :=
  match sel with
  | None => anchor = c
  | Some r =>
      (range_first r = anchor /\ range_last r = c /\ offset ls anchor < offset ls c) \/
      (range_first r = c /\ range_last r = anchor /\ offset ls c < offset ls anchor)
  end.

(** The anchor an extending motion uses. *)
Definition motion_anchor (s : Impl) : TextCursor := default (cursor s) (keyboard_anchor s).

Lemma motion_anchor_valid s : editor_wf s -> cursor_valid (lines s) (motion_anchor s).
Proof.
  intros Hs. unfold motion_anchor. destruct (keyboard_anchor s) as [a|] eqn:E; [|by apply wf_cursor].
  by apply (wf_marks s Hs).
Qed.

(** The end of every motion that left the caret at [c]. *)
Definition moved (extend : bool) (s : Impl) (c : TextCursor) (s' : Impl) : Prop :=
  lines s' = lines s /\ cursor s' = c /\ options s' = options s /\ paste s' = paste s /\
  if extend
  then keyboard_anchor s' = Some (motion_anchor s) /\ extends_from (lines s) (motion_anchor s) c (selection s')
  else keyboard_anchor s' = None /\ selection s' = None.

Lemma finish_navigation_moved extend s s1 :
  editor_wf s -> lines s1 = lines s -> options s1 = options s -> paste s1 = paste s ->
  keyboard_anchor s1 = keyboard_anchor s -> cursor_valid (lines s) (cursor s1) ->
  moved extend s (cursor s1) (finish_navigation (cursor s) extend s1).
Proof.
  intros Hs El Eo Ep Ea Hc. unfold finish_navigation. destruct extend; cbn [negb]; [|by split_and!].
  rewrite Ea. change (default (cursor s) (keyboard_anchor s)) with (motion_anchor s).
  pose proof (motion_anchor_valid s Hs) as Ha. split_and!; [done..|]. cbn [selection with_selection].
  destruct (decide (motion_anchor s = cursor s1)) as [E|E]; [rewrite bool_decide_true by done|rewrite bool_decide_false by done].
  - done.
  - assert (Ho : offset (lines s) (motion_anchor s) <> offset (lines s) (cursor s1))
      by (intros Ho; apply E; by eapply offset_inj).
    destruct (cursor_less (cursor s1) (motion_anchor s)) eqn:Ec; cbn [extends_from range_first range_last].
    + right. split_and!; [done..|]. by apply offset_less.
    + left. split_and!; [done..|].
      assert (~ offset (lines s) (cursor s1) < offset (lines s) (motion_anchor s)); [|lia].
      intros Hlt. apply (offset_less (lines s)) in Hlt; [congruence|done..].
Qed.

Lemma moved_ensure extend s c s' : moved extend s c s' -> moved extend s c (ensure_cursor_visible s').
Proof. by destruct (ensure_scrolls s') as [row ->]. Qed.

Lemma finish_motion_moved extend s s1 :
  editor_wf s -> lines s1 = lines s -> options s1 = options s -> paste s1 = paste s ->
  keyboard_anchor s1 = keyboard_anchor s -> cursor_valid (lines s) (cursor s1) ->
  moved extend s (cursor s1) (finish_motion (cursor s) extend s1).
Proof. intros. apply moved_ensure. by apply finish_navigation_moved. Qed.

Lemma wf_moved extend s c s' :
  editor_wf s -> cursor_valid (lines s) c -> moved extend s c s' -> editor_wf s'.
Proof.
  intros Hs Hc (El & Ec & Eo & Ep & Hext). apply (wf_intro s); [done..|]. rewrite El, Ec.
  destruct extend; destruct Hext as [Ea Hsel]; rewrite Ea; [|rewrite Hsel; by apply marks_bare].
  pose proof (motion_anchor_valid s Hs) as Ha. split_and!; [done| |by intros a [= <-]].
  intros r Er. rewrite Er in Hsel. unfold range_valid.
  destruct Hsel as [(-> & -> & Hlt)|(-> & -> & Hlt)]; split_and!; try done; lia.
Qed.

(** The caret and the selection after a motion, as offsets. *)
Definition selected_offsets (s : Impl) : option (nat * nat) :=
  r ← selection s; Some (offset (lines s) (range_first r), offset (lines s) (range_last r)).

Lemma moved_offsets extend s c s' :
  moved extend s c s' ->
  let a := offset (lines s) (motion_anchor s) in
  let o := offset (lines s) c in
  flat_text s' = flat_text s /\ caret s' = o /\
  selected_offsets s' = if extend && negb (a =? o) then Some (Nat.min a o, Nat.max a o) else None.
Proof.
  intros (El & Ec & _ & _ & Hext). cbn zeta. unfold flat_text, caret, selected_offsets. rewrite El, Ec.
  split_and!; [done..|]. destruct extend; destruct Hext as [Ea Hsel]; [|by rewrite Hsel].
  destruct (selection s') as [r|]; cbn in *.
  - destruct Hsel as [(-> & -> & Hlt)|(-> & -> & Hlt)];
      destruct (Nat.eqb_spec (offset (lines s) (motion_anchor s)) (offset (lines s) c)); try lia; cbn; repeat f_equal; lia.
  - rewrite Hsel, Nat.eqb_refl. done.
Qed.

(** ** Caret targets *)

Lemma horizontal_target_spec right s :
  cursor_valid (lines s) (cursor s) ->
  cursor_valid (lines s) (horizontal_target right s) /\
  offset (lines s) (horizontal_target right s) =
    if right then Nat.min (S (caret s)) (length (flat_text s)) else caret s - 1.
Proof.
  intros (pre & l & post & k & El & Ec & Hk)%cursor_split. unfold horizontal_target, caret, flat_text.
  rewrite Ec. cbn [line column]. rewrite El, line_at_middle, offset_middle, flat_split, !length_app by done.
  destruct right.
  - destruct (Nat.ltb_spec k (length l)) as [H|H].
    + rewrite offset_middle. split; [by apply cursor_valid_middle|lia].
    + destruct post as [|l' post]; cbn [length].
      * destruct (Nat.ltb_spec (length pre + 1) (length pre + 1)); [lia|]. rewrite offset_middle.
        split; [by apply cursor_valid_middle|]. change (length (after_text [])) with 0. lia.
      * destruct (Nat.ltb_spec (length pre + 1) (length pre + S (S (length post)))); [|lia].
        split; [exists l'; cbn; split; [|lia]; by rewrite lookup_app_r, Nat.sub_succ_l, Nat.sub_diag by lia|].
        unfold offset. cbn [line column].
        rewrite (app_assoc pre [_] _ : pre ++ l :: l' :: post = _), take_app_length' by (rewrite length_app; cbn; lia).
        rewrite before_text_app, length_app.
        assert (length (before_text [l]) = length l + 1) by (cbn; rewrite app_nil_r, length_app; done).
        assert (length (after_text (l' :: post)) = S (length l' + length (after_text post))) by (cbn; by rewrite length_app).
        lia.
  - destruct (Nat.ltb_spec 0 k) as [H|H].
    + rewrite offset_middle. split; [apply cursor_valid_middle; lia|lia].
    + destruct (Nat.ltb_spec 0 (length pre)) as [H1|H1].
      * destruct (list_snoc_inv pre) as [->|(pre' & p & ->)]; [cbn in H1; lia|].
        rewrite <- app_assoc, length_app. cbn [app length]. replace (length pre' + 1 - 1) with (length pre') by lia.
        rewrite line_at_middle, offset_middle by done. split; [by apply cursor_valid_middle|].
        rewrite before_text_app. cbn. rewrite !length_app. cbn. lia.
      * rewrite offset_middle. split; [by apply cursor_valid_middle|]. destruct pre; cbn in *; lia.
Qed.

Lemma buffer_start_spec s : cursor_valid (lines s) (cursor s) -> cursor_valid (lines s) buffer_start /\ offset (lines s) buffer_start = 0.
Proof.
  intros Hc. split; [|done]. apply cursor_valid_iff in Hc as [Hl _]. apply cursor_valid_iff. cbn. lia.
Qed.

Lemma buffer_end_spec s :
  cursor_valid (lines s) (cursor s) ->
  cursor_valid (lines s) (buffer_end s) /\ offset (lines s) (buffer_end s) = length (flat_text s).
Proof.
  intros Hc. apply cursor_valid_iff in Hc as [Hl _]. unfold buffer_end, flat_text.
  destruct (list_snoc_inv (lines s)) as [E|(pre & l & E)]; [rewrite E in Hl; cbn in Hl; lia|].
  rewrite E, length_app. cbn [length]. replace (length pre + 1 - 1) with (length pre) by lia.
  rewrite line_at_middle, offset_middle, flat_split, !length_app by done.
  split; [by apply cursor_valid_middle|]. cbn. lia.
Qed.

Lemma vertical_target_valid s width row col :
  cursor_valid (lines s) (cursor s) -> row < length (visual_rows s width) ->
  let r := default no_row (visual_rows s width !! row) in
  col <= row_length r -> cursor_valid (lines s) {| line := row_line r; column := row_first r + col |}.
Proof.
  intros Hc Hrow. cbn zeta. destruct (lookup_lt_is_Some_2 _ _ Hrow) as [r Hr]. rewrite Hr.
  change (default no_row (Some r)) with r. intros Hcol. eapply row_cursor_valid; [|done].
  by eapply list_elem_of_lookup_2.
Qed.

Lemma moved_row_bounds delta current count :
  current < count -> moved_row delta current count < count.
Proof.
  intros Hc. unfold moved_row. destruct (Z.ltb_spec delta 0).
  - destruct (Z.ltb_spec (Z.of_nat current) (- (delta + 1) + 1)); lia.
  - lia.
Qed.

(** ** The motions *)

(** Every motion ends by [moved]; its caret is a valid caret. *)
Definition motion (extend : bool) (s s' : Impl) : Prop :=
  exists c, cursor_valid (lines s) c /\ moved extend s c s'.

Lemma motion_wf extend s s' : editor_wf s -> motion extend s s' -> editor_wf s'.
Proof. intros Hs (c & Hc & Hm). by eapply wf_moved. Qed.

Lemma finish_target extend s c :
  editor_wf s -> cursor_valid (lines s) c ->
  moved extend s c (finish_motion (cursor s) extend (forget_column (with_cursor c s))).
Proof. intros Hs Hc. by apply (finish_motion_moved extend s (forget_column (with_cursor c s))). Qed.

Lemma move_horizontal_moved right extend s :
  editor_wf s -> moved extend s (horizontal_target right s) (move_horizontal right extend s).
Proof. intros Hs. apply finish_target; [done|]. by apply horizontal_target_spec, wf_cursor. Qed.

Lemma move_buffer_boundary_moved (to_end extend : bool) s :
  editor_wf s ->
  moved extend s (if to_end then buffer_end s else buffer_start) (move_buffer_boundary to_end extend s).
Proof.
  intros Hs. apply finish_target; [done|]. pose proof (wf_cursor s Hs).
  destruct to_end; [by apply buffer_end_spec|by apply (buffer_start_spec s)].
Qed.

Lemma visual_rows_nonempty s width :
  0 < width -> cursor_valid (lines s) (cursor s) -> 0 < length (visual_rows s width).
Proof.
  intros Hw Hc. pose proof (visual_rows_length s width Hw). apply cursor_valid_iff in Hc as [? _]. lia.
Qed.

Lemma editable_width_positive s : editor_wf s -> 0 < editable_width s.
Proof. intros [_ H _ _]. unfold editable_width. destruct (Nat.eqb_spec (viewport_width s) 0); lia. Qed.

Lemma visual_cursor_row s width :
  0 < width -> cursor_valid (lines s) (cursor s) ->
  fst (visual_cursor s (visual_rows s width) width) < length (visual_rows s width).
Proof.
  intros Hw Hc. pose proof (visual_cursor_spec s width Hw Hc) as H.
  destruct (visual_cursor s (visual_rows s width) width) as [row col]. destruct H as (r & Hr & _).
  by eapply lookup_lt_Some.
Qed.

Lemma move_row_boundary_motion to_end extend s :
  editor_wf s -> motion extend s (move_row_boundary to_end extend s).
Proof.
  intros Hs. pose proof (wf_cursor s Hs) as Hc. pose proof (editable_width_positive s Hs) as Hw.
  pose proof (visual_cursor_row s _ Hw Hc) as Hrow. unfold move_row_boundary.
  destruct (visual_rows s (editable_width s)) as [|r0 rows] eqn:E; [cbn in Hrow; lia|]. rewrite <- E in *.
  eexists. split; [|apply finish_target; [done|]].
  all: destruct to_end; [apply (vertical_target_valid s _ _ _ Hc Hrow); done|].
  all: match goal with |- context [row_first ?r] => rewrite <- (Nat.add_0_r (row_first r)) end.
  all: apply (vertical_target_valid s _ _ _ Hc Hrow); lia.
Qed.

Lemma move_vertical_motion delta extend s :
  editor_wf s -> motion extend s (move_vertical delta extend s).
Proof.
  intros Hs. pose proof (wf_cursor s Hs) as Hc. pose proof (editable_width_positive s Hs) as Hw.
  pose proof (visual_cursor_row s _ Hw Hc) as Hrow. unfold move_vertical.
  destruct (visual_rows s (editable_width s)) as [|r0 rows] eqn:E; [cbn in Hrow; lia|]. rewrite <- E in *.
  destruct (visual_cursor s (visual_rows s (editable_width s)) (editable_width s)) as [row col].
  apply (moved_row_bounds delta) in Hrow. cbn [fst] in Hrow.
  assert (Hv : forall desired, cursor_valid (lines s)
    {| line := row_line (default no_row (visual_rows s (editable_width s) !! moved_row delta row (length (visual_rows s (editable_width s)))));
       column := row_first (default no_row (visual_rows s (editable_width s) !! moved_row delta row (length (visual_rows s (editable_width s))))) +
         Nat.min desired (row_length (default no_row (visual_rows s (editable_width s) !! moved_row delta row (length (visual_rows s (editable_width s)))))) |})
    by (intros desired; apply vertical_target_valid; [done|done|lia]).
  eexists. split; [|apply finish_motion_moved; [done..|apply Hv]]. apply Hv.
Qed.

Lemma move_page_motion down extend s : editor_wf s -> motion extend s (move_page down extend s).
Proof. intros Hs. by apply move_vertical_motion. Qed.

(** ** Words *)

Lemma retreat_spec test l col :
  col <= length l ->
  let stop := retreat test l col in
  stop <= col /\ Forall (fun c => test c = true) (take (col - stop) (drop stop l)) /\
  (forall c, 0 < stop -> l !! (stop - 1) = Some c -> test c = false).
Proof.
  induction col as [|n IH]; intros Hc; cbn zeta; cbn [retreat].
  { split_and!; [done|constructor|lia]. }
  destruct (lookup_lt_is_Some_2 l n) as [c Hl]; [lia|]. rewrite Hl. destruct (test c) eqn:Et.
  - destruct (IH ltac:(lia)) as (Hle & Hall & Hst). split_and!; [lia| |done].
    replace (S n - retreat test l n) with ((n - retreat test l n) + 1) by lia.
    rewrite <- take_take_drop. apply Forall_app. split; [done|]. rewrite drop_drop.
    replace (retreat test l n + (n - retreat test l n)) with n by lia.
    rewrite (drop_S _ c n) by done. cbn. rewrite take_0. by repeat constructor.
  - replace (S n - S n) with 0 by lia. split_and!; [lia|constructor|].
    intros c' _. replace (S n - 1) with n by lia. congruence.
Qed.

Lemma advance_spec fuel test l col :
  col <= length l -> length l - col <= fuel ->
  let stop := advance fuel test l col in
  col <= stop <= length l /\ Forall (fun c => test c = true) (take (stop - col) (drop col l)) /\
  (forall c, l !! stop = Some c -> test c = false).
Proof.
  revert col. induction fuel as [|fuel IH]; intros col Hc Hf; cbn zeta; cbn [advance].
  { replace (col - col) with 0 by lia. split_and!; [lia|lia|constructor|].
    intros c Hl. apply lookup_lt_Some in Hl. lia. }
  destruct (l !! col) as [c|] eqn:Hl.
  - apply lookup_lt_Some in Hl as Hlt. destruct (test c) eqn:Et.
    + destruct (IH (S col)) as (Hle & Hall & Hst); [lia|lia|]. split_and!; [lia|lia| |done].
      rewrite (drop_S _ c col) by done. destruct (advance fuel test l (S col) - col) as [|n] eqn:En; [lia|].
      cbn. constructor; [done|]. replace n with (advance fuel test l (S col) - S col) by lia. done.
    + replace (col - col) with 0 by lia. split_and!; [lia|lia|constructor|]. congruence.
  - apply lookup_ge_None in Hl. replace (col - col) with 0 by lia. split_and!; [lia|lia|constructor|].
    intros c E. apply lookup_lt_Some in E. lia.
Qed.

(** The text between two offsets. *)
Definition between (a b : nat) (t : list Z) : list Z := take (b - a) (drop a t).

Lemma between_app a b c t : a <= b <= c -> between a c t = between a b t ++ between b c t.
Proof.
  intros H. unfold between. replace (c - a) with ((b - a) + (c - b)) by lia.
  rewrite <- take_take_drop, drop_drop. by replace (a + (b - a)) with b by lia.
Qed.

Lemma between_line pre l post a b :
  a <= b <= length l ->
  between (length (before_text pre) + a) (length (before_text pre) + b) (flat (pre ++ l :: post)) = between a b l.
Proof.
  intros H. unfold between. rewrite flat_drop by lia.
  replace (length (before_text pre) + b - (length (before_text pre) + a)) with (b - a) by lia.
  apply take_app_le. rewrite length_drop. lia.
Qed.

Lemma flat_lookup pre l post i :
  i < length l -> flat (pre ++ l :: post) !! (length (before_text pre) + i) = l !! i.
Proof.
  intros Hi. rewrite flat_split, lookup_app_r by lia. rewrite Nat.add_sub_swap, Nat.sub_diag by lia.
  by rewrite lookup_app_l by lia.
Qed.

Lemma flat_before pre p l post :
  flat ((pre ++ [p]) ++ l :: post) !! (length (before_text (pre ++ [p])) - 1) = Some NEWLINE.
Proof.
  rewrite flat_split. rewrite before_text_app. cbn [before_text flat_map].
  rewrite app_nil_r, app_assoc. rewrite lookup_app_l by (rewrite !length_app; cbn; lia).
  rewrite lookup_app_r by (rewrite !length_app; cbn; lia).
  replace (_ - _) with 0 by (rewrite !length_app; cbn; lia). done.
Qed.

Lemma flat_newline pre l l' post :
  flat (pre ++ l :: l' :: post) !! (length (before_text pre) + length l) = Some NEWLINE.
Proof.
  rewrite flat_split, lookup_app_r by lia. rewrite Nat.add_sub_swap, Nat.sub_diag by lia.
  by rewrite lookup_app_r, Nat.add_0_l, Nat.sub_diag by lia.
Qed.

(** [o'] is the start of a word of [t], reached leftwards from [o] over
    separators and one word. *)
Definition word_left (t : list Z) (o o' : nat) : Prop :=
  o' <= o /\ (0 < o -> o' < o) /\
  (exists w n, between o' o t = w ++ n /\ Forall (fun c => is_word_character c = true) w /\
     Forall (fun c => not_word c = true) n) /\
  (forall c, 0 < o' -> t !! (o' - 1) = Some c -> not_word c = true).

(** The mirror image: one word, then separators, after crossing at most one
    line end. *)
Definition word_right (t : list Z) (o o' : nat) : Prop :=
  o <= o' /\ (o < length t -> o < o') /\
  (exists nl w n, between o o' t = nl ++ w ++ n /\ (nl = [] \/ nl = [NEWLINE]) /\
     Forall (fun c => is_word_character c = true) w /\ Forall (fun c => not_word c = true) n) /\
  (forall c, t !! o' = Some c -> c = NEWLINE \/ is_word_character c = true).

Lemma not_word_false c : is_word_character c = false -> not_word c = true.
Proof. unfold not_word. by intros ->. Qed.

Lemma word_left_line pre l post k :
  k <= length l ->
  let o := length (before_text pre) in
  let col := retreat is_word_character l (retreat not_word l k) in
  word_left (flat (pre ++ l :: post)) (o + k) (o + col) \/ (k = 0 /\ col = 0 /\ 0 < o).
Proof.
  intros Hk. cbn zeta. destruct (retreat_spec not_word l k Hk) as (H1 & Hn & Hs1).
  set (b := retreat not_word l k) in *.
  destruct (retreat_spec is_word_character l b ltac:(lia)) as (H2 & Hw & Hs2).
  set (a := retreat is_word_character l b) in *.
  destruct (decide (k = 0 /\ 0 < length (before_text pre))) as [[-> ?]|Hz]; [right; lia|]. left.
  assert (Hprog : 0 < k -> a < k).
  { intros Hk0. destruct (decide (b < k)); [lia|]. assert (Eb : b = k) by lia.
    destruct (decide (a < b)); [lia|]. exfalso. assert (Ea : a = b) by lia.
    destruct (lookup_lt_is_Some_2 l (k - 1)) as [c Hc]; [lia|]. rewrite Ea, Eb in Hs2. rewrite Eb in Hs1.
    specialize (Hs1 c ltac:(lia) Hc). specialize (Hs2 c ltac:(lia) Hc). unfold not_word in Hs1. by rewrite Hs2 in Hs1. }
  split_and!; [lia|lia| |].
  - exists (between a b l), (between b k l). rewrite between_line by lia. split_and!; [by apply between_app|exact Hw|exact Hn].
  - intros c Hpos Hc. destruct (decide (0 < a)) as [Ha|Ha].
    + replace (length (before_text pre) + a - 1) with (length (before_text pre) + (a - 1)) in Hc by lia.
      rewrite flat_lookup in Hc by lia. apply not_word_false. by apply Hs2.
    + assert (a = 0) as Ea by lia. rewrite Ea, Nat.add_0_r in *.
      destruct (list_snoc_inv pre) as [->|(pre' & p & ->)]; [cbn in Hpos; lia|].
      rewrite flat_before in Hc. by injection Hc as <-.
Qed.

Lemma word_left_cross t o o' :
  word_left t o o' -> t !! o = Some NEWLINE -> word_left t (S o) o'.
Proof.
  intros (H1 & H2 & (w & n & E & Hw & Hn) & H4) Hnl. split_and!; [lia|lia| |done].
  exists w, (n ++ [NEWLINE]). rewrite (between_app o' o (S o)), E, <- app_assoc by lia. split_and!; [|done|].
  - do 2 f_equal. unfold between. rewrite (drop_S _ NEWLINE o) by done. by replace (S o - o) with 1 by lia.
  - apply Forall_app. split; [done|]. by repeat constructor.
Qed.

Lemma word_left_target ls c :
  cursor_valid ls c -> (column c =? 0) && (line c =? 0) = false ->
  let c1 := if column c =? 0
            then {| line := line c - 1; column := length (line_at ls (line c - 1)) |} else c in
  let l := line_at ls (line c1) in
  let target := {| line := line c1; column := retreat is_word_character l (retreat not_word l (column c1)) |} in
  cursor_valid ls target /\ word_left (flat ls) (offset ls c) (offset ls target).
Proof.
  intros (pre & l & post & k & -> & -> & Hk)%cursor_split H0. cbn [line column] in *. cbn zeta.
  assert (Hcol : forall l k, k <= length l -> retreat is_word_character l (retreat not_word l k) <= length l).
  { clear. intros l k Hk. destruct (retreat_spec not_word l k Hk) as (H1 & _).
    destruct (retreat_spec is_word_character l (retreat not_word l k)) as (H2 & _); lia. }
  destruct (Nat.eqb_spec k 0) as [->|Hk0]; cbn [line column andb] in *.
  - apply Nat.eqb_neq in H0. destruct (list_snoc_inv pre) as [->|(pre' & p & ->)]; [done|].
    rewrite length_app. cbn [length]. replace (length pre' + 1 - 1) with (length pre') by lia.
    rewrite <- app_assoc. cbn [app]. rewrite line_at_middle by done.
    split; [by apply cursor_valid_middle, Hcol|].
    assert (Eo : offset (pre' ++ p :: l :: post) {| line := length pre' + 1; column := 0 |}
      = S (length (before_text pre') + length p)).
    { pose proof (offset_middle (pre' ++ [p]) l post 0) as E. rewrite length_app, <- app_assoc in E. cbn [length app] in E.
      rewrite E, before_text_app, length_app. cbn. rewrite app_nil_r, length_app. cbn. lia. }
    rewrite Eo, offset_middle. destruct (word_left_line pre' p (l :: post) (length p) ltac:(done)) as [H|(E1 & E2 & _)].
    + apply word_left_cross; [done|]. apply flat_newline.
    + rewrite E2, E1, !Nat.add_0_r. pose proof (flat_newline pre' p l post) as Hnl. rewrite E1, Nat.add_0_r in Hnl.
      split_and!; [lia|lia| |].
      * exists [], [NEWLINE]. split_and!; [|constructor|by repeat constructor]. unfold between.
        rewrite (drop_S _ NEWLINE) by done. by replace (S (length (before_text pre')) - length (before_text pre')) with 1 by lia.
      * intros c Hpos Hc. destruct (list_snoc_inv pre') as [->|(pre2 & q & ->)]; [cbn in Hpos; lia|].
        rewrite flat_before in Hc. by injection Hc as <-.
  - rewrite line_at_middle, !offset_middle by done. split; [by apply cursor_valid_middle, Hcol|].
    destruct (word_left_line pre l post k Hk) as [H|(? & _)]; [done|lia].
Qed.

Lemma move_word_left_spec extend s :
  editor_wf s ->
  exists c, cursor_valid (lines s) c /\ moved extend s c (move_word_left extend s) /\
    word_left (flat_text s) (caret s) (offset (lines s) c).
Proof.
  intros Hs. pose proof (wf_cursor s Hs) as Hc. unfold move_word_left.
  destruct ((column (cursor s) =? 0) && (line (cursor s) =? 0)) eqn:E0.
  - apply andb_true_iff in E0 as [E1%Nat.eqb_eq E2%Nat.eqb_eq].
    exists (cursor s). split_and!; [done|by apply finish_navigation_moved|].
    assert (E : caret s = 0) by (unfold caret, offset; rewrite E1, E2; done).
    change (offset (lines s) (cursor s)) with (caret s). rewrite E.
    split_and!; [done|lia| |lia]. exists [], []. split_and!; [done|constructor|constructor].
  - destruct (word_left_target _ _ Hc E0) as (Hv & Hw). eexists. split; [exact Hv|].
    split; [by apply finish_target|exact Hw].
Qed.

Lemma flat_line_end pre l post c :
  flat (pre ++ l :: post) !! (length (before_text pre) + length l) = Some c -> c = NEWLINE.
Proof.
  destruct post as [|l' post]; [|rewrite flat_newline; by intros [= <-]].
  rewrite flat_split, app_nil_r. intros Hc%lookup_lt_Some. rewrite length_app in Hc. lia.
Qed.

(** [word_right] without the crossing and the progress. *)
Definition word_right_within (t : list Z) (o o' : nat) : Prop :=
  o <= o' /\
  (exists w n, between o o' t = w ++ n /\
     Forall (fun c => is_word_character c = true) w /\ Forall (fun c => not_word c = true) n) /\
  (forall c, t !! o' = Some c -> c = NEWLINE \/ is_word_character c = true).

Lemma word_right_line pre l post k :
  k <= length l ->
  let o := length (before_text pre) in
  let col := advance (length l) not_word l (advance (length l) is_word_character l k) in
  col <= length l /\ (k < length l -> k < col) /\
  word_right_within (flat (pre ++ l :: post)) (o + k) (o + col).
Proof.
  intros Hk. cbn zeta. destruct (advance_spec (length l) is_word_character l k Hk) as (H1 & Hw & Hs1); [lia|].
  set (b := advance (length l) is_word_character l k) in *.
  destruct (advance_spec (length l) not_word l b) as (H2 & Hn & Hs2); [lia|lia|].
  set (a := advance (length l) not_word l b) in *. unfold word_right_within. split_and!; [lia| |lia| |].
  - intros Hlt. destruct (decide (k < b)); [lia|]. assert (Eb : b = k) by lia.
    destruct (decide (b < a)); [lia|]. exfalso. assert (Ea : a = b) by lia.
    destruct (lookup_lt_is_Some_2 l k Hlt) as [c Hc]. rewrite Ea, Eb in Hs2. rewrite Eb in Hs1.
    specialize (Hs1 c Hc). specialize (Hs2 c Hc). unfold not_word in Hs2. by rewrite Hs1 in Hs2.
  - exists (between k b l), (between b a l). rewrite between_line by lia.
    split_and!; [apply between_app; lia|exact Hw|exact Hn].
  - intros c Hc. destruct (decide (a < length l)) as [Ha|Ha].
    + rewrite flat_lookup in Hc by done. right. specialize (Hs2 c Hc). unfold not_word in Hs2.
      by destruct (is_word_character c).
    + left. assert (a = length l) as Ea by lia. rewrite Ea in Hc. by eapply flat_line_end.
Qed.

Lemma word_right_target ls c :
  cursor_valid ls c ->
  let c1 := if (column c =? length (line_at ls (line c))) && (line c + 1 <? length ls)
            then {| line := S (line c); column := 0 |} else c in
  let l := line_at ls (line c1) in
  let target := {| line := line c1;
                   column := advance (length l) not_word l (advance (length l) is_word_character l (column c1)) |} in
  cursor_valid ls target /\ word_right (flat ls) (offset ls c) (offset ls target).
Proof.
  intros (pre & l & post & k & -> & -> & Hk)%cursor_split. cbn [line column]. cbn zeta.
  rewrite line_at_middle, length_app by done. cbn [length].
  destruct ((k =? length l) && (length pre + 1 <? length pre + S (length post))) eqn:E0.
  - apply andb_true_iff in E0 as [->%Nat.eqb_eq Hp%Nat.ltb_lt]. cbn [line column].
    destruct post as [|l' post]; [cbn in Hp; lia|]. rewrite line_at_next.
    destruct (word_right_line (pre ++ [l]) l' post 0) as (Hb & _ & Hin & (w & n & E & Hw & Hn) & Hnext); [lia|].
    rewrite <- app_assoc in E, Hnext. cbn [app] in E, Hnext.
    assert (El : length (before_text (pre ++ [l])) = S (length (before_text pre) + length l))
      by (rewrite before_text_app, length_app; cbn; rewrite app_nil_r, length_app; cbn; lia).
    rewrite El in *.
    pose proof (fun j => offset_middle (pre ++ [l]) l' post j) as Ho. rewrite <- app_assoc, length_app in Ho.
    cbn [length app] in Ho. rewrite Nat.add_1_r, El in Ho. rewrite Ho, offset_middle.
    pose proof (cursor_valid_middle (pre ++ [l]) l' post) as Hv. rewrite <- app_assoc, length_app in Hv.
    cbn [length app] in Hv. rewrite Nat.add_1_r in Hv.
    split; [by apply Hv|]. rewrite Nat.add_0_r in *. split_and!; [lia|lia| |done].
    exists [NEWLINE], w, n. split_and!; [|by right|done|done].
    rewrite (between_app _ (S (length (before_text pre) + length l))), E by lia. f_equal. unfold between.
    rewrite (drop_S _ NEWLINE) by apply flat_newline. by rewrite Nat.sub_succ_l, Nat.sub_diag by done.
  - cbn [line column]. rewrite line_at_middle, !offset_middle by done.
    destruct (word_right_line pre l post k Hk) as (Hb & Hpr & Hin & (w & n & E & Hw & Hn) & Hnext).
    split; [by apply cursor_valid_middle|]. split_and!; [done| |exists [], w, n; split_and!; auto|done].
    intros Hlt. destruct (decide (k < length l)); [lia|]. assert (k = length l) as -> by lia.
    rewrite Nat.eqb_refl in E0. apply Nat.ltb_ge in E0. destruct post; [|cbn in E0; lia].
    rewrite flat_split, app_nil_r, length_app in Hlt. lia.
Qed.

Lemma move_word_right_spec extend s :
  editor_wf s ->
  exists c, cursor_valid (lines s) c /\ moved extend s c (move_word_right extend s) /\
    word_right (flat_text s) (caret s) (offset (lines s) c).
Proof.
  intros Hs. pose proof (wf_cursor s Hs) as Hc. destruct (word_right_target _ _ Hc) as (Hv & Hw).
  eexists. split; [exact Hv|]. split; [by apply finish_target|exact Hw].
Qed.

(** ** Selected text *)

Lemma selected_lines_tail first pre mid l' post m :
  m <= length l' -> line first < length pre ->
  selected_lines (S (length mid)) (length pre)
    {| range_first := first; range_last := {| line := length pre + length mid; column := m |} |}
    (pre ++ mid ++ l' :: post) = encode_utf8 (before_text mid ++ take m l').
Proof.
  intros Hm. revert pre. induction mid as [|x mid IH]; intros pre Hf; cbn [length selected_lines range_first range_last line column].
  - cbn [app]. rewrite line_at_middle by done. destruct (Nat.eqb_spec (length pre) (line first)); [lia|].
    rewrite Nat.add_0_r, Nat.eqb_refl, Nat.ltb_irrefl, Nat.sub_0_r, drop_0. cbn. by rewrite app_nil_r.
  - cbn [app]. rewrite line_at_middle by done. destruct (Nat.eqb_spec (length pre) (line first)); [lia|].
    destruct (Nat.eqb_spec (length pre) (length pre + S (length mid))); [lia|].
    destruct (Nat.ltb_spec (length pre) (length pre + S (length mid))); [|lia].
    rewrite Nat.sub_0_r, drop_0, take_ge by done.
    specialize (IH (pre ++ [x])). rewrite length_app, <- app_assoc in IH. cbn [length app] in IH.
    replace (length pre + 1 + length mid) with (length pre + S (length mid)) in IH by lia.
    rewrite Nat.add_1_r in IH. cbn [selected_lines range_first range_last line column] in IH. rewrite IH by lia.
    change (before_text (x :: mid)) with ((x ++ [NEWLINE]) ++ before_text mid).
    rewrite <- !app_assoc, !encode_utf8_app. done.
Qed.

Lemma selected_lines_spec ls r :
  range_valid ls r ->
  selected_lines (line (range_last r) + 1 - line (range_first r)) (line (range_first r)) r ls
  = encode_utf8 (between (offset ls (range_first r)) (offset ls (range_last r)) (flat ls)).
Proof.
  intros (Ha & Hb & Hab). destruct r as [a b]. cbn [range_first range_last] in *.
  destruct (Nat.lt_trichotomy (line a) (line b)) as [Hlt|[Heq|Hgt]].
  - destruct (range_split _ _ _ Ha Hb Hlt) as (pre & l & mid & l' & post & k & m & -> & -> & -> & Hk & Hm).
    cbn [line]. replace (length pre + S (length mid) + 1 - length pre) with (S (S (length mid))) by lia.
    pose proof (selected_lines_tail {| line := length pre; column := k |} (pre ++ [l]) mid l' post m Hm) as Ht.
    rewrite length_app, <- app_assoc in Ht. cbn [length app line] in Ht. specialize (Ht ltac:(lia)).
    replace (length pre + 1 + length mid) with (length pre + S (length mid)) in Ht by lia.
    rewrite Nat.add_1_r in Ht.
    change (selected_lines (S (S (length mid))) (length pre) ?r ?ls) with
      (encode_utf8 (take ((if length pre =? line (range_last r) then column (range_last r) else length (line_at ls (length pre))) -
           (if length pre =? line (range_first r) then column (range_first r) else 0))
         (drop (if length pre =? line (range_first r) then column (range_first r) else 0) (line_at ls (length pre)))) ++
       (if length pre <? line (range_last r) then [NEWLINE] else []) ++ selected_lines (S (length mid)) (S (length pre)) r ls).
    rewrite Ht. cbn [line column range_first range_last]. rewrite line_at_middle, Nat.eqb_refl by done.
    destruct (Nat.eqb_spec (length pre) (length pre + S (length mid))); [lia|].
    destruct (Nat.ltb_spec (length pre) (length pre + S (length mid))); [|lia].
    rewrite take_ge by (rewrite length_drop; lia). change [NEWLINE] with (encode_utf8 [NEWLINE]).
    rewrite <- !encode_utf8_app. f_equal. unfold between. rewrite offset_middle, flat_drop by done.
    pose proof (offset_middle (pre ++ l :: mid) l' post m) as Eo. rewrite length_app, <- app_assoc in Eo.
    cbn [length app] in Eo. rewrite Eo. rewrite after_text_app.
    assert (El : length (before_text (pre ++ l :: mid)) = length (before_text pre) + length l + 1 + length (before_text mid)).
    { rewrite before_text_app, length_app. cbn [before_text flat_map]. rewrite !length_app. cbn. unfold before_text. lia. }
    rewrite El. cbn [after_text flat_map]. fold (after_text post).
    assert (Em : after_text mid ++ (NEWLINE :: l') = NEWLINE :: before_text mid ++ l').
    { rewrite <- after_before, after_text_app. cbn. by rewrite app_nil_r. }
    replace (drop k l ++ after_text mid ++ (NEWLINE :: l') ++ after_text post)
      with ((drop k l ++ [NEWLINE] ++ before_text mid) ++ l' ++ after_text post).
    + match goal with |- context [take ?n (?x ++ _)] => replace n with (length x + m) end.
      * rewrite take_app_add, take_app_le by done. by rewrite <- !app_assoc.
      * rewrite !length_app, length_drop. cbn [length]. lia.
    + rewrite (app_assoc (after_text mid)), Em. cbn [app]. by rewrite <- !app_assoc.
  - destruct b as [j m]. cbn [line] in Heq. subst j.
    apply cursor_split in Ha as (pre & l & post & k & -> & -> & Hk). cbn [line] in *.
    assert (Hm : m <= length l).
    { destruct Hb as (l' & E & Hm). cbn in E, Hm. rewrite list_lookup_middle in E by done. congruence. }
    rewrite !offset_middle in *. rewrite between_line by lia.
    replace (length pre + 1 - length pre) with 1 by lia. cbn [selected_lines line column range_first range_last].
    rewrite Nat.eqb_refl, Nat.ltb_irrefl, line_at_middle by done. by rewrite app_nil_r.
  - exfalso. assert (cursor_less b a = true) as H%(offset_less ls); [|lia|done|done].
    unfold cursor_less. apply orb_true_iff. left. by apply Nat.ltb_lt.
Qed.
