(* ===== verification/EditorInvariant.v ===== *)
(** * Reachable states of the text editor

    The public operations as one step type; every operation keeps the state
    well formed, keeps the scroll offset inside the buffer while the viewport
    is left alone during pastes, and an edit leaves the caret in view. *)
From S2P Require Import Prelude.
From S2P Require Import Utf8.
From S2P Require Import Events.
From S2P Require Import Tui.
From S2P Require Import TextEditor.
From S2P Require Import EditorRows.
From S2P Require Import EditorText.
From S2P Require Import EditorMotion.
Open Scope nat_scope.

(** ** Operations as steps *)

Inductive EditorOp :=
  | SetViewport (width height : nat)
  | SetFallbackWidth (width : nat)
  | ClearText
  | InsertText (text : bytes)
  | Key (event : KeyEvent)
  | Text (event : TextEvent)
  | Paste (event : PasteEvent)
  | Run (command : Command)
  | Scroll (delta : Z)
  | Select (event : SelectionEvent)
  | ResetSelection
  | Place (position : SelectionPosition).

Definition apply_op (s : Impl) (op : EditorOp) : Impl :=
  match op with
  | SetViewport width height => set_viewport width height s
  | SetFallbackWidth width => set_fallback_width width s
  | ClearText => clear_editor s
  | InsertText text => insert_utf8 text s
  | Key event => handle_key event s
  | Text event => handle_text event s
  | Paste event => snd (handle_paste event s)
  | Run command => apply_command command s
  | Scroll delta => scroll_vertical delta s
  | Select event => snd (editor_update_selection event s)
  | ResetSelection => reset_selection s
  | Place position => snd (place_cursor position s)
  end.

Definition run_ops (ops : list EditorOp) (s : Impl) : Impl := fold_left apply_op ops s.

(** ** Well-formed in every reachable state *)

Lemma wf_new o : editor_wf (new_impl o).
Proof.
  split; [cbn; lia|cbn; lia| |by intros p]. cbn. apply marks_bare. exists []. done.
Qed.

Lemma wf_select s sel :
  editor_wf s -> (forall r, sel = Some r -> range_valid (lines s) r) -> editor_wf (with_selection sel None s).
Proof.
  intros Hs Hr. apply (wf_intro s); [done..|]. split_and!; [exact (wf_cursor s Hs)|done|by intros a].
Qed.

Lemma wf_reset s : editor_wf s -> editor_wf (reset_selection s).
Proof. intros Hs. apply wf_select; [done|]. by intros r [=]. Qed.

Lemma whole_buffer_valid s : editor_wf s -> range_valid (lines s) (whole_buffer s).
Proof.
  intros Hs. pose proof (wf_cursor s Hs) as Hc.
  destruct (buffer_start_spec s Hc) as [H1 E1], (buffer_end_spec s Hc) as [H2 E2].
  split_and!; [done|done|]. cbn [range_first range_last whole_buffer]. rewrite E1. lia.
Qed.

Lemma wf_motions extend s :
  editor_wf s ->
  (forall right, editor_wf (move_horizontal right extend s)) /\
  (forall to_end, editor_wf (move_buffer_boundary to_end extend s)) /\
  (forall to_end, editor_wf (move_row_boundary to_end extend s)) /\
  (forall delta, editor_wf (move_vertical delta extend s)) /\
  (forall down, editor_wf (move_page down extend s)) /\
  editor_wf (move_word_left extend s) /\ editor_wf (move_word_right extend s).
Proof.
  intros Hs. pose proof (wf_cursor s Hs) as Hc. split_and!.
  - intros right. eapply wf_moved; [done| |by apply move_horizontal_moved]. by apply horizontal_target_spec.
  - intros to_end. eapply wf_moved; [done| |by apply move_buffer_boundary_moved].
    destruct to_end; [by apply buffer_end_spec|by apply (buffer_start_spec s)].
  - intros to_end. by eapply motion_wf, move_row_boundary_motion.
  - intros delta. by eapply motion_wf, move_vertical_motion.
  - intros down. by eapply motion_wf, move_page_motion.
  - destruct (move_word_left_spec extend s Hs) as (c & Hv & Hm & _). by eapply wf_moved.
  - destruct (move_word_right_spec extend s Hs) as (c & Hv & Hm & _). by eapply wf_moved.
Qed.

Lemma wf_named_key named extend option command s :
  editor_wf s -> editor_wf (handle_named_key named extend option command s).
Proof.
  intros Hs. destruct (wf_motions extend s Hs) as (Hh & Hb & Hr & Hv & Hp & Hl & Hw).
  destruct (wf_motions false s Hs) as (_ & _ & _ & _ & Hp' & _).
  destruct named; cbn [handle_named_key]; try done;
    try (destruct command; [done|]); try (destruct option; [done|]);
    auto using wf_backspace, wf_delete_forward, wf_insert.
  all: destruct (_ && _); auto using wf_insert.
Qed.

Lemma wf_insert_utf8 t s : editor_wf s -> editor_wf (insert_utf8 t s).
Proof. apply wf_insert. Qed.

Lemma wf_handle_key event s : editor_wf s -> editor_wf (handle_key event s).
Proof.
  intros Hs. unfold handle_key. destruct (_ || _); [done|]. destruct (key event) as [named|c].
  - destruct (is_modifier_key named); [done|]. by apply wf_named_key.
  - destruct (_ || _ || _ || _); [done|]. destruct (negb _); by apply wf_insert_utf8.
Qed.

Lemma wf_with_paste p s :
  editor_wf s ->
  (forall p', p = Some p' -> marks_valid (paste_lines p') (paste_cursor p') (paste_selection p') (paste_anchor p')) ->
  editor_wf (with_paste p s).
Proof. intros [H1 H2 H3 H4] Hp. by split. Qed.

Lemma wf_handle_paste event s : editor_wf s -> editor_wf (snd (handle_paste event s)).
Proof.
  intros Hs. unfold handle_paste. destruct (paste_phase event), (paste s) as [p|] eqn:Ep; try done.
  - apply wf_with_paste; [done|]. intros p [= <-]. apply (wf_marks s Hs).
  - destruct (consume_utf8 _ false) as [cs pending]. pose proof (wf_insert cs s (preceding_cr p) Hs) as Hi.
    destruct (insert cs s (preceding_cr p)) as [s1 cr]. cbn [fst snd] in *.
    apply wf_with_paste; [done|]. intros p' [= <-]. exact (wf_paste s Hs p Ep).
  - destruct (consume_utf8 _ true) as [cs pending]. pose proof (wf_insert cs s (preceding_cr p) Hs) as Hi.
    destruct (insert cs s (preceding_cr p)) as [s1 cr]. cbn [fst snd] in *. by apply wf_with_paste.
  - cbn [snd]. apply wf_with_paste; [|done]. pose proof (wf_paste s Hs p Ep). destruct Hs as [H1 H2 H3 H4]. by split.
Qed.

Lemma wf_apply_command c s : editor_wf s -> editor_wf (apply_command c s).
Proof.
  intros Hs. destruct (wf_motions false s Hs) as (Hh & Hb & Hr & Hv & Hp & Hl & Hw).
  destruct c; cbn [apply_command]; auto. destruct (has_input s); [|done]. apply wf_select; [done|].
  intros r [= <-]. by apply whole_buffer_valid.
Qed.

Lemma wf_viewport w h s : editor_wf s -> editor_wf (with_viewport w h s).
Proof. intros [H1 H2 H3 H4]. by split. Qed.

Lemma clamp_scrolls s : exists row, clamp_scroll s = with_scroll row s.
Proof. unfold clamp_scroll. destruct (viewport_width s =? 0); by eexists. Qed.

Lemma wf_set_viewport w h s : editor_wf s -> editor_wf (set_viewport w h s).
Proof.
  intros Hs. unfold set_viewport. destruct (clamp_scrolls (with_viewport w h s)) as [row ->].
  assert (H : editor_wf (with_scroll row (with_viewport w h s))) by (by apply wf_scroll, wf_viewport).
  destruct (_ || _); [by apply wf_ensure|done].
Qed.

Lemma scroll_scrolls delta s : exists row, scroll_vertical delta s = with_scroll row s.
Proof.
  assert (Hs : s = with_scroll (scroll_row s) s) by (by destruct s). unfold scroll_vertical.
  destruct (_ || _); [by eexists|]. destruct (0 <? delta)%Z; by eexists.
Qed.

(** ** Positions behind cells *)

Lemma map_character_valid s p c :
  map_character s p = Some c -> exists l, lines s !! line c = Some l /\ column c < length l.
Proof.
  unfold map_character. destruct (_ || _); [done|].
  destruct (visual_rows s (viewport_width s)) as [|r0 rows] eqn:E; [done|]. rewrite <- E. intros H.
  apply bind_Some in H as (r & Hr & H). destruct (Nat.eqb_spec (row_length r) 0); [done|].
  injection H as <-. apply list_elem_of_lookup_2 in Hr. apply visual_rows_in in Hr as (Hl & _ & Hb & _).
  destruct (lookup_lt_is_Some_2 _ _ Hl) as [l El]. exists l. cbn. split; [done|].
  rewrite (line_at_lookup _ _ _ El) in Hb. lia.
Qed.

Lemma map_caret_valid s p c : map_caret s p = Some c -> cursor_valid (lines s) c.
Proof.
  unfold map_caret. destruct (_ || _); [done|]. intros H. apply bind_Some in H as (r & Hr & H).
  injection H as <-. eapply row_cursor_valid; [by eapply list_elem_of_lookup_2|lia].
Qed.

Lemma after_character_valid s c l :
  lines s !! line c = Some l -> column c < length l ->
  cursor_valid (lines s) (after_character s c) /\ offset (lines s) (after_character s c) = S (offset (lines s) c).
Proof.
  intros El Hc. unfold after_character. rewrite (line_at_lookup _ _ _ El). apply lookup_lt_Some in El as Hl.
  rewrite (proj2 (Nat.ltb_lt _ _) Hl), (proj2 (Nat.ltb_lt _ _) Hc). cbn [andb]. split.
  - exists l. by split.
  - unfold offset. cbn [line column]. lia.
Qed.

Lemma same_line_range s i l first last :
  lines s !! i = Some l -> first <= last <= length l ->
  range_valid (lines s) {| range_first := {| line := i; column := first |};
                           range_last := {| line := i; column := last |} |}.
Proof.
  intros El H. split_and!; [by exists l; cbn; split; [done|lia]..|].
  cbn [range_first range_last]. unfold offset. cbn [line column]. lia.
Qed.

Lemma word_range_valid s c l :
  lines s !! line c = Some l -> column c < length l -> range_valid (lines s) (word_range s c).
Proof.
  intros El Hc. unfold word_range. rewrite (line_at_lookup _ _ _ El).
  destruct (is_word_character _); cbv beta iota; apply (same_line_range s _ l _ _ El); [|lia].
  destruct (retreat_spec is_word_character l (column c)) as (H1 & _); [lia|].
  destruct (advance_spec (length l) is_word_character l (S (column c))) as (H2 & _); [lia|lia|]. lia.
Qed.

(** Dragging over characters, the extent's included. *)
Lemma drag_range_valid s a e la le :
  lines s !! line a = Some la -> column a < length la -> lines s !! line e = Some le -> column e < length le ->
  range_valid (lines s)
    (if cursor_less e a then {| range_first := e; range_last := after_character s a |}
     else {| range_first := a; range_last := after_character s e |}).
Proof.
  intros Ea Ha Ee He. destruct (after_character_valid s a la Ea Ha) as [Hva Hoa].
  destruct (after_character_valid s e le Ee He) as [Hve Hoe].
  assert (Hca : cursor_valid (lines s) a) by (exists la; split; [done|lia]).
  assert (Hce : cursor_valid (lines s) e) by (exists le; split; [done|lia]).
  pose proof (offset_less (lines s) e a Hce Hca) as Hless. destruct (cursor_less e a).
  - assert (offset (lines s) e < offset (lines s) a) by (by apply Hless). split_and!; [done|done|]. cbn. lia.
  - assert (~ offset (lines s) e < offset (lines s) a) by (intros H; by apply Hless in H).
    split_and!; [done|done|]. cbn. lia.
Qed.

Lemma wf_update_selection event s : editor_wf s -> editor_wf (snd (editor_update_selection event s)).
Proof.
  intros Hs. unfold editor_update_selection.
  assert (Hdrag : editor_wf (snd (match map_character s (event_extent event) with
    | None => (NO_SELECTION, s)
    | Some extent => match map_character s (event_anchor event) with
        | None => (NO_SELECTION, s)
        | Some anchor => (OK, with_selection (Some
            (if cursor_less extent anchor then {| range_first := extent; range_last := after_character s anchor |}
             else {| range_first := anchor; range_last := after_character s extent |})) None s)
        end end))).
  { destruct (map_character s (event_extent event)) as [e|] eqn:Ee; [|done].
    destruct (map_character s (event_anchor event)) as [a|] eqn:Ea; [|done].
    apply map_character_valid in Ee as (le & ? & ?). apply map_character_valid in Ea as (la & ? & ?).
    apply wf_select; [done|]. intros r [= <-]. by eapply drag_range_valid. }
  destruct (event_type event); try exact Hdrag.
  - destruct (map_character s (event_extent event)) as [e|] eqn:Ee; [|done].
    apply map_character_valid in Ee as (le & ? & ?). apply wf_select; [done|]. intros r [= <-].
    by eapply word_range_valid.
  - destruct (map_character s (event_extent event)) as [e|] eqn:Ee; [|done].
    apply map_character_valid in Ee as (le & El & ?). apply wf_select; [done|]. intros r [= <-].
    rewrite (line_at_lookup _ _ _ El). eapply same_line_range; [done|lia].
  - destruct (negb (has_input s)); [done|]. apply wf_select; [done|]. intros r [= <-].
    by apply whole_buffer_valid.
  - by apply wf_reset.
Qed.

Lemma wf_place_cursor p s : editor_wf s -> editor_wf (snd (place_cursor p s)).
Proof.
  intros Hs. unfold place_cursor. destruct (map_caret s p) as [c|] eqn:E; [|done]. apply map_caret_valid in E.
  cbn [snd]. apply wf_ensure, wf_desired. by apply wf_bare.
Qed.

Lemma wf_apply_op op s : editor_wf s -> editor_wf (apply_op s op).
Proof.
  intros Hs. destruct op; cbn [apply_op].
  - by apply wf_set_viewport.
  - destruct Hs as [H1 H2 H3 H4]. split; cbn; [done|lia|done|done].
  - apply wf_new.
  - by apply wf_insert_utf8.
  - by apply wf_handle_key.
  - unfold handle_text. case_bool_decide; [done|]. by apply wf_insert_utf8.
  - by apply wf_handle_paste.
  - by apply wf_apply_command.
  - destruct (scroll_scrolls delta s) as [row ->]. by apply wf_scroll.
  - by apply wf_update_selection.
  - by apply wf_reset.
  - by apply wf_place_cursor.
Qed.

Lemma wf_run_ops ops s : editor_wf s -> editor_wf (run_ops ops s).
Proof. revert s. induction ops as [|op ops IH]; intros s Hs; [done|]. cbn. by apply IH, wf_apply_op. Qed.

(** ** Scrolling *)

(** The scroll offset leaves a full viewport, or the whole buffer, below. *)
Definition scroll_ok (s : Impl) : Prop :=
  0 < viewport_width s -> 0 < viewport_height s ->
  scroll_row s <= maximum_scroll (visual_rows s (viewport_width s)) (viewport_height s).

Lemma scroll_ok_ensure s : scroll_ok (ensure_cursor_visible s).
Proof.
  unfold ensure_cursor_visible. destruct (_ || _) eqn:E0.
  - intros Hw Hh. apply orb_true_iff in E0 as [E%Nat.eqb_eq|E%Nat.eqb_eq]; lia.
  - destruct (visual_rows s (viewport_width s)) as [|r rows] eqn:Er.
    + intros _ _. cbn. lia.
    + intros _ _. cbn [scroll_row with_scroll viewport_width viewport_height].
      change (visual_rows (with_scroll ?n s) (viewport_width s)) with (visual_rows s (viewport_width s)).
      rewrite Er. apply Nat.le_min_r.
Qed.

Lemma scroll_ok_clamp s : scroll_ok (clamp_scroll s).
Proof.
  unfold clamp_scroll. destruct (Nat.eqb_spec (viewport_width s) 0) as [E|E].
  - intros Hw. cbn in Hw. lia.
  - intros _ _. apply Nat.le_min_r.
Qed.

Lemma wrap_le z : (0 <= z)%Z -> (wrap 64 z <= z)%Z.
Proof. intros Hz. unfold wrap. apply Z.mod_le; lia. Qed.

Lemma wrap_nonneg z : (0 <= wrap 64 z)%Z.
Proof. unfold wrap. apply Z.mod_pos_bound. lia. Qed.

Lemma scroll_ok_vertical delta s : scroll_ok s -> scroll_ok (scroll_vertical delta s).
Proof.
  intros Hs. unfold scroll_vertical. destruct (_ || _); [done|].
  destruct (Z.ltb_spec 0 delta); intros Hw Hh; specialize (Hs Hw Hh);
    cbn [scroll_row with_scroll viewport_width viewport_height] in *;
    change (visual_rows (with_scroll ?n s) (viewport_width s)) with (visual_rows s (viewport_width s)).
  - destruct (_ <? delta)%Z; lia.
  - set (maximum := maximum_scroll _ _) in *.
    pose proof (wrap_le (Z.of_nat maximum - Z.of_nat (scroll_row s)) ltac:(lia)) as Hle.
    pose proof (wrap_nonneg (Z.of_nat maximum - Z.of_nat (scroll_row s))) as Hn.
    pose proof (wrap_le (Z.of_nat (scroll_row s) + Z.min (- (delta + 1) + 1) (wrap 64 (Z.of_nat maximum - Z.of_nat (scroll_row s))))
      ltac:(lia)) as Hle2. lia.
Qed.

(** Under the invariant the row [map_character] reads exists. *)
Lemma mapped_row_in_range s p :
  scroll_ok s -> 0 < viewport_width s -> 0 < viewport_height s ->
  visual_rows s (viewport_width s) <> [] ->
  (0 <= mapped_row s (visual_rows s (viewport_width s)) p < Z.of_nat (length (visual_rows s (viewport_width s))))%Z.
Proof.
  intros Hs Hw Hh Hne. specialize (Hs Hw Hh). unfold maximum_scroll in Hs.
  set (rows := visual_rows _ _) in *. assert (Hr : 0 < length rows) by (destruct rows; [done|cbn; lia]).
  assert (Hb : scroll_row s < length rows) by (destruct (Nat.ltb_spec (viewport_height s) (length rows)); lia).
  unfold mapped_row. destruct (Z.ltb_spec (position_y p) 0).
  - destruct (_ <? _)%Z eqn:E; [lia|]. apply Z.ltb_ge in E. lia.
  - pose proof (wrap_le (Z.of_nat (length rows) - 1 - Z.of_nat (scroll_row s)) ltac:(lia)) as Hle.
    pose proof (wrap_nonneg (Z.of_nat (length rows) - 1 - Z.of_nat (scroll_row s))) as Hn.
    pose proof (wrap_le (Z.of_nat (scroll_row s) + Z.min (position_y p) (wrap 64 (Z.of_nat (length rows) - 1 - Z.of_nat (scroll_row s)))) ltac:(lia)).
    pose proof (wrap_nonneg (Z.of_nat (scroll_row s) + Z.min (position_y p) (wrap 64 (Z.of_nat (length rows) - 1 - Z.of_nat (scroll_row s))))).
    lia.
Qed.

(** The state a cancelled paste goes back to. *)
Definition restored (p : PasteTransaction) (s : Impl) : Impl :=
  with_desired (paste_desired_column p) (paste_has_desired_column p)
    (with_scroll (paste_scroll_row p)
      (with_selection (paste_selection p) (paste_anchor p)
        (with_text (paste_lines p) (paste_cursor p) s))).

Definition scroll_inv (s : Impl) : Prop :=
  scroll_ok s /\ forall p, paste s = Some p -> scroll_ok (restored p s).

(** An operation that keeps the viewport and the paste and ends in a state with
    the invariant. *)
Definition settles (s s' : Impl) : Prop :=
  viewport_width s' = viewport_width s /\ viewport_height s' = viewport_height s /\
  options s' = options s /\ paste s' = paste s /\ (scroll_ok s -> scroll_ok s').

Lemma settles_refl s : settles s s.
Proof. by split_and!. Qed.

Lemma settles_ensure s s1 :
  viewport_width s1 = viewport_width s -> viewport_height s1 = viewport_height s ->
  options s1 = options s -> paste s1 = paste s -> settles s (ensure_cursor_visible s1).
Proof.
  intros Ew Eh Eo Ep. pose proof (scroll_ok_ensure s1). destruct (ensure_scrolls s1) as [row E]. rewrite E in *.
  split_and!; done.
Qed.

(** Nothing the rows depend on changed. *)
Lemma settles_marks s s' :
  lines s' = lines s -> cursor s' = cursor s -> scroll_row s' = scroll_row s ->
  viewport_width s' = viewport_width s -> viewport_height s' = viewport_height s ->
  options s' = options s -> paste s' = paste s -> settles s s'.
Proof.
  intros El Ec Es Ew Eh Eo Ep. split_and!; [done..|]. unfold scroll_ok, visual_rows. by rewrite El, Ec, Es, Ew, Eh.
Qed.

Lemma finish_navigation_marks old extend s : exists sel a, finish_navigation old extend s = with_selection sel a s.
Proof. unfold finish_navigation. destruct (negb extend); by eexists _, _. Qed.

Lemma settles_finish s old extend s1 :
  viewport_width s1 = viewport_width s -> viewport_height s1 = viewport_height s ->
  options s1 = options s -> paste s1 = paste s -> settles s (finish_motion old extend s1).
Proof.
  intros. unfold finish_motion. destruct (finish_navigation_marks old extend s1) as (sel & a & ->).
  by apply settles_ensure.
Qed.

Lemma settles_motions extend s :
  (forall right, settles s (move_horizontal right extend s)) /\
  (forall to_end, settles s (move_buffer_boundary to_end extend s)) /\
  (forall to_end, settles s (move_row_boundary to_end extend s)) /\
  (forall delta, settles s (move_vertical delta extend s)) /\
  (forall down, settles s (move_page down extend s)) /\
  settles s (move_word_left extend s) /\ settles s (move_word_right extend s).
Proof.
  assert (Hv : forall delta, settles s (move_vertical delta extend s)).
  { intros delta. unfold move_vertical. destruct (visual_rows s (editable_width s)); [apply settles_refl|].
    destruct (visual_cursor _ _ _) as [row col]. by apply settles_finish. }
  split_and!; try done; intros; try by apply settles_finish.
  - apply Hv.
  - unfold move_word_left. destruct (_ && _); [|by apply settles_finish].
    destruct (finish_navigation_marks (cursor s) extend s) as (sel & a & ->). by apply settles_marks.
Qed.

Lemma settles_insert characters s cr : editor_wf s -> settles s (fst (insert characters s cr)).
Proof.
  intros Hwf. unfold insert. destruct (delete_selection_view s Hwf) as (Hc & _ & _ & Hopt & _).
  assert (Ed : viewport_width (snd (delete_selection s)) = viewport_width s /\
    viewport_height (snd (delete_selection s)) = viewport_height s /\ paste (snd (delete_selection s)) = paste s)
    by (unfold delete_selection; by destruct (selection s)).
  destruct (delete_selection s) as [d s1]. cbn [snd] in *.
  pose proof (editor_insert_loop_spec characters s1 cr) as H. rewrite Hopt in H. specialize (H (wf_tab s Hwf) Hc).
  destruct (fold_left insert_character characters (s1, cr)) as [s2 cr2]. destruct H as (out & _ & (_ & _ & _ & E)).
  cbn [fst]. destruct Ed as (E1 & E2 & E3). apply settles_ensure; rewrite E; done.
Qed.

Lemma settles_backspace s : settles s (backspace s).
Proof.
  unfold backspace, delete_selection. destruct (selection s); apply settles_ensure; try done.
  all: destruct (0 <? column (cursor s)), (0 <? line (cursor s)); done.
Qed.

Lemma settles_delete_forward s : settles s (delete_forward s).
Proof.
  unfold delete_forward, delete_selection. destruct (selection s); apply settles_ensure; try done.
  all: destruct (column (cursor s) <? length (line_at (lines s) (line (cursor s)))),
    (line (cursor s) + 1 <? length (lines s)); done.
Qed.

Lemma settles_named_key named extend option command s :
  editor_wf s -> settles s (handle_named_key named extend option command s).
Proof.
  intros Hs. destruct (settles_motions extend s) as (Hh & Hb & Hr & Hv & Hp & Hl & Hw).
  destruct (settles_motions false s) as (_ & _ & _ & _ & Hp' & _).
  destruct named; cbn [handle_named_key]; try apply settles_refl;
    try (destruct command; [done|]); try (destruct option; [done|]);
    auto using settles_backspace, settles_delete_forward, settles_insert.
  all: destruct (_ && _); auto using settles_insert, settles_refl.
Qed.

Lemma settles_handle_key event s : editor_wf s -> settles s (handle_key event s).
Proof.
  intros Hs. unfold handle_key. destruct (_ || _); [apply settles_refl|]. destruct (key event) as [named|c].
  - destruct (is_modifier_key named); [apply settles_refl|]. by apply settles_named_key.
  - destruct (_ || _ || _ || _); [apply settles_refl|]. destruct (negb _); by apply settles_insert.
Qed.

Lemma settles_apply_command c s : settles s (apply_command c s).
Proof.
  destruct (settles_motions false s) as (Hh & Hb & Hr & Hv & Hp & Hl & Hw).
  destruct c; cbn [apply_command]; auto using settles_refl.
  destruct (has_input s); [by apply settles_marks|apply settles_refl].
Qed.

Lemma settles_update_selection event s : settles s (snd (editor_update_selection event s)).
Proof.
  assert (H : exists sel, snd (editor_update_selection event s) = s \/
    snd (editor_update_selection event s) = with_selection sel None s).
  { unfold editor_update_selection. destruct (event_type event); try (eexists; by right);
      try (destruct (negb (has_input s)); [eexists None; by left|eexists; by right]);
      destruct (map_character s (event_extent event)); try (eexists None; by left); try (eexists; by right);
      destruct (map_character s (event_anchor event)); try (eexists None; by left); try (eexists; by right). }
  destruct H as (sel & [->| ->]); [apply settles_refl|by apply settles_marks].
Qed.

Lemma settles_place_cursor p s : settles s (snd (place_cursor p s)).
Proof. unfold place_cursor. destruct (map_caret s p); [by apply settles_ensure|apply settles_refl]. Qed.

Lemma settles_scroll delta s : settles s (scroll_vertical delta s).
Proof.
  pose proof (scroll_ok_vertical delta s) as H. destruct (scroll_scrolls delta s) as [row E]. rewrite E in *.
  by split_and!.
Qed.

(** Operations that may change the viewport, the options or the paste. *)
Definition reconfigures (op : EditorOp) : bool :=
  match op with
  | SetViewport _ _ | SetFallbackWidth _ | ClearText | Paste _ => true
  | _ => false
  end.

Lemma settles_op op s : editor_wf s -> reconfigures op = false -> settles s (apply_op s op).
Proof.
  intros Hs Hop. destruct op; try done; cbn [apply_op].
  - by apply settles_insert.
  - by apply settles_handle_key.
  - unfold handle_text. case_bool_decide; [apply settles_refl|]. by apply settles_insert.
  - apply settles_apply_command.
  - apply settles_scroll.
  - apply settles_update_selection.
  - apply settles_place_cursor.
Qed.

(** [scroll_ok] of the restored state needs the viewport only. *)
Lemma restored_scroll_ok p s s' :
  viewport_width s' = viewport_width s -> viewport_height s' = viewport_height s ->
  scroll_ok (restored p s) -> scroll_ok (restored p s').
Proof. intros Ew Eh. unfold scroll_ok, visual_rows. cbn. by rewrite Ew, Eh. Qed.

(** ** The scroll invariant *)

(** The viewport is not changed while a paste is open. *)
Definition op_stable (s : Impl) (op : EditorOp) : Prop :=
  match op with
  | SetViewport _ _ => paste s = None
  | _ => True
  end.

Lemma scroll_inv_settles s s' : settles s s' -> scroll_inv s -> scroll_inv s'.
Proof.
  intros (Ew & Eh & _ & Ep & Hs) [H1 H2]. split; [by apply Hs|]. rewrite Ep. intros p Hp.
  by apply (restored_scroll_ok p s), H2.
Qed.

Lemma scroll_ok_frame s s' :
  lines s' = lines s -> cursor s' = cursor s -> scroll_row s' = scroll_row s ->
  viewport_width s' = viewport_width s -> viewport_height s' = viewport_height s -> scroll_ok s -> scroll_ok s'.
Proof. intros El Ec Es Ew Eh. unfold scroll_ok, visual_rows. by rewrite El, Ec, Es, Ew, Eh. Qed.

Lemma scroll_inv_handle_paste event s :
  editor_wf s -> scroll_inv s -> scroll_inv (snd (handle_paste event s)).
Proof.
  intros Hwf Hinv. pose proof Hinv as [H1 H2]. unfold handle_paste.
  destruct (paste_phase event), (paste s) as [p|] eqn:Ep; try exact Hinv.
  - split; [done|]. cbn. intros p [= <-]. done.
  - destruct (consume_utf8 _ false) as [cs pending]. pose proof (settles_insert cs s (preceding_cr p) Hwf) as Hi.
    destruct (insert cs s (preceding_cr p)) as [s1 cr]. cbn [fst snd] in *. destruct Hi as (Ew & Eh & Eo & Ep1 & Hs).
    split; [by apply (scroll_ok_frame s1); [..|apply Hs]|]. cbn. intros p' [= <-].
    apply (restored_scroll_ok p s); [done..|]. by apply H2.
  - destruct (consume_utf8 _ true) as [cs pending]. pose proof (settles_insert cs s (preceding_cr p) Hwf) as Hi.
    destruct (insert cs s (preceding_cr p)) as [s1 cr]. cbn [fst snd] in *. destruct Hi as (Ew & Eh & Eo & Ep1 & Hs).
    split; [by apply (scroll_ok_frame s1); [..|apply Hs]|done].
  - split; [|done]. cbn [snd]. eapply scroll_ok_frame; [..|apply (H2 p); done]; done.
Qed.

Lemma scroll_inv_op op s : editor_wf s -> op_stable s op -> scroll_inv s -> scroll_inv (apply_op s op).
Proof.
  intros Hwf Hst Hs. destruct (reconfigures op) eqn:Er; [|eapply scroll_inv_settles; [by apply settles_op|done]].
  destruct op; try done; cbn [apply_op].
  - cbn in Hst. assert (Ep : paste (set_viewport width height s) = None).
    { unfold set_viewport. destruct (clamp_scrolls (with_viewport width height s)) as [row ->].
      destruct (_ || _); [|done]. by destruct (ensure_scrolls (with_scroll row (with_viewport width height s))) as [row' ->]. }
    split; [|by rewrite Ep]. unfold set_viewport. destruct (_ || _); [apply scroll_ok_ensure|apply scroll_ok_clamp].
  - split; [|done]. intros Hw. cbn in Hw. lia.
  - by apply scroll_inv_handle_paste.
Qed.

(** Runs that leave the viewport alone during pastes. *)
Inductive stable_run : Impl -> list EditorOp -> Prop :=
  | stable_nil s : stable_run s []
  | stable_cons s op ops : op_stable s op -> stable_run (apply_op s op) ops -> stable_run s (op :: ops).

Lemma scroll_inv_run ops s : editor_wf s -> stable_run s ops -> scroll_inv s -> scroll_inv (run_ops ops s).
Proof.
  intros Hwf Hst. induction Hst as [|s op ops Hop _ IH]; intros Hs; [done|]. cbn.
  apply IH; [by apply wf_apply_op|by apply scroll_inv_op].
Qed.

Lemma scroll_inv_new o : scroll_inv (new_impl o).
Proof. split; [|done]. intros Hw. cbn in Hw. lia. Qed.

(** ** The caret is shown *)

Lemma ensure_shows_caret s :
  cursor_valid (lines s) (cursor s) -> 0 < viewport_width s -> 0 < viewport_height s ->
  let s' := ensure_cursor_visible s in
  let row := fst (visual_cursor s' (visual_rows s' (viewport_width s')) (viewport_width s')) in
  scroll_row s' <= row < scroll_row s' + viewport_height s'.
Proof.
  intros Hc Hw Hh. cbn zeta. pose proof (visual_cursor_row s _ Hw Hc) as Hrow. unfold ensure_cursor_visible.
  destruct (Nat.eqb_spec (viewport_width s) 0); [lia|]. destruct (Nat.eqb_spec (viewport_height s) 0); [lia|].
  cbn [orb]. destruct (visual_rows s (viewport_width s)) as [|r rows] eqn:E; [cbn in Hrow; lia|].
  cbn [viewport_width viewport_height with_scroll scroll_row].
  change (visual_rows (with_scroll ?n s) (viewport_width s)) with (visual_rows s (viewport_width s)).
  change (visual_cursor (with_scroll ?n s) ?rows ?w) with (visual_cursor s rows w). rewrite E.
  set (row := fst (visual_cursor s (r :: rows) (viewport_width s))) in *. unfold maximum_scroll.
  destruct (Nat.ltb_spec row (scroll_row s)), (Nat.leb_spec (scroll_row s + viewport_height s) row),
    (Nat.ltb_spec (viewport_height s) (length (r :: rows))); lia.
Qed.

(** The cell a row shows at a column. *)
Definition row_text (r : TextEditorRenderRow) : list Z := map fst (cells r).

(** The rendered viewport shows the caret, between the cells around it. *)
Definition shows_caret (s : Impl) : Prop :=
  exists row r,
    cursor_row (render_state s) = Some row /\ row < viewport_height s /\
    render_rows (render_state s) !! row = Some r /\
    logical_line r = line (cursor s) /\
    first_character r + cursor_column (render_state s) = column (cursor s) /\
    cursor_column (render_state s) <= length (cells r) /\ cursor_column (render_state s) < viewport_width s /\
    row_text r = take (length (cells r)) (drop (first_character r) (line_at (lines s) (line (cursor s)))).

Lemma render_row_text s width row :
  row ∈ visual_rows s width ->
  row_text (render_row s row) = slice (line_at (lines s) (row_line row)) row /\
  length (cells (render_row s row)) = row_length row.
Proof.
  intros Hr. apply visual_rows_in in Hr as (_ & _ & Hb & _). unfold row_text. cbn [cells render_row].
  split; [|by rewrite length_map, length_seq]. rewrite map_map. cbn [fst]. unfold slice.
  apply list_eq. intros i. destruct (decide (i < row_length row)) as [Hi|Hi].
  - rewrite lookup_take_lt, lookup_drop by done.
    change (map ?f ?l !! i) with ((f <$> l) !! i). rewrite list_lookup_fmap, lookup_seq_lt by done. cbn.
    destruct (lookup_lt_is_Some_2 (line_at (lines s) (row_line row)) (row_first row + i)) as [c Hc]; [lia|].
    by rewrite Hc.
  - rewrite !lookup_ge_None_2; [done|rewrite length_take; lia|rewrite length_map, length_seq; lia].
Qed.

Lemma shows_caret_intro s :
  cursor_valid (lines s) (cursor s) -> 0 < viewport_width s -> 0 < viewport_height s ->
  scroll_row s <= fst (visual_cursor s (visual_rows s (viewport_width s)) (viewport_width s))
    < scroll_row s + viewport_height s -> shows_caret s.
Proof.
  intros Hc Hw Hh. pose proof (visual_cursor_spec s _ Hw Hc) as Hspec. unfold shows_caret, render_state.
  destruct (visual_cursor s (visual_rows s (viewport_width s)) (viewport_width s)) as [row col].
  destruct Hspec as (r & Hr & El & Ecol & Hlen & Hcol). cbn [fst]. intros Hrow.
  destruct (Nat.eqb_spec (viewport_width s) 0); [lia|]. destruct (Nat.eqb_spec (viewport_height s) 0); [lia|].
  cbn [orb]. rewrite (proj2 (Nat.leb_le _ _)), (proj2 (Nat.ltb_lt _ _)) by lia. cbn [andb].
  cbn [cursor_row render_rows cursor_column]. exists (row - scroll_row s), (render_row s r).
  apply lookup_lt_Some in Hr as Hlt. apply list_elem_of_lookup_2 in Hr as Hin.
  destruct (render_row_text s _ r Hin) as [Et Elen].
  split_and!; [done|lia| |done|cbn; lia|by rewrite Elen|done|].
  - change (map ?f ?l !! ?i) with ((f <$> l) !! i). rewrite list_lookup_fmap, lookup_take_lt, lookup_drop.
    + replace (scroll_row s + (row - scroll_row s)) with row by lia. by rewrite Hr.
    + rewrite (proj2 (Nat.ltb_lt _ _)) by lia. lia.
  - rewrite Et, Elen, <- El. done.
Qed.

(** ** Defined runs *)

(** The operation reads no row out of range. *)
Definition op_defined (s : Impl) (op : EditorOp) : bool :=
  match op with Select event => selection_defined event s | _ => true end.

Fixpoint run_defined (s : Impl) (ops : list EditorOp) : bool :=
  match ops with
  | [] => true
  | op :: ops => op_defined s op && run_defined (apply_op s op) ops
  end.

Lemma scroll_inv_map_defined s p : editor_wf s -> scroll_inv s -> map_defined s p = true.
Proof.
  intros Hwf [Hok _]. unfold map_defined. destruct (Nat.eqb_spec (viewport_width s) 0) as [|Hw]; [done|].
  destruct (Nat.eqb_spec (viewport_height s) 0) as [|Hh]; [done|]. cbn [orb]. apply Z.ltb_lt.
  apply mapped_row_in_range; [done|lia|lia|].
  pose proof (visual_rows_nonempty s (viewport_width s) ltac:(lia) (wf_cursor _ Hwf)) as Hne.
  intros E. rewrite E in Hne. cbn in Hne. lia.
Qed.

Lemma stable_run_defined ops s : editor_wf s -> scroll_inv s -> stable_run s ops -> run_defined s ops = true.
Proof.
  intros Hwf Hinv Hst. revert Hwf Hinv. induction Hst as [|s op ops Hop _ IH]; intros Hwf Hinv; [done|].
  cbn [run_defined]. rewrite IH; [|by apply wf_apply_op|by apply scroll_inv_op]. rewrite andb_true_r.
  pose proof (fun p => scroll_inv_map_defined s p Hwf Hinv) as Hm.
  destruct op; try done. cbn. unfold selection_defined. rewrite !Hm. cbn [andb].
  destruct (event_type event); try done; by destruct (map_character s (event_extent event)).
Qed.
