(* ===== verification/EditorPaste.v ===== *)
(** * Pastes of the text editor

    A cancelled paste restores the state it began in; a paste cut into any
    chunks inserts what its concatenation inserts. *)
From S2P Require Import Prelude.
From S2P Require Import Utf8.
From S2P Require Import Events.
From S2P Require Import Tui.
From S2P Require Import TextEditor.
From S2P Require Import EditorRows.
From S2P Require Import EditorText.
From S2P Require Import EditorMotion.
From S2P Require Import EditorInvariant.
Open Scope nat_scope.

(** ** Cancelled pastes *)

Definition same_snapshot (p q : PasteTransaction) : Prop :=
  with_stream [] false p = with_stream [] false q.

(** [s1] is inside the paste that began in [s]. *)
Definition pasting_from (s s1 : Impl) : Prop :=
  viewport_width s1 = viewport_width s /\ viewport_height s1 = viewport_height s /\ options s1 = options s /\
  exists p, paste s1 = Some p /\ same_snapshot p (begin_paste s).

(** Everything but resizing, clearing and ending the paste. *)
Definition during_paste (op : EditorOp) : bool :=
  match op with
  | SetViewport _ _ | SetFallbackWidth _ | ClearText => false
  | Paste event =>
      match paste_phase event with PastePhases.END | PastePhases.CANCEL => false | _ => true end
  | _ => true
  end.

Lemma pasting_from_op s s1 op :
  editor_wf s1 -> pasting_from s s1 -> during_paste op = true -> pasting_from s (apply_op s1 op).
Proof.
  intros Hwf (Ew & Eh & Eo & p & Ep & Hp) Hop. destruct (reconfigures op) eqn:Er.
  - destruct op; try done. cbn [during_paste apply_op] in *. unfold handle_paste. rewrite Ep.
    destruct (paste_phase event); try done.
    + cbn [snd]. split_and!; try done. by exists p.
    + destruct (consume_utf8 _ false) as [cs pending]. pose proof (settles_insert cs s1 (preceding_cr p) Hwf) as Hi.
      destruct (insert cs s1 (preceding_cr p)) as [s2 cr]. destruct Hi as (Ew2 & Eh2 & Eo2 & _ & _). cbn [fst] in *.
      split_and!; [by cbn; rewrite Ew2|by cbn; rewrite Eh2|by cbn; rewrite Eo2|]. by exists (with_stream pending cr p).
  - destruct (settles_op op s1 Hwf Er) as (Ew2 & Eh2 & Eo2 & Ep2 & _).
    split_and!; [by rewrite Ew2|by rewrite Eh2|by rewrite Eo2|]. exists p. by rewrite Ep2.
Qed.

Lemma pasting_from_run s ops s1 :
  editor_wf s1 -> pasting_from s s1 -> Forall (fun op => during_paste op = true) ops ->
  pasting_from s (run_ops ops s1).
Proof.
  intros Hwf Hp Hops. revert s1 Hwf Hp. induction Hops as [|op ops Hop _ IH]; intros s1 Hwf Hp; [done|].
  cbn. apply IH; [by apply wf_apply_op|by apply pasting_from_op].
Qed.

Definition paste_event (phase : PastePhase) (data : bytes) : EditorOp :=
  Paste {| paste_phase := phase; paste_data := data |}.

Lemma cancel_restores s s1 :
  paste s = None -> pasting_from s s1 -> apply_op s1 (paste_event PastePhases.CANCEL []) = s.
Proof.
  intros Hs (Ew & Eh & Eo & p & Ep & Hp). cbn. rewrite Ep. cbn [snd].
  unfold same_snapshot, with_stream, begin_paste in Hp. injection Hp as E1 E2 E3 E4 E5 E6 E7.
  unfold with_paste, with_desired, with_scroll, with_selection, with_text. cbn.
  rewrite Ew, Eh, Eo, E1, E2, E3, E4, E5, E6, E7. by destruct s; cbn in *; subst.
Qed.

(** ** Chunked pastes *)

(** States that insert alike. *)
Definition same_text (s1 s2 : Impl) : Prop :=
  options s1 = options s2 /\ viewport_width s1 = viewport_width s2 /\ lines s1 = lines s2 /\ cursor s1 = cursor s2.

Lemma same_text_with ls c s1 s2 : same_text s1 s2 -> same_text (with_text ls c s1) (with_text ls c s2).
Proof. intros (? & ? & _ & _). by split_and!. Qed.

Lemma materialize_same index s1 s2 :
  same_text s1 s2 -> same_text (materialize_word_wraps index s1) (materialize_word_wraps index s2).
Proof.
  intros Hs. pose proof Hs as (Eo & Ew & El & Ec). unfold materialize_word_wraps, editable_width. rewrite Eo, Ew, El, Ec.
  destruct (materialize_loop _ _ _ _ _ _) as [ls c]. by apply same_text_with.
Qed.

Lemma insert_at_cursor_same cs s1 s2 :
  same_text s1 s2 -> same_text (insert_at_cursor cs s1) (insert_at_cursor cs s2).
Proof. intros Hs. pose proof Hs as (_ & _ & El & Ec). unfold insert_at_cursor. rewrite El, Ec. by apply same_text_with. Qed.

Lemma break_line_same s1 s2 : same_text s1 s2 -> same_text (break_line s1) (break_line s2).
Proof. intros Hs. pose proof Hs as (_ & _ & El & Ec). unfold break_line. rewrite El, Ec. by apply same_text_with. Qed.

Lemma insert_character_same c cr s1 s2 :
  same_text s1 s2 ->
  same_text (fst (insert_character (s1, cr) c)) (fst (insert_character (s2, cr) c)) /\
  snd (insert_character (s1, cr) c) = snd (insert_character (s2, cr) c).
Proof.
  intros Hs. pose proof Hs as (Eo & _ & _ & Ec). unfold insert_character. rewrite Eo, Ec.
  destruct (_ && cr); [done|]. destruct (_ || _); [split; [by apply break_line_same|done]|].
  destruct (c =? TABULATOR)%Z; [split; [by apply materialize_same, insert_at_cursor_same|done]|].
  destruct (_ || _); [done|]. split; [|done]. cbn [fst].
  pose proof (insert_at_cursor_same [c] s1 s2 Hs) as Hi. pose proof Hi as (_ & _ & _ & Ec'). rewrite Ec'.
  by apply materialize_same.
Qed.

Lemma insert_loop_same cs cr s1 s2 :
  same_text s1 s2 ->
  same_text (fst (fold_left insert_character cs (s1, cr))) (fst (fold_left insert_character cs (s2, cr))) /\
  snd (fold_left insert_character cs (s1, cr)) = snd (fold_left insert_character cs (s2, cr)).
Proof.
  revert cr s1 s2. induction cs as [|c cs IH]; intros cr s1 s2 Hs; [done|]. cbn [fold_left].
  destruct (insert_character_same c cr s1 s2 Hs) as [Hs' E].
  destruct (insert_character (s1, cr) c) as [t1 cr1], (insert_character (s2, cr) c) as [t2 cr2].
  cbn [fst snd] in *. subst. by apply IH.
Qed.

Lemma with_text_twice ls c ls' c' s : with_text ls c (with_text ls' c' s) = with_text ls c s.
Proof. done. Qed.

Lemma insert_character_text acc c : exists ls cu, fst (insert_character acc c) = with_text ls cu (fst acc).
Proof.
  assert (Hid : forall s, s = with_text (lines s) (cursor s) s) by (by intros []).
  assert (Hm : forall i s, exists ls cu, materialize_word_wraps i s = with_text ls cu s).
  { intros i s. unfold materialize_word_wraps. destruct (materialize_loop _ _ _ _ _ _). by eexists _, _. }
  destruct acc as [s cr]. unfold insert_character. destruct (_ && cr); [by eexists _, _|].
  destruct (_ || _); [by eexists _, _|]. destruct (c =? TABULATOR)%Z.
  - cbn [fst]. match goal with |- context [materialize_word_wraps ?i ?s] => destruct (Hm i s) as (ls & cu & ->) end.
    by eexists _, _.
  - destruct (_ || _); [by eexists _, _|]. cbn [fst].
    match goal with |- context [materialize_word_wraps ?i ?s] => destruct (Hm i s) as (ls & cu & ->) end.
    by eexists _, _.
Qed.

Lemma insert_loop_text cs acc : exists ls cu, fst (fold_left insert_character cs acc) = with_text ls cu (fst acc).
Proof.
  revert acc. induction cs as [|c cs IH]; intros acc; cbn [fold_left].
  - exists (lines (fst acc)), (cursor (fst acc)). by destruct acc as [[] ?].
  - destruct (IH (insert_character acc c)) as (ls & cu & ->), (insert_character_text acc c) as (ls' & cu' & ->).
    by eexists _, _.
Qed.

(** Equal but for the scroll offset and the paste transaction. *)
Definition alike (s1 s2 : Impl) : Prop :=
  with_paste None (with_scroll 0 s1) = with_paste None (with_scroll 0 s2).

#[global] Instance alike_equivalence : Equivalence alike.
Proof. split; [by intros s|by intros s1 s2 H; symmetry|intros s1 s2 s3 H1 H2; exact (eq_trans H1 H2)]. Qed.

Lemma alike_ensure s : alike (ensure_cursor_visible s) s.
Proof. by destruct (ensure_scrolls s) as [row ->]. Qed.

(** [insert] up to the scroll offset: the loop's text and dropped marks. *)
Definition inserted_core (cs : list Z) (s : Impl) (cr : bool) : Impl :=
  forget_column (with_selection None None (fst (fold_left insert_character cs (snd (delete_selection s), cr)))).

Lemma insert_alike cs s cr :
  alike (fst (insert cs s cr)) (inserted_core cs s cr) /\
  snd (insert cs s cr) = snd (fold_left insert_character cs (snd (delete_selection s), cr)).
Proof.
  unfold insert, inserted_core. destruct (delete_selection s) as [d s1]. cbn [snd].
  destruct (fold_left insert_character cs (s1, cr)) as [s2 cr2]. cbn [fst snd]. split; [apply alike_ensure|done].
Qed.

Lemma alike_paste p s : alike (with_paste p s) s.
Proof. done. Qed.

Lemma alike_same_text s1 s2 : alike s1 s2 -> same_text s1 s2.
Proof. destruct s1, s2. unfold alike, with_paste, with_scroll. cbn. intros [= -> -> -> -> -> -> -> -> ->]. by split_and!. Qed.

(** Dropping the marks of states with the same text and column memory. *)
Lemma alike_dropped ls c s1 s2 :
  alike (with_selection None None (forget_column s1)) (with_selection None None (forget_column s2)) ->
  alike (forget_column (with_selection None None (with_text ls c s1)))
        (forget_column (with_selection None None (with_text ls c s2))).
Proof. destruct s1, s2. unfold alike, forget_column. cbn. intros [= -> -> -> -> -> ->]. done. Qed.

Lemma dropped_loop cs cr s1 s2 :
  same_text s1 s2 ->
  alike (with_selection None None (forget_column s1)) (with_selection None None (forget_column s2)) ->
  alike (forget_column (with_selection None None (fst (fold_left insert_character cs (s1, cr)))))
        (forget_column (with_selection None None (fst (fold_left insert_character cs (s2, cr))))) /\
  snd (fold_left insert_character cs (s1, cr)) = snd (fold_left insert_character cs (s2, cr)).
Proof.
  intros Hs Ha. destruct (insert_loop_same cs cr s1 s2 Hs) as [(_ & _ & El & Ec) Ecr]. split; [|done].
  destruct (insert_loop_text cs (s1, cr)) as (ls1 & c1 & E1), (insert_loop_text cs (s2, cr)) as (ls2 & c2 & E2).
  rewrite E1, E2 in *. cbn [lines cursor with_text fst] in *. subst. by apply alike_dropped.
Qed.

(** [t] is [s] with [chars] inserted, as far as later insertions can tell. *)
Definition follows (s : Impl) (chars : list Z) (t : Impl) (cr : bool) : Prop :=
  forall cs, alike (inserted_core cs t cr) (inserted_core (chars ++ cs) s false) /\
    snd (fold_left insert_character cs (snd (delete_selection t), cr)) =
    snd (fold_left insert_character (chars ++ cs) (snd (delete_selection s), false)).

Lemma follows_start s p : follows s [] (with_paste p s) false.
Proof.
  intros cs. cbn [app]. unfold inserted_core. apply dropped_loop.
  - unfold delete_selection. cbn [selection with_paste]. by destruct (selection s).
  - unfold delete_selection. cbn [selection with_paste]. by destruct (selection s).
Qed.

Lemma follows_insert s chars t cr a p :
  follows s chars t cr ->
  follows s (chars ++ a) (with_paste p (fst (insert a t cr))) (snd (insert a t cr)).
Proof.
  intros Hf cs. destruct (insert_alike a t cr) as [Ha Ecr]. rewrite Ecr.
  specialize (Hf (a ++ cs)) as [H1 H2]. rewrite <- app_assoc.
  set (u := fst (insert a t cr)) in *.
  assert (Hsel : selection u = None).
  { unfold alike, inserted_core in Ha. apply (f_equal selection) in Ha. exact Ha. }
  assert (Ed : delete_selection (with_paste p u) = (false, with_paste p u)) by (unfold delete_selection; cbn; by rewrite Hsel).
  unfold inserted_core in Ha, H1. rewrite fold_left_app in H1, H2.
  destruct (fold_left insert_character a (snd (delete_selection t), cr)) as [v cr1]. cbn [fst snd] in *.
  unfold inserted_core. rewrite Ed. cbn [snd].
  destruct (dropped_loop cs cr1 (with_paste p u) v) as [Hd1 Hd2].
  - apply alike_same_text in Ha. exact Ha.
  - revert Ha. destruct u, v. unfold alike, forget_column. cbn. intros [= -> -> -> -> -> -> -> -> ->]. done.
  - split; [exact (transitivity Hd1 H1)|by rewrite Hd2].
Qed.

Lemma paste_rest s ds t p chars :
  paste t = Some p -> follows s chars t (preceding_cr p) ->
  let t' := run_ops (map (paste_event PastePhases.DATA) ds ++ [paste_event PastePhases.END []]) t in
  paste t' = None /\ alike t' (inserted_core (chars ++ decode_utf8 (pending_utf8 p ++ concat ds)) s false).
Proof.
  revert t p chars. induction ds as [|d ds IH]; intros t p chars Ep Hf.
  - cbn [map app run_ops fold_left apply_op paste_event]. unfold handle_paste. rewrite Ep. cbn [paste_phase].
    rewrite app_nil_r. unfold decode_utf8. destruct (consume_utf8 (pending_utf8 p) true) as [cs pending]. cbn [fst].
    destruct (insert_alike cs t (preceding_cr p)) as [Ha _]. destruct (insert cs t (preceding_cr p)) as [t1 cr].
    cbn [snd fst] in *. split; [done|]. rewrite <- (proj1 (Hf cs)). exact Ha.
  - destruct (consume_utf8 (pending_utf8 p ++ d) false) as [cs pending] eqn:Ecs.
    destruct (insert cs t (preceding_cr p)) as [t1 cr] eqn:Ei.
    assert (Estep : apply_op t (paste_event PastePhases.DATA d) = with_paste (Some (with_stream pending cr p)) t1).
    { cbn. by rewrite Ep, Ecs, Ei. }
    pose proof (follows_insert s chars t (preceding_cr p) cs (Some (with_stream pending cr p)) Hf) as Hf1.
    rewrite Ei in Hf1. cbn [fst snd] in Hf1.
    specialize (IH (with_paste (Some (with_stream pending cr p)) t1) (with_stream pending cr p) (chars ++ cs) eq_refl Hf1).
    cbn [pending_utf8 with_stream] in IH. destruct IH as [H1 H2].
    cbn [map app]. unfold run_ops in *. cbn [fold_left]. rewrite Estep. split; [exact H1|].
    unfold decode_utf8 in *. cbn [concat]. rewrite app_assoc, consume_utf8_chunks, Ecs. cbn [fst snd].
    by rewrite (app_assoc chars).
Qed.

Definition paste_ops (ds : list bytes) : list EditorOp :=
  paste_event PastePhases.BEGIN [] :: map (paste_event PastePhases.DATA) ds ++ [paste_event PastePhases.END []].

