(* ===== verification/EditorProps.v ===== *)
(** * Theorems on the text editor (puc-cli/tui/text_input/text_editor_utils.cpp)

    What the editor promises to the frames that own one, stated over
    TextEditor.v and proved from EditorRows.v, EditorText.v, EditorMotion.v,
    EditorInvariant.v and EditorPaste.v. *)
From S2P Require Import Prelude.
From S2P Require Import Text.
From S2P Require Import Utf8.
From S2P Require Import Events.
From S2P Require Import Tui.
From S2P Require Import Selection.
From S2P Require Import TextEditor.
From S2P Require Import EditorRows.
From S2P Require Import EditorText.
From S2P Require Import EditorMotion.
From S2P Require Import EditorInvariant.
From S2P Require Import EditorPaste.
From Stdlib Require Import Sorted.
Open Scope nat_scope.

(** ** The editor as a selectable frame *)

(** TextInputFrame forwards its selection interface to its editor. *)
#[export] Instance editor_selectable : SelectableFrame Impl := {|
  is_selectable _ := true;
  update_selection := editor_update_selection;
  frame_selected_text := editor_selected_text;
|}.

Lemma update_selection_ok event s s' status :
  editor_update_selection event s = (status, s') -> status <> OK -> s' = s.
Proof.
  unfold editor_update_selection. destruct (event_type event);
    repeat match goal with
    | |- context [match map_character ?s ?p with _ => _ end] => destruct (map_character s p)
    | |- context [if ?b then _ else _] => destruct b
    end; by intros [= <- <-].
Qed.

#[export] Instance editor_selectable_laws : SelectableFrameLaws Impl.
Proof.
  refine {| has_range s := bool_decide (is_Some (selection s)) |}.
  - intros event f status f' E Hne. by eapply update_selection_ok.
  - intros event f f' Et. cbn. unfold editor_update_selection. rewrite Et. by intros [= <-].
  - intros f Hn. cbn in *. apply bool_decide_eq_false in Hn. unfold editor_selected_text.
    destruct (selection f); [|done]. destruct Hn. by eexists.
Defined.

(** ** Operations that leave the caret in view *)

Inductive reveals : (Impl -> Impl) -> Prop :=
  | reveals_insert t : reveals (insert_utf8 t)
  | reveals_backspace : reveals backspace
  | reveals_delete : reveals delete_forward
  | reveals_horizontal right extend : reveals (move_horizontal right extend)
  | reveals_vertical delta extend : reveals (move_vertical delta extend)
  | reveals_row_boundary to_end extend : reveals (move_row_boundary to_end extend)
  | reveals_buffer_boundary to_end extend : reveals (move_buffer_boundary to_end extend)
  | reveals_word_right extend : reveals (move_word_right extend).

Lemma reveals_frame f s : editor_wf s -> reveals f -> editor_wf (f s) /\ settles s (f s).
Proof.
  intros Hs Hf. destruct Hf;
    try (destruct (wf_motions extend s Hs) as (? & ? & ? & ? & ? & ? & ?));
    try (destruct (settles_motions extend s) as (? & ? & ? & ? & ? & ? & ?)); auto.
  - split; [by apply wf_insert|by apply settles_insert].
  - auto using wf_backspace, settles_backspace.
  - auto using wf_delete_forward, settles_delete_forward.
Qed.

Lemma reveals_ensure f s : editor_wf s -> reveals f -> exists s1, f s = ensure_cursor_visible s1.
Proof.
  intros Hs Hf. destruct Hf; try by eexists.
  - unfold insert_utf8, insert. destruct (delete_selection s) as [d s1].
    destruct (fold_left insert_character _ (s1, false)) as [s2 cr]. by eexists.
  - unfold backspace. destruct (delete_selection s) as [[|] s1]; by eexists.
  - unfold delete_forward. destruct (delete_selection s) as [[|] s1]; by eexists.
  - unfold move_vertical. pose proof (visual_rows_nonempty s _ (editable_width_positive s Hs) (wf_cursor s Hs)) as Hne.
    destruct (visual_rows s (editable_width s)) as [|r rows]; [cbn in Hne; lia|].
    destruct (visual_cursor s (r :: rows) (editable_width s)) as [row col]. by eexists.
Qed.

(** ** Words and rows *)

(** The row of a line ends inside a word only when the word fills it. *)
Definition breaks_no_word (l : list Z) (width : nat) (r : VisualRow) : Prop :=
  forall c d, l !! (row_first r + row_length r - 1) = Some c -> l !! (row_first r + row_length r) = Some d ->
    c <> SPACE -> d <> SPACE -> row_length r = width /\ Forall (fun x => x <> SPACE) (slice l r).

Lemma wrap_line_words l index width fuel first :
  0 < width -> Forall (breaks_no_word l width) (wrap_line fuel l index width first).
Proof.
  intros Hw. revert first. induction fuel as [|fuel IH]; intros first; cbn [wrap_line]; [constructor|].
  destruct (Nat.ltb_spec first (length l)) as [Hlt|]; [|constructor]. constructor; [|apply IH].
  intros c d Hc Hd Hnc Hnd. cbn [row_first row_length] in *.
  destruct (visual_length_words l width first c d Hw Hlt Hc Hd Hnc Hnd) as [E Hno]. split; [done|].
  apply Forall_lookup. intros i x Hx. unfold slice in Hx. cbn [row_first row_length] in Hx.
  apply lookup_take_some in Hx as [Hi Hx]. rewrite lookup_drop in Hx. intros ->. apply (Hno (first + i)); [lia|done].
Qed.

Lemma line_rows_words l index width c : 0 < width -> Forall (breaks_no_word l width) (line_rows l index width c).
Proof.
  intros Hw. unfold line_rows. destruct l as [|x l]; [constructor; [|constructor]; by intros ? ? ?|].
  apply Forall_app. split; [by apply wrap_line_words|]. unfold caret_row. destruct (last _); [|constructor].
  destruct (_ && _ && _ && _); constructor; [|constructor].
  intros c1 d _ Hd. cbn [row_first row_length] in Hd. apply lookup_lt_Some in Hd. lia.
Qed.

(** The wrapped rows of a buffer: line by line, the rows put together are
    the line; every row fits the width and lies inside its line; the rows come
    in reading order; and a row ends inside a word only when that word alone
    fills the row. *)
Theorem visual_rows_tile_the_lines s width :
  0 < width ->
  let rows := visual_rows s width in
  (forall i, i < length (lines s) ->
     flat_map (slice (line_at (lines s) i)) (filter (fun r => row_line r = i) rows) = line_at (lines s) i) /\
  (forall r, r ∈ rows -> row_line r < length (lines s) /\ row_length r <= width /\
     row_first r + row_length r <= length (line_at (lines s) (row_line r)) /\
     breaks_no_word (line_at (lines s) (row_line r)) width r) /\
  StronglySorted row_before rows.
Proof.
  intros Hw. cbn zeta. rewrite visual_rows_positive by done.
  destruct (rows_from_spec (lines s) 0 width (cursor s) Hw) as (Hf & Hin & Hs & _). split_and!; [| |done].
  - intros i Hi. specialize (Hf i Hi). cbn in Hf. rewrite Hf. by apply line_rows_spec.
  - intros r Hr. destruct (Hin r Hr) as (Hl & _ & Hb & Hlen). rewrite Nat.sub_0_r in *. split_and!; [lia|done|done|].
    specialize (Hf (row_line r) ltac:(lia)). cbn in Hf.
    pose proof (line_rows_words (line_at (lines s) (row_line r)) (row_line r) width (cursor s) Hw) as Hall.
    rewrite Forall_forall in Hall. apply Hall. rewrite <- Hf. by apply list_elem_of_filter.
Qed.

(** ** Every reachable editor *)

(** C38. Whatever operations a frame applies to a new editor, in whatever order and
    inside or outside a paste: as long as no selection event reads a row out of
    range, the caret, the selection's ordered ends, the keyboard anchor and
    everything an open paste would restore are positions of the buffer, and the
    wrap widths are positive. No row is read out of range when the viewport is
    left alone while a paste is open. *)
Theorem editor_always_well_formed supplied ops :
  (run_defined (new_impl supplied) ops = true -> editor_wf (run_ops ops (new_impl supplied))) /\
  (stable_run (new_impl supplied) ops ->
   run_defined (new_impl supplied) ops = true /\ editor_wf (run_ops ops (new_impl supplied))).
Proof.
  pose proof (wf_run_ops ops (new_impl supplied) (wf_new supplied)) as Hwf. split; [done|]. intros Hst.
  split; [|exact Hwf]. apply stable_run_defined; [apply wf_new|apply scroll_inv_new|exact Hst].
Qed.

(** While the viewport is left alone during pastes, the scroll offset never
    passes the last full viewport, so the row that a pointer position is mapped
    to exists. *)
Theorem editor_scroll_in_range supplied ops p :
  stable_run (new_impl supplied) ops ->
  let s := run_ops ops (new_impl supplied) in
  scroll_ok s /\
  (0 < viewport_width s -> 0 < viewport_height s ->
   (0 <= mapped_row s (visual_rows s (viewport_width s)) p < Z.of_nat (length (visual_rows s (viewport_width s))))%Z).
Proof.
  intros Hst. cbn zeta. pose proof (wf_run_ops ops (new_impl supplied) (wf_new supplied)) as Hwf.
  destruct (scroll_inv_run ops (new_impl supplied) (wf_new supplied) Hst (scroll_inv_new supplied)) as [Hok _].
  split; [done|]. intros Hw Hh. apply mapped_row_in_range; [done..|].
  pose proof (visual_rows_nonempty _ _ Hw (wf_cursor _ Hwf)) as Hne. by intros E; rewrite E in Hne; cbn in Hne; lia.
Qed.

(** Resizing during a paste and cancelling it leaves a scroll offset beyond
    the restored buffer: the next selection reads a row out of range. *)
Definition stale_ops : list EditorOp :=
  [SetViewport 2 1; InsertText (json "aaaaaaaaaaaaaaaa"); paste_event PastePhases.BEGIN [];
   SetViewport 8 1; paste_event PastePhases.CANCEL []].

Example cancelled_paste_keeps_stale_scroll :
  let supplied := {| tab_width := 4; fallback_width := 20; reserve_plain_enter := false |} in
  let s := run_ops stale_ops (new_impl supplied) in
  length (visual_rows s (viewport_width s)) < scroll_row s /\ map_defined s origin = false /\
  run_defined (new_impl supplied) (stale_ops ++ [Select {| event_type := SELECT_WORD; event_anchor := origin; event_extent := origin |}])
    = false.
Proof. vm_compute. repeat split; lia. Qed.

(** Insertion, deletion and every motion but a leftward word motion leave the
    caret inside the viewport: the published rows contain the caret's row, its
    cells are the characters of the caret's line, and the published column is
    the caret's. *)
Theorem edits_show_the_caret s f :
  editor_wf s -> 0 < viewport_width s -> 0 < viewport_height s -> reveals f -> shows_caret (f s).
Proof.
  intros Hs Hw Hh Hf. destruct (reveals_frame f s Hs Hf) as [Hwf (Ew & Eh & _)].
  apply shows_caret_intro; [by apply wf_cursor|by rewrite Ew|by rewrite Eh|].
  apply wf_cursor in Hwf. destruct (reveals_ensure f s Hs Hf) as [s1 E]. rewrite E in *.
  destruct (ensure_scrolls s1) as [row Er].
  apply ensure_shows_caret; rewrite Er in *; cbn in *; [done|lia|lia].
Qed.

(** Backspace and forward delete on the flat text: a selection is removed as a
    whole and the caret is left at its start; without one, one character (or
    one line break) before or behind the caret is removed, and at the ends of
    the buffer nothing is. *)
Theorem editor_deletes_ranges s :
  editor_wf s ->
  flat_text (backspace s) = cut (backspace_range s) (flat_text s) /\
  caret (backspace s) = fst (backspace_range s) /\
  flat_text (delete_forward s) = cut (delete_range s) (flat_text s) /\
  caret (delete_forward s) = fst (delete_range s) /\
  selection (backspace s) = None /\ selection (delete_forward s) = None.
Proof.
  intros Hs. destruct (backspace_spec s Hs) as (_ & -> & ->), (delete_forward_spec s Hs) as (_ & -> & ->).
  split_and!; [done..|apply backspace_frame|apply delete_forward_frame].
Qed.

(** C39. Inserting text replaces the selected range by the normalised text (line
    breaks unified, tabs expanded, control characters dropped) and leaves the
    caret behind it; apart from that the buffer only has spaces that became line
    breaks. The result is exactly that of typing the characters one by one in
    the buffer without the selected range, which has one result: a tab stands
    for the spaces up to the next multiple of the tab width, and after a tab or
    a plain character the caret's line is cut at the space before the first word
    that does not fit its row, again and again, and nowhere else. *)
Theorem editor_inserts_text s t :
  editor_wf s ->
  let s' := insert_utf8 t s in
  exists out cr,
    normal_text (tab_width (options s)) false (decode_utf8 t) out cr /\
    wrapped_text (splice (insert_range s) out (flat_text s)) (flat_text s') /\
    caret s' = fst (insert_range s) + length out /\ selection s' = None /\
    exists cut_lines cut_cursor,
      flat cut_lines = cut (insert_range s) (flat_text s) /\ offset cut_lines cut_cursor = fst (insert_range s) /\
      (selection s = None -> cut_lines = lines s /\ cut_cursor = cursor s) /\
      typed_text (tab_width (options s)) (editable_width s) (decode_utf8 t) false (cut_lines, cut_cursor) cr
        (lines s', cursor s') /\
      (forall cr' b, typed_text (tab_width (options s)) (editable_width s) (decode_utf8 t) false (cut_lines, cut_cursor) cr' b ->
         b = (lines s', cursor s')).
Proof.
  intros Hs. pose proof (editor_insert_spec (decode_utf8 t) s false Hs) as H. pose proof (insert_frame (decode_utf8 t) s false Hs) as Hf.
  pose proof (editor_insert_typed (decode_utf8 t) s false Hs) as Ht.
  unfold insert_utf8. destruct (insert (decode_utf8 t) s false) as [s' cr]. destruct H as (out & Hn & Hw & Hc & _).
  destruct (delete_selection_view s Hs) as (_ & Ho & Hcut & _).
  exists out, cr. split; [done|]. split; [done|]. split; [done|]. split; [by apply Hf|].
  exists (lines (snd (delete_selection s))), (cursor (snd (delete_selection s))).
  split; [exact Hcut|]. split; [exact Ho|]. split; [intros Hsel; by rewrite delete_selection_none|]. split; [exact Ht|].
  intros cr' b Hb. eapply typed_text_functional; [by apply editable_width_positive|exact Hb|exact Ht].
Qed.

(** Caret motions on the flat text: sideways by one character over line
    breaks, to the two ends of the buffer, and by words; the text is unchanged
    and an extending motion selects the text between the anchor and the new
    caret, any other motion drops the selection. *)
Theorem editor_moves_the_caret s extend :
  editor_wf s ->
  let selects s' := let a := offset (lines s) (motion_anchor s) in
    flat_text s' = flat_text s /\
    selected_offsets s' =
      if extend && negb (a =? caret s') then Some (Nat.min a (caret s'), Nat.max a (caret s')) else None in
  selects (move_horizontal true extend s) /\
  caret (move_horizontal true extend s) = Nat.min (S (caret s)) (length (flat_text s)) /\
  selects (move_horizontal false extend s) /\ caret (move_horizontal false extend s) = caret s - 1 /\
  selects (move_buffer_boundary true extend s) /\
  caret (move_buffer_boundary true extend s) = length (flat_text s) /\
  selects (move_buffer_boundary false extend s) /\ caret (move_buffer_boundary false extend s) = 0 /\
  selects (move_word_left extend s) /\ word_left (flat_text s) (caret s) (caret (move_word_left extend s)) /\
  selects (move_word_right extend s) /\ word_right (flat_text s) (caret s) (caret (move_word_right extend s)).
Proof.
  intros Hs. cbn zeta. pose proof (wf_cursor s Hs) as Hc.
  assert (Hm : forall c s', moved extend s c s' -> caret s' = offset (lines s) c /\
    flat_text s' = flat_text s /\
    selected_offsets s' = let a := offset (lines s) (motion_anchor s) in
      if extend && negb (a =? caret s') then Some (Nat.min a (caret s'), Nat.max a (caret s')) else None).
  { intros c s' H. destruct (moved_offsets extend s c s' H) as (H1 & H2 & H3). cbn zeta. by rewrite H2. }
  destruct (Hm _ _ (move_horizontal_moved true extend s Hs)) as (Er & Sr),
    (Hm _ _ (move_horizontal_moved false extend s Hs)) as (El & Sl),
    (Hm _ _ (move_buffer_boundary_moved true extend s Hs)) as (Ee & Se),
    (Hm _ _ (move_buffer_boundary_moved false extend s Hs)) as (Es & Ss),
    (move_word_left_spec extend s Hs) as (cl & _ & Hl & Hwl), (move_word_right_spec extend s Hs) as (cr & _ & Hr & Hwr).
  apply Hm in Hl as (Ewl & Swl). apply Hm in Hr as (Ewr & Swr). rewrite <- Ewl in Hwl. rewrite <- Ewr in Hwr.
  split_and!; try apply Sr; try apply Sl; try apply Se; try apply Ss; try apply Swl; try apply Swr; try done.
  - rewrite Er. by apply horizontal_target_spec.
  - rewrite El. by apply horizontal_target_spec.
  - rewrite Ee. by apply buffer_end_spec.
Qed.

(** The text a selecting frame hands out is the UTF-8 of the flat text between
    the selection's ends; selecting all hands out the whole buffer. *)
Theorem editor_selected_text_spec s :
  editor_wf s ->
  frame_selected_text s =
    match selected_offsets s with
    | Some (a, b) => (OK, encode_utf8 (between a b (flat_text s)))
    | None => (NO_SELECTION, [])
    end /\
  (has_input s = true ->
   frame_selected_text (snd (update_selection (plain_event SELECT_ALL) s)) = (OK, text s)).
Proof.
  intros Hs. cbn [frame_selected_text update_selection editor_selectable].
  assert (H : forall s, editor_wf s -> editor_selected_text s =
    match selected_offsets s with
    | Some (a, b) => (OK, encode_utf8 (between a b (flat_text s)))
    | None => (NO_SELECTION, [])
    end).
  { clear. intros s Hs. unfold editor_selected_text, selected_offsets. destruct (selection s) as [r|] eqn:E; [|done].
    cbn. by rewrite selected_lines_spec by (by apply (wf_marks s Hs)). }
  split; [by apply H|]. intros Hin. rewrite H by (by apply wf_update_selection).
  unfold editor_update_selection, plain_event. cbn [event_type]. rewrite Hin. cbn [negb snd].
  change (selected_offsets (with_selection (Some (whole_buffer s)) None s)) with (Some (0, offset (lines s) (buffer_end s))).
  destruct (buffer_end_spec s (wf_cursor s Hs)) as [_ ->]. unfold text. rewrite join_lines_flat. do 2 f_equal.
  unfold between. rewrite Nat.sub_0_r, drop_0. by apply take_ge.
Qed.

(** ** Pastes *)

(** Cancelling a paste restores the editor exactly: text, caret, selection,
    anchor, scroll offset and column memory, whatever was pasted, typed,
    selected or scrolled meanwhile. *)
Theorem cancelled_paste_restores s ops :
  editor_wf s -> paste s = None -> Forall (fun op => during_paste op = true) ops ->
  run_ops (paste_event PastePhases.BEGIN [] :: ops ++ [paste_event PastePhases.CANCEL []]) s = s.
Proof.
  intros Hs Hp Hops. unfold run_ops. cbn [fold_left]. rewrite fold_left_app. cbn [fold_left].
  apply cancel_restores; [done|]. apply pasting_from_run; [by apply wf_apply_op| |done].
  cbn. rewrite Hp. split_and!; try done. by exists (begin_paste s).
Qed.

(** C40. A paste delivered in any chunks, cut anywhere, UTF-8 sequences and CR LF
    pairs included, is the insertion of the whole text, but for the scroll
    offset. *)
Theorem chunked_paste_is_insertion s ds :
  editor_wf s -> paste s = None ->
  with_scroll 0 (run_ops (paste_ops ds) s) = with_scroll 0 (insert_utf8 (concat ds) s).
Proof.
  intros Hs Hp. unfold paste_ops, run_ops. cbn [fold_left].
  assert (Eb : apply_op s (paste_event PastePhases.BEGIN []) = with_paste (Some (begin_paste s)) s) by (cbn; by rewrite Hp).
  rewrite Eb. destruct (paste_rest s ds (with_paste (Some (begin_paste s)) s) (begin_paste s) []) as [Ep Ha];
    [done|apply follows_start|]. cbn [app pending_utf8 begin_paste] in Ha. unfold run_ops in *.
  destruct (insert_alike (decode_utf8 (concat ds)) s false) as [Hb _].
  pose proof (insert_frame (decode_utf8 (concat ds)) s false Hs) as (_ & Ep2 & _). rewrite Hp in Ep2. fold (insert_utf8 (concat ds) s) in *.
  pose proof (transitivity Ha (symmetry Hb)) as Hab. revert Hab Ep Ep2.
  generalize (fold_left apply_op (map (paste_event PastePhases.DATA) ds ++ [paste_event PastePhases.END []])
    (with_paste (Some (begin_paste s)) s)) as u. generalize (insert_utf8 (concat ds) s) as v. intros v u.
  destruct u, v. unfold alike, with_scroll. cbn. intros [= -> -> -> -> -> -> -> -> ->] -> ->. done.
Qed.

(** The wrap-materialising loop always runs to its end: more iterations change
    nothing, and no line it passed over still has a word to carry to the next
    row. *)
Theorem word_wraps_are_all_materialized s index extra :
  let s' := materialize_word_wraps index s in
  (forall i, index <= i <= index + (length (lines s') - length (lines s)) ->
     materialized_wrap_break (line_at (lines s') i) (editable_width s) = None) /\
  materialize_loop (extra + (2 + length (line_at (lines s) index))) (editable_width s) index index (lines s) (cursor s)
    = (lines s', cursor s') /\
  (forall l, 0 < editable_width s ->
     wrap_break_loop (extra + length l) l (editable_width s) 0 = materialized_wrap_break l (editable_width s)).
Proof.
  cbn zeta. unfold materialize_word_wraps.
  pose proof (materialize_loop_complete (2 + length (line_at (lines s) index)) extra (editable_width s) index
    (lines s) (cursor s) ltac:(done)) as H.
  destruct (materialize_loop (2 + length (line_at (lines s) index)) _ _ _ _ _) as [ls c].
  destruct H as (E & _ & _ & Hn). cbn [lines cursor with_text]. split_and!; [exact Hn|exact E|].
  intros l Hw. rewrite wrap_break_fuel by lia. unfold materialized_wrap_break.
  by destruct (Nat.eqb_spec (editable_width s) 0); [lia|].
Qed.

(** ** Witnesses *)

Definition demo_options : TextEditorOptions :=
  {| tab_width := 4; fallback_width := 20; reserve_plain_enter := false |}.

(** "hello wide" CR LF TAB "x" in an eight-cell viewport, scrolled. *)
Definition demo_ops : list EditorOp :=
  [SetViewport 8 2; InsertText (json "hello wide world" ++ [13; 10; 9; 120]%Z)].
Definition demo : Impl := run_ops demo_ops (new_impl demo_options).

Lemma demo_wf : editor_wf demo.
Proof. apply wf_run_ops, wf_new. Qed.

(** Pasted, scrolled and selected. *)
Lemma editor_always_well_formed_witness :
  editor_wf (run_ops (demo_ops ++ [paste_event PastePhases.BEGIN []; Scroll 9;
    Select {| event_type := SELECT_WORD; event_anchor := origin; event_extent := origin |};
    paste_event PastePhases.CANCEL []]) (new_impl demo_options)) /\
  editor_wf (run_ops stale_ops (new_impl demo_options)).
Proof.
  split.
  - refine (proj2 (proj2 (editor_always_well_formed demo_options _) _)). repeat constructor.
  - refine (proj1 (editor_always_well_formed demo_options stale_ops) _). vm_compute. reflexivity.
Defined.

Lemma visual_rows_tile_the_lines_witness :
  flat_map (slice (line_at (lines demo) 0)) (filter (fun r => row_line r = 0) (visual_rows demo 4)) = json "hello".
Proof.
  destruct (visual_rows_tile_the_lines demo 4 ltac:(lia)) as (H & _ & _). rewrite (H 0); [by vm_compute|].
  vm_compute. lia.
Defined.

Lemma editor_scroll_in_range_witness :
  scroll_row demo = 2 /\ scroll_ok (run_ops (demo_ops ++ [paste_event PastePhases.BEGIN []; Scroll 9; paste_event PastePhases.CANCEL []]) (new_impl demo_options)).
Proof.
  split; [by vm_compute|].
  apply (editor_scroll_in_range demo_options (demo_ops ++ [paste_event PastePhases.BEGIN []; Scroll 9; paste_event PastePhases.CANCEL []]) origin).
  repeat constructor.
Defined.

Lemma edits_show_the_caret_witness : shows_caret (backspace demo).
Proof.
  apply (edits_show_the_caret demo backspace);
    [apply demo_wf|vm_compute; lia|vm_compute; lia|constructor].
Defined.

Lemma editor_deletes_ranges_witness :
  text (backspace demo) = json "hello" ++ [10]%Z ++ json "wide" ++ [10]%Z ++ json "world" ++ [10]%Z ++ json "    ".
Proof.
  transitivity (encode_utf8 (flat_text (backspace demo))); [exact (join_lines_flat _)|].
  destruct (editor_deletes_ranges demo demo_wf) as (-> & _). by vm_compute.
Defined.

Lemma normal_text_plain tab cr c out cr' :
  (0x20 <= c)%Z -> c <> 0x7f%Z -> normal_text tab cr [c] out cr' -> out = [c].
Proof.
  intros H1 H2 Hn. inversion Hn as [|? ? piece ? ? out' ? Hc Hr]; subst. inversion Hr; subst.
  rewrite app_nil_r. inversion Hc; subst; unfold NEWLINE, CARRIAGE_RETURN, TABULATOR in *; try lia; done.
Qed.

Lemma editor_inserts_text_witness : caret (insert_utf8 [33]%Z demo) = caret demo + 1.
Proof.
  destruct (editor_inserts_text demo [33]%Z demo_wf) as (out & cr & Hn & _ & Hc & _).
  apply normal_text_plain in Hn; [|lia|lia]. rewrite Hc, Hn. by vm_compute.
Defined.

Lemma editor_moves_the_caret_witness :
  caret (move_horizontal false true demo) = 21 /\
  word_left (flat_text demo) (caret demo) (caret (move_word_left true demo)).
Proof.
  destruct (editor_moves_the_caret demo true demo_wf)
    as (_ & _ & _ & Hl & _ & _ & _ & _ & _ & Hw & _).
  split; [etransitivity; [exact Hl|by vm_compute]|exact Hw].
Defined.

Lemma editor_selected_text_spec_witness :
  frame_selected_text (snd (update_selection (plain_event SELECT_ALL) demo)) = (OK, text demo).
Proof.
  apply (editor_selected_text_spec demo demo_wf). by vm_compute.
Defined.

Lemma cancelled_paste_restores_witness :
  run_ops (paste_event PastePhases.BEGIN [] ::
    [paste_event PastePhases.DATA (json "pasted"); Run Commands.SELECT_ALL] ++ [paste_event PastePhases.CANCEL []]) demo = demo.
Proof.
  apply (cancelled_paste_restores demo); [apply demo_wf|by vm_compute|by repeat constructor].
Defined.

(** The euro sign cut inside its three bytes. *)
Lemma chunked_paste_is_insertion_witness :
  with_scroll 0 (run_ops (paste_ops [[0xe2; 0x82]; [0xac; 13]; [10]]%Z) demo) =
  with_scroll 0 (insert_utf8 [0xe2; 0x82; 0xac; 13; 10]%Z demo).
Proof.
  apply (chunked_paste_is_insertion demo [[0xe2; 0x82]; [0xac; 13]; [10]]%Z); [apply demo_wf|by vm_compute].
Defined.
