(* ===== verification/Clipboard.v ===== *)
(** * OSC 52 clipboard transport (puc-cli/tui/terminal/clipboard.cpp, status.hpp)

    Base64 framing of clipboard writes and the bounded decoding of clipboard
    replies, with the status codes of the terminal layer. *)
From S2P Require Import Prelude.
From S2P Require Import Text.
From S2P Require Import Events.
Open Scope Z_scope.

Inductive Status :=
| OK
| INVALID_ARGUMENT
| ALREADY_ACTIVE
| NOT_ACTIVE
| TERMINAL_NOT_AVAILABLE
| TERMINAL_CONFIG_FAILED
| TERMINAL_QUERY_FAILED
| TERMINAL_READ_FAILED
| TERMINAL_WRITE_FAILED
| CHANNEL_SETUP_FAILED
| INPUT_LIMIT_EXCEEDED
| OUTPUT_LIMIT_EXCEEDED
| CONFIGURATION_LOAD_FAILED
| CONFIGURATION_PARSE_FAILED
| TERMINFO_LOAD_FAILED
| UNSUPPORTED.

#[global] Instance terminal_Status_eq_dec : EqDecision Status.
Proof. solve_decision. Defined.

Definition is_ok (status : Status) : bool := bool_decide (status = OK).

(** [kBase64Alphabet[value]] *)
Definition base64_digit (value : Z) : Z :=
  default 0 (str "ABCDEFGHIJKLMNOPQRSTUVWXYZabcdefghijklmnopqrstuvwxyz0123456789+/" !! Z.to_nat value).

Definition base64_value (character : Z) : Z :=
  if (65 <=? character) && (character <=? 90) then character - 65
  else if (97 <=? character) && (character <=? 122) then character - 97 + 26
  else if (48 <=? character) && (character <=? 57) then character - 48 + 52
  else if character =? 43 then 62
  else if character =? 47 then 63
  else -1.

Definition PADDING : Z := 61.

(** Three bytes at a time, then the padded remainder. *)
Fixpoint append_base64 (data output : bytes) : bytes :=
  match data with
  | [] => output
  | [a] =>
      let value := Z.shiftl a 16 in
      output ++ [base64_digit (Z.land (Z.shiftr value 18) 0x3f);
                 base64_digit (Z.land (Z.shiftr value 12) 0x3f); PADDING; PADDING]
  | [a; b] =>
      let value := Z.lor (Z.shiftl a 16) (Z.shiftl b 8) in
      output ++ [base64_digit (Z.land (Z.shiftr value 18) 0x3f);
                 base64_digit (Z.land (Z.shiftr value 12) 0x3f);
                 base64_digit (Z.land (Z.shiftr value 6) 0x3f); PADDING]
  | a :: b :: c :: rest =>
      let value := Z.lor (Z.lor (Z.shiftl a 16) (Z.shiftl b 8)) c in
      append_base64 rest
        (output ++ [base64_digit (Z.land (Z.shiftr value 18) 0x3f);
                    base64_digit (Z.land (Z.shiftr value 12) 0x3f);
                    base64_digit (Z.land (Z.shiftr value 6) 0x3f);
                    base64_digit (Z.land value 0x3f)])
  end.

Definition clipboard_selector (selection : ClipboardSelection) : Z :=
  match selection with
  | ClipboardSelections.PRIMARY => 112
  | ClipboardSelections.CLIPBOARD => 99
  end.

Definition kEscape : Z := 0x1b.
Definition kFramingBytes : Z := 9.

(** [Err] leaves [output] as it was. *)
Definition build_clipboard_write (selection : ClipboardSelection) (data : bytes) (maximum_bytes : Z)
  : result Status bytes :=
  check (negb (maximum_bytes <? Z.of_nat (length data))) OUTPUT_LIMIT_EXCEEDED
  (check (negb ((size_max - 2) / 3 <? Z.of_nat (length data))) OUTPUT_LIMIT_EXCEEDED
  (let encoded_size := (Z.of_nat (length data) + 2) / 3 * 4 in
   check (negb (size_max - kFramingBytes <? encoded_size)) OUTPUT_LIMIT_EXCEEDED
  (let encoded := kEscape :: str "]52;" in
   let encoded := encoded ++ [clipboard_selector selection] in
   let encoded := encoded ++ str ";" in
   let encoded := append_base64 data encoded in
   Ok (encoded ++ kEscape :: str "\")))).

Definition build_clipboard_query (selection : ClipboardSelection) : bytes :=
  (kEscape :: str "]52;") ++ [clipboard_selector selection] ++ str ";?" ++ (kEscape :: str "\").

(** The number of trailing padding characters. *)
Fixpoint count_padding (reversed : bytes) : nat :=
  match reversed with
  | c :: rest => if c =? PADDING then S (count_padding rest) else O
  | [] => O
  end.

(** The decoding loop: [accumulator] is a [std::uint32_t]. *)
Fixpoint decode_base64 (content : bytes) (accumulator bit_count : Z) (decoded : bytes)
  : option (Z * Z * bytes) :=
  match content with
  | [] => Some (accumulator, bit_count, decoded)
  | c :: content =>
      let value := base64_value c in
      if value <? 0 then None
      else
        let accumulator := Z.lor (wrap 32 (Z.shiftl accumulator 6)) value in
        let bit_count := bit_count + 6 in
        if 8 <=? bit_count
        then decode_base64 content accumulator (bit_count - 8)
               (decoded ++ [Z.land (Z.shiftr accumulator (bit_count - 8)) 0xff])
        else decode_base64 content accumulator bit_count decoded
  end.

Definition decode_clipboard_payload (selection : ClipboardSelection) (encoded : bytes) (maximum_bytes : Z)
  : result Status ClipboardEvent :=
  let padding := count_padding (reverse encoded) in
  check (negb (2 <? padding)%nat) INVALID_ARGUMENT
  (let content_size := (length encoded - padding)%nat in
   let remainder := (content_size mod 4)%nat in
   check (negb ((remainder =? 1)%nat ||
                (negb (padding =? 0)%nat && negb (length encoded mod 4 =? 0)%nat) ||
                ((padding =? 1)%nat && negb (remainder =? 3)%nat) ||
                ((padding =? 2)%nat && negb (remainder =? 2)%nat))) INVALID_ARGUMENT
  (let decoded_size := (content_size / 4 * 3 + (if (remainder =? 2)%nat then 1 else 0)
                        + (if (remainder =? 3)%nat then 2 else 0))%nat in
   check (negb (maximum_bytes <? Z.of_nat decoded_size)) INPUT_LIMIT_EXCEEDED
   match decode_base64 (take content_size encoded) 0 0 [] with
   | None => Err INVALID_ARGUMENT
   | Some (accumulator, bit_count, decoded) =>
       check (negb (negb (length decoded =? decoded_size)%nat ||
                    (negb (bit_count =? 0) &&
                     negb (Z.land accumulator (Z.shiftl 1 bit_count - 1) =? 0)))) INVALID_ARGUMENT
         (Ok {| clipboard_selection := selection; clipboard_data := decoded |})
   end)).

Example base64_samples :
  append_base64 (str "Man") [] = str "TWFu" /\ append_base64 (str "Ma") [] = str "TWE=" /\
  append_base64 (str "M") [] = str "TQ==" /\
  decode_clipboard_payload ClipboardSelections.CLIPBOARD (str "TWFuTWE=") 10
    = Ok {| clipboard_selection := ClipboardSelections.CLIPBOARD; clipboard_data := str "ManMa" |} /\
  decode_clipboard_payload ClipboardSelections.CLIPBOARD (str "TWF=") 10 = Err INVALID_ARGUMENT.
Proof. by vm_compute. Qed.

(** ** The framing is invertible *)

(** Content digits and padding of one encoding. *)
Fixpoint base64_digits (data : bytes) : bytes :=
  match data with
  | [] => []
  | [a] => [base64_digit (a / 4); base64_digit (a mod 4 * 16)]
  | [a; b] => [base64_digit (a / 4); base64_digit (a mod 4 * 16 + b / 16); base64_digit (b mod 16 * 4)]
  | a :: b :: c :: rest =>
      base64_digit (a / 4) :: base64_digit (a mod 4 * 16 + b / 16) ::
      base64_digit (b mod 16 * 4 + c / 64) :: base64_digit (c mod 64) :: base64_digits rest
  end.

Definition base64_padding (data : bytes) : bytes :=
  match (length data mod 3)%nat with
  | 1%nat => [PADDING; PADDING]
  | 2%nat => [PADDING]
  | _ => []
  end.

Lemma triple_ind {A} (P : list A -> Prop) :
  P [] -> (forall a, P [a]) -> (forall a b, P [a; b]) ->
  (forall a b c rest, P rest -> P (a :: b :: c :: rest)) -> forall l, P l.
Proof.
  intros H0 H1 H2 H3. fix IH 1. intros [|a [|b [|c rest]]]; [done|done|done|]. apply H3, IH.
Qed.

Lemma base64_padding_cons a b c rest : base64_padding (a :: b :: c :: rest) = base64_padding rest.
Proof.
  unfold base64_padding. replace (length (a :: b :: c :: rest)) with (length rest + 1 * 3)%nat by (simpl; lia).
  by rewrite Nat.Div0.mod_add.
Qed.

Lemma lor_bytes a b c : is_byte a -> is_byte b -> is_byte c ->
  Z.lor (Z.lor (Z.shiftl a 16) (Z.shiftl b 8)) c = a * 65536 + b * 256 + c.
Proof.
  intros Ha Hb Hc. unfold in_width in *.
  rewrite (Z.shiftl_mul_pow2 b), lor_shiftl_add by lia.
  replace (a * 2 ^ 16 + b * 2 ^ 8) with (Z.shiftl (a * 256 + b) 8) by (rewrite Z.shiftl_mul_pow2; lia).
  rewrite lor_shiftl_add by lia. lia.
Qed.

Lemma sextets a b c : is_byte a -> is_byte b -> is_byte c ->
  let v := a * 65536 + b * 256 + c in
  (v / 2 ^ 18) mod 64 = a / 4 /\ (v / 2 ^ 12) mod 64 = a mod 4 * 16 + b / 16 /\
  (v / 2 ^ 6) mod 64 = b mod 16 * 4 + c / 64 /\ v mod 64 = c mod 64.
Proof. unfold in_width. cbn zeta. intros Ha Hb Hc. split_and!; Z.div_mod_to_equations; lia. Qed.

Lemma is_byte_0 : is_byte 0.
Proof. unfold in_width. lia. Qed.

Lemma append_base64_spec data : Forall is_byte data -> forall output,
  append_base64 data output = output ++ base64_digits data ++ base64_padding data.
Proof.
  induction data as [|a|a b|a b c rest IH] using triple_ind; intros Hb output; cbn [append_base64 base64_digits].
  - by rewrite app_nil_r.
  - inversion_clear Hb as [|? ? Ha _]. destruct (sextets a 0 0 Ha is_byte_0 is_byte_0) as (E1 & E2 & _).
    rewrite Z.shiftl_mul_pow2, !land_63, !Z.shiftr_div_pow2 by lia.
    replace (a * 2 ^ 16) with (a * 65536 + 0 * 256 + 0) by lia. rewrite E1, E2. by rewrite Z.add_0_r.
  - inversion_clear Hb as [|? ? Ha Hb']. inversion_clear Hb' as [|? ? Hb _].
    destruct (sextets a b 0 Ha Hb is_byte_0) as (E1 & E2 & E3 & _).
    pose proof (lor_bytes a b 0 Ha Hb is_byte_0) as Hl. rewrite Z.lor_0_r in Hl.
    rewrite Hl, !land_63, !Z.shiftr_div_pow2, E1, E2, E3 by lia. by rewrite Z.add_0_r.
  - inversion_clear Hb as [|? ? Ha Hb']. inversion_clear Hb' as [|? ? Hb Hc']. inversion_clear Hc' as [|? ? Hc Hr].
    destruct (sextets a b c Ha Hb Hc) as (E1 & E2 & E3 & E4).
    rewrite IH, base64_padding_cons, lor_bytes, !land_63, !Z.shiftr_div_pow2, E1, E2, E3, E4 by (done || lia).
    by rewrite <- app_assoc.
Qed.

Lemma base64_value_digit v : 0 <= v < 64 -> base64_value (base64_digit v) = v /\ base64_digit v <> PADDING.
Proof.
  intros Hv. pose proof (all_below_spec 64 (fun v => (base64_value (base64_digit v) =? v)
    && negb (base64_digit v =? PADDING)) ltac:(by vm_compute) v ltac:(lia)) as H.
  cbn beta in H. bool_to_prop. by split.
Qed.

(** One digit enters the accumulator. *)
Lemma decode_base64_digit v rest accumulator bit_count decoded :
  0 <= v < 64 -> 0 <= accumulator ->
  exists accumulator', accumulator' = (accumulator * 64) mod 2 ^ 32 + v /\
  decode_base64 (base64_digit v :: rest) accumulator bit_count decoded =
    if 8 <=? bit_count + 6
    then decode_base64 rest accumulator' (bit_count + 6 - 8)
           (decoded ++ [(accumulator' / 2 ^ (bit_count + 6 - 8)) mod 256])
    else decode_base64 rest accumulator' (bit_count + 6) decoded.
Proof.
  intros Hv Ha. eexists. split; [done|]. cbn [decode_base64].
  rewrite (proj1 (base64_value_digit v Hv)), (proj2 (Z.ltb_ge v 0)) by lia.
  assert (Hacc : Z.lor (wrap 32 (Z.shiftl accumulator 6)) v = (accumulator * 64) mod 2 ^ 32 + v).
  { unfold wrap. rewrite Z.shiftl_mul_pow2 by lia. change (2 ^ 6) with 64.
    replace ((accumulator * 64) mod 2 ^ 32) with (Z.shiftl ((accumulator mod 2 ^ 26)) 6).
    - by rewrite lor_shiftl_add, Z.shiftl_mul_pow2 by lia.
    - rewrite Z.shiftl_mul_pow2 by lia. Z.div_mod_to_equations; lia. }
  rewrite Hacc. destruct (Z.leb_spec 8 (bit_count + 6)); [|done].
  do 3 f_equal. rewrite Z.shiftr_div_pow2 by lia. by rewrite (Z.land_ones _ 8) by lia.
Qed.

(** Four digits of a full group. *)
Lemma decode_base64_group a b c rest accumulator decoded :
  is_byte a -> is_byte b -> is_byte c -> 0 <= accumulator ->
  exists accumulator', 0 <= accumulator' /\
  decode_base64 (base64_digit (a / 4) :: base64_digit (a mod 4 * 16 + b / 16) ::
      base64_digit (b mod 16 * 4 + c / 64) :: base64_digit (c mod 64) :: rest) accumulator 0 decoded =
    decode_base64 rest accumulator' 0 (decoded ++ [a; b; c]).
Proof.
  unfold in_width. intros Ha Hb Hc Hacc.
  destruct (decode_base64_digit (a / 4) (base64_digit (a mod 4 * 16 + b / 16) ::
      base64_digit (b mod 16 * 4 + c / 64) :: base64_digit (c mod 64) :: rest) accumulator 0 decoded)
    as (acc1 & E1 & ->); [Z.div_mod_to_equations; lia|done|]. change (8 <=? 0 + 6) with false. change (0 + 6) with 6. cbn iota.
  destruct (decode_base64_digit (a mod 4 * 16 + b / 16) (base64_digit (b mod 16 * 4 + c / 64) ::
      base64_digit (c mod 64) :: rest) acc1 6 decoded)
    as (acc2 & E2 & ->); [Z.div_mod_to_equations; lia|Z.div_mod_to_equations; lia|].
  change (8 <=? 6 + 6) with true. change (6 + 6 - 8) with 4. cbn iota.
  destruct (decode_base64_digit (b mod 16 * 4 + c / 64) (base64_digit (c mod 64) :: rest) acc2 4
      (decoded ++ [(acc2 / 2 ^ 4) mod 256]))
    as (acc3 & E3 & ->); [Z.div_mod_to_equations; lia|Z.div_mod_to_equations; lia|].
  change (8 <=? 4 + 6) with true. change (4 + 6 - 8) with 2. cbn iota.
  destruct (decode_base64_digit (c mod 64) rest acc3 2
      ((decoded ++ [(acc2 / 2 ^ 4) mod 256]) ++ [(acc3 / 2 ^ 2) mod 256]))
    as (acc4 & E4 & ->); [Z.div_mod_to_equations; lia|Z.div_mod_to_equations; lia|].
  change (8 <=? 2 + 6) with true. change (2 + 6 - 8) with 0. cbn iota.
  exists acc4. split; [Z.div_mod_to_equations; lia|].
  assert (V1 : (acc2 / 2 ^ 4) mod 256 = a) by (clear E3 E4; Z.div_mod_to_equations; lia).
  assert (V2 : (acc3 / 2 ^ 2) mod 256 = b) by (clear E4 V1; Z.div_mod_to_equations; lia).
  assert (V3 : (acc4 / 2 ^ 0) mod 256 = c) by (clear V1 V2; Z.div_mod_to_equations; lia).
  rewrite V1, V2, V3, <- !app_assoc. done.
Qed.

(** Decoding the digits gives the bytes, with clear trailing bits. *)
Lemma decode_base64_digits data : Forall is_byte data -> forall accumulator decoded,
  0 <= accumulator ->
  exists accumulator' bit_count,
    decode_base64 (base64_digits data) accumulator 0 decoded = Some (accumulator', bit_count, decoded ++ data) /\
    (bit_count = 0 \/ (0 < bit_count /\ accumulator' mod 2 ^ bit_count = 0)).
Proof.
  induction data as [|a|a b|a b c rest IH] using triple_ind; intros Hb accumulator decoded Hacc;
    cbn [base64_digits].
  - exists accumulator, 0. rewrite app_nil_r. by split; [|left].
  - inversion_clear Hb as [|? ? Ha _]. unfold in_width in Ha.
    destruct (decode_base64_digit (a / 4) [base64_digit (a mod 4 * 16)] accumulator 0 decoded)
      as (acc1 & E1 & ->); [Z.div_mod_to_equations; lia|done|].
    change (8 <=? 0 + 6) with false. change (0 + 6) with 6. cbn iota.
    destruct (decode_base64_digit (a mod 4 * 16) [] acc1 6 decoded)
      as (acc2 & E2 & ->); [Z.div_mod_to_equations; lia|Z.div_mod_to_equations; lia|].
    change (8 <=? 6 + 6) with true. change (6 + 6 - 8) with 4. cbn iota.
    exists acc2, 4. split; [|right; split; [lia|Z.div_mod_to_equations; lia]].
    assert (V1 : (acc2 / 2 ^ 4) mod 256 = a) by (Z.div_mod_to_equations; lia). by rewrite V1.
  - inversion_clear Hb as [|? ? Ha Hb']. inversion_clear Hb' as [|? ? Hb _]. unfold in_width in *.
    destruct (decode_base64_digit (a / 4) [base64_digit (a mod 4 * 16 + b / 16); base64_digit (b mod 16 * 4)]
      accumulator 0 decoded) as (acc1 & E1 & ->); [Z.div_mod_to_equations; lia|done|].
    change (8 <=? 0 + 6) with false. change (0 + 6) with 6. cbn iota.
    destruct (decode_base64_digit (a mod 4 * 16 + b / 16) [base64_digit (b mod 16 * 4)] acc1 6 decoded)
      as (acc2 & E2 & ->); [Z.div_mod_to_equations; lia|Z.div_mod_to_equations; lia|].
    change (8 <=? 6 + 6) with true. change (6 + 6 - 8) with 4. cbn iota.
    destruct (decode_base64_digit (b mod 16 * 4) [] acc2 4 (decoded ++ [(acc2 / 2 ^ 4) mod 256]))
      as (acc3 & E3 & ->); [Z.div_mod_to_equations; lia|Z.div_mod_to_equations; lia|].
    change (8 <=? 4 + 6) with true. change (4 + 6 - 8) with 2. cbn iota.
    exists acc3, 2. split; [|right; split; [lia|clear E1 E2; Z.div_mod_to_equations; lia]].
    assert (V1 : (acc2 / 2 ^ 4) mod 256 = a) by (clear E3; Z.div_mod_to_equations; lia).
    assert (V2 : (acc3 / 2 ^ 2) mod 256 = b) by (clear V1; Z.div_mod_to_equations; lia).
    by rewrite V1, V2, <- app_assoc.
  - inversion_clear Hb as [|? ? Ha Hb']. inversion_clear Hb' as [|? ? Hb Hc']. inversion_clear Hc' as [|? ? Hc Hr].
    destruct (decode_base64_group a b c (base64_digits rest) accumulator decoded Ha Hb Hc Hacc)
      as (acc' & Hacc' & ->).
    destruct (IH Hr acc' (decoded ++ [a; b; c]) Hacc') as (acc'' & n & E & Hn).
    exists acc'', n. split; [|done]. by rewrite E, <- app_assoc.
Qed.

(** Sizes of the encoding. *)
Lemma base64_sizes data : exists q r, length data = (3 * q + r)%nat /\ (r < 3)%nat /\
  length (base64_digits data) = (4 * q + (if (r =? 0)%nat then 0 else r + 1))%nat /\
  length (base64_padding data) = (if (r =? 0)%nat then 0 else 3 - r)%nat.
Proof.
  induction data as [|a|a b|a b c rest (q & r & E1 & Hr & E2 & E3)] using triple_ind.
  - exists 0%nat, 0%nat. split_and!; [done|lia|done|done].
  - exists 0%nat, 1%nat. split_and!; [done|lia|done|done].
  - exists 0%nat, 2%nat. split_and!; [done|lia|done|done].
  - exists (S q), r. rewrite base64_padding_cons. cbn [length base64_digits]. split_and!; [lia|done|lia|done].
Qed.

Lemma base64_digits_no_padding data : Forall is_byte data -> Forall (fun c => c <> PADDING) (base64_digits data).
Proof.
  induction data as [|a|a b|a b c rest IH] using triple_ind; intros Hb; cbn [base64_digits].
  - constructor.
  - inversion_clear Hb as [|? ? Ha _]. unfold in_width in Ha.
    repeat constructor; apply base64_value_digit; Z.div_mod_to_equations; lia.
  - inversion_clear Hb as [|? ? Ha Hb']. inversion_clear Hb' as [|? ? Hb _]. unfold in_width in *.
    repeat constructor; apply base64_value_digit; Z.div_mod_to_equations; lia.
  - inversion_clear Hb as [|? ? Ha Hb']. inversion_clear Hb' as [|? ? Hb Hc']. inversion_clear Hc' as [|? ? Hc Hr].
    unfold in_width in *.
    repeat (constructor; [apply base64_value_digit; Z.div_mod_to_equations; lia|]). by apply IH.
Qed.

Lemma base64_padding_all data : Forall (fun c => c = PADDING) (base64_padding data).
Proof. unfold base64_padding. repeat case_match; repeat constructor. Qed.

Lemma count_padding_app pads digits : Forall (fun c => c = PADDING) pads ->
  Forall (fun c => c <> PADDING) digits -> count_padding (reverse (digits ++ pads)) = length pads.
Proof.
  intros Hp Hd. rewrite reverse_app, <- length_reverse. apply Forall_reverse in Hp, Hd.
  generalize dependent (reverse digits). revert Hp. generalize (reverse pads) as ps. intros ps Hp ds Hd.
  induction Hp as [|p ps -> Hp IH].
  - destruct Hd as [|d rest Hd _]; [done|]. cbn. by rewrite (proj2 (Z.eqb_neq _ _) Hd).
  - cbn [app count_padding length]. rewrite Z.eqb_refl. by rewrite IH.
Qed.

Lemma decode_clipboard_encoded selection data maximum_bytes :
  Forall is_byte data -> Z.of_nat (length data) <= maximum_bytes ->
  decode_clipboard_payload selection (append_base64 data []) maximum_bytes =
    Ok {| clipboard_selection := selection; clipboard_data := data |}.
Proof.
  intros Hb Hm. rewrite append_base64_spec by done. cbn [app]. unfold decode_clipboard_payload. cbn zeta.
  rewrite count_padding_app by auto using base64_padding_all, base64_digits_no_padding.
  destruct (base64_sizes data) as (q & r & El & Hr & Ed & Ep).
  replace (length (base64_digits data ++ base64_padding data) - length (base64_padding data))%nat
    with (length (base64_digits data)) by (rewrite length_app; lia).
  rewrite length_app, Ed, Ep.
  rewrite <- Ed, take_app_length.
  assert (Hmod : forall k, (k < 4)%nat -> ((4 * q + k) mod 4 = k /\ (4 * q + k) / 4 = q)%nat).
  { intros k Hk. split; [symmetry; apply (Nat.mod_unique _ 4 q); lia|symmetry; apply (Nat.div_unique _ 4 q k); lia]. }
  rewrite Ed.
  assert (Hcase : exists e p, e = (if (r =? 0)%nat then 0 else r + 1)%nat /\ p = (if (r =? 0)%nat then 0 else 3 - r)%nat /\
     ((e = 0 /\ p = 0 /\ r = 0) \/ (e = 2 /\ p = 2 /\ r = 1) \/ (e = 3 /\ p = 1 /\ r = 2))%nat).
  { do 2 eexists. split_and!; [done|done|]. destruct (Nat.eqb_spec r 0); lia. }
  destruct Hcase as (e & p & <- & <- & He).
  assert (Htotal : ((4 * q + e + p) mod 4 = 0)%nat).
  { symmetry. apply (Nat.mod_unique _ 4 (if (r =? 0)%nat then q else S q)); destruct (Nat.eqb_spec r 0); lia. }
  destruct (Hmod e ltac:(lia)) as [E1 E2]. rewrite E1, E2, Htotal.
  destruct (decode_base64_digits data Hb 0 [] ltac:(lia)) as (acc & n & -> & Hn). cbn [app].
  assert (Hbits : negb (n =? 0) && negb (Z.land acc (Z.shiftl 1 n - 1) =? 0) = false).
  { destruct Hn as [-> |[Hn Hz]]; [done|]. apply andb_false_iff. right.
    rewrite Z.shiftl_1_l. replace (2 ^ n - 1) with (Z.ones n) by (rewrite Z.ones_equiv; lia).
    by rewrite Z.land_ones, Hz by lia. }
  rewrite Hbits, orb_false_r.
  destruct He as [(-> & -> & ->)|[(-> & -> & ->)|(-> & -> & ->)]]; cbn [Nat.eqb Nat.ltb Nat.leb negb andb orb check];
    rewrite (proj2 (Z.ltb_ge _ _)) by lia; cbn [negb check];
    rewrite (proj2 (Nat.eqb_eq _ _)) by lia; done.
Qed.
