(* ===== verification/KeyProtocol.v ===== *)
(** * Terminal protocol fields (puc-cli/tui/terminal/decoder.cpp, first half, and
      the sequence parsers)

    Everything the decoder does with one complete sequence: strict UTF-8
    scalars, decimal fields, modifier fields, the key tables, CSI and SGR mouse
    reports. Every parser yields exactly one event. *)
From S2P Require Import Prelude.
From S2P Require Import Text.
From S2P Require Import Utf8.
From S2P Require Import Events.
Open Scope Z_scope.

(** ** Scalars *)

Inductive Utf8Result :=
| VALID (codepoint : Z) (len : nat)
| INCOMPLETE
| INVALID.

Definition is_unicode_scalar (codepoint : Z) : bool :=
  (codepoint <=? 0x10ffff) && negb ((0xd800 <=? codepoint) && (codepoint <=? 0xdfff)).

(** [byte(index)], read in range only. *)
Definition byte (input : bytes) (index : nat) : Z := default 0 (input !! index).

Definition expected_length (first : Z) : option (nat * Z) :=
  if (0xc2 <=? first) && (first <=? 0xdf) then Some (2%nat, Z.land first 0x1f)
  else if (0xe0 <=? first) && (first <=? 0xef) then Some (3%nat, Z.land first 0x0f)
  else if (0xf0 <=? first) && (first <=? 0xf4) then Some (4%nat, Z.land first 0x07)
  else None.

(** [decode_utf8] of decoder.cpp: one strict scalar. *)
Definition decode_scalar (input : bytes) : Utf8Result :=
  match input with
  | [] => INCOMPLETE
  | first :: _ =>
      if first <=? 0x7f then VALID first 1
      else
        match expected_length first with
        | None => INVALID
        | Some (expected, value) =>
            let available := Nat.min (length input) expected in
            if negb (forallb is_continuation (take (available - 1) (drop 1 input))) then INVALID
            else if (length input <? expected)%nat then INCOMPLETE
            else if ((first =? 0xe0) && (byte input 1 <? 0xa0)) ||
                    ((first =? 0xed) && (0xa0 <=? byte input 1)) ||
                    ((first =? 0xf0) && (byte input 1 <? 0x90)) ||
                    ((first =? 0xf4) && (0x90 <=? byte input 1))
            then INVALID
            else
              let value := fold_left (fun value b => Z.lor (Z.shiftl value 6) (Z.land b 0x3f))
                             (take (expected - 1) (drop 1 input)) value in
              if negb (is_unicode_scalar value) then INVALID else VALID value expected
        end
  end.

(** ** Fields *)

(** [std::from_chars] into a [std::uint32_t], the whole field. *)
Definition parse_unsigned (text : bytes) : option Z :=
  match text with
  | [] => None
  | b :: _ =>
      if is_digit b then
        let '(value, rest) := scan_digits text 0 in
        if (value <? 2 ^ 32) && bool_decide (rest = []) then Some value else None
      else None
  end.

(** The pieces between delimiters; [piece] is the current one, reversed. *)
Fixpoint split_on (delimiter : Z) (text piece : bytes) : list bytes :=
  match text with
  | [] => [reverse piece]
  | c :: text =>
      if c =? delimiter then reverse piece :: split_on delimiter text []
      else split_on delimiter text (c :: piece)
  end.

(** [split_fields]: [None] when there are more than [MaximumFields]. *)
Definition split_fields (MaximumFields : nat) (text : bytes) (delimiter : Z) : option (list bytes) :=
  match text with
  | [] => Some []
  | _ =>
      let fields := split_on delimiter text [] in
      if (MaximumFields <? length fields)%nat then None else Some fields
  end.

Definition COLON : Z := 58.
Definition SEMICOLON : Z := 59.

Definition parse_modifiers_and_action (field : bytes) : option (Modifiers * KeyAction) :=
  match field with
  | [] => Some (0, KeyActions.PRESS)
  | _ =>
      parts ← split_fields 2 field COLON;
      match parts with
      | [] => None
      | first :: second =>
          encoded_modifiers ←
            (match first with
             | [] => Some 1
             | _ =>
                 value ← parse_unsigned first;
                 if (value <? 1) || (256 <? value) then None else Some value
             end);
          let modifiers := wrap 16 (encoded_modifiers - 1) in
          match second with
          | [] => Some (modifiers, KeyActions.PRESS)
          | second :: _ =>
              encoded_action ← parse_unsigned second;
              if (encoded_action <? 1) || (3 <? encoded_action) then None
              else Some (modifiers,
                         if encoded_action =? 1 then KeyActions.PRESS
                         else if encoded_action =? 2 then KeyActions.REPEAT
                         else KeyActions.RELEASE)
          end
      end
  end.

(** ** Key tables *)

(** [static_cast<NamedKey>(first + offset)] *)
Definition named_from (first : NamedKey) (offset : Z) : option NamedKey :=
  of_ordinal (ordinal first + offset).

Definition kitty_named_key (code : Z) : option NamedKey :=
  if code =? 9 then Some NamedKeys.TAB
  else if code =? 13 then Some NamedKeys.ENTER
  else if code =? 27 then Some NamedKeys.ESCAPE
  else if code =? 127 then Some NamedKeys.BACKSPACE
  else if code =? 57348 then Some NamedKeys.INSERT
  else if code =? 57349 then Some NamedKeys.DELETE_KEY
  else if code =? 57350 then Some NamedKeys.LEFT
  else if code =? 57351 then Some NamedKeys.RIGHT
  else if code =? 57352 then Some NamedKeys.UP
  else if code =? 57353 then Some NamedKeys.DOWN
  else if code =? 57354 then Some NamedKeys.PAGE_UP
  else if code =? 57355 then Some NamedKeys.PAGE_DOWN
  else if code =? 57356 then Some NamedKeys.HOME
  else if code =? 57357 then Some NamedKeys.END
  else if code =? 57358 then Some NamedKeys.CAPS_LOCK
  else if code =? 57359 then Some NamedKeys.SCROLL_LOCK
  else if code =? 57360 then Some NamedKeys.NUM_LOCK
  else if code =? 57361 then Some NamedKeys.PRINT_SCREEN
  else if code =? 57362 then Some NamedKeys.PAUSE
  else if code =? 57363 then Some NamedKeys.MENU
  else if (57364 <=? code) && (code <=? 57375) then named_from NamedKeys.F1 (code - 57364)
  else if (57376 <=? code) && (code <=? 57398) then named_from NamedKeys.F13 (code - 57376)
  else if (57399 <=? code) && (code <=? 57454) then named_from NamedKeys.KEYPAD_0 (code - 57399)
  else None.

Definition protocol_key_code (code : Z) : option KeyCode :=
  match kitty_named_key code with
  | Some named => Some (NamedCode named)
  | None =>
      if (code =? 0) || negb (is_unicode_scalar code) || ((57344 <=? code) && (code <=? 63743))
      then None else Some (CharCode code)
  end.

Definition tilde_named_key (code : Z) : option NamedKey :=
  if (code =? 1) || (code =? 7) then Some NamedKeys.HOME
  else if code =? 2 then Some NamedKeys.INSERT
  else if code =? 3 then Some NamedKeys.DELETE_KEY
  else if (code =? 4) || (code =? 8) then Some NamedKeys.END
  else if code =? 5 then Some NamedKeys.PAGE_UP
  else if code =? 6 then Some NamedKeys.PAGE_DOWN
  else if code =? 11 then Some NamedKeys.F1
  else if code =? 12 then Some NamedKeys.F2
  else if code =? 13 then Some NamedKeys.F3
  else if code =? 14 then Some NamedKeys.F4
  else if code =? 15 then Some NamedKeys.F5
  else if code =? 17 then Some NamedKeys.F6
  else if code =? 18 then Some NamedKeys.F7
  else if code =? 19 then Some NamedKeys.F8
  else if code =? 20 then Some NamedKeys.F9
  else if code =? 21 then Some NamedKeys.F10
  else if code =? 23 then Some NamedKeys.F11
  else if code =? 24 then Some NamedKeys.F12
  else if code =? 57427 then Some NamedKeys.KEYPAD_BEGIN
  else None.

(** [KeyEvent{.key = key, .modifiers = modifiers}] *)
Definition plain_key (k : KeyCode) (modifiers : Modifiers) (action : KeyAction) : KeyEvent :=
  {| key := k; key_modifiers := modifiers; key_action := action; shifted_key := None;
     base_layout_key := None; key_text := [] |}.

Definition legacy_control_key (first : Z) : option KeyEvent :=
  let named k := Some (plain_key (NamedCode k) 0 KeyActions.PRESS) in
  let control c := Some (plain_key (CharCode c) ModifierBits.CONTROL KeyActions.PRESS) in
  if (first =? 8) || (first =? 127) then named NamedKeys.BACKSPACE
  else if first =? 9 then named NamedKeys.TAB
  else if (first =? 10) || (first =? 13) then named NamedKeys.ENTER
  else if first =? 0 then control 32
  else if (1 <=? first) && (first <=? 26) then control (97 + first - 1)
  else if (28 <=? first) && (first <=? 31)
  then control (default 0 ([92; 93; 94; 95] !! Z.to_nat (first - 28)))
  else None.

Definition csi_final_key (final : Z) : option NamedKey :=
  if final =? 65 then Some NamedKeys.UP
  else if final =? 66 then Some NamedKeys.DOWN
  else if final =? 67 then Some NamedKeys.RIGHT
  else if final =? 68 then Some NamedKeys.LEFT
  else if final =? 72 then Some NamedKeys.HOME
  else if final =? 70 then Some NamedKeys.END
  else if final =? 80 then Some NamedKeys.F1
  else if final =? 81 then Some NamedKeys.F2
  else if final =? 83 then Some NamedKeys.F4
  else None.

Definition parse_letter_key_fields (body : bytes) : option (Modifiers * KeyAction) :=
  fields ← split_fields 2 body SEMICOLON;
  match fields with
  | [] => Some (0, KeyActions.PRESS)
  | first :: rest =>
      value ← parse_unsigned first;
      if negb (value =? 1) then None
      else match rest with
           | [] => Some (0, KeyActions.PRESS)
           | second :: _ => parse_modifiers_and_action second
           end
  end.

Definition auxiliary_button (index : Z) : MouseButton :=
  if index =? 0 then MouseButtons.AUXILIARY_1
  else if index =? 1 then MouseButtons.AUXILIARY_2
  else if index =? 2 then MouseButtons.AUXILIARY_3
  else MouseButtons.AUXILIARY_4.

Definition unknown (reason : UnknownInputReason) (input : bytes) : Event :=
  EUnknown {| unknown_reason := reason; unknown_bytes := input |}.

Definition malformed (sequence : bytes) : Event := unknown UnknownReasons.MALFORMED_SEQUENCE sequence.
Definition unsupported (sequence : bytes) : Event := unknown UnknownReasons.UNSUPPORTED_SEQUENCE sequence.

(** ** Sequences *)

(** [sequence.back()] and [sequence.substr(2, sequence.size() - 3U)]. *)
Definition final_byte (sequence : bytes) : Z := default 0 (last sequence).
Definition sequence_body (sequence : bytes) : bytes :=
  let tail := drop 2 sequence in
  if (length sequence <? 3)%nat then tail else take (length sequence - 3) tail.

(** The position and modifiers of a mouse report. *)
Definition mouse_modifier_bits (code : Z) : Modifiers :=
  let modifiers := 0 in
  let modifiers := if negb (Z.land code 4 =? 0) then add modifiers ModifierBits.SHIFT else modifiers in
  let modifiers := if negb (Z.land code 8 =? 0) then add modifiers ModifierBits.ALT else modifiers in
  if negb (Z.land code 16 =? 0) then add modifiers ModifierBits.CONTROL else modifiers.

Definition mouse_report (sequence : bytes) (final code x y : Z) : Event :=
  let modifiers := mouse_modifier_bits code in
  let button_code := Z.land code (wrap 32 (Z.lnot (4 + 8 + 16 + 32))) in
  if negb (Z.land button_code (wrap 32 (Z.lnot (3 + 64 + 128))) =? 0) ||
     (Z.land button_code (64 + 128) =? 64 + 128)
  then unsupported sequence
  else if negb (Z.land button_code 64 =? 0) && (Z.land button_code 128 =? 0) then
    let wheel := Z.land button_code 3 in
    EScroll {| scroll_x := x - 1; scroll_y := y - 1;
               delta_x := if wheel =? 2 then 1 else if wheel =? 3 then -1 else 0;
               delta_y := if wheel =? 0 then 1 else if wheel =? 1 then -1 else 0;
               scroll_modifiers := modifiers |}
  else
    let button :=
      if negb (Z.land button_code 128 =? 0) then auxiliary_button (Z.land button_code 3)
      else if Z.land button_code 3 =? 0 then MouseButtons.LEFT
      else if Z.land button_code 3 =? 1 then MouseButtons.MIDDLE
      else if Z.land button_code 3 =? 2 then MouseButtons.RIGHT
      else MouseButtons.NONE in
    let motion := negb (Z.land code 32 =? 0) in
    EMouse {| mouse_x := x - 1; mouse_y := y - 1; mouse_button := button;
              mouse_action :=
                if final =? 109 then MouseActions.RELEASE
                else if negb motion then MouseActions.PRESS
                else if bool_decide (button = MouseButtons.NONE) then MouseActions.MOVE
                else MouseActions.DRAG;
              mouse_modifiers := modifiers |}.

Definition parse_sgr_mouse (sequence : bytes) : Event :=
  let final := final_byte sequence in
  match sequence_body sequence with
  | 60 :: report =>
      if negb (final =? 77) && negb (final =? 109) then malformed sequence
      else
        match split_fields 3 report SEMICOLON with
        | Some [first; second; third] =>
            match parse_unsigned first, parse_unsigned second, parse_unsigned third with
            | Some code, Some x, Some y =>
                if (x =? 0) || (y =? 0) then malformed sequence
                else mouse_report sequence final code x y
            | _, _, _ => malformed sequence
            end
        | _ => malformed sequence
        end
  | _ => malformed sequence
  end.

(** An optional alternate key; [None] is a malformed field. *)
Definition alternate_key (fields : list bytes) (index : nat) : option (option Z) :=
  match fields !! index with
  | None | Some [] => Some None
  | Some text =>
      value ← parse_unsigned text;
      if is_unicode_scalar value then Some (Some value) else None
  end.

(** The associated text of a Kitty report. *)
Fixpoint associated_text (fields : list bytes) (text : bytes) : option bytes :=
  match fields with
  | [] => Some text
  | field :: fields =>
      codepoint ← parse_unsigned field;
      if negb (is_unicode_scalar codepoint) || (codepoint <? 0x20) ||
         ((0x7f <=? codepoint) && (codepoint <=? 0x9f))
      then None
      else associated_text fields (append_utf8 codepoint text)
  end.

Definition kitty_text (fields : list bytes) : option bytes :=
  match fields !! 2%nat with
  | None | Some [] => Some []
  | Some field => parts ← split_fields 64 field COLON; associated_text parts []
  end.

(** The final [u]: keys of the Kitty protocol. *)
Definition kitty_key (sequence body : bytes) : Event :=
  let parsed :=
    fields ← split_fields 3 body SEMICOLON;
    first ← fields !! 0%nat;
    key_fields ← split_fields 3 first COLON;
    number_field ← key_fields !! 0%nat;
    key_number ← parse_unsigned number_field;
    shifted ← alternate_key key_fields 1;
    base ← alternate_key key_fields 2;
    '(modifiers, action) ←
      (match fields !! 1%nat with
       | None => Some (0, KeyActions.PRESS)
       | Some field => parse_modifiers_and_action field
       end);
    text ← kitty_text fields;
    Some (key_number, shifted, base, modifiers, action, text) in
  match parsed with
  | None => malformed sequence
  | Some (key_number, shifted, base, modifiers, action, text) =>
      if key_number =? 0 then
        if bool_decide (text = []) then malformed sequence else EText {| utf8 := text |}
      else
        match protocol_key_code key_number with
        | None => unsupported sequence
        | Some k =>
            EKey {| key := k; key_modifiers := modifiers; key_action := action;
                    shifted_key := shifted; base_layout_key := base; key_text := text |}
        end
  end.

Definition response (kind : TerminalResponseKind) (v : Z) (data : bytes) : Event :=
  EResponse {| response_kind := kind; response_value := v; response_bytes := data |}.

(** The final [~]: numbered keys. *)
Definition tilde_key (sequence body : bytes) : Event :=
  match split_fields 3 body SEMICOLON with
  | Some (first :: rest) =>
      match parse_unsigned first with
      | None => malformed sequence
      | Some key_number =>
          match rest with
          | [second; third] =>
              if key_number =? 27 then
                match parse_modifiers_and_action second, parse_unsigned third ≫= protocol_key_code with
                | Some (modifiers, action), Some k => EKey (plain_key k modifiers action)
                | _, _ => malformed sequence
                end
              else unsupported sequence
          | [second] =>
              match tilde_named_key key_number with
              | None => unsupported sequence
              | Some named =>
                  match parse_modifiers_and_action second with
                  | None => malformed sequence
                  | Some (modifiers, action) => EKey (plain_key (NamedCode named) modifiers action)
                  end
              end
          | _ => unsupported sequence
          end
      end
  | _ => malformed sequence
  end.

(** A letter key with its fields. *)
Definition letter_key (sequence body : bytes) (named : NamedKey) : Event :=
  match parse_letter_key_fields body with
  | None => malformed sequence
  | Some (modifiers, action) => EKey (plain_key (NamedCode named) modifiers action)
  end.

Definition parse_csi (sequence : bytes) : Event :=
  let final := final_byte sequence in
  let body := sequence_body sequence in
  if final =? 117 then
    match body with
    | 63 :: rest =>
        match parse_unsigned rest with
        | None => malformed sequence
        | Some flags => response ResponseKinds.KITTY_KEYBOARD_FLAGS flags []
        end
    | c :: _ =>
        if (c =? 62) || (c =? 60) then response ResponseKinds.KITTY_KEYBOARD_FLAGS 0 sequence
        else kitty_key sequence body
    | [] => kitty_key sequence body
    end
  else if final =? 126 then tilde_key sequence body
  else
    match body, csi_final_key final with
    | _ :: _, Some named => letter_key sequence body named
    | _, _ =>
        if (final =? 69) && negb (bool_decide (body = [])) then letter_key sequence body NamedKeys.KEYPAD_BEGIN
        else if final =? 82 then
          match split_fields 2 body SEMICOLON with
          | Some [first; second] =>
              match parse_unsigned first, parse_unsigned second with
              | Some row, Some _ => response ResponseKinds.CURSOR_POSITION row second
              | _, _ => malformed sequence
              end
          | _ => malformed sequence
          end
        else if final =? 99 then response ResponseKinds.DEVICE_ATTRIBUTES 0 sequence
        else if (final =? 121) && bool_decide (36 ∈ body) then response ResponseKinds.MODE_REPORT 0 sequence
        else unsupported sequence
    end.

Example csi_samples :
  parse_csi ([0x1b; 91] ++ str "97:65;5u") =
    EKey {| key := CharCode 97; key_modifiers := ModifierBits.CONTROL; key_action := KeyActions.PRESS;
            shifted_key := Some 65; base_layout_key := None; key_text := [] |} /\
  parse_csi ([0x1b; 91] ++ str "1;2A") = EKey (plain_key (NamedCode NamedKeys.UP) ModifierBits.SHIFT KeyActions.PRESS) /\
  parse_sgr_mouse ([0x1b; 91] ++ str "<64;3;4M") =
    EScroll {| scroll_x := 2; scroll_y := 3; delta_x := 0; delta_y := 1; scroll_modifiers := 0 |}.
Proof. by vm_compute. Qed.
