(* ===== verification/InputMap.v ===== *)
(** * Input maps (puc-cli/tui/terminal/input.hpp, input.cpp)

    The actions stored in the input trie, the readable sequence notation, and
    the builder that applies mappings in order, tracks which semantic commands
    are effective and rejects ambiguous ones. *)
From S2P Require Import Prelude.
From S2P Require Import Text.
From S2P Require Import Events.
From S2P Require Import Trie.
From S2P Require Import Clipboard.
Open Scope Z_scope.

(** Protocol behaviour entered after a sequence is recognised. *)
Inductive InputProtocol :=
| TEXT
| ESCAPE
| SS3
| CSI
| OSC
| DEVICE_CONTROL_STRING
| APPLICATION_PROGRAM_COMMAND
| PRIVACY_MESSAGE
| SGR_MOUSE
| OSC52
| PASTE_BEGIN
| PASTE_END.

#[global] Instance InputProtocol_eq_dec : EqDecision InputProtocol.
Proof. solve_decision. Defined.

(** [std::variant<std::monostate, EmitInputEvent, EnterInputProtocol>] *)
Inductive InputAction :=
| Inert
| EmitInputEvent (event : Event)
| EnterInputProtocol (protocol : InputProtocol).

Definition action_event (action : InputAction) : option Event :=
  match action with EmitInputEvent event => Some event | _ => None end.
Definition action_protocol (action : InputAction) : option InputProtocol :=
  match action with EnterInputProtocol protocol => Some protocol | _ => None end.
Definition action_empty (action : InputAction) : bool :=
  match action with Inert => true | _ => false end.

Definition kMaximumConfiguredSequenceBytes : nat := 4096.

Abbreviation InputTrie := (list (TrieNode Z InputAction)).
Definition empty_trie : InputTrie := new_trie Inert.
Definition trie_node (t : InputTrie) (i : nat) : TrieNode Z InputAction := node Inert t i.

(** ** Sequence notation *)

(** The bytes of one [<TOKEN>]. *)
Definition token_bytes (token : bytes) : option bytes :=
  if bool_decide (token = str "ESC") then Some [0x1b]
  else if bool_decide (token = str "CSI") then Some (0x1b :: str "[")
  else if bool_decide (token = str "OSC") then Some (0x1b :: str "]")
  else if bool_decide (token = str "DCS") then Some (0x1b :: str "P")
  else if bool_decide (token = str "APC") then Some (0x1b :: str "_")
  else if bool_decide (token = str "PM") then Some (0x1b :: str "^")
  else if bool_decide (token = str "ST") then Some (0x1b :: str "\")
  else if bool_decide (token = str "BEL") then Some [7]
  else if bool_decide (token = str "DEL") then Some [0x7f]
  else if bool_decide (token = str "NUL") then Some [0]
  else if bool_decide (token = str "TAB") then Some [9]
  else if bool_decide (token = str "CR") then Some [13]
  else if bool_decide (token = str "LF") then Some [10]
  else if bool_decide (token = str "LT") then Some [60]
  else None.

(** [encoded.find('>', ...)]: the text before the first [>] and the rest. *)
Fixpoint find_close (encoded token : bytes) : option (bytes * bytes) :=
  match encoded with
  | [] => None
  | c :: rest => if c =? 62 then Some (reverse token, rest) else find_close rest (c :: token)
  end.

(** The byte of a caret notation. *)
Definition caret_byte (control : Z) : option Z :=
  if control =? 63 then Some 0x7f
  else
    let control := if (97 <=? control) && (control <=? 122) then control - 97 + 65 else control in
    if (64 <=? control) && (control <=? 95) then Some (Z.land control 0x1f) else None.

(** The loop of [decode_sequence]; every iteration consumes input. *)
Fixpoint decode_sequence_loop (fuel : nat) (encoded decoded : bytes) : option bytes :=
  match fuel with
  | O => None
  | S fuel =>
      match encoded with
      | [] => if (length decoded <=? kMaximumConfiguredSequenceBytes)%nat then Some decoded else None
      | c :: rest =>
          if c =? 60 then
            '(token, rest) ← find_close rest [];
            b ← token_bytes token;
            decode_sequence_loop fuel rest (decoded ++ b)
          else
            match rest with
            | control :: rest' =>
                if c =? 94 then
                  b ← caret_byte control;
                  decode_sequence_loop fuel rest' (decoded ++ [b])
                else decode_sequence_loop fuel rest (decoded ++ [c])
            | [] => decode_sequence_loop fuel rest (decoded ++ [c])
            end
      end
  end.

Definition decode_sequence (encoded : bytes) : option bytes :=
  decode_sequence_loop (S (length encoded)) encoded [].

(** [diagnostic_sequence]: printable rendering for log lines. *)
Definition kHexDigits : bytes := str "0123456789ABCDEF".
Definition diagnostic_byte (b : Z) : bytes :=
  if b =? 0x1b then str "<ESC>"
  else if b =? 0x7f then str "<DEL>"
  else if b <? 0x20 then [94; b + 64]
  else if b <? 0x7f then [b]
  else str "\x" ++ [default 0 (kHexDigits !! Z.to_nat (Z.shiftr b 4));
                    default 0 (kHexDigits !! Z.to_nat (Z.land b 0x0f))].

Definition diagnostic_sequence (sequence : bytes) : bytes := flat_map diagnostic_byte sequence.

(** ** The builder *)

Record TerminfoKeyBinding := { capability : bytes; binding_event : KeyEvent }.

Record SourceLocation := { source : bytes; line : Z; column : Z }.

Record CommandSequence := { sequence : bytes; declared_at : SourceLocation }.

Record ExactCommandConflict := { first_declaration : CommandSequence; second_declaration : CommandSequence }.

Record InputMap := {
  trie_ : InputTrie;
  terminfo_keys_ : list TerminfoKeyBinding;
  command_sequences_ : list CommandSequence;
  exact_command_conflicts_ : list ExactCommandConflict;
}.

Definition empty_map : InputMap :=
  {| trie_ := empty_trie; terminfo_keys_ := []; command_sequences_ := []; exact_command_conflicts_ := [] |}.

Definition with_trie (m : InputMap) (t : InputTrie) : InputMap :=
  {| trie_ := t; terminfo_keys_ := terminfo_keys_ m; command_sequences_ := command_sequences_ m;
     exact_command_conflicts_ := exact_command_conflicts_ m |}.
Definition with_terminfo_keys (m : InputMap) (keys : list TerminfoKeyBinding) : InputMap :=
  {| trie_ := trie_ m; terminfo_keys_ := keys; command_sequences_ := command_sequences_ m;
     exact_command_conflicts_ := exact_command_conflicts_ m |}.
Definition with_commands (m : InputMap) (commands : list CommandSequence)
    (conflicts : list ExactCommandConflict) : InputMap :=
  {| trie_ := trie_ m; terminfo_keys_ := terminfo_keys_ m; command_sequences_ := commands;
     exact_command_conflicts_ := conflicts |}.

Definition register_sequence (m : InputMap) (sequence : bytes) (action : InputAction) : InputMap * Status :=
  if (kMaximumConfiguredSequenceBytes <? length sequence)%nat || action_empty action ||
     (bool_decide (sequence = []) && negb (bool_decide (action_protocol action = Some TEXT)))
  then (m, INVALID_ARGUMENT)
  else (with_trie m (fst (insert Inert (trie_ m) sequence action)), OK).

Definition register_key_sequence (m : InputMap) (sequence : bytes) (event : KeyEvent) : InputMap * Status :=
  register_sequence m sequence (EmitInputEvent (EKey event)).

Definition disable_sequence (m : InputMap) (sequence : bytes) : InputMap * bool :=
  let (t, removed) := erase Inert (trie_ m) sequence in (with_trie m t, removed).

Definition capability_byte (b : Z) : bool :=
  ((97 <=? b) && (b <=? 122)) || ((65 <=? b) && (b <=? 90)) || ((48 <=? b) && (b <=? 57)) || (b =? 95).

(** Replace the binding of the capability in place, or append one. *)
Fixpoint replace_binding (keys : list TerminfoKeyBinding) (name : bytes) (event : KeyEvent)
  : list TerminfoKeyBinding :=
  match keys with
  | [] => [{| capability := name; binding_event := event |}]
  | binding :: keys =>
      if bool_decide (capability binding = name)
      then {| capability := name; binding_event := event |} :: keys
      else binding :: replace_binding keys name event
  end.

Definition register_terminfo_key (m : InputMap) (name : bytes) (event : KeyEvent) : InputMap * Status :=
  if bool_decide (name = []) || (64 <? length name)%nat then (m, INVALID_ARGUMENT)
  else if negb (forallb capability_byte name) then (m, INVALID_ARGUMENT)
  else (with_terminfo_keys m (replace_binding (terminfo_keys_ m) name event), OK).

(** Split a list at the entry of a sequence: what precedes it, and it. *)
Fixpoint find_command (commands : list CommandSequence) (path : bytes)
  : option (list CommandSequence * CommandSequence * list CommandSequence) :=
  match commands with
  | [] => None
  | c :: commands =>
      if bool_decide (sequence c = path) then Some ([], c, commands)
      else match find_command commands path with
           | Some (before, found, after) => Some (c :: before, found, after)
           | None => None
           end
  end.

Definition is_command (action : option InputAction) : bool :=
  match action with Some (EmitInputEvent (ECommand _)) => true | _ => false end.

Definition track_command_sequence (m : InputMap) (path : bytes) (action : option InputAction)
    (location : SourceLocation) : InputMap :=
  let declaration := {| sequence := path; declared_at := location |} in
  match find_command (command_sequences_ m) path with
  | None =>
      if is_command action
      then with_commands m (command_sequences_ m ++ [declaration]) (exact_command_conflicts_ m)
      else m
  | Some (before, existing, after) =>
      if negb (is_command action)
      then with_commands m (before ++ after) (exact_command_conflicts_ m)
      else
        let conflicts :=
          if bool_decide (source (declared_at existing) = source location)
          then exact_command_conflicts_ m ++
                 [{| first_declaration := existing; second_declaration := declaration |}]
          else exact_command_conflicts_ m in
        with_commands m (before ++ declaration :: after) conflicts
  end.

(** [std::string_view::starts_with]. *)
Definition starts_with (text prefix : bytes) : bool :=
  bool_decide (take (length prefix) text = prefix).

Fixpoint count_conflicts (commands : list CommandSequence) : nat :=
  match commands with
  | [] => O
  | first :: rest =>
      (length (List.filter (fun second =>
        starts_with (sequence first) (sequence second) || starts_with (sequence second) (sequence first))
        rest) + count_conflicts rest)%nat
  end.

Definition validate_command_sequences (m : InputMap) : Status :=
  if (length (exact_command_conflicts_ m) + count_conflicts (command_sequences_ m) =? 0)%nat
  then OK else CONFIGURATION_PARSE_FAILED.

(** Depth-first search for a protocol action; [fuel] bounds the depth. *)
Fixpoint find_protocol_path (fuel : nat) (t : InputTrie) (i : nat) (protocol : InputProtocol) (path : bytes)
  : option bytes :=
  match fuel with
  | O => None
  | S fuel =>
      let current := trie_node t i in
      if sequence_end current && bool_decide (action_protocol (value current) = Some protocol)
      then Some path
      else
        (fix first_child (l : list nat) :=
           match l with
           | [] => None
           | child :: l =>
               match find_protocol_path fuel t child protocol (path ++ [Trie.key (trie_node t child)]) with
               | Some found => Some found
               | None => first_child l
               end
           end) (children current)
  end.

(** The path found, or the empty string. *)
Definition find_protocol_sequence (m : InputMap) (protocol : InputProtocol) : option bytes :=
  find_protocol_path (length (trie_ m)) (trie_ m) kRootNode protocol [].

Example decode_sequence_samples :
  decode_sequence (str "<CSI>200~") = Some (0x1b :: str "[200~") /\
  decode_sequence (str "^a^?") = Some [1; 0x7f] /\ decode_sequence (str "^") = Some (str "^") /\
  decode_sequence (str "<CSI") = None /\ decode_sequence (str "^!") = None.
Proof. by vm_compute. Qed.
