(* ===== verification/Decoder.v ===== *)
(** * The streaming input decoder (puc-cli/tui/terminal/decoder.hpp, decoder.cpp)

    The state machine over the input trie: a longest-match cursor, captures of
    parameterised protocols, bracketed paste with limits, and generation-tagged
    timeouts. A [World] is a decoder with the caller's event vector. *)
From S2P Require Import Prelude.
From S2P Require Import Text.
From S2P Require Import Utf8.
From S2P Require Import Events.
From S2P Require Import Trie.
From S2P Require Import Clipboard.
From S2P Require Import KeyProtocol.
From S2P Require Import InputMap.
Open Scope Z_scope.

(** ** State *)

Record DecoderLimits := {
  maximum_pending_bytes : Z;
  maximum_sequence_bytes : Z;
  maximum_paste_bytes : Z;
  maximum_clipboard_bytes : Z;
}.

Definition default_limits : DecoderLimits :=
  {| maximum_pending_bytes := 2 * 1024 * 1024; maximum_sequence_bytes := 4096;
     maximum_paste_bytes := 16 * 1024 * 1024; maximum_clipboard_bytes := 1024 * 1024 |}.

Record TrieCursor := {
  cursor_node : nat;
  last_match : option nat;
  scanned : nat;
  last_match_size : nat;
}.

Definition root_cursor : TrieCursor :=
  {| cursor_node := kRootNode; last_match := None; scanned := 0; last_match_size := 0 |}.

(** [None] in [active_action_node] is [kInvalidNode]; a [TimeoutInput] is its
    generation. *)
Record Decoder := {
  limits : DecoderLimits;
  buffer : bytes;
  offset : nat;
  input_trie : InputTrie;
  trie_cursor : TrieCursor;
  active_action_node : option nat;
  active_sequence : bytes;
  paste_candidate : bytes;
  paste_end_sequence : bytes;
  paste_in_progress : bool;
  paste_discarding : bool;
  paste_bytes : Z;
  next_timeout_generation : Z;
  pending_timeout : option Z;
}.

Record World := { dec : Decoder; events : list Event }.

Inductive ParseResult := CONSUMED | NEED_MORE.

(** Assignments to members. *)
Definition with_input (w : World) (buffer : bytes) (offset : nat) : World :=
  let d := dec w in
  {| dec := {| limits := limits d; buffer := buffer; offset := offset; input_trie := input_trie d;
       trie_cursor := trie_cursor d; active_action_node := active_action_node d;
       active_sequence := active_sequence d; paste_candidate := paste_candidate d;
       paste_end_sequence := paste_end_sequence d; paste_in_progress := paste_in_progress d;
       paste_discarding := paste_discarding d; paste_bytes := paste_bytes d;
       next_timeout_generation := next_timeout_generation d; pending_timeout := pending_timeout d |};
     events := events w |}.

Definition with_cursor (w : World) (cursor : TrieCursor) : World :=
  let d := dec w in
  {| dec := {| limits := limits d; buffer := buffer d; offset := offset d; input_trie := input_trie d;
       trie_cursor := cursor; active_action_node := active_action_node d;
       active_sequence := active_sequence d; paste_candidate := paste_candidate d;
       paste_end_sequence := paste_end_sequence d; paste_in_progress := paste_in_progress d;
       paste_discarding := paste_discarding d; paste_bytes := paste_bytes d;
       next_timeout_generation := next_timeout_generation d; pending_timeout := pending_timeout d |};
     events := events w |}.

Definition with_active (w : World) (node : option nat) (sequence : bytes) : World :=
  let d := dec w in
  {| dec := {| limits := limits d; buffer := buffer d; offset := offset d; input_trie := input_trie d;
       trie_cursor := trie_cursor d; active_action_node := node;
       active_sequence := sequence; paste_candidate := paste_candidate d;
       paste_end_sequence := paste_end_sequence d; paste_in_progress := paste_in_progress d;
       paste_discarding := paste_discarding d; paste_bytes := paste_bytes d;
       next_timeout_generation := next_timeout_generation d; pending_timeout := pending_timeout d |};
     events := events w |}.

Definition with_paste (w : World) (candidate : bytes) (in_progress discarding : bool) (count : Z) : World :=
  let d := dec w in
  {| dec := {| limits := limits d; buffer := buffer d; offset := offset d; input_trie := input_trie d;
       trie_cursor := trie_cursor d; active_action_node := active_action_node d;
       active_sequence := active_sequence d; paste_candidate := candidate;
       paste_end_sequence := paste_end_sequence d; paste_in_progress := in_progress;
       paste_discarding := discarding; paste_bytes := count;
       next_timeout_generation := next_timeout_generation d; pending_timeout := pending_timeout d |};
     events := events w |}.

Definition with_timeout (w : World) (generation : Z) (pending : option Z) : World :=
  let d := dec w in
  {| dec := {| limits := limits d; buffer := buffer d; offset := offset d; input_trie := input_trie d;
       trie_cursor := trie_cursor d; active_action_node := active_action_node d;
       active_sequence := active_sequence d; paste_candidate := paste_candidate d;
       paste_end_sequence := paste_end_sequence d; paste_in_progress := paste_in_progress d;
       paste_discarding := paste_discarding d; paste_bytes := paste_bytes d;
       next_timeout_generation := generation; pending_timeout := pending |};
     events := events w |}.

(** [events.emplace_back(event)] *)
Definition emit (w : World) (event : Event) : World :=
  {| dec := dec w; events := events w ++ [event] |}.

(** [UnknownEvent] values: with bytes, and with only a reason. *)
Definition unknown_reason_event (reason : UnknownInputReason) : Event := unknown reason [].

(** ** Construction *)

Definition positive_limit (limit : Z) : Z := if limit =? 0 then 1 else limit.

Definition new_decoder (l : DecoderLimits) (t : InputTrie) (paste_end : bytes) : Decoder :=
  {| limits := {| maximum_pending_bytes := positive_limit (maximum_pending_bytes l);
                  maximum_sequence_bytes := positive_limit (maximum_sequence_bytes l);
                  maximum_paste_bytes := maximum_paste_bytes l;
                  maximum_clipboard_bytes := maximum_clipboard_bytes l |};
     buffer := []; offset := 0; input_trie := t; trie_cursor := root_cursor;
     active_action_node := None; active_sequence := []; paste_candidate := [];
     paste_end_sequence := paste_end; paste_in_progress := false; paste_discarding := false;
     paste_bytes := 0; next_timeout_generation := 0; pending_timeout := None |}.

(** [Decoder(DecoderLimits)]: the trie holds only its root. *)
Definition unconfigured_decoder (l : DecoderLimits) : Decoder := new_decoder l empty_trie [].

(** [Decoder(InputMap, DecoderLimits)] *)
Definition configured_decoder (m : InputMap) (l : DecoderLimits) : Decoder :=
  new_decoder l (trie_ m) (default [] (find_protocol_sequence m PASTE_END)).

(** ** Buffer and cursor *)

Definition pending (d : Decoder) : bytes := drop (offset d) (buffer d).

Definition consume (w : World) (byte_count : nat) : World :=
  with_input w (buffer (dec w)) (offset (dec w) + byte_count).

Definition compact (w : World) : World :=
  let d := dec w in
  if (offset d =? 0)%nat then w
  else if (offset d =? length (buffer d))%nat then with_input w [] 0
  else with_input w (drop (offset d) (buffer d)) 0.

Definition reset_trie_cursor (w : World) : World := with_cursor w root_cursor.

Definition reset_active_action (w : World) : World := with_active w None [].

Definition active_protocol (d : Decoder) : option InputProtocol :=
  match active_action_node d with
  | None => None
  | Some i => action_protocol (value (trie_node (input_trie d) i))
  end.

Definition pending_bytes (d : Decoder) : Z :=
  Z.of_nat (length (pending d)) + Z.of_nat (length (active_sequence d))
  + Z.of_nat (length (paste_candidate d)).

Definition update_pending_timeout (w : World) (rearm : bool) : World :=
  let d := dec w in
  let needs_timeout :=
    negb (paste_in_progress d) &&
    (bool_decide (active_action_node d <> None) || negb (bool_decide (pending d = []))) in
  if negb needs_timeout then with_timeout w (next_timeout_generation d) None
  else if negb rearm && bool_decide (pending_timeout d <> None) then w
  else
    let generation := wrap 64 (next_timeout_generation d + 1) in
    let generation := if generation =? 0 then wrap 64 (generation + 1) else generation in
    with_timeout w generation (Some generation).

(** Returned by a step: the world, its status and its [ParseResult]. *)
Abbreviation Step := (World * Status * ParseResult)%type.

Definition consumed (w : World) : Step := (w, OK, CONSUMED).
Definition need_more (w : World) : Step := (w, OK, NEED_MORE).

(** Report and drop the active capture. *)
Definition abandon (w : World) (event : Event) : World := reset_active_action (emit w event).

Definition limit_exceeded (w : World) : Step :=
  (abandon w (unknown_reason_event UnknownReasons.LIMIT_EXCEEDED), INPUT_LIMIT_EXCEEDED, CONSUMED).

(** ** Text *)

(** The size of the leading run of printable text; [None] waits for the rest
    of an incomplete first scalar, [Some 0] is an invalid first byte. *)
Fixpoint text_run (fuel : nat) (input : bytes) (text_size : nat) : option nat :=
  match fuel with
  | O => Some text_size
  | S fuel =>
      match drop text_size input with
      | [] => Some text_size
      | b :: _ =>
          if (b =? kEscape) || (b <? 0x20) || (b =? 0x7f) then Some text_size
          else if b <? 0x80 then text_run fuel input (S text_size)
          else
            match decode_scalar (drop text_size input) with
            | INCOMPLETE => if (text_size =? 0)%nat then None else Some text_size
            | INVALID => Some text_size
            | VALID _ length => text_run fuel input (text_size + length)
            end
      end
  end.

Definition parse_text (w : World) : World * ParseResult :=
  let input := pending (dec w) in
  let first := default 0 (head input) in
  if (first <? 0x20) || (first =? 0x7f) then
    (consume (emit w (unsupported (take 1 input))) 1, CONSUMED)
  else
    match text_run (length input) input 0 with
    | None => (w, NEED_MORE)
    | Some O => (consume (emit w (unknown UnknownReasons.INVALID_UTF8 (take 1 input))) 1, CONSUMED)
    | Some text_size => (consume (emit w (EText {| utf8 := take text_size input |})) text_size, CONSUMED)
    end.

(** ** Captures *)

(** The trailing size-bounded view [sequence.substr(2, size - 2 - terminator)]. *)
Definition osc_content (sequence : bytes) : bytes :=
  let terminator_size := if final_byte sequence =? 7 then 1%nat else 2%nat in
  let tail := drop 2 sequence in
  if (length sequence <? 2 + terminator_size)%nat then tail
  else take (length sequence - 2 - terminator_size) tail.

(** [find(';')]: the text before the first separator and after it. *)
Fixpoint split_first (delimiter : Z) (text before : bytes) : option (bytes * bytes) :=
  match text with
  | [] => None
  | c :: rest => if c =? delimiter then Some (reverse before, rest) else split_first delimiter rest (c :: before)
  end.

Definition parse_osc (sequence : bytes) : Event :=
  response ResponseKinds.OPERATING_SYSTEM_COMMAND 0 sequence.

Definition osc52_selection (selectors : bytes) : option ClipboardSelection :=
  if bool_decide (99 ∈ selectors) then Some ClipboardSelections.CLIPBOARD
  else if bool_decide (112 ∈ selectors) then Some ClipboardSelections.PRIMARY
  else None.

Definition parse_osc52 (sequence : bytes) (maximum_clipboard_bytes : Z) : Event * Status :=
  let content := osc_content sequence in
  if negb (starts_with content (str "52;")) then (malformed sequence, OK)
  else
    match split_first SEMICOLON (drop 3 content) [] with
    | None => (unknown_reason_event UnknownReasons.MALFORMED_SEQUENCE, OK)
    | Some (selectors, payload) =>
        if bool_decide (payload = str "?") then (response ResponseKinds.OPERATING_SYSTEM_COMMAND 0 [], OK)
        else
          match osc52_selection selectors with
          | None => (unknown_reason_event UnknownReasons.UNSUPPORTED_SEQUENCE, OK)
          | Some selection =>
              match decode_clipboard_payload selection payload maximum_clipboard_bytes with
              | Ok event => (EClipboard event, OK)
              | Err status =>
                  if bool_decide (status = INPUT_LIMIT_EXCEEDED)
                  then (unknown_reason_event UnknownReasons.LIMIT_EXCEEDED, status)
                  else (unknown_reason_event UnknownReasons.MALFORMED_SEQUENCE, OK)
              end
          end
    end.

Definition maximum_osc52_sequence_bytes (decoded_bytes : Z) : Z :=
  if (size_max - 2) / 3 <? decoded_bytes then size_max
  else
    let encoded := (decoded_bytes + 2) / 3 * 4 in
    if size_max - 24 <? encoded then size_max else encoded + 24.

(** [active_sequence_.push_back(pending().front()); consume(1)] *)
Definition capture_byte (w : World) (b : Z) : World :=
  with_active (consume w 1) (active_action_node (dec w)) (active_sequence (dec w) ++ [b]).

Definition sequence_full (d : Decoder) (limit : Z) : bool :=
  limit <=? Z.of_nat (length (active_sequence d)).

Definition incomplete_sequence (w : World) : Step :=
  consumed (abandon w (unknown UnknownReasons.INCOMPLETE_SEQUENCE (active_sequence (dec w)))).

Definition parse_alt_key (w : World) : Step :=
  let input := pending (dec w) in
  match input with
  | [] => need_more w
  | first :: _ =>
      if first =? kEscape then
        consumed (reset_active_action (consume
          (emit w (EKey (plain_key (NamedCode NamedKeys.ESCAPE) ModifierBits.ALT KeyActions.PRESS))) 1))
      else
        match legacy_control_key first with
        | Some control =>
            consumed (reset_active_action (consume
              (emit w (EKey (plain_key (Events.key control) (add (key_modifiers control) ModifierBits.ALT)
                 (key_action control)))) 1))
        | None =>
            match decode_scalar input with
            | INCOMPLETE => need_more w
            | INVALID =>
                consumed (reset_active_action (consume
                  (emit w (unknown UnknownReasons.INVALID_UTF8 (active_sequence (dec w) ++ [first]))) 1))
            | VALID codepoint length =>
                consumed (reset_active_action (consume
                  (emit w (EKey (plain_key (CharCode codepoint) ModifierBits.ALT KeyActions.PRESS))) length))
            end
        end
  end.

(** The capture loops; [fuel] is the number of pending bytes. *)
Fixpoint capture_ss3 (fuel : nat) (w : World) : Step :=
  match fuel with
  | O => need_more w
  | S fuel =>
      match pending (dec w) with
      | [] => need_more w
      | b :: _ =>
          if b =? kEscape then incomplete_sequence w
          else
            let w := capture_byte w b in
            if (0x40 <=? b) && (b <=? 0x7e) then
              consumed (abandon w (unsupported (active_sequence (dec w))))
            else if (b <? 0x20) || (0x3f <? b) then
              consumed (abandon w (malformed (active_sequence (dec w))))
            else if sequence_full (dec w) (maximum_sequence_bytes (limits (dec w)))
            then limit_exceeded w
            else capture_ss3 fuel w
      end
  end.

Fixpoint capture_csi (sgr_mouse : bool) (fuel : nat) (w : World) : Step :=
  match fuel with
  | O => need_more w
  | S fuel =>
      match pending (dec w) with
      | [] => need_more w
      | b :: _ =>
          if b =? kEscape then incomplete_sequence w
          else
            let w := capture_byte w b in
            if (0x40 <=? b) && (b <=? 0x7e) then
              let sgr_mouse_report := sgr_mouse && ((b =? 77) || (b =? 109)) in
              consumed (abandon w (if sgr_mouse_report then parse_sgr_mouse (active_sequence (dec w))
                                   else parse_csi (active_sequence (dec w))))
            else if (b <? 0x20) || (0x3f <? b) then
              consumed (abandon w (malformed (active_sequence (dec w))))
            else if sequence_full (dec w) (maximum_sequence_bytes (limits (dec w)))
            then limit_exceeded w
            else capture_csi sgr_mouse fuel w
      end
  end.

(** An OSC capture ends at BEL or ST with this event and status. *)
Definition osc_event (osc52 : bool) (d : Decoder) : Event * Status :=
  if osc52 then parse_osc52 (active_sequence d) (maximum_clipboard_bytes (limits d))
  else (parse_osc (active_sequence d), OK).

Definition finish_osc (osc52 : bool) (w : World) : Step :=
  let (event, status) := osc_event osc52 (dec w) in (abandon w event, status, CONSUMED).

(** [active_sequence_.append(pending().substr(0, 2)); consume(2)] *)
Definition capture_terminator (w : World) : World :=
  with_active (consume w 2) (active_action_node (dec w))
    (active_sequence (dec w) ++ take 2 (pending (dec w))).

(** Room for the two bytes of ST. *)
Definition terminator_fits (d : Decoder) (limit : Z) : bool :=
  negb ((limit <? 2) || (limit - 2 <? Z.of_nat (length (active_sequence d)))).

Definition osc_limit (osc52 : bool) (d : Decoder) : Z :=
  if osc52 then maximum_osc52_sequence_bytes (maximum_clipboard_bytes (limits d))
  else maximum_sequence_bytes (limits d).

Fixpoint capture_osc (osc52 : bool) (fuel : nat) (w : World) : Step :=
  let sequence_limit := osc_limit osc52 (dec w) in
  match fuel with
  | O => need_more w
  | S fuel =>
      match pending (dec w) with
      | [] => need_more w
      | b :: rest =>
          if b =? kEscape then
            match rest with
            | [] => need_more w
            | next :: _ =>
                if next =? 92 then
                  if terminator_fits (dec w) sequence_limit
                  then finish_osc osc52 (capture_terminator w)
                  else limit_exceeded w
                else incomplete_sequence w
            end
          else
            let w := capture_byte w b in
            if b =? 7 then finish_osc osc52 w
            else if sequence_full (dec w) sequence_limit then limit_exceeded w
            else capture_osc osc52 fuel w
      end
  end.

Fixpoint capture_st_string (kind : TerminalResponseKind) (fuel : nat) (w : World) : Step :=
  let limit := maximum_sequence_bytes (limits (dec w)) in
  match fuel with
  | O => need_more w
  | S fuel =>
      match pending (dec w) with
      | [] => need_more w
      | b :: rest =>
          if b =? kEscape then
            match rest with
            | [] => need_more w
            | next :: _ =>
                if next =? 92 then
                  if terminator_fits (dec w) limit then
                    let w := capture_terminator w in
                    consumed (abandon w (response kind 0 (active_sequence (dec w))))
                  else limit_exceeded w
                else incomplete_sequence w
            end
          else
            let w := capture_byte w b in
            if sequence_full (dec w) limit then limit_exceeded w
            else capture_st_string kind fuel w
      end
  end.

(** ** Bracketed paste *)

Definition paste_event (phase : PastePhase) (data : bytes) : Event :=
  EPaste {| paste_phase := phase; paste_data := data |}.

Definition append_paste_data (w : World) (data : bytes) : World * Status :=
  let d := dec w in
  if bool_decide (data = []) || paste_discarding d then (w, OK)
  else if maximum_paste_bytes (limits d) - Z.min (paste_bytes d) (maximum_paste_bytes (limits d))
          <? Z.of_nat (length data)
  then (with_paste (emit w (paste_event PastePhases.CANCEL [])) (paste_candidate d) (paste_in_progress d) true
          (paste_bytes d), INPUT_LIMIT_EXCEEDED)
  else (with_paste (emit w (paste_event PastePhases.DATA data)) (paste_candidate d) (paste_in_progress d)
          (paste_discarding d) (paste_bytes d + Z.of_nat (length data)), OK).

(** Move bytes that cannot start the end sequence from the candidate to the
    data. *)
Fixpoint settle_candidate (paste_end candidate data : bytes) : bytes * bytes :=
  match candidate with
  | [] => ([], data)
  | c :: rest =>
      if starts_with paste_end candidate then (candidate, data)
      else settle_candidate paste_end rest (data ++ [c])
  end.

Definition end_paste (w : World) : World :=
  let w := if paste_discarding (dec w) then w else emit w (paste_event PastePhases.END []) in
  reset_active_action (with_paste w [] false false 0).

Fixpoint capture_paste_loop (fuel : nat) (w : World) (data : bytes) : Step :=
  match fuel, pending (dec w) with
  | S fuel, b :: _ =>
      let d := dec w in
      let (candidate, data) := settle_candidate (paste_end_sequence d) (paste_candidate d ++ [b]) data in
      let w := with_paste (consume w 1) candidate (paste_in_progress d) (paste_discarding d) (paste_bytes d) in
      if bool_decide (candidate = paste_end_sequence d) then
        let (w, data_status) := append_paste_data w data in
        (end_paste w, data_status, CONSUMED)
      else capture_paste_loop fuel w data
  | _, _ =>
      let (w, status) := append_paste_data w data in
      (w, status, if bool_decide (data = []) then NEED_MORE else CONSUMED)
  end.

Definition capture_paste (w : World) : Step :=
  let d := dec w in
  if bool_decide (paste_end_sequence d = []) then
    let w := abandon w (unknown_reason_event UnknownReasons.UNSUPPORTED_SEQUENCE) in
    (with_paste w (paste_candidate d) false (paste_discarding d) (paste_bytes d), UNSUPPORTED, CONSUMED)
  else capture_paste_loop (length (pending d)) w [].

(** ** Dispatch *)

Definition advance_active_action (w : World) : Step :=
  let fuel := length (pending (dec w)) in
  match active_protocol (dec w) with
  | None => (reset_active_action w, INVALID_ARGUMENT, CONSUMED)
  | Some TEXT => let (w, result) := parse_text w in (w, OK, result)
  | Some ESCAPE => parse_alt_key w
  | Some SS3 => capture_ss3 fuel w
  | Some CSI => capture_csi false fuel w
  | Some SGR_MOUSE => capture_csi true fuel w
  | Some OSC => capture_osc false fuel w
  | Some OSC52 => capture_osc true fuel w
  | Some DEVICE_CONTROL_STRING => capture_st_string ResponseKinds.DEVICE_CONTROL_STRING fuel w
  | Some APPLICATION_PROGRAM_COMMAND | Some PRIVACY_MESSAGE =>
      capture_st_string ResponseKinds.OPERATING_SYSTEM_COMMAND fuel w
  | Some PASTE_BEGIN => capture_paste w
  | Some PASTE_END => (reset_active_action w, INVALID_ARGUMENT, CONSUMED)
  end.

(** Consume and report [size] bytes no mapping accepts. *)
Definition reject (w : World) (size : nat) : Step :=
  consumed (reset_trie_cursor (consume (emit w (unsupported (take size (pending (dec w))))) size)).

Definition enter_protocol (w : World) (i : nat) (byte_count : nat) (protocol : InputProtocol) : World :=
  let matched := take byte_count (pending (dec w)) in
  let w := reset_trie_cursor (consume w byte_count) in
  match protocol with
  | PASTE_BEGIN =>
      let w := emit w (paste_event PastePhases.BEGIN []) in
      with_paste (with_active w (Some i) []) [] true false 0
  | PASTE_END => emit w (unsupported matched)
  | _ => with_active w (Some i) matched
  end.

Definition execute_action (w : World) (i : nat) (byte_count : nat) : Step :=
  match value (trie_node (input_trie (dec w)) i) with
  | EmitInputEvent event => consumed (reset_trie_cursor (consume (emit w event) byte_count))
  | Inert =>
      consumed (reset_trie_cursor
        (consume (emit w (unsupported (take byte_count (pending (dec w)))))
           (if (byte_count =? 0)%nat then 1 else byte_count)%nat))
  | EnterInputProtocol TEXT =>
      let (w, result) := parse_text (reset_trie_cursor w) in (w, OK, result)
  | EnterInputProtocol protocol => consumed (enter_protocol w i byte_count protocol)
  end.

(** [advance_trie]; [fuel] is the number of bytes not yet scanned. *)
Fixpoint advance_trie (fuel : nat) (w : World) : Step :=
  let t := input_trie (dec w) in
  let c := trie_cursor (dec w) in
  match fuel, drop (scanned c) (pending (dec w)) with
  | S fuel, b :: _ =>
      match find_child Inert t (cursor_node c) b with
      | None =>
          match last_match c with
          | Some m => execute_action w m (last_match_size c)
          | None =>
              if negb (scanned c =? 0)%nat then reject w (scanned c)
              else if sequence_end (trie_node t kRootNode) then execute_action w kRootNode 0
              else reject w 1
          end
      | Some child =>
          let n := trie_node t child in
          let size := S (scanned c) in
          let w := with_cursor w
            {| cursor_node := child;
               last_match := if sequence_end n then Some child else last_match c;
               scanned := size;
               last_match_size := if sequence_end n then size else last_match_size c |} in
          if sequence_end n && bool_decide (children n = []) then execute_action w child size
          else if negb (sequence_end n) && bool_decide (children n = []) then reject w size
          else advance_trie fuel w
      end
  | _, _ => need_more w
  end.

Definition step_decoder (w : World) : Step :=
  match active_action_node (dec w) with
  | None => advance_trie (length (pending (dec w))) w
  | Some _ => advance_active_action w
  end.

(** [process]; [None] is a loop still running when [fuel] ends. *)
Fixpoint process_loop (fuel : nat) (w : World) (first_error : Status) : option (World * Status) :=
  match pending (dec w) with
  | [] => Some (w, first_error)
  | _ =>
      match fuel with
      | O => None
      | S fuel =>
          let '(w, status, result) := step_decoder w in
          let first_error := if negb (is_ok status) && is_ok first_error then status else first_error in
          match result with
          | NEED_MORE => Some (w, first_error)
          | CONSUMED => process_loop fuel w first_error
          end
      end
  end.

(** Two iterations per byte: one may only leave a capture. *)
Definition process_fuel (d : Decoder) : nat := 2 * length (pending d) + 1.

Definition process (w : World) : option (World * Status) := process_loop (process_fuel (dec w)) w OK.

(** ** Operations *)

Definition feed (w : World) (input : bytes) : option (World * Status) :=
  let w := compact w in
  let maximum := maximum_pending_bytes (limits (dec w)) in
  let retained := Z.min (pending_bytes (dec w)) maximum in
  if maximum - retained <? Z.of_nat (length input)
  then Some (emit w (unknown_reason_event UnknownReasons.LIMIT_EXCEEDED), INPUT_LIMIT_EXCEEDED)
  else
    '(w, status) ← process (with_input w (buffer (dec w) ++ input) (offset (dec w)));
    Some (update_pending_timeout (compact w) (negb (bool_decide (input = []))), status).

Definition resolve_timed_out_active_action (w : World) : option (World * Status) :=
  let d := dec w in
  match active_protocol d with
  | None => Some (reset_active_action w, INVALID_ARGUMENT)
  | Some protocol =>
      if paste_in_progress d then Some (w, OK)
      else
        match active_sequence d with
        | b :: rest =>
            if b =? kEscape then
              let '(w, replay) :=
                match protocol with
                | ESCAPE =>
                    (reset_active_action
                       (emit w (EKey (plain_key (NamedCode NamedKeys.ESCAPE) 0 KeyActions.PRESS))),
                     pending d)
                | _ =>
                    (match find_child Inert (input_trie d) kRootNode kEscape with
                     | None => emit (reset_active_action w)
                                 (EKey (plain_key (NamedCode NamedKeys.ESCAPE) 0 KeyActions.PRESS))
                     | Some escape => with_active w (Some escape) [kEscape]
                     end, rest ++ pending d)
                end in
              process (reset_trie_cursor (with_input w replay 0))
            else
              let incomplete := active_sequence d ++ pending d in
              let w := emit (consume (with_active w (active_action_node d) []) (length (pending d)))
                         (unknown UnknownReasons.INCOMPLETE_SEQUENCE incomplete) in
              Some (reset_trie_cursor (reset_active_action w), OK)
        | [] =>
            let incomplete := pending d in
            let w := emit (consume w (length (pending d)))
                       (unknown UnknownReasons.INCOMPLETE_SEQUENCE incomplete) in
            Some (reset_trie_cursor (reset_active_action w), OK)
        end
  end.

Definition has_active (w : World) : bool := bool_decide (active_action_node (dec w) <> None).

(** A timed-out trie path: commit the longest match, retry the rest. *)
Definition resolve_timed_out_path (w : World) (m : nat) : option (World * Status) :=
  let d := dec w in
  let c := trie_cursor d in
  let matched_all := (last_match_size c =? length (pending d))%nat in
  let '(w, status, _) := execute_action w m (last_match_size c) in
  '(w, status) ←
    (if is_ok status && matched_all && has_active w
     then resolve_timed_out_active_action w else Some (w, status));
  '(w, status) ← (if is_ok status then process w else Some (w, status));
  if is_ok status && has_active w then resolve_timed_out_active_action w else Some (w, status).

Definition handle_timeout (w : World) (generation : Z) : option (World * Status) :=
  let d := dec w in
  if bool_decide (pending_timeout d = None) || (generation =? 0) ||
     negb (bool_decide (pending_timeout d = Some generation))
  then Some (w, OK)
  else
    let w := with_timeout w (next_timeout_generation d) None in
    if paste_in_progress d then Some (w, OK)
    else
      let finish_timeout (w : World) (status : Status) :=
        Some (update_pending_timeout (compact w) true, status) in
      match active_action_node d with
      | Some _ => '(w, status) ← resolve_timed_out_active_action w; finish_timeout w status
      | None =>
          match pending d with
          | [] => Some (w, OK)
          | _ =>
              match last_match (trie_cursor d) with
              | Some m => '(w, status) ← resolve_timed_out_path w m; finish_timeout w status
              | None =>
                  let incomplete := pending d in
                  let w := reset_trie_cursor (consume w (length incomplete)) in
                  finish_timeout (emit w (unknown UnknownReasons.INCOMPLETE_SEQUENCE incomplete)) OK
              end
          end
      end.

(** The branches of [finish]. *)
Definition finish_paste (w : World) : World * Status :=
  let d := dec w in
  let remaining := paste_candidate d ++ pending d in
  let w := with_paste w [] (paste_in_progress d) (paste_discarding d) (paste_bytes d) in
  let w := consume w (length (pending d)) in
  let (w, result) := append_paste_data w remaining in
  let w := if paste_discarding (dec w) then w else emit w (paste_event PastePhases.CANCEL []) in
  (reset_active_action (with_paste w [] false false 0), result).

Definition finish_active (w : World) : World :=
  let d := dec w in
  let incomplete := active_sequence d ++ pending d in
  abandon (consume (with_active w (active_action_node d) []) (length (pending d)))
    (unknown UnknownReasons.INCOMPLETE_SEQUENCE incomplete).

(** A scanned event mapping that could have been longer is final now. *)
Definition finish_exact (w : World) : World * Status :=
  let d := dec w in
  let c := trie_cursor d in
  let current := trie_node (input_trie d) (cursor_node c) in
  if negb (cursor_node c =? kRootNode)%nat && (scanned c =? length (pending d))%nat &&
     sequence_end current && bool_decide (action_event (value current) <> None)
  then let '(w, status, _) := execute_action w (cursor_node c) (length (pending d)) in (w, status)
  else (w, OK).

(** A lone Escape is a key; anything else is incomplete. *)
Definition finish_rest (w : World) : World :=
  let w := match pending (dec w) with
           | [b] => if b =? kEscape
                    then consume (emit w (EKey (plain_key (NamedCode NamedKeys.ESCAPE) 0 KeyActions.PRESS))) 1
                    else w
           | _ => w
           end in
  let rest := pending (dec w) in
  if bool_decide (rest = []) then w
  else consume (emit w (unknown UnknownReasons.INCOMPLETE_SEQUENCE rest)) (length rest).

Definition finish_pending (w : World) : World * Status :=
  let '(w, result) := finish_exact w in (finish_rest w, result).

Definition finish (w : World) : World * Status :=
  let d := dec w in
  let '(w, result) :=
    if paste_in_progress d then finish_paste w
    else match active_action_node d with
         | Some _ => (finish_active w, OK)
         | None => match pending d with [] => (w, OK) | _ => finish_pending w end
         end in
  let w := compact (reset_trie_cursor w) in
  (with_timeout w (next_timeout_generation (dec w)) None, result).

Definition reset (d : Decoder) : Decoder :=
  dec (with_timeout (reset_active_action (reset_trie_cursor
         (with_paste (with_input {| dec := d; events := [] |} [] 0) [] false false 0)))
         (next_timeout_generation d) None).

(** ** A sample configuration: the protocol rows of universal_defaults.toml *)

Definition register_all (m : InputMap) (rows : list (bytes * InputAction)) : InputMap :=
  fold_left (fun m row => fst (register_sequence m row.1 row.2)) rows m.

Definition esc (s : string) : bytes := kEscape :: str s.

Definition sample_rows : list (bytes * InputAction) :=
  [([], EnterInputProtocol TEXT);
   (esc "", EnterInputProtocol ESCAPE);
   (esc ":", EmitInputEvent (ECommand {| command := Commands.ENTER_COMMAND_MODE |}));
   (esc "O", EnterInputProtocol SS3);
   (esc "[", EnterInputProtocol CSI);
   (esc "]", EnterInputProtocol OSC);
   (esc "P", EnterInputProtocol DEVICE_CONTROL_STRING);
   (esc "[<", EnterInputProtocol SGR_MOUSE);
   (esc "]52;", EnterInputProtocol OSC52);
   (esc "[200~", EnterInputProtocol PASTE_BEGIN);
   (esc "[201~", EnterInputProtocol PASTE_END);
   ([13], EmitInputEvent (EKey (plain_key (NamedCode NamedKeys.ENTER) 0 KeyActions.PRESS)));
   (esc "[11~", EmitInputEvent (EKey (plain_key (NamedCode NamedKeys.F1) 0 KeyActions.PRESS)))].

Definition sample_map : InputMap := register_all empty_map sample_rows.

Definition sample_decoder : Decoder := configured_decoder sample_map default_limits.

Definition new_world (d : Decoder) : World := {| dec := d; events := [] |}.

Definition feed_events (d : Decoder) (input : bytes) : option (list Event) :=
  '(w, _) ← feed (new_world d) input; Some (events w).

Example feed_samples :
  feed_events sample_decoder (str "hi" ++ [13] ++ esc "[11~" ++ esc "[1;2A") =
    Some [EText {| utf8 := str "hi" |};
          EKey (plain_key (NamedCode NamedKeys.ENTER) 0 KeyActions.PRESS);
          EKey (plain_key (NamedCode NamedKeys.F1) 0 KeyActions.PRESS);
          EKey (plain_key (NamedCode NamedKeys.UP) ModifierBits.SHIFT KeyActions.PRESS)] /\
  feed_events sample_decoder (esc "[200~" ++ str "ab" ++ [13] ++ esc "[201~x") =
    Some [paste_event PastePhases.BEGIN []; paste_event PastePhases.DATA (str "ab" ++ [13]);
          paste_event PastePhases.END []; EText {| utf8 := str "x" |}] /\
  feed_events sample_decoder (esc "]52;c;aGk=" ++ esc "\") =
    Some [EClipboard {| clipboard_selection := ClipboardSelections.CLIPBOARD; clipboard_data := str "hi" |}].
Proof. by vm_compute. Qed.
