(* ===== verification/DecoderInvariant.v ===== *)
(** * Invariants of the decoder

    Input maps keep their trie well formed with only TEXT at the root; on such
    a trie every decoder operation preserves the invariant, bounds what is
    pending and terminates. *)
From S2P Require Import Prelude.
From S2P Require Import Text.
From S2P Require Import Utf8.
From S2P Require Import Events.
From S2P Require Import Trie.
From S2P Require Import Clipboard.
From S2P Require Import KeyProtocol.
From S2P Require Import InputMap.
From S2P Require Import Decoder.
Open Scope Z_scope.

(** ** Tries an input map can hold *)

Record trie_ok (t : InputTrie) : Prop := {
  ok_wf : trie_wf Inert t;
  ok_root : forall a, find Inert t [] = Some a -> a = EnterInputProtocol TEXT;
}.

Inductive MapCall :=
| RegisterSequence (sequence : bytes) (action : InputAction)
| DisableSequence (sequence : bytes).

Definition map_call (m : InputMap) (call : MapCall) : InputMap :=
  match call with
  | RegisterSequence sequence action => fst (register_sequence m sequence action)
  | DisableSequence sequence => fst (disable_sequence m sequence)
  end.

Definition run_map (calls : list MapCall) : InputMap := fold_left map_call calls empty_map.

Lemma empty_trie_ok : trie_ok empty_trie.
Proof. split; [apply new_trie_wf|done]. Qed.

Lemma register_sequence_ok m p a : trie_ok (trie_ m) -> trie_ok (trie_ (fst (register_sequence m p a))).
Proof.
  intros [Hw Hr]. unfold register_sequence. guard_goal; [done|]. cbn [fst trie_ with_trie].
  pose proof (insert_spec Inert (trie_ m) p a Hw) as Hi. destruct (insert Inert (trie_ m) p a) as [t i].
  destruct Hi as (W & _ & F & _). split; [done|]. cbn [fst]. intros x. rewrite F.
  destruct (decide ([] = p)) as [Hp|Hp]; [|apply Hr]. intros [= <-]. subst p.
  apply orb_false_iff in G as [_ G]. rewrite bool_decide_true in G by done. cbn in G.
  apply negb_false_iff, bool_decide_eq_true in G. destruct a; cbn in G; congruence.
Qed.

Lemma disable_sequence_ok m p : trie_ok (trie_ m) -> trie_ok (trie_ (fst (disable_sequence m p))).
Proof.
  intros [Hw Hr]. unfold disable_sequence.
  pose proof (erase_spec Inert (trie_ m) p Hw) as He. destruct (erase Inert (trie_ m) p) as [t r].
  destruct He as (W & _ & _ & F & _). split; [done|]. cbn [fst trie_ with_trie]. intros x. rewrite F.
  destruct (decide ([] = p)); [done|apply Hr].
Qed.

Lemma run_map_ok calls : trie_ok (trie_ (run_map calls)).
Proof.
  enough (G : forall m, trie_ok (trie_ m) -> trie_ok (trie_ (fold_left map_call calls m)))
    by apply G, empty_trie_ok.
  induction calls as [|[p a|p] calls IH]; intros m Hm; [done|..]; apply IH.
  - by apply register_sequence_ok.
  - by apply disable_sequence_ok.
Qed.

Lemma trie_ok_root t : trie_ok t -> sequence_end (trie_node t kRootNode) = true ->
  value (trie_node t kRootNode) = EnterInputProtocol TEXT.
Proof.
  intros [_ Hr] Hs. apply Hr. unfold find, find_node. cbn. unfold trie_node in Hs. by rewrite Hs.
Qed.

(** ** The actions a configuration can install *)

Section ActionValues.
Variable P : InputAction -> Prop.
Hypothesis P_inert : P Inert.

Definition values_ok (t : InputTrie) : Prop := Forall (fun n => P (value n)) t.

Lemma values_ok_node t i : values_ok t -> P (value (trie_node t i)).
Proof.
  intros H. unfold trie_node, node. destruct (t !! i) as [n|] eqn:E; [|done].
  exact (proj1 (Forall_lookup _ _) H i n E).
Qed.

Lemma values_ok_add_child t current k : values_ok t -> values_ok (add_child Inert t current k).
Proof.
  intros H. unfold add_child. cbn zeta. apply Forall_insert.
  - apply Forall_app. split; [done|]. by repeat constructor.
  - cbn [value]. apply values_ok_node. apply Forall_app. split; [done|]. by repeat constructor.
Qed.

Lemma values_ok_set_terminal t i terminal a : values_ok t -> P a -> values_ok (set_terminal Inert t i terminal a).
Proof. intros H Ha. by apply Forall_insert. Qed.

Lemma values_ok_insert t p a : values_ok t -> P a -> values_ok (fst (insert Inert t p a)).
Proof.
  intros H Ha. unfold insert. destruct (fold_left _ p _) as [t' i] eqn:E. cbn [fst].
  apply values_ok_set_terminal; [|done]. revert E H. generalize kRootNode as j. revert t.
  induction p as [|k p IH]; intros t j E H; [by injection E as <- _|].
  cbn [fold_left insert_step] in E. destruct (find_child Inert t j k).
  - by eapply IH.
  - eapply IH; [exact E|]. by apply values_ok_add_child.
Qed.

Lemma values_ok_erase t p : values_ok t -> values_ok (fst (erase Inert t p)).
Proof.
  intros H. unfold erase. destruct (find_node Inert t p); [|done].
  guard_goal; [|done]. by apply values_ok_set_terminal.
Qed.

Lemma values_ok_run calls :
  Forall (fun call => match call with RegisterSequence _ a => P a | _ => True end) calls ->
  values_ok (trie_ (run_map calls)).
Proof.
  enough (G : forall m, values_ok (trie_ m) ->
    Forall (fun call => match call with RegisterSequence _ a => P a | _ => True end) calls ->
    values_ok (trie_ (fold_left map_call calls m))).
  { apply G. by repeat constructor. }
  induction calls as [|[p a|p] calls IH]; intros m Hm Hc; [done|..]; inversion_clear Hc; apply IH; try done.
  - cbn [map_call]. unfold register_sequence. guard_goal; [done|]. by apply values_ok_insert.
  - cbn [map_call]. unfold disable_sequence. pose proof (values_ok_erase (trie_ m) p Hm) as He.
    by destruct (erase Inert (trie_ m) p).
Qed.
End ActionValues.

(** ** Projections of the updated worlds *)

Ltac wsimp :=
  cbn [dec events limits buffer offset input_trie trie_cursor active_action_node active_sequence
       paste_candidate paste_end_sequence paste_in_progress paste_discarding paste_bytes
       next_timeout_generation pending_timeout with_input with_cursor with_active with_paste
       with_timeout emit consume reset_trie_cursor reset_active_action abandon capture_byte
       cursor_node last_match scanned last_match_size fst snd] in *.

Lemma pending_consume w n : pending (dec (consume w n)) = drop n (pending (dec w)).
Proof. unfold pending. wsimp. by rewrite drop_drop. Qed.

(** ** The invariant *)

(** The cursor scanned a prefix of what is pending, along a path from the root. *)
Record cursor_ok (t : InputTrie) (c : TrieCursor) (input : bytes) : Prop := {
  cursor_scanned : (scanned c <= length input)%nat;
  cursor_match : last_match c <> None -> (0 < last_match_size c <= scanned c)%nat;
  cursor_zero : scanned c = 0%nat -> c = root_cursor;
  cursor_first : scanned c <> 0%nat ->
    exists b rest, input = b :: rest /\ find_child Inert t kRootNode b <> None;
}.

Record dinv (d : Decoder) : Prop := {
  inv_trie : trie_ok (input_trie d);
  inv_offset : (offset d <= length (buffer d))%nat;
  inv_cursor : cursor_ok (input_trie d) (trie_cursor d) (pending d);
  inv_active : active_action_node d <> None -> trie_cursor d = root_cursor;
  inv_idle : active_action_node d = None -> active_sequence d = [];
  inv_paste : paste_in_progress d = true -> active_protocol d = Some PASTE_BEGIN;
  inv_candidate : paste_end_sequence d = [] -> paste_candidate d = [];
}.

Lemma root_cursor_ok t input : cursor_ok t root_cursor input.
Proof. split; cbn; [lia|done..]. Qed.
#[export] Hint Resolve root_cursor_ok : puc.

Lemma inv_idle_paste d : dinv d -> active_action_node d = None -> paste_in_progress d = false.
Proof.
  intros H Ha. destruct (paste_in_progress d) eqn:E; [|done].
  pose proof (inv_paste d H E) as Hp. unfold active_protocol in Hp. by rewrite Ha in Hp.
Qed.

(** What the steps of a run keep: configuration, timeouts and buffer; bytes only
    leave; events are only appended. *)
Record frame (w w' : World) : Prop := {
  fr_limits : limits (dec w') = limits (dec w);
  fr_trie : input_trie (dec w') = input_trie (dec w);
  fr_end : paste_end_sequence (dec w') = paste_end_sequence (dec w);
  fr_generation : next_timeout_generation (dec w') = next_timeout_generation (dec w);
  fr_timeout : pending_timeout (dec w') = pending_timeout (dec w);
  fr_total : pending_bytes (dec w') <= pending_bytes (dec w);
  fr_events : exists new, events w' = events w ++ new;
}.

Lemma frame_refl w : frame w w.
Proof. split; try done. exists []. by rewrite app_nil_r. Qed.

Lemma frame_trans w1 w2 w3 : frame w1 w2 -> frame w2 w3 -> frame w1 w3.
Proof.
  intros H1 H2. destruct H1, H2. split; try congruence; [lia|].
  destruct fr_events0 as [n1 E1], fr_events1 as [n2 E2]. exists (n1 ++ n2). by rewrite E2, E1, app_assoc.
Qed.
#[export] Hint Resolve frame_refl : puc.

(** Progress of the loop of [process]. *)
Definition active_weight (d : Decoder) : nat := match active_action_node d with Some _ => 1 | None => 0 end.
Definition measure (w : World) : nat := 2 * length (pending (dec w)) + active_weight (dec w).

Definition good (w : World) (s : Step) : Prop :=
  let '(w', _, result) := s in
  dinv (dec w') /\ frame w w' /\ (measure w' <= measure w)%nat /\
  (result = CONSUMED -> (measure w' < measure w)%nat).

Lemma good_after w w1 s : frame w w1 -> (measure w1 <= measure w)%nat -> good w1 s -> good w s.
Proof.
  destruct s as [[w' st] r]. intros F M (H1 & H2 & H3 & H4). split_and!; [done| |lia|intros E; specialize (H4 E); lia].
  by eapply frame_trans.
Qed.

(** ** Steps *)

Lemma measure_drop w w' n : pending (dec w') = drop n (pending (dec w)) ->
  (0 < n <= length (pending (dec w)))%nat -> (measure w' < measure w)%nat.
Proof. intros P Hn. unfold measure, active_weight. rewrite P, length_drop. repeat case_match; lia. Qed.

(** Consuming at least one byte from the root cursor, with any new capture. *)
Lemma take_nonempty w n : dinv (dec w) -> (n <= length (pending (dec w)))%nat ->
  (offset (dec w) + n <= length (buffer (dec w)))%nat.
Proof.
  intros H Hn. pose proof (inv_offset _ H). unfold pending in Hn. rewrite length_drop in Hn. lia.
Qed.

(** A capture in progress outside a paste. *)
Record capturing (w : World) : Prop := {
  cap_inv : dinv (dec w);
  cap_active : active_action_node (dec w) <> None;
  cap_paste : paste_in_progress (dec w) = false;
}.

Lemma capturing_intro w p : dinv (dec w) -> active_protocol (dec w) = Some p -> p <> PASTE_BEGIN -> capturing w.
Proof.
  intros H Hp Hne. split; [done| |].
  - unfold active_protocol in Hp. by destruct (active_action_node (dec w)).
  - destruct (paste_in_progress (dec w)) eqn:E; [|done]. pose proof (inv_paste _ H E). congruence.
Qed.

Lemma consume_active w n seq : capturing w -> (n <= length (pending (dec w)))%nat ->
  (length seq <= length (active_sequence (dec w)) + n)%nat ->
  let w' := with_active (consume w n) (active_action_node (dec w)) seq in
  capturing w' /\ frame w w' /\ pending (dec w') = drop n (pending (dec w)) /\ active_sequence (dec w') = seq.
Proof.
  intros [H Ha Hp] Hn Hs w'. assert (Hpend : pending (dec w') = drop n (pending (dec w))) by apply pending_consume.
  split_and!; [|..|done|done].
  - split; [|done|done]. split; subst w'; wsimp; try apply H; try done.
    + by apply take_nonempty.
    + rewrite (inv_active _ H Ha). apply root_cursor_ok.
  - split; try done; [|exists []; by rewrite app_nil_r]. unfold pending_bytes. rewrite Hpend, length_drop.
    subst w'. wsimp. lia.
Qed.

Lemma abandon_ok w e : capturing w -> dinv (dec (abandon w e)) /\ frame w (abandon w e) /\ (measure (abandon w e) < measure w)%nat /\ pending (dec (abandon w e)) = pending (dec w).
Proof.
  intros [H Ha Hp]. split_and!; [..|done].
  - split; wsimp; try apply H; try done. congruence.
  - split; try done; [|by exists [e]]. unfold pending_bytes. wsimp. change (length []) with 0%nat.
    unfold pending. wsimp. lia.
  - unfold measure, active_weight, pending. wsimp. destruct (active_action_node (dec w)); [lia|done].
Qed.

Lemma good_consumed_abandon w e status : capturing w -> good w (abandon w e, status, CONSUMED).
Proof. intros H. pose proof (abandon_ok w e H) as (? & ? & ? & ?). unfold good. split_and!; [done|done|lia|done]. Qed.

Lemma good_need_more w : dinv (dec w) -> good w (need_more w).
Proof. intros H. unfold good, need_more. split_and!; [done|apply frame_refl|lia|done]. Qed.

Lemma capture_byte_ok w b rest : capturing w -> pending (dec w) = b :: rest ->
  capturing (capture_byte w b) /\ frame w (capture_byte w b) /\ (measure (capture_byte w b) <= measure w)%nat.
Proof.
  intros H Hb. destruct (consume_active w 1 (active_sequence (dec w) ++ [b]) H) as (C & F & P & _).
  - rewrite Hb. simpl. lia.
  - rewrite length_app. simpl. lia.
  - split_and!; [done|done|]. unfold capture_byte in *. pose proof P as P'. rewrite Hb in P'. cbn [drop] in P'.
    unfold measure, active_weight. rewrite P', Hb. wsimp. rewrite ?drop_0. cbn [length]. lia.
Qed.

Lemma capture_terminator_ok w b c rest : capturing w -> pending (dec w) = b :: c :: rest ->
  capturing (capture_terminator w) /\ frame w (capture_terminator w) /\ (measure (capture_terminator w) <= measure w)%nat.
Proof.
  intros H Hb. destruct (consume_active w 2 (active_sequence (dec w) ++ take 2 (pending (dec w))) H) as (C & F & P & _).
  - rewrite Hb. simpl. lia.
  - rewrite Hb, length_app. simpl. lia.
  - split_and!; [done|done|]. unfold capture_terminator in *. pose proof P as P'.
    rewrite Hb in P' at 2. cbn [drop] in P'.
    unfold measure, active_weight. rewrite P', Hb. wsimp. rewrite ?drop_0. cbn [length]. lia.
Qed.

(** The branches the capture loops share. *)
Ltac capture_exit C := (by apply good_consumed_abandon, C) || (by apply good_need_more, C).

Lemma capture_ss3_good fuel : forall w, capturing w -> good w (capture_ss3 fuel w).
Proof.
  induction fuel as [|fuel IH]; intros w C; cbn [capture_ss3]; [by apply good_need_more, C|].
  destruct (pending (dec w)) as [|b rest] eqn:Hb; [by apply good_need_more, C|].
  guard_goal; [capture_exit C|].
  destruct (capture_byte_ok w b rest C Hb) as (C' & F & M). apply (good_after w (capture_byte w b)); [done..|].
  repeat (guard_goal; [capture_exit C'|]). by apply IH.
Qed.

Lemma capture_csi_good mouse fuel : forall w, capturing w -> good w (capture_csi mouse fuel w).
Proof.
  induction fuel as [|fuel IH]; intros w C; cbn [capture_csi]; [by apply good_need_more, C|].
  destruct (pending (dec w)) as [|b rest] eqn:Hb; [by apply good_need_more, C|].
  guard_goal; [capture_exit C|].
  destruct (capture_byte_ok w b rest C Hb) as (C' & F & M). apply (good_after w (capture_byte w b)); [done..|].
  repeat (guard_goal; [capture_exit C'|]). by apply IH.
Qed.

Lemma finish_osc_good osc52 w : capturing w -> good w (finish_osc osc52 w).
Proof. intros C. unfold finish_osc. destruct (osc_event osc52 (dec w)). capture_exit C. Qed.

Lemma capture_osc_good osc52 fuel : forall w, capturing w -> good w (capture_osc osc52 fuel w).
Proof.
  induction fuel as [|fuel IH]; intros w C; cbn [capture_osc]; [by apply good_need_more, C|].
  destruct (pending (dec w)) as [|b rest] eqn:Hb; [by apply good_need_more, C|].
  guard_goal.
  - destruct rest as [|next rest]; [by apply good_need_more, C|]. guard_goal; [|capture_exit C].
    guard_goal; [|capture_exit C].
    destruct (capture_terminator_ok w b next rest C Hb) as (C' & F & M).
    apply (good_after w (capture_terminator w)); [done..|]. by apply finish_osc_good.
  - destruct (capture_byte_ok w b rest C Hb) as (C' & F & M). apply (good_after w (capture_byte w b)); [done..|].
    guard_goal; [by apply finish_osc_good|]. guard_goal; [capture_exit C'|]. by apply IH.
Qed.

Lemma capture_st_string_good kind fuel : forall w, capturing w -> good w (capture_st_string kind fuel w).
Proof.
  induction fuel as [|fuel IH]; intros w C; cbn [capture_st_string]; [by apply good_need_more, C|].
  destruct (pending (dec w)) as [|b rest] eqn:Hb; [by apply good_need_more, C|].
  guard_goal.
  - destruct rest as [|next rest]; [by apply good_need_more, C|]. guard_goal; [|capture_exit C].
    guard_goal; [|capture_exit C].
    destruct (capture_terminator_ok w b next rest C Hb) as (C' & F & M).
    apply (good_after w (capture_terminator w)); [done..|]. capture_exit C'.
  - destruct (capture_byte_ok w b rest C Hb) as (C' & F & M). apply (good_after w (capture_byte w b)); [done..|].
    guard_goal; [capture_exit C'|]. by apply IH.
Qed.

(** ** Text and Alt keys *)

Lemma decode_scalar_length input codepoint n :
  decode_scalar input = VALID codepoint n -> (0 < n <= length input)%nat.
Proof.
  unfold decode_scalar. destruct input as [|first rest]; [done|].
  guard_goal; [intros [= _ <-]; simpl; lia|].
  destruct (expected_length first) as [[expected value]|] eqn:E; [|done].
  assert (He : (0 < expected)%nat).
  { unfold expected_length in E. repeat (guard_in E; [injection E as <- <-; lia|..]); injection E as <- <-; lia. }
  repeat (guard_goal; [done|]). intros [= _ <-]. bool_to_prop. lia.
Qed.

(** One event, some bytes consumed, and the capture (if any) closed. *)
Lemma emit_consume_reset w e n : capturing w -> (n <= length (pending (dec w)))%nat ->
  good w (consumed (reset_active_action (consume (emit w e) n))).
Proof.
  intros H Hn. destruct (consume_active w n (active_sequence (dec w)) H Hn ltac:(lia)) as (C & F & P & _).
  set (w1 := with_active (consume w n) (active_action_node (dec w)) (active_sequence (dec w))) in *.
  change (reset_active_action (consume (emit w e) n)) with (abandon w1 e).
  apply (good_after w w1); [done| |by apply good_consumed_abandon].
  unfold measure, active_weight. rewrite P, length_drop. subst w1. wsimp. lia.
Qed.

Lemma parse_alt_key_good w : capturing w -> good w (parse_alt_key w).
Proof.
  intros C. unfold parse_alt_key. destruct (pending (dec w)) as [|first rest] eqn:Hb; [by apply good_need_more, C|].
  assert (Hn : (1 <= length (pending (dec w)))%nat) by (rewrite Hb; simpl; lia).
  guard_goal; [by apply emit_consume_reset|].
  destruct (legacy_control_key first); [by apply emit_consume_reset|].
  destruct (decode_scalar (first :: rest)) as [codepoint n| |] eqn:E.
  - apply emit_consume_reset; [done|]. apply decode_scalar_length in E. rewrite Hb. lia.
  - by apply good_need_more, C.
  - by apply emit_consume_reset.
Qed.

Lemma emit_consume_ok w e n : dinv (dec w) -> trie_cursor (dec w) = root_cursor ->
  (0 < n <= length (pending (dec w)))%nat ->
  good w (consumed (consume (emit w e) n)).
Proof.
  intros H Hc Hn. assert (P : pending (dec (consume (emit w e) n)) = drop n (pending (dec w))) by apply (pending_consume (emit w e)).
  unfold good, consumed. split_and!.
  - split; wsimp; try apply H; try done; [apply take_nonempty; [done|lia]|]. rewrite Hc. apply root_cursor_ok.
  - split; try done; [|by exists [e]]. unfold pending_bytes. rewrite P, length_drop. wsimp. lia.
  - unfold measure, active_weight. rewrite P, length_drop. wsimp. lia.
  - intros _. unfold measure, active_weight. rewrite P, length_drop. wsimp. destruct (active_action_node (dec w)); lia.
Qed.

Lemma text_run_bound fuel input : forall size n,
  (size <= length input)%nat -> text_run fuel input size = Some n -> (size <= n <= length input)%nat.
Proof.
  induction fuel as [|fuel IH]; intros size n Hs; cbn [text_run]; [intros [= <-]; lia|].
  destruct (drop size input) as [|b rest] eqn:E; [intros [= <-]; lia|].
  assert (Hl : (length (drop size input) = length input - size)%nat) by apply length_drop.
  assert (Hpos : (0 < length (drop size input))%nat) by (rewrite E; simpl; lia).
  guard_goal; [intros [= <-]; lia|]. guard_goal.
  { intros Hr. apply IH in Hr; lia. }
  rewrite <- E. destruct (decode_scalar (drop size input)) as [c k| |] eqn:Ed.
  - intros Hr. apply decode_scalar_length in Ed. apply IH in Hr; lia.
  - guard_goal; [done|intros [= <-]; lia].
  - intros [= <-]. lia.
Qed.

Lemma parse_text_good w : dinv (dec w) -> trie_cursor (dec w) = root_cursor -> pending (dec w) <> [] ->
  let (w', result) := parse_text w in good w (w', OK, result).
Proof.
  intros H Hc Hp. unfold parse_text.
  assert (Hn : (1 <= length (pending (dec w)))%nat) by (destruct (pending (dec w)); [done|simpl; lia]).
  guard_goal; [apply (emit_consume_ok w); [done..|lia]|].
  destruct (text_run _ _ 0) as [[|n]|] eqn:E.
  - apply (emit_consume_ok w); [done..|lia].
  - apply text_run_bound in E; [|lia]. apply (emit_consume_ok w); [done..|lia].
  - by apply good_need_more.
Qed.

(** ** Paste *)

Lemma settle_candidate_spec paste_end : forall candidate data c d,
  settle_candidate paste_end candidate data = (c, d) ->
  (exists moved, candidate = moved ++ c /\ d = data ++ moved) /\ starts_with paste_end c = true.
Proof.
  induction candidate as [|x rest IH]; intros data c d; cbn [settle_candidate].
  - intros [= <- <-]. split; [by exists []; rewrite !app_nil_r|]. unfold starts_with. by case_bool_decide.
  - guard_goal; [intros [= <- <-]; split; [exists []; by rewrite app_nil_r|done]|].
    intros Hs. apply IH in Hs as [(moved & -> & ->) Hp]. split; [|done].
    exists (x :: moved). by rewrite <- app_assoc.
Qed.

Lemma append_paste_data_frame w data w' status : append_paste_data w data = (w', status) ->
  frame w w' /\ (dinv (dec w) -> dinv (dec w')) /\ measure w' = measure w /\
  pending (dec w') = pending (dec w) /\ active_action_node (dec w') = active_action_node (dec w).
Proof.
  unfold append_paste_data. guard_goal; [intros [= <- <-]; by split_and!; [apply frame_refl|..]|].
  guard_goal; intros [= <- <-]; (split_and!; [|intros []; by split|done..]).
  all: split; try done; wsimp; eexists; reflexivity.
Qed.

(** Leaving a paste after an optional closing event. *)
Lemma close_paste_ok w event : dinv (dec w) ->
  let w' := reset_active_action
    (with_paste (if paste_discarding (dec w) then w else emit w event) [] false false 0) in
  dinv (dec w') /\ frame w w' /\ (measure w' <= measure w)%nat /\ pending (dec w') = pending (dec w).
Proof.
  intros H. set (w1 := if paste_discarding (dec w) then w else emit w event).
  assert (E : dec w1 = dec w) by (subst w1; by destruct (paste_discarding (dec w))).
  assert (F : exists new, events w1 = events w ++ new)
    by (subst w1; destruct (paste_discarding (dec w)); eexists; [symmetry; apply app_nil_r|reflexivity]).
  clearbody w1. cbn zeta. assert (P : pending (dec (reset_active_action (with_paste w1 [] false false 0))) = pending (dec w))
    by (change (pending (dec w1) = pending (dec w)); by rewrite E).
  split_and!; [..|done].
  - split; wsimp; rewrite ?E; try apply H; try done.
  - split; wsimp; rewrite ?E; try done. unfold pending_bytes, pending. wsimp. rewrite ?E.
    change (length []) with 0%nat. lia.
  - unfold measure, active_weight. rewrite P. wsimp. lia.
Qed.

Lemma end_paste_ok w : dinv (dec w) -> dinv (dec (end_paste w)) /\ frame w (end_paste w) /\
  (measure (end_paste w) <= measure w)%nat.
Proof. intros H. by destruct (close_paste_ok w (paste_event PastePhases.END []) H) as (? & ? & ? & _). Qed.

Lemma settle_ok w b rest c data d : dinv (dec w) -> active_action_node (dec w) <> None ->
  paste_end_sequence (dec w) <> [] -> pending (dec w) = b :: rest ->
  settle_candidate (paste_end_sequence (dec w)) (paste_candidate (dec w) ++ [b]) data = (c, d) ->
  let w' := with_paste (consume w 1) c (paste_in_progress (dec w)) (paste_discarding (dec w)) (paste_bytes (dec w)) in
  dinv (dec w') /\ frame w w' /\ (measure w' < measure w)%nat /\ pending (dec w') = rest.
Proof.
  intros H Ha Hend Hb Hs w'. apply settle_candidate_spec in Hs as [(moved & Hm & ->) _].
  assert (P : pending (dec w') = rest) by (unfold w'; transitivity (pending (dec (consume w 1))); [done|];
    by rewrite pending_consume, Hb).
  assert (Hlen : (length c <= S (length (paste_candidate (dec w))))%nat).
  { apply (f_equal length) in Hm. rewrite !length_app in Hm. simpl in Hm. lia. }
  split_and!; [..|done].
  - split; subst w'; wsimp; try apply H; try done.
    + apply take_nonempty; [done|rewrite Hb; simpl; lia].
    + rewrite (inv_active _ H Ha). apply root_cursor_ok.
  - split; try done; [|exists []; by rewrite app_nil_r]. unfold pending_bytes. rewrite P, Hb. subst w'. wsimp.
    cbn [length]. lia.
  - unfold measure, active_weight. rewrite P, Hb. subst w'. wsimp. cbn [length].
    destruct (active_action_node (dec w)); lia.
Qed.

Lemma capture_paste_loop_good w0 fuel : forall w data,
  dinv (dec w) -> active_action_node (dec w) <> None -> paste_end_sequence (dec w) <> [] ->
  frame w0 w -> (measure w <= measure w0)%nat -> (data <> [] -> (measure w < measure w0)%nat) ->
  good w0 (capture_paste_loop fuel w data).
Proof.
  assert (Hstop : forall w data, dinv (dec w) -> frame w0 w -> (measure w <= measure w0)%nat ->
    (data <> [] -> (measure w < measure w0)%nat) ->
    good w0 (let (w, status) := append_paste_data w data in
             (w, status, if bool_decide (data = []) then NEED_MORE else CONSUMED))).
  { intros w data H F M Hd. destruct (append_paste_data w data) as [w' status] eqn:E.
    apply append_paste_data_frame in E as (F' & D & M' & _).
    unfold good. split_and!; [by apply D|by eapply frame_trans|lia|].
    case_bool_decide; [done|]. intros _. rewrite M'. by apply Hd. }
  induction fuel as [|fuel IH]; intros w data H Ha Hend F M Hd; cbn [capture_paste_loop]; [by apply Hstop|].
  destruct (pending (dec w)) as [|b rest] eqn:Hb; [by apply Hstop|].
  destruct (settle_candidate _ _ data) as [c d] eqn:Es.
  destruct (settle_ok w b rest c data d H Ha Hend Hb Es) as (H' & F' & M' & _).
  set (w1 := with_paste _ _ _ _ _) in *.
  case_bool_decide.
  - destruct (append_paste_data w1 d) as [w2 status] eqn:E.
    apply append_paste_data_frame in E as (F2 & D & M2 & _).
    destruct (end_paste_ok w2 (D H')) as (H3 & F3 & M3).
    unfold good. split_and!; [done| |lia|lia].
    eapply frame_trans; [exact F|]. eapply frame_trans; [exact F'|]. by eapply frame_trans.
  - apply IH; [done..| | |]; [|lia|lia]. by eapply frame_trans.
Qed.

Lemma capture_paste_good w : dinv (dec w) -> active_action_node (dec w) <> None -> good w (capture_paste w).
Proof.
  intros H Ha. unfold capture_paste. case_bool_decide as Hend.
  - unfold good. split_and!.
    + split; wsimp; try apply H; try done.
    + split; try done; [|eexists; reflexivity]. unfold pending_bytes, pending. wsimp. change (length []) with 0%nat. lia.
    + unfold measure, active_weight, pending. wsimp. lia.
    + intros _. unfold measure, active_weight, pending. wsimp. destruct (active_action_node (dec w)); [lia|done].
  - apply capture_paste_loop_good; try done. apply frame_refl.
Qed.

(** ** Dispatch *)

Lemma advance_active_action_good w :
  dinv (dec w) -> active_action_node (dec w) <> None -> pending (dec w) <> [] ->
  good w (advance_active_action w).
Proof.
  intros H Ha Hp. unfold advance_active_action.
  assert (Hbad : active_protocol (dec w) <> Some PASTE_BEGIN ->
    good w (reset_active_action w, INVALID_ARGUMENT, CONSUMED)).
  { intros Hne. unfold good. split_and!.
    - split; wsimp; try apply H; try done. intros E. by apply (inv_paste _ H) in E.
    - split; try done; [|exists []; by rewrite app_nil_r]. unfold pending_bytes, pending. wsimp.
      change (length []) with 0%nat. lia.
    - unfold measure, active_weight, pending. wsimp. lia.
    - intros _. unfold measure, active_weight, pending. wsimp. destruct (active_action_node (dec w)); [lia|done]. }
  destruct (active_protocol (dec w)) as [p|] eqn:E; [|by apply Hbad].
  assert (C : p <> PASTE_BEGIN -> capturing w) by by apply capturing_intro.
  destruct p; try specialize (C ltac:(done)).
  - pose proof (parse_text_good w H (inv_active _ H Ha) Hp) as G. by destruct (parse_text w).
  - by apply parse_alt_key_good.
  - by apply capture_ss3_good.
  - by apply capture_csi_good.
  - by apply capture_osc_good.
  - by apply capture_st_string_good.
  - by apply capture_st_string_good.
  - by apply capture_st_string_good.
  - by apply capture_csi_good.
  - by apply capture_osc_good.
  - by apply capture_paste_good.
  - by apply Hbad.
Qed.

Lemma with_cursor_ok w c : dinv (dec w) -> active_action_node (dec w) = None ->
  cursor_ok (input_trie (dec w)) c (pending (dec w)) ->
  dinv (dec (with_cursor w c)) /\ frame w (with_cursor w c) /\ measure (with_cursor w c) = measure w.
Proof.
  intros H Ha Hc. split_and!; [|split; try done; exists []; by rewrite app_nil_r|done].
  split; wsimp; try apply H; try done.
Qed.

Lemma reset_cursor_ok w : dinv (dec w) ->
  dinv (dec (reset_trie_cursor w)) /\ frame w (reset_trie_cursor w) /\ measure (reset_trie_cursor w) = measure w.
Proof.
  intros H. split_and!; [|split; try done; exists []; by rewrite app_nil_r|done].
  split; wsimp; try apply H; try done. apply root_cursor_ok.
Qed.

Lemma emit_consume_cursor w e n : dinv (dec w) -> (0 < n <= length (pending (dec w)))%nat ->
  good w (consumed (reset_trie_cursor (consume (emit w e) n))).
Proof.
  intros H Hn. destruct (reset_cursor_ok w H) as (H' & F & M).
  apply (good_after w (reset_trie_cursor w)); [done|lia|].
  by apply (emit_consume_ok (reset_trie_cursor w)).
Qed.

Lemma reject_good w n : dinv (dec w) -> (0 < n <= length (pending (dec w)))%nat -> good w (reject w n).
Proof. intros H Hn. by apply emit_consume_cursor. Qed.

Lemma enter_protocol_good w i n p :
  dinv (dec w) -> active_action_node (dec w) = None -> (0 < n <= length (pending (dec w)))%nat ->
  value (trie_node (input_trie (dec w)) i) = EnterInputProtocol p ->
  good w (consumed (enter_protocol w i n p)).
Proof.
  intros H Ha Hn Hv. destruct (decide (p = PASTE_END)) as [->|Hne]; [exact (emit_consume_cursor w (unsupported (take n (pending (dec w)))) n H Hn)|].
  set (w1 := reset_trie_cursor (consume w n)).
  assert (H1 : dinv (dec w1) /\ frame w w1 /\ pending (dec w1) = drop n (pending (dec w))).
  { split_and!; [| |exact (pending_consume w n)].
    - subst w1. split; wsimp; try apply H; try done; [by apply take_nonempty; [|lia]|apply root_cursor_ok].
    - split; try done; [|exists []; by rewrite app_nil_r]. unfold pending_bytes.
      replace (pending (dec w1)) with (drop n (pending (dec w))) by (symmetry; exact (pending_consume w n)).
      rewrite length_drop. subst w1. wsimp. lia. }
  destruct H1 as (H1 & F1 & P1). pose proof (inv_idle_paste _ H Ha) as Hpaste.
  assert (Hseq : active_sequence (dec w1) = []) by exact (inv_idle _ H Ha).
  destruct (decide (p = PASTE_BEGIN)) as [->|Hne'].
  - unfold consumed, good. cbn [enter_protocol]. fold w1.
    set (w2 := with_paste _ [] true false 0). assert (M : (measure w2 < measure w)%nat) by by apply (measure_drop w w2 n).
    split_and!; [| |lia|done].
    + split; wsimp; try apply H1; try done. intros _. change (action_protocol (value (trie_node (input_trie (dec w)) i)) = Some PASTE_BEGIN). by rewrite Hv.
    + eapply frame_trans; [exact F1|]. split; try done; [|eexists; reflexivity].
      unfold pending_bytes, pending. subst w2. wsimp. change (length []) with 0%nat. lia.
  - replace (enter_protocol w i n p) with (with_active w1 (Some i) (take n (pending (dec w))))
      by (by destruct p).
    set (w2 := with_active w1 _ _). assert (M : (measure w2 < measure w)%nat) by by apply (measure_drop w w2 n).
    unfold consumed, good. split_and!; [| |lia|done].
    + split; wsimp; try apply H1; try done. change (paste_in_progress (dec w2)) with (paste_in_progress (dec w)). by rewrite Hpaste.
    + split; try done; [|exists []; by rewrite app_nil_r]. unfold pending_bytes.
      change (pending (dec w2)) with (pending (dec w1)). rewrite P1, length_drop. subst w2. wsimp.
      change (paste_candidate (dec w1)) with (paste_candidate (dec w)). rewrite length_take. lia.
Qed.

Lemma text_action_good w : dinv (dec w) -> pending (dec w) <> [] ->
  good w (let (w, result) := parse_text (reset_trie_cursor w) in (w, OK, result)).
Proof.
  intros H Hp. destruct (reset_cursor_ok w H) as (H' & F & M).
  apply (good_after w (reset_trie_cursor w)); [done|lia|].
  pose proof (parse_text_good (reset_trie_cursor w) H' eq_refl Hp) as G. by destruct (parse_text _).
Qed.

Lemma execute_action_good w i n :
  dinv (dec w) -> active_action_node (dec w) = None -> (0 < n <= length (pending (dec w)))%nat ->
  good w (execute_action w i n).
Proof.
  intros H Ha Hn. unfold execute_action.
  assert (Hp : pending (dec w) <> []) by (intros E; rewrite E in Hn; simpl in Hn; lia).
  destruct (value (trie_node (input_trie (dec w)) i)) as [|e|p] eqn:E.
  - replace (if (n =? 0)%nat then 1%nat else n) with n by (destruct (Nat.eqb_spec n 0); lia).
    by apply emit_consume_cursor.
  - by apply emit_consume_cursor.
  - pose proof (enter_protocol_good w i n p H Ha Hn E) as G.
    destruct p; try exact G. by apply text_action_good.
Qed.

Lemma execute_root_good w :
  dinv (dec w) -> pending (dec w) <> [] -> sequence_end (trie_node (input_trie (dec w)) kRootNode) = true ->
  good w (execute_action w kRootNode 0).
Proof.
  intros H Hp Hs. unfold execute_action. rewrite (trie_ok_root _ (inv_trie _ H) Hs). by apply text_action_good.
Qed.

(** The cursor after following one edge. *)
Definition next_cursor (t : InputTrie) (c : TrieCursor) (child : nat) : TrieCursor :=
  let n := trie_node t child in
  {| cursor_node := child;
     last_match := if sequence_end n then Some child else last_match c;
     scanned := S (scanned c);
     last_match_size := if sequence_end n then S (scanned c) else last_match_size c |}.

Lemma next_cursor_ok t c input child b rest : cursor_ok t c input ->
  drop (scanned c) input = b :: rest -> find_child Inert t (cursor_node c) b = Some child ->
  cursor_ok t (next_cursor t c child) input.
Proof.
  intros [Hscan Hmatch Hzero Hfirst] Hb Ec. apply (f_equal length) in Hb as Hl. rewrite length_drop in Hl. simpl in Hl.
  split; unfold next_cursor; wsimp; [lia| |done|intros _].
  - guard_goal; [lia|]. intros Hm. specialize (Hmatch Hm). lia.
  - destruct (decide (scanned c = 0%nat)) as [E|E]; [|by apply Hfirst].
    specialize (Hzero E). subst c. cbn [scanned root_cursor cursor_node] in Hb, Ec.
    rewrite drop_0 in Hb. exists b, rest. split; [done|]. by rewrite Ec.
Qed.

Lemma advance_trie_good fuel : forall w,
  dinv (dec w) -> active_action_node (dec w) = None -> pending (dec w) <> [] -> good w (advance_trie fuel w).
Proof.
  induction fuel as [|fuel IH]; intros w H Ha Hp; cbn [advance_trie]; [by apply good_need_more|].
  pose proof (inv_cursor _ H) as Hcur. destruct Hcur as [Hscan Hmatch _ _].
  destruct (drop (scanned (trie_cursor (dec w))) (pending (dec w))) as [|b rest] eqn:Hb; [by apply good_need_more|].
  assert (Hlt : (scanned (trie_cursor (dec w)) < length (pending (dec w)))%nat).
  { apply (f_equal length) in Hb. rewrite length_drop in Hb. simpl in Hb. lia. }
  destruct (find_child Inert _ _ b) as [child|] eqn:Ec.
  - fold (next_cursor (input_trie (dec w)) (trie_cursor (dec w)) child).
    set (c := next_cursor _ _ child). set (w1 := with_cursor w c).
    pose proof (next_cursor_ok _ _ _ child b rest (inv_cursor _ H) Hb Ec) as Hc.
    destruct (with_cursor_ok w c H Ha Hc) as (H1 & F1 & M1). fold w1 in H1, F1, M1.
    assert (Hn : (0 < S (scanned (trie_cursor (dec w))) <= length (pending (dec w1)))%nat)
      by (change (pending (dec w1)) with (pending (dec w)); lia).
    apply (good_after w w1); [done|lia|].
    guard_goal; [by apply execute_action_good|]. guard_goal; [by apply reject_good|]. by apply IH.
  - destruct (last_match (trie_cursor (dec w))) as [m|] eqn:Em.
    + specialize (Hmatch ltac:(done)). apply execute_action_good; [done..|lia].
    + guard_goal; [|guard_goal].
      * bool_to_prop. apply reject_good; [done|lia].
      * by apply execute_root_good.
      * apply reject_good; [done|lia].
Qed.

Lemma step_decoder_good w : dinv (dec w) -> pending (dec w) <> [] -> good w (step_decoder w).
Proof.
  intros H Hp. unfold step_decoder. destruct (active_action_node (dec w)) eqn:E.
  - apply advance_active_action_good; [done| |done]. by rewrite E.
  - by apply advance_trie_good.
Qed.

(** The loop ends within its fuel. *)
Lemma process_loop_total fuel : forall w first_error,
  dinv (dec w) -> (measure w <= fuel)%nat ->
  exists w' status, process_loop fuel w first_error = Some (w', status) /\ dinv (dec w') /\ frame w w'.
Proof.
  induction fuel as [|fuel IH]; intros w e H Hm; cbn [process_loop].
  - destruct (pending (dec w)) eqn:Hb; [exists w, e; split_and!; [done..|apply frame_refl]|].
    unfold measure in Hm. rewrite Hb in Hm. simpl in Hm. lia.
  - destruct (pending (dec w)) as [|b rest] eqn:Hb; [exists w, e; split_and!; [done..|apply frame_refl]|].
    pose proof (step_decoder_good w H ltac:(by rewrite Hb)) as G.
    destruct (step_decoder w) as [[w1 status] [|]]; destruct G as (H1 & F1 & M1 & Hd).
    + specialize (Hd eq_refl). edestruct (IH w1) as (w' & s & -> & H' & F'); [done|lia|].
      exists w', s. split_and!; [done|done|by eapply frame_trans].
    + by eexists _, _.
Qed.

Lemma process_total w : dinv (dec w) ->
  exists w' status, process w = Some (w', status) /\ dinv (dec w') /\ frame w w'.
Proof.
  intros H. apply process_loop_total; [done|]. unfold measure, process_fuel, active_weight.
  destruct (active_action_node (dec w)); lia.
Qed.

(** ** Operations *)

Definition bounded (d : Decoder) : Prop := pending_bytes d <= maximum_pending_bytes (limits d).

(** What every operation keeps of the caller's world. *)
Record kept (w w' : World) : Prop := {
  kept_inv : dinv (dec w');
  kept_limits : limits (dec w') = limits (dec w);
  kept_trie : input_trie (dec w') = input_trie (dec w);
  kept_end : paste_end_sequence (dec w') = paste_end_sequence (dec w);
  kept_bounded : bounded (dec w) -> bounded (dec w');
  kept_events : exists new, events w' = events w ++ new;
}.

Lemma kept_of_frame w w' : dinv (dec w') -> frame w w' -> kept w w'.
Proof. intros H []. split; try done. unfold bounded. rewrite fr_limits0. lia. Qed.

Lemma kept_trans w1 w2 w3 : kept w1 w2 -> kept w2 w3 -> kept w1 w3.
Proof.
  intros H1 H2. destruct H1, H2. split; try congruence; [auto|].
  destruct kept_events0 as [n1 E1], kept_events1 as [n2 E2]. exists (n1 ++ n2). by rewrite E2, E1, app_assoc.
Qed.

Lemma pending_compact w : pending (dec (compact w)) = pending (dec w).
Proof.
  unfold compact. repeat guard_goal; [done| |done]. unfold pending. wsimp. bool_to_prop.
  rewrite G0. by rewrite drop_all.
Qed.

Lemma compact_ok w : dinv (dec w) -> dinv (dec (compact w)) /\ frame w (compact w).
Proof.
  intros H. pose proof (pending_compact w) as P. unfold compact in *.
  guard_goal; [by split; [|apply frame_refl]|].
  guard_goal; split; split; rewrite ?P; wsimp; try apply H; try done; try lia.
  all: first [exists []; by rewrite app_nil_r|unfold pending_bytes; rewrite P; wsimp; lia].
Qed.

Lemma compact_offset w : offset (dec (compact w)) = 0%nat.
Proof. unfold compact. repeat guard_goal; [by bool_to_prop|done..]. Qed.

Lemma timeout_ok w generation pending_timeout : dinv (dec w) ->
  kept w (with_timeout w generation pending_timeout).
Proof.
  intros H. split; try done; [|exists []; by rewrite app_nil_r].
  split; wsimp; try apply H; done.
Qed.

Lemma update_timeout_ok w rearm : dinv (dec w) -> kept w (update_pending_timeout w rearm).
Proof.
  intros H. unfold update_pending_timeout. cbn zeta.
  guard_goal; [by apply timeout_ok|]. guard_goal; [apply kept_of_frame; [done|apply frame_refl]|].
  by apply timeout_ok.
Qed.

(** Appending input bytes. *)
Lemma append_ok w input : dinv (dec w) ->
  let w' := with_input w (buffer (dec w) ++ input) (offset (dec w)) in
  dinv (dec w') /\ pending (dec w') = pending (dec w) ++ input /\
  pending_bytes (dec w') = pending_bytes (dec w) + Z.of_nat (length input).
Proof.
  intros H w'. assert (P : pending (dec w') = pending (dec w) ++ input).
  { unfold pending. subst w'. wsimp. pose proof (inv_offset _ H). by rewrite drop_app_le by lia. }
  split_and!; [|done|].
  - split; rewrite ?P; subst w'; wsimp; try apply H; try done.
    + rewrite length_app. pose proof (inv_offset _ H). lia.
    + destruct (inv_cursor _ H) as [Hs Hm Hz Hf]. split; [rewrite length_app; lia|done|done|].
      intros E. destruct (Hf E) as (b & rest & -> & Hc). by exists b, (rest ++ input).
  - unfold pending_bytes. rewrite P, length_app. subst w'. wsimp. lia.
Qed.

Lemma feed_total w input : dinv (dec w) ->
  exists w' status, feed w input = Some (w', status) /\ kept w w'.
Proof.
  intros H. unfold feed. destruct (compact_ok w H) as [Hc Fc]. set (w1 := compact w) in *.
  pose proof (kept_of_frame _ _ Hc Fc) as K1.
  guard_goal.
  - do 2 eexists. split; [done|]. eapply kept_trans; [exact K1|].
    split; try done. eexists. reflexivity.
  - bool_to_prop. destruct (append_ok w1 input Hc) as (Ha & Pa & Ba). set (w2 := with_input w1 _ _) in *.
    destruct (process_total w2 Ha) as (w3 & status & -> & H3 & F3). cbn.
    do 2 eexists. split; [done|]. eapply kept_trans; [exact K1|].
    assert (K2 : kept w1 w3).
    { destruct F3. split; try done. unfold bounded. rewrite fr_limits0.
      change (limits (dec w2)) with (limits (dec w1)). lia. }
    destruct (compact_ok w3 H3) as [H4 F4].
    eapply kept_trans; [exact K2|]. eapply kept_trans; [exact (kept_of_frame _ _ H4 F4)|].
    by apply update_timeout_ok.
Qed.

Lemma replay_ok w replay active seq : dinv (dec w) -> paste_in_progress (dec w) = false ->
  (active = None -> seq = []) ->
  (length replay + length seq <= length (pending (dec w)) + length (active_sequence (dec w)))%nat ->
  let w' := reset_trie_cursor (with_input (with_active w active seq) replay 0) in
  dinv (dec w') /\ frame w w'.
Proof.
  intros H Hp Hs Hl w'. split.
  - split; subst w'; wsimp; try apply H; try done. all: first [lia|apply root_cursor_ok|congruence].
  - split; try done; [|exists []; by rewrite app_nil_r]. unfold pending_bytes.
    change (pending (dec w')) with replay. subst w'. wsimp. lia.
Qed.

(** Dropping a capture with everything pending. *)
Lemma drop_pending_ok w e : dinv (dec w) -> paste_in_progress (dec w) = false ->
  let w' := reset_trie_cursor (reset_active_action (emit (consume w (length (pending (dec w)))) e)) in
  dinv (dec w') /\ frame w w' /\ pending (dec w') = [].
Proof.
  intros H Hp w'.
  assert (P : pending (dec w') = []).
  { transitivity (pending (dec (consume w (length (pending (dec w)))))); [done|].
    by rewrite pending_consume, drop_all. }
  split_and!; [..|done].
  - split; rewrite ?P; subst w'; wsimp; try apply H; try done.
    all: first [by apply take_nonempty; [|lia]|apply root_cursor_ok|congruence].
  - split; try done; [|by exists [e]]. unfold pending_bytes. rewrite P. subst w'. wsimp. simpl. lia.
Qed.

Lemma resolve_active_total w : dinv (dec w) ->
  exists w' status, resolve_timed_out_active_action w = Some (w', status) /\ dinv (dec w') /\ frame w w'.
Proof.
  intros H. unfold resolve_timed_out_active_action.
  destruct (active_protocol (dec w)) as [p|] eqn:Ep.
  2: { do 2 eexists. split; [done|]. split.
       - split; wsimp; try apply H; try done. intros E. apply (inv_paste _ H) in E. congruence.
       - split; try done; [|exists []; by rewrite app_nil_r]. unfold pending_bytes, pending. wsimp. simpl. lia. }
  destruct (paste_in_progress (dec w)) eqn:Hpaste; [do 2 eexists; split_and!; [done|done|apply frame_refl]|].
  destruct (active_sequence (dec w)) as [|b rest] eqn:Hseq.
  { destruct (drop_pending_ok w (unknown UnknownReasons.INCOMPLETE_SEQUENCE (pending (dec w))) H Hpaste) as (D & F & _).
    by do 2 eexists. }
  guard_goal.
  2: { destruct (drop_pending_ok w (unknown UnknownReasons.INCOMPLETE_SEQUENCE ((b :: rest) ++ pending (dec w))) H Hpaste)
         as (D & F & _). do 2 eexists. split; [done|]. by split. }
  set (key_event := EKey _).
  assert (Hcase : forall w0 replay active seq,
    w0 = with_active w active seq \/ w0 = emit (with_active w active seq) key_event ->
    (active = None -> seq = []) ->
    (length replay + length seq <= length (pending (dec w)) + length (active_sequence (dec w)))%nat ->
    exists w' status, process (reset_trie_cursor (with_input w0 replay 0)) = Some (w', status) /\
      dinv (dec w') /\ frame w w').
  { intros w0 replay active seq Hw0 Hs Hl.
    destruct (replay_ok w replay active seq H Hpaste Hs Hl) as [D F].
    set (w1 := reset_trie_cursor (with_input w0 replay 0)).
    assert (Hd : dinv (dec w1) /\ frame w w1).
    { destruct Hw0 as [-> | ->]; [done|]. split; [exact D|].
      eapply frame_trans; [exact F|]. split; try done. eexists. reflexivity. }
    destruct Hd as [D1 F1]. destruct (process_total w1 D1) as (w' & st & -> & D' & F').
    do 2 eexists. split_and!; [done|done|by eapply frame_trans]. }
  assert (Hl1 : (length (pending (dec w)) + length (@nil Z) <= length (pending (dec w)) + length (active_sequence (dec w)))%nat)
    by (simpl; lia).
  assert (Hl2 : forall s : bytes, (length s <= 1)%nat -> (length (rest ++ pending (dec w)) + length s <= length (pending (dec w)) + length (active_sequence (dec w)))%nat)
    by (intros s Hs; rewrite length_app, Hseq; simpl; lia).
  destruct (find_child Inert (input_trie (dec w)) kRootNode kEscape) as [escape|]; destruct p;
    first [ apply (Hcase _ _ None []); [by right|done|first [exact Hl1|by apply Hl2; simpl; lia]]
          | apply (Hcase _ _ (Some escape) [kEscape]); [by left|done|by apply Hl2; simpl; lia] ].
Qed.

Lemma good_frame w w' status result : good w (w', status, result) -> dinv (dec w') /\ frame w w'.
Proof. intros (? & ? & _). by split. Qed.

Lemma resolve_path_total w m : dinv (dec w) -> active_action_node (dec w) = None ->
  last_match (trie_cursor (dec w)) = Some m ->
  exists w' status, resolve_timed_out_path w m = Some (w', status) /\ dinv (dec w') /\ frame w w'.
Proof.
  intros H Ha Hm. unfold resolve_timed_out_path.
  destruct (inv_cursor _ H) as [Hs Hmatch _ _]. rewrite Hm in Hmatch. specialize (Hmatch ltac:(done)).
  pose proof (execute_action_good w m (last_match_size (trie_cursor (dec w))) H Ha ltac:(lia)) as G.
  destruct (execute_action w m _) as [[w1 s1] r1]. apply good_frame in G as [D1 F1].
  assert (H2 : exists w2 s2,
    (if is_ok s1 && (last_match_size (trie_cursor (dec w)) =? length (pending (dec w)))%nat && has_active w1
     then resolve_timed_out_active_action w1 else Some (w1, s1)) = Some (w2, s2) /\ dinv (dec w2) /\ frame w w2).
  { guard_goal; [|by do 2 eexists].
    destruct (resolve_active_total w1 D1) as (w2 & s2 & E & D2 & F2). exists w2, s2.
    split_and!; [done|done|by eapply frame_trans]. }
  destruct H2 as (w2 & s2 & -> & D2 & F2). cbn [mbind option_bind].
  assert (H3 : exists w3 s3, (if is_ok s2 then process w2 else Some (w2, s2)) = Some (w3, s3) /\
    dinv (dec w3) /\ frame w w3).
  { guard_goal; [|by do 2 eexists].
    destruct (process_total w2 D2) as (w3 & s3 & E & D3 & F3). exists w3, s3.
    split_and!; [done|done|by eapply frame_trans]. }
  destruct H3 as (w3 & s3 & -> & D3 & F3). cbn [mbind option_bind].
  guard_goal; [|by do 2 eexists].
  destruct (resolve_active_total w3 D3) as (w4 & s4 & E & D4 & F4). exists w4, s4.
  split_and!; [done|done|by eapply frame_trans].
Qed.

Lemma finish_timeout_ok w w' (status : Status) : kept w w' ->
  kept w (update_pending_timeout (compact w') true) /\
  exists w'' s, Some (update_pending_timeout (compact w') true, status) = Some (w'', s) /\ kept w w''.
Proof.
  intros K. assert (K' : kept w (update_pending_timeout (compact w') true)).
  { eapply kept_trans; [exact K|]. destruct (compact_ok w' (kept_inv _ _ K)) as [D F].
    eapply kept_trans; [by apply kept_of_frame|]. by apply update_timeout_ok. }
  split; [done|]. by do 2 eexists.
Qed.

Lemma handle_timeout_total w generation : dinv (dec w) ->
  exists w' status, handle_timeout w generation = Some (w', status) /\ kept w w'.
Proof.
  intros H. unfold handle_timeout.
  assert (Krefl : kept w w) by by apply kept_of_frame, frame_refl.
  guard_goal; [by do 2 eexists|]. cbn zeta.
  pose proof (timeout_ok w (next_timeout_generation (dec w)) None H) as K1.
  set (w1 := with_timeout w _ None) in *. pose proof (kept_inv _ _ K1) as D1.
  change (paste_in_progress (dec w)) with (paste_in_progress (dec w1)).
  change (active_action_node (dec w)) with (active_action_node (dec w1)).
  change (pending (dec w)) with (pending (dec w1)).
  change (trie_cursor (dec w)) with (trie_cursor (dec w1)).
  guard_goal; [by do 2 eexists|].
  destruct (active_action_node (dec w1)) eqn:Ea.
  - destruct (resolve_active_total w1 D1) as (w2 & s & -> & D2 & F2). cbn.
    apply finish_timeout_ok. eapply kept_trans; [exact K1|by apply kept_of_frame].
  - destruct (pending (dec w1)) as [|b rest] eqn:Hb; [by do 2 eexists|].
    destruct (last_match (trie_cursor (dec w1))) as [m|] eqn:Em.
    + destruct (resolve_path_total w1 m D1 Ea Em) as (w2 & s & -> & D2 & F2). cbn.
      apply finish_timeout_ok. eapply kept_trans; [exact K1|by apply kept_of_frame].
    + apply finish_timeout_ok. eapply kept_trans; [exact K1|].
      pose proof (emit_consume_cursor w1 (unknown UnknownReasons.INCOMPLETE_SEQUENCE (b :: rest))
        (length (b :: rest)) D1 ltac:(rewrite Hb; simpl; lia)) as Hgood.
      apply good_frame in Hgood as [D2 F2]. by apply kept_of_frame.
Qed.

Lemma finish_paste_ok w w' status : dinv (dec w) -> active_action_node (dec w) <> None ->
  finish_paste w = (w', status) -> dinv (dec w') /\ frame w w' /\ pending (dec w') = [].
Proof.
  intros H Ha. unfold finish_paste.
  set (w1 := consume _ _). destruct (append_paste_data w1 _) as [w2 s] eqn:E. intros [= <- _].
  assert (P1 : pending (dec w1) = []).
  { transitivity (pending (dec (consume w (length (pending (dec w)))))); [done|]. by rewrite pending_consume, drop_all. }
  assert (D1 : dinv (dec w1)).
  { split; rewrite ?P1; subst w1; wsimp; try apply H; try done.
    all: first [by apply take_nonempty; [|lia]|rewrite (inv_active _ H Ha); apply root_cursor_ok]. }
  assert (F1 : frame w w1).
  { split; try done; [|exists []; by rewrite app_nil_r]. unfold pending_bytes. rewrite P1. subst w1. wsimp. simpl. lia. }
  apply append_paste_data_frame in E as (F2 & D2 & _ & P2 & _).
  destruct (close_paste_ok w2 (paste_event PastePhases.CANCEL []) (D2 D1)) as (D3 & F3 & _ & P3).
  split_and!; [done| |by rewrite P3, P2].
  eapply frame_trans; [exact F1|]. by eapply frame_trans.
Qed.

Lemma emit_consume_all w e : dinv (dec w) -> active_action_node (dec w) = None -> pending (dec w) <> [] ->
  let w' := reset_trie_cursor (consume (emit w e) (length (pending (dec w)))) in
  dinv (dec w') /\ frame w w' /\ pending (dec w') = [] /\ active_action_node (dec w') = None.
Proof.
  intros H Ha Hp. destruct (good_frame _ _ _ _ (emit_consume_cursor w e (length (pending (dec w))) H
    ltac:(destruct (pending (dec w)); [done|simpl; lia]))) as [D F].
  split_and!; [done..| |done]. exact (eq_trans (pending_consume (emit w e) _) (drop_all _)).
Qed.

Lemma finish_rest_ok w : dinv (dec w) -> active_action_node (dec w) = None ->
  let w' := finish_rest w in
  dinv (dec (reset_trie_cursor w')) /\ frame w (reset_trie_cursor w') /\ pending (dec w') = [] /\
  active_action_node (dec w') = None.
Proof.
  intros H Ha. unfold finish_rest. cbn zeta.
  destruct (pending (dec w)) as [|b rest] eqn:Hb.
  { rewrite Hb, bool_decide_true by done. destruct (reset_cursor_ok w H) as (D & F & _). by split_and!. }
  assert (Hall : forall e, let w' := consume (emit w e) (length (b :: rest)) in
    dinv (dec (reset_trie_cursor w')) /\ frame w (reset_trie_cursor w') /\ pending (dec w') = [] /\
    active_action_node (dec w') = None).
  { intros e w'. subst w'. rewrite <- Hb. apply (emit_consume_all w e); [done..|by rewrite Hb]. }
  destruct rest as [|c rest].
  - destruct (b =? kEscape).
    + rewrite bool_decide_true by (exact (eq_trans (pending_consume (emit w _) 1) (f_equal (drop 1) Hb))).
      apply Hall.
    + rewrite Hb, bool_decide_false by done. apply Hall.
  - rewrite Hb, bool_decide_false by done. apply Hall.
Qed.

Lemma finish_exact_ok w : dinv (dec w) -> active_action_node (dec w) = None -> pending (dec w) <> [] ->
  let w' := fst (finish_exact w) in
  dinv (dec w') /\ frame w w' /\ active_action_node (dec w') = None.
Proof.
  intros H Ha Hp. unfold finish_exact. cbn zeta.
  destruct (negb _ && _ && _ && _) eqn:Hg; [|split_and!; [done|apply frame_refl|done]].
  apply andb_true_iff in Hg as [_ Hg]. apply bool_decide_eq_true in Hg. unfold execute_action.
  destruct (value _) as [|e|p]; [done| |done].
  destruct (emit_consume_all w e H Ha Hp) as (D & F & _ & A). by split_and!.
Qed.

Lemma finish_pending_ok w w' status : dinv (dec w) -> active_action_node (dec w) = None ->
  pending (dec w) <> [] -> finish_pending w = (w', status) ->
  dinv (dec (reset_trie_cursor w')) /\ frame w (reset_trie_cursor w') /\ pending (dec w') = [] /\
  active_action_node (dec w') = None.
Proof.
  intros H Ha Hp. unfold finish_pending.
  destruct (finish_exact_ok w H Ha Hp) as (D & F & A). destruct (finish_exact w) as [w1 s]. cbn [fst] in *.
  intros [= <- _]. destruct (finish_rest_ok w1 D A) as (D' & F' & P & A').
  split_and!; [done|by eapply frame_trans|done..].
Qed.

Lemma finish_active_ok w : dinv (dec w) -> paste_in_progress (dec w) = false ->
  dinv (dec (reset_trie_cursor (finish_active w))) /\ frame w (reset_trie_cursor (finish_active w)) /\
  pending (dec (finish_active w)) = [].
Proof. intros H Hp. exact (drop_pending_ok w _ H Hp). Qed.

Lemma finish_ok w w' status : dinv (dec w) -> finish w = (w', status) ->
  kept w w' /\ pending (dec w') = [] /\ active_action_node (dec w') = None /\
  active_sequence (dec w') = [] /\ pending_timeout (dec w') = None.
Proof.
  intros H. unfold finish.
  destruct (if paste_in_progress (dec w) then _ else _) as [w1 r] eqn:E. intros [= <- _].
  assert (Hq : dinv (dec (reset_trie_cursor w1)) /\ frame w (reset_trie_cursor w1) /\
    pending (dec (reset_trie_cursor w1)) = [] /\ active_action_node (dec w1) = None).
  { change (pending (dec (reset_trie_cursor w1))) with (pending (dec w1)).
    destruct (paste_in_progress (dec w)) eqn:Hp.
    - assert (Ha : active_action_node (dec w) <> None).
      { intros Ha. by rewrite (inv_idle_paste _ H Ha) in Hp. }
      assert (A1 : active_action_node (dec w1) = None).
      { unfold finish_paste in E. destruct (append_paste_data _ _). by injection E as <- _. }
      destruct (finish_paste_ok w w1 r H Ha E) as (D & F & P).
      destruct (reset_cursor_ok w1 D) as (D' & F' & _). split_and!; [done| |done..]. by eapply frame_trans.
    - destruct (active_action_node (dec w)) eqn:Ha.
      + injection E as <- _. destruct (finish_active_ok w H Hp) as (D & F & P). by split_and!.
      + destruct (pending (dec w)) eqn:Hb.
        * injection E as <- _. destruct (reset_cursor_ok w H) as (D' & F' & _). by split_and!.
        * eapply finish_pending_ok in E as (D & F & P & A); [by split_and!|done..|by rewrite Hb]. }
  destruct Hq as (D & F & P & A). destruct (compact_ok _ D) as [D2 F2].
  set (w2 := compact (reset_trie_cursor w1)) in *.
  assert (A2 : active_action_node (dec w2) = None) by (subst w2; unfold compact; by repeat guard_goal).
  split_and!; [| |done| |done].
  - eapply kept_trans; [|by apply timeout_ok]. apply kept_of_frame; [done|by eapply frame_trans].
  - change (pending (dec w2) = []). subst w2. by rewrite pending_compact.
  - exact (inv_idle _ D2 A2).
Qed.

Lemma reset_dinv d : dinv d -> dinv (reset d) /\ limits (reset d) = limits d /\
  input_trie (reset d) = input_trie d /\ paste_end_sequence (reset d) = paste_end_sequence d /\
  pending_bytes (reset d) = 0.
Proof.
  intros H. split_and!; try done. split; unfold reset; wsimp; try apply H; try done.
Qed.

(** ** Runs *)

Inductive DecoderCall :=
| CallFeed (input : bytes)
| CallTimeout (generation : Z)
| CallFinish
| CallReset.

Definition decoder_call (w : World) (call : DecoderCall) : option World :=
  match call with
  | CallFeed input => fst <$> feed w input
  | CallTimeout generation => fst <$> handle_timeout w generation
  | CallFinish => Some (fst (finish w))
  | CallReset => Some {| dec := reset (dec w); events := events w |}
  end.

Fixpoint run_decoder (w : World) (calls : list DecoderCall) : option World :=
  match calls with
  | [] => Some w
  | call :: calls => w ← decoder_call w call; run_decoder w calls
  end.

Lemma configured_dinv calls l : dinv (configured_decoder (run_map calls) l).
Proof.
  split; cbn; try done. apply run_map_ok.
Qed.

Lemma configured_bounded m l : bounded (configured_decoder m l) <-> 0 <= maximum_pending_bytes (limits (configured_decoder m l)).
Proof. unfold bounded, pending_bytes. cbn. lia. Qed.

Lemma decoder_call_total w call : dinv (dec w) -> 0 <= maximum_pending_bytes (limits (dec w)) ->
  exists w', decoder_call w call = Some w' /\ kept w w'.
Proof.
  intros H Hl. destruct call as [input|generation| |]; cbn [decoder_call].
  - destruct (feed_total w input H) as (w' & s & -> & K). by exists w'.
  - destruct (handle_timeout_total w generation H) as (w' & s & -> & K). by exists w'.
  - destruct (finish w) as [w' s] eqn:E. exists w'. split; [done|]. by apply finish_ok in E as [K _].
  - eexists. split; [done|]. destruct (reset_dinv (dec w) H) as (D & L & T & P & B).
    split; try done.
    all: first [by exists []; rewrite app_nil_r|intros _; unfold bounded; wsimp; by rewrite B, L].
Qed.

Lemma run_decoder_total calls : forall w, dinv (dec w) -> 0 <= maximum_pending_bytes (limits (dec w)) ->
  exists w', run_decoder w calls = Some w' /\ kept w w'.
Proof.
  induction calls as [|call calls IH]; intros w H Hl.
  - exists w. split; [done|]. by apply kept_of_frame, frame_refl.
  - destruct (decoder_call_total w call H Hl) as (w1 & E & K). cbn [run_decoder]. rewrite E.
    destruct (IH w1) as (w2 & E2 & K2); [by apply K|by rewrite (kept_limits _ _ K)|].
    exists w2. split; [done|]. by eapply kept_trans.
Qed.
