(* ===== verification/DecoderText.v ===== *)
(** * Bracketed paste

    The paste events of a configured decoder are properly bracketed whatever is
    fed, timed out or finished: the consumer never sees data outside a paste,
    a nested begin, or an end without its begin. *)
From S2P Require Import Prelude Text Events Trie Clipboard KeyProtocol InputMap Decoder DecoderInvariant Utf8.
Open Scope Z_scope.

(** ** The consumer's automaton

    The state is whether a paste is open; [None] is a protocol violation. *)

Definition paste_step (open : bool) (event : Event) : option bool :=
  match event with
  | EPaste e =>
      match paste_phase e, open with
      | PastePhases.BEGIN, false => Some true
      | PastePhases.DATA, true => Some true
      | PastePhases.END, true | PastePhases.CANCEL, true => Some false
      | _, _ => None
      end
  | _ => Some open
  end.

Fixpoint paste_scan (open : bool) (events : list Event) : option bool :=
  match events with
  | [] => Some open
  | e :: events => open ← paste_step open e; paste_scan open events
  end.

Lemma paste_scan_app open l1 l2 : paste_scan open (l1 ++ l2) = (open ← paste_scan open l1; paste_scan open l2).
Proof.
  revert open. induction l1 as [|e l1 IH]; intros open; [done|]. cbn.
  destruct (paste_step open e); [apply IH|done].
Qed.

Definition plain (event : Event) : Prop := match event with EPaste _ => False | _ => True end.

Lemma paste_scan_plain open l : Forall plain l -> paste_scan open l = Some open.
Proof. induction 1 as [|e l He Hl IH]; [done|]. cbn. by destruct e. Qed.

(** ** The configuration *)

(** No mapping emits a paste event; configuration files can only name keys,
    focus changes and commands. *)
Definition plain_trie (t : InputTrie) : Prop :=
  forall i e, value (trie_node t i) = EmitInputEvent e -> plain e.

(** The bare Escape byte does not open a paste. *)
Definition escape_ok (t : InputTrie) : Prop :=
  forall i, find_child Inert t kRootNode kEscape = Some i ->
    value (trie_node t i) <> EnterInputProtocol PASTE_BEGIN.

Record paste_configured (d : Decoder) : Prop := {
  pc_end : paste_end_sequence d <> [];
  pc_plain : plain_trie (input_trie d);
  pc_escape : escape_ok (input_trie d);
}.

(** ** The invariant *)

Record paste_inv (w : World) : Prop := {
  pi_active : active_protocol (dec w) = Some PASTE_BEGIN -> paste_in_progress (dec w) = true;
  pi_candidate : paste_in_progress (dec w) = false -> paste_candidate (dec w) = [];
  pi_scan : paste_scan false (events w) = Some (paste_in_progress (dec w) && negb (paste_discarding (dec w)));
}.

(** Steps that do not touch the paste. *)
Record quiet (w w' : World) : Prop := {
  qt_progress : paste_in_progress (dec w') = paste_in_progress (dec w);
  qt_discarding : paste_discarding (dec w') = paste_discarding (dec w);
  qt_candidate : paste_candidate (dec w') = paste_candidate (dec w);
  qt_bytes : paste_bytes (dec w') = paste_bytes (dec w);
  qt_active : active_protocol (dec w') = Some PASTE_BEGIN -> active_protocol (dec w) = Some PASTE_BEGIN;
  qt_events : exists new, events w' = events w ++ new /\ Forall plain new;
}.

Lemma quiet_inv w w' : quiet w w' -> paste_inv w -> paste_inv w'.
Proof.
  intros [] []. destruct qt_events0 as (new & E & Hn). split.
  - rewrite qt_progress0. auto.
  - rewrite qt_progress0, qt_candidate0. done.
  - rewrite E, paste_scan_app, pi_scan0. cbn. rewrite paste_scan_plain by done. by rewrite qt_progress0, qt_discarding0.
Qed.

Lemma quiet_trans w1 w2 w3 : quiet w1 w2 -> quiet w2 w3 -> quiet w1 w3.
Proof.
  intros [] []. split; try congruence; [auto|].
  destruct qt_events0 as (n1 & E1 & H1), qt_events1 as (n2 & E2 & H2).
  exists (n1 ++ n2). rewrite E2, E1, app_assoc. split; [done|]. by apply Forall_app.
Qed.

(** Same paste and capture, these events added. *)
Lemma quiet_same w w' new :
  paste_in_progress (dec w') = paste_in_progress (dec w) ->
  paste_discarding (dec w') = paste_discarding (dec w) ->
  paste_candidate (dec w') = paste_candidate (dec w) ->
  paste_bytes (dec w') = paste_bytes (dec w) ->
  (active_protocol (dec w') = active_protocol (dec w) \/ active_protocol (dec w') <> Some PASTE_BEGIN) ->
  events w' = events w ++ new -> Forall plain new -> quiet w w'.
Proof. intros ? ? ? ? [Ha|Ha] ? ?; split; try done; [by rewrite Ha|by eexists|by eexists]. Qed.

Ltac quiet_none := apply (quiet_same _ _ []); [done..|by left|by rewrite app_nil_r|done].
Ltac quiet_one e := apply (quiet_same _ _ [e]); [done..|first [by left|by right]|done|].

Lemma quiet_refl w : quiet w w.
Proof. quiet_none. Qed.

Lemma quiet_consume w n : quiet w (consume w n).
Proof. quiet_none. Qed.

Lemma quiet_cursor w c : quiet w (with_cursor w c).
Proof. quiet_none. Qed.

Lemma quiet_compact w : quiet w (compact w).
Proof. unfold compact. repeat guard_goal; quiet_none. Qed.

Lemma quiet_update_timeout w rearm : quiet w (update_pending_timeout w rearm).
Proof. unfold update_pending_timeout. cbn zeta. repeat guard_goal; quiet_none. Qed.

Lemma quiet_capture_byte w b : quiet w (capture_byte w b).
Proof. quiet_none. Qed.

Lemma quiet_capture_terminator w : quiet w (capture_terminator w).
Proof. quiet_none. Qed.

Lemma quiet_emit w e : plain e -> quiet w (emit w e).
Proof. intros He. quiet_one e. by constructor. Qed.

Lemma quiet_abandon w e : plain e -> quiet w (abandon w e).
Proof. intros He. quiet_one e. by constructor. Qed.

Definition quiet_step (w : World) (s : Step) : Prop := quiet w (fst (fst s)).

Lemma quiet_step_after w w1 s : quiet w w1 -> quiet_step w1 s -> quiet_step w s.
Proof. apply quiet_trans. Qed.

(** ** No protocol parser produces a paste event *)

Lemma plain_letter_key sequence body named : plain (letter_key sequence body named).
Proof. unfold letter_key. by repeat case_match. Qed.

Lemma plain_kitty_key sequence body : plain (kitty_key sequence body).
Proof. unfold kitty_key. by repeat case_match. Qed.

Lemma plain_tilde_key sequence body : plain (tilde_key sequence body).
Proof. unfold tilde_key. by repeat case_match. Qed.

Lemma plain_parse_csi sequence : plain (parse_csi sequence).
Proof.
  unfold parse_csi. cbn zeta.
  repeat case_match; try done; auto using plain_letter_key, plain_kitty_key, plain_tilde_key.
Qed.

Lemma plain_parse_sgr_mouse sequence : plain (parse_sgr_mouse sequence).
Proof.
  unfold parse_sgr_mouse, mouse_report. cbn zeta. by repeat case_match.
Qed.

Lemma plain_parse_osc52 sequence maximum : plain (parse_osc52 sequence maximum).1.
Proof. unfold parse_osc52. cbn zeta. by repeat case_match. Qed.

(** ** Captures are quiet *)

Create HintDb quiet.
#[export] Hint Resolve quiet_refl quiet_abandon plain_parse_csi plain_parse_sgr_mouse : quiet.
#[export] Hint Extern 1 (plain _) => exact I : quiet.

Lemma quiet_parse_alt_key w : quiet_step w (parse_alt_key w).
Proof.
  unfold parse_alt_key.
  repeat case_match; try apply quiet_refl; unfold quiet_step; wsimp.
  all: match goal with |- quiet _ ?w' => apply (quiet_same _ _ [default (unknown_reason_event UnknownReasons.LIMIT_EXCEEDED) (last (events w'))]) end.
  all: try done; try (by right); cbn; rewrite ?last_snoc; try done; by constructor.
Qed.

Lemma quiet_capture_ss3 fuel : forall w, quiet_step w (capture_ss3 fuel w).
Proof.
  induction fuel as [|fuel IH]; intros w; cbn [capture_ss3]; [apply quiet_refl|].
  destruct (pending (dec w)) as [|b rest]; [apply quiet_refl|].
  guard_goal; [by apply quiet_abandon|]. apply (quiet_step_after w _ _ (quiet_capture_byte w b)).
  repeat (guard_goal; [by apply quiet_abandon|]). apply IH.
Qed.

Lemma quiet_capture_csi mouse fuel : forall w, quiet_step w (capture_csi mouse fuel w).
Proof.
  induction fuel as [|fuel IH]; intros w; cbn [capture_csi]; [apply quiet_refl|].
  destruct (pending (dec w)) as [|b rest]; [apply quiet_refl|].
  guard_goal; [by apply quiet_abandon|]. apply (quiet_step_after w _ _ (quiet_capture_byte w b)).
  guard_goal; [apply quiet_abandon; case_match; auto with quiet|].
  repeat (guard_goal; [by apply quiet_abandon|]). apply IH.
Qed.

Lemma quiet_finish_osc osc52 w : quiet_step w (finish_osc osc52 w).
Proof.
  unfold finish_osc, osc_event. destruct osc52; [|by apply quiet_abandon].
  pose proof (plain_parse_osc52 (active_sequence (dec w)) (maximum_clipboard_bytes (limits (dec w)))) as Hp.
  destruct (parse_osc52 _ _) as [e s]. by apply quiet_abandon.
Qed.

Lemma quiet_capture_osc osc52 fuel : forall w, quiet_step w (capture_osc osc52 fuel w).
Proof.
  induction fuel as [|fuel IH]; intros w; cbn [capture_osc]; [apply quiet_refl|].
  destruct (pending (dec w)) as [|b rest]; [apply quiet_refl|].
  guard_goal.
  - destruct rest as [|next rest]; [apply quiet_refl|]. guard_goal; [|by apply quiet_abandon].
    guard_goal; [|by apply quiet_abandon].
    apply (quiet_step_after w _ _ (quiet_capture_terminator w)), quiet_finish_osc.
  - apply (quiet_step_after w _ _ (quiet_capture_byte w b)).
    guard_goal; [apply quiet_finish_osc|]. guard_goal; [by apply quiet_abandon|]. apply IH.
Qed.

Lemma quiet_capture_st_string kind fuel : forall w, quiet_step w (capture_st_string kind fuel w).
Proof.
  induction fuel as [|fuel IH]; intros w; cbn [capture_st_string]; [apply quiet_refl|].
  destruct (pending (dec w)) as [|b rest]; [apply quiet_refl|].
  guard_goal.
  - destruct rest as [|next rest]; [apply quiet_refl|]. guard_goal; [|by apply quiet_abandon].
    guard_goal; [|by apply quiet_abandon].
    apply (quiet_step_after w _ _ (quiet_capture_terminator w)). by apply quiet_abandon.
  - apply (quiet_step_after w _ _ (quiet_capture_byte w b)).
    guard_goal; [by apply quiet_abandon|]. apply IH.
Qed.

Lemma quiet_emit_consume w e n : plain e -> quiet w (consume (emit w e) n).
Proof. intros He. apply (quiet_trans _ (emit w e)); [by apply quiet_emit|apply quiet_consume]. Qed.

Lemma quiet_parse_text w : quiet w (fst (parse_text w)).
Proof.
  unfold parse_text. cbn zeta. guard_goal; [by apply quiet_emit_consume|].
  destruct (text_run _ _ 0) as [[|n]|]; [by apply quiet_emit_consume..|apply quiet_refl].
Qed.

Lemma quiet_reject w n : quiet_step w (reject w n).
Proof.
  unfold quiet_step, reject. cbn [consumed fst]. eapply quiet_trans; [|apply quiet_cursor].
  by apply quiet_emit_consume.
Qed.

(** ** Entering and leaving a paste *)

Lemma enter_protocol_inv w i n p : paste_configured (dec w) -> paste_in_progress (dec w) = false ->
  paste_inv w -> value (trie_node (input_trie (dec w)) i) = EnterInputProtocol p ->
  paste_inv (enter_protocol w i n p).
Proof.
  intros Hc Hp Hi Hv. unfold enter_protocol. cbn zeta.
  set (w1 := reset_trie_cursor (consume w n)).
  assert (Q1 : quiet w w1) by quiet_none.
  assert (Hother : p <> PASTE_BEGIN -> paste_inv (with_active w1 (Some i) (take n (pending (dec w))))).
  { intros Hne. eapply quiet_inv; [|exact Hi]. apply (quiet_same _ _ []); [done..| |by rewrite app_nil_r|done].
    right. unfold active_protocol. wsimp. change (input_trie (dec w1)) with (input_trie (dec w)).
    rewrite Hv. cbn. congruence. }
  destruct p; try (by apply Hother).
  - destruct Hi. split; wsimp; try done. rewrite paste_scan_app. change (events w1) with (events w).
    by rewrite pi_scan0, Hp.
  - eapply quiet_inv; [|exact Hi]. eapply quiet_trans; [exact Q1|]. by apply quiet_emit.
Qed.

Lemma append_paste_inv w data w' status : paste_in_progress (dec w) = true -> paste_inv w ->
  append_paste_data w data = (w', status) ->
  paste_inv w' /\ paste_in_progress (dec w') = true /\ paste_end_sequence (dec w') = paste_end_sequence (dec w).
Proof.
  intros Hp Hi. unfold append_paste_data.
  guard_goal; [by intros [= <- _]|]. apply orb_false_iff in G as [_ G]. pose proof (pi_scan w Hi) as Hs.
  rewrite Hp, G in Hs.
  guard_goal; intros [= <- _]; (split; [|done]); split; wsimp; try done; try congruence.
  all: rewrite paste_scan_app, Hs, ?Hp, ?G; done.
Qed.

Lemma close_paste_inv w event open : paste_inv w -> paste_in_progress (dec w) = true ->
  paste_step true event = Some open -> open = false ->
  paste_inv (reset_active_action
    (with_paste (if paste_discarding (dec w) then w else emit w event) [] false false 0)).
Proof.
  intros Hi Hp Hs ->. pose proof (pi_scan w Hi) as Hscan. rewrite Hp in Hscan.
  destruct (paste_discarding (dec w)) eqn:Hd; split; wsimp; try done.
  rewrite paste_scan_app, Hscan. cbn. by rewrite Hs.
Qed.

Lemma capture_paste_loop_inv fuel : forall w data,
  paste_in_progress (dec w) = true -> paste_inv w ->
  let w' := fst (fst (capture_paste_loop fuel w data)) in paste_inv w'.
Proof.
  assert (Hstop : forall w data, paste_in_progress (dec w) = true -> paste_inv w ->
    paste_inv (fst (fst (let (w, status) := append_paste_data w data in
             (w, status, if bool_decide (data = []) then NEED_MORE else CONSUMED) : Step)))).
  { intros w data Hp Hi. destruct (append_paste_data w data) as [w' s] eqn:E.
    by apply append_paste_inv in E as (? & _). }
  induction fuel as [|fuel IH]; intros w data Hp Hi; cbn [capture_paste_loop]; [by apply Hstop|].
  destruct (pending (dec w)) as [|b rest]; [by apply Hstop|].
  destruct (settle_candidate _ _ data) as [c d].
  set (w1 := with_paste (consume w 1) c _ _ _).
  assert (H1 : paste_inv w1 /\ paste_in_progress (dec w1) = true).
  { split; [|done]. destruct Hi. split; subst w1; wsimp; [done|congruence|done]. }
  destruct H1 as [H1 Hp1].
  case_bool_decide; [|by apply IH].
  destruct (append_paste_data w1 d) as [w2 s] eqn:E. apply append_paste_inv in E as (H2 & Hp2 & _); [|done..].
  cbn [fst]. unfold end_paste. by eapply close_paste_inv.
Qed.

Lemma execute_action_paste w i n : paste_configured (dec w) -> paste_in_progress (dec w) = false ->
  paste_inv w -> paste_inv (fst (fst (execute_action w i n))).
Proof.
  intros Hc Hp Hi. unfold execute_action.
  destruct (value (trie_node (input_trie (dec w)) i)) as [|e|p] eqn:Ev.
  - eapply quiet_inv; [|exact Hi]. eapply quiet_trans; [|apply quiet_cursor]. by apply quiet_emit_consume.
  - eapply quiet_inv; [|exact Hi]. eapply quiet_trans; [|apply quiet_cursor].
    apply quiet_emit_consume. by apply (pc_plain _ Hc) in Ev.
  - pose proof (enter_protocol_inv w i n p Hc Hp Hi Ev) as Henter. destruct p; try exact Henter.
    pose proof (quiet_parse_text (reset_trie_cursor w)) as Qt.
    destruct (parse_text _). eapply quiet_inv; [|exact Hi]. eapply quiet_trans; [apply quiet_cursor|exact Qt].
Qed.

Lemma advance_trie_paste fuel : forall w, paste_configured (dec w) -> paste_in_progress (dec w) = false ->
  paste_inv w -> paste_inv (fst (fst (advance_trie fuel w))).
Proof.
  induction fuel as [|fuel IH]; intros w Hc Hp Hi; cbn [advance_trie]; [done|].
  destruct (drop _ _) as [|b rest]; [done|].
  destruct (find_child Inert _ _ b) as [child|].
  - set (w1 := with_cursor w _).
    assert (Hi1 : paste_inv w1) by (eapply quiet_inv; [apply quiet_cursor|done]).
    assert (Hc1 : paste_configured (dec w1)) by (destruct Hc; by split).
    guard_goal; [by apply execute_action_paste|]. guard_goal; [|by apply IH].
    eapply quiet_inv; [apply quiet_reject|done].
  - destruct (last_match _); [by apply execute_action_paste|].
    guard_goal; [|guard_goal; [by apply execute_action_paste|]].
    all: eapply quiet_inv; [apply quiet_reject|done].
Qed.

Lemma advance_active_paste w : paste_configured (dec w) -> paste_inv w ->
  paste_inv (fst (fst (advance_active_action w))).
Proof.
  intros Hc Hi. unfold advance_active_action.
  assert (Hq : forall s, quiet_step w s -> paste_inv (fst (fst s))) by (intros s Q; by eapply quiet_inv).
  assert (Hr : quiet w (reset_active_action w)) by (apply (quiet_same _ _ []); [done..|by right|by rewrite app_nil_r|done]).
  destruct (active_protocol (dec w)) as [[]|] eqn:Ep; try (by apply Hq).
  - pose proof (quiet_parse_text w) as Q. destruct (parse_text w). by apply Hq.
  - apply Hq, quiet_parse_alt_key.
  - apply Hq, quiet_capture_ss3.
  - apply Hq, quiet_capture_csi.
  - apply Hq, quiet_capture_osc.
  - apply Hq, quiet_capture_st_string.
  - apply Hq, quiet_capture_st_string.
  - apply Hq, quiet_capture_st_string.
  - apply Hq, quiet_capture_csi.
  - apply Hq, quiet_capture_osc.
  - unfold capture_paste. rewrite bool_decide_false by apply Hc.
    apply capture_paste_loop_inv; [|done]. by apply pi_active.
Qed.

Lemma step_decoder_paste w : dinv (dec w) -> paste_configured (dec w) -> paste_inv w ->
  paste_inv (fst (fst (step_decoder w))).
Proof.
  intros H Hc Hi. unfold step_decoder. destruct (active_action_node (dec w)) as [i|] eqn:Ha.
  - by apply advance_active_paste.
  - apply advance_trie_paste; [done| |done]. by apply inv_idle_paste.
Qed.

(** ** Operations keep the invariant *)

Lemma paste_configured_frame w w' : frame w w' -> paste_configured (dec w) -> paste_configured (dec w').
Proof. intros F C. split; rewrite ?(fr_end _ _ F), ?(fr_trie _ _ F); apply C. Qed.

Lemma process_loop_paste fuel : forall w first_error w' status,
  dinv (dec w) -> paste_configured (dec w) -> paste_inv w ->
  process_loop fuel w first_error = Some (w', status) -> paste_inv w'.
Proof.
  induction fuel as [|fuel IH]; intros w e w' status H Hc Hi; cbn [process_loop];
    destruct (pending (dec w)) as [|b rest] eqn:Hb; [by intros [= <- _]|done|by intros [= <- _]|].
  pose proof (step_decoder_good w H ltac:(by rewrite Hb)) as Hg.
  pose proof (step_decoder_paste w H Hc Hi) as Hp.
  destruct (step_decoder w) as [[w1 s] [|]]; destruct Hg as (H1 & F1 & _); [|by intros [= <- _]].
  apply IH; [done| |done]. by eapply paste_configured_frame.
Qed.

Lemma process_paste w w' status : dinv (dec w) -> paste_configured (dec w) -> paste_inv w ->
  process w = Some (w', status) -> paste_inv w'.
Proof. apply process_loop_paste. Qed.

Lemma feed_paste w input w' status : dinv (dec w) -> paste_configured (dec w) -> paste_inv w ->
  feed w input = Some (w', status) -> paste_inv w'.
Proof.
  intros H Hc Hi. unfold feed. destruct (compact_ok w H) as [Hd F]. set (w1 := compact w) in *.
  assert (Hi1 : paste_inv w1) by (eapply quiet_inv; [apply quiet_compact|done]).
  pose proof (paste_configured_frame _ _ F Hc) as Hc1.
  guard_goal; [intros [= <- _]; exact (quiet_inv _ _ (quiet_emit w1 (unknown_reason_event UnknownReasons.LIMIT_EXCEEDED) I) Hi1)|].
  destruct (append_ok w1 input Hd) as (Ha & _). set (w2 := with_input w1 _ _) in *.
  destruct (process w2) as [[w3 s]|] eqn:E; cbn; [|done]. intros [= <- _].
  assert (Hi2 : paste_inv w2) by (eapply quiet_inv; [|exact Hi1]; quiet_none).
  eapply quiet_inv; [|eapply process_paste; [exact Ha| |exact Hi2|exact E]; by destruct Hc1; split].
  eapply quiet_trans; [apply quiet_compact|apply quiet_update_timeout].
Qed.

Lemma resolve_active_paste w w' status : dinv (dec w) -> paste_configured (dec w) -> paste_inv w ->
  resolve_timed_out_active_action w = Some (w', status) -> paste_inv w'.
Proof.
  intros H Hc Hi. unfold resolve_timed_out_active_action.
  destruct (active_protocol (dec w)) as [p|] eqn:Ep.
  2: { intros [= <- _]. eapply quiet_inv; [|exact Hi]. apply (quiet_same _ _ []); [done..|by right|by rewrite app_nil_r|done]. }
  destruct (paste_in_progress (dec w)) eqn:Hp; [by intros [= <- _]|].
  assert (Hincomplete : forall e, plain e -> paste_inv (reset_trie_cursor (reset_active_action
    (emit (consume w (length (pending (dec w)))) e)))).
  { intros e He. eapply quiet_inv; [|exact Hi]. apply (quiet_same _ _ [e]); [done..|by right|done|by constructor]. }
  destruct (active_sequence (dec w)) as [|b rest] eqn:Hseq; [intros [= <- _]; by apply Hincomplete|].
  guard_goal; [|intros [= <- _]; exact (Hincomplete (unknown UnknownReasons.INCOMPLETE_SEQUENCE ((b :: rest) ++ pending (dec w))) I)].
  set (key_event := EKey _).
  assert (Hcase : forall w0 replay active seq,
    w0 = with_active w active seq \/ w0 = emit (with_active w active seq) key_event ->
    (active = None -> seq = []) ->
    (forall i, active = Some i -> value (trie_node (input_trie (dec w)) i) <> EnterInputProtocol PASTE_BEGIN) ->
    (length replay + length seq <= length (pending (dec w)) + length (active_sequence (dec w)))%nat ->
    process (reset_trie_cursor (with_input w0 replay 0)) = Some (w', status) -> paste_inv w').
  { intros w0 replay active seq Hw0 Hs Hesc Hl.
    destruct (replay_ok w replay active seq H Hp Hs Hl) as [D F].
    set (w1 := reset_trie_cursor (with_input (with_active w active seq) replay 0)) in *.
    assert (Hne : active_protocol (dec w1) <> Some PASTE_BEGIN).
    { unfold active_protocol. subst w1. wsimp. destruct active as [i|]; [|done]. specialize (Hesc i eq_refl).
      destruct (value _); [done|done|]. cbn. congruence. }
    pose proof (paste_configured_frame _ _ F Hc) as C1.
    destruct Hw0 as [-> | ->]; intros E; eapply process_paste; try exact E; try exact D; try exact C1.
    - eapply quiet_inv; [|exact Hi]. apply (quiet_same _ _ []); [done..|by right|by rewrite app_nil_r|done].
    - eapply quiet_inv; [|exact Hi]. apply (quiet_same _ _ [key_event]); [done..|by right|done|by constructor]. }
  assert (Hl1 : (length (pending (dec w)) + length (@nil Z) <= length (pending (dec w)) + length (active_sequence (dec w)))%nat)
    by (simpl; lia).
  assert (Hl2 : forall s : bytes, (length s <= 1)%nat -> (length (rest ++ pending (dec w)) + length s <= length (pending (dec w)) + length (active_sequence (dec w)))%nat)
    by (intros s Hs; rewrite length_app, Hseq; simpl; lia).
  pose proof (pc_escape _ Hc) as Hesc. unfold escape_ok in Hesc.
  destruct (find_child Inert (input_trie (dec w)) kRootNode kEscape) as [escape|];
    [|clear Hesc]; destruct p;
    first [ apply (Hcase _ _ None []); [by right|done|done|first [exact Hl1|by apply Hl2; simpl; lia]]
          | apply (Hcase _ _ (Some escape) [kEscape]);
              [by left|done|intros i [= <-]; by apply Hesc|by apply Hl2; simpl; lia] ].
Qed.

Lemma resolve_path_paste w m w' status : dinv (dec w) -> active_action_node (dec w) = None ->
  last_match (trie_cursor (dec w)) = Some m -> paste_configured (dec w) -> paste_inv w ->
  resolve_timed_out_path w m = Some (w', status) -> paste_inv w'.
Proof.
  intros H Ha Hm Hc Hi. unfold resolve_timed_out_path.
  destruct (inv_cursor _ H) as [Hs Hmatch _ _]. rewrite Hm in Hmatch. specialize (Hmatch ltac:(done)).
  pose proof (execute_action_good w m (last_match_size (trie_cursor (dec w))) H Ha ltac:(lia)) as Hg.
  pose proof (execute_action_paste w m (last_match_size (trie_cursor (dec w))) Hc (inv_idle_paste _ H Ha) Hi) as Hi1.
  destruct (execute_action w m _) as [[w1 s1] r1]. apply good_frame in Hg as [D1 F1]. cbn [fst] in Hi1.
  pose proof (paste_configured_frame _ _ F1 Hc) as C1.
  destruct (if is_ok s1 && _ && _ then resolve_timed_out_active_action w1 else _) as [[w2 s2]|] eqn:E2; [|done].
  assert (H2 : dinv (dec w2) /\ paste_configured (dec w2) /\ paste_inv w2).
  { guard_in E2; [|injection E2 as <- <-; done].
    destruct (resolve_active_total w1 D1) as (w2' & s2' & E & D2 & F2). rewrite E in E2. injection E2 as -> ->.
    split_and!; [done|exact (paste_configured_frame _ _ F2 C1)|exact (resolve_active_paste _ _ _ D1 C1 Hi1 E)]. }
  destruct H2 as (D2 & C2 & I2). cbn [mbind option_bind].
  destruct (if is_ok s2 then process w2 else _) as [[w3 s3]|] eqn:E3; [|done].
  assert (H3 : dinv (dec w3) /\ paste_configured (dec w3) /\ paste_inv w3).
  { guard_in E3; [|injection E3 as <- <-; done].
    destruct (process_total w2 D2) as (w3' & s3' & E & D3 & F3). rewrite E in E3. injection E3 as -> ->.
    split_and!; [done|exact (paste_configured_frame _ _ F3 C2)|exact (process_paste _ _ _ D2 C2 I2 E)]. }
  destruct H3 as (D3 & C3 & I3). cbn [mbind option_bind].
  guard_goal; [|by intros [= <- _]]. by apply resolve_active_paste.
Qed.

Lemma handle_timeout_paste w generation w' status : dinv (dec w) -> paste_configured (dec w) -> paste_inv w ->
  handle_timeout w generation = Some (w', status) -> paste_inv w'.
Proof.
  intros H Hc Hi. unfold handle_timeout. guard_goal; [by intros [= <- _]|]. cbn zeta.
  pose proof (kept_inv _ _ (timeout_ok w (next_timeout_generation (dec w)) None H)) as D1.
  set (w1 := with_timeout w _ None) in *.
  assert (I1 : paste_inv w1) by (eapply quiet_inv; [|exact Hi]; quiet_none).
  assert (C1 : paste_configured (dec w1)) by (destruct Hc; by split).
  assert (Hend : forall w2 (s : Status), paste_inv w2 ->
    Some (update_pending_timeout (compact w2) true, s) = Some (w', status) -> paste_inv w').
  { intros w2 s I2 [= <- _]. eapply quiet_inv; [|exact I2].
    eapply quiet_trans; [apply quiet_compact|apply quiet_update_timeout]. }
  change (paste_in_progress (dec w)) with (paste_in_progress (dec w1)).
  change (active_action_node (dec w)) with (active_action_node (dec w1)).
  change (pending (dec w)) with (pending (dec w1)).
  change (trie_cursor (dec w)) with (trie_cursor (dec w1)).
  guard_goal; [by intros [= <- _]|].
  destruct (active_action_node (dec w1)) eqn:Ea.
  - destruct (resolve_timed_out_active_action w1) as [[w2 s]|] eqn:E; [|done]. cbn.
    apply Hend. by eapply resolve_active_paste.
  - destruct (pending (dec w1)) as [|b rest] eqn:Hb; [by intros [= <- _]|].
    destruct (last_match (trie_cursor (dec w1))) as [m|] eqn:Em.
    + destruct (resolve_timed_out_path w1 m) as [[w2 s]|] eqn:E; [|done]. cbn.
      apply Hend. by eapply resolve_path_paste.
    + apply Hend. eapply quiet_inv; [|exact I1]. by quiet_one (unknown UnknownReasons.INCOMPLETE_SEQUENCE (b :: rest)); constructor.
Qed.

Lemma quiet_finish_rest w : quiet w (finish_rest w).
Proof.
  unfold finish_rest. cbn zeta.
  set (w1 := match pending (dec w) with [b] => _ | _ => w end).
  assert (Q1 : quiet w w1) by (subst w1; repeat case_match; try apply quiet_refl; by apply quiet_emit_consume).
  guard_goal; [done|]. eapply quiet_trans; [exact Q1|by apply quiet_emit_consume].
Qed.

Lemma quiet_finish_exact w : plain_trie (input_trie (dec w)) -> quiet w (fst (finish_exact w)).
Proof.
  intros Hp. unfold finish_exact. cbn zeta.
  destruct (negb _ && _ && _ && _) eqn:Hg; [|apply quiet_refl].
  apply andb_true_iff in Hg as [_ Hg]. apply bool_decide_eq_true in Hg. unfold execute_action.
  destruct (value _) as [|e|p] eqn:Ev; [done| |done]. apply Hp in Ev.
  cbn [consumed fst]. eapply quiet_trans; [|apply quiet_cursor]. by apply quiet_emit_consume.
Qed.

Lemma quiet_finish_pending w : plain_trie (input_trie (dec w)) -> quiet w (fst (finish_pending w)).
Proof.
  intros Hp. unfold finish_pending. pose proof (quiet_finish_exact w Hp) as Q.
  destruct (finish_exact w) as [w1 s]. eapply quiet_trans; [exact Q|apply quiet_finish_rest].
Qed.

Lemma finish_paste_closes w w' status : paste_in_progress (dec w) = true -> paste_inv w ->
  finish_paste w = (w', status) -> paste_inv w' /\ paste_in_progress (dec w') = false.
Proof.
  intros Hp Hi. unfold finish_paste. destruct (append_paste_data _ _) as [w2 s] eqn:E. intros [= <- _].
  split; [|done]. pose proof (pi_active w Hi) as Ha. pose proof (pi_scan w Hi) as Hs.
  apply append_paste_inv in E as (I2 & P2 & _); [|done|by split].
  by apply (close_paste_inv w2 (paste_event PastePhases.CANCEL []) false).
Qed.

Lemma finish_paste_inv w w' status : paste_configured (dec w) -> paste_inv w ->
  finish w = (w', status) -> paste_inv w' /\ paste_in_progress (dec w') = false.
Proof.
  intros Hc Hi. unfold finish.
  destruct (if paste_in_progress (dec w) then _ else _) as [w1 r] eqn:E. intros [= <- _].
  assert (H1 : paste_inv w1 /\ paste_in_progress (dec w1) = false).
  { destruct (paste_in_progress (dec w)) eqn:Hp; [by eapply finish_paste_closes|].
    assert (Q : quiet w w1); [|split; [by eapply quiet_inv|by rewrite (qt_progress _ _ Q)]].
    destruct (active_action_node (dec w)) as [i|] eqn:Ha.
    - injection E as <- _.
      apply (quiet_same _ _ [unknown UnknownReasons.INCOMPLETE_SEQUENCE (active_sequence (dec w) ++ pending (dec w))]);
        [done..|by right|done|by constructor].
    - destruct (pending (dec w)) eqn:Hb; [injection E as <- _; apply quiet_refl|].
      pose proof (quiet_finish_pending w (pc_plain _ Hc)) as Q. by rewrite E in Q. }
  destruct H1 as [H1 P1].
  assert (Q : quiet w1 (with_timeout (compact (reset_trie_cursor w1))
    (next_timeout_generation (dec (compact (reset_trie_cursor w1)))) None)).
  { eapply quiet_trans; [apply quiet_cursor|]. eapply quiet_trans; [apply quiet_compact|quiet_none]. }
  split; [by eapply quiet_inv|by rewrite (qt_progress _ _ Q)].
Qed.

(** ** Runs without [reset] *)

Definition no_reset (call : DecoderCall) : Prop := match call with CallReset => False | _ => True end.

Lemma decoder_call_paste w call w' : dinv (dec w) -> paste_configured (dec w) -> paste_inv w ->
  no_reset call -> decoder_call w call = Some w' -> paste_inv w'.
Proof.
  intros H Hc Hi Hn. destruct call as [input|generation| |]; cbn [decoder_call]; [..|done].
  - destruct (feed w input) as [[w1 s]|] eqn:E; cbn; [|done]. intros [= <-]. by eapply feed_paste.
  - destruct (handle_timeout w generation) as [[w1 s]|] eqn:E; cbn; [|done]. intros [= <-].
    by eapply handle_timeout_paste.
  - destruct (finish w) as [w1 s] eqn:E. intros [= <-]. by eapply finish_paste_inv.
Qed.

Lemma run_decoder_paste calls : forall w w', dinv (dec w) -> 0 <= maximum_pending_bytes (limits (dec w)) ->
  paste_configured (dec w) -> paste_inv w -> Forall no_reset calls ->
  run_decoder w calls = Some w' -> paste_inv w' /\ kept w w'.
Proof.
  induction calls as [|call calls IH]; intros w w' H Hl Hc Hi Hn; cbn [run_decoder].
  - intros [= <-]. split; [done|]. by apply kept_of_frame, frame_refl.
  - inversion_clear Hn as [|? ? Hn1 Hn2].
    destruct (decoder_call_total w call H Hl) as (w1 & E & K). rewrite E. cbn [mbind option_bind]. intros Hr.
    pose proof (decoder_call_paste w call w1 H Hc Hi Hn1 E) as I1.
    destruct (IH w1 w') as [I' K']; [by apply K|by rewrite (kept_limits _ _ K)| |done..|].
    + split; rewrite ?(kept_end _ _ K), ?(kept_trie _ _ K); apply Hc.
    + split; [done|by eapply kept_trans].
Qed.

Lemma new_world_paste d : active_action_node d = None -> paste_in_progress d = false ->
  paste_candidate d = [] -> paste_inv (new_world d).
Proof.
  intros Ha Hp Hc. split; cbn.
  - unfold active_protocol. cbn. by rewrite Ha.
  - done.
  - by rewrite Hp.
Qed.

(** ** Configurations *)

Definition plain_call (call : MapCall) : Prop :=
  match call with RegisterSequence _ (EmitInputEvent e) => plain e | _ => True end.

Lemma plain_run calls : Forall plain_call calls -> plain_trie (trie_ (run_map calls)).
Proof.
  intros H i e He.
  assert (V : values_ok (fun a => match a with EmitInputEvent e => plain e | _ => True end) (trie_ (run_map calls))).
  { apply values_ok_run; [done|]. eapply Forall_impl; [exact H|]. by intros [p []|p]. }
  apply (values_ok_node _ I _ i) in V. by rewrite He in V.
Qed.

(** A configuration under which pastes work. *)
Record paste_map (calls : list MapCall) : Prop := {
  pm_plain : Forall plain_call calls;
  pm_escape : escape_ok (trie_ (run_map calls));
  pm_end : default [] (find_protocol_sequence (run_map calls) PASTE_END) <> [];
}.

Lemma run_paste_map mapping l calls w : paste_map mapping -> 0 <= maximum_pending_bytes l ->
  Forall no_reset calls ->
  run_decoder (new_world (configured_decoder (run_map mapping) l)) calls = Some w ->
  dinv (dec w) /\ paste_configured (dec w) /\ paste_inv w /\
  kept (new_world (configured_decoder (run_map mapping) l)) w.
Proof.
  intros [Hp He Hn] Hl Hc Hr.
  assert (C : paste_configured (configured_decoder (run_map mapping) l)).
  { split; cbn; [done|by apply plain_run|done]. }
  destruct (run_decoder_paste calls (new_world (configured_decoder (run_map mapping) l)) w (configured_dinv mapping l) ltac:(cbn; unfold positive_limit; guard_goal; lia)
    C (new_world_paste (configured_decoder (run_map mapping) l) eq_refl eq_refl eq_refl) Hc Hr) as [I K].
  split_and!; [by apply K| |done|done].
  split; rewrite ?(kept_end _ _ K), ?(kept_trie _ _ K); apply C.
Qed.

(** ** Text leaving the decoder

    The decoder's strict scalar reader agrees with the validator's, and every
    text the decoder emits is valid UTF-8 without control characters. *)

(** ** One scalar *)

Lemma expected_length_lead first :
  expected_length first = (fun lead : nat * Z * Z => (lead.1.1, lead.1.2)) <$> lead_byte first.
Proof. unfold expected_length, lead_byte. by repeat guard_goal. Qed.

Definition fold_continuations (cp : Z) (continuations : bytes) : Z :=
  fold_left (fun value b => Z.lor (Z.shiftl value 6) (Z.land b 0x3f)) continuations cp.

Lemma read_continuations_fold n : forall cp rest, (n <= length rest)%nat ->
  read_continuations n cp rest =
  if forallb is_continuation (take n rest) then Some (fold_continuations cp (take n rest)) else None.
Proof.
  induction n as [|n IH]; intros cp [|b rest] Hn; simpl in *; try lia; try done.
  destruct (is_continuation b); [|done]. apply IH. lia.
Qed.

(** The second-byte tests and the surrogate test reject exactly the code
    points the validator rejects. *)
Lemma strict_tests first rest len cp m :
  Forall is_byte (first :: rest) -> lead_byte first = Some (len, cp, m) -> (len <= length (first :: rest))%nat ->
  forallb is_continuation (take (len - 1) rest) = true ->
  let value := fold_continuations cp (take (len - 1) rest) in
  let input := first :: rest in
  (((first =? 0xe0) && (byte input 1 <? 0xa0)) || ((first =? 0xed) && (0xa0 <=? byte input 1)) ||
   ((first =? 0xf0) && (byte input 1 <? 0x90)) || ((first =? 0xf4) && (0x90 <=? byte input 1))) ||
  negb (is_unicode_scalar value) = bad_codepoint value m.
Proof.
  intros Hb Hl Hlen Hall value input.
  inversion_clear Hb as [|? ? Hf Hrest]. assert (Hm := Hl). rewrite lead_byte_spec in Hl by done.
  assert (Hread : read_continuations (len - 1) cp rest = Some value).
  { rewrite read_continuations_fold, Hall; [done|]. simpl in Hlen. apply lead_byte_len in Hm. lia. }
  unfold in_width in Hf. unfold is_unicode_scalar, bad_codepoint, byte, input. cbn [lookup list_lookup].
  repeat case_decide; [..|done]; injection Hl as <- <- <-; cbn [Nat.sub] in Hread;
    repeat match type of Hread with
    | read_continuations (S _) _ ?l = _ =>
        destruct l as [|? ?]; [simpl in *; lia|];
        inversion_clear Hrest as [|? ? ? Hrest'];
        apply read_continuations_inv in Hread as [? Hread]; [|done];
        rename Hrest' into Hrest
    end; cbn [read_continuations] in Hread; injection Hread as Hv; rewrite <- Hv.
  all: match goal with |- context [default 0 ((?z :: ?r) !! 0%nat)] =>
         change (default 0 ((z :: r) !! 0%nat)) with z end.
  all: lia.
Qed.

Lemma decode_scalar_step first rest : Forall is_byte (first :: rest) ->
  decode_scalar (first :: rest) =
  match step first rest with
  | Scalar c n => VALID c n
  | Malformed => INVALID
  | Truncated => if forallb is_continuation rest then INCOMPLETE else INVALID
  end.
Proof.
  intros Hb. unfold decode_scalar, step. guard_goal; [done|]. rewrite expected_length_lead.
  destruct (lead_byte first) as [[[len cp] m]|] eqn:Hl; [|done]. cbn [fmap option_fmap option_map fst snd].
  pose proof (lead_byte_len _ _ _ _ Hl) as Hlen. cbn [drop]. rewrite drop_0.
  destruct (length (first :: rest) <? len)%nat eqn:E; bool_to_prop.
  - rewrite Nat.min_l, take_ge by (simpl in *; lia). by destruct (forallb is_continuation rest).
  - rewrite Nat.min_r by lia. rewrite read_continuations_fold by (simpl in *; lia).
    destruct (forallb is_continuation (take (len - 1) rest)) eqn:Hall; [|done]. cbn [negb].
    pose proof (strict_tests first rest len cp m Hb Hl E Hall) as Ht. cbn zeta in Ht. rewrite <- Ht.
    unfold fold_continuations.
    match goal with |- context [?a || negb (is_unicode_scalar ?v)] =>
      destruct a; [done|]; by destruct (is_unicode_scalar v) end.
Qed.

(** What each result says of the input, whatever follows it. *)
Lemma decode_scalar_spec input : Forall is_byte input ->
  match decode_scalar input with
  | VALID c n => scalar c /\ take n input = scalar_bytes c
  | INCOMPLETE => (length input < 4)%nat /\
      forall c rest, scalar c -> input <> scalar_bytes c ++ rest
  | INVALID => forall more c rest, scalar c -> input ++ more <> scalar_bytes c ++ rest
  end.
Proof.
  destruct input as [|first rest]; intros Hb.
  { cbn. split; [lia|]. intros c rest Hc. pose proof (scalar_bytes_length c) as Hl.
    destruct (scalar_bytes c); [simpl in Hl; lia|done]. }
  assert (Hprefix : forall more c r, scalar c -> (first :: rest) ++ more = scalar_bytes c ++ r ->
    step first (rest ++ more) = Scalar c (length (scalar_bytes c))).
  { intros more c r Hc E. destruct (step_scalar_bytes c r Hc) as (f & tail & Hs & Hstep).
    rewrite Hs in E. injection E as <- E. by rewrite E, Hs in *. }
  rewrite decode_scalar_step by done. destruct (step first rest) as [c n| |] eqn:Es.
  - by apply step_inv.
  - destruct (forallb is_continuation rest) eqn:Hall.
    + split.
      * revert Es. unfold step. guard_goal; [done|]. destruct (lead_byte first) as [[[len cp] m]|] eqn:Hl; [|done].
        apply lead_byte_len in Hl. guard_goal; [bool_to_prop; lia|]. repeat case_match; done.
      * intros c r Hc E. specialize (Hprefix [] c r Hc). rewrite !app_nil_r in Hprefix.
        specialize (Hprefix E). congruence.
    + intros more c r Hc E. specialize (Hprefix more c r Hc E). revert Es Hprefix. unfold step.
      guard_goal; [done|]. destruct (lead_byte first) as [[[len cp] m]|] eqn:Hl; [|done].
      guard_goal; [|repeat case_match; done]. intros _. guard_goal; [done|].
      pose proof (lead_byte_len _ _ _ _ Hl). bool_to_prop. cbn [length] in *.
      rewrite read_continuations_fold by lia. rewrite take_app_ge, forallb_app, Hall by lia. done.
  - intros more c r Hc E. specialize (Hprefix more c r Hc E).
    rewrite step_app in Hprefix by (by rewrite Es). congruence.
Qed.

(** ** Runs of text *)

Definition no_control (b : Z) : Prop := b <> kEscape /\ 0x20 <= b /\ b <> 0x7f.

Lemma is_valid_take_scalar c more : scalar c -> is_valid more = true -> is_valid (scalar_bytes c ++ more) = true.
Proof. intros Hc Hm. by rewrite is_valid_scalar_bytes. Qed.

Lemma is_valid_app text more : Forall is_byte text -> is_valid text = true -> is_valid more = true ->
  is_valid (text ++ more) = true.
Proof.
  intros Hb. induction text as [|first rest IH] using text_ind; intros Hv Hm; [done|].
  rewrite is_valid_cons in Hv. destruct (step first rest) as [c n| |] eqn:E; [|done..].
  pose proof (step_scalar_len _ _ _ _ E) as Hn. apply step_inv in E as [Hc Ht]; [|done].
  rewrite <- (take_drop n (first :: rest)), Ht, <- app_assoc, is_valid_scalar_bytes by done.
  apply IH; [lia|by apply Forall_drop|done|done].
Qed.

Lemma scalar_bytes_no_control c : scalar c -> 0x80 <= c -> Forall no_control (scalar_bytes c).
Proof.
  intros [Hr _] Hc. unfold scalar_bytes. repeat guard_goal; bool_to_prop; [lia|..];
    repeat constructor; unfold kEscape; Z.div_mod_to_equations; lia.
Qed.

Definition text_ok (text : bytes) : Prop := is_valid text = true /\ Forall no_control text.

Lemma text_ok_app text more : Forall is_byte text -> text_ok text -> text_ok more -> text_ok (text ++ more).
Proof. intros Hb [H1 H2] [H3 H4]. split; [by apply is_valid_app|by apply Forall_app]. Qed.

Lemma text_ok_ascii b : is_byte b -> no_control b -> b < 0x80 -> text_ok [b].
Proof.
  intros Hb Hn Hs. split; [|by constructor]. unfold in_width in Hb.
  replace [b] with (scalar_bytes b ++ []).
  - rewrite is_valid_scalar_bytes; [done|]. split; lia.
  - unfold scalar_bytes. by rewrite (proj2 (Z.leb_le _ _)) by lia.
Qed.

Lemma take_extend {A} (l : list A) i n : take (i + n) l = take i l ++ take n (drop i l).
Proof. rewrite take_drop_commute. rewrite <- (take_drop i (take (i + n) l)) at 1. by rewrite take_take, Nat.min_l by lia. Qed.

Lemma text_run_ok fuel input : Forall is_byte input -> forall size n,
  text_ok (take size input) -> text_run fuel input size = Some n -> text_ok (take n input).
Proof.
  intros Hb. induction fuel as [|fuel IH]; intros size n Hs; cbn [text_run]; [by intros [= <-]|].
  destruct (drop size input) as [|b rest] eqn:E; [by intros [= <-]|].
  assert (Hbytes : Forall is_byte (b :: rest)) by (rewrite <- E; by apply Forall_drop).
  guard_goal; [by intros [= <-]|]. apply orb_false_iff in G as [G G1]. apply orb_false_iff in G as [G G2].
  bool_to_prop.
  guard_goal; bool_to_prop.
  - apply IH. rewrite <- Nat.add_1_r, take_extend, E. cbn [take].
    apply text_ok_app; [by apply Forall_take|done|]. apply text_ok_ascii; [by inversion Hbytes|by split|done].
  - pose proof (decode_scalar_spec (b :: rest) Hbytes) as Hd.
    destruct (decode_scalar (b :: rest)) as [c k| |] eqn:Ed.
    + apply IH. destruct Hd as [Hc Ht]. rewrite take_extend, E, Ht.
      apply text_ok_app; [by apply Forall_take|done|]. split.
      * rewrite <- (app_nil_r (scalar_bytes c)). by rewrite is_valid_scalar_bytes.
      * apply scalar_bytes_no_control; [done|]. apply (f_equal head) in Ht.
        unfold scalar_bytes in Ht. destruct k; [by repeat case_match|]. cbn in Ht.
        destruct (Z.leb_spec c 0x7f); [cbn in Ht; injection Ht as ->; lia|lia].
    + guard_goal; [done|by intros [= <-]].
    + by intros [= <-].
Qed.

(** ** Text in Kitty reports *)

Lemma associated_text_ok fields : forall text result,
  Forall is_byte text -> text_ok text -> associated_text fields text = Some result -> text_ok result.
Proof.
  induction fields as [|field fields IH]; intros text result Hb Ht; cbn [associated_text]; [by intros [= <-]|].
  destruct (parse_unsigned field) as [c|] eqn:Ep; cbn; [|done].
  guard_goal; [done|]. apply orb_false_iff in G as [G G3]. apply orb_false_iff in G as [G1 G2].
  bool_to_prop.
  assert (Hc : scalar c).
  { unfold is_unicode_scalar in G1. split; lia. }
  rewrite append_utf8_scalar by done. apply IH.
  - apply Forall_app. split; [done|by apply scalar_bytes_are_bytes].
  - apply text_ok_app; [done|done|]. split.
    + rewrite <- (app_nil_r (scalar_bytes c)). by rewrite is_valid_scalar_bytes.
    + destruct (decide (c < 0x80)).
      * unfold scalar_bytes. rewrite (proj2 (Z.leb_le _ _)) by lia. constructor; [|done].
        unfold no_control, kEscape. lia.
      * apply scalar_bytes_no_control; [done|lia].
Qed.

Lemma text_ok_nil : text_ok [].
Proof. split; [done|constructor]. Qed.
#[local] Hint Resolve text_ok_nil : core.

(** ** The text of events *)

Definition event_text_ok (event : Event) : Prop :=
  match event with
  | EText e => text_ok (utf8 e)
  | EKey e => text_ok (key_text e)
  | _ => True
  end.

Lemma kitty_text_ok fields text : kitty_text fields = Some text -> text_ok text.
Proof.
  unfold kitty_text. destruct (fields !! 2%nat) as [[|b field]|]; [by intros [= <-]| |by intros [= <-]].
  destruct (split_fields 64 (b :: field) COLON) as [parts|]; cbn; [|done].
  by apply associated_text_ok.
Qed.

Lemma letter_key_ok sequence body named : event_text_ok (letter_key sequence body named).
Proof. unfold letter_key. repeat case_match; cbn; done. Qed.

Lemma tilde_key_ok sequence body : event_text_ok (tilde_key sequence body).
Proof. unfold tilde_key. repeat case_match; cbn; done. Qed.

Lemma kitty_key_ok sequence body : event_text_ok (kitty_key sequence body).
Proof.
  unfold kitty_key. match goal with |- context [match ?p with _ => _ end] => destruct p as [[[[[[n s] b] m] a] t]|] eqn:E end;
    [|done].
  assert (Ht : text_ok t).
  { repeat (apply bind_Some in E as (? & _ & E)). destruct_and?.
    match type of E with context [kitty_text ?f] => destruct (kitty_text f) as [t'|] eqn:Et end;
      repeat case_match; simplify_option_eq; try done; by eapply kitty_text_ok. }
  cbn zeta. guard_goal; [by case_bool_decide|]. by destruct (protocol_key_code n).
Qed.

Lemma parse_csi_ok sequence : event_text_ok (parse_csi sequence).
Proof.
  unfold parse_csi. cbn zeta.
  repeat case_match; try done; auto using letter_key_ok, tilde_key_ok, kitty_key_ok.
Qed.

Lemma parse_sgr_mouse_ok sequence : event_text_ok (parse_sgr_mouse sequence).
Proof. unfold parse_sgr_mouse, mouse_report. cbn zeta. by repeat case_match. Qed.

Lemma parse_osc52_ok sequence maximum : event_text_ok (parse_osc52 sequence maximum).1.
Proof. unfold parse_osc52. cbn zeta. by repeat case_match. Qed.

(** ** The invariant *)

Definition text_trie (t : InputTrie) : Prop :=
  forall i e, value (trie_node t i) = EmitInputEvent e -> event_text_ok e.

Record text_inv (w : World) : Prop := {
  ti_events : Forall event_text_ok (events w);
  ti_buffer : Forall is_byte (buffer (dec w));
  ti_sequence : Forall is_byte (active_sequence (dec w));
  ti_trie : text_trie (input_trie (dec w));
}.

Lemma text_pending w : text_inv w -> Forall is_byte (pending (dec w)).
Proof. intros H. apply Forall_drop, H. Qed.

Lemma text_emit w e : text_inv w -> event_text_ok e -> text_inv (emit w e).
Proof. intros [] He. split; wsimp; try done. apply Forall_app. split; [done|by constructor]. Qed.

Lemma text_consume w n : text_inv w -> text_inv (consume w n).
Proof. by intros []. Qed.

Lemma text_cursor w c : text_inv w -> text_inv (with_cursor w c).
Proof. by intros []. Qed.

Lemma text_active w i seq : text_inv w -> Forall is_byte seq -> text_inv (with_active w i seq).
Proof. by intros []. Qed.

Lemma text_reset_active w : text_inv w -> text_inv (reset_active_action w).
Proof. intros H. apply text_active; [done|constructor]. Qed.

Lemma text_paste w c p d n : text_inv w -> text_inv (with_paste w c p d n).
Proof. by intros []. Qed.

Lemma text_abandon w e : text_inv w -> event_text_ok e -> text_inv (abandon w e).
Proof. intros H He. by apply text_reset_active, text_emit. Qed.

Lemma text_capture_byte w b rest : text_inv w -> pending (dec w) = b :: rest -> text_inv (capture_byte w b).
Proof.
  intros H Hb. apply text_active; [by apply text_consume|]. apply Forall_app. split; [apply H|].
  pose proof (text_pending w H) as Hp. rewrite Hb in Hp. inversion_clear Hp. by constructor.
Qed.

Lemma text_capture_terminator w : text_inv w -> text_inv (capture_terminator w).
Proof.
  intros H. apply text_active; [by apply text_consume|]. apply Forall_app. split; [apply H|].
  by apply Forall_take, text_pending.
Qed.

Lemma text_compact w : text_inv w -> text_inv (compact w).
Proof.
  intros []. unfold compact. repeat guard_goal; [done|..]; split; wsimp; try done. by apply Forall_drop.
Qed.

Lemma text_timeout w rearm : text_inv w -> text_inv (update_pending_timeout w rearm).
Proof. intros []. unfold update_pending_timeout. cbn zeta. repeat guard_goal; by split. Qed.

Create HintDb text.
#[export] Hint Resolve text_emit text_consume text_cursor text_reset_active text_paste text_abandon
  text_compact text_timeout parse_csi_ok parse_sgr_mouse_ok text_ok_nil : text.
#[export] Hint Extern 1 (event_text_ok (unknown _ _)) => exact I : text.
#[export] Hint Extern 1 (event_text_ok (unknown_reason_event _)) => exact I : text.
#[export] Hint Extern 1 (event_text_ok (unsupported _)) => exact I : text.
#[export] Hint Extern 1 (event_text_ok (malformed _)) => exact I : text.
#[export] Hint Extern 1 (event_text_ok (response _ _ _)) => exact I : text.
#[export] Hint Extern 1 (event_text_ok (parse_osc _)) => exact I : text.
#[export] Hint Extern 1 (event_text_ok (paste_event _ _)) => exact I : text.
#[export] Hint Extern 1 (event_text_ok (EKey _)) => exact text_ok_nil : text.

Definition text_step (s : Step) : Prop := text_inv (fst (fst s)).

Ltac text_done := unfold text_step, limit_exceeded, incomplete_sequence, consumed, need_more; cbn [fst snd]; auto with text.

(** ** Steps *)

Lemma text_parse_alt_key w : text_inv w -> text_step (parse_alt_key w).
Proof.
  intros H. unfold parse_alt_key.
  destruct (pending (dec w)) as [|first rest]; [text_done|].
  guard_goal; [text_done|].
  destruct (legacy_control_key first); [text_done|].
  destruct (decode_scalar _); text_done.
Qed.

Lemma text_capture_ss3 fuel : forall w, text_inv w -> text_step (capture_ss3 fuel w).
Proof.
  induction fuel as [|fuel IH]; intros w H; cbn [capture_ss3]; [text_done|].
  destruct (pending (dec w)) as [|b rest] eqn:Hb; [text_done|]. guard_goal; [text_done|].
  pose proof (text_capture_byte w b rest H Hb). repeat (guard_goal; [text_done|]). by apply IH.
Qed.

Lemma text_capture_csi mouse fuel : forall w, text_inv w -> text_step (capture_csi mouse fuel w).
Proof.
  induction fuel as [|fuel IH]; intros w H; cbn [capture_csi]; [text_done|].
  destruct (pending (dec w)) as [|b rest] eqn:Hb; [text_done|]. guard_goal; [text_done|].
  pose proof (text_capture_byte w b rest H Hb).
  guard_goal; [text_done; apply text_abandon; [done|]; case_match; auto with text|].
  repeat (guard_goal; [text_done|]). by apply IH.
Qed.

Lemma text_finish_osc osc52 w : text_inv w -> text_step (finish_osc osc52 w).
Proof.
  intros H. unfold finish_osc, osc_event. destruct osc52; [|text_done].
  pose proof (parse_osc52_ok (active_sequence (dec w)) (maximum_clipboard_bytes (limits (dec w)))) as Hp.
  destruct (parse_osc52 _ _) as [e s]. text_done.
Qed.

Lemma text_capture_osc osc52 fuel : forall w, text_inv w -> text_step (capture_osc osc52 fuel w).
Proof.
  induction fuel as [|fuel IH]; intros w H; cbn [capture_osc]; [text_done|].
  destruct (pending (dec w)) as [|b rest] eqn:Hb; [text_done|].
  guard_goal.
  - destruct rest; [text_done|]. repeat (guard_goal; [|text_done]).
    by apply text_finish_osc, text_capture_terminator.
  - pose proof (text_capture_byte w b rest H Hb).
    guard_goal; [by apply text_finish_osc|]. guard_goal; [text_done|]. by apply IH.
Qed.

Lemma text_capture_st_string kind fuel : forall w, text_inv w -> text_step (capture_st_string kind fuel w).
Proof.
  induction fuel as [|fuel IH]; intros w H; cbn [capture_st_string]; [text_done|].
  destruct (pending (dec w)) as [|b rest] eqn:Hb; [text_done|].
  guard_goal.
  - destruct rest; [text_done|]. repeat (guard_goal; [|text_done]).
    pose proof (text_capture_terminator w H). text_done.
  - pose proof (text_capture_byte w b rest H Hb). guard_goal; [text_done|]. by apply IH.
Qed.

Lemma text_parse_text w : text_inv w -> text_inv (fst (parse_text w)).
Proof.
  intros H. unfold parse_text. cbn zeta. guard_goal; [text_done|].
  destruct (text_run _ _ 0) as [[|n]|] eqn:E; [text_done| |text_done]. cbn [fst].
  apply text_consume, text_emit; [done|].
  eapply text_run_ok; [by apply text_pending| |exact E]. apply text_ok_nil.
Qed.

Lemma text_append_paste w data : text_inv w -> text_inv (fst (append_paste_data w data)).
Proof. intros H. unfold append_paste_data. repeat guard_goal; text_done. Qed.

Lemma text_end_paste w : text_inv w -> text_inv (end_paste w).
Proof. intros H. unfold end_paste. apply text_reset_active, text_paste. guard_goal; text_done. Qed.

Lemma text_capture_paste_loop fuel : forall w data, text_inv w -> text_step (capture_paste_loop fuel w data).
Proof.
  assert (Hstop : forall w data, text_inv w -> text_step (let (w, status) := append_paste_data w data in
             (w, status, if bool_decide (data = []) then NEED_MORE else CONSUMED) : Step)).
  { intros w data H. pose proof (text_append_paste w data H). by destruct (append_paste_data w data). }
  induction fuel as [|fuel IH]; intros w data H; cbn [capture_paste_loop]; [by apply Hstop|].
  destruct (pending (dec w)) as [|b rest]; [by apply Hstop|].
  destruct (settle_candidate _ _ data) as [c d]. set (w1 := with_paste _ _ _ _ _).
  assert (H1 : text_inv w1) by by apply text_paste, text_consume.
  case_bool_decide; [|by apply IH].
  pose proof (text_append_paste w1 d H1). destruct (append_paste_data w1 d) as [w2 s]. by apply text_end_paste.
Qed.

Lemma text_advance_active w : text_inv w -> text_step (advance_active_action w).
Proof.
  intros H. unfold advance_active_action.
  destruct (active_protocol (dec w)) as [[]|]; try text_done.
  - pose proof (text_parse_text w H). by destruct (parse_text w).
  - by apply text_parse_alt_key.
  - by apply text_capture_ss3.
  - by apply text_capture_csi.
  - by apply text_capture_osc.
  - by apply text_capture_st_string.
  - by apply text_capture_st_string.
  - by apply text_capture_st_string.
  - by apply text_capture_csi.
  - by apply text_capture_osc.
  - unfold capture_paste. guard_goal; [|by apply text_capture_paste_loop].
    unfold text_step. cbn [fst]. by apply text_paste, text_abandon.
Qed.

Lemma text_execute w i n : text_inv w -> text_step (execute_action w i n).
Proof.
  intros H. unfold execute_action.
  destruct (value (trie_node (input_trie (dec w)) i)) as [|e|p] eqn:E.
  - unfold reset_trie_cursor. text_done.
  - apply (ti_trie _ H) in E. unfold reset_trie_cursor. text_done.
  - assert (Henter : text_step (consumed (enter_protocol w i n p))).
    { unfold enter_protocol, reset_trie_cursor. cbn zeta.
      assert (Hseq : text_inv (with_active (with_cursor (consume w n) root_cursor) (Some i) (take n (pending (dec w))))).
      { apply text_active; [text_done|]. by apply Forall_take, text_pending. }
      destruct p; try exact Hseq; [|text_done].
      apply text_paste, text_active; [text_done|constructor]. }
    destruct p; try exact Henter. pose proof (text_parse_text (reset_trie_cursor w) (text_cursor _ _ H)) as Ht.
    by destruct (parse_text _).
Qed.

Lemma text_advance_trie fuel : forall w, text_inv w -> text_step (advance_trie fuel w).
Proof.
  induction fuel as [|fuel IH]; intros w H; cbn [advance_trie]; [text_done|].
  destruct (drop _ _) as [|b rest]; [text_done|].
  assert (Hreject : forall w n, text_inv w -> text_step (reject w n))
    by (intros; unfold reject, reset_trie_cursor; text_done).
  destruct (find_child Inert _ _ b) as [child|].
  - set (w1 := with_cursor w _). assert (H1 : text_inv w1) by by apply text_cursor.
    guard_goal; [by apply text_execute|]. guard_goal; [by apply Hreject|]. by apply IH.
  - destruct (last_match _); [by apply text_execute|].
    guard_goal; [by apply Hreject|]. guard_goal; [by apply text_execute|by apply Hreject].
Qed.

Lemma text_process fuel : forall w e w' status, text_inv w ->
  process_loop fuel w e = Some (w', status) -> text_inv w'.
Proof.
  induction fuel as [|fuel IH]; intros w e w' status H; cbn [process_loop];
    destruct (pending (dec w)) as [|b rest]; [by intros [= <- _]|done|by intros [= <- _]|].
  assert (Hs : text_step (step_decoder w)).
  { unfold step_decoder. case_match; [by apply text_advance_active|by apply text_advance_trie]. }
  destruct (step_decoder w) as [[w1 s] [|]]; [by apply IH|by intros [= <- _]].
Qed.

(** ** Operations *)

Lemma text_feed w input w' status : text_inv w -> Forall is_byte input ->
  feed w input = Some (w', status) -> text_inv w'.
Proof.
  intros H Hb. unfold feed. pose proof (text_compact w H) as Hc.
  guard_goal; [intros [= <- _]; by apply text_emit|].
  destruct (process _) as [[w1 s]|] eqn:E; cbn; [|done]. intros [= <- _].
  apply text_timeout, text_compact. eapply text_process; [|exact E].
  destruct Hc. split; wsimp; try done. by apply Forall_app.
Qed.

Lemma text_resolve_active w w' status : text_inv w ->
  resolve_timed_out_active_action w = Some (w', status) -> text_inv w'.
Proof.
  intros H. unfold resolve_timed_out_active_action.
  destruct (active_protocol (dec w)) as [p|]; [|intros [= <- _]; text_done].
  guard_goal; [by intros [= <- _]|].
  destruct (active_sequence (dec w)) as [|b rest] eqn:Hseq.
  { intros [= <- _]. unfold reset_trie_cursor. text_done. }
  assert (Hrest : Forall is_byte rest) by (pose proof (ti_sequence w H) as Hs; rewrite Hseq in Hs; by inversion Hs).
  guard_goal.
  2: { intros [= <- _]. unfold reset_trie_cursor. apply text_cursor, text_reset_active, text_emit; [|done].
       apply text_consume, text_active; [done|constructor]. }
  assert (Hgo : forall w1 replay, text_inv w1 -> Forall is_byte replay ->
    process (reset_trie_cursor (with_input w1 replay 0)) = Some (w', status) -> text_inv w').
  { intros w1 replay H1 Hr. apply text_process. destruct H1. by split. }
  assert (Hesc : is_byte kEscape) by (unfold in_width, kEscape; lia).
  pose proof (text_pending w H) as Hp.
  destruct (find_child Inert (input_trie (dec w)) kRootNode kEscape) as [escape|]; destruct p;
    apply Hgo; try (by apply Forall_app); try done; try text_done;
    apply text_active; [done|by repeat constructor|done|by repeat constructor|..];
    first [done|by repeat constructor].
Qed.

Lemma text_handle_timeout w generation w' status : text_inv w ->
  handle_timeout w generation = Some (w', status) -> text_inv w'.
Proof.
  intros H. unfold handle_timeout. guard_goal; [by intros [= <- _]|]. cbn zeta.
  set (w1 := with_timeout w _ None). assert (H1 : text_inv w1) by (by destruct H).
  guard_goal; [by intros [= <- _]|].
  assert (Hend : forall w2 (s : Status), text_inv w2 ->
    Some (update_pending_timeout (compact w2) true, s) = Some (w', status) -> text_inv w').
  { intros w2 s H2 [= <- _]. text_done. }
  destruct (active_action_node (dec w)).
  - destruct (resolve_timed_out_active_action w1) as [[w2 s]|] eqn:E; [|done]. cbn. apply Hend.
    by eapply text_resolve_active.
  - destruct (pending (dec w)) as [|b rest]; [by intros [= <- _]|].
    destruct (last_match (trie_cursor (dec w))) as [m|].
    + destruct (resolve_timed_out_path w1 m) as [[w2 s]|] eqn:E; [|done]. cbn. apply Hend.
      unfold resolve_timed_out_path in E.
      pose proof (text_execute w1 m (last_match_size (trie_cursor (dec w1))) H1) as H2.
      destruct (execute_action w1 m _) as [[w3 s3] r3]. unfold text_step in H2. cbn [fst] in H2.
      apply bind_Some in E as ([w4 s4] & E4 & E). apply bind_Some in E as ([w5 s5] & E5 & E).
      assert (H4 : text_inv w4) by (guard_in E4; [by eapply text_resolve_active|by injection E4 as <- _]).
      assert (H5 : text_inv w5) by (guard_in E5; [by eapply text_process|by injection E5 as <- _]).
      guard_in E; [by eapply text_resolve_active|by injection E as <- _].
    + apply Hend. unfold reset_trie_cursor. text_done.
Qed.

Lemma text_finish w : text_inv w -> text_inv (fst (finish w)).
Proof.
  intros H. unfold finish.
  assert (H1 : text_inv (fst (if paste_in_progress (dec w) then finish_paste w
     else match active_action_node (dec w) with
          | Some _ => (finish_active w, OK)
          | None => match pending (dec w) with [] => (w, OK) | _ => finish_pending w end
          end))).
  { guard_goal; [|destruct (active_action_node (dec w)); [|destruct (pending (dec w)) eqn:Hb; [done|]]].
    - unfold finish_paste. set (w1 := consume _ _). assert (I1 : text_inv w1) by (subst w1; text_done).
      pose proof (text_append_paste w1 (paste_candidate (dec w) ++ pending (dec w)) I1) as I2.
      destruct (append_paste_data w1 _) as [w2 s]. cbn [fst] in *. apply text_reset_active, text_paste.
      guard_goal; text_done.
    - cbn [fst]. unfold finish_active. apply text_abandon; [|done].
      apply text_consume, text_active; [done|constructor].
    - unfold finish_pending.
      assert (I1 : text_inv (fst (finish_exact w))).
      { unfold finish_exact. cbn zeta. destruct (negb _ && _ && _ && _); [|done].
        pose proof (text_execute w (cursor_node (trie_cursor (dec w))) (length (pending (dec w))) H) as I.
        by destruct (execute_action _ _ _) as [[? ?] ?]. }
      destruct (finish_exact w) as [w1 s]. cbn [fst] in *. unfold finish_rest. cbn zeta.
      set (w2 := match pending (dec w1) with [b] => _ | _ => w1 end).
      assert (I2 : text_inv w2) by (subst w2; repeat case_match; text_done).
      guard_goal; text_done. }
  destruct (if paste_in_progress (dec w) then _ else _) as [w1 r]. cbn [fst] in *.
  destruct (text_compact _ (text_cursor _ root_cursor H1)). by split.
Qed.

(** ** Runs *)

Definition byte_call (call : DecoderCall) : Prop :=
  match call with CallFeed input => Forall is_byte input | _ => True end.

Definition text_call (call : MapCall) : Prop :=
  match call with RegisterSequence _ (EmitInputEvent e) => event_text_ok e | _ => True end.

Lemma text_decoder_call w call w' : text_inv w -> byte_call call -> decoder_call w call = Some w' -> text_inv w'.
Proof.
  intros H Hb. destruct call as [input|generation| |]; cbn [decoder_call].
  - destruct (feed w input) as [[w1 s]|] eqn:E; cbn; [|done]. intros [= <-]. by eapply text_feed.
  - destruct (handle_timeout w generation) as [[w1 s]|] eqn:E; cbn; [|done]. intros [= <-].
    by eapply text_handle_timeout.
  - intros [= <-]. by apply text_finish.
  - intros [= <-]. destruct H. split; unfold reset; wsimp; done.
Qed.

Lemma text_run_decoder calls : forall w w', text_inv w -> Forall byte_call calls ->
  run_decoder w calls = Some w' -> text_inv w'.
Proof.
  induction calls as [|call calls IH]; intros w w' H Hc; cbn [run_decoder]; [by intros [= <-]|].
  inversion_clear Hc as [|? ? H1 H2]. destruct (decoder_call w call) as [w1|] eqn:E; cbn; [|done].
  apply IH; [by eapply text_decoder_call|done].
Qed.

Lemma text_run_map calls : Forall text_call calls -> text_trie (trie_ (run_map calls)).
Proof.
  intros H i e He.
  assert (V : values_ok (fun a => match a with EmitInputEvent e => event_text_ok e | _ => True end) (trie_ (run_map calls))).
  { apply values_ok_run; [done|]. eapply Forall_impl; [exact H|]. by intros [p []|p]. }
  apply (values_ok_node _ I _ i) in V. by rewrite He in V.
Qed.
