(* ===== verification/DecoderChunks.v ===== *)
(** * Decoding states that differ only in how their input was cut

    A decoder may be fed a stream in any pieces. The events are compared as
    sequences of atoms: every byte of text or of paste data is one atom, so
    that a run delivered in several events equals the same run in one. *)
From S2P Require Import Prelude Text Utf8 Events Trie Clipboard KeyProtocol InputMap Decoder DecoderInvariant DecoderText.
Open Scope Z_scope.

Inductive Atom :=
| TextByte (b : Z)
| PasteByte (b : Z)
| Whole (event : Event).

Definition atoms (event : Event) : list Atom :=
  match event with
  | EText e => map TextByte (utf8 e)
  | EPaste e =>
      match paste_phase e with
      | PastePhases.DATA => map PasteByte (paste_data e)
      | _ => [Whole event]
      end
  | _ => [Whole event]
  end.

Definition flat (events : list Event) : list Atom := flat_map atoms events.

Lemma flat_app l1 l2 : flat (l1 ++ l2) = flat l1 ++ flat l2.
Proof. apply flat_map_app. Qed.

(** ** The decoding state

    Two worlds that decode alike: the same unread bytes and protocol state,
    whatever part of the buffer was compacted and whichever timeouts are
    scheduled, and the same atoms emitted. *)
Record sim (w w' : World) : Prop := {
  sim_pending : pending (dec w') = pending (dec w);
  sim_limits : limits (dec w') = limits (dec w);
  sim_trie : input_trie (dec w') = input_trie (dec w);
  sim_cursor : trie_cursor (dec w') = trie_cursor (dec w);
  sim_active : active_action_node (dec w') = active_action_node (dec w);
  sim_sequence : active_sequence (dec w') = active_sequence (dec w);
  sim_candidate : paste_candidate (dec w') = paste_candidate (dec w);
  sim_end : paste_end_sequence (dec w') = paste_end_sequence (dec w);
  sim_progress : paste_in_progress (dec w') = paste_in_progress (dec w);
  sim_discarding : paste_discarding (dec w') = paste_discarding (dec w);
  sim_bytes : paste_bytes (dec w') = paste_bytes (dec w);
  sim_events : flat (events w') = flat (events w);
}.

Lemma sim_refl w : sim w w.
Proof. by split. Qed.

Lemma sim_sym w w' : sim w w' -> sim w' w.
Proof. intros []. by split. Qed.

Lemma sim_trans w1 w2 w3 : sim w1 w2 -> sim w2 w3 -> sim w1 w3.
Proof. intros [] []. split; congruence. Qed.

#[export] Instance sim_equivalence : Equivalence sim.
Proof.
  split; [exact sim_refl|exact sim_sym|exact sim_trans].
Qed.

Lemma sim_emit w w' e e' : sim w w' -> atoms e = atoms e' -> sim (emit w e) (emit w' e').
Proof. intros [] He. split; wsimp; try done. rewrite !flat_app. cbn. by rewrite sim_events0, He. Qed.

Lemma sim_consume w w' n : sim w w' -> sim (consume w n) (consume w' n).
Proof. intros S. destruct (S). split; rewrite ?pending_consume; wsimp; congruence. Qed.

Lemma sim_with_cursor w w' c : sim w w' -> sim (with_cursor w c) (with_cursor w' c).
Proof. intros []. split; wsimp; done. Qed.

Lemma sim_with_active w w' i seq : sim w w' -> sim (with_active w i seq) (with_active w' i seq).
Proof. intros []. split; wsimp; done. Qed.

Lemma sim_with_paste w w' c p d n : sim w w' -> sim (with_paste w c p d n) (with_paste w' c p d n).
Proof. intros []. split; wsimp; done. Qed.

Lemma sim_compact w : sim w (compact w).
Proof.
  pose proof (pending_compact w) as P. unfold compact in *. repeat guard_goal; [done|..]; by split.
Qed.

Lemma sim_update_timeout w rearm : sim w (update_pending_timeout w rearm).
Proof. unfold update_pending_timeout. cbn zeta. repeat guard_goal; by split. Qed.

Definition sim_step (s s' : Step) : Prop :=
  sim (fst (fst s)) (fst (fst s')) /\ snd (fst s) = snd (fst s') /\ snd s = snd s'.

Lemma sim_step_intro w w' status r : sim w w' -> sim_step (w, status, r) (w', status, r).
Proof. by split. Qed.

Create HintDb sim.
#[export] Hint Resolve sim_emit sim_consume sim_with_cursor sim_with_active sim_with_paste sim_step_intro sim_refl : sim.

(** Read every field of the second world from the first. *)
Ltac sim_fields S :=
  rewrite ?(sim_pending _ _ S), ?(sim_limits _ _ S), ?(sim_trie _ _ S), ?(sim_cursor _ _ S),
    ?(sim_active _ _ S), ?(sim_sequence _ _ S), ?(sim_candidate _ _ S), ?(sim_end _ _ S),
    ?(sim_progress _ _ S), ?(sim_discarding _ _ S), ?(sim_bytes _ _ S).

Ltac sim_done := unfold limit_exceeded, incomplete_sequence, consumed, need_more, abandon, reset_active_action, reset_trie_cursor;
  auto 10 with sim.

Lemma sim_abandon w w' e : sim w w' -> sim (abandon w e) (abandon w' e).
Proof. intros S. sim_done. Qed.

Lemma sim_capture_byte w w' b : sim w w' -> sim (capture_byte w b) (capture_byte w' b).
Proof. intros S. unfold capture_byte. sim_fields S. sim_done. Qed.

Lemma sim_capture_terminator w w' : sim w w' -> sim (capture_terminator w) (capture_terminator w').
Proof. intros S. unfold capture_terminator. sim_fields S. sim_done. Qed.
#[export] Hint Resolve sim_abandon sim_capture_byte sim_capture_terminator : sim.

Lemma sim_parse_alt_key w w' : sim w w' -> sim_step (parse_alt_key w) (parse_alt_key w').
Proof.
  intros S. unfold parse_alt_key. sim_fields S. repeat case_match; sim_done.
Qed.

Lemma sim_capture_ss3 fuel : forall w w', sim w w' -> sim_step (capture_ss3 fuel w) (capture_ss3 fuel w').
Proof.
  induction fuel as [|fuel IH]; intros w w' S; cbn [capture_ss3]; [sim_done|].
  sim_fields S. destruct (pending (dec w)) as [|b rest]; [sim_done|].
  guard_goal; [unfold incomplete_sequence; sim_fields S; sim_done|].
  pose proof (sim_capture_byte w w' b S) as S1. unfold sequence_full. sim_fields S1.
  repeat (guard_goal; [sim_done|]). by apply IH.
Qed.

Lemma sim_capture_csi mouse fuel : forall w w', sim w w' ->
  sim_step (capture_csi mouse fuel w) (capture_csi mouse fuel w').
Proof.
  induction fuel as [|fuel IH]; intros w w' S; cbn [capture_csi]; [sim_done|].
  sim_fields S. destruct (pending (dec w)) as [|b rest]; [sim_done|].
  guard_goal; [unfold incomplete_sequence; sim_fields S; sim_done|].
  pose proof (sim_capture_byte w w' b S) as S1. unfold sequence_full. sim_fields S1.
  repeat (guard_goal; [sim_done|]). by apply IH.
Qed.

Lemma sim_finish_osc osc52 w w' : sim w w' -> sim_step (finish_osc osc52 w) (finish_osc osc52 w').
Proof.
  intros S. unfold finish_osc, osc_event. sim_fields S.
  destruct (if osc52 then _ else _) as [e s]. sim_done.
Qed.

Lemma sim_capture_osc osc52 fuel : forall w w', sim w w' ->
  sim_step (capture_osc osc52 fuel w) (capture_osc osc52 fuel w').
Proof.
  induction fuel as [|fuel IH]; intros w w' S; cbn [capture_osc]; [sim_done|].
  sim_fields S. destruct (pending (dec w)) as [|b rest]; [sim_done|].
  unfold osc_limit, terminator_fits. sim_fields S.
  guard_goal.
  - destruct rest; [sim_done|]. guard_goal; [|unfold incomplete_sequence; sim_fields S; sim_done].
    guard_goal; [|sim_done]. apply sim_finish_osc. sim_done.
  - pose proof (sim_capture_byte w w' b S) as S1. unfold sequence_full. sim_fields S1.
    guard_goal; [by apply sim_finish_osc|]. guard_goal; [sim_done|]. by apply IH.
Qed.

Lemma sim_capture_st_string kind fuel : forall w w', sim w w' ->
  sim_step (capture_st_string kind fuel w) (capture_st_string kind fuel w').
Proof.
  induction fuel as [|fuel IH]; intros w w' S; cbn [capture_st_string]; [sim_done|].
  sim_fields S. destruct (pending (dec w)) as [|b rest]; [sim_done|].
  unfold terminator_fits. sim_fields S.
  guard_goal.
  - destruct rest; [sim_done|]. guard_goal; [|unfold incomplete_sequence; sim_fields S; sim_done].
    guard_goal; [|sim_done].
    pose proof (sim_capture_terminator w w' S) as S1. sim_fields S1. sim_done.
  - pose proof (sim_capture_byte w w' b S) as S1. unfold sequence_full. sim_fields S1.
    guard_goal; [sim_done|]. by apply IH.
Qed.

Lemma sim_parse_text w w' : sim w w' ->
  sim (fst (parse_text w)) (fst (parse_text w')) /\ snd (parse_text w) = snd (parse_text w').
Proof.
  intros S. unfold parse_text. cbn zeta. sim_fields S. guard_goal; [split; [cbn [fst]; sim_done|done]|].
  destruct (text_run _ _ 0) as [[|n]|]; (split; [|done]); cbn [fst]; sim_done.
Qed.

Lemma sim_append_paste w w' data : sim w w' ->
  sim (fst (append_paste_data w data)) (fst (append_paste_data w' data)) /\
  snd (append_paste_data w data) = snd (append_paste_data w' data).
Proof.
  intros S. unfold append_paste_data. cbn zeta. sim_fields S.
  repeat (guard_goal; [split; [cbn [fst]; sim_done|done]|]). split; [cbn [fst]; sim_done|done].
Qed.

Lemma sim_end_paste w w' : sim w w' -> sim (end_paste w) (end_paste w').
Proof. intros S. unfold end_paste. sim_fields S. guard_goal; sim_done. Qed.

Lemma sim_capture_paste_loop fuel : forall w w' data, sim w w' ->
  sim_step (capture_paste_loop fuel w data) (capture_paste_loop fuel w' data).
Proof.
  assert (Hstop : forall w w' data, sim w w' -> sim_step
    (let (w, status) := append_paste_data w data in (w, status, if bool_decide (data = []) then NEED_MORE else CONSUMED))
    (let (w, status) := append_paste_data w' data in (w, status, if bool_decide (data = []) then NEED_MORE else CONSUMED))).
  { intros w w' data S. destruct (sim_append_paste w w' data S) as [S1 E].
    destruct (append_paste_data w data), (append_paste_data w' data). cbn in *. subst. sim_done. }
  induction fuel as [|fuel IH]; intros w w' data S; cbn [capture_paste_loop]; [by apply Hstop|].
  sim_fields S. destruct (pending (dec w)) as [|b rest]; [by apply Hstop|].
  destruct (settle_candidate _ _ data) as [c d].
  assert (S1 : sim (with_paste (consume w 1) c (paste_in_progress (dec w)) (paste_discarding (dec w)) (paste_bytes (dec w)))
                   (with_paste (consume w' 1) c (paste_in_progress (dec w)) (paste_discarding (dec w)) (paste_bytes (dec w))))
    by sim_done.
  case_bool_decide; [|by apply IH].
  destruct (sim_append_paste _ _ d S1) as [S2 E].
  destruct (append_paste_data _ d) as [w2 s2]. destruct (append_paste_data _ d) as [w2' s2']. cbn in *. subst.
  apply sim_step_intro, sim_end_paste. exact S2.
Qed.

Lemma sim_active_protocol w w' : sim w w' -> active_protocol (dec w') = active_protocol (dec w).
Proof. intros S. unfold active_protocol. by sim_fields S. Qed.

Lemma sim_advance_active w w' : sim w w' -> sim_step (advance_active_action w) (advance_active_action w').
Proof.
  intros S. unfold advance_active_action. cbn zeta. rewrite (sim_active_protocol _ _ S). sim_fields S.
  destruct (active_protocol (dec w)) as [[]|]; try sim_done.
  - destruct (sim_parse_text w w' S) as [S1 E]. destruct (parse_text w), (parse_text w'). cbn in *. subst. sim_done.
  - by apply sim_parse_alt_key.
  - by apply sim_capture_ss3.
  - by apply sim_capture_csi.
  - by apply sim_capture_osc.
  - by apply sim_capture_st_string.
  - by apply sim_capture_st_string.
  - by apply sim_capture_st_string.
  - by apply sim_capture_csi.
  - by apply sim_capture_osc.
  - unfold capture_paste. cbn zeta. sim_fields S. guard_goal; [sim_done|by apply sim_capture_paste_loop].
Qed.

Lemma sim_execute w w' i n : sim w w' -> sim_step (execute_action w i n) (execute_action w' i n).
Proof.
  intros S. unfold execute_action. sim_fields S.
  destruct (value (trie_node (input_trie (dec w)) i)) as [|e|p]; [sim_done|sim_done|].
  assert (Henter : sim_step (consumed (enter_protocol w i n p)) (consumed (enter_protocol w' i n p))).
  { unfold enter_protocol. cbn zeta. sim_fields S. destruct p; sim_done. }
  destruct p; try exact Henter.
  assert (S0 : sim (reset_trie_cursor w) (reset_trie_cursor w')) by sim_done.
  destruct (sim_parse_text _ _ S0) as [S1 E]. destruct (parse_text _), (parse_text _). cbn in *. subst. sim_done.
Qed.

Lemma sim_reject w w' n : sim w w' -> sim_step (reject w n) (reject w' n).
Proof. intros S. unfold reject. sim_fields S. sim_done. Qed.

Lemma sim_advance_trie fuel : forall w w', sim w w' -> sim_step (advance_trie fuel w) (advance_trie fuel w').
Proof.
  induction fuel as [|fuel IH]; intros w w' S; cbn [advance_trie]; [sim_done|].
  sim_fields S. destruct (drop _ _) as [|b rest]; [sim_done|].
  destruct (find_child Inert _ _ b) as [child|].
  - assert (S1 : forall c, sim (with_cursor w c) (with_cursor w' c)) by (intros; sim_done).
    guard_goal; [by apply sim_execute|]. guard_goal; [by apply sim_reject|]. by apply IH.
  - destruct (last_match _); [by apply sim_execute|].
    guard_goal; [by apply sim_reject|]. guard_goal; [by apply sim_execute|by apply sim_reject].
Qed.

Lemma sim_step_decoder w w' : sim w w' -> sim_step (step_decoder w) (step_decoder w').
Proof.
  intros S. unfold step_decoder. sim_fields S.
  destruct (active_action_node (dec w)); [by apply sim_advance_active|by apply sim_advance_trie].
Qed.

(** ** The loop as a relation

    [settles w w']: [process] started at [w] stops at [w']; the fuel and the
    statuses are abstracted. *)
Definition settles (w w' : World) : Prop := exists fuel e s, process_loop fuel w e = Some (w', s).

Lemma process_loop_status fuel : forall w e e' w' s, process_loop fuel w e = Some (w', s) ->
  exists s', process_loop fuel w e' = Some (w', s').
Proof.
  induction fuel as [|fuel IH]; intros w e e' w' s; cbn [process_loop];
    destruct (pending (dec w)) as [|b rest]; [intros [= <- _]; by eexists|done|intros [= <- _]; by eexists|].
  destruct (step_decoder w) as [[w1 s1] [|]]; [by apply IH|]. intros [= <- _]. by eexists.
Qed.

Lemma process_loop_more fuel : forall more w e w' s, process_loop fuel w e = Some (w', s) ->
  process_loop (fuel + more) w e = Some (w', s).
Proof.
  induction fuel as [|fuel IH]; intros more w e w' s; cbn [process_loop Nat.add].
  - destruct (pending (dec w)) eqn:Hb; [|done]. destruct more; cbn [process_loop]; by rewrite Hb.
  - destruct (pending (dec w)) as [|b rest]; [done|].
    destruct (step_decoder w) as [[w1 s1] [|]]; [apply IH|done].
Qed.

Lemma settles_unique w w1 w2 : settles w w1 -> settles w w2 -> w1 = w2.
Proof.
  intros (f1 & e1 & s1 & E1) (f2 & e2 & s2 & E2).
  apply (process_loop_status _ _ _ e2) in E1 as [s1' E1].
  apply (process_loop_more _ f2) in E1. apply (process_loop_more _ f1) in E2.
  rewrite Nat.add_comm, E1 in E2. by injection E2.
Qed.

Lemma settles_nil w : pending (dec w) = [] -> settles w w.
Proof. intros H. exists 0%nat, OK, OK. cbn. by rewrite H. Qed.

Lemma settles_stop w w' s : pending (dec w) <> [] -> step_decoder w = (w', s, NEED_MORE) -> settles w w'.
Proof.
  intros H E. eexists 1%nat, OK, _. cbn [process_loop]. destruct (pending (dec w)); [done|]. by rewrite E.
Qed.

Lemma settles_step w w1 w' s : pending (dec w) <> [] -> step_decoder w = (w1, s, CONSUMED) ->
  settles w w' <-> settles w1 w'.
Proof.
  intros H E. split.
  - intros ([|fuel] & e & s' & Ep); cbn [process_loop] in Ep; (destruct (pending (dec w)); [done|]); [done|].
    rewrite E in Ep. by do 3 eexists.
  - intros (fuel & e & s' & Ep). apply (process_loop_status _ _ _ (if negb (is_ok s) && is_ok OK then s else OK)) in Ep as [s'' Ep].
    exists (S fuel), OK, s''. cbn [process_loop]. destruct (pending (dec w)); [done|]. by rewrite E.
Qed.

Lemma sim_settles fuel : forall w1 w2 e w1' s, sim w1 w2 -> process_loop fuel w1 e = Some (w1', s) ->
  exists w2', process_loop fuel w2 e = Some (w2', s) /\ sim w1' w2'.
Proof.
  induction fuel as [|fuel IH]; intros w1 w2 e w1' s S; cbn [process_loop]; sim_fields S;
    destruct (pending (dec w1)) as [|b rest]; [intros [= <- <-]; by eexists|done|intros [= <- <-]; by eexists|].
  destruct (sim_step_decoder w1 w2 S) as (S1 & E1 & E2).
  destruct (step_decoder w1) as [[x1 s1] r1], (step_decoder w2) as [[x2 s2] r2]. cbn in S1, E1, E2. subst s2 r2.
  destruct r1; [by apply IH|]. intros [= <- <-]. by eexists.
Qed.

Lemma settles_sim w1 w2 w1' : sim w1 w2 -> settles w1 w1' -> exists w2', settles w2 w2' /\ sim w1' w2'.
Proof.
  intros S (fuel & e & s & E). destruct (sim_settles fuel w1 w2 e w1' s S E) as (w2' & E2 & S2).
  exists w2'. split; [|done]. by exists fuel, e, s.
Qed.

(** ** More input *)

Definition extend (w : World) (q : bytes) : World := with_input w (buffer (dec w) ++ q) (offset (dec w)).

Definition offset_ok (w : World) : Prop := (offset (dec w) <= length (buffer (dec w)))%nat.

Lemma pending_extend w q : offset_ok w -> pending (dec (extend w q)) = pending (dec w) ++ q.
Proof. intros H. unfold pending, extend. wsimp. by rewrite drop_app_le. Qed.

Lemma sim_extend w w' q : sim w w' -> offset_ok w -> offset_ok w' -> sim (extend w q) (extend w' q).
Proof.
  intros S H H'. pose proof (pending_extend w q H) as P. pose proof (pending_extend w' q H') as P'.
  destruct S. split; [rewrite P, P'; congruence|unfold extend; wsimp; done..].
Qed.

Lemma sim_extend_nil w : offset_ok w -> sim w (extend w []).
Proof.
  intros H. pose proof (pending_extend w [] H) as P. rewrite app_nil_r in P.
  split; [done|unfold extend; wsimp; done..].
Qed.

Lemma consume_offset_ok w n : offset_ok w -> (n <= length (pending (dec w)))%nat -> offset_ok (consume w n).
Proof. unfold offset_ok, pending. rewrite length_drop. wsimp. lia. Qed.

Lemma capture_byte_offset_ok w b rest : offset_ok w -> pending (dec w) = b :: rest -> offset_ok (capture_byte w b).
Proof. intros H Hb. apply (consume_offset_ok w 1 H). rewrite Hb. simpl. lia. Qed.

Lemma pending_capture_byte w b rest : pending (dec w) = b :: rest -> pending (dec (capture_byte w b)) = rest.
Proof. intros Hb. change (pending (dec (consume w 1)) = rest). by rewrite pending_consume, Hb. Qed.

(** A handler is unaffected by bytes beyond those it stops at, and resumes
    where it waits for more. *)
Definition appends (h : World -> Step) (w : World) (q : bytes) : Prop :=
  match h w with
  | (w1, s, CONSUMED) => h (extend w q) = (extend w1 q, s, CONSUMED)
  | (w1, s, NEED_MORE) =>
      active_action_node (dec w1) = active_action_node (dec w) /\
      input_trie (dec w1) = input_trie (dec w) /\
      offset_ok w1 /\ h (extend w q) = h (extend w1 q)
  end.

Lemma appends_waiting h w q s : offset_ok w -> h w = (w, s, NEED_MORE) -> appends h w q.
Proof. intros H E. unfold appends. by rewrite E. Qed.

(** The captures on all their input, and their equations. *)
Definition ss3_all (w : World) : Step := capture_ss3 (length (pending (dec w))) w.
Definition csi_all (mouse : bool) (w : World) : Step := capture_csi mouse (length (pending (dec w))) w.
Definition osc_all (osc52 : bool) (w : World) : Step := capture_osc osc52 (length (pending (dec w))) w.
Definition st_all (kind : TerminalResponseKind) (w : World) : Step :=
  capture_st_string kind (length (pending (dec w))) w.

Lemma ss3_all_eq w b rest : pending (dec w) = b :: rest ->
  ss3_all w =
    if b =? kEscape then incomplete_sequence w
    else
      let w := capture_byte w b in
      if (0x40 <=? b) && (b <=? 0x7e) then consumed (abandon w (unsupported (active_sequence (dec w))))
      else if (b <? 0x20) || (0x3f <? b) then consumed (abandon w (malformed (active_sequence (dec w))))
      else if sequence_full (dec w) (maximum_sequence_bytes (limits (dec w))) then limit_exceeded w
      else ss3_all w.
Proof.
  intros Hb. unfold ss3_all. rewrite (pending_capture_byte _ _ _ Hb). rewrite Hb. cbn [length capture_ss3].
  by rewrite Hb.
Qed.

Lemma csi_all_eq mouse w b rest : pending (dec w) = b :: rest ->
  csi_all mouse w =
    if b =? kEscape then incomplete_sequence w
    else
      let w := capture_byte w b in
      if (0x40 <=? b) && (b <=? 0x7e) then
        consumed (abandon w (if mouse && ((b =? 77) || (b =? 109)) then parse_sgr_mouse (active_sequence (dec w))
                             else parse_csi (active_sequence (dec w))))
      else if (b <? 0x20) || (0x3f <? b) then consumed (abandon w (malformed (active_sequence (dec w))))
      else if sequence_full (dec w) (maximum_sequence_bytes (limits (dec w))) then limit_exceeded w
      else csi_all mouse w.
Proof.
  intros Hb. unfold csi_all. rewrite (pending_capture_byte _ _ _ Hb). rewrite Hb. cbn [length capture_csi].
  by rewrite Hb.
Qed.

Lemma osc_all_eq osc52 w b rest : pending (dec w) = b :: rest ->
  osc_all osc52 w =
    let limit := osc_limit osc52 (dec w) in
    if b =? kEscape then
      match rest with
      | [] => need_more w
      | next :: _ =>
          if next =? 92 then
            if terminator_fits (dec w) limit then finish_osc osc52 (capture_terminator w) else limit_exceeded w
          else incomplete_sequence w
      end
    else
      let w := capture_byte w b in
      if b =? 7 then finish_osc osc52 w
      else if sequence_full (dec w) limit then limit_exceeded w
      else osc_all osc52 w.
Proof.
  intros Hb. unfold osc_all. rewrite (pending_capture_byte _ _ _ Hb). rewrite Hb. cbn [length capture_osc].
  by rewrite Hb.
Qed.

Lemma st_all_eq kind w b rest : pending (dec w) = b :: rest ->
  st_all kind w =
    let limit := maximum_sequence_bytes (limits (dec w)) in
    if b =? kEscape then
      match rest with
      | [] => need_more w
      | next :: _ =>
          if next =? 92 then
            if terminator_fits (dec w) limit then
              let w := capture_terminator w in
              consumed (abandon w (response kind 0 (active_sequence (dec w))))
            else limit_exceeded w
          else incomplete_sequence w
      end
    else
      let w := capture_byte w b in
      if sequence_full (dec w) limit then limit_exceeded w else st_all kind w.
Proof.
  intros Hb. unfold st_all. rewrite (pending_capture_byte _ _ _ Hb). rewrite Hb. cbn [length capture_st_string].
  by rewrite Hb.
Qed.

(** Compare the equation at [w] with the one at [extend w q]. *)
Lemma ss3_appends q n : forall w, length (pending (dec w)) = n -> offset_ok w -> appends ss3_all w q.
Proof.
  induction n as [|n IH]; intros w Hn Ho.
  - apply (appends_waiting _ _ _ OK); [done|]. unfold ss3_all. rewrite Hn. done.
  - destruct (pending (dec w)) as [|b rest] eqn:Hb; [done|]. injection Hn as Hn.
    assert (Hx : pending (dec (extend w q)) = b :: rest ++ q) by (by rewrite pending_extend, Hb).
    pose proof (ss3_all_eq w b rest Hb) as E. pose proof (ss3_all_eq (extend w q) b (rest ++ q) Hx) as E'.
    unfold appends. rewrite E, E'. guard_goal; [done|].
    cbn zeta. change (capture_byte (extend w q) b) with (extend (capture_byte w b) q).
    guard_goal; [done|]. guard_goal; [done|]. unfold sequence_full.
    change (limits (dec (extend (capture_byte w b) q))) with (limits (dec (capture_byte w b))).
    change (active_sequence (dec (extend (capture_byte w b) q))) with (active_sequence (dec (capture_byte w b))).
    guard_goal; [done|].
    specialize (IH (capture_byte w b) ltac:(by rewrite (pending_capture_byte _ _ _ Hb))
      ltac:(by eapply capture_byte_offset_ok)). exact IH.
Qed.

Lemma csi_appends mouse q n : forall w, length (pending (dec w)) = n -> offset_ok w -> appends (csi_all mouse) w q.
Proof.
  induction n as [|n IH]; intros w Hn Ho.
  - apply (appends_waiting _ _ _ OK); [done|]. unfold csi_all. rewrite Hn. done.
  - destruct (pending (dec w)) as [|b rest] eqn:Hb; [done|]. injection Hn as Hn.
    assert (Hx : pending (dec (extend w q)) = b :: rest ++ q) by (by rewrite pending_extend, Hb).
    pose proof (csi_all_eq mouse w b rest Hb) as E. pose proof (csi_all_eq mouse (extend w q) b (rest ++ q) Hx) as E'.
    unfold appends. rewrite E, E'. guard_goal; [done|].
    cbn zeta. change (capture_byte (extend w q) b) with (extend (capture_byte w b) q).
    guard_goal; [done|]. guard_goal; [done|]. unfold sequence_full.
    change (limits (dec (extend (capture_byte w b) q))) with (limits (dec (capture_byte w b))).
    change (active_sequence (dec (extend (capture_byte w b) q))) with (active_sequence (dec (capture_byte w b))).
    guard_goal; [done|].
    specialize (IH (capture_byte w b) ltac:(by rewrite (pending_capture_byte _ _ _ Hb))
      ltac:(by eapply capture_byte_offset_ok)). exact IH.
Qed.

Lemma capture_terminator_extend w q b c rest : offset_ok w -> pending (dec w) = b :: c :: rest ->
  capture_terminator (extend w q) = extend (capture_terminator w) q.
Proof. intros Ho Hb. unfold capture_terminator. by rewrite pending_extend, Hb. Qed.

Lemma finish_osc_extend osc52 w q :
  finish_osc osc52 (extend w q) =
    let '(w1, s, r) := finish_osc osc52 w in (extend w1 q, s, r).
Proof.
  unfold finish_osc. change (osc_event osc52 (dec (extend w q))) with (osc_event osc52 (dec w)).
  by destruct (osc_event osc52 (dec w)).
Qed.

Lemma osc_appends osc52 q n : forall w, length (pending (dec w)) = n -> offset_ok w -> appends (osc_all osc52) w q.
Proof.
  induction n as [|n IH]; intros w Hn Ho.
  - apply (appends_waiting _ _ _ OK); [done|]. unfold osc_all. rewrite Hn. done.
  - destruct (pending (dec w)) as [|b rest] eqn:Hb; [done|]. injection Hn as Hn.
    assert (Hx : pending (dec (extend w q)) = b :: rest ++ q) by (by rewrite pending_extend, Hb).
    pose proof (osc_all_eq osc52 w b rest Hb) as E.
    destruct (decide (b = kEscape /\ rest = [])) as [[-> ->]|Hne].
    { apply (appends_waiting _ _ _ OK); [done|]. by rewrite E. }
    pose proof (osc_all_eq osc52 (extend w q) b (rest ++ q) Hx) as E'.
    unfold appends. rewrite E, E'. cbn zeta.
    change (osc_limit osc52 (dec (extend w q))) with (osc_limit osc52 (dec w)).
    change (terminator_fits (dec (extend w q)) (osc_limit osc52 (dec w)))
      with (terminator_fits (dec w) (osc_limit osc52 (dec w))).
    guard_goal.
    + bool_to_prop. destruct rest as [|next rest]; [by destruct Hne|]. cbn [app].
      guard_goal; [|done]. guard_goal; [|done].
      rewrite (capture_terminator_extend w q b next rest Ho Hb), finish_osc_extend.
      unfold finish_osc. by destruct (osc_event _ _).
    + change (capture_byte (extend w q) b) with (extend (capture_byte w b) q).
      guard_goal; [rewrite finish_osc_extend; unfold finish_osc; by destruct (osc_event _ _)|].
      unfold sequence_full.
      change (active_sequence (dec (extend (capture_byte w b) q))) with (active_sequence (dec (capture_byte w b))).
      guard_goal; [done|].
      specialize (IH (capture_byte w b) ltac:(by rewrite (pending_capture_byte _ _ _ Hb))
        ltac:(by eapply capture_byte_offset_ok)). exact IH.
Qed.

Lemma st_appends kind q n : forall w, length (pending (dec w)) = n -> offset_ok w -> appends (st_all kind) w q.
Proof.
  induction n as [|n IH]; intros w Hn Ho.
  - apply (appends_waiting _ _ _ OK); [done|]. unfold st_all. rewrite Hn. done.
  - destruct (pending (dec w)) as [|b rest] eqn:Hb; [done|]. injection Hn as Hn.
    assert (Hx : pending (dec (extend w q)) = b :: rest ++ q) by (by rewrite pending_extend, Hb).
    pose proof (st_all_eq kind w b rest Hb) as E.
    destruct (decide (b = kEscape /\ rest = [])) as [[-> ->]|Hne].
    { apply (appends_waiting _ _ _ OK); [done|]. by rewrite E. }
    pose proof (st_all_eq kind (extend w q) b (rest ++ q) Hx) as E'.
    unfold appends. rewrite E, E'. cbn zeta.
    change (limits (dec (extend w q))) with (limits (dec w)).
    change (terminator_fits (dec (extend w q)) (maximum_sequence_bytes (limits (dec w))))
      with (terminator_fits (dec w) (maximum_sequence_bytes (limits (dec w)))).
    guard_goal.
    + bool_to_prop. destruct rest as [|next rest]; [by destruct Hne|]. cbn [app].
      guard_goal; [|done]. guard_goal; [|done].
      by rewrite (capture_terminator_extend w q b next rest Ho Hb).
    + change (capture_byte (extend w q) b) with (extend (capture_byte w b) q). unfold sequence_full.
      change (active_sequence (dec (extend (capture_byte w b) q))) with (active_sequence (dec (capture_byte w b))).
      guard_goal; [done|].
      specialize (IH (capture_byte w b) ltac:(by rewrite (pending_capture_byte _ _ _ Hb))
        ltac:(by eapply capture_byte_offset_ok)). exact IH.
Qed.

(** ** One scalar with more input *)

Lemma decode_scalar_app input q : decode_scalar input <> INCOMPLETE -> decode_scalar (input ++ q) = decode_scalar input.
Proof.
  destruct input as [|first rest]; [done|]. unfold decode_scalar. cbn [app].
  guard_goal; [done|]. destruct (expected_length first) as [[expected value]|] eqn:E; [|done].
  assert (He : (2 <= expected <= 4)%nat).
  { unfold expected_length in E. repeat (guard_in E; [injection E as <- <-; lia|..]); injection E as <- <-; lia. }
  cbn [drop]. rewrite !drop_0.
  destruct (length (first :: rest) <? expected)%nat eqn:Hl; bool_to_prop; cbn [length] in *.
  - rewrite Nat.min_l, (take_ge rest) by lia.
    destruct (forallb is_continuation rest) eqn:Hall; [done|]. intros _. cbn [negb].
    replace (forallb is_continuation (take (Nat.min (S (length (rest ++ q))) expected - 1) (rest ++ q))) with false; [done|].
    rewrite length_app, take_app_ge by lia. by rewrite forallb_app, Hall.
  - rewrite !Nat.min_r by (rewrite ?length_app; lia). rewrite take_app_le by lia.
    rewrite (proj2 (Nat.ltb_ge _ _)) by (rewrite length_app; lia). intros _.
    replace (byte (first :: rest ++ q) 1) with (byte (first :: rest) 1); [done|].
    unfold byte. cbn [lookup list_lookup]. destruct rest; [simpl in *; lia|done].
Qed.

Lemma parse_alt_key_appends w q : offset_ok w -> pending (dec w) <> [] -> appends parse_alt_key w q.
Proof.
  intros Ho Hp. unfold appends, parse_alt_key. cbn zeta. rewrite pending_extend by done.
  destruct (pending (dec w)) as [|first rest] eqn:Hb; [done|]. cbn [app].
  guard_goal; [done|]. destruct (legacy_control_key first) eqn:El; [done|].
  change (first :: rest ++ q) with ((first :: rest) ++ q).
  destruct (decode_scalar (first :: rest)) as [c n| |] eqn:E.
  - by rewrite decode_scalar_app, E by (by rewrite E).
  - unfold need_more. split_and!; [done|done|done|]. rewrite pending_extend, Hb by done. cbn [app]. by rewrite G, El.
  - by rewrite decode_scalar_app, E by (by rewrite E).
Qed.

(** ** Runs of text with more input *)

Lemma text_run_fuel f1 : forall f2 input s,
  (length (drop s input) <= f1)%nat -> (length (drop s input) <= f2)%nat ->
  text_run f1 input s = text_run f2 input s.
Proof.
  induction f1 as [|f1 IH]; intros f2 input s H1 H2.
  - destruct f2; [done|]. cbn [text_run]. destruct (drop s input); [done|simpl in H1; lia].
  - destruct f2 as [|f2]; cbn [text_run].
    + destruct (drop s input); [done|simpl in H2; lia].
    + destruct (drop s input) as [|b rest] eqn:E; [done|].
      assert (Hd : forall k, (0 < k)%nat -> (length (drop (s + k) input) < length (drop s input))%nat).
      { intros k Hk. apply (f_equal length) in E. rewrite !length_drop in *. simpl in E. lia. }
      rewrite E in Hd. guard_goal; [done|]. guard_goal.
      * specialize (Hd 1%nat ltac:(lia)). rewrite Nat.add_1_r in Hd. simpl in *. apply IH; lia.
      * destruct (decode_scalar (b :: rest)) as [c n| |] eqn:Ed; [|done..].
        apply decode_scalar_length in Ed. specialize (Hd n ltac:(lia)). simpl in *. apply IH; lia.
Qed.

Lemma text_run_some f input s : (0 < s)%nat -> text_run f input s <> None.
Proof.
  revert s. induction f as [|f IH]; intros s Hs; cbn [text_run]; [done|].
  destruct (drop s input); [done|]. guard_goal; [done|]. guard_goal; [apply IH; lia|].
  destruct (decode_scalar _); [apply IH; lia| |done].
  by rewrite (proj2 (Nat.eqb_neq _ _)) by lia.
Qed.

(** A run found on a prefix is passed on the whole input. *)
Lemma text_run_app f p q : forall s n, (s <= length p)%nat -> text_run f p s = Some n ->
  text_run (length (p ++ q)) (p ++ q) s = text_run (length (p ++ q)) (p ++ q) n.
Proof.
  induction f as [|f IH]; intros s n Hs; cbn [text_run]; [by intros [= <-]|].
  destruct (drop s p) as [|b rest] eqn:E; [by intros [= <-]|].
  assert (Hd : drop s (p ++ q) = b :: rest ++ q) by (by rewrite drop_app_le, E by lia).
  assert (Hlt : (s < length p)%nat) by (apply (f_equal length) in E; rewrite length_drop in E; simpl in E; lia).
  assert (Hone : forall k, (0 < k)%nat -> text_run (length (p ++ q)) (p ++ q) s =
      text_run (S (length (p ++ q))) (p ++ q) s).
  { intros k Hk. apply text_run_fuel; rewrite length_drop; lia. }
  guard_goal; [by intros [= <-]|]. guard_goal.
  - intros Hr. rewrite <- (IH (S s) n) by (lia || done). rewrite (Hone 1%nat) by lia.
    cbn [text_run]. by rewrite Hd, G, G0.
  - destruct (decode_scalar (b :: rest)) as [c k| |] eqn:Ed.
    + intros Hr. pose proof (decode_scalar_length _ _ _ Ed) as Hk.
      assert (Hk' : (s + k <= length p)%nat)
        by (apply (f_equal length) in E; rewrite length_drop in E; lia).
      rewrite <- (IH (s + k)%nat n) by (lia || done). rewrite (Hone k) by lia.
      cbn [text_run]. rewrite Hd, G, G0. change (b :: rest ++ q) with ((b :: rest) ++ q).
      by rewrite decode_scalar_app, Ed by (by rewrite Ed).
    + guard_goal; [done|by intros [= <-]].
    + by intros [= <-].
Qed.

(** The rest of a run, read from its own start. *)
Lemma text_run_rest f l n : (0 < n)%nat -> forall k m, text_run f l (n + k) = Some m -> (0 < k \/ n < m)%nat ->
  text_run f (drop n l) k = Some (m - n)%nat.
Proof.
  intros Hn. induction f as [|f IH]; intros k m; cbn [text_run]; [intros [= <-] _; f_equal; lia|].
  rewrite drop_drop. destruct (drop (n + k) l) as [|b rest]; [intros [= <-] _; f_equal; lia|].
  guard_goal; [intros [= <-] _; f_equal; lia|]. guard_goal.
  - rewrite <- Nat.add_succ_r. intros Hr _. apply IH; [done|lia].
  - destruct (decode_scalar (b :: rest)) as [c j| |] eqn:Ed.
    + apply decode_scalar_length in Ed. rewrite <- Nat.add_assoc. intros Hr _. apply IH; [done|lia].
    + rewrite (proj2 (Nat.eqb_neq (n + k) 0)) by lia. intros [= <-] Hor.
      rewrite (proj2 (Nat.eqb_neq k 0)) by lia. f_equal. lia.
    + intros [= <-] _. f_equal. lia.
Qed.

Lemma text_run_zero f p q b rest : p = b :: rest -> ((b =? kEscape) || (b <? 0x20) || (b =? 0x7f)) = false ->
  text_run (S f) p 0 = Some 0%nat -> text_run (length (p ++ q)) (p ++ q) 0 = Some 0%nat.
Proof.
  intros -> Hc. cbn [text_run app length]. rewrite !drop_0, Hc.
  guard_goal.
  - intros Hr. apply text_run_bound in Hr; simpl; lia.
  - destruct (decode_scalar (b :: rest)) as [c k| |] eqn:Ed.
    + intros Hr. pose proof (decode_scalar_length _ _ _ Ed). apply text_run_bound in Hr; simpl in *; lia.
    + done.
    + intros _. change (b :: rest ++ q) with ((b :: rest) ++ q).
      by rewrite decode_scalar_app, Ed by (by rewrite Ed).
Qed.

(** ** Independence of chunk boundaries

    Each step of the decoder, repeated with more input appended, reaches a
    state from which the rest is decoded alike; hence feeding a stream in
    pieces ends where feeding it whole does. *)

(** ** Bridges

    [bridged w1 s q]: the step [s], taken with [q] already there, reaches the
    outcome that [w1] reaches once [q] arrives. *)

Definition settles_from (s : Step) (x : World) : Prop :=
  match s with
  | (w, _, CONSUMED) => settles w x
  | (w, _, NEED_MORE) => x = w
  end.

Definition bridged (w1 : World) (s : Step) (q : bytes) : Prop :=
  forall x, settles_from s x -> exists y, settles (extend w1 q) y /\ sim x y.

Lemma settles_iff w x : pending (dec w) <> [] -> settles w x <-> settles_from (step_decoder w) x.
Proof.
  intros Hp. destruct (step_decoder w) as [[w1 s] [|]] eqn:E; cbn [settles_from].
  - by eapply settles_step.
  - split; [|intros ->; by eapply settles_stop]. intros Hs.
    eapply settles_unique; [exact Hs|by eapply settles_stop].
Qed.

Lemma bridged_exact w1 s q : bridged w1 (extend w1 q, s, CONSUMED) q.
Proof. intros x Hx. exists x. split; [exact Hx|apply sim_refl]. Qed.

Lemma bridged_step w1 s q : pending (dec (extend w1 q)) <> [] -> sim_step s (step_decoder (extend w1 q)) ->
  bridged w1 s q.
Proof.
  intros Hp (S & E1 & E2) x Hx. destruct s as [[w2 s2] r2].
  destruct (step_decoder (extend w1 q)) as [[w3 s3] r3] eqn:E. cbn in S, E1, E2. subst s3 r3.
  destruct r2; cbn [settles_from] in Hx.
  - destruct (settles_sim w2 w3 x S Hx) as (y & Hy & Sy). exists y. split; [|done].
    apply settles_iff; [done|]. by rewrite E.
  - subst x. exists w3. split; [|done]. apply settles_iff; [done|]. by rewrite E.
Qed.

Definition text_start (b : Z) : Prop := ((b =? kEscape) || (b <? 0x20) || (b =? 0x7f)) = false.

Definition text_step_of (w : World) : Step := let (w', r) := parse_text w in (w', OK, r).

Lemma text_bridge w q : offset_ok w -> pending (dec w) <> [] ->
  (forall x b rest, pending (dec x) = b :: rest -> text_start b ->
     input_trie (dec x) = input_trie (dec w) -> active_action_node (dec x) = active_action_node (dec w) ->
     trie_cursor (dec x) = trie_cursor (dec w) -> step_decoder x = text_step_of x) ->
  bridged (fst (fst (text_step_of w))) (text_step_of (extend w q)) q.
Proof.
  intros Ho Hp Hstep. unfold text_step_of, parse_text at 1. cbn zeta.
  destruct (pending (dec w)) as [|b rest] eqn:Hb; [done|]. clear Hp.
  pose proof (pending_extend w q Ho) as Hx. rewrite Hb in Hx. cbn [app] in Hx.
  change (default 0 (head (b :: rest))) with b.
  destruct ((b <? 0x20) || (b =? 0x7f)) eqn:Hc.
  { cbn [fst]. unfold parse_text. cbn zeta. rewrite Hx. change (default 0 (head (b :: rest ++ q))) with b.
    rewrite Hc. apply (bridged_exact (consume (emit w (unsupported (take 1 (b :: rest)))) 1)). }
  assert (Hts : text_start b).
  { unfold text_start, kEscape. apply orb_false_iff in Hc as [H1 H2]. lia. }
  assert (Hrun : parse_text (extend w q) =
    match text_run (length ((b :: rest) ++ q)) ((b :: rest) ++ q) 0 with
    | None => (extend w q, NEED_MORE)
    | Some O => (consume (emit (extend w q) (unknown UnknownReasons.INVALID_UTF8 [b])) 1, CONSUMED)
    | Some n => (consume (emit (extend w q) (EText {| utf8 := take n ((b :: rest) ++ q) |})) n, CONSUMED)
    end).
  { unfold parse_text. cbn zeta. rewrite Hx. change (default 0 (head (b :: rest ++ q))) with b. by rewrite Hc. }
  rewrite Hrun. destruct (text_run (length (b :: rest)) (b :: rest) 0) as [[|n]|] eqn:Er; cbn [fst].
  - cbn [length] in Er. rewrite (text_run_zero _ (b :: rest) q b rest eq_refl Hts Er).
    apply (bridged_exact (consume (emit w (unknown UnknownReasons.INVALID_UTF8 (take 1 (b :: rest)))) 1)).
  - pose proof (text_run_bound _ _ 0 _ (Nat.le_0_l _) Er) as Hn.
    rewrite (text_run_app _ (b :: rest) q 0 (S n) ltac:(lia) Er).
    destruct (text_run (length ((b :: rest) ++ q)) ((b :: rest) ++ q) (S n)) as [m|] eqn:Em;
      [|by apply text_run_some in Em; [|lia]].
    assert (Hm : (S n <= m <= length ((b :: rest) ++ q))%nat)
      by (eapply text_run_bound; [|exact Em]; rewrite length_app; lia).
    destruct m as [|m]; [lia|]. destruct (decide (m = n)) as [->|Hne].
    { rewrite take_app_le by lia. apply (bridged_exact (consume (emit w (EText {| utf8 := take (S n) (b :: rest) |})) (S n))). }
    set (w1 := consume (emit w (EText {| utf8 := take (S n) (b :: rest) |})) (S n)).
    assert (Ho1 : offset_ok w1).
    { apply (consume_offset_ok (emit w _)); [done|]. change (S n <= length (pending (dec w)))%nat. rewrite Hb. lia. }
    assert (P1 : pending (dec (extend w1 q)) = drop (S n) ((b :: rest) ++ q)).
    { rewrite pending_extend by done.
      replace (pending (dec w1)) with (drop (S n) (b :: rest)) by (symmetry; rewrite <- Hb; apply (pending_consume (emit w _))).
      by rewrite drop_app_le by lia. }
    pose proof (text_run_rest _ _ (S n) ltac:(lia) 0 (S m) ltac:(by rewrite Nat.add_0_r) ltac:(lia)) as Hr.
    rewrite (text_run_fuel _ (length (drop (S n) ((b :: rest) ++ q)))) in Hr by (rewrite drop_0, ?length_drop; lia).
    destruct (drop (S n) ((b :: rest) ++ q)) as [|b1 rest1] eqn:Hd1; [cbn in Hr; injection Hr; lia|].
    assert (Hts1 : text_start b1).
    { unfold text_start. destruct ((b1 =? kEscape) || (b1 <? 0x20) || (b1 =? 0x7f)) eqn:Hc1; [|done].
      cbn [length text_run] in Hr. rewrite drop_0, Hc1 in Hr. injection Hr. lia. }
    assert (Hstep1 : step_decoder (extend w1 q) =
      (consume (emit (extend w1 q) (EText {| utf8 := take (m - n) (b1 :: rest1) |})) (m - n), OK, CONSUMED)).
    { rewrite (Hstep (extend w1 q) b1 rest1 P1 Hts1) by done. unfold text_step_of, parse_text. cbn zeta. rewrite P1.
      change (default 0 (head (b1 :: rest1))) with b1.
      unfold text_start in Hts1. apply orb_false_iff in Hts1 as [Ha Hb1]. apply orb_false_iff in Ha as [_ Ha].
      rewrite Ha, Hb1. cbn [orb]. rewrite Hr. cbn [Nat.sub]. destruct (m - n)%nat eqn:Em'; [lia|done]. }
    apply bridged_step; [by rewrite P1|]. rewrite Hstep1. apply sim_step_intro.
    assert (E : pending (dec (extend w q)) = (b :: rest) ++ q) by done.
    split; try (unfold extend; subst w1; wsimp; done).
    + rewrite !pending_consume. change (pending (dec (emit (extend w1 q) (EText {| utf8 := take (m - n) (b1 :: rest1) |}))))
        with (pending (dec (extend w1 q))). rewrite P1, <- Hd1, drop_drop.
      change (pending (dec (emit (extend w q) (EText {| utf8 := take (S m) ((b :: rest) ++ q) |}))))
        with (pending (dec (extend w q))). rewrite E. f_equal. lia.
    + unfold extend. subst w1. wsimp. rewrite !flat_app. cbn [flat flat_map atoms utf8]. rewrite !app_nil_r, <- app_assoc. f_equal.
      rewrite <- map_app. f_equal. replace (S m) with (S n + (m - n))%nat by lia.
      rewrite take_extend, Hd1. f_equal. by rewrite take_app_le by lia.
  - destruct (text_run (length ((b :: rest) ++ q)) ((b :: rest) ++ q) 0) as [[|m]|] eqn:Em.
    all: apply bridged_step; [by rewrite Hx|].
    all: rewrite (Hstep (extend w q) b (rest ++ q) Hx Hts) by done; unfold text_step_of; rewrite Hrun; apply sim_step_intro, sim_refl.
Qed.

(** ** Entering text from the root *)

(** Every mapped sequence starts with a control byte. *)
Definition text_keys (t : InputTrie) : Prop :=
  forall b, find_child Inert t kRootNode b <> None -> ~ text_start b.

Lemma with_cursor_same w : with_cursor w (trie_cursor (dec w)) = w.
Proof. by destruct w as [[] ?]. Qed.

Lemma root_text_step w b rest : trie_ok (input_trie (dec w)) -> text_keys (input_trie (dec w)) ->
  active_action_node (dec w) = None -> trie_cursor (dec w) = root_cursor ->
  sequence_end (trie_node (input_trie (dec w)) kRootNode) = true ->
  pending (dec w) = b :: rest -> text_start b -> step_decoder w = text_step_of w.
Proof.
  intros H Ht Ha Hc Hr Hb Hts. unfold step_decoder. rewrite Ha, Hb. cbn [length advance_trie].
  rewrite Hc. cbn [scanned cursor_node last_match root_cursor]. rewrite Hb, drop_0.
  destruct (find_child Inert (input_trie (dec w)) kRootNode b) as [child|] eqn:E.
  { exfalso. apply (Ht b); [by rewrite E|done]. }
  cbn [negb Nat.eqb]. rewrite Hr. unfold execute_action. rewrite (trie_ok_root _ H Hr).
  unfold text_step_of, reset_trie_cursor. by rewrite <- Hc, with_cursor_same.
Qed.

(** A prefix action on a control byte looks at no more than its own bytes. *)
Lemma execute_exact w i n q b rest : offset_ok w -> pending (dec w) = b :: rest -> ~ text_start b ->
  (0 < n <= length (pending (dec w)))%nat ->
  bridged (fst (fst (execute_action w i n))) (execute_action (extend w q) i n) q.
Proof.
  intros Ho Hb Hc Hn. unfold execute_action.
  change (input_trie (dec (extend w q))) with (input_trie (dec w)).
  destruct (value (trie_node (input_trie (dec w)) i)) as [|e|p] eqn:Ev.
  - rewrite pending_extend, take_app_le by (done || lia).
    exact (bridged_exact (reset_trie_cursor (consume (emit w (unsupported (take n (pending (dec w)))))
      (if (n =? 0)%nat then 1 else n)%nat)) OK q).
  - exact (bridged_exact (reset_trie_cursor (consume (emit w e) n)) OK q).
  - assert (Henter : bridged (enter_protocol w i n p) (consumed (enter_protocol (extend w q) i n p)) q).
    { replace (enter_protocol (extend w q) i n p) with (extend (enter_protocol w i n p) q); [apply bridged_exact|].
      unfold enter_protocol. cbn zeta. rewrite pending_extend, take_app_le by (done || lia). by destruct p. }
    destruct p; try exact Henter.
    assert (Hctl : ((b <? 0x20) || (b =? 0x7f)) = true).
    { unfold text_start, kEscape in Hc. lia. }
    unfold parse_text. cbn zeta.
    change (pending (dec (reset_trie_cursor (extend w q)))) with (pending (dec (extend w q))).
    change (pending (dec (reset_trie_cursor w))) with (pending (dec w)).
    rewrite pending_extend, Hb by done. cbn [app]. change (default 0 (head (b :: rest))) with b.
    change (default 0 (head (b :: rest ++ q))) with b. rewrite Hctl.
    exact (bridged_exact (consume (emit (reset_trie_cursor w) (unsupported [b])) 1) OK q).
Qed.

Lemma reject_exact w n q : offset_ok w -> (n <= length (pending (dec w)))%nat ->
  bridged (fst (fst (reject w n))) (reject (extend w q) n) q.
Proof.
  intros Ho Hn. unfold reject. rewrite pending_extend, take_app_le by (done || lia).
  exact (bridged_exact (reset_trie_cursor (consume (emit w (unsupported (take n (pending (dec w))))) n)) OK q).
Qed.

Lemma execute_root_bridge w q : dinv (dec w) -> text_keys (input_trie (dec w)) ->
  active_action_node (dec w) = None -> trie_cursor (dec w) = root_cursor -> pending (dec w) <> [] ->
  sequence_end (trie_node (input_trie (dec w)) kRootNode) = true ->
  bridged (fst (fst (execute_action w kRootNode 0))) (execute_action (extend w q) kRootNode 0) q.
Proof.
  intros H Ht Ha Hc Hp Hr. unfold execute_action.
  change (input_trie (dec (extend w q))) with (input_trie (dec w)).
  rewrite (trie_ok_root _ (inv_trie _ H) Hr). unfold reset_trie_cursor.
  replace (with_cursor (extend w q) root_cursor) with (extend w q)
    by (rewrite <- Hc; symmetry; exact (with_cursor_same (extend w q))).
  replace (with_cursor w root_cursor) with w by (rewrite <- Hc; symmetry; apply with_cursor_same).
  apply (text_bridge w q (inv_offset _ H) Hp).
  intros x b rest Hx Hts Et Ea Ec. apply (root_text_step x b rest); rewrite ?Et, ?Ea, ?Ec; try done.
  by apply inv_trie.
Qed.

(** ** The trie with more input *)

Lemma advance_trie_fuel f1 : forall f2 w,
  (length (drop (scanned (trie_cursor (dec w))) (pending (dec w))) <= f1)%nat ->
  (length (drop (scanned (trie_cursor (dec w))) (pending (dec w))) <= f2)%nat ->
  advance_trie f1 w = advance_trie f2 w.
Proof.
  induction f1 as [|f1 IH]; intros f2 w H1 H2.
  - destruct f2; [done|]. cbn [advance_trie]. destruct (drop _ _); [done|simpl in H1; lia].
  - destruct f2 as [|f2]; cbn [advance_trie].
    + destruct (drop _ _); [done|simpl in H2; lia].
    + destruct (drop (scanned (trie_cursor (dec w))) (pending (dec w))) as [|b rest] eqn:E; [done|].
      assert (Hd : length (drop (S (scanned (trie_cursor (dec w)))) (pending (dec w))) = length rest).
      { rewrite <- Nat.add_1_r, <- drop_drop, E. done. }
      simpl in H1, H2. destruct (find_child Inert _ _ b) as [child|]; [|done].
      set (w1 := with_cursor w _).
      repeat (guard_goal; [done|]). apply IH.
      all: change (scanned (trie_cursor (dec w1))) with (S (scanned (trie_cursor (dec w)))).
      all: change (pending (dec w1)) with (pending (dec w)); lia.
Qed.

Lemma advance_trie_bridge q fuel : forall w fuel',
  dinv (dec w) -> text_keys (input_trie (dec w)) -> active_action_node (dec w) = None -> pending (dec w) <> [] ->
  (length (drop (scanned (trie_cursor (dec w))) (pending (dec w))) <= fuel)%nat ->
  (length (drop (scanned (trie_cursor (dec w))) (pending (dec w) ++ q)) <= fuel')%nat ->
  bridged (fst (fst (advance_trie fuel w))) (advance_trie fuel' (extend w q)) q.
Proof.
  assert (Hwait : forall w fuel', dinv (dec w) -> active_action_node (dec w) = None -> pending (dec w) <> [] ->
    (length (drop (scanned (trie_cursor (dec w))) (pending (dec w) ++ q)) <= fuel')%nat ->
    bridged w (advance_trie fuel' (extend w q)) q).
  { intros w fuel' H Ha Hp Hf. pose proof (pending_extend w q (inv_offset _ H)) as Hx.
    apply bridged_step; [rewrite Hx; by destruct (pending (dec w))|].
    unfold step_decoder. change (active_action_node (dec (extend w q))) with (active_action_node (dec w)). rewrite Ha.
    rewrite (advance_trie_fuel fuel' (length (pending (dec (extend w q))))); [|..].
    - destruct (advance_trie _ _) as [[x s] r]. apply sim_step_intro, sim_refl.
    - change (scanned (trie_cursor (dec (extend w q)))) with (scanned (trie_cursor (dec w))). by rewrite Hx.
    - rewrite length_drop. lia. }
  induction fuel as [|fuel IH]; intros w fuel' H Ht Ha Hp Hf Hf'; [by apply Hwait|].
  cbn [advance_trie]. pose proof (pending_extend w q (inv_offset _ H)) as Hx.
  destruct (drop (scanned (trie_cursor (dec w))) (pending (dec w))) as [|b rest] eqn:Hb; [by apply Hwait|].
  destruct (inv_cursor _ H) as [Hscan Hmatch Hzero Hfirst].
  assert (Hlt : (scanned (trie_cursor (dec w)) < length (pending (dec w)))%nat).
  { apply (f_equal length) in Hb. rewrite length_drop in Hb. simpl in Hb. lia. }
  rewrite drop_app_le, Hb in Hf' by lia. destruct fuel' as [|fuel']; [simpl in Hf'; lia|].
  cbn [advance_trie]. change (trie_cursor (dec (extend w q))) with (trie_cursor (dec w)).
  rewrite Hx, drop_app_le, Hb by lia. cbn [app].
  change (input_trie (dec (extend w q))) with (input_trie (dec w)).
  destruct (find_child Inert (input_trie (dec w)) (cursor_node (trie_cursor (dec w))) b) as [child|] eqn:Ec.
  - fold (next_cursor (input_trie (dec w)) (trie_cursor (dec w)) child).
    set (c := next_cursor _ _ child). set (w1 := with_cursor w c).
    pose proof (next_cursor_ok _ _ _ child b rest (inv_cursor _ H) Hb Ec) as Hc.
    destruct (with_cursor_ok w c H Ha Hc) as (H1 & _ & _). fold w1 in H1.
    change (with_cursor (extend w q) c) with (extend w1 q).
    destruct (cursor_first _ _ _ Hc ltac:(done)) as (b0 & rest0 & Hb0 & Hroot).
    apply Ht in Hroot. change (pending (dec w)) with (pending (dec w1)) in Hb0.
    guard_goal; [apply (execute_exact w1 _ _ _ b0 rest0 (inv_offset _ H1) Hb0 Hroot);
      change (pending (dec w1)) with (pending (dec w)); lia|].
    guard_goal; [apply (reject_exact w1 _ _ (inv_offset _ H1)); change (pending (dec w1)) with (pending (dec w)); lia|].
    assert (Hd : forall l : bytes, length (drop (scanned (trie_cursor (dec w1))) l)
      = (length (drop (scanned (trie_cursor (dec w))) l) - 1)%nat).
    { intros l. change (scanned (trie_cursor (dec w1))) with (S (scanned (trie_cursor (dec w)))). rewrite !length_drop. lia. }
    apply IH; [done..| |]; rewrite Hd; change (pending (dec w1)) with (pending (dec w)).
    + rewrite Hb. simpl in *. lia.
    + rewrite drop_app_le, Hb by lia. simpl in *. lia.
  - destruct (last_match (trie_cursor (dec w))) as [m|] eqn:Em.
    + specialize (Hmatch ltac:(done)). destruct (Hfirst ltac:(lia)) as (b0 & rest0 & Hb0 & Hroot). apply Ht in Hroot.
      apply (execute_exact w m _ q b0 rest0 (inv_offset _ H) Hb0 Hroot). lia.
    + guard_goal; [apply reject_exact; [apply H|lia]|]. bool_to_prop.
      guard_goal; [by apply execute_root_bridge; auto|]. apply reject_exact; [apply H|lia].
Qed.

(** ** Paste with more input *)

(** Room for everything pending and [k] more bytes under the paste limit. *)
Definition room (w : World) (k : Z) : Prop :=
  0 <= paste_bytes (dec w) /\
  (if paste_discarding (dec w) then 0 else paste_bytes (dec w)) + Z.of_nat (length (paste_candidate (dec w)))
    + Z.of_nat (length (pending (dec w))) + k <= maximum_paste_bytes (limits (dec w)).

Definition after_data (w : World) (data : bytes) : World := fst (append_paste_data w data).

Definition stop_paste (w : World) (data : bytes) : Step :=
  let (w, status) := append_paste_data w data in
  (w, status, if bool_decide (data = []) then NEED_MORE else CONSUMED).

Definition paste_all (w : World) (data : bytes) : Step := capture_paste_loop (length (pending (dec w))) w data.

(** One byte of a paste. *)
Definition paste_byte (w : World) (candidate : bytes) : World :=
  with_paste (consume w 1) candidate (paste_in_progress (dec w)) (paste_discarding (dec w)) (paste_bytes (dec w)).

Lemma pending_paste_byte w c b rest : pending (dec w) = b :: rest -> pending (dec (paste_byte w c)) = rest.
Proof. intros Hb. change (pending (dec (consume w 1)) = rest). by rewrite pending_consume, Hb. Qed.

Lemma paste_all_nil w data : pending (dec w) = [] -> paste_all w data = stop_paste w data.
Proof. intros H. unfold paste_all. by rewrite H. Qed.

Lemma paste_all_eq w data b rest : pending (dec w) = b :: rest ->
  paste_all w data =
    let (c, data) := settle_candidate (paste_end_sequence (dec w)) (paste_candidate (dec w) ++ [b]) data in
    let w1 := paste_byte w c in
    if bool_decide (c = paste_end_sequence (dec w)) then
      let (w2, status) := append_paste_data w1 data in (end_paste w2, status, CONSUMED)
    else paste_all w1 data.
Proof.
  intros Hb. unfold paste_all. rewrite Hb. cbn [length capture_paste_loop]. rewrite Hb.
  destruct (settle_candidate _ _ data) as [c d]. cbn zeta.
  rewrite (pending_paste_byte w c b rest Hb). done.
Qed.

Lemma settle_candidate_data paste_end : forall candidate d d0,
  settle_candidate paste_end candidate (d ++ d0) =
    let (c, d') := settle_candidate paste_end candidate d0 in (c, d ++ d').
Proof.
  induction candidate as [|x rest IH]; intros d d0; cbn [settle_candidate]; [done|].
  guard_goal; [done|]. rewrite <- app_assoc. apply IH.
Qed.

Lemma settle_candidate_length paste_end candidate d c d' : settle_candidate paste_end candidate d = (c, d') ->
  (length c + length d' = length candidate + length d)%nat.
Proof.
  intros H. apply settle_candidate_spec in H as [(moved & -> & ->) _]. rewrite !length_app. lia.
Qed.

(** Data accepted without reaching the limit. *)
Lemma append_fits w data k : room w (Z.of_nat (length data) + k) -> 0 <= k ->
  append_paste_data w data =
    (if bool_decide (data = []) || paste_discarding (dec w) then (w, OK)
     else (with_paste (emit w (paste_event PastePhases.DATA data)) (paste_candidate (dec w)) (paste_in_progress (dec w))
             (paste_discarding (dec w)) (paste_bytes (dec w) + Z.of_nat (length data)), OK)).
Proof.
  intros [Hb Hr] Hk. unfold append_paste_data. cbn zeta. guard_goal; [done|].
  apply orb_false_iff in G as [_ G]. rewrite G in Hr.
  by rewrite (proj2 (Z.ltb_ge _ _)) by lia.
Qed.

Lemma room_weaken w k k' : room w k -> k' <= k -> room w k'.
Proof. intros [H1 H2] Hk. split; [done|]. destruct (paste_discarding (dec w)); lia. Qed.

(** Appending in two pieces gives the atoms of appending once. *)
Lemma after_data_app w d d0 k : room w (Z.of_nat (length (d ++ d0)) + k) -> 0 <= k ->
  sim (after_data w (d ++ d0)) (after_data (after_data w d) d0) /\
  room (after_data w d) (Z.of_nat (length d0) + k).
Proof.
  intros Hr Hk. pose proof Hr as [Hb Hr']. rewrite length_app in Hr'.
  assert (Hr1 : room w (Z.of_nat (length d) + (Z.of_nat (length d0) + k)))
    by (eapply room_weaken; [exact Hr|rewrite length_app; lia]).
  assert (R : room (after_data w d) (Z.of_nat (length d0) + k)).
  { unfold after_data. rewrite (append_fits w d _ Hr1) by lia.
    destruct (bool_decide (d = []) || paste_discarding (dec w)) eqn:E; cbn [fst].
    - eapply room_weaken; [exact Hr1|lia].
    - apply orb_false_iff in E as [E1 E2]. rewrite E2 in Hr'.
      change (0 <= paste_bytes (dec w) + Z.of_nat (length d) /\
        (if paste_discarding (dec w) then 0 else paste_bytes (dec w) + Z.of_nat (length d))
        + Z.of_nat (length (paste_candidate (dec w))) + Z.of_nat (length (pending (dec w))) + (Z.of_nat (length d0) + k) <= maximum_paste_bytes (limits (dec w))).
      rewrite E2. lia. }
  split; [|done]. unfold after_data in R |- *. rewrite (append_fits w (d ++ d0) k Hr Hk).
  rewrite (append_fits (fst (append_paste_data w d)) d0 k R Hk).
  rewrite (append_fits w d _ Hr1) by lia.
  destruct (paste_discarding (dec w)) eqn:Ed.
  { rewrite !orb_true_r. cbn [fst]. rewrite Ed, orb_true_r. apply sim_refl. }
  rewrite !orb_false_r.
  destruct d as [|x d]; [cbn [app]; rewrite (bool_decide_true ([] = [])) by done; cbn [fst]; rewrite Ed, orb_false_r;
    case_bool_decide; apply sim_refl|].
  rewrite !(bool_decide_false (_ :: _ = [])), (bool_decide_false ((x :: d) ++ d0 = [])) by done. cbn [fst]. wsimp.
  rewrite orb_false_r.
  case_bool_decide as E0; cbn [fst].
  - subst d0. rewrite app_nil_r. apply sim_refl.
  - split; wsimp; try done; [rewrite length_app; lia|].
    rewrite !flat_app. cbn. rewrite !app_nil_r, <- app_assoc, map_app. done.
Qed.

Lemma settles_from_nil w s r x : pending (dec w) = [] -> settles_from (w, s, r) x <-> x = w.
Proof.
  intros H. destruct r; cbn [settles_from]; [|done]. split; [|intros ->; by apply settles_nil].
  intros Hs. eapply settles_unique; [exact Hs|by apply settles_nil].
Qed.

Definition step_leads (s s' : Step) : Prop :=
  forall x, settles_from s x -> exists y, settles_from s' y /\ sim x y.

Lemma after_data_pending w data : pending (dec (after_data w data)) = pending (dec w).
Proof. unfold after_data, append_paste_data. by repeat guard_goal. Qed.

(** Emitting the data collected so far first makes no difference. *)
Lemma paste_byte_after_data x d c k : room x (Z.of_nat (length d) + k) -> 0 <= k ->
  room (paste_byte x c) (Z.of_nat (length d) + k) ->
  paste_byte (after_data x d) c = after_data (paste_byte x c) d.
Proof.
  intros Hr Hk Hr'. unfold after_data. rewrite (append_fits x d k Hr Hk), (append_fits (paste_byte x c) d k Hr' Hk).
  change (paste_discarding (dec (paste_byte x c))) with (paste_discarding (dec x)).
  by destruct (bool_decide (d = []) || paste_discarding (dec x)).
Qed.

Lemma room_paste_byte x c b rest d0 d0' k : pending (dec x) = b :: rest ->
  settle_candidate (paste_end_sequence (dec x)) (paste_candidate (dec x) ++ [b]) d0 = (c, d0') ->
  room x (Z.of_nat (length d0) + k) -> room (paste_byte x c) (Z.of_nat (length d0') + k).
Proof.
  intros Hb Hs [H1 H2]. apply settle_candidate_length in Hs. rewrite length_app in Hs. simpl in Hs.
  split; [done|]. rewrite (pending_paste_byte x c b rest Hb). rewrite Hb in H2. cbn [length] in H2.
  change (paste_discarding (dec (paste_byte x c))) with (paste_discarding (dec x)).
  change (paste_bytes (dec (paste_byte x c))) with (paste_bytes (dec x)).
  change (paste_candidate (dec (paste_byte x c))) with c.
  change (limits (dec (paste_byte x c))) with (limits (dec x)). lia.
Qed.

Lemma after_data_fields x d :
  paste_end_sequence (dec (after_data x d)) = paste_end_sequence (dec x) /\
  paste_candidate (dec (after_data x d)) = paste_candidate (dec x) /\
  active_action_node (dec (after_data x d)) = active_action_node (dec x) /\
  input_trie (dec (after_data x d)) = input_trie (dec x) /\
  buffer (dec (after_data x d)) = buffer (dec x) /\ offset (dec (after_data x d)) = offset (dec x).
Proof. unfold after_data, append_paste_data. by repeat guard_goal. Qed.

Lemma stop_paste_leads x d d0 k : pending (dec x) = [] -> room x (Z.of_nat (length (d ++ d0)) + k) -> 0 <= k ->
  step_leads (stop_paste x (d ++ d0)) (stop_paste (after_data x d) d0).
Proof.
  intros Hp Hr Hk y Hy. destruct (after_data_app x d d0 k Hr Hk) as [S _].
  pose proof (after_data_pending x (d ++ d0)) as P1. pose proof (after_data_pending (after_data x d) d0) as P2.
  rewrite (after_data_pending x d) in P2. rewrite Hp in P1, P2.
  unfold stop_paste in *. set (v := after_data x d) in *. clearbody v. unfold after_data in S, P1, P2.
  destruct (append_paste_data x (d ++ d0)) as [w1 s1]. destruct (append_paste_data v d0) as [w2 s2].
  cbn [fst] in *. apply settles_from_nil in Hy; [|done]. subst y.
  exists w2. split; [|done]. by apply settles_from_nil.
Qed.

Lemma paste_all_merge n : forall x d d0 k, length (pending (dec x)) = n ->
  room x (Z.of_nat (length (d ++ d0)) + k) -> 0 <= k ->
  step_leads (paste_all x (d ++ d0)) (paste_all (after_data x d) d0).
Proof.
  induction n as [|n IH]; intros x d d0 k Hn Hr Hk.
  - assert (Hp : pending (dec x) = []) by by destruct (pending (dec x)).
    rewrite (paste_all_nil x) by done. rewrite (paste_all_nil (after_data x d)) by by rewrite after_data_pending.
    by eapply stop_paste_leads.
  - destruct (pending (dec x)) as [|b rest] eqn:Hb; [done|]. injection Hn as Hn.
    rewrite (paste_all_eq x _ b rest Hb), (paste_all_eq (after_data x d) _ b rest) by by rewrite after_data_pending.
    destruct (after_data_fields x d) as (E1 & E2 & _). rewrite E1, E2, settle_candidate_data.
    destruct (settle_candidate _ _ d0) as [c d0'] eqn:Es. cbn zeta.
    assert (Hr1 : room (paste_byte x c) (Z.of_nat (length (d ++ d0')) + k)).
    { rewrite length_app in Hr |- *. rewrite Nat2Z.inj_add in *.
      replace (Z.of_nat (length d) + Z.of_nat (length d0) + k) with (Z.of_nat (length d0) + (Z.of_nat (length d) + k)) in Hr by lia.
      pose proof (room_paste_byte x c b rest d0 d0' _ Hb Es Hr) as R. eapply room_weaken; [exact R|lia]. }
    assert (Hd : forall w m, room w (Z.of_nat (length (d ++ m)) + k) -> room w (Z.of_nat (length d) + k)).
    { intros w m R. eapply room_weaken; [exact R|]. rewrite length_app. lia. }
    rewrite (paste_byte_after_data x d c k) by eauto.
    case_bool_decide as Hend.
    + intros y Hy. destruct (after_data_app (paste_byte x c) d d0' k Hr1 Hk) as [S _].
      set (v := after_data (paste_byte x c) d) in *. clearbody v. unfold after_data in S.
      destruct (append_paste_data (paste_byte x c) (d ++ d0')) as [w1 s1].
      destruct (append_paste_data v d0') as [w2 s2]. cbn [fst settles_from] in *.
      exact (settles_sim _ _ y (sim_end_paste _ _ S) Hy).
    + apply (IH (paste_byte x c) d d0' k); [|done|done]. by rewrite (pending_paste_byte x c b rest Hb).
Qed.

(** A paste either ends within its input or collects all of it. *)
Lemma paste_append q n : forall w data k, length (pending (dec w)) = n -> offset_ok w ->
  room w (Z.of_nat (length data) + k) ->
  (exists w1 s, paste_all w data = (w1, s, CONSUMED) /\ paste_all (extend w q) data = (extend w1 q, s, CONSUMED)) \/
  (exists we de, pending (dec we) = [] /\ offset_ok we /\ paste_all w data = stop_paste we de /\
     paste_all (extend w q) data = paste_all (extend we q) de /\ room we (Z.of_nat (length de) + k) /\
     active_action_node (dec we) = active_action_node (dec w) /\ input_trie (dec we) = input_trie (dec w) /\
     paste_end_sequence (dec we) = paste_end_sequence (dec w)).
Proof.
  induction n as [|n IH]; intros w data k Hn Ho Hr.
  - right. assert (Hp : pending (dec w) = []) by by destruct (pending (dec w)).
    exists w, data. split_and!; try done. by apply paste_all_nil.
  - destruct (pending (dec w)) as [|b rest] eqn:Hb; [done|]. injection Hn as Hn.
    rewrite (paste_all_eq w _ b rest Hb), (paste_all_eq (extend w q) _ b (rest ++ q)) by by rewrite pending_extend, Hb.
    change (paste_end_sequence (dec (extend w q))) with (paste_end_sequence (dec w)).
    change (paste_candidate (dec (extend w q))) with (paste_candidate (dec w)).
    destruct (settle_candidate _ _ data) as [c d] eqn:Es. cbn zeta.
    change (paste_byte (extend w q) c) with (extend (paste_byte w c) q).
    case_bool_decide as Hend.
    + left. assert (E : append_paste_data (extend (paste_byte w c) q) d =
        let (x, s) := append_paste_data (paste_byte w c) d in (extend x q, s)).
      { unfold append_paste_data. cbn zeta. change (dec (extend (paste_byte w c) q)) with (dec (extend (paste_byte w c) q)).
        change (paste_discarding (dec (extend (paste_byte w c) q))) with (paste_discarding (dec (paste_byte w c))).
        guard_goal; [done|].
        change (limits (dec (extend (paste_byte w c) q))) with (limits (dec (paste_byte w c))).
        change (paste_bytes (dec (extend (paste_byte w c) q))) with (paste_bytes (dec (paste_byte w c))).
        by guard_goal. }
      rewrite E. destruct (append_paste_data (paste_byte w c) d) as [x s]. exists (end_paste x), s. split; [done|].
      unfold end_paste. change (paste_discarding (dec (extend x q))) with (paste_discarding (dec x)).
      by destruct (paste_discarding (dec x)).
    + destruct (IH (paste_byte w c) d k) as [(w1 & s & E1 & E2)|(we & de & P & O & E1 & E2 & R & A & T & Pe)].
      * by rewrite (pending_paste_byte w c b rest Hb).
      * apply (consume_offset_ok w 1 Ho). rewrite Hb. simpl. lia.
      * exact (room_paste_byte w c b rest data d k Hb Es Hr).
      * left. by exists w1, s.
      * right. exists we, de. by split_and!.
Qed.

Lemma extend_after_data w d q k : room w (Z.of_nat (length d) + k) -> 0 <= k ->
  room (extend w q) (Z.of_nat (length d) + 0) -> after_data (extend w q) d = extend (after_data w d) q.
Proof.
  intros Hr Hk Hr'. unfold after_data. rewrite (append_fits w d k Hr Hk), (append_fits (extend w q) d 0 Hr') by lia.
  change (paste_discarding (dec (extend w q))) with (paste_discarding (dec w)).
  by destruct (bool_decide (d = []) || paste_discarding (dec w)).
Qed.

Lemma room_extend w q k : offset_ok w -> room w (Z.of_nat (length q) + k) -> room (extend w q) k.
Proof.
  intros Ho [H1 H2]. split; [done|]. rewrite pending_extend, length_app by done.
  change (paste_discarding (dec (extend w q))) with (paste_discarding (dec w)).
  change (paste_bytes (dec (extend w q))) with (paste_bytes (dec w)).
  change (paste_candidate (dec (extend w q))) with (paste_candidate (dec w)).
  change (limits (dec (extend w q))) with (limits (dec w)). lia.
Qed.

(** ** Every step with more input *)

Lemma appends_bridged h w q : appends h w q ->
  (forall x, active_action_node (dec x) = active_action_node (dec w) -> input_trie (dec x) = input_trie (dec w) ->
     step_decoder x = h x) ->
  (forall x, pending (dec x) = [] -> exists s, h x = (x, s, NEED_MORE)) ->
  bridged (fst (fst (h w))) (h (extend w q)) q.
Proof.
  intros Ha Hstep Hnil. unfold appends in Ha. destruct (h w) as [[w1 s] [|]]; cbn [fst].
  - rewrite Ha. apply bridged_exact.
  - destruct Ha as (Ea & Et & Ho & ->). destruct (pending (dec (extend w1 q))) as [|b rest] eqn:Hb.
    + destruct (Hnil _ Hb) as [s' ->]. intros x ->. exists (extend w1 q). split; [by apply settles_nil|apply sim_refl].
    + apply bridged_step; [by rewrite Hb|]. rewrite Hstep by done.
      destruct (h (extend w1 q)) as [[x s'] r]. apply sim_step_intro, sim_refl.
Qed.

Lemma paste_bridge w q : dinv (dec w) -> active_protocol (dec w) = Some PASTE_BEGIN ->
  room w (Z.of_nat (length q)) ->
  bridged (fst (fst (capture_paste w))) (capture_paste (extend w q)) q.
Proof.
  intros H Hp Hr. unfold capture_paste. cbn zeta.
  change (paste_end_sequence (dec (extend w q))) with (paste_end_sequence (dec w)).
  case_bool_decide as Hend.
  { exact (bridged_exact (with_paste (abandon w (unknown_reason_event UnknownReasons.UNSUPPORTED_SEQUENCE))
      (paste_candidate (dec w)) false (paste_discarding (dec w)) (paste_bytes (dec w))) UNSUPPORTED q). }
  fold (paste_all w []). fold (paste_all (extend w q) []).
  destruct (paste_append q (length (pending (dec w))) w [] (Z.of_nat (length q)) eq_refl (inv_offset _ H) Hr)
    as [(w1 & s & E1 & E2)|(we & de & P & O & E1 & E2 & R & Ea & Et & Ee)].
  { rewrite E1, E2. apply bridged_exact. }
  assert (Hw1 : fst (fst (paste_all w [])) = after_data we de)
    by (rewrite E1; unfold stop_paste, after_data; by destruct (append_paste_data we de)).
  rewrite Hw1, E2.
  assert (Rx : room (extend we q) (Z.of_nat (length (de ++ [])) + 0)).
  { apply room_extend; [done|]. rewrite app_nil_r. eapply room_weaken; [exact R|lia]. }
  assert (Rd : room (extend we q) (Z.of_nat (length de) + 0)) by (by rewrite app_nil_r in Rx).
  pose proof (paste_all_merge _ (extend we q) de [] 0 eq_refl Rx ltac:(lia)) as L. rewrite app_nil_r in L.
  rewrite (extend_after_data we de q (Z.of_nat (length q)) R ltac:(lia) Rd) in L.
  set (w1 := after_data we de) in *.
  intros x Hx. destruct (L x Hx) as (y & Hy & S). exists y. split; [|done].
  destruct (pending (dec (extend w1 q))) as [|b rest] eqn:Hb.
  - rewrite (paste_all_nil _ _ Hb) in Hy. unfold stop_paste, append_paste_data in Hy. cbn in Hy. subst y.
    by apply settles_nil.
  - apply settles_iff; [by rewrite Hb|]. unfold step_decoder, advance_active_action. cbn zeta.
    destruct (after_data_fields we de) as (F1 & F2 & F3 & F4 & _). fold w1 in F1, F2, F3, F4.
    assert (Hap : active_protocol (dec (extend w1 q)) = Some PASTE_BEGIN).
    { rewrite <- Hp. unfold active_protocol. change (active_action_node (dec (extend w1 q))) with (active_action_node (dec w1)).
      change (input_trie (dec (extend w1 q))) with (input_trie (dec w1)). by rewrite F3, F4, Ea, Et. }
    rewrite Hap. change (active_action_node (dec (extend w1 q))) with (active_action_node (dec w1)). rewrite F3, Ea.
    unfold active_protocol in Hp. destruct (active_action_node (dec w)); [|done].
    unfold capture_paste. cbn zeta. change (paste_end_sequence (dec (extend w1 q))) with (paste_end_sequence (dec w1)).
    rewrite F1, Ee. rewrite bool_decide_false by done. exact Hy.
Qed.

Lemma active_bridge w q : dinv (dec w) -> active_action_node (dec w) <> None -> pending (dec w) <> [] ->
  room w (Z.of_nat (length q)) ->
  bridged (fst (fst (advance_active_action w))) (advance_active_action (extend w q)) q.
Proof.
  intros H Ha Hp Hr. pose proof (inv_offset _ H) as Ho.
  assert (Hgo : forall h p, active_protocol (dec w) = Some p ->
    (forall x, active_protocol (dec x) = Some p -> advance_active_action x = h x) ->
    appends h w q -> (forall x, pending (dec x) = [] -> exists s, h x = (x, s, NEED_MORE)) ->
    bridged (fst (fst (advance_active_action w))) (advance_active_action (extend w q)) q).
  { intros h p Ep Hh Happ Hnil. rewrite (Hh w), (Hh (extend w q)) by done.
    apply appends_bridged; [done| |done]. intros x Ea Et. unfold step_decoder. rewrite Ea.
    destruct (active_action_node (dec w)) eqn:E; [|done]. apply Hh. unfold active_protocol in Ep |- *. by rewrite Ea, Et, E in *. }
  assert (Hbad : bridged (reset_active_action w) (reset_active_action (extend w q), INVALID_ARGUMENT, CONSUMED) q)
    by exact (bridged_exact (reset_active_action w) INVALID_ARGUMENT q).
  destruct (active_protocol (dec w)) as [p|] eqn:Ep.
  2: { unfold advance_active_action. cbn zeta. change (active_protocol (dec (extend w q))) with (active_protocol (dec w)).
       by rewrite Ep. }
  destruct p.
  - unfold advance_active_action. cbn zeta. change (active_protocol (dec (extend w q))) with (active_protocol (dec w)).
    rewrite Ep. apply (text_bridge w q Ho Hp). intros x b rest Hb Hts Et Ea Ec.
    unfold step_decoder, advance_active_action. cbn zeta.
    assert (Ex : active_protocol (dec x) = Some TEXT) by (rewrite <- Ep; unfold active_protocol; by rewrite Ea, Et).
    rewrite Ex, Ea. by destruct (active_action_node (dec w)).
  - apply (Hgo parse_alt_key ESCAPE); [done| |by apply parse_alt_key_appends|].
    + intros x E. unfold advance_active_action. by rewrite E.
    + intros x E. exists OK. unfold parse_alt_key. by rewrite E.
  - apply (Hgo ss3_all SS3); [done| |by eapply ss3_appends|].
    + intros x E. unfold advance_active_action. by rewrite E.
    + intros x E. exists OK. unfold ss3_all. by rewrite E.
  - apply (Hgo (csi_all false) CSI); [done| |by eapply csi_appends|].
    + intros x E. unfold advance_active_action. by rewrite E.
    + intros x E. exists OK. unfold csi_all. by rewrite E.
  - apply (Hgo (osc_all false) OSC); [done| |by eapply osc_appends|].
    + intros x E. unfold advance_active_action. by rewrite E.
    + intros x E. exists OK. unfold osc_all. by rewrite E.
  - apply (Hgo (st_all ResponseKinds.DEVICE_CONTROL_STRING) DEVICE_CONTROL_STRING); [done| |by eapply st_appends|].
    + intros x E. unfold advance_active_action. by rewrite E.
    + intros x E. exists OK. unfold st_all. by rewrite E.
  - apply (Hgo (st_all ResponseKinds.OPERATING_SYSTEM_COMMAND) APPLICATION_PROGRAM_COMMAND); [done| |by eapply st_appends|].
    + intros x E. unfold advance_active_action. by rewrite E.
    + intros x E. exists OK. unfold st_all. by rewrite E.
  - apply (Hgo (st_all ResponseKinds.OPERATING_SYSTEM_COMMAND) PRIVACY_MESSAGE); [done| |by eapply st_appends|].
    + intros x E. unfold advance_active_action. by rewrite E.
    + intros x E. exists OK. unfold st_all. by rewrite E.
  - apply (Hgo (csi_all true) SGR_MOUSE); [done| |by eapply csi_appends|].
    + intros x E. unfold advance_active_action. by rewrite E.
    + intros x E. exists OK. unfold csi_all. by rewrite E.
  - apply (Hgo (osc_all true) OSC52); [done| |by eapply osc_appends|].
    + intros x E. unfold advance_active_action. by rewrite E.
    + intros x E. exists OK. unfold osc_all. by rewrite E.
  - unfold advance_active_action. cbn zeta. change (active_protocol (dec (extend w q))) with (active_protocol (dec w)).
    rewrite Ep. by apply paste_bridge.
  - unfold advance_active_action. cbn zeta. change (active_protocol (dec (extend w q))) with (active_protocol (dec w)).
    by rewrite Ep.
Qed.

Lemma step_bridge w q : dinv (dec w) -> text_keys (input_trie (dec w)) -> pending (dec w) <> [] ->
  room w (Z.of_nat (length q)) ->
  bridged (fst (fst (step_decoder w))) (step_decoder (extend w q)) q.
Proof.
  intros H Ht Hp Hr. unfold step_decoder.
  change (active_action_node (dec (extend w q))) with (active_action_node (dec w)).
  destruct (active_action_node (dec w)) eqn:Ha.
  - apply active_bridge; [done|by rewrite Ha|done|done].
  - apply advance_trie_bridge; [done..| |].
    + rewrite length_drop. lia.
    + rewrite pending_extend by apply H. rewrite length_drop. lia.
Qed.

(** ** Room is kept *)

Definition same_paste (w w' : World) : Prop :=
  paste_candidate (dec w') = paste_candidate (dec w) /\ paste_discarding (dec w') = paste_discarding (dec w) /\
  paste_bytes (dec w') = paste_bytes (dec w).

Definition fresh_paste (w : World) : Prop :=
  paste_candidate (dec w) = [] /\ paste_discarding (dec w) = false /\ paste_bytes (dec w) = 0.

Lemma quiet_same_paste w w' : quiet w w' -> same_paste w w'.
Proof. intros Q. split_and!; [apply (qt_candidate _ _ Q)|apply (qt_discarding _ _ Q)|apply (qt_bytes _ _ Q)]. Qed.

Lemma room_same w w' k : same_paste w w' -> limits (dec w') = limits (dec w) ->
  (length (pending (dec w')) <= length (pending (dec w)))%nat -> room w k -> room w' k.
Proof. intros (E1 & E2 & E3) El Hl [H1 H2]. unfold room. rewrite E1, E2, E3, El. split; [done|]. lia. Qed.

Lemma room_fresh w w' k : fresh_paste w' -> limits (dec w') = limits (dec w) ->
  (length (pending (dec w')) <= length (pending (dec w)))%nat -> room w k -> room w' k.
Proof.
  intros (E1 & E2 & E3) El Hl [H1 H2]. unfold room. rewrite E1, E2, E3, El. cbn [length].
  split; [lia|]. destruct (paste_discarding (dec w)); lia.
Qed.

Lemma good_shrinks w w' status r : good w (w', status, r) ->
  limits (dec w') = limits (dec w) /\ (length (pending (dec w')) <= length (pending (dec w)))%nat.
Proof.
  intros (_ & F & M & _). split; [apply F|]. unfold measure, active_weight in M. repeat case_match; lia.
Qed.

Lemma same_paste_trans w1 w2 w3 : same_paste w1 w2 -> same_paste w2 w3 -> same_paste w1 w3.
Proof. intros (A1 & A2 & A3) (B1 & B2 & B3). split_and!; congruence. Qed.

Lemma execute_paste w i n : let w' := fst (fst (execute_action w i n)) in same_paste w w' \/ fresh_paste w'.
Proof.
  unfold execute_action. destruct (value _) as [|e|p]; [by left|by left|].
  assert (Henter : same_paste w (enter_protocol w i n p) \/ fresh_paste (enter_protocol w i n p))
    by (destruct p; try (by left); by right).
  destruct p; try exact Henter. left.
  pose proof (quiet_same_paste _ _ (quiet_parse_text (reset_trie_cursor w))) as Q.
  by destruct (parse_text _).
Qed.

Lemma advance_trie_paste_fields fuel : forall w,
  let w' := fst (fst (advance_trie fuel w)) in same_paste w w' \/ fresh_paste w'.
Proof.
  induction fuel as [|fuel IH]; intros w; cbn [advance_trie]; [by left|].
  destruct (drop _ _) as [|b rest]; [by left|].
  destruct (find_child Inert _ _ b) as [child|].
  - set (w1 := with_cursor w _). change (same_paste w) with (same_paste w1).
    guard_goal; [apply execute_paste|]. guard_goal; [by left|]. apply IH.
  - destruct (last_match _); [apply execute_paste|]. guard_goal; [by left|]. guard_goal; [apply execute_paste|by left].
Qed.

Lemma room_after_data w data k : room w (Z.of_nat (length data) + k) -> 0 <= k -> room (after_data w data) k.
Proof.
  intros Hr Hk. pose proof (after_data_app w data [] k ltac:(by rewrite app_nil_r) Hk) as [_ R].
  eapply room_weaken; [exact R|]. cbn. lia.
Qed.

Lemma room_end_paste w k : room w k -> room (end_paste w) k.
Proof.
  intros Hr. assert (E : end_paste w = reset_active_action (with_paste
    (if paste_discarding (dec w) then w else emit w (paste_event PastePhases.END [])) [] false false 0)) by done.
  apply (room_fresh w); [done| | |done]; rewrite E; by destruct (paste_discarding (dec w)).
Qed.

Lemma room_paste_all n : forall w data k, length (pending (dec w)) = n ->
  room w (Z.of_nat (length data) + k) -> 0 <= k -> room (fst (fst (paste_all w data))) k.
Proof.
  induction n as [|n IH]; intros w data k Hn Hr Hk.
  - rewrite paste_all_nil by by destruct (pending (dec w)).
    pose proof (room_after_data w data k Hr Hk) as R. unfold after_data in R. unfold stop_paste.
    by destruct (append_paste_data w data).
  - destruct (pending (dec w)) as [|b rest] eqn:Hb; [done|]. injection Hn as Hn.
    rewrite (paste_all_eq w _ b rest Hb). destruct (settle_candidate _ _ data) as [c d] eqn:Es. cbn zeta.
    pose proof (room_paste_byte w c b rest data d k Hb Es Hr) as R.
    case_bool_decide.
    + pose proof (room_after_data _ d k R Hk) as R2. unfold after_data in R2.
      destruct (append_paste_data _ d). by apply room_end_paste.
    + apply IH; [by rewrite (pending_paste_byte w c b rest Hb)|done|done].
Qed.

Lemma room_step w k : dinv (dec w) -> pending (dec w) <> [] -> 0 <= k -> room w k ->
  room (fst (fst (step_decoder w))) k.
Proof.
  intros H Hp Hk Hr. pose proof (step_decoder_good w H Hp) as Hg.
  assert (Hcase : same_paste w (fst (fst (step_decoder w))) \/ fresh_paste (fst (fst (step_decoder w))) -> room (fst (fst (step_decoder w))) k).
  { destruct (step_decoder w) as [[w1 s] r]. apply good_shrinks in Hg as [El Hl]. cbn [fst].
    intros [S|F]; [by eapply room_same|by eapply room_fresh]. }
  revert Hcase. clear Hg. unfold step_decoder.
  destruct (active_action_node (dec w)); [|intros Hcase; apply Hcase, advance_trie_paste_fields].
  intros Hcase. assert (Hq : forall s, advance_active_action w = s -> quiet_step w s -> room (fst (fst (advance_active_action w))) k).
  { intros s E Q. apply Hcase. left. rewrite E. by apply quiet_same_paste. }
  clear Hcase. unfold advance_active_action in *. cbn zeta in *.
  assert (Hpaste : room (fst (fst (capture_paste w))) k).
  { unfold capture_paste. cbn zeta. case_bool_decide; [by apply (room_same w)|by apply (room_paste_all _ w [] k eq_refl)]. }
  destruct (active_protocol (dec w)) as [[]|]; try exact Hpaste; (eapply Hq; [reflexivity|]).
  - pose proof (quiet_parse_text w) as Q. by destruct (parse_text w).
  - apply quiet_parse_alt_key.
  - apply quiet_capture_ss3.
  - apply quiet_capture_csi.
  - apply quiet_capture_osc.
  - apply quiet_capture_st_string.
  - apply quiet_capture_st_string.
  - apply quiet_capture_st_string.
  - apply quiet_capture_csi.
  - apply quiet_capture_osc.
  - apply (quiet_same _ _ []); [done..|by right|by rewrite app_nil_r|done].
  - apply (quiet_same _ _ []); [done..|by right|by rewrite app_nil_r|done].
Qed.

(** ** Streams *)

Lemma settles_keeps w w' k : dinv (dec w) -> 0 <= k -> room w k -> settles w w' ->
  room w' k /\ dinv (dec w') /\ frame w w'.
Proof.
  intros H Hk Hr (fuel & e & s & E). revert w e H Hr E.
  induction fuel as [|fuel IH]; intros w e H Hr; cbn [process_loop];
    destruct (pending (dec w)) as [|b rest] eqn:Hb; try done;
    [by intros [= <- _]; auto with puc|by intros [= <- _]; auto with puc|].
  assert (Hp : pending (dec w) <> []) by by rewrite Hb.
  pose proof (step_decoder_good w H Hp) as Hg. pose proof (room_step w k H Hp Hk Hr) as R.
  destruct (step_decoder w) as [[w1 s1] r]. destruct Hg as (H1 & F1 & _). cbn [fst] in R.
  destruct r; [|by intros [= <- _]].
  intros E. destruct (IH w1 _ H1 R E) as (R' & H' & F'). split_and!; [done..|by eapply frame_trans].
Qed.

Lemma settle_append m : forall w q w' x, (measure w <= m)%nat -> dinv (dec w) -> text_keys (input_trie (dec w)) ->
  room w (Z.of_nat (length q)) -> settles w w' -> settles (extend w q) x ->
  exists y, settles (extend w' q) y /\ sim x y.
Proof.
  induction m as [|m IH]; intros w q w' x Hm H Ht Hr Hs Hx;
    destruct (pending (dec w)) as [|b rest] eqn:Hb;
    try (rewrite (settles_unique _ _ _ Hs (settles_nil w Hb)); exists x; split; [done|apply sim_refl]).
  { unfold measure in Hm. rewrite Hb in Hm. simpl in Hm. lia. }
  assert (Hp : pending (dec w) <> []) by by rewrite Hb.
  pose proof (step_bridge w q H Ht Hp Hr) as B. pose proof (step_decoder_good w H Hp) as Hg.
  pose proof (room_step w (Z.of_nat (length q)) H Hp (Nat2Z.is_nonneg _) Hr) as R.
  apply settles_iff in Hx; [|rewrite pending_extend, Hb by apply H; done].
  destruct (B x Hx) as (y1 & Hy1 & S1).
  apply settles_iff in Hs; [|done]. destruct (step_decoder w) as [[w1 s1] r].
  destruct Hg as (H1 & F1 & _ & Hdec). cbn [fst] in *. destruct r; cbn [settles_from] in Hs.
  - specialize (Hdec eq_refl).
    destruct (IH w1 q w' y1) as (y & Hy & S); [lia|done|by rewrite (fr_trie _ _ F1)|done|done|done|].
    exists y. split; [done|by eapply sim_trans].
  - subst w'. by exists y1.
Qed.

Definition settled (w : World) : Prop := exists y, settles w y /\ sim w y.

Lemma settled_result w w' : dinv (dec w) -> text_keys (input_trie (dec w)) -> room w 0 -> settles w w' -> settled w'.
Proof.
  intros H Ht Hr Hs. destruct (settles_keeps w w' 0 H ltac:(lia) Hr Hs) as (R' & H' & _).
  destruct (settles_sim w (extend w []) w' (sim_extend_nil w (inv_offset _ H)) Hs) as (x & Hx & Sx).
  destruct (settle_append _ w [] w' x (le_n _) H Ht ltac:(cbn; done) Hs Hx) as (y & Hy & Sy).
  destruct (settles_sim (extend w' []) w' y) as (z & Hz & Sz);
    [apply sim_sym, sim_extend_nil, H'|done|].
  exists z. split; [done|]. eapply sim_trans; [exact Sx|]. by eapply sim_trans.
Qed.

(** One feed within the limits. *)
Lemma feed_settles w a k : dinv (dec w) -> 0 <= k -> room w (Z.of_nat (length a) + k) ->
  pending_bytes (dec w) + Z.of_nat (length a) <= maximum_pending_bytes (limits (dec w)) ->
  exists w' P, decoder_call w (CallFeed a) = Some w' /\ settles (extend (compact w) a) P /\ sim P w' /\
    dinv (dec w') /\ room w' k /\ limits (dec w') = limits (dec w) /\ input_trie (dec w') = input_trie (dec w) /\
    pending_bytes (dec w') <= pending_bytes (dec w) + Z.of_nat (length a).
Proof.
  intros H Hk Hr Hl. destruct (compact_ok w H) as [Hc Fc]. set (w1 := compact w) in *.
  destruct (append_ok w1 a Hc) as (Ha & Pa & Ba). fold (extend w1 a) in Ha, Pa, Ba.
  pose proof (sim_compact w) as Sc. fold w1 in Sc.
  assert (R1 : room (extend w1 a) k).
  { apply room_extend; [apply Hc|]. destruct Hr as [Hr1 Hr2]. split; sim_fields Sc; done. }
  destruct (process_total (extend w1 a) Ha) as (P & s & E & HP & FP).
  assert (Hs : settles (extend w1 a) P) by (by do 3 eexists).
  destruct (settles_keeps _ _ k Ha Hk R1 Hs) as (RP & _ & _).
  destruct (compact_ok P HP) as [H2 F2].
  pose proof (update_timeout_ok (compact P) (negb (bool_decide (a = []))) H2) as K2.
  set (w' := update_pending_timeout (compact P) (negb (bool_decide (a = [])))) in *.
  assert (Sw : sim P w') by (eapply sim_trans; [apply sim_compact|apply sim_update_timeout]).
  assert (Hfeed : feed w a = Some (w', s)).
  { unfold feed. cbn zeta. fold w1. fold (extend w1 a).
    rewrite (proj2 (Z.ltb_ge _ _)); [by rewrite E|].
    assert (Hp : pending_bytes (dec w1) = pending_bytes (dec w)) by (unfold pending_bytes; sim_fields Sc; done).
    rewrite Hp, (fr_limits _ _ Fc). lia. }
  exists w', P. split_and!; [by cbn [decoder_call]; rewrite Hfeed|done|done|by apply K2| | | |].
  - destruct RP as [R2 R3]. split; sim_fields Sw; done.
  - rewrite (sim_limits _ _ Sw), (fr_limits _ _ FP). apply Fc.
  - rewrite (sim_trie _ _ Sw), (fr_trie _ _ FP). apply Fc.
  - assert (Hp : pending_bytes (dec w') = pending_bytes (dec P)) by (unfold pending_bytes; sim_fields Sw; done).
    rewrite Hp. pose proof (fr_total _ _ FP) as T1. pose proof (fr_total _ _ Fc) as T2. lia.
Qed.

Lemma sim_extend_app w a b : offset_ok w -> sim (extend w (a ++ b)) (extend (extend (compact w) a) b).
Proof.
  intros Ho. assert (Oc : offset_ok (compact w)) by (unfold offset_ok; rewrite compact_offset; lia).
  assert (O1 : offset_ok (extend (compact w) a)) by (unfold offset_ok, extend in *; wsimp; rewrite length_app; lia).
  pose proof (sim_compact w) as S. split; try (destruct S; done).
  rewrite !pending_extend, app_assoc by done. by rewrite (sim_pending _ _ S).
Qed.

(** Feeding the pieces one by one ends where their concatenation does. *)
Lemma feeds_settle chunks : forall w x, dinv (dec w) -> text_keys (input_trie (dec w)) -> settled w ->
  room w (Z.of_nat (length (concat chunks))) ->
  pending_bytes (dec w) + Z.of_nat (length (concat chunks)) <= maximum_pending_bytes (limits (dec w)) ->
  settles (extend w (concat chunks)) x ->
  exists w', run_decoder w (map CallFeed chunks) = Some w' /\ sim x w'.
Proof.
  induction chunks as [|a chunks IH]; intros w x H Ht Hset Hr Hl Hx; cbn [concat map run_decoder].
  - exists w. split; [done|]. destruct Hset as (y & Hy & Sy).
    destruct (settles_sim (extend w []) w x) as (z & Hz & Sz); [apply sim_sym, sim_extend_nil, H|exact Hx|].
    rewrite (settles_unique _ _ _ Hz Hy) in Sz. eapply sim_trans; [exact Sz|]. by apply sim_sym.
  - cbn [concat] in Hr, Hl, Hx. rewrite length_app, Nat2Z.inj_add in Hr, Hl.
    destruct (feed_settles w a (Z.of_nat (length (concat chunks))) H ltac:(lia) Hr ltac:(lia))
      as (w1 & P & E & Hs & S1 & H1 & R1 & L1 & T1 & B1).
    destruct (compact_ok w H) as [Hc Fc]. destruct (append_ok (compact w) a Hc) as (Ha & _).
    fold (extend (compact w) a) in Ha.
    assert (Ht1 : text_keys (input_trie (dec (extend (compact w) a))))
      by (change (input_trie (dec (extend (compact w) a))) with (input_trie (dec (compact w))); by rewrite (fr_trie _ _ Fc)).
    assert (Ra : room (extend (compact w) a) (Z.of_nat (length (concat chunks)))).
    { apply room_extend; [apply Hc|]. pose proof (sim_compact w) as Sc. destruct Hr as [Hr1 Hr2].
      split; sim_fields Sc; done. }
    destruct (settles_sim (extend w (a ++ concat chunks)) (extend (extend (compact w) a) (concat chunks)) x
                (sim_extend_app w a (concat chunks) (inv_offset _ H)) Hx) as (x1 & Hx1 & Sx1).
    destruct (settle_append _ (extend (compact w) a) (concat chunks) P x1 (le_n _) Ha Ht1 Ra Hs Hx1) as (y & Hy & Sy).
    assert (R0 : room (extend (compact w) a) 0) by (eapply room_weaken; [exact Ra|lia]).
    destruct (settles_keeps (extend (compact w) a) P 0 Ha ltac:(lia) R0 Hs) as (_ & HP & _).
    destruct (settles_sim (extend P (concat chunks)) (extend w1 (concat chunks)) y) as (z & Hz & Sz);
      [by apply sim_extend; [exact S1|apply HP|apply H1]|exact Hy|].
    assert (Hset1 : settled w1).
    { destruct (settled_result (extend (compact w) a) P Ha Ht1 R0 Hs) as (v & Hv & Sv).
      destruct (settles_sim P w1 v S1 Hv) as (v' & Hv' & Sv'). exists v'. split; [done|].
      eapply sim_trans; [apply sim_sym; exact S1|]. by eapply sim_trans. }
    rewrite E. cbn [mbind option_bind].
    destruct (IH w1 z) as (w' & Ew & Sw); [done|by rewrite T1|done|done|rewrite L1; lia|done|].
    exists w'. split; [done|]. eapply sim_trans; [exact Sx1|]. eapply sim_trans; [exact Sy|]. by eapply sim_trans.
Qed.

(** ** Whole streams *)

(** Every mapped sequence starts with a control byte, as a check on the
    children of the root. *)
Definition control_keys (t : InputTrie) : bool :=
  forallb (fun c => let b := key (node Inert t c) in (b =? kEscape) || (b <? 0x20) || (b =? 0x7f))
          (children (node Inert t kRootNode)).

Lemma control_keys_ok t : trie_ok t -> control_keys t = true -> text_keys t.
Proof.
  intros H Hc b Hb. destruct (find_child Inert t kRootNode b) as [c|] eqn:E; [|done].
  apply (find_child_some Inert t _ _ _ (ok_wf _ H)) in E as (_ & Hin & <-).
  unfold control_keys in Hc. rewrite forallb_forall in Hc.
  specialize (Hc c (proj1 (list_elem_of_In _ _) Hin)). unfold text_start. cbn zeta in Hc. by rewrite Hc.
Qed.

(** From a decoder that has nothing pending. *)
Lemma feeds_settle_whole w chunks : dinv (dec w) -> text_keys (input_trie (dec w)) -> pending (dec w) = [] ->
  room w (Z.of_nat (length (concat chunks))) ->
  pending_bytes (dec w) + Z.of_nat (length (concat chunks)) <= maximum_pending_bytes (limits (dec w)) ->
  exists whole parts, run_decoder w [CallFeed (concat chunks)] = Some whole /\
    run_decoder w (map CallFeed chunks) = Some parts /\ sim whole parts.
Proof.
  intros H Ht Hp Hr Hl.
  destruct (feed_settles w (concat chunks) 0 H (Z.le_refl 0) ltac:(by rewrite Z.add_0_r) Hl)
    as (whole & P & E & Hs & S & _).
  pose proof (sim_extend_app w (concat chunks) [] (inv_offset _ H)) as Sx. rewrite app_nil_r in Sx.
  destruct (compact_ok w H) as [Hc _]. destruct (append_ok (compact w) (concat chunks) Hc) as (Ha & _).
  assert (S0 : sim (extend (compact w) (concat chunks)) (extend w (concat chunks))).
  { apply sim_sym. eapply sim_trans; [exact Sx|]. apply sim_sym, sim_extend_nil, Ha. }
  destruct (settles_sim _ _ P S0 Hs) as (x & Hx & S1).
  destruct (feeds_settle chunks w x H Ht) as (parts & Ep & Sp); [|done|done|done|].
  { exists w. split; [by apply settles_nil|apply sim_refl]. }
  exists whole, parts. split; [cbn [run_decoder]; by rewrite E|]. split; [done|].
  eapply sim_trans; [apply sim_sym; exact S|]. by eapply sim_trans.
Qed.
