(* ===== verification/DecoderProps.v ===== *)
(** * Properties of the input decoder *)
From S2P Require Import Prelude.
From S2P Require Import Text.
From S2P Require Import Events.
From S2P Require Import Trie.
From S2P Require Import Clipboard.
From S2P Require Import KeyProtocol.
From S2P Require Import InputMap.
From S2P Require Import Decoder.
From S2P Require Import DecoderInvariant.
From S2P Require Import DecoderText.
From S2P Require Import Utf8.
From S2P Require Import DecoderText.
From S2P Require Import DecoderChunks.
From S2P Require Import DecoderChunks.
Open Scope Z_scope.

(** The calls that build the sample configuration. *)
Definition sample_mapping : list MapCall :=
  map (fun row => RegisterSequence row.1 row.2) sample_rows.

Definition sample_configured : Decoder := configured_decoder (run_map sample_mapping) default_limits.

Lemma find_plain_trie (t : InputTrie) :
  forallb (fun n => match value n with EmitInputEvent (EPaste _) => false | _ => true end) t = true ->
  plain_trie t.
Proof.
  intros H i e He. unfold trie_node, node in He. destruct (t !! i) as [n|] eqn:E; [|done].
  rewrite forallb_forall in H. cbn in He. specialize (H n (proj1 (list_elem_of_In _ _) (list_elem_of_lookup_2 _ _ _ E))).
  rewrite He in H. by destruct e.
Qed.

Lemma sample_paste_map : paste_map sample_mapping.
Proof.
  split.
  - repeat constructor.
  - intros i Hi. assert (E : find_child Inert (trie_ (run_map sample_mapping)) kRootNode kEscape = Some 1%nat)
      by (vm_compute; reflexivity).
    rewrite E in Hi. injection Hi as <-. by vm_compute.
  - by vm_compute.
Qed.

(** C2. Whatever mappings are loaded and whatever is fed, timed out, finished
    or reset, every call returns: the loop of [process] ends within two
    iterations per pending byte. *)
Theorem decoder_terminates (mapping : list MapCall) (l : DecoderLimits) (calls : list DecoderCall) :
  0 <= maximum_pending_bytes l ->
  exists w, run_decoder (new_world (configured_decoder (run_map mapping) l)) calls = Some w.
Proof.
  intros Hl. destruct (run_decoder_total calls (new_world (configured_decoder (run_map mapping) l))) as (w & E & _).
  - apply configured_dinv.
  - cbn. unfold positive_limit. guard_goal; lia.
  - by exists w.
Qed.

Lemma decoder_terminates_witness :
  exists w, run_decoder (new_world sample_configured)
    [CallFeed (esc "[1"); CallTimeout 1; CallFeed (str "ab"); CallFinish] = Some w.
Proof. apply (decoder_terminates sample_mapping default_limits). vm_compute. discriminate. Defined.

(** The bytes a decoder retains between calls (unprocessed input, the
    captured sequence and the candidate end of a paste) never exceed its
    limit, and the read offset never passes the end of the buffer. *)
Theorem decoder_retention_bounded (mapping : list MapCall) (l : DecoderLimits) (calls : list DecoderCall) w :
  0 <= maximum_pending_bytes l ->
  run_decoder (new_world (configured_decoder (run_map mapping) l)) calls = Some w ->
  pending_bytes (dec w) <= positive_limit (maximum_pending_bytes l) /\
  (offset (dec w) <= length (buffer (dec w)))%nat.
Proof.
  intros Hl Hr. destruct (run_decoder_total calls (new_world (configured_decoder (run_map mapping) l))) as (w' & E & K).
  - apply configured_dinv.
  - cbn. unfold positive_limit. guard_goal; lia.
  - rewrite E in Hr. injection Hr as ->. split; [|by apply K].
    pose proof (kept_bounded _ _ K) as Hb. unfold bounded in Hb. rewrite (kept_limits _ _ K) in Hb.
    apply Hb. unfold bounded, pending_bytes. cbn. unfold positive_limit. guard_goal; lia.
Qed.

Lemma decoder_retention_bounded_witness :
  exists w, run_decoder (new_world sample_configured) [CallFeed (esc "[1;")] = Some w /\
    pending_bytes (dec w) <= 2097152 /\ pending_bytes (dec w) = 4.
Proof.
  eexists. split; [vm_compute; reflexivity|]. split; [|by vm_compute].
  refine (proj1 (decoder_retention_bounded sample_mapping default_limits [CallFeed (esc "[1;")] _ _ _)).
  - vm_compute. discriminate.
  - vm_compute. reflexivity.
Defined.

(** An input block that would exceed the pending limit is rejected as a
    whole: one LIMIT_EXCEEDED event, its status, and nothing of the block or
    of the decoder's protocol state changes. *)
Theorem feed_limit_rejects (w : World) (input : bytes) :
  maximum_pending_bytes (limits (dec w)) - Z.min (pending_bytes (dec w)) (maximum_pending_bytes (limits (dec w)))
    < Z.of_nat (length input) ->
  (offset (dec w) <= length (buffer (dec w)))%nat ->
  exists w', feed w input = Some (w', INPUT_LIMIT_EXCEEDED) /\
    events w' = events w ++ [EUnknown {| unknown_reason := UnknownReasons.LIMIT_EXCEEDED; unknown_bytes := [] |}] /\
    pending (dec w') = pending (dec w) /\ offset (dec w') = 0%nat /\
    dec w' = dec (with_input w (pending (dec w)) 0).
Proof.
  intros Hlimit Ho.
  assert (Hc : dec (compact w) = dec (with_input w (pending (dec w)) 0)).
  { unfold compact. guard_goal; [|guard_goal].
    - bool_to_prop. unfold pending, with_input. rewrite G. cbn. destruct (dec w). cbn in *. by subst.
    - bool_to_prop. unfold pending. rewrite G0. by rewrite drop_all.
    - done. }
  unfold feed. cbn zeta.
  assert (Hp : pending_bytes (dec (compact w)) = pending_bytes (dec w)) by by rewrite Hc.
  assert (Hl : limits (dec (compact w)) = limits (dec w)) by by rewrite Hc.
  rewrite Hp, Hl, (proj2 (Z.ltb_lt _ _)) by done.
  eexists. split; [done|]. split_and!.
  - unfold compact. by repeat guard_goal.
  - change (pending (dec (compact w)) = pending (dec w)). by rewrite Hc.
  - apply compact_offset.
  - exact Hc.
Qed.

Lemma feed_limit_rejects_witness :
  let d := configured_decoder (run_map sample_mapping)
             {| maximum_pending_bytes := 3; maximum_sequence_bytes := 4096; maximum_paste_bytes := 16;
                maximum_clipboard_bytes := 16 |} in
  exists w', feed (new_world d) (str "abcd") = Some (w', INPUT_LIMIT_EXCEEDED).
Proof.
  destruct (feed_limit_rejects (new_world (configured_decoder (run_map sample_mapping)
             {| maximum_pending_bytes := 3; maximum_sequence_bytes := 4096; maximum_paste_bytes := 16;
                maximum_clipboard_bytes := 16 |})) (str "abcd")) as (w' & E & _).
  - vm_compute. reflexivity.
  - vm_compute. lia.
  - exists w'. exact E.
Defined.

(** C3. For every configuration that maps no sequence to a paste event of its own,
    leaves the end sequence of pastes defined and does not open a paste on a
    bare Escape, for every limit that is not negative, and for every history of
    feeds, timeouts and finishes (no reset), the paste events form BEGIN DATA*
    (END | CANCEL) brackets, and the last bracket is open exactly while a paste
    that was not cancelled is in progress.  Without the end sequence this fails:
    [paste_without_end_unclosed]. *)
Theorem decoder_paste_bracketed (mapping : list MapCall) (l : DecoderLimits) (calls : list DecoderCall) w :
  paste_map mapping -> 0 <= maximum_pending_bytes l -> Forall no_reset calls ->
  run_decoder (new_world (configured_decoder (run_map mapping) l)) calls = Some w ->
  paste_scan false (events w) = Some (paste_in_progress (dec w) && negb (paste_discarding (dec w))).
Proof.
  intros Hm Hl Hc Hr. destruct (run_paste_map mapping l calls w Hm Hl Hc Hr) as (_ & _ & I & _). apply I.
Qed.

Lemma decoder_paste_bracketed_witness :
  exists w, run_decoder (new_world sample_configured)
      [CallFeed (esc "[200~ab" ++ esc "[20"); CallTimeout 1; CallFeed (str "1~"); CallFeed (esc "[200~c")] = Some w /\
    paste_scan false (events w) = Some true.
Proof.
  eexists. split; [vm_compute; reflexivity|].
  refine (decoder_paste_bracketed sample_mapping default_limits
    [CallFeed (esc "[200~ab" ++ esc "[20"); CallTimeout 1; CallFeed (str "1~"); CallFeed (esc "[200~c")] _ _ _ _ _).
  - apply sample_paste_map.
  - vm_compute. discriminate.
  - repeat constructor.
  - vm_compute. reflexivity.
Defined.

(** Finishing an input stream leaves nothing: no pending byte, capture,
    paste or timeout remains, and every paste was closed. *)
Theorem finish_leaves_nothing (mapping : list MapCall) (l : DecoderLimits) (calls : list DecoderCall) w :
  paste_map mapping -> 0 <= maximum_pending_bytes l -> Forall no_reset calls ->
  run_decoder (new_world (configured_decoder (run_map mapping) l)) calls = Some w ->
  let w' := fst (finish w) in
  pending_bytes (dec w') = 0 /\ active_action_node (dec w') = None /\ paste_in_progress (dec w') = false /\
  pending_timeout (dec w') = None /\ paste_scan false (events w') = Some false.
Proof.
  intros Hm Hl Hc Hr. destruct (run_paste_map mapping l calls w Hm Hl Hc Hr) as (D & C & I & _).
  destruct (finish w) as [w' s] eqn:E. cbn [fst].
  destruct (finish_ok w w' s D E) as (_ & P & A & S & T).
  destruct (finish_paste_inv w w' s C I E) as [I' Hp].
  split_and!; [|done..|].
  - unfold pending_bytes. by rewrite P, S, (pi_candidate _ I' Hp).
  - by rewrite (pi_scan _ I'), Hp.
Qed.

Lemma finish_leaves_nothing_witness :
  exists w, run_decoder (new_world sample_configured) [CallFeed (esc "[200~ab" ++ esc "[2")] = Some w /\
    pending_bytes (dec w) = 3 /\ pending_bytes (dec (fst (finish w))) = 0.
Proof.
  eexists. split; [vm_compute; reflexivity|]. split; [by vm_compute|].
  refine (proj1 (finish_leaves_nothing sample_mapping default_limits [CallFeed (esc "[200~ab" ++ esc "[2")] _ _ _ _ _)).
  - apply sample_paste_map.
  - vm_compute. discriminate.
  - repeat constructor.
  - vm_compute. reflexivity.
Defined.

(** A paste whose end sequence is disabled is begun and never closed. *)
Theorem paste_without_end_unclosed :
  exists w, run_decoder (new_world (configured_decoder
      (run_map (sample_mapping ++ [DisableSequence (esc "[201~")])) default_limits))
      [CallFeed (esc "[200~ab"); CallFinish] = Some w /\
    events w = [EPaste {| paste_phase := PastePhases.BEGIN; paste_data := [] |};
                EUnknown {| unknown_reason := UnknownReasons.UNSUPPORTED_SEQUENCE; unknown_bytes := [] |};
                EText {| utf8 := str "ab" |}] /\
    paste_in_progress (dec w) = false /\ paste_scan false (events w) = Some true.
Proof. eexists. split; [vm_compute; reflexivity|]. by vm_compute. Qed.

(** The decoder's strict scalar reader accepts exactly the encodings of
    Unicode scalar values: a valid result is the scalar whose encoding starts
    the input, an invalid one means that no further bytes could make the input
    start with an encoding, and an incomplete one is shorter than four bytes
    and contains no whole encoding. *)
Theorem decode_scalar_exact (input : bytes) : Forall is_byte input ->
  match decode_scalar input with
  | VALID c n => scalar c /\ take n input = encode_utf8 [c]
  | INCOMPLETE => (length input < 4)%nat /\
      forall c rest, scalar c -> input <> encode_utf8 [c] ++ rest
  | INVALID => forall more c rest, scalar c -> input ++ more <> encode_utf8 [c] ++ rest
  end.
Proof.
  intros Hb. pose proof (decode_scalar_spec input Hb) as H.
  assert (E : forall c, scalar c -> encode_utf8 [c] = scalar_bytes c).
  { intros c Hc. rewrite encode_utf8_scalars by (by constructor). cbn. apply app_nil_r. }
  destruct (decode_scalar input) as [c n| |].
  - destruct H as [Hc Ht]. by rewrite E.
  - destruct H as [Hl Hn]. split; [done|]. intros c rest Hc. rewrite E by done. by apply Hn.
  - intros more c rest Hc. rewrite E by done. by apply H.
Qed.

Lemma decode_scalar_exact_witness :
  decode_scalar [0xe2; 0x82; 0xac; 0x41] = VALID 0x20ac 3 /\ scalar 0x20ac /\
  decode_scalar [0xed; 0xa0] = INCOMPLETE.
Proof.
  split; [by vm_compute|]. split; [|by vm_compute].
  exact (proj1 (decode_scalar_exact [0xe2; 0x82; 0xac; 0x41]
    ltac:(repeat constructor; unfold in_width; lia))).
Defined.

(** Untrusted bytes never become untrusted text: whatever bytes are fed, in
    whatever pieces and with whatever timeouts, every text event, and the text
    of every key event, is valid UTF-8 without Escape, C0 or DEL bytes. *)
Theorem decoder_text_valid (mapping : list MapCall) (l : DecoderLimits) (calls : list DecoderCall) w :
  Forall text_call mapping -> Forall byte_call calls ->
  run_decoder (new_world (configured_decoder (run_map mapping) l)) calls = Some w ->
  Forall event_text_ok (events w).
Proof.
  intros Hm Hc Hr. eapply ti_events, text_run_decoder; [|exact Hc|exact Hr].
  split; cbn; [constructor..|]. by apply text_run_map.
Qed.

Lemma decoder_text_valid_witness :
  exists w, run_decoder (new_world sample_configured) [CallFeed [0x61; 0xe2; 0x82]; CallFeed [0xac; 0xff; 0x62]] = Some w /\
    events w = [EText {| utf8 := [0x61] |}; EText {| utf8 := [0xe2; 0x82; 0xac] |};
                EUnknown {| unknown_reason := UnknownReasons.INVALID_UTF8; unknown_bytes := [0xff] |};
                EText {| utf8 := [0x62] |}] /\
    Forall event_text_ok (events w).
Proof.
  eexists. split; [vm_compute; reflexivity|]. split; [by vm_compute|].
  refine (decoder_text_valid sample_mapping default_limits
    [CallFeed [0x61; 0xe2; 0x82]; CallFeed [0xac; 0xff; 0x62]] _ _ _ _).
  - repeat (constructor; [first [exact I|exact text_ok_nil]|]). constructor.
  - repeat constructor; unfold in_width; lia.
  - vm_compute. reflexivity.
Defined.

(** A clipboard write, read back as the terminal's OSC 52 reply, gives the
    selection and the bytes that were written, within the decoder's limit. *)
Theorem clipboard_round_trip selection data maximum encoded limit :
  Forall is_byte data -> Z.of_nat (length data) <= limit ->
  build_clipboard_write selection data maximum = Ok encoded ->
  parse_osc52 encoded limit =
    (EClipboard {| clipboard_selection := selection; clipboard_data := data |}, OK).
Proof.
  intros Hb Hl. unfold build_clipboard_write. intros H. result_inv H. subst encoded.
  assert (E : append_base64 data (((kEscape :: str "]52;") ++ [clipboard_selector selection]) ++ str ";")
    = kEscape :: str "]52;" ++ clipboard_selector selection :: str ";" ++ append_base64 data [])
    by (rewrite !append_base64_spec by done; done).
  rewrite E. set (payload := append_base64 data []).
  unfold parse_osc52.
  assert (Hc : osc_content ((kEscape :: str "]52;" ++ clipboard_selector selection :: str ";" ++ payload) ++ kEscape :: str "\")
     = str "52;" ++ clipboard_selector selection :: SEMICOLON :: payload).
  { unfold osc_content, final_byte. change (str "]52;") with [93; 53; 50; 59]. change (str ";") with [59].
    change (str "52;") with [53; 50; 59]. change (str "\") with [92].
    replace ((kEscape :: [93; 53; 50; 59] ++ clipboard_selector selection :: [59] ++ payload) ++ kEscape :: [92])
      with ((kEscape :: [93; 53; 50; 59] ++ clipboard_selector selection :: [59] ++ payload ++ [kEscape]) ++ [92])
      by (cbn; by rewrite <- app_assoc).
    rewrite last_snoc. change (default 0 (Some 92) =? 7) with false. cbn [length].
    rewrite (proj2 (Nat.ltb_ge _ _)) by (rewrite length_app; cbn; lia).
    cbn [app drop length]. rewrite <- (app_assoc payload).
    match goal with |- take ?n (?a :: ?b :: ?c :: ?d :: ?e :: _) = _ => replace n with (5 + length payload)%nat by (rewrite ?length_app; cbn; lia) end.
    cbn [take Nat.add]. by rewrite take_app_length. }
  rewrite Hc. cbn zeta. cbn [app str]. change (starts_with (53 :: 50 :: 59 :: clipboard_selector selection :: SEMICOLON :: payload) [53; 50; 59]) with true.
  cbn [negb drop split_first]. 
  assert (Hs : clipboard_selector selection =? SEMICOLON = false) by (by destruct selection).
  rewrite Hs. cbn [split_first]. rewrite Z.eqb_refl.
  rewrite bool_decide_false.
  - assert (Hsel : osc52_selection (reverse [clipboard_selector selection]) = Some selection)
      by (by destruct selection).
    rewrite Hsel. unfold payload. by rewrite decode_clipboard_encoded.
  - intros Hq. apply (f_equal length) in Hq. unfold payload in Hq. rewrite append_base64_spec in Hq by done.
    cbn [app] in Hq. rewrite length_app in Hq.
    destruct (base64_sizes data) as (q & r & _ & Hr & E2 & E3). rewrite E2, E3 in Hq. cbn in Hq.
    destruct (Nat.eqb_spec r 0); lia.
Qed.

Lemma clipboard_round_trip_witness :
  parse_osc52 (esc "]52;c;aGk=" ++ esc "\") 10 =
    (EClipboard {| clipboard_selection := ClipboardSelections.CLIPBOARD; clipboard_data := str "hi" |}, OK).
Proof.
  refine (clipboard_round_trip ClipboardSelections.CLIPBOARD (str "hi") 100 _ 10 _ _ _).
  - repeat constructor; unfold in_width; lia.
  - vm_compute. discriminate.
  - vm_compute. reflexivity.
Defined.

(** C1. However a stream within the limits is cut into pieces, feeding the
    pieces one by one emits what feeding it whole emits (text and paste data
    compared byte by byte) and leaves the same decoding state, provided every
    mapped sequence starts with a control byte. *)
Theorem decoder_chunk_independent (mapping : list MapCall) (l : DecoderLimits) (chunks : list bytes) :
  control_keys (trie_ (run_map mapping)) = true ->
  Z.of_nat (length (concat chunks)) <= maximum_pending_bytes l ->
  Z.of_nat (length (concat chunks)) <= maximum_paste_bytes l ->
  let w := new_world (configured_decoder (run_map mapping) l) in
  exists whole parts, run_decoder w [CallFeed (concat chunks)] = Some whole /\
    run_decoder w (map CallFeed chunks) = Some parts /\
    flat (events parts) = flat (events whole) /\ sim whole parts.
Proof.
  intros Hk Hp Hm w.
  destruct (feeds_settle_whole w chunks) as (whole & parts & E1 & E2 & S).
  - apply configured_dinv.
  - apply control_keys_ok; [apply run_map_ok|done].
  - done.
  - split; [done|]. cbn. lia.
  - cbn in *. unfold pending_bytes, positive_limit. cbn. destruct (Z.eqb_spec (maximum_pending_bytes l) 0); lia.
  - exists whole, parts. split_and!; [done..|apply S|exact S].
Qed.

Lemma decoder_chunk_independent_witness :
  exists whole parts,
    run_decoder (new_world sample_configured) [CallFeed (esc "[200~ab" ++ esc "[201~hi" ++ esc "[1;2A")] = Some whole /\
    run_decoder (new_world sample_configured)
      (map CallFeed [esc "[20"; str "0~a"; str "b" ++ esc "[2"; str "01~h"; str "i" ++ esc "[1;"; str "2A"]) = Some parts /\
    flat (events parts) = flat (events whole).
Proof.
  destruct (decoder_chunk_independent sample_mapping default_limits
    [esc "[20"; str "0~a"; str "b" ++ esc "[2"; str "01~h"; str "i" ++ esc "[1;"; str "2A"])
    as (whole & parts & E1 & E2 & E3 & _); [by vm_compute|by vm_compute|by vm_compute|].
  exists whole, parts. split; [exact E1|]. split; [exact E2|exact E3].
Defined.

(** The proviso is needed: where a printable byte is itself mapped, the
    mapping is honoured only at the start of a run of text, so that the pieces
    of a stream decide which events it gives. *)
Theorem printable_mapping_depends_on_chunks :
  let mapping := sample_mapping ++ [RegisterSequence (str "b") (EmitInputEvent (ECommand {| command := Commands.ENTER_COMMAND_MODE |}))] in
  let w := new_world (configured_decoder (run_map mapping) default_limits) in
  events <$> run_decoder w [CallFeed (str "ab")] = Some [EText {| utf8 := str "ab" |}] /\
  events <$> run_decoder w [CallFeed (str "a"); CallFeed (str "b")] =
    Some [EText {| utf8 := str "a" |}; ECommand {| command := Commands.ENTER_COMMAND_MODE |}].
Proof. split; by vm_compute. Qed.
